(* ===== verification/_CoqProject ===== *)
-Q . S2P
Prelude.v
Bytes.v
ProcessIdentity.v
Model.v
TraceRuntime.v
Attach.v
Wire.v
Vsock.v
Upstream.v
Utf8.v
SandboxObservation.v
BatchCodec.v
GatewayIngest.v
GatewayConnection.v
PolicyPath.v
VsockGateway.v
GatewayLink.v
SandboxAgent.v
SandboxAgentFacts.v
SandboxAgentControl.v
SandboxAgentPanic.v
AgentToSink.v
SessionStatus.v
AlertCodec.v
AlertCodecFacts.v
AlertStream.v
AlertProxy.v
AlertProxyIngress.v
AlertProxySubscribers.v
AlertForwarding.v
AlertForwardingFacts.v
AlertToProxy.v
CommandText.v
FileScope.v
FilePolicy.v
CommandPolicy.v
NetAddr.v
NetworkPolicy.v
Idle.v
Scan.v
Sse.v
Http1.v
Http1Facts.v
Payload.v
Evidence.v
Http2.v
WebSocket.v
WsRoundtrip.v
WsTransport.v
HttpSession.v
HttpSessionFacts.v
