(* ===== verification/Prelude.v ===== *)
(** AcTrail: a verification library for the core of the local observation daemon.

    AcTrail watches AI agents on a host.  A collector (eBPF) reports process events; the
    daemon gives every process a stable identity, groups processes into traces and
    attaches to running process trees.  Agents inside sandboxes batch observations and
    send them over a vsock gateway to the daemon.  Captured traffic is cut into HTTP,
    server-sent events and WebSocket messages.  Policies decide which commands may run,
    which files may be opened and which connections made; a detector raises alerts for
    stalled agents, and alerts are forwarded to an alert proxy that serves subscribers.
    This library models those parts of the Rust sources and proves what makes them
    correct.

    * Files and the sources they model

    - Prelude: results, the state monad [ST] in which an error path keeps the mutations
      made before it (Rust does not roll back), panics as [Panicked], machine-integer
      ranges with wrapping and checked addition, [BTreeMap]/[BTreeSet] as stdpp's [gmap]
      and [gset] with the iteration order of their keys ([bt_list], [bs_list]).
    - Bytes, Utf8: big-endian integers, byte operations, [str::from_utf8].

    Processes and traces:
    - ProcessIdentity (crates/core/process_identity): module [Mgr] is
      ProcessIdentityManager: the record table, the indexes by host pid and by namespace
      pid, the active maps, resolution, enrichment, exit, reserved id blocks.
    - Model (crates/core/model): capabilities, lifecycle states, memberships, trace
      records, with the names they are stored and shown under.
    - TraceRuntime (crates/core/trace_runtime): [StateMachine] (state_machine.rs),
      [MembershipIndex] (membership.rs), [Plan] (sensor_plan.rs), [Registry]
      (registry.rs).  Random bytes and times are arguments of the operations.
    - Attach (crates/core/attach_runtime): [Merge] (identity_merge.rs,
      snapshot_merge.rs) and [Bootstrap.attach_existing] (bootstrap.rs), which drives
      the identity manager and the registry; the identity reader, the tree snapshotter
      and the collector are type classes.

    From the sandbox to the daemon:
    - Wire, Vsock, Upstream (crates/contracts/sandbox_link): the two framed protocols
      share their code up to constants, so [Wire] models header, frame and stream
      decoder over a class [Protocol], and [Vsock] and [Upstream] are its instances
      with their own handshakes and the forwarding envelope.
    - SandboxObservation (crates/contracts/sandbox_observation): observation types,
      validation, workload and container identities (SHA-256 is a parameter).
    - BatchCodec (crates/contracts/sandbox_link/vsock/src/batch_codec.rs): the cursor
      and the binary codec of observation batches.
    - SandboxAgent, SandboxAgentFacts, SandboxAgentControl, SandboxAgentPanic
      (crates/core/sandbox_agent_runtime, crates/contracts/sandbox_control): the workers,
      the queue and the session owner of the agent in the sandbox, and their theorems.
    - SessionStatus (session/status.rs there): the status cell, a sequence lock.
    - VsockGateway, GatewayLink (crates/core/vsock_gateway_runtime): the worker of a
      sandbox connection, the registry of ids, the upstream link with its quotas.
    - GatewayIngest (crates/core/gateway_ingest_runtime): the shared atomics of the
      daemon's side; every access of [try_open], of deliveries and of drops is one step.
    - GatewayConnection (crates/adapters/sandbox_link/upstream/src/connection.rs): the
      worker of one gateway connection; socket and observation sink are type classes.
    - AgentToSink: the agent, the gateway and the connection worker put together.

    Alerts:
    - Idle (crates/core/idle_detector, execution states of crates/adapters/agent_host):
      the detector of stalled agents.
    - AlertCodec, AlertCodecFacts, AlertStream (crates/contracts/alert_delivery): the
      messages, their binary and JSON frames, the stream decoders; JSON is a type class.
    - AlertForwarding, AlertForwardingFacts (crates/plugins/alert_forwarding and
      crates/apps/daemon/src/services/alert_forwarding): publishers, the plugin with its
      connection generations, the link's reader and writer, the control threads.
    - AlertProxy, AlertProxyIngress, AlertProxySubscribers (crates/apps/alert_proxy):
      producer sessions, broadcaster, subscriber sessions, accept loops.
    - AlertToProxy: daemon and proxy on the two ends of one connection.

    Policies (crates/access_control, contract types of crates/core/plugin_system):
    - PolicyPath: lexical normalisation and binding through symbolic links over a file
      system that is a parameter.
    - CommandText, CommandPolicy: argument patterns, grants, the rules-file parser, the
      store with its index by bound executable.
    - FileScope, FilePolicy: path scopes, the store with its watched directories.
    - NetAddr, NetworkPolicy: numeric addresses and their text, selectors, the store.

    Captured traffic (crates/core/semantic_action_runtime/src/llm_pipeline):
    - Scan, Sse (stream/sse_framer): resumable search; server-sent events.
    - Payload, Evidence: captured segments, and the segments behind a body's bytes.
    - Http1, Http1Facts, HttpSession, HttpSessionFacts (transport/http1): the decoder
      and the session that turns its steps into events.
    - Http2 (transport/http2): frame boundaries.
    - WebSocket, WsRoundtrip, WsTransport (transport/websocket): frames and messages of
      one direction, and the table of connections.

    * What the theorems show

    - Identity: two resolutions give the same identity exactly when pid and start time
      agree, whatever happens in between, so pid reuse never confuses processes; the
      indexes stay consistent under every sequence of calls.
    - Traces: the registry invariant holds under every sequence of operations; the
      lifecycle only moves forward; a process exit drains, completes or ends a trace
      exactly as described.
    - Attach: a success registers exactly one active trace with the snapshot's members;
      failures never panic and leave a described state.
    - Wire: any cutting of the byte stream into reads delivers the encoded frames;
      batches and handshakes round-trip, and whatever the decoders accept is valid.
    - Sandbox: under every interleaving what the agent writes is what its queue accepted
      in this session, in order; the owner is woken for what it waits for; callers and
      owner agree on a request; status snapshots are atomic; batches fit their frames;
      end to end, batches of the agent reach the daemon's sink.
    - Gateway: connection counts, ids, quotas and queue places are accounted for, nothing
      is admitted after shutdown, which terminates; reconnecting loses nothing in flight.
    - Alerts: a poll raises exactly the alerts that are due.  The daemon forwards what it
      accepted, in order, and only what a filter let through; the proxy receives a prefix
      of it and neither side ever refuses the other's messages; one daemon at a time is
      served; every subscriber gets the matching alerts without gaps until it is closed.
    - Policies: after any history of updates each store answers with the highest-ranked
      matching rule; updates stay within the caller's grants; binding terminates at a
      link-free path.
    - Traffic: decoders give the same result however the bytes were cut; encoded messages
      come back; message events are well bracketed and no call panics.

    * Fuel and bounds

    [Stream.drain] has one unit of fuel per buffered byte plus one, and every frame
    consumes at least its header; so do the other stream loops.  [Ingest.try_open] takes
    at most six accesses; [Bind.bind] has the step budget plus one, and every pending step
    was paid for out of the budget ([BindFacts.bind_total]); [Connection.run_inner]
    follows a list of read results.  The loops of the traffic decoders have one more than
    the bytes they work on (server-sent events: the body; chunks and sessions: the wire;
    HTTP/2 and WebSocket: the buffer), the inflate loop has the input's length and the
    largest output; numbers of addresses are printed with as many digits as their widest
    value has.  That the fuel is enough is part of the theorems about each loop.

    Interleaved models (agent, status cell, gateway, ingest, forwarding, proxy) take one
    step per access to something shared, in any order; memory is sequentially consistent.
    Integers are [Z] with explicit ranges; release builds wrap, which counters and ids
    write out.  The file system does not change during one policy call.

    * Not modelled

    eBPF programs and loaders, /proc and cgroup readers, SQLite storage, exporters, the
    web server and front end, the cluster services, most service threads of the daemon,
    the WASM plugin host with its grants, and the TLS probe tools: they are I/O,
    third-party code or the kernel.  Of semantic_action_runtime, HPACK, the HTTP/2 stream
    state, the protocols of single model providers and their projection into actions are
    left out; of the alert proxy and the forwarding service, binding of sockets, starting
    the process and checks of their configuration files. *)
From stdpp Require Import prelude gmap strings sorting.
From Stdlib Require Import ZArith Lia.

#[global] Unset Program Cases.
Open Scope Z_scope.

(** * Rust results and the fallible state monad *)

(** [Result<A, E>]. *)
Inductive result (E A : Type) : Type :=
| Ok (a : A)
| Err (e : E).
Arguments Ok {E A} a.
Arguments Err {E A} e.

Lemma Ok_inj {E A} (a b : A) : Ok (E:=E) a = Ok b → a = b.
Proof. by intros [= ->]. Qed.

#[export] Instance result_ret {E} : MRet (result E) := λ A a, Ok a.
#[export] Instance result_bind {E} : MBind (result E) := λ A B k m,
  match m with Ok a => k a | Err e => Err e end.
#[export] Instance result_fmap {E} : FMap (result E) := λ A B f m,
  match m with Ok a => Ok (f a) | Err e => Err e end.

(** [Result::map_err]. *)
Definition map_err {E F A} (f : E → F) (m : result E A) : result F A :=
  match m with Ok a => Ok a | Err e => Err (f e) end.

(** [Option::ok_or]. *)
Definition ok_or {E A} (e : E) (o : option A) : result E A :=
  match o with Some a => Ok a | None => Err e end.

(** [Result::is_ok_and]. *)
Definition is_ok_and {E A} (p : A → bool) (m : result E A) : bool :=
  match m with Ok a => p a | Err _ => false end.

Definition is_ok {E A} (m : result E A) : bool :=
  match m with Ok _ => true | Err _ => false end.

(** How a call can end besides returning normally: [expect]/[unwrap]/index panics
    are kept apart from the error values the code returns. *)
Inductive fault (E : Type) : Type :=
| Panicked
| Failed (e : E).
Arguments Panicked {E}.
Arguments Failed {E} e.

(** A method [fn f(&mut self, ..) -> Result<A, E>]: the receiver's new value is
    produced on the error path too, because Rust does not roll mutations back. *)
Definition ST (S E A : Type) : Type := S → result E A * S.

#[export] Instance st_ret {S E} : MRet (ST S E) := λ A a s, (Ok a, s).
#[export] Instance st_bind {S E} : MBind (ST S E) := λ A B k m s,
  match m s with
  | (Ok a, s') => k a s'
  | (Err e, s') => (Err e, s')
  end.

Definition st_get {S E} : ST S E S := λ s, (Ok s, s).
Definition st_put {S E} (s' : S) : ST S E () := λ _, (Ok (), s').
Definition st_fail {S E A} (e : E) : ST S E A := λ s, (Err e, s).
Definition st_lift {S E A} (m : result E A) : ST S E A := λ s, (m, s).
Definition st_map_err {S E F A} (f : E → F) (m : ST S E A) : ST S F A := λ s,
  let '(r, s') := m s in (map_err f r, s').

Lemma st_bind_inv {S E A B} (m : ST S E A) (k : A → ST S E B) s r s' :
  (m ≫= k) s = (r, s') →
  (∃ a s1, m s = (Ok a, s1) ∧ k a s1 = (r, s')) ∨ (∃ e, m s = (Err e, s') ∧ r = Err e).
Proof.
  unfold mbind, st_bind. destruct (m s) as [[a|e] s1]; intros Hk; [left|right]; eauto.
  by simplify_eq; eauto.
Qed.

(** * Machine integers, as [Z] with explicit ranges *)

Definition u8_max : Z := 2 ^ 8 - 1.
Definition u16_max : Z := 2 ^ 16 - 1.
Definition u32_max : Z := 2 ^ 32 - 1.
Definition u64_max : Z := 2 ^ 64 - 1.
Definition in_u8 (z : Z) : Prop := 0 ≤ z ≤ u8_max.
Definition in_u16 (z : Z) : Prop := 0 ≤ z ≤ u16_max.
Definition in_u32 (z : Z) : Prop := 0 ≤ z ≤ u32_max.
Definition in_u64 (z : Z) : Prop := 0 ≤ z ≤ u64_max.

(** [!x] on [u32]. *)
Definition not_u32 (z : Z) : Z := Z.lxor z u32_max.

(** [+] on [u64] in a build without overflow checks (the workspace sets none). *)
Definition wrapping_add_u64 (a b : Z) : Z := (a + b) mod 2 ^ 64.
(** [u64::checked_add]. *)
Definition checked_add_u64 (a b : Z) : option Z :=
  if decide (a + b ≤ u64_max) then Some (a + b) else None.

Lemma wrapping_add_u64_small a b :
  0 ≤ a → 0 ≤ b → a + b ≤ u64_max → wrapping_add_u64 a b = a + b.
Proof. unfold wrapping_add_u64, u64_max. intros. apply Z.mod_small. lia. Qed.

Lemma checked_add_u64_Some a b c :
  checked_add_u64 a b = Some c ↔ c = a + b ∧ a + b ≤ u64_max.
Proof. unfold checked_add_u64. case_decide; split; intros; destruct_and?; simplify_eq; auto; lia. Qed.

(** [x & (1 << i) == 0] tests one bit. *)
Lemma land_bit x i : 0 ≤ i → (Z.land x (Z.shiftl 1 i) =? 0) = negb (Z.testbit x i).
Proof.
  intros Hi. rewrite Z.shiftl_1_l. destruct (Z.testbit x i) eqn:E; simpl.
  - apply Z.eqb_neq. intros H. apply (f_equal (λ z, Z.testbit z i)) in H.
    by rewrite Z.land_spec, E, Z.pow2_bits_true, Z.bits_0 in H by done.
  - apply Z.eqb_eq, Z.bits_inj'. intros n Hn.
    rewrite Z.land_spec, Z.pow2_bits_eqb, Z.bits_0 by done.
    destruct (Z.eqb_spec i n) as [<-|]; [by rewrite E|apply andb_false_r].
Qed.

(** * Ordered containers: [BTreeMap] and [BTreeSet] *)

(** The key order a [BTreeMap] iterates in ([Ord] of the key type). *)
Class BOrd (K : Type) : Type := {
  bo_le : relation K;
  bo_dec : RelDecision bo_le;
  bo_po : PartialOrder bo_le;
  bo_total : Total bo_le;
}.
#[export] Existing Instances bo_dec bo_po bo_total.

#[export] Program Instance Z_bord : BOrd Z := {| bo_le := Z.le |}.
#[export] Program Instance string_bord : BOrd string := {| bo_le := String.le |}.

(** [#[derive(Ord)]] on pairs: lexicographic. *)
Section prod_order.
Context `{BOrd A, BOrd B}.

Definition lex_le : relation (A * B) := λ p q,
  (p.1 ≠ q.1 ∧ bo_le p.1 q.1) ∨ (p.1 = q.1 ∧ bo_le p.2 q.2).

#[export] Instance lex_le_dec `{!EqDecision A} : RelDecision lex_le.
Proof. intros p q. unfold lex_le. apply _. Defined.

#[export] Instance lex_le_po : PartialOrder lex_le.
Proof.
  split; [split|].
  - intros p. right. split; [done|reflexivity].
  - intros [a1 b1] [a2 b2] [a3 b3] [[Hn1 H1]|[E1 H1]] [[Hn2 H2]|[E2 H2]];
      simpl in *; subst; unfold lex_le; simpl.
    + left. split; [|by etrans]. intros ->. apply Hn1. by apply (anti_symm bo_le).
    + by left.
    + by left.
    + right. split; [done|by etrans].
  - intros [a1 b1] [a2 b2] [[Hn1 H1]|[E1 H1]] [[Hn2 H2]|[E2 H2]];
      simpl in *; subst; try done.
    + destruct Hn1. by apply (anti_symm bo_le).
    + f_equal. by apply (anti_symm bo_le).
Qed.

#[export] Instance lex_le_total `{!EqDecision A} : Total lex_le.
Proof.
  intros [a1 b1] [a2 b2]. unfold lex_le; simpl.
  destruct (decide (a1 = a2)) as [->|Hne].
  - destruct (total bo_le b1 b2); auto.
  - destruct (total bo_le a1 a2); auto.
Qed.
End prod_order.

#[export] Instance prod_bord `{BOrd A, BOrd B, EqDecision A} : BOrd (A * B) :=
  {| bo_le := lex_le |}.

(** [Ord] of sequences: lexicographic. *)
Section list_order.
Context `{BOrd A, !EqDecision A}.

Fixpoint list_le (l k : list A) : Prop :=
  match l, k with
  | [], _ => True
  | _ :: _, [] => False
  | a :: l', b :: k' => (a ≠ b ∧ bo_le a b) ∨ (a = b ∧ list_le l' k')
  end.

#[export] Instance list_le_dec : RelDecision list_le.
Proof.
  intros l. induction l as [|a l IH]; intros [|b k]; simpl; apply _.
Defined.

Lemma list_le_refl l : list_le l l.
Proof. induction l; simpl; auto. Qed.

Lemma list_le_trans l1 l2 l3 : list_le l1 l2 → list_le l2 l3 → list_le l1 l3.
Proof.
  revert l2 l3. induction l1 as [|a l1 IH]; intros [|b l2] [|c l3]; simpl; try tauto.
  intros [[Hn1 H1]|[-> H1]] [[Hn2 H2]|[-> H2]]; eauto.
  left. split; [|by trans b]. intros ->. apply Hn1. by apply (anti_symm bo_le).
Qed.

Lemma list_le_antisymm l k : list_le l k → list_le k l → l = k.
Proof.
  revert k. induction l as [|a l IH]; intros [|b k]; simpl; try done.
  intros [[Hn1 H1]|[E1 H1]] [[Hn2 H2]|[E2 H2]]; subst; try done.
  - destruct Hn1. by apply (anti_symm bo_le).
  - f_equal. auto.
Qed.

#[export] Instance list_le_po : PartialOrder list_le.
Proof.
  split; [split|].
  - intros l. apply list_le_refl.
  - intros l1 l2 l3. apply list_le_trans.
  - intros l k. apply list_le_antisymm.
Qed.

#[export] Instance list_le_total : Total list_le.
Proof.
  intros l. induction l as [|a l IH]; intros [|b k]; simpl; auto.
  destruct (decide (a = b)) as [->|Hne].
  - destruct (IH k); auto.
  - destruct (total bo_le a b); auto.
Qed.

#[export] Instance list_bord : BOrd (list A) := {| bo_le := list_le |}.
End list_order.

(** An order carried along an injective encoding of a struct into a tuple. *)
Section inj_order.
Context `{BOrd B} {A : Type} (f : A → B) `{!Inj (=) (=) f}.

Definition via_le : relation A := λ x y, bo_le (f x) (f y).

#[export] Instance via_le_dec : RelDecision via_le.
Proof. intros x y. unfold via_le. apply _. Defined.
#[export] Instance via_le_po : PartialOrder via_le.
Proof.
  unfold via_le. split; [split|].
  - intros x. reflexivity.
  - intros x y z ??. by trans (f y).
  - intros x y ??. by apply (inj f), (anti_symm bo_le).
Qed.
#[export] Instance via_le_total : Total via_le.
Proof. intros x y. apply (total bo_le). Qed.

Definition via_bord : BOrd A := {| bo_le := via_le |}.
End inj_order.

(** Iteration order of a [BTreeMap]: its bindings by increasing key. *)
Section btree_map.
Context {K V : Type} `{Countable K, !BOrd K}.
Implicit Types (m : gmap K V) (k : K) (v : V).

Definition key_le : relation (K * V) := λ p q, bo_le p.1 q.1.
#[local] Instance key_le_dec : RelDecision key_le.
Proof. intros p q. unfold key_le. apply _. Defined.
#[local] Instance key_le_trans : Transitive key_le.
Proof. intros p q r ??. unfold key_le in *. by trans q.1. Qed.
#[local] Instance key_le_total : Total key_le.
Proof. intros p q. apply (total bo_le). Qed.

Definition bt_list m : list (K * V) := merge_sort key_le (map_to_list m).
Definition bt_keys m : list K := (bt_list m).*1.
Definition bt_values m : list V := (bt_list m).*2.

Lemma bt_list_perm m : bt_list m ≡ₚ map_to_list m.
Proof. apply merge_sort_Permutation. Qed.

Lemma elem_of_bt_list m k v : (k, v) ∈ bt_list m ↔ m !! k = Some v.
Proof. by rewrite bt_list_perm, elem_of_map_to_list. Qed.

Lemma elem_of_bt_values m v : v ∈ bt_values m ↔ ∃ k, m !! k = Some v.
Proof.
  unfold bt_values. rewrite list_elem_of_fmap. split.
  - intros ([k v'] & -> & Hin). exists k. by apply elem_of_bt_list.
  - intros [k Hk]. exists (k, v). by rewrite elem_of_bt_list.
Qed.

Lemma bt_list_sorted m : StronglySorted key_le (bt_list m).
Proof. apply StronglySorted_merge_sort; apply _. Qed.

Lemma bt_list_NoDup_keys m : NoDup (bt_keys m).
Proof. unfold bt_keys. rewrite bt_list_perm. apply NoDup_fst_map_to_list. Qed.
End btree_map.

(** Iteration order of a [BTreeSet]. *)
Definition bs_list `{Countable K, !BOrd K} (s : gset K) : list K :=
  merge_sort bo_le (elements s).
(** [BTreeSet::first]. *)
Definition bs_first `{Countable K, !BOrd K} (s : gset K) : option K := head (bs_list s).

Lemma bs_list_perm `{Countable K, !BOrd K} (s : gset K) : bs_list s ≡ₚ elements s.
Proof. apply merge_sort_Permutation. Qed.

Lemma elem_of_bs_list `{Countable K, !BOrd K} (s : gset K) (x : K) :
  x ∈ bs_list s ↔ x ∈ s.
Proof. by rewrite bs_list_perm, elem_of_elements. Qed.

Lemma bs_first_elem `{Countable K, !BOrd K} (s : gset K) (x : K) :
  bs_first s = Some x → x ∈ s.
Proof.
  unfold bs_first. intros Hx. apply elem_of_bs_list.
  destruct (bs_list s); simplify_eq/=. apply list_elem_of_here.
Qed.

Lemma bs_first_None `{Countable K, !BOrd K} (s : gset K) : bs_first s = None ↔ s = ∅.
Proof.
  unfold bs_first. split.
  - destruct (bs_list s) eqn:E; [|done]. intros _.
    apply set_eq. intros x. rewrite <-elem_of_bs_list, E. set_solver.
  - intros ->. by assert (bs_list (∅ : gset K) = []) as ->
      by (apply Permutation_nil; by rewrite bs_list_perm, elements_empty).
Qed.

Lemma bs_list_singleton `{Countable K, !BOrd K} (x : K) : bs_list {[x]} = [x].
Proof. apply Permutation_singleton_r. by rewrite bs_list_perm, elements_singleton. Qed.

(** * Lists *)

Lemma mjoin_cons {A} (x : list A) (xs : list (list A)) : mjoin (x :: xs) = x ++ mjoin xs.
Proof. done. Qed.

Lemma mjoin_app {A} (xs ys : list (list A)) : mjoin (xs ++ ys) = mjoin xs ++ mjoin ys.
Proof. induction xs as [|x xs IH]; [done|]. cbn [app]. by rewrite !mjoin_cons, IH, app_assoc. Qed.

(** Split conjunctions that are written as such, unfolding nothing. *)
Ltac splits := repeat match goal with |- _ ∧ _ => split end.

Lemma result_bind_inv {E A B} (m : result E A) (k : A → result E B) b :
  m ≫= k = Ok b → ∃ a, m = Ok a ∧ k a = Ok b.
Proof. destruct m; simpl; [eauto|done]. Qed.

(** The first match in a sorted list is the least match. *)
Lemma find_sorted {A} (R : relation A) `{!Reflexive R} (P : A → bool) l r :
  StronglySorted R l → List.find P l = Some r →
  r ∈ l ∧ P r = true ∧ ∀ r', r' ∈ l → P r' = true → R r r'.
Proof.
  induction 1 as [|a l Hs IH Ha]; simpl; [done|]. destruct (P a) eqn:E.
  - intros [= <-]. splits; [apply list_elem_of_here|done|].
    intros r' [-> | Hr']%elem_of_cons _; [reflexivity|].
    by apply (Forall_forall (R a) l).
  - intros Hf. destruct (IH Hf) as (Hr & Hp & Hmin). splits; [by apply list_elem_of_further|done|].
    intros r' [-> | Hr']%elem_of_cons Hp'; [congruence|auto].
Qed.

Lemma find_None {A} (P : A → bool) l :
  List.find P l = None ↔ ∀ r, r ∈ l → P r = false.
Proof.
  induction l as [|a l IH]; simpl.
  { split; [|done]. intros _ r Hr. by apply not_elem_of_nil in Hr. }
  destruct (P a) eqn:E.
  - split; [done|]. intros H. specialize (H a (list_elem_of_here _ _)). congruence.
  - rewrite IH. split.
    + intros H r [-> | Hr]%elem_of_cons; auto.
    + intros H r Hr. apply H. by apply list_elem_of_further.
Qed.

(** [m.values().flat_map(|inner| inner.values())] on nested [BTreeMap]s. *)
Definition bt_flat `{Countable K, !BOrd K} {V} (m : gmap K (gmap K V)) : list V :=
  mjoin (bt_values <$> bt_values m).

Lemma elem_of_bt_flat `{Countable K, !BOrd K} {V} (m : gmap K (gmap K V)) (v : V) :
  v ∈ bt_flat m ↔ ∃ o rs id, m !! o = Some rs ∧ rs !! id = Some v.
Proof.
  unfold bt_flat. rewrite list_elem_of_join. setoid_rewrite list_elem_of_fmap. split.
  - intros (l & Hr & rs & -> & [o Ho]%elem_of_bt_values).
    apply elem_of_bt_values in Hr as [id Hid]. by eauto.
  - intros (o & rs & id & Ho & Hid). exists (bt_values rs). split.
    + apply elem_of_bt_values. eauto.
    + exists rs. split; [done|]. apply elem_of_bt_values. eauto.
Qed.

(** * Tables of names *)

(** [match value { "a" => A, "b" => B, .. }] on strings, first match wins. *)
Fixpoint str_match {A} (table : list (string * A)) (value : string) : option A :=
  match table with
  | [] => None
  | (name, a) :: rest => if String.eqb value name then Some a else str_match rest value
  end.

(** * Automation *)

Create HintDb actrail.
#[export] Hint Resolve wrapping_add_u64_small : actrail.
#[export] Hint Resolve -> elem_of_bt_values elem_of_bs_list : actrail.
#[export] Hint Resolve <- elem_of_bt_values elem_of_bs_list : actrail.

(** Unfold the monadic plumbing of a definition in a hypothesis or the goal. *)
Ltac munfold :=
  unfold mbind, mret, fmap, result_bind, result_ret, result_fmap, st_bind, st_ret,
    st_get, st_put, st_fail, st_lift, st_map_err, map_err, ok_or in *.

(** Case on every [match]/[if] scrutinee in sight, discarding impossible cases. *)
Ltac split_cases :=
  repeat (case_match; simplify_eq/=; try done).
