(* ===== verification/Bytes.v ===== *)
(** Bytes and the big-endian integer encodings of the wire formats
    ([to_be_bytes] / [from_be_bytes] of the Rust standard library), on top of
    coqutil's bytes. *)
From stdpp Require Import prelude strings.
From coqutil Require Import Byte Word.LittleEndianList.
From Stdlib Require Import ZArith Lia.
From S2P Require Import Prelude.

Open Scope Z_scope.

#[export] Instance byte_eq_dec : EqDecision byte.
Proof. intros a b. destruct (Byte.byte_eq_dec a b); [left|right]; done. Defined.

Definition zero_byte : byte := Byte.x00.

(** [n]-byte big-endian encoding of an unsigned integer, and its reading. *)
Definition to_be_bytes (n : nat) (z : Z) : list byte := reverse (le_split n z).
Definition from_be_bytes (bs : list byte) : Z := le_combine (reverse bs).

#[global] Arguments to_be_bytes : simpl never.
#[global] Arguments from_be_bytes : simpl never.

Lemma length_to_be_bytes n z : length (to_be_bytes n z) = n.
Proof. unfold to_be_bytes. by rewrite length_reverse, length_le_split. Qed.

Lemma from_to_be_bytes n z :
  0 ≤ z < 2 ^ (Z.of_nat n * 8) → from_be_bytes (to_be_bytes n z) = z.
Proof.
  intros. unfold from_be_bytes, to_be_bytes.
  rewrite reverse_involutive, le_combine_split. by apply Z.mod_small.
Qed.

Lemma to_from_be_bytes n bs :
  length bs = n → to_be_bytes n (from_be_bytes bs) = bs.
Proof.
  intros <-. unfold from_be_bytes, to_be_bytes.
  rewrite <-length_reverse, split_le_combine. apply reverse_involutive.
Qed.

Lemma from_be_bytes_bound bs :
  0 ≤ from_be_bytes bs < 2 ^ (Z.of_nat (length bs) * 8).
Proof.
  unfold from_be_bytes. rewrite <-(length_reverse bs).
  rewrite Z.mul_comm. apply le_combine_bound.
Qed.

(** Width-specific forms. *)
Definition u8_be (z : Z) : list byte := to_be_bytes 1 z.
Definition u16_be (z : Z) : list byte := to_be_bytes 2 z.
Definition u32_be (z : Z) : list byte := to_be_bytes 4 z.
Definition u64_be (z : Z) : list byte := to_be_bytes 8 z.

#[global] Arguments u8_be : simpl never.
#[global] Arguments u16_be : simpl never.
#[global] Arguments u32_be : simpl never.
#[global] Arguments u64_be : simpl never.

Lemma length_u8_be z : length (u8_be z) = 1%nat.
Proof. apply length_to_be_bytes. Qed.
Lemma length_u16_be z : length (u16_be z) = 2%nat.
Proof. apply length_to_be_bytes. Qed.
Lemma length_u32_be z : length (u32_be z) = 4%nat.
Proof. apply length_to_be_bytes. Qed.
Lemma length_u64_be z : length (u64_be z) = 8%nat.
Proof. apply length_to_be_bytes. Qed.

Lemma from_u16_be z : in_u16 z → from_be_bytes (u16_be z) = z.
Proof. unfold in_u16, u16_max. intros. apply from_to_be_bytes. simpl. lia. Qed.
Lemma from_u32_be z : in_u32 z → from_be_bytes (u32_be z) = z.
Proof. unfold in_u32, u32_max. intros. apply from_to_be_bytes. simpl. lia. Qed.
Lemma from_u64_be z : in_u64 z → from_be_bytes (u64_be z) = z.
Proof. unfold in_u64, u64_max. intros. apply from_to_be_bytes. simpl. lia. Qed.

(** Sizes of encodings are computed by [autorewrite with lengths]. *)
Create Rewrite HintDb lengths.
#[export] Hint Rewrite @length_app @length_replicate length_u8_be length_u16_be length_u32_be
  length_u64_be : lengths.

(** Bit operations on single bytes. *)
Definition byte_and (b : byte) (mask : Z) : byte := byte.of_Z (Z.land (byte.unsigned b) mask).
Definition byte_or (b : byte) (mask : Z) : byte := byte.of_Z (Z.lor (byte.unsigned b) mask).

(** Bytes of a (UTF-8) string and back. *)
Definition string_bytes (s : string) : list byte := String.list_byte_of_string s.
