(* ===== verification/ProcessIdentity.v ===== *)
(** Process identity: the contract types and the [ProcessIdentityManager] of
    crates/core/process_identity (contract.rs, manager.rs).

    The manager hands out stable logical identities for operating-system
    processes.  It keeps the records by identity, three history indexes (host
    pid + start ticks, host pid + boot-time start, namespace coordinates) and two
    indexes of the currently active pids.  [Mgr.wf] is the invariant that ties
    the indexes to the records; the operations are translated branch by branch. *)
From stdpp Require Import prelude gmap strings sorting.
From Stdlib Require Import ZArith Lia.
From S2P Require Import Prelude.

Open Scope Z_scope.

(** * Contract types (contract.rs) *)

Abbreviation NamespaceIdentity := string (only parsing).
Abbreviation ProcessIdentity := Z (only parsing).

Record HostProcessCoordinates := mkHost {
  host_pid : Z;
  host_task_id : option Z;
  host_start_time_ticks : Z;
  host_start_boottime_ns : option Z;
}.

Record NamespaceProcessCoordinates := mkNamespace {
  ns_pid_namespace : NamespaceIdentity;
  ns_pid : Z;
  ns_start_time_ticks : Z;
}.

Record ProcessObservation := mkObservation {
  obs_host : option HostProcessCoordinates;
  obs_namespace : option NamespaceProcessCoordinates;
}.

Inductive ProcessResolutionState :=
| Provisional
| Resolved
| Conflicted.

#[export] Instance host_eq_dec : EqDecision HostProcessCoordinates.
Proof. solve_decision. Defined.
#[export] Instance ns_eq_dec : EqDecision NamespaceProcessCoordinates.
Proof. solve_decision. Defined.
#[export] Instance obs_eq_dec : EqDecision ProcessObservation.
Proof. solve_decision. Defined.
#[export] Instance resolution_state_eq_dec : EqDecision ProcessResolutionState.
Proof. solve_decision. Defined.

Definition ns_tuple (n : NamespaceProcessCoordinates) : string * (Z * Z) :=
  (ns_pid_namespace n, (ns_pid n, ns_start_time_ticks n)).
Definition ns_untuple (t : string * (Z * Z)) : NamespaceProcessCoordinates :=
  mkNamespace t.1 t.2.1 t.2.2.
#[export] Instance ns_countable : Countable NamespaceProcessCoordinates.
Proof. apply (inj_countable' ns_tuple ns_untuple). by intros []. Defined.
#[export] Instance ns_tuple_inj : Inj (=) (=) ns_tuple.
Proof. intros [] [] [=]; by subst. Qed.
#[export] Instance ns_bord : BOrd NamespaceProcessCoordinates := via_bord ns_tuple.

Definition host_tuple (h : HostProcessCoordinates) :=
  (host_pid h, host_task_id h, host_start_time_ticks h, host_start_boottime_ns h).
#[export] Instance host_countable : Countable HostProcessCoordinates.
Proof.
  apply (inj_countable' host_tuple (λ t, mkHost t.1.1.1 t.1.1.2 t.1.2 t.2)). by intros [].
Defined.
#[export] Instance obs_countable : Countable ProcessObservation.
Proof.
  apply (inj_countable' (λ o, (obs_host o, obs_namespace o)) (λ t, mkObservation t.1 t.2)).
  by intros [].
Defined.

Module HostCoordinates.
(** [HostProcessCoordinates::new] and its builder methods. *)
Definition new (pid start_time_ticks : Z) : HostProcessCoordinates :=
  mkHost pid None start_time_ticks None.
Definition with_task_id (h : HostProcessCoordinates) (task_id : Z) :=
  mkHost (host_pid h) (Some task_id) (host_start_time_ticks h) (host_start_boottime_ns h).
Definition with_start_boottime_ns (h : HostProcessCoordinates) (ns : Z) :=
  mkHost (host_pid h) (host_task_id h) (host_start_time_ticks h) (Some ns).
End HostCoordinates.

Module Observation.
(** Constructors of [ProcessObservation]. *)
Definition host (h : HostProcessCoordinates) : ProcessObservation :=
  mkObservation (Some h) None.
Definition namespace (n : NamespaceProcessCoordinates) : ProcessObservation :=
  mkObservation None (Some n).
Definition with_namespace (o : ProcessObservation) (n : NamespaceProcessCoordinates) :=
  mkObservation (obs_host o) (Some n).
End Observation.

Record ProcessRecord := mkRecord {
  rec_identity : ProcessIdentity;
  rec_host : option HostProcessCoordinates;
  rec_namespaces : gset NamespaceProcessCoordinates;
  rec_resolution_state : ProcessResolutionState;
}.
#[export] Instance record_eq_dec : EqDecision ProcessRecord.
Proof. solve_decision. Defined.

Module Record_.
(** [ProcessRecord::new]. *)
Definition new (identity : ProcessIdentity) (observation : ProcessObservation)
    : ProcessRecord :=
  {| rec_identity := identity;
     rec_host := obs_host observation;
     rec_namespaces := match obs_namespace observation with
                       | Some n => {[n]} | None => ∅ end;
     rec_resolution_state := match obs_host observation with
                             | Some _ => Resolved | None => Provisional end |}.

(** [ProcessRecord::observation]. *)
Definition observation (r : ProcessRecord) : ProcessObservation :=
  mkObservation (rec_host r) (bs_first (rec_namespaces r)).
End Record_.

Inductive SuppressedFdPurpose :=
| TlsSyncEvent
| InternalUpload
| InternalControl.

Module FdPurpose.
Definition as_str (p : SuppressedFdPurpose) : string :=
  match p with
  | TlsSyncEvent => "tls-sync-event"
  | InternalUpload => "internal-upload"
  | InternalControl => "internal-control"
  end.
Definition from_str (value : string) : result string SuppressedFdPurpose :=
  if String.eqb value "tls-sync-event" then Ok TlsSyncEvent
  else if String.eqb value "internal-upload" then Ok InternalUpload
  else if String.eqb value "internal-control" then Ok InternalControl
  else Err ("unknown suppressed fd purpose " +:+ value).
End FdPurpose.

(** * The manager (manager.rs) *)

Inductive ProcessIdentityError :=
| IdOverflow
| IdBlockExhausted
| ConflictingObservations (identities : list ProcessIdentity)
    (observation : ProcessObservation)
| HostCoordinatesConflict (identity : ProcessIdentity)
    (existing observed : HostProcessCoordinates).

Record ProcessResolution := mkResolution {
  res_identity : ProcessIdentity;
  res_created : bool;
  res_enriched : bool;
  res_displaced_active : list ProcessIdentity;
}.

Record ProcessIdentityManager := mkManager {
  next_identity : Z;
  identity_block_end : Z;
  records : gmap ProcessIdentity ProcessRecord;
  by_host_start_ticks : gmap (Z * Z) ProcessIdentity;
  by_host_start_boottime : gmap (Z * Z) ProcessIdentity;
  by_namespace : gmap NamespaceProcessCoordinates ProcessIdentity;
  active_by_host_pid : gmap Z ProcessIdentity;
  active_by_namespace_pid : gmap (NamespaceIdentity * Z) ProcessIdentity;
}.

(** Assignment to one field of the manager. *)
Definition set_next (m : ProcessIdentityManager) (next block_end : Z) :=
  mkManager next block_end (records m) (by_host_start_ticks m) (by_host_start_boottime m)
    (by_namespace m) (active_by_host_pid m) (active_by_namespace_pid m).
Definition set_records (m : ProcessIdentityManager) (r : gmap ProcessIdentity ProcessRecord) :=
  mkManager (next_identity m) (identity_block_end m) r (by_host_start_ticks m)
    (by_host_start_boottime m) (by_namespace m) (active_by_host_pid m)
    (active_by_namespace_pid m).
Definition set_history (m : ProcessIdentityManager)
    (ticks boottime : gmap (Z * Z) ProcessIdentity)
    (namespaces : gmap NamespaceProcessCoordinates ProcessIdentity) :=
  mkManager (next_identity m) (identity_block_end m) (records m) ticks boottime namespaces
    (active_by_host_pid m) (active_by_namespace_pid m).
Definition set_active (m : ProcessIdentityManager) (host : gmap Z ProcessIdentity)
    (namespaces : gmap (NamespaceIdentity * Z) ProcessIdentity) :=
  mkManager (next_identity m) (identity_block_end m) (records m) (by_host_start_ticks m)
    (by_host_start_boottime m) (by_namespace m) host namespaces.

Abbreviation IdM := (ST ProcessIdentityManager (fault ProcessIdentityError)).

Module Mgr.
(** [ProcessIdentityManager::new]. *)
Definition new (next : Z) : ProcessIdentityManager :=
  mkManager next u64_max ∅ ∅ ∅ ∅ ∅ ∅.

(** [host_coordinates_match]: same pid, and every start coordinate known on both
    sides agrees (ticks are unknown when 0). *)
Definition host_coordinates_match (l r : HostProcessCoordinates) : bool :=
  (host_pid l =? host_pid r)
  && ((host_start_time_ticks l =? 0) || (host_start_time_ticks r =? 0)
      || (host_start_time_ticks l =? host_start_time_ticks r))
  && match host_start_boottime_ns l, host_start_boottime_ns r with
     | Some a, Some b => a =? b
     | _, _ => true
     end.

(** [namespace_coordinates_match]. *)
Definition namespace_coordinates_match (l r : NamespaceProcessCoordinates) : bool :=
  bool_decide (ns_pid_namespace l = ns_pid_namespace r)
  && (ns_pid l =? ns_pid r)
  && ((ns_start_time_ticks l =? 0) || (ns_start_time_ticks r =? 0)
      || (ns_start_time_ticks l =? ns_start_time_ticks r)).

(** [index_host_coordinates]. *)
Definition index_host_coordinates (identity : ProcessIdentity)
    (host : HostProcessCoordinates) (m : ProcessIdentityManager)
    : ProcessIdentityManager :=
  let ticks :=
    if host_start_time_ticks host =? 0 then by_host_start_ticks m
    else <[(host_pid host, host_start_time_ticks host) := identity]> (by_host_start_ticks m) in
  let boottime :=
    match host_start_boottime_ns host with
    | Some ns => <[(host_pid host, ns) := identity]> (by_host_start_boottime m)
    | None => by_host_start_boottime m
    end in
  set_history m ticks boottime (by_namespace m).

(** [index_namespace_coordinates]. *)
Definition index_namespace_coordinates (identity : ProcessIdentity)
    (namespace : NamespaceProcessCoordinates) (m : ProcessIdentityManager)
    : ProcessIdentityManager :=
  if ns_start_time_ticks namespace =? 0 then m
  else set_history m (by_host_start_ticks m) (by_host_start_boottime m)
         (<[namespace := identity]> (by_namespace m)).

(** [index_record_coordinates]; also the two index loops of [load_record]. *)
Definition index_record_coordinates (record : ProcessRecord) (m : ProcessIdentityManager)
    : ProcessIdentityManager :=
  let m1 := match rec_host record with
            | Some host => index_host_coordinates (rec_identity record) host m
            | None => m
            end in
  foldl (λ acc namespace, index_namespace_coordinates (rec_identity record) namespace acc)
    m1 (bs_list (rec_namespaces record)).

(** [load_record]. *)
Definition load_record (record : ProcessRecord) : IdM () := λ m,
  match records m !! rec_identity record with
  | Some existing =>
      if bool_decide (existing = record) then (Ok (), m)
      else (Err (Failed (ConflictingObservations [rec_identity record]
              (Record_.observation record))), m)
  | None =>
      let m1 := index_record_coordinates record m in
      (Ok (), set_records m1 (<[rec_identity record := record]> (records m1)))
  end.

(** The load loop of [with_reserved_block]. *)
Fixpoint load_all (rs : list ProcessRecord) (m : ProcessIdentityManager)
    : result (fault ProcessIdentityError) ProcessIdentityManager :=
  match rs with
  | [] => Ok m
  | r :: rs' => match load_record r m with
                | (Ok _, m') => load_all rs' m'
                | (Err e, _) => Err e
                end
  end.

(** [with_reserved_block]: the manager exists only when every record loads. *)
Definition with_reserved_block (block_start block_end : Z) (recs : list ProcessRecord)
    : result (fault ProcessIdentityError) ProcessIdentityManager :=
  if (block_start =? 0) || (block_end <=? block_start)
  then Err (Failed IdBlockExhausted)
  else load_all recs (mkManager block_start block_end ∅ ∅ ∅ ∅ ∅ ∅).

(** [install_reserved_block]. *)
Definition install_reserved_block (block_start block_end : Z) : IdM () := λ m,
  if negb (next_identity m =? identity_block_end m)
     || negb (block_start =? identity_block_end m)
     || (block_end <=? block_start)
  then (Err (Failed IdBlockExhausted), m)
  else (Ok (), set_next m block_start block_end).

(** [allocate_identity]. *)
Definition allocate_identity : IdM ProcessIdentity := λ m,
  if identity_block_end m <=? next_identity m then (Err (Failed IdBlockExhausted), m)
  else match checked_add_u64 (next_identity m) 1 with
       | None => (Err (Failed IdOverflow), m)
       | Some next => (Ok (next_identity m), set_next m next (identity_block_end m))
       end.

(** [candidates]: the identities any index associates with the observation. *)
Definition opt_set (o : option ProcessIdentity) : gset ProcessIdentity :=
  match o with Some i => {[i]} | None => ∅ end.

Definition host_candidates (m : ProcessIdentityManager) (host : HostProcessCoordinates)
    : gset ProcessIdentity :=
  (if host_start_time_ticks host =? 0 then ∅
   else opt_set (by_host_start_ticks m !! (host_pid host, host_start_time_ticks host)))
  ∪ (match host_start_boottime_ns host with
     | Some ns => opt_set (by_host_start_boottime m !! (host_pid host, ns))
     | None => ∅
     end)
  ∪ opt_set (
      identity ← active_by_host_pid m !! host_pid host;
      record ← records m !! identity;
      existing ← rec_host record;
      if host_coordinates_match existing host then Some identity else None).

Definition namespace_candidates (m : ProcessIdentityManager)
    (namespace : NamespaceProcessCoordinates) : gset ProcessIdentity :=
  (if ns_start_time_ticks namespace =? 0 then ∅
   else opt_set (by_namespace m !! namespace))
  ∪ opt_set (
      identity ← active_by_namespace_pid m !!
                   (ns_pid_namespace namespace, ns_pid namespace);
      record ← records m !! identity;
      if existsb (λ existing, namespace_coordinates_match existing namespace)
           (bs_list (rec_namespaces record))
      then Some identity else None).

Definition candidates (m : ProcessIdentityManager) (observation : ProcessObservation)
    : gset ProcessIdentity :=
  (match obs_host observation with Some h => host_candidates m h | None => ∅ end)
  ∪ (match obs_namespace observation with
     | Some n => namespace_candidates m n | None => ∅ end).

(** The in-place update of known host coordinates inside [enrich]. *)
Definition enrich_coordinates (existing observed : HostProcessCoordinates)
    : HostProcessCoordinates * bool :=
  let fill_ticks := (host_start_time_ticks existing =? 0)
                    && negb (host_start_time_ticks observed =? 0) in
  let fill_boottime := bool_decide (host_start_boottime_ns existing = None)
                       && negb (bool_decide (host_start_boottime_ns observed = None)) in
  let fill_task := bool_decide (host_task_id existing = None)
                   && negb (bool_decide (host_task_id observed = None)) in
  (mkHost (host_pid existing)
     (if fill_task then host_task_id observed else host_task_id existing)
     (if fill_ticks then host_start_time_ticks observed else host_start_time_ticks existing)
     (if fill_boottime then host_start_boottime_ns observed
      else host_start_boottime_ns existing),
   fill_ticks || fill_boottime || fill_task).

Arguments enrich_coordinates : simpl never.

(** The host half of [enrich] on the record: [Err] is the coordinate conflict. *)
Definition enrich_host (record : ProcessRecord) (observed : option HostProcessCoordinates)
    : result (HostProcessCoordinates * HostProcessCoordinates)
             (option HostProcessCoordinates * bool) :=
  match observed, rec_host record with
  | None, existing => Ok (existing, false)
  | Some observed, None => Ok (Some observed, true)
  | Some observed, Some existing =>
      if host_coordinates_match existing observed
      then let '(h, e) := enrich_coordinates existing observed in Ok (Some h, e)
      else Err (existing, observed)
  end.

(** [enrich].  The record must exist ([expect]); a conflict marks it and fails. *)
Definition enrich (identity : ProcessIdentity) (observation : ProcessObservation)
    : IdM bool := λ m,
  match records m !! identity with
  | None => (Err Panicked, m)
  | Some record =>
      match enrich_host record (obs_host observation) with
      | Err (existing, observed) =>
          (Err (Failed (HostCoordinatesConflict identity existing observed)),
           set_records m
             (<[identity := mkRecord (rec_identity record) (rec_host record)
                              (rec_namespaces record) Conflicted]> (records m)))
      | Ok (host', host_enriched) =>
          let '(namespaces', namespace_enriched) :=
            match obs_namespace observation with
            | Some n => if decide (n ∈ rec_namespaces record)
                        then (rec_namespaces record, false)
                        else ({[n]} ∪ rec_namespaces record, true)
            | None => (rec_namespaces record, false)
            end in
          let enriched := host_enriched || namespace_enriched in
          let record' := mkRecord (rec_identity record) host' namespaces'
                           (match host' with
                            | Some _ => Resolved
                            | None => rec_resolution_state record end) in
          let m1 := set_records m (<[identity := record']> (records m)) in
          (Ok enriched, if enriched then index_record_coordinates record' m1 else m1)
      end
  end.

(** [index]: history indexes plus the active pids; returns the displaced ids. *)
Definition displaced (previous : option ProcessIdentity) (identity : ProcessIdentity)
    : gset ProcessIdentity :=
  match previous with
  | Some p => if p =? identity then ∅ else {[p]}
  | None => ∅
  end.

Definition index (identity : ProcessIdentity) (observation : ProcessObservation)
    (m : ProcessIdentityManager) : list ProcessIdentity * ProcessIdentityManager :=
  let '(d1, m1) :=
    match obs_host observation with
    | Some host =>
        let mi := index_host_coordinates identity host m in
        (displaced (active_by_host_pid mi !! host_pid host) identity,
         set_active mi (<[host_pid host := identity]> (active_by_host_pid mi))
           (active_by_namespace_pid mi))
    | None => (∅, m)
    end in
  let '(d2, m2) :=
    match obs_namespace observation with
    | Some namespace =>
        let mi := index_namespace_coordinates identity namespace m1 in
        let key := (ns_pid_namespace namespace, ns_pid namespace) in
        (displaced (active_by_namespace_pid mi !! key) identity,
         set_active mi (active_by_host_pid mi)
           (<[key := identity]> (active_by_namespace_pid mi)))
    | None => (∅, m1)
    end in
  (bs_list (d1 ∪ d2), m2).

(** [resolve_or_create]. *)
Definition resolve_or_create (observation : ProcessObservation) : IdM ProcessResolution :=
  λ m,
  let cands := candidates m observation in
  if bool_decide (1 < size cands)%nat
  then (Err (Failed (ConflictingObservations (bs_list cands) observation)), m)
  else
    match bs_first cands with
    | Some identity =>
        match enrich identity observation m with
        | (Err e, m1) => (Err e, m1)
        | (Ok enriched, m1) =>
            let '(d, m2) := index identity observation m1 in
            (Ok (mkResolution identity false enriched d), m2)
        end
    | None =>
        match allocate_identity m with
        | (Err e, m1) => (Err e, m1)
        | (Ok identity, m1) =>
            let m2 := set_records m1
                        (<[identity := Record_.new identity observation]> (records m1)) in
            let '(d, m3) := index identity observation m2 in
            (Ok (mkResolution identity true false d), m3)
        end
    end.

(** [lookup]. *)
Definition lookup (m : ProcessIdentityManager) (observation : ProcessObservation)
    : result ProcessIdentityError (option ProcessIdentity) :=
  let cands := candidates m observation in
  if bool_decide (1 < size cands)%nat
  then Err (ConflictingObservations (bs_list cands) observation)
  else Ok (bs_first cands).

(** [record], [records], [active_host_pid], [active_namespace_pid]. *)
Definition record (m : ProcessIdentityManager) (identity : ProcessIdentity) :=
  records m !! identity.
Definition all_records (m : ProcessIdentityManager) : list ProcessRecord :=
  bt_values (records m).
Definition active_host_pid (m : ProcessIdentityManager) (pid : Z) :=
  active_by_host_pid m !! pid.
Definition active_namespace_pid (m : ProcessIdentityManager) (ns : NamespaceIdentity)
    (pid : Z) :=
  active_by_namespace_pid m !! (ns, pid).

(** [mark_exited]: only the active indexes forget the identity. *)
Definition mark_exited (identity : ProcessIdentity) (m : ProcessIdentityManager)
    : ProcessIdentityManager :=
  match records m !! identity with
  | None => m
  | Some record =>
      let host :=
        match rec_host record with
        | Some host =>
            if bool_decide (active_by_host_pid m !! host_pid host = Some identity)
            then delete (host_pid host) (active_by_host_pid m)
            else active_by_host_pid m
        | None => active_by_host_pid m
        end in
      let namespaces :=
        foldl (λ acc namespace,
                 let key := (ns_pid_namespace namespace, ns_pid namespace) in
                 if bool_decide (acc !! key = Some identity) then delete key acc else acc)
          (active_by_namespace_pid m) (bs_list (rec_namespaces record)) in
      set_active m host namespaces
  end.

(** ** Index keys and the invariant *)

Definition host_ticks_keys (h : HostProcessCoordinates) : gset (Z * Z) :=
  if host_start_time_ticks h =? 0 then ∅ else {[(host_pid h, host_start_time_ticks h)]}.
Definition host_boot_keys (h : HostProcessCoordinates) : gset (Z * Z) :=
  match host_start_boottime_ns h with Some b => {[(host_pid h, b)]} | None => ∅ end.
Definition ticks_keys (r : ProcessRecord) : gset (Z * Z) :=
  match rec_host r with Some h => host_ticks_keys h | None => ∅ end.
Definition boot_keys (r : ProcessRecord) : gset (Z * Z) :=
  match rec_host r with Some h => host_boot_keys h | None => ∅ end.
Definition ns_keys (r : ProcessRecord) : gset NamespaceProcessCoordinates :=
  filter (λ n, ns_start_time_ticks n ≠ 0) (rec_namespaces r).

(** An index holds exactly the keys of the records, each at its owner. *)
Definition indexed `{Countable K} (keys : ProcessRecord → gset K)
    (recs : gmap ProcessIdentity ProcessRecord) (idx : gmap K ProcessIdentity) : Prop :=
  ∀ k i, idx !! k = Some i ↔ ∃ r, recs !! i = Some r ∧ k ∈ keys r.

(** An active index points only at records that carry the pid. *)
Definition active_host_ok (m : ProcessIdentityManager) : Prop :=
  ∀ p i, active_by_host_pid m !! p = Some i →
    ∃ r h, records m !! i = Some r ∧ rec_host r = Some h ∧ host_pid h = p.
Definition active_ns_ok (m : ProcessIdentityManager) : Prop :=
  ∀ s p i, active_by_namespace_pid m !! (s, p) = Some i →
    ∃ r n, records m !! i = Some r ∧ n ∈ rec_namespaces r ∧
           ns_pid_namespace n = s ∧ ns_pid n = p.

Record wf (m : ProcessIdentityManager) : Prop := {
  wf_identity : ∀ i r, records m !! i = Some r → rec_identity r = i;
  wf_ticks : indexed ticks_keys (records m) (by_host_start_ticks m);
  wf_boot : indexed boot_keys (records m) (by_host_start_boottime m);
  wf_ns : indexed ns_keys (records m) (by_namespace m);
  wf_active_host : active_host_ok m;
  wf_active_ns : active_ns_ok m;
  wf_below_next : ∀ i r, records m !! i = Some r → i < next_identity m;
  wf_block : 0 ≤ next_identity m ∧ next_identity m ≤ identity_block_end m ≤ u64_max;
}.

(** What a later state still knows about a record. *)
Definition host_le (a b : option HostProcessCoordinates) : Prop :=
  match a, b with
  | None, _ => True
  | Some x, Some y =>
      host_pid x = host_pid y
      ∧ (host_start_time_ticks x ≠ 0 → host_start_time_ticks y = host_start_time_ticks x)
      ∧ (is_Some (host_start_boottime_ns x) →
           host_start_boottime_ns y = host_start_boottime_ns x)
      ∧ (is_Some (host_task_id x) → is_Some (host_task_id y))
  | Some _, None => False
  end.
Definition record_le (a b : ProcessRecord) : Prop :=
  rec_identity a = rec_identity b ∧ host_le (rec_host a) (rec_host b)
  ∧ rec_namespaces a ⊆ rec_namespaces b.

(** One call on the manager by its clients. *)
Inductive step : ProcessIdentityManager → ProcessIdentityManager → Prop :=
| step_resolve m o : step m (resolve_or_create o m).2
| step_exited m i : step m (mark_exited i m)
| step_install m a b : b ≤ u64_max → step m (install_reserved_block a b m).2.

(** ** Lemmas: indexes *)

(** [idx'] is [idx] with the keys of [r'] written for [i], taking none from another. *)
Definition reindexed `{Countable K} (keys : ProcessRecord → gset K)
    (idx idx' : gmap K ProcessIdentity) (i : ProcessIdentity) (r' : ProcessRecord) : Prop :=
  (∀ k, k ∈ keys r' → idx !! k = None ∨ idx !! k = Some i) ∧
  (∀ k, k ∈ keys r' → idx' !! k = Some i) ∧
  (∀ k, k ∉ keys r' → idx' !! k = idx !! k).

Lemma indexed_insert `{Countable K} (keys : ProcessRecord → gset K) recs
    (idx idx' : gmap K ProcessIdentity) i r' :
  indexed keys recs idx →
  (∀ r, recs !! i = Some r → keys r ⊆ keys r') →
  reindexed keys idx idx' i r' →
  indexed keys (<[i := r']> recs) idx'.
Proof.
  intros Hix Hold (Hown & Hin & Hout) k j.
  destruct (decide (k ∈ keys r')) as [Hk|Hk].
  - rewrite (Hin k Hk). split.
    + intros [= <-]. exists r'. by rewrite lookup_insert_eq.
    + intros (r & Hr & Hkr). destruct (decide (i = j)) as [->|Hne]; [done|].
      rewrite lookup_insert_ne in Hr by done.
      assert (idx !! k = Some j) as Hj by (apply Hix; eauto).
      destruct (Hown k Hk); congruence.
  - rewrite (Hout k Hk), (Hix k j). split.
    + intros (r & Hr & Hkr). destruct (decide (i = j)) as [->|Hne].
      * by destruct Hk; apply (Hold r Hr).
      * exists r. by rewrite lookup_insert_ne.
    + intros (r & Hr & Hkr). destruct (decide (i = j)) as [->|Hne].
      * rewrite lookup_insert_eq in Hr. by simplify_eq.
      * rewrite lookup_insert_ne in Hr by done. eauto.
Qed.

(** Two rounds of index writes: the record's keys (only when it was enriched),
    then the observation's keys [ko]. *)
Lemma reindexed_twice `{Countable K} (keys : ProcessRecord → gset K) recs
    (idx idx1 idx2 : gmap K ProcessIdentity) (ko : gset K) i r r' (e : bool) :
  indexed keys recs idx → recs !! i = Some r →
  keys r' ⊆ keys r ∪ ko → ko ⊆ keys r' → (e = false → keys r' = keys r) →
  (∀ k j, k ∈ ko → idx !! k = Some j → j = i) →
  (∀ k, idx1 !! k = if decide (e = true ∧ k ∈ keys r') then Some i else idx !! k) →
  (∀ k, idx2 !! k = if decide (k ∈ ko) then Some i else idx1 !! k) →
  reindexed keys idx idx2 i r'.
Proof.
  intros Hix Hr Hsub Hko Hsame Hcand H1 H2. split; [|split].
  - intros k Hk. destruct (idx !! k) as [j|] eqn:Ej; [|by left]. right.
    apply Hsub, elem_of_union in Hk as [Hk|Hk].
    + rewrite <-Ej. apply Hix. eauto.
    + f_equal. eauto.
  - intros k Hk. rewrite H2. destruct (decide (k ∈ ko)); [done|].
    rewrite H1. destruct (decide (e = true ∧ k ∈ keys r')) as [|Hd]; [done|].
    apply Hix. exists r. destruct e; [naive_solver|].
    split; [done|]. by rewrite <-Hsame.
  - intros k Hk. rewrite H2, decide_False by set_solver.
    rewrite H1, decide_False by naive_solver. done.
Qed.

(** The history indexes after indexing a whole record. *)
Lemma index_namespace_fold i ns m :
  let m' := foldl (λ acc n, index_namespace_coordinates i n acc) m ns in
  records m' = records m ∧ by_host_start_ticks m' = by_host_start_ticks m ∧
  by_host_start_boottime m' = by_host_start_boottime m ∧
  active_by_host_pid m' = active_by_host_pid m ∧
  active_by_namespace_pid m' = active_by_namespace_pid m ∧
  next_identity m' = next_identity m ∧ identity_block_end m' = identity_block_end m ∧
  (∀ k, k ∈ ns → ns_start_time_ticks k ≠ 0 → by_namespace m' !! k = Some i) ∧
  (∀ k, k ∉ ns ∨ ns_start_time_ticks k = 0 → by_namespace m' !! k = by_namespace m !! k).
Proof.
  revert m. induction ns as [|n ns IH]; intros m; simpl.
  - split_and!; auto; set_solver.
  - destruct (IH (index_namespace_coordinates i n m))
      as (-> & -> & -> & -> & -> & -> & -> & Hin & Hout).
    unfold index_namespace_coordinates in *.
    destruct (Z.eqb_spec (ns_start_time_ticks n) 0) as [E|E];
      split_and!; try done; simpl in *.
    + set_solver.
    + intros k Hk. apply Hout. set_solver.
    + intros k Hk Ht. destruct (decide (k ∈ ns)) as [Hi|Hni]; [by apply Hin|].
      rewrite Hout by auto. assert (k = n) as -> by set_solver. apply lookup_insert_eq.
    + intros k Hk. rewrite Hout by (destruct Hk; [left; set_solver|by right]).
      apply lookup_insert_ne. intros ->. set_solver.
Qed.

Lemma index_record_spec r m :
  let m' := index_record_coordinates r m in
  records m' = records m ∧
  active_by_host_pid m' = active_by_host_pid m ∧
  active_by_namespace_pid m' = active_by_namespace_pid m ∧
  next_identity m' = next_identity m ∧ identity_block_end m' = identity_block_end m ∧
  (∀ k, by_host_start_ticks m' !! k =
     if decide (k ∈ ticks_keys r) then Some (rec_identity r) else by_host_start_ticks m !! k) ∧
  (∀ k, by_host_start_boottime m' !! k =
     if decide (k ∈ boot_keys r) then Some (rec_identity r)
     else by_host_start_boottime m !! k) ∧
  (∀ k, by_namespace m' !! k =
     if decide (k ∈ ns_keys r) then Some (rec_identity r) else by_namespace m !! k).
Proof.
  unfold index_record_coordinates. simpl.
  set (m1 := match rec_host r with Some _ => _ | None => _ end).
  assert (records m1 = records m ∧ by_namespace m1 = by_namespace m ∧
          active_by_host_pid m1 = active_by_host_pid m ∧
          active_by_namespace_pid m1 = active_by_namespace_pid m ∧
          next_identity m1 = next_identity m ∧
          identity_block_end m1 = identity_block_end m) as (E1&E2&E3&E4&E5&E6)
    by (subst m1; by destruct (rec_host r)).
  destruct (index_namespace_fold (rec_identity r) (bs_list (rec_namespaces r)) m1)
    as (-> & -> & -> & -> & -> & -> & -> & Hin & Hout).
  split_and!; try done.
  - intros k. unfold ticks_keys. subst m1. destruct (rec_host r) as [h|]; simpl.
    + unfold host_ticks_keys. destruct (Z.eqb_spec (host_start_time_ticks h) 0).
      * by rewrite decide_False by set_solver.
      * rewrite lookup_insert. repeat case_decide; set_solver.
    + by rewrite decide_False by set_solver.
  - intros k. unfold boot_keys. subst m1. destruct (rec_host r) as [h|]; simpl.
    + unfold host_boot_keys. destruct (host_start_boottime_ns h).
      * rewrite lookup_insert. repeat case_decide; set_solver.
      * by rewrite decide_False by set_solver.
    + by rewrite decide_False by set_solver.
  - intros k. rewrite <-E2. unfold ns_keys. case_decide as Hk.
    + apply elem_of_filter in Hk as [??]. apply Hin; [|done]. by apply elem_of_bs_list.
    + apply Hout. rewrite elem_of_filter in Hk. rewrite elem_of_bs_list.
      destruct (decide (ns_start_time_ticks k = 0)); [by right|left; naive_solver].
Qed.

Lemma index_eq i o m :
  (index i o m).2 =
    let m1 := index_record_coordinates (Record_.new i o) m in
    set_active m1
      (match obs_host o with
       | Some h => <[host_pid h := i]> (active_by_host_pid m)
       | None => active_by_host_pid m end)
      (match obs_namespace o with
       | Some n => <[(ns_pid_namespace n, ns_pid n) := i]> (active_by_namespace_pid m)
       | None => active_by_namespace_pid m end).
Proof.
  unfold index, index_record_coordinates, Record_.new; simpl.
  destruct o as [[h|] [n|]]; simpl; rewrite ?bs_list_singleton; simpl;
    unfold index_namespace_coordinates; simpl; try case_match; try done;
    by destruct m.
Qed.

(** ** Lemmas: candidates *)

Lemma opt_set_elem o i : i ∈ opt_set o ↔ o = Some i.
Proof. destruct o; simpl; set_solver. Qed.

Lemma host_match_spec x y :
  host_coordinates_match x y = true ↔
  host_pid x = host_pid y ∧
  (host_start_time_ticks x = 0 ∨ host_start_time_ticks y = 0 ∨
   host_start_time_ticks x = host_start_time_ticks y) ∧
  (∀ a b, host_start_boottime_ns x = Some a → host_start_boottime_ns y = Some b → a = b).
Proof.
  unfold host_coordinates_match.
  rewrite !andb_true_iff, !orb_true_iff, !Z.eqb_eq.
  destruct (host_start_boottime_ns x), (host_start_boottime_ns y);
    rewrite ?Z.eqb_eq; naive_solver.
Qed.

(** Every candidate has a record: [enrich]'s [expect] cannot fail. *)
Lemma candidates_recorded m o i : wf m → i ∈ candidates m o → is_Some (records m !! i).
Proof.
  intros Hwf Hi. unfold candidates, host_candidates, namespace_candidates in Hi.
  destruct o as [oh on]; simpl in Hi.
  apply elem_of_union in Hi as [Hi|Hi].
  - destruct oh as [h|]; [|set_solver].
    rewrite !elem_of_union in Hi. destruct Hi as [[Hi|Hi]|Hi].
    + case_match; [set_solver|]. apply opt_set_elem in Hi.
      apply (wf_ticks _ Hwf) in Hi as (r & Hr & _). eauto.
    + case_match; [|set_solver]. apply opt_set_elem in Hi.
      apply (wf_boot _ Hwf) in Hi as (r & Hr & _). eauto.
    + apply opt_set_elem, bind_Some in Hi as (j & _ & Hi).
      apply bind_Some in Hi as (r & Hr & Hi).
      apply bind_Some in Hi as (h' & _ & Hi). case_match; simplify_eq. eauto.
  - destruct on as [n|]; [|set_solver].
    rewrite !elem_of_union in Hi. destruct Hi as [Hi|Hi].
    + case_match; [set_solver|]. apply opt_set_elem in Hi.
      apply (wf_ns _ Hwf) in Hi as (r & Hr & _). eauto.
    + apply opt_set_elem, bind_Some in Hi as (j & _ & Hi).
      apply bind_Some in Hi as (r & Hr & Hi). case_match; simplify_eq. eauto.
Qed.

(** Any owner of a coordinate of the observation is a candidate. *)
Lemma ticks_owner_candidate m o i0 k j :
  k ∈ ticks_keys (Record_.new i0 o) → by_host_start_ticks m !! k = Some j →
  j ∈ candidates m o.
Proof.
  unfold ticks_keys, host_ticks_keys, candidates, host_candidates; simpl.
  destruct (obs_host o) as [h|]; [|set_solver].
  destruct (Z.eqb_spec (host_start_time_ticks h) 0); [set_solver|].
  intros ->%elem_of_singleton Hj. rewrite Hj. set_solver.
Qed.
Lemma boot_owner_candidate m o i0 k j :
  k ∈ boot_keys (Record_.new i0 o) → by_host_start_boottime m !! k = Some j →
  j ∈ candidates m o.
Proof.
  unfold boot_keys, host_boot_keys, candidates, host_candidates; simpl.
  destruct (obs_host o) as [h|]; [|set_solver].
  destruct (host_start_boottime_ns h); [|set_solver].
  intros ->%elem_of_singleton Hj. rewrite Hj. set_solver.
Qed.
Lemma ns_owner_candidate m o i0 k j :
  k ∈ ns_keys (Record_.new i0 o) → by_namespace m !! k = Some j → j ∈ candidates m o.
Proof.
  unfold ns_keys, candidates, namespace_candidates; simpl.
  rewrite elem_of_filter. destruct (obs_namespace o) as [n|]; [|set_solver].
  intros [Ht ->%elem_of_singleton] Hj.
  destruct (Z.eqb_spec (ns_start_time_ticks n) 0); [done|].
  rewrite Hj. set_solver.
Qed.

(** ** Lemmas: enrichment *)

Lemma enrich_coordinates_le x y :
  host_coordinates_match x y = true →
  let z := (enrich_coordinates x y).1 in
  host_le (Some x) (Some z) ∧ host_le (Some y) (Some z) ∧
  host_ticks_keys z ⊆ host_ticks_keys x ∪ host_ticks_keys y ∧
  host_boot_keys z ⊆ host_boot_keys x ∪ host_boot_keys y.
Proof.
  destruct x as [p1 k1 t1 b1], y as [p2 k2 t2 b2].
  intros (Hp & Ht & Hb)%host_match_spec. simpl in *. subst p2.
  unfold host_ticks_keys, host_boot_keys, enrich_coordinates; simpl.
  destruct (Z.eqb_spec t1 0), (Z.eqb_spec t2 0), b1 as [b1|], b2 as [b2|], k1, k2; simpl;
    try (specialize (Hb _ _ eq_refl eq_refl); subst b2);
    split_and!; intros; subst; try done; try congruence; try set_solver;
    try (by intuition congruence); try (case_match; set_solver).
Qed.

(** [host_le] grows index keys. *)
Lemma host_le_keys a b i s r q s' r' :
  host_le a b →
  ticks_keys (mkRecord i a s r) ⊆ ticks_keys (mkRecord q b s' r') ∧
  boot_keys (mkRecord i a s r) ⊆ boot_keys (mkRecord q b s' r').
Proof.
  unfold ticks_keys, boot_keys, host_ticks_keys, host_boot_keys; simpl.
  destruct a as [[p k t b0]|], b as [[p' k' t' b']|]; simpl; try (intros; set_solver).
  intros (-> & Ht & Hb & _). split.
  - destruct (Z.eqb_spec t 0); [set_solver|]. rewrite (Ht n).
    destruct (Z.eqb_spec t 0); [done|]. set_solver.
  - destruct b0; [|set_solver]. rewrite Hb by eauto. set_solver.
Qed.

#[export] Instance host_le_refl : Reflexive host_le.
Proof. intros [h|]; simpl; auto. Qed.
#[export] Instance host_le_trans : Transitive host_le.
Proof.
  intros [x|] [y|] [z|]; simpl; try tauto.
  intros (E1 & T1 & B1 & K1) (E2 & T2 & B2 & K2). split_and!.
  - congruence.
  - intros Hn. rewrite <-(T1 Hn). apply T2. rewrite (T1 Hn). done.
  - intros Hn. rewrite <-(B1 Hn). apply B2. rewrite (B1 Hn). done.
  - auto.
Qed.
#[export] Instance record_le_po : PreOrder record_le.
Proof.
  split; [by intros r; split_and!|].
  intros a b c (?&?&?) (?&?&?). split_and!; [congruence|by etrans|set_solver].
Qed.

(** The record a successful [enrich] leaves, in terms of the old one. *)
Lemma enrich_host_le r oh h' e :
  enrich_host r oh = Ok (h', e) →
  host_le (rec_host r) h' ∧ host_le oh h' ∧ (is_Some oh → is_Some h') ∧
  (∀ i s q, ticks_keys (mkRecord i h' s q) ⊆
     ticks_keys r ∪ ticks_keys (mkRecord i oh s q)) ∧
  (∀ i s q, boot_keys (mkRecord i h' s q) ⊆
     boot_keys r ∪ boot_keys (mkRecord i oh s q)) ∧
  (e = false → h' = rec_host r).
Proof.
  unfold enrich_host, ticks_keys, boot_keys. cbn [rec_host].
  destruct oh as [y|], (rec_host r) as [x|] eqn:Hx.
  - destruct (host_coordinates_match x y) eqn:Hm; [|done].
    pose proof (enrich_coordinates_le x y Hm) as (H1 & H2 & H3 & H4).
    destruct (enrich_coordinates x y) as [z e'] eqn:Ez. intros [= <- <-].
    splits; eauto. intros ->. unfold enrich_coordinates in Ez.
    destruct x; injection Ez as <- E; simpl in *.
    apply orb_false_iff in E as [[E1 E2]%orb_false_iff E3]. by rewrite E1, E2, E3.
  - intros [= <- <-]. splits; try done; eauto; set_solver.
  - intros [= <- <-]. splits; try done; eauto; set_solver.
  - intros [= <- <-]. splits; try done; eauto; set_solver.
Qed.
(** Writing back a record that extends the old one, re-indexing it, keeps the
    indexes exact.  [m'] is any manager whose history indexes are the old ones
    with the keys of [r'] (re)inserted. *)
Lemma wf_update_record m m' i r' :
  wf m → rec_identity r' = i →
  (∀ r, records m !! i = Some r → record_le r r') →
  (records m !! i = None → i < next_identity m') →
  records m' = <[i := r']> (records m) →
  reindexed ticks_keys (by_host_start_ticks m) (by_host_start_ticks m') i r' →
  reindexed boot_keys (by_host_start_boottime m) (by_host_start_boottime m') i r' →
  reindexed ns_keys (by_namespace m) (by_namespace m') i r' →
  (∀ p j, active_by_host_pid m' !! p = Some j →
     active_by_host_pid m !! p = Some j ∨
     j = i ∧ ∃ h, rec_host r' = Some h ∧ host_pid h = p) →
  (∀ s p j, active_by_namespace_pid m' !! (s, p) = Some j →
     active_by_namespace_pid m !! (s, p) = Some j ∨
     j = i ∧ ∃ n, n ∈ rec_namespaces r' ∧ ns_pid_namespace n = s ∧ ns_pid n = p) →
  next_identity m ≤ next_identity m' →
  next_identity m' ≤ identity_block_end m' ≤ u64_max →
  wf m'.
Proof.
  intros Hwf Hid Hle Hnew Hrec It Ib In_ Hah Han Hnext Hblk.
  assert (∀ r, records m !! i = Some r →
    ticks_keys r ⊆ ticks_keys r' ∧ boot_keys r ⊆ boot_keys r' ∧ ns_keys r ⊆ ns_keys r') as Hk.
  { intros [ri rh rn rs] Hr. destruct (Hle _ Hr) as (_ & Hh & Hn).
    destruct r' as [ri' rh' rn' rs']. simpl in Hh, Hn.
    destruct (host_le_keys rh rh' ri rn rs ri' rn' rs' Hh) as [??].
    splits; [done..|]. unfold ns_keys; simpl. set_solver. }
  destruct (wf_block _ Hwf) as [H0 _].
  split; rewrite ?Hrec.
  - intros j r. rewrite lookup_insert. case_decide as Hj; [naive_solver|].
    apply (wf_identity _ Hwf).
  - eapply indexed_insert; eauto using wf_ticks; naive_solver.
  - eapply indexed_insert; eauto using wf_boot; naive_solver.
  - eapply indexed_insert; eauto using wf_ns; naive_solver.
  - intros p j Hj. rewrite Hrec.
    destruct (Hah _ _ Hj) as [Hold|(-> & h & Hh & Hp)].
    + destruct (wf_active_host _ Hwf _ _ Hold) as (r & h & Hr & Hh & Hp).
      destruct (decide (i = j)) as [<-|Hne].
      * destruct (Hle _ Hr) as (_ & Hhle & _). rewrite Hh in Hhle.
        destruct (rec_host r') as [h'|] eqn:Er'; [|done]. destruct Hhle as (Ep & _).
        exists r', h'. rewrite lookup_insert_eq. naive_solver.
      * exists r, h. by rewrite lookup_insert_ne.
    + exists r', h. by rewrite lookup_insert_eq.
  - intros s p j Hj. rewrite Hrec.
    destruct (Han _ _ _ Hj) as [Hold|(-> & n & Hn & Hp)].
    + destruct (wf_active_ns _ Hwf _ _ _ Hold) as (r & n & Hr & Hn & Hp).
      destruct (decide (i = j)) as [<-|Hne].
      * destruct (Hle _ Hr) as (_ & _ & Hsub).
        exists r', n. rewrite lookup_insert_eq. set_solver.
      * exists r, n. by rewrite lookup_insert_ne.
    + exists r', n. by rewrite lookup_insert_eq.
  - intros j r. rewrite lookup_insert. case_decide as Hj.
    + subst j. intros _. destruct (records m !! i) as [r0|] eqn:E; [|by apply Hnew].
      pose proof (wf_below_next _ Hwf _ _ E). lia.
    + intros Hr. pose proof (wf_below_next _ Hwf _ _ Hr). lia.
  - lia.
Qed.

(** A successful [enrich] in closed form. *)
Lemma enrich_Ok i o m e m1 :
  enrich i o m = (Ok e, m1) →
  ∃ r r', records m !! i = Some r ∧ rec_identity r' = rec_identity r ∧
    record_le r r' ∧ host_le (obs_host o) (rec_host r') ∧
    (∀ n, obs_namespace o = Some n → n ∈ rec_namespaces r') ∧
    ticks_keys r' ⊆ ticks_keys r ∪ ticks_keys (Record_.new i o) ∧
    boot_keys r' ⊆ boot_keys r ∪ boot_keys (Record_.new i o) ∧
    ns_keys r' ⊆ ns_keys r ∪ ns_keys (Record_.new i o) ∧
    rec_resolution_state r' = (match rec_host r' with
       | Some _ => Resolved | None => rec_resolution_state r end) ∧
    (e = false → rec_host r' = rec_host r ∧ rec_namespaces r' = rec_namespaces r) ∧
    m1 = (if e then index_record_coordinates r' else id)
           (set_records m (<[i := r']> (records m))).
Proof.
  unfold enrich. destruct (records m !! i) as [r|] eqn:Hr; [|done].
  destruct (enrich_host r (obs_host o)) as [[h' eh]|[??]] eqn:Eh; [|done].
  destruct (enrich_host_le _ _ _ _ Eh) as (H1 & H2 & H3 & H4 & H5 & H6).
  destruct (match obs_namespace o with Some n => _ | None => _ end)
    as [ns' en] eqn:En. intros [= <- <-].
  exists r, (mkRecord (rec_identity r) h' ns'
    (match h' with Some _ => Resolved | None => rec_resolution_state r end)).
  assert (rec_namespaces r ⊆ ns' ∧ (∀ n, obs_namespace o = Some n → n ∈ ns') ∧
    (∀ n, n ∈ ns' → n ∈ rec_namespaces r ∨ obs_namespace o = Some n) ∧
    (en = false → ns' = rec_namespaces r)) as (N1 & N2 & N3 & N4).
  { destruct (obs_namespace o) as [n|]; [case_decide|]; simplify_eq/=; set_solver. }
  splits; try done.
  - unfold ns_keys; simpl. intros n [Ht Hn]%elem_of_filter. rewrite elem_of_union, !elem_of_filter.
    destruct (N3 n Hn) as [?|E]; [by left|]. right. rewrite E. set_solver.
  - intros [-> ->]%orb_false_iff. naive_solver.
  - by destruct (eh || en).
Qed.

(** ** Lemmas: resolution *)

Lemma new_keys_sub i o r' :
  host_le (obs_host o) (rec_host r') →
  (∀ n, obs_namespace o = Some n → n ∈ rec_namespaces r') →
  ticks_keys (Record_.new i o) ⊆ ticks_keys r' ∧
  boot_keys (Record_.new i o) ⊆ boot_keys r' ∧ ns_keys (Record_.new i o) ⊆ ns_keys r'.
Proof.
  intros Hh Hn. destruct r' as [ri rh rn rs]. simpl in *.
  destruct (host_le_keys _ _ i ∅ Resolved ri rn rs Hh) as [??].
  splits; [done..|]. unfold ns_keys; simpl.
  destruct (obs_namespace o) as [n|]; [|set_solver]. specialize (Hn n eq_refl). set_solver.
Qed.

(** The state after indexing an observation for [i], when the record [r'] of [i]
    covers it: what [wf_update_record] needs of the active indexes. *)
Lemma index_active i o m1 r' :
  let m' := (index i o m1).2 in
  host_le (obs_host o) (rec_host r') →
  (∀ n, obs_namespace o = Some n → n ∈ rec_namespaces r') →
  (∀ p j, active_by_host_pid m' !! p = Some j →
     active_by_host_pid m1 !! p = Some j ∨
     j = i ∧ ∃ h, rec_host r' = Some h ∧ host_pid h = p) ∧
  (∀ s p j, active_by_namespace_pid m' !! (s, p) = Some j →
     active_by_namespace_pid m1 !! (s, p) = Some j ∨
     j = i ∧ ∃ n, n ∈ rec_namespaces r' ∧ ns_pid_namespace n = s ∧ ns_pid n = p).
Proof.
  intros m' Hh Hn. subst m'. rewrite index_eq. simpl. split.
  - intros p j. destruct (obs_host o) as [h|]; [|by left].
    rewrite lookup_insert. case_decide as E; [|by left]. intros [= <-]. right.
    split; [done|]. simpl in Hh. destruct (rec_host r') as [h'|]; [|done].
    exists h'. split; [done|]. destruct Hh as [E' _]. congruence.
  - intros s p j. destruct (obs_namespace o) as [n|] eqn:En; [|by left].
    rewrite lookup_insert. case_decide as E; [|by left]. intros [= <-]. right.
    split; [done|]. exists n. injection E as <- <-. eauto.
Qed.

Lemma wf_after_enrich m i o e m1 :
  wf m → candidates m o ⊆ {[i]} → enrich i o m = (Ok e, m1) → wf (index i o m1).2.
Proof.
  intros Hwf Hc He.
  destruct (enrich_Ok _ _ _ _ _ He)
    as (r & r' & Hr & Hid & Hle & Hoh & Hon & Kt & Kb & Kn & _ & Hsame & ->).
  assert (rec_identity r' = i) as Hid' by (rewrite Hid; by apply (wf_identity _ Hwf)).
  destruct (new_keys_sub i o r' Hoh Hon) as (St & Sb & Sn).
  set (m0 := set_records m (<[i:=r']> (records m))).
  set (m1 := (if e then index_record_coordinates r' else id) m0).
  destruct (index_active i o m1 r' Hoh Hon) as [Hah Han].
  destruct (index_record_spec (Record_.new i o) m1) as (E1&E2&E3&E4&E5&Lt&Lb&Ln).
  destruct (index_record_spec r' m0) as (F1&F2&F3&F4&F5&Rt&Rb&Rn).
  assert (records m1 = records m0 ∧ active_by_host_pid m1 = active_by_host_pid m ∧
    active_by_namespace_pid m1 = active_by_namespace_pid m ∧
    next_identity m1 = next_identity m ∧ identity_block_end m1 = identity_block_end m)
    as (G1&G2&G3&G4&G5) by (subst m1; destruct e; naive_solver).
  assert (e = false →
    ticks_keys r' = ticks_keys r ∧ boot_keys r' = boot_keys r ∧ ns_keys r' = ns_keys r) as Hk.
  { intros He'. destruct (Hsame He') as [Eh En].
    unfold ticks_keys, boot_keys, ns_keys. by rewrite Eh, En. }
  pose proof (wf_block _ Hwf).
  rewrite index_eq in Hah, Han |- *. simpl in Hah, Han.
  apply (wf_update_record m _ i r'); simpl; try done.
  - intros r0 Hr0. by simplify_eq.
  - by rewrite Hr.
  - by rewrite E1, G1.
  - eapply (reindexed_twice ticks_keys (records m) _ (by_host_start_ticks m1)
      _ (ticks_keys (Record_.new i o)) i r r' e); try done; [by apply wf_ticks| naive_solver| |].
    + intros k j Hko Hj. pose proof (Hc _ (ticks_owner_candidate m o i k j Hko Hj)). set_solver.
    + intros k. subst m1. destruct e; simpl; [rewrite Rt, Hid'|]; repeat case_decide; naive_solver.
  - eapply (reindexed_twice boot_keys (records m) _ (by_host_start_boottime m1)
      _ (boot_keys (Record_.new i o)) i r r' e); try done; [by apply wf_boot| naive_solver| |].
    + intros k j Hko Hj. pose proof (Hc _ (boot_owner_candidate m o i k j Hko Hj)). set_solver.
    + intros k. subst m1. destruct e; simpl; [rewrite Rb, Hid'|]; repeat case_decide; naive_solver.
  - eapply (reindexed_twice ns_keys (records m) _ (by_namespace m1)
      _ (ns_keys (Record_.new i o)) i r r' e); try done; [by apply wf_ns| naive_solver| |].
    + intros k j Hko Hj. pose proof (Hc _ (ns_owner_candidate m o i k j Hko Hj)). set_solver.
    + intros k. subst m1. destruct e; simpl; [rewrite Rn, Hid'|]; repeat case_decide; naive_solver.
  - by rewrite <-G2.
  - by rewrite <-G3.
  - rewrite E4, G4. lia.
  - rewrite E4, E5, G4, G5. lia.
Qed.

Lemma allocate_Ok m i m1 :
  allocate_identity m = (Ok i, m1) →
  i = next_identity m ∧ next_identity m < identity_block_end m ∧
  m1 = set_next m (next_identity m + 1) (identity_block_end m).
Proof.
  unfold allocate_identity. case_match eqn:E; [done|].
  destruct (checked_add_u64 _ _) as [n|] eqn:En; [|done].
  apply checked_add_u64_Some in En as [-> _]. intros [= <- <-].
  apply Z.leb_gt in E. done.
Qed.

(** [keys] gained by a record that no index entry mentions yet. *)
Lemma reindexed_fresh `{Countable K} (keys : ProcessRecord → gset K)
    (idx idx' : gmap K ProcessIdentity) i r' :
  (∀ k, k ∈ keys r' → idx !! k = None) →
  (∀ k, idx' !! k = if decide (k ∈ keys r') then Some i else idx !! k) →
  reindexed keys idx idx' i r'.
Proof.
  intros Hnone Hl. split; [|split].
  - intros k Hk. left. auto.
  - intros k Hk. by rewrite Hl, decide_True.
  - intros k Hk. by rewrite Hl, decide_False.
Qed.

Lemma no_owner_when_no_candidate m o i :
  candidates m o = ∅ →
  (∀ k, k ∈ ticks_keys (Record_.new i o) → by_host_start_ticks m !! k = None) ∧
  (∀ k, k ∈ boot_keys (Record_.new i o) → by_host_start_boottime m !! k = None) ∧
  (∀ k, k ∈ ns_keys (Record_.new i o) → by_namespace m !! k = None).
Proof.
  intros Hc. splits; intros k Hk; apply eq_None_not_Some; intros [j Hj].
  - pose proof (ticks_owner_candidate m o i k j Hk Hj). set_solver.
  - pose proof (boot_owner_candidate m o i k j Hk Hj). set_solver.
  - pose proof (ns_owner_candidate m o i k j Hk Hj). set_solver.
Qed.

Lemma wf_after_create m o i m1 :
  wf m → candidates m o = ∅ → allocate_identity m = (Ok i, m1) →
  wf (index i o (set_records m1 (<[i := Record_.new i o]> (records m1)))).2.
Proof.
  intros Hwf Hc (-> & Hlt & ->)%allocate_Ok.
  destruct (no_owner_when_no_candidate m o (next_identity m) Hc) as (Ot & Ob & On).
  set (i := next_identity m) in *. set (r' := Record_.new i o) in *.
  set (m0 := set_records _ _).
  assert (host_le (obs_host o) (rec_host r')) as Hh by reflexivity.
  assert (∀ n, obs_namespace o = Some n → n ∈ rec_namespaces r') as Hn.
  { intros n En. subst r'. simpl. rewrite En. set_solver. }
  destruct (index_active i o m0 r' Hh Hn) as [Hah Han].
  destruct (index_record_spec r' m0) as (E1&E2&E3&E4&E5&Lt&Lb&Ln).
  pose proof (wf_block _ Hwf) as [? ?].
  assert (records m !! i = None) as Hfresh.
  { apply eq_None_not_Some. intros [r Hr]. pose proof (wf_below_next _ Hwf _ _ Hr). lia. }
  rewrite index_eq in Hah, Han |- *. simpl in Hah, Han. fold r' in Hah, Han |- *.
  apply (wf_update_record m _ i r'); simpl; try done.
  - intros r Hr. congruence.
  - rewrite E4. simpl. lia.
  - by apply reindexed_fresh.
  - by apply reindexed_fresh.
  - by apply reindexed_fresh.
  - rewrite E4. simpl. lia.
  - rewrite E4, E5. simpl. lia.
Qed.

Lemma candidates_at_most_one m o i :
  ¬ (1 < size (candidates m o))%nat → bs_first (candidates m o) = Some i →
  candidates m o = {[i]}.
Proof.
  intros Hs Hi%bs_first_elem. apply set_eq. intros j.
  rewrite elem_of_singleton. split; [|by intros ->]. intros Hj.
  destruct (decide (j = i)) as [|Hne]; [done|]. destruct Hs.
  assert (size ({[i; j]} : gset Z) ≤ size (candidates m o))%nat by
    (apply subseteq_size; set_solver).
  rewrite size_union, !size_singleton in H by set_solver. lia.
Qed.

(** Case analysis on a call of [resolve_or_create], all outcomes. *)
Lemma resolve_cases m o :
  (∃ ids, resolve_or_create o m = (Err (Failed (ConflictingObservations ids o)), m)) ∨
  (∃ i, candidates m o = {[i]} ∧
     ((∃ e m1, enrich i o m = (Ok e, m1) ∧
         resolve_or_create o m =
           (Ok (mkResolution i false e (index i o m1).1), (index i o m1).2)) ∨
      (∃ e m1, enrich i o m = (Err e, m1) ∧ resolve_or_create o m = (Err e, m1)))) ∨
  (candidates m o = ∅ ∧
     ((∃ e, allocate_identity m = (Err e, m) ∧ resolve_or_create o m = (Err e, m)) ∨
      (∃ i m1, allocate_identity m = (Ok i, m1) ∧
         let m2 := set_records m1 (<[i := Record_.new i o]> (records m1)) in
         resolve_or_create o m =
           (Ok (mkResolution i true false (index i o m2).1), (index i o m2).2)))).
Proof.
  unfold resolve_or_create. case_bool_decide as Hs; [by left; eauto|]. right.
  destruct (bs_first (candidates m o)) as [i|] eqn:Hf.
  - left. exists i. split; [by apply candidates_at_most_one|].
    destruct (enrich i o m) as [[e|e] m1] eqn:He.
    + left. exists e, m1. split; [done|]. by destruct (index i o m1).
    + right. eauto.
  - right. split; [by apply bs_first_None|].
    assert (∀ e m1, allocate_identity m = (Err e, m1) → m1 = m) as Hm.
    { intros e m1. unfold allocate_identity. repeat case_match; naive_solver. }
    destruct (allocate_identity m) as [[i|e] m1] eqn:Ha.
    + right. exists i, m1. split; [done|]. by destruct (index _ _ _).
    + left. exists e. by rewrite (Hm _ _ eq_refl).
Qed.

(** A conflict only marks the record. *)
Lemma enrich_Err m i o e m1 :
  wf m → is_Some (records m !! i) → enrich i o m = (Err e, m1) →
  wf m1 ∧ (∃ x y, e = Failed (HostCoordinatesConflict i x y) ∧ obs_host o = Some y ∧
                  host_coordinates_match x y = false) ∧
  ∃ r, records m !! i = Some r ∧
    m1 = set_records m (<[i := mkRecord (rec_identity r) (rec_host r)
                                 (rec_namespaces r) Conflicted]> (records m)).
Proof.
  intros Hwf [r Hr]. unfold enrich. rewrite Hr.
  unfold enrich_host. destruct (obs_host o) as [y|] eqn:Eo, (rec_host r) as [x|] eqn:Ex;
    try (by repeat case_match).
  destruct (host_coordinates_match x y) eqn:Em.
  { destruct (enrich_coordinates x y). by repeat case_match. }
  intros [= <- <-]. split; [|split; [by eauto|exists r; by rewrite Ex]].
  assert (record_le r (mkRecord (rec_identity r) (rec_host r) (rec_namespaces r) Conflicted))
    as Hle by (unfold record_le; splits; reflexivity).
  rewrite Ex in Hle.
  apply (wf_update_record m _ i
    (mkRecord (rec_identity r) (Some x) (rec_namespaces r) Conflicted));
    simpl; try done; try (by intros; left).
  - by apply (wf_identity _ Hwf).
  - intros r0 Hr0. by simplify_eq.
  - by rewrite Hr.
  - split; [|split; [|done]]; intros k Hk; [right|]; apply (wf_ticks _ Hwf); exists r;
      unfold ticks_keys; by rewrite Ex.
  - split; [|split; [|done]]; intros k Hk; [right|]; apply (wf_boot _ Hwf); exists r;
      unfold boot_keys; by rewrite Ex.
  - split; [|split; [|done]]; intros k Hk; [right|]; apply (wf_ns _ Hwf); exists r;
      unfold ns_keys; done.
  - apply (wf_block _ Hwf).
Qed.

(** [mark_exited] touches the active indexes only, dropping just its own entries. *)
Lemma fold_delete_owned `{Countable K} {A} (f : A → K) (l : list A) i (acc : gmap K Z) :
  let res := foldl (λ acc x, if bool_decide (acc !! f x = Some i)
                             then delete (f x) acc else acc) acc l in
  ∀ k, res !! k = if decide (acc !! k = Some i ∧ k ∈ f <$> l) then None else acc !! k.
Proof.
  revert acc. induction l as [|x l IH]; intros acc; simpl; intros k.
  - rewrite decide_False; [done|]. set_solver.
  - rewrite IH. case_bool_decide as Hx.
    + rewrite lookup_delete. destruct (decide (f x = k)) as [<-|Hne].
      * rewrite decide_False by naive_solver. rewrite decide_True; [done|set_solver].
      * repeat case_decide; set_solver.
    + destruct (decide (f x = k)) as [<-|Hne]; repeat case_decide; set_solver.
Qed.

Lemma mark_exited_frame i m :
  let m' := mark_exited i m in
  records m' = records m ∧ by_host_start_ticks m' = by_host_start_ticks m ∧
  by_host_start_boottime m' = by_host_start_boottime m ∧
  by_namespace m' = by_namespace m ∧ next_identity m' = next_identity m ∧
  identity_block_end m' = identity_block_end m.
Proof. unfold mark_exited. by destruct (records m !! i). Qed.

Lemma mark_exited_active_host i m p :
  wf m →
  active_by_host_pid (mark_exited i m) !! p =
    if decide (active_by_host_pid m !! p = Some i) then None
    else active_by_host_pid m !! p.
Proof.
  intros Hwf. unfold mark_exited. destruct (records m !! i) as [r|] eqn:Hr; simpl.
  - destruct (rec_host r) as [h|] eqn:Hh; simpl.
    + case_bool_decide as Ha; case_decide as Hd; rewrite ?lookup_delete.
      * destruct (wf_active_host _ Hwf _ _ Hd) as (? & ? & ? & ? & ?). simplify_eq.
        by rewrite decide_True.
      * case_decide; [|done]. naive_solver.
      * destruct (wf_active_host _ Hwf _ _ Hd) as (? & ? & ? & ? & ?). by simplify_eq.
      * done.
    + case_decide as Hd; [|done].
      destruct (wf_active_host _ Hwf _ _ Hd) as (? & ? & ? & ? & ?). by simplify_eq.
  - case_decide as Hd; [|done].
    destruct (wf_active_host _ Hwf _ _ Hd) as (? & ? & ? & _). by simplify_eq.
Qed.

Lemma mark_exited_active_ns i m s p :
  wf m →
  active_by_namespace_pid (mark_exited i m) !! (s, p) =
    if decide (active_by_namespace_pid m !! (s, p) = Some i) then None
    else active_by_namespace_pid m !! (s, p).
Proof.
  intros Hwf. unfold mark_exited. destruct (records m !! i) as [r|] eqn:Hr; simpl.
  - rewrite (fold_delete_owned (λ n, (ns_pid_namespace n, ns_pid n))).
    destruct (decide (active_by_namespace_pid m !! (s, p) = Some i)) as [Hd|Hd].
    + destruct (wf_active_ns _ Hwf _ _ _ Hd) as (r' & n & Hr' & Hn & <- & <-). simplify_eq.
      rewrite decide_True; [done|]. split; [done|].
      apply list_elem_of_fmap. exists n. by rewrite elem_of_bs_list.
    + rewrite decide_False; naive_solver.
  - case_decide as Hd; [|done].
    destruct (wf_active_ns _ Hwf _ _ _ Hd) as (? & ? & ? & _). by simplify_eq.
Qed.

Lemma mark_exited_wf i m : wf m → wf (mark_exited i m).
Proof.
  intros Hwf. destruct (mark_exited_frame i m) as (E1&E2&E3&E4&E5&E6).
  split; rewrite ?E1, ?E2, ?E3, ?E4, ?E5, ?E6; try apply Hwf.
  - intros p j. rewrite mark_exited_active_host, E1 by done. case_decide; [done|].
    apply (wf_active_host _ Hwf).
  - intros s p j. rewrite mark_exited_active_ns, E1 by done. case_decide; [done|].
    apply (wf_active_ns _ Hwf).
Qed.

Lemma install_wf a b m : wf m → b ≤ u64_max → wf (install_reserved_block a b m).2.
Proof.
  intros Hwf Hb. unfold install_reserved_block.
  destruct (negb _ || negb _ || _) eqn:E; [done|].
  apply orb_false_iff in E as [[E1 E2]%orb_false_iff E3].
  apply negb_false_iff, Z.eqb_eq in E1, E2. apply Z.leb_gt in E3.
  pose proof (wf_block _ Hwf) as [? ?].
  split; simpl; try apply Hwf.
  - intros j r Hr. pose proof (wf_below_next _ Hwf _ _ Hr). lia.
  - lia.
Qed.

(** ** Loading a persisted block *)

Definition keys_disjoint (a b : ProcessRecord) : Prop :=
  ticks_keys a ## ticks_keys b ∧ boot_keys a ## boot_keys b ∧ ns_keys a ## ns_keys b.

(** What the store guarantees of the records it hands over: they belong to earlier
    blocks, and no two identities share a start coordinate. *)
Definition loadable (block_start : Z) (recs : list ProcessRecord) : Prop :=
  (∀ r, r ∈ recs → rec_identity r < block_start) ∧
  (∀ a b, a ∈ recs → b ∈ recs → rec_identity a ≠ rec_identity b → keys_disjoint a b).

Lemma load_record_wf all block_start r m m' :
  loadable block_start all → r ∈ all → wf m → next_identity m = block_start →
  (∀ i q, records m !! i = Some q → q ∈ all) →
  load_record r m = (Ok (), m') →
  wf m' ∧ next_identity m' = block_start ∧
  records m' = <[rec_identity r := r]> (records m).
Proof.
  intros [Hbelow Hdisj] Hr Hwf Hnext Hall. unfold load_record.
  destruct (records m !! rec_identity r) as [ex|] eqn:Hex.
  - case_bool_decide as E; [|done]. intros [= <-]. subst ex.
    splits; [done..|]. by rewrite insert_id.
  - intros [= <-]. destruct (index_record_spec r m) as (E1&E2&E3&E4&E5&Lt&Lb&Ln).
    assert (∀ i q, records m !! i = Some q → keys_disjoint r q) as Hdj.
    { intros i q Hq. apply Hdisj; eauto. intros E. rewrite E in Hex.
      pose proof (wf_identity _ Hwf _ _ Hq). simplify_eq. }
    pose proof (wf_block _ Hwf) as [? ?].
    splits; [|simpl; congruence|simpl; by rewrite E1].
    apply (wf_update_record m _ (rec_identity r) r); simpl; rewrite ?E1, ?E2, ?E3;
      try done; try (by intros; left).
    + intros q Hq. congruence.
    + intros _. rewrite E4, Hnext. by apply Hbelow.
    + apply reindexed_fresh; [|done]. intros k Hk. apply eq_None_not_Some. intros [j Hj].
      apply (wf_ticks _ Hwf) in Hj as (q & Hq & Hkq). destruct (Hdj _ _ Hq) as (D & _).
      by destruct (D k).
    + apply reindexed_fresh; [|done]. intros k Hk. apply eq_None_not_Some. intros [j Hj].
      apply (wf_boot _ Hwf) in Hj as (q & Hq & Hkq). destruct (Hdj _ _ Hq) as (_ & D & _).
      by destruct (D k).
    + apply reindexed_fresh; [|done]. intros k Hk. apply eq_None_not_Some. intros [j Hj].
      apply (wf_ns _ Hwf) in Hj as (q & Hq & Hkq). destruct (Hdj _ _ Hq) as (_ & _ & D).
      by destruct (D k).
    + by rewrite E4.
    + rewrite E4, E5. lia.
Qed.

Lemma load_all_wf all block_start rs m m' :
  loadable block_start all → (∀ r, r ∈ rs → r ∈ all) → wf m → next_identity m = block_start →
  (∀ i q, records m !! i = Some q → q ∈ all) →
  load_all rs m = Ok m' →
  wf m' ∧ next_identity m' = block_start ∧
  (∀ r, r ∈ rs → records m' !! rec_identity r = Some r) ∧
  (∀ i q, records m !! i = Some q → records m' !! i = Some q).
Proof.
  intros Hload. revert m. induction rs as [|r rs IH]; intros m Hsub Hwf Hnext Hall; simpl.
  - intros [= <-]. splits; try done. set_solver.
  - destruct (load_record r m) as [[[]|e] m1] eqn:Hl; [|done]. intros Hgo.
    assert (records m !! rec_identity r = Some r ∨ records m !! rec_identity r = None) as Hprev.
    { revert Hl. unfold load_record. destruct (records m !! rec_identity r); [|by right].
      case_bool_decide; naive_solver. }
    destruct (load_record_wf all block_start r m m1) as (Hwf1 & Hn1 & Hr1); try done.
    { set_solver. }
    destruct (IH m1) as (Hwf' & Hn' & Hin & Hkeep); try done.
    { set_solver. }
    { intros i q. rewrite Hr1, lookup_insert. case_decide; [|apply Hall].
      intros [= <-]. set_solver. }
    splits; try done.
    + intros q [->|Hq]%elem_of_cons; [|by apply Hin].
      apply Hkeep. by rewrite Hr1, lookup_insert_eq.
    + intros i q Hq. apply Hkeep. rewrite Hr1, lookup_insert. case_decide; [|done].
      subst i. destruct Hprev; congruence.
Qed.

Lemma empty_wf start end_ :
  0 ≤ start → start ≤ end_ ≤ u64_max → wf (mkManager start end_ ∅ ∅ ∅ ∅ ∅ ∅).
Proof.
  intros. split; simpl; try done; try (by intros ???; rewrite lookup_empty);
    try (intros ??; rewrite lookup_empty; split; [done|]; intros (? & H' & _);
         by rewrite lookup_empty in H').
Qed.

(** ** Lemmas: persistence of what a record knows *)

Lemma resolve_wf o m : wf m → wf (resolve_or_create o m).2.
Proof.
  intros Hwf.
  destruct (resolve_cases m o) as
    [[ids ->]|[(i & Hc & [(e & m1 & He & ->)|(e & m1 & He & ->)])|
               (Hc & [(e & Ha & ->)|(i & m1 & Ha & ->)])]]; simpl; try done.
  - eapply wf_after_enrich; eauto. set_solver.
  - destruct (enrich_Err m i o e m1) as [? _]; try done.
    apply (candidates_recorded m o); [done|set_solver].
  - by apply (wf_after_create m).
Qed.

Definition preserved (m m' : ProcessIdentityManager) : Prop :=
  ∀ i r, records m !! i = Some r → ∃ r', records m' !! i = Some r' ∧ record_le r r'.

#[export] Instance preserved_po : PreOrder preserved.
Proof.
  split.
  - intros m i r Hr. exists r. split; [done|reflexivity].
  - intros a b c H1 H2 i r Hr. destruct (H1 _ _ Hr) as (r1 & Hr1 & L1).
    destruct (H2 _ _ Hr1) as (r2 & Hr2 & L2). exists r2. split; [done|by etrans].
Qed.

Lemma preserved_insert m m' i r r' :
  records m !! i = Some r → record_le r r' → records m' = <[i := r']> (records m) →
  preserved m m'.
Proof.
  intros Hr Hle E j q Hq. rewrite E, lookup_insert. case_decide; [|by exists q].
  subst j. simplify_eq. eauto.
Qed.

Lemma index_records i o m : records (index i o m).2 = records m.
Proof. rewrite index_eq. simpl. by destruct (index_record_spec (Record_.new i o) m). Qed.

(** The record of the identity a successful call returns covers the observation. *)
Lemma resolve_Ok o m res m' :
  wf m → resolve_or_create o m = (Ok res, m') →
  preserved m m' ∧
  ∃ r, records m' !! res_identity res = Some r ∧ host_le (obs_host o) (rec_host r) ∧
       (∀ n, obs_namespace o = Some n → n ∈ rec_namespaces r) ∧
       (is_Some (rec_host r) → rec_resolution_state r = Resolved).
Proof.
  intros Hwf Hres.
  destruct (resolve_cases m o) as
    [[ids E]|[(i & Hc & [(e & m1 & He & E)|(e & m1 & He & E)])|
               (Hc & [(e & Ha & E)|(i & m1 & Ha & E)])]]; rewrite E in Hres; simplify_eq/=.
  - destruct (enrich_Ok _ _ _ _ _ He)
      as (r & r' & Hr & _ & Hle & Hoh & Hon & _ & _ & _ & Hst & _ & ->).
    assert (records (index i o ((if e then index_record_coordinates r' else id)
        (set_records m (<[i:=r']> (records m))))).2 = <[i:=r']> (records m)) as Erec.
    { rewrite index_records. destruct e; simpl; [|done]. by destruct (index_record_spec r'
        (set_records m (<[i:=r']> (records m)))). }
    split; [by eapply preserved_insert|]. exists r'. rewrite Erec, lookup_insert_eq.
    splits; try done. intros [h Eh]. by rewrite Hst, Eh.
  - apply allocate_Ok in Ha as (-> & _ & ->). split.
    + intros j q Hq. exists q. rewrite index_records. simpl. split; [|reflexivity].
      rewrite lookup_insert_ne; [done|]. intros <-.
      pose proof (wf_below_next _ Hwf _ _ Hq). lia.
    + eexists. rewrite index_records. simpl. rewrite lookup_insert_eq.
      splits; [done|simpl; reflexivity| |]; simpl.
      * intros n ->. set_solver.
      * by intros [h ->].
Qed.

Lemma step_preserved m m' : wf m → step m m' → wf m' ∧ preserved m m'.
Proof.
  intros Hwf Hs. destruct Hs as [m o|m i|m a b Hb].
  - split; [by apply resolve_wf|].
    destruct (resolve_or_create o m) as [[res|e] m'] eqn:E; simpl.
    { by destruct (resolve_Ok o m res m' Hwf E). }
    destruct (resolve_cases m o) as
      [[ids E']|[(i & Hc & [(x & m1 & He & E')|(x & m1 & He & E')])|
                 (Hc & [(x & Ha & E')|(i & m1 & Ha & E')])]];
      rewrite E in E'; simplify_eq/=; try reflexivity.
    assert (is_Some (records m !! i)) as Hrec
      by (apply (candidates_recorded m o); [done|set_solver]).
    destruct (enrich_Err m i o _ _ Hwf Hrec He) as (_ & _ & r & Hr & ->).
    eapply preserved_insert; [done| |done]. by unfold record_le; splits.
  - split; [by apply mark_exited_wf|]. intros j r Hr. exists r.
    destruct (mark_exited_frame i m) as (-> & _). split; [done|reflexivity].
  - split; [by apply install_wf|]. intros j r Hr. exists r.
    unfold install_reserved_block. case_match; (split; [done|reflexivity]).
Qed.

Lemma steps_preserved m m' : wf m → rtc step m m' → wf m' ∧ preserved m m'.
Proof.
  intros Hwf Hs. induction Hs as [|m m1 m2 Hs _ IH]; [by split|].
  destruct (step_preserved _ _ Hwf Hs) as [Hwf1 P1]. destruct (IH Hwf1) as [Hwf2 P2].
  split; [done|by etrans].
Qed.

(** A covered observation has exactly its own identity as candidate. *)
Lemma covered_candidates m o i r :
  wf m → records m !! i = Some r → host_le (obs_host o) (rec_host r) →
  (∀ n, obs_namespace o = Some n → n ∈ rec_namespaces r) →
  (∀ h, obs_host o = Some h → active_by_host_pid m !! host_pid h = Some i) →
  (∀ n, obs_namespace o = Some n →
     active_by_namespace_pid m !! (ns_pid_namespace n, ns_pid n) = Some i) →
  candidates m o ⊆ {[i]} ∧
  (is_Some (obs_host o) ∨ is_Some (obs_namespace o) → candidates m o = {[i]}).
Proof.
  intros Hwf Hr Hh Hn Hah Han.
  destruct (new_keys_sub i o r Hh Hn) as (St & Sb & Sn).
  assert (∀ k, k ∈ ticks_keys (Record_.new i o) → by_host_start_ticks m !! k = Some i) as Ht.
  { intros k Hk. apply (wf_ticks _ Hwf). eauto. }
  assert (∀ k, k ∈ boot_keys (Record_.new i o) → by_host_start_boottime m !! k = Some i) as Hb.
  { intros k Hk. apply (wf_boot _ Hwf). eauto. }
  assert (∀ k, k ∈ ns_keys (Record_.new i o) → by_namespace m !! k = Some i) as Hk.
  { intros k Hk. apply (wf_ns _ Hwf). eauto. }
  assert (∀ h, obs_host o = Some h → host_candidates m h = {[i]}) as Ch.
  { intros h Eh. unfold host_candidates. rewrite (Hah h Eh). simpl. rewrite Hr. simpl.
    rewrite Eh in Hh. destruct (rec_host r) as [x|] eqn:Ex; [|done]. simpl.
    assert (host_coordinates_match x h = true) as ->.
    { apply host_match_spec. destruct Hh as (E & T & B & _). splits; [done| |].
      - destruct (decide (host_start_time_ticks h = 0)); auto.
      - intros a b Ha Hb'. rewrite Hb' in B. rewrite B in Ha by eauto. congruence. }
    unfold ticks_keys, boot_keys, host_ticks_keys, host_boot_keys in Ht, Hb.
    simpl in Ht, Hb. rewrite Eh in Ht, Hb. apply set_eq. intros j.
    destruct (host_start_time_ticks h =? 0), (host_start_boottime_ns h);
      rewrite ?Ht, ?Hb by set_solver; set_solver. }
  assert (∀ n, obs_namespace o = Some n → namespace_candidates m n = {[i]}) as Cn.
  { intros n En. unfold namespace_candidates. rewrite (Han n En). simpl. rewrite Hr. simpl.
    assert (existsb (λ existing, namespace_coordinates_match existing n)
              (bs_list (rec_namespaces r)) = true) as ->.
    { apply existsb_exists. exists n. split.
      - apply list_elem_of_In, elem_of_bs_list. by apply Hn.
      - unfold namespace_coordinates_match.
        by rewrite bool_decide_true, !Z.eqb_refl, !orb_true_r by done. }
    unfold ns_keys in Hk. simpl in Hk. rewrite En in Hk.
    destruct (Z.eqb_spec (ns_start_time_ticks n) 0); [set_solver|].
    rewrite Hk by set_solver. set_solver. }
  unfold candidates. destruct (obs_host o) as [h|], (obs_namespace o) as [n|];
    rewrite ?(Ch _ eq_refl), ?(Cn _ eq_refl); split; try set_solver.
Qed.

Lemma enrich_covered m i o r :
  records m !! i = Some r → host_le (obs_host o) (rec_host r) →
  (∀ n, obs_namespace o = Some n → n ∈ rec_namespaces r) →
  (is_Some (rec_host r) → rec_resolution_state r = Resolved) →
  enrich i o m = (Ok false, m).
Proof.
  intros Hr Hh Hn Hst. unfold enrich. rewrite Hr.
  assert (enrich_host r (obs_host o) = Ok (rec_host r, false)) as ->.
  { unfold enrich_host. destruct (obs_host o) as [y|]; [|done].
    destruct (rec_host r) as [x|]; [|done]. destruct Hh as (E & T & B & K).
    assert (host_coordinates_match x y = true) as ->.
    { apply host_match_spec. splits; [done| |].
      - destruct (decide (host_start_time_ticks y = 0)); auto.
      - intros a b Ha Hb. rewrite Hb in B. rewrite B in Ha by eauto. congruence. }
    unfold enrich_coordinates. destruct x as [px kx tx bx], y as [py ky ty by_]. simpl in *.
    assert (((tx =? 0) && negb (ty =? 0)) = false) as ->.
    { destruct (Z.eqb_spec tx 0), (Z.eqb_spec ty 0); try done. by specialize (T n); subst. }
    assert ((bool_decide (bx = None) && negb (bool_decide (by_ = None))) = false) as ->.
    { destruct by_; [rewrite B by eauto|]; destruct bx; done. }
    assert ((bool_decide (kx = None) && negb (bool_decide (ky = None))) = false) as ->.
    { destruct ky; [destruct K as [? ->]; by eauto|by destruct kx]. }
    done. }
  assert ((match obs_namespace o with
           | Some n => if decide (n ∈ rec_namespaces r)
                       then (rec_namespaces r, false)
                       else ({[n]} ∪ rec_namespaces r, true)
           | None => (rec_namespaces r, false) end) = (rec_namespaces r, false)) as ->.
  { destruct (obs_namespace o) as [n|]; [|done]. by rewrite decide_True by auto. }
  simpl. repeat f_equal. unfold set_records.
  assert (mkRecord (rec_identity r) (rec_host r) (rec_namespaces r)
    (match rec_host r with Some _ => Resolved | None => rec_resolution_state r end) = r) as ->.
  { destruct r as [? [h|] ? rs]; simpl in *; [rewrite Hst by eauto|]; done. }
  rewrite insert_id by done. by destruct m.
Qed.

Lemma index_covered m i o r :
  wf m → records m !! i = Some r → host_le (obs_host o) (rec_host r) →
  (∀ n, obs_namespace o = Some n → n ∈ rec_namespaces r) →
  (∀ h, obs_host o = Some h → active_by_host_pid m !! host_pid h = Some i) →
  (∀ n, obs_namespace o = Some n →
     active_by_namespace_pid m !! (ns_pid_namespace n, ns_pid n) = Some i) →
  index i o m = ([], m).
Proof.
  intros Hwf Hr Hh Hn Hah Han.
  destruct (new_keys_sub i o r Hh Hn) as (St & Sb & Sn).
  assert (∀ h, obs_host o = Some h → index_host_coordinates i h m = m) as Ih.
  { intros h Eh. unfold index_host_coordinates, ticks_keys, boot_keys, host_ticks_keys,
      host_boot_keys in *. simpl in St, Sb. rewrite Eh in St, Sb.
    destruct m as [nx be rs bt bb bn ah an]. simpl in *. unfold set_history. simpl. f_equal.
    - destruct (host_start_time_ticks h =? 0); [done|]. apply insert_id.
      apply (wf_ticks _ Hwf). eauto with set_solver.
    - destruct (host_start_boottime_ns h); [|done]. apply insert_id.
      apply (wf_boot _ Hwf). eauto with set_solver. }
  assert (∀ n, obs_namespace o = Some n → index_namespace_coordinates i n m = m) as In_.
  { intros n En. unfold index_namespace_coordinates, ns_keys in *. simpl in Sn. rewrite En in Sn.
    destruct (Z.eqb_spec (ns_start_time_ticks n) 0); [done|].
    destruct m as [nx be rs bt bb bn ah an]. unfold set_history. simpl in *. f_equal.
    apply insert_id. apply (wf_ns _ Hwf). exists r. split; [done|].
    unfold ns_keys. set_solver. }
  assert (∀ q, displaced (Some i) q = if i =? q then ∅ else {[i]}) as Hd by done.
  assert (bs_list (∅ ∪ ∅ : gset Z) = []) as Hnil by reflexivity.
  unfold index. destruct (obs_host o) as [h|] eqn:Eh.
  - rewrite (Ih h eq_refl), (Hah h eq_refl), Hd, Z.eqb_refl.
    rewrite insert_id by auto.
    assert (set_active m (active_by_host_pid m) (active_by_namespace_pid m) = m) as ->
      by (by destruct m).
    destruct (obs_namespace o) as [n|] eqn:En; [|by rewrite Hnil].
    rewrite (In_ n eq_refl), (Han n eq_refl), Hd, Z.eqb_refl, insert_id by auto.
    rewrite Hnil. by destruct m.
  - destruct (obs_namespace o) as [n|] eqn:En; [|by rewrite Hnil].
    rewrite (In_ n eq_refl), (Han n eq_refl), Hd, Z.eqb_refl, insert_id by auto.
    rewrite Hnil. by destruct m.
Qed.

(** After a successful call the active indexes point at its identity. *)
Lemma resolve_Ok_active o m res m' :
  resolve_or_create o m = (Ok res, m') →
  (∀ h, obs_host o = Some h → active_by_host_pid m' !! host_pid h = Some (res_identity res)) ∧
  (∀ n, obs_namespace o = Some n →
     active_by_namespace_pid m' !! (ns_pid_namespace n, ns_pid n) = Some (res_identity res)).
Proof.
  intros Hres.
  assert (∃ m1, m' = (index (res_identity res) o m1).2) as [m1 ->].
  { destruct (resolve_cases m o) as
      [[ids E]|[(i & Hc & [(e & m1 & He & E)|(e & m1 & He & E)])|
                 (Hc & [(e & Ha & E)|(i & m1 & Ha & E)])]]; rewrite E in Hres;
      simplify_eq/=; eauto. }
  rewrite index_eq. simpl. split; intros ? ->; apply lookup_insert_eq.
Qed.

(** ** Properties *)

(** C1: The identity of a process is its start coordinates.  Take two successful
    resolutions with any sequence of manager calls in between (other resolutions,
    exits, new blocks), both observing the host pid with known (non-zero) start
    ticks.  They return the same identity exactly when pid and start ticks are the
    same: a reused pid gets a new identity and a process never gets a second one. *)
Theorem resolve_identity_iff m o1 r1 m1 m2 o2 r2 m3 h1 h2 :
  wf m → resolve_or_create o1 m = (Ok r1, m1) → rtc step m1 m2 →
  resolve_or_create o2 m2 = (Ok r2, m3) →
  obs_host o1 = Some h1 → obs_host o2 = Some h2 →
  host_start_time_ticks h1 ≠ 0 → host_start_time_ticks h2 ≠ 0 →
  (res_identity r1 = res_identity r2 ↔
   host_pid h1 = host_pid h2 ∧ host_start_time_ticks h1 = host_start_time_ticks h2).
Proof.
  intros Hwf H1 Hs H2 Eh1 Eh2 T1 T2.
  destruct (resolve_Ok _ _ _ _ Hwf H1) as (_ & q1 & Hq1 & L1 & _).
  assert (wf m1) as Hwf1 by (pose proof (resolve_wf o1 m Hwf) as W; by rewrite H1 in W).
  destruct (steps_preserved _ _ Hwf1 Hs) as [Hwf2 P12].
  destruct (P12 _ _ Hq1) as (q2 & Hq2 & (_ & L12 & _)).
  destruct (resolve_Ok _ _ _ _ Hwf2 H2) as (P23 & q3 & Hq3 & L3 & _).
  rewrite Eh1 in L1. rewrite Eh2 in L3.
  assert (host_le (Some h1) (rec_host q2)) as L1' by (by etrans). split.
  - intros E. rewrite <-E in Hq3. destruct (P23 _ _ Hq2) as (q3' & Hq3' & (_ & L23 & _)).
    simplify_eq. assert (host_le (Some h1) (rec_host q3)) as L1'' by (by etrans).
    destruct (rec_host q3) as [x|]; [|done].
    destruct L1'' as (? & Ta & _), L3 as (? & Tb & _).
    split; [congruence|]. rewrite <-(Ta T1), <-(Tb T2). done.
  - intros [Ep Et]. destruct (rec_host q2) as [x|] eqn:Ex; [|done].
    destruct L1' as (Epx & Tx & _).
    assert (by_host_start_ticks m2 !! (host_pid h2, host_start_time_ticks h2)
            = Some (res_identity r1)) as Hidx.
    { apply (wf_ticks _ Hwf2). exists q2. split; [done|].
      unfold ticks_keys, host_ticks_keys. rewrite Ex, (Tx T1).
      destruct (Z.eqb_spec (host_start_time_ticks h1) 0); [done|].
      rewrite <-Epx, Ep, Et. set_solver. }
    assert (res_identity r1 ∈ candidates m2 o2) as Hc.
    { eapply (ticks_owner_candidate m2 o2 0); [|done].
      unfold ticks_keys, host_ticks_keys. simpl. rewrite Eh2.
      destruct (Z.eqb_spec (host_start_time_ticks h2) 0); [done|]. set_solver. }
    destruct (resolve_cases m2 o2) as
      [[ids E]|[(i & Hc' & [(e & ? & He & E)|(e & ? & He & E)])|(Hc' & _)]];
      try (rewrite E in H2; simplify_eq/=; set_solver). set_solver.
Qed.

Definition w_host1 : HostProcessCoordinates := HostCoordinates.new 7 100.
Definition w_host2 : HostProcessCoordinates := HostCoordinates.new 7 200.
Definition w_m1 := (resolve_or_create (Observation.host w_host1) (new 1)).2.
Definition w_m2 := mark_exited 1 w_m1.

Lemma new_wf n : 0 ≤ n ≤ u64_max → wf (new n).
Proof. intros. apply empty_wf; lia. Qed.

Lemma resolve_identity_iff_witness :
  (1 = 2 ↔ 7 = 7 ∧ 100 = 200) ∧ wf (new 1).
Proof.
  split; [|apply new_wf; unfold u64_max; lia].
  refine (resolve_identity_iff (new 1) (Observation.host w_host1)
    (mkResolution 1 true false []) w_m1 w_m2 (Observation.host w_host2)
    (mkResolution 2 true false []) (resolve_or_create (Observation.host w_host2) w_m2).2
    w_host1 w_host2 _ _ _ _ eq_refl eq_refl _ _).
  - apply new_wf. unfold u64_max. lia.
  - vm_compute. reflexivity.
  - apply rtc_once, (step_exited w_m1 1).
  - vm_compute. reflexivity.
  - done.
  - done.
Defined.

(** Every sequence of manager calls keeps the invariant (indexes hold exactly
    the coordinates of the records, active pids point at live records, allocated
    identities lie below [next_identity] inside the reserved block) and never loses
    or changes what a record already knows. *)
Theorem steps_invariant m m' :
  wf m → rtc step m m' → wf m' ∧ preserved m m'.
Proof. apply steps_preserved. Qed.

Lemma steps_invariant_witness : wf w_m2 ∧ preserved (new 1) w_m2.
Proof.
  apply (steps_invariant (new 1) w_m2); [apply new_wf; unfold u64_max; lia|].
  eapply rtc_l; [apply (step_resolve (new 1) (Observation.host w_host1))|].
  apply rtc_once, (step_exited w_m1 1).
Defined.

(** Resolving is idempotent: an observation that carries coordinates, resolved
    again right away, finds the same identity, creates and enriches nothing,
    displaces no active process and leaves the manager exactly as it was; [lookup]
    agrees. *)
Theorem resolve_idempotent m o r m' :
  wf m → resolve_or_create o m = (Ok r, m') →
  is_Some (obs_host o) ∨ is_Some (obs_namespace o) →
  lookup m' o = Ok (Some (res_identity r)) ∧
  resolve_or_create o m' = (Ok (mkResolution (res_identity r) false false []), m').
Proof.
  intros Hwf Hr Hne.
  assert (wf m') as Hwf' by (pose proof (resolve_wf o m Hwf) as W; by rewrite Hr in W).
  destruct (resolve_Ok _ _ _ _ Hwf Hr) as (_ & q & Hq & Hh & Hn & Hst).
  destruct (resolve_Ok_active _ _ _ _ Hr) as [Hah Han].
  destruct (covered_candidates m' o _ q Hwf' Hq Hh Hn Hah Han) as [_ Hc].
  unfold lookup, resolve_or_create. rewrite (Hc Hne), bool_decide_false;
    [|rewrite size_singleton; lia].
  unfold bs_first. rewrite bs_list_singleton. simpl. split; [done|].
  rewrite (enrich_covered m' _ o q Hq Hh Hn Hst).
  by rewrite (index_covered m' _ o q Hwf' Hq Hh Hn Hah Han).
Qed.

Lemma resolve_idempotent_witness :
  resolve_or_create (Observation.host w_host1) w_m1 =
    (Ok (mkResolution 1 false false []), w_m1).
Proof.
  apply (resolve_idempotent (new 1) (Observation.host w_host1) (mkResolution 1 true false [])).
  - apply new_wf. unfold u64_max. lia.
  - vm_compute. reflexivity.
  - left. by eexists.
Defined.

(** The error paths of [resolve_or_create], exhaustively: conflicting candidates
    (two or more recorded identities, manager unchanged), an exhausted block (no
    candidate, manager unchanged), or conflicting host coordinates, which only marks
    that record [Conflicted].  In particular the [expect] in [enrich] never panics
    and the counter never overflows. *)
Theorem resolve_errors m o e m' :
  wf m → resolve_or_create o m = (Err e, m') →
  (∃ ids, e = Failed (ConflictingObservations ids o) ∧ m' = m ∧ (2 ≤ length ids)%nat ∧
          ∀ i, i ∈ ids → is_Some (records m !! i)) ∨
  (e = Failed IdBlockExhausted ∧ m' = m ∧ candidates m o = ∅ ∧
   next_identity m = identity_block_end m) ∨
  (∃ i x y r, e = Failed (HostCoordinatesConflict i x y) ∧ obs_host o = Some y ∧
     host_coordinates_match x y = false ∧ records m !! i = Some r ∧
     m' = set_records m (<[i := mkRecord (rec_identity r) (rec_host r)
                                  (rec_namespaces r) Conflicted]> (records m))).
Proof.
  intros Hwf Hr. unfold resolve_or_create in Hr. revert Hr.
  case_bool_decide as Hs.
  { intros [= <- <-]. left. eexists; splits; try done.
    - rewrite bs_list_perm. apply Hs.
    - intros i Hi. apply (candidates_recorded m o); [done|by apply elem_of_bs_list]. }
  destruct (bs_first (candidates m o)) as [i|] eqn:Hf.
  - destruct (enrich i o m) as [[x|x] m1] eqn:He; [by destruct (index i o m1)|].
    intros [= <- <-]. right. right.
    assert (is_Some (records m !! i)) as Hrec.
    { apply (candidates_recorded m o); [done|by apply bs_first_elem]. }
    destruct (enrich_Err m i o _ _ Hwf Hrec He) as (_ & (a & b & -> & ? & ?) & r & ? & ->).
    exists i, a, b, r. done.
  - unfold allocate_identity. destruct (Z.leb_spec (identity_block_end m) (next_identity m)).
    + intros [= <- <-]. right. left. splits; try done; [by apply bs_first_None|].
      pose proof (wf_block _ Hwf). lia.
    + destruct (checked_add_u64 _ _) eqn:Ec; [by destruct (index _ _ _)|].
      unfold checked_add_u64 in Ec. case_decide; [done|].
      pose proof (wf_block _ Hwf). lia.
Qed.

Definition w_full : ProcessIdentityManager := mkManager 5 5 ∅ ∅ ∅ ∅ ∅ ∅.

Lemma resolve_errors_witness :
  (Failed IdBlockExhausted = Failed IdBlockExhausted ∧ w_full = w_full ∧
   candidates w_full (Observation.host w_host1) = ∅ ∧ 5 = 5).
Proof.
  destruct (resolve_errors w_full (Observation.host w_host1) (Failed IdBlockExhausted) w_full)
    as [(ids & E & _)|[H|(i & x & y & r & E & _)]]; try done.
  - apply empty_wf; unfold u64_max; lia.
Defined.

(** A new identity is given out exactly when nothing known matches; it is the
    next number of the reserved block, was never used by any record, and the counter
    moves past it. *)
Theorem resolve_created_fresh m o r m' :
  wf m → resolve_or_create o m = (Ok r, m') →
  (res_created r = true ↔ candidates m o = ∅) ∧
  (res_created r = true →
     res_identity r = next_identity m ∧ records m !! res_identity r = None ∧
     next_identity m' = next_identity m + 1 ∧
     res_identity r < identity_block_end m ∧
     records m' = <[res_identity r := Record_.new (res_identity r) o]> (records m)) ∧
  (res_created r = false →
     candidates m o = {[res_identity r]} ∧ next_identity m' = next_identity m ∧
     is_Some (records m !! res_identity r)).
Proof.
  intros Hwf Hr.
  destruct (resolve_cases m o) as
    [[ids E]|[(i & Hc & [(e & m1 & He & E)|(e & m1 & He & E)])|
               (Hc & [(e & Ha & E)|(i & m1 & Ha & E)])]]; rewrite E in Hr; simplify_eq/=.
  - splits; [split; [done|set_solver]|done|]. intros _.
    destruct (enrich_Ok _ _ _ _ _ He) as (q & q' & Hq & _ & _ & _ & _ & _ & _ & _ & _ & _ & ->).
    splits; [done| |by eauto]. rewrite index_eq. simpl.
    set (ma := set_records m _).
    destruct (index_record_spec (Record_.new i o)
      ((if e then index_record_coordinates q' else id) ma)) as (_&_&_&->&_).
    destruct e; simpl; [|done]. by destruct (index_record_spec q' ma) as (_&_&_&->&_).
  - apply allocate_Ok in Ha as (-> & Hlt & ->). splits; [done| |done]. intros _.
    rewrite index_records. splits; try done.
    + apply eq_None_not_Some. intros [q Hq]. pose proof (wf_below_next _ Hwf _ _ Hq). lia.
    + rewrite index_eq. simpl. set (ma := set_records _ _).
      by destruct (index_record_spec (Record_.new (next_identity m) o) ma) as (_&_&_&->&_).
Qed.

Lemma resolve_created_fresh_witness :
  records (new 1) !! 1 = None ∧ next_identity w_m1 = 2.
Proof.
  destruct (resolve_created_fresh (new 1) (Observation.host w_host1)
    (mkResolution 1 true false []) w_m1) as (_ & H & _).
  - apply new_wf. unfold u64_max. lia.
  - vm_compute. reflexivity.
  - destruct (H eq_refl) as (_ & Hn & Hx & _). split; [exact Hn|exact Hx].
Defined.

(** [mark_exited] makes the identity inactive everywhere and touches nothing
    else: other active pids stay, and a later observation of the same pid and
    (non-zero) start ticks still finds the exited identity. *)
Theorem mark_exited_spec m i :
  wf m →
  let m' := mark_exited i m in
  wf m' ∧ records m' = records m ∧
  (∀ p, active_host_pid m' p ≠ Some i) ∧
  (∀ p, active_host_pid m p ≠ Some i → active_host_pid m' p = active_host_pid m p) ∧
  (∀ s p, active_namespace_pid m' s p ≠ Some i) ∧
  (∀ s p, active_namespace_pid m s p ≠ Some i →
     active_namespace_pid m' s p = active_namespace_pid m s p) ∧
  (∀ o h r, obs_host o = Some h → host_start_time_ticks h ≠ 0 →
     records m !! i = Some r → (host_pid h, host_start_time_ticks h) ∈ ticks_keys r →
     i ∈ candidates m' o).
Proof.
  intros Hwf m'. destruct (mark_exited_frame i m) as (E1 & E2 & _).
  unfold active_host_pid, active_namespace_pid. subst m'.
  splits; [by apply mark_exited_wf|done|..].
  - intros p. rewrite mark_exited_active_host by done. by case_decide.
  - intros p Hp. rewrite mark_exited_active_host by done. by case_decide.
  - intros s p. rewrite mark_exited_active_ns by done. by case_decide.
  - intros s p Hp. rewrite mark_exited_active_ns by done. by case_decide.
  - intros o h r Eh Ht Hr Hk. eapply (ticks_owner_candidate _ o i).
    + unfold ticks_keys, host_ticks_keys. simpl. rewrite Eh.
      destruct (Z.eqb_spec (host_start_time_ticks h) 0); [done|]. by apply elem_of_singleton.
    + rewrite E2. apply (wf_ticks _ Hwf). eauto.
Qed.

Lemma mark_exited_spec_witness :
  active_host_pid w_m1 7 = Some 1 ∧ active_host_pid w_m2 7 ≠ Some 1.
Proof.
  split; [vm_compute; reflexivity|].
  assert (wf w_m1) as Hwf by (apply resolve_wf, new_wf; unfold u64_max; lia).
  destruct (mark_exited_spec w_m1 1 Hwf) as (_ & _ & H & _). apply (H 7).
Defined.

(** Restarting from a reserved block of identities and the persisted records
    of earlier blocks yields a well-formed manager that holds every one of them and
    will only hand out identities of the new block. *)
Theorem with_reserved_block_loads block_start block_end recs m :
  loadable block_start recs → 0 ≤ block_start → block_end ≤ u64_max →
  with_reserved_block block_start block_end recs = Ok m →
  wf m ∧ next_identity m = block_start ∧
  (∀ r, r ∈ recs → records m !! rec_identity r = Some r).
Proof.
  intros Hl H0 Hb. unfold with_reserved_block.
  destruct ((block_start =? 0) || (block_end <=? block_start)) eqn:E; [done|].
  apply orb_false_iff in E as [_ E%Z.leb_gt]. intros Hgo.
  destruct (load_all_wf recs block_start recs
    (mkManager block_start block_end ∅ ∅ ∅ ∅ ∅ ∅) m) as (? & ? & ? & _); try done.
  apply empty_wf; lia.
Qed.

Definition w_recs : list ProcessRecord :=
  [Record_.new 1 (Observation.host w_host1); Record_.new 2 (Observation.host w_host2)].

Lemma with_reserved_block_loads_witness :
  ∃ m, with_reserved_block 10 20 w_recs = Ok m ∧ wf m ∧
       records m !! 2 = Some (Record_.new 2 (Observation.host w_host2)).
Proof.
  eexists. split; [vm_compute; reflexivity|].
  edestruct (with_reserved_block_loads 10 20 w_recs) as (Hwf & _ & Hin);
    [|lia|unfold u64_max; lia|vm_compute; reflexivity|].
  - split.
    + intros r [->|[->|[]%not_elem_of_nil]%elem_of_cons]%elem_of_cons; simpl; lia.
    + intros a b [->|[->|[]%not_elem_of_nil]%elem_of_cons]%elem_of_cons
        [->|[->|[]%not_elem_of_nil]%elem_of_cons]%elem_of_cons Hne; try done;
        (split; [|split]); apply (bool_decide_unpack _); vm_compute; reflexivity.
  - split; [exact Hwf|]. apply (Hin (Record_.new 2 (Observation.host w_host2))).
    by do 2 constructor.
Defined.
End Mgr.
