(* ===== verification/Model.v ===== *)
(** The runtime records of crates/core/model: capabilities (capability.rs),
    identifiers (ids.rs), trace membership of processes (process.rs) and trace
    records with their lifecycle (trace.rs).  [SystemTime] is a [Z] of nanoseconds,
    identifiers are their [u64], names are byte strings. *)
From stdpp Require Import prelude gmap strings sorting.
From Stdlib Require Import ZArith Lia.
From coqutil Require Import Byte.
From S2P Require Import Prelude Bytes ProcessIdentity.

Open Scope Z_scope.

Abbreviation TraceId := Z (only parsing).
Abbreviation SystemTime := Z (only parsing).

(** * Capabilities (capability.rs) *)

Inductive Capability :=
| ProcLifecycle | ProcExecContext | FsAccessBasic | FsMmap | FsExecAccess
| NetTransport | NetDns | NetTlsMetadata | NetProviderClassification
| NetApplicationPlaintextHttp | NetApplicationHttp2Frames | NetApplicationPlaintextWs
| TlsPlaintextPayload | SocketPlaintextPayload | ResourceMetrics | IpcUnixSocket
| IpcPipeFifo | StdioChunk | PolicyIngestProcessing | PolicyDecisionRecord
| EnforcementFilePermissionFanotify | EnforcementFileMkdirSeccomp
| EnforcementFileRmdirSeccomp | EnforcementCommandExecutionSeccomp
| EnforcementNetworkConnectSeccomp | EnforcementFilePermissionLsm
| EnforcementCommandExecutionLsm | EnforcementNetworkConnectLsm.

#[export] Instance capability_eq_dec : EqDecision Capability.
Proof. solve_decision. Defined.

Module Cap.
Definition as_str (c : Capability) : string :=
  match c with
  | ProcLifecycle => "proc-lifecycle"
  | ProcExecContext => "proc-exec-context"
  | FsAccessBasic => "fs-access-basic"
  | FsMmap => "fs-mmap"
  | FsExecAccess => "fs-exec-access"
  | NetTransport => "net-transport"
  | NetDns => "net-dns"
  | NetTlsMetadata => "net-tls-metadata"
  | NetProviderClassification => "net-provider-classification"
  | NetApplicationPlaintextHttp => "net-application-plaintext-http"
  | NetApplicationHttp2Frames => "net-application-http2-frames"
  | NetApplicationPlaintextWs => "net-application-plaintext-ws"
  | TlsPlaintextPayload => "tls-plaintext-payload"
  | SocketPlaintextPayload => "socket-plaintext-payload"
  | ResourceMetrics => "resource-metrics"
  | IpcUnixSocket => "ipc-unix-socket"
  | IpcPipeFifo => "ipc-pipe-fifo"
  | StdioChunk => "stdio-chunk"
  | PolicyIngestProcessing => "policy-ingest-processing"
  | PolicyDecisionRecord => "policy-decision-record"
  | EnforcementFileMkdirSeccomp => "enforcement-file-mkdir-seccomp"
  | EnforcementFileRmdirSeccomp => "enforcement-file-rmdir-seccomp"
  | EnforcementFilePermissionFanotify => "enforcement-file-permission-fanotify"
  | EnforcementCommandExecutionSeccomp => "enforcement-command-execution-seccomp"
  | EnforcementNetworkConnectSeccomp => "enforcement-network-connect-seccomp"
  | EnforcementFilePermissionLsm => "enforcement-file-permission-lsm"
  | EnforcementCommandExecutionLsm => "enforcement-command-execution-lsm"
  | EnforcementNetworkConnectLsm => "enforcement-network-connect-lsm"
  end.

Definition table : list (string * Capability) :=
  [("proc-lifecycle", ProcLifecycle);
   ("proc-exec-context", ProcExecContext);
   ("fs-access-basic", FsAccessBasic);
   ("fs-mmap", FsMmap);
   ("fs-exec-access", FsExecAccess);
   ("net-transport", NetTransport);
   ("net-dns", NetDns);
   ("net-tls-metadata", NetTlsMetadata);
   ("net-provider-classification", NetProviderClassification);
   ("net-application-plaintext-http", NetApplicationPlaintextHttp);
   ("net-application-http2-frames", NetApplicationHttp2Frames);
   ("net-application-plaintext-ws", NetApplicationPlaintextWs);
   ("tls-plaintext-payload", TlsPlaintextPayload);
   ("socket-plaintext-payload", SocketPlaintextPayload);
   ("resource-metrics", ResourceMetrics);
   ("ipc-unix-socket", IpcUnixSocket);
   ("ipc-pipe-fifo", IpcPipeFifo);
   ("stdio-chunk", StdioChunk);
   ("policy-ingest-processing", PolicyIngestProcessing);
   ("policy-decision-record", PolicyDecisionRecord);
   ("enforcement-file-mkdir-seccomp", EnforcementFileMkdirSeccomp);
   ("enforcement-file-rmdir-seccomp", EnforcementFileRmdirSeccomp);
   ("enforcement-file-permission-fanotify", EnforcementFilePermissionFanotify);
   ("enforcement-command-execution-seccomp", EnforcementCommandExecutionSeccomp);
   ("enforcement-network-connect-seccomp", EnforcementNetworkConnectSeccomp);
   ("enforcement-file-permission-lsm", EnforcementFilePermissionLsm);
   ("enforcement-command-execution-lsm", EnforcementCommandExecutionLsm);
   ("enforcement-network-connect-lsm", EnforcementNetworkConnectLsm)]%string.

(** [FromStr for Capability]. *)
Definition from_str (value : string) : result string Capability :=
  ok_or ("unknown capability " +:+ value)%string (str_match table value).
End Cap.

Inductive RequestMode := Required | Opportunistic | Disabled.

Inductive GuaranteeClass :=
| GuaranteedByTransportCollector
| AvailableWhenMetadataObservable
| RequiresPayloadCollector.

Record CapabilityRequest := mkRequest {
  req_capability : Capability;
  req_mode : RequestMode;
}.

Record CapabilityField := mkField {
  field_name : string;
  field_guarantee : GuaranteeClass;
  field_note : option string;
}.

Record CapabilityDescriptor := mkDescriptor {
  desc_capability : Capability;
  desc_fields : list CapabilityField;
}.

(** [CapabilitySet]: the values of a [BTreeSet], in any order. *)
Definition CapabilitySet := list Capability.

Module CapSet.
Definition new (values : list Capability) : CapabilitySet := remove_dups values.
Definition contains (s : CapabilitySet) (c : Capability) : bool := bool_decide (c ∈ s).
Definition insert (s : CapabilitySet) (c : Capability) : CapabilitySet :=
  if contains s c then s else c :: s.
Definition missing_from (s : CapabilitySet) (requested : list CapabilityRequest)
    : list CapabilityRequest :=
  filter (λ r, contains s (req_capability r) = false) requested.
End CapSet.

(** * Trace identifiers (ids.rs) *)

(** [OtelTraceId::from_bytes]: sixteen bytes, not all zero. *)
Definition OTEL_BYTE_COUNT : nat := 16.
Definition otel_from_bytes (bytes : list byte) : option (list byte) :=
  if bool_decide (bytes = replicate OTEL_BYTE_COUNT zero_byte) then None else Some bytes.
(** [OtelTraceId::from_slice]. *)
Definition otel_from_slice (bytes : list byte) : option (list byte) :=
  if bool_decide (length bytes = OTEL_BYTE_COUNT) then otel_from_bytes bytes else None.

(** * Memberships (process.rs) *)

Inductive MembershipState := MStarting | MActive | MExited | MIdentityStale.
#[export] Instance membership_state_eq_dec : EqDecision MembershipState.
Proof. solve_decision. Defined.

Inductive ExitObservationSource := ExitEvent | ExitReconciled.

Record ExitStatus := mkExit {
  exit_code : option Z;
  exit_observed_at : SystemTime;
  exit_source : option ExitObservationSource;
}.

Record ProcessMembership := mkMembership {
  mem_trace_id : TraceId;
  mem_identity : ProcessIdentity;
  mem_inherited_from : option ProcessIdentity;
  mem_observed_at : option SystemTime;
  mem_capture_enabled : bool;
  mem_propagation_enabled : bool;
  mem_state : MembershipState;
  mem_exit_status : option ExitStatus;
}.

Module Membership.
Definition root (trace_id : TraceId) (identity : ProcessIdentity) (observed_at : SystemTime) :=
  mkMembership trace_id identity None (Some observed_at) true true MStarting None.

Definition inherited (trace_id : TraceId) (identity inherited_from : ProcessIdentity)
    (observed_at : SystemTime) :=
  mkMembership trace_id identity (Some inherited_from) (Some observed_at) true true
    MStarting None.

Definition observed (trace_id : TraceId) (identity : ProcessIdentity)
    (observed_at : SystemTime) :=
  mkMembership trace_id identity None (Some observed_at) true true MStarting None.

Definition with_state (m : ProcessMembership) (s : MembershipState) :=
  mkMembership (mem_trace_id m) (mem_identity m) (mem_inherited_from m)
    (mem_observed_at m) (mem_capture_enabled m) (mem_propagation_enabled m) s
    (mem_exit_status m).

Definition activate (m : ProcessMembership) := with_state m MActive.

Definition disable_capture (m : ProcessMembership) :=
  mkMembership (mem_trace_id m) (mem_identity m) (mem_inherited_from m)
    (mem_observed_at m) false (mem_propagation_enabled m) (mem_state m)
    (mem_exit_status m).

Definition disable_propagation (m : ProcessMembership) :=
  mkMembership (mem_trace_id m) (mem_identity m) (mem_inherited_from m)
    (mem_observed_at m) (mem_capture_enabled m) false (mem_state m)
    (mem_exit_status m).

(** [matches!(state, Starting | Active)]. *)
Definition live (s : MembershipState) : bool :=
  match s with MStarting | MActive => true | MExited | MIdentityStale => false end.

Definition can_inherit (m : ProcessMembership) : bool :=
  mem_capture_enabled m && mem_propagation_enabled m && live (mem_state m).

Definition mark_exited (m : ProcessMembership) (status : ExitStatus) :=
  mkMembership (mem_trace_id m) (mem_identity m) (mem_inherited_from m)
    (mem_observed_at m) (mem_capture_enabled m) (mem_propagation_enabled m) MExited
    (Some status).

Definition mark_identity_stale (m : ProcessMembership) := with_state m MIdentityStale.
End Membership.

(** * Trace records (trace.rs) *)

Inductive TraceLifecycleState :=
| Starting | Active | Draining | Completed | Exited | TraceFailed.
#[export] Instance lifecycle_eq_dec : EqDecision TraceLifecycleState.
Proof. solve_decision. Defined.

Module Lifecycle.
Definition as_storage_str (s : TraceLifecycleState) : string :=
  match s with
  | Starting => "starting" | Active => "active" | Draining => "draining"
  | Completed => "completed" | Exited => "exited" | TraceFailed => "failed"
  end.
Definition from_storage_str (raw : string) : option TraceLifecycleState :=
  str_match [("starting", Starting); ("active", Active); ("draining", Draining);
             ("completed", Completed); ("exited", Exited); ("failed", TraceFailed)]%string raw.
Definition as_display_str (s : TraceLifecycleState) : string :=
  match s with
  | Starting => "Starting" | Active => "Active" | Draining => "Draining"
  | Completed => "Completed" | Exited => "Exited" | TraceFailed => "Failed"
  end.
Definition from_display_str (raw : string) : option TraceLifecycleState :=
  str_match [("Starting", Starting); ("Active", Active); ("Draining", Draining);
             ("Completed", Completed); ("Exited", Exited); ("Failed", TraceFailed)]%string raw.
Definition is_terminal (s : TraceLifecycleState) : bool :=
  match s with Completed | Exited | TraceFailed => true | _ => false end.
Definition is_active_or_draining (s : TraceLifecycleState) : bool :=
  match s with Starting | Active | Draining => true | _ => false end.
End Lifecycle.

Inductive TraceHealth := Clean | Degraded.
#[export] Instance health_eq_dec : EqDecision TraceHealth.
Proof. solve_decision. Defined.

Record TraceTiming := mkTiming {
  created_at : SystemTime;
  started_at : option SystemTime;
  completed_at : option SystemTime;
  exited_at : option SystemTime;
  failed_at : option SystemTime;
}.

Record TraceRecord := mkTrace {
  trace_id : TraceId;
  otel_trace_id : list byte;
  alert_token : list byte;
  root_process_identity : ProcessIdentity;
  root_pid_namespace : option NamespaceIdentity;
  root_container_id : option string;
  root_pod_uid : option string;
  root_host_id : option string;
  root_working_directory : option string;
  display_name : string;
  profile_name : string;
  tags : gset string;
  lifecycle_state : TraceLifecycleState;
  health : TraceHealth;
  timings : TraceTiming;
}.

Module Trace.
Definition timing_new (at_ : SystemTime) : TraceTiming := mkTiming at_ None None None None.

(** [TraceRecord::new]. *)
Definition new (id : TraceId) (otel token : list byte) (root : ProcessIdentity)
    (name profile : string) (at_ : SystemTime) : TraceRecord :=
  mkTrace id otel token root None None None None None name profile ∅ Starting Clean
    (timing_new at_).

(** [TraceRecord::add_tag]. *)
Definition add_tag (t : TraceRecord) (tag : string) : TraceRecord :=
  mkTrace (trace_id t) (otel_trace_id t) (alert_token t) (root_process_identity t)
    (root_pid_namespace t) (root_container_id t) (root_pod_uid t) (root_host_id t)
    (root_working_directory t) (display_name t) (profile_name t) ({[tag]} ∪ tags t)
    (lifecycle_state t) (health t) (timings t).

(** Assignment to lifecycle and timings, and to health. *)
Definition set_lifecycle (t : TraceRecord) (s : TraceLifecycleState) (ti : TraceTiming) :=
  mkTrace (trace_id t) (otel_trace_id t) (alert_token t) (root_process_identity t)
    (root_pid_namespace t) (root_container_id t) (root_pod_uid t) (root_host_id t)
    (root_working_directory t) (display_name t) (profile_name t) (tags t) s (health t) ti.
Definition set_health (t : TraceRecord) (h : TraceHealth) :=
  mkTrace (trace_id t) (otel_trace_id t) (alert_token t) (root_process_identity t)
    (root_pid_namespace t) (root_container_id t) (root_pod_uid t) (root_host_id t)
    (root_working_directory t) (display_name t) (profile_name t) (tags t)
    (lifecycle_state t) h (timings t).
(** The attach-time assignments of [create_starting_trace]. *)
Definition set_root (t : TraceRecord) (ns : option NamespaceIdentity)
    (container pod host cwd : option string) :=
  mkTrace (trace_id t) (otel_trace_id t) (alert_token t) (root_process_identity t)
    ns container pod host cwd (display_name t) (profile_name t) (tags t)
    (lifecycle_state t) (health t) (timings t).
End Trace.

(** * Properties *)

Lemma str_match_Some {A} (table : list (string * A)) v a :
  str_match table v = Some a → (v, a) ∈ table.
Proof.
  induction table as [|[n x] tbl IH]; simpl; [done|].
  destruct (String.eqb_spec v n) as [->|].
  - intros [= ->]. constructor.
  - intros Hm. constructor. auto.
Qed.

(** The textual names are faithful encodings: capability names, trace lifecycle
    states (storage and display form) and suppressed-fd purposes are each read back as
    the value that wrote them, and every accepted name is the name of its value. *)
Theorem names_roundtrip :
  (∀ c, Cap.from_str (Cap.as_str c) = Ok c) ∧
  (∀ v c, Cap.from_str v = Ok c → v = Cap.as_str c) ∧
  (∀ s, Lifecycle.from_storage_str (Lifecycle.as_storage_str s) = Some s) ∧
  (∀ v s, Lifecycle.from_storage_str v = Some s → v = Lifecycle.as_storage_str s) ∧
  (∀ s, Lifecycle.from_display_str (Lifecycle.as_display_str s) = Some s) ∧
  (∀ v s, Lifecycle.from_display_str v = Some s → v = Lifecycle.as_display_str s) ∧
  (∀ p, FdPurpose.from_str (FdPurpose.as_str p) = Ok p) ∧
  (∀ v p, FdPurpose.from_str v = Ok p → v = FdPurpose.as_str p).
Proof.
  splits; [by intros []| |by intros []| |by intros []| |by intros []|].
  - intros v c. unfold Cap.from_str, ok_or.
    destruct (str_match Cap.table v) as [x|] eqn:E; intros [= <-].
    apply str_match_Some in E. unfold Cap.table in E.
    repeat (apply elem_of_cons in E as [E|E]; [by simplify_eq|]). set_solver.
  - intros v s E%str_match_Some.
    repeat (apply elem_of_cons in E as [E|E]; [by simplify_eq|]). set_solver.
  - intros v s E%str_match_Some.
    repeat (apply elem_of_cons in E as [E|E]; [by simplify_eq|]). set_solver.
  - intros v p. unfold FdPurpose.from_str.
    repeat match goal with
    | |- context [String.eqb v ?n] => destruct (String.eqb_spec v n); [intros; by simplify_eq|]
    end. done.
Qed.
