(* ===== verification/TraceRuntime.v ===== *)
(** Trace lifecycle and membership: crates/core/trace_runtime (state_machine.rs,
    membership.rs, sensor_plan.rs, commands.rs, registry.rs).

    [StateMachine] is the lifecycle automaton, [Plan] the negotiation of collectors
    for a capture profile, [Registry] the active-trace registry with every operation
    of [TraceRuntime] as a function on its state.  Operations return the new registry
    on the error path too, because the code does not undo mutations. *)
From stdpp Require Import prelude gmap strings sorting.
From Stdlib Require Import ZArith Lia.
From coqutil Require Import Byte.
From S2P Require Import Prelude Bytes ProcessIdentity Model.

Open Scope Z_scope.

(** * state_machine.rs *)

Record StateTransitionError := mkTransitionError {
  err_from : TraceLifecycleState;
  err_to : TraceLifecycleState;
}.

Module StateMachine.
(** The [matches!] table of [require_transition]. *)
Definition allowed (from to : TraceLifecycleState) : bool :=
  match from, to with
  | Starting, Active | Starting, TraceFailed
  | Active, Draining | Active, Completed | Active, Exited | Active, TraceFailed
  | Draining, Completed | Draining, Exited | Draining, TraceFailed => true
  | _, _ => false
  end.

Definition require_transition (from to : TraceLifecycleState)
    : result StateTransitionError () :=
  if allowed from to then Ok () else Err (mkTransitionError from to).

Definition start_trace (t : TraceRecord) (at_ : SystemTime)
    : result StateTransitionError TraceRecord :=
  _ ← require_transition (lifecycle_state t) Active;
  let ti := timings t in
  mret (Trace.set_lifecycle t Active
          (mkTiming (created_at ti) (Some at_) (completed_at ti) (exited_at ti) (failed_at ti))).

Definition begin_draining (t : TraceRecord) (at_ : SystemTime)
    : result StateTransitionError TraceRecord :=
  _ ← require_transition (lifecycle_state t) Draining;
  mret (Trace.set_lifecycle t Draining (timings t)).

Definition complete_trace (t : TraceRecord) (at_ : SystemTime)
    : result StateTransitionError TraceRecord :=
  _ ← require_transition (lifecycle_state t) Completed;
  let ti := timings t in
  mret (Trace.set_lifecycle t Completed
          (mkTiming (created_at ti) (started_at ti) (Some at_) (exited_at ti) (failed_at ti))).

Definition exit_trace (t : TraceRecord) (at_ : SystemTime)
    : result StateTransitionError TraceRecord :=
  _ ← require_transition (lifecycle_state t) Exited;
  let ti := timings t in
  mret (Trace.set_lifecycle t Exited
          (mkTiming (created_at ti) (started_at ti) (completed_at ti) (Some at_) (failed_at ti))).

Definition fail_trace (t : TraceRecord) (at_ : SystemTime)
    : result StateTransitionError TraceRecord :=
  _ ← require_transition (lifecycle_state t) TraceFailed;
  let ti := timings t in
  mret (Trace.set_lifecycle t TraceFailed
          (mkTiming (created_at ti) (started_at ti) (completed_at ti) (exited_at ti) (Some at_))).

Definition degrade_trace (t : TraceRecord) : TraceRecord := Trace.set_health t Degraded.
End StateMachine.

(** * membership.rs *)

Module MembershipIndex.
Abbreviation t := (gmap ProcessIdentity ProcessMembership).

Definition new (root : ProcessMembership) : t := {[mem_identity root := root]}.
Definition insert (m : ProcessMembership) (idx : t) : t := <[mem_identity m := m]> idx.
Definition activate_all (idx : t) : t := Membership.activate <$> idx.
(** [has_capturable_members]. *)
Definition capturable (m : ProcessMembership) : bool :=
  mem_capture_enabled m && Membership.live (mem_state m).
Definition has_capturable_members (idx : t) : bool := existsb capturable (bt_values idx).
End MembershipIndex.

(** * sensor_plan.rs, with the descriptor and profile types it reads *)

Record CollectorDescriptor := mkCollector {
  col_name : string;
  col_capabilities : list CapabilityDescriptor;
  col_supports_attach_coverage_guard : bool;
  col_supports_existing_pid_attach : bool;
}.

Definition capability_set (c : CollectorDescriptor) : CapabilitySet :=
  CapSet.new (desc_capability <$> col_capabilities c).

Record CaptureProfileSnapshot := mkProfile {
  prof_name : string;
  prof_captured_at : SystemTime;
  prof_capability_requests : list CapabilityRequest;
  prof_agent_descendant_observation_depth : Z;
  prof_classify_providers : bool;
  prof_enable_payload_collectors : bool;
}.

Record CollectorPlan := mkCollectorPlan {
  cp_collector_name : string;
  cp_capabilities : list Capability;
}.

Record SensorPlan := mkSensorPlan {
  sp_profile_name : string;
  sp_collectors : list CollectorPlan;
  sp_unbound_opportunistic : list Capability;
}.

Record NegotiationFailure := mkNegotiationFailure {
  nf_capability : Capability;
  nf_detail : string;
}.

Module Plan.
Definition supports (c : CollectorDescriptor) (cap : Capability) : bool :=
  CapSet.contains (capability_set c) cap.

(** [collectors.iter().find(..)]. *)
Definition find_collector (collectors : list CollectorDescriptor) (cap : Capability)
    : option CollectorDescriptor :=
  List.find (λ c, supports c cap) collectors.

Record acc := mkAcc {
  bindings : gmap string (list Capability);
  missing_required : list NegotiationFailure;
  unbound : list Capability;
}.

(** One iteration of the loop over the requests. *)
Definition negotiate_one (collectors : list CollectorDescriptor) (a : acc)
    (r : CapabilityRequest) : acc :=
  match req_mode r, find_collector collectors (req_capability r) with
  | Disabled, _ => a
  | _, Some c =>
      mkAcc (<[col_name c := default [] (bindings a !! col_name c) ++ [req_capability r]]>
               (bindings a))
            (missing_required a) (unbound a)
  | Required, None =>
      mkAcc (bindings a)
            (missing_required a ++
               [mkNegotiationFailure (req_capability r) "no collector declared support"])
            (unbound a)
  | Opportunistic, None =>
      mkAcc (bindings a) (missing_required a) (unbound a ++ [req_capability r])
  end.

(** [SensorPlan::negotiate]. *)
Definition negotiate (profile : CaptureProfileSnapshot)
    (collectors : list CollectorDescriptor) : result (list NegotiationFailure) SensorPlan :=
  let a := foldl (negotiate_one collectors) (mkAcc ∅ [] [])
             (prof_capability_requests profile) in
  match missing_required a with
  | [] => Ok (mkSensorPlan (prof_name profile)
                ((λ p, mkCollectorPlan p.1 p.2) <$> bt_list (bindings a)) (unbound a))
  | missing => Err missing
  end.
End Plan.

(** * commands.rs *)

Record TrackTraceRequest := mkTrackRequest {
  tr_root_identity : ProcessIdentity;
  tr_root_pid_namespace : option NamespaceIdentity;
  tr_root_container_id : option string;
  tr_root_pod_uid : option string;
  tr_root_host_id : option string;
  tr_root_working_directory : option string;
  tr_display_name : string;
  tr_profile_snapshot : CaptureProfileSnapshot;
  tr_tags : gset string;
  tr_created_at : SystemTime;
}.

Record RootRemovalRequest := mkRootRemoval {
  rr_trace_id : TraceId;
  rr_removed_at : SystemTime;
}.

(** * registry.rs *)

Record TraceOwnerPrincipal := mkOwner {
  owner_uid : Z;
  owner_pid_namespace : string;
  owner_mount_namespace : string;
  owner_host_pid_namespace : bool;
  owner_host_mount_namespace : bool;
}.

Record TraceEntry := mkEntry {
  te_trace : TraceRecord;
  te_profile_snapshot : CaptureProfileSnapshot;
  te_sensor_plan : SensorPlan;
  te_memberships : gmap ProcessIdentity ProcessMembership;
  te_owner : option TraceOwnerPrincipal;
}.

Inductive RegistryError :=
| TraceNotFound (id : TraceId)
| NegotiationFailed (failures : list NegotiationFailure)
| RootMembershipMissing (id : TraceId)
| OwnerAlreadyBound (id : TraceId)
| ParentMembershipMissing (identity : ProcessIdentity)
| PropagationDisabled (identity : ProcessIdentity)
| InvalidStateTransition (e : StateTransitionError)
| TraceIdentityGenerationFailed (detail : string).

Record TraceRuntime := mkRuntime {
  next_trace_id : Z;
  collectors : list CollectorDescriptor;
  traces : gmap TraceId TraceEntry;
}.

Module Registry.
Abbreviation RegM := (ST TraceRuntime RegistryError).

Definition set_trace (e : TraceEntry) (t : TraceRecord) : TraceEntry :=
  mkEntry t (te_profile_snapshot e) (te_sensor_plan e) (te_memberships e) (te_owner e).
Definition set_memberships (e : TraceEntry) (ms : gmap ProcessIdentity ProcessMembership) :=
  mkEntry (te_trace e) (te_profile_snapshot e) (te_sensor_plan e) ms (te_owner e).
Definition set_owner (e : TraceEntry) (o : option TraceOwnerPrincipal) :=
  mkEntry (te_trace e) (te_profile_snapshot e) (te_sensor_plan e) (te_memberships e) o.
Definition put_entry (id : TraceId) (e : TraceEntry) (rt : TraceRuntime) : TraceRuntime :=
  mkRuntime (next_trace_id rt) (collectors rt) (<[id := e]> (traces rt)).

(** [self.traces.get_mut(&id).ok_or(TraceNotFound(id))?] followed by code that
    updates the entry and returns. *)
Definition with_entry {A} (id : TraceId)
    (f : TraceEntry → result RegistryError A * TraceEntry) : RegM A := λ rt,
  match traces rt !! id with
  | None => (Err (TraceNotFound id), rt)
  | Some e => let '(r, e') := f e in (r, put_entry id e' rt)
  end.

(** A state-machine call on the entry's trace, its error wrapped. *)
Definition on_trace (e : TraceEntry) (r : result StateTransitionError TraceRecord)
    : result RegistryError () * TraceEntry :=
  match r with
  | Ok t => (Ok (), set_trace e t)
  | Err x => (Err (InvalidStateTransition x), e)
  end.

(** [TraceRuntime::new]. *)
Definition new (cs : list CollectorDescriptor) (initial : Z) : TraceRuntime :=
  mkRuntime initial cs ∅.

(** [reserve_trace_id]: the counter wraps in release builds. *)
Definition reserve_trace_id (rt : TraceRuntime) : TraceId * TraceRuntime :=
  (next_trace_id rt,
   mkRuntime (wrapping_add_u64 (next_trace_id rt) 1) (collectors rt) (traces rt)).

(** [negotiate]. *)
Definition negotiate (rt : TraceRuntime) (snapshot : CaptureProfileSnapshot)
    : result RegistryError SensorPlan :=
  map_err NegotiationFailed (Plan.negotiate snapshot (collectors rt)).

(** The version and variant bits set on the generated OTLP trace id. *)
Definition stamp_otel (bytes : list byte) : list byte :=
  let b6 := default zero_byte (bytes !! 6%nat) in
  let bytes1 := <[6%nat := byte_or (byte_and b6 15) 64]> bytes in
  let b8 := default zero_byte (bytes1 !! 8%nat) in
  <[8%nat := byte_or (byte_and b8 63) 128]> bytes1.

(** [create_starting_trace]; [token] and [otel] are the two [getrandom::fill]
    results (the error carries its text). *)
Definition create_starting_trace (token otel : result string (list byte)) (id : TraceId)
    (request : TrackTraceRequest) (plan : SensorPlan) : RegM () := λ rt,
  match token with
  | Err e => (Err (TraceIdentityGenerationFailed e), rt)
  | Ok token =>
  match otel with
  | Err e => (Err (TraceIdentityGenerationFailed e), rt)
  | Ok raw =>
  match otel_from_bytes (stamp_otel raw) with
  | None => (Err (TraceIdentityGenerationFailed
               "generated OTLP trace identity is all zero"), rt)
  | Some otel_id =>
      let t0 := Trace.new id otel_id token (tr_root_identity request)
                  (tr_display_name request) (prof_name (tr_profile_snapshot request))
                  (tr_created_at request) in
      let t1 := Trace.set_root t0 (tr_root_pid_namespace request)
                  (tr_root_container_id request) (tr_root_pod_uid request)
                  (tr_root_host_id request) (tr_root_working_directory request) in
      let t2 := foldl Trace.add_tag t1 (bs_list (tr_tags request)) in
      let root := Membership.root id (tr_root_identity request) (tr_created_at request) in
      (Ok (), put_entry id
                (mkEntry t2 (tr_profile_snapshot request) plan
                   (MembershipIndex.new root) None) rt)
  end end end.

(** [bind_trace_owner]. *)
Definition bind_trace_owner (id : TraceId) (owner : TraceOwnerPrincipal) : RegM () :=
  with_entry id (λ e,
    match te_owner e with
    | Some _ => (Err (OwnerAlreadyBound id), e)
    | None => (Ok (), set_owner e (Some owner))
    end).

(** [activate_trace]: memberships are activated before the transition is checked. *)
Definition activate_trace (id : TraceId) (started : SystemTime) : RegM () :=
  with_entry id (λ e,
    let e1 := set_memberships e (MembershipIndex.activate_all (te_memberships e)) in
    on_trace e1 (StateMachine.start_trace (te_trace e1) started)).

(** [insert_membership]. *)
Definition insert_membership (id : TraceId) (m : ProcessMembership) : RegM () :=
  with_entry id (λ e, (Ok (), set_memberships e (MembershipIndex.insert m (te_memberships e)))).

(** [inherit_process]. *)
Definition inherit_process (id : TraceId) (parent child : ProcessIdentity)
    (observed : SystemTime) : RegM () :=
  with_entry id (λ e,
    match te_memberships e !! parent with
    | None => (Err (ParentMembershipMissing parent), e)
    | Some p =>
        if Membership.can_inherit p
        then (Ok (), set_memberships e (MembershipIndex.insert
                (Membership.inherited id child (mem_identity p) observed)
                (te_memberships e)))
        else (Err (PropagationDisabled (mem_identity p)), e)
    end).

(** [insert_observed_child]: an observed fork is recorded whatever the parent allows. *)
Definition insert_observed_child (id : TraceId) (parent child : ProcessIdentity)
    (observed : SystemTime) : RegM () :=
  with_entry id (λ e,
    match te_memberships e !! parent with
    | None => (Err (ParentMembershipMissing parent), e)
    | Some p =>
        (Ok (), set_memberships e (MembershipIndex.insert
                (Membership.inherited id child (mem_identity p) observed)
                (te_memberships e)))
    end).

(** [reconcile_lifecycle], on the entry. *)
Definition reconcile_entry (id : TraceId) (observed : SystemTime) (e : TraceEntry)
    : result RegistryError () * TraceEntry :=
  if Lifecycle.is_terminal (lifecycle_state (te_trace e)) then (Ok (), e)
  else
    match te_memberships e !! root_process_identity (te_trace e) with
    | None => (Err (RootMembershipMissing id), e)
    | Some root =>
        let root_exited := bool_decide (mem_state root = MExited) in
        if mem_capture_enabled root && negb root_exited then (Ok (), e)
        else if MembershipIndex.has_capturable_members (te_memberships e) then
          if bool_decide (lifecycle_state (te_trace e) = Active)
          then on_trace e (StateMachine.begin_draining (te_trace e) observed)
          else (Ok (), e)
        else if root_exited
        then on_trace e (StateMachine.exit_trace (te_trace e) observed)
        else on_trace e (StateMachine.complete_trace (te_trace e) observed)
    end.

Definition reconcile_lifecycle (id : TraceId) (observed : SystemTime) : RegM () :=
  with_entry id (reconcile_entry id observed).

(** [track_remove_root]. *)
Definition track_remove_root (request : RootRemovalRequest) : RegM () :=
  _ ← with_entry (rr_trace_id request) (λ e,
        let root_identity := root_process_identity (te_trace e) in
        match te_memberships e !! root_identity with
        | None => (Err (RootMembershipMissing (rr_trace_id request)), e)
        | Some root =>
            (Ok (), set_memberships e
               (<[root_identity :=
                    Membership.disable_propagation (Membership.disable_capture root)]>
                  (te_memberships e)))
        end);
  reconcile_lifecycle (rr_trace_id request) (rr_removed_at request).

(** [mark_process_exited]. *)
Definition mark_process_exited (id : TraceId) (identity : ProcessIdentity)
    (status : ExitStatus) : RegM () :=
  _ ← with_entry id (λ e,
        match te_memberships e !! identity with
        | None => (Err (ParentMembershipMissing identity), e)
        | Some m =>
            (Ok (), set_memberships e
               (<[identity := Membership.mark_exited m status]> (te_memberships e)))
        end);
  reconcile_lifecycle id (exit_observed_at status).

(** [mark_degraded]. *)
Definition mark_degraded (id : TraceId) : RegM () :=
  with_entry id (λ e, (Ok (), set_trace e (StateMachine.degrade_trace (te_trace e)))).

(** [fail_trace]. *)
Definition fail_trace (id : TraceId) (failed : SystemTime) : RegM () :=
  with_entry id (λ e, on_trace e (StateMachine.fail_trace (te_trace e) failed)).

(** [complete_after_resource_barrier]. *)
Definition complete_after_resource_barrier (id : TraceId) (completed : SystemTime)
    : RegM bool :=
  with_entry id (λ e,
    let has_open := MembershipIndex.has_capturable_members (te_memberships e) in
    let e1 := if has_open then set_trace e (StateMachine.degrade_trace (te_trace e)) else e in
    let st := lifecycle_state (te_trace e1) in
    if bool_decide (st = Draining) then
      match on_trace e1 (StateMachine.complete_trace (te_trace e1) completed) with
      | (Ok _, e2) => (Ok has_open, e2)
      | (Err x, e2) => (Err x, e2)
      end
    else if negb (Lifecycle.is_terminal st)
    then (Err (InvalidStateTransition (mkTransitionError st Completed)), e1)
    else (Ok has_open, e1)).

(** Queries. *)
Definition get_trace (rt : TraceRuntime) (id : TraceId) : option TraceEntry := traces rt !! id.
Definition forget_trace (id : TraceId) (rt : TraceRuntime) : option TraceEntry * TraceRuntime :=
  (traces rt !! id, mkRuntime (next_trace_id rt) (collectors rt) (delete id (traces rt))).

Fixpoint find_map_list {A B} (f : A → option B) (l : list A) : option B :=
  match l with
  | [] => None
  | x :: l' => match f x with Some b => Some b | None => find_map_list f l' end
  end.

Definition find_membership (rt : TraceRuntime) (identity : ProcessIdentity)
    : option (TraceId * ProcessMembership) :=
  find_map_list (λ p, pair p.1 <$> te_memberships p.2 !! identity) (bt_list (traces rt)).

Definition find_membership_in_trace (rt : TraceRuntime) (id : TraceId)
    (identity : ProcessIdentity) : option ProcessMembership :=
  e ← traces rt !! id; te_memberships e !! identity.

Definition list_trace_records (rt : TraceRuntime) : list TraceRecord :=
  te_trace <$> bt_values (traces rt).

Definition find_trace_by_name (rt : TraceRuntime) (name : string) : option TraceEntry :=
  List.find (λ e, bool_decide (display_name (te_trace e) = name)) (bt_values (traces rt)).
End Registry.

(** * Invariants of the registry *)

Module RegistryFacts.
Import Registry.

(** The mutating operations of [TraceRuntime], as values, and their effect. *)
Inductive op :=
| OpReserve
| OpCreate (token otel : result string (list byte)) (id : TraceId)
    (request : TrackTraceRequest) (plan : SensorPlan)
| OpBind (id : TraceId) (owner : TraceOwnerPrincipal)
| OpActivate (id : TraceId) (at_ : SystemTime)
| OpInsert (id : TraceId) (m : ProcessMembership)
| OpInherit (id : TraceId) (parent child : ProcessIdentity) (at_ : SystemTime)
| OpObserved (id : TraceId) (parent child : ProcessIdentity) (at_ : SystemTime)
| OpRemoveRoot (request : RootRemovalRequest)
| OpExited (id : TraceId) (identity : ProcessIdentity) (status : ExitStatus)
| OpDegraded (id : TraceId)
| OpFail (id : TraceId) (at_ : SystemTime)
| OpComplete (id : TraceId) (at_ : SystemTime)
| OpForget (id : TraceId).

Definition exec (o : op) (rt : TraceRuntime) : TraceRuntime :=
  match o with
  | OpReserve => (reserve_trace_id rt).2
  | OpCreate token otel id request plan => (create_starting_trace token otel id request plan rt).2
  | OpBind id owner => (bind_trace_owner id owner rt).2
  | OpActivate id at_ => (activate_trace id at_ rt).2
  | OpInsert id m => (insert_membership id m rt).2
  | OpInherit id p c at_ => (inherit_process id p c at_ rt).2
  | OpObserved id p c at_ => (insert_observed_child id p c at_ rt).2
  | OpRemoveRoot request => (track_remove_root request rt).2
  | OpExited id i status => (mark_process_exited id i status rt).2
  | OpDegraded id => (mark_degraded id rt).2
  | OpFail id at_ => (fail_trace id at_ rt).2
  | OpComplete id at_ => (complete_after_resource_barrier id at_ rt).2
  | OpForget id => (forget_trace id rt).2
  end.

(** Operations that replace or drop the entry of [id]. *)
Definition renews (id : TraceId) (o : op) : bool :=
  match o with
  | OpCreate _ _ id' _ _ | OpForget id' => bool_decide (id' = id)
  | _ => false
  end.

(** Timestamps agree with the lifecycle state. *)
Definition timing_ok (t : TraceRecord) : Prop :=
  let ti := timings t in
  (is_Some (completed_at ti) ↔ lifecycle_state t = Completed) ∧
  (is_Some (exited_at ti) ↔ lifecycle_state t = Exited) ∧
  (is_Some (failed_at ti) ↔ lifecycle_state t = TraceFailed) ∧
  (lifecycle_state t = Starting → started_at ti = None) ∧
  (lifecycle_state t ≠ Starting → lifecycle_state t ≠ TraceFailed → is_Some (started_at ti)).

Definition keyed (ms : gmap ProcessIdentity ProcessMembership) : Prop :=
  map_Forall (λ k m, mem_identity m = k) ms.

Record entry_ok (id : TraceId) (e : TraceEntry) : Prop := {
  eo_id : trace_id (te_trace e) = id;
  eo_root : is_Some (te_memberships e !! root_process_identity (te_trace e));
  eo_keyed : keyed (te_memberships e);
  eo_timing : timing_ok (te_trace e);
}.

Definition rt_ok (rt : TraceRuntime) : Prop := map_Forall entry_ok (traces rt).

(** The life of a trace: it starts, runs, may drain while descendants outlive the root,
    and ends once: completed, exited, or failed at any point before. *)
Inductive lifecycle_edge : TraceLifecycleState → TraceLifecycleState → Prop :=
| edge_start : lifecycle_edge Starting Active
| edge_drain : lifecycle_edge Active Draining
| edge_complete from : from = Active ∨ from = Draining → lifecycle_edge from Completed
| edge_exit from : from = Active ∨ from = Draining → lifecycle_edge from Exited
| edge_fail from : from = Starting ∨ from = Active ∨ from = Draining →
    lifecycle_edge from TraceFailed.

Lemma allowed_edge from to : StateMachine.allowed from to = true → lifecycle_edge from to.
Proof. destruct from, to; try done; intros _; constructor; auto. Qed.

(** How one operation may change an entry it does not replace. *)
Record entry_step (e e' : TraceEntry) : Prop := {
  es_lifecycle :
    lifecycle_state (te_trace e') = lifecycle_state (te_trace e) ∨
    lifecycle_edge (lifecycle_state (te_trace e)) (lifecycle_state (te_trace e'));
  es_terminal : Lifecycle.is_terminal (lifecycle_state (te_trace e)) = true →
    timings (te_trace e') = timings (te_trace e);
  es_static : root_process_identity (te_trace e') = root_process_identity (te_trace e) ∧
    otel_trace_id (te_trace e') = otel_trace_id (te_trace e) ∧
    alert_token (te_trace e') = alert_token (te_trace e);
  es_owner : is_Some (te_owner e) → te_owner e' = te_owner e;
  es_members : dom (te_memberships e) ⊆ dom (te_memberships e');
  es_health : health (te_trace e) = Degraded → health (te_trace e') = Degraded;
}.

(** An entry update is good when it keeps the invariant and is a legal step. *)
Definition good (id : TraceId) (e e' : TraceEntry) : Prop :=
  (entry_ok id e → entry_ok id e') ∧ entry_step e e'.

Lemma good_refl id e : good id e e.
Proof. split; [done|]. split; auto. Qed.

(** ** State-machine steps *)

Lemma on_trace_good id e (tr : result StateTransitionError TraceRecord) :
  (∀ t, tr = Ok t →
     (timing_ok (te_trace e) → timing_ok t) ∧
     trace_id t = trace_id (te_trace e) ∧
     root_process_identity t = root_process_identity (te_trace e) ∧
     otel_trace_id t = otel_trace_id (te_trace e) ∧
     alert_token t = alert_token (te_trace e) ∧
     health t = health (te_trace e) ∧
     StateMachine.allowed (lifecycle_state (te_trace e)) (lifecycle_state t) = true) →
  good id e (on_trace e tr).2.
Proof.
  intros Ht. destruct tr as [t|x]; simpl; [|apply good_refl].
  destruct (Ht t eq_refl) as (Hti & Hid & Hr & Ho & Ha & Hh & Hal). split.
  - intros [? ? ? ?]. split; simpl; rewrite ?Hr, ?Hid; auto.
  - split; simpl; auto.
    + right. by apply allowed_edge.
    + by destruct (lifecycle_state (te_trace e)), (lifecycle_state t).
    + congruence.
Qed.

Ltac sm_step e :=
  apply on_trace_good; intros t;
  unfold StateMachine.start_trace, StateMachine.begin_draining, StateMachine.complete_trace,
    StateMachine.exit_trace, StateMachine.fail_trace, StateMachine.require_transition;
  munfold; destruct (StateMachine.allowed _ _) eqn:Hal; [|done]; intros [= <-]; simpl;
  splits; try done;
  unfold timing_ok; simpl; intros (? & ? & ? & ? & ?);
  destruct (lifecycle_state (te_trace e)); try done;
  splits; intros; try done; naive_solver.

Lemma start_good id e at_ : good id e (on_trace e (StateMachine.start_trace (te_trace e) at_)).2.
Proof. sm_step e. Qed.
Lemma drain_good id e at_ :
  good id e (on_trace e (StateMachine.begin_draining (te_trace e) at_)).2.
Proof. sm_step e. Qed.
Lemma complete_good id e at_ :
  good id e (on_trace e (StateMachine.complete_trace (te_trace e) at_)).2.
Proof. sm_step e. Qed.
Lemma exit_good id e at_ : good id e (on_trace e (StateMachine.exit_trace (te_trace e) at_)).2.
Proof. sm_step e. Qed.
Lemma fail_good id e at_ : good id e (on_trace e (StateMachine.fail_trace (te_trace e) at_)).2.
Proof. sm_step e. Qed.

(** ** Membership updates *)

(** Only memberships change, none disappears, keys stay right. *)
Definition mem_step (e e' : TraceEntry) : Prop :=
  te_trace e' = te_trace e ∧ te_owner e' = te_owner e ∧
  dom (te_memberships e) ⊆ dom (te_memberships e') ∧
  (keyed (te_memberships e) → keyed (te_memberships e')).

Lemma mem_step_good id e e1 e2 : mem_step e e1 → good id e1 e2 → good id e e2.
Proof.
  intros (Et & Eo & Hd & Hk) [Hok Hst]. split.
  - intros [Hid Hr Hkd Hti]. apply Hok. split; rewrite ?Et; auto.
    apply elem_of_dom, Hd, elem_of_dom. done.
  - destruct Hst as [H1 H2 H3 H4 H5 H6]. rewrite Et in *. rewrite Eo in *.
    split; auto. set_solver.
Qed.

Lemma mem_step_refl e : mem_step e e.
Proof. by repeat split. Qed.

Lemma mem_step_only id e e1 : mem_step e e1 → good id e e1.
Proof. intros H. eapply mem_step_good; [done|apply good_refl]. Qed.

Lemma insert_mem_step e m :
  mem_step e (set_memberships e (MembershipIndex.insert m (te_memberships e))).
Proof.
  repeat split; simpl; unfold MembershipIndex.insert; [rewrite dom_insert; set_solver|].
  intros Hk. by apply map_Forall_insert_2.
Qed.

Lemma update_mem_step e i m m' :
  te_memberships e !! i = Some m → mem_identity m' = mem_identity m →
  mem_step e (set_memberships e (<[i := m']> (te_memberships e))).
Proof.
  intros Hi Hm. repeat split; simpl; [rewrite dom_insert; set_solver|].
  intros Hk. apply map_Forall_insert_2; [|done]. rewrite Hm. by apply Hk.
Qed.

Lemma activate_mem_step e :
  mem_step e (set_memberships e (MembershipIndex.activate_all (te_memberships e))).
Proof.
  repeat split; simpl; unfold MembershipIndex.activate_all; [by rewrite dom_fmap|].
  intros Hk i m. rewrite lookup_fmap. intros (m0 & Hm0 & ->)%fmap_Some. simpl. by apply Hk.
Qed.

(** ** One operation *)

(** The registry after an operation on the entry of [id]. *)
Definition touches (id : TraceId) (rt rt' : TraceRuntime) : Prop :=
  (traces rt !! id = None ∧ traces rt' = traces rt) ∨
  ∃ e e', traces rt !! id = Some e ∧ traces rt' = <[id := e']> (traces rt) ∧ good id e e'.

Lemma with_entry_touches {A} id (f : TraceEntry → result RegistryError A * TraceEntry) rt :
  (∀ e, good id e (f e).2) → touches id rt (with_entry id f rt).2.
Proof.
  intros Hf. unfold with_entry, touches.
  destruct (traces rt !! id) as [e|] eqn:E; [|by left].
  right. specialize (Hf e). destruct (f e) as [r e']. by exists e, e'.
Qed.

Lemma reconcile_good id at_ e : good id e (reconcile_entry id at_ e).2.
Proof.
  unfold reconcile_entry. repeat case_match;
    auto using good_refl, drain_good, exit_good, complete_good.
Qed.

(** The two-phase operations: a membership update, then [reconcile_lifecycle]. *)
Lemma then_reconcile_touches id at_
    (f : TraceEntry → result RegistryError () * TraceEntry) rt :
  (∀ e, mem_step e (f e).2) → (∀ e x, (f e).1 = Err x → (f e).2 = e) →
  touches id rt ((_ ← with_entry id f; reconcile_lifecycle id at_ : RegM ()) rt).2.
Proof.
  intros Hf Herr. munfold. unfold reconcile_lifecycle, with_entry, touches.
  destruct (traces rt !! id) as [e|] eqn:E; [|by left]. right.
  specialize (Hf e). specialize (Herr e). destruct (f e) as [[[]|x] e1] eqn:Ef; simpl in *.
  - rewrite lookup_insert_eq. destruct (reconcile_entry id at_ e1) as [r e2] eqn:Er.
    exists e, e2. splits; [done|simpl; by rewrite insert_insert_eq|].
    eapply mem_step_good; [done|]. pose proof (reconcile_good id at_ e1) as G.
    by rewrite Er in G.
  - exists e, e1. splits; [done..|]. rewrite (Herr _ eq_refl). apply good_refl.
Qed.

Lemma degrade_good id e : good id e (set_trace e (StateMachine.degrade_trace (te_trace e))).
Proof. split; [by intros []|]. by split; auto. Qed.

Lemma barrier_good id at_ e :
  let e1 := set_trace e (StateMachine.degrade_trace (te_trace e)) in
  good id e (on_trace e1 (StateMachine.complete_trace (te_trace e1) at_)).2.
Proof.
  intros e1. destruct (degrade_good id e) as [D1 [D2 D3 D4 D5 D6 D7]].
  destruct (complete_good id e1 at_) as [C1 [C2 C3 C4 C5 C6 C7]].
  split; [by auto|]. split; auto; congruence.
Qed.

Lemma exec_touches o rt :
  (∃ id, renews id o = false ∧ touches id rt (exec o rt)) ∨
  traces (exec o rt) = traces rt ∨
  (∃ id, renews id o = true ∧ traces (exec o rt) = delete id (traces rt)) ∨
  (∃ id e, renews id o = true ∧ entry_ok id e ∧ traces (exec o rt) = <[id := e]> (traces rt)).
Proof.
  destruct o as [|token otel id req plan|id owner|id at_|id m|id p c at_|id p c at_|req|
                 id i st|id|id at_|id at_|id]; simpl.
  - auto.
  - right. unfold create_starting_trace. destruct token as [token|]; [|by auto].
    destruct otel as [raw|]; [|by auto].
    destruct (otel_from_bytes (stamp_otel raw)) as [oid|]; [|by auto].
    right. right. exists id. eexists. rewrite bool_decide_true by done.
    splits; [done| |done].
    assert (∀ l t, let t' := foldl Trace.add_tag t l in
      trace_id t' = trace_id t ∧ root_process_identity t' = root_process_identity t ∧
      lifecycle_state t' = lifecycle_state t ∧ timings t' = timings t) as Hf.
    { induction l as [|x l IH]; intros t; simpl; [done|].
      by destruct (IH (Trace.add_tag t x)) as (-> & -> & -> & ->). }
    set (t1 := Trace.set_root _ _ _ _ _ _).
    destruct (Hf (bs_list (tr_tags req)) t1) as (E1 & E2 & E3 & E4).
    split; simpl; [done| | |].
    + unfold MembershipIndex.new. rewrite E2. simpl. rewrite lookup_singleton_eq. eauto.
    + unfold MembershipIndex.new, keyed. by apply map_Forall_singleton.
    + unfold timing_ok. rewrite E3, E4. simpl. splits; try done; split; try done; by intros [].
  - left. exists id. split; [done|]. apply with_entry_touches. intros e.
    destruct (te_owner e) eqn:Eo; simpl; [apply good_refl|].
    split; [by intros []|]. split; simpl; auto. intros []; congruence.
  - left. exists id. split; [done|]. apply with_entry_touches. intros e.
    eapply mem_step_good; [apply activate_mem_step|apply start_good].
  - left. exists id. split; [done|]. apply with_entry_touches. intros e.
    apply mem_step_only, insert_mem_step.
  - left. exists id. split; [done|]. apply with_entry_touches. intros e.
    repeat case_match; simpl; auto using good_refl, mem_step_only, insert_mem_step.
  - left. exists id. split; [done|]. apply with_entry_touches. intros e.
    repeat case_match; simpl; auto using good_refl, mem_step_only, insert_mem_step.
  - left. exists (rr_trace_id req). split; [done|]. apply then_reconcile_touches.
    + intros e. simpl. destruct (te_memberships e !! root_process_identity (te_trace e)) eqn:E; simpl;
        [|apply mem_step_refl].
      by eapply update_mem_step.
    + intros e x. simpl. by case_match.
  - left. exists id. split; [done|]. apply then_reconcile_touches.
    + intros e. destruct (te_memberships e !! i) eqn:E; simpl; [|apply mem_step_refl].
      by eapply update_mem_step.
    + intros e x. simpl. by case_match.
  - left. exists id. split; [done|]. apply with_entry_touches. intros e. apply degrade_good.
  - left. exists id. split; [done|]. apply with_entry_touches. intros e. apply fail_good.
  - left. exists id. split; [done|]. apply with_entry_touches. intros e.
    pose proof (barrier_good id at_ e) as B. pose proof (complete_good id e at_) as C.
    destruct (MembershipIndex.has_capturable_members _); simpl in *;
      (case_bool_decide;
       [revert B C; by repeat destruct (StateMachine.complete_trace _ at_)|]);
      case_match; simpl; auto using good_refl, degrade_good.
  - right. right. left. exists id. rewrite bool_decide_true; done.
Qed.

Lemma exec_ok o rt : rt_ok rt → rt_ok (exec o rt).
Proof.
  intros Hok.
  destruct (exec_touches o rt) as
    [(id & _ & [(_ & E)|(e & e' & He & E & [G _])])|[E|[(id & _ & E)|(id & e & _ & Ho & E)]]];
    unfold rt_ok; rewrite E; auto.
  - apply map_Forall_insert_2; [|done]. apply G. by apply Hok.
  - by apply map_Forall_delete.
  - by apply map_Forall_insert_2.
Qed.

Lemma exec_entry_step o rt id e :
  traces rt !! id = Some e → renews id o = false →
  ∃ e', traces (exec o rt) !! id = Some e' ∧ entry_step e e'.
Proof.
  intros He Hr. assert (entry_step e e) as Hrefl by apply (good_refl id e).
  destruct (exec_touches o rt) as
    [(id' & _ & [(_ & E)|(e1 & e' & He1 & E & [_ S])])|
     [E|[(id' & R & E)|(id' & e' & R & _ & E)]]]; rewrite E; eauto.
  - destruct (decide (id' = id)) as [->|Hne].
    + simplify_eq. exists e'. by rewrite lookup_insert_eq.
    + exists e. by rewrite lookup_insert_ne.
  - exists e. rewrite lookup_delete_ne; [done|]. intros ->. congruence.
  - exists e. rewrite lookup_insert_ne; [done|]. intros ->. congruence.
Qed.

Definition run (os : list op) (rt : TraceRuntime) : TraceRuntime :=
  foldl (λ rt o, exec o rt) rt os.

(** ** Properties *)

(** C2: Every sequence of registry operations keeps the registry consistent: entries
    are stored under their own id, the root process always has a membership (so the
    "root membership missing" errors are unreachable), memberships are keyed by their
    process, and the completion timestamps agree with the lifecycle state. *)
Theorem registry_invariant cs n os : rt_ok (run os (new cs n)).
Proof.
  assert (∀ rt, rt_ok rt → rt_ok (run os rt)) as H.
  { induction os as [|o os IH]; intros rt Hok; simpl; [done|]. apply IH. by apply exec_ok. }
  apply H. apply map_Forall_empty.
Qed.

(** C32: One operation that does not replace or forget the trace moves its lifecycle
    only along an edge of the state machine (or not at all), keeps root, OTLP id and
    alert token, never loses a membership, never rebinds an owner and never
    makes a degraded trace clean again. *)
Theorem lifecycle_steps o rt id e :
  traces rt !! id = Some e → renews id o = false →
  ∃ e', traces (exec o rt) !! id = Some e' ∧ entry_step e e'.
Proof. apply exec_entry_step. Qed.

(** Terminal states are final: whatever operations follow, a trace that
    completed, exited or failed keeps its state and all its timestamps, until it is
    forgotten or its id is reused. *)
Theorem terminal_is_final os rt id e :
  traces rt !! id = Some e → Lifecycle.is_terminal (lifecycle_state (te_trace e)) = true →
  forallb (λ o, negb (renews id o)) os = true →
  ∃ e', traces (run os rt) !! id = Some e' ∧
    lifecycle_state (te_trace e') = lifecycle_state (te_trace e) ∧
    timings (te_trace e') = timings (te_trace e).
Proof.
  revert rt e. induction os as [|o os IH]; intros rt e He Ht Hos; simpl in *; [by eauto|].
  apply andb_true_iff in Hos as [Ho%negb_true_iff Hos].
  destruct (exec_entry_step o rt id e He Ho) as (e1 & He1 & [L T _ _ _ _]).
  assert (lifecycle_state (te_trace e1) = lifecycle_state (te_trace e)) as El.
  { destruct L as [L|L]; [done|].
    by destruct L as [| |? [-> | ->]|? [-> | ->]|? [-> | [-> | ->]]]. }
  destruct (IH _ e1 He1) as (e' & He' & L' & T'); [by rewrite El|done|].
  exists e'. splits; [done|congruence|]. rewrite T'. auto.
Qed.

(** ** Reconciliation *)

Lemma has_capturable_spec ms :
  MembershipIndex.has_capturable_members ms = true ↔
  ∃ i m, ms !! i = Some m ∧ MembershipIndex.capturable m = true.
Proof.
  unfold MembershipIndex.has_capturable_members. rewrite existsb_exists. split.
  - intros (m & Hin & Hc). apply list_elem_of_In, elem_of_bt_values in Hin as [i Hi]. eauto.
  - intros (i & m & Hi & Hc). exists m. split; [|done].
    apply list_elem_of_In, elem_of_bt_values. eauto.
Qed.

(** What [reconcile_lifecycle] should do to a running trace. *)
Definition reconciled (root : ProcessMembership) (capturable_left : bool)
    (s : TraceLifecycleState) : TraceLifecycleState :=
  if mem_capture_enabled root && negb (bool_decide (mem_state root = MExited)) then s
  else if capturable_left then Draining
  else if bool_decide (mem_state root = MExited) then Exited else Completed.

Lemma reconcile_entry_spec id at_ e root :
  te_memberships e !! root_process_identity (te_trace e) = Some root →
  lifecycle_state (te_trace e) = Active ∨ lifecycle_state (te_trace e) = Draining →
  ∃ t', reconcile_entry id at_ e = (Ok (), set_trace e t') ∧
    lifecycle_state t' =
      reconciled root (MembershipIndex.has_capturable_members (te_memberships e))
        (lifecycle_state (te_trace e)) ∧
    health t' = health (te_trace e) ∧
    (lifecycle_state t' = Exited → exited_at (timings t') = Some at_) ∧
    (lifecycle_state t' = Completed → completed_at (timings t') = Some at_).
Proof.
  intros Hroot Hst. unfold reconcile_entry, reconciled. rewrite Hroot.
  assert (Lifecycle.is_terminal (lifecycle_state (te_trace e)) = false) as ->
    by (by destruct Hst as [-> | ->]).
  assert (set_trace e (te_trace e) = e) as Hid by (by destruct e).
  destruct (mem_capture_enabled root && _); [|destruct (MembershipIndex.has_capturable_members _);
    [|case_bool_decide]].
  - exists (te_trace e). rewrite Hid. splits; try done; intros E; rewrite E in Hst; naive_solver.
  - destruct Hst as [E|E]; rewrite E; simpl.
    + unfold StateMachine.begin_draining, StateMachine.require_transition. rewrite E. simpl.
      munfold. simpl. eexists; splits; done.
    + exists (te_trace e). rewrite Hid. splits; try done; intros E'; congruence.
  - unfold StateMachine.exit_trace, StateMachine.require_transition.
    destruct Hst as [E|E]; rewrite E; munfold; simpl; eexists; splits; done.
  - unfold StateMachine.complete_trace, StateMachine.require_transition.
    destruct Hst as [E|E]; rewrite E; munfold; simpl; eexists; splits; done.
Qed.

(** C33: What a process exit does to a running (active or draining) trace.  The
    membership is marked exited with its status, and the trace ends exactly when the
    root no longer counts (exited or capture disabled) and nobody capturable is left:
    as Exited when the root exited, as Completed otherwise; while descendants are
    still capturable it drains, and while the root is captured it stays as it is. *)
Theorem process_exit_reconciles rt id e i m status root :
  traces rt !! id = Some e → te_memberships e !! i = Some m →
  lifecycle_state (te_trace e) = Active ∨ lifecycle_state (te_trace e) = Draining →
  let ms := <[i := Membership.mark_exited m status]> (te_memberships e) in
  ms !! root_process_identity (te_trace e) = Some root →
  ∃ t' rt', mark_process_exited id i status rt = (Ok (), rt') ∧
    traces rt' !! id = Some (set_trace (set_memberships e ms) t') ∧
    (∀ j, j ≠ id → traces rt' !! j = traces rt !! j) ∧
    lifecycle_state t' =
      reconciled root (MembershipIndex.has_capturable_members ms)
        (lifecycle_state (te_trace e)) ∧
    (lifecycle_state t' = Exited → exited_at (timings t') = Some (exit_observed_at status)) ∧
    (lifecycle_state t' = Completed →
       completed_at (timings t') = Some (exit_observed_at status)).
Proof.
  intros He Hm Hst ms Hroot.
  destruct (reconcile_entry_spec id (exit_observed_at status) (set_memberships e ms) root
    Hroot Hst) as (t' & Hr & Hl & _ & Hx & Hc).
  exists t'. eexists. unfold mark_process_exited, reconcile_lifecycle. munfold. unfold with_entry.
  rewrite He, Hm. simpl. rewrite lookup_insert_eq. fold ms. rewrite Hr. simpl.
  splits; try done; simpl.
  - by rewrite insert_insert_eq, lookup_insert_eq.
  - intros j Hj. by rewrite !lookup_insert_ne.
Qed.

(** A concrete trace 1 rooted at process 10 with child 11, active. *)
Definition w_profile : CaptureProfileSnapshot :=
  mkProfile "default" 0 [mkRequest ProcLifecycle Required] 2 false false.
Definition w_collector : CollectorDescriptor :=
  mkCollector "ebpf" [mkDescriptor ProcLifecycle []] true true.
Definition w_plan : SensorPlan := mkSensorPlan "default" [] [].
Definition w_request : TrackTraceRequest :=
  mkTrackRequest 10 None None None None None "demo" w_profile ∅ 5.
Definition w_random (n : nat) : result string (list byte) := Ok (replicate n zero_byte).
Definition w_rt : TraceRuntime :=
  run [OpCreate (w_random 32) (w_random 16) 1 w_request w_plan; OpActivate 1 6;
       OpInherit 1 10 11 7] (new [w_collector] 1).
Definition w_entry : TraceEntry :=
  default (mkEntry (Trace.new 0 [] [] 0 "" "" 0) w_profile w_plan ∅ None) (traces w_rt !! 1).
Definition w_root : ProcessMembership := Membership.activate (Membership.root 1 10 5).
Definition w_exit : ExitStatus := mkExit (Some 0) 20 (Some ExitEvent).

Lemma process_exit_reconciles_witness :
  ∃ t' rt', mark_process_exited 1 10 w_exit w_rt = (Ok (), rt') ∧
    traces rt' !! 1 = Some (set_trace (set_memberships w_entry
      (<[10 := Membership.mark_exited w_root w_exit]> (te_memberships w_entry))) t') ∧
    lifecycle_state t' = Draining.
Proof.
  destruct (process_exit_reconciles w_rt 1 w_entry 10 w_root w_exit
    (Membership.mark_exited w_root w_exit)) as (t' & rt' & H1 & H2 & _ & H3 & _).
  - vm_compute. reflexivity.
  - vm_compute. reflexivity.
  - left. vm_compute. reflexivity.
  - vm_compute. reflexivity.
  - exists t', rt'. split; [exact H1|]. split; [exact H2|]. rewrite H3. vm_compute. reflexivity.
Defined.

Lemma lifecycle_steps_witness :
  ∃ e', traces (exec (OpFail 1 9) w_rt) !! 1 = Some e' ∧ entry_step w_entry e'.
Proof. apply lifecycle_steps; vm_compute; reflexivity. Defined.

Definition w_failed : TraceRuntime := exec (OpFail 1 9) w_rt.

Lemma terminal_is_final_witness :
  ∃ e', traces (run [OpActivate 1 30; OpExited 1 10 w_exit; OpComplete 1 31] w_failed) !! 1
          = Some e' ∧ lifecycle_state (te_trace e') = TraceFailed.
Proof.
  destruct (terminal_is_final [OpActivate 1 30; OpExited 1 10 w_exit; OpComplete 1 31] w_failed 1
    (default w_entry (traces w_failed !! 1))) as (e' & H1 & H2 & _);
    [vm_compute; reflexivity..|].
  exists e'. split; [exact H1|]. rewrite H2. vm_compute. reflexivity.
Defined.

(** Completing behind the resource barrier.  A draining trace completes at the
    given time, a terminal trace is left in its state, any other state is refused;
    and in every case capturable members that are still open degrade the trace
    instead of being dropped, and are reported. *)
Theorem resource_barrier_completes rt id e at_ :
  traces rt !! id = Some e →
  let open := MembershipIndex.has_capturable_members (te_memberships e) in
  let st := lifecycle_state (te_trace e) in
  ∃ r t' rt', complete_after_resource_barrier id at_ rt = (r, rt') ∧
    traces rt' !! id = Some (set_trace e t') ∧
    health t' = (if open then Degraded else health (te_trace e)) ∧
    r = (if bool_decide (st = Draining) || Lifecycle.is_terminal st then Ok open
         else Err (InvalidStateTransition (mkTransitionError st Completed))) ∧
    lifecycle_state t' = (if bool_decide (st = Draining) then Completed else st) ∧
    timings t' = (if bool_decide (st = Draining)
                  then mkTiming (created_at (timings (te_trace e)))
                         (started_at (timings (te_trace e))) (Some at_)
                         (exited_at (timings (te_trace e))) (failed_at (timings (te_trace e)))
                  else timings (te_trace e)).
Proof.
  intros He open st.
  set (t1 := if open then StateMachine.degrade_trace (te_trace e) else te_trace e).
  set (ti := timings (te_trace e)).
  set (t' := if bool_decide (st = Draining)
             then Trace.set_lifecycle t1 Completed
                    (mkTiming (created_at ti) (started_at ti) (Some at_) (exited_at ti)
                       (failed_at ti))
             else t1).
  assert (set_trace e (te_trace e) = e) as Hid by (by destruct e).
  assert ((if open then set_trace e (StateMachine.degrade_trace (te_trace e)) else e)
          = set_trace e t1) as He1 by (subst t1; by destruct open).
  assert (lifecycle_state t1 = st) as Hst by (subst t1; by destruct open).
  assert (timings t1 = ti) as Hti by (subst t1; by destruct open).
  assert (health t1 = if open then Degraded else health (te_trace e)) as Hh
    by (subst t1; by destruct open).
  exists (if bool_decide (st = Draining) || Lifecycle.is_terminal st then Ok open
          else Err (InvalidStateTransition (mkTransitionError st Completed))), t',
    (put_entry id (set_trace e t') rt).
  unfold complete_after_resource_barrier, with_entry. rewrite He. fold open. rewrite He1.
  cbn [te_trace set_trace]. rewrite Hst. subst t'. splits.
  - case_bool_decide as Hd; simpl.
    + unfold StateMachine.complete_trace, StateMachine.require_transition.
      rewrite Hst, Hd. munfold. simpl. by rewrite Hti.
    + by destruct (Lifecycle.is_terminal st).
  - apply lookup_insert_eq.
  - by case_bool_decide.
  - done.
  - by case_bool_decide.
  - by case_bool_decide.
Qed.

Lemma resource_barrier_completes_witness :
  ∃ r t' rt', complete_after_resource_barrier 1 40 (exec (OpExited 1 10 w_exit) w_rt) = (r, rt') ∧
    health t' = Degraded ∧ r = Ok true.
Proof.
  destruct (resource_barrier_completes (exec (OpExited 1 10 w_exit) w_rt) 1
    (default w_entry (traces (exec (OpExited 1 10 w_exit) w_rt) !! 1)) 40)
    as (r & t' & rt' & H1 & _ & H2 & H3 & _); [vm_compute; reflexivity|].
  exists r, t', rt'. split; [exact H1|]. rewrite H2, H3. vm_compute. done.
Defined.

(** ** Creation *)

Lemma stamp_version b : Z.land (byte.unsigned (byte_or (byte_and b 15) 64)) 240 = 64.
Proof. by destruct b. Qed.
Lemma stamp_variant b : Z.land (byte.unsigned (byte_or (byte_and b 63) 128)) 192 = 128.
Proof. by destruct b. Qed.

Lemma stamp_otel_spec raw :
  length raw = OTEL_BYTE_COUNT →
  let s := stamp_otel raw in
  length s = OTEL_BYTE_COUNT ∧
  (∃ b6, s !! 6%nat = Some b6 ∧ Z.land (byte.unsigned b6) 240 = 64) ∧
  (∃ b8, s !! 8%nat = Some b8 ∧ Z.land (byte.unsigned b8) 192 = 128) ∧
  (∀ k, k ≠ 6%nat → k ≠ 8%nat → s !! k = raw !! k) ∧
  otel_from_bytes s = Some s.
Proof.
  intros Hlen s. unfold OTEL_BYTE_COUNT in *.
  assert (s !! 8%nat = Some (byte_or (byte_and (default zero_byte (raw !! 8%nat)) 63) 128)) as H8.
  { subst s. unfold stamp_otel. rewrite list_lookup_insert_eq by (rewrite length_insert; lia).
    by rewrite list_lookup_insert_ne by lia. }
  assert (s !! 6%nat = Some (byte_or (byte_and (default zero_byte (raw !! 6%nat)) 15) 64)) as H6.
  { subst s. unfold stamp_otel. rewrite list_lookup_insert_ne by lia.
    by rewrite list_lookup_insert_eq by lia. }
  splits.
  - subst s. unfold stamp_otel. by rewrite !length_insert.
  - eexists. split; [done|]. apply stamp_version.
  - eexists. split; [done|]. apply stamp_variant.
  - intros k Hk6 Hk8. subst s. unfold stamp_otel. by rewrite !list_lookup_insert_ne by lia.
  - unfold otel_from_bytes. rewrite bool_decide_false; [done|]. intros E.
    rewrite E, lookup_replicate_2 in H6 by (unfold OTEL_BYTE_COUNT; lia).
    injection H6 as Hz. pose proof (stamp_version (default zero_byte (raw !! 6%nat))) as V.
    rewrite <-Hz in V. done.
Qed.

Lemma add_tags_spec l t :
  let t' := foldl Trace.add_tag t l in
  tags t' = list_to_set l ∪ tags t ∧ lifecycle_state t' = lifecycle_state t ∧
  health t' = health t ∧ otel_trace_id t' = otel_trace_id t ∧
  root_process_identity t' = root_process_identity t.
Proof.
  revert t. induction l as [|x l IH]; intros t; simpl; [by splits; set_solver|].
  destruct (IH (Trace.add_tag t x)) as (-> & -> & -> & -> & ->). splits; try done.
  simpl. set_solver.
Qed.

(** Creating a trace succeeds whenever randomness is available (the "all zero"
    error is unreachable): the registry then holds a clean starting trace with the
    requested tags, only the root as (starting) member and no owner, and its OTLP id
    is the random id with the UUIDv4 version and variant bits set.  When randomness
    fails, nothing is registered. *)
Theorem create_starting_trace_spec token raw id request plan rt :
  length raw = OTEL_BYTE_COUNT →
  (∃ t rt', create_starting_trace (Ok token) (Ok raw) id request plan rt = (Ok (), rt') ∧
    get_trace rt' id = Some (mkEntry t (tr_profile_snapshot request) plan
      {[tr_root_identity request :=
          Membership.root id (tr_root_identity request) (tr_created_at request)]} None) ∧
    lifecycle_state t = Starting ∧ health t = Clean ∧ tags t = tr_tags request ∧
    root_process_identity t = tr_root_identity request ∧
    otel_trace_id t = stamp_otel raw ∧
    (∃ b6 b8, stamp_otel raw !! 6%nat = Some b6 ∧ stamp_otel raw !! 8%nat = Some b8 ∧
       Z.land (byte.unsigned b6) 240 = 64 ∧ Z.land (byte.unsigned b8) 192 = 128) ∧
    (∀ j, j ≠ id → get_trace rt' j = get_trace rt j)) ∧
  (∀ err r, create_starting_trace (Err err) r id request plan rt =
     (Err (TraceIdentityGenerationFailed err), rt)) ∧
  (∀ err, create_starting_trace (Ok token) (Err err) id request plan rt =
     (Err (TraceIdentityGenerationFailed err), rt)).
Proof.
  intros Hlen. splits; [|done..].
  destruct (stamp_otel_spec raw Hlen) as (_ & (b6 & H6 & V6) & (b8 & H8 & V8) & _ & Hs).
  unfold create_starting_trace. rewrite Hs.
  set (t1 := Trace.set_root _ _ _ _ _ _).
  destruct (add_tags_spec (bs_list (tr_tags request)) t1) as (E1 & E2 & E3 & E4 & E5).
  exists (foldl Trace.add_tag t1 (bs_list (tr_tags request))). eexists.
  splits; [done|apply lookup_insert_eq|by rewrite E2|by rewrite E3| |by rewrite E5|by rewrite E4
          |by exists b6, b8|].
  - rewrite E1. simpl. apply set_eq. intros x.
    rewrite elem_of_union, elem_of_list_to_set, elem_of_bs_list. set_solver.
  - intros j Hj. unfold get_trace. simpl. by rewrite lookup_insert_ne.
Qed.

Lemma create_starting_trace_spec_witness :
  ∃ t rt', create_starting_trace (Ok (replicate 32 zero_byte)) (Ok (replicate 16 zero_byte)) 1
             w_request w_plan (new [] 1) = (Ok (), rt') ∧ lifecycle_state t = Starting.
Proof.
  destruct (create_starting_trace_spec (replicate 32 zero_byte) (replicate 16 zero_byte) 1
    w_request w_plan (new [] 1)) as [(t & rt' & H & _ & Hs & _) _]; [reflexivity|].
  exists t, rt'. split; [exact H|exact Hs].
Defined.

(** ** Propagation *)

(** A child inherits tracing exactly when its parent is a live member with
    capture and propagation enabled; otherwise the call fails with the precise reason
    and changes no membership.  An observed fork, by contrast, is recorded for any
    known parent. *)
Theorem inheritance_guard rt id e parent child at_ :
  traces rt !! id = Some e →
  let child_membership p := Membership.inherited id child (mem_identity p) at_ in
  (inherit_process id parent child at_ rt =
     match te_memberships e !! parent with
     | None => (Err (ParentMembershipMissing parent), put_entry id e rt)
     | Some p =>
         if mem_capture_enabled p && mem_propagation_enabled p &&
            (bool_decide (mem_state p = MStarting) || bool_decide (mem_state p = MActive))
         then (Ok (), put_entry id (set_memberships e
                 (<[child := child_membership p]> (te_memberships e))) rt)
         else (Err (PropagationDisabled (mem_identity p)), put_entry id e rt)
     end) ∧
  (insert_observed_child id parent child at_ rt =
     match te_memberships e !! parent with
     | None => (Err (ParentMembershipMissing parent), put_entry id e rt)
     | Some p => (Ok (), put_entry id (set_memberships e
                    (<[child := child_membership p]> (te_memberships e))) rt)
     end) ∧
  traces (put_entry id e rt) = traces rt.
Proof.
  intros He cm. unfold inherit_process, insert_observed_child, with_entry. rewrite He.
  splits.
  - destruct (te_memberships e !! parent) as [p|]; [|done].
    assert (Membership.can_inherit p = mem_capture_enabled p && mem_propagation_enabled p &&
      (bool_decide (mem_state p = MStarting) || bool_decide (mem_state p = MActive))) as ->.
    { unfold Membership.can_inherit. by destruct (mem_state p). }
    by destruct (_ && _ && _).
  - by destruct (te_memberships e !! parent).
  - simpl. by rewrite insert_id.
Qed.

Lemma inheritance_guard_witness :
  inherit_process 1 99 12 8 w_rt = (Err (ParentMembershipMissing 99), put_entry 1 w_entry w_rt).
Proof. apply (inheritance_guard w_rt 1 w_entry 99 12 8). vm_compute. reflexivity. Defined.

(** ** Lookup order *)

Lemma find_map_list_sorted {V B} (f : V → option B) (l : list (Z * V)) k v b :
  StronglySorted key_le l → NoDup l.*1 → (k, v) ∈ l → f v = Some b →
  (∀ k' v', (k', v') ∈ l → k' < k → f v' = None) →
  find_map_list (λ p, pair p.1 <$> f p.2) l = Some (k, b).
Proof.
  induction l as [|[k0 v0] l IH]; simpl; [set_solver|].
  intros [Hall Hs]%StronglySorted_cons [Hni Hnd]%NoDup_cons Hin Hf Hmin.
  apply elem_of_cons in Hin as [[= <- <-]|Hin]; [by rewrite Hf|].
  rewrite Forall_forall in Hall. pose proof (Hall _ Hin) as Hle. unfold key_le in Hle.
  simpl in Hle. assert (k0 ≠ k).
  { intros ->. apply Hni, list_elem_of_fmap. by exists (k, v). }
  assert (f v0 = None) as ->.
  { apply (Hmin k0 v0); [constructor|]. unfold bo_le in Hle. simpl in Hle. lia. }
  simpl. apply IH; try done. intros k' v' Hin'. apply Hmin. by constructor.
Qed.

Lemma find_map_list_None {A B} (f : A → option B) l :
  find_map_list f l = None ↔ ∀ x, x ∈ l → f x = None.
Proof.
  induction l as [|x l IH]; simpl; [set_solver|].
  destruct (f x) eqn:E; split; intros H.
  - done.
  - rewrite (H x) in E by constructor. done.
  - intros y [->|Hy]%elem_of_cons; [done|]. by apply IH.
  - apply IH. intros y Hy. apply H. by constructor.
Qed.

(** Looking a process up over all traces returns its membership in the trace
    with the smallest id that has one, and nothing exactly when no trace has it. *)
Theorem find_membership_least rt i :
  (∀ id e m, traces rt !! id = Some e → te_memberships e !! i = Some m →
     (∀ id' e', traces rt !! id' = Some e' → id' < id → te_memberships e' !! i = None) →
     find_membership rt i = Some (id, m)) ∧
  (find_membership rt i = None ↔
     ∀ id e, traces rt !! id = Some e → te_memberships e !! i = None).
Proof.
  split.
  - intros id e m He Hm Hmin. unfold find_membership.
    apply (find_map_list_sorted (λ e, te_memberships e !! i) _ id e m);
      [apply bt_list_sorted|apply bt_list_NoDup_keys|by apply elem_of_bt_list|done|].
    intros k' v' Hin. apply elem_of_bt_list in Hin. by apply Hmin.
  - unfold find_membership. rewrite find_map_list_None. split.
    + intros H id e He. specialize (H (id, e)). rewrite elem_of_bt_list in H.
      specialize (H He). simpl in H. by destruct (te_memberships e !! i).
    + intros H [id e] Hin%elem_of_bt_list. simpl. by rewrite (H _ _ Hin).
Qed.

(** ** Negotiation *)

(** [r] is to be bound to the collector called [name]: it is not disabled and the
    first collector that declares the capability has that name. *)
Definition served_by (cs : list CollectorDescriptor) (name : string)
    (r : CapabilityRequest) : bool :=
  match req_mode r, Plan.find_collector cs (req_capability r) with
  | Disabled, _ => false
  | _, Some c => String.eqb (col_name c) name
  | _, None => false
  end.
(** [r] has the given mode and no collector declares its capability. *)
Definition unserved (cs : list CollectorDescriptor) (required : bool)
    (r : CapabilityRequest) : bool :=
  match req_mode r, Plan.find_collector cs (req_capability r) with
  | Required, None => required
  | Opportunistic, None => negb required
  | _, _ => false
  end.

Definition bound_to cs name rs : list Capability :=
  req_capability <$> List.filter (served_by cs name) rs.
Definition missing cs required rs : list Capability :=
  req_capability <$> List.filter (unserved cs required) rs.

Lemma bound_to_snoc cs name rs r :
  bound_to cs name (rs ++ [r]) =
    bound_to cs name rs ++ (if served_by cs name r then [req_capability r] else []).
Proof. unfold bound_to. rewrite List.filter_app, fmap_app. simpl. by case_match. Qed.
Lemma missing_snoc cs b rs r :
  missing cs b (rs ++ [r]) =
    missing cs b rs ++ (if unserved cs b r then [req_capability r] else []).
Proof. unfold missing. rewrite List.filter_app, fmap_app. simpl. by case_match. Qed.

Lemma negotiate_fold cs rs :
  let a := foldl (Plan.negotiate_one cs) (Plan.mkAcc ∅ [] []) rs in
  (∀ name, Plan.bindings a !! name =
     match bound_to cs name rs with [] => None | caps => Some caps end) ∧
  Plan.missing_required a =
    (λ c, mkNegotiationFailure c "no collector declared support") <$> missing cs true rs ∧
  Plan.unbound a = missing cs false rs.
Proof.
  induction rs as [|r rs (IHb & IHm & IHu)] using rev_ind; [by splits|].
  rewrite foldl_snoc, !missing_snoc, fmap_app.
  rewrite <-IHm, <-IHu.
  set (a := foldl _ _ rs) in *. clearbody a.
  unfold Plan.negotiate_one, unserved.
  destruct (req_mode r) eqn:Em, (Plan.find_collector cs (req_capability r)) as [c|] eqn:Ef;
    cbn [Plan.bindings Plan.missing_required Plan.unbound negb]; rewrite ?app_nil_r;
    (split; [intros name; rewrite bound_to_snoc; unfold served_by|by split]);
    rewrite ?Em, ?Ef, ?app_nil_r; try apply IHb.
  all: rewrite lookup_insert; destruct (String.eqb_spec (col_name c) name) as [<-|Hne];
    rewrite ?decide_True, ?decide_False by done; rewrite IHb, ?app_nil_r; [|done];
    by destruct (bound_to cs (col_name c) rs).
Qed.

(** Sensor negotiation.  It fails exactly with the required capabilities that no
    collector declares, in request order; otherwise each collector of the plan gets,
    in request order, precisely the enabled capabilities for which it is the first to
    declare support, collectors without any are left out, the plan lists the rest of
    the opportunistic requests as unbound, and disabled requests appear nowhere. *)
Theorem negotiate_spec p cs :
  let rs := prof_capability_requests p in
  match Plan.negotiate p cs with
  | Err fs => nf_capability <$> fs = missing cs true rs ∧ fs ≠ []
  | Ok plan =>
      missing cs true rs = [] ∧
      (∀ name caps, mkCollectorPlan name caps ∈ sp_collectors plan ↔
         caps = bound_to cs name rs ∧ caps ≠ []) ∧
      NoDup (cp_collector_name <$> sp_collectors plan) ∧
      sp_unbound_opportunistic plan = missing cs false rs ∧
      sp_profile_name plan = prof_name p
  end.
Proof.
  intros rs. unfold Plan.negotiate. fold rs.
  destruct (negotiate_fold cs rs) as (Hb & Hm & Hu).
  set (a := foldl _ _ rs) in *. rewrite Hm.
  destruct (missing cs true rs) as [|c fs] eqn:Em; simpl.
  - splits; try done.
    + intros name caps. rewrite list_elem_of_fmap. split.
      * intros ([n l] & [= -> ->] & Hin). apply elem_of_bt_list in Hin.
        rewrite Hb in Hin. simpl in Hin |- *. destruct (bound_to cs n rs); by simplify_eq.
      * intros [-> Hne]. exists (name, bound_to cs name rs). split; [done|].
        apply elem_of_bt_list. rewrite Hb. by destruct (bound_to cs name rs).
    + rewrite <-list_fmap_compose. apply bt_list_NoDup_keys.
  - split; [|done]. f_equal. rewrite <-list_fmap_compose. apply list_fmap_id.
Qed.
End RegistryFacts.
