(* ===== verification/Attach.v ===== *)
(** Attaching to a running process: crates/core/attach_runtime (bootstrap.rs,
    coverage_guard.rs, identity_merge.rs, snapshot_merge.rs) over the contracts it
    is written against (contracts/process/tree_snapshot, contracts/collector).

    The three traits of the contracts are type classes; a collector is stateful, so
    its methods return its new state.  [attach_existing] runs on the product of the
    collector, the identity manager and the trace registry, all of which keep the
    effects of a call that fails half way.  The two clock readings and the two random
    draws of a call are arguments. *)
From stdpp Require Import prelude gmap strings sorting.
From Stdlib Require Import ZArith Lia.
From coqutil Require Import Byte.
From S2P Require Import Prelude Bytes ProcessIdentity Model TraceRuntime.

Open Scope Z_scope.

(** * Contracts *)

Inductive IdentityLookupError :=
| IdentityNotFound (pid : Z)
| IdentityPermissionDenied (pid : Z)
| IdentityIncomplete (pid : Z) (detail : string).

Record CollectorError := mkCollectorError {
  ce_stage : string;
  ce_message : string;
}.

Record CoverageGuardRequest := mkGuardRequest {
  gr_trace_id : TraceId;
  gr_root_identity : ProcessIdentity;
  gr_root_observation : ProcessObservation;
}.

Record CoverageGuardHandle := mkGuardHandle {
  gh_collector_name : string;
  gh_activated_at : SystemTime;
}.

Record RawEventEnvelope := mkEnvelope {
  env_trace_id : option TraceId;
  env_observed_at : SystemTime;
  env_process : ProcessObservation;
  env_collector : string;
}.

(** The payload of an event is carried along and never inspected here. *)
Record RawCollectorEvent (Payload : Type) := mkRawEvent {
  ev_envelope : RawEventEnvelope;
  ev_payload : Payload;
}.
Arguments mkRawEvent {Payload}.
Arguments ev_envelope {Payload}.
Arguments ev_payload {Payload}.

Record ProcessSnapshot := mkProcessSnapshot {
  ps_identity : ProcessObservation;
  ps_parent : option ProcessObservation;
  ps_executable : option string;
  ps_current_working_directory : option string;
}.

Record TreeSnapshot := mkTree {
  ts_root : ProcessObservation;
  ts_captured_at : SystemTime;
  ts_processes : list ProcessSnapshot;
}.

(** [TreeSnapshot::root_working_directory]. *)
Definition root_working_directory_of (s : TreeSnapshot) : option string :=
  p ← List.find (λ p, bool_decide (ps_identity p = ts_root s)) (ts_processes s);
  ps_current_working_directory p.

(** The traits, as far as the bootstrap calls them. *)
Class ProcessIdentityReader (I : Type) : Type := {
  read_identity : I → Z → result IdentityLookupError ProcessObservation;
}.

Class ProcessTreeSnapshotter (S : Type) : Type := {
  SnapshotError : Type;
  snapshot : S → ProcessObservation → result SnapshotError TreeSnapshot;
}.

Class CollectorInstance (C Payload : Type) : Type := {
  install_coverage_guard : CoverageGuardRequest → ST C CollectorError CoverageGuardHandle;
  poll_events : ST C CollectorError (list (RawCollectorEvent Payload));
}.

(** * identity_merge.rs *)

Record IdentityMergeSummary := mkMergeSummary {
  snapshot_only : gset ProcessObservation;
  live_only : gset ProcessObservation;
  observed_in_both : gset ProcessObservation;
}.

Definition merge_identities {Payload} (s : TreeSnapshot)
    (live_events : list (RawCollectorEvent Payload)) : IdentityMergeSummary :=
  let snapshot_identities : gset ProcessObservation :=
    list_to_set (ps_identity <$> ts_processes s) in
  let live_identities : gset ProcessObservation :=
    list_to_set ((λ e, env_process (ev_envelope e)) <$> live_events) in
  mkMergeSummary (snapshot_identities ∖ live_identities)
    (live_identities ∖ snapshot_identities)
    (snapshot_identities ∩ live_identities).

(** * snapshot_merge.rs *)

Record SnapshotMergeResult := mkMergeResult {
  mr_memberships : list ProcessMembership;
  mr_bootstrap_partial : bool;
  mr_process_records : list ProcessRecord;
}.

Module Merge.
(** The three mutable locals of [merge_snapshot]. *)
Record acc := mkAcc {
  a_memberships : list ProcessMembership;
  a_records : gmap ProcessIdentity ProcessRecord;
  a_partial : bool;
}.

(** [resolve_or_create] followed by keeping the record of a created or enriched
    process; the record is read with [expect]. *)
Definition resolve_noting (o : ProcessObservation)
    (kept : gmap ProcessIdentity ProcessRecord)
    : IdM (ProcessIdentity * gmap ProcessIdentity ProcessRecord) :=
  resolution ← Mgr.resolve_or_create o;
  let identity := res_identity resolution in
  if res_created resolution || res_enriched resolution then
    m ← st_get;
    match Mgr.record m identity with
    | Some r => mret (identity, <[identity := r]> kept)
    | None => st_fail Panicked
    end
  else mret (identity, kept).

(** One iteration of the loop over the snapshot's processes. *)
Definition merge_process (trace : TraceId) (root_identity : ProcessIdentity)
    (captured : SystemTime) (p : ProcessSnapshot) (a : acc) : IdM acc :=
  r ← resolve_noting (ps_identity p) (a_records a);
  let '(identity, kept) := r in
  if identity =? root_identity
  then mret (mkAcc (a_memberships a) kept (a_partial a))
  else
    match ps_parent p with
    | None => mret (mkAcc (a_memberships a) kept true)
    | Some parent_observation =>
        q ← resolve_noting parent_observation kept;
        let '(parent, kept') := q in
        mret (mkAcc (a_memberships a ++ [Membership.inherited trace identity parent captured])
                kept' (a_partial a))
    end.

Fixpoint merge_loop (trace : TraceId) (root_identity : ProcessIdentity)
    (captured : SystemTime) (ps : list ProcessSnapshot) (a : acc) : IdM acc :=
  match ps with
  | [] => mret a
  | p :: ps' =>
      a' ← merge_process trace root_identity captured p a;
      merge_loop trace root_identity captured ps' a'
  end.

(** [merge_snapshot]. *)
Definition merge_snapshot {Payload} (trace : TraceId) (root_identity : ProcessIdentity)
    (s : TreeSnapshot) (live_events : list (RawCollectorEvent Payload))
    : IdM SnapshotMergeResult :=
  let summary := merge_identities s live_events in
  a ← merge_loop trace root_identity (ts_captured_at s) (ts_processes s)
        (mkAcc [] ∅ (negb (bool_decide (live_only summary = ∅))));
  mret (mkMergeResult (a_memberships a) (a_partial a) (bt_values (a_records a))).
End Merge.

(** * coverage_guard.rs, bootstrap.rs *)

Record BootstrapTimings := mkTimings {
  bt_request_received_at : SystemTime;
  bt_capability_checked_at : SystemTime;
  bt_coverage_guard_installed_at : SystemTime;
  bt_bootstrap_snapshot_started_at : SystemTime;
  bt_bootstrap_snapshot_finished_at : SystemTime;
  bt_trace_started_at : SystemTime;
}.

Record AttachRequest := mkAttach {
  ar_root_pid : Z;
  ar_display_name : string;
  ar_profile_snapshot : CaptureProfileSnapshot;
  ar_sensor_plan : SensorPlan;
  ar_tags : gset string;
  ar_request_received_at : SystemTime;
  ar_capability_checked_at : SystemTime;
}.

Record BootstrapResult := mkBootstrap {
  br_trace_id : TraceId;
  br_root_identity : ProcessIdentity;
  br_timings : BootstrapTimings;
  br_bootstrap_partial : bool;
}.

Inductive BootstrapError :=
| BootIdentityLookup (e : IdentityLookupError)
| BootCollector (e : CollectorError)
| BootSnapshot (detail : string)
| BootRuntime (e : RegistryError)
| BootProcessIdentityManager (e : ProcessIdentityError).

Module Bootstrap.
Section coordinator.
Context {C I S Payload : Type}.
Context `{!CollectorInstance C Payload, !ProcessIdentityReader I,
          !ProcessTreeSnapshotter S}.

(** What a call can change: the collector and the identity manager borrowed by
    the coordinator, and the trace registry. *)
Record state := mkState {
  collector : C;
  process_registry : ProcessIdentityManager;
  runtime : TraceRuntime;
}.

Abbreviation BootM := (ST state (fault BootstrapError)).

Definition on_collector {A} (f : ST C CollectorError A) : BootM A := λ s,
  let '(r, c) := f (collector s) in
  (map_err (λ e, Failed (BootCollector e)) r, mkState c (process_registry s) (runtime s)).
Definition manager_fault (e : fault ProcessIdentityError) : fault BootstrapError :=
  match e with
  | Panicked => Panicked
  | Failed e => Failed (BootProcessIdentityManager e)
  end.
Definition on_registry {A} (f : IdM A) : BootM A := λ s,
  let '(r, m) := f (process_registry s) in
  (map_err manager_fault r, mkState (collector s) m (runtime s)).
Definition on_runtime {A} (f : ST TraceRuntime RegistryError A) : BootM A := λ s,
  let '(r, rt) := f (runtime s) in
  (map_err (λ e, Failed (BootRuntime e)) r, mkState (collector s) (process_registry s) rt).

(** [for membership in memberships { runtime.insert_membership(..)? }]. *)
Fixpoint insert_all (id : TraceId) (ms : list ProcessMembership)
    : ST TraceRuntime RegistryError () :=
  match ms with
  | [] => mret ()
  | m :: ms' => _ ← Registry.insert_membership id m; insert_all id ms'
  end.

(** The request the bootstrap registers the trace with. *)
Definition track_request (request : AttachRequest) (root_identity : ProcessIdentity)
    (root_observation : ProcessObservation) (s : TreeSnapshot) : TrackTraceRequest :=
  mkTrackRequest root_identity
    (ns_pid_namespace <$> obs_namespace root_observation) None None None
    (root_working_directory_of s) (ar_display_name request) (ar_profile_snapshot request)
    (ar_tags request) (ar_request_received_at request).

(** [BootstrapCoordinator::attach_existing]; [started_at] and [finished_at] are
    the clock readings around the snapshot. *)
Definition attach_existing (reader : I) (snapshotter : S)
    (started_at_ finished_at : SystemTime) (token otel : result string (list byte))
    (request : AttachRequest) : BootM BootstrapResult :=
  root_observation ← st_lift (map_err (λ e, Failed (BootIdentityLookup e))
                                (read_identity reader (ar_root_pid request)));
  resolution ← on_registry (Mgr.resolve_or_create root_observation);
  let root_identity := res_identity resolution in
  trace ← on_runtime (λ rt, let '(id, rt') := Registry.reserve_trace_id rt in (Ok id, rt'));
  guard ← on_collector (install_coverage_guard
            (mkGuardRequest trace root_identity root_observation));
  tree ← st_lift (map_err (λ _, Failed (BootSnapshot "snapshot failed"))
                    (snapshot snapshotter root_observation));
  _ ← on_runtime (Registry.create_starting_trace token otel trace
        (track_request request root_identity root_observation tree)
        (ar_sensor_plan request));
  live_events ← on_collector poll_events;
  merged ← on_registry (Merge.merge_snapshot trace root_identity tree live_events);
  _ ← on_runtime (insert_all trace (mr_memberships merged));
  _ ← on_runtime (Registry.activate_trace trace finished_at);
  mret (mkBootstrap trace root_identity
          (mkTimings (ar_request_received_at request) (ar_capability_checked_at request)
             (gh_activated_at guard) started_at_ finished_at finished_at)
          (mr_bootstrap_partial merged)).
End coordinator.
End Bootstrap.

(** * The merge resolves every process and keeps the manager well formed *)

Module MergeFacts.
Import Merge.
#[export] Existing Instances Mgr.host_le_trans Mgr.record_le_po Mgr.preserved_po.

(** The record of [i] covers everything the observation says. *)
Definition covers (m : ProcessIdentityManager) (o : ProcessObservation)
    (i : ProcessIdentity) : Prop :=
  ∃ r, records m !! i = Some r ∧ Mgr.host_le (obs_host o) (rec_host r) ∧
       ∀ n, obs_namespace o = Some n → n ∈ rec_namespaces r.

Lemma covers_preserved m m' o i : Mgr.preserved m m' → covers m o i → covers m' o i.
Proof.
  intros Hp (r & Hr & Hh & Hn). destruct (Hp _ _ Hr) as (r' & Hr' & _ & Hh' & Hn').
  exists r'. splits; [done|by etrans|]. intros n Hn0. apply Hn'. eauto.
Qed.

(** A call on the manager that keeps it well formed, loses nothing and never
    panics; [Q] holds of a successful result. *)
Definition safe {A} (m : ProcessIdentityManager)
    (c : result (fault ProcessIdentityError) A * ProcessIdentityManager)
    (Q : A → ProcessIdentityManager → Prop) : Prop :=
  Mgr.wf c.2 ∧ Mgr.preserved m c.2 ∧
  match c.1 with Ok a => Q a c.2 | Err e => e ≠ Panicked end.

Lemma safe_ret {A} m (a : A) (Q : A → ProcessIdentityManager → Prop) :
  Mgr.wf m → Q a m → safe m (Ok a, m) Q.
Proof. intros. unfold safe. by splits. Qed.

Lemma safe_bind {A B} m (f : IdM A) (k : A → IdM B) P Q :
  safe m (f m) P →
  (∀ a m1, Mgr.wf m1 → Mgr.preserved m m1 → P a m1 → safe m1 (k a m1) Q) →
  safe m ((f ≫= k) m) Q.
Proof.
  intros (Hwf & Hp & Hr) Hk. munfold. destruct (f m) as [[a|e] m1]; simpl in *.
  - destruct (Hk a m1 Hwf Hp Hr) as (? & ? & ?).
    unfold safe. splits; [done|by etrans|done].
  - unfold safe. by splits.
Qed.

Lemma resolve_safe o m :
  Mgr.wf m → safe m (Mgr.resolve_or_create o m) (λ r m', covers m' o (res_identity r)).
Proof.
  intros Hwf. destruct (Mgr.step_preserved _ _ Hwf (Mgr.step_resolve m o)) as [Hwf' Hp].
  unfold safe. splits; [done|done|].
  destruct (Mgr.resolve_or_create o m) as [[r|e] m'] eqn:E; simpl.
  - destruct (Mgr.resolve_Ok _ _ _ _ Hwf E) as (_ & q & Hq & Hh & Hn & _). by exists q.
  - destruct (Mgr.resolve_cases m o) as
      [[ids E']|[(i & Hc & [(x & m1 & He & E')|(x & m1 & He & E')])|
                 (Hc & [(x & Ha & E')|(i & m1 & Ha & E')])]];
      rewrite E in E'; simplify_eq/=; [done| |].
    + destruct (Mgr.enrich_Err m i o x m1) as (_ & (a & b & -> & _) & _); try done.
      apply (Mgr.candidates_recorded m o); [done|set_solver].
    + unfold Mgr.allocate_identity in Ha. by repeat case_match; simplify_eq.
Qed.

Lemma resolve_noting_safe o kept m :
  Mgr.wf m → safe m (resolve_noting o kept m) (λ r m', covers m' o r.1).
Proof.
  intros Hwf. unfold resolve_noting. eapply safe_bind; [by apply resolve_safe|].
  intros r m1 Hwf1 _ Hc. destruct (res_created r || res_enriched r).
  - munfold. destruct Hc as (q & Hq & Hrest). unfold Mgr.record. rewrite Hq.
    apply safe_ret; [done|]. by exists q.
  - by apply safe_ret.
Qed.

Section merge.
Context (trace : TraceId) (root : ProcessIdentity) (captured : SystemTime).

(** What the memberships [ms] and the partial flag say about the processes. *)
Record merged (m : ProcessIdentityManager) (ps : list ProcessSnapshot)
    (ms : list ProcessMembership) (partial0 partial : bool) : Prop := {
  mg_sound : ∀ mem, mem ∈ ms → ∃ p po par, p ∈ ps ∧ ps_parent p = Some po ∧
    covers m (ps_identity p) (mem_identity mem) ∧ covers m po par ∧
    mem_identity mem ≠ root ∧
    mem = Membership.inherited trace (mem_identity mem) par captured;
  mg_complete : ∀ p, p ∈ ps → ∃ i, covers m (ps_identity p) i ∧
    (i = root ∨ (ps_parent p = None ∧ partial = true) ∨
     ∃ mem, mem ∈ ms ∧ mem_identity mem = i);
  mg_keeps : partial0 = true → partial = true;
  mg_reason : partial = true → partial0 = true ∨
    ∃ p i, p ∈ ps ∧ ps_parent p = None ∧ covers m (ps_identity p) i ∧ i ≠ root;
}.

Lemma merged_preserved m m' ps ms p0 p1 :
  Mgr.preserved m m' → merged m ps ms p0 p1 → merged m' ps ms p0 p1.
Proof.
  intros Hp [H1 H2 H3 H4]. split; [| |done|].
  - intros mem Hm. destruct (H1 _ Hm) as (p & po & par & ? & ? & ? & ? & ? & ?).
    exists p, po, par. splits; eauto using covers_preserved.
  - intros p Hin. destruct (H2 _ Hin) as (i & ? & ?). exists i.
    eauto using covers_preserved.
  - intros Ht. destruct (H4 Ht) as [?|(p & i & ? & ? & ? & ?)]; [by left|right].
    exists p, i. eauto 6 using covers_preserved.
Qed.

Lemma merged_app m ps qs ms ns p0 p1 p2 :
  merged m ps ms p0 p1 → merged m qs ns p1 p2 → merged m (ps ++ qs) (ms ++ ns) p0 p2.
Proof.
  intros [A1 A2 A3 A4] [B1 B2 B3 B4]. split.
  - intros mem [Hm|Hm]%elem_of_app;
      [destruct (A1 _ Hm) as (p & po & par & ? & Hr)
      |destruct (B1 _ Hm) as (p & po & par & ? & Hr)];
      exists p, po, par; (split; [set_solver|done]).
  - intros p [Hp|Hp]%elem_of_app;
      [destruct (A2 _ Hp) as (i & ? & [?|[[? ?]|(mem & ? & ?)]])
      |destruct (B2 _ Hp) as (i & ? & [?|[[? ?]|(mem & ? & ?)]])];
      exists i; (split; [done|]); eauto; right; right; exists mem; set_solver.
  - auto.
  - intros Ht. destruct (B4 Ht) as [Ht1|(p & i & ? & ? & ? & ?)].
    + destruct (A4 Ht1) as [?|(p & i & ? & ? & ? & ?)]; [by left|right].
      exists p, i. set_solver.
    + right. exists p, i. set_solver.
Qed.

Lemma merge_process_safe p a m :
  Mgr.wf m → safe m (merge_process trace root captured p a m) (λ a' m',
    ∃ ms, a_memberships a' = a_memberships a ++ ms ∧
          merged m' [p] ms (a_partial a) (a_partial a')).
Proof.
  intros Hwf. unfold merge_process. eapply safe_bind; [by apply resolve_noting_safe|].
  intros [i kept] m1 Hwf1 _ Hc. simpl in Hc. destruct (Z.eqb_spec i root) as [->|Hne].
  { apply safe_ret; [done|]. exists []. rewrite app_nil_r. split; [done|].
    split; simpl; [set_solver| |auto|auto].
    intros q ->%list_elem_of_singleton. eauto. }
  destruct (ps_parent p) as [po|] eqn:Ep.
  - eapply safe_bind; [by apply resolve_noting_safe|].
    intros [par kept'] m2 Hwf2 Hp2 Hpar. simpl in Hpar.
    apply safe_ret; [done|]. eexists. split; [done|]. split; simpl; [| |auto|auto].
    + intros mem ->%list_elem_of_singleton. exists p, po, par. simpl.
      splits; eauto using covers_preserved. set_solver.
    + intros q ->%list_elem_of_singleton. exists i.
      split; [eauto using covers_preserved|]. right. right. eexists.
      split; [by apply list_elem_of_singleton|done].
  - apply safe_ret; [done|]. exists []. rewrite app_nil_r. split; [done|].
    split; simpl; [set_solver| |done|].
    + intros q ->%list_elem_of_singleton. exists i. eauto.
    + intros _. right. exists p, i. set_solver.
Qed.

Lemma merge_loop_safe ps a m :
  Mgr.wf m → safe m (merge_loop trace root captured ps a m) (λ a' m',
    ∃ ms, a_memberships a' = a_memberships a ++ ms ∧
          merged m' ps ms (a_partial a) (a_partial a')).
Proof.
  revert a m. induction ps as [|p ps IH]; intros a m Hwf; simpl.
  { apply safe_ret; [done|]. exists []. rewrite app_nil_r. split; [done|].
    split; set_solver. }
  eapply safe_bind; [by apply merge_process_safe|].
  intros a1 m1 Hwf1 _ (ms1 & E1 & M1).
  destruct (IH a1 m1 Hwf1) as (Hwf2 & Hp2 & Hr). unfold safe. splits; [done|done|].
  destruct (merge_loop _ _ _ ps a1 m1) as [[a2|e] m2]; simpl in *; [|done].
  destruct Hr as (ms2 & E2 & M2). exists (ms1 ++ ms2).
  split; [by rewrite E2, E1, app_assoc|].
  apply (merged_app _ [p] ps _ _ _ (a_partial a1)); [|done].
  by apply (merged_preserved m1).
Qed.
End merge.

(** The flag a merge starts from: a live event of a process outside the snapshot. *)
Lemma live_only_spec {Payload} (s : TreeSnapshot) (evs : list (RawCollectorEvent Payload)) :
  live_only (merge_identities s evs) = ∅ ↔
  ∀ ev, ev ∈ evs → env_process (ev_envelope ev) ∈ ps_identity <$> ts_processes s.
Proof.
  simpl. split.
  - intros E ev Hev.
    destruct (decide (env_process (ev_envelope ev) ∈ ps_identity <$> ts_processes s))
      as [|Hn]; [done|].
    assert (env_process (ev_envelope ev) ∈ live_only (merge_identities s evs)) as Hin.
    { simpl. rewrite elem_of_difference, !elem_of_list_to_set. split; [|done].
      apply list_elem_of_fmap. eauto. }
    simpl in Hin. rewrite E in Hin. set_solver.
  - intros H. apply set_eq. intros o.
    rewrite elem_of_difference, !elem_of_list_to_set, list_elem_of_fmap.
    split; [|set_solver]. intros [(ev & -> & Hev) Hn]. destruct Hn. eauto.
Qed.

Lemma merge_snapshot_safe {Payload} trace root s (evs : list (RawCollectorEvent Payload)) m :
  Mgr.wf m → safe m (merge_snapshot trace root s evs m) (λ r m',
    merged trace root (ts_captured_at s) m' (ts_processes s) (mr_memberships r)
      (negb (bool_decide (live_only (merge_identities s evs) = ∅)))
      (mr_bootstrap_partial r)).
Proof.
  intros Hwf. unfold merge_snapshot. eapply safe_bind; [by apply merge_loop_safe|].
  intros a m1 Hwf1 _ (ms & E & M). apply safe_ret; [done|]. simpl in *. by rewrite E.
Qed.
End MergeFacts.

(** * The attach sequence *)

Module BootstrapFacts.
Import Bootstrap MergeFacts.

Definition insert_members (ms : list ProcessMembership)
    (idx : gmap ProcessIdentity ProcessMembership) :=
  foldl (λ acc m, MembershipIndex.insert m acc) idx ms.

Lemma insert_all_entry id ms rt e :
  traces rt !! id = Some e →
  insert_all id ms rt =
    (Ok (), Registry.put_entry id
              (Registry.set_memberships e (insert_members ms (te_memberships e))) rt).
Proof.
  revert rt e. induction ms as [|m ms IH]; intros rt e He; simpl.
  - unfold Registry.put_entry, Registry.set_memberships. simpl.
    destruct e, rt. simpl in *. by rewrite insert_id.
  - munfold. unfold Registry.insert_membership, Registry.with_entry. rewrite He. simpl.
    erewrite IH by (simpl; apply lookup_insert_eq).
    unfold Registry.put_entry. simpl. by rewrite insert_insert_eq.
Qed.

Lemma insert_members_lookup ms idx i :
  (∀ m, m ∈ ms → mem_identity m ≠ i) → insert_members ms idx !! i = idx !! i.
Proof.
  revert idx. induction ms as [|m ms IH]; intros idx H; simpl; [done|].
  rewrite IH by set_solver. unfold MembershipIndex.insert.
  apply lookup_insert_ne. apply H. set_solver.
Qed.

Lemma insert_members_Some ms idx i m :
  insert_members ms idx !! i = Some m →
  (m ∈ ms ∧ mem_identity m = i) ∨ idx !! i = Some m.
Proof.
  revert idx. induction ms as [|x ms IH]; intros idx H; simpl in *; [by right|].
  destruct (IH _ H) as [[? ?]|Hx]; [left; set_solver|].
  unfold MembershipIndex.insert in Hx. rewrite lookup_insert in Hx.
  case_decide; [|by right]. left. simplify_eq. set_solver.
Qed.

Lemma insert_members_in ms idx m :
  m ∈ ms → is_Some (insert_members ms idx !! mem_identity m).
Proof.
  assert (∀ ms idx i, is_Some (idx !! i) → is_Some (insert_members ms idx !! i)) as Hkeep.
  { clear. intros ms. induction ms as [|x ms IH]; intros idx i Hi; simpl; [done|].
    apply IH. unfold MembershipIndex.insert. rewrite lookup_insert. by case_decide. }
  revert idx. induction ms as [|x ms IH]; intros idx H; simpl; [set_solver|].
  apply elem_of_cons in H as [->|H]; [|by apply IH].
  apply Hkeep. unfold MembershipIndex.insert. by rewrite lookup_insert_eq.
Qed.

(** Activation of a starting trace always succeeds. *)
Lemma activate_starting id at_ rt e :
  traces rt !! id = Some e → lifecycle_state (te_trace e) = Starting →
  ∃ t, Registry.activate_trace id at_ rt =
    (Ok (), Registry.put_entry id (Registry.set_trace
       (Registry.set_memberships e (MembershipIndex.activate_all (te_memberships e))) t) rt) ∧
    lifecycle_state t = Active ∧ started_at (timings t) = Some at_ ∧
    root_process_identity t = root_process_identity (te_trace e).
Proof.
  intros He Hs. unfold Registry.activate_trace, Registry.with_entry. rewrite He. simpl.
  unfold StateMachine.start_trace, StateMachine.require_transition. rewrite Hs. simpl.
  eexists. by splits.
Qed.

Lemma create_entry token otel id request plan rt rt' u :
  Registry.create_starting_trace token otel id request plan rt = (Ok u, rt') →
  ∃ t, rt' = Registry.put_entry id (mkEntry t (tr_profile_snapshot request) plan
      {[tr_root_identity request :=
          Membership.root id (tr_root_identity request) (tr_created_at request)]} None) rt ∧
    lifecycle_state t = Starting ∧ root_process_identity t = tr_root_identity request.
Proof.
  unfold Registry.create_starting_trace. split_cases. intros [= <- <-].
  eexists. split; [reflexivity|].
  set (t1 := Trace.set_root _ _ _ _ _ _).
  destruct (RegistryFacts.add_tags_spec (bs_list (tr_tags request)) t1)
    as (_ & -> & _ & _ & ->). done.
Qed.

Lemma create_error token otel id request plan rt rt' x :
  Registry.create_starting_trace token otel id request plan rt = (Err x, rt') → rt' = rt.
Proof. unfold Registry.create_starting_trace. split_cases; congruence. Qed.

Section coordinator.
Context {C I S Payload : Type}.
Context `{!CollectorInstance C Payload, !ProcessIdentityReader I,
          !ProcessTreeSnapshotter S}.
Context (reader : I) (snapshotter : S) (t0 t1 : SystemTime)
        (token otel : result string (list byte)) (request : AttachRequest).
Abbreviation attach := (attach_existing (C:=C) reader snapshotter t0 t1 token otel request).

(** How far a call that fails got: before the trace exists, or after. *)
Definition nothing_registered (st st' : state (C:=C)) : Prop :=
  traces (runtime st') = traces (runtime st).
Definition left_starting (st st' : state (C:=C)) : Prop :=
  ∃ e, traces (runtime st') = <[next_trace_id (runtime st) := e]> (traces (runtime st)) ∧
       lifecycle_state (te_trace e) = Starting ∧ te_owner e = None ∧
       dom (te_memberships e) = {[root_process_identity (te_trace e)]}.

(** The calls of an attach that reaches the registration of the trace. *)
Record registered (st : state (C:=C)) (obs : ProcessObservation) (root : ProcessIdentity)
    (guard : CoverageGuardHandle) (tree : TreeSnapshot) (t : TraceRecord)
    (st1 : state (C:=C)) : Prop := {
  rg_read : read_identity reader (ar_root_pid request) = Ok obs;
  rg_tree : snapshot snapshotter obs = Ok tree;
  rg_guard : install_coverage_guard (mkGuardRequest (next_trace_id (runtime st)) root obs)
               (collector st) = (Ok guard, collector st1);
  rg_wf : Mgr.wf (process_registry st1);
  rg_preserved : Mgr.preserved (process_registry st) (process_registry st1);
  rg_root : covers (process_registry st1) obs root;
  rg_runtime : runtime st1 =
    Registry.put_entry (next_trace_id (runtime st))
      (mkEntry t (ar_profile_snapshot request) (ar_sensor_plan request)
         {[root := Membership.root (next_trace_id (runtime st)) root
                     (ar_request_received_at request)]} None)
      (Registry.reserve_trace_id (runtime st)).2;
  rg_starting : lifecycle_state t = Starting;
  rg_trace_root : root_process_identity t = root;
}.

(** The rest of the call, once the trace is registered. *)
Definition finish (id : TraceId) (root : ProcessIdentity) (guard : CoverageGuardHandle)
    (tree : TreeSnapshot) : ST (state (C:=C)) (fault BootstrapError) BootstrapResult :=
  live_events ← on_collector (poll_events (Payload:=Payload));
  merged ← on_registry (Merge.merge_snapshot id root tree live_events);
  _ ← on_runtime (insert_all id (mr_memberships merged));
  _ ← on_runtime (Registry.activate_trace id t1);
  mret (mkBootstrap id root
          (mkTimings (ar_request_received_at request) (ar_capability_checked_at request)
             (gh_activated_at guard) t0 t1 t1)
          (mr_bootstrap_partial merged)).

Lemma on_registry_inv {A} (f : IdM A) (st st' : state (C:=C)) r Q :
  safe (process_registry st) (f (process_registry st)) Q → on_registry f st = (r, st') →
  collector st' = collector st ∧ runtime st' = runtime st ∧ Mgr.wf (process_registry st') ∧
  Mgr.preserved (process_registry st) (process_registry st') ∧
  match r with
  | Ok a => Q a (process_registry st')
  | Err e => ∃ x, e = Failed (BootProcessIdentityManager x)
  end.
Proof.
  unfold on_registry. intros (Hwf & Hp & Hr).
  destruct (f (process_registry st)) as [[a|[|x]] m]; intros [= <- <-]; simpl in *;
    splits; eauto. done.
Qed.

Lemma on_runtime_inv {A} (f : ST TraceRuntime RegistryError A) (st st' : state (C:=C)) r :
  on_runtime f st = (r, st') →
  collector st' = collector st ∧ process_registry st' = process_registry st ∧
  ∃ q, f (runtime st) = (q, runtime st') ∧ r = map_err (λ e, Failed (BootRuntime e)) q.
Proof.
  unfold on_runtime. destruct (f (runtime st)) as [q rt]. intros [= <- <-]. eauto.
Qed.

Lemma on_collector_inv {A} (f : ST C CollectorError A) (st st' : state (C:=C)) r :
  on_collector f st = (r, st') →
  process_registry st' = process_registry st ∧ runtime st' = runtime st ∧
  ∃ q, f (collector st) = (q, collector st') ∧ r = map_err (λ e, Failed (BootCollector e)) q.
Proof.
  unfold on_collector. destruct (f (collector st)) as [q c]. intros [= <- <-]. eauto.
Qed.

(** A stage that fails before the registration. *)
Lemma early_exit st st' (e : BootstrapError) :
  traces (runtime st') = traces (runtime st) → Mgr.wf (process_registry st') →
  Mgr.preserved (process_registry st) (process_registry st') →
  ∃ x, Err (A:=BootstrapResult) (Failed e) = Err (Failed x) ∧ nothing_registered st st' ∧
    Mgr.wf (process_registry st') ∧
    Mgr.preserved (process_registry st) (process_registry st').
Proof. intros. by eexists; splits. Qed.

Lemma attach_inv st r st' :
  Mgr.wf (process_registry st) → attach st = (r, st') →
  (∃ e, r = Err (Failed e) ∧ nothing_registered st st' ∧ Mgr.wf (process_registry st') ∧
        Mgr.preserved (process_registry st) (process_registry st')) ∨
  (∃ obs root guard tree t st1, registered st obs root guard tree t st1 ∧
     finish (next_trace_id (runtime st)) root guard tree st1 = (r, st')).
Proof.
  intros Hwf H. unfold attach_existing in H.
  apply st_bind_inv in H as [(obs & s1 & H1 & H)|(e & H1 & ->)];
    unfold st_lift in H1; destruct (read_identity _ _) as [?|?] eqn:Eread;
    simplify_eq/=; [|by left; apply early_exit].
  apply st_bind_inv in H as [(res & s2 & H2 & H)|(e & H2 & ->)];
    destruct (on_registry_inv _ _ _ _ _ (resolve_safe obs _ Hwf) H2)
      as (Ec2 & Er2 & Hwf2 & Hp2 & Hcov).
  2:{ destruct Hcov as [x ->]. left. apply early_exit; [by rewrite Er2|done..]. }
  apply st_bind_inv in H as [(id & s3 & H3 & H)|(e & H3 & ->)];
    destruct (on_runtime_inv _ _ _ _ H3) as (Ec3 & Em3 & q3 & E3 & Eq3);
    injection E3 as <- E3; [|done]. injection Eq3 as ->.
  rewrite Er2 in *.
  apply st_bind_inv in H as [(guard & s4 & H4 & H)|(e & H4 & ->)];
    destruct (on_collector_inv _ _ _ _ H4) as (Em4 & Er4 & [q4|q4] & E4 & Eq4);
    simplify_eq/=.
  2:{ left. apply early_exit; [by rewrite Er4, <-E3|by rewrite Em4, Em3..]. }
  apply st_bind_inv in H as [(tree & s5 & H5 & H)|(e & H5 & ->)];
    unfold st_lift in H5; destruct (snapshot _ _) as [?|?] eqn:Esnap; simplify_eq/=.
  2:{ left. apply early_exit; [by rewrite Er4, <-E3|by rewrite Em4, Em3..]. }
  apply st_bind_inv in H as [(u & s6 & H6 & H)|(e & H6 & ->)];
    destruct (on_runtime_inv _ _ _ _ H6) as (Ec6 & Em6 & [q6|q6] & E6 & Eq6);
    simplify_eq/=.
  2:{ left. apply create_error in E6. apply early_exit;
        [by rewrite E6, Er4, <-E3|by rewrite Em6, Em4, Em3..]. }
  right. destruct (create_entry _ _ _ _ _ _ _ _ E6) as (t & Ert & Hst & Hroot).
  exists obs, (res_identity res), q4, tree, t, s6. split; [|exact H].
  split; rewrite ?Em6, ?Em4, ?Em3; try done.
  - by rewrite Ec6, <-E4, Ec3, Ec2.
  - by rewrite Ert, Er4, <-E3.
Qed.

(** The end of a successful call, in terms of the entry it leaves. *)
Lemma finish_inv st obs root guard tree t st1 r st' :
  let id := next_trace_id (runtime st) in
  registered st obs root guard tree t st1 →
  finish id root guard tree st1 = (r, st') →
  Mgr.wf (process_registry st') ∧
  Mgr.preserved (process_registry st1) (process_registry st') ∧
  ((∃ e, r = Err (Failed e) ∧ runtime st' = runtime st1) ∨
   ∃ live ms partial t', r = Ok (mkBootstrap id root
         (mkTimings (ar_request_received_at request) (ar_capability_checked_at request)
            (gh_activated_at guard) t0 t1 t1) partial) ∧
     poll_events (collector st1) = (Ok live, collector st') ∧
     merged id root (ts_captured_at tree) (process_registry st') (ts_processes tree) ms
       (negb (bool_decide (live_only (merge_identities (Payload:=Payload) tree live) = ∅)))
       partial ∧
     traces (runtime st') = <[id := mkEntry t' (ar_profile_snapshot request)
         (ar_sensor_plan request)
         (MembershipIndex.activate_all (insert_members ms
            {[root := Membership.root id root (ar_request_received_at request)]})) None]>
       (traces (runtime st)) ∧
     next_trace_id (runtime st') = wrapping_add_u64 id 1 ∧
     lifecycle_state t' = Active ∧ started_at (timings t') = Some t1 ∧
     root_process_identity t' = root).
Proof.
  intros id [_ _ _ Hwf _ _ Ert Hst Htr] H. unfold finish in H.
  apply st_bind_inv in H as [(live & s2 & H2 & H)|(e & H2 & ->)];
    destruct (on_collector_inv _ _ _ _ H2) as (Em2 & Er2 & [q2|q2] & E2 & Eq2);
    try discriminate Eq2; injection Eq2 as ->.
  2:{ rewrite Em2. splits; [done|reflexivity|left; eauto]. }
  rewrite <-Em2 in Hwf.
  apply st_bind_inv in H as [(mg & s3 & H3 & H)|(e & H3 & ->)];
    destruct (on_registry_inv _ _ _ _ _ (merge_snapshot_safe id root tree q2 _ Hwf) H3)
      as (Ec3 & Er3 & Hwf3 & Hp3 & Hm); rewrite Em2 in Hp3.
  2:{ destruct Hm as [x ->]. splits; [done|done|left]. rewrite Er3, Er2. eauto. }
  assert (traces (runtime s3) !! id = Some (mkEntry t (ar_profile_snapshot request)
    (ar_sensor_plan request)
    {[root := Membership.root id root (ar_request_received_at request)]} None)) as He3
    by (rewrite Er3, Er2, Ert; apply lookup_insert_eq).
  apply st_bind_inv in H as [(u4 & s4 & H4 & H)|(e & H4 & ->)];
    destruct (on_runtime_inv _ _ _ _ H4) as (Ec4 & Em4 & q4 & E4 & Eq4);
    rewrite (insert_all_entry _ _ _ _ He3) in E4; injection E4 as <- E4;
    [|discriminate Eq4].
  destruct (activate_starting id t1 (runtime s4) (Registry.set_memberships
    (mkEntry t (ar_profile_snapshot request) (ar_sensor_plan request)
       {[root := Membership.root id root (ar_request_received_at request)]} None)
    (insert_members (mr_memberships mg)
       {[root := Membership.root id root (ar_request_received_at request)]})))
    as (t' & Ea & Hact & Hstart & Hr'); [rewrite <-E4; apply lookup_insert_eq|done|].
  apply st_bind_inv in H as [(u5 & s5 & H5 & H)|(e & H5 & ->)];
    destruct (on_runtime_inv _ _ _ _ H5) as (Ec5 & Em5 & q5 & E5 & Eq5);
    rewrite Ea in E5; injection E5 as <- E5; [|discriminate Eq5].
  injection H as <- <-. rewrite Em5, Em4.
  splits; [done|done|]. right. exists q2, (mr_memberships mg), (mr_bootstrap_partial mg), t'.
  splits; try done.
  - by rewrite E2, Ec5, Ec4, Ec3.
  - rewrite <-E5, <-E4, Er3, Er2, Ert. simpl. by rewrite !insert_insert_eq.
  - rewrite <-E5, <-E4, Er3, Er2, Ert. done.
  - by rewrite Hr'.
Qed.
(** The memberships of the trace after the merge: the root keeps its own, and a
    process the merge accounted for has one. *)
Lemma members_root id root captured m ps ms p0 p1 r :
  merged id root captured m ps ms p0 p1 →
  MembershipIndex.activate_all (insert_members ms {[root := r]}) !! root =
    Some (Membership.activate r).
Proof.
  intros Hm. unfold MembershipIndex.activate_all. rewrite lookup_fmap, insert_members_lookup.
  - by rewrite lookup_singleton_eq.
  - intros x Hin. by destruct (mg_sound _ _ _ _ _ _ _ _ Hm _ Hin) as (? & ? & ? & ? & ? & ?
      & ? & ? & ?).
Qed.

Lemma members_merged id root captured m ps ms p0 p1 r p :
  merged id root captured m ps ms p0 p1 → p ∈ ps → is_Some (ps_parent p) ∨ p1 = false →
  ∃ i, covers m (ps_identity p) i ∧
    is_Some (MembershipIndex.activate_all (insert_members ms {[root := r]}) !! i).
Proof.
  intros Hm Hp Hor.
  destruct (mg_complete _ _ _ _ _ _ _ _ Hm _ Hp) as (i & Hci & Hi). exists i. split; [done|].
  destruct Hi as [->|[[Hn Ht]|(mem & Hin & <-)]].
  - rewrite (members_root _ _ _ _ _ _ _ _ _ Hm). eauto.
  - rewrite Hn, Ht in Hor. destruct Hor as [[? ?]|?]; done.
  - unfold MembershipIndex.activate_all. rewrite lookup_fmap, fmap_is_Some.
    by apply insert_members_in.
Qed.

(** C34: A successful attach registers exactly one trace, under the next trace id,
    active since the end of the snapshot and owned by nobody; other traces keep
    their entries.  The root is a member, and the other members are exactly
    descendants found in the snapshot: each is the identity the manager holds for a
    snapshot process, inherited from the identity of that process's parent, and
    every snapshot process with a known parent is a member (or is the root).  The
    manager stays well formed and forgets nothing. *)
Theorem attach_success st res st' :
  Mgr.wf (process_registry st) → attach st = (Ok res, st') →
  let id := next_trace_id (runtime st) in
  let root := br_root_identity res in
  let m' := process_registry st' in
  ∃ obs tree e, read_identity reader (ar_root_pid request) = Ok obs ∧
    snapshot snapshotter obs = Ok tree ∧
    br_trace_id res = id ∧ next_trace_id (runtime st') = wrapping_add_u64 id 1 ∧
    traces (runtime st') = <[id := e]> (traces (runtime st)) ∧
    lifecycle_state (te_trace e) = Active ∧ started_at (timings (te_trace e)) = Some t1 ∧
    root_process_identity (te_trace e) = root ∧ te_owner e = None ∧
    Mgr.wf m' ∧ Mgr.preserved (process_registry st) m' ∧ covers m' obs root ∧
    te_memberships e !! root =
      Some (Membership.activate (Membership.root id root (ar_request_received_at request))) ∧
    (∀ i m, te_memberships e !! i = Some m → i ≠ root →
       ∃ p po par, p ∈ ts_processes tree ∧ ps_parent p = Some po ∧
         covers m' (ps_identity p) i ∧ covers m' po par ∧
         m = Membership.activate (Membership.inherited id i par (ts_captured_at tree))) ∧
    (∀ p, p ∈ ts_processes tree → is_Some (ps_parent p) →
       ∃ i, covers m' (ps_identity p) i ∧ is_Some (te_memberships e !! i)).
Proof.
  intros Hwf H id root m'.
  destruct (attach_inv _ _ _ Hwf H)
    as [(e & [=] & _)|(obs & rt & guard & tree & t & st1 & Hreg & Hfin)].
  destruct (finish_inv _ _ _ _ _ _ _ _ _ Hreg Hfin)
    as (Hwf' & Hp' & [(e & [=] & _)|(live & ms & partial & t' & [= ->] & _ & Hm & Et & En & Ha
                                      & Hs & Hr)]).
  destruct Hreg as [Hread Htree _ _ Hp1 Hc _ _ _].
  subst root. simpl in *.
  exists obs, tree. eexists. splits; try done; simpl.
  - by etrans.
  - by eapply covers_preserved.
  - by eapply members_root.
  - intros i m. unfold MembershipIndex.activate_all. rewrite lookup_fmap, fmap_Some.
    intros (x & Hx & ->) Hne.
    destruct (insert_members_Some _ _ _ _ Hx) as [[Hin <-]|[? _]%lookup_singleton_Some];
      [|done].
    destruct (mg_sound _ _ _ _ _ _ _ _ Hm _ Hin) as (p & po & par & ? & ? & ? & ? & ? & Ex).
    exists p, po, par. splits; try done. by rewrite Ex at 1.
  - intros p Hp Hpo. eapply members_merged; eauto.
Qed.

(** The partial flag is accurate.  When an attach reports a complete
    bootstrap, every process of the snapshot is a member of the trace and every
    process with live events is in the snapshot; when it reports a partial one,
    some live process is missing from the snapshot or some process other than the
    root has no known parent. *)
Theorem attach_partial_flag st res st' :
  Mgr.wf (process_registry st) → attach st = (Ok res, st') →
  let m' := process_registry st' in
  ∃ obs tree live e, read_identity reader (ar_root_pid request) = Ok obs ∧
    snapshot snapshotter obs = Ok tree ∧
    (∃ guard c, install_coverage_guard (mkGuardRequest (br_trace_id res)
                  (br_root_identity res) obs) (collector st) = (Ok guard, c) ∧
                poll_events (Payload:=Payload) c = (Ok live, collector st')) ∧
    traces (runtime st') !! br_trace_id res = Some e ∧
    (br_bootstrap_partial res = false →
       (∀ p, p ∈ ts_processes tree →
          ∃ i, covers m' (ps_identity p) i ∧ is_Some (te_memberships e !! i)) ∧
       (∀ ev, ev ∈ live →
          env_process (ev_envelope ev) ∈ ps_identity <$> ts_processes tree)) ∧
    (br_bootstrap_partial res = true →
       (∃ ev, ev ∈ live ∧
          env_process (ev_envelope ev) ∉ ps_identity <$> ts_processes tree) ∨
       (∃ p i, p ∈ ts_processes tree ∧ ps_parent p = None ∧
          covers m' (ps_identity p) i ∧ i ≠ br_root_identity res)).
Proof.
  intros Hwf H m'.
  destruct (attach_inv _ _ _ Hwf H)
    as [(e & [=] & _)|(obs & rt & guard & tree & t & st1 & Hreg & Hfin)].
  destruct (finish_inv _ _ _ _ _ _ _ _ _ Hreg Hfin)
    as (Hwf' & Hp' & [(e & [=] & _)|(live & ms & partial & t' & [= ->] & Epoll & Hm & Et & _)]).
  destruct Hreg as [Hread Htree Hguard _ _ _ _ _ _].
  pose proof (mg_keeps _ _ _ _ _ _ _ _ Hm) as M3.
  pose proof (mg_reason _ _ _ _ _ _ _ _ Hm) as M4.
  exists obs, tree, live. eexists.
  splits; [done|done|by eauto|by rewrite Et, lookup_insert_eq| |];
    simpl; intros ->.
  - split.
    + intros p Hp. eapply members_merged; eauto.
    + apply live_only_spec. case_bool_decide; [done|]. by discriminate M3.
  - destruct (M4 eq_refl) as [Hlive|Hp]; [left|right; done].
    apply negb_true_iff, bool_decide_eq_false in Hlive.
    destruct (set_choose_L _ Hlive) as [o Ho]. simpl in Ho.
    rewrite elem_of_difference, !elem_of_list_to_set, list_elem_of_fmap in Ho.
    destruct Ho as [(ev & -> & Hev) Hn]. eauto.
Qed.

(** C39: A failed attach never panics (the [expect]s of the merge are
    unreachable), keeps the identity manager well formed without losing a record,
    and leaves the registry either with exactly the traces it had, or with one
    more trace that is still starting, has only its root as member and no owner. *)
Theorem attach_failure st e st' :
  Mgr.wf (process_registry st) → attach st = (Err e, st') →
  e ≠ Panicked ∧ Mgr.wf (process_registry st') ∧
  Mgr.preserved (process_registry st) (process_registry st') ∧
  (nothing_registered st st' ∨ left_starting st st').
Proof.
  intros Hwf H.
  destruct (attach_inv _ _ _ Hwf H)
    as [(x & [= ->] & ? & ? & ?)|(obs & rt & guard & tree & t & st1 & Hreg & Hfin)].
  { splits; auto. }
  destruct (finish_inv _ _ _ _ _ _ _ _ _ Hreg Hfin)
    as (Hwf' & Hp' & [(x & [= ->] & Er)|(live & ms & partial & t' & [=] & _)]).
  destruct Hreg as [_ _ _ _ Hp1 _ Ert Hst Htr].
  splits; [done|done|by etrans|]. right. rewrite <-Htr in Ert.
  eexists. rewrite Er, Ert. splits; [reflexivity|done|done|]. simpl. apply dom_singleton_L.
Qed.
End coordinator.

(** ** A concrete bootstrap *)

(** A collector that counts its calls and reports a fixed batch of events. *)
Definition w_event (o : ProcessObservation) : RawCollectorEvent () :=
  mkRawEvent (mkEnvelope None 0 o "ebpf") ().
Record w_collector_state := mkWc { wc_calls : Z; wc_events : list (RawCollectorEvent ()) }.
#[local] Instance w_collector : CollectorInstance w_collector_state () := {|
  install_coverage_guard := λ _ c,
    (Ok (mkGuardHandle "ebpf" 11), mkWc (wc_calls c + 1) (wc_events c));
  poll_events := λ c,
    if bool_decide (wc_events c = [])
    then (Err (mkCollectorError "poll" "closed"), c)
    else (Ok (wc_events c), mkWc (wc_calls c + 1) []) |}.
#[local] Instance w_reader : ProcessIdentityReader () := {|
  read_identity := λ _ pid, Ok (Observation.host (HostCoordinates.new pid 500)) |}.
Definition w_process (pid : Z) (parent : option Z) : ProcessSnapshot :=
  mkProcessSnapshot (Observation.host (HostCoordinates.new pid 500))
    ((λ p, Observation.host (HostCoordinates.new p 500)) <$> parent) None (Some "/work").
#[local] Instance w_snapshotter : ProcessTreeSnapshotter (list ProcessSnapshot) := {|
  SnapshotError := ();
  snapshot := λ ps root, Ok (mkTree root 13 ps) |}.
Definition w_tree : list ProcessSnapshot :=
  [w_process 100 (Some 1); w_process 101 (Some 100); w_process 102 (Some 101)].
Definition w_attach_request : AttachRequest :=
  mkAttach 100 "agent" (mkProfile "default" 0 [] 1 true true) (mkSensorPlan "default" [] [])
    ∅ 9 10.
Definition w_attach (events : list ProcessObservation) :=
  attach_existing (C:=w_collector_state) (Payload:=()) () w_tree 12 14
    (Ok (replicate 32 zero_byte)) (Ok (replicate 16 zero_byte)) w_attach_request
    (mkState (mkWc 0 (w_event <$> events)) (Mgr.new 1) (Registry.new [] 1)).
Definition w_seen : ProcessObservation := Observation.host (HostCoordinates.new 101 500).
Definition w_done : BootstrapResult :=
  mkBootstrap 1 1 (mkTimings 9 10 11 12 14 14) false.

Lemma w_new_wf : Mgr.wf (Mgr.new 1).
Proof. apply Mgr.new_wf. unfold u64_max. lia. Qed.

Lemma attach_success_witness :
  ∃ e, traces (runtime (w_attach [w_seen]).2) = {[1 := e]} ∧
       lifecycle_state (te_trace e) = Active ∧ is_Some (te_memberships e !! 1).
Proof.
  destruct (attach_success () w_tree 12 14 (Ok (replicate 32 zero_byte))
    (Ok (replicate 16 zero_byte)) w_attach_request
    (mkState (mkWc 0 [w_event w_seen]) (Mgr.new 1) (Registry.new [] 1))
    w_done (w_attach [w_seen]).2 w_new_wf)
    as (obs & tree & e & _ & _ & _ & _ & Ht & Ha & _ & _ & _ & _ & _ & _ & Hr & _).
  - vm_compute. reflexivity.
  - exists e. split; [exact Ht|]. split; [exact Ha|]. exact (ex_intro _ _ Hr).
Defined.

Lemma attach_partial_flag_witness :
  ∃ e, traces (runtime (w_attach [w_seen]).2) !! 1 = Some e.
Proof.
  destruct (attach_partial_flag () w_tree 12 14 (Ok (replicate 32 zero_byte))
    (Ok (replicate 16 zero_byte)) w_attach_request
    (mkState (mkWc 0 [w_event w_seen]) (Mgr.new 1) (Registry.new [] 1))
    w_done (w_attach [w_seen]).2 w_new_wf)
    as (obs & tree & live & e & _ & _ & _ & He & _).
  - vm_compute. reflexivity.
  - exists e. exact He.
Defined.

Lemma attach_failure_witness :
  left_starting (mkState (mkWc 0 []) (Mgr.new 1) (Registry.new [] 1)) (w_attach []).2.
Proof.
  destruct (attach_failure () w_tree 12 14 (Ok (replicate 32 zero_byte))
    (Ok (replicate 16 zero_byte)) w_attach_request
    (mkState (mkWc 0 []) (Mgr.new 1) (Registry.new [] 1))
    (Failed (BootCollector (mkCollectorError "poll" "closed"))) (w_attach []).2 w_new_wf)
    as (_ & _ & _ & [Hn|Hs]).
  - vm_compute. reflexivity.
  - vm_compute in Hn. discriminate Hn.
  - exact Hs.
Defined.
End BootstrapFacts.
