(* ===== verification/Wire.v ===== *)
(** The framing both sandbox links share: contracts/sandbox_link/vsock and
    contracts/sandbox_link/upstream (error.rs, frame.rs, stream.rs).

    The two crates contain the same header codec and the same stream decoder up to
    their constants.  [Protocol] is the interface those constants go through: the
    magic number, the size limit and the frame codes, with the laws the codec relies
    on; [Vsock] and [Upstream] are its instances.  Every theorem here is proved once,
    against the interface.  [usize] is 64 bits wide. *)
From stdpp Require Import prelude gmap strings pretty.
From Stdlib Require Import ZArith Lia.
From coqutil Require Import Byte.
From S2P Require Import Prelude Bytes.

Open Scope Z_scope.

(** * error.rs *)

Record WireError := mkWireError { we_message : string }.
Definition wire_error (message : string) : WireError := mkWireError message.
(** [format!("{n}")] of an unsigned integer. *)
Definition fmt_u (n : Z) : string := pretty n.

(** Reading single bytes and slices of a byte sequence of known length. *)
Definition byte_at (bs : list byte) (i : nat) : byte := default zero_byte (bs !! i).
Definition slice (a b : nat) (bs : list byte) : list byte := take (b - a) (drop a bs).

(** * Frames, generic in the protocol *)

Class Protocol (Code : Type) : Type := {
  p_name : string;
  MAGIC : Z;
  MAX_FRAME_BYTES : Z;
  code_u8 : Code → Z;
  try_from : Z → result WireError Code;
  p_magic : in_u16 MAGIC;
  p_max : 16 ≤ MAX_FRAME_BYTES ≤ u32_max;
  p_code_u8 : ∀ c, in_u8 (code_u8 c);
  p_try_from : ∀ z c, try_from z = Ok c ↔ z = code_u8 c;
}.

Definition VERSION : Z := 1.
Definition HEADER_BYTES : nat := 8.

Record FrameHeader (Code : Type) := mkHeader {
  h_code : Code;
  h_payload_length : Z;
}.
Arguments mkHeader {Code}.
Arguments h_code {Code}.
Arguments h_payload_length {Code}.

Record Frame (Code : Type) := mkFrame {
  f_code : Code;
  f_payload : list byte;
}.
Arguments mkFrame {Code}.
Arguments f_code {Code}.
Arguments f_payload {Code}.

#[export] Instance frame_eq_dec `{EqDecision Code} : EqDecision (Frame Code).
Proof. solve_decision. Defined.

Module Header.
Section header.
Context `{P : Protocol Code}.

(** [FrameHeader::encode]. *)
Definition encode (h : FrameHeader Code) : list byte :=
  u16_be MAGIC ++ [byte.of_Z VERSION] ++ [byte.of_Z (code_u8 (h_code h))]
    ++ u32_be (h_payload_length h).

(** [FrameHeader::decode], of an eight-byte array. *)
Definition decode (bytes : list byte) : result WireError (FrameHeader Code) :=
  let magic := from_be_bytes [byte_at bytes 0; byte_at bytes 1] in
  if negb (magic =? MAGIC)
  then Err (wire_error ("invalid " +:+ p_name +:+ " frame magic"))
  else
    let version := byte.unsigned (byte_at bytes 2) in
    if negb (version =? VERSION)
    then Err (wire_error ("unsupported " +:+ p_name +:+ " protocol version "
                            +:+ fmt_u version))
    else
      code ← try_from (byte.unsigned (byte_at bytes 3));
      let payload_length := from_be_bytes (slice 4 8 bytes) in
      frame_length ← ok_or (wire_error (p_name +:+ " frame length overflow"))
                       (checked_add_u64 (Z.of_nat HEADER_BYTES) payload_length);
      if MAX_FRAME_BYTES <? frame_length
      then Err (wire_error (p_name +:+ " frame length " +:+ fmt_u frame_length
                              +:+ " exceeds " +:+ fmt_u MAX_FRAME_BYTES))
      else Ok (mkHeader code payload_length).
End header.
End Header.

Module FrameOps.
Section frame.
Context `{P : Protocol Code}.

(** [u32::try_from(payload.len())] with its error. *)
Definition payload_length_u32 (payload : list byte) : result WireError Z :=
  if Z.of_nat (length payload) <=? u32_max then Ok (Z.of_nat (length payload))
  else Err (wire_error (p_name +:+ " payload does not fit u32")).

(** [Frame::new]: the header is encoded and decoded again for its checks. *)
Definition new (code : Code) (payload : list byte) : result WireError (Frame Code) :=
  n ← payload_length_u32 payload;
  _ ← Header.decode (Header.encode (mkHeader code n));
  mret (mkFrame code payload).

(** [Frame::numeric_id]. *)
Definition numeric_id (code : Code) (id : Z) : Frame Code := mkFrame code (u32_be id).

(** [Frame::decode_numeric_id]. *)
Definition decode_numeric_id (f : Frame Code) : result WireError Z :=
  if bool_decide (length (f_payload f) = 4%nat) then Ok (from_be_bytes (f_payload f))
  else Err (wire_error "numeric ID payload must contain four bytes").

(** [Frame::encode]. *)
Definition encode (f : Frame Code) : result WireError (list byte) :=
  n ← payload_length_u32 (f_payload f);
  mret (Header.encode (mkHeader (f_code f) n) ++ f_payload f).
End frame.
End FrameOps.

(** * stream.rs *)

Record FrameDecoder := mkDecoder {
  fd_buffer : list byte;
  fd_read_offset : nat;
}.

Module Stream.
Section stream.
Context `{P : Protocol Code}.

(** [FrameDecoder::with_capacity]; the capacity of the buffer is an argument of the
    calls that look at it, since the allocator may round it up. *)
Definition with_capacity : FrameDecoder := mkDecoder [] 0.

(** [compact_if_needed]. *)
Definition compact_if_needed (capacity : nat) (d : FrameDecoder) : FrameDecoder :=
  if bool_decide (fd_read_offset d = 0%nat) then d
  else if bool_decide (fd_read_offset d = length (fd_buffer d)) then mkDecoder [] 0
  else if bool_decide (capacity / 2 ≤ fd_read_offset d)%nat
  then mkDecoder (drop (fd_read_offset d) (fd_buffer d)) 0
  else d.

(** [push]. *)
Definition push (capacity : nat) (bytes : list byte) (d : FrameDecoder) : FrameDecoder :=
  let d1 := compact_if_needed capacity d in
  mkDecoder (fd_buffer d1 ++ bytes) (fd_read_offset d1).

(** [next_frame]; the slice of the unread bytes panics when the offset is past the
    end of the buffer. *)
Definition next_frame : ST FrameDecoder (fault WireError) (option (Frame Code)) := λ d,
  if bool_decide (length (fd_buffer d) < fd_read_offset d)%nat then (Err Panicked, d)
  else
    let available := drop (fd_read_offset d) (fd_buffer d) in
    if bool_decide (length available < HEADER_BYTES)%nat then (Ok None, d)
    else
      match Header.decode (take HEADER_BYTES available) with
      | Err e => (Err (Failed e), d)
      | Ok header =>
          let frame_length := (HEADER_BYTES + Z.to_nat (h_payload_length header))%nat in
          if bool_decide (length available < frame_length)%nat then (Ok None, d)
          else
            (Ok (Some (mkFrame (h_code header) (slice HEADER_BYTES frame_length available))),
             mkDecoder (fd_buffer d) (fd_read_offset d + frame_length))
      end.

(** The clients' loop [while let Some(frame) = decoder.next_frame()?]: the frames
    delivered before it stops, and the error that stopped it, if any. *)
Fixpoint drain_fuel (fuel : nat) (d : FrameDecoder)
    : list (Frame Code) * option (fault WireError) * FrameDecoder :=
  match fuel with
  | O => ([], None, d)
  | S fuel' =>
      match next_frame d with
      | (Err e, d') => ([], Some e, d')
      | (Ok None, d') => ([], None, d')
      | (Ok (Some f), d') =>
          let '(fs, e, d'') := drain_fuel fuel' d' in (f :: fs, e, d'')
      end
  end.
Definition drain (d : FrameDecoder) := drain_fuel (S (length (fd_buffer d))) d.

(** A whole conversation: after each chunk read from the socket, drain. *)
Fixpoint receive (chunks : list (nat * list byte)) (d : FrameDecoder)
    : list (Frame Code) * option (fault WireError) * FrameDecoder :=
  match chunks with
  | [] => ([], None, d)
  | (capacity, bytes) :: chunks' =>
      match drain (push capacity bytes d) with
      | (fs, Some e, d') => (fs, Some e, d')
      | (fs, None, d') =>
          let '(fs', e, d'') := receive chunks' d' in (fs ++ fs', e, d'')
      end
  end.
End stream.
End Stream.

(** * Laws of the frame codec *)

Module WireFacts.
Section facts.
Context `{P : Protocol Code}.
Implicit Types (h : FrameHeader Code) (f : Frame Code) (d : FrameDecoder).

(** A header a frame of this protocol can carry. *)
Definition fits (n : Z) : Prop := 0 ≤ n ∧ Z.of_nat HEADER_BYTES + n ≤ MAX_FRAME_BYTES.
Definition frame_fits f : Prop := fits (Z.of_nat (length (f_payload f))).

Lemma fits_u32 n : fits n → in_u32 n.
Proof. pose proof p_max. unfold fits, in_u32, HEADER_BYTES. lia. Qed.

Lemma byte_of_Z_small z : in_u8 z → byte.unsigned (byte.of_Z z) = z.
Proof.
  unfold in_u8, u8_max. intros. rewrite byte.unsigned_of_Z. apply Z.mod_small. lia.
Qed.

Lemma byte_of_unsigned (b : byte) z : byte.unsigned b = z → byte.of_Z z = b.
Proof. intros <-. apply byte.of_Z_unsigned. Qed.

Lemma header_parts (a l : list byte) v c :
  length a = 2%nat → length l = 4%nat →
  let bs := a ++ [v] ++ [c] ++ l in
  [byte_at bs 0; byte_at bs 1] = a ∧ byte_at bs 2 = v ∧ byte_at bs 3 = c ∧
  slice 4 8 bs = l.
Proof.
  intros Ha Hl. destruct a as [|a0 [|a1 [|]]]; try done.
  destruct l as [|l0 [|l1 [|l2 [|l3 [|]]]]]; done.
Qed.

Lemma header_length h : length (Header.encode h) = HEADER_BYTES.
Proof.
  unfold Header.encode. rewrite !length_app. unfold u16_be, u32_be.
  by rewrite !length_to_be_bytes.
Qed.

Lemma header_encode_inj h1 h2 :
  in_u32 (h_payload_length h1) → in_u32 (h_payload_length h2) →
  Header.encode h1 = Header.encode h2 → h1 = h2.
Proof.
  intros U1 U2 E. destruct h1 as [c1 n1], h2 as [c2 n2]. simpl in *.
  assert (∀ h, byte_at (Header.encode h) 3 = byte.of_Z (code_u8 (h_code h)) ∧
               slice 4 8 (Header.encode h) = u32_be (h_payload_length h)) as Hparts.
  { intros h. destruct (header_parts (u16_be MAGIC) (u32_be (h_payload_length h))
      (byte.of_Z VERSION) (byte.of_Z (code_u8 (h_code h)))) as (_ & _ & ? & ?);
      [apply length_to_be_bytes..|done]. }
  destruct (Hparts (mkHeader c1 n1)) as [C1 L1], (Hparts (mkHeader c2 n2)) as [C2 L2].
  rewrite E in C1, L1. rewrite C1 in C2. rewrite L1 in L2. cbn [h_code h_payload_length] in *.
  apply (f_equal byte.unsigned) in C2. rewrite !byte_of_Z_small in C2 by apply p_code_u8.
  apply (f_equal from_be_bytes) in L2. rewrite !from_u32_be in L2 by done.
  symmetry in C2. apply p_try_from in C2.
  assert (try_from (code_u8 c2) = Ok c2) as E' by (by apply p_try_from). congruence.
Qed.

Lemma header_decode_spec bs h :
  length bs = HEADER_BYTES →
  Header.decode bs = Ok h ↔ bs = Header.encode h ∧ fits (h_payload_length h).
Proof.
  intros Hlen. unfold HEADER_BYTES in Hlen.
  assert (∃ a v c l, bs = a ++ [v] ++ [c] ++ l ∧ length a = 2%nat ∧ length l = 4%nat)
    as (a & v & c & l & -> & Ha & Hl).
  { destruct bs as [|b0 [|b1 [|b2 [|b3 l]]]]; try done.
    exists [b0; b1], b2, b3, l. simpl in *. auto with lia. }
  destruct (header_parts a l v c Ha Hl) as (E0 & E2 & E3 & E4).
  unfold Header.decode. rewrite E0, E2, E3, E4. clear E0 E2 E3 E4.
  pose proof (from_be_bytes_bound l) as Bl. rewrite Hl in Bl. simpl in Bl.
  pose proof p_magic as Pm. pose proof p_max as Px. unfold u32_max in Px.
  assert (length (u16_be MAGIC) = 2%nat) as Lm by apply length_to_be_bytes.
  split.
  - destruct (Z.eqb_spec (from_be_bytes a) MAGIC) as [Em|]; simpl; [|done].
    destruct (Z.eqb_spec (byte.unsigned v) VERSION) as [Ev|]; simpl; [|done].
    munfold. destruct (try_from _) as [code|e] eqn:Ec; [|done].
    apply p_try_from in Ec.
    unfold checked_add_u64. case_decide; [|done].
    destruct (Z.ltb_spec MAX_FRAME_BYTES (Z.of_nat HEADER_BYTES + from_be_bytes l)); [done|].
    intros [= <-]. cbn [h_code h_payload_length]. split; [|split; simpl; lia].
    unfold Header.encode. cbn [h_code h_payload_length].
    rewrite <-Em. unfold u16_be, u32_be.
    rewrite !to_from_be_bytes by done.
    by rewrite (byte_of_unsigned v _ Ev), (byte_of_unsigned c _ Ec).
  - intros [E Hf]. pose proof (fits_u32 _ Hf) as Hu. unfold Header.encode in E.
    apply app_inj_1 in E as [-> E]; [|by rewrite Lm].
    injection E as -> -> ->. rewrite from_u16_be by done. rewrite Z.eqb_refl. cbn [negb].
    rewrite (byte_of_Z_small VERSION), Z.eqb_refl
      by (by unfold in_u8, u8_max, VERSION). cbn [negb].
    rewrite byte_of_Z_small by apply p_code_u8.
    assert (try_from (code_u8 (h_code h)) = Ok (h_code h)) as -> by (by apply p_try_from).
    munfold. rewrite from_u32_be by done. unfold fits in Hf. unfold checked_add_u64.
    destruct (decide _) as [|Hn]; [|unfold u64_max, in_u32, u32_max, HEADER_BYTES in *; lia].
    destruct (Z.ltb_spec MAX_FRAME_BYTES
      (Z.of_nat HEADER_BYTES + h_payload_length h)); [lia|]. by destruct h.
Qed.

Lemma header_roundtrip h :
  fits (h_payload_length h) → Header.decode (Header.encode h) = Ok h.
Proof. intros. apply header_decode_spec; [apply header_length|done]. Qed.

Lemma encode_fits f :
  frame_fits f →
  FrameOps.encode f = Ok (Header.encode (mkHeader (f_code f)
                            (Z.of_nat (length (f_payload f)))) ++ f_payload f).
Proof.
  intros Hf. pose proof (fits_u32 _ Hf) as [_ Hu]. unfold FrameOps.encode,
    FrameOps.payload_length_u32. by destruct (Z.leb_spec (Z.of_nat (length (f_payload f))) u32_max); [|lia].
Qed.

Lemma new_spec code payload f :
  FrameOps.new code payload = Ok f ↔ f = mkFrame code payload ∧ frame_fits f.
Proof.
  unfold FrameOps.new, FrameOps.payload_length_u32. munfold.
  destruct (Z.leb_spec (Z.of_nat (length payload)) u32_max) as [Hl|Hl].
  - destruct (Header.decode _) as [h|e] eqn:E.
    + apply header_decode_spec in E as [E Hf]; [|apply header_length].
      split; [intros [= <-]; split; [done|]|by intros [-> _]].
      unfold frame_fits. simpl.
      assert (h = mkHeader code (Z.of_nat (length payload))) as ->; [|done].
      apply header_encode_inj; [by apply fits_u32|split; simpl; lia|done].
    + split; [done|]. intros [-> Hf]. by rewrite header_roundtrip in E.
  - split; [done|]. intros [-> Hf]. pose proof (fits_u32 _ Hf) as [_ Hu]. simpl in Hu. lia.
Qed.

(** ** The decoder as a queue of unread bytes *)

(** What the decoder has not consumed yet, and its invariant. *)
Definition pending d : list byte := drop (fd_read_offset d) (fd_buffer d).
Definition decoder_ok d : Prop := (fd_read_offset d ≤ length (fd_buffer d))%nat.

(** The abstract decoder: the next frame at the front of a byte queue. *)
Definition next_of (p : list byte)
    : result (fault WireError) (option (Frame Code)) * list byte :=
  if bool_decide (length p < HEADER_BYTES)%nat then (Ok None, p)
  else
    match Header.decode (take HEADER_BYTES p) with
    | Err e => (Err (Failed e), p)
    | Ok h =>
        let n := (HEADER_BYTES + Z.to_nat (h_payload_length h))%nat in
        if bool_decide (length p < n)%nat then (Ok None, p)
        else (Ok (Some (mkFrame (h_code h) (slice HEADER_BYTES n p))), drop n p)
    end.

Lemma compact_refines capacity d :
  decoder_ok d →
  decoder_ok (Stream.compact_if_needed capacity d) ∧
  pending (Stream.compact_if_needed capacity d) = pending d.
Proof.
  unfold decoder_ok, pending, Stream.compact_if_needed. intros Hok.
  repeat case_bool_decide; simpl; split; auto with lia.
  by rewrite drop_ge by lia.
Qed.

Lemma push_refines capacity bytes d :
  decoder_ok d →
  decoder_ok (Stream.push capacity bytes d) ∧
  pending (Stream.push capacity bytes d) = pending d ++ bytes.
Proof.
  intros Hok. destruct (compact_refines capacity d Hok) as [Hok' Hp].
  unfold Stream.push. set (d1 := Stream.compact_if_needed capacity d) in *.
  unfold decoder_ok, pending in *. simpl. rewrite length_app. split; [lia|].
  by rewrite drop_app_le by lia; rewrite Hp.
Qed.

Lemma next_frame_refines d :
  decoder_ok d →
  let '(r, d') := Stream.next_frame d in
  decoder_ok d' ∧ next_of (pending d) = (r, pending d').
Proof.
  intros Hok. unfold Stream.next_frame, next_of, decoder_ok, pending in *.
  rewrite bool_decide_false by lia.
  set (p := drop (fd_read_offset d) (fd_buffer d)).
  assert (length p = length (fd_buffer d) - fd_read_offset d)%nat as Hp by apply length_drop.
  destruct (bool_decide (length p < HEADER_BYTES)%nat); [done|].
  destruct (Header.decode _) as [h|e]; [|done].
  case_bool_decide as Hn; [done|]. cbn [fd_buffer fd_read_offset].
  split; [lia|]. subst p. by rewrite drop_drop.
Qed.

Lemma decode_take_app f rest :
  frame_fits f →
  let n := Z.of_nat (length (f_payload f)) in
  ∀ bytes, FrameOps.encode f = Ok bytes →
  length bytes = (HEADER_BYTES + length (f_payload f))%nat ∧
  Header.decode (take HEADER_BYTES (bytes ++ rest)) = Ok (mkHeader (f_code f) n) ∧
  slice HEADER_BYTES (HEADER_BYTES + length (f_payload f)) (bytes ++ rest) = f_payload f.
Proof.
  intros Hf n bytes. rewrite encode_fits by done. intros <-%Ok_inj. fold n.
  set (hd := Header.encode (mkHeader (f_code f) n)).
  assert (length hd = HEADER_BYTES) as Hl by apply header_length.
  splits.
  - rewrite length_app. lia.
  - rewrite <-app_assoc, take_app_le, take_ge by lia. by apply header_roundtrip.
  - unfold slice. rewrite <-app_assoc, drop_app_ge by lia.
    replace (HEADER_BYTES - length hd)%nat with 0%nat by lia. rewrite drop_0.
    rewrite take_app_le, take_ge; [done|lia..].
Qed.

(** A complete frame at the front is delivered; an incomplete one is waited for. *)
Lemma next_of_frame f bytes rest :
  frame_fits f → FrameOps.encode f = Ok bytes →
  next_of (bytes ++ rest) = (Ok (Some f), rest).
Proof.
  intros Hf He. destruct (decode_take_app f rest Hf bytes He) as (Hl & Hd & Hs).
  unfold next_of. rewrite bool_decide_false by (rewrite length_app; lia).
  rewrite Hd. cbn [h_payload_length h_code]. rewrite Nat2Z.id.
  rewrite bool_decide_false by (rewrite length_app; lia).
  rewrite Hs, drop_app_ge, Hl, Nat.sub_diag, drop_0 by lia. by destruct f.
Qed.

Lemma next_of_prefix f bytes p q :
  frame_fits f → FrameOps.encode f = Ok bytes → bytes = p ++ q → q ≠ [] →
  next_of p = (Ok None, p).
Proof.
  intros Hf He -> Hq. destruct (decode_take_app f [] Hf _ He) as (Hl & Hd & _).
  rewrite app_nil_r in Hd. rewrite length_app in Hl.
  assert (length q ≠ 0%nat) by (by destruct q).
  unfold next_of. case_bool_decide; [done|].
  rewrite take_app_le in Hd by lia. rewrite Hd.
  rewrite bool_decide_true; [done|]. cbn [h_payload_length]. lia.
Qed.

(** Bytes a frame may still be completed from: nothing, or part of a frame. *)
Definition partial (rest : list byte) : Prop :=
  rest = [] ∨ ∃ f q, frame_fits f ∧ q ≠ [] ∧ FrameOps.encode f = Ok (rest ++ q).

Definition encoded f : list byte :=
  match FrameOps.encode f with Ok bytes => bytes | Err _ => [] end.

Lemma encoded_Ok f : frame_fits f → FrameOps.encode f = Ok (encoded f).
Proof. intros Hf. unfold encoded. by rewrite encode_fits. Qed.

Lemma encoded_length f :
  frame_fits f → length (encoded f) = (HEADER_BYTES + length (f_payload f))%nat.
Proof. intros Hf. by apply (decode_take_app f [] Hf _ (encoded_Ok f Hf)). Qed.

Lemma next_of_partial rest p more : partial rest → p ++ more = rest → next_of p = (Ok None, p).
Proof.
  intros [->|(f & q & Hf & Hq & He)] E.
  - apply app_nil in E as [-> _]. done.
  - apply (next_of_prefix f _ p (more ++ q) Hf He); [by rewrite app_assoc, E|].
    destruct more; [done|by simpl].
Qed.

(** One call on a stream of frames: the first frame once all its bytes are there,
    nothing before. *)
Lemma next_frame_cases d fs more rest :
  decoder_ok d → Forall frame_fits fs → partial rest →
  pending d ++ more = concat (encoded <$> fs) ++ rest →
  ∃ r d', Stream.next_frame d = (Ok r, d') ∧ decoder_ok d' ∧
    match r with
    | Some f => ∃ fs', fs = f :: fs' ∧ (length (pending d') < length (pending d))%nat ∧
                       pending d' ++ more = concat (encoded <$> fs') ++ rest
    | None => pending d' = pending d ∧ next_of (pending d) = (Ok None, pending d)
    end.
Proof.
  intros Hok Hfs Hrest E. pose proof (next_frame_refines d Hok) as Hn.
  destruct (Stream.next_frame d) as [r d'] eqn:Ed. destruct Hn as [Hok' Hn].
  assert (next_of (pending d) = (Ok None, pending d) → ∃ r0 d0,
    (r, d') = (Ok r0, d0) ∧ decoder_ok d0 ∧
    match r0 with
    | Some f => ∃ fs', fs = f :: fs' ∧ (length (pending d0) < length (pending d))%nat ∧
                       pending d0 ++ more = concat (encoded <$> fs') ++ rest
    | None => pending d0 = pending d ∧ next_of (pending d) = (Ok None, pending d)
    end) as Hstop.
  { intros Hp. rewrite Hp in Hn. injection Hn as <- Ep. exists None, d'. by rewrite <-Ep. }
  destruct fs as [|f fs]; [by apply Hstop, (next_of_partial rest _ more)|].
  apply Forall_cons in Hfs as [Hf Hfs]. simpl in E. rewrite <-app_assoc in E.
  pose proof (encoded_length f Hf) as Hlen.
  destruct (decide (length (encoded f) ≤ length (pending d))%nat) as [Hge|Hlt].
  - assert (∃ p2, pending d = encoded f ++ p2) as [p2 Ep].
    { exists (drop (length (encoded f)) (pending d)).
      rewrite <-(take_drop (length (encoded f)) (pending d)) at 1. f_equal.
      apply (f_equal (take (length (encoded f)))) in E.
      rewrite take_app_le in E by lia. by rewrite take_app_le, (take_ge (encoded f)) in E by lia. }
    rewrite Ep, <-app_assoc in E. apply app_inv_head in E.
    rewrite Ep, (next_of_frame f _ p2 Hf (encoded_Ok f Hf)) in Hn. injection Hn as <- Ep2.
    exists (Some f), d'. splits; [done|done|]. exists fs.
    unfold HEADER_BYTES in Hlen. rewrite Ep, <-Ep2, length_app. splits; [done|lia|done].
  - apply Hstop.
    apply (next_of_prefix f _ (pending d) (drop (length (pending d)) (encoded f)) Hf
             (encoded_Ok f Hf)).
    + rewrite <-(take_drop (length (pending d)) (encoded f)) at 1. f_equal.
      apply (f_equal (take (length (pending d)))) in E.
      rewrite take_app_le, (take_ge (pending d)) in E by lia.
      by rewrite take_app_le in E by lia.
    + intros Hd%(f_equal length). rewrite length_drop in Hd. simpl in Hd. lia.
Qed.

(** Draining delivers the complete frames and keeps the incomplete tail. *)
Lemma drain_refines fuel d fs more rest :
  decoder_ok d → (length (pending d) < fuel)%nat → Forall frame_fits fs → partial rest →
  pending d ++ more = concat (encoded <$> fs) ++ rest →
  ∃ fs1 fs2 d', Stream.drain_fuel fuel d = (fs1, None, d') ∧ decoder_ok d' ∧
    fs = fs1 ++ fs2 ∧ pending d' ++ more = concat (encoded <$> fs2) ++ rest ∧
    next_of (pending d') = (Ok None, pending d').
Proof.
  revert d fs. induction fuel as [|fuel IH]; intros d fs Hok Hfuel Hfs Hrest E; [lia|].
  destruct (next_frame_cases d fs more rest Hok Hfs Hrest E) as ([f|] & d' & Ed & Hok' & H);
    simpl; rewrite Ed.
  - destruct H as (fs' & -> & Hlt & E'). apply Forall_cons in Hfs as [_ Hfs'].
    destruct (IH d' fs' Hok') as (fs1 & fs2 & d2 & -> & ? & -> & ? & ?); try done; [lia|].
    by exists (f :: fs1), fs2, d2.
  - destruct H as [Ep Hn]. exists [], fs, d'. rewrite Ep. by splits.
Qed.

Lemma receive_refines chunks d fs rest :
  decoder_ok d → next_of (pending d) = (Ok None, pending d) →
  Forall frame_fits fs → partial rest →
  pending d ++ concat chunks.*2 = concat (encoded <$> fs) ++ rest →
  ∃ d', Stream.receive chunks d = (fs, None, d') ∧ decoder_ok d' ∧ pending d' = rest.
Proof.
  revert d fs. induction chunks as [|[cap bytes] chunks IH];
    intros d fs Hok Hnone Hfs Hrest E; simpl in *.
  - rewrite app_nil_r in E. exists d. destruct fs as [|f fs]; [done|].
    apply Forall_cons in Hfs as [Hf _]. simpl in E. rewrite <-app_assoc in E.
    by rewrite E, (next_of_frame f _ _ Hf (encoded_Ok f Hf)) in Hnone.
  - destruct (push_refines cap bytes d Hok) as [Hok1 Hp1].
    rewrite app_assoc, <-Hp1 in E.
    assert (length (pending (Stream.push cap bytes d)) <
            S (length (fd_buffer (Stream.push cap bytes d))))%nat as Hfuel
      by (unfold pending; rewrite length_drop; lia).
    destruct (drain_refines _ _ _ _ _ Hok1 Hfuel Hfs Hrest E)
      as (fs1 & fs2 & d2 & Hd & Hok2 & -> & E2 & Hn2).
    apply Forall_app in Hfs as [_ Hfs2].
    destruct (IH d2 fs2 Hok2 Hn2 Hfs2 Hrest E2) as (d3 & Hr & ? & ?).
    exists d3. unfold Stream.drain. by rewrite Hd, Hr.
Qed.

Lemma next_of_Some p f rest :
  next_of p = (Ok (Some f), rest) → frame_fits f ∧ p = encoded f ++ rest.
Proof.
  unfold next_of. case_bool_decide as Hh; [done|].
  destruct (Header.decode _) as [h|e] eqn:Ed; [|done].
  remember (HEADER_BYTES + Z.to_nat (h_payload_length h))%nat as n eqn:En.
  case_bool_decide as Hn; [done|]. intros [= <- <-].
  apply header_decode_spec in Ed as [Ed Hf]; [|rewrite length_take; lia].
  pose proof Hf as [H0 _].
  assert (length (slice HEADER_BYTES n p) = Z.to_nat (h_payload_length h)) as Hl.
  { unfold slice. rewrite length_take, length_drop. lia. }
  assert (Z.of_nat (length (slice HEADER_BYTES n p)) = h_payload_length h) as Hz by lia.
  assert (frame_fits (mkFrame (h_code h) (slice HEADER_BYTES n p))) as Hff
    by (unfold frame_fits; cbn [f_payload]; by rewrite Hz).
  split; [done|]. unfold encoded. rewrite encode_fits by done. cbn [f_code f_payload].
  rewrite Hz. destruct h as [c len]. cbn [h_code h_payload_length] in *. rewrite <-Ed.
  unfold slice. rewrite <-app_assoc.
  replace (drop n p) with (drop (n - HEADER_BYTES) (drop HEADER_BYTES p))
    by (rewrite drop_drop; f_equal; lia).
  by rewrite take_drop, take_drop.
Qed.

(** C36: Any way the bytes of a sequence of frames are cut into reads, whatever the
    capacities the buffer happens to have: feeding the reads to the decoder and
    draining after each delivers exactly the frames, in order, without error or
    panic, and keeps just the bytes of an incomplete last frame. *)
Theorem stream_delivers_frames (chunks : list (nat * list byte)) (fs : list (Frame Code))
    (rest : list byte) :
  Forall frame_fits fs → partial rest →
  concat chunks.*2 = concat (encoded <$> fs) ++ rest →
  ∃ d', Stream.receive chunks Stream.with_capacity = (fs, None, d') ∧
        decoder_ok d' ∧ pending d' = rest.
Proof. intros Hfs Hr E. apply receive_refines; try done. by unfold decoder_ok. Qed.

(** What the decoder delivers is what was on the wire: in any sound decoder
    state, the unread bytes before [next_frame] are the encoding of the delivered
    frame followed by the unread bytes after it, the frame respects the size limit,
    and building it with [Frame::new] succeeds. *)
Theorem delivered_frame_is_wire (d d' : FrameDecoder) (f : Frame Code) :
  decoder_ok d → Stream.next_frame d = (Ok (Some f), d') →
  ∃ bytes, FrameOps.encode f = Ok bytes ∧ pending d = bytes ++ pending d' ∧
    Z.of_nat (length bytes) ≤ MAX_FRAME_BYTES ∧ decoder_ok d' ∧
    FrameOps.new (f_code f) (f_payload f) = Ok f.
Proof.
  intros Hok H. pose proof (next_frame_refines d Hok) as Hn. rewrite H in Hn.
  destruct Hn as [Hok' [Hf Hp]%(next_of_Some _ _ _)].
  exists (encoded f). splits; [by apply encoded_Ok|done| |done|].
  - rewrite encoded_length by done. destruct Hf. lia.
  - apply new_spec. by destruct f.
Qed.

(** A header the decoder rejects is final: [next_frame] reports the error,
    consumes nothing, and reports the same error again however many bytes arrive
    afterwards; the decoder never panics. *)
Theorem stream_error_is_final (d d' : FrameDecoder) e :
  decoder_ok d → Stream.next_frame d = (Err e, d') →
  d' = d ∧ e ≠ Panicked ∧
  ∀ capacity bytes, ∃ d'', Stream.next_frame (Stream.push capacity bytes d) = (Err e, d'').
Proof.
  intros Hok H. pose proof (next_frame_refines d Hok) as Hn. rewrite H in Hn.
  destruct Hn as [_ Hn].
  assert (d' = d ∧ e ≠ Panicked) as [-> He].
  { unfold Stream.next_frame in H. rewrite bool_decide_false in H
      by (unfold decoder_ok in Hok; lia). repeat case_match; simplify_eq; done. }
  splits; [done|done|]. intros capacity bytes.
  destruct (push_refines capacity bytes d Hok) as [Hok1 Hp1].
  pose proof (next_frame_refines _ Hok1) as Hn1.
  destruct (Stream.next_frame (Stream.push capacity bytes d)) as [r1 d1].
  destruct Hn1 as [_ Hn1]. exists d1. f_equal. rewrite Hp1 in Hn1.
  revert Hn Hn1. unfold next_of. rewrite length_app. case_bool_decide as Hl; [done|].
  rewrite bool_decide_false, take_app_le by lia.
  destruct (Header.decode _) as [h|x]; [by case_bool_decide|]. congruence.
Qed.
End facts.
End WireFacts.
