(* ===== verification/Vsock.v ===== *)
(** The SB-to-gateway wire contract: contracts/sandbox_link/vsock/src/frame.rs, an
    instance of [Protocol], with the capability-carrying welcome frame. *)
From stdpp Require Import prelude gmap strings pretty.
From Stdlib Require Import ZArith Lia.
From coqutil Require Import Byte.
From S2P Require Import Prelude Bytes Wire.

Open Scope Z_scope.

(** * frame.rs *)

Inductive SbFrameCode :=
| SbHello
| SbWelcomeCode
| SbHeartbeat
| ObservationBatchCode.
#[export] Instance sb_code_eq_dec : EqDecision SbFrameCode.
Proof. solve_decision. Defined.

Record SbWelcome := mkSbWelcome {
  sw_sb_id : Z;
  sw_workload_cgroup_observations : bool;
}.

Module Vsock.
Definition MAGIC : Z := 44145.
Definition MAX_FRAME_BYTES : Z := 256 * 1024.
Definition SB_WELCOME_WORKLOAD_CGROUP : Z := Z.shiftl 1 31.
Definition SB_WELCOME_ID_MASK : Z := not_u32 SB_WELCOME_WORKLOAD_CGROUP.

(** The [repr(u8)] discriminants and [TryFrom<u8>]. *)
Definition code_u8 (c : SbFrameCode) : Z :=
  match c with
  | SbHello => 1
  | SbWelcomeCode => 2
  | SbHeartbeat => 3
  | ObservationBatchCode => 16
  end.
Definition try_from (value : Z) : result WireError SbFrameCode :=
  if value =? 1 then Ok SbHello
  else if value =? 2 then Ok SbWelcomeCode
  else if value =? 3 then Ok SbHeartbeat
  else if value =? 16 then Ok ObservationBatchCode
  else Err (wire_error ("unknown SB frame code " +:+ fmt_u value)).

Lemma try_from_spec z c : try_from z = Ok c ↔ z = code_u8 c.
Proof.
  unfold try_from. split; [|intros ->; by destruct c].
  repeat match goal with
  | |- context [z =? ?n] => destruct (Z.eqb_spec z n); [intros [= <-]; done|]
  end. done.
Qed.

Lemma magic_range : in_u16 MAGIC.
Proof. done. Qed.
Lemma max_range : 16 ≤ MAX_FRAME_BYTES ≤ u32_max.
Proof. done. Qed.
Lemma code_u8_range c : in_u8 (code_u8 c).
Proof. by destruct c. Qed.

#[global] Instance protocol : Protocol SbFrameCode := {|
  p_name := "SB";
  Wire.MAGIC := MAGIC;
  Wire.MAX_FRAME_BYTES := MAX_FRAME_BYTES;
  Wire.code_u8 := code_u8;
  Wire.try_from := try_from;
  p_magic := magic_range;
  p_max := max_range;
  p_code_u8 := code_u8_range;
  p_try_from := try_from_spec;
|}.

(** [Frame::sb_welcome]. *)
Definition sb_welcome (sb_id : Z) (workload_cgroup_observations : bool)
    : result WireError (Frame SbFrameCode) :=
  if (sb_id =? 0) || negb (Z.land sb_id (not_u32 SB_WELCOME_ID_MASK) =? 0)
  then Err (wire_error "SB ID must fit the capability-aware welcome payload")
  else
    let encoded := if workload_cgroup_observations
                   then Z.lor sb_id SB_WELCOME_WORKLOAD_CGROUP else sb_id in
    Ok (FrameOps.numeric_id SbWelcomeCode encoded).

(** [Frame::decode_sb_welcome]. *)
Definition decode_sb_welcome (f : Frame SbFrameCode) : result WireError SbWelcome :=
  if negb (bool_decide (f_code f = SbWelcomeCode))
  then Err (wire_error "frame is not an SB welcome")
  else
    encoded ← FrameOps.decode_numeric_id f;
    if Z.land encoded SB_WELCOME_ID_MASK =? 0
    then Err (wire_error "SB welcome contains reserved ID zero")
    else Ok (mkSbWelcome encoded (negb (Z.land encoded SB_WELCOME_WORKLOAD_CGROUP =? 0))).
End Vsock.

(** * Properties *)

Module VsockFacts.
Import Vsock.

Lemma id_mask_ones : SB_WELCOME_ID_MASK = Z.ones 31.
Proof. done. Qed.

Lemma land_high sb_id :
  in_u32 sb_id → Z.land sb_id SB_WELCOME_WORKLOAD_CGROUP =
    if decide (sb_id < 2 ^ 31) then 0 else 2 ^ 31.
Proof.
  unfold in_u32, u32_max. intros H. apply Z.bits_inj'. intros n Hn.
  change SB_WELCOME_WORKLOAD_CGROUP with (2 ^ 31). rewrite Z.land_spec, Z.pow2_bits_eqb by lia.
  destruct (Z.eqb_spec 31 n) as [<-|Hne].
  - rewrite andb_true_r, Z.testbit_eqb by lia. destruct (decide (sb_id < 2 ^ 31)).
    + by rewrite Z.div_small, Z.bits_0 by lia.
    + rewrite Z.pow2_bits_true by lia.
      assert (sb_id / 2 ^ 31 = 1) as -> by (symmetry; apply (Z.div_unique _ _ 1 (sb_id - 2 ^ 31)); lia).
      done.
  - rewrite andb_false_r. destruct (decide _); [by rewrite Z.bits_0|].
    by rewrite Z.pow2_bits_false.
Qed.

Lemma lor_high sb_id :
  0 ≤ sb_id < 2 ^ 31 → Z.lor sb_id SB_WELCOME_WORKLOAD_CGROUP = sb_id + 2 ^ 31.
Proof.
  intros H. change SB_WELCOME_WORKLOAD_CGROUP with (2 ^ 31).
  pose proof (land_high sb_id) as Hl. rewrite decide_True in Hl by lia.
  change SB_WELCOME_WORKLOAD_CGROUP with (2 ^ 31) in Hl.
  assert (in_u32 sb_id) as Hu by (unfold in_u32, u32_max; lia).
  symmetry. rewrite <-Z.lxor_lor, <-Z.add_nocarry_lxor by auto. done.
Qed.

Lemma sb_welcome_eq sb_id cap :
  in_u32 sb_id →
  sb_welcome sb_id cap =
    if decide (1 ≤ sb_id < 2 ^ 31)
    then Ok (FrameOps.numeric_id SbWelcomeCode (sb_id + (if cap then 2 ^ 31 else 0)))
    else Err (wire_error "SB ID must fit the capability-aware welcome payload").
Proof.
  intros Hu. unfold sb_welcome.
  change (not_u32 SB_WELCOME_ID_MASK) with SB_WELCOME_WORKLOAD_CGROUP.
  rewrite (land_high _ Hu). destruct Hu as [H0 H1].
  destruct (decide (1 ≤ sb_id < 2 ^ 31)) as [H|H].
  - rewrite decide_True by lia. destruct (Z.eqb_spec sb_id 0); [lia|]. cbn [orb].
    rewrite Z.eqb_refl. cbn [negb]. destruct cap; [by rewrite lor_high by lia|].
    by rewrite Z.add_0_r.
  - destruct (Z.eqb_spec sb_id 0); [done|]. by rewrite decide_False by lia.
Qed.

(** The welcome handshake.  A welcome exists exactly for the ids [1 .. 2^31-1];
    the agent then decodes the announced capability and an assigned id that is the
    four-byte number a legacy agent reads from the same frame, and different
    (id, capability) pairs are assigned different ids. *)
Theorem sb_welcome_roundtrip sb_id cap :
  in_u32 sb_id →
  (is_ok (sb_welcome sb_id cap) = true ↔ 1 ≤ sb_id < 2 ^ 31) ∧
  ∀ f, sb_welcome sb_id cap = Ok f →
    let assigned := sb_id + (if cap then 2 ^ 31 else 0) in
    decode_sb_welcome f = Ok (mkSbWelcome assigned cap) ∧
    FrameOps.decode_numeric_id f = Ok assigned ∧
    (∀ sb_id' cap', in_u32 sb_id' → sb_welcome sb_id' cap' = Ok f →
       sb_id' = sb_id ∧ cap' = cap).
Proof.
  intros Hu. rewrite sb_welcome_eq by done. split.
  { destruct (decide _) as [H|H]; simpl; [done|split; [done|lia]]. }
  intros f. destruct (decide _) as [H|H]; [|done]. intros <-%Ok_inj assigned.
  assert (in_u32 assigned) as Ha by (subst assigned; unfold in_u32, u32_max; destruct cap; lia).
  assert (FrameOps.decode_numeric_id (FrameOps.numeric_id SbWelcomeCode assigned) = Ok assigned)
    as Hd.
  { unfold FrameOps.decode_numeric_id. cbn [f_payload FrameOps.numeric_id].
    rewrite bool_decide_true by apply length_to_be_bytes. by rewrite from_u32_be. }
  splits; [|done|].
  - unfold decode_sb_welcome. rewrite bool_decide_true by done. cbn [negb]. fold assigned.
    rewrite Hd. munfold. rewrite id_mask_ones, Z.land_ones, land_high by (done || lia).
    assert (assigned mod 2 ^ 31 = sb_id) as ->.
    { subst assigned. destruct cap.
      - rewrite Z.add_mod, Z.mod_same, Z.add_0_r, Z.mod_mod, Z.mod_small; lia.
      - rewrite Z.add_0_r. apply Z.mod_small. lia. }
    destruct (Z.eqb_spec sb_id 0); [lia|]. do 2 f_equal. subst assigned.
    destruct cap; [rewrite decide_False by lia|rewrite decide_True by lia]; done.
  - intros id' cap' Hu'. rewrite sb_welcome_eq by done.
    destruct (decide _) as [H'|]; [|done]. intros E%Ok_inj.
    apply (f_equal (from_be_bytes ∘ f_payload)) in E. unfold compose in E.
    cbn [FrameOps.numeric_id f_payload] in E. fold assigned in E.
    rewrite !from_u32_be in E; [|done|unfold in_u32, u32_max; destruct cap'; lia].
    subst assigned. destruct cap, cap'; (split; [lia|done || lia]).
Qed.

Lemma sb_welcome_roundtrip_witness :
  decode_sb_welcome (FrameOps.numeric_id SbWelcomeCode (17 + 2 ^ 31)) =
    Ok (mkSbWelcome (17 + 2 ^ 31) true).
Proof.
  assert (in_u32 17) as Hu by (by unfold in_u32, u32_max).
  destruct (sb_welcome_roundtrip 17 true Hu) as [_ H].
  apply (H (FrameOps.numeric_id SbWelcomeCode (17 + 2 ^ 31))). vm_compute. reflexivity.
Defined.

(** ** The stream theorems on a concrete conversation *)

Definition w_hello : Frame SbFrameCode := mkFrame SbHello [].
Definition w_id : Frame SbFrameCode := FrameOps.numeric_id SbWelcomeCode 7.
Definition w_bytes : list byte :=
  WireFacts.encoded w_hello ++ WireFacts.encoded w_id ++ take 3 (WireFacts.encoded w_hello).
(** Cut after three bytes, then after eleven, with capacities 0 and 4096. *)
Definition w_chunks : list (nat * list byte) :=
  [(0%nat, take 3 w_bytes); (4096%nat, take 11 (drop 3 w_bytes)); (8%nat, drop 14 w_bytes)].

Lemma stream_delivers_frames_witness :
  ∃ d', Stream.receive w_chunks Stream.with_capacity = ([w_hello; w_id], None, d') ∧
        WireFacts.pending d' = take 3 (WireFacts.encoded w_hello).
Proof.
  destruct (WireFacts.stream_delivers_frames w_chunks [w_hello; w_id]
    (take 3 (WireFacts.encoded w_hello))) as (d' & H1 & _ & H2).
  - repeat constructor; vm_compute; discriminate.
  - right. exists w_hello, (drop 3 (WireFacts.encoded w_hello)).
    split; [split; vm_compute; discriminate|]. split; vm_compute; [discriminate|reflexivity].
  - vm_compute. reflexivity.
  - exists d'. split; [exact H1|exact H2].
Defined.

Lemma delivered_frame_is_wire_witness :
  ∃ bytes, FrameOps.encode w_id = Ok bytes.
Proof.
  destruct (WireFacts.delivered_frame_is_wire (mkDecoder (WireFacts.encoded w_id) 0)
    (mkDecoder (WireFacts.encoded w_id) 12) w_id) as (bytes & H & _).
  - vm_compute. repeat constructor.
  - vm_compute. reflexivity.
  - exists bytes. exact H.
Defined.

Lemma stream_error_is_final_witness :
  ∃ d'', Stream.next_frame (Code:=SbFrameCode)
           (Stream.push 64 (WireFacts.encoded w_hello) (mkDecoder (replicate 8 zero_byte) 0)) =
         (Err (Failed (wire_error "invalid SB frame magic")), d'').
Proof.
  destruct (WireFacts.stream_error_is_final (Code:=SbFrameCode)
    (mkDecoder (replicate 8 zero_byte) 0) (mkDecoder (replicate 8 zero_byte) 0)
    (Failed (wire_error "invalid SB frame magic"))) as (_ & _ & H).
  - vm_compute. repeat constructor.
  - vm_compute. reflexivity.
  - apply H.
Defined.
End VsockFacts.
