(* ===== verification/Upstream.v ===== *)
(** The gateway-to-daemon wire contract: contracts/sandbox_link/upstream/src/frame.rs,
    the other instance of [Protocol], with the capability handshake and the envelope
    that forwards sandbox frames. *)
From stdpp Require Import prelude gmap strings pretty.
From Stdlib Require Import ZArith Lia.
From coqutil Require Import Byte.
From S2P Require Import Prelude Bytes Wire.

Open Scope Z_scope.

Inductive UpFrameCode :=
| GatewayHello
| GatewayWelcomeCode
| UpHeartbeat
| ForwardedSbFrameCode.
#[export] Instance up_code_eq_dec : EqDecision UpFrameCode.
Proof. solve_decision. Defined.

Record GatewayWelcome := mkGatewayWelcome {
  gw_gateway_id : Z;
  gw_workload_cgroup_observations : bool;
}.

Record ForwardedSbFrame := mkForwarded {
  fw_sb_id : Z;
  fw_frame_bytes : list byte;
}.

Module Upstream.
Definition MAGIC : Z := 44146.
Definition MAX_FRAME_BYTES : Z := 272 * 1024.
Definition WORKLOAD_CGROUP_CAPABILITY : Z := 1.

Definition code_u8 (c : UpFrameCode) : Z :=
  match c with
  | GatewayHello => 32
  | GatewayWelcomeCode => 33
  | UpHeartbeat => 34
  | ForwardedSbFrameCode => 48
  end.
Definition try_from (value : Z) : result WireError UpFrameCode :=
  if value =? 32 then Ok GatewayHello
  else if value =? 33 then Ok GatewayWelcomeCode
  else if value =? 34 then Ok UpHeartbeat
  else if value =? 48 then Ok ForwardedSbFrameCode
  else Err (wire_error ("unknown upstream frame code " +:+ fmt_u value)).

Lemma up_try_from_spec z c : try_from z = Ok c ↔ z = code_u8 c.
Proof.
  unfold try_from. split; [|intros ->; by destruct c].
  repeat match goal with
  | |- context [z =? ?n] => destruct (Z.eqb_spec z n); [intros [= <-]; done|]
  end. done.
Qed.
Lemma up_magic_range : in_u16 MAGIC.
Proof. done. Qed.
Lemma up_max_range : 16 ≤ MAX_FRAME_BYTES ≤ u32_max.
Proof. done. Qed.
Lemma up_code_u8_range c : in_u8 (code_u8 c).
Proof. by destruct c. Qed.

#[global] Instance protocol : Protocol UpFrameCode := {|
  p_name := "upstream";
  Wire.MAGIC := MAGIC;
  Wire.MAX_FRAME_BYTES := MAX_FRAME_BYTES;
  Wire.code_u8 := code_u8;
  Wire.try_from := try_from;
  p_magic := up_magic_range;
  p_max := up_max_range;
  p_code_u8 := up_code_u8_range;
  p_try_from := up_try_from_spec;
|}.

(** [Frame::gateway_hello] and [Frame::decode_gateway_hello]. *)
Definition gateway_hello (workload_cgroup_observations : bool) : Frame UpFrameCode :=
  mkFrame GatewayHello
    (if workload_cgroup_observations then u32_be WORKLOAD_CGROUP_CAPABILITY else []).

Definition decode_gateway_hello (f : Frame UpFrameCode) : result WireError bool :=
  if negb (bool_decide (f_code f = GatewayHello))
  then Err (wire_error "frame is not a gateway hello")
  else if bool_decide (f_payload f = []) then Ok false
  else
    flags ← FrameOps.decode_numeric_id f;
    if negb (Z.land flags (not_u32 WORKLOAD_CGROUP_CAPABILITY) =? 0)
    then Err (wire_error "gateway hello contains unknown capabilities")
    else Ok (negb (Z.land flags WORKLOAD_CGROUP_CAPABILITY =? 0)).

(** [Frame::gateway_welcome] and [Frame::decode_gateway_welcome]. *)
Definition gateway_welcome (gateway_id : Z) (workload_cgroup_observations : bool)
    : result WireError (Frame UpFrameCode) :=
  if gateway_id =? 0 then Err (wire_error "gateway ID must be non-zero")
  else FrameOps.new GatewayWelcomeCode
         (u32_be gateway_id ++
          if workload_cgroup_observations then u32_be WORKLOAD_CGROUP_CAPABILITY else []).

Definition decode_gateway_welcome (f : Frame UpFrameCode)
    : result WireError GatewayWelcome :=
  if negb (bool_decide (f_code f = GatewayWelcomeCode))
  then Err (wire_error "frame is not a gateway welcome")
  else
    p ← (if bool_decide (length (f_payload f) = 4%nat) then Ok (take 4 (f_payload f), 0)
         else if bool_decide (length (f_payload f) = 8%nat)
         then Ok (take 4 (f_payload f), from_be_bytes (slice 4 8 (f_payload f)))
         else Err (wire_error "invalid gateway welcome payload length"));
    let '(id_bytes, flags) := p in
    if negb (Z.land flags (not_u32 WORKLOAD_CGROUP_CAPABILITY) =? 0)
    then Err (wire_error "gateway welcome contains unknown capabilities")
    else
      let gateway_id := from_be_bytes id_bytes in
      if gateway_id =? 0
      then Err (wire_error "gateway welcome contains reserved ID zero")
      else Ok (mkGatewayWelcome gateway_id
                 (negb (Z.land flags WORKLOAD_CGROUP_CAPABILITY =? 0))).

(** [ForwardedSbFrame::new], [encode] and [decode]. *)
Definition forwarded_new (sb_id : Z) (frame_bytes : list byte)
    : result WireError ForwardedSbFrame :=
  if sb_id =? 0 then Err (wire_error "SB ID zero is reserved")
  else if bool_decide (frame_bytes = [])
  then Err (wire_error "forwarded SB frame is empty")
  else Ok (mkForwarded sb_id frame_bytes).

Definition forwarded_encode (fw : ForwardedSbFrame) : list byte :=
  u32_be (fw_sb_id fw) ++ fw_frame_bytes fw.

Definition forwarded_decode (payload : list byte) : result WireError ForwardedSbFrame :=
  if bool_decide (length payload ≤ 4)%nat
  then Err (wire_error "forwarded SB payload is truncated")
  else forwarded_new (from_be_bytes (take 4 payload)) (drop 4 payload).
End Upstream.

(** * Properties *)

Module UpstreamFacts.
Import Upstream.

Lemma gateway_welcome_Ok gateway_id cap :
  gateway_id ≠ 0 →
  gateway_welcome gateway_id cap = Ok (mkFrame GatewayWelcomeCode
    (u32_be gateway_id ++ if cap then u32_be WORKLOAD_CGROUP_CAPABILITY else [])).
Proof.
  intros Hne. unfold gateway_welcome. destruct (Z.eqb_spec gateway_id 0); [done|].
  apply WireFacts.new_spec. split; [done|]. unfold WireFacts.frame_fits, WireFacts.fits.
  cbn [f_payload]. rewrite length_app, length_u32_be. by destruct cap.
Qed.

Lemma decode_hello cap : decode_gateway_hello (gateway_hello cap) = Ok cap.
Proof. by destruct cap. Qed.

Lemma decode_welcome gateway_id (cap : bool) :
  in_u32 gateway_id → gateway_id ≠ 0 →
  decode_gateway_welcome (mkFrame GatewayWelcomeCode
    (u32_be gateway_id ++ if cap then u32_be WORKLOAD_CGROUP_CAPABILITY else [])) =
  Ok (mkGatewayWelcome gateway_id cap).
Proof.
  intros Hu Hne. unfold decode_gateway_welcome. cbn [f_code f_payload].
  rewrite bool_decide_true by done. cbn [negb]. rewrite length_app, length_u32_be.
  rewrite take_app_le, take_ge by (rewrite length_u32_be; lia).
  destruct cap; munfold; cbn [length Nat.add app].
  - rewrite length_u32_be, bool_decide_false, bool_decide_true by done.
    assert (slice 4 8 (u32_be gateway_id ++ u32_be WORKLOAD_CGROUP_CAPABILITY) =
      u32_be WORKLOAD_CGROUP_CAPABILITY) as ->.
    { unfold slice. rewrite drop_app_ge by (rewrite length_u32_be; lia). by rewrite length_u32_be. }
    rewrite !from_u32_be by done. simpl. by destruct (Z.eqb_spec gateway_id 0).
  - rewrite bool_decide_true by done. rewrite from_u32_be by done. simpl.
    by destruct (Z.eqb_spec gateway_id 0).
Qed.

(** The gateway handshake.  A hello is decoded as the capability it announces
    (without capabilities it is the empty legacy payload); a welcome exists exactly
    for non-zero gateway ids and is decoded as the id and capability it was built
    from, four bytes long in its legacy form and eight otherwise; and a decoded
    welcome never carries id zero. *)
Theorem gateway_handshake_roundtrip gateway_id cap :
  in_u32 gateway_id →
  decode_gateway_hello (gateway_hello cap) = Ok cap ∧
  (is_ok (gateway_welcome gateway_id cap) = true ↔ gateway_id ≠ 0) ∧
  (∀ f, gateway_welcome gateway_id cap = Ok f →
     decode_gateway_welcome f = Ok (mkGatewayWelcome gateway_id cap) ∧
     length (f_payload f) = (if cap then 8 else 4)%nat) ∧
  (∀ f w, decode_gateway_welcome f = Ok w → gw_gateway_id w ≠ 0).
Proof.
  intros Hu. splits.
  - apply decode_hello.
  - split; [|intros Hne; by rewrite gateway_welcome_Ok].
    unfold gateway_welcome. by destruct (Z.eqb_spec gateway_id 0).
  - intros f. unfold gateway_welcome. destruct (Z.eqb_spec gateway_id 0) as [|Hne]; [done|].
    intros [-> _]%WireFacts.new_spec. split; [by apply decode_welcome|].
    cbn [f_payload]. rewrite length_app, length_u32_be. by destruct cap.
  - intros f w. unfold decode_gateway_welcome. munfold. intros H.
    repeat case_match; simplify_eq/=; try done;
      match goal with H : (?z =? 0) = false |- _ => by apply Z.eqb_neq in H end.
Qed.

Lemma gateway_handshake_roundtrip_witness :
  decode_gateway_hello (gateway_hello true) = Ok true.
Proof. apply (gateway_handshake_roundtrip 7 true). by unfold in_u32, u32_max. Defined.

Lemma forwarded_new_iff fw :
  forwarded_new (fw_sb_id fw) (fw_frame_bytes fw) = Ok fw ↔
  fw_sb_id fw ≠ 0 ∧ fw_frame_bytes fw ≠ [].
Proof.
  unfold forwarded_new. destruct (Z.eqb_spec (fw_sb_id fw) 0); [naive_solver|].
  case_bool_decide; [naive_solver|]. destruct fw. naive_solver.
Qed.

Lemma forwarded_decode_encode fw :
  in_u32 (fw_sb_id fw) → fw_sb_id fw ≠ 0 → fw_frame_bytes fw ≠ [] →
  forwarded_decode (forwarded_encode fw) = Ok fw.
Proof.
  intros Hu Hid Hb. unfold forwarded_decode, forwarded_encode.
  rewrite bool_decide_false by
    (rewrite length_app, length_u32_be; destruct (fw_frame_bytes fw); [done|simpl; lia]).
  rewrite take_app_le, take_ge, drop_app_ge, length_u32_be, from_u32_be
    by (rewrite ?length_u32_be; done || lia). by apply forwarded_new_iff.
Qed.

Lemma forwarded_decode_sound payload fw :
  forwarded_decode payload = Ok fw →
  payload = forwarded_encode fw ∧ in_u32 (fw_sb_id fw) ∧ fw_sb_id fw ≠ 0 ∧ fw_frame_bytes fw ≠ [].
Proof.
  unfold forwarded_decode. case_bool_decide as Hl; [done|]. unfold forwarded_new.
  destruct (Z.eqb_spec (from_be_bytes (take 4 payload)) 0); [done|].
  case_bool_decide; [done|]. intros <-%Ok_inj. cbn [fw_sb_id fw_frame_bytes].
  assert (length (take 4 payload) = 4%nat) as Hlt by (rewrite length_take; lia).
  splits; [|..|done|done].
  - unfold forwarded_encode, u32_be. cbn [fw_sb_id fw_frame_bytes].
    by rewrite to_from_be_bytes, take_drop.
  - pose proof (from_be_bytes_bound (take 4 payload)) as B. rewrite Hlt in B.
    unfold in_u32, u32_max. simpl in B. lia.
Qed.

(** Forwarding envelopes.  Decoding inverts encoding on every envelope that can
    be built, in both directions, and nothing shorter than five bytes or with the
    reserved id zero is accepted. *)
Theorem forwarded_roundtrip payload fw :
  in_u32 (fw_sb_id fw) →
  (forwarded_decode payload = Ok fw ↔
     payload = forwarded_encode fw ∧
     forwarded_new (fw_sb_id fw) (fw_frame_bytes fw) = Ok fw) ∧
  (forwarded_new (fw_sb_id fw) (fw_frame_bytes fw) = Ok fw ↔
     fw_sb_id fw ≠ 0 ∧ fw_frame_bytes fw ≠ []) ∧
  (forwarded_decode payload = Ok fw → (5 ≤ length payload)%nat).
Proof.
  intros Hu. rewrite forwarded_new_iff. splits; [|done|].
  - split; [intros (? & _ & ?)%forwarded_decode_sound; done|].
    intros (-> & ? & ?). by apply forwarded_decode_encode.
  - unfold forwarded_decode. case_bool_decide; [done|lia].
Qed.

Lemma forwarded_roundtrip_witness :
  forwarded_decode (forwarded_encode (mkForwarded 5 [zero_byte])) =
    Ok (mkForwarded 5 [zero_byte]).
Proof.
  apply (forwarded_roundtrip (forwarded_encode (mkForwarded 5 [zero_byte]))
    (mkForwarded 5 [zero_byte])); [by unfold in_u32, u32_max|]. done.
Defined.
End UpstreamFacts.
