(* ===== verification/Utf8.v ===== *)
(** UTF-8 well-formedness, as [std::str::from_utf8] checks it (Unicode, table 3-7):
    shortest forms only, no surrogates, nothing above U+10FFFF. *)
From stdpp Require Import prelude.
From Stdlib Require Import ZArith Lia.
From coqutil Require Import Byte.
From S2P Require Import Prelude Bytes.

Open Scope Z_scope.

Definition between (lo hi : Z) (b : byte) : bool :=
  (lo <=? byte.unsigned b) && (byte.unsigned b <=? hi).
(** A continuation byte. *)
Definition cont : byte → bool := between 128 191.

Fixpoint utf8_valid (bs : list byte) : bool :=
  match bs with
  | [] => true
  | b0 :: r0 =>
      if between 0 127 b0 then utf8_valid r0
      else
        match r0 with
        | [] => false
        | b1 :: r1 =>
            if between 194 223 b0 then cont b1 && utf8_valid r1
            else
              match r1 with
              | [] => false
              | b2 :: r2 =>
                  if between 224 224 b0 then between 160 191 b1 && cont b2 && utf8_valid r2
                  else if between 237 237 b0 then between 128 159 b1 && cont b2 && utf8_valid r2
                  else if between 225 239 b0 then cont b1 && cont b2 && utf8_valid r2
                  else
                    match r2 with
                    | [] => false
                    | b3 :: r3 =>
                        (between 240 240 b0 && between 144 191 b1
                         || between 241 243 b0 && cont b1
                         || between 244 244 b0 && between 128 143 b1)
                        && cont b2 && cont b3 && utf8_valid r3
                    end
              end
        end
  end.

Lemma ascii_utf8_valid bs : Forall (λ b, byte.unsigned b < 128) bs → utf8_valid bs = true.
Proof.
  induction 1 as [|b bs Hb _ IH]; simpl; [done|].
  assert (between 0 127 b = true) as ->; [|done]. unfold between.
  pose proof (byte.unsigned_range b). apply andb_true_intro; split; apply Z.leb_le; lia.
Qed.

(** Valid texts concatenate to valid texts. *)
Lemma utf8_valid_app a b : utf8_valid a = true → utf8_valid b = true → utf8_valid (a ++ b) = true.
Proof.
  intros Ha Hb. remember (length a) as n eqn:En. revert a En Ha.
  induction n as [n IH] using lt_wf_ind. intros a -> Ha.
  assert (∀ r, (length r < length a)%nat → utf8_valid r = true → utf8_valid (r ++ b) = true) as Hr
    by (intros r Hl; by apply (IH (length r))).
  clear IH. destruct a as [|b0 r0]; [done|]. cbn [utf8_valid app] in *.
  destruct (between 0 127 b0); [apply Hr; [cbn; lia|done]|].
  destruct r0 as [|b1 r1]; [done|]. cbn [app] in *.
  destruct (between 194 223 b0).
  { apply andb_true_iff in Ha as [-> Ha]. apply Hr; [cbn; lia|done]. }
  destruct r1 as [|b2 r2]; [done|]. cbn [app] in *.
  destruct (between 224 224 b0).
  { apply andb_true_iff in Ha as [-> Ha]. apply Hr; [cbn; lia|done]. }
  destruct (between 237 237 b0).
  { apply andb_true_iff in Ha as [-> Ha]. apply Hr; [cbn; lia|done]. }
  destruct (between 225 239 b0).
  { apply andb_true_iff in Ha as [-> Ha]. apply Hr; [cbn; lia|done]. }
  destruct r2 as [|b3 r3]; [done|]. cbn [app] in *.
  apply andb_true_iff in Ha as [-> Ha]. apply Hr; [cbn; lia|done].
Qed.
