(* ===== verification/SandboxObservation.v ===== *)
(** Guest-local observations of the hand-side data path: contracts/sandbox_observation
    (process.rs, resource.rs, oom.rs, pressure.rs, workload.rs, observation.rs).

    A fixed array [[u8; N]] is a byte list; [*_wf] says that a value has the array
    lengths and integer ranges its Rust type gives it.  SHA-256 is the [sha2] crate's
    and a parameter. *)
From stdpp Require Import prelude gmap strings.
From Stdlib Require Import ZArith Lia.
From coqutil Require Import Byte.
From S2P Require Import Prelude Bytes.

Open Scope Z_scope.

(** * process.rs, resource.rs, pressure.rs *)

Abbreviation GuestBootId := (list byte) (only parsing).

Record ProcessMarker := mkMarker {
  pm_pid : Z;
  pm_start_time_ticks : Z;
  pm_executable_name : list byte;
}.
#[export] Instance marker_eq_dec : EqDecision ProcessMarker.
Proof. solve_decision. Defined.

Record ProcessIoCounters := mkProcessIo {
  pio_guest_boot_id : GuestBootId;
  pio_process : ProcessMarker;
  pio_sample_started_ms : Z;
  pio_sample_ended_ms : Z;
  pio_read_operations : Z;
  pio_read_bytes : Z;
  pio_write_operations : Z;
  pio_write_bytes : Z;
  pio_failed_read_operations : Z;
  pio_failed_write_operations : Z;
}.

Record CpuSnapshot := mkCpu {
  cpu_total_ticks : Z;
  cpu_idle_ticks : Z;
  cpu_logical_cpu_count : Z;
}.

Record MemorySnapshot := mkMemory {
  mem_total_bytes : Z;
  mem_available_bytes : Z;
  mem_used_bytes : Z;
  mem_oom_kill_count : Z;
}.

Record GuestResourceSnapshot := mkResource {
  gr_guest_boot_id : GuestBootId;
  gr_sampled_at_ms : Z;
  gr_cpu : CpuSnapshot;
  gr_memory : MemorySnapshot;
}.

Record PsiAverages := mkPsi {
  psi_avg10_millipercent : Z;
  psi_avg60_millipercent : Z;
  psi_avg300_millipercent : Z;
}.

Record GuestPressureSnapshot := mkPressure {
  gp_guest_boot_id : GuestBootId;
  gp_sampled_at_ms : Z;
  gp_memory_some : PsiAverages;
  gp_memory_full : PsiAverages;
}.

(** * oom.rs *)

Inductive OomVictimAttribution := OomUnknown | OomMonitored | OomUnmonitored.
#[export] Instance attribution_eq_dec : EqDecision OomVictimAttribution.
Proof. solve_decision. Defined.

Record OomVictimObservation := mkOom {
  oom_guest_boot_id : GuestBootId;
  oom_detected_at_ms : Z;
  oom_victim_pid : Z;
  oom_victim_comm : list byte;
  oom_attribution : OomVictimAttribution;
  oom_monitored_root : option ProcessMarker;
}.

Module Oom.
(** [OomVictimObservation::validate]. *)
Definition validate (o : OomVictimObservation) : result string OomVictimObservation :=
  match oom_attribution o, oom_monitored_root o with
  | OomMonitored, Some _ => Ok o
  | (OomUnknown | OomUnmonitored), None => Ok o
  | _, _ => Err "OOM victim attribution and monitored root disagree"
  end.
End Oom.

(** * workload.rs *)

Inductive WorkloadCgroupIdError := PathTooLong | PathNotCanonical.

Inductive SandboxContainerRuntime :=
| RtUnknown | RtDocker | RtContainerd | RtKubernetesUnknownCri | RtPodman | RtCrio.
#[export] Instance runtime_eq_dec : EqDecision SandboxContainerRuntime.
Proof. solve_decision. Defined.

Module Runtime.
Definition code (r : SandboxContainerRuntime) : Z :=
  match r with
  | RtUnknown => 0 | RtDocker => 1 | RtContainerd => 2
  | RtKubernetesUnknownCri => 3 | RtPodman => 4 | RtCrio => 5
  end.
Definition from_code (code : Z) : option SandboxContainerRuntime :=
  match code with
  | 0 => Some RtUnknown | 1 => Some RtDocker | 2 => Some RtContainerd
  | 3 => Some RtKubernetesUnknownCri | 4 => Some RtPodman | 5 => Some RtCrio
  | _ => None
  end.
End Runtime.

Module WorkloadId.
Definition DOMAIN : list byte := string_bytes "actrail.workload-cgroup.v1" ++ [Byte.x00].
Definition MAX_CANONICAL_PATH_BYTES : Z := 4096.
Definition slash : byte := Byte.x2f.
Definition dot : byte := Byte.x2e.

(** [path.split(|byte| *byte == b'/')]: the pieces between the separators. *)
Fixpoint split_slash (path : list byte) : list (list byte) :=
  match path with
  | [] => [[]]
  | b :: rest =>
      match split_slash rest with
      | piece :: pieces =>
          if bool_decide (b = slash) then [] :: piece :: pieces
          else (b :: piece) :: pieces
      | [] => [[b]]
      end
  end.

Definition bad_component (c : list byte) : bool :=
  bool_decide (c = []) || bool_decide (c = [dot]) || bool_decide (c = [dot; dot]).

(** [validate_canonical_path]. *)
Definition validate_canonical_path (path : list byte) : result WorkloadCgroupIdError () :=
  if MAX_CANONICAL_PATH_BYTES <? Z.of_nat (length path) then Err PathTooLong
  else if negb (bool_decide (head path = Some slash)) then Err PathNotCanonical
  else if existsb bad_component (tail (split_slash path)) then Err PathNotCanonical
  else Ok ().

Section compute.
Context (sha256 : list byte → list byte).

(** The bytes fed to the hasher, in order. *)
Definition preimage (boot : GuestBootId) (mount_id st_dev st_ino : Z) (path : list byte)
    : list byte :=
  DOMAIN ++ boot ++ u64_be mount_id ++ u64_be st_dev ++ u64_be st_ino
    ++ u16_be (Z.of_nat (length path)) ++ path.

(** [WorkloadCgroupId::compute]. *)
Definition compute (boot : GuestBootId) (mount_id st_dev st_ino : Z) (path : list byte)
    : result WorkloadCgroupIdError (list byte) :=
  _ ← validate_canonical_path path;
  if Z.of_nat (length path) <=? u16_max
  then Ok (sha256 (preimage boot mount_id st_dev st_ino path))
  else Err PathTooLong.
End compute.
End WorkloadId.

Module ContainerId.
Definition BYTE_COUNT : nat := 32.
Definition HEX_LENGTH : nat := BYTE_COUNT * 2.

Definition HEX : list byte := string_bytes "0123456789abcdef".

(** [byte.is_ascii_digit() || (b'a'..=b'f').contains(&byte)]. *)
Definition is_lower_hex (b : byte) : bool :=
  let z := byte.unsigned b in ((48 <=? z) && (z <=? 57)) || ((97 <=? z) && (z <=? 102)).

(** [hex_nibble]: [None] is the [unreachable!] arm. *)
Definition hex_nibble (b : byte) : option Z :=
  let z := byte.unsigned b in
  if (48 <=? z) && (z <=? 57) then Some (z - 48)
  else if (97 <=? z) && (z <=? 102) then Some (z - 97 + 10)
  else None.

(** The loop over [chunks_exact(2)]. *)
Fixpoint decode_pairs (raw : list byte) : option (list byte) :=
  match raw with
  | hi :: lo :: rest =>
      h ← hex_nibble hi; l ← hex_nibble lo;
      bytes ← decode_pairs rest;
      Some (byte.of_Z (Z.lor (Z.shiftl h 4) l) :: bytes)
  | _ => Some []
  end.

(** [NormalizedContainerId::from_lower_hex]. *)
Definition from_lower_hex (raw : list byte) : result (fault string) (list byte) :=
  if negb (bool_decide (length raw = HEX_LENGTH)) || negb (forallb is_lower_hex raw)
  then Err (Failed "container ID must be exactly 64 lowercase hexadecimal characters")
  else ok_or Panicked (decode_pairs raw).

(** [NormalizedContainerId::to_lower_hex]. *)
Definition hex_digit (z : Z) : byte := default zero_byte (HEX !! Z.to_nat z).
Definition to_lower_hex (id : list byte) : list byte :=
  mjoin ((λ b, [hex_digit (Z.shiftr (byte.unsigned b) 4);
                hex_digit (Z.land (byte.unsigned b) 15)]) <$> id).
End ContainerId.

Record WorkloadCgroupCounters := mkCounters {
  wc_memory_current_bytes : Z;
  wc_memory_peak_bytes : option Z;
  wc_memory_anon_bytes : option Z;
  wc_memory_file_bytes : option Z;
  wc_memory_swap_current_bytes : option Z;
  wc_memory_low : option Z;
  wc_memory_high : option Z;
  wc_memory_max : option Z;
  wc_memory_oom : option Z;
  wc_memory_oom_kill : option Z;
  wc_memory_oom_group_kill : option Z;
  wc_cpu_usage_usec : option Z;
  wc_cpu_user_usec : option Z;
  wc_cpu_system_usec : option Z;
  wc_cpu_nr_throttled : option Z;
  wc_cpu_throttled_usec : option Z;
  wc_io_read_bytes : option Z;
  wc_io_write_bytes : option Z;
  wc_pids_current : option Z;
  wc_pids_peak : option Z;
}.

Record WorkloadCgroupResourceSnapshot := mkWorkload {
  wl_guest_boot_id : GuestBootId;
  wl_sampled_at_ms : Z;
  wl_workload_id : list byte;
  wl_representative_root : ProcessMarker;
  wl_monitored_root_count : Z;
  wl_runtime : SandboxContainerRuntime;
  wl_container_id : option (list byte);
  wl_counters : WorkloadCgroupCounters;
}.

Module Workload.
(** [WorkloadCgroupResourceSnapshot::validate]. *)
Definition validate (w : WorkloadCgroupResourceSnapshot) : result string () :=
  if wl_monitored_root_count w =? 0
  then Err "workload cgroup monitored root count must be positive"
  else if (pm_pid (wl_representative_root w) =? 0)
          && (pm_start_time_ticks (wl_representative_root w) =? 0)
  then Err "workload cgroup representative root must be a real process"
  else Ok ().
End Workload.

(** * observation.rs *)

Inductive SandboxObservation :=
| ProcessIo (v : ProcessIoCounters)
| GuestResource (v : GuestResourceSnapshot)
| OomVictim (v : OomVictimObservation)
| GuestPressure (v : GuestPressureSnapshot)
| WorkloadCgroup (v : WorkloadCgroupResourceSnapshot).

Record ObservationBatch := mkBatch {
  ob_sequence : Z;
  ob_observations : list SandboxObservation;
}.

(** * Well-typed values *)

Definition u64_opt (o : option Z) : Prop := from_option in_u64 True o.
Definition array (n : nat) (bs : list byte) : Prop := length bs = n.

Definition marker_wf (p : ProcessMarker) : Prop :=
  in_u32 (pm_pid p) ∧ in_u64 (pm_start_time_ticks p) ∧ array 16 (pm_executable_name p).

Definition process_io_wf (v : ProcessIoCounters) : Prop :=
  array 16 (pio_guest_boot_id v) ∧ marker_wf (pio_process v) ∧
  in_u64 (pio_sample_started_ms v) ∧ in_u64 (pio_sample_ended_ms v) ∧
  in_u64 (pio_read_operations v) ∧ in_u64 (pio_read_bytes v) ∧
  in_u64 (pio_write_operations v) ∧ in_u64 (pio_write_bytes v) ∧
  in_u64 (pio_failed_read_operations v) ∧ in_u64 (pio_failed_write_operations v).

Definition resource_wf (v : GuestResourceSnapshot) : Prop :=
  array 16 (gr_guest_boot_id v) ∧ in_u64 (gr_sampled_at_ms v) ∧
  in_u64 (cpu_total_ticks (gr_cpu v)) ∧ in_u64 (cpu_idle_ticks (gr_cpu v)) ∧
  in_u16 (cpu_logical_cpu_count (gr_cpu v)) ∧
  in_u64 (mem_total_bytes (gr_memory v)) ∧ in_u64 (mem_available_bytes (gr_memory v)) ∧
  in_u64 (mem_used_bytes (gr_memory v)) ∧ in_u64 (mem_oom_kill_count (gr_memory v)).

Definition psi_wf (v : PsiAverages) : Prop :=
  in_u32 (psi_avg10_millipercent v) ∧ in_u32 (psi_avg60_millipercent v) ∧
  in_u32 (psi_avg300_millipercent v).

Definition pressure_wf (v : GuestPressureSnapshot) : Prop :=
  array 16 (gp_guest_boot_id v) ∧ in_u64 (gp_sampled_at_ms v) ∧
  psi_wf (gp_memory_some v) ∧ psi_wf (gp_memory_full v).

Definition oom_wf (v : OomVictimObservation) : Prop :=
  array 16 (oom_guest_boot_id v) ∧ in_u64 (oom_detected_at_ms v) ∧
  in_u32 (oom_victim_pid v) ∧ array 16 (oom_victim_comm v) ∧
  from_option marker_wf True (oom_monitored_root v).

Definition workload_wf (v : WorkloadCgroupResourceSnapshot) : Prop :=
  array 16 (wl_guest_boot_id v) ∧ in_u64 (wl_sampled_at_ms v) ∧
  array 32 (wl_workload_id v) ∧ marker_wf (wl_representative_root v) ∧
  in_u32 (wl_monitored_root_count v) ∧
  from_option (array 32) True (wl_container_id v) ∧
  let c := wl_counters v in
  in_u64 (wc_memory_current_bytes c) ∧
  u64_opt (wc_memory_peak_bytes c) ∧ u64_opt (wc_memory_anon_bytes c) ∧
  u64_opt (wc_memory_file_bytes c) ∧ u64_opt (wc_memory_swap_current_bytes c) ∧
  u64_opt (wc_memory_low c) ∧ u64_opt (wc_memory_high c) ∧ u64_opt (wc_memory_max c) ∧
  u64_opt (wc_memory_oom c) ∧ u64_opt (wc_memory_oom_kill c) ∧
  u64_opt (wc_memory_oom_group_kill c) ∧ u64_opt (wc_cpu_usage_usec c) ∧
  u64_opt (wc_cpu_user_usec c) ∧ u64_opt (wc_cpu_system_usec c) ∧
  u64_opt (wc_cpu_nr_throttled c) ∧ u64_opt (wc_cpu_throttled_usec c) ∧
  u64_opt (wc_io_read_bytes c) ∧ u64_opt (wc_io_write_bytes c) ∧
  u64_opt (wc_pids_current c) ∧ u64_opt (wc_pids_peak c).

(** * Container ids: lowercase hexadecimal *)

Module ContainerIdFacts.
Import ContainerId.

Lemma nibbles_of_byte b :
  hex_nibble (hex_digit (Z.shiftr (byte.unsigned b) 4)) = Some (Z.shiftr (byte.unsigned b) 4) ∧
  hex_nibble (hex_digit (Z.land (byte.unsigned b) 15)) = Some (Z.land (byte.unsigned b) 15) ∧
  is_lower_hex (hex_digit (Z.shiftr (byte.unsigned b) 4)) = true ∧
  is_lower_hex (hex_digit (Z.land (byte.unsigned b) 15)) = true ∧
  byte.of_Z (Z.lor (Z.shiftl (Z.shiftr (byte.unsigned b) 4) 4) (Z.land (byte.unsigned b) 15)) = b.
Proof. by destruct b. Qed.

Lemma nibble_of_digit b :
  is_lower_hex b = true →
  ∃ n, (n < 16)%nat ∧ hex_nibble b = Some (Z.of_nat n) ∧ hex_digit (Z.of_nat n) = b.
Proof.
  intros Hb. exists (Z.to_nat (default 0 (hex_nibble b))).
  destruct b; first [discriminate Hb | split; [vm_compute; lia|done]].
Qed.

Lemma byte_of_nibbles h l :
  (h < 16)%nat → (l < 16)%nat →
  let b := byte.unsigned (byte.of_Z (Z.lor (Z.shiftl (Z.of_nat h) 4) (Z.of_nat l))) in
  Z.shiftr b 4 = Z.of_nat h ∧ Z.land b 15 = Z.of_nat l.
Proof.
  intros Hh Hl. do 16 (destruct h as [|h]; [do 16 (destruct l as [|l]; [done|]); lia|]). lia.
Qed.

Lemma to_lower_hex_cons b id :
  to_lower_hex (b :: id) = hex_digit (Z.shiftr (byte.unsigned b) 4)
    :: hex_digit (Z.land (byte.unsigned b) 15) :: to_lower_hex id.
Proof. done. Qed.

Lemma decode_pairs_to_hex id : decode_pairs (to_lower_hex id) = Some id.
Proof.
  induction id as [|b id IH]; [done|]. rewrite to_lower_hex_cons.
  cbn [decode_pairs]. destruct (nibbles_of_byte b) as (-> & -> & _ & _ & Hb). simpl.
  rewrite IH. simpl. by rewrite Hb.
Qed.

Lemma to_hex_lower id : forallb is_lower_hex (to_lower_hex id) = true.
Proof.
  induction id as [|b id IH]; [done|]. rewrite to_lower_hex_cons. cbn [forallb].
  destruct (nibbles_of_byte b) as (_ & _ & -> & -> & _). done.
Qed.

Lemma to_hex_length id : length (to_lower_hex id) = (2 * length id)%nat.
Proof.
  induction id as [|b id IH]; [done|]. rewrite to_lower_hex_cons. simpl. lia.
Qed.

Lemma decode_pairs_spec raw :
  forallb is_lower_hex raw = true → Nat.Even (length raw) →
  ∃ id, decode_pairs raw = Some id ∧ to_lower_hex id = raw.
Proof.
  revert raw. fix IH 1. intros [|hi [|lo raw]] Hx Hev.
  - by exists [].
  - by destruct Hev as [[|k] Hk]; simpl in Hk; lia.
  - simpl in Hx. apply andb_true_iff in Hx as [Hhi Hx].
    apply andb_true_iff in Hx as [Hlo Hx].
    destruct (IH raw Hx) as (id & Hd & Hr).
    { destruct Hev as [k Hk]. exists (k - 1)%nat. simpl in Hk. lia. }
    destruct (nibble_of_digit _ Hhi) as (h & Hh & Eh & Dh).
    destruct (nibble_of_digit _ Hlo) as (l & Hl & El & Dl).
    destruct (byte_of_nibbles h l Hh Hl) as [Bh Bl].
    simpl. rewrite Eh, El, Hd. simpl. eexists. split; [done|].
    by rewrite to_lower_hex_cons, Bh, Bl, Dh, Dl, Hr.
Qed.

Lemma from_lower_hex_spec raw id :
  from_lower_hex raw = Ok id ↔ length id = BYTE_COUNT ∧ raw = to_lower_hex id.
Proof.
  unfold from_lower_hex. split.
  - case_bool_decide as Hl; [|done]. destruct (forallb is_lower_hex raw) eqn:Hx; [|done].
    simpl. destruct (decode_pairs_spec raw Hx) as (id' & -> & Hr).
    { exists 32%nat. by rewrite Hl. }
    intros [= ->]. split; [|done]. rewrite <-Hr, to_hex_length in Hl.
    unfold HEX_LENGTH, BYTE_COUNT in *. lia.
  - intros [Hl ->]. rewrite to_hex_lower, bool_decide_true; simpl.
    + by rewrite decode_pairs_to_hex.
    + rewrite to_hex_length, Hl. done.
Qed.

Lemma from_lower_hex_no_panic raw : from_lower_hex raw ≠ Err Panicked.
Proof.
  unfold from_lower_hex. case_bool_decide as Hl; [|done].
  destruct (forallb is_lower_hex raw) eqn:Hx; [|done]. simpl.
  destruct (decode_pairs_spec raw Hx) as (id' & -> & Hr); [|done].
  exists 32%nat. by rewrite Hl.
Qed.
End ContainerIdFacts.

(** * Workload identities *)

Module WorkloadIdFacts.
Import WorkloadId.

(** Rebuilding a path from its components. *)
Definition join (comps : list (list byte)) : list byte := mjoin ((λ c, slash :: c) <$> comps).
Definition piece (c : list byte) : Prop := slash ∉ c.

(** The canonical paths: one or more components, each non-empty, without a
    separator and neither "." nor "..". *)
Definition canonical (path : list byte) : Prop :=
  ∃ comps, comps ≠ [] ∧ Forall (λ c, piece c ∧ c ≠ [] ∧ c ≠ [dot] ∧ c ≠ [dot; dot]) comps ∧
           path = join comps.

Lemma split_cons b rest :
  ∃ p ps, split_slash rest = p :: ps ∧
    split_slash (b :: rest) =
      if bool_decide (b = slash) then [] :: p :: ps else (b :: p) :: ps.
Proof.
  assert (∃ p ps, split_slash rest = p :: ps) as (p & ps & E).
  { destruct rest as [|c rest]; simpl; [by eauto|].
    destruct (split_slash rest); [by eauto|]. case_bool_decide; eauto. }
  exists p, ps. simpl. by rewrite E.
Qed.

Lemma split_join path :
  ∃ p ps, split_slash path = p :: ps ∧ Forall piece (p :: ps) ∧ path = p ++ join ps.
Proof.
  induction path as [|b path (p & ps & E & Hp & Ep)].
  { exists [], []. splits; [done| |done]. repeat constructor. unfold piece. set_solver. }
  destruct (split_cons b path) as (p' & ps' & E' & ->). rewrite E in E'. injection E' as <- <-.
  case_bool_decide as Hb.
  - exists [], (p :: ps). splits; [done| |].
    + constructor; [unfold piece; set_solver|done].
    + subst b. unfold join in *. simpl. by rewrite Ep at 1.
  - exists (b :: p), ps. apply Forall_cons in Hp as [Hp Hps]. splits; [done| |].
    + constructor; [|done]. unfold piece in *. set_solver.
    + simpl. by rewrite Ep at 1.
Qed.

Lemma split_of_join c comps :
  piece c → Forall piece comps → split_slash (c ++ join comps) = c :: comps.
Proof.
  revert c. induction comps as [|d comps IH].
  - intros c Hc _. unfold join. simpl. rewrite app_nil_r.
    induction c as [|b c IHc]; [done|]. simpl. rewrite IHc by (unfold piece in *; set_solver).
    rewrite bool_decide_false; [done|]. unfold piece in Hc. set_solver.
  - intros c Hc [Hd Hcs]%Forall_cons. unfold join in *. simpl.
    induction c as [|b c IHc].
    + simpl. by rewrite IH.
    + simpl. rewrite IHc by (unfold piece in *; set_solver).
      rewrite bool_decide_false; [done|]. unfold piece in Hc. set_solver.
Qed.

Lemma bad_component_false c :
  bad_component c = false ↔ c ≠ [] ∧ c ≠ [dot] ∧ c ≠ [dot; dot].
Proof. unfold bad_component. rewrite !orb_false_iff, !bool_decide_eq_false. naive_solver. Qed.

Lemma existsb_false {A} (f : A → bool) l : existsb f l = false ↔ Forall (λ x, f x = false) l.
Proof.
  induction l as [|x l IH]; simpl; [by split|].
  rewrite orb_false_iff, Forall_cons, IH. done.
Qed.

Lemma validate_spec path :
  validate_canonical_path path = Ok () ↔
  Z.of_nat (length path) ≤ MAX_CANONICAL_PATH_BYTES ∧ canonical path.
Proof.
  unfold validate_canonical_path.
  destruct (Z.ltb_spec MAX_CANONICAL_PATH_BYTES (Z.of_nat (length path))); [split; [done|lia]|].
  destruct (split_join path) as (p & ps & E & Hp & Ep). rewrite E.
  apply Forall_cons in Hp as [Hp Hps]. case_bool_decide as Hh; simpl.
  - assert (p = []) as ->.
    { destruct p as [|b p]; [done|]. rewrite Ep in Hh. simpl in Hh. injection Hh as ->.
      unfold piece in Hp. set_solver. }
    destruct (existsb bad_component ps) eqn:Eb.
    + split; [done|]. intros [_ (comps & Hne & Hg & Ec)].
      apply not_false_iff_true in Eb. destruct Eb. apply existsb_false.
      assert (split_slash ([] ++ join comps) = [] :: comps) as Es.
      { apply split_of_join; [unfold piece; set_solver|]. eapply Forall_impl; [done|naive_solver]. }
      simpl in Es. rewrite <-Ec, E in Es. injection Es as ->.
      eapply Forall_impl; [done|]. intros c (_ & ?). by apply bad_component_false.
    + split; [|done]. intros _. split; [done|]. apply existsb_false in Eb.
      exists ps. splits; [by intros ->; subst path| |done].
      apply Forall_and. split; [done|]. eapply Forall_impl; [done|].
      intros c. apply bad_component_false.
  - split; [done|]. intros [_ (comps & Hne & _ & ->)]. destruct comps; [done|]. by destruct Hh.
Qed.

(** [WorkloadCgroupId::compute] succeeds exactly on canonical cgroup paths of at
    most 4096 bytes (one or more components, none empty, "." or ".."), and the
    identity separates workloads: two successful calls that yield the same identity
    were given the same boot id, mount id, device, inode and path, unless they
    exhibit a SHA-256 collision. *)
Theorem workload_id_separates (sha256 : list byte → list byte) boot mount dev ino path :
  (is_ok (compute sha256 boot mount dev ino path) = true ↔
     Z.of_nat (length path) ≤ MAX_CANONICAL_PATH_BYTES ∧ canonical path) ∧
  (∀ boot' mount' dev' ino' path' id,
     array 16 boot ∧ array 16 boot' ∧ in_u64 mount ∧ in_u64 mount' ∧ in_u64 dev ∧
     in_u64 dev' ∧ in_u64 ino ∧ in_u64 ino' →
     compute sha256 boot mount dev ino path = Ok id →
     compute sha256 boot' mount' dev' ino' path' = Ok id →
     (boot = boot' ∧ mount = mount' ∧ dev = dev' ∧ ino = ino' ∧ path = path') ∨
     ∃ x y, x ≠ y ∧ sha256 x = sha256 y).
Proof.
  assert (∀ b m d i p, is_ok (compute sha256 b m d i p) = true ↔
    Z.of_nat (length p) ≤ MAX_CANONICAL_PATH_BYTES ∧ canonical p) as Hok.
  { intros. rewrite <-validate_spec. unfold compute. munfold.
    destruct (validate_canonical_path p) as [[]|e] eqn:E; [|by split].
    destruct (Z.leb_spec (Z.of_nat (length p)) u16_max) as [|Hl]; [done|].
    apply validate_spec in E as [E _]. unfold MAX_CANONICAL_PATH_BYTES, u16_max in *. lia. }
  split; [done|].
  assert (∀ b m d i p id, compute sha256 b m d i p = Ok id → id = sha256 (preimage b m d i p)) as Hid.
  { intros b m d i p id. unfold compute. munfold.
    destruct (validate_canonical_path p); [|done]. case_match; [|done]. by intros [= <-]. }
  intros boot' mount' dev' ino' path' id (B & B' & M & M' & D & D' & I & I') H1%Hid H2%Hid.
  destruct (decide (preimage boot mount dev ino path = preimage boot' mount' dev' ino' path'))
    as [E|Hne]; [left|right; do 2 eexists; split; [exact Hne|congruence]].
  unfold preimage in E. apply app_inv_head in E.
  apply app_inj_1 in E as [-> E]; [|unfold array in *; congruence].
  unfold u64_be, u16_be in E.
  do 4 (apply app_inj_1 in E as [?E E]; [|by rewrite !length_to_be_bytes]).
  splits; try done; [apply (f_equal from_be_bytes) in E0|apply (f_equal from_be_bytes) in E1
    |apply (f_equal from_be_bytes) in E2].
  all: by rewrite !from_to_be_bytes in * by (unfold in_u64, u64_max in *; simpl; lia).
Qed.

Lemma workload_id_separates_witness :
  is_ok (compute (λ x, x) (replicate 16 zero_byte) 1 2 3 (string_bytes "/docker/abc")) = true ∧
  ∀ p id, compute (λ x, x) (replicate 16 zero_byte) 1 2 3 (string_bytes "/docker/abc") = Ok id →
    compute (λ x, x) (replicate 16 zero_byte) 1 2 3 p = Ok id → string_bytes "/docker/abc" = p.
Proof.
  destruct (workload_id_separates (λ x, x) (replicate 16 zero_byte) 1 2 3
    (string_bytes "/docker/abc")) as [_ H2].
  split; [vm_compute; reflexivity|]. intros p id E1 E2.
  destruct (H2 (replicate 16 zero_byte) 1 2 3 p id) as [(_ & _ & _ & _ & Ep)|(x & y & Hn & E)].
  - repeat split; vm_compute; congruence.
  - exact E1.
  - exact E2.
  - exact Ep.
  - destruct (Hn E).
Defined.
End WorkloadIdFacts.
