(* ===== verification/BatchCodec.v ===== *)
(** The observation-batch codec of the sandbox link:
    contracts/sandbox_link/vsock/src/batch_codec.rs.

    Encoders build byte lists; decoders run on a [Cursor] (a position in a byte
    slice) in the fallible state monad, so a decoder is the sequence of reads the
    code performs. *)
From stdpp Require Import prelude gmap strings pretty.
From Stdlib Require Import ZArith Lia.
From coqutil Require Import Byte.
From S2P Require Import Prelude Bytes Wire Utf8 SandboxObservation.

Open Scope Z_scope.

(** * The cursor *)

Record Cursor := mkCursor {
  cur_bytes : list byte;
  cur_offset : nat;
}.

Module Cur.
Abbreviation ReadM := (ST Cursor (fault WireError)).

Definition fail {A} (message : string) : ReadM A := st_fail (Failed (wire_error message)).

Definition new (bytes : list byte) : Cursor := mkCursor bytes 0.
(** [remaining]: a saturating subtraction. *)
Definition remaining (c : Cursor) : nat := length (cur_bytes c) - cur_offset c.

(** [take]. *)
Definition take_bytes (n : nat) : ReadM (list byte) := λ c,
  match checked_add_u64 (Z.of_nat (cur_offset c)) (Z.of_nat n) with
  | None => (Err (Failed (wire_error "wire cursor overflow")), c)
  | Some end_ =>
      if end_ <=? Z.of_nat (length (cur_bytes c))
      then (Ok (slice (cur_offset c) (Z.to_nat end_) (cur_bytes c)),
            mkCursor (cur_bytes c) (Z.to_nat end_))
      else (Err (Failed (wire_error "truncated wire payload")), c)
  end.

(** [array::<N>]. *)
Definition array (n : nat) : ReadM (list byte) :=
  bs ← take_bytes n;
  if bool_decide (length bs = n) then mret bs
  else fail "invalid fixed-width wire field".

(** [u8], [u16], [u32], [u64]; [u8] indexes the slice it took. *)
Definition u8 : ReadM Z :=
  bs ← take_bytes 1;
  match bs with
  | b :: _ => mret (byte.unsigned b)
  | [] => st_fail Panicked
  end.
Definition u16 : ReadM Z := bs ← array 2; mret (from_be_bytes bs).
Definition u32 : ReadM Z := bs ← array 4; mret (from_be_bytes bs).
Definition u64 : ReadM Z := bs ← array 8; mret (from_be_bytes bs).

(** A decoder applied to a slice of its own: [Cursor::new(bytes)] and the reads. *)
Definition run {A} (m : ReadM A) (bytes : list byte) : result (fault WireError) A :=
  (m (new bytes)).1.
End Cur.

(** * The codec *)

Module Codec.
Import Cur.

Definition PROCESS_IO_CODE : Z := 1.
Definition RESOURCE_CODE : Z := 2.
Definition OOM_VICTIM_CODE : Z := 3.
Definition PRESSURE_CODE : Z := 4.
Definition WORKLOAD_CGROUP_CODE : Z := 5.
Definition PRESSURE_BYTES : Z := 48.
Definition PROCESS_IO_BYTES : Z := 108.
Definition RESOURCE_BYTES : Z := 74.
Definition OOM_VICTIM_BYTES : Z := 77.
Definition WORKLOAD_CGROUP_BYTES : Z := 320.
Definition MAX_ENCODED_OBSERVATION_BYTES : Z := WORKLOAD_CGROUP_BYTES + 3.
Definition OBSERVATION_BATCH_FIXED_BYTES : Z := 10.

Definition zeros (n : nat) : list byte := replicate n zero_byte.

(** Process markers are written and read inline by several records. *)
Definition encode_marker (p : ProcessMarker) : list byte :=
  u32_be (pm_pid p) ++ u64_be (pm_start_time_ticks p) ++ pm_executable_name p.
Definition decode_marker : ReadM ProcessMarker :=
  pid ← u32; ticks ← u64; name ← array 16; mret (mkMarker pid ticks name).

(** [encode_process_io] and [decode_process_io]. *)
Definition encode_process_io (v : ProcessIoCounters) : list byte :=
  pio_guest_boot_id v ++ encode_marker (pio_process v)
    ++ u64_be (pio_sample_started_ms v) ++ u64_be (pio_sample_ended_ms v)
    ++ u64_be (pio_read_operations v) ++ u64_be (pio_read_bytes v)
    ++ u64_be (pio_write_operations v) ++ u64_be (pio_write_bytes v)
    ++ u64_be (pio_failed_read_operations v) ++ u64_be (pio_failed_write_operations v).
Definition decode_process_io : ReadM ProcessIoCounters :=
  boot ← array 16; process ← decode_marker;
  started ← u64; ended ← u64; rops ← u64; rbytes ← u64; wops ← u64; wbytes ← u64;
  frops ← u64; fwops ← u64;
  mret (mkProcessIo boot process started ended rops rbytes wops wbytes frops fwops).

(** [encode_resource] and [decode_resource]. *)
Definition encode_resource (v : GuestResourceSnapshot) : list byte :=
  gr_guest_boot_id v ++ u64_be (gr_sampled_at_ms v)
    ++ u64_be (cpu_total_ticks (gr_cpu v)) ++ u64_be (cpu_idle_ticks (gr_cpu v))
    ++ u16_be (cpu_logical_cpu_count (gr_cpu v))
    ++ u64_be (mem_total_bytes (gr_memory v)) ++ u64_be (mem_available_bytes (gr_memory v))
    ++ u64_be (mem_used_bytes (gr_memory v)) ++ u64_be (mem_oom_kill_count (gr_memory v)).
Definition decode_resource : ReadM GuestResourceSnapshot :=
  boot ← array 16; sampled ← u64; total ← u64; idle ← u64; cpus ← u16;
  mtotal ← u64; avail ← u64; used ← u64; kills ← u64;
  mret (mkResource boot sampled (mkCpu total idle cpus) (mkMemory mtotal avail used kills)).

(** [encode_pressure] and [decode_pressure]. *)
Definition encode_psi (v : PsiAverages) : list byte :=
  u32_be (psi_avg10_millipercent v) ++ u32_be (psi_avg60_millipercent v)
    ++ u32_be (psi_avg300_millipercent v).
Definition decode_psi : ReadM PsiAverages :=
  a ← u32; b ← u32; c ← u32; mret (mkPsi a b c).
Definition encode_pressure (v : GuestPressureSnapshot) : list byte :=
  gp_guest_boot_id v ++ u64_be (gp_sampled_at_ms v)
    ++ encode_psi (gp_memory_some v) ++ encode_psi (gp_memory_full v).
Definition decode_pressure : ReadM GuestPressureSnapshot :=
  boot ← array 16; sampled ← u64; some ← decode_psi; full ← decode_psi;
  mret (mkPressure boot sampled some full).

(** [encode_oom_victim] and [decode_oom_victim]. *)
Definition zero_marker : ProcessMarker := mkMarker 0 0 (zeros 16).
Definition attribution_code (a : OomVictimAttribution) : Z :=
  match a with OomUnknown => 0 | OomMonitored => 1 | OomUnmonitored => 2 end.
Definition encode_oom_victim (v : OomVictimObservation) : list byte :=
  oom_guest_boot_id v ++ u64_be (oom_detected_at_ms v) ++ u32_be (oom_victim_pid v)
    ++ oom_victim_comm v ++ u8_be (attribution_code (oom_attribution v))
    ++ encode_marker (default zero_marker (oom_monitored_root v)) ++ zeros 4.
Definition decode_attribution : ReadM OomVictimAttribution :=
  code ← u8;
  match code with
  | 0 => mret OomUnknown
  | 1 => mret OomMonitored
  | 2 => mret OomUnmonitored
  | _ => fail "invalid OOM victim attribution"
  end.
Definition decode_oom_victim : ReadM OomVictimObservation :=
  boot ← array 16; detected ← u64; pid ← u32; comm ← array 16;
  attribution ← decode_attribution;
  root ← decode_marker;
  reserved ← array 4;
  if negb (bool_decide (reserved = zeros 4))
  then fail "non-zero OOM victim reserved bytes"
  else
    let monitored_root :=
      if negb (pm_pid root =? 0) || negb (pm_start_time_ticks root =? 0)
         || negb (bool_decide (pm_executable_name root = zeros 16))
      then Some root else None in
    st_lift (map_err (λ e, Failed (wire_error e))
               (Oom.validate (mkOom boot detected pid comm attribution monitored_root))).

(** [workload_cgroup_slots]. *)
Definition workload_cgroup_slots (c : WorkloadCgroupCounters) : list (option Z) :=
  [wc_memory_peak_bytes c; wc_memory_anon_bytes c; wc_memory_file_bytes c;
   wc_memory_swap_current_bytes c; wc_memory_low c; wc_memory_high c; wc_memory_max c;
   wc_memory_oom c; wc_memory_oom_kill c; wc_memory_oom_group_kill c;
   wc_cpu_usage_usec c; wc_cpu_user_usec c; wc_cpu_system_usec c; wc_cpu_nr_throttled c;
   wc_cpu_throttled_usec c; wc_io_read_bytes c; wc_io_write_bytes c; wc_pids_current c;
   wc_pids_peak c].

(** [presence_bitmap]: the loop over the enumerated slots. *)
Fixpoint presence_from (index : nat) (slots : list (option Z)) (bitmap : Z) : Z :=
  match slots with
  | [] => bitmap
  | slot :: rest =>
      presence_from (S index) rest
        (if bool_decide (is_Some slot) then Z.lor bitmap (Z.shiftl 1 (Z.of_nat index))
         else bitmap)
  end.
Definition presence_bitmap (slots : list (option Z)) : Z := presence_from 0 slots 0.

(** [encode_workload_cgroup]. *)
Definition encode_workload_cgroup (v : WorkloadCgroupResourceSnapshot) : list byte :=
  let slots := workload_cgroup_slots (wl_counters v) in
  u8_be 1 ++ u8_be (Runtime.code (wl_runtime v))
    ++ u8_be (match wl_container_id v with
              | Some _ => Z.of_nat ContainerId.HEX_LENGTH | None => 0 end)
    ++ u8_be 0 ++ u32_be (presence_bitmap slots)
    ++ wl_guest_boot_id v ++ u64_be (wl_sampled_at_ms v) ++ wl_workload_id v
    ++ u32_be (pm_pid (wl_representative_root v)) ++ u32_be (wl_monitored_root_count v)
    ++ u64_be (pm_start_time_ticks (wl_representative_root v))
    ++ pm_executable_name (wl_representative_root v)
    ++ match wl_container_id v with
       | Some id => ContainerId.to_lower_hex id
       | None => zeros 64
       end
    ++ u64_be (wc_memory_current_bytes (wl_counters v))
    ++ mjoin ((λ slot, u64_be (default 0 slot)) <$> slots).

(** The loop over the 19 slots in [decode_workload_cgroup]. *)
Fixpoint decode_slots (presence : Z) (index count : nat) : ReadM (list (option Z)) :=
  match count with
  | O => mret []
  | S count' =>
      value ← u64;
      let slot := if negb (Z.land presence (Z.shiftl 1 (Z.of_nat index)) =? 0)
                  then Some value else None in
      rest ← decode_slots presence (S index) count';
      mret (slot :: rest)
  end.

(** [slots[i]] for the nineteen counters. *)
Definition counters_of (current : Z) (slots : list (option Z)) : WorkloadCgroupCounters :=
  let s i := default None (slots !! i) in
  mkCounters current (s 0%nat) (s 1%nat) (s 2%nat) (s 3%nat) (s 4%nat) (s 5%nat) (s 6%nat)
    (s 7%nat) (s 8%nat) (s 9%nat) (s 10%nat) (s 11%nat) (s 12%nat) (s 13%nat) (s 14%nat)
    (s 15%nat) (s 16%nat) (s 17%nat) (s 18%nat).

(** The container id field: all zero, or 64 hexadecimal characters. *)
Definition decode_container (bytes : list byte) : result (fault WireError) (option (list byte)) :=
  if forallb (λ b, bool_decide (b = zero_byte)) bytes then Ok None
  else if negb (utf8_valid bytes)
  then Err (Failed (wire_error "workload cgroup container ID is not UTF-8"))
  else match ContainerId.from_lower_hex bytes with
       | Ok id => Ok (Some id)
       | Err Panicked => Err Panicked
       | Err (Failed e) => Err (Failed (wire_error e))
       end.

(** [decode_workload_cgroup]. *)
Definition decode_workload_cgroup : ReadM WorkloadCgroupResourceSnapshot :=
  version ← u8;
  if negb (version =? 1) then fail "invalid workload cgroup payload version" else
  code ← u8;
  runtime ← st_lift (ok_or (Failed (wire_error "invalid workload cgroup runtime code"))
                       (Runtime.from_code code));
  container_id_length ← u8;
  if negb (container_id_length =? 0)
     && negb (container_id_length =? Z.of_nat ContainerId.HEX_LENGTH)
  then fail "invalid workload cgroup container ID length" else
  reserved ← u8;
  if negb (reserved =? 0) then fail "non-zero workload cgroup reserved byte" else
  presence ← u32;
  if negb (Z.shiftr presence 19 =? 0)
  then fail "workload cgroup presence bits exceed 19 slots" else
  boot ← array 16;
  sampled ← u64;
  workload ← array 32;
  pid ← u32;
  count ← u32;
  ticks ← u64;
  name ← array 16;
  container_bytes ← array 64;
  container ← st_lift (decode_container container_bytes);
  if negb (Bool.eqb (container_id_length =? 0) (bool_decide (container = None)))
  then fail "workload cgroup container ID length does not match payload" else
  current ← u64;
  slots ← decode_slots presence 0 19;
  let snapshot := mkWorkload boot sampled workload (mkMarker pid ticks name) count runtime
                    container (counters_of current slots) in
  _ ← st_lift (map_err (λ e, Failed (wire_error e)) (Workload.validate snapshot));
  mret snapshot.

(** One observation with its code and length. *)
Definition tlv (code length : Z) (body : list byte) : list byte :=
  u8_be code ++ u16_be length ++ body.
Definition encode_observation (o : SandboxObservation) : list byte :=
  match o with
  | ProcessIo v => tlv PROCESS_IO_CODE PROCESS_IO_BYTES (encode_process_io v)
  | GuestResource v => tlv RESOURCE_CODE RESOURCE_BYTES (encode_resource v)
  | OomVictim v => tlv OOM_VICTIM_CODE OOM_VICTIM_BYTES (encode_oom_victim v)
  | GuestPressure v => tlv PRESSURE_CODE PRESSURE_BYTES (encode_pressure v)
  | WorkloadCgroup v => tlv WORKLOAD_CGROUP_CODE WORKLOAD_CGROUP_BYTES (encode_workload_cgroup v)
  end.

(** [usize::checked_mul]. *)
Definition checked_mul_u64 (a b : Z) : option Z :=
  if decide (a * b ≤ u64_max) then Some (a * b) else None.

(** [ObservationBatchCodec::encode]. *)
Definition encode (batch : ObservationBatch) : result WireError (list byte) :=
  let len := Z.of_nat (length (ob_observations batch)) in
  if u16_max <? len then Err (wire_error "observation batch count exceeds u16")
  else
    _ ← ok_or (wire_error "observation batch size overflow")
          (size ← checked_mul_u64 len MAX_ENCODED_OBSERVATION_BYTES;
           checked_add_u64 size OBSERVATION_BATCH_FIXED_BYTES);
    Ok (u64_be (ob_sequence batch) ++ u16_be len
          ++ mjoin (encode_observation <$> ob_observations batch)).

(** The [match code] of the decoding loop: a known code with its exact length. *)
Definition decode_body (code length : Z) (body : list byte)
    : result (fault WireError) SandboxObservation :=
  if (code =? PROCESS_IO_CODE) && (length =? PROCESS_IO_BYTES)
  then ProcessIo <$> run decode_process_io body
  else if (code =? RESOURCE_CODE) && (length =? RESOURCE_BYTES)
  then GuestResource <$> run decode_resource body
  else if (code =? OOM_VICTIM_CODE) && (length =? OOM_VICTIM_BYTES)
  then OomVictim <$> run decode_oom_victim body
  else if (code =? PRESSURE_CODE) && (length =? PRESSURE_BYTES)
  then GuestPressure <$> run decode_pressure body
  else if (code =? WORKLOAD_CGROUP_CODE) && (length =? WORKLOAD_CGROUP_BYTES)
  then WorkloadCgroup <$> run decode_workload_cgroup body
  else if (code =? PROCESS_IO_CODE) || (code =? RESOURCE_CODE) || (code =? OOM_VICTIM_CODE)
          || (code =? PRESSURE_CODE) || (code =? WORKLOAD_CGROUP_CODE)
  then Err (Failed (wire_error ("invalid observation body length " +:+ fmt_u length
                                  +:+ " for code " +:+ fmt_u code)))
  else Err (Failed (wire_error ("unknown observation code " +:+ fmt_u code))).

(** The body of the loop, and the loop over [0..count]. *)
Definition decode_observation : ReadM SandboxObservation :=
  code ← u8; len ← u16;
  body ← take_bytes (Z.to_nat len);
  st_lift (decode_body code len body).
Fixpoint decode_observations (count : nat) : ReadM (list SandboxObservation) :=
  match count with
  | O => mret []
  | S count' => o ← decode_observation; os ← decode_observations count'; mret (o :: os)
  end.

(** [ObservationBatchCodec::decode]. *)
Definition decode_batch : ReadM ObservationBatch :=
  sequence ← u64; count ← u16;
  observations ← decode_observations (Z.to_nat count);
  c ← st_get;
  if negb (bool_decide (remaining c = 0%nat))
  then fail "trailing bytes in observation batch"
  else mret (mkBatch sequence observations).
Definition decode (bytes : list byte) : result (fault WireError) ObservationBatch :=
  run decode_batch bytes.
End Codec.

(** * Reading back what was written *)

Module CodecFacts.
Import Cur Codec.

(** The cursor stands before the bytes [rest]. *)
Definition at_ (c : Cursor) (rest : list byte) : Prop :=
  (cur_offset c ≤ length (cur_bytes c))%nat ∧ drop (cur_offset c) (cur_bytes c) = rest ∧
  Z.of_nat (length (cur_bytes c)) ≤ u64_max.

(** [m] consumes exactly the bytes [bs] and returns [v], whatever follows. *)
Definition reads {E A} (m : ST Cursor (fault E) A) (bs : list byte) (v : A) : Prop :=
  ∀ c rest, at_ c (bs ++ rest) → ∃ c', m c = (Ok v, c') ∧ at_ c' rest.

Create HintDb reads.

Lemma reads_ret {E A} (v : A) : reads (E:=E) (mret v) [] v.
Proof. intros c rest H. by exists c. Qed.

Lemma reads_bind {E A B} (m : ST Cursor (fault E) A) (k : A → ST Cursor (fault E) B) bs1 bs2 v w :
  reads m bs1 v → reads (k v) bs2 w → reads (m ≫= k) (bs1 ++ bs2) w.
Proof.
  intros Hm Hk c rest Hc. rewrite <-app_assoc in Hc.
  destruct (Hm c _ Hc) as (c1 & E1 & H1). destruct (Hk c1 _ H1) as (c2 & E2 & H2).
  exists c2. split; [|done]. munfold. by rewrite E1.
Qed.

(** The last read of a decoder, and pure checks. *)
Lemma reads_last {E A B} (m : ST Cursor (fault E) A) (k : A → ST Cursor (fault E) B) bs v w :
  reads m bs v → reads (k v) [] w → reads (m ≫= k) bs w.
Proof. intros Hm Hk. rewrite <-(app_nil_r bs). by eapply reads_bind. Qed.
Lemma reads_lift {E A B} (r : result (fault E) A) (k : A → ST Cursor (fault E) B) v bs w :
  r = Ok v → reads (k v) bs w → reads (st_lift r ≫= k) bs w.
Proof. intros -> Hk. apply Hk. Qed.

Lemma reads_check {E A} (b : bool) (err m : ST Cursor (fault E) A) bs v :
  b = false → reads m bs v → reads (if b then err else m) bs v.
Proof. by intros ->. Qed.

(** Where a cursor that takes [bs] finds them, and where it then stands. *)
Lemma taken c bs rest :
  at_ c (bs ++ rest) →
  let stop := Z.of_nat (cur_offset c) + Z.of_nat (length bs) in
  checked_add_u64 (Z.of_nat (cur_offset c)) (Z.of_nat (length bs)) = Some stop ∧
  stop ≤ Z.of_nat (length (cur_bytes c)) ∧ slice (cur_offset c) (Z.to_nat stop) (cur_bytes c) = bs ∧
  at_ (mkCursor (cur_bytes c) (Z.to_nat stop)) rest.
Proof.
  intros (Ho & Hd & Hl). cbn zeta.
  assert (length (cur_bytes c) = cur_offset c + (length bs + length rest))%nat as Hlen.
  { rewrite <-length_app, <-Hd, length_drop. lia. }
  replace (Z.to_nat _) with (cur_offset c + length bs)%nat by lia. splits.
  - unfold checked_add_u64. by rewrite decide_True by lia.
  - lia.
  - unfold slice. rewrite Hd. replace (_ - _)%nat with (length bs) by lia. by rewrite take_app_length.
  - unfold at_. cbn [cur_bytes cur_offset]. splits; [lia| |done].
    by rewrite <-drop_drop, Hd, drop_app_length.
Qed.
Lemma reads_take bs : reads (take_bytes (length bs)) bs bs.
Proof.
  intros c rest (Ha & Hle & Hs & Hat)%taken. unfold take_bytes. rewrite Ha.
  destruct (Z.leb_spec (Z.of_nat (cur_offset c) + Z.of_nat (length bs)) (Z.of_nat (length (cur_bytes c)))); [|lia].
  rewrite Hs. eauto.
Qed.

Lemma reads_array n bs : SandboxObservation.array n bs → reads (array n) bs bs.
Proof.
  intros <-. eapply reads_last; [apply reads_take|].
  rewrite bool_decide_true by done. apply reads_ret.
Qed.

Lemma reads_u8 z : in_u8 z → reads u8 (u8_be z) z.
Proof.
  intros Hz. assert (u8_be z = [byte.of_Z z]) as -> by done.
  eapply reads_last; [apply (reads_take [byte.of_Z z])|]. simpl.
  rewrite WireFacts.byte_of_Z_small by done. apply reads_ret.
Qed.
Lemma reads_u16 z : in_u16 z → reads u16 (u16_be z) z.
Proof.
  intros Hz. eapply reads_last; [apply reads_array, length_to_be_bytes|].
  rewrite from_u16_be by done. apply reads_ret.
Qed.
Lemma reads_u32 z : in_u32 z → reads u32 (u32_be z) z.
Proof.
  intros Hz. eapply reads_last; [apply reads_array, length_to_be_bytes|].
  rewrite from_u32_be by done. apply reads_ret.
Qed.
Lemma reads_u64 z : in_u64 z → reads u64 (u64_be z) z.
Proof.
  intros Hz. eapply reads_last; [apply reads_array, length_to_be_bytes|].
  rewrite from_u64_be by done. apply reads_ret.
Qed.
#[local] Hint Resolve reads_ret reads_u8 reads_u16 reads_u32 reads_u64 reads_array : reads.

#[local] Opaque u8_be u16_be u32_be u64_be.

(** Follow a decoder read by read. *)
Ltac reads_step :=
  first [ eapply reads_bind; [solve [eauto 2 with reads]|]
        | eapply reads_last; [solve [eauto 2 with reads]|] ].
Ltac read_all := repeat reads_step; try (by apply reads_ret).

Lemma reads_marker p : marker_wf p → reads decode_marker (encode_marker p) p.
Proof.
  intros (? & ? & ?). unfold decode_marker, encode_marker. destruct p. simpl in *. read_all.
Qed.
#[local] Hint Resolve reads_marker : reads.

Lemma reads_process_io v :
  process_io_wf v → reads decode_process_io (encode_process_io v) v.
Proof.
  intros H. unfold process_io_wf in H. destruct_and! H.
  unfold decode_process_io, encode_process_io. destruct v. simpl in *. read_all.
Qed.

Lemma reads_resource v : resource_wf v → reads decode_resource (encode_resource v) v.
Proof.
  intros H. unfold resource_wf in H. destruct_and! H.
  unfold decode_resource, encode_resource. destruct v as [boot at' [] []]. simpl in *. read_all.
Qed.

Lemma reads_psi v : psi_wf v → reads decode_psi (encode_psi v) v.
Proof. intros (? & ? & ?). destruct v. unfold decode_psi, encode_psi. simpl in *. read_all. Qed.
#[local] Hint Resolve reads_psi : reads.

Lemma reads_pressure v : pressure_wf v → reads decode_pressure (encode_pressure v) v.
Proof.
  intros (? & ? & ? & ?). destruct v. unfold decode_pressure, encode_pressure. simpl in *.
  read_all.
Qed.

(** ** OOM victims *)

Definition oom_ok (v : OomVictimObservation) : Prop :=
  oom_wf v ∧ Oom.validate v = Ok v ∧ oom_monitored_root v ≠ Some zero_marker.

Lemma reads_attribution a : reads decode_attribution (u8_be (attribution_code a)) a.
Proof.
  unfold decode_attribution. eapply reads_last; [apply reads_u8; by destruct a|].
  destruct a; apply reads_ret.
Qed.
#[local] Hint Resolve reads_attribution : reads.

Lemma zero_marker_wf : marker_wf zero_marker.
Proof. by repeat split. Qed.

Lemma reads_oom v : oom_ok v → reads decode_oom_victim (encode_oom_victim v) v.
Proof.
  intros ((? & ? & ? & ? & Hroot) & Hv & Hz).
  unfold decode_oom_victim, encode_oom_victim.
  assert (marker_wf (default zero_marker (oom_monitored_root v))) as Hm
    by (destruct (oom_monitored_root v); [done|apply zero_marker_wf]).
  do 5 reads_step.
  eapply reads_bind; [by apply reads_marker|].
  eapply reads_last; [apply reads_array; apply length_replicate|].
  rewrite bool_decide_true by done. cbn [negb].
  assert ((if negb (pm_pid (default zero_marker (oom_monitored_root v)) =? 0)
      || negb (pm_start_time_ticks (default zero_marker (oom_monitored_root v)) =? 0)
      || negb (bool_decide (pm_executable_name (default zero_marker (oom_monitored_root v)) = zeros 16))
    then Some (default zero_marker (oom_monitored_root v)) else None) = oom_monitored_root v)
    as ->.
  { destruct (oom_monitored_root v) as [r|]; [|done]. simpl.
    destruct (Z.eqb_spec (pm_pid r) 0); [|done].
    destruct (Z.eqb_spec (pm_start_time_ticks r) 0); [|done]. case_bool_decide; [|done].
    destruct Hz. destruct r. simpl in *. by subst. }
  assert (mkOom (oom_guest_boot_id v) (oom_detected_at_ms v) (oom_victim_pid v)
    (oom_victim_comm v) (oom_attribution v) (oom_monitored_root v) = v) as -> by (by destruct v).
  rewrite Hv. apply reads_ret.
Qed.

(** ** Workload cgroups: the presence bitmap and the slots *)

Lemma presence_from_bit slots index bitmap j :
  0 ≤ j →
  Z.testbit (presence_from index slots bitmap) j =
    Z.testbit bitmap j ||
    (bool_decide (Z.of_nat index ≤ j) &&
     bool_decide (is_Some (default None (slots !! Z.to_nat (j - Z.of_nat index))))).
Proof.
  intros Hj. revert index bitmap. induction slots as [|slot slots IH]; intros index bitmap;
    cbn [presence_from].
  - rewrite lookup_nil. simpl. by rewrite andb_false_r, orb_false_r.
  - rewrite IH. clear IH. destruct (decide (j = Z.of_nat index)) as [->|Hne].
    + rewrite Z.sub_diag.
      rewrite (bool_decide_true (Z.of_nat index ≤ Z.of_nat index)),
        (bool_decide_false (Z.of_nat (S index) ≤ _)) by lia.
      change (default None ((slot :: slots) !! Z.to_nat 0)) with slot. cbn [andb].
      rewrite orb_false_r. case_bool_decide; [|by rewrite orb_false_r].
      rewrite Z.lor_spec, Z.shiftl_1_l, Z.pow2_bits_true by lia. by rewrite !orb_true_r.
    + assert (Z.testbit (if bool_decide (is_Some slot)
              then Z.lor bitmap (Z.shiftl 1 (Z.of_nat index)) else bitmap) j
              = Z.testbit bitmap j) as ->.
      { case_bool_decide; [|done]. rewrite Z.lor_spec, Z.shiftl_1_l, Z.pow2_bits_false by lia.
        apply orb_false_r. }
      f_equal. destruct (decide (Z.of_nat index < j)).
      * rewrite (bool_decide_true (Z.of_nat (S index) ≤ j)),
          (bool_decide_true (Z.of_nat index ≤ j)) by lia.
        by replace (Z.to_nat (j - Z.of_nat index)) with (S (Z.to_nat (j - Z.of_nat (S index))))
          by lia.
      * by rewrite (bool_decide_false (Z.of_nat (S index) ≤ j)),
          (bool_decide_false (Z.of_nat index ≤ j)) by lia.
Qed.

Lemma presence_bit slots i :
  Z.testbit (presence_bitmap slots) (Z.of_nat i) =
    bool_decide (is_Some (default None (slots !! i))).
Proof.
  unfold presence_bitmap. rewrite presence_from_bit, Z.bits_0 by lia.
  rewrite bool_decide_true by lia. simpl. by rewrite Z.sub_0_r, Nat2Z.id.
Qed.

Lemma presence_bound slots :
  length slots = 19%nat → 0 ≤ presence_bitmap slots ∧ Z.shiftr (presence_bitmap slots) 19 = 0.
Proof.
  intros Hl. assert (0 ≤ presence_bitmap slots) as H0.
  { unfold presence_bitmap. generalize 0%nat. clear Hl.
    assert (∀ b i, 0 ≤ b → 0 ≤ presence_from i slots b) as H; [|by intros; apply H].
    induction slots as [|s slots IH]; intros b i Hb; simpl; [done|].
    apply IH. case_bool_decide; [|done]. apply Z.lor_nonneg. split; [done|].
    apply Z.shiftl_nonneg. lia. }
  split; [done|]. apply Z.bits_inj'. intros n Hn. rewrite Z.shiftr_spec, Z.bits_0 by done.
  replace (n + 19) with (Z.of_nat (Z.to_nat (n + 19))) by lia.
  rewrite presence_bit, bool_decide_false; [done|].
  rewrite lookup_ge_None_2 by lia. by intros [? ?].
Qed.

Lemma presence_u32 slots : length slots = 19%nat → in_u32 (presence_bitmap slots).
Proof.
  intros Hl. destruct (presence_bound slots Hl) as [H0 H].
  rewrite Z.shiftr_div_pow2 in H by lia. unfold in_u32, u32_max. split; [done|].
  pose proof (Z.div_mod (presence_bitmap slots) (2 ^ 19)).
  pose proof (Z.mod_pos_bound (presence_bitmap slots) (2 ^ 19)). lia.
Qed.

Lemma reads_slots presence slots index :
  (∀ i, (i < length slots)%nat → Z.testbit presence (Z.of_nat (index + i)) =
     bool_decide (is_Some (default None (slots !! i)))) →
  Forall u64_opt slots →
  reads (decode_slots presence index (length slots))
    (mjoin ((λ slot, u64_be (default 0 slot)) <$> slots)) slots.
Proof.
  revert index. induction slots as [|slot slots IH]; intros index Hp Hs; [apply reads_ret|].
  apply Forall_cons in Hs as [Hs Hss].
  cbn [decode_slots length fmap list_fmap mjoin list_join].
  eapply reads_bind; [apply reads_u64; by destruct slot|].
  eapply reads_last.
  - apply IH; [|done]. intros i Hi. specialize (Hp (S i)). simpl in Hp.
    rewrite <-Hp by lia. do 2 f_equal. lia.
  - rewrite land_bit, negb_involutive by lia.
    specialize (Hp 0%nat). rewrite Nat.add_0_r in Hp. rewrite Hp by (simpl; lia). simpl.
    destruct slot; [rewrite bool_decide_true by eauto|rewrite bool_decide_false by (by intros [? ?])];
      apply reads_ret.
Qed.

Definition workload_ok (v : WorkloadCgroupResourceSnapshot) : Prop :=
  workload_wf v ∧ Workload.validate v = Ok ().

Lemma lower_hex_ascii b :
  ContainerId.is_lower_hex b = true → byte.unsigned b < 128 ∧ b ≠ zero_byte.
Proof. by destruct b. Qed.

Lemma decode_container_hex id :
  SandboxObservation.array 32 id →
  decode_container (ContainerId.to_lower_hex id) = Ok (Some id).
Proof.
  intros Hl. unfold decode_container.
  pose proof (ContainerIdFacts.to_hex_lower id) as Hh.
  apply Is_true_true, forallb_True in Hh.
  assert (Forall (λ b, byte.unsigned b < 128 ∧ b ≠ zero_byte) (ContainerId.to_lower_hex id)) as Hf.
  { eapply Forall_impl; [done|]. intros b Hb. apply lower_hex_ascii. by apply Is_true_true. }
  rewrite ascii_utf8_valid by (eapply Forall_impl; [done|naive_solver]).
  assert (ContainerId.from_lower_hex (ContainerId.to_lower_hex id) = Ok id) as ->
    by (by apply ContainerIdFacts.from_lower_hex_spec).
  destruct id as [|b id]; [done|]. rewrite ContainerIdFacts.to_lower_hex_cons in *.
  apply Forall_cons in Hf as [[_ Hne] _]. cbn [forallb].
  by rewrite bool_decide_false.
Qed.

Lemma counters_of_slots c : counters_of (wc_memory_current_bytes c) (workload_cgroup_slots c) = c.
Proof. by destruct c. Qed.

Lemma container_field v :
  from_option (SandboxObservation.array 32) True (wl_container_id v) →
  let bytes := match wl_container_id v with
               | Some id => ContainerId.to_lower_hex id | None => zeros 64 end in
  SandboxObservation.array 64 bytes ∧ decode_container bytes = Ok (wl_container_id v).
Proof.
  intros H. destruct (wl_container_id v) as [id|]; simpl in *; [|done].
  split; [|by apply decode_container_hex]. unfold SandboxObservation.array in *.
  rewrite ContainerIdFacts.to_hex_length. lia.
Qed.

Lemma reads_workload v :
  workload_ok v → reads decode_workload_cgroup (encode_workload_cgroup v) v.
Proof.
  intros [Hwf Hv]. unfold workload_wf in Hwf.
  destruct Hwf as (Hboot & Hat & Hid & Hm & Hcount & Hcont & Hcur & Hslots).
  destruct Hm as (Hpid & Hticks & Hname).
  destruct (container_field v Hcont) as [Hcl Hcd].
  assert (Forall u64_opt (workload_cgroup_slots (wl_counters v))) as Hs.
  { unfold workload_cgroup_slots. destruct_and! Hslots. repeat (constructor; [done|]). done. }
  destruct (presence_bound (workload_cgroup_slots (wl_counters v)) eq_refl) as [_ Hp].
  unfold decode_workload_cgroup, encode_workload_cgroup.
  eapply reads_bind; [by apply reads_u8|]. apply reads_check; [done|].
  eapply reads_bind; [apply reads_u8; by destruct (wl_runtime v)|].
  eapply (reads_lift _ _ (wl_runtime v)); [by destruct (wl_runtime v)|].
  eapply reads_bind; [apply reads_u8; by destruct (wl_container_id v)|].
  apply reads_check; [by destruct (wl_container_id v)|].
  eapply reads_bind; [by apply reads_u8|]. apply reads_check; [done|].
  eapply reads_bind; [by apply reads_u32, presence_u32|].
  apply reads_check; [by rewrite Hp|].
  do 8 (eapply reads_bind; [solve [eauto 2 with reads]|]).
  eapply reads_lift; [exact Hcd|].
  apply reads_check; [by destruct (wl_container_id v)|].
  eapply reads_bind; [by apply reads_u64|].
  eapply reads_last; [apply (reads_slots _ (workload_cgroup_slots (wl_counters v))); [|done]|].
  { intros j _. apply presence_bit. }
  rewrite counters_of_slots.
  assert (mkWorkload (wl_guest_boot_id v) (wl_sampled_at_ms v) (wl_workload_id v)
    (mkMarker (pm_pid (wl_representative_root v)) (pm_start_time_ticks (wl_representative_root v))
      (pm_executable_name (wl_representative_root v))) (wl_monitored_root_count v) (wl_runtime v)
    (wl_container_id v) (wl_counters v) = v) as -> by (by destruct v as [? ? ? []]).
  rewrite Hv. eapply reads_lift; [done|]. apply reads_ret.
Qed.

(** ** Observations and batches *)

Definition observation_ok (o : SandboxObservation) : Prop :=
  match o with
  | ProcessIo v => process_io_wf v
  | GuestResource v => resource_wf v
  | OomVictim v => oom_ok v
  | GuestPressure v => pressure_wf v
  | WorkloadCgroup v => workload_ok v
  end.
Definition batch_ok (b : ObservationBatch) : Prop :=
  in_u64 (ob_sequence b) ∧ Z.of_nat (length (ob_observations b)) ≤ u16_max ∧
  Forall observation_ok (ob_observations b).

Definition body_length (o : SandboxObservation) : nat :=
  match o with
  | ProcessIo _ => 108 | GuestResource _ => 74 | OomVictim _ => 77
  | GuestPressure _ => 48 | WorkloadCgroup _ => 320
  end.
Definition body (o : SandboxObservation) : list byte :=
  match o with
  | ProcessIo v => encode_process_io v
  | GuestResource v => encode_resource v
  | OomVictim v => encode_oom_victim v
  | GuestPressure v => encode_pressure v
  | WorkloadCgroup v => encode_workload_cgroup v
  end.
Definition code_of (o : SandboxObservation) : Z :=
  match o with
  | ProcessIo _ => 1 | GuestResource _ => 2 | OomVictim _ => 3
  | GuestPressure _ => 4 | WorkloadCgroup _ => 5
  end.

Lemma encode_observation_eq o :
  encode_observation o = tlv (code_of o) (Z.of_nat (body_length o)) (body o).
Proof. by destruct o. Qed.

Lemma marker_length p : marker_wf p → length (encode_marker p) = 28%nat.
Proof.
  intros (_ & _ & H). unfold encode_marker. unfold SandboxObservation.array in H.
  autorewrite with lengths. by rewrite H.
Qed.
Lemma slots_length slots :
  length (mjoin ((λ slot, u64_be (default 0 slot)) <$> slots)) = (8 * length slots)%nat.
Proof.
  induction slots as [|s slots IH]; [done|].
  rewrite fmap_cons, mjoin_cons. autorewrite with lengths. rewrite IH. simpl. lia.
Qed.

(** The declared lengths are the lengths written. *)
Lemma body_length_ok o : observation_ok o → length (body o) = body_length o.
Proof.
  destruct o as [v|v|v|v|v]; simpl; intros H.
  - destruct H as (Hb & Hm & _). unfold encode_process_io. unfold SandboxObservation.array in Hb.
    autorewrite with lengths. by rewrite Hb, marker_length.
  - destruct H as (Hb & _). unfold encode_resource. unfold SandboxObservation.array in Hb.
    autorewrite with lengths. by rewrite Hb.
  - destruct H as ((Hb & _ & _ & Hc & Hr) & _). unfold encode_oom_victim, zeros.
    unfold SandboxObservation.array in *.
    autorewrite with lengths. rewrite Hb, Hc, marker_length; [done|].
    destruct (oom_monitored_root v); [done|apply zero_marker_wf].
  - destruct H as (Hb & _). unfold encode_pressure, encode_psi.
    unfold SandboxObservation.array in Hb.
    autorewrite with lengths. by rewrite Hb.
  - destruct H as [H _]. unfold workload_wf in H.
    destruct H as (Hb & _ & Hi & (_ & _ & Hn) & _ & Hc & _).
    destruct (container_field v Hc) as [Hcl _]. unfold encode_workload_cgroup.
    unfold SandboxObservation.array in *.
    autorewrite with lengths. by rewrite Hb, Hi, Hn, Hcl, slots_length.
Qed.

Lemma reads_run {A} (m : ReadM A) bs v :
  reads m bs v → Z.of_nat (length bs) ≤ u64_max → run m bs = Ok v.
Proof.
  intros Hm Hl. destruct (Hm (new bs) []) as (c' & E & _).
  - unfold at_, new. cbn [cur_bytes cur_offset]. rewrite app_nil_r, drop_0. auto with lia.
  - unfold run. by rewrite E.
Qed.

Lemma decode_body_ok o :
  observation_ok o → decode_body (code_of o) (Z.of_nat (body_length o)) (body o) = Ok o.
Proof.
  intros Ho. pose proof (body_length_ok o Ho) as Hl.
  assert (Z.of_nat (length (body o)) ≤ u64_max) as Hu
    by (rewrite Hl; by destruct o).
  destruct o as [v|v|v|v|v]; unfold decode_body; simpl in *.
  - by rewrite (reads_run _ _ v (reads_process_io v Ho) Hu).
  - by rewrite (reads_run _ _ v (reads_resource v Ho) Hu).
  - by rewrite (reads_run _ _ v (reads_oom v Ho) Hu).
  - by rewrite (reads_run _ _ v (reads_pressure v Ho) Hu).
  - by rewrite (reads_run _ _ v (reads_workload v Ho) Hu).
Qed.

Lemma reads_observation o : observation_ok o → reads decode_observation (encode_observation o) o.
Proof.
  intros Ho. rewrite encode_observation_eq. unfold decode_observation, tlv.
  eapply reads_bind; [apply reads_u8; by destruct o|].
  eapply reads_bind; [apply reads_u16; by destruct o|].
  eapply reads_last.
  - rewrite Nat2Z.id, <-(body_length_ok o Ho). apply reads_take.
  - rewrite decode_body_ok by done. apply reads_ret.
Qed.

Lemma reads_observations os :
  Forall observation_ok os →
  reads (decode_observations (length os)) (mjoin (encode_observation <$> os)) os.
Proof.
  induction 1 as [|o os Ho _ IH]; [apply reads_ret|].
  cbn [decode_observations length fmap list_fmap mjoin list_join].
  eapply reads_bind; [by apply reads_observation|].
  eapply reads_last; [exact IH|]. apply reads_ret.
Qed.

Lemma observations_length os :
  Forall observation_ok os →
  length (mjoin (encode_observation <$> os)) = sum_list_with (λ o, 3 + body_length o)%nat os.
Proof.
  induction 1 as [|o os Ho _ IH]; [done|].
  rewrite fmap_cons, mjoin_cons, length_app, IH, encode_observation_eq. unfold tlv.
  autorewrite with lengths. rewrite body_length_ok by done. simpl. lia.
Qed.

(** The size of an encoded batch is bounded by what [encode] reserves. *)
Lemma observations_bound os :
  (sum_list_with (λ o, 3 + body_length o)%nat os ≤ 323 * length os)%nat.
Proof.
  induction os as [|o os IH]; cbn [sum_list_with length]; [lia|].
  assert (body_length o ≤ 320)%nat by (destruct o; cbn [body_length]; lia). lia.
Qed.

Lemma encode_Ok b :
  batch_ok b →
  encode b = Ok (u64_be (ob_sequence b) ++ u16_be (Z.of_nat (length (ob_observations b)))
                   ++ mjoin (encode_observation <$> ob_observations b)).
Proof.
  intros (_ & Hl & _). unfold encode.
  destruct (Z.ltb_spec u16_max (Z.of_nat (length (ob_observations b)))); [lia|].
  unfold checked_mul_u64, checked_add_u64, MAX_ENCODED_OBSERVATION_BYTES,
    WORKLOAD_CGROUP_BYTES, OBSERVATION_BATCH_FIXED_BYTES, u16_max, u64_max in *.
  rewrite decide_True by lia. cbn [mbind option_bind]. by rewrite decide_True by lia.
Qed.

Lemma decode_encode b bytes : batch_ok b → encode b = Ok bytes → decode bytes = Ok b.
Proof.
  intros Hb. rewrite encode_Ok by done. intros <-%Ok_inj.
  destruct Hb as (Hs & Hl & Hos).
  set (os := ob_observations b) in *.
  set (bytes := u64_be (ob_sequence b) ++ u16_be (Z.of_nat (length os))
                  ++ mjoin (encode_observation <$> os)).
  assert (Z.of_nat (length bytes) ≤ u64_max) as Hu.
  { subst bytes. autorewrite with lengths. rewrite observations_length by done.
    pose proof (observations_bound os). unfold u16_max, u64_max in *. lia. }
  assert (reads (sequence ← u64; count ← u16;
                 observations ← decode_observations (Z.to_nat count);
                 mret (sequence, observations)) bytes (ob_sequence b, os)) as Hr.
  { subst bytes. eapply reads_bind; [by apply reads_u64|].
    eapply reads_bind; [by apply reads_u16; split; lia|].
    rewrite Nat2Z.id. eapply reads_last; [by apply reads_observations|]. apply reads_ret. }
  destruct (Hr (new bytes) []) as (c' & E & Ho & Hd & _).
  { unfold at_, new. cbn [cur_bytes cur_offset]. rewrite app_nil_r, drop_0. auto with lia. }
  unfold decode, run, decode_batch. revert E. munfold.
  destruct (u64 (new bytes)) as [[sq|] c1]; [|done].
  destruct (u16 c1) as [[n|] c2]; [|done].
  destruct (decode_observations _ c2) as [[obs|] c3]; [|done].
  intros [= -> -> ->]. assert (remaining c' = 0%nat) as ->.
  { unfold remaining. rewrite <-length_drop, Hd. done. }
  simpl. by destruct b.
Qed.

(** ** What a decoder can return *)

(** [m] never panics, stays inside its slice, and returns only values in [Q]. *)
Definition ensures {A} (m : ReadM A) (Q : A → Prop) : Prop :=
  ∀ c, (cur_offset c ≤ length (cur_bytes c))%nat →
    (cur_offset (m c).2 ≤ length (cur_bytes (m c).2))%nat ∧
    match (m c).1 with Ok v => Q v | Err e => e ≠ Panicked end.

Create HintDb ensures.

Lemma ensures_ret {A} (v : A) (Q : A → Prop) : Q v → ensures (mret v) Q.
Proof. intros Hv c Hc. by split. Qed.
Lemma ensures_fail {A} msg (Q : A → Prop) : ensures (fail msg) Q.
Proof. intros c Hc. by split. Qed.
Lemma ensures_bind {A B} (m : ReadM A) (k : A → ReadM B) P Q :
  ensures m P → (∀ v, P v → ensures (k v) Q) → ensures (m ≫= k) Q.
Proof.
  intros Hm Hk c Hc. destruct (Hm c Hc) as [Hc1 Hr]. munfold.
  destruct (m c) as [[v|e] c1]; simpl in *; [|done]. by apply Hk.
Qed.
Lemma ensures_lift {A} (r : result (fault WireError) A) (Q : A → Prop) :
  match r with Ok v => Q v | Err e => e ≠ Panicked end → ensures (st_lift r) Q.
Proof. intros Hr c Hc. by split. Qed.
Lemma ensures_check {A} (b : bool) msg (m : ReadM A) Q :
  (b = false → ensures m Q) → ensures (if b then fail msg else m) Q.
Proof. intros H. destruct b; [apply ensures_fail|auto]. Qed.

Lemma ensures_take n : ensures (take_bytes n) (SandboxObservation.array n).
Proof.
  intros c Hc. unfold take_bytes.
  destruct (checked_add_u64 _ _) as [e|] eqn:E; [|done].
  apply checked_add_u64_Some in E as [-> _].
  destruct (Z.leb_spec (Z.of_nat (cur_offset c) + Z.of_nat n)
              (Z.of_nat (length (cur_bytes c)))); [|done].
  cbn [fst snd cur_offset cur_bytes]. split; [lia|].
  unfold SandboxObservation.array, slice. rewrite length_take, length_drop. lia.
Qed.
Lemma ensures_array n : ensures (array n) (SandboxObservation.array n).
Proof.
  eapply ensures_bind; [apply ensures_take|]. intros bs Hbs. unfold SandboxObservation.array in Hbs.
  rewrite bool_decide_true by done. by apply ensures_ret.
Qed.
Lemma ensures_u8 : ensures u8 in_u8.
Proof.
  eapply ensures_bind; [apply ensures_take|]. intros [|b bs] Hbs; [done|].
  apply ensures_ret. pose proof (byte.unsigned_range b). unfold in_u8, u8_max. lia.
Qed.
Lemma ensures_uN n (Q : Z → Prop) :
  (∀ z, 0 ≤ z < 2 ^ (Z.of_nat n * 8) → Q z) →
  ensures (bs ← array n; mret (from_be_bytes bs)) Q.
Proof.
  intros HQ. eapply ensures_bind; [apply ensures_array|]. intros bs Hbs. apply ensures_ret, HQ.
  pose proof (from_be_bytes_bound bs) as H. unfold SandboxObservation.array in Hbs.
  by rewrite Hbs in H.
Qed.
Lemma ensures_u16 : ensures u16 in_u16.
Proof. apply ensures_uN. intros z. unfold in_u16, u16_max. simpl. lia. Qed.
Lemma ensures_u32 : ensures u32 in_u32.
Proof. apply ensures_uN. intros z. unfold in_u32, u32_max. simpl. lia. Qed.
Lemma ensures_u64 : ensures u64 in_u64.
Proof. apply ensures_uN. intros z. unfold in_u64, u64_max. simpl. lia. Qed.
#[local] Hint Resolve ensures_u8 ensures_u16 ensures_u32 ensures_u64 ensures_array : ensures.

(** Follow a decoder, keeping what each read guarantees. *)
Ltac ensure_step :=
  eapply ensures_bind; [solve [eauto 2 with ensures]|]; intros ? ?.
Ltac ensure_all := repeat ensure_step.

Lemma ensures_marker : ensures decode_marker marker_wf.
Proof. unfold decode_marker. ensure_all. by apply ensures_ret. Qed.
Lemma ensures_psi : ensures decode_psi psi_wf.
Proof. unfold decode_psi. ensure_all. by apply ensures_ret. Qed.
#[local] Hint Resolve ensures_marker ensures_psi : ensures.

Lemma ensures_process_io : ensures decode_process_io process_io_wf.
Proof. unfold decode_process_io. ensure_all. apply ensures_ret. unfold process_io_wf. by splits. Qed.
Lemma ensures_resource : ensures decode_resource resource_wf.
Proof. unfold decode_resource. ensure_all. apply ensures_ret. unfold resource_wf. by splits. Qed.
Lemma ensures_pressure : ensures decode_pressure pressure_wf.
Proof. unfold decode_pressure. ensure_all. apply ensures_ret. unfold pressure_wf. by splits. Qed.

Lemma ensures_attribution : ensures decode_attribution (λ _, True).
Proof.
  unfold decode_attribution. eapply ensures_bind; [apply ensures_u8|]. intros z _.
  repeat case_match; try apply ensures_fail; by apply ensures_ret.
Qed.
#[local] Hint Resolve ensures_attribution : ensures.

Lemma ensures_oom : ensures decode_oom_victim oom_ok.
Proof.
  unfold decode_oom_victim. do 6 ensure_step. rename v4 into root.
  ensure_step. apply ensures_check. intros _. apply ensures_lift.
  set (mr := if _ || _ || _ then Some root else None).
  assert (from_option marker_wf True mr ∧ mr ≠ Some zero_marker) as [Hmr Hz].
  { subst mr. destruct (_ || _ || _) eqn:E; [|done]. split; [done|]. intros [= ->]. done. }
  destruct (Oom.validate _) as [w|e] eqn:Ev; simpl; [|done].
  assert (w = mkOom v v0 v1 v2 v3 mr) as -> by (unfold Oom.validate in Ev; by repeat case_match; simplify_eq).
  split; [|done]. unfold oom_wf. by splits.
Qed.

Lemma ensures_slots presence index count :
  ensures (decode_slots presence index count)
    (λ slots, length slots = count ∧ Forall u64_opt slots).
Proof.
  revert index. induction count as [|count IH]; intros index; cbn [decode_slots].
  { by apply ensures_ret. }
  ensure_step. eapply ensures_bind; [apply IH|]. intros slots [Hl Hs]. apply ensures_ret.
  split; [by rewrite <-Hl|]. constructor; [|done]. by case_match.
Qed.

Lemma decode_container_sound bytes :
  match decode_container bytes with
  | Ok id => from_option (SandboxObservation.array 32) True id
  | Err e => e ≠ Panicked
  end.
Proof.
  unfold decode_container. destruct (forallb _ bytes); [done|].
  destruct (utf8_valid bytes); [|done]. cbn [negb].
  destruct (ContainerId.from_lower_hex bytes) as [id|[|e]] eqn:E; [|..|done].
  - by apply ContainerIdFacts.from_lower_hex_spec in E as [? _].
  - by destruct (ContainerIdFacts.from_lower_hex_no_panic bytes).
Qed.

Lemma slot_wf slots i : Forall u64_opt slots → u64_opt (default None (slots !! i)).
Proof.
  intros Hs. destruct (slots !! i) as [o|] eqn:E; [|done]. simpl.
  by eapply (Forall_lookup_1 _ _ _ _ Hs).
Qed.

Lemma ensures_workload : ensures decode_workload_cgroup workload_ok.
Proof.
  unfold decode_workload_cgroup. ensure_step. apply ensures_check. intros _. ensure_step.
  eapply (ensures_bind _ _ (λ _, True)); [apply ensures_lift; by destruct (Runtime.from_code _)|].
  intros rt _. ensure_step. apply ensures_check. intros _.
  ensure_step. apply ensures_check. intros _.
  ensure_step. apply ensures_check. intros _. do 8 ensure_step.
  eapply ensures_bind; [apply ensures_lift, decode_container_sound|]. intros cid Hcid.
  apply ensures_check. intros _. ensure_step.
  eapply ensures_bind; [apply ensures_slots|]. intros slots [Hl Hs].
  set (w := mkWorkload _ _ _ _ _ _ _ _).
  eapply (ensures_bind _ _ (λ _, Workload.validate w = Ok ())).
  { apply ensures_lift. by destruct (Workload.validate w) as [[]|]. }
  intros [] Hv. apply ensures_ret. split; [|done]. subst w. unfold workload_wf. cbv zeta.
  cbn [wl_guest_boot_id wl_sampled_at_ms wl_workload_id wl_representative_root
       wl_monitored_root_count wl_container_id wl_counters counters_of wc_memory_current_bytes
       marker_wf pm_pid pm_start_time_ticks pm_executable_name].
  splits; try done; apply slot_wf; done.
Qed.

Lemma run_ensures {A} (m : ReadM A) Q bs :
  ensures m Q → match run m bs with Ok v => Q v | Err e => e ≠ Panicked end.
Proof. intros Hm. by destruct (Hm (new bs)) as [_ ?]; [simpl; lia|]. Qed.

Lemma decode_body_sound code len body :
  match decode_body code len body with
  | Ok o => observation_ok o
  | Err e => e ≠ Panicked
  end.
Proof.
  pose proof (run_ensures _ _ body ensures_process_io).
  pose proof (run_ensures _ _ body ensures_resource).
  pose proof (run_ensures _ _ body ensures_oom).
  pose proof (run_ensures _ _ body ensures_pressure).
  pose proof (run_ensures _ _ body ensures_workload).
  unfold decode_body, fmap, result_fmap.
  repeat (destruct (_ && _);
    [match goal with |- context [run ?m body] => by destruct (run m body) end|]).
  by match goal with |- context [if ?b then _ else _] => destruct b end.
Qed.

Lemma ensures_observations count :
  ensures (decode_observations count) (λ os, length os = count ∧ Forall observation_ok os).
Proof.
  induction count as [|count IH]; cbn [decode_observations]; [by apply ensures_ret|].
  eapply (ensures_bind _ _ observation_ok).
  { unfold decode_observation. do 2 ensure_step.
    eapply ensures_bind; [apply ensures_take|]. intros. apply ensures_lift, decode_body_sound. }
  intros o Ho. eapply ensures_bind; [exact IH|]. intros os [Hl Hos]. apply ensures_ret.
  split; [by rewrite <-Hl|by constructor].
Qed.

Lemma decode_sound bytes :
  match decode bytes with Ok b => batch_ok b | Err e => e ≠ Panicked end.
Proof.
  apply run_ensures. unfold decode_batch. ensure_step. ensure_step. rename v0 into count.
  eapply ensures_bind; [apply ensures_observations|]. intros os [Hl Hos].
  eapply (ensures_bind _ _ (λ _, True)); [by intros c Hc; split|]. intros c _.
  apply ensures_check. intros _. apply ensures_ret. unfold batch_ok. simpl.
  splits; [done| |done]. rewrite Hl. unfold in_u16 in *. lia.
Qed.

Lemma encode_bound b bytes :
  batch_ok b → encode b = Ok bytes →
  Z.of_nat (length bytes) ≤ Z.of_nat (length (ob_observations b)) *
    MAX_ENCODED_OBSERVATION_BYTES + OBSERVATION_BATCH_FIXED_BYTES.
Proof.
  intros Hb. rewrite encode_Ok by done. intros [= <-]. destruct Hb as (_ & _ & Hos).
  autorewrite with lengths. rewrite observations_length by done.
  pose proof (observations_bound (ob_observations b)).
  unfold MAX_ENCODED_OBSERVATION_BYTES, WORKLOAD_CGROUP_BYTES, OBSERVATION_BATCH_FIXED_BYTES. lia.
Qed.

(** ** Properties *)

(** Encoding then decoding a batch gives the batch back, for every batch of at
    most 65535 valid observations; and the encoding is exactly ten bytes plus, for
    each observation, three bytes and its fixed-size body, within the capacity the
    encoder reserves. *)
Theorem batch_roundtrip b :
  batch_ok b →
  ∃ bytes, encode b = Ok bytes ∧ decode bytes = Ok b ∧
    length bytes = (10 + sum_list_with (λ o, 3 + body_length o) (ob_observations b))%nat ∧
    Z.of_nat (length bytes) ≤ Z.of_nat (length (ob_observations b)) *
      MAX_ENCODED_OBSERVATION_BYTES + OBSERVATION_BATCH_FIXED_BYTES.
Proof.
  intros Hb. pose proof (encode_Ok b Hb) as He. eexists. splits; [exact He| | |].
  - by eapply decode_encode.
  - destruct Hb as (_ & _ & Hos).
    autorewrite with lengths. rewrite observations_length by done. lia.
  - by apply encode_bound.
Qed.

Definition w_marker : ProcessMarker := mkMarker 42 9 (replicate 16 Byte.x61).
Definition w_workload : WorkloadCgroupResourceSnapshot :=
  mkWorkload (zeros 16) 1 (replicate 32 Byte.x22) w_marker 3 RtDocker
    (Some (replicate 32 Byte.xab))
    (mkCounters 1 (Some 2) None (Some 4) None None None None None None None None None None None
       None None None None (Some 20)).
Definition w_oom : OomVictimObservation :=
  mkOom (zeros 16) 5 77 (zeros 16) OomMonitored (Some w_marker).
Definition w_batch : ObservationBatch := mkBatch 7 [OomVictim w_oom; WorkloadCgroup w_workload].

Lemma w_batch_ok : batch_ok w_batch.
Proof.
  split; [by unfold in_u64, u64_max|]. split; [by vm_compute|].
  repeat constructor; vm_compute; congruence.
Qed.

Lemma batch_roundtrip_witness :
  ∃ bytes, encode w_batch = Ok bytes ∧ decode bytes = Ok w_batch.
Proof.
  destruct (batch_roundtrip w_batch w_batch_ok) as (bytes & H1 & H2 & _).
  exists bytes. split; [exact H1|exact H2].
Defined.

(** C37: Decoding is safe on arbitrary bytes: it never panics, and whatever it accepts
    is a valid batch (field ranges, array sizes, the OOM attribution rule, a real
    workload root, a normalized container id), which encodes again and decodes to
    itself. *)
Theorem decode_accepts_valid bytes :
  decode bytes ≠ Err Panicked ∧
  ∀ b, decode bytes = Ok b →
    batch_ok b ∧ ∃ bytes', encode b = Ok bytes' ∧ decode bytes' = Ok b.
Proof.
  pose proof (decode_sound bytes) as H. split.
  - intros E. by rewrite E in H.
  - intros b E. rewrite E in H. split; [done|]. eexists. split; [by apply encode_Ok|].
    eapply decode_encode; [done|by apply encode_Ok].
Qed.
End CodecFacts.
