(* ===== verification/GatewayIngest.v ===== *)
(** Admission of gateways: crates/core/gateway_ingest_runtime (runtime.rs, sink.rs,
    status.rs).

    [GatewayIngestRuntime] is shared by threads and keeps its state in atomics.  A
    call is modelled at the grain of its atomic accesses: [pc] is where a thread
    stands in [try_open], in the use of the connection it got, or in its [Drop]; one
    [thread_step] performs one atomic access and threads interleave freely
    ([sys_step]).  [try_open] itself is the run of those steps by one thread alone.
    Counters keep their width: [fetch_add] and [fetch_sub] wrap. *)
From stdpp Require Import prelude gmap strings list.
From Stdlib Require Import ZArith Lia.
From coqutil Require Import Byte.
From S2P Require Import Prelude Bytes SandboxObservation.

Open Scope Z_scope.

Inductive GatewayOpenError :=
| InvalidConnectionLimit
| Capacity
| IdExhausted
| ShuttingDown.
#[export] Instance open_error_eq_dec : EqDecision GatewayOpenError.
Proof. solve_decision. Defined.

Record SinkDeliveryError := mkSinkError {
  sink_stage : string;
  sink_message : string;
}.

(** The atomics of [RuntimeState]. *)
Record RuntimeState := mkRuntimeState {
  max_connections : Z;
  next_gateway_id : Z;
  shutdown_requested : bool;
  active_connections : Z;
  accepted_connections : Z;
  rejected_connections : Z;
  closed_connections : Z;
  heartbeats : Z;
  delivered_batches : Z;
  delivered_observations : Z;
  delivery_failures : Z;
}.

Record GatewayIngestStatus := mkStatus {
  gs_shutdown_requested : bool;
  gs_active_connections : Z;
  gs_accepted_connections : Z;
  gs_rejected_connections : Z;
  gs_closed_connections : Z;
  gs_heartbeats : Z;
  gs_delivered_batches : Z;
  gs_delivered_observations : Z;
  gs_delivery_failures : Z;
}.

Module Ingest.
(** [AtomicU32::fetch_sub(1)] and the store of [current + 1]. *)
Definition wrapping_sub_u32 (a b : Z) : Z := (a - b) mod 2 ^ 32.

(** One atomic write each. *)
Definition set_active (s : RuntimeState) (v : Z) : RuntimeState :=
  mkRuntimeState (max_connections s) (next_gateway_id s) (shutdown_requested s) v
    (accepted_connections s) (rejected_connections s) (closed_connections s) (heartbeats s)
    (delivered_batches s) (delivered_observations s) (delivery_failures s).
Definition set_next_id (s : RuntimeState) (v : Z) : RuntimeState :=
  mkRuntimeState (max_connections s) v (shutdown_requested s) (active_connections s)
    (accepted_connections s) (rejected_connections s) (closed_connections s) (heartbeats s)
    (delivered_batches s) (delivered_observations s) (delivery_failures s).
Definition set_shutdown (s : RuntimeState) (v : bool) : RuntimeState :=
  mkRuntimeState (max_connections s) (next_gateway_id s) v (active_connections s)
    (accepted_connections s) (rejected_connections s) (closed_connections s) (heartbeats s)
    (delivered_batches s) (delivered_observations s) (delivery_failures s).
Definition set_counts (s : RuntimeState) (accepted rejected closed : Z) : RuntimeState :=
  mkRuntimeState (max_connections s) (next_gateway_id s) (shutdown_requested s)
    (active_connections s) accepted rejected closed (heartbeats s)
    (delivered_batches s) (delivered_observations s) (delivery_failures s).
Definition set_traffic (s : RuntimeState) (beats batches observations failures : Z)
    : RuntimeState :=
  mkRuntimeState (max_connections s) (next_gateway_id s) (shutdown_requested s)
    (active_connections s) (accepted_connections s) (rejected_connections s)
    (closed_connections s) beats batches observations failures.

(** [GatewayIngestRuntime::new]. *)
Definition new (limit : Z) : result GatewayOpenError RuntimeState :=
  if limit =? 0 then Err InvalidConnectionLimit
  else Ok (mkRuntimeState limit 1 false 0 0 0 0 0 0 0 0).

Definition request_shutdown (s : RuntimeState) : RuntimeState := set_shutdown s true.
Definition is_shutdown_requested (s : RuntimeState) : bool := shutdown_requested s.

(** [status]. *)
Definition status (s : RuntimeState) : GatewayIngestStatus :=
  mkStatus (is_shutdown_requested s) (active_connections s) (accepted_connections s)
    (rejected_connections s) (closed_connections s) (heartbeats s) (delivered_batches s)
    (delivered_observations s) (delivery_failures s).

(** Where a thread stands. *)
Inductive pc :=
| Start                                  (* before the first shutdown check *)
| Reserve                                (* before the capacity [fetch_update] *)
| CountRejected                          (* the update failed *)
| Recheck                                (* slot reserved, before the second check *)
| TakeId                                 (* before [next_gateway_id.fetch_add] *)
| Release (e : GatewayOpenError)         (* before [release_reserved_connection] *)
| CountAccepted (id : Z)                 (* before [accepted_connections.fetch_add] *)
| Failed_ (e : GatewayOpenError)         (* [try_open] returned an error *)
| Open_ (id : Z)                         (* [try_open] returned the connection *)
| CountBatch (id n : Z)                  (* delivery succeeded, before the two counters *)
| CountObservations (id n : Z)
| CountFailure (id : Z)                  (* delivery failed, before its counter *)
| CountClosed (id : Z)                   (* in [drop], active already decremented *)
| Closed_ (id : Z).                      (* dropped *)

(** The next atomic access of a thread inside [try_open]. *)
Definition open_step (s : RuntimeState) (p : pc) : RuntimeState * pc :=
  match p with
  | Start => if shutdown_requested s then (s, Failed_ ShuttingDown) else (s, Reserve)
  | Reserve =>
      if active_connections s <? max_connections s
      then (set_active s (active_connections s + 1), Recheck)
      else (s, CountRejected)
  | CountRejected =>
      (set_counts s (accepted_connections s) (wrapping_add_u64 (rejected_connections s) 1)
         (closed_connections s), Failed_ Capacity)
  | Recheck => if shutdown_requested s then (s, Release ShuttingDown) else (s, TakeId)
  | Release e => (set_active s (wrapping_sub_u32 (active_connections s) 1), Failed_ e)
  | TakeId =>
      let raw_id := next_gateway_id s in
      (set_next_id s (wrapping_add_u64 raw_id 1),
       if (raw_id <=? u32_max) && negb (raw_id =? 0) then CountAccepted raw_id
       else Release IdExhausted)
  | CountAccepted id =>
      (set_counts s (wrapping_add_u64 (accepted_connections s) 1) (rejected_connections s)
         (closed_connections s), Open_ id)
  | p => (s, p)
  end.

(** [try_open] run by one thread without interference. *)
Fixpoint run_open (fuel : nat) (s : RuntimeState) (p : pc) : RuntimeState * pc :=
  match fuel with
  | O => (s, p)
  | S fuel' => let '(s', p') := open_step s p in run_open fuel' s' p'
  end.
Definition try_open (s : RuntimeState) : result GatewayOpenError Z * RuntimeState :=
  match run_open 6 s Start with
  | (s', Open_ id) => (Ok id, s')
  | (s', Failed_ e) => (Err e, s')
  | (s', _) => (Err Capacity, s')   (* not reached: six accesses are enough *)
  end.

(** [record_heartbeat], [deliver] with the sink's answer, and [Drop]. *)
Definition record_heartbeat (s : RuntimeState) : RuntimeState :=
  set_traffic s (wrapping_add_u64 (heartbeats s) 1) (delivered_batches s)
    (delivered_observations s) (delivery_failures s).
Definition count_batch (s : RuntimeState) : RuntimeState :=
  set_traffic s (heartbeats s) (wrapping_add_u64 (delivered_batches s) 1)
    (delivered_observations s) (delivery_failures s).
Definition count_observations (s : RuntimeState) (n : Z) : RuntimeState :=
  set_traffic s (heartbeats s) (delivered_batches s)
    (wrapping_add_u64 (delivered_observations s) n) (delivery_failures s).
Definition count_failure (s : RuntimeState) : RuntimeState :=
  set_traffic s (heartbeats s) (delivered_batches s) (delivered_observations s)
    (wrapping_add_u64 (delivery_failures s) 1).
Definition drop_active (s : RuntimeState) : RuntimeState :=
  set_active s (wrapping_sub_u32 (active_connections s) 1).
Definition count_closed (s : RuntimeState) : RuntimeState :=
  set_counts s (accepted_connections s) (rejected_connections s)
    (wrapping_add_u64 (closed_connections s) 1).

(** The steps of a thread: those of [try_open], then any use of the connection. *)
Inductive thread_step : RuntimeState → pc → RuntimeState → pc → Prop :=
| ts_open s p : thread_step s p (open_step s p).1 (open_step s p).2
| ts_heartbeat s id : thread_step s (Open_ id) (record_heartbeat s) (Open_ id)
| ts_delivered s id n : thread_step s (Open_ id) s (CountBatch id n)
| ts_batch s id n : thread_step s (CountBatch id n) (count_batch s) (CountObservations id n)
| ts_observations s id n :
    thread_step s (CountObservations id n) (count_observations s n) (Open_ id)
| ts_undelivered s id : thread_step s (Open_ id) s (CountFailure id)
| ts_failure s id : thread_step s (CountFailure id) (count_failure s) (Open_ id)
| ts_drop s id : thread_step s (Open_ id) (drop_active s) (CountClosed id)
| ts_closed s id : thread_step s (CountClosed id) (count_closed s) (Closed_ id).

(** Threads interleave, and anyone may request shutdown at any time. *)
Definition config : Type := RuntimeState * list pc.
Inductive sys_step : config → config → Prop :=
| sys_thread s ps i p s' p' :
    ps !! i = Some p → thread_step s p s' p' → sys_step (s, ps) (s', <[i := p']> ps)
| sys_shutdown s ps : sys_step (s, ps) (request_shutdown s, ps).

(** The start: [n] threads about to call [try_open]. *)
Definition init (limit : Z) (n : nat) : config :=
  (mkRuntimeState limit 1 false 0 0 0 0 0 0 0 0, replicate n Start).
End Ingest.

(** * Invariants *)

Module IngestFacts.
Import Ingest.

(** Threads that hold a reserved slot; accepted ones; closed ones. *)
Definition holds (p : pc) : bool :=
  match p with
  | Recheck | TakeId | Release _ | CountAccepted _ | Open_ _ | CountBatch _ _
  | CountObservations _ _ | CountFailure _ => true
  | _ => false
  end.
Definition accepted (p : pc) : bool :=
  match p with
  | Open_ _ | CountBatch _ _ | CountObservations _ _ | CountFailure _ | CountClosed _
  | Closed_ _ => true
  | _ => false
  end.
Definition closed (p : pc) : bool := match p with Closed_ _ => true | _ => false end.
Definition rejected (p : pc) : bool :=
  match p with Failed_ Capacity | Release Capacity => true | _ => false end.
(** The gateway id a thread was given. *)
Definition id_of (p : pc) : option Z :=
  match p with
  | CountAccepted id | Open_ id | CountBatch id _ | CountObservations id _ | CountFailure id
  | CountClosed id | Closed_ id => Some id
  | _ => None
  end.
(** Threads that already took a number from [next_gateway_id]. *)
Definition numbered (p : pc) : bool :=
  match p with
  | Release IdExhausted | Failed_ IdExhausted => true
  | p => bool_decide (is_Some (id_of p))
  end.

Definition count (f : pc → bool) (ps : list pc) : Z :=
  Z.of_nat (sum_list_with (λ p, if f p then 1 else 0)%nat ps).

Record inv (limit : Z) (c : config) : Prop := {
  inv_max : max_connections c.1 = limit;
  inv_active : active_connections c.1 = count holds c.2;
  inv_limit : active_connections c.1 ≤ limit;
  inv_next : next_gateway_id c.1 = 1 + count numbered c.2;
  inv_accepted : accepted_connections c.1 = count accepted c.2;
  inv_rejected : rejected_connections c.1 = count rejected c.2;
  inv_closed : closed_connections c.1 = count closed c.2;
  inv_ids : ∀ i p id, c.2 !! i = Some p → id_of p = Some id →
    1 ≤ id ≤ u32_max ∧ id < next_gateway_id c.1;
  inv_distinct : ∀ i j p q id, c.2 !! i = Some p → c.2 !! j = Some q →
    id_of p = Some id → id_of q = Some id → i = j;
}.

Lemma count_bound f ps : 0 ≤ count f ps ≤ Z.of_nat (length ps).
Proof.
  unfold count. induction ps as [|p ps IH]; simpl; [lia|]. destruct (f p); simpl; lia.
Qed.

Lemma count_insert f ps i p q :
  ps !! i = Some p →
  count f (<[i := q]> ps) = count f ps - (if f p then 1 else 0) + (if f q then 1 else 0).
Proof.
  unfold count. revert i. induction ps as [|x ps IH]; intros [|i]; simpl; [done|done| |].
  - intros [= ->]. destruct (f p), (f q); lia.
  - intros H. specialize (IH i H). destruct (f x), (f p), (f q); lia.
Qed.

(** A thread that is not counted leaves room for one more. *)
Lemma count_room f ps i p : ps !! i = Some p → f p = false → count f ps < Z.of_nat (length ps).
Proof.
  unfold count. revert i. induction ps as [|x ps IH]; intros [|i]; simpl; [done|done| |].
  - intros [= ->] ->. pose proof (count_bound f ps) as H. unfold count in H. lia.
  - intros H Hf. specialize (IH i H Hf). destruct (f x); lia.
Qed.

Definition b2z (b : bool) : Z := if b then 1 else 0.

(** What one step of a thread does to the counters and to its id. *)
Record thread_effect (s : RuntimeState) (p : pc) (s' : RuntimeState) (p' : pc) : Prop := {
  te_max : max_connections s' = max_connections s;
  te_active : active_connections s' = active_connections s - b2z (holds p) + b2z (holds p');
  te_limit : active_connections s ≤ max_connections s → active_connections s' ≤ max_connections s;
  te_next : next_gateway_id s' = next_gateway_id s - b2z (numbered p) + b2z (numbered p');
  te_mono : next_gateway_id s ≤ next_gateway_id s';
  te_accepted :
    accepted_connections s' = accepted_connections s - b2z (accepted p) + b2z (accepted p');
  te_rejected :
    rejected_connections s' = rejected_connections s - b2z (rejected p) + b2z (rejected p');
  te_closed : closed_connections s' = closed_connections s - b2z (closed p) + b2z (closed p');
  te_id : id_of p' = None ∨ id_of p' = id_of p ∨
    (id_of p' = Some (next_gateway_id s) ∧ 1 ≤ next_gateway_id s ≤ u32_max ∧
     next_gateway_id s < next_gateway_id s');
}.

(** The counters have room: no [fetch_add] wraps, and no slot is released twice. *)
Definition roomy (s : RuntimeState) (p : pc) : Prop :=
  b2z (holds p) ≤ active_connections s ≤ u32_max ∧
  1 ≤ next_gateway_id s < u64_max ∧
  0 ≤ accepted_connections s < u64_max ∧ 0 ≤ rejected_connections s < u64_max ∧
  0 ≤ closed_connections s < u64_max.

Lemma wrapping_succ z : 0 ≤ z < u64_max → wrapping_add_u64 z 1 = z + 1.
Proof. intros. apply wrapping_add_u64_small; lia. Qed.
Lemma wrapping_pred z : 1 ≤ z ≤ u32_max → wrapping_sub_u32 z 1 = z - 1.
Proof. unfold wrapping_sub_u32, u32_max. intros. apply Z.mod_small. lia. Qed.

Lemma same_effect s p s' p' :
  max_connections s' = max_connections s → active_connections s' = active_connections s →
  next_gateway_id s' = next_gateway_id s → accepted_connections s' = accepted_connections s →
  rejected_connections s' = rejected_connections s →
  closed_connections s' = closed_connections s →
  holds p' = holds p → numbered p' = numbered p → accepted p' = accepted p →
  rejected p' = rejected p → closed p' = closed p → id_of p' = None ∨ id_of p' = id_of p →
  thread_effect s p s' p'.
Proof.
  intros ?????? E1 E2 E3 E4 E5 E6. split; rewrite ?E1, ?E2, ?E3, ?E4, ?E5; try lia.
  destruct E6; auto.
Qed.

Lemma open_step_effect s p :
  roomy s p → thread_effect s p (open_step s p).1 (open_step s p).2.
Proof.
  intros (Ha & Hn & Hac & Hrj & _).
  destruct p as [| | | | |e|id|e|id|id n|id n|id|id|id]; simpl;
    try (apply same_effect; simpl; by auto).
  - destruct (shutdown_requested s); apply same_effect; simpl; auto.
  - destruct (Z.ltb_spec (active_connections s) (max_connections s));
      [|apply same_effect; simpl; auto].
    split; simpl; try lia. auto.
  - split; simpl; rewrite ?wrapping_succ by lia; try lia. auto.
  - destruct (shutdown_requested s); apply same_effect; simpl; auto.
  - rewrite wrapping_succ by lia.
    destruct (Z.leb_spec (next_gateway_id s) u32_max); simpl;
      [destruct (Z.eqb_spec (next_gateway_id s) 0); simpl; [lia|]|].
    + split; simpl; try lia. right. right. splits; lia || done.
    + split; simpl; try lia. auto.
  - simpl in Ha. rewrite wrapping_pred by lia. destruct e; split; simpl; try lia; auto.
  - split; simpl; rewrite ?wrapping_succ by lia; try lia. auto.
Qed.

Lemma thread_step_effect s p s' p' :
  thread_step s p s' p' → roomy s p → thread_effect s p s' p'.
Proof.
  intros Hs Hr. destruct Hs; try (apply same_effect; simpl; by auto).
  - by apply open_step_effect.
  - destruct Hr as (Ha & _). simpl in Ha.
    split; simpl; unfold drop_active; rewrite ?wrapping_pred by lia; try lia. auto.
  - destruct Hr as (_ & _ & _ & _ & Hc).
    split; simpl; rewrite ?wrapping_succ by lia; try lia. auto.
Qed.

Lemma inv_roomy limit s ps i p :
  limit ≤ u32_max → Z.of_nat (length ps) < u64_max - 1 → inv limit (s, ps) →
  ps !! i = Some p → roomy s p.
Proof.
  intros Hl Hn [_ Ha Hlim Hx Hac Hrj Hc _ _] Hp. simpl in *.
  pose proof (count_bound numbered ps). pose proof (count_bound accepted ps).
  pose proof (count_bound rejected ps). pose proof (count_bound closed ps).
  pose proof (count_insert holds ps i p Start Hp) as Hins. simpl in Hins.
  pose proof (count_bound holds (<[i:=Start]> ps)).
  unfold roomy, b2z. splits; destruct (holds p); lia.
Qed.

Lemma inv_thread limit s ps i p s' p' :
  inv limit (s, ps) → ps !! i = Some p → thread_effect s p s' p' →
  inv limit (s', <[i := p']> ps).
Proof.
  intros [Hm Ha Hlim Hx Hac Hrj Hc Hids Hd] Hp He. simpl in *.
  pose proof (lookup_lt_Some _ _ _ Hp) as Hlt.
  assert (∀ j q id, <[i := p']> ps !! j = Some q → id_of q = Some id →
            (j ≠ i ∧ ps !! j = Some q) ∨ (j = i ∧ ps !! i = Some p ∧ id_of p = Some id) ∨
            (j = i ∧ id = next_gateway_id s ∧ 1 ≤ id ≤ u32_max ∧ id < next_gateway_id s')) as Hnew.
  { intros j q id Hj Hid. destruct (decide (j = i)) as [->|Hne].
    - rewrite list_lookup_insert_eq in Hj by done. injection Hj as <-.
      destruct (te_id _ _ _ _ He) as [E|[E|(E & ? & ?)]]; rewrite Hid in E; [done| |].
      + right. left. auto.
      + right. right. injection E as ->. auto.
    - rewrite list_lookup_insert_ne in Hj by done. auto. }
  destruct He as [T1 T2 T3 T4 T5 T6 T7 T8 _].
  split; simpl.
  1-7: rewrite ?(count_insert _ _ _ _ _ Hp); unfold b2z in *; lia.
  - intros j q id Hj Hid.
    destruct (Hnew j q id Hj Hid) as [[_ Hq]|[(_ & Hq & Hid')|(_ & -> & ? & ?)]]; [..|lia].
    + destruct (Hids _ _ _ Hq Hid). lia.
    + destruct (Hids _ _ _ Hq Hid'). lia.
  - intros j k q r id Hj Hk Hq Hr.
    destruct (Hnew j q id Hj Hq) as [[? Hj']|[(-> & Hj' & Hq')|(-> & E & _)]],
      (Hnew k r id Hk Hr) as [[? Hk']|[(-> & Hk' & Hr')|(-> & E' & _)]]; subst; eauto.
    + destruct (Hids _ _ _ Hj' Hq). lia.
    + destruct (Hids _ _ _ Hk' Hr). lia.
Qed.

Lemma sys_step_inv limit c c' :
  limit ≤ u32_max → Z.of_nat (length c.2) < u64_max - 1 → inv limit c → sys_step c c' →
  inv limit c' ∧ length c'.2 = length c.2.
Proof.
  intros Hl Hn Hi Hs. destruct Hs as [s ps i p s' p' Hp Ht|s ps]; simpl in *.
  - split; [|apply length_insert]. eapply inv_thread; [done..|].
    apply thread_step_effect; [done|]. by eapply inv_roomy.
  - split; [|done]. by destruct Hi.
Qed.

Lemma init_inv limit n : 0 ≤ limit → inv limit (init limit n).
Proof.
  intros Hl.
  assert (∀ f, f Start = false → count f (replicate n Start) = 0) as Hz.
  { intros f Hf. unfold count. induction n as [|n IH]; [done|]. simpl. rewrite Hf.
    simpl. exact IH. }
  split; simpl; rewrite ?Hz by done; try lia.
  - intros i p id [-> _]%lookup_replicate Hid. done.
  - intros i j p q id [-> _]%lookup_replicate _ Hid. done.
Qed.

Lemma reachable_inv limit n c :
  0 ≤ limit ≤ u32_max → Z.of_nat n < u64_max - 1 → rtc sys_step (init limit n) c →
  inv limit c ∧ length c.2 = n.
Proof.
  intros Hl Hn Hs.
  assert (∀ c0, rtc sys_step c0 c → inv limit c0 ∧ length c0.2 = n → inv limit c ∧ length c.2 = n)
    as H.
  { clear Hs. intros c0 Hs. induction Hs as [|x y z Hxy _ IH]; [done|]. intros [Hi Hlen].
    apply IH. destruct (sys_step_inv limit x y) as [? ->]; [lia|by rewrite Hlen|done..]. }
  apply (H _ Hs). split; [apply init_inv; lia|apply length_replicate].
Qed.

(** C35: Admission control under every interleaving of any number of threads opening,
    using and dropping connections, with shutdown requested at any time: the active
    counter is exactly the number of threads that hold a slot and never exceeds the
    limit (no slot leaks, none is freed twice), the gateway ids handed out are
    pairwise distinct and lie in [1 .. 2^32-1], and the accepted, rejected and closed
    counters are exact. *)
Theorem admission_invariant limit n c :
  0 ≤ limit ≤ u32_max → Z.of_nat n < u64_max - 1 → rtc sys_step (init limit n) c →
  active_connections c.1 = count holds c.2 ∧ active_connections c.1 ≤ limit ∧
  accepted_connections c.1 = count accepted c.2 ∧
  rejected_connections c.1 = count rejected c.2 ∧ closed_connections c.1 = count closed c.2 ∧
  (∀ i p id, c.2 !! i = Some p → id_of p = Some id → 1 ≤ id ≤ u32_max) ∧
  (∀ i j p q id, c.2 !! i = Some p → c.2 !! j = Some q →
     id_of p = Some id → id_of q = Some id → i = j).
Proof.
  intros Hl Hn Hs. destruct (reachable_inv limit n c Hl Hn Hs) as [[] _].
  splits; try done. naive_solver.
Qed.

(** A run of two threads with room for one: the first opens, the second is refused. *)
Definition w_run : config :=
  (mkRuntimeState 1 2 false 1 1 0 0 0 0 0 0, [Open_ 1; CountRejected]).
Lemma w_steps : rtc sys_step (init 1 2) w_run.
Proof.
  do 5 (eapply rtc_l; [eapply (sys_thread _ _ 0); [reflexivity|apply ts_open]|]; simpl).
  do 2 (eapply rtc_l; [eapply (sys_thread _ _ 1); [reflexivity|apply ts_open]|]; simpl).
  apply rtc_refl.
Qed.

Lemma admission_invariant_witness :
  active_connections w_run.1 = count holds w_run.2 ∧ active_connections w_run.1 ≤ 1.
Proof.
  destruct (admission_invariant 1 2 w_run) as (H1 & H2 & _).
  - unfold u32_max. lia.
  - unfold u64_max. lia.
  - apply w_steps.
  - split; [exact H1|exact H2].
Defined.

(** ** Shutdown *)

(** A thread that has not passed the second shutdown check. *)
Definition not_admitted (p : pc) : bool :=
  match p with
  | Start | Reserve | CountRejected | Recheck | Release _ | Failed_ _ => true
  | _ => false
  end.

Lemma not_admitted_step s p s' p' :
  shutdown_requested s = true → not_admitted p = true → thread_step s p s' p' →
  not_admitted p' = true.
Proof.
  intros Hsd Hp Hs. destruct Hs; try done.
  destruct p; try done; simpl; rewrite ?Hsd; try done.
  by destruct (_ <? _).
Qed.

Lemma shutdown_step s p s' p' :
  shutdown_requested s = true → thread_step s p s' p' → shutdown_requested s' = true.
Proof. intros Hsd Hs. destruct Hs; try done. destruct p; simpl; try done; by repeat case_match. Qed.

(** Shutdown stops admission: once it is requested it stays requested, and a
    thread that has not passed its second check at that moment never obtains a
    connection, whatever the other threads do. *)
Theorem shutdown_stops_admission c c' i p :
  shutdown_requested c.1 = true → c.2 !! i = Some p → not_admitted p = true →
  rtc sys_step c c' →
  shutdown_requested c'.1 = true ∧
  ∃ p', c'.2 !! i = Some p' ∧ not_admitted p' = true ∧ id_of p' = None.
Proof.
  intros Hsd Hp Hn Hs. revert p Hp Hn Hsd.
  induction Hs as [c|c c1 c2 Hs _ IH]; intros p Hp Hn Hsd.
  - split; [done|]. exists p. by destruct p.
  - destruct Hs as [s ps j q s' q' Hq Ht|s ps]; simpl in *; [|by eapply IH].
    assert (shutdown_requested s' = true) by (by eapply shutdown_step).
    destruct (decide (j = i)) as [->|Hne].
    + assert (p = q) as -> by congruence.
      apply (IH q'); [|by apply (not_admitted_step s q s')|done].
      apply list_lookup_insert_eq. by eapply lookup_lt_Some.
    + eapply IH; [by rewrite list_lookup_insert_ne|done..].
Qed.

Lemma shutdown_stops_admission_witness :
  ∃ p', [Recheck; Failed_ ShuttingDown] !! 0%nat = Some p' ∧ not_admitted p' = true ∧
        id_of p' = None.
Proof.
  destruct (shutdown_stops_admission
    (request_shutdown (set_active (init 1 2).1 1), [Recheck; Start])
    (request_shutdown (set_active (init 1 2).1 1), [Recheck; Failed_ ShuttingDown]) 0 Recheck)
    as [_ H]; [reflexivity..| |exact H].
  apply rtc_once, (sys_thread _ [Recheck; Start] 1 Start _ (Failed_ ShuttingDown));
    [reflexivity|]. apply (ts_open (request_shutdown (set_active (init 1 2).1 1)) Start).
Defined.

(** ** One call *)

Lemma try_open_eq s :
  0 ≤ active_connections s ≤ max_connections s → max_connections s ≤ u32_max →
  1 ≤ next_gateway_id s < u64_max → 0 ≤ accepted_connections s < u64_max →
  0 ≤ rejected_connections s < u64_max →
  (∃ p, (run_open 6 s Start).2 = p ∧ ((∃ id, p = Open_ id) ∨ ∃ e, p = Failed_ e)) ∧
  try_open s =
    if shutdown_requested s then (Err ShuttingDown, s)
    else if decide (active_connections s = max_connections s)
    then (Err Capacity, set_counts s (accepted_connections s) (rejected_connections s + 1)
                          (closed_connections s))
    else if decide (u32_max < next_gateway_id s)
    then (Err IdExhausted, set_next_id s (next_gateway_id s + 1))
    else (Ok (next_gateway_id s),
          set_counts (set_next_id (set_active s (active_connections s + 1))
                        (next_gateway_id s + 1))
            (accepted_connections s + 1) (rejected_connections s) (closed_connections s)).
Proof.
  intros Ha Hm Hn Hac Hrj. unfold try_open. simpl.
  destruct (shutdown_requested s) eqn:Esd; simpl; [eauto 6|].
  destruct (Z.ltb_spec (active_connections s) (max_connections s)).
  - rewrite (decide_False (P:=active_connections s = max_connections s)) by lia. simpl.
    rewrite Esd. simpl. rewrite (wrapping_succ (next_gateway_id s)) by lia.
    destruct (Z.leb_spec (next_gateway_id s) u32_max); simpl.
    + destruct (Z.eqb_spec (next_gateway_id s) 0); [lia|]. simpl.
      rewrite (decide_False (P:=u32_max < next_gateway_id s)) by lia.
      rewrite wrapping_succ by lia. split; [by eauto|done].
    + rewrite (decide_True (P:=u32_max < next_gateway_id s)) by lia.
      rewrite wrapping_pred by (unfold u32_max in *; lia).
      split; [by eauto|]. f_equal. destruct s. simpl. unfold set_next_id, set_active. simpl.
      f_equal. lia.
  - rewrite (decide_True (P:=active_connections s = max_connections s)) by lia. simpl.
    rewrite wrapping_succ by lia. split; [by eauto|done].
Qed.

(** What a caller can rely on, in any state the counters can reach. *)
Lemma try_open_active s :
  0 ≤ active_connections s → max_connections s ≤ u32_max → 0 ≤ next_gateway_id s →
  let s' := (try_open s).2 in
  max_connections s' = max_connections s ∧ 0 ≤ next_gateway_id s' ∧
  shutdown_requested s' = shutdown_requested s ∧
  match (try_open s).1 with
  | Ok id => 1 ≤ id ≤ u32_max ∧ active_connections s' = active_connections s + 1
  | Err _ => active_connections s' = active_connections s
  end.
Proof.
  intros Ha Hm Hn. assert (0 ≤ wrapping_add_u64 (next_gateway_id s) 1)
    by (unfold wrapping_add_u64; apply Z.mod_pos_bound; lia).
  unfold try_open. simpl. destruct (shutdown_requested s) eqn:Esd; simpl; [done|].
  destruct (Z.ltb_spec (active_connections s) (max_connections s)); simpl; [|done].
  rewrite Esd. simpl.
  destruct (Z.leb_spec (next_gateway_id s) u32_max); simpl;
    [destruct (Z.eqb_spec (next_gateway_id s) 0); simpl|];
    rewrite ?wrapping_pred by lia; splits; done || lia.
Qed.

(** [try_open] alone always finishes within six atomic accesses, and is the
    admission policy: shutting down refuses without touching the state; a full
    runtime refuses and counts the rejection; otherwise the next id is handed out
    and one more connection is active and accepted, unless the ids are used up, in
    which case the slot is given back. *)
Theorem try_open_spec s :
  0 ≤ active_connections s ≤ max_connections s → max_connections s ≤ u32_max →
  1 ≤ next_gateway_id s < u64_max → 0 ≤ accepted_connections s < u64_max →
  0 ≤ rejected_connections s < u64_max →
  (∃ p, (run_open 6 s Start).2 = p ∧ ((∃ id, p = Open_ id) ∨ ∃ e, p = Failed_ e)) ∧
  try_open s =
    if shutdown_requested s then (Err ShuttingDown, s)
    else if decide (active_connections s = max_connections s)
    then (Err Capacity, set_counts s (accepted_connections s) (rejected_connections s + 1)
                          (closed_connections s))
    else if decide (u32_max < next_gateway_id s)
    then (Err IdExhausted, set_next_id s (next_gateway_id s + 1))
    else (Ok (next_gateway_id s),
          set_counts (set_next_id (set_active s (active_connections s + 1))
                        (next_gateway_id s + 1))
            (accepted_connections s + 1) (rejected_connections s) (closed_connections s)).
Proof. apply try_open_eq. Qed.

Lemma try_open_spec_witness :
  try_open (init 1 0).1 =
    (Ok 1, set_counts (set_next_id (set_active (init 1 0).1 1) 2) 1 0 0).
Proof.
  destruct (try_open_spec (init 1 0).1) as [_ H]; simpl;
    unfold u32_max, u64_max; try lia. exact H.
Defined.
End IngestFacts.
