(* ===== verification/GatewayConnection.v ===== *)
(** The daemon's end of a gateway connection:
    crates/adapters/sandbox_link/upstream/src/connection.rs, with the sequential
    [deliver] of gateway_ingest_runtime.

    This is where the wire formats, the batch codec and the admission runtime meet.
    The socket and the observation sink are interfaces (type classes); the sequence of
    reads the socket returns is an argument of [run_inner].  A worker is run on its
    own: what other workers do to the shared runtime meanwhile is the subject of
    [GatewayIngest]. *)
From stdpp Require Import prelude gmap strings pretty.
From Stdlib Require Import ZArith Lia.
From coqutil Require Import Byte.
From S2P Require Import Prelude Bytes Wire Vsock Upstream SandboxObservation BatchCodec GatewayIngest.

Open Scope Z_scope.

Record ConnectionError := mkConnectionError {
  cne_stage : string;
  cne_message : string;
}.

(** [SandboxObservationSink] and the writing half of the [TcpStream]. *)
Class SandboxObservationSink (K : Type) : Type := {
  sink_deliver : Z → Z → ObservationBatch → ST K SinkDeliveryError ();
}.
Class ByteStream (T : Type) : Type := {
  write_all : list byte → ST T string ();
}.

(** What one [stream.read] returned: bytes, end of file, a timeout (with whether the
    connection has been idle for too long), or another error. *)
Inductive ReadEvent :=
| ReadBytes (capacity : nat) (bytes : list byte)
| ReadEof
| ReadTimeout (idle_expired : bool)
| ReadError (text : string).

Module Connection.
Section worker.
Context {T K : Type} `{!ByteStream T, !SandboxObservationSink K}.

(** [ConnectionWorker] without its decoder and constant fields; the decoder is
    threaded next to it. *)
Record Worker := mkWorker {
  wk_stream : T;
  wk_connection : option Z;
  wk_runtime : RuntimeState;
  wk_sink : K;
  wk_sink_delivery_failed_batches : Z;
  wk_welcomed : bool;
}.

Abbreviation ConnM := (ST Worker (fault ConnectionError)).

Definition protocol_error (message : string) : fault ConnectionError :=
  Failed (mkConnectionError "protocol" message).
Definition wire (stage : string) (e : WireError) : fault ConnectionError :=
  Failed (mkConnectionError stage (we_message e)).
Definition wire_fault (stage : string) (e : fault WireError) : fault ConnectionError :=
  match e with Panicked => Panicked | Failed e => wire stage e end.

(** [GatewayOpenError::fmt]. *)
Definition open_error_text (e : GatewayOpenError) : string :=
  match e with
  | InvalidConnectionLimit => "gateway connection limit must be positive"
  | Capacity => "gateway connection capacity is full"
  | IdExhausted => "gateway ID space is exhausted"
  | ShuttingDown => "gateway ingest is shutting down"
  end.

Definition set_runtime (w : Worker) (rt : RuntimeState) : Worker :=
  mkWorker (wk_stream w) (wk_connection w) rt (wk_sink w)
    (wk_sink_delivery_failed_batches w) (wk_welcomed w).

(** [Drop for GatewayConnection]: both atomics, in order. *)
Definition drop_connection (rt : RuntimeState) : RuntimeState :=
  Ingest.count_closed (Ingest.drop_active rt).

(** [GatewayConnection::deliver]. *)
Definition deliver (gateway_id sb_id : Z) (batch : ObservationBatch) (k : K)
    (rt : RuntimeState) : result SinkDeliveryError () * K * RuntimeState :=
  let observation_count := Z.of_nat (length (ob_observations batch)) in
  match sink_deliver gateway_id sb_id batch k with
  | (Ok _, k') =>
      (Ok (), k', Ingest.count_observations (Ingest.count_batch rt) observation_count)
  | (Err e, k') => (Err e, k', Ingest.count_failure rt)
  end.

(** [write_frame]. *)
Definition write_frame (f : Frame UpFrameCode) : ConnM () := λ w,
  match FrameOps.encode f with
  | Err e => (Err (wire "upstream_encode" e), w)
  | Ok bytes =>
      let '(r, t) := write_all bytes (wk_stream w) in
      (map_err (λ text, Failed (mkConnectionError "write" text)) r,
       mkWorker t (wk_connection w) (wk_runtime w) (wk_sink w)
         (wk_sink_delivery_failed_batches w) (wk_welcomed w))
  end.

(** The handshake half of [handle_frame].  The connection returned by [try_open] is
    a local until the end: every early return after it drops it. *)
Definition welcome (f : Frame UpFrameCode) : ConnM () := λ w,
  if negb (bool_decide (f_code f = GatewayHello))
  then (Err (protocol_error "first frame must be GatewayHello"), w)
  else
  match Upstream.decode_gateway_hello f with
  | Err e => (Err (wire "gateway_hello" e), w)
  | Ok workload_cgroup_observations =>
  match Ingest.try_open (wk_runtime w) with
  | (Err e, rt) => (Err (protocol_error (open_error_text e)), set_runtime w rt)
  | (Ok gateway_id, rt) =>
  match Upstream.gateway_welcome gateway_id workload_cgroup_observations with
  | Err e => (Err (wire "gateway_welcome" e), set_runtime w (drop_connection rt))
  | Ok reply =>
  match write_frame reply (set_runtime w rt) with
  | (Err e, w') => (Err e, set_runtime w' (drop_connection (wk_runtime w')))
  | (Ok _, w') =>
      (Ok (), mkWorker (wk_stream w') (Some gateway_id) (wk_runtime w') (wk_sink w')
                (wk_sink_delivery_failed_batches w') true)
  end end end end.

(** [connection]. *)
Definition connection (w : Worker) : result (fault ConnectionError) Z :=
  ok_or (protocol_error "gateway connection is not registered") (wk_connection w).

(** The checks of [handle_forwarded]: the envelope holds exactly one complete
    observation-batch frame. *)
Definition unpack_forwarded (payload : list byte)
    : result (fault ConnectionError) (Z * ObservationBatch) :=
  forwarded ← map_err (wire "forwarded_sb") (Upstream.forwarded_decode payload);
  let bytes := fw_frame_bytes forwarded in
  let d0 := Stream.push (length bytes) bytes Stream.with_capacity in
  let '(r1, d1) := Stream.next_frame (Code:=SbFrameCode) d0 in
  first ← map_err (wire_fault "sb_frame") r1;
  frame ← ok_or (protocol_error "forwarded SB frame is incomplete") first;
  let '(r2, d2) := Stream.next_frame (Code:=SbFrameCode) d1 in
  second ← map_err (wire_fault "sb_frame") r2;
  more ← (match second with
          | Some _ => Ok true
          | None =>
              encoded ← map_err (wire "sb_frame") (FrameOps.encode frame);
              Ok (negb (bool_decide (encoded = bytes)))
          end : result (fault ConnectionError) bool);
  if more : bool
  then Err (protocol_error "ForwardedSbFrame must contain exactly one complete SB frame")
  else if negb (bool_decide (f_code frame = ObservationBatchCode))
  then Err (protocol_error "ForwardedSbFrame must contain an ObservationBatch")
  else
    batch ← map_err (wire_fault "observation_batch") (Codec.decode (f_payload frame));
    Ok (fw_sb_id forwarded, batch).

(** Delivering one batch and counting a failure. *)
Definition deliver_one (gateway_id : Z) (w : Worker) (p : Z * ObservationBatch) : Worker :=
  let '(r, k, rt) := deliver gateway_id p.1 p.2 (wk_sink w) (wk_runtime w) in
  mkWorker (wk_stream w) (wk_connection w) rt k
    (if is_ok r then wk_sink_delivery_failed_batches w
     else wrapping_add_u64 (wk_sink_delivery_failed_batches w) 1)
    (wk_welcomed w).

(** [handle_forwarded]. *)
Definition handle_forwarded (payload : list byte) : ConnM () := λ w,
  match unpack_forwarded payload with
  | Err e => (Err e, w)
  | Ok p =>
      match connection w with
      | Err e => (Err e, w)
      | Ok gateway_id => (Ok (), deliver_one gateway_id w p)
      end
  end.

(** [handle_frame]. *)
Definition handle_frame (f : Frame UpFrameCode) : ConnM () := λ w,
  if negb (wk_welcomed w) then welcome f w
  else
    match f_code f with
    | UpHeartbeat =>
        if bool_decide (f_payload f = []) then
          match connection w with
          | Err e => (Err e, w)
          | Ok _ => (Ok (), set_runtime w (Ingest.record_heartbeat (wk_runtime w)))
          end
        else (Err (protocol_error "Heartbeat payload must be empty"), w)
    | ForwardedSbFrameCode => handle_forwarded (f_payload f) w
    | GatewayHello | GatewayWelcomeCode =>
        (Err (protocol_error "unexpected handshake frame after GatewayWelcome"), w)
    end.

(** The loop [while let Some(frame) = decoder.next_frame()? { handle_frame(frame)? }]. *)
Fixpoint pump (fuel : nat) (d : FrameDecoder) (w : Worker)
    : result (fault ConnectionError) () * FrameDecoder * Worker :=
  match fuel with
  | O => (Ok (), d, w)
  | S fuel' =>
      match Stream.next_frame (Code:=UpFrameCode) d with
      | (Err e, d') => (Err (wire_fault "upstream_decode" e), d', w)
      | (Ok None, d') => (Ok (), d', w)
      | (Ok (Some f), d') =>
          match handle_frame f w with
          | (Err e, w') => (Err e, d', w')
          | (Ok _, w') => pump fuel' d' w'
          end
      end
  end.

(** [run_inner] on the reads the socket returns; [None] when they are used up while
    the worker would go on reading. *)
Fixpoint run_inner (events : list ReadEvent) (d : FrameDecoder) (w : Worker)
    : option (result (fault ConnectionError) ()) * FrameDecoder * Worker :=
  if Ingest.is_shutdown_requested (wk_runtime w) then (Some (Ok ()), d, w)
  else
    match events with
    | [] => (None, d, w)
    | ReadEof :: _ => (Some (Ok ()), d, w)
    | ReadTimeout true :: _ => (Some (Ok ()), d, w)
    | ReadTimeout false :: events' => run_inner events' d w
    | ReadError text :: _ => (Some (Err (Failed (mkConnectionError "read" text))), d, w)
    | ReadBytes capacity bytes :: events' =>
        let d1 := Stream.push capacity bytes d in
        match pump (S (length (fd_buffer d1))) d1 w with
        | (Err e, d2, w2) => (Some (Err e), d2, w2)
        | (Ok _, d2, w2) => run_inner events' d2 w2
        end
    end.

(** The end of [run]: the worker and with it its connection are dropped. *)
Definition drop_worker (w : Worker) : RuntimeState :=
  match wk_connection w with
  | Some _ => drop_connection (wk_runtime w)
  | None => wk_runtime w
  end.
End worker.
End Connection.

(** * Relaying observations *)

Module ConnectionFacts.
Import Connection.

Section facts.
Context {T K : Type} `{!ByteStream T, !SandboxObservationSink K}.
Implicit Types (w : Worker (T:=T) (K:=K)) (f : Frame UpFrameCode).

(** The frame a sandbox sends for a batch, and the frame a gateway forwards it in. *)
Definition sb_frame (b : ObservationBatch) : Frame SbFrameCode :=
  mkFrame ObservationBatchCode
    (match Codec.encode b with Ok bytes => bytes | Err _ => [] end).
Definition envelope (sb_id : Z) (sf : Frame SbFrameCode) : Frame UpFrameCode :=
  mkFrame ForwardedSbFrameCode
    (Upstream.forwarded_encode (mkForwarded sb_id (WireFacts.encoded sf))).
Definition forwarded_frame (p : Z * ObservationBatch) : Frame UpFrameCode :=
  envelope p.1 (sb_frame p.2).
Definition item_ok (p : Z * ObservationBatch) : Prop :=
  in_u32 p.1 ∧ p.1 ≠ 0 ∧ CodecFacts.batch_ok p.2 ∧ WireFacts.frame_fits (sb_frame p.2).

(** Any sandbox frame fits into an envelope: the upstream limit is larger. *)
Lemma envelope_fits sb_id (sf : Frame SbFrameCode) :
  WireFacts.frame_fits sf → WireFacts.frame_fits (envelope sb_id sf).
Proof.
  intros Hf. pose proof (WireFacts.encoded_length _ Hf) as Hl.
  unfold WireFacts.frame_fits, WireFacts.fits, envelope in *.
  cbn [f_payload MAX_FRAME_BYTES Upstream.protocol Vsock.protocol] in *.
  unfold Upstream.forwarded_encode. rewrite length_app, length_u32_be.
  cbn [fw_frame_bytes]. rewrite Hl.
  unfold Upstream.MAX_FRAME_BYTES, Vsock.MAX_FRAME_BYTES, HEADER_BYTES in *. lia.
Qed.

Lemma forwarded_frame_fits p : item_ok p → WireFacts.frame_fits (forwarded_frame p).
Proof.
  intros (_ & _ & _ & Hf). unfold forwarded_frame. exact (envelope_fits _ _ Hf).
Qed.

Lemma next_frame_single (sf : Frame SbFrameCode) :
  WireFacts.frame_fits sf →
  let bytes := WireFacts.encoded sf in
  ∃ d1 d2, Stream.next_frame (Stream.push (length bytes) bytes Stream.with_capacity) =
             (Ok (Some sf), d1) ∧
           Stream.next_frame (Code:=SbFrameCode) d1 = (Ok None, d2).
Proof.
  intros Hf. cbv zeta.
  assert (WireFacts.decoder_ok Stream.with_capacity) as H0 by (by unfold WireFacts.decoder_ok).
  destruct (WireFacts.push_refines (length (WireFacts.encoded sf)) (WireFacts.encoded sf) _ H0) as [H1 Hp].
  pose proof (WireFacts.next_frame_refines (Code:=SbFrameCode) _ H1) as Hn. rewrite Hp in Hn.
  destruct (Stream.next_frame _) as [r1 d1]. destruct Hn as [Hok1 Hn].
  assert (WireFacts.pending Stream.with_capacity ++ WireFacts.encoded sf =
          WireFacts.encoded sf ++ []) as Eb
    by (by rewrite app_nil_r).
  rewrite Eb, (WireFacts.next_of_frame sf _ [] Hf (WireFacts.encoded_Ok sf Hf)) in Hn.
  injection Hn as <- Ep. exists d1.
  pose proof (WireFacts.next_frame_refines (Code:=SbFrameCode) _ Hok1) as Hn2.
  destruct (Stream.next_frame d1) as [r2 d2]. destruct Hn2 as [_ Hn2].
  rewrite <-Ep in Hn2. injection Hn2 as <- _. by exists d2.
Qed.

Lemma unpack_Ok p : item_ok p → unpack_forwarded (f_payload (forwarded_frame p)) = Ok p.
Proof.
  intros (Hu & Hid & Hb & Hf). destruct p as [sb b]. simpl in *.
  pose proof (WireFacts.encoded_length _ Hf) as Hl.
  destruct (next_frame_single _ Hf) as (d1 & d2 & E1 & E2).
  unfold unpack_forwarded, forwarded_frame, envelope. cbn [f_payload fst snd].
  rewrite UpstreamFacts.forwarded_decode_encode; [|done|done|].
  2:{ cbn [fw_frame_bytes]. intros E. rewrite E in Hl. by simpl in Hl. }
  munfold. cbn [fw_frame_bytes fw_sb_id]. rewrite E1, E2.
  rewrite (WireFacts.encoded_Ok _ Hf). rewrite (bool_decide_true (_ = _)) by done. cbn [negb].
  rewrite (bool_decide_true (f_code _ = _)) by done. cbn [negb sb_frame f_payload].
  rewrite (CodecFacts.encode_Ok _ Hb).
  by rewrite (CodecFacts.decode_encode _ _ Hb (CodecFacts.encode_Ok _ Hb)).
Qed.

(** Everything [unpack_forwarded] accepts is a valid batch of a real sandbox. *)
Lemma unpack_sound payload :
  match unpack_forwarded payload with
  | Ok p => in_u32 p.1 ∧ p.1 ≠ 0 ∧ CodecFacts.batch_ok p.2
  | Err e => e ≠ Panicked
  end.
Proof.
  unfold unpack_forwarded. munfold.
  destruct (Upstream.forwarded_decode payload) as [fw|e] eqn:Efw; [|done].
  destruct (UpstreamFacts.forwarded_decode_sound _ _ Efw) as (_ & Hu & Hid & _).
  set (d0 := Stream.push _ _ _).
  assert (WireFacts.decoder_ok d0) as H0.
  { apply WireFacts.push_refines. by unfold WireFacts.decoder_ok. }
  pose proof (WireFacts.next_frame_refines (Code:=SbFrameCode) _ H0) as Hn.
  destruct (Stream.next_frame d0) as [r1 d1]. destruct Hn as [Hok1 Hn1].
  assert (∀ p r q, WireFacts.next_of (Code:=SbFrameCode) p = (Err r, q) → r ≠ Panicked) as Hnp.
  { intros p r q. unfold WireFacts.next_of. by repeat case_match; intros; simplify_eq. }
  destruct r1 as [[fr|]|e1]; [|done|destruct e1; [by apply Hnp in Hn1|done]].
  pose proof (WireFacts.next_frame_refines (Code:=SbFrameCode) _ Hok1) as Hn2.
  destruct (Stream.next_frame d1) as [r2 d2]. destruct Hn2 as [_ Hn2].
  destruct r2 as [[fr2|]|e2]; [done| |destruct e2; [by apply Hnp in Hn2|done]].
  destruct (FrameOps.encode fr); [|done]. case_bool_decide; [|done]. cbn [negb].
  case_bool_decide; [|done]. cbn [negb].
  pose proof (CodecFacts.decode_sound (f_payload fr)) as Hd.
  destruct (Codec.decode (f_payload fr)) as [b|[|e]]; done.
Qed.

(** ** From frames to the decoder loop *)

Fixpoint handle_all (fs : list (Frame UpFrameCode))
    : ST (Worker (T:=T) (K:=K)) (fault ConnectionError) () :=
  match fs with
  | [] => mret ()
  | f :: fs' => _ ← handle_frame f; handle_all fs'
  end.

Lemma pump_drain fuel d fs d' w w' :
  Stream.drain_fuel fuel d = (fs, None, d') → handle_all fs w = (Ok (), w') →
  pump fuel d w = (Ok (), d', w').
Proof.
  revert d fs w. induction fuel as [|fuel IH]; intros d fs w Hd Hh; simpl in *.
  { by injection Hd as <- <-; injection Hh as <-. }
  destruct (Stream.next_frame d) as [[[f|]|e] d1]; [|by injection Hd as <- <-; injection Hh as <-|done].
  destruct (Stream.drain_fuel fuel d1) as [[fs1 e1] d2] eqn:E1. injection Hd as <- -> ->.
  simpl in Hh. revert Hh. munfold.
  destruct (handle_frame f w) as [[[]|e] w1]; [|done]. by apply IH.
Qed.

(** Handling a frame never changes the shutdown flag. *)
Lemma welcome_shutdown f w :
  shutdown_requested (wk_runtime (welcome f w).2) = shutdown_requested (wk_runtime w).
Proof.
  assert (shutdown_requested (Ingest.try_open (wk_runtime w)).2
          = shutdown_requested (wk_runtime w)) as Hs.
  { unfold Ingest.try_open. simpl.
    destruct (shutdown_requested (wk_runtime w)) eqn:E; simpl; [done|].
    destruct (_ <? _); simpl; [|done]. rewrite E. simpl. by destruct (_ && _). }
  unfold welcome, write_frame.
  destruct (negb _); [done|]. destruct (Upstream.decode_gateway_hello f); [|done].
  destruct (Ingest.try_open (wk_runtime w)) as [[id|e] rt]; simpl in *; [|done].
  destruct (Upstream.gateway_welcome id a); [|done].
  destruct (FrameOps.encode a0); [|done]. simpl.
  by destruct (write_all a1 (wk_stream w)) as [[[]|e] t].
Qed.

Lemma deliver_one_frame gid w p :
  wk_connection (deliver_one gid w p) = wk_connection w ∧
  wk_welcomed (deliver_one gid w p) = wk_welcomed w ∧
  wk_stream (deliver_one gid w p) = wk_stream w ∧
  wk_sink (deliver_one gid w p) = (sink_deliver gid p.1 p.2 (wk_sink w)).2 ∧
  shutdown_requested (wk_runtime (deliver_one gid w p)) = shutdown_requested (wk_runtime w) ∧
  active_connections (wk_runtime (deliver_one gid w p)) = active_connections (wk_runtime w) ∧
  max_connections (wk_runtime (deliver_one gid w p)) = max_connections (wk_runtime w) ∧
  next_gateway_id (wk_runtime (deliver_one gid w p)) = next_gateway_id (wk_runtime w).
Proof.
  unfold deliver_one, deliver. by destruct (sink_deliver _ _ _ _) as [[[]|e] k].
Qed.

Lemma handle_frame_shutdown f w :
  shutdown_requested (wk_runtime (handle_frame f w).2) = shutdown_requested (wk_runtime w).
Proof.
  unfold handle_frame. destruct (wk_welcomed w); simpl; [|apply welcome_shutdown].
  destruct (f_code f); simpl; [done|done| |].
  - case_bool_decide; [|done]. unfold connection. by destruct (wk_connection w).
  - unfold handle_forwarded. destruct (unpack_forwarded _); [|done]. unfold connection.
    destruct (wk_connection w); [|done]. by apply deliver_one_frame.
Qed.

Lemma handle_all_shutdown fs w :
  shutdown_requested (wk_runtime (handle_all fs w).2) = shutdown_requested (wk_runtime w).
Proof.
  revert w. induction fs as [|f fs IH]; intros w; [done|]. simpl. munfold.
  pose proof (handle_frame_shutdown f w) as H.
  destruct (handle_frame f w) as [[[]|e] w1]; simpl in *; [|done]. by rewrite IH.
Qed.

Lemma handle_all_app fs gs w w' :
  handle_all (fs ++ gs) w = (Ok (), w') ↔
  ∃ w1, handle_all fs w = (Ok (), w1) ∧ handle_all gs w1 = (Ok (), w').
Proof.
  revert w. induction fs as [|f fs IH]; intros w; simpl.
  - split; [by exists w|]. by intros (w1 & [= ->] & ?).
  - munfold. destruct (handle_frame f w) as [[[]|e] w1]; [apply IH|].
    split; [done|]. by intros (? & ? & ?).
Qed.

Lemma run_receive chunks d fs d' w w' :
  shutdown_requested (wk_runtime w) = false →
  Stream.receive chunks d = (fs, None, d') → handle_all fs w = (Ok (), w') →
  run_inner (((λ c, ReadBytes c.1 c.2) <$> chunks) ++ [ReadEof]) d w =
    (Some (Ok ()), d', w').
Proof.
  revert d fs w.
  induction chunks as [|[cap bytes] chunks IH]; intros d fs w Hsd Hr Hh;
    cbn [fmap list_fmap app run_inner Stream.receive fst snd] in *.
  - injection Hr as <- <-. injection Hh as <-. unfold Ingest.is_shutdown_requested.
    by rewrite Hsd.
  - destruct (Stream.drain _) as [[fs1 [e|]] d1] eqn:Ed; [done|].
    destruct (Stream.receive chunks d1) as [[fs2 e2] d2] eqn:Er. injection Hr as <- -> ->.
    apply handle_all_app in Hh as (w1 & H1 & H2).
    unfold Ingest.is_shutdown_requested. rewrite Hsd.
    unfold Stream.drain in Ed. rewrite (pump_drain _ _ _ _ _ _ Ed H1).
    eapply IH; [|done..]. pose proof (handle_all_shutdown fs1 w) as Hs.
    rewrite H1 in Hs. by rewrite <-Hsd.
Qed.

(** ** A whole conversation *)

(** A runtime that admits one more gateway. *)
Record admits (rt : RuntimeState) : Prop := {
  ad_running : shutdown_requested rt = false;
  ad_room : 0 ≤ active_connections rt < max_connections rt;
  ad_limit : max_connections rt ≤ u32_max;
  ad_ids : 1 ≤ next_gateway_id rt ≤ u32_max;
  ad_accepted : 0 ≤ accepted_connections rt < u64_max;
  ad_rejected : 0 ≤ rejected_connections rt < u64_max;
}.

Definition welcome_frame (gateway_id : Z) (cap : bool) : Frame UpFrameCode :=
  mkFrame GatewayWelcomeCode
    (u32_be gateway_id ++ if cap then u32_be Upstream.WORKLOAD_CGROUP_CAPABILITY else []).

Lemma handle_hello w cap t' :
  wk_welcomed w = false → admits (wk_runtime w) →
  let gid := next_gateway_id (wk_runtime w) in
  write_all (WireFacts.encoded (welcome_frame gid cap)) (wk_stream w) = (Ok (), t') →
  ∃ rt', handle_frame (Upstream.gateway_hello cap) w =
    (Ok (), mkWorker t' (Some gid) rt' (wk_sink w) (wk_sink_delivery_failed_batches w) true) ∧
    shutdown_requested rt' = false.
Proof.
  intros Hw [Hsd Hroom Hlim Hids Hacc Hrej] gid Hwrite.
  destruct (IngestFacts.try_open_eq (wk_runtime w)) as [_ Eopen]; try (unfold u64_max, u32_max in *; lia).
  rewrite Hsd, !decide_False in Eopen by lia.
  unfold handle_frame, welcome. rewrite Hw. cbn [negb].
  rewrite (bool_decide_true (f_code _ = _)) by done. cbn [negb].
  rewrite UpstreamFacts.decode_hello, Eopen.
  rewrite UpstreamFacts.gateway_welcome_Ok by lia. fold gid. fold (welcome_frame gid cap).
  unfold write_frame. rewrite WireFacts.encoded_Ok.
  - cbn [wk_stream set_runtime]. rewrite Hwrite. eexists. split; [done|]. simpl. done.
  - unfold WireFacts.frame_fits, WireFacts.fits, welcome_frame. cbn [f_payload].
    rewrite length_app, length_u32_be. by destruct cap.
Qed.

Lemma handle_items gid items w :
  wk_welcomed w = true → wk_connection w = Some gid → Forall item_ok items →
  handle_all (forwarded_frame <$> items) w = (Ok (), foldl (deliver_one gid) w items).
Proof.
  revert w. induction items as [|p items IH]; intros w Hw Hc Hi; [done|].
  apply Forall_cons in Hi as [Hp Hi]. rewrite fmap_cons. cbn [handle_all foldl].
  assert (handle_frame (forwarded_frame p) w = (Ok (), deliver_one gid w p)) as E.
  { unfold handle_frame. rewrite Hw. change (f_code (forwarded_frame p)) with ForwardedSbFrameCode. cbn [negb].
    unfold handle_forwarded, connection. rewrite (unpack_Ok p Hp), Hc. done. }
  munfold. rewrite E. destruct (deliver_one_frame gid w p) as (Ec & Ew & _).
  apply IH; [by rewrite Ew|by rewrite Ec|done].
Qed.

Lemma foldl_deliver gid items w :
  let w' := foldl (deliver_one gid) w items in
  wk_connection w' = wk_connection w ∧ wk_stream w' = wk_stream w ∧
  wk_sink w' = foldl (λ k p, (sink_deliver gid p.1 p.2 k).2) (wk_sink w) items.
Proof.
  revert w. induction items as [|p items IH]; intros w; [done|]. simpl.
  destruct (IH (deliver_one gid w p)) as (-> & -> & ->).
  by destruct (deliver_one_frame gid w p) as (-> & _ & -> & -> & _).
Qed.

(** The relay of a whole conversation. *)
Lemma relay_run w cap items chunks t' :
  wk_welcomed w = false → admits (wk_runtime w) →
  let gid := next_gateway_id (wk_runtime w) in
  write_all (WireFacts.encoded (welcome_frame gid cap)) (wk_stream w) = (Ok (), t') →
  Forall item_ok items →
  concat chunks.*2 =
    concat (WireFacts.encoded <$> (Upstream.gateway_hello cap :: (forwarded_frame <$> items))) →
  ∃ d' w', run_inner (((λ c, ReadBytes c.1 c.2) <$> chunks) ++ [ReadEof])
             Stream.with_capacity w = (Some (Ok ()), d', w') ∧
    wk_connection w' = Some gid ∧ wk_stream w' = t' ∧ WireFacts.pending d' = [] ∧
    wk_sink w' = foldl (λ k p, (sink_deliver gid p.1 p.2 k).2) (wk_sink w) items.
Proof.
  intros Hw Had gid Hwrite Hitems Hbytes.
  set (fs := Upstream.gateway_hello cap :: (forwarded_frame <$> items)) in *.
  assert (Forall WireFacts.frame_fits fs) as Hfs.
  { constructor; [unfold WireFacts.frame_fits, WireFacts.fits; by destruct cap|].
    apply Forall_fmap. eapply Forall_impl; [done|]. apply forwarded_frame_fits. }
  destruct (WireFacts.receive_refines chunks Stream.with_capacity fs [])
    as (d' & Hr & _ & Hp); [by unfold WireFacts.decoder_ok|done|done|by left|
    by rewrite app_nil_r|].
  destruct (handle_hello w cap t' Hw Had Hwrite) as (rt' & Hh & Hsd).
  set (w1 := mkWorker t' (Some gid) rt' (wk_sink w) (wk_sink_delivery_failed_batches w) true).
  destruct (foldl_deliver gid items w1) as (E1 & E2 & E3).
  exists d', (foldl (deliver_one gid) w1 items). splits; [|done..].
  apply (run_receive _ _ fs); [apply Had|done|]. subst fs. cbn [handle_all]. munfold.
  rewrite Hh. by apply (handle_items gid).
Qed.

(** End to end over the upstream link.  When an admissible gateway sends its
    hello and then any list of observation batches, each wrapped in a sandbox frame
    and forwarded, and the socket returns those bytes cut in any way, the worker
    answers with exactly one welcome carrying its gateway id and the announced
    capability, and hands the sink exactly those batches, in order, each with its
    gateway id and sandbox id, then ends normally at end of file. *)
Theorem relay_delivers_batches w cap items chunks t' :
  wk_welcomed w = false → admits (wk_runtime w) →
  let gid := next_gateway_id (wk_runtime w) in
  write_all (WireFacts.encoded (welcome_frame gid cap)) (wk_stream w) = (Ok (), t') →
  Forall item_ok items →
  concat chunks.*2 =
    concat (WireFacts.encoded <$> (Upstream.gateway_hello cap :: (forwarded_frame <$> items))) →
  ∃ d' w', run_inner (((λ c, ReadBytes c.1 c.2) <$> chunks) ++ [ReadEof])
             Stream.with_capacity w = (Some (Ok ()), d', w') ∧
    wk_connection w' = Some gid ∧ wk_stream w' = t' ∧ WireFacts.pending d' = [] ∧
    wk_sink w' = foldl (λ k p, (sink_deliver gid p.1 p.2 k).2) (wk_sink w) items.
Proof. apply relay_run. Qed.

(** ** Whatever arrives *)

(** The sink only ever saw valid batches from real sandboxes of this gateway. *)
Inductive delivers (gid : Z) : K → K → Prop :=
| delivers_refl k : delivers gid k k
| delivers_snoc k k' sb b :
    delivers gid k k' → in_u32 sb → sb ≠ 0 → CodecFacts.batch_ok b →
    delivers gid k (sink_deliver gid sb b k').2.

(** The state of a worker that started as [w0]. *)
Record tracked (w0 w : Worker (T:=T) (K:=K)) : Prop := {
  tk_max : max_connections (wk_runtime w) = max_connections (wk_runtime w0);
  tk_next : 0 ≤ next_gateway_id (wk_runtime w);
  tk_state :
    (wk_connection w = None ∧ wk_welcomed w = false ∧ wk_sink w = wk_sink w0 ∧
     active_connections (wk_runtime w) = active_connections (wk_runtime w0)) ∨
    ∃ gid, wk_connection w = Some gid ∧ wk_welcomed w = true ∧ 1 ≤ gid ≤ u32_max ∧
      delivers gid (wk_sink w0) (wk_sink w) ∧
      active_connections (wk_runtime w) = active_connections (wk_runtime w0) + 1;
}.

Lemma welcome_tracked w0 w f :
  0 ≤ active_connections (wk_runtime w0) < u32_max → max_connections (wk_runtime w0) ≤ u32_max →
  tracked w0 w → wk_welcomed w = false →
  tracked w0 (welcome f w).2 ∧ (welcome f w).1 ≠ Err Panicked.
Proof.
  intros Ha Hm [Tm Tn [(Hc & Hw & Hs & Hact)|(gid & _ & Hw & _)]] Hw'; [|congruence].
  destruct (IngestFacts.try_open_active (wk_runtime w)) as (Om & On & _ & Or); [lia..|].
  unfold welcome. destruct (negb _); [by split; [split; auto|]|].
  destruct (Upstream.decode_gateway_hello f) as [cap|e]; [|by split; [split; auto|]].
  destruct (Ingest.try_open (wk_runtime w)) as [[id|e] rt]; simpl in *.
  2:{ split; [|done]. split; simpl; [congruence|done|]. left. splits; try done. lia. }
  destruct Or as [Hid Ho].
  assert (∀ t, tracked w0 (mkWorker t (wk_connection w) (drop_connection rt) (wk_sink w)
                  (wk_sink_delivery_failed_batches w) (wk_welcomed w))) as Hdrop.
  { intros t. split; cbn [wk_runtime]; [by rewrite <-Tm, <-Om|done|]. left. splits; try done.
    unfold drop_connection. simpl. rewrite IngestFacts.wrapping_pred by lia. lia. }
  rewrite UpstreamFacts.gateway_welcome_Ok by lia. unfold write_frame.
  destruct (FrameOps.encode _) as [bytes|e]; [|split; [apply Hdrop|done]].
  cbn [wk_stream set_runtime]. destruct (write_all bytes (wk_stream w)) as [[[]|e] t].
  - split; [|done]. split; simpl; [congruence|done|]. right. exists id.
    splits; try done; try lia. rewrite Hs. constructor.
  - split; [apply Hdrop|done].
Qed.

Lemma handle_frame_tracked w0 w f :
  0 ≤ active_connections (wk_runtime w0) < u32_max → max_connections (wk_runtime w0) ≤ u32_max →
  tracked w0 w → tracked w0 (handle_frame f w).2 ∧ (handle_frame f w).1 ≠ Err Panicked.
Proof.
  intros Ha Hm Ht. unfold handle_frame. destruct (wk_welcomed w) eqn:Hw; simpl;
    [|by apply welcome_tracked].
  destruct (f_code f); [done|done| |].
  - case_bool_decide; [|done]. unfold connection.
    destruct (wk_connection w) eqn:Ec; [|done]. split; [|done].
    by destruct Ht as [Tm Tn Ts].
  - unfold handle_forwarded. pose proof (unpack_sound (f_payload f)) as Hu.
    destruct (unpack_forwarded (f_payload f)) as [p|e]; [|split; [done|by intros [= ->]]].
    unfold connection. destruct (wk_connection w) as [gid|] eqn:Ec; [|done].
    split; [|done]. cbn [snd fst ok_or].
    destruct Ht as [Tm Tn [(? & ? & _)|(gid' & Ec' & _ & Hg & Hd & Hact)]]; [congruence|].
    assert (gid' = gid) as -> by congruence.
    destruct (deliver_one_frame gid w p) as (E1 & E2 & _ & E4 & _ & E6 & E7 & E8).
    split; [by rewrite E7|by rewrite E8|]. right. exists gid.
    rewrite E1, E2, E4, E6. splits; try done; try lia.
    destruct Hu as (? & ? & ?). by constructor.
Qed.

Lemma pump_tracked w0 fuel d w :
  0 ≤ active_connections (wk_runtime w0) < u32_max → max_connections (wk_runtime w0) ≤ u32_max →
  WireFacts.decoder_ok d → tracked w0 w →
  let '(r, d', w') := pump fuel d w in
  WireFacts.decoder_ok d' ∧ tracked w0 w' ∧ r ≠ Err Panicked.
Proof.
  intros Ha Hm. revert d w. induction fuel as [|fuel IH]; intros d w Hd Ht; [done|].
  cbn [pump]. pose proof (WireFacts.next_frame_refines (Code:=UpFrameCode) d Hd) as Hn.
  destruct (Stream.next_frame d) as [[[f|]|e] d1]; destruct Hn as [Hd1 Hn].
  - destruct (handle_frame_tracked w0 w f Ha Hm Ht) as [Ht1 Hp1].
    destruct (handle_frame f w) as [[[]|e] w1]; [by apply IH|by splits].
  - by splits.
  - splits; [done|done|]. destruct e; [|done]. exfalso.
    revert Hn. unfold WireFacts.next_of. repeat case_match; intros; simplify_eq.
Qed.

Lemma run_inner_tracked w0 events d w :
  0 ≤ active_connections (wk_runtime w0) < u32_max → max_connections (wk_runtime w0) ≤ u32_max →
  WireFacts.decoder_ok d → tracked w0 w →
  let '(r, d', w') := run_inner events d w in tracked w0 w' ∧ r ≠ Some (Err Panicked).
Proof.
  intros Ha Hm. revert d w. induction events as [|ev events IH]; intros d w Hd Ht;
    cbn [run_inner]; destruct (Ingest.is_shutdown_requested _); try (by split).
  destruct ev as [cap bytes| |[]|text]; try (by split); [|by apply IH].
  destruct (WireFacts.push_refines cap bytes d Hd) as [Hd1 _].
  pose proof (pump_tracked w0 (S (length (fd_buffer (Stream.push cap bytes d)))) _ _ Ha Hm Hd1 Ht)
    as Hp.
  destruct (pump _ (Stream.push cap bytes d) w) as [[r d2] w2]. destruct Hp as (? & ? & Hr).
  destruct r as [[]|e]; [by apply IH|]. split; [done|]. congruence.
Qed.

(** Safety on arbitrary input.  Whatever the socket returns, a fresh worker
    never panics; nothing reaches the sink before a gateway id is assigned; after
    that the sink is called only with that id, a non-zero sandbox id and a valid
    batch; and when the worker is gone the runtime's active count is back to what
    it was, so no connection slot leaks. *)
Theorem connection_safety w events :
  0 ≤ active_connections (wk_runtime w) < u32_max → max_connections (wk_runtime w) ≤ u32_max →
  0 ≤ next_gateway_id (wk_runtime w) → wk_welcomed w = false → wk_connection w = None →
  ∃ r d' w', run_inner events Stream.with_capacity w = (r, d', w') ∧
    r ≠ Some (Err Panicked) ∧
    active_connections (drop_worker w') = active_connections (wk_runtime w) ∧
    match wk_connection w' with
    | None => wk_sink w' = wk_sink w
    | Some gid => 1 ≤ gid ≤ u32_max ∧ delivers gid (wk_sink w) (wk_sink w')
    end.
Proof.
  intros Ha Hm Hn Hw Hc.
  assert (tracked w w) as Ht by (split; [done|done|left; by splits]).
  pose proof (run_inner_tracked w events Stream.with_capacity w Ha Hm) as H.
  destruct (run_inner events Stream.with_capacity w) as [[r d'] w'].
  destruct H as [Ht' Hr]; [by unfold WireFacts.decoder_ok|done|].
  exists r, d', w'. splits; [done|done| |].
  - unfold drop_worker. destruct (tk_state _ _ Ht')
      as [(-> & _ & _ & ->)|(gid & -> & _ & _ & _ & E)]; [done|].
    unfold drop_connection. simpl. rewrite E, IngestFacts.wrapping_pred by lia. lia.
  - destruct (tk_state _ _ Ht') as [(-> & _ & -> & _)|(gid & -> & _ & ? & ? & _)]; done.
Qed.
End facts.

(** ** A concrete gateway *)

(** A stream that remembers what was written and a sink that keeps what it got. *)
#[local] Instance w_stream : ByteStream (list byte) :=
  {| write_all := λ bs t, (Ok (), t ++ bs) |}.
#[local] Instance w_sink : SandboxObservationSink (list (Z * Z * ObservationBatch)) :=
  {| sink_deliver := λ gid sb b k, (Ok (), k ++ [(gid, sb, b)]) |}.
Definition w_worker : Worker (T:=list byte) (K:=list (Z * Z * ObservationBatch)) :=
  mkWorker [] None (Ingest.init 4 0).1 [] 0 false.
Definition w_items : list (Z * ObservationBatch) :=
  [(5, mkBatch 1 []); (5, CodecFacts.w_batch)].
Definition w_wire : list byte :=
  concat (WireFacts.encoded <$> (Upstream.gateway_hello true :: (forwarded_frame <$> w_items))).
Definition w_chunks : list (nat * list byte) :=
  [(16%nat, take 10 w_wire); (0%nat, take 90 (drop 10 w_wire)); (64%nat, drop 100 w_wire)].

Lemma relay_delivers_batches_witness :
  ∃ d' w', run_inner (((λ c, ReadBytes c.1 c.2) <$> w_chunks) ++ [ReadEof])
             Stream.with_capacity w_worker = (Some (Ok ()), d', w') ∧
    wk_sink w' = [(1, 5, mkBatch 1 []); (1, 5, CodecFacts.w_batch)].
Proof.
  destruct (relay_delivers_batches w_worker true w_items w_chunks
    (WireFacts.encoded (welcome_frame 1 true))) as (d' & w' & H1 & _ & _ & _ & H2).
  - reflexivity.
  - split; simpl; unfold u32_max, u64_max; lia || reflexivity.
  - reflexivity.
  - repeat constructor; simpl; unfold u32_max; try lia; try apply CodecFacts.w_batch_ok;
      vm_compute; congruence.
  - vm_compute. reflexivity.
  - exists d', w'. split; [exact H1|exact H2].
Defined.

Lemma connection_safety_witness :
  ∃ r d' w', run_inner [ReadBytes 8 (replicate 20 zero_byte)] Stream.with_capacity w_worker =
      (r, d', w') ∧ active_connections (drop_worker w') = 0.
Proof.
  destruct (connection_safety w_worker [ReadBytes 8 (replicate 20 zero_byte)])
    as (r & d' & w' & H1 & _ & H2 & _); simpl; unfold u32_max; try lia; try reflexivity.
  exists r, d', w'. split; [exact H1|exact H2].
Defined.
End ConnectionFacts.
