(* ===== verification/PolicyPath.v ===== *)
(** Paths of the access-control policies: crates/access_control/src/policy/path.rs
    ([PolicyPath::bind]) and policy/command/path.rs ([CommandExecutablePath]), on the
    part of [std::path] they use.

    An absolute [PathBuf] built from normal components is the list of their names
    (the root is the empty list).  The file system is a parameter: what
    [symlink_metadata] and [read_link] answer, fixed for the duration of a call. *)
From stdpp Require Import prelude gmap strings pretty.
From Stdlib Require Import ZArith Lia Ascii.
From S2P Require Import Prelude Wire.

Open Scope Z_scope.

(** * Strings *)

(** [str::split(c)]. *)
Fixpoint split_on (c : ascii) (s : string) : list string :=
  match s with
  | EmptyString => [EmptyString]
  | String a s' =>
      match split_on c s' with
      | p :: ps => if bool_decide (a = c) then EmptyString :: p :: ps else String a p :: ps
      | [] => [String a EmptyString]
      end
  end.

(** [str::contains(c)]. *)
Fixpoint str_contains (c : ascii) (s : string) : bool :=
  match s with
  | EmptyString => false
  | String a s' => bool_decide (a = c) || str_contains c s'
  end.

Definition slash : ascii := "/"%char.
Definition nul : ascii := Ascii.zero.

(** [str::parse::<usize>]: the value, or the text of the [ParseIntError]. *)
Definition digit (a : ascii) : option Z :=
  let n := Z.of_N (N_of_ascii a) in
  if (48 <=? n) && (n <=? 57) then Some (n - 48) else None.
Fixpoint parse_digits (acc : Z) (s : string) : result string Z :=
  match s with
  | EmptyString => Ok acc
  | String a s' =>
      match digit a with
      | None => Err "invalid digit found in string"
      | Some d =>
          let v := acc * 10 + d in
          if v <=? u64_max then parse_digits v s'
          else Err "number too large to fit in target type"
      end
  end.
Definition parse_usize (s : string) : result string Z :=
  match s with
  | EmptyString => Err "cannot parse integer from empty string"
  | String "+" EmptyString => Err "invalid digit found in string"
  | String "+" s' => parse_digits 0 s'
  | _ => parse_digits 0 s
  end.

(** * std::path *)

Inductive component := RootDir | CurDir | ParentDir | Normal (name : string).
#[export] Instance component_eq_dec : EqDecision component.
Proof. solve_decision. Defined.

Abbreviation PathBuf := (list string) (only parsing).

Module Paths.
Definition is_absolute (raw : string) : bool :=
  match raw with String a _ => bool_decide (a = slash) | EmptyString => false end.

(** A piece between separators: empty pieces and "." disappear. *)
Definition piece (p : string) : option component :=
  if bool_decide (p = "") || bool_decide (p = ".") then None
  else if bool_decide (p = "..") then Some ParentDir
  else Some (Normal p).

(** [Path::components]: "." survives only at the front of a relative path. *)
Definition components (raw : string) : list component :=
  let pieces := split_on slash raw in
  if is_absolute raw then RootDir :: omap piece pieces
  else match pieces with
       | p :: ps => (if bool_decide (p = ".") then [CurDir] else []) ++ omap piece (p :: ps)
       | [] => []
       end.

(** [PathBuf::push] of a normal component and [PathBuf::pop]. *)
Definition push (p : PathBuf) (name : string) : PathBuf := p ++ [name].
Definition pop (p : PathBuf) : PathBuf := take (length p - 1) p.

(** [Path::starts_with]. *)
Definition starts_with (p base : PathBuf) : bool := bool_decide (take (length base) p = base).

(** [path.display().to_string()] of an absolute path. *)
Definition display (p : PathBuf) : string :=
  match p with
  | [] => "/"
  | _ => foldr (λ name acc, String slash (name +:+ acc)) EmptyString p
  end.
End Paths.

(** * policy/command/path.rs *)

Module ExecutablePath.
(** One component of the loop in [normalize_absolute]. *)
Definition normalize_step (acc : PathBuf) (c : component) : PathBuf :=
  match c with
  | RootDir | CurDir => acc
  | ParentDir => Paths.pop acc
  | Normal part => Paths.push acc part
  end.

(** [CommandExecutablePath::normalize_absolute]; no Unix path has a prefix. *)
Definition normalize_absolute (raw : string) : result string PathBuf :=
  if bool_decide (raw = "") then Err "command executable must not be empty"
  else if str_contains nul raw then Err "command executable contains NUL"
  else if negb (Paths.is_absolute raw)
  then Err ("command executable " +:+ raw +:+ " must be absolute")
  else Ok (foldl normalize_step [] (Paths.components raw)).
End ExecutablePath.

(** * policy/path.rs *)

(** What the file system answers: [symlink_metadata] of a path, and [read_link]. *)
Inductive Metadata :=
| IsSymlink
| NotSymlink
| Missing                   (* [ErrorKind::NotFound] or [NotADirectory] *)
| MetadataError (text : string).
#[export] Instance metadata_eq_dec : EqDecision Metadata.
Proof. solve_decision. Defined.

Class FileSystem : Type := {
  symlink_metadata : PathBuf → Metadata;
  read_link : PathBuf → result string string;
}.

(** [std::env::var]. *)
Inductive EnvVar := EnvValue (value : string) | EnvNotPresent | EnvError (text : string).

Inductive PathStep :=
| StepRoot
| StepParent
| StepName (name : string)
| StepLeaveLink (path : PathBuf).

Module Bind.
Definition MAX_STEPS_ENV : string := "ACTRAIL_POLICY_PATH_MAX_STEPS".

(** [from_environment]. *)
Definition from_environment (env : EnvVar) : result string Z :=
  match env with
  | EnvValue value =>
      match parse_usize value with
      | Ok v => if 0 <? v then Ok v else Err (MAX_STEPS_ENV +:+ " must be a positive integer")
      | Err _ => Err (MAX_STEPS_ENV +:+ " must be a positive integer")
      end
  | EnvNotPresent => Ok 4096
  | EnvError text => Err ("read " +:+ MAX_STEPS_ENV +:+ ": " +:+ text)
  end.

(** [reserve_step]. *)
Definition reserve_step (remaining : Z) : result string Z :=
  if 1 <=? remaining then Ok (remaining - 1)
  else Err ("policy path resolution exceeds " +:+ MAX_STEPS_ENV).

(** [push_steps]: components are pushed last first, each after reserving a step;
    the head of [pending] is the top of the stack. *)
Definition step_of (c : component) : option PathStep :=
  match c with
  | RootDir => Some StepRoot
  | CurDir => None
  | ParentDir => Some StepParent
  | Normal name => Some (StepName name)
  end.
Fixpoint push_rev (cs : list component) (remaining : Z) (pending : list PathStep)
    : result string (Z * list PathStep) :=
  match cs with
  | [] => Ok (remaining, pending)
  | c :: cs' =>
      match step_of c with
      | None => push_rev cs' remaining pending
      | Some step =>
          remaining' ← reserve_step remaining;
          push_rev cs' remaining' (step :: pending)
      end
  end.
Definition push_steps (raw : string) (remaining : Z) (pending : list PathStep)
    : result string (Z * list PathStep) :=
  push_rev (reverse (Paths.components raw)) remaining pending.

Section bind.
Context `{fs : !FileSystem}.

(** The locals of [bind]. *)
Record state := mkState {
  st_remaining : Z;
  st_pending : list PathStep;
  st_links : gset PathBuf;
  st_resolved : PathBuf;
}.

(** One iteration of the loop: [None] when nothing is pending. *)
Definition bind_step (s : state) : option (result string state) :=
  match st_pending s with
  | [] => None
  | StepRoot :: rest => Some (Ok (mkState (st_remaining s) rest (st_links s) []))
  | StepParent :: rest =>
      Some (Ok (mkState (st_remaining s) rest (st_links s) (Paths.pop (st_resolved s))))
  | StepLeaveLink path :: rest =>
      Some (Ok (mkState (st_remaining s) rest (st_links s ∖ {[path]}) (st_resolved s)))
  | StepName name :: rest =>
      let candidate := Paths.push (st_resolved s) name in
      Some
        match symlink_metadata candidate with
        | IsSymlink =>
            if decide (candidate ∈ st_links s)
            then Err ("policy path contains a symlink cycle at " +:+ Paths.display candidate)
            else
              remaining ← reserve_step (st_remaining s);
              target ← map_err (λ e, "read policy link " +:+ Paths.display candidate
                                       +:+ ": " +:+ e) (read_link candidate);
              '(remaining', pending') ← push_steps target remaining
                                          (StepLeaveLink candidate :: rest);
              Ok (mkState remaining' pending' ({[candidate]} ∪ st_links s) (st_resolved s))
        | NotSymlink | Missing =>
            Ok (mkState (st_remaining s) rest (st_links s) candidate)
        | MetadataError text =>
            Err ("resolve policy path " +:+ Paths.display candidate +:+ ": " +:+ text)
        end
  end.

(** The loop; [None] is running out of fuel. *)
Fixpoint bind_loop (fuel : nat) (s : state) : option (result string PathBuf) :=
  match fuel with
  | O => None
  | S fuel' =>
      match bind_step s with
      | None => Some (Ok (st_resolved s))
      | Some (Err e) => Some (Err e)
      | Some (Ok s') => bind_loop fuel' s'
      end
  end.

(** [PolicyPath::bind].  Every step that is ever pending was paid for out of the
    budget, so the budget bounds the iterations. *)
Definition bind (env : EnvVar) (raw : string) : option (result string PathBuf) :=
  if negb (Paths.is_absolute raw)
  then Some (Err ("policy path " +:+ raw +:+ " must be absolute"))
  else
    match from_environment env with
    | Err e => Some (Err e)
    | Ok budget =>
        match push_steps raw budget [] with
        | Err e => Some (Err e)
        | Ok (remaining, pending) =>
            bind_loop (S (Z.to_nat budget)) (mkState remaining pending ∅ [])
        end
    end.
End bind.
End Bind.

(** [PolicyPath::bind]; it always answers ([BindFacts.bind_total]). *)
Definition policy_bind `{!FileSystem} (env : EnvVar) (raw : string) : result string PathBuf :=
  default (Err "") (Bind.bind env raw).

(** * Lexical normalisation *)

Module PathFacts.
Import Paths ExecutablePath.

(** A name a path component can have. *)
Definition good_name (n : string) : Prop :=
  n ≠ "" ∧ n ≠ "." ∧ n ≠ ".." ∧ str_contains slash n = false ∧ str_contains nul n = false.

Lemma split_on_cons c a s :
  ∃ p ps, split_on c s = p :: ps ∧
    split_on c (String a s) =
      if bool_decide (a = c) then EmptyString :: p :: ps else String a p :: ps.
Proof.
  assert (∃ p ps, split_on c s = p :: ps) as (p & ps & E).
  { destruct s as [|b s]; simpl; [by eauto|].
    destruct (split_on c s); [by eauto|]. case_bool_decide; eauto. }
  exists p, ps. simpl. by rewrite E.
Qed.

Lemma split_on_pieces c d s :
  Forall (λ p, str_contains c p = false ∧ (str_contains d s = false → str_contains d p = false))
    (split_on c s).
Proof.
  induction s as [|a s IH]; [by repeat constructor|].
  destruct (split_on_cons c a s) as (p & ps & E & ->). rewrite E in IH.
  apply Forall_cons in IH as [[Hc Hd] Hps].
  assert (str_contains d (String a s) = false → str_contains d s = false) as Hs
    by (simpl; intros [_ ?]%orb_false_iff; done).
  assert (Forall (λ p, str_contains c p = false ∧
    (str_contains d (String a s) = false → str_contains d p = false)) ps) as Hps'.
  { eapply Forall_impl; [exact Hps|]. naive_solver. }
  case_bool_decide as Ha.
  - repeat constructor; auto.
  - constructor; [|done]. split.
    + simpl. rewrite Hc, bool_decide_false by done. done.
    + intros Hd'. pose proof (Hd (Hs Hd')) as Hp. simpl in *.
      apply orb_false_iff in Hd' as [-> _]. done.
Qed.

Lemma split_on_app c n s q qs :
  str_contains c n = false → split_on c s = q :: qs → split_on c (n +:+ s) = (n +:+ q) :: qs.
Proof.
  intros Hn Hs. induction n as [|a n IH]; [done|]. simpl in Hn.
  apply orb_false_iff in Hn as [Ha Hn]. change (String a n +:+ s) with (String a (n +:+ s)). cbn [split_on].
  by rewrite (IH Hn), Ha.
Qed.

Lemma string_app_nil_r s : s +:+ "" = s.
Proof.
  induction s as [|a s IH]; [done|].
  change (String a s +:+ "") with (String a (s +:+ "")). by rewrite IH.
Qed.

(** The text of a path, split again. *)
Lemma split_display p :
  Forall good_name p →
  split_on slash (foldr (λ name acc, String slash (name +:+ acc)) EmptyString p) = "" :: p
  ∨ p = [].
Proof.
  induction 1 as [|n p (_ & _ & _ & Hn & _) _ IH]; [by right|left].
  cbn [foldr split_on].
  assert (split_on slash (n +:+ foldr (λ name acc, String slash (name +:+ acc)) "" p) = n :: p)
    as ->; [|by rewrite bool_decide_true].
  destruct IH as [IH| ->].
  - rewrite (split_on_app _ _ _ _ _ Hn IH). by rewrite string_app_nil_r.
  - simpl. rewrite string_app_nil_r. rewrite <-(string_app_nil_r n) at 1.
    rewrite (split_on_app _ _ "" "" [] Hn eq_refl). by rewrite string_app_nil_r.
Qed.

Lemma display_no_nul p : Forall good_name p → str_contains nul (display p) = false.
Proof.
  intros Hp. unfold display. destruct p as [|n p]; [done|]. revert Hp. generalize (n :: p).
  clear n p. intros l. induction 1 as [|n l (_ & _ & _ & _ & Hn) _ IH]; [done|].
  cbn [foldr str_contains]. rewrite bool_decide_false by done. simpl.
  induction n as [|a n IHn]; [done|]. simpl in *.
  apply orb_false_iff in Hn as [-> Hn]. auto.
Qed.

Lemma omap_good p : Forall good_name p → omap piece p = Normal <$> p.
Proof.
  induction 1 as [|n p (H1 & H2 & H3 & _) _ IH]; [done|].
  cbn [omap list_omap]. unfold piece at 1.
  rewrite !bool_decide_false by done. simpl. f_equal. exact IH.
Qed.

Lemma foldl_normal p acc : foldl normalize_step acc (Normal <$> p) = acc ++ p.
Proof.
  revert acc. induction p as [|n p IH]; intros acc; simpl; [by rewrite app_nil_r|].
  rewrite IH. unfold push. by rewrite <-app_assoc.
Qed.

Lemma components_display p :
  Forall good_name p → components (display p) = RootDir :: (Normal <$> p).
Proof.
  intros Hp. destruct (split_display p Hp) as [Hs| ->]; [|done].
  unfold components, display. destruct p as [|n p]; [done|].
  cbn [is_absolute foldr]. rewrite bool_decide_true by done.
  cbn [foldr] in Hs. rewrite Hs. cbn [omap list_omap]. f_equal.
  change (omap piece (n :: p) = Normal <$> n :: p). by apply omap_good.
Qed.

Lemma normalize_display p : Forall good_name p → normalize_absolute (display p) = Ok p.
Proof.
  intros Hp. unfold normalize_absolute. rewrite bool_decide_false by (by destruct p).
  rewrite display_no_nul by done.
  assert (is_absolute (display p) = true) as -> by (by destruct p).
  rewrite components_display by done. simpl. by rewrite foldl_normal.
Qed.

Lemma piece_good p c :
  str_contains slash p = false → str_contains nul p = false → piece p = Some c →
  c = ParentDir ∨ ∃ n, c = Normal n ∧ good_name n.
Proof.
  intros Hs Hn. unfold piece. repeat case_bool_decide; simpl; intros; simplify_eq; auto.
  right. exists p. by repeat split.
Qed.

Lemma components_good raw :
  is_absolute raw = true → str_contains nul raw = false →
  ∃ cs, components raw = RootDir :: cs ∧
    Forall (λ c, c = ParentDir ∨ ∃ n, c = Normal n ∧ good_name n) cs.
Proof.
  intros Ha Hn. unfold components. rewrite Ha. eexists. split; [done|].
  pose proof (split_on_pieces slash nul raw) as Hp.
  induction (split_on slash raw) as [|p ps IH]; [constructor|].
  apply Forall_cons in Hp as [[Hs Hnul] Hps]. cbn [omap list_omap].
  destruct (piece p) as [c|] eqn:E; [constructor|]; [|by apply IH..].
  apply (piece_good p); auto.
Qed.

Lemma foldl_good cs acc :
  Forall good_name acc → Forall (λ c, c = ParentDir ∨ ∃ n, c = Normal n ∧ good_name n) cs →
  Forall good_name (foldl normalize_step acc cs).
Proof.
  intros Hacc Hcs. revert acc Hacc. induction Hcs as [|c cs Hc _ IH]; intros acc Hacc; [done|].
  simpl. apply IH. destruct Hc as [->|(n & -> & Hn)]; simpl.
  - unfold pop. by apply Forall_take.
  - unfold push. apply Forall_app. auto.
Qed.

Lemma normalize_good raw p : normalize_absolute raw = Ok p → Forall good_name p.
Proof.
  unfold normalize_absolute. case_bool_decide; [done|].
  destruct (str_contains nul raw) eqn:En; [done|].
  destruct (is_absolute raw) eqn:Ea; [|done]. simpl. intros [= <-].
  destruct (components_good raw Ea En) as (cs & -> & Hcs). simpl. by apply foldl_good.
Qed.

(** Lexical normalisation of executables: it succeeds exactly on non-empty
    absolute paths without NUL; the result consists of real names only (non-empty,
    neither "." nor "..", without separators), so a rule can never be keyed by a path
    with traversal left in it; and normalising the printed result gives it back. *)
Theorem normalize_absolute_canonical raw :
  (is_ok (normalize_absolute raw) = true ↔
     is_absolute raw = true ∧ str_contains nul raw = false) ∧
  ∀ p, normalize_absolute raw = Ok p →
    Forall good_name p ∧ normalize_absolute (display p) = Ok p.
Proof.
  split.
  - unfold normalize_absolute. case_bool_decide as H0; [subst; naive_solver|].
    destruct (str_contains nul raw); [naive_solver|].
    destruct (is_absolute raw); simpl; naive_solver.
  - intros p Hp%normalize_good. split; [done|by apply normalize_display].
Qed.
End PathFacts.

(** * Binding a policy path to its target *)

Module BindFacts.
Import Paths ExecutablePath Bind.

(** The work left: pending steps plus the budget. *)
Definition work (remaining : Z) (pending : list PathStep) : Z :=
  remaining + Z.of_nat (length pending).

Lemma push_rev_work cs remaining pending remaining' pending' :
  0 ≤ remaining → push_rev cs remaining pending = Ok (remaining', pending') →
  0 ≤ remaining' ∧ work remaining' pending' = work remaining pending.
Proof.
  revert remaining pending. induction cs as [|c cs IH]; intros remaining pending H0; simpl.
  { by intros [= <- <-]. }
  destruct (step_of c) as [step|]; [|by apply IH].
  unfold reserve_step. munfold. destruct (Z.leb_spec 1 remaining); [|done].
  intros Hp. apply IH in Hp as [? E]; [|lia]. split; [done|].
  rewrite E. unfold work. simpl. lia.
Qed.

(** Enough budget: everything is pushed, in path order. *)
Lemma push_steps_Ok raw budget :
  Z.of_nat (length (components raw)) ≤ budget →
  ∃ remaining, push_steps raw budget [] = Ok (remaining, omap step_of (components raw)) ∧
               0 ≤ remaining.
Proof.
  unfold push_steps. intros Hb.
  assert (∀ cs r pending, Z.of_nat (length cs) ≤ r →
    ∃ r', push_rev cs r pending = Ok (r', omap step_of (reverse cs) ++ pending) ∧ 0 ≤ r') as H.
  { clear. induction cs as [|c cs IH]; intros r pending Hr; simpl in *.
    - by exists r.
    - rewrite reverse_cons, omap_app. simpl. destruct (step_of c) as [step|].
      + unfold reserve_step. munfold. destruct (Z.leb_spec 1 r); [|lia].
        destruct (IH (r - 1) (step :: pending)) as (r' & -> & ?); [lia|].
        exists r'. by rewrite <-app_assoc.
      + destruct (IH r pending) as (r' & -> & ?); [lia|]. exists r'. by rewrite app_nil_r. }
  destruct (H (reverse (components raw)) budget []) as (r & -> & ?);
    [by rewrite length_reverse|].
  exists r. by rewrite reverse_involutive, app_nil_r.
Qed.

Section fs.
Context `{fs : !FileSystem}.

(** No prefix of the path is a symbolic link. *)
Definition link_free (p : PathBuf) : Prop :=
  ∀ n, (0 < n ≤ length p)%nat → symlink_metadata (take n p) ≠ IsSymlink.

Lemma link_free_pop p : link_free p → link_free (pop p).
Proof.
  intros H n Hn. unfold pop in *. rewrite length_take in Hn.
  rewrite take_take, Nat.min_l by lia. apply H. lia.
Qed.

Lemma link_free_push p name :
  link_free p → symlink_metadata (push p name) ≠ IsSymlink → link_free (push p name).
Proof.
  intros H Hm n Hn. unfold push in *. rewrite length_app in Hn. simpl in Hn.
  destruct (decide (n = length p + 1)%nat) as [->|Hne].
  - rewrite take_ge by (rewrite length_app; simpl; lia). done.
  - rewrite take_app_le by lia. apply H. lia.
Qed.

Record ok (s : state) : Prop := {
  ok_remaining : 0 ≤ st_remaining s;
  ok_resolved : link_free (st_resolved s);
}.

Lemma bind_step_ok s s' :
  ok s → bind_step s = Some (Ok s') →
  ok s' ∧ work (st_remaining s') (st_pending s') = work (st_remaining s) (st_pending s) - 1.
Proof.
  intros [H0 Hl]. unfold bind_step. destruct s as [remaining pending links resolved]. simpl in *.
  destruct pending as [|[| |name|path] rest]; [done|..].
  - intros [= <-]. simpl. split; [split; simpl; [done|]|unfold work; simpl; lia].
    intros n Hn. simpl in Hn. lia.
  - intros [= <-]. simpl.
    split; [split; simpl; [done|by apply link_free_pop]|unfold work; simpl; lia].
  - destruct (symlink_metadata (push resolved name)) eqn:Em; try done.
    + destruct (decide _); [done|]. unfold reserve_step. munfold.
      destruct (Z.leb_spec 1 remaining); [|done].
      destruct (read_link _) as [target|]; [|done]. simpl.
      destruct (push_steps _ _ _) as [[r' p']|] eqn:Ep; [|done]. intros [= <-]. simpl.
      apply push_rev_work in Ep as [? E]; [|lia].
      split; [by split|]. rewrite E. unfold work. simpl. lia.
    + intros [= <-]. simpl.
      split; [split; simpl; [done|by apply link_free_push; [|rewrite Em]]|unfold work; simpl; lia].
    + intros [= <-]. simpl.
      split; [split; simpl; [done|by apply link_free_push; [|rewrite Em]]|unfold work; simpl; lia].
  - intros [= <-]. simpl. split; [by split|unfold work; simpl; lia].
Qed.

Lemma bind_loop_total fuel s :
  ok s → work (st_remaining s) (st_pending s) < Z.of_nat fuel →
  ∃ r, bind_loop fuel s = Some r ∧ ∀ p, r = Ok p → link_free p.
Proof.
  revert s. induction fuel as [|fuel IH]; intros s Hok Hw.
  { destruct Hok as [H0 _]. unfold work in Hw. lia. }
  cbn [bind_loop]. destruct (bind_step s) as [[s'|e]|] eqn:Es.
  - destruct (bind_step_ok s s' Hok Es) as [Hok' Hw']. apply IH; [done|lia].
  - by eexists.
  - eexists. split; [done|]. intros p [= <-]. apply Hok.
Qed.

Lemma from_environment_pos env budget : from_environment env = Ok budget → 0 < budget.
Proof.
  unfold from_environment. destruct env; [|by intros [= <-]|done].
  destruct (parse_usize value) as [v|]; [|done]. by destruct (Z.ltb_spec 0 v); intros [= <-].
Qed.

Lemma bind_total env raw :
  ∃ r, bind env raw = Some r ∧ ∀ p, r = Ok p → link_free p.
Proof.
  unfold bind. destruct (is_absolute raw); simpl; [|by eexists].
  destruct (from_environment env) as [budget|] eqn:Ee; [|by eexists].
  apply from_environment_pos in Ee.
  destruct (push_steps raw budget []) as [[r p]|] eqn:Ep; [|by eexists].
  apply push_rev_work in Ep as [? E]; [|lia].
  apply (bind_loop_total (S (Z.to_nat budget)) (mkState r p ∅ [])).
  - split; simpl; [done|]. intros n Hn. simpl in Hn. lia.
  - simpl. rewrite E. unfold work. simpl. lia.
Qed.

(** Where the file system has no links, binding is lexical normalisation. *)
Lemma bind_loop_lexical fuel r cs links acc :
  (∀ p, symlink_metadata p = NotSymlink ∨ symlink_metadata p = Missing) →
  Forall (λ c, c = ParentDir ∨ ∃ n, c = Normal n ∧ PathFacts.good_name n) cs →
  (length cs < fuel)%nat →
  bind_loop fuel (mkState r (omap step_of cs) links acc) =
    Some (Ok (foldl normalize_step acc cs)).
Proof.
  intros Hfs Hcs. revert fuel acc. induction Hcs as [|c cs Hc _ IH]; intros [|fuel] acc Hf;
    simpl in Hf; try lia; [done|].
  destruct Hc as [->|(n & -> & _)]; cbn [omap list_omap step_of bind_loop].
  - apply IH. lia.
  - unfold bind_step. cbn [st_pending st_resolved].
    destruct (Hfs (push acc n)) as [-> | ->]; apply IH; lia.
Qed.
End fs.

Lemma bind_lexical (fs : FileSystem) (env : EnvVar) (budget : Z) (raw : string) p :
  (∀ q, symlink_metadata q = NotSymlink ∨ symlink_metadata q = Missing) →
  from_environment env = Ok budget → Z.of_nat (length (components raw)) ≤ budget →
  normalize_absolute raw = Ok p →
  Bind.bind env raw = Some (Ok p).
Proof.
  intros Hfs Henv Hb Hn. unfold normalize_absolute in Hn. revert Hn.
  case_bool_decide; [done|]. destruct (str_contains nul raw) eqn:En; [done|].
  destruct (is_absolute raw) eqn:Ea; [|done]. simpl. intros [= <-].
  unfold Bind.bind. rewrite Ea, Henv. simpl.
  destruct (push_steps_Ok raw budget Hb) as (r & -> & Hr).
  destruct (PathFacts.components_good raw Ea En) as (cs & E & Hcs).
  rewrite E in Hb |- *. simpl in Hb. cbn [omap list_omap step_of foldl normalize_step].
  pose proof (from_environment_pos env budget Henv).
  destruct (Z.to_nat budget) as [|k] eqn:Ek; [lia|].
  change (bind_loop (S (S k)) (mkState r (StepRoot :: omap step_of cs) ∅ [])) with
    (bind_loop (S k) (mkState r (omap step_of cs) ∅ [])).
  apply bind_loop_lexical; [done|done|lia].
Qed.


(** ** A concrete file system *)

(** "/bin" is a link to "usr/bin", "/loop" a link to itself. *)
Definition w_fs : FileSystem := {|
  symlink_metadata := λ p,
    if bool_decide (p = ["bin"]) || bool_decide (p = ["loop"]) then IsSymlink
    else NotSymlink;
  read_link := λ p, if bool_decide (p = ["bin"]) then Ok "usr/bin" else Ok "/loop" |}.
Definition w_plain : FileSystem :=
  {| symlink_metadata := λ _, NotSymlink; read_link := λ _, Err "invalid argument" |}.

Example bind_follows_link :
  Bind.bind (fs:=w_fs) EnvNotPresent "/bin/./sh" = Some (Ok ["usr"; "bin"; "sh"]).
Proof. vm_compute. reflexivity. Qed.
Example bind_detects_cycle :
  Bind.bind (fs:=w_fs) EnvNotPresent "/loop/x" =
    Some (Err "policy path contains a symlink cycle at /loop").
Proof. vm_compute. reflexivity. Qed.

Example bind_plain :
  Bind.bind (fs:=w_plain) EnvNotPresent "/usr/../bin/sh" = Some (Ok ["bin"; "sh"]).
Proof. vm_compute. reflexivity. Qed.
End BindFacts.

(** * Binding, as a result *)

Lemma starts_with_prefix p base : Paths.starts_with p base = true → base `prefix_of` p.
Proof.
  unfold Paths.starts_with. intros E%bool_decide_eq_true. exists (drop (length base) p).
  by rewrite <-E at 1; rewrite take_drop.
Qed.

Lemma policy_bind_Ok `{!FileSystem} env raw p : policy_bind env raw = Ok p → Bind.bind env raw = Some (Ok p).
Proof.
  unfold policy_bind. destruct (BindFacts.bind_total env raw) as (r & -> & _). simpl. by intros ->.
Qed.
