(* ===== verification/VsockGateway.v ===== *)
(** The sandbox side of the vsock gateway: crates/core/vsock_gateway_runtime/src/
    session.rs (the registry of sandbox ids), config.rs, and the connection worker of
    runtime.rs, which greets a sandbox and forwards its observation frames upstream.

    The clock and the stop flag are an environment: a list of ticks, one per loop
    iteration.  The reads the socket returns are a list consumed on demand.  The
    writing half of the socket and the upstream sender are type classes. *)
From stdpp Require Import prelude gmap strings pretty.
From Stdlib Require Import ZArith Lia.
From coqutil Require Import Byte.
From S2P Require Import Prelude Bytes Wire Vsock Upstream SandboxObservation BatchCodec GatewayIngest GatewayConnection PolicyPath.

Open Scope Z_scope.

(** * io::Error *)

Inductive ErrorKind :=
| ConnectionRefused | BrokenPipe | WouldBlock | InvalidData | InvalidInput | UnexpectedEof
| OtherKind.
#[export] Instance error_kind_eq_dec : EqDecision ErrorKind.
Proof. solve_decision. Defined.
Record IoError := mkIoError { io_kind : ErrorKind; io_message : string }.
#[export] Instance io_error_eq_dec : EqDecision IoError.
Proof. solve_decision. Defined.

(** * session.rs *)

Record RegistryState := mkRegistryState {
  rs_next_id : Z;                        (* u32 *)
  rs_active : gset Z;
}.

Module Sessions.
Definition wrapping_add_u32 (a b : Z) : Z := (a + b) mod 2 ^ 32.

Definition new : RegistryState := mkRegistryState 1 ∅.

(** The search of [allocate]: [n] candidates at most. *)
Fixpoint probe (n : nat) : ST RegistryState IoError Z := λ s,
  match n with
  | O => (Err (mkIoError OtherKind "no free SB numeric ID"), s)
  | S n' =>
      let candidate := Z.max (rs_next_id s) 1 in
      let next_id := Z.max (wrapping_add_u32 candidate 1) 1 in
      if decide (candidate ∈ rs_active s)
      then probe n' (mkRegistryState next_id (rs_active s))
      else (Ok candidate, mkRegistryState next_id ({[candidate]} ∪ rs_active s))
  end.

(** [allocate], under the lock. *)
Definition allocate (capacity : Z) : ST RegistryState IoError Z := λ s,
  if capacity <=? Z.of_nat (size (rs_active s))
  then (Err (mkIoError ConnectionRefused "SB connection capacity reached"), s)
  else probe (Z.to_nat (capacity + 1)) s.

(** [release] and [active_count]. *)
Definition release (id : Z) (s : RegistryState) : RegistryState :=
  mkRegistryState (rs_next_id s) (rs_active s ∖ {[id]}).
Definition active_count (s : RegistryState) : Z := Z.of_nat (size (rs_active s)).
End Sessions.

(** * config.rs *)

Inductive VsockListenerConfig :=
| KernelVsock (cid port backlog : Z)
| UnixSocket (socket_path : string) (backlog : Z).

(** Durations in nanoseconds; the daemon's address is left to the socket. *)
Record GatewayConfig := mkGatewayConfig {
  gc_listener : VsockListenerConfig;
  gc_max_sb_connections : Z;
  gc_per_sb_forward_quota : Z;
  gc_outbound_queue_capacity : Z;
  gc_upstream_heartbeat_interval : Z;
  gc_sb_peer_idle_timeout : Z;
  gc_io_timeout : Z;
  gc_reconnect_interval : Z;
  gc_accept_poll_interval : Z;
  gc_connection_thread_stack_bytes : Z;
}.

Module Config.
Definition invalid (message : string) : IoError := mkIoError InvalidInput message.

(** [VsockListenerConfig::validate] with [unix_stream::validate_path];
    [sun_path] holds 108 bytes on Linux, [VMADDR_PORT_ANY] is [u32::MAX]. *)
Definition validate_path (path : string) : result IoError () :=
  if bool_decide (path = "") || str_contains nul path
     || (108 <=? Z.of_nat (String.length path))
  then Err (invalid "Unix socket path is empty, contains NUL, or exceeds sockaddr_un")
  else Ok ().
Definition validate_listener (l : VsockListenerConfig) : result IoError () :=
  '(port, backlog) ←
    match l with
    | KernelVsock _ port backlog => Ok (Some port, backlog)
    | UnixSocket path backlog => _ ← validate_path path; Ok (None, backlog)
    end;
  if bool_decide (port = Some u32_max)
  then Err (invalid "kernel VSOCK port must be concrete")
  else if (backlog =? 0) || (2 ^ 31 - 1 <? backlog)
  then Err (invalid "VSOCK backlog must fit a positive i32")
  else Ok ().

(** The loop over the named durations. *)
Fixpoint check_positive (values : list (string * Z)) : result IoError () :=
  match values with
  | [] => Ok ()
  | (name, value) :: rest =>
      if value =? 0 then Err (invalid ("gateway " +:+ name +:+ " must be positive"))
      else check_positive rest
  end.

Definition validate (c : GatewayConfig) : result IoError () :=
  _ ← validate_listener (gc_listener c);
  if (gc_max_sb_connections c =? 0) || (gc_per_sb_forward_quota c =? 0)
     || (gc_outbound_queue_capacity c =? 0) || (gc_connection_thread_stack_bytes c =? 0)
  then Err (invalid "gateway capacities and thread stack must be positive")
  else
    _ ← check_positive
          [("upstream_heartbeat_interval", gc_upstream_heartbeat_interval c);
           ("sb_peer_idle_timeout", gc_sb_peer_idle_timeout c);
           ("io_timeout", gc_io_timeout c);
           ("reconnect_interval", gc_reconnect_interval c);
           ("accept_poll_interval", gc_accept_poll_interval c)];
    reserved_capacity ← ok_or (invalid "gateway reserved forward capacity overflow")
                          (Codec.checked_mul_u64 (gc_max_sb_connections c)
                             (gc_per_sb_forward_quota c));
    if gc_outbound_queue_capacity c <? reserved_capacity
    then Err (invalid "global outbound queue must cover every SB reserved forward quota")
    else Ok ().
End Config.

(** * The connection worker (runtime.rs) *)

(** [UpstreamSender::try_send] with the session's quota. *)
Class UpstreamPort (U : Type) : Type := {
  try_send : list byte → ST U IoError ();
}.

(** What [connection.read] returns. *)
Inductive SbRead :=
| SbData (capacity : nat) (bytes : list byte)
| SbEof
| SbTimeout
| SbError (e : IoError).

(** What one loop iteration sees besides the socket: the stop flag, whether the time
    limit of the loop has passed, and [supports_workload_cgroup_observations]. *)
Record Tick := mkTick { t_stop : bool; t_expired : bool; t_supports : bool }.

Module SbConnection.
Section worker.
Context {T U : Type} `{!ByteStream T, !UpstreamPort U}.

(** What the worker shares with the rest of the gateway. *)
Record Worker := mkSbWorker {
  sw_connection : T;
  sw_upstream : U;
  sw_sessions : RegistryState;
  sw_forwarded_frames : Z;
}.

Definition invalid_data (e : fault WireError) : fault IoError :=
  match e with Panicked => Panicked | Failed e => Failed (mkIoError InvalidData (we_message e)) end.

(** [read_frame_once]: a buffered frame, or one read; no more reads is a timeout. *)
Definition read_frame_once (reads : list SbRead) (d : FrameDecoder)
    : result (fault IoError) (option (Frame SbFrameCode)) * list SbRead * FrameDecoder :=
  match Stream.next_frame d with
  | (Err e, d') => (Err (invalid_data e), reads, d')
  | (Ok (Some f), d') => (Ok (Some f), reads, d')
  | (Ok None, d') =>
      match reads with
      | [] => (Ok None, [], d')
      | SbEof :: rest =>
          (Err (Failed (mkIoError UnexpectedEof "SB closed VSOCK connection")), rest, d')
      | SbData capacity bytes :: rest =>
          let '(r, d2) := Stream.next_frame (Stream.push capacity bytes d') in
          (map_err invalid_data r, rest, d2)
      | SbTimeout :: rest => (Ok None, rest, d')
      | SbError e :: rest => (Err (Failed e), rest, d')
      end
  end.

(** [read_next_frame]: [None] when the ticks are used up while it is waiting. *)
Fixpoint read_next_frame (ticks : list Tick) (reads : list SbRead) (d : FrameDecoder)
    : option (option (Frame SbFrameCode)) * list Tick * list SbRead * FrameDecoder :=
  match ticks with
  | [] => (None, [], reads, d)
  | t :: ticks' =>
      if t_expired t || t_stop t then (Some None, ticks', reads, d)
      else
        match read_frame_once reads d with
        | (Ok (Some f), reads', d') => (Some (Some f), ticks', reads', d')
        | (Ok None, reads', d') => read_next_frame ticks' reads' d'
        | (Err _, reads', d') => (Some None, ticks', reads', d')
        end
  end.

(** [forward]. *)
Definition forward (sb_id : Z) (f : Frame SbFrameCode) : ST Worker IoError () := λ w,
  let bad (e : WireError) := mkIoError InvalidData (we_message e) in
  match (inner ← map_err bad (FrameOps.encode f);
         forwarded ← map_err bad (Upstream.forwarded_new sb_id inner);
         map_err bad (frame ← FrameOps.new ForwardedSbFrameCode (Upstream.forwarded_encode forwarded);
                      FrameOps.encode frame)) with
  | Err e => (Err e, w)
  | Ok bytes =>
      match try_send bytes (sw_upstream w) with
      | (Err e, u) =>
          (Err e, mkSbWorker (sw_connection w) u (sw_sessions w) (sw_forwarded_frames w))
      | (Ok _, u) =>
          (Ok (), mkSbWorker (sw_connection w) u (sw_sessions w)
                    (wrapping_add_u64 (sw_forwarded_frames w) 1))
      end
  end.

(** The serving loop: [true] when the worker returned. *)
Fixpoint serve (cap : bool) (sb_id : Z) (ticks : list Tick) (reads : list SbRead)
    (d : FrameDecoder) (w : Worker) : bool * Worker :=
  match ticks with
  | [] => (false, w)
  | t :: ticks' =>
      if t_stop t then (true, w)
      else
        match read_frame_once reads d with
        | (Ok (Some f), reads', d') =>
            match f_code f with
            | SbHeartbeat =>
                if bool_decide (f_payload f = []) then serve cap sb_id ticks' reads' d' w
                else (true, w)
            | ObservationBatchCode =>
                if cap && negb (t_supports t) then (true, w)
                else match forward sb_id f w with
                     | (Ok _, w') => serve cap sb_id ticks' reads' d' w'
                     | (Err _, w') => (true, w')
                     end
            | _ => (true, w)
            end
        | (Ok None, reads', d') =>
            if t_expired t then (true, w) else serve cap sb_id ticks' reads' d' w
        | (Err _, _, _) => (true, w)
        end
  end.

Definition set_sessions (w : Worker) (s : RegistryState) : Worker :=
  mkSbWorker (sw_connection w) (sw_upstream w) s (sw_forwarded_frames w).
(** [SessionRelease::drop], for the registry. *)
Definition release_session (id : Z) (w : Worker) : Worker :=
  set_sessions w (Sessions.release id (sw_sessions w)).

(** The part of [run] after the id was allocated: welcome, then serve; [None] is the
    worker giving up before serving. *)
Definition greet (cap : bool) (registry_id : Z) (w : Worker) : option Z * Worker :=
  match Vsock.sb_welcome registry_id cap with
  | Err _ => (None, w)
  | Ok reply =>
  match FrameOps.decode_numeric_id reply with
  | Err _ => (None, w)
  | Ok sb_id =>
  match FrameOps.encode reply with
  | Err _ => (None, w)
  | Ok welcome_bytes =>
      let '(r, c) := write_all welcome_bytes (sw_connection w) in
      let w' := mkSbWorker c (sw_upstream w) (sw_sessions w) (sw_forwarded_frames w) in
      (match r with Ok _ => Some sb_id | Err _ => None end, w')
  end end end.

(** [run], once the timeouts are set; [cap] is what the upstream supports when the
    sandbox is welcomed.  The session is released when the worker returns. *)
Definition run (capacity : Z) (cap : bool) (ticks : list Tick) (reads : list SbRead)
    (w : Worker) : bool * Worker :=
  match read_next_frame ticks reads Stream.with_capacity with
  | (None, _, _, _) => (false, w)
  | (Some None, _, _, _) => (true, w)
  | (Some (Some hello), ticks', reads', d') =>
      if negb (bool_decide (f_code hello = SbHello)) || negb (bool_decide (f_payload hello = []))
      then (true, w)
      else
        match Sessions.allocate capacity (sw_sessions w) with
        | (Err _, s) => (true, set_sessions w s)
        | (Ok registry_id, s) =>
            match greet cap registry_id (set_sessions w s) with
            | (None, w') => (true, release_session registry_id w')
            | (Some sb_id, w') =>
                let '(returned, w'') := serve cap sb_id ticks' reads' d' w' in
                (returned, if returned then release_session registry_id w'' else w'')
            end
        end
  end.
End worker.
End SbConnection.

(** * The session registry *)

Module SessionFacts.
Import Sessions.

(** Ids in use are real ids, and the next one is a [u32]. *)
Record sessions_ok (s : RegistryState) : Prop := {
  so_next : in_u32 (rs_next_id s);
  so_active : ∀ id, id ∈ rs_active s → 1 ≤ id ≤ u32_max;
}.

(** The [k]-th id tried from [c] on: the ids [1 .. u32::MAX] form a cycle. *)
Definition candidate (c : Z) (k : nat) : Z := (c - 1 + Z.of_nat k) mod u32_max + 1.

Lemma candidate_next c k :
  1 ≤ c ≤ u32_max → candidate (Z.max (wrapping_add_u32 c 1) 1) k = candidate c (S k).
Proof.
  intros Hc. unfold candidate, wrapping_add_u32. f_equal.
  destruct (decide (c = u32_max)) as [->|Hne].
  - replace ((u32_max + 1) mod 2 ^ 32) with 0 by done.
    replace (u32_max - 1 + Z.of_nat (S k)) with (Z.of_nat k + 1 * u32_max) by (unfold u32_max; lia).
    rewrite Z.mod_add by done. f_equal.
  - rewrite (Z.mod_small (c + 1)) by (unfold u32_max in *; lia). f_equal. lia.
Qed.

Lemma candidate_inj c j k :
  Z.of_nat j < u32_max → Z.of_nat k < u32_max → candidate c j = candidate c k → j = k.
Proof.
  unfold candidate. change u32_max with 4294967295. intros.
  Z.to_euclidean_division_equations. lia.
Qed.

(** The search fails only when every id it tried is in use. *)
Lemma probe_cases n s r s' :
  sessions_ok s → probe n s = (r, s') →
  match r with
  | Ok id => 1 ≤ id ≤ u32_max ∧ id ∉ rs_active s ∧ rs_active s' = {[id]} ∪ rs_active s ∧
             sessions_ok s'
  | Err _ => ∀ k, (k < n)%nat → candidate (Z.max (rs_next_id s) 1) k ∈ rs_active s
  end.
Proof.
  revert s. induction n as [|n IH]; intros s Hok; cbn [probe].
  { intros [= <- _]. intros k Hk. lia. }
  assert (1 ≤ Z.max (rs_next_id s) 1 ≤ u32_max) as Hc
    by (destruct Hok as [[? ?] _]; unfold u32_max in *; lia).
  set (c := Z.max (rs_next_id s) 1) in *.
  assert (in_u32 (Z.max (wrapping_add_u32 c 1) 1)) as Hn.
  { unfold in_u32, wrapping_add_u32, u32_max. pose proof (Z.mod_pos_bound (c + 1) (2 ^ 32)). lia. }
  destruct (decide (c ∈ rs_active s)) as [Hin|Hni].
  - intros Hp. apply IH in Hp; [|split; [done|apply Hok]].
    cbn [rs_active rs_next_id] in Hp. destruct r as [id|e]; [done|].
    intros [|k] Hk.
    + unfold candidate. replace ((c - 1 + Z.of_nat 0) mod u32_max + 1) with c; [done|].
      rewrite Z.mod_small by (unfold u32_max in *; lia). lia.
    + rewrite <-candidate_next by done.
      replace (Z.max (wrapping_add_u32 c 1) 1) with (Z.max (Z.max (wrapping_add_u32 c 1) 1) 1) by lia.
      apply Hp. lia.
  - intros [= <- <-]. splits; [lia|lia|done|done|]. split; [done|].
    cbn [rs_active]. intros id [->%elem_of_singleton|?]%elem_of_union; [lia|by apply Hok].
Qed.

Lemma candidates_size c n (X : gset Z) :
  Z.of_nat n ≤ u32_max → (∀ k, (k < n)%nat → candidate c k ∈ X) → (n ≤ size X)%nat.
Proof.
  intros Hn Hin.
  assert (NoDup (candidate c <$> seq 0 n)) as Hnd.
  { apply NoDup_fmap_2_strong; [|apply NoDup_seq].
    intros j k Hj%elem_of_seq Hk%elem_of_seq. apply candidate_inj; lia. }
  rewrite <-(length_seq n 0), <-(length_fmap (candidate c) (seq 0 n)).
  rewrite <-(size_list_to_set (C:=gset Z)) by done. apply subseteq_size.
  intros x (k & -> & Hk%elem_of_seq)%elem_of_list_to_set%list_elem_of_fmap. apply Hin. lia.
Qed.

Lemma session_allocated capacity s id s' :
  sessions_ok s → allocate capacity s = (Ok id, s') →
  1 ≤ id ≤ u32_max ∧ id ∉ rs_active s ∧ rs_active s' = {[id]} ∪ rs_active s ∧ sessions_ok s'.
Proof.
  unfold allocate. intros Hok. destruct (_ <=? _); [done|]. intros E. exact (probe_cases _ _ _ _ Hok E).
Qed.

(** A failing search leaves the ids in use alone. *)
Lemma session_refused capacity s e s' :
  allocate capacity s = (Err e, s') → rs_active s' = rs_active s.
Proof.
  unfold allocate. destruct (_ <=? _); [by intros [= _ <-]|].
  generalize (Z.to_nat (capacity + 1)) as n. intros n. revert s.
  induction n as [|n IH]; intros s; cbn [probe]; [by intros [= _ <-]|].
  destruct (decide _); [|done]. by intros ->%IH.
Qed.

(** Sandbox ids are never wrongly refused or reused.  While fewer sessions are
    active than the capacity allows (and the capacity leaves an id free), [allocate]
    succeeds within its bounded search, with a non-zero [u32] no active session has,
    and makes exactly that id active; at capacity it refuses and changes nothing. *)
Theorem allocate_spec (capacity : Z) (s : RegistryState) :
  sessions_ok s → 0 ≤ capacity < u32_max →
  if decide (capacity ≤ active_count s)
  then allocate capacity s = (Err (mkIoError ConnectionRefused "SB connection capacity reached"), s)
  else ∃ id s', allocate capacity s = (Ok id, s') ∧ 1 ≤ id ≤ u32_max ∧ id ∉ rs_active s ∧
                rs_active s' = {[id]} ∪ rs_active s ∧ active_count s' = active_count s + 1 ∧
                sessions_ok s'.
Proof.
  intros Hok Hcap. unfold allocate, active_count.
  destruct (Z.leb_spec capacity (Z.of_nat (size (rs_active s)))) as [Hle|Hlt];
    [by rewrite decide_True|]. rewrite decide_False by lia.
  destruct (probe _ s) as [[id|e] s'] eqn:Ep; apply probe_cases in Ep; try done.
  - destruct Ep as (Hid & Hni & E & Hok'). exists id, s'. splits; try done; [lia|lia|].
    rewrite E, size_union by set_solver. rewrite size_singleton. lia.
  - apply candidates_size in Ep; lia.
Qed.

Lemma allocate_spec_witness :
  ∃ id s', allocate 2 (mkRegistryState u32_max {[u32_max]}) = (Ok id, s') ∧ id = 1.
Proof.
  pose proof (allocate_spec 2 (mkRegistryState u32_max {[u32_max]})) as H.
  rewrite decide_False in H by (vm_compute; intros E; by apply E).
  destruct H as (id & s' & E & _).
  - split; [done|]. cbn [rs_active]. intros id ->%elem_of_singleton. done.
  - done.
  - exists id, s'. split; [exact E|]. vm_compute in E. injection E as <- _. reflexivity.
Defined.

(** Ids with the high bit set are handed out but cannot be announced: the welcome frame
    reserves that bit for the capability. *)
Theorem high_ids_cannot_be_welcomed :
  ∃ s, sessions_ok s ∧ rs_active s = ∅ ∧
    (allocate 4 s).1 = Ok (2 ^ 31) ∧
    ∀ cap, ∃ e, Vsock.sb_welcome (2 ^ 31) cap = Err e.
Proof.
  exists (mkRegistryState (2 ^ 31) ∅). splits; [split; [done|]|done|vm_compute; reflexivity|].
  - intros id. cbn [rs_active]. by rewrite elem_of_empty.
  - intros cap. eexists. vm_compute. reflexivity.
Qed.
End SessionFacts.

(** * The connection worker *)

Module SbConnectionFacts.
Import SbConnection.

(** The reads of a socket that returns [chunks] and then end of file. *)
Definition reads (chunks : list (nat * list byte)) : list SbRead :=
  ((λ c, SbData c.1 c.2) <$> chunks) ++ [SbEof].

(** One read on a stream of whole frames: the next frame, nothing yet, or the end. *)
Lemma read_once_cases d (fs : list (Frame SbFrameCode)) chunks :
  WireFacts.decoder_ok d → Forall WireFacts.frame_fits fs →
  WireFacts.pending d ++ concat chunks.*2 = concat (WireFacts.encoded <$> fs) →
  (fs = [] ∧ ∃ e rest d', read_frame_once (reads chunks) d = (Err e, rest, d')) ∨
  ∃ r chunks' d', read_frame_once (reads chunks) d = (Ok r, reads chunks', d') ∧
    WireFacts.decoder_ok d' ∧
    match r with
    | Some f => ∃ fs', fs = f :: fs' ∧ (length chunks' ≤ length chunks)%nat ∧
        WireFacts.pending d' ++ concat chunks'.*2 = concat (WireFacts.encoded <$> fs')
    | None => (length chunks' < length chunks)%nat ∧
        WireFacts.pending d' ++ concat chunks'.*2 = concat (WireFacts.encoded <$> fs)
    end.
Proof.
  intros Hd Hfs E. rewrite <-(app_nil_r (concat (WireFacts.encoded <$> fs))) in E.
  destruct (WireFacts.next_frame_cases d fs _ [] Hd Hfs (or_introl eq_refl) E)
    as ([f|] & d1 & E1 & Hd1 & Hr); unfold read_frame_once; rewrite E1.
  { right. exists (Some f), chunks, d1. splits; [done|done|].
    destruct Hr as (fs' & -> & _ & Hr). exists fs'. rewrite app_nil_r in Hr. by splits. }
  destruct Hr as [Hp Hn]. destruct chunks as [|[c bytes] chunks].
  { left. split; [|by eauto]. simpl in E. rewrite !app_nil_r in E.
    destruct fs as [|f fs]; [done|]. apply Forall_cons in Hfs as [Hf _]. rewrite E in Hn.
    simpl in Hn. by rewrite (WireFacts.next_of_frame f _ _ Hf (WireFacts.encoded_Ok f Hf)) in Hn. }
  right. destruct (WireFacts.push_refines c bytes d1 Hd1) as [Hd2 Hp2].
  assert (WireFacts.pending (Stream.push c bytes d1) ++ concat chunks.*2 =
    concat (WireFacts.encoded <$> fs) ++ []) as E2 by (by rewrite Hp2, Hp, <-app_assoc).
  destruct (WireFacts.next_frame_cases _ fs _ [] Hd2 Hfs (or_introl eq_refl) E2)
    as (r & d3 & E3 & Hd3 & Hr3). cbn [reads fmap list_fmap app fst snd]. rewrite E3.
  exists r, chunks, d3. splits; [done|done|]. rewrite app_nil_r in E2. destruct r as [f|].
  - destruct Hr3 as (fs' & -> & _ & Hr3). exists fs'. rewrite app_nil_r in Hr3.
    splits; [done|simpl; lia|done].
  - destruct Hr3 as [-> _]. split; [simpl; lia|done].
Qed.

Section facts.
Context {T U : Type} `{!ByteStream T, !UpstreamPort U}.
Implicit Types (w : Worker (T:=T) (U:=U)).

(** A loop iteration in which the worker is not stopped, timed out or downgraded. *)
Definition calm (cap : bool) (t : Tick) : Prop :=
  t_stop t = false ∧ t_expired t = false ∧ (cap = true → t_supports t = true).

(** What a well-behaved sandbox sends after its hello. *)
Definition sb_message (f : Frame SbFrameCode) : Prop :=
  WireFacts.frame_fits f ∧
  (f = mkFrame SbHeartbeat [] ∨ f_code f = ObservationBatchCode).
Definition is_batch (f : Frame SbFrameCode) : bool :=
  bool_decide (f_code f = ObservationBatchCode).

Lemma read_next_first cap (f : Frame SbFrameCode) fs ticks chunks d :
  WireFacts.decoder_ok d → Forall WireFacts.frame_fits (f :: fs) → Forall (calm cap) ticks →
  WireFacts.pending d ++ concat chunks.*2 = concat (WireFacts.encoded <$> f :: fs) →
  (length chunks < length ticks)%nat →
  ∃ ticks' chunks' d',
    read_next_frame ticks (reads chunks) d = (Some (Some f), ticks', reads chunks', d') ∧
    WireFacts.decoder_ok d' ∧ Forall (calm cap) ticks' ∧
    WireFacts.pending d' ++ concat chunks'.*2 = concat (WireFacts.encoded <$> fs) ∧
    (length ticks + length chunks' ≤ S (length ticks' + length chunks))%nat.
Proof.
  intros Hd Hfs Ht. revert chunks d Hd.
  induction Ht as [|t ticks (Hs & Hx & _) Ht IH]; intros chunks d Hd E Hl; simpl in Hl; [lia|].
  cbn [read_next_frame]. rewrite Hs, Hx. cbn [orb].
  destruct (read_once_cases d _ chunks Hd Hfs E)
    as [[? _]|([g|] & chunks' & d' & -> & Hd' & Hr)]; [done| |].
  - destruct Hr as (fs' & [= <- <-] & Hl' & Hp). exists ticks, chunks', d'. splits; auto. simpl. lia.
  - destruct Hr as [Hl' Hp]. destruct (IH chunks' d' Hd' Hp) as (ticks2 & chunks2 & d2 & ? & ? & ? & ? & ?);
      [lia|]. exists ticks2, chunks2, d2. splits; auto. simpl. lia.
Qed.

(** [forward] sends the frame in an envelope and nothing else. *)
Lemma forward_eq sb_id (f : Frame SbFrameCode) w :
  sb_id ≠ 0 → WireFacts.frame_fits f →
  forward sb_id f w =
    match try_send (WireFacts.encoded (ConnectionFacts.envelope sb_id f)) (sw_upstream w) with
    | (Err e, u) => (Err e, mkSbWorker (sw_connection w) u (sw_sessions w) (sw_forwarded_frames w))
    | (Ok _, u) => (Ok (), mkSbWorker (sw_connection w) u (sw_sessions w)
                             (wrapping_add_u64 (sw_forwarded_frames w) 1))
    end.
Proof.
  intros Hid Hf. unfold forward. rewrite (WireFacts.encoded_Ok f Hf). munfold.
  assert (WireFacts.encoded f ≠ []) as Hne.
  { pose proof (WireFacts.encoded_length f Hf) as Hl. intros E. rewrite E in Hl. by simpl in Hl. }
  assert (Upstream.forwarded_new sb_id (WireFacts.encoded f) =
    Ok (mkForwarded sb_id (WireFacts.encoded f))) as ->.
  { by apply (proj2 (UpstreamFacts.forwarded_new_iff (mkForwarded sb_id (WireFacts.encoded f)))). }
  pose proof (ConnectionFacts.envelope_fits sb_id f Hf) as He.
  assert (FrameOps.new ForwardedSbFrameCode
    (Upstream.forwarded_encode (mkForwarded sb_id (WireFacts.encoded f))) =
    Ok (ConnectionFacts.envelope sb_id f)) as -> by (apply WireFacts.new_spec; split; [done|]; exact He).
  rewrite (WireFacts.encoded_Ok _ He). done.
Qed.

(** ** Serving a well-behaved sandbox *)

(** The upstream queue accepts everything. *)
Definition accepting : Prop := ∀ bytes (u : U), (try_send bytes u).1 = Ok ().

(** The worker after forwarding a frame. *)
Definition forwarded_one (sb_id : Z) w (f : Frame SbFrameCode) : Worker :=
  (forward sb_id f w).2.

Lemma forward_accepted sb_id (f : Frame SbFrameCode) w :
  accepting → sb_id ≠ 0 → WireFacts.frame_fits f →
  forward sb_id f w = (Ok (), forwarded_one sb_id w f).
Proof.
  intros Ha Hid Hf. unfold forwarded_one. rewrite (forward_eq _ _ _ Hid Hf).
  pose proof (Ha (WireFacts.encoded (ConnectionFacts.envelope sb_id f)) (sw_upstream w)) as Hr.
  destruct (try_send _ _) as [[[]|e] u]; [done|]. by simpl in Hr.
Qed.

Lemma serve_msgs cap sb_id msgs ticks chunks d w :
  accepting → sb_id ≠ 0 → WireFacts.decoder_ok d → Forall sb_message msgs →
  Forall (calm cap) ticks →
  WireFacts.pending d ++ concat chunks.*2 = concat (WireFacts.encoded <$> msgs) →
  (length msgs + length chunks < length ticks)%nat →
  serve cap sb_id ticks (reads chunks) d w =
    (true, foldl (forwarded_one sb_id) w (filter is_batch msgs)).
Proof.
  intros Ha Hid Hd Hm Ht. revert msgs chunks d w Hd Hm.
  induction Ht as [|t ticks (Hs & Hx & Hc) Ht IH]; intros msgs chunks d w Hd Hm E Hl;
    simpl in Hl; [lia|]. cbn [serve]. rewrite Hs.
  assert (Forall WireFacts.frame_fits msgs) as Hf.
  { eapply Forall_impl; [done|]. by intros f [? _]. }
  destruct (read_once_cases d _ chunks Hd Hf E)
    as [[-> (e & rest & d' & ->)]|([f|] & chunks' & d' & -> & Hd' & Hr)]; [done| |].
  - destruct Hr as (msgs' & -> & Hl' & Hp). apply Forall_cons in Hm as [[Hff Hk] Hm].
    simpl in Hl. destruct Hk as [->|Hk].
    + cbn [f_code f_payload]. rewrite bool_decide_true by done.
      rewrite (IH msgs') by (auto; lia). done.
    + rewrite Hk. assert (cap && negb (t_supports t) = false) as ->.
      { destruct cap; [by rewrite Hc|done]. }
      rewrite (forward_accepted _ _ _ Ha Hid Hff), (IH msgs') by (auto; lia).
      rewrite filter_cons_True by (unfold is_batch; by rewrite Hk). done.
  - destruct Hr as [Hl' Hp]. rewrite Hx, (IH msgs) by (auto; lia). done.
Qed.

(** The id announced to the sandbox, from the id of the registry. *)
Definition announced (registry_id : Z) (cap : bool) : Z :=
  registry_id + (if cap then 2 ^ 31 else 0).

(** Greeting writes one welcome frame. *)
Lemma greet_writes cap registry_id w :
  1 ≤ registry_id < 2 ^ 31 →
  greet cap registry_id w =
    let '(r, c) := write_all
      (WireFacts.encoded (FrameOps.numeric_id SbWelcomeCode (announced registry_id cap)))
      (sw_connection w) in
    (match r with Ok _ => Some (announced registry_id cap) | Err _ => None end,
     mkSbWorker c (sw_upstream w) (sw_sessions w) (sw_forwarded_frames w)).
Proof.
  intros Hid. unfold greet. rewrite VsockFacts.sb_welcome_eq by (unfold in_u32, u32_max; lia).
  rewrite decide_True by done. fold (announced registry_id cap).
  assert (in_u32 (announced registry_id cap)) as Hu
    by (unfold in_u32, u32_max, announced; destruct cap; lia).
  unfold FrameOps.decode_numeric_id. cbn [f_payload FrameOps.numeric_id].
  rewrite bool_decide_true by apply length_to_be_bytes. rewrite from_u32_be by done.
  fold (FrameOps.numeric_id SbWelcomeCode (announced registry_id cap)).
  rewrite WireFacts.encoded_Ok; [done|].
  unfold WireFacts.frame_fits, WireFacts.fits. cbn [f_payload FrameOps.numeric_id].
  by rewrite length_u32_be.
Qed.

Lemma greet_cases cap registry_id w :
  1 ≤ registry_id ≤ u32_max →
  ∃ c o, greet cap registry_id w =
    (o, mkSbWorker c (sw_upstream w) (sw_sessions w) (sw_forwarded_frames w)) ∧
    match o with
    | Some sb_id => registry_id < 2 ^ 31 ∧ sb_id = announced registry_id cap
    | None => True
    end.
Proof.
  intros Hid. destruct (decide (registry_id < 2 ^ 31)) as [Hlt|Hge].
  - rewrite greet_writes by lia. destruct (write_all _ _) as [[[]|e] c]; by do 2 eexists.
  - exists (sw_connection w), None. split; [|done]. unfold greet.
    rewrite VsockFacts.sb_welcome_eq by (unfold in_u32; lia). rewrite decide_False by lia.
    by destruct w.
Qed.

Lemma foldl_forwarded sb_id fs w :
  accepting → sb_id ≠ 0 → Forall WireFacts.frame_fits fs →
  let w' := foldl (forwarded_one sb_id) w fs in
  sw_connection w' = sw_connection w ∧ sw_sessions w' = sw_sessions w ∧
  sw_upstream w' =
    foldl (λ u f, (try_send (WireFacts.encoded (ConnectionFacts.envelope sb_id f)) u).2)
      (sw_upstream w) fs.
Proof.
  intros Ha Hid. revert w. induction fs as [|f fs IH]; intros w Hfs; [done|].
  apply Forall_cons in Hfs as [Hf Hfs]. simpl. destruct (IH (forwarded_one sb_id w f) Hfs) as (-> & -> & ->).
  unfold forwarded_one. rewrite (forward_eq _ _ _ Hid Hf).
  destruct (try_send _ _) as [[[]|e] u]; done.
Qed.

(** A whole sandbox connection: greeted, every batch forwarded, the id given back. *)
Lemma run_sandbox capacity cap msgs ticks chunks rid s' c w :
  accepting → SessionFacts.sessions_ok (sw_sessions w) →
  Sessions.allocate capacity (sw_sessions w) = (Ok rid, s') → rid < 2 ^ 31 →
  write_all (WireFacts.encoded (FrameOps.numeric_id SbWelcomeCode (announced rid cap)))
    (sw_connection w) = (Ok (), c) →
  Forall sb_message msgs → Forall (calm cap) ticks →
  concat chunks.*2 = concat (WireFacts.encoded <$> mkFrame SbHello [] :: msgs) →
  (length msgs + length chunks + 1 < length ticks)%nat →
  ∃ w', run capacity cap ticks (reads chunks) w = (true, w') ∧
    sw_connection w' = c ∧ rs_active (sw_sessions w') = rs_active (sw_sessions w) ∧
    sw_upstream w' =
      foldl (λ u f, (try_send (WireFacts.encoded (ConnectionFacts.envelope (announced rid cap) f)) u).2)
        (sw_upstream w) (filter is_batch msgs).
Proof.
  intros Ha Hok Hal Hrid Hw Hm Ht E Hl.
  destruct (SessionFacts.session_allocated _ _ _ _ Hok Hal) as (Hid & Hni & Hact & _).
  assert (Forall WireFacts.frame_fits msgs) as Hf.
  { eapply Forall_impl; [done|]. by intros f [? _]. }
  destruct (read_next_first cap (mkFrame SbHello []) msgs ticks chunks Stream.with_capacity)
    as (ticks' & chunks' & d' & Er & Hd' & Ht' & Hp & Hl');
    [by unfold WireFacts.decoder_ok|by constructor|done|done|lia|].
  unfold run. rewrite Er, !bool_decide_true by done. cbn [negb orb]. rewrite Hal.
  rewrite greet_writes by lia. cbn [sw_connection set_sessions]. rewrite Hw.
  assert (announced rid cap ≠ 0) as Ha0 by (unfold announced; destruct cap; lia).
  rewrite (serve_msgs cap (announced rid cap) msgs) by (done || lia).
  eexists. split; [done|]. unfold release_session, set_sessions. cbn [sw_connection sw_sessions sw_upstream].
  set (w1 := mkSbWorker c _ _ _).
  destruct (foldl_forwarded (announced rid cap) (filter is_batch msgs) w1 Ha Ha0) as (-> & -> & ->).
  { rewrite Forall_forall in Hf |- *. intros f [_ Hin]%list_elem_of_filter. by apply Hf. }
  splits; [done| |done]. cbn. rewrite Hact. set_solver.
Qed.

(** ** Whatever arrives *)

(** The upstream queue was only offered whole observation frames of this sandbox. *)
Inductive offers (sb_id : Z) : U → U → Prop :=
| offers_refl u : offers sb_id u u
| offers_snoc u u' f :
    offers sb_id u u' → WireFacts.frame_fits f → f_code f = ObservationBatchCode →
    offers sb_id u (try_send (WireFacts.encoded (ConnectionFacts.envelope sb_id f)) u').2.

(** Every frame the decoder yields is a wire frame. *)
Lemma next_frame_fits d (f : Frame SbFrameCode) d' :
  WireFacts.decoder_ok d → Stream.next_frame d = (Ok (Some f), d') → WireFacts.frame_fits f.
Proof.
  intros Hd E. pose proof (WireFacts.next_frame_refines (Code:=SbFrameCode) d Hd) as Hn.
  rewrite E in Hn. destruct Hn as [_ Hn]. by apply WireFacts.next_of_Some in Hn as [? _].
Qed.

Lemma next_frame_ok d r d' :
  WireFacts.decoder_ok d → Stream.next_frame (Code:=SbFrameCode) d = (r, d') →
  WireFacts.decoder_ok d'.
Proof.
  intros Hd E. pose proof (WireFacts.next_frame_refines (Code:=SbFrameCode) d Hd) as Hn.
  rewrite E in Hn. by destruct Hn.
Qed.

Lemma read_frame_once_ok rs d r rs' d' :
  WireFacts.decoder_ok d → read_frame_once rs d = (r, rs', d') →
  WireFacts.decoder_ok d' ∧ ∀ f, r = Ok (Some f) → WireFacts.frame_fits f.
Proof.
  intros Hd. unfold read_frame_once.
  destruct (Stream.next_frame d) as [[[f|]|e] d1] eqn:E1;
    pose proof (next_frame_ok _ _ _ Hd E1) as Hd1.
  - intros [= <- <- <-]. split; [done|]. intros g [= <-]. exact (next_frame_fits _ _ _ Hd E1).
  - destruct rs as [|[c bytes| | |e] rs]; try by intros [= <- <- <-].
    destruct (WireFacts.push_refines c bytes d1 Hd1) as [Hd2 _].
    destruct (Stream.next_frame (Stream.push c bytes d1)) as [r2 d2] eqn:E2.
    intros [= <- <- <-]. split; [exact (next_frame_ok _ _ _ Hd2 E2)|].
    intros f Hf. destruct r2 as [o|]; [|done]. injection Hf as ->. exact (next_frame_fits _ _ _ Hd2 E2).
  - by intros [= <- <- <-].
Qed.

Lemma read_next_frame_ok ticks rs d r ticks' rs' d' :
  WireFacts.decoder_ok d → read_next_frame ticks rs d = (r, ticks', rs', d') →
  WireFacts.decoder_ok d'.
Proof.
  revert rs d. induction ticks as [|t ticks IH]; intros rs d Hd; simpl; [by intros [= <- <- <- <-]|].
  destruct (_ || _); [by intros [= <- <- <- <-]|].
  destruct (read_frame_once rs d) as [[[[f|]|e] rs1] d1] eqn:E;
    apply read_frame_once_ok in E as [? _]; try done; try by intros [= <- <- <- <-].
  by apply IH.
Qed.

Lemma serve_offers cap sb_id ticks rs d w :
  sb_id ≠ 0 → WireFacts.decoder_ok d →
  let '(_, w') := serve cap sb_id ticks rs d w in
  sw_connection w' = sw_connection w ∧ sw_sessions w' = sw_sessions w ∧
  ∀ u, offers sb_id u (sw_upstream w) → offers sb_id u (sw_upstream w').
Proof.
  intros Hid. revert rs d w. induction ticks as [|t ticks IH]; intros rs d w Hd; [done|].
  cbn [serve]. destruct (t_stop t); [done|].
  destruct (read_frame_once rs d) as [[r rs1] d1] eqn:E.
  apply read_frame_once_ok in E as [Hd1 Hf]; [|done].
  destruct r as [[f|]|e]; [|by destruct (t_expired t); [|apply IH]|done].
  specialize (Hf f eq_refl). destruct (f_code f) eqn:Ec; [done|done|by case_bool_decide; [apply IH|]|].
  destruct (_ && _); [done|]. rewrite (forward_eq _ _ _ Hid Hf).
  destruct (try_send _ _) as [[[]|e] u1] eqn:Es; cycle 1.
  { cbn. splits; [done|done|]. intros u Hu. replace u1 with (try_send
      (WireFacts.encoded (ConnectionFacts.envelope sb_id f)) (sw_upstream w)).2 by (by rewrite Es).
    by constructor. }
  set (w1 := mkSbWorker _ _ _ _). specialize (IH rs1 d1 w1 Hd1).
  destruct (serve cap sb_id ticks rs1 d1 w1) as [b w2]. destruct IH as (-> & -> & IH).
  splits; [done|done|]. intros u Hu. apply IH. subst w1. cbn.
  replace u1 with (try_send
      (WireFacts.encoded (ConnectionFacts.envelope sb_id f)) (sw_upstream w)).2 by (by rewrite Es).
  by constructor.
Qed.

(** Safety of the sandbox side on arbitrary input.  Whatever the sandbox sends
    and whenever the gateway is stopped, times out or is downgraded: the upstream
    queue is offered nothing unless the sandbox was greeted with an id; after that it
    is offered only whole observation-batch frames, in an envelope carrying exactly
    the announced id; and when the worker has returned, the ids in use are those in
    use before, so no id leaks. *)
Theorem sandbox_worker_safety capacity cap ticks rs w returned w' :
  SessionFacts.sessions_ok (sw_sessions w) →
  run capacity cap ticks rs w = (returned, w') →
  (returned = true → rs_active (sw_sessions w') = rs_active (sw_sessions w)) ∧
  (sw_upstream w' = sw_upstream w ∨
   ∃ rid s1, Sessions.allocate capacity (sw_sessions w) = (Ok rid, s1) ∧ 1 ≤ rid < 2 ^ 31 ∧
     offers (announced rid cap) (sw_upstream w) (sw_upstream w')).
Proof.
  intros Hok. unfold run.
  destruct (read_next_frame ticks rs Stream.with_capacity) as [[[r ticks'] rs'] d'] eqn:Er.
  apply read_next_frame_ok in Er; [|by unfold WireFacts.decoder_ok].
  destruct r as [[hello|]|]; [|intros [= <- <-]; by auto..].
  destruct (_ || _); [intros [= <- <-]; by auto|].
  destruct (Sessions.allocate capacity (sw_sessions w)) as [[rid|e] s1] eqn:Ea; cycle 1.
  { intros [= <- <-]. cbn. split; [|by left]. intros _.
    by rewrite (SessionFacts.session_refused _ _ _ _ Ea). }
  destruct (SessionFacts.session_allocated _ _ _ _ Hok Ea) as (Hid & Hni & Hact & _).
  destruct (greet_cases cap rid (set_sessions w s1) ltac:(lia)) as (c & o & -> & Ho).
  destruct o as [sb_id|].
  - destruct Ho as [Hr ->].
    pose proof (serve_offers cap (announced rid cap) ticks' rs' d'
      (mkSbWorker c (sw_upstream w) s1 (sw_forwarded_frames w))) as Hs.
    destruct (serve _ _ _ _ _ _) as [b w2]. destruct Hs as (_ & E & Hs);
      [unfold announced; destruct cap; lia|done|].
    intros [= <- <-]. split.
    + intros ->. cbn. rewrite E. cbn. rewrite Hact. set_solver.
    + right. exists rid, s1. splits; [done|lia|lia|].
      destruct b; (apply Hs; constructor).
  - intros [= <- <-]. split; [|by left]. intros _. cbn. rewrite Hact. set_solver.
Qed.
End facts.

(** ** From the sandbox to the daemon's sink *)

(** An upstream queue seen as the bytes handed to it, in order. *)
#[export] Instance upstream_log : UpstreamPort (list (list byte)) :=
  {| try_send := λ bytes u, (Ok (), u ++ [bytes]) |}.

Lemma upstream_log_accepts : accepting (U:=list (list byte)).
Proof. done. Qed.

Lemma log_sends sb_id fs (u : list (list byte)) :
  foldl (λ u f, (try_send (WireFacts.encoded (ConnectionFacts.envelope sb_id f)) u).2) u fs =
  u ++ ((λ f, WireFacts.encoded (ConnectionFacts.envelope sb_id f)) <$> fs).
Proof.
  revert u. induction fs as [|f fs IH]; intros u; [by rewrite app_nil_r|].
  cbn [foldl]. rewrite IH. cbn. by rewrite <-app_assoc.
Qed.

(** What the sandbox agent says: a heartbeat, or a batch. *)
Definition sb_says (o : option ObservationBatch) : Frame SbFrameCode :=
  match o with None => mkFrame SbHeartbeat [] | Some b => ConnectionFacts.sb_frame b end.
Definition says_ok (o : option ObservationBatch) : Prop :=
  match o with
  | None => True
  | Some b => CodecFacts.batch_ok b ∧ WireFacts.frame_fits (ConnectionFacts.sb_frame b)
  end.

Lemma says_batches (says : list (option ObservationBatch)) :
  filter is_batch (sb_says <$> says) = ConnectionFacts.sb_frame <$> omap id says.
Proof.
  induction says as [|[b|] says IH]; [done| |].
  - rewrite fmap_cons, filter_cons_True by done. rewrite IH. done.
  - rewrite fmap_cons, filter_cons_False by (by intros []). exact IH.
Qed.

Section relay.
Context {T TD K : Type} `{!ByteStream T, !ByteStream TD, !SandboxObservationSink K}.

(** From sandbox to sink.  A sandbox says hello and then sends heartbeats and
    valid observation batches, its bytes reaching the gateway cut in any way.  The
    gateway's worker returns at end of file with the sandbox's id free again; and when
    the daemon reads the gateway's hello and everything the worker queued, again cut in
    any way, its sink receives exactly the sandbox's batches, in order, each with the
    daemon's gateway id and the sandbox id the sandbox was told. *)
Theorem sandbox_to_sink capacity cap (says : list (option ObservationBatch)) ticks chunks rid s' c
    (w : Worker (T:=T) (U:=list (list byte))) (daemon : Connection.Worker (T:=TD) (K:=K)) td :
  SessionFacts.sessions_ok (sw_sessions w) →
  Sessions.allocate capacity (sw_sessions w) = (Ok rid, s') → rid < 2 ^ 31 →
  write_all (WireFacts.encoded (FrameOps.numeric_id SbWelcomeCode (announced rid cap)))
    (sw_connection w) = (Ok (), c) →
  Forall says_ok says → Forall (calm cap) ticks →
  concat chunks.*2 = concat (WireFacts.encoded <$> mkFrame SbHello [] :: (sb_says <$> says)) →
  (length says + length chunks + 1 < length ticks)%nat → sw_upstream w = [] →
  Connection.wk_welcomed daemon = false → ConnectionFacts.admits (Connection.wk_runtime daemon) →
  let gid := next_gateway_id (Connection.wk_runtime daemon) in
  write_all (WireFacts.encoded (ConnectionFacts.welcome_frame gid cap))
    (Connection.wk_stream daemon) = (Ok (), td) →
  ∃ w', run capacity cap ticks (reads chunks) w = (true, w') ∧
    rs_active (sw_sessions w') = rs_active (sw_sessions w) ∧
    ∀ chunks2,
      concat chunks2.*2 =
        WireFacts.encoded (Upstream.gateway_hello cap) ++ concat (sw_upstream w') →
      ∃ d' daemon',
        Connection.run_inner (((λ c, ReadBytes c.1 c.2) <$> chunks2) ++ [ReadEof])
          Stream.with_capacity daemon = (Some (Ok ()), d', daemon') ∧
        Connection.wk_sink daemon' =
          foldl (λ k b, (sink_deliver gid (announced rid cap) b k).2)
            (Connection.wk_sink daemon) (omap id says).
Proof.
  intros Hok Hal Hrid Hw Hsays Ht E Hl Hu Hwel Had gid Htd.
  destruct (SessionFacts.session_allocated _ _ _ _ Hok Hal) as (Hid & _).
  assert (Forall sb_message (sb_says <$> says)) as Hm.
  { apply Forall_fmap. eapply Forall_impl; [done|]. intros [b|] Hb; unfold compose, sb_message.
    - split; [apply Hb|by right].
    - split; [done|by left]. }
  destruct (run_sandbox capacity cap (sb_says <$> says) ticks chunks rid s' c w)
    as (w' & Er & _ & Hact & Hup); try done; [by rewrite length_fmap|].
  exists w'. splits; [done|done|]. intros chunks2 E2.
  rewrite log_sends, says_batches, Hu, app_nil_l in Hup.
  set (items := (λ b, (announced rid cap, b)) <$> omap id says).
  assert (sw_upstream w' = WireFacts.encoded <$> (ConnectionFacts.forwarded_frame <$> items)) as E3.
  { subst items. rewrite Hup, <-!list_fmap_compose. done. }
  assert (Forall ConnectionFacts.item_ok items) as Hitems.
  { apply Forall_fmap, Forall_forall. intros b (o & Hin & Hob)%list_elem_of_omap.
    rewrite Forall_forall in Hsays. specialize (Hsays _ Hin). cbn in Hob. subst o.
    unfold compose, ConnectionFacts.item_ok, in_u32, announced. cbn [fst snd].
    splits; try apply Hsays; unfold u32_max; destruct cap; lia. }
  destruct (ConnectionFacts.relay_run daemon cap items chunks2 td)
    as (d' & daemon' & Hrun & _ & _ & _ & Hsink); try done.
  { rewrite E2, E3. done. }
  exists d', daemon'. split; [done|]. rewrite Hsink. subst items.
  clear. generalize (Connection.wk_sink daemon), (omap id says). intros k bs. revert k.
  induction bs as [|b bs IH]; intros k; [done|]. apply IH.
Qed.
End relay.

(** ** A concrete sandbox *)

#[local] Instance w_conn : ByteStream (list byte) :=
  {| write_all := λ bs t, (Ok (), t ++ bs) |}.
#[local] Instance w_sink : SandboxObservationSink (list (Z * Z * ObservationBatch)) :=
  {| sink_deliver := λ gid sb b k, (Ok (), k ++ [(gid, sb, b)]) |}.
Definition w_sb : Worker (T:=list byte) (U:=list (list byte)) :=
  mkSbWorker [] [] (mkRegistryState 5 {[5]}) 0.
Definition w_says : list (option ObservationBatch) := [Some CodecFacts.w_batch; None].
Definition w_bytes : list byte :=
  concat (WireFacts.encoded <$> mkFrame SbHello [] :: (sb_says <$> w_says)).
Definition w_cut : list (nat * list byte) :=
  [(8%nat, take 20 w_bytes); (0%nat, drop 20 w_bytes)].
Definition w_ticks : list Tick := replicate 9 (mkTick false false true).
Definition w_daemon : Connection.Worker (T:=list byte) (K:=list (Z * Z * ObservationBatch)) :=
  Connection.mkWorker [] None (Ingest.init 4 0).1 [] 0 false.

Lemma w_sessions_ok : SessionFacts.sessions_ok (sw_sessions w_sb).
Proof. split; [done|]. cbn [w_sb sw_sessions rs_active]. by intros id ->%elem_of_singleton. Qed.

Lemma sandbox_to_sink_witness :
  ∃ w', run 4 true w_ticks (reads w_cut) w_sb = (true, w') ∧
    ∃ d' daemon',
      Connection.run_inner [ReadBytes 0 (WireFacts.encoded (Upstream.gateway_hello true) ++
        concat (sw_upstream w')); ReadEof] Stream.with_capacity w_daemon =
        (Some (Ok ()), d', daemon') ∧
      Connection.wk_sink daemon' = [(1, 6 + 2 ^ 31, CodecFacts.w_batch)].
Proof.
  destruct (sandbox_to_sink 4 true w_says w_ticks w_cut 6 (mkRegistryState 7 {[6; 5]})
    (WireFacts.encoded (FrameOps.numeric_id SbWelcomeCode (announced 6 true))) w_sb w_daemon
    (WireFacts.encoded (ConnectionFacts.welcome_frame 1 true)))
    as (w' & H1 & _ & H2).
  - apply w_sessions_ok.
  - vm_compute. reflexivity.
  - reflexivity.
  - reflexivity.
  - repeat constructor; try apply CodecFacts.w_batch_ok; vm_compute; congruence.
  - repeat constructor.
  - vm_compute. reflexivity.
  - simpl. lia.
  - reflexivity.
  - reflexivity.
  - split; simpl; unfold u32_max, u64_max; lia || reflexivity.
  - reflexivity.
  - exists w'. split; [exact H1|].
    destruct (H2 [(0%nat, WireFacts.encoded (Upstream.gateway_hello true) ++
        concat (sw_upstream w'))]) as (d' & daemon' & H3 & H4).
    + cbn [fmap list_fmap concat snd]. apply app_nil_r.
    + exists d', daemon'. split; [exact H3|exact H4].
Defined.

Lemma sandbox_worker_safety_witness :
  ∃ returned w', run 4 true w_ticks [SbData 0 (replicate 30 zero_byte)] w_sb = (returned, w') ∧
    (returned = true → rs_active (sw_sessions w') = {[5]}).
Proof.
  destruct (run 4 true w_ticks [SbData 0 (replicate 30 zero_byte)] w_sb) as [b w'] eqn:E.
  exists b, w'. split; [reflexivity|].
  exact (proj1 (sandbox_worker_safety _ _ _ _ _ _ _ w_sessions_ok E)).
Defined.
End SbConnectionFacts.
