(* ===== verification/GatewayLink.v ===== *)
(** The gateway's upstream link: crates/core/vsock_gateway_runtime/src/upstream.rs,
    and the shutdown and accept loop of runtime.rs.

    The sandbox workers and the upstream worker share the forward quotas, the bounded
    queue and two atomics.  [Link.step] is one atomic operation of one of these
    threads; a run is any sequence of steps, so it is any interleaving.  [connect]
    is the sequential handshake with the daemon. *)
From stdpp Require Import prelude gmap strings pretty.
From Stdlib Require Import ZArith Lia.
From coqutil Require Import Byte.
From S2P Require Import Prelude Bytes Wire Vsock Upstream SandboxObservation BatchCodec GatewayIngest GatewayConnection PolicyPath VsockGateway.

Open Scope Z_scope.

(** * The forward quota of a session *)

Record SessionForwardState := mkForwardState {
  fs_active : bool;
  fs_pending : Z;                        (* usize *)
  fs_limit : Z;
}.

Module Quota.
Definition new (limit : Z) : SessionForwardState := mkForwardState true 0 limit.
Definition close (q : SessionForwardState) : SessionForwardState :=
  mkForwardState false (fs_pending q) (fs_limit q).
(** The [fetch_update] of [try_reserve]. *)
Definition fetch_reserve (q : SessionForwardState) : option SessionForwardState :=
  if fs_pending q <? fs_limit q
  then Some (mkForwardState (fs_active q) (fs_pending q + 1) (fs_limit q))
  else None.
(** [fetch_sub(1)]: [Drop for SessionForwardPermit] and the undo of [try_reserve]. *)
Definition fetch_release (q : SessionForwardState) : SessionForwardState :=
  mkForwardState (fs_active q) ((fs_pending q - 1) mod 2 ^ 64) (fs_limit q).
End Quota.

(** * The shared state *)

Record ForwardItem := mkItem { fi_session : nat; fi_bytes : list byte }.
#[export] Instance forward_item_eq_dec : EqDecision ForwardItem.
Proof. solve_decision. Defined.

(** Where a sandbox worker stands in [forward]/[try_send]. *)
Inductive SessionPc :=
| AtIdle                                 (* reading from its sandbox *)
| AtTrySend (bytes : list byte)          (* passed the capability check *)
| AtReserve (bytes : list byte)          (* [active] loaded: true *)
| AtRecheck (bytes : list byte)          (* quota reserved *)
| AtEnqueue (bytes : list byte)          (* holds a permit *)
| AtReturn (e : option IoError)          (* leaving the serving loop *)
| AtClosed.                              (* its guard was dropped *)

Record Session := mkSession {
  sn_quota : SessionForwardState;
  sn_workload : bool;                    (* what the sandbox was welcomed with *)
  sn_pc : SessionPc;
}.

(** Where the upstream worker stands in [run]. *)
Inductive Phase :=
| Polling (pending : option ForwardItem)
| Writing (item : ForwardItem)
| Failed0 (pending : option ForwardItem)                   (* a write failed *)
| Failed1 (pending : option ForwardItem) (previous : bool) (* gateway id reset *)
| Reconnecting (pending : option ForwardItem) (previous : bool)
| Draining (welcome : GatewayWelcome)
| Announcing0 (pending : option ForwardItem) (welcome : GatewayWelcome)
| Announcing1 (pending : option ForwardItem) (welcome : GatewayWelcome)
| Leaving (pending : option ForwardItem)
| Ended.

Record LinkState := mkLink {
  ls_sessions : gmap nat Session;
  ls_queue : list ForwardItem;
  ls_receiver : bool;                    (* the receiver still exists *)
  ls_phase : Phase;
  ls_stop : bool;
  ls_gateway_id : Z;
  ls_workload : bool;
  ls_link : GatewayWelcome;              (* the handshake of the current stream *)
  ls_accepted : list ForwardItem;        (* history: items [try_send] accepted *)
  ls_written : list ForwardItem;         (* history: items written upstream *)
}.

(** One atomic operation; arguments are the choices of the environment. *)
Inductive Action :=
| OpenSession (s : nat)
| CheckSupport (s : nat) (bytes : list byte)
| LoadActive (s : nat)
| Reserve (s : nat)
| ReloadActive (s : nat)
| Enqueue (s : nat)
| LeaveSession (s : nat)
| CloseSession (s : nat)
| RequestStop
| Take
| WriteItem (ok : bool)
| WriteHeartbeat (ok : bool)
| Park
| ResetId
| ResetWorkload
| Reconnect (welcome : option GatewayWelcome)
| Drain
| StoreId
| StoreWorkload
| SeeStop
| DropLifetime
| DropReceiver.

Module Link.
Section link.
Context (config : GatewayConfig).

Definition set_session (s : nat) (sn : Session) (st : LinkState) : LinkState :=
  mkLink (<[s := sn]> (ls_sessions st)) (ls_queue st) (ls_receiver st) (ls_phase st)
    (ls_stop st) (ls_gateway_id st) (ls_workload st) (ls_link st) (ls_accepted st) (ls_written st).
Definition set_phase (p : Phase) (st : LinkState) : LinkState :=
  mkLink (ls_sessions st) (ls_queue st) (ls_receiver st) p
    (ls_stop st) (ls_gateway_id st) (ls_workload st) (ls_link st) (ls_accepted st) (ls_written st).
Definition set_queue (q : list ForwardItem) (st : LinkState) : LinkState :=
  mkLink (ls_sessions st) q (ls_receiver st) (ls_phase st)
    (ls_stop st) (ls_gateway_id st) (ls_workload st) (ls_link st) (ls_accepted st) (ls_written st).
Definition set_shared (gateway_id : Z) (workload : bool) (st : LinkState) : LinkState :=
  mkLink (ls_sessions st) (ls_queue st) (ls_receiver st) (ls_phase st)
    (ls_stop st) gateway_id workload (ls_link st) (ls_accepted st) (ls_written st).

Definition with_pc (sn : Session) (pc : SessionPc) : Session :=
  mkSession (sn_quota sn) (sn_workload sn) pc.
Definition with_quota (sn : Session) (q : SessionForwardState) (pc : SessionPc) : Session :=
  mkSession q (sn_workload sn) pc.

(** Dropping an item drops its permit. *)
Definition release_of (sessions : gmap nat Session) (item : ForwardItem) : gmap nat Session :=
  alter (λ sn, with_quota sn (Quota.fetch_release (sn_quota sn)) (sn_pc sn))
    (fi_session item) sessions.
Definition drop_items (items : list ForwardItem) (st : LinkState) : LinkState :=
  mkLink (foldl release_of (ls_sessions st) items) (ls_queue st) (ls_receiver st) (ls_phase st)
    (ls_stop st) (ls_gateway_id st) (ls_workload st) (ls_link st) (ls_accepted st) (ls_written st).

(** [permit.is_active]. *)
Definition is_active (st : LinkState) (item : ForwardItem) : bool :=
  match ls_sessions st !! fi_session item with
  | Some sn => fs_active (sn_quota sn)
  | None => false
  end.

Definition active_sessions (st : LinkState) : nat :=
  size (filter (λ p : nat * Session, fs_active (sn_quota p.2) = true) (ls_sessions st)).

Definition refused (kind : ErrorKind) (message : string) : option IoError :=
  Some (mkIoError kind message).

(** The sandbox workers: admission ([SbConnectionWorker::run]), the capability check of
    its loop, then [UpstreamSender::try_send] with [SessionForwardQuota::try_reserve]. *)
Definition open_session (s : nat) (st : LinkState) : option LinkState :=
  match ls_sessions st !! s with
  | Some _ => None
  | None =>
      if Z.of_nat (active_sessions st) <? gc_max_sb_connections config
      then Some (set_session s (mkSession (Quota.new (gc_per_sb_forward_quota config))
                                  (ls_workload st) AtIdle) st)
      else None
  end.

Definition session_step (s : nat) (a : Action) (sn : Session) (st : LinkState)
    : option LinkState :=
  let q := sn_quota sn in
  match a, sn_pc sn with
  | CheckSupport _ bytes, AtIdle =>
      if sn_workload sn && negb (ls_workload st)
      then Some (set_session s (with_pc sn (AtReturn None)) st)
      else Some (set_session s (with_pc sn (AtTrySend bytes)) st)
  | LoadActive _, AtTrySend bytes =>
      Some (set_session s (with_pc sn
        (if fs_active q then AtReserve bytes
         else AtReturn (refused BrokenPipe "SB session is closed"))) st)
  | Reserve _, AtReserve bytes =>
      match Quota.fetch_reserve q with
      | Some q' => Some (set_session s (with_quota sn q' (AtRecheck bytes)) st)
      | None => Some (set_session s (with_pc sn
                  (AtReturn (refused WouldBlock "per-SB forward quota is full"))) st)
      end
  | ReloadActive _, AtRecheck bytes =>
      if fs_active q then Some (set_session s (with_pc sn (AtEnqueue bytes)) st)
      else Some (set_session s (with_quota sn (Quota.fetch_release q)
             (AtReturn (refused BrokenPipe "SB session closed while reserving forward quota"))) st)
  | Enqueue _, AtEnqueue bytes =>
      if negb (ls_receiver st)
      then Some (set_session s (with_quota sn (Quota.fetch_release q)
             (AtReturn (refused BrokenPipe "gateway upstream worker is closed"))) st)
      else if gc_outbound_queue_capacity config <=? Z.of_nat (length (ls_queue st))
      then Some (set_session s (with_quota sn (Quota.fetch_release q)
             (AtReturn (refused WouldBlock "gateway upstream queue is full"))) st)
      else
        let st' := set_session s (with_pc sn AtIdle) st in
        let item := mkItem s bytes in
        Some (mkLink (ls_sessions st') (ls_queue st' ++ [item]) (ls_receiver st') (ls_phase st')
                (ls_stop st') (ls_gateway_id st') (ls_workload st') (ls_link st')
                (ls_accepted st' ++ [item]) (ls_written st'))
  | LeaveSession _, AtIdle =>
      Some (set_session s (with_pc sn (AtReturn None)) st)
  | CloseSession _, AtReturn _ =>
      Some (set_session s (with_quota sn (Quota.close q) AtClosed) st)
  | _, _ => None
  end.

(** [UpstreamWorker::run], one operation at a time. *)
Definition worker_step (a : Action) (st : LinkState) : option LinkState :=
  match a, ls_phase st with
  | Take, Polling (Some item) =>
      if ls_stop st then None else Some (set_phase (Writing item) st)
  | Take, Polling None =>
      if ls_stop st then None
      else match ls_queue st with
           | item :: queue => Some (set_phase (Writing item) (set_queue queue st))
           | [] => None
           end
  | WriteItem ok, Writing item =>
      if negb (is_active st item)
      then Some (set_phase (Polling None) (drop_items [item] st))
      else if ok
      then Some (mkLink (ls_sessions (drop_items [item] st)) (ls_queue st) (ls_receiver st)
                   (Polling None) (ls_stop st) (ls_gateway_id st) (ls_workload st) (ls_link st)
                   (ls_accepted st) (ls_written st ++ [item]))
      else Some (set_phase (Failed0 (Some item)) st)
  | WriteHeartbeat ok, Polling None =>   (* the queue was empty when it was polled *)
      if ls_stop st then None
      else Some (if ok : bool then st else set_phase (Failed0 None) st)
  | Park, Polling None => if ls_stop st then None else Some st
  | ResetId, Failed0 pending =>
      Some (set_phase (Failed1 pending (ls_workload st)) (set_shared 0 (ls_workload st) st))
  | ResetWorkload, Failed1 pending previous =>
      Some (set_phase (Reconnecting pending previous) (set_shared (ls_gateway_id st) false st))
  | Reconnect None, Reconnecting pending _ =>
      if ls_stop st then Some (set_phase (Leaving pending) st) else Some st
  | Reconnect (Some welcome), Reconnecting pending previous =>
      let st' := mkLink (ls_sessions st) (ls_queue st) (ls_receiver st) (ls_phase st) (ls_stop st)
                   (ls_gateway_id st) (ls_workload st) welcome (ls_accepted st) (ls_written st) in
      if previous && negb (gw_workload_cgroup_observations welcome)
      then Some (set_phase (Draining welcome) (drop_items (option_list pending) st'))
      else Some (set_phase (Announcing0 pending welcome) st')
  | Drain, Draining welcome =>
      match ls_queue st with
      | item :: queue => Some (drop_items [item] (set_queue queue st))
      | [] => Some (set_phase (Announcing0 None welcome) st)
      end
  | StoreId, Announcing0 pending welcome =>
      Some (set_phase (Announcing1 pending welcome)
              (set_shared (gw_gateway_id welcome) (ls_workload st) st))
  | StoreWorkload, Announcing1 pending welcome =>
      Some (set_phase (Polling pending)
              (set_shared (ls_gateway_id st) (gw_workload_cgroup_observations welcome) st))
  | SeeStop, Polling pending =>
      if ls_stop st then Some (set_phase (Leaving pending) st) else None
  | DropLifetime, Leaving pending =>
      Some (set_phase Ended (drop_items (option_list pending) (set_shared 0 false st)))
  | DropReceiver, Ended =>
      if ls_receiver st then
        let st' := drop_items (ls_queue st) st in
        Some (mkLink (ls_sessions st') [] false (ls_phase st') (ls_stop st') (ls_gateway_id st')
                (ls_workload st') (ls_link st') (ls_accepted st') (ls_written st'))
      else None
  | _, _ => None
  end.

Definition session_of (a : Action) : option nat :=
  match a with
  | CheckSupport s _ | LoadActive s | Reserve s | ReloadActive s | Enqueue s
  | LeaveSession s | CloseSession s => Some s
  | _ => None
  end.

Definition step (a : Action) (st : LinkState) : option LinkState :=
  match a with
  | OpenSession s => open_session s st
  | RequestStop =>
      Some (mkLink (ls_sessions st) (ls_queue st) (ls_receiver st) (ls_phase st) true
              (ls_gateway_id st) (ls_workload st) (ls_link st) (ls_accepted st) (ls_written st))
  | _ =>
      match session_of a with
      | Some s => sn ← ls_sessions st !! s; session_step s a sn st
      | None => worker_step a st
      end
  end.

(** [UpstreamLink::start] after the handshake. *)
Definition start (welcome : GatewayWelcome) : LinkState :=
  mkLink ∅ [] true (Polling None) false (gw_gateway_id welcome)
    (gw_workload_cgroup_observations welcome) welcome [] [].

Fixpoint run (actions : list Action) (st : LinkState) : option LinkState :=
  match actions with
  | [] => Some st
  | a :: rest => st' ← step a st; run rest st'
  end.
End link.
End Link.

(** * The handshake with the daemon *)

Module Handshake.
Section handshake.
Context {T : Type} `{!ByteStream T}.

Definition invalid_data (message : string) : fault IoError := Failed (mkIoError InvalidData message).
Definition bad_wire (e : fault WireError) : fault IoError :=
  match e with Panicked => Panicked | Failed e => invalid_data (we_message e) end.

(** [write_frame]; [io::Error]s of the socket carry their text. *)
Definition write_frame (f : Frame UpFrameCode) : ST T (fault IoError) () := λ t,
  match FrameOps.encode f with
  | Err e => (Err (invalid_data (we_message e)), t)
  | Ok bytes =>
      let '(r, t') := write_all bytes t in
      (map_err (λ text, Failed (mkIoError OtherKind text)) r, t')
  end.

(** [read_frame] on the reads the socket returns; a read timeout is an error here, and
    [None] means that the reads are used up while it is waiting. *)
Fixpoint read_frame (reads : list SbRead) (d : FrameDecoder)
    : option (result (fault IoError) (Frame UpFrameCode)) :=
  match reads with
  | [] => None
  | SbEof :: _ =>
      Some (Err (Failed (mkIoError UnexpectedEof "daemon closed during gateway handshake")))
  | SbTimeout :: _ => Some (Err (Failed (mkIoError WouldBlock "read timed out")))
  | SbError e :: _ => Some (Err (Failed e))
  | SbData capacity bytes :: rest =>
      match Stream.next_frame (Stream.push capacity bytes d) with
      | (Err e, _) => Some (Err (bad_wire e))
      | (Ok (Some f), _) => Some (Ok f)
      | (Ok None, d') => read_frame rest d'
      end
  end.

(** The checks on the daemon's answer. *)
Definition accept_welcome (requested : bool) (f : Frame UpFrameCode)
    : result (fault IoError) GatewayWelcome :=
  if negb (bool_decide (f_code f = GatewayWelcomeCode))
  then Err (invalid_data "daemon did not return GatewayWelcome")
  else
    welcome ← map_err (λ e, invalid_data (we_message e)) (Upstream.decode_gateway_welcome f);
    if negb requested && gw_workload_cgroup_observations welcome
    then Err (invalid_data "daemon advertised an unrequested gateway capability")
    else Ok welcome.

(** What connecting to the daemon gives: an error, or a socket and what it will read. *)
Definition Attempt : Type := result IoError (T * list SbRead).

(** [connect_registered_with_capabilities]. *)
Definition connect_registered_with_capabilities (attempt : Attempt) (requested : bool)
    : option (result (fault IoError) (T * GatewayWelcome)) :=
  match attempt with
  | Err e => Some (Err (Failed e))
  | Ok (stream, reads) =>
      match write_frame (Upstream.gateway_hello requested) stream with
      | (Err e, _) => Some (Err e)
      | (Ok _, stream') =>
          match read_frame reads Stream.with_capacity with
          | None => None
          | Some (Err e) => Some (Err e)
          | Some (Ok f) => Some (welcome ← accept_welcome requested f; Ok (stream', welcome))
          end
      end
  end.

(** [connect_registered]: the second attempt asks for no capability. *)
Definition connect_registered (first second : Attempt)
    : option (result (fault IoError) (T * GatewayWelcome)) :=
  match connect_registered_with_capabilities first true with
  | Some (Err Panicked) => Some (Err Panicked)
  | Some (Err (Failed _)) => connect_registered_with_capabilities second false
  | r => r
  end.
End handshake.
End Handshake.

(** * Accounting *)

Module LinkFacts.
Import Link.

Section facts.
Context (config : GatewayConfig).
Implicit Types (st : LinkState) (items : list ForwardItem) (ss : gmap nat Session).

(** The permits of session [s] in [items], and the one its worker holds. *)
Definition count (s : nat) items : Z :=
  Z.of_nat (length (filter (λ i, fi_session i = s) items)).
Definition holds (pc : SessionPc) : Z :=
  match pc with AtRecheck _ | AtEnqueue _ => 1 | _ => 0 end.
Definition phase_items (p : Phase) : list ForwardItem :=
  match p with
  | Polling o | Failed0 o | Failed1 o _ | Reconnecting o _ | Announcing0 o _
  | Announcing1 o _ | Leaving o => option_list o
  | Writing i => [i]
  | Draining _ | Ended => []
  end.
Definition in_flight st : list ForwardItem := phase_items (ls_phase st) ++ ls_queue st.

(** A session's counter is the number of permits that exist for it. *)
Definition session_balanced items (s : nat) (sn : Session) : Prop :=
  fs_pending (sn_quota sn) = count s items + holds (sn_pc sn) ∧
  fs_pending (sn_quota sn) ≤ fs_limit (sn_quota sn) ∧
  fs_limit (sn_quota sn) = gc_per_sb_forward_quota config.
Definition balanced ss items : Prop :=
  map_Forall (session_balanced items) ss ∧ ∀ i, i ∈ items → is_Some (ss !! fi_session i).

Lemma count_app s l k : count s (l ++ k) = count s l + count s k.
Proof. unfold count. rewrite filter_app, length_app. lia. Qed.
Lemma count_nonneg s l : 0 ≤ count s l.
Proof. unfold count. lia. Qed.
Lemma count_cons s i l : count s (i :: l) = (if decide (fi_session i = s) then 1 else 0) + count s l.
Proof. unfold count. rewrite filter_cons. destruct (decide _); simpl; lia. Qed.
Lemma count_zero s l : (∀ i, i ∈ l → fi_session i ≠ s) → count s l = 0.
Proof.
  induction l as [|i l IH]; intros H; [done|]. rewrite count_cons, decide_False, IH.
  - done.
  - intros j Hj. apply H. by right.
  - apply H. by left.
Qed.
Lemma count_pos s l : (∃ i, i ∈ l ∧ fi_session i = s) → 0 < count s l.
Proof.
  intros (i & Hi & Es). unfold count. destruct (filter _ l) eqn:E; [|simpl; lia]. exfalso.
  assert (i ∈ filter (λ i, fi_session i = s) l) as Hf by (by apply list_elem_of_filter).
  rewrite E in Hf. by apply elem_of_nil in Hf.
Qed.
#[global] Instance count_perm s : Proper ((≡ₚ) ==> (=)) (count s).
Proof. intros l k E. unfold count. by rewrite E. Qed.
#[global] Instance balanced_perm ss : Proper ((≡ₚ) ==> iff) (balanced ss).
Proof.
  assert (∀ l k, l ≡ₚ k → balanced ss l → balanced ss k) as H.
  { intros l k E [H1 H2]. split.
    - intros s sn Hs. destruct (H1 s sn Hs) as (? & ? & ?). unfold session_balanced. rewrite <-E. by splits.
    - intros i Hi. apply H2. by rewrite E. }
  intros l k E. split; by apply H.
Qed.

Lemma holds_bound pc : 0 ≤ holds pc ≤ 1.
Proof. destruct pc; simpl; lia. Qed.

Lemma balanced_set ss items s sn sn' :
  balanced ss items → ss !! s = Some sn →
  fs_pending (sn_quota sn') - holds (sn_pc sn') = fs_pending (sn_quota sn) - holds (sn_pc sn) →
  fs_pending (sn_quota sn') ≤ fs_limit (sn_quota sn') →
  fs_limit (sn_quota sn') = fs_limit (sn_quota sn) →
  balanced (<[s := sn']> ss) items.
Proof.
  intros [H1 H2] Hs Hp Hl El. split.
  - destruct (H1 s sn Hs) as (? & ? & ?). apply map_Forall_insert_2; [|done].
    unfold session_balanced. splits; [lia|done|congruence].
  - intros i Hi. apply lookup_insert_is_Some'. auto.
Qed.

Lemma balanced_open ss items s workload :
  0 ≤ gc_per_sb_forward_quota config → balanced ss items → ss !! s = None →
  balanced (<[s := mkSession (Quota.new (gc_per_sb_forward_quota config)) workload AtIdle]> ss) items.
Proof.
  intros Hq [H1 H2] Hs. split.
  - apply map_Forall_insert_2; [|done]. unfold session_balanced. splits; [|done|done].
    rewrite count_zero; [done|]. intros i Hi <-. destruct (H2 i Hi). congruence.
  - intros i Hi. apply lookup_insert_is_Some'. auto.
Qed.

Lemma balanced_enqueue ss items s sn bytes pc :
  balanced ss items → ss !! s = Some sn → holds (sn_pc sn) = 1 → holds pc = 0 →
  balanced (<[s := with_pc sn pc]> ss) (items ++ [mkItem s bytes]).
Proof.
  intros [H1 H2] Hs Hh Hpc. destruct (H1 s sn Hs) as (? & ? & ?). split.
  - intros s' sn'. rewrite lookup_insert_Some. unfold session_balanced.
    rewrite count_app, count_cons. cbn [fi_session].
    intros [[<- <-]|[Hne Hs']].
    + rewrite decide_True by done. splits; [|done|done].
      cbn [with_pc sn_quota sn_pc]. unfold count at 2. simpl. lia.
    + rewrite decide_False by done. destruct (H1 s' sn' Hs') as (? & ? & ?). splits; [|done|done].
      unfold count at 2. simpl. lia.
  - intros i [Hi| ->%list_elem_of_singleton]%elem_of_app; apply lookup_insert_is_Some'; auto.
Qed.

Lemma balanced_release ss item items :
  gc_per_sb_forward_quota config ≤ u64_max → balanced ss (item :: items) →
  balanced (release_of ss item) items.
Proof.
  intros Hq [H1 H2]. split.
  - intros s sn Hs. unfold release_of in Hs.
    apply lookup_alter_Some in Hs as [(Es & sn0 & Hs & ->)|[Hne Hs]].
    + subst s. destruct (H1 _ _ Hs) as (Hp & Hl & El). rewrite count_cons, decide_True in Hp by done.
      pose proof (count_nonneg (fi_session item) items). pose proof (holds_bound (sn_pc sn0)).
      assert ((fs_pending (sn_quota sn0) - 1) mod 2 ^ 64 = fs_pending (sn_quota sn0) - 1) as Em.
      { apply Z.mod_small. unfold u64_max in *. lia. }
      unfold session_balanced, with_quota, Quota.fetch_release. cbn [sn_quota sn_pc fs_pending fs_limit].
      rewrite Em. splits; [lia|lia|done].
    + destruct (H1 _ _ Hs) as (Hp & Hl & El). rewrite count_cons, decide_False in Hp by done.
      unfold session_balanced. by splits.
  - intros i Hi. apply lookup_alter_is_Some. apply H2. by apply elem_of_cons; right.
Qed.

Lemma balanced_drop ss dropped items :
  gc_per_sb_forward_quota config ≤ u64_max → balanced ss (dropped ++ items) →
  balanced (foldl release_of ss dropped) items.
Proof.
  intros Hq. revert ss. induction dropped as [|i dropped IH]; intros ss H; [done|].
  apply IH. by apply balanced_release.
Qed.

(** ** The invariant of the link *)

(** The shared atomics show the current handshake exactly while it is usable. *)
Definition shared_ok st : Prop :=
  let w := ls_link st in
  match ls_phase st with
  | Polling _ | Writing _ | Failed0 _ =>
      ls_gateway_id st = gw_gateway_id w ∧ ls_workload st = gw_workload_cgroup_observations w
  | Failed1 _ _ => ls_gateway_id st = 0
  | Reconnecting _ _ | Ended => ls_gateway_id st = 0 ∧ ls_workload st = false
  | Draining w' | Announcing0 _ w' => w' = w ∧ ls_gateway_id st = 0 ∧ ls_workload st = false
  | Announcing1 _ w' => w' = w ∧ ls_gateway_id st = gw_gateway_id w ∧ ls_workload st = false
  | Leaving _ =>
      (ls_gateway_id st = 0 ∧ ls_workload st = false) ∨
      (ls_gateway_id st = gw_gateway_id w ∧ ls_workload st = gw_workload_cgroup_observations w)
  end.

Record link_ok st : Prop := {
  lo_balanced : balanced (ls_sessions st) (in_flight st);
  lo_queue : Z.of_nat (length (ls_queue st)) ≤ gc_outbound_queue_capacity config;
  lo_receiver : ls_receiver st = false → ls_queue st = [];
  lo_history : sublist (ls_written st ++ in_flight st) (ls_accepted st);
  lo_shared : shared_ok st;
}.

Context (Hquota : 0 ≤ gc_per_sb_forward_quota config ≤ u64_max).
Context (Hcapacity : 0 ≤ gc_outbound_queue_capacity config).

Lemma start_ok welcome : link_ok (start welcome).
Proof. split; simpl; try done; try lia. split; [apply map_Forall_empty|]. by intros i ?%elem_of_nil. Qed.

(** Replacing one session's entry leaves the rest of the invariant alone. *)
Lemma set_session_ok st s sn sn' :
  link_ok st → ls_sessions st !! s = Some sn →
  fs_pending (sn_quota sn') - holds (sn_pc sn') = fs_pending (sn_quota sn) - holds (sn_pc sn) →
  fs_pending (sn_quota sn') ≤ fs_limit (sn_quota sn') →
  fs_limit (sn_quota sn') = fs_limit (sn_quota sn) →
  link_ok (set_session s sn' st).
Proof.
  intros [H1 H2 H3 H4 H5] Hs Hp Hl El. split; try done. by apply (balanced_set _ _ _ sn).
Qed.

Lemma fetch_release_small q :
  0 < fs_pending q ≤ u64_max → fs_pending (Quota.fetch_release q) = fs_pending q - 1.
Proof. intros H. simpl. apply Z.mod_small. unfold u64_max in *. lia. Qed.

Lemma session_step_ok s a sn st st' :
  link_ok st → ls_sessions st !! s = Some sn → session_step config s a sn st = Some st' →
  link_ok st'.
Proof.
  intros Hok Hs. destruct (proj1 (lo_balanced _ Hok) s sn Hs) as (Hp & Hl & El).
  pose proof (count_nonneg s (in_flight st)).
  unfold session_step. destruct a; try done; destruct (sn_pc sn) eqn:Epc; try done; simpl in Hp.
  - destruct (_ && _); intros [= <-]; apply (set_session_ok _ _ sn); simpl; rewrite ?Epc; simpl; auto; lia.
  - intros [= <-]. apply (set_session_ok _ _ sn); try done. cbn. rewrite Epc. by destruct (fs_active _).
  - unfold Quota.fetch_reserve. destruct (Z.ltb_spec (fs_pending (sn_quota sn)) (fs_limit (sn_quota sn)));
      intros [= <-]; apply (set_session_ok _ _ sn); simpl; rewrite ?Epc; simpl; auto; lia.
  - destruct (fs_active _); intros [= <-]; apply (set_session_ok _ _ sn); try done;
      cbn [with_pc with_quota sn_quota sn_pc holds]; rewrite ?Epc, ?fetch_release_small by lia;
      cbn [holds Quota.fetch_release fs_limit]; lia.
  - destruct (negb _) eqn:Er; [|destruct (Z.leb_spec (gc_outbound_queue_capacity config)
      (Z.of_nat (length (ls_queue st)))) as [Hfull|Hroom]]; intros [= <-];
      try (apply (set_session_ok _ _ sn); try done;
        cbn [with_quota sn_quota sn_pc holds]; rewrite ?Epc, ?fetch_release_small by lia;
        cbn [holds Quota.fetch_release fs_limit]; lia).
    destruct Hok as [H1 H2 H3 H4 H5]. split; cbn.
    + unfold in_flight in *. cbn. rewrite app_assoc. apply balanced_enqueue; try done. by rewrite Epc.
    + rewrite length_app. simpl. lia.
    + intros E. by rewrite E in Er.
    + unfold in_flight in *. cbn. rewrite !app_assoc. apply sublist_app; [|done]. by rewrite <-app_assoc.
    + exact H5.
  - intros [= <-]. apply (set_session_ok _ _ sn); try done. cbn. by rewrite Epc.
  - intros [= <-]. apply (set_session_ok _ _ sn); try done. cbn. by rewrite Epc.
Qed.

(** Dropping items that were in flight. *)
Lemma drop_ok st st' dropped :
  link_ok st → ls_sessions st' = foldl release_of (ls_sessions st) dropped →
  in_flight st = dropped ++ in_flight st' →
  ls_written st' = ls_written st → ls_accepted st' = ls_accepted st →
  (ls_queue st' = [] ∨ ls_receiver st' = ls_receiver st ∧ (length (ls_queue st') ≤ length (ls_queue st))%nat) →
  shared_ok st' → link_ok st'.
Proof.
  intros [H1 H2 H3 H4 _] Es Ei Ew Ea Hq Hsh. rewrite Ei in H1, H4. split; try done.
  - rewrite Es. apply balanced_drop; [apply Hquota|done].
  - destruct Hq as [->|[_ ?]]; simpl; lia.
  - destruct Hq as [->|[-> Hl]]; [done|]. intros E. specialize (H3 E). rewrite H3 in Hl.
    by destruct (ls_queue st'); [|simpl in Hl; lia].
  - rewrite Ew, Ea. etrans; [|exact H4]. apply sublist_app; [done|]. by apply sublist_inserts_l.
Qed.

(** Moving between phases. *)
Lemma phase_ok st st' :
  link_ok st → ls_sessions st' = ls_sessions st → in_flight st' = in_flight st →
  ls_written st' = ls_written st → ls_accepted st' = ls_accepted st →
  ls_receiver st' = ls_receiver st → (length (ls_queue st') ≤ length (ls_queue st))%nat →
  shared_ok st' → link_ok st'.
Proof.
  intros H Es Ei Ew Ea Er Hq Hsh. apply (drop_ok st st' []); auto.
Qed.

(** The side conditions of [phase_ok] and [drop_ok] in a known phase. *)
Ltac moved Ep :=
  try done; try (unfold in_flight; cbn; by rewrite Ep); try (by right); try (by left).

Lemma worker_step_ok a st st' : link_ok st → worker_step a st = Some st' → link_ok st'.
Proof.
  intros Hok. pose proof (lo_shared _ Hok) as Hsh. unfold shared_ok in Hsh.
  unfold worker_step. destruct a; try done; destruct (ls_phase st) eqn:Ep;
    try done; try (by destruct welcome).
  - (* Take *) destruct pending as [item|].
    + destruct (ls_stop st); [done|]. intros [= <-].
      apply (phase_ok st); moved Ep.
    + destruct (ls_stop st); [done|]. destruct (ls_queue st) as [|item queue] eqn:Eq; [done|].
      intros [= <-]. apply (phase_ok st); try done; unfold in_flight; cbn; rewrite ?Ep, Eq; simpl; [done|lia].
  - (* WriteItem *) destruct (is_active st item) eqn:Ea; cbn [negb]; [destruct ok|]; intros [= <-].
    + destruct Hok as [H1 H2 H3 H4 H5]. unfold in_flight in *. rewrite Ep in H1, H4. cbn in H1, H4.
      split; cbn; try done.
      * apply balanced_release; [apply Hquota|done].
      * by rewrite <-app_assoc.
    + apply (phase_ok st); moved Ep.
    + apply (drop_ok st _ [item]); moved Ep.
  - (* WriteHeartbeat *) destruct pending; [done|]. destruct (ls_stop st); [done|].
    destruct ok; intros [= <-]; [done|].
    apply (phase_ok st); moved Ep.
  - (* Park *) destruct pending; [done|]. destruct (ls_stop st); [done|]. by intros [= <-].
  - (* ResetId *) intros [= <-]. apply (phase_ok st); moved Ep.
  - (* ResetWorkload *) intros [= <-]. apply (phase_ok st); moved Ep.
  - (* Reconnect *) destruct welcome as [w|].
    + destruct (_ && _); intros [= <-]; [apply (drop_ok st _ (option_list pending))|apply (phase_ok st)];
        moved Ep.
    + destruct (ls_stop st); intros [= <-]; [|done]. apply (phase_ok st); moved Ep.
  - (* Drain *) destruct (ls_queue st) as [|item queue] eqn:Eq; intros [= <-].
    + apply (phase_ok st); moved Ep.
    + apply (drop_ok st _ [item]); try done; unfold in_flight, shared_ok; cbn; rewrite ?Ep, ?Eq; try done.
      right. split; [done|]. simpl. lia.
  - (* StoreId *) intros [= <-]. apply (phase_ok st); moved Ep.
    unfold shared_ok. cbn. by destruct Hsh as (-> & _ & ->).
  - (* StoreWorkload *) intros [= <-]. apply (phase_ok st); moved Ep.
    unfold shared_ok. cbn. by destruct Hsh as (-> & -> & _).
  - (* SeeStop *) destruct (ls_stop st); [|done]. intros [= <-]. apply (phase_ok st); moved Ep.
  - (* DropLifetime *) intros [= <-]. apply (drop_ok st _ (option_list pending)); moved Ep.
  - (* DropReceiver *) destruct (ls_receiver st); [|done]. intros [= <-].
    apply (drop_ok st _ (ls_queue st)); try done; [|by left|].
    + unfold in_flight. cbn. rewrite Ep. simpl. by rewrite app_nil_r.
    + unfold shared_ok. cbn. by rewrite Ep.
Qed.

Lemma step_ok a st st' : link_ok st → step config a st = Some st' → link_ok st'.
Proof.
  intros Hok. unfold step.
  assert (∀ s, (sn ← ls_sessions st !! s; session_step config s a sn st) = Some st' → link_ok st') as Hs.
  { intros s (sn & E1 & E2)%bind_Some. by apply (session_step_ok s a sn st). }
  destruct a; cbn [session_of]; try (by apply Hs); try (by apply worker_step_ok).
  - unfold open_session. destruct (ls_sessions st !! s) eqn:E; [done|].
    destruct (_ <? _); [|done]. intros [= <-]. destruct Hok as [H1 H2 H3 H4 H5]. split; try done.
    apply balanced_open; [apply Hquota|done|done].
  - intros [= <-]. by destruct Hok.
Qed.

Lemma run_ok actions st st' : link_ok st → run config actions st = Some st' → link_ok st'.
Proof.
  revert st. induction actions as [|a rest IH]; intros st Hok; simpl; [by intros [= <-]|].
  intros (st1 & E1 & E2)%bind_Some. apply (IH st1); [|done]. by apply (step_ok a st).
Qed.

(** C17: The forward quota is exact under concurrency.  In every interleaving of the
    sandbox workers with the upstream worker, failed writes, reconnects, downgrades and
    shutdown included, each session's [pending] counter equals the number of its items
    in the queue or held by the upstream worker, plus one while its worker is between
    reserving and sending; it never exceeds the limit, so the unsigned decrements never
    wrap; and the queue never exceeds its capacity. *)
Theorem quota_accounting welcome actions st s sn :
  run config actions (start welcome) = Some st → ls_sessions st !! s = Some sn →
  fs_pending (sn_quota sn) = count s (in_flight st) + holds (sn_pc sn) ∧
  0 ≤ fs_pending (sn_quota sn) ≤ gc_per_sb_forward_quota config ∧
  Z.of_nat (length (ls_queue st)) ≤ gc_outbound_queue_capacity config.
Proof.
  intros E Hs. pose proof (run_ok _ _ _ (start_ok welcome) E) as Hok.
  destruct (proj1 (lo_balanced _ Hok) s sn Hs) as (Hp & Hl & El).
  pose proof (count_nonneg s (in_flight st)). pose proof (holds_bound (sn_pc sn)).
  splits; [done|lia|lia|apply Hok].
Qed.

(** ** The queue has room for every quota *)

Lemma length_counts (X : gset nat) items q :
  0 ≤ q → (∀ i, i ∈ items → fi_session i ∈ X) → (∀ s, s ∈ X → count s items ≤ q) →
  Z.of_nat (length items) ≤ Z.of_nat (size X) * q.
Proof.
  intros Hq. revert items. induction X as [|x X Hx IH] using set_ind_L; intros items Hin Hc.
  { destruct items as [|i items]; [rewrite size_empty; simpl; lia|].
    specialize (Hin i ltac:(by left)). set_solver. }
  rewrite size_union, size_singleton by set_solver.
  specialize (IH (filter (λ i, fi_session i ≠ x) items)).
  assert (length items = length (filter (λ i, fi_session i = x) items) +
                         length (filter (λ i, fi_session i ≠ x) items))%nat as El.
  { clear. induction items as [|i items IH]; [done|]. rewrite !filter_cons.
    destruct (decide (fi_session i = x)), (decide (fi_session i ≠ x)); simpl; try done; lia. }
  pose proof (Hc x ltac:(set_solver)) as Hcx. unfold count in Hcx.
  assert (Z.of_nat (length (filter (λ i, fi_session i ≠ x) items)) ≤ Z.of_nat (size X) * q); [|lia].
  apply IH.
  - intros i [Hi Hin']%list_elem_of_filter. specialize (Hin i Hin'). set_solver.
  - intros s Hs. etrans; [|apply (Hc s); set_solver]. unfold count.
    apply inj_le, sublist_length. rewrite list_filter_filter.
    clear. induction items as [|i items IH]; [done|]. rewrite !filter_cons.
    repeat case_decide; try tauto; by constructor.
Qed.

(** What validation guarantees of the capacities. *)
Lemma validate_covers :
  Config.validate config = Ok () →
  gc_max_sb_connections config * gc_per_sb_forward_quota config ≤ gc_outbound_queue_capacity config.
Proof.
  unfold Config.validate, Codec.checked_mul_u64. munfold. intros E.
  repeat case_match; simplify_eq/=.
  apply Z.ltb_ge. done.
Qed.

(** How a step changes the sessions. *)
Lemma worker_step_sessions a st st' :
  worker_step a st = Some st' →
  ∃ dropped, ls_sessions st' = foldl release_of (ls_sessions st) dropped.
Proof.
  unfold worker_step. intros E.
  repeat case_match; simplify_eq/=;
    match goal with
    | |- ∃ d, release_of _ ?i = _ => by exists [i]
    | |- ∃ d, foldl _ _ ?l = _ => by exists l
    | _ => by exists []
    end.
Qed.

Lemma session_step_sessions s a sn st st' :
  session_step config s a sn st = Some st' →
  ∃ sn', ls_sessions st' = <[s := sn']> (ls_sessions st) ∧
    (fs_active (sn_quota sn') = true → fs_active (sn_quota sn) = true).
Proof.
  unfold session_step, Quota.fetch_reserve. intros E.
  repeat case_match; simplify_eq/=; eexists; split; try done; simpl; congruence.
Qed.

Lemma release_lookup ss dropped s sn' :
  foldl release_of ss dropped !! s = Some sn' →
  ∃ sn, ss !! s = Some sn ∧ fs_active (sn_quota sn') = fs_active (sn_quota sn) ∧ sn_pc sn' = sn_pc sn.
Proof.
  revert ss. induction dropped as [|i dropped IH]; intros ss; simpl; [eauto|].
  intros (sn1 & H1 & -> & ->)%IH. unfold release_of in H1.
  apply lookup_alter_Some in H1 as [(_ & sn & Hs & ->)|[_ Hs]]; eauto.
Qed.

(** Sessions only become active when they are opened. *)
Lemma step_active a st st' s sn' :
  step config a st = Some st' → ls_sessions st' !! s = Some sn' → fs_active (sn_quota sn') = true →
  a = OpenSession s ∨ ∃ sn, ls_sessions st !! s = Some sn ∧ fs_active (sn_quota sn) = true.
Proof.
  intros E Hs Hact.
  assert (∀ x, (sn ← ls_sessions st !! x; session_step config x a sn st) = Some st' →
    ∃ sn, ls_sessions st !! s = Some sn ∧ fs_active (sn_quota sn) = true) as H1.
  { intros x (sn & Ex & Est)%bind_Some.
    apply session_step_sessions in Est as (sn1 & Es & Ha). rewrite Es in Hs.
    apply lookup_insert_Some in Hs as [[-> ->]|[_ ?]]; eauto. }
  assert (worker_step a st = Some st' →
    ∃ sn, ls_sessions st !! s = Some sn ∧ fs_active (sn_quota sn) = true) as H2.
  { intros Ew. apply worker_step_sessions in Ew as [dropped Es]. rewrite Es in Hs.
    apply release_lookup in Hs as (sn & ? & ? & _). exists sn. split; congruence. }
  destruct a; cbn [step session_of] in E; eauto.
  - unfold open_session in E. destruct (ls_sessions st !! s0); [done|]. destruct (_ <? _); [|done].
    injection E as <-. cbn in Hs. apply lookup_insert_Some in Hs as [[-> _]|[_ ?]]; eauto.
  - injection E as <-. eauto.
Qed.

Definition actives st : gset nat :=
  dom (filter (λ p : nat * Session, fs_active (sn_quota p.2) = true) (ls_sessions st)).

Lemma elem_of_actives st s :
  s ∈ actives st ↔ ∃ sn, ls_sessions st !! s = Some sn ∧ fs_active (sn_quota sn) = true.
Proof.
  unfold actives. rewrite elem_of_dom. split.
  - intros [sn [H1 H2]%map_lookup_filter_Some]. eauto.
  - intros (sn & H1 & H2). exists sn. by apply map_lookup_filter_Some.
Qed.

Lemma size_actives st : size (actives st) = active_sessions st.
Proof. apply size_dom. Qed.

Lemma active_bound actions st st' :
  Z.of_nat (active_sessions st) ≤ gc_max_sb_connections config → run config actions st = Some st' →
  Z.of_nat (active_sessions st') ≤ gc_max_sb_connections config.
Proof.
  revert st. induction actions as [|a rest IH]; intros st Hb; cbn [run]; [by intros [= <-]|].
  intros (st1 & E1 & E2)%bind_Some. apply (IH st1); [|done]. rewrite <-size_actives in *.
  assert ((∃ s, a = OpenSession s) ∨ ∀ s, a ≠ OpenSession s) as [[s ->]|Hno]
    by (destruct a; eauto).
  - cbn [step] in E1. unfold open_session in E1. destruct (ls_sessions st !! s); [done|].
    destruct (Z.ltb_spec (Z.of_nat (active_sessions st)) (gc_max_sb_connections config)) as [Hlt|]; [|done].
    rewrite <-size_actives in Hlt. injection E1 as <-.
    assert (actives (set_session s (mkSession (Quota.new (gc_per_sb_forward_quota config))
      (ls_workload st) AtIdle) st) ⊆ {[s]} ∪ actives st) as Hsub.
    { intros x (sn & Hx & ?)%elem_of_actives. cbn in Hx.
      apply lookup_insert_Some in Hx as [[-> _]|[_ Hx]]; [set_solver|].
      apply elem_of_union_r, elem_of_actives. eauto. }
    apply subseteq_size in Hsub. rewrite size_union_alt, size_singleton in Hsub.
    pose proof (subseteq_size (actives st ∖ {[s]}) (actives st)) as Hd.
    specialize (Hd ltac:(set_solver)). lia.
  - enough (size (actives st1) ≤ size (actives st))%nat by lia. apply subseteq_size.
    intros x (sn & Hx & Ha)%elem_of_actives. apply elem_of_actives.
    destruct (step_active _ _ _ _ _ E1 Hx Ha) as [->|?]; [|done]. by destruct (Hno x).
Qed.

(** With every pending item owned by an open session, a permit not yet in the queue
    leaves room for it. *)
Lemma room_for_permit st s sn bytes :
  Config.validate config = Ok () → link_ok st →
  Z.of_nat (size (actives st)) ≤ gc_max_sb_connections config →
  (∀ s' sn', ls_sessions st !! s' = Some sn' → 0 < fs_pending (sn_quota sn') →
             fs_active (sn_quota sn') = true) →
  ls_sessions st !! s = Some sn → sn_pc sn = AtEnqueue bytes →
  Z.of_nat (length (ls_queue st)) < gc_outbound_queue_capacity config.
Proof.
  intros Hv Hok E Hopen Hs Hpc. pose proof (lo_balanced _ Hok) as Hbal.
  pose proof (validate_covers Hv) as Hcov.
  set (items := in_flight st ++ [mkItem s bytes]).
  assert (∀ s' sn', ls_sessions st !! s' = Some sn' →
    count s' items ≤ fs_pending (sn_quota sn') ≤ gc_per_sb_forward_quota config) as Hle.
  { pose proof (balanced_enqueue (ls_sessions st) (in_flight st) s sn bytes AtIdle Hbal Hs
      ltac:(by rewrite Hpc) eq_refl) as Hbal'. fold items in Hbal'.
    intros s' sn' Hs'. destruct (proj1 Hbal s' sn' Hs') as (_ & ? & ?). split; [|lia].
    destruct (decide (s' = s)) as [->|Hne].
    - assert (sn' = sn) as -> by congruence.
      destruct (proj1 Hbal' s _ (lookup_insert_eq _ _ _)) as (E1 & _). simpl in E1. lia.
    - destruct (proj1 Hbal' s' sn') as (E1 & _); [by rewrite lookup_insert_ne|].
      pose proof (holds_bound (sn_pc sn')). lia. }
  assert (Z.of_nat (length items) ≤ Z.of_nat (size (actives st)) * gc_per_sb_forward_quota config).
  { apply length_counts; [lia| |].
    - intros i Hi. apply elem_of_actives.
      assert (is_Some (ls_sessions st !! fi_session i)) as [sn' Hs'].
      { apply elem_of_app in Hi as [Hi| ->%list_elem_of_singleton]; [by apply Hbal|by eexists]. }
      exists sn'. split; [done|]. apply (Hopen _ _ Hs'). specialize (Hle _ _ Hs').
      enough (0 < count (fi_session i) items) by lia. apply count_pos. eauto.
    - intros s' (sn' & Hs' & _)%elem_of_actives. specialize (Hle s' sn' Hs'). lia. }
  subst items. unfold in_flight in *. rewrite !length_app in *. simpl in *. nia.
Qed.

(** A reserved quota always has a place in the queue.  With a configuration that
    passed validation, as long as every session that still has items under way is
    open, a worker that holds a permit finds room in the queue: sending succeeds and
    never reports a full queue. *)
Theorem reserved_quota_has_room welcome actions st s sn bytes :
  Config.validate config = Ok () → 0 ≤ gc_max_sb_connections config →
  run config actions (start welcome) = Some st →
  (∀ s' sn', ls_sessions st !! s' = Some sn' → 0 < fs_pending (sn_quota sn') →
             fs_active (sn_quota sn') = true) →
  ls_receiver st = true → ls_sessions st !! s = Some sn → sn_pc sn = AtEnqueue bytes →
  ∃ st', step config (Enqueue s) st = Some st' ∧
    ls_queue st' = ls_queue st ++ [mkItem s bytes] ∧
    ls_sessions st' !! s = Some (with_pc sn AtIdle).
Proof.
  intros Hv Hmax E Hopen Hrec Hs Hpc. pose proof (run_ok _ _ _ (start_ok welcome) E) as Hok.
  apply active_bound in E; [|by rewrite <-size_actives]. rewrite <-size_actives in E.
  pose proof (room_for_permit st s sn bytes Hv Hok E Hopen Hs Hpc) as Hroom.
  cbn [step session_of]. rewrite Hs. cbn [mbind option_bind session_step]. rewrite Hpc, Hrec. cbn [negb].
  destruct (Z.leb_spec (gc_outbound_queue_capacity config) (Z.of_nat (length (ls_queue st)))); [lia|].
  eexists. split; [done|]. split; [done|]. cbn. apply lookup_insert_eq.
Qed.

(** ** No loss across reconnects *)

(** Everything but a downgrade and the end of the worker. *)
Definition keeps (a : Action) : Prop :=
  match a with
  | Reconnect (Some w) => gw_workload_cgroup_observations w = true
  | DropLifetime | DropReceiver => False
  | _ => True
  end.
Definition of_session (s : nat) items : list ForwardItem := filter (λ i, fi_session i = s) items.

Record kept st : Prop := {
  kp_known : ∀ i, i ∈ ls_accepted st → is_Some (ls_sessions st !! fi_session i);
  kp_exact : ∀ s sn, ls_sessions st !! s = Some sn → fs_active (sn_quota sn) = true →
    of_session s (ls_written st ++ in_flight st) = of_session s (ls_accepted st);
  kp_phase : ∀ w, ls_phase st ≠ Draining w;
}.

Lemma of_session_app s l k : of_session s (l ++ k) = of_session s l ++ of_session s k.
Proof. apply filter_app. Qed.
Lemma of_session_other s i : fi_session i ≠ s → of_session s [i] = [].
Proof. intros H. unfold of_session. by rewrite filter_cons_False. Qed.

(** What a step does to the histories: nothing, accept an item, or drop an item whose
    session is closed. *)
Definition trail st : list ForwardItem := ls_written st ++ in_flight st.
Definition history_step st st' : Prop :=
  (ls_accepted st' = ls_accepted st ∧ trail st' = trail st) ∨
  (∃ i, is_Some (ls_sessions st !! fi_session i) ∧
        ls_accepted st' = ls_accepted st ++ [i] ∧ trail st' = trail st ++ [i]) ∨
  (∃ i l k, ls_accepted st' = ls_accepted st ∧ is_active st i = false ∧
            trail st = l ++ i :: k ∧ trail st' = l ++ k).

Lemma session_step_history s a sn st st' :
  ls_sessions st !! s = Some sn → session_step config s a sn st = Some st' →
  history_step st st' ∧ ls_phase st' = ls_phase st.
Proof.
  intros Hs. unfold session_step. intros E.
  assert (∀ sn', history_step st (set_session s sn' st)) as Hset by (by left).
  repeat case_match; simplify_eq/=; (split; [try by apply Hset|done]).
  right. left. exists (mkItem s bytes). splits; [by eexists|done|].
  unfold trail, in_flight. cbn. by rewrite !app_assoc.
Qed.

Lemma worker_step_history a st st' :
  keeps a → (∀ w, ls_phase st ≠ Draining w) → worker_step a st = Some st' →
  history_step st st' ∧ ∀ w, ls_phase st' ≠ Draining w.
Proof.
  intros Hk Hph. unfold worker_step, history_step, trail, in_flight.
  destruct a; try done; destruct (ls_phase st) eqn:Ep; try done; try (by destruct welcome);
    try (intros [= <-]; cbn; split; [by left|done]).
  - destruct pending as [item|].
    + destruct (ls_stop st); [done|]. intros [= <-]. cbn. split; [by left|done].
    + destruct (ls_stop st); [done|]. destruct (ls_queue st) as [|item queue]; [done|].
      intros [= <-]. cbn. split; [by left|done].
  - destruct (is_active st item) eqn:Ea; cbn [negb]; [destruct ok|]; intros [= <-]; cbn.
    + split; [|done]. left. by rewrite <-app_assoc.
    + split; [by left|done].
    + split; [|done]. right. right. exists item, (ls_written st), (ls_queue st). by splits.
  - destruct pending; [done|]. destruct (ls_stop st); [done|].
    destruct ok; intros [= <-]; cbn; rewrite ?Ep; split; by try left.
  - destruct pending; [done|]. destruct (ls_stop st); [done|]. intros [= <-]. rewrite Ep.
    split; by try left.
  - destruct welcome as [w|].
    + simpl in Hk. rewrite Hk, andb_false_r. intros [= <-]. cbn. split; [by left|done].
    + destruct (ls_stop st); intros [= <-]; cbn; rewrite ?Ep; split; by try left.
  - by destruct (Hph welcome).
  - destruct (ls_stop st); [|done]. intros [= <-]. cbn. split; by try left.
Qed.

Lemma step_history a st st' :
  keeps a → (∀ w, ls_phase st ≠ Draining w) → step config a st = Some st' →
  history_step st st' ∧ ∀ w, ls_phase st' ≠ Draining w.
Proof.
  intros Hk Hph E.
  assert (∀ s, (sn ← ls_sessions st !! s; session_step config s a sn st) = Some st' →
    history_step st st' ∧ ∀ w, ls_phase st' ≠ Draining w) as Hs.
  { intros s (sn & E1 & E2)%bind_Some.
    destruct (session_step_history _ _ _ _ _ E1 E2) as [? ->]. by split. }
  destruct a; cbn [step session_of] in E; try exact (Hs _ E);
    try exact (worker_step_history _ _ _ Hk Hph E).
  - unfold open_session in E. destruct (ls_sessions st !! s); [done|]. destruct (_ <? _); [|done].
    injection E as <-. split; [by left|done].
  - injection E as <-. split; [by left|done].
Qed.

Lemma step_known a st st' s :
  step config a st = Some st' → is_Some (ls_sessions st !! s) → is_Some (ls_sessions st' !! s).
Proof.
  intros E Hs.
  assert (∀ x, (sn ← ls_sessions st !! x; session_step config x a sn st) = Some st' →
    is_Some (ls_sessions st' !! s)) as H1.
  { intros x (sn & _ & (sn' & -> & _)%session_step_sessions)%bind_Some.
    apply lookup_insert_is_Some'. auto. }
  assert (worker_step a st = Some st' → is_Some (ls_sessions st' !! s)) as H2.
  { intros [dropped ->]%worker_step_sessions. clear -Hs. revert Hs. generalize (ls_sessions st).
    induction dropped as [|i dropped IH]; intros ss Hs; [done|]. apply IH.
    by apply lookup_alter_is_Some. }
  destruct a; cbn [step session_of] in E; eauto.
  - unfold open_session in E. destruct (ls_sessions st !! s0); [done|]. destruct (_ <? _); [|done].
    injection E as <-. apply lookup_insert_is_Some'. auto.
  - by injection E as <-.
Qed.

Lemma step_kept a st st' : keeps a → kept st → link_ok st → step config a st = Some st' → kept st'.
Proof.
  intros Hk [H1 H2 H3] Hok E. destruct (step_history a st st' Hk H3 E) as [Hh Hph].
  assert (∀ i, i ∈ ls_accepted st' → is_Some (ls_sessions st' !! fi_session i)) as Hknown.
  { intros i Hi. apply (step_known a st); [done|].
    destruct Hh as [[Ea _]|[(j & Hj & Ea & _)|(j & l & k & Ea & _)]]; rewrite Ea in Hi; auto.
    apply elem_of_app in Hi as [Hi| ->%list_elem_of_singleton]; auto. }
  assert (∀ s sn', ls_sessions st' !! s = Some sn' → fs_active (sn_quota sn') = true →
    of_session s (trail st) = of_session s (ls_accepted st) ∧
    ∀ i, fi_session i = s → is_active st i = false → i ∉ trail st) as Hold.
  { intros s sn' Hs Ha. destruct (step_active a st st' s sn' E Hs Ha) as [->|(sn & Hs0 & Ha0)].
    - cbn [step] in E. unfold open_session in E.
      destruct (ls_sessions st !! s) eqn:Hn; [done|].
      assert (∀ i, i ∈ ls_accepted st → fi_session i ≠ s) as Hne.
      { intros i Hi <-. destruct (H1 i Hi). congruence. }
      assert (∀ i, i ∈ trail st → fi_session i ≠ s) as Hne'.
      { intros i Hi. apply Hne. eapply elem_of_sublist; [exact Hi|apply Hok]. }
      split; [|intros i Ei _ Hi; by apply (Hne' i)].
      transitivity (@nil ForwardItem); [|symmetry]; apply elem_of_nil_inv;
        intros i [Ei Hi]%list_elem_of_filter; naive_solver.
    - split; [by apply (H2 s sn)|]. intros i <- Hf. unfold is_active in Hf. rewrite Hs0 in Hf. congruence. }
  split; [done| |done]. intros s sn' Hs Ha. destruct (Hold s sn' Hs Ha) as [Eo Hno].
  fold (trail st'). destruct Hh as [[-> ->]|[(i & _ & -> & ->)|(i & l & k & -> & Hi & Et & ->)]].
  - done.
  - by rewrite !of_session_app, Eo.
  - rewrite <-Eo, Et. change (i :: k) with ([i] ++ k). rewrite !of_session_app.
    rewrite (of_session_other s i); [done|]. intros Es. apply (Hno i Es Hi). rewrite Et. set_solver.
Qed.

(** C18: Write failures and reconnects lose nothing.  As long as the daemon it
    reconnects to keeps the workload capability and the worker has not ended, what was
    written upstream followed by what is still under way contains, for every open
    session, exactly the items accepted from that session, each once and in order; and
    over all sessions, whatever happens, what was written is a subsequence of what was
    accepted. *)
Theorem reconnects_lose_nothing welcome actions st :
  run config actions (start welcome) = Some st →
  sublist (ls_written st ++ in_flight st) (ls_accepted st) ∧
  (Forall keeps actions → ∀ s sn, ls_sessions st !! s = Some sn →
     fs_active (sn_quota sn) = true →
     of_session s (ls_written st ++ in_flight st) = of_session s (ls_accepted st)).
Proof.
  intros E. split; [apply (run_ok _ _ _ (start_ok welcome) E)|]. intros Hk.
  enough (kept st) as [_ H _] by exact H.
  assert (kept (start welcome)) as H0 by (split; [by intros i ?%elem_of_nil|done|done]).
  generalize dependent (start_ok welcome). generalize dependent (start welcome).
  induction Hk as [|a rest Ha Hk IH]; intros st0; cbn [run]; [by intros [= <-]|].
  intros (st1 & E1 & E2)%bind_Some Hkept Hok. apply (IH st1 E2); [by apply (step_kept a st0)|].
  by apply (step_ok a st0).
Qed.

(** ** Shutdown *)

(** How many steps the worker can still take once it is told to stop. *)
Definition rank st : nat :=
  match ls_phase st with
  | Ended => if ls_receiver st then 1 else 0
  | Leaving _ => 2
  | Polling _ => 3
  | Announcing1 _ _ => 4
  | Announcing0 _ _ => 5
  | Draining _ => 6
  | Reconnecting _ _ => 7
  | Failed1 _ _ => 8
  | Failed0 _ => 9
  | Writing _ => 10
  end.
Definition remaining st : nat := rank st + length (ls_queue st).

Fixpoint worker_run (actions : list Action) st : option LinkState :=
  match actions with
  | [] => Some st
  | a :: rest => st' ← worker_step a st; worker_run rest st'
  end.

Lemma worker_step_remaining a st st' :
  ls_stop st = true → worker_step a st = Some st' →
  ls_stop st' = true ∧ (remaining st' < remaining st)%nat.
Proof.
  intros Hstop. unfold worker_step, remaining, rank. rewrite Hstop. intros E.
  repeat case_match; simplify_eq/=; try (by split; [|lia]); try congruence.
  match goal with H : ls_queue st = [] |- _ => rewrite H end. by split; [|simpl; lia].
Qed.

Lemma worker_run_ok actions st st' : link_ok st → worker_run actions st = Some st' → link_ok st'.
Proof.
  revert st. induction actions as [|a rest IH]; intros st Hok; simpl; [by intros [= <-]|].
  intros (st1 & E1 & E2)%bind_Some. apply (IH st1); [|done]. by apply (worker_step_ok a st).
Qed.

(** A stopped worker that is not finished can move, whatever the network does. *)
Lemma worker_progress st :
  link_ok st → ls_stop st = true → (0 < remaining st)%nat → ∃ a, is_Some (worker_step a st).
Proof.
  intros Hok Hstop Hr. unfold remaining, rank in Hr. unfold worker_step.
  destruct (ls_phase st) as [pending|item|pending|pending prev|pending prev|w|pending w|pending w|pending|] eqn:Ep.
  - exists SeeStop. by rewrite Hstop.
  - exists (WriteItem true). destruct (negb _); by eexists.
  - exists ResetId. by eexists.
  - exists ResetWorkload. by eexists.
  - exists (Reconnect None). rewrite Hstop. by eexists.
  - exists Drain. destruct (ls_queue st); by eexists.
  - exists StoreId. by eexists.
  - exists StoreWorkload. by eexists.
  - exists DropLifetime. by eexists.
  - exists DropReceiver. destruct (ls_receiver st) eqn:Er; [by eexists|].
    rewrite (lo_receiver _ Hok Er) in Hr. simpl in Hr. lia.
Qed.

(** C38: Shutdown terminates and returns every permit.  Once stop is requested and no
    sandbox worker runs any more, every run of the upstream worker, whatever the writes
    and reconnects answer, has at most ten steps more than the queue is long; until it
    is finished the worker can always step; and when it is finished the queue is gone,
    the gateway id and the capability are reset, and each session's counter holds
    exactly the permit its own worker still has. *)
Theorem shutdown_terminates welcome actions st :
  run config actions (start welcome) = Some st → ls_stop st = true →
  (∀ more st', worker_run more st = Some st' → (length more ≤ 10 + length (ls_queue st))%nat) ∧
  ∃ more st', worker_run more st = Some st' ∧ ls_phase st' = Ended ∧ ls_queue st' = [] ∧
    ls_gateway_id st' = 0 ∧ ls_workload st' = false ∧
    ∀ s sn, ls_sessions st' !! s = Some sn → fs_pending (sn_quota sn) = holds (sn_pc sn).
Proof.
  intros E Hstop. pose proof (run_ok _ _ _ (start_ok welcome) E) as Hok. clear E. split.
  - intros more st' E.
    enough (length more ≤ remaining st)%nat.
    { assert (rank st ≤ 10)%nat by (unfold rank; repeat case_match; lia). unfold remaining in *. lia. }
    revert st Hstop Hok E. induction more as [|a more IH]; intros st Hstop Hok; simpl; [lia|].
    intros (st1 & E1 & E2)%bind_Some.
    destruct (worker_step_remaining _ _ _ Hstop E1) as [Hstop1 Hlt].
    specialize (IH st1 Hstop1 (worker_step_ok _ _ _ Hok E1) E2). lia.
  - remember (remaining st) as n eqn:En. revert st Hstop Hok En.
    induction (lt_wf n) as [n _ IH]; intros st Hstop Hok ->.
    destruct (decide (0 < remaining st)%nat) as [Hpos|Hz].
    + destruct (worker_progress st Hok Hstop Hpos) as [a [st1 E1]].
      destruct (worker_step_remaining _ _ _ Hstop E1) as [Hstop1 Hlt].
      destruct (IH _ Hlt st1 Hstop1 (worker_step_ok _ _ _ Hok E1) eq_refl) as (more & st' & E2 & H).
      exists (a :: more), st'. split; [|done]. simpl. by rewrite E1.
    + exists [], st. unfold remaining, rank in Hz. pose proof (lo_shared _ Hok) as Hsh.
      unfold shared_ok in Hsh. destruct (ls_phase st) eqn:Ep; try lia.
      destruct (ls_queue st) eqn:Eq; [|simpl in Hz; lia]. destruct Hsh as [-> ->]. splits; try done.
      intros s sn Hs. destruct (proj1 (lo_balanced _ Hok) s sn Hs) as (Hp & _).
      unfold in_flight in Hp. rewrite Ep, Eq in Hp. exact Hp.
Qed.
End facts.

(** ** Concrete links *)

Definition w_config (max_sb quota capacity : Z) : GatewayConfig :=
  mkGatewayConfig (KernelVsock 3 5000 16) max_sb quota capacity 1 1 1 1 1 65536.
Definition w_up : GatewayWelcome := mkGatewayWelcome 7 true.

(** A worker's way through [try_send]. *)
Definition sends (s : nat) (bytes : list byte) : list Action :=
  [CheckSupport s bytes; LoadActive s; Reserve s; ReloadActive s; Enqueue s].

(** The queue can be full although every open session is within its quota: the items
    of a closed session stay in the queue until the worker reaches them, while its slot
    is already reused.  Here one connection, quota one and capacity one. *)
Theorem stale_items_fill_the_queue :
  let config := w_config 1 1 1 in
  Config.validate config = Ok () ∧
  ∃ st sn, Link.run config
      ([OpenSession 0] ++ sends 0 [] ++ [LeaveSession 0; CloseSession 0; OpenSession 1] ++ sends 1 [])
      (start w_up) = Some st ∧
    ls_sessions st !! 1%nat = Some sn ∧ active_sessions st = 1%nat ∧
    fs_pending (sn_quota sn) = 0 ∧
    sn_pc sn = AtReturn (Some (mkIoError WouldBlock "gateway upstream queue is full")).
Proof. split; [reflexivity|]. do 2 eexists. splits; vm_compute; reflexivity. Qed.

(** The capability check and the enqueueing are separate: an item of a session that was
    welcomed with the capability can be written on a link without it, when the worker
    reconnects and drains in between. *)
Theorem downgrade_race :
  let config := w_config 1 1 1 in
  Config.validate config = Ok () ∧
  ∃ st sn item, Link.run config
      ([OpenSession 0; CheckSupport 0 []; WriteHeartbeat false; ResetId; ResetWorkload;
        Reconnect (Some (mkGatewayWelcome 8 false)); Drain; LoadActive 0; Reserve 0;
        ReloadActive 0; Enqueue 0; StoreId; StoreWorkload; Take; WriteItem true])
      (start w_up) = Some st ∧
    ls_written st = [item] ∧ ls_sessions st !! fi_session item = Some sn ∧
    sn_workload sn = true ∧ gw_workload_cgroup_observations (ls_link st) = false.
Proof. split; [reflexivity|]. do 3 eexists. splits; vm_compute; reflexivity. Qed.

Lemma quota_accounting_witness :
  ∃ st sn, Link.run (w_config 2 3 6) (OpenSession 4 :: sends 4 []) (start w_up) = Some st ∧
    ls_sessions st !! 4%nat = Some sn ∧
    fs_pending (sn_quota sn) = count 4 (in_flight st) + holds (sn_pc sn) ∧ fs_pending (sn_quota sn) = 1.
Proof.
  do 2 eexists. split; [vm_compute; reflexivity|]. split; [vm_compute; reflexivity|]. split.
  - eapply (quota_accounting (w_config 2 3 6)) with (welcome := w_up)
      (actions := OpenSession 4 :: sends 4 []); try (vm_compute; reflexivity);
      simpl; unfold u64_max; lia.
  - vm_compute. reflexivity.
Defined.

Lemma reserved_quota_has_room_witness :
  ∃ st st', Link.run (w_config 1 1 1)
      [OpenSession 0; CheckSupport 0 []; LoadActive 0; Reserve 0; ReloadActive 0] (start w_up) = Some st ∧
    step (w_config 1 1 1) (Enqueue 0) st = Some st' ∧ ls_queue st' = [mkItem 0 []].
Proof.
  destruct (Link.run (w_config 1 1 1)
      [OpenSession 0; CheckSupport 0 []; LoadActive 0; Reserve 0; ReloadActive 0] (start w_up))
    as [st|] eqn:E; [|by vm_compute in E].
  exists st. pose proof E as E'. vm_compute in E. injection E as E.
  destruct (reserved_quota_has_room (w_config 1 1 1)) with (welcome := w_up) (st := st) (s := 0%nat)
    (actions := [OpenSession 0; CheckSupport 0 []; LoadActive 0; Reserve 0; ReloadActive 0])
    (sn := mkSession (mkForwardState true 1 1) true (AtEnqueue [])) (bytes := @nil byte)
    as (st' & H1 & H2 & _); try exact E'; try (subst st; reflexivity); try reflexivity;
    try (simpl; unfold u64_max; lia).
  - assert (ls_sessions st =
      {[0%nat := mkSession (mkForwardState true 1 1) true (AtEnqueue [])]}) as -> by (subst st; reflexivity).
    intros s' sn' [_ <-]%lookup_singleton_Some _. reflexivity.
  - exists st'. splits; [done|exact H1|]. rewrite H2. subst st. reflexivity.
Defined.

Lemma reconnects_lose_nothing_witness :
  ∃ st, Link.run (w_config 2 3 6)
      (OpenSession 4 :: sends 4 [] ++
       [Take; WriteItem false; ResetId; ResetWorkload; Reconnect (Some (mkGatewayWelcome 9 true));
        StoreId; StoreWorkload; Take; WriteItem true]) (start w_up) = Some st ∧
    of_session 4 (ls_written st ++ in_flight st) = [mkItem 4 []].
Proof.
  eexists. split; [vm_compute; reflexivity|].
  erewrite (proj2 (reconnects_lose_nothing (w_config 2 3 6) ltac:(simpl; unfold u64_max; lia)
    ltac:(simpl; lia) w_up (OpenSession 4 :: sends 4 [] ++
       [Take; WriteItem false; ResetId; ResetWorkload; Reconnect (Some (mkGatewayWelcome 9 true));
        StoreId; StoreWorkload; Take; WriteItem true]) _ ltac:(vm_compute; reflexivity))).
  - reflexivity.
  - repeat constructor.
  - vm_compute. reflexivity.
  - reflexivity.
Defined.

Lemma shutdown_terminates_witness :
  ∃ st more st', Link.run (w_config 2 3 6) (OpenSession 4 :: sends 4 [] ++ [RequestStop]) (start w_up) = Some st ∧
    worker_run more st = Some st' ∧ ls_phase st' = Ended ∧ ls_queue st' = [].
Proof.
  destruct (Link.run (w_config 2 3 6) (OpenSession 4 :: sends 4 [] ++ [RequestStop]) (start w_up))
    as [st|] eqn:E; [|by vm_compute in E].
  destruct (shutdown_terminates (w_config 2 3 6) ltac:(simpl; unfold u64_max; lia)
    ltac:(simpl; lia) w_up _ st E) as (_ & more & st' & H1 & H2 & H3 & _).
  - vm_compute in E. injection E as <-. reflexivity.
  - exists st, more, st'. splits; [reflexivity|exact H1|exact H2|exact H3].
Defined.
End LinkFacts.

(** * The handshake, with the daemon *)

Module HandshakeFacts.
Import Handshake.

(** The first frame of a stream of frames, cut in any way. *)
Lemma read_frame_first (f : Frame UpFrameCode) fs chunks d rest :
  WireFacts.decoder_ok d → Forall WireFacts.frame_fits (f :: fs) →
  WireFacts.next_of (Code:=UpFrameCode) (WireFacts.pending d) = (Ok None, WireFacts.pending d) →
  WireFacts.pending d ++ concat chunks.*2 = concat (WireFacts.encoded <$> f :: fs) →
  read_frame (((λ c, SbData c.1 c.2) <$> chunks) ++ rest) d = Some (Ok f).
Proof.
  revert d. induction chunks as [|[c bytes] chunks IH]; intros d Hd Hfs Hn E.
  { exfalso. cbn [fmap list_fmap concat] in E. rewrite app_nil_r in E. rewrite E in Hn.
    apply Forall_cons in Hfs as [Hf _]. simpl in Hn.
    by rewrite (WireFacts.next_of_frame f _ _ Hf (WireFacts.encoded_Ok f Hf)) in Hn. }
  destruct (WireFacts.push_refines c bytes d Hd) as [Hd1 Hp1].
  assert (WireFacts.pending (Stream.push c bytes d) ++ concat chunks.*2 =
    concat (WireFacts.encoded <$> f :: fs) ++ []) as E1.
  { rewrite app_nil_r, Hp1, <-app_assoc. exact E. }
  destruct (WireFacts.next_frame_cases _ (f :: fs) _ [] Hd1 Hfs (or_introl eq_refl) E1)
    as (r & d2 & E2 & Hd2 & Hr). cbn [fmap list_fmap app read_frame fst snd]. rewrite E2.
  destruct r as [g|]; [by destruct Hr as (fs' & [= <- <-] & _)|]. destruct Hr as [Hp Hn2].
  apply IH; [done|done|by rewrite Hp|]. rewrite Hp. by rewrite app_nil_r in E1.
Qed.

Section daemon.
Context {T TD K : Type} `{!ByteStream T, !ByteStream TD, !SandboxObservationSink K}.

(** The gateway and the daemon agree on the handshake.  What the gateway writes
    when it connects, read by a daemon with room for it and cut in any way, makes the
    daemon register the gateway and write one welcome; and what the daemon wrote, read
    back by the gateway and again cut in any way, is accepted by the gateway as the
    gateway id the daemon assigned and the capability it asked for. *)
Theorem handshake_agrees (stream stream' : T) (daemon : Connection.Worker (T:=TD) (K:=K)) td
    requested down up :
  write_all (WireFacts.encoded (Upstream.gateway_hello requested)) stream = (Ok (), stream') →
  Connection.wk_welcomed daemon = false → ConnectionFacts.admits (Connection.wk_runtime daemon) →
  let gid := next_gateway_id (Connection.wk_runtime daemon) in
  let reply := WireFacts.encoded (ConnectionFacts.welcome_frame gid requested) in
  write_all reply (Connection.wk_stream daemon) = (Ok (), td) →
  concat up.*2 = WireFacts.encoded (Upstream.gateway_hello requested) →
  concat down.*2 = reply →
  (∃ d' daemon', Connection.run_inner (((λ c, ReadBytes c.1 c.2) <$> up) ++ [ReadEof])
       Stream.with_capacity daemon = (Some (Ok ()), d', daemon') ∧
     Connection.wk_connection daemon' = Some gid ∧ Connection.wk_stream daemon' = td) ∧
  connect_registered_with_capabilities
    (Ok (stream, (λ c, SbData c.1 c.2) <$> down)) requested =
    Some (Ok (stream', mkGatewayWelcome gid requested)).
Proof.
  intros Hs Hw Had gid reply Htd Hup Hdown. split.
  - destruct (ConnectionFacts.relay_run daemon requested [] up td)
      as (d' & daemon' & H1 & H2 & H3 & _); try done.
    { rewrite Hup. cbn. by rewrite app_nil_r. }
    by exists d', daemon'.
  - unfold connect_registered_with_capabilities, write_frame.
    rewrite (WireFacts.encoded_Ok (Upstream.gateway_hello requested))
      by (unfold WireFacts.frame_fits, WireFacts.fits; by destruct requested).
    rewrite Hs. cbn [map_err].
    assert (1 ≤ gid ≤ u32_max) as Hgid by (destruct Had; subst gid; lia).
    rewrite <-(app_nil_r (_ <$> down)), (read_frame_first (ConnectionFacts.welcome_frame gid requested) []).
    + unfold accept_welcome. rewrite bool_decide_true by done. cbn [negb].
      unfold ConnectionFacts.welcome_frame.
      rewrite UpstreamFacts.decode_welcome by (unfold in_u32; lia). munfold. cbn [map_err gw_workload_cgroup_observations].
      by destruct requested.
    + by unfold WireFacts.decoder_ok.
    + constructor; [|done]. unfold WireFacts.frame_fits, WireFacts.fits, ConnectionFacts.welcome_frame.
      cbn [f_payload]. rewrite length_app, length_u32_be. by destruct requested.
    + done.
    + rewrite Hdown. cbn. by rewrite app_nil_r.
Qed.
End daemon.

#[local] Instance w_stream : ByteStream (list byte) :=
  {| write_all := λ bs t, (Ok (), t ++ bs) |}.
#[local] Instance w_sink : SandboxObservationSink (list (Z * Z * ObservationBatch)) :=
  {| sink_deliver := λ gid sb b k, (Ok (), k ++ [(gid, sb, b)]) |}.
Definition w_daemon : Connection.Worker (T:=list byte) (K:=list (Z * Z * ObservationBatch)) :=
  Connection.mkWorker [] None (Ingest.init 4 0).1 [] 0 false.
Definition w_hello : list byte := WireFacts.encoded (Upstream.gateway_hello true).
Definition w_reply : list byte := WireFacts.encoded (ConnectionFacts.welcome_frame 1 true).

Lemma handshake_agrees_witness :
  connect_registered_with_capabilities (T:=list byte)
    (Ok ([], [SbData 0 (take 5 w_reply); SbData 3 (drop 5 w_reply)])) true =
    Some (Ok (w_hello, mkGatewayWelcome 1 true)).
Proof.
  refine (proj2 (handshake_agrees [] w_hello w_daemon w_reply true
    [(0%nat, take 5 w_reply); (3%nat, drop 5 w_reply)] [(0%nat, w_hello)] _ _ _ _ _ _)).
  - reflexivity.
  - reflexivity.
  - split; simpl; unfold u32_max, u64_max; lia || reflexivity.
  - reflexivity.
  - vm_compute. reflexivity.
  - vm_compute. reflexivity.
Defined.
End HandshakeFacts.
