(* ===== verification/SandboxAgent.v ===== *)
(** The agent inside the sandbox: crates/core/sandbox_agent_runtime and its control
    contract crates/contracts/sandbox_control.

    Four kinds of workers sample the guest and publish observations into a bounded queue;
    one session owner takes them, batches them and writes them to the gateway, connecting
    and reconnecting as commands of the control handle say.  They share the connection
    gate, the queue, the wake-up cell, the command and baseline channels and the stop flag.
    [Agent.step] is one atomic operation of one of these threads, what the environment
    answers being an argument; a run is any sequence of steps, so it is any interleaving
    (sequentially consistent).  [Proto] is the sequential protocol on one connection.
    The metrics counters and the status cell (SessionStatus.v) take no part in it. *)
From stdpp Require Import prelude gmap strings pretty.
From Stdlib Require Import ZArith Lia Ascii.
From coqutil Require Import Byte.
From S2P Require Import Prelude Bytes Wire Vsock SandboxObservation BatchCodec GatewayIngest GatewayConnection PolicyPath VsockGateway.

Open Scope Z_scope.

(** * The control contract *)

Definition VSOCK_ANY : Z := u32_max.
Inductive SandboxEndpointError := AnyHostCid | AnyPortNumber.
Record SandboxEndpoint := mkSbEndpoint { se_host_cid : Z; se_port : Z }.
#[export] Instance sandbox_endpoint_eq_dec : EqDecision SandboxEndpoint.
Proof. solve_decision. Defined.
Definition MAX_SANDBOX_CONTROL_REJECTION_REASON_BYTES : nat := 512.
Inductive SandboxControlRejectionCode := InvalidRequest | Busy | ConnectFailed | HandshakeFailed | ShuttingDown.
Record SandboxControlRejection := mkRejection { rj_code : SandboxControlRejectionCode; rj_message : string }.
Inductive SandboxControlRejectionError := EmptyReason | ReasonTooLong.
Record SandboxConnectResponse := mkConnectResponse {
  cr_endpoint : SandboxEndpoint;
  cr_sb_id : Z;
  cr_connection_generation : Z;
  cr_reused : bool;
}.
Inductive SandboxControlResponse :=
| ConnectResponse (r : SandboxConnectResponse)
| Rejected (r : SandboxControlRejection).

Module Control.
(** [SandboxEndpoint::new]. *)
Definition endpoint_new (host_cid port : Z) : result SandboxEndpointError SandboxEndpoint :=
  if host_cid =? VSOCK_ANY then Err AnyHostCid
  else if port =? VSOCK_ANY then Err AnyPortNumber
  else Ok (mkSbEndpoint host_cid port).
(** [SandboxControlRejection::new]. *)
Definition rejection_new (code : SandboxControlRejectionCode) (message : string)
    : result SandboxControlRejectionError SandboxControlRejection :=
  if bool_decide (message = "") then Err EmptyReason
  else if Nat.ltb MAX_SANDBOX_CONTROL_REJECTION_REASON_BYTES (String.length message) then Err ReasonTooLong
  else Ok (mkRejection code message).
(** [str::is_char_boundary]: the ends, and bytes that do not continue a character. *)
Definition continuation (a : ascii) : bool := bool_decide (128 ≤ Z.of_nat (nat_of_ascii a) < 192).
Definition is_char_boundary (s : string) (i : nat) : bool :=
  Nat.eqb i 0 || match String.get i s with
                 | Some a => negb (continuation a)
                 | None => Nat.eqb i (String.length s)
                 end.
(** The [while] loop of [rejected]. *)
Fixpoint boundary_before (s : string) (i : nat) : nat :=
  if is_char_boundary s i then i else match i with O => O | S i => boundary_before s i end.
(** [rejected] of control.rs; [None] is the panic of its [expect]. *)
Definition rejected (code : SandboxControlRejectionCode) (message : string) : option SandboxControlResponse :=
  let message :=
    if Nat.ltb MAX_SANDBOX_CONTROL_REJECTION_REASON_BYTES (String.length message)
    then String.substring 0 (boundary_before message MAX_SANDBOX_CONTROL_REJECTION_REASON_BYTES) message
    else message in
  match rejection_new code message with Ok r => Some (Rejected r) | Err _ => None end.
Definition control_timeout : option SandboxControlResponse :=
  rejected ConnectFailed "sandbox connection control timed out".
Definition shutting_down : option SandboxControlResponse :=
  rejected ShuttingDown "sandbox daemon is shutting down".
Definition busy : option SandboxControlResponse := rejected Busy "sandbox connection control is busy".
End Control.
#[global] Arguments Control.rejected : simpl never.
#[global] Arguments Control.control_timeout : simpl never.
#[global] Arguments Control.shutting_down : simpl never.
#[global] Arguments Control.busy : simpl never.

(** * config.rs *)

(** Durations in nanoseconds. *)
Record SandboxAgentConfig := mkAgentConfig {
  sac_io_poll_interval : Z;
  sac_resource_poll_interval : Z;
  sac_workload_poll_interval : Z;
  sac_pressure_poll_interval : Z;
  sac_max_silence_interval : Z;
  sac_reconnect_interval : Z;
  sac_control_request_timeout : Z;
  sac_observation_queue_capacity : Z;
  sac_batch_max_observations : Z;
  sac_worker_thread_stack_bytes : Z;
  sac_metrics_enabled : bool;
}.

Module AgentConfig.
Definition invalid (message : string) : IoError := mkIoError InvalidInput message.
Fixpoint check_positive (values : list (string * Z)) : result IoError () :=
  match values with
  | [] => Ok ()
  | (name, value) :: rest =>
      if value =? 0 then Err (invalid ("sandbox agent " +:+ name +:+ " must be positive")) else check_positive rest
  end.
(** [clock] tells whether [Instant::now] can be moved by a duration. *)
Definition validate (clock : Z → bool) (c : SandboxAgentConfig) : result IoError () :=
  _ ← check_positive
        [("io_poll_interval", sac_io_poll_interval c);
         ("resource_poll_interval", sac_resource_poll_interval c);
         ("workload_poll_interval", sac_workload_poll_interval c);
         ("pressure_poll_interval", sac_pressure_poll_interval c);
         ("max_silence_interval", sac_max_silence_interval c);
         ("reconnect_interval", sac_reconnect_interval c);
         ("control_request_timeout", sac_control_request_timeout c)];
  if (sac_observation_queue_capacity c =? 0) || (sac_batch_max_observations c =? 0)
     || (sac_worker_thread_stack_bytes c =? 0)
  then Err (invalid "sandbox agent capacities and thread stack must be positive")
  else if negb (clock (sac_control_request_timeout c))
  then Err (invalid "sandbox control request timeout exceeds the platform clock range")
  else
    maximum ← ok_or (invalid "batch size overflow")
      (size ← Codec.checked_mul_u64 (sac_batch_max_observations c) Codec.MAX_ENCODED_OBSERVATION_BYTES;
       size ← checked_add_u64 size Codec.OBSERVATION_BATCH_FIXED_BYTES;
       checked_add_u64 size (Z.of_nat HEADER_BYTES));
    if Vsock.MAX_FRAME_BYTES <? maximum
    then Err (invalid "configured observation batch can exceed the wire frame limit")
    else Ok ().
End AgentConfig.

(** * session/protocol.rs *)

Module Proto.
Section proto.
Context {T : Type} `{!ByteStream T}.

Definition invalid_data (e : WireError) : fault IoError := Failed (mkIoError InvalidData (we_message e)).
Definition bad_wire (e : fault WireError) : fault IoError :=
  match e with Panicked => Panicked | Failed e => invalid_data e end.

Definition write_frame (f : Frame SbFrameCode) : ST T (fault IoError) () := λ t,
  match FrameOps.encode f with
  | Err e => (Err (invalid_data e), t)
  | Ok bytes =>
      let '(r, t') := write_all bytes t in
      (map_err (λ text, Failed (mkIoError OtherKind text)) r, t')
  end.

(** [None]: the reads are used up while it is waiting. *)
Fixpoint read_frame (reads : list SbRead) (d : FrameDecoder) : option (result (fault IoError) (Frame SbFrameCode)) :=
  match reads with
  | [] => None
  | SbEof :: _ => Some (Err (Failed (mkIoError UnexpectedEof "gateway closed during SB handshake")))
  | SbTimeout :: _ => Some (Err (Failed (mkIoError WouldBlock "read timed out")))
  | SbError e :: _ => Some (Err (Failed e))
  | SbData capacity bytes :: rest =>
      match Stream.next_frame (Stream.push capacity bytes d) with
      | (Err e, _) => Some (Err (bad_wire e))
      | (Ok (Some f), _) => Some (Ok f)
      | (Ok None, d') => read_frame rest d'
      end
  end.

Definition handshake (reads : list SbRead) (t : T) : option (result (fault IoError) SbWelcome * T) :=
  match FrameOps.new SbHello [] with
  | Err e => Some (Err (invalid_data e), t)
  | Ok hello =>
      match write_frame hello t with
      | (Err e, t') => Some (Err e, t')
      | (Ok _, t') =>
          match read_frame reads Stream.with_capacity with
          | None => None
          | Some (Err e) => Some (Err e, t')
          | Some (Ok welcome) =>
              Some (if negb (bool_decide (f_code welcome = SbWelcomeCode))
                    then Err (Failed (mkIoError InvalidData "gateway did not return SbWelcome"))
                    else map_err invalid_data (Vsock.decode_sb_welcome welcome), t')
          end
      end
  end.

(** The observations are lent to the batch and given back. *)
Definition send_batch (sequence : Z) (observations : list SandboxObservation) : ST T (fault IoError) () := λ t,
  match Codec.encode (mkBatch sequence observations) with
  | Err e => (Err (invalid_data e), t)
  | Ok payload =>
      match FrameOps.new ObservationBatchCode payload with
      | Err e => (Err (invalid_data e), t)
      | Ok frame => write_frame frame t
      end
  end.

(** The [expect] of a frame without payload cannot fail. *)
Definition send_heartbeat : ST T (fault IoError) () := λ t,
  match FrameOps.new SbHeartbeat [] with
  | Err _ => (Err Panicked, t)
  | Ok frame => write_frame frame t
  end.
End proto.
End Proto.

(** * The shared state *)

(** delivery/mod.rs; generation 0 is no connection. *)
Record ConnectionGate := mkGate { gt_generation : Z; gt_workload_generation : Z }.
Record DeliveryEnvelope := mkEnvelope { de_generation : Z; de_observation : SandboxObservation }.
(** session/wake.rs, with the parking token of the owner's thread. *)
Record SessionWake := mkWake {
  sk_owner : bool;                       (* [owner] is set *)
  sk_pending_commands : Z;               (* usize *)
  sk_notified : bool;
  sk_token : bool;
}.
Inductive SessionCommand := Execute (request : nat) | Shutdown.

(** workers.rs: the four workers and where each stands in its loop. *)
Inductive WorkerKind := IoWorker | ResourceWorker | PressureWorker | WorkloadWorker.
Inductive Sample :=
| SampleIo (v : list SandboxObservation)
| SampleResource (v : GuestResourceSnapshot)
| SamplePressure (v : GuestPressureSnapshot)
| SampleWorkload (v : list WorkloadCgroupResourceSnapshot).
Inductive WorkerPc :=
| WTop                                                     (* [stop.load] *)
| WBaseline                                                (* [baseline_commands.try_recv] *)
| WCapture                                                 (* [capture_generation] *)
| WSample (g : option Z)                                   (* [source.poll] or [source.sample] *)
| WCurrent (g : Z) (obs : list SandboxObservation)         (* [generation_is_current] *)
| WEnter (g : Z) (obs : list SandboxObservation)           (* first check of [publish_iter] *)
| WCheck (g : Z) (obs : list SandboxObservation)           (* check before the head is sent *)
| WSend (g : Z) (o : SandboxObservation) (obs : list SandboxObservation)
| WNotify (g : Z) (obs : list SandboxObservation)          (* [notified.swap] *)
| WUnpark (g : Z) (obs : list SandboxObservation)          (* [owner.unpark] *)
| WDone.
Record Worker := mkWorker { wo_kind : WorkerKind; wo_pc : WorkerPc }.
Record WorkerEnv := mkWorkerEnv {
  wv_sampled : result IoError Sample;
  wv_baseline : result IoError ();
}.

(** control.rs: the callers of [execute] and of [shutdown]. *)
Inductive Completion := Pending | Cancelled | Committed.
#[export] Instance completion_eq_dec : EqDecision Completion.
Proof. solve_decision. Defined.
Inductive ClientKind := ConnectTo (e : SandboxEndpoint) | ShutDown.
Inductive ClientPc :=
| KStop | KGate0 | KGate1                                  (* [SandboxAgentDaemon::shutdown] *)
| KBegin                                                   (* [begin_command] *)
| KSend                                                    (* [sender.try_send] *)
| KUndo (r : option SandboxControlResponse)                (* [cancel_command] *)
| KNotify | KUnpark
| KWait                                                    (* [recv_timeout] *)
| KTimeout                                                 (* [compare_exchange] *)
| KAwait                                                   (* [recv] *)
| KDone (r : option SandboxControlResponse).
Record Client := mkClient {
  cl_kind : ClientKind;
  cl_pc : ClientPc;
  cl_completion : Completion;
  cl_response : option SandboxControlResponse;             (* the channel of the answer *)
}.

(** session/owner.rs. *)
Record ActiveSession {T : Type} := mkActive {
  as_endpoint : SandboxEndpoint;
  as_generation : Z;
  as_sb_id : Z;
  as_workload : bool;
  as_connection : T;
  as_next_sequence : Z;
}.
Arguments ActiveSession : clear implicits.
Arguments mkActive {T}.
Inductive EstablishError := ConnectError (e : IoError) | HandshakeError (e : IoError) | BaselineError (e : IoError) | Superseded.
(** Who wants a session, and what follows a [disconnect_all] or a [begin_reconnect]. *)
Inductive Purpose := ForRequest (request : nat) | ForReconnect.
Inductive After := ThenEstablish (request : nat) (e : SandboxEndpoint) | ThenReconnect (e : SandboxEndpoint) | ThenEnd.
(** Where [establish] asks whether the attempt is still current. *)
Inductive Stage {T : Type} :=
| Connected (connection : T) (reads : list SbRead)
| Greeted (connection : T) (welcome : SbWelcome)
| Based (connection : T) (welcome : SbWelcome).
Arguments Stage : clear implicits.
Inductive OwnerPc {T : Type} :=
| OStart                                                   (* [bind_current] *)
| OTop                                                     (* [stop.load] of the loop *)
| OPoll                                                    (* [commands.try_recv] *)
| OBlock                                                   (* [commands.recv] *)
| OReceived (c : SessionCommand)                           (* [command_received] *)
| OHandle (c : SessionCommand)                             (* [stop.load] of [execute] *)
| OExpiry (r : nat)                                        (* [cancelled_or_expired] *)
| OConnect (r : nat) (e : SandboxEndpoint)
| ODisable0 (k : After) | ODisable1 (k : After)            (* [gate.disable] *)
| ODrain (k : After)                                       (* [discard_all] *)
| OEstablish (w : Purpose) (e : SandboxEndpoint)           (* [transport.connect] *)
| OEnsure0 (w : Purpose) (e : SandboxEndpoint) (s : Stage T) (* [stop.load] *)
| OEnsure1 (w : Purpose) (e : SandboxEndpoint) (s : Stage T) (* [command_pending] *)
| OBaseline (w : Purpose) (e : SandboxEndpoint) (t : T) (welcome : SbWelcome)
| OBaselined (w : Purpose) (e : SandboxEndpoint) (t : T) (welcome : SbWelcome)
| OEmpty (w : Purpose) (e : SandboxEndpoint) (t : T) (welcome : SbWelcome)  (* [discard_all] *)
| OEstablished (w : Purpose) (a : ActiveSession T)         (* [stop.load] *)
| OPermit (r : nat) (a : ActiveSession T)                  (* [permit_commit] *)
| OPublish (w : Purpose) (a : ActiveSession T)             (* [stop.load] of [publish_active] *)
| OActivate (w : Purpose) (a : ActiveSession T)
| OActivated (w : Purpose) (a : ActiveSession T)
| OEnable0 (w : Purpose) (a : ActiveSession T) | OEnable1 (w : Purpose) (a : ActiveSession T)
| OEnabled (w : Purpose) (a : ActiveSession T)             (* second [stop.load] *)
| OUndo0 (w : Purpose) | OUndo1 (w : Purpose)              (* [gate.disable] after it *)
| OFail0 (e : SandboxEndpoint) | OFail1 (e : SandboxEndpoint) (* [gate.disable] of a failed reconnect *)
| ORespond (r : nat) (response : SandboxControlResponse)
| OCycle (a : ActiveSession T)                             (* [stop.load] of the connected cycle *)
| OFill (a : ActiveSession T)                              (* [delivery.try_recv] *)
| OFilled (a : ActiveSession T)                            (* [stop.load], then the write *)
| ODiscard                                                 (* [discard_all] of an early return *)
| ORecon (e : SandboxEndpoint)                             (* is the next attempt due? *)
| OWait (connected : bool)                                 (* [notified.swap] *)
| OPark (connected : bool)                                 (* [park_timeout] *)
| OPanicked
| OEnd.
Arguments OwnerPc : clear implicits.
Record SessionOwner {T : Type} := mkSessionOwner {
  ow_pc : OwnerPc T;
  ow_active : option (ActiveSession T);
  ow_reconnect : option SandboxEndpoint;
  ow_next_generation : Z;
  ow_pending : list SandboxObservation;
}.
Arguments SessionOwner : clear implicits.
Arguments mkSessionOwner {T}.
(** What the environment answers to the step of the owner. *)
Record OwnerEnv {T : Type} := mkOwnerEnv {
  oe_connect : result IoError (T * list SbRead);
  oe_expired : bool;                     (* the deadline of the request has passed *)
  oe_due : bool;                         (* the next attempt is due *)
  oe_silent : bool;                      (* [max_silence_interval] has passed *)
  oe_gone : bool;                        (* every sender of the channel is gone *)
  oe_timeout : bool;                     (* the park times out *)
}.
Arguments OwnerEnv : clear implicits.
Arguments mkOwnerEnv {T}.

(** The baseline channel and its answer, and the histories of the run: what was put in
    the queue, what was written, and the sessions established with their capability. *)
Record BaselineChannel := mkBaseline {
  bc_request : option (option Z);
  bc_reply : option (result IoError ());
}.
Record AgentState {T : Type} := mkAgent {
  ag_gate : ConnectionGate;
  ag_queue : list DeliveryEnvelope;
  ag_wake : SessionWake;
  ag_commands : list SessionCommand;
  ag_stop : bool;
  ag_baseline : BaselineChannel;
  ag_workers : gmap nat Worker;
  ag_clients : gmap nat Client;
  ag_owner : SessionOwner T;
  ag_accepted : list DeliveryEnvelope;
  ag_said : list (Z * option ObservationBatch);
  ag_sessions : gmap Z bool;
}.
Arguments AgentState : clear implicits.
Arguments mkAgent {T}.

Inductive AgentAction {T : Type} :=
| Own (env : OwnerEnv T)
| Work (i : nat) (env : WorkerEnv)
| Call (i : nat) (timed_out : bool).
Arguments AgentAction : clear implicits.

(** * The steps *)

Module Agent.
Section agent.
Context {T : Type} `{!ByteStream T} (config : SandboxAgentConfig).
Implicit Types (st : AgentState T) (a : ActiveSession T).

Definition set_gate (g : ConnectionGate) st : AgentState T :=
  mkAgent g (ag_queue st) (ag_wake st) (ag_commands st) (ag_stop st) (ag_baseline st) (ag_workers st)
    (ag_clients st) (ag_owner st) (ag_accepted st) (ag_said st) (ag_sessions st).
Definition set_queue (q : list DeliveryEnvelope) st : AgentState T :=
  mkAgent (ag_gate st) q (ag_wake st) (ag_commands st) (ag_stop st) (ag_baseline st) (ag_workers st)
    (ag_clients st) (ag_owner st) (ag_accepted st) (ag_said st) (ag_sessions st).
Definition set_wake (w : SessionWake) st : AgentState T :=
  mkAgent (ag_gate st) (ag_queue st) w (ag_commands st) (ag_stop st) (ag_baseline st) (ag_workers st)
    (ag_clients st) (ag_owner st) (ag_accepted st) (ag_said st) (ag_sessions st).
Definition set_commands (c : list SessionCommand) st : AgentState T :=
  mkAgent (ag_gate st) (ag_queue st) (ag_wake st) c (ag_stop st) (ag_baseline st) (ag_workers st)
    (ag_clients st) (ag_owner st) (ag_accepted st) (ag_said st) (ag_sessions st).
Definition set_stop st : AgentState T :=
  mkAgent (ag_gate st) (ag_queue st) (ag_wake st) (ag_commands st) true (ag_baseline st) (ag_workers st)
    (ag_clients st) (ag_owner st) (ag_accepted st) (ag_said st) (ag_sessions st).
Definition set_baseline (b : BaselineChannel) st : AgentState T :=
  mkAgent (ag_gate st) (ag_queue st) (ag_wake st) (ag_commands st) (ag_stop st) b (ag_workers st)
    (ag_clients st) (ag_owner st) (ag_accepted st) (ag_said st) (ag_sessions st).
Definition set_worker (i : nat) (w : Worker) st : AgentState T :=
  mkAgent (ag_gate st) (ag_queue st) (ag_wake st) (ag_commands st) (ag_stop st) (ag_baseline st)
    (<[i := w]> (ag_workers st)) (ag_clients st) (ag_owner st) (ag_accepted st) (ag_said st) (ag_sessions st).
Definition set_client (i : nat) (c : Client) st : AgentState T :=
  mkAgent (ag_gate st) (ag_queue st) (ag_wake st) (ag_commands st) (ag_stop st) (ag_baseline st)
    (ag_workers st) (<[i := c]> (ag_clients st)) (ag_owner st) (ag_accepted st) (ag_said st) (ag_sessions st).
Definition set_owner (o : SessionOwner T) st : AgentState T :=
  mkAgent (ag_gate st) (ag_queue st) (ag_wake st) (ag_commands st) (ag_stop st) (ag_baseline st)
    (ag_workers st) (ag_clients st) o (ag_accepted st) (ag_said st) (ag_sessions st).
(** [try_send] of an envelope that finds room. *)
Definition enqueue (e : DeliveryEnvelope) st : AgentState T :=
  mkAgent (ag_gate st) (ag_queue st ++ [e]) (ag_wake st) (ag_commands st) (ag_stop st) (ag_baseline st)
    (ag_workers st) (ag_clients st) (ag_owner st) (ag_accepted st ++ [e]) (ag_said st) (ag_sessions st).
(** A frame written on a connection. *)
Definition record_said (g : Z) (o : option ObservationBatch) st : AgentState T :=
  mkAgent (ag_gate st) (ag_queue st) (ag_wake st) (ag_commands st) (ag_stop st) (ag_baseline st)
    (ag_workers st) (ag_clients st) (ag_owner st) (ag_accepted st) (ag_said st ++ [(g, o)]) (ag_sessions st).
Definition record_session (g : Z) (workload : bool) st : AgentState T :=
  mkAgent (ag_gate st) (ag_queue st) (ag_wake st) (ag_commands st) (ag_stop st) (ag_baseline st)
    (ag_workers st) (ag_clients st) (ag_owner st) (ag_accepted st) (ag_said st)
    (<[g := workload]> (ag_sessions st)).

(** ** The gate and the wake-up cell *)

(** [ConnectionGeneration::new] of a loaded word. *)
Definition generation_of (v : Z) : option Z := if v =? 0 then None else Some v.
Definition generation st : option Z := generation_of (gt_generation (ag_gate st)).
Definition workload_generation st : option Z := generation_of (gt_workload_generation (ag_gate st)).
Definition store_generation (v : Z) st : AgentState T :=
  set_gate (mkGate v (gt_workload_generation (ag_gate st))) st.
Definition store_workload_generation (v : Z) st : AgentState T :=
  set_gate (mkGate (gt_generation (ag_gate st)) v) st.

Definition wrapping_usize (z : Z) : Z := z mod 2 ^ 64.
Definition bind_current st : AgentState T :=
  let w := ag_wake st in set_wake (mkWake true (sk_pending_commands w) (sk_notified w) (sk_token w)) st.
Definition begin_command st : AgentState T :=
  let w := ag_wake st in
  set_wake (mkWake (sk_owner w) (wrapping_usize (sk_pending_commands w + 1)) (sk_notified w) (sk_token w)) st.
(** [command_received] and [cancel_command]. *)
Definition end_command st : AgentState T :=
  let w := ag_wake st in
  set_wake (mkWake (sk_owner w) (wrapping_usize (sk_pending_commands w - 1)) (sk_notified w) (sk_token w)) st.
Definition command_pending st : bool := negb (sk_pending_commands (ag_wake st) =? 0).
Definition store_notified (b : bool) st : AgentState T :=
  let w := ag_wake st in set_wake (mkWake (sk_owner w) (sk_pending_commands w) b (sk_token w)) st.
Definition store_token (b : bool) st : AgentState T :=
  let w := ag_wake st in set_wake (mkWake (sk_owner w) (sk_pending_commands w) (sk_notified w) b) st.
(** [owner.get()] and [unpark]. *)
Definition unpark st : AgentState T := if sk_owner (ag_wake st) then store_token true st else st.

(** ** The workers *)

Definition observations_of (k : WorkerKind) (s : Sample) : option (list SandboxObservation) :=
  match k, s with
  | IoWorker, SampleIo v => Some v
  | ResourceWorker, SampleResource v => Some [GuestResource v]
  | PressureWorker, SamplePressure v => Some [GuestPressure v]
  | WorkloadWorker, SampleWorkload v => Some (WorkloadCgroup <$> v)
  | _, _ => None
  end.
(** The next observation of the loop, or its end. *)
Definition proceed (g : Z) (obs : list SandboxObservation) : WorkerPc :=
  match obs with [] => WTop | _ => WCheck g obs end.
(** The receiver of the queue lives as long as the owner's thread. *)
Definition owner_gone st : bool :=
  match ow_pc (ag_owner st) with OEnd | OPanicked => true | _ => false end.

Definition worker_step (i : nat) (env : WorkerEnv) (w : Worker) st : option (AgentState T) :=
  let k := wo_kind w in
  let goto pc st := set_worker i (mkWorker k pc) st in
  match wo_pc w with
  | WTop =>
      Some (goto (if ag_stop st then WDone else match k with IoWorker => WBaseline | _ => WCapture end) st)
  | WBaseline =>
      match bc_request (ag_baseline st) with
      | Some _ => Some (goto WTop (set_baseline (mkBaseline None (Some (wv_baseline env))) st))
      | None => Some (goto (if owner_gone st then WDone else WCapture) st)
      end
  | WCapture =>
      Some (goto (WSample (match k with WorkloadWorker => workload_generation st | _ => generation st end)) st)
  | WSample g =>
      match wv_sampled env with
      | Err _ => Some (goto WTop st)
      | Ok s =>
          obs ← observations_of k s;
          Some (goto (match g with
                      | Some g => match k with IoWorker => WCurrent g obs | _ => proceed g obs end
                      | None => WTop
                      end) st)
      end
  | WCurrent g obs => Some (goto (if bool_decide (generation st = Some g) then WEnter g obs else WTop) st)
  | WEnter g obs => Some (goto (if bool_decide (generation st = Some g) then proceed g obs else WTop) st)
  | WCheck g obs =>
      match obs with
      | [] => Some (goto WTop st)
      | o :: rest =>
          Some (goto (if bool_decide (generation st = Some g) then WSend g o rest
                      else match k with IoWorker => WTop | _ => proceed g rest end) st)
      end
  | WSend g o rest =>
      if owner_gone st || (sac_observation_queue_capacity config <=? Z.of_nat (length (ag_queue st)))
      then Some (goto (proceed g rest) st)
      else Some (goto (WNotify g rest) (enqueue (mkEnvelope g o) st))
  | WNotify g rest =>
      if sk_notified (ag_wake st) then Some (goto (proceed g rest) st)
      else Some (goto (WUnpark g rest) (store_notified true st))
  | WUnpark g rest => Some (goto (proceed g rest) (unpark st))
  | WDone => None
  end.

(** ** The control handle *)

Definition with_client_pc (c : Client) (pc : ClientPc) : Client :=
  mkClient (cl_kind c) pc (cl_completion c) (cl_response c).
Definition command_of (i : nat) (c : Client) : SessionCommand :=
  match cl_kind c with ConnectTo _ => Execute i | ShutDown => Shutdown end.

Definition client_step (i : nat) (timed_out : bool) (c : Client) st : option (AgentState T) :=
  let goto pc st := set_client i (with_client_pc c pc) st in
  match cl_pc c with
  | KStop => Some (goto KGate0 (set_stop st))
  | KGate0 => Some (goto KGate1 (store_generation 0 st))
  | KGate1 => Some (goto KBegin (store_workload_generation 0 st))
  | KBegin => Some (goto KSend (begin_command st))
  | KSend =>
      if owner_gone st then Some (goto (KUndo Control.shutting_down) st)
      else match ag_commands st with
           | [] => Some (goto KNotify (set_commands [command_of i c] st))
           | _ :: _ => Some (goto (KUndo Control.busy) st)
           end
  | KUndo r => Some (goto (KDone r) (end_command st))
  | KNotify =>
      let next := match cl_kind c with ConnectTo _ => KWait | ShutDown => KDone None end in
      if sk_notified (ag_wake st) then Some (goto next st) else Some (goto KUnpark (store_notified true st))
  | KUnpark =>
      Some (goto (match cl_kind c with ConnectTo _ => KWait | ShutDown => KDone None end) (unpark st))
  | KWait =>
      match cl_response c with
      | Some r => Some (goto (KDone (Some r)) st)
      | None =>
          if owner_gone st then Some (goto (KDone Control.shutting_down) st)
          else if timed_out then Some (goto KTimeout st) else None
      end
  | KTimeout =>
      if decide (cl_completion c = Pending)
      then Some (set_client i (mkClient (cl_kind c) (KDone Control.control_timeout) Cancelled (cl_response c)) st)
      else Some (goto KAwait st)
  | KAwait =>
      match cl_response c with
      | Some r => Some (goto (KDone (Some r)) st)
      | None => if owner_gone st then Some (goto (KDone Control.shutting_down) st) else None
      end
  | KDone _ => None
  end.

(** ** The session owner *)

Definition workers_done (k : WorkerKind → bool) st : bool :=
  forallb (λ w, negb (k (wo_kind w)) || match wo_pc w with WDone => true | _ => false end)
    (map_to_list (ag_workers st)).*2.
Definition is_io (k : WorkerKind) : bool := match k with IoWorker => true | _ => false end.

Definition goto (pc : OwnerPc T) st : AgentState T :=
  let o := ag_owner st in
  set_owner (mkSessionOwner pc (ow_active o) (ow_reconnect o) (ow_next_generation o) (ow_pending o)) st.
Definition set_active (s : option (ActiveSession T)) (r : option SandboxEndpoint) st : AgentState T :=
  let o := ag_owner st in
  set_owner (mkSessionOwner (ow_pc o) s r (ow_next_generation o) (ow_pending o)) st.
Definition set_pending (p : list SandboxObservation) st : AgentState T :=
  let o := ag_owner st in
  set_owner (mkSessionOwner (ow_pc o) (ow_active o) (ow_reconnect o) (ow_next_generation o) p) st.

(** [x.wrapping_add(1).max(1)], the next generation and the next sequence. *)
Definition advance (x : Z) : Z := Z.max (wrapping_add_u64 x 1) 1.

Definition is_workload (o : SandboxObservation) : bool := match o with WorkloadCgroup _ => true | _ => false end.
Definition admit_envelope a (e : DeliveryEnvelope) (pending : list SandboxObservation) : list SandboxObservation :=
  if (de_generation e =? as_generation a) && (as_workload a || negb (is_workload (de_observation e)))
  then pending ++ [de_observation e] else pending.

(** [rejection]. *)
Definition rejection (e : EstablishError) : option SandboxControlResponse :=
  match e with
  | ConnectError e => Control.rejected ConnectFailed ("cannot connect sandbox VSOCK endpoint: " +:+ io_message e)
  | HandshakeError e => Control.rejected HandshakeFailed ("sandbox VSOCK handshake failed: " +:+ io_message e)
  | BaselineError e => Control.rejected ConnectFailed ("cannot establish sandbox I/O baseline: " +:+ io_message e)
  | Superseded => Control.rejected Busy "sandbox connection attempt was superseded"
  end.
Definition respond (r : nat) (response : option SandboxControlResponse) st : AgentState T :=
  match response with Some response => goto (ORespond r response) st | None => goto OPanicked st end.
(** What [connect] and [run_reconnect_cycle] do when [establish] fails. *)
Definition establish_failed (w : Purpose) (e : SandboxEndpoint) (error : EstablishError) st : AgentState T :=
  match w with
  | ForRequest r => respond r (rejection error) st
  | ForReconnect => goto OTop (set_active (ow_active (ag_owner st)) (Some e) st)
  end.
(** What they do when [publish_active] returns [Ok(false)]. *)
Definition not_published (w : Purpose) st : AgentState T :=
  match w with ForRequest r => respond r Control.shutting_down st | ForReconnect => goto OTop st end.
(** ... and when it fails. *)
Definition publish_failed (w : Purpose) a (error : IoError) st : AgentState T :=
  match w with
  | ForRequest r => respond r (rejection (BaselineError error)) st
  | ForReconnect => goto (OFail0 (as_endpoint a)) st
  end.
Definition connected_response a (reused : bool) : SandboxControlResponse :=
  ConnectResponse (mkConnectResponse (as_endpoint a) (as_sb_id a) (as_generation a) reused).

(** [permit_commit]: the verdict and the request's cell. *)
Definition permit_commit (expired : bool) (c : Client) : bool * Client :=
  let to x := mkClient (cl_kind c) (cl_pc c) x (cl_response c) in
  match cl_completion c with
  | Pending => if expired then (false, to Cancelled) else (true, to Committed)
  | _ => (false, c)
  end.

(** [ensure_current_attempt] passed. *)
Definition ensured (w : Purpose) (e : SandboxEndpoint) (s : Stage T) st : option (AgentState T) :=
  match s with
  | Connected t reads =>
      match Proto.handshake reads t with
      | None => None
      | Some (Ok welcome, t') => Some (goto (OEnsure0 w e (Greeted t' welcome)) st)
      | Some (Err (Failed error), _) => Some (establish_failed w e (HandshakeError error) st)
      | Some (Err Panicked, _) => Some (goto OPanicked st)
      end
  | Greeted t welcome => Some (goto (OBaseline w e t welcome) st)
  | Based t welcome => Some (goto (OEmpty w e t welcome) st)
  end.

(** The request and the answer of [establish_io_baseline] and [activate_io_publication]. *)
Definition io_stopped : IoError := mkIoError BrokenPipe "I/O worker stopped".
Definition io_reply_lost (message : string) : IoError := mkIoError BrokenPipe message.
Definition baseline_send (g : option Z) (next : OwnerPc T) (fail : IoError → AgentState T → AgentState T) st
    : AgentState T :=
  if workers_done is_io st then fail io_stopped st
  else goto next (set_baseline (mkBaseline (Some g) None) st).
Definition baseline_recv (lost : string) (next : OwnerPc T) (fail : IoError → AgentState T → AgentState T) st
    : option (AgentState T) :=
  match bc_reply (ag_baseline st) with
  | Some r =>
      let st := set_baseline (mkBaseline (bc_request (ag_baseline st)) None) st in
      Some (match r with Ok _ => goto next st | Err e => fail e st end)
  | None => if workers_done is_io st then Some (fail (io_reply_lost lost) st) else None
  end.

(** The end of [establish]: a fresh generation and the session that has it. *)
Definition established (w : Purpose) (e : SandboxEndpoint) (t : T) (welcome : SbWelcome) st : AgentState T :=
  let o := ag_owner st in
  let g := advance (ow_next_generation o) in
  let a := mkActive e g (sw_sb_id welcome) (sw_workload_cgroup_observations welcome) t 1 in
  record_session g (sw_workload_cgroup_observations welcome)
    (set_owner (mkSessionOwner (OEstablished w a) (ow_active o) (ow_reconnect o) g (ow_pending o)) st).

(** After [discard_all]. *)
Definition drained (k : After) st : AgentState T :=
  match k with
  | ThenEstablish r e => goto (OEstablish (ForRequest r) e) st
  | ThenReconnect e => goto OTop (set_active None (Some e) st)
  | ThenEnd => goto OEnd st
  end.

(** The write of the connected cycle and what follows it. *)
Definition with_connection a (t : T) (sequence : Z) : ActiveSession T :=
  mkActive (as_endpoint a) (as_generation a) (as_sb_id a) (as_workload a) t sequence.
Definition after_write a (r : result (fault IoError) ()) (t : T) (o : option ObservationBatch) st : AgentState T :=
  match r with
  | Err Panicked => goto OPanicked st
  | Err (Failed _) => goto (ODisable0 (ThenReconnect (as_endpoint a))) (set_pending [] st)
  | Ok _ =>
      let sequence := match o with Some _ => advance (as_next_sequence a) | None => as_next_sequence a end in
      goto OTop (set_active (Some (with_connection a t sequence)) (ow_reconnect (ag_owner st))
        (set_pending [] (record_said (as_generation a) o st)))
  end.
Definition write_cycle (silent : bool) a st : AgentState T :=
  match ow_pending (ag_owner st) with
  | [] =>
      if silent then let '(r, t) := Proto.send_heartbeat (as_connection a) in after_write a r t None st
      else goto (OWait true) (set_active (Some a) (ow_reconnect (ag_owner st)) st)
  | pending =>
      let '(r, t) := Proto.send_batch (as_next_sequence a) pending (as_connection a) in
      after_write a r t (Some (mkBatch (as_next_sequence a) pending)) st
  end.

Definition disabled (k : After) st : AgentState T :=
  match k with
  | ThenReconnect _ => goto (ODrain k) st
  | _ => goto (ODrain k) (set_active None None (set_pending [] st))
  end.
(** One [try_recv] of [discard_all]. *)
Definition discard (next : AgentState T → AgentState T) st : AgentState T :=
  match ag_queue st with [] => next st | _ :: queue => set_queue queue st end.

Definition owner_step (env : OwnerEnv T) st : option (AgentState T) :=
  let o := ag_owner st in
  match ow_pc o with
  (* run *)
  | OStart => Some (goto OTop (bind_current st))
  | OTop => Some (goto (if ag_stop st then ODisable0 ThenEnd else OPoll) st)
  | OPoll =>
      match ag_commands st with
      | c :: rest => Some (goto (OReceived c) (set_commands rest st))
      | [] =>
          if oe_gone env then Some (goto (ODisable0 ThenEnd) st)
          else match ow_active o, ow_reconnect o with
               | Some a, r => Some (goto (OCycle a) (set_active None r st))
               | None, Some e => Some (goto (ORecon e) (set_active None None st))
               | None, None => Some (goto OBlock st)
               end
      end
  | OBlock =>
      match ag_commands st with
      | c :: rest => Some (goto (OReceived c) (set_commands rest st))
      | [] => if oe_gone env then Some (goto (ODisable0 ThenEnd) st) else None
      end
  (* handle_command, execute *)
  | OReceived c => Some (goto (OHandle c) (end_command st))
  | OHandle Shutdown => Some (goto (ODisable0 ThenEnd) st)
  | OHandle (Execute r) =>
      if ag_stop st then Some (respond r Control.shutting_down st) else Some (goto (OExpiry r) st)
  | OExpiry r =>
      c ← ag_clients st !! r;
      if bool_decide (cl_completion c = Cancelled) || oe_expired env
      then Some (respond r Control.control_timeout st)
      else match cl_kind c with ConnectTo e => Some (goto (OConnect r e) st) | ShutDown => None end
  (* connect *)
  | OConnect r e =>
      match ow_active o with
      | Some a =>
          if decide (as_endpoint a = e) then
            c ← ag_clients st !! r;
            let '(permitted, c') := permit_commit (oe_expired env) c in
            Some (respond r (if permitted : bool then Some (connected_response a true) else Control.control_timeout)
                    (set_client r c' st))
          else Some (goto (ODisable0 (ThenEstablish r e)) st)
      | None => Some (goto (ODisable0 (ThenEstablish r e)) st)
      end
  | ODisable0 k => Some (goto (ODisable1 k) (store_generation 0 st))
  | ODisable1 k => Some (disabled k (store_workload_generation 0 st))
  | ODrain k => Some (discard (drained k) st)
  (* establish *)
  | OEstablish w e =>
      match oe_connect env with
      | Err error => Some (establish_failed w e (ConnectError error) st)
      | Ok (t, reads) => Some (goto (OEnsure0 w e (Connected t reads)) st)
      end
  | OEnsure0 w e s =>
      Some (if ag_stop st then establish_failed w e Superseded st else goto (OEnsure1 w e s) st)
  | OEnsure1 w e s =>
      if command_pending st then Some (establish_failed w e Superseded st) else ensured w e s st
  | OBaseline w e t welcome =>
      Some (baseline_send None (OBaselined w e t welcome) (λ error, establish_failed w e (BaselineError error)) st)
  | OBaselined w e t welcome =>
      baseline_recv "I/O baseline reply lost" (OEnsure0 w e (Based t welcome))
        (λ error, establish_failed w e (BaselineError error)) st
  | OEmpty w e t welcome => Some (discard (established w e t welcome) st)
  (* connect and run_reconnect_cycle, after establish *)
  | OEstablished w a =>
      Some (if ag_stop st then not_published w st
            else goto (match w with ForRequest r => OPermit r a | ForReconnect => OPublish w a end) st)
  | OPermit r a =>
      c ← ag_clients st !! r;
      let '(permitted, c') := permit_commit (oe_expired env) c in
      Some (if permitted : bool then goto (OPublish (ForRequest r) a) (set_client r c' st)
            else respond r Control.control_timeout (set_client r c' st))
  (* publish_active *)
  | OPublish w a => Some (if ag_stop st then not_published w st else goto (OActivate w a) st)
  | OActivate w a =>
      Some (baseline_send (Some (as_generation a)) (OActivated w a) (λ error, publish_failed w a error) st)
  | OActivated w a =>
      baseline_recv "I/O publication reply lost" (OEnable0 w a) (λ error, publish_failed w a error) st
  | OEnable0 w a =>
      Some (goto (OEnable1 w a) (store_workload_generation (if as_workload a then as_generation a else 0) st))
  | OEnable1 w a => Some (goto (OEnabled w a) (store_generation (as_generation a) st))
  | OEnabled w a =>
      Some (if ag_stop st then goto (OUndo0 w) st
            else let st := set_active (Some a) None st in
                 match w with
                 | ForRequest r => respond r (Some (connected_response a false)) st
                 | ForReconnect => goto OTop st
                 end)
  | OUndo0 w => Some (goto (OUndo1 w) (store_generation 0 st))
  | OUndo1 w => Some (not_published w (store_workload_generation 0 st))
  | OFail0 e => Some (goto (OFail1 e) (store_generation 0 st))
  | OFail1 e => Some (goto OTop (set_active (ow_active o) (Some e) (store_workload_generation 0 st)))
  | ORespond r response =>
      c ← ag_clients st !! r;
      Some (goto OTop (set_client r (mkClient (cl_kind c) (cl_pc c) (cl_completion c) (Some response)) st))
  (* run_connected_cycle *)
  | OCycle a =>
      Some (if ag_stop st then goto ODiscard (set_pending [] st) else goto (OFill a) st)
  | OFill a =>
      if sac_batch_max_observations config <=? Z.of_nat (length (ow_pending o)) then Some (goto (OFilled a) st)
      else match ag_queue st with
           | e :: queue => Some (goto (OFill a) (set_pending (admit_envelope a e (ow_pending o)) (set_queue queue st)))
           | [] => Some (if workers_done (λ _, true) st then goto OTop (set_stop st) else goto (OFilled a) st)
           end
  | OFilled a =>
      Some (if ag_stop st then goto ODiscard (set_pending [] st) else write_cycle (oe_silent env) a st)
  | ODiscard => Some (discard (goto OTop) st)
  (* run_reconnect_cycle *)
  | ORecon e =>
      Some (if oe_due env then goto (OEstablish ForReconnect e) st
            else goto (OWait false) (set_active (ow_active o) (Some e) st))
  (* SessionWake::wait *)
  | OWait b => Some (goto (if sk_notified (ag_wake st) then OTop else OPark b) (store_notified false st))
  | OPark b =>
      if sk_token (ag_wake st) || oe_timeout env then Some (goto OTop (store_token false st)) else None
  | OPanicked | OEnd => None
  end.

Definition step (action : AgentAction T) st : option (AgentState T) :=
  match action with
  | Own env => owner_step env st
  | Work i env => w ← ag_workers st !! i; worker_step i env w st
  | Call i timed_out => c ← ag_clients st !! i; client_step i timed_out c st
  end.
Fixpoint run (actions : list (AgentAction T)) st : option (AgentState T) :=
  match actions with
  | [] => Some st
  | action :: rest => st' ← step action st; run rest st'
  end.

(** [SandboxAgentDaemon::start] with its workers and the callers of its control handle. *)
Definition client_start (k : ClientKind) : Client :=
  mkClient k (match k with ConnectTo _ => KBegin | ShutDown => KStop end) Pending None.
Definition start (workers : gmap nat WorkerKind) (clients : gmap nat ClientKind) : AgentState T :=
  mkAgent (mkGate 0 0) [] (mkWake false 0 false false) [] false (mkBaseline None None)
    ((λ k, mkWorker k WTop) <$> workers) (client_start <$> clients)
    (mkSessionOwner OStart None None 0 []) [] [] ∅.
End agent.
#[global] Arguments rejection : simpl never.
#[global] Arguments permit_commit : simpl never.
End Agent.
