(* ===== verification/SandboxAgentFacts.v ===== *)
(** Theorems on the sandbox agent (SandboxAgent.v): what its batches carry, wake-ups,
    the agreement of callers and owner on a request, and the size of a batch. *)
From stdpp Require Import prelude gmap strings pretty.
From Stdlib Require Import ZArith Lia Ascii.
From coqutil Require Import Byte.
From S2P Require Import Prelude Bytes Wire Vsock SandboxObservation BatchCodec GatewayIngest GatewayConnection PolicyPath VsockGateway SandboxAgent.

Open Scope Z_scope.

Module AgentFacts.
Import Agent.
(** The cases of a step, with the new state in projected form. *)
Ltac unfold_steps H :=
  unfold discard, ensured, baseline_send, baseline_recv, establish_failed, not_published, publish_failed,
    drained, disabled, write_cycle, after_write, established, respond, bind_current, end_command, begin_command,
    unpark, store_generation, store_workload_generation, store_notified, store_token, record_said,
    record_session, enqueue, set_active, set_pending, goto, set_gate, set_queue, set_wake, set_commands,
    set_stop, set_baseline, set_worker, set_client, set_owner in H;
  cbn in H.
Ltac step_cases H :=
  repeat match type of H with
    | (_ ≫= _) = Some _ => let x := fresh "x" in apply bind_Some in H as (x & ? & H); cbn in H
    | context [match ?x with _ => _ end] => destruct x eqn:?; try discriminate H; cbn in H
    end;
  simplify_eq/=.

Section facts.
Context {T : Type} `{!ByteStream T} (config : SandboxAgentConfig).
Implicit Types (st : AgentState T) (a : ActiveSession T) (o : SessionOwner T).

(** ** Sessions and generations *)

(** The session the owner holds, in its field or in a local variable. *)
Definition held (pc : OwnerPc T) : option (ActiveSession T) :=
  match pc with
  | OEstablished _ a | OPermit _ a | OPublish _ a | OActivate _ a | OActivated _ a
  | OEnable0 _ a | OEnable1 _ a | OEnabled _ a | OCycle a | OFill a | OFilled a => Some a
  | _ => None
  end.
Definition live o : option (ActiveSession T) :=
  match ow_active o with Some a => Some a | None => held (ow_pc o) end.
(** The generation a worker has captured. *)
Definition captured (pc : WorkerPc) : option Z :=
  match pc with
  | WSample g => g
  | WCurrent g _ | WEnter g _ | WCheck g _ | WSend g _ _ | WNotify g _ | WUnpark g _ => Some g
  | _ => None
  end.
Definition capable (k : WorkerKind) (workload : bool) : Prop :=
  match k with WorkloadWorker => workload = true | _ => True end.

Record sessions_ok st : Prop := {
  so_next : 0 ≤ ow_next_generation (ag_owner st);
  so_dom g : is_Some (ag_sessions st !! g) → 1 ≤ g ≤ ow_next_generation (ag_owner st);
  so_gate : gt_generation (ag_gate st) ≠ 0 → is_Some (ag_sessions st !! gt_generation (ag_gate st));
  so_workload : gt_workload_generation (ag_gate st) ≠ 0 →
    ag_sessions st !! gt_workload_generation (ag_gate st) = Some true;
  so_workers i w g : ag_workers st !! i = Some w → captured (wo_pc w) = Some g →
    ∃ b, ag_sessions st !! g = Some b ∧ capable (wo_kind w) b;
  so_accepted e : e ∈ ag_accepted st → is_Some (ag_sessions st !! de_generation e);
  so_said p : p ∈ ag_said st → is_Some (ag_sessions st !! p.1);
  so_active a : ow_active (ag_owner st) = Some a → ag_sessions st !! as_generation a = Some (as_workload a);
  so_held a : held (ow_pc (ag_owner st)) = Some a → ag_sessions st !! as_generation a = Some (as_workload a);
}.

Lemma advance_small x : 0 ≤ x < u64_max → advance x = x + 1.
Proof. intros. unfold advance. rewrite wrapping_add_u64_small by lia. lia. Qed.

Lemma established_sessions w e t welcome st :
  sessions_ok st → ow_next_generation (ag_owner st) < u64_max → sessions_ok (established w e t welcome st).
Proof.
  intros [Hn Hd Hg Hw Hws Ha Hs Hac Hh] Hb. unfold established. rewrite advance_small by lia.
  assert (ag_sessions st !! (ow_next_generation (ag_owner st) + 1) = None) as Hf.
  { apply eq_None_not_Some. intros [_ ?]%Hd. lia. }
  set (g := ow_next_generation (ag_owner st) + 1) in *. set (b := sw_workload_cgroup_observations welcome).
  assert (∀ h x, ag_sessions st !! h = Some x → <[g:=b]> (ag_sessions st) !! h = Some x) as Hk.
  { intros h x E. destruct (decide (g = h)) as [<-|]; [congruence|]. by rewrite lookup_insert_ne. }
  assert (∀ h, is_Some (ag_sessions st !! h) → is_Some (<[g:=b]> (ag_sessions st) !! h)) as Hk'.
  { intros h [x E]. eauto. }
  split; cbn; eauto.
  - lia.
  - intros h [<-|[_ Hh']]%lookup_insert_is_Some; [lia|]. specialize (Hd _ Hh'). lia.
  - intros i x h Hi Hc. destruct (Hws _ _ _ Hi Hc) as (y & ? & ?). eauto.
  - intros a [= <-]. apply lookup_insert_eq.
Qed.

Lemma owner_sessions env st st' :
  sessions_ok st → ow_next_generation (ag_owner st) < u64_max →
  owner_step config env st = Some st' → sessions_ok st'.
Proof.
  intros Hok Hb H. pose proof (λ w e t x, established_sessions w e t x st Hok Hb) as Hest.
  revert Hok Hb Hest H.
  destruct st as [[gen wgen] queue wake commands stop base workers clients [pc act rec next pend] acc said sess].
  intros [Hn Hd Hg Hw Hws Ha Hs Hac Hh] Hb Hest H. cbn in Hn, Hd, Hg, Hw, Hws, Ha, Hs, Hac, Hh, Hb.
  unfold owner_step in H. cbn [ag_owner ow_pc] in H.
  assert (∀ g x p, is_Some (sess !! g) → p ∈ said ++ [(g, x)] → is_Some (sess !! p.1)) as Hsaid.
  { intros g x p Hin [?| ->%list_elem_of_singleton]%elem_of_app; eauto. }
  destruct pc; cbn in Hh;
    try (unfold discard in H; destruct queue; [injection H as <-; by apply Hest|]);
    unfold_steps H; step_cases H; (split; cbn; try done).
  all: try (intros; simplify_eq; eauto; fail).
  all: try specialize (Hh _ eq_refl).
  all: try (intros; simplify_eq; cbn; eauto; fail).
  - congruence.
Qed.

Lemma generation_of_Some v g : generation_of v = Some g → v = g ∧ v ≠ 0.
Proof. unfold generation_of. destruct (Z.eqb_spec v 0); [done|]. by intros [= ->]. Qed.
Lemma proceed_captured g obs h : captured (proceed g obs) = Some h → g = h.
Proof. destruct obs; cbn; congruence. Qed.

Lemma worker_sessions i env w st st' :
  sessions_ok st → ag_workers st !! i = Some w → worker_step config i env w st = Some st' → sessions_ok st'.
Proof.
  destruct st as [[gen wgen] queue wake commands stop base workers clients [pc act rec next pend] acc said sess].
  intros [Hn Hd Hg Hw Hws Ha Hs Hac Hh] Hi H. cbn in Hn, Hd, Hg, Hw, Hws, Ha, Hs, Hac, Hh, Hi.
  pose proof (λ g, Hws i w g Hi) as Hme.
  assert (∀ pc', (∀ g, captured pc' = Some g → ∃ b, sess !! g = Some b ∧ capable (wo_kind w) b) →
    ∀ j x g, <[i := mkWorker (wo_kind w) pc']> workers !! j = Some x → captured (wo_pc x) = Some g →
    ∃ b, sess !! g = Some b ∧ capable (wo_kind x) b) as Hset.
  { intros pc' Hpc j x g [[<- <-]|[_ Hj]]%lookup_insert_Some; [apply Hpc|by eapply Hws]. }
  unfold worker_step in H. destruct w as [k pc']. cbn [wo_kind wo_pc] in *.
  destruct pc'; cbn in Hme; unfold_steps H; step_cases H; (split; cbn; try done).
  all: try (apply Hset; intros h; cbn; intros; simplify_eq; eauto; fail).
  all: try (apply Hset; intros h ?%proceed_captured; subst; eauto; fail).
  all: try (apply Hset; unfold generation, workload_generation; cbn;
    intros h [<- Hne]%generation_of_Some; destruct (Hg Hne); cbn; by eauto).
  { apply Hset. unfold workload_generation. cbn. intros h [<- Hne]%generation_of_Some. by eauto. }
  destruct (Hme _ eq_refl) as (b & Hb & _).
  intros e [?| ->%list_elem_of_singleton]%elem_of_app; eauto.
Qed.

Lemma client_sessions i b c st st' :
  sessions_ok st → client_step i b c st = Some st' → sessions_ok st'.
Proof.
  destruct st as [[gen wgen] queue wake commands stop base workers clients [pc act rec next pend] acc said sess].
  intros [Hn Hd Hg Hw Hws Ha Hs Hac Hh] H. cbn in Hn, Hd, Hg, Hw, Hws, Ha, Hs, Hac, Hh.
  unfold client_step in H. destruct c as [k pc' comp resp].
  destruct pc'; cbn in H; unfold_steps H; step_cases H; (split; cbn; try done).
Qed.

(** Generations are only counted by [established], so a run of fewer than 2^64 - 1 steps
    does not wrap them. *)
Lemma step_next action st st' :
  ow_next_generation (ag_owner st) < u64_max → 0 ≤ ow_next_generation (ag_owner st) →
  step config action st = Some st' → ow_next_generation (ag_owner st') ≤ ow_next_generation (ag_owner st) + 1.
Proof.
  intros Hb Hn. pose proof (advance_small _ (conj Hn Hb)) as Ha.
  destruct st as [[gen wgen] queue wake commands stop base workers clients [pc act rec next pend] acc said sess].
  cbn in Ha, Hn, Hb. destruct action as [env|i env|i b]; cbn [step]; intros H.
  - unfold owner_step in H. cbn [ag_owner ow_pc] in H.
    destruct pc; unfold_steps H; step_cases H; cbn; lia.
  - apply bind_Some in H as ([k pc'] & _ & H). unfold worker_step in H.
    destruct pc'; unfold_steps H; step_cases H; cbn; lia.
  - apply bind_Some in H as ([k pc' comp resp] & _ & H). unfold client_step in H.
    destruct pc'; unfold_steps H; step_cases H; cbn; lia.
Qed.

Lemma start_sessions workers clients : sessions_ok (start workers clients).
Proof.
  split; cbn; try done; [by intros g [? ?%lookup_empty_Some]| |by intros ? ?%not_elem_of_nil|by intros ? ?%not_elem_of_nil].
  intros i w g. rewrite lookup_fmap. by destruct (workers !! i); intros [= <-].
Qed.

Lemma step_sessions action st st' :
  sessions_ok st → ow_next_generation (ag_owner st) < u64_max → step config action st = Some st' → sessions_ok st'.
Proof.
  intros Hok Hb. destruct action as [env|i env|i b]; cbn [step].
  - by apply owner_sessions.
  - intros (w & Hi & H)%bind_Some. by eapply worker_sessions.
  - intros (c & Hi & H)%bind_Some. by eapply client_sessions.
Qed.

(** ** What the sessions carry *)

(** An envelope the session of generation [g] may send. *)
Definition deliverable (g : Z) (workload : bool) (e : DeliveryEnvelope) : bool :=
  (de_generation e =? g) && (workload || negb (is_workload (de_observation e))).
(** The observations of a queue or a history that are meant for that session. *)
Definition published (g : Z) (workload : bool) (l : list DeliveryEnvelope) : list SandboxObservation :=
  omap (λ e, if deliverable g workload e then Some (de_observation e) else None) l.
(** The batches written on its connection, and their observations. *)
Definition batches (g : Z) (said : list (Z * option ObservationBatch)) : list ObservationBatch :=
  omap (λ p, if p.1 =? g then p.2 else None) said.
Definition sent (g : Z) (said : list (Z * option ObservationBatch)) : list SandboxObservation :=
  mjoin (ob_observations <$> batches g said).

(** Where the owner has no session in its field. *)
Definition detached (pc : OwnerPc T) : bool :=
  match pc with
  | OStart | OTop | OPoll | OBlock | OReceived _ | OHandle _ | OExpiry _ | OConnect _ _ | ORespond _ _
  | ODisable0 (ThenEstablish _ _ | ThenEnd) | ODisable1 (ThenEstablish _ _ | ThenEnd)
  | OWait _ | OPark _ | OPanicked | OEnd => false
  | _ => true
  end.
(** Where it may have left observations behind. *)
Definition leaving (stop : bool) (pc : OwnerPc T) : bool :=
  match pc with OTop | ODisable0 ThenEnd | ODisable1 ThenEnd => stop | OPanicked => true | _ => false end.

(** Where a session is established and not yet used. *)
Definition unpublished (pc : OwnerPc T) : bool :=
  match pc with
  | OEstablished _ _ | OPermit _ _ | OPublish _ _ | OActivate _ _ | OActivated _ _
  | OEnable0 _ _ | OEnable1 _ _ | OEnabled _ _ => true
  | _ => false
  end.

Definition numbered (l : list ObservationBatch) : Prop :=
  ∀ i b, l !! i = Some b → ob_sequence b = Z.of_nat i + 1 ∧
    1 ≤ Z.of_nat (length (ob_observations b)) ≤ sac_batch_max_observations config.

Record flow_ok st : Prop := {
  fo_detached : detached (ow_pc (ag_owner st)) = true → ow_active (ag_owner st) = None;
  fo_idle : live (ag_owner st) = None → ow_pending (ag_owner st) = [] ∨
    leaving (ag_stop st) (ow_pc (ag_owner st)) = true;
  fo_unpublished : unpublished (ow_pc (ag_owner st)) = true → ow_pending (ag_owner st) = [];
  fo_pending : Z.of_nat (length (ow_pending (ag_owner st))) ≤ sac_batch_max_observations config;
  fo_flow a : live (ag_owner st) = Some a →
    sent (as_generation a) (ag_said st) ++ ow_pending (ag_owner st)
      ++ published (as_generation a) (as_workload a) (ag_queue st) =
    published (as_generation a) (as_workload a) (ag_accepted st);
  fo_sequence a : live (ag_owner st) = Some a →
    as_next_sequence a = Z.of_nat (length (batches (as_generation a) (ag_said st))) + 1;
  fo_history g w : ag_sessions st !! g = Some w → sent g (ag_said st) `prefix_of` published g w (ag_accepted st);
  fo_batches g : numbered (batches g (ag_said st));
}.

Lemma published_app g w l k : published g w (l ++ k) = published g w l ++ published g w k.
Proof. apply omap_app. Qed.
Lemma batches_app g l k : batches g (l ++ k) = batches g l ++ batches g k.
Proof. apply omap_app. Qed.
Lemma sent_app g l k : sent g (l ++ k) = sent g l ++ sent g k.
Proof. unfold sent. by rewrite batches_app, fmap_app, join_app. Qed.
Lemma published_fresh g w l : (∀ e, e ∈ l → de_generation e ≠ g) → published g w l = [].
Proof.
  induction l as [|e l IH]; [done|]. intros H. cbn. unfold deliverable.
  rewrite (proj2 (Z.eqb_neq _ _)) by (apply H; by left). apply IH. intros x Hx. apply H. by right.
Qed.
Lemma batches_fresh g l : (∀ p, p ∈ l → p.1 ≠ g) → batches g l = [].
Proof.
  induction l as [|e l IH]; [done|]. intros H. cbn.
  rewrite (proj2 (Z.eqb_neq _ _)) by (apply H; by left). apply IH. intros x Hx. apply H. by right.
Qed.
Lemma admitted_published a e pending : admit_envelope a e pending = pending ++ published (as_generation a) (as_workload a) [e].
Proof. unfold admit_envelope, published, deliverable. cbn. destruct (_ && _); [done|]. by rewrite app_nil_r. Qed.
Lemma numbered_snoc l b :
  numbered l → ob_sequence b = Z.of_nat (length l) + 1 →
  1 ≤ Z.of_nat (length (ob_observations b)) ≤ sac_batch_max_observations config → numbered (l ++ [b]).
Proof.
  intros Hl Hs Hb i x [Hi|[Hi Hx]]%lookup_app_Some; [by apply Hl|].
  apply list_lookup_singleton_Some in Hx as [Hx <-]. assert (i = length l) as -> by lia. done.
Qed.
Lemma batches_beat g h said : batches g (said ++ [(h, None)]) = batches g said.
Proof. rewrite batches_app. cbn. destruct (h =? g); apply app_nil_r. Qed.
Lemma batches_batch g h said b :
  batches g (said ++ [(h, Some b)]) = batches g said ++ (if h =? g then [b] else []).
Proof. rewrite batches_app. cbn. by destruct (h =? g). Qed.
Lemma sent_beat g h said : sent g (said ++ [(h, None)]) = sent g said.
Proof. unfold sent. by rewrite batches_beat. Qed.
Lemma sent_batch g h said b :
  sent g (said ++ [(h, Some b)]) = sent g said ++ (if h =? g then ob_observations b else []).
Proof.
  unfold sent. rewrite batches_batch, fmap_app, join_app. f_equal. destruct (h =? g); [|done].
  cbn. apply app_nil_r.
Qed.
Lemma batches_length g said : (length (batches g said) ≤ length said)%nat.
Proof. induction said as [|p said IH]; [done|]. cbn. destruct (p.1 =? g), p.2; cbn; fold (batches g said); lia. Qed.
#[local] Arguments published : simpl never.
#[local] Arguments batches : simpl never.
#[local] Arguments sent : simpl never.
#[local] Arguments admit_envelope : simpl never.

Lemma established_flow w e t welcome st :
  sessions_ok st → flow_ok st → ow_next_generation (ag_owner st) < u64_max →
  ow_active (ag_owner st) = None → ow_pending (ag_owner st) = [] → ag_queue st = [] →
  0 < sac_batch_max_observations config → flow_ok (established w e t welcome st).
Proof.
  intros Hso [Hde Hid Hun Hpe Hfl Hse Hhi Hba] Hb Hact Hpend Hq Hmax. unfold established.
  rewrite advance_small by (destruct Hso; lia). set (g := ow_next_generation (ag_owner st) + 1).
  assert (¬ is_Some (ag_sessions st !! g)) as Hf by (intros [_ ?]%(so_dom _ Hso); lia).
  assert (batches g (ag_said st) = []) as Hbat.
  { apply batches_fresh. intros p Hp <-. by apply Hf, (so_said _ Hso). }
  assert (∀ x, published g x (ag_accepted st) = []) as Hpub.
  { intros x. apply published_fresh. intros p Hp <-. by apply Hf, (so_accepted _ Hso). }
  split; unfold live; cbn; rewrite ?Hact; try done.
  - intros a [= <-]. cbn. rewrite Hpub, Hpend, Hq. unfold sent. by rewrite Hbat.
  - intros a [= <-]. cbn. by rewrite Hbat.
  - intros h x [[<- <-]|[Hne Hx]]%lookup_insert_Some; [|by apply Hhi]. unfold sent. rewrite Hbat. by eexists.
Qed.

Lemma owner_flow env st st' :
  sessions_ok st → flow_ok st → 0 < sac_batch_max_observations config →
  ow_next_generation (ag_owner st) < u64_max → Z.of_nat (length (ag_said st)) < u64_max - 1 →
  owner_step config env st = Some st' → flow_ok st'.
Proof.
  intros Hso Hfo Hmax Hb Hl H. pose proof (λ w e t x Ha Hp Hq, established_flow w e t x st Hso Hfo Hb Ha Hp Hq Hmax) as Hest.
  pose proof (so_held _ Hso) as Hheld. revert Hfo Hb Hl Hest Hheld H. clear Hso.
  destruct st as [[gen wgen] queue wake commands stop base workers clients [pc act rec next pend] acc said sess].
  intros [Hde Hid Hun Hpe Hfl Hse Hhi Hba] Hb Hl Hest Hheld H. cbn in Hde, Hid, Hun, Hpe, Hfl, Hse, Hhi, Hba, Hb, Hl, Hheld.
  unfold live in *. cbn [ow_active ow_pc] in *.
  unfold owner_step in H. cbn [ag_owner ow_pc] in H.
  destruct pc; cbn in Hde, Hid, Hun; try (rewrite (Hde eq_refl) in *; cbn in Hid, Hfl, Hse);
    try (unfold discard in H; destruct queue; [injection H as <-; apply Hest; naive_solver|]).
  all: unfold_steps H; step_cases H; (split; unfold live; cbn; try done).
  all: try (eauto; fail).
  all: try lia.
  all: try (intros E; destruct (Hid E); simplify_eq; auto; fail).
  all: try (intros _; left; by apply Hun).
  all: specialize (Hfl _ eq_refl); specialize (Hse _ eq_refl); specialize (Hheld _ eq_refl).
  - rewrite admitted_published, length_app. apply Z.leb_gt in Heqb.
    unfold published. cbn. destruct (deliverable _ _ _); cbn; lia.
  - intros x [= <-]. by rewrite admitted_published, <-app_assoc, <-published_app.
  - intros x [= <-]. cbn. by rewrite sent_beat.
  - intros x [= <-]. cbn. by rewrite batches_beat.
  - intros g w Hg. rewrite sent_beat. auto.
  - intros g. rewrite batches_beat. auto.
  - intros x [= <-]. cbn. by rewrite sent_batch, Z.eqb_refl, <-app_assoc.
  - intros x [= <-]. cbn. rewrite batches_batch, Z.eqb_refl, length_app. cbn.
    pose proof (batches_length (as_generation a) said). rewrite advance_small; lia.
  - intros g w Hg. rewrite sent_batch. destruct (Z.eqb_spec (as_generation a) g) as [<-|]; [|by rewrite app_nil_r; auto].
    rewrite Hheld in Hg. injection Hg as <-. rewrite <-Hfl.
    eexists. by rewrite <-app_assoc.
  - intros g. rewrite batches_batch. destruct (Z.eqb_spec (as_generation a) g) as [<-|]; [|by rewrite app_nil_r].
    apply numbered_snoc; [done|done|]. cbn in *. lia.
Qed.

Lemma worker_flow i env w st st' :
  flow_ok st → worker_step config i env w st = Some st' → flow_ok st'.
Proof.
  destruct st as [[gen wgen] queue wake commands stop base workers clients [pc act rec next pend] acc said sess].
  intros [Hde Hid Hun Hpe Hfl Hse Hhi Hba] H. cbn in Hde, Hid, Hun, Hpe, Hfl, Hse, Hhi, Hba.
  unfold worker_step in H. destruct w as [k pc'].
  destruct pc'; unfold_steps H; step_cases H; (split; cbn; try done).
  - intros a Ha. by rewrite !published_app, <-(Hfl _ Ha), <-!app_assoc.
  - intros h x Hx. rewrite published_app. apply prefix_app_r. by apply Hhi.
Qed.

Lemma client_flow i b c st st' : flow_ok st → client_step i b c st = Some st' → flow_ok st'.
Proof.
  destruct st as [[gen wgen] queue wake commands stop base workers clients [pc act rec next pend] acc said sess].
  intros [Hde Hid Hun Hpe Hfl Hse Hhi Hba] H. cbn in Hde, Hid, Hun, Hpe, Hfl, Hse, Hhi, Hba.
  unfold client_step in H. destruct c as [k pc' comp resp].
  destruct pc'; cbn in H; unfold_steps H; step_cases H; (split; cbn; try done).
  intros E. destruct (Hid E) as [?|Hle]; [by left|right]. destruct pc; try done; by destruct k0.
Qed.

Lemma step_said action st st' :
  step config action st = Some st' → (length (ag_said st') ≤ S (length (ag_said st)))%nat.
Proof.
  destruct st as [[gen wgen] queue wake commands stop base workers clients [pc act rec next pend] acc said sess].
  destruct action as [env|i env|i b]; cbn [step]; intros H.
  - unfold owner_step in H. cbn [ag_owner ow_pc] in H.
    destruct pc; unfold_steps H; step_cases H; cbn; rewrite ?length_app; cbn; lia.
  - apply bind_Some in H as ([k pc'] & _ & H). unfold worker_step in H.
    destruct pc'; unfold_steps H; step_cases H; cbn; lia.
  - apply bind_Some in H as ([k pc' comp resp] & _ & H). unfold client_step in H.
    destruct pc'; unfold_steps H; step_cases H; cbn; lia.
Qed.

Lemma run_said actions st st' :
  run config actions st = Some st' → (length (ag_said st') ≤ length (ag_said st) + length actions)%nat.
Proof.
  revert st. induction actions as [|action actions IH]; intros st; cbn [run length]; [intros [= <-]; lia|].
  intros (st1 & H1%step_said & H2%IH)%bind_Some. lia.
Qed.

Lemma start_flow workers clients : 0 < sac_batch_max_observations config → flow_ok (start workers clients).
Proof. intros Hm. split; cbn; try done; [by left|lia]. Qed.

Lemma step_flow action st st' :
  sessions_ok st → flow_ok st → 0 < sac_batch_max_observations config →
  ow_next_generation (ag_owner st) < u64_max → Z.of_nat (length (ag_said st)) < u64_max - 1 →
  step config action st = Some st' → flow_ok st'.
Proof.
  intros Hso Hfo Hm Hb Hl. destruct action as [env|i env|i b]; cbn [step].
  - by apply owner_flow.
  - intros (w & Hi & H)%bind_Some. by eapply worker_flow.
  - intros (c & Hi & H)%bind_Some. by eapply client_flow.
Qed.

Lemma run_flow actions st st' n :
  0 < sac_batch_max_observations config → sessions_ok st → flow_ok st →
  ow_next_generation (ag_owner st) ≤ n → Z.of_nat (length (ag_said st)) ≤ n →
  n + Z.of_nat (length actions) < u64_max → run config actions st = Some st' → sessions_ok st' ∧ flow_ok st'.
Proof.
  intros Hm. revert st n. induction actions as [|action actions IH]; intros st n Hso Hfo Hb Hl Hn; cbn [run].
  { by intros [= <-]. }
  intros (st1 & H1 & H2)%bind_Some. cbn [length] in Hn.
  assert (ow_next_generation (ag_owner st) < u64_max) as Hb' by lia.
  assert (Z.of_nat (length (ag_said st)) < u64_max - 1) as Hl' by lia.
  pose proof (step_next _ _ _ Hb' (so_next _ Hso) H1). pose proof (step_said _ _ _ H1).
  apply (IH st1 (n + 1)); [by eapply step_sessions|by eapply step_flow|lia..|done].
Qed.

Lemma check_positive_Ok values : AgentConfig.check_positive values = Ok () → Forall (λ p, p.2 ≠ 0) values.
Proof.
  induction values as [|[name v] values IH]; [constructor|]. cbn. destruct (Z.eqb_spec v 0); [done|].
  intros H. constructor; [done|by apply IH].
Qed.
Lemma validate_Ok clock :
  AgentConfig.validate clock config = Ok () →
  sac_batch_max_observations config ≠ 0 ∧ sac_observation_queue_capacity config ≠ 0 ∧
  sac_batch_max_observations config * Codec.MAX_ENCODED_OBSERVATION_BYTES + Codec.OBSERVATION_BATCH_FIXED_BYTES
    + Z.of_nat HEADER_BYTES ≤ Vsock.MAX_FRAME_BYTES.
Proof.
  unfold AgentConfig.validate. destruct (AgentConfig.check_positive _); [|done]. cbn [mbind result_bind].
  destruct (Z.eqb_spec (sac_observation_queue_capacity config) 0); [done|].
  destruct (Z.eqb_spec (sac_batch_max_observations config) 0); [done|].
  destruct (_ || _); [done|]. destruct (negb _); [done|].
  unfold Codec.checked_mul_u64. case_decide; [|done]. cbn [mbind option_bind].
  destruct (checked_add_u64 _ Codec.OBSERVATION_BATCH_FIXED_BYTES) as [x|] eqn:E1; [|done].
  apply checked_add_u64_Some in E1 as [-> ?]. cbn [mbind option_bind].
  destruct (checked_add_u64 _ (Z.of_nat HEADER_BYTES)) as [y|] eqn:E2; [|done].
  apply checked_add_u64_Some in E2 as [-> ?]. cbn [ok_or mbind result_bind].
  destruct (Z.ltb_spec Vsock.MAX_FRAME_BYTES (sac_batch_max_observations config * Codec.MAX_ENCODED_OBSERVATION_BYTES
    + Codec.OBSERVATION_BATCH_FIXED_BYTES + Z.of_nat HEADER_BYTES)); [done|]. done.
Qed.
Lemma published_plain g l : Forall (λ x, is_workload x = false) (published g false l).
Proof.
  unfold published. apply Forall_forall. intros x (e & _ & He)%list_elem_of_omap.
  destruct (deliverable g false e) eqn:E; [|done]. injection He as <-. unfold deliverable in E.
  by destruct (is_workload (de_observation e)); [rewrite andb_false_r in E|].
Qed.

Lemma live_session st a :
  sessions_ok st → live (ag_owner st) = Some a → ag_sessions st !! as_generation a = Some (as_workload a).
Proof.
  intros Hso. unfold live. destruct (ow_active (ag_owner st)) as [x|] eqn:E.
  - intros [= <-]. by apply (so_active _ Hso).
  - apply (so_held _ Hso).
Qed.

(** C7: The agent's sessions carry what was published for them.  Let workers, callers
    and the session owner run in any interleaving, connections failing and being replaced
    at any point.  Everything written belongs to an established session; the observations
    written on a session's connection are, in order, a prefix of those accepted into the
    queue for its generation, in batches numbered from one, none empty or above the
    configured size, and without a workload observation unless the gateway's welcome
    allowed them.  As long as the session lives, nothing is lost: what was accepted is what
    was written, what the owner holds and what is queued.  A worker of workload samples
    only ever captures the generation of a session that allows them. *)
Theorem agent_delivers clock workers clients actions st :
  AgentConfig.validate clock config = Ok () → 0 ≤ sac_batch_max_observations config →
  run config actions (start workers clients) = Some st → Z.of_nat (length actions) < u64_max →
  (∀ g b, (g, b) ∈ ag_said st → is_Some (ag_sessions st !! g)) ∧
  (∀ i pc g, ag_workers st !! i = Some (mkWorker WorkloadWorker pc) → captured pc = Some g →
     ag_sessions st !! g = Some true) ∧
  ∀ g workload, ag_sessions st !! g = Some workload →
    sent g (ag_said st) `prefix_of` published g workload (ag_accepted st) ∧
    numbered (batches g (ag_said st)) ∧
    (workload = false → Forall (λ x, is_workload x = false) (sent g (ag_said st))) ∧
    ∀ a, live (ag_owner st) = Some a → as_generation a = g →
      sent g (ag_said st) ++ ow_pending (ag_owner st) ++ published g workload (ag_queue st) =
      published g workload (ag_accepted st).
Proof.
  intros (Hmax & _ & _)%validate_Ok Hpos Hrun Hlen.
  destruct (run_flow actions (start workers clients) st 0) as [Hso Hfo]; try done;
    [lia|apply start_sessions|apply start_flow; lia|].
  split; [intros g b Hin; by apply (so_said _ Hso) in Hin|]. split.
  - intros i pc g Hi Hc. destruct (so_workers _ Hso _ _ _ Hi Hc) as (b & Hb & ->). done.
  - intros g workload Hg. splits; [by apply (fo_history _ Hfo)|apply (fo_batches _ Hfo)| |].
    + intros ->. destruct (fo_history _ Hfo _ _ Hg) as [k Hk].
      pose proof (published_plain g (ag_accepted st)) as Hp. rewrite Hk in Hp. by apply Forall_app in Hp as [? _].
    + intros a Ha <-. pose proof (live_session _ _ Hso Ha) as Hw. rewrite Hg in Hw. injection Hw as ->.
      by apply (fo_flow _ Hfo).
Qed.
End facts.

(** ** A concrete agent *)

#[local] Instance w_conn : ByteStream (list byte) := {| write_all := λ bs t, (Ok (), t ++ bs) |}.
Definition w_agent : SandboxAgentConfig := mkAgentConfig 1 1 1 1 1 1 1 8 2 1 true.
Definition w_endpoint : SandboxEndpoint := mkSbEndpoint 2 1024.
Definition w_env : OwnerEnv (list byte) :=
  mkOwnerEnv (Ok ([], [SbData 0 (WireFacts.encoded (FrameOps.numeric_id SbWelcomeCode 7))])) false true false false false.
Definition w_sample (v : list SandboxObservation) : WorkerEnv := mkWorkerEnv (Ok (SampleIo v)) (Ok ()).
Definition w_own (n : nat) : list (AgentAction (list byte)) := replicate n (Own w_env).
Definition w_io (n : nat) (v : list SandboxObservation) : list (AgentAction (list byte)) := replicate n (Work 0 (w_sample v)).
(** A caller asks for a connection; the owner establishes it with two rounds of the I/O
    worker; then a sample of four observations is published and a batch of two written. *)
Definition w_connect : list (AgentAction (list byte)) :=
  replicate 4 (Call 0 false) ++ w_own 16 ++ w_io 2 [] ++ w_own 8 ++ w_io 2 [] ++ w_own 5.
Definition w_four : list SandboxObservation :=
  [OomVictim CodecFacts.w_oom; WorkloadCgroup CodecFacts.w_workload; OomVictim CodecFacts.w_oom; OomVictim CodecFacts.w_oom].
Definition w_actions : list (AgentAction (list byte)) := w_connect ++ w_io 19 w_four ++ w_own 8.
Definition w_state : AgentState (list byte) :=
  default (start ∅ ∅) (run w_agent w_actions (start {[0%nat := IoWorker]} {[0%nat := ConnectTo w_endpoint]})).

Lemma agent_delivers_witness :
  sent 1 (ag_said w_state) = [OomVictim CodecFacts.w_oom; OomVictim CodecFacts.w_oom] ∧
  length (ag_accepted w_state) = 4%nat ∧
  sent 1 (ag_said w_state) ++ ow_pending (ag_owner w_state) ++ published 1 false (ag_queue w_state) =
    published 1 false (ag_accepted w_state) ∧
  Forall (λ x, is_workload x = false) (sent 1 (ag_said w_state)).
Proof.
  destruct (agent_delivers w_agent (λ _, true) {[0%nat := IoWorker]} {[0%nat := ConnectTo w_endpoint]} w_actions w_state)
    as (_ & _ & H); [vm_compute; reflexivity|vm_compute; discriminate|vm_compute; reflexivity|vm_compute; reflexivity|].
  destruct (H 1 false) as (_ & _ & Hw & Hl); [vm_compute; reflexivity|].
  split; [vm_compute; reflexivity|]. split; [vm_compute; reflexivity|]. split; [|apply Hw; reflexivity].
  destruct (live (ag_owner w_state)) as [a|] eqn:E; [|vm_compute in E; discriminate E].
  apply (Hl a eq_refl). vm_compute in E. injection E as <-. reflexivity.
Defined.
End AgentFacts.
