(* ===== verification/SandboxAgentControl.v ===== *)
(** More theorems on the sandbox agent (SandboxAgent.v): the owner is woken for what it
    waits for, and callers and owner agree on the fate of a request. *)
From stdpp Require Import prelude gmap strings pretty.
From Stdlib Require Import ZArith Lia Ascii.
From coqutil Require Import Byte.
From S2P Require Import Prelude Bytes Wire Vsock SandboxObservation BatchCodec GatewayIngest GatewayConnection PolicyPath VsockGateway SandboxAgent SandboxAgentFacts.

Open Scope Z_scope.

Module AgentWakeFacts.
Import Agent AgentFacts.
Section wake.
Context {T : Type} `{!ByteStream T} (config : SandboxAgentConfig).
Implicit Types (st : AgentState T) (ws : gmap nat Worker) (cs : gmap nat Client).

(** ** Threads at a stage of [notify] *)

Definition at_stage (P : WorkerPc → bool) (Q : ClientPc → bool) ws cs : Prop :=
  (∃ i w, ws !! i = Some w ∧ P (wo_pc w) = true) ∨ (∃ i c, cs !! i = Some c ∧ Q (cl_pc c) = true).
Definition w_notify (pc : WorkerPc) : bool := match pc with WNotify _ _ => true | _ => false end.
Definition k_notify (pc : ClientPc) : bool := match pc with KNotify => true | _ => false end.
Definition w_unpark (pc : WorkerPc) : bool := match pc with WUnpark _ _ => true | _ => false end.
Definition k_unpark (pc : ClientPc) : bool := match pc with KUnpark => true | _ => false end.
Definition at_notify : gmap nat Worker → gmap nat Client → Prop := at_stage w_notify k_notify.
Definition at_unpark : gmap nat Worker → gmap nat Client → Prop := at_stage w_unpark k_unpark.

Lemma stage_worker P Q ws cs i w w' :
  ws !! i = Some w → P (wo_pc w) = false → at_stage P Q ws cs → at_stage P Q (<[i := w']> ws) cs.
Proof.
  intros Hi Hw [(j & x & Hj & Hx)|?]; [left|by right]. exists j, x. split; [|done].
  rewrite lookup_insert_ne; [done|]. intros ->. congruence.
Qed.
Lemma stage_worker_new P Q ws cs i w' : P (wo_pc w') = true → at_stage P Q (<[i := w']> ws) cs.
Proof. intros H. left. exists i, w'. by rewrite lookup_insert_eq. Qed.
Lemma stage_client P Q ws cs i c c' :
  cs !! i = Some c → Q (cl_pc c) = false → at_stage P Q ws cs → at_stage P Q ws (<[i := c']> cs).
Proof.
  intros Hi Hc [?|(j & x & Hj & Hx)]; [by left|right]. exists j, x. split; [|done].
  rewrite lookup_insert_ne; [done|]. intros ->. congruence.
Qed.
Lemma stage_client_new P Q ws cs i c' : Q (cl_pc c') = true → at_stage P Q ws (<[i := c']> cs).
Proof. intros H. right. exists i, c'. by rewrite lookup_insert_eq. Qed.

(** ** The invariant *)

(** Between seeing no command and swapping [notified]. *)
Definition watching (pc : OwnerPc T) : bool :=
  match pc with OCycle _ | OFill _ | OFilled _ | ORecon _ | OWait _ => true | _ => false end.
(** Between seeing an empty queue and swapping [notified]. *)
Definition starved (pc : OwnerPc T) (pending : list SandboxObservation) : bool :=
  match pc with OFilled _ => match pending with [] => true | _ => false end | OWait b => b | _ => false end.
Definition started (pc : OwnerPc T) : bool := match pc with OStart => false | _ => true end.

Record wake_ok st : Prop := {
  wk_bound : started (ow_pc (ag_owner st)) = true → sk_owner (ag_wake st) = true;
  wk_commands : watching (ow_pc (ag_owner st)) = true → ag_commands st ≠ [] →
    sk_notified (ag_wake st) = true ∨ at_notify (ag_workers st) (ag_clients st);
  wk_queue : starved (ow_pc (ag_owner st)) (ow_pending (ag_owner st)) = true → ag_queue st ≠ [] →
    sk_notified (ag_wake st) = true ∨ at_notify (ag_workers st) (ag_clients st);
  wk_parked b : ow_pc (ag_owner st) = OPark b → sk_notified (ag_wake st) = true →
    sk_token (ag_wake st) = true ∨ at_unpark (ag_workers st) (ag_clients st);
  wk_waiting b : ow_pc (ag_owner st) = OPark b → ag_commands st ≠ [] ∨ (b = true ∧ ag_queue st ≠ []) →
    sk_token (ag_wake st) = true ∨ at_notify (ag_workers st) (ag_clients st) ∨
      at_unpark (ag_workers st) (ag_clients st);
}.

Lemma owner_wake env st st' :
  wake_ok st → 0 < sac_batch_max_observations config → owner_step config env st = Some st' → wake_ok st'.
Proof.
  destruct st as [[gen wgen] queue [bound pcmd noti tok] commands stop base workers clients [pc act rec next pend] acc said sess].
  intros [Hbo Hco Hqu Hpa Hwa] Hmax H. cbn in Hbo, Hco, Hqu, Hpa, Hwa.
  unfold owner_step in H. cbn [ag_owner ow_pc] in H.
  destruct pc; cbn in Hbo, Hco, Hqu; unfold_steps H; step_cases H; (split; cbn; try done; eauto).
  - destruct pend; [|done]. apply Z.leb_le in Heqb. cbn in Heqb. lia.
  - intros b [= <-] [Hc|[-> Hq]]; right; left; [destruct (Hco eq_refl Hc)|destruct (Hqu eq_refl Hq)]; done.
Qed.

(** What a step of a worker or a caller does to the wake-up. *)
Record wake_effect st st' : Prop := {
  we_owner : ag_owner st' = ag_owner st;
  we_bound : sk_owner (ag_wake st') = sk_owner (ag_wake st);
  we_notify : at_notify (ag_workers st) (ag_clients st) →
    at_notify (ag_workers st') (ag_clients st') ∨ sk_notified (ag_wake st') = true;
  we_unpark : at_unpark (ag_workers st) (ag_clients st) → sk_owner (ag_wake st) = true →
    at_unpark (ag_workers st') (ag_clients st') ∨ sk_token (ag_wake st') = true;
  we_token : sk_token (ag_wake st) = true → sk_token (ag_wake st') = true;
  we_notified : sk_notified (ag_wake st) = true → sk_notified (ag_wake st') = true;
  we_swap : sk_notified (ag_wake st') = true →
    sk_notified (ag_wake st) = true ∨ at_unpark (ag_workers st') (ag_clients st');
  we_queue : ag_queue st' ≠ [] → ag_queue st ≠ [] ∨ at_notify (ag_workers st') (ag_clients st');
  we_commands : ag_commands st' ≠ [] → ag_commands st ≠ [] ∨ at_notify (ag_workers st') (ag_clients st');
}.

Lemma effect_wake st st' : wake_ok st → wake_effect st st' → wake_ok st'.
Proof.
  intros [Hbo Hco Hqu Hpa Hwa] [Eo Eb En Eu Et Ef Es Eq Ec]. rewrite <-Eo in *. split.
  - intros Hs. rewrite Eb. by apply Hbo.
  - intros Hw [Hc|?]%Ec; [|by right]. destruct (Hco Hw Hc) as [?|?%En]; tauto.
  - intros Hw [Hc|?]%Eq; [|by right]. destruct (Hqu Hw Hc) as [?|?%En]; tauto.
  - intros b Hb [Hn|?]%Es; [|by right].
    assert (sk_owner (ag_wake st) = true) as Ho by (apply Hbo; by rewrite Hb).
    destruct (Hpa _ Hb Hn) as [?|Hu]; [left; by apply Et|]. destruct (Eu Hu Ho); tauto.
  - intros b Hb Hin. assert (sk_owner (ag_wake st) = true) as Ho by (apply Hbo; by rewrite Hb).
    assert (at_unpark (ag_workers st) (ag_clients st) → sk_token (ag_wake st') = true ∨
      at_notify (ag_workers st') (ag_clients st') ∨ at_unpark (ag_workers st') (ag_clients st')) as Hu.
    { intros Hu. destruct (Eu Hu Ho); tauto. }
    assert (at_notify (ag_workers st') (ag_clients st') ∨
      (ag_commands st ≠ [] ∨ (b = true ∧ ag_queue st ≠ []))) as [?|Hold]; [|by right; left|].
    { destruct Hin as [?%Ec|[-> ?%Eq]]; tauto. }
    destruct (Hwa _ Hb Hold) as [?|[Hn|?]]; [left; by apply Et| |by apply Hu].
    destruct (En Hn) as [?|Hnot]; [by right; left|].
    destruct (Es Hnot) as [Hold'|?]; [|by right; right].
    destruct (Hpa _ Hb Hold') as [?|?]; [left; by apply Et|by apply Hu].
Qed.

Lemma worker_effect i env w st st' :
  ag_workers st !! i = Some w → worker_step config i env w st = Some st' → wake_effect st st'.
Proof.
  destruct st as [[gen wgen] queue [bound pcmd noti tok] commands stop base workers clients [pc act rec next pend] acc said sess].
  intros Hi H. cbn in Hi. pose proof (λ P Q w', stage_worker P Q workers clients i w w' Hi) as Hst.
  unfold worker_step in H. destruct w as [k pc'].
  destruct pc'; cbn in Hst; unfold_steps H; step_cases H; (split; cbn; try done).
  all: try (intros; left; apply Hst; done).
  all: try (intros; right; apply stage_worker_new; done).
  all: try (by left). all: try (by right).
Qed.

Lemma client_effect i b c st st' :
  ag_clients st !! i = Some c → client_step i b c st = Some st' → wake_effect st st'.
Proof.
  destruct st as [[gen wgen] queue [bound pcmd noti tok] commands stop base workers clients [pc act rec next pend] acc said sess].
  intros Hi H. cbn in Hi. pose proof (λ P Q c', stage_client P Q workers clients i c c' Hi) as Hst.
  unfold client_step in H. destruct c as [k pc' comp resp].
  destruct pc'; cbn in Hst; unfold_steps H; step_cases H; (split; cbn; try done).
  all: try (intros; left; apply Hst; done).
  all: try (intros; right; apply stage_client_new; done).
  all: try (by left). all: try (by right).
Qed.

Lemma run_wake actions st st' :
  0 < sac_batch_max_observations config → wake_ok st → run config actions st = Some st' → wake_ok st'.
Proof.
  intros Hm. revert st. induction actions as [|action actions IH]; intros st Hok; cbn [run]; [by intros [= <-]|].
  intros (st1 & H1 & H2)%bind_Some. apply (IH st1); [|done].
  destruct action as [env|i env|i b]; cbn [step] in H1.
  - by eapply owner_wake.
  - apply bind_Some in H1 as (w & Hi & H1). eapply effect_wake; [done|by eapply worker_effect].
  - apply bind_Some in H1 as (c & Hi & H1). eapply effect_wake; [done|by eapply client_effect].
Qed.
Lemma start_wake workers clients : wake_ok (start (T:=T) workers clients).
Proof. by split. Qed.

(** A thread at [unpark] gives the token with its next step. *)
Lemma unpark_gives st :
  sk_owner (ag_wake st) = true → at_unpark (ag_workers st) (ag_clients st) →
  ∃ action st', step config action st = Some st' ∧ sk_token (ag_wake st') = true ∧ ag_owner st' = ag_owner st.
Proof.
  intros Hb [(i & [k pc] & Hi & Hp)|(i & [k pc comp resp] & Hi & Hp)]; destruct pc; try done.
  - exists (Work i (mkWorkerEnv (Err (mkIoError OtherKind "")) (Ok ()))). eexists. split.
    + cbn [step]. rewrite Hi. cbn. reflexivity.
    + cbn. unfold unpark. by rewrite Hb.
  - exists (Call i false). eexists. split.
    + cbn [step]. rewrite Hi. cbn. reflexivity.
    + cbn. unfold unpark. by rewrite Hb.
Qed.
(** A thread at [notify] that finds the flag clear gives it with two. *)
Lemma notify_gives st :
  sk_owner (ag_wake st) = true → sk_notified (ag_wake st) = false → at_notify (ag_workers st) (ag_clients st) →
  ∃ action st1, step config action st = Some st1 ∧ ag_owner st1 = ag_owner st ∧ sk_owner (ag_wake st1) = true ∧
    at_unpark (ag_workers st1) (ag_clients st1).
Proof.
  intros Hb Hn [(i & [k pc] & Hi & Hp)|(i & [k pc comp resp] & Hi & Hp)]; destruct pc; try done.
  - exists (Work i (mkWorkerEnv (Err (mkIoError OtherKind "")) (Ok ()))). eexists. split.
    + cbn [step]. rewrite Hi. cbn. rewrite Hn. reflexivity.
    + cbn. splits; [done|done|]. by apply stage_worker_new.
  - exists (Call i false). eexists. split.
    + cbn [step]. rewrite Hi. cbn. rewrite Hn. reflexivity.
    + cbn. splits; [done|done|]. by apply stage_client_new.
Qed.

(** C8: No wake-up is lost.  When the owner is parked while a command waits in its channel,
    or an observation in the queue during a session, then it can run now, or one or two
    steps of other threads, which need nothing from it, hand it the token that ends the
    park.  It never depends on the timeout of the park to see its work. *)
Theorem wakeups_reach_owner clock workers clients actions st connected :
  AgentConfig.validate clock config = Ok () → 0 ≤ sac_batch_max_observations config →
  run config actions (start workers clients) = Some st →
  ow_pc (ag_owner st) = OPark connected → ag_commands st ≠ [] ∨ (connected = true ∧ ag_queue st ≠ []) →
  ∃ more st', (length more ≤ 2)%nat ∧ run config more st = Some st' ∧
    ag_owner st' = ag_owner st ∧ sk_token (ag_wake st') = true.
Proof.
  intros (Hmax & _ & _)%validate_Ok Hpos Hrun Hpc Hin.
  assert (wake_ok st) as Hok by (eapply run_wake; [lia|apply start_wake|done]).
  assert (sk_owner (ag_wake st) = true) as Hb by (apply (wk_bound _ Hok); by rewrite Hpc).
  assert (at_unpark (ag_workers st) (ag_clients st) → ∃ more st', (length more ≤ 2)%nat ∧
    run config more st = Some st' ∧ ag_owner st' = ag_owner st ∧ sk_token (ag_wake st') = true) as Hu.
  { intros (x & st' & H1 & H2 & H3)%(unpark_gives st Hb). exists [x], st'. cbn. rewrite H1. auto. }
  destruct (wk_waiting _ Hok _ Hpc Hin) as [?|[Hn|?]]; [exists [], st; cbn; auto| |by apply Hu].
  destruct (sk_notified (ag_wake st)) eqn:En.
  - destruct (wk_parked _ Hok _ Hpc En) as [?|?]; [exists [], st; cbn; auto|by apply Hu].
  - destruct (notify_gives st Hb En Hn) as (x & st1 & H1 & H2 & H3 & H4).
    destruct (unpark_gives st1 H3 H4) as (y & st2 & H5 & H6 & H7). exists [x; y], st2. cbn. rewrite H1. cbn.
    rewrite H5. cbn. splits; [lia|done|congruence|done].
Qed.
End wake.

(** The agent of SandboxAgentFacts.v, parked in its session, while a sample is published. *)
#[local] Existing Instance w_conn.
Definition w_parked_actions : list (AgentAction (list byte)) := w_connect ++ w_own 12 ++ w_io 8 w_four.
Definition w_parked : AgentState (list byte) :=
  default (start ∅ ∅) (run w_agent w_parked_actions (start {[0%nat := IoWorker]} {[0%nat := ConnectTo w_endpoint]})).

Lemma wakeups_reach_owner_witness :
  sk_token (ag_wake w_parked) = false ∧ length (ag_queue w_parked) = 1%nat ∧
  ∃ more st', (length more ≤ 2)%nat ∧ run w_agent more w_parked = Some st' ∧ sk_token (ag_wake st') = true.
Proof.
  split; [vm_compute; reflexivity|]. split; [vm_compute; reflexivity|].
  destruct (wakeups_reach_owner w_agent (λ _, true) {[0%nat := IoWorker]} {[0%nat := ConnectTo w_endpoint]}
    w_parked_actions w_parked true) as (more & st' & H1 & H2 & _ & H3);
    [vm_compute; reflexivity|vm_compute; discriminate|vm_compute; reflexivity|vm_compute; reflexivity| |].
  - right. split; [reflexivity|]. vm_compute. discriminate.
  - exists more, st'. split; [exact H1|]. split; [exact H2|exact H3].
Defined.
End AgentWakeFacts.

Module AgentControlFacts.
Import Agent AgentFacts.
Section control.
Context {T : Type} `{!ByteStream T} (config : SandboxAgentConfig).
Implicit Types (st : AgentState T) (cs : gmap nat Client) (a : ActiveSession T).

(** ** Requests and what the owner does for them *)

(** The request the owner works for before it may commit, and after. *)
Definition wants (pc : OwnerPc T) : option (nat * SandboxEndpoint) :=
  match pc with
  | OConnect r e | ODisable0 (ThenEstablish r e) | ODisable1 (ThenEstablish r e) | ODrain (ThenEstablish r e)
  | OEstablish (ForRequest r) e | OEnsure0 (ForRequest r) e _ | OEnsure1 (ForRequest r) e _
  | OBaseline (ForRequest r) e _ _ | OBaselined (ForRequest r) e _ _ | OEmpty (ForRequest r) e _ _ => Some (r, e)
  | OEstablished (ForRequest r) a | OPermit r a => Some (r, as_endpoint a)
  | _ => None
  end.
Definition publishing (pc : OwnerPc T) : option (nat * ActiveSession T) :=
  match pc with
  | OPublish (ForRequest r) a | OActivate (ForRequest r) a | OActivated (ForRequest r) a
  | OEnable0 (ForRequest r) a | OEnable1 (ForRequest r) a | OEnabled (ForRequest r) a => Some (r, a)
  | _ => None
  end.
Definition answering (pc : OwnerPc T) : option (nat * SandboxConnectResponse) :=
  match pc with ORespond r (ConnectResponse x) => Some (r, x) | _ => None end.
Definition answered (c : Client) (x : SandboxConnectResponse) : Prop :=
  cl_response c = Some (ConnectResponse x) ∨ cl_pc c = KDone (Some (ConnectResponse x)) ∨
  cl_pc c = KUndo (Some (ConnectResponse x)).

Definition asked cs (r : nat) (e : SandboxEndpoint) : Prop := ∃ c, cs !! r = Some c ∧ cl_kind c = ConnectTo e.
Definition committed cs (r : nat) (e : SandboxEndpoint) : Prop :=
  ∃ c, cs !! r = Some c ∧ cl_kind c = ConnectTo e ∧ cl_completion c = Committed.

Record control_ok st : Prop := {
  co_wants r e : wants (ow_pc (ag_owner st)) = Some (r, e) → asked (ag_clients st) r e;
  co_publishing r a : publishing (ow_pc (ag_owner st)) = Some (r, a) → committed (ag_clients st) r (as_endpoint a);
  co_answering r x : answering (ow_pc (ag_owner st)) = Some (r, x) →
    committed (ag_clients st) r (cr_endpoint x) ∧ is_Some (ag_sessions st !! cr_connection_generation x);
  co_answered i c x : ag_clients st !! i = Some c → answered c x →
    cl_kind c = ConnectTo (cr_endpoint x) ∧ cl_completion c = Committed ∧
    is_Some (ag_sessions st !! cr_connection_generation x);
}.

(** Requests keep their endpoint, and a settled completion is final. *)
Definition settles cs cs' : Prop :=
  ∀ i c, cs !! i = Some c → ∃ c', cs' !! i = Some c' ∧ cl_kind c' = cl_kind c ∧
    (cl_completion c ≠ Pending → cl_completion c' = cl_completion c).
Lemma settles_refl cs : settles cs cs.
Proof. intros i c Hi. eauto. Qed.
Lemma settles_insert cs i c c' :
  cs !! i = Some c → cl_kind c' = cl_kind c → (cl_completion c ≠ Pending → cl_completion c' = cl_completion c) →
  settles cs (<[i := c']> cs).
Proof.
  intros Hi Hk Hc j x Hj. destruct (decide (i = j)) as [<-|]; [|rewrite lookup_insert_ne by done; eauto].
  rewrite lookup_insert_eq. simplify_eq. eauto.
Qed.
Lemma asked_settles cs cs' r e : settles cs cs' → asked cs r e → asked cs' r e.
Proof. intros Hs (c & Hc & Hk). destruct (Hs _ _ Hc) as (c' & ? & Hk' & _). exists c'. by rewrite Hk'. Qed.
Lemma committed_settles cs cs' r e : settles cs cs' → committed cs r e → committed cs' r e.
Proof.
  intros Hs (c & Hc & Hk & Hco). destruct (Hs _ _ Hc) as (c' & ? & Hk' & Hco'). exists c'.
  rewrite Hk', Hco' by (by rewrite Hco). done.
Qed.
Lemma permit_settles b c v c' :
  permit_commit b c = (v, c') → cl_kind c' = cl_kind c ∧ cl_pc c' = cl_pc c ∧ cl_response c' = cl_response c ∧
    (cl_completion c ≠ Pending → cl_completion c' = cl_completion c) ∧
    (v = true → cl_completion c' = Committed).
Proof. unfold permit_commit. destruct (cl_completion c) eqn:E, b; intros [= <- <-]; cbn; rewrite ?E; done. Qed.

Lemma owner_settles env st st' :
  owner_step config env st = Some st' → settles (ag_clients st) (ag_clients st').
Proof.
  destruct st as [[gen wgen] queue [bound pcmd noti tok] commands stop base workers clients [pc act rec next pend] acc said sess].
  intros H. unfold owner_step in H. cbn [ag_owner ow_pc] in H.
  destruct pc; unfold_steps H; step_cases H; cbn; try apply settles_refl.
  all: try (match goal with E : permit_commit _ _ = _ |- _ => apply permit_settles in E as (? & ? & ? & ? & ?) end).
  all: by eapply settles_insert.
Qed.

(** The last invariant, on its own, and what keeps it. *)
Definition answers_ok cs (sess : gmap Z bool) : Prop :=
  ∀ i c x, cs !! i = Some c → answered c x →
    cl_kind c = ConnectTo (cr_endpoint x) ∧ cl_completion c = Committed ∧ is_Some (sess !! cr_connection_generation x).
Lemma answers_insert cs sess r c c' :
  answers_ok cs sess → cs !! r = Some c → cl_kind c' = cl_kind c →
  (cl_completion c ≠ Pending → cl_completion c' = cl_completion c) → (∀ x, answered c' x → answered c x) →
  answers_ok (<[r := c']> cs) sess.
Proof.
  intros Hok Hr Hk Hc Ha i d x [[<- <-]|[_ Hi]]%lookup_insert_Some Hx; [|by eapply Hok].
  destruct (Hok _ _ _ Hr (Ha _ Hx)) as (H1 & H2 & H3). rewrite Hk, Hc by (by rewrite H2). done.
Qed.
Lemma permit_answers b cs sess r c v c' :
  permit_commit b c = (v, c') → answers_ok cs sess → cs !! r = Some c → answers_ok (<[r := c']> cs) sess.
Proof.
  intros (H1 & H2 & H3 & H4 & _)%permit_settles Hok Hr. eapply answers_insert; [done..|].
  intros x. unfold answered. by rewrite H2, H3.
Qed.
Lemma permit_commits b cs r c c' e :
  permit_commit b c = (true, c') → cs !! r = Some c → cl_kind c = ConnectTo e → committed (<[r := c']> cs) r e.
Proof.
  intros (H1 & _ & _ & _ & H5)%permit_settles Hr Hk. exists c'. rewrite lookup_insert_eq, H1. auto.
Qed.

Lemma rejected_shape code message s : Control.rejected code message = Some s → ∃ r, s = Rejected r.
Proof. unfold Control.rejected. case_match; [|done]. intros [= <-]. eauto. Qed.
Lemma rejection_shape e s : rejection e = Some s → ∃ r, s = Rejected r.
Proof. destruct e; apply rejected_shape. Qed.

Lemma owner_control env st st' :
  sessions_ok st → control_ok st → owner_step config env st = Some st' → control_ok st'.
Proof.
  intros Hso Hco H. pose proof (owner_settles _ _ _ H) as Hse.
  pose proof (λ r e, asked_settles _ _ r e Hse) as Has. pose proof (λ r e, committed_settles _ _ r e Hse) as Hcs.
  clear Hse. revert Hso Hco H Has Hcs.
  destruct st as [[gen wgen] queue [bound pcmd noti tok] commands stop base workers clients [pc act rec next pend] acc said sess].
  intros [_ _ _ _ _ _ _ Hac Hh] [Hwa Hpu Han Hcl] H Has Hcs. cbn in Hwa, Hpu, Han, Hcl, Hac, Hh, Has, Hcs.
  unfold owner_step in H. cbn [ag_owner ow_pc] in H.
  destruct pc; cbn in Hwa, Hpu, Han, Hh; unfold_steps H; step_cases H;
    try (match goal with
         | E : Control.shutting_down = Some _ |- _ => apply rejected_shape in E as [? ->]
         | E : Control.control_timeout = Some _ |- _ => apply rejected_shape in E as [? ->]
         | E : rejection _ = Some _ |- _ => apply rejection_shape in E as [? ->]
         end);
    (split; cbn; try done).
  all: try (eauto; fail).
  all: fold (answers_ok clients sess) in Hcl.
  - intros r0 e0 [= <- <-]. by eexists.
  - destruct b; [|by apply rejected_shape in Heqo0 as [? ->]]. injection Heqo0 as <-. intros r0 x0 [= <- <-].
    destruct (Hwa r _ eq_refl) as (c1 & Hc1 & Hk). simplify_eq. split; [by eapply permit_commits|].
    eexists. by apply Hac.
  - by eapply permit_answers.
  - by eapply permit_answers.
  - intros i c x Hi Hx. destruct (Hcl _ _ _ Hi Hx) as (? & ? & ?). splits; [done|done|].
    apply lookup_insert_is_Some'. by right.
  - intros r0 a0 [= <- <-]. destruct (Hwa r _ eq_refl) as (c1 & Hc1 & Hk). simplify_eq. by eapply permit_commits.
  - by eapply permit_answers.
  - by eapply permit_answers.
  - intros r x [= <- <-]. cbn. split; [by apply Hpu|]. eexists. by apply Hh.
  - intros i c x0 [[<- <-]|[_ Hi]]%lookup_insert_Some Hx; [|by eapply Hcl]. unfold answered in Hx. cbn in Hx. cbn.
    destruct Hx as [[= ->]|Hx]; [|eapply Hcl; [done|by right]].
    destruct (Han _ _ eq_refl) as ((c & Hc & Hk & Hm) & Hg). simplify_eq. done.
Qed.

Lemma client_settles i b c st st' :
  ag_clients st !! i = Some c → client_step i b c st = Some st' → settles (ag_clients st) (ag_clients st').
Proof.
  destruct st as [[gen wgen] queue [bound pcmd noti tok] commands stop base workers clients [pc act rec next pend] acc said sess].
  intros Hi H. unfold client_step in H. destruct c as [k pc' comp resp].
  destruct pc'; cbn in Hi; unfold_steps H; step_cases H; cbn; by eapply settles_insert.
Qed.
Lemma client_control i b c st st' :
  control_ok st → ag_clients st !! i = Some c → client_step i b c st = Some st' → control_ok st'.
Proof.
  intros Hco Hi H. pose proof (client_settles _ _ _ _ _ Hi H) as Hse.
  pose proof (λ r e, asked_settles _ _ r e Hse) as Has. pose proof (λ r e, committed_settles _ _ r e Hse) as Hcs.
  clear Hse. revert Hco Hi H Has Hcs.
  destruct st as [[gen wgen] queue [bound pcmd noti tok] commands stop base workers clients [pc act rec next pend] acc said sess].
  intros [Hwa Hpu Han Hcl] Hi H Has Hcs. cbn in Hwa, Hpu, Han, Hcl, Hi, Has, Hcs.
  unfold client_step in H. destruct c as [k pc' comp resp].
  destruct pc'; unfold_steps H; step_cases H; (split; cbn; [by auto|by auto|naive_solver|]).
  all: fold (answers_ok clients sess) in Hcl.
  all: eapply answers_insert; [done|done|done|done|unfold answered; cbn; intros x Hx].
  all: destruct Hx as [?|[Hx|Hx]]; simplify_eq; auto.
  all: by apply rejected_shape in Hx as [? ?].
Qed.

Lemma start_control workers clients : control_ok (start (T:=T) workers clients).
Proof.
  split; cbn; try done. intros i c x. rewrite lookup_fmap. destruct (clients !! i) as [[]|]; intros [= <-];
    by intros [?|[?|?]].
Qed.
Lemma worker_control i env w st st' : control_ok st → worker_step config i env w st = Some st' → control_ok st'.
Proof.
  destruct st as [[gen wgen] queue [bound pcmd noti tok] commands stop base workers clients [pc act rec next pend] acc said sess].
  intros [Hwa Hpu Han Hcl] H. unfold worker_step in H. destruct w as [k pc'].
  destruct pc'; unfold_steps H; step_cases H; by split.
Qed.

Lemma step_control action st st' :
  sessions_ok st → control_ok st → step config action st = Some st' →
  control_ok st' ∧ settles (ag_clients st) (ag_clients st').
Proof.
  intros Hso Hco. destruct action as [env|i env|i b]; cbn [step].
  - intros H. split; [by eapply owner_control|by eapply owner_settles].
  - intros (w & Hi & H)%bind_Some. split; [by eapply worker_control|].
    assert (ag_clients st' = ag_clients st) as ->; [|apply settles_refl].
    clear -H. destruct st. unfold worker_step in H. destruct w as [k pc'].
    destruct pc'; unfold_steps H; step_cases H; done.
  - intros (c & Hi & H)%bind_Some. split; [by eapply client_control|by eapply client_settles].
Qed.
Lemma settles_trans cs1 cs2 cs3 : settles cs1 cs2 → settles cs2 cs3 → settles cs1 cs3.
Proof.
  intros H1 H2 i c Hi. destruct (H1 _ _ Hi) as (c1 & Hc1 & Hk1 & Hs1). destruct (H2 _ _ Hc1) as (c2 & Hc2 & Hk2 & Hs2).
  exists c2. splits; [done|congruence|]. intros Hp. rewrite Hs2, Hs1; [done..|]. by rewrite Hs1.
Qed.
Lemma run_control actions st st' n :
  sessions_ok st → control_ok st → ow_next_generation (ag_owner st) ≤ n →
  n + Z.of_nat (length actions) < u64_max → run config actions st = Some st' →
  sessions_ok st' ∧ ow_next_generation (ag_owner st') ≤ n + Z.of_nat (length actions) ∧
  control_ok st' ∧ settles (ag_clients st) (ag_clients st').
Proof.
  revert st n. induction actions as [|action actions IH]; intros st n Hso Hco Hb Hn; cbn [run].
  { intros [= <-]. splits; [done|cbn; lia|done|apply settles_refl]. }
  intros (st1 & H1 & H2)%bind_Some. cbn [length] in Hn.
  assert (ow_next_generation (ag_owner st) < u64_max) as Hb' by lia.
  pose proof (step_next _ _ _ _ Hb' (so_next _ Hso) H1). destruct (step_control _ _ _ Hso Hco H1) as [Hco1 Hse].
  destruct (IH st1 (n + 1)) as (Hs & Hn2 & Hc2 & Hs2); [by eapply step_sessions|done|lia..|done|].
  splits; [done|cbn [length]; lia|done|by eapply settles_trans].
Qed.

(** C9: Callers and owner agree on a request.  A caller that is told of a connection asked
    for that endpoint, its request is committed and the generation it is told belongs to
    an established session.  The owner publishes a new session on behalf of a request only
    once the request is committed; and a request that its caller gave up, or whose
    deadline passed first, stays cancelled: whatever happens later, no session is published
    for it and its caller is never told of one. *)
Theorem control_agreement workers clients actions more st st' :
  run config actions (start workers clients) = Some st → run config more st = Some st' →
  Z.of_nat (length (actions ++ more)) < u64_max →
  (∀ i c x, ag_clients st !! i = Some c → cl_pc c = KDone (Some (ConnectResponse x)) →
     cl_kind c = ConnectTo (cr_endpoint x) ∧ cl_completion c = Committed ∧
     is_Some (ag_sessions st !! cr_connection_generation x)) ∧
  (∀ i a, publishing (ow_pc (ag_owner st)) = Some (i, a) →
     ∃ c, ag_clients st !! i = Some c ∧ cl_kind c = ConnectTo (as_endpoint a) ∧ cl_completion c = Committed) ∧
  (∀ i c, ag_clients st !! i = Some c → cl_completion c = Cancelled →
     ∃ c', ag_clients st' !! i = Some c' ∧ cl_completion c' = Cancelled ∧
       (∀ x, cl_pc c' ≠ KDone (Some (ConnectResponse x))) ∧
       ∀ a, publishing (ow_pc (ag_owner st')) ≠ Some (i, a)).
Proof.
  intros H1 H2 Hlen. rewrite length_app in Hlen.
  destruct (run_control actions (start workers clients) st 0) as (Hso & Hn & Hco & _);
    [apply start_sessions|apply start_control|done|lia|done|].
  destruct (run_control more st st' (Z.of_nat (length actions))) as (_ & _ & Hco' & Hse); [done|done|lia|lia|done|].
  splits.
  - intros i c x Hi Hc. eapply (co_answered _ Hco); [done|by right; left].
  - intros i a Hp. by apply (co_publishing _ Hco).
  - intros i c Hi Hc. destruct (Hse _ _ Hi) as (c' & Hc' & _ & Hcan). rewrite Hc in Hcan. specialize (Hcan ltac:(done)).
    exists c'. splits; [done|done| |].
    + intros x Hx. destruct (co_answered _ Hco' _ _ x Hc') as (_ & ? & _); [by right; left|congruence].
    + intros a (d & Hd & _ & Hcom)%(co_publishing _ Hco'). congruence.
Qed.
End control.

#[local] Existing Instance w_conn.
(** A second caller gives up before the owner takes its request. *)
Definition w_called_actions : list (AgentAction (list byte)) :=
  w_connect ++ [Call 0 false] ++ replicate 4 (Call 1 true) ++ [Call 1 true].
Definition w_called : AgentState (list byte) :=
  default (start ∅ ∅) (run w_agent w_called_actions (start {[0%nat := IoWorker]}
    {[0%nat := ConnectTo w_endpoint; 1%nat := ConnectTo (mkSbEndpoint 2 7)]})).
Definition w_later : AgentState (list byte) := default w_called (run w_agent (w_own 6) w_called).

Lemma control_agreement_witness :
  (∃ c x, ag_clients w_called !! 0%nat = Some c ∧ cl_pc c = KDone (Some (ConnectResponse x)) ∧
     cl_completion c = Committed ∧ is_Some (ag_sessions w_called !! cr_connection_generation x)) ∧
  (∃ c, ag_clients w_later !! 1%nat = Some c ∧ cl_completion c = Cancelled ∧
     ∀ a, publishing (ow_pc (ag_owner w_later)) ≠ Some (1%nat, a)).
Proof.
  destruct (control_agreement w_agent {[0%nat := IoWorker]}
    {[0%nat := ConnectTo w_endpoint; 1%nat := ConnectTo (mkSbEndpoint 2 7)]} w_called_actions (w_own 6) w_called w_later)
    as (H1 & _ & H3); [vm_compute; reflexivity|vm_compute; reflexivity|vm_compute; reflexivity|].
  split.
  - destruct (ag_clients w_called !! 0%nat) as [c|] eqn:E; [|vm_compute in E; discriminate E].
    assert (cl_pc c = KDone (Some (ConnectResponse (mkConnectResponse w_endpoint 7 1 false)))) as Hc.
    { vm_compute in E. injection E as <-. reflexivity. }
    destruct (H1 _ _ _ E Hc) as (_ & H5 & H6). eexists c, _. split; [reflexivity|]. split; [exact Hc|].
    split; [exact H5|exact H6].
  - destruct (ag_clients w_called !! 1%nat) as [c|] eqn:E; [|vm_compute in E; discriminate E].
    destruct (H3 _ _ E) as (c' & H4 & H5 & _ & H6); [vm_compute in E; injection E as <-; reflexivity|].
    exists c'. split; [exact H4|]. split; [exact H5|exact H6].
Defined.
End AgentControlFacts.
