(* ===== verification/SandboxAgentPanic.v ===== *)
(** The sandbox agent (SandboxAgent.v) does not panic: the reasons of its rejections, its
    protocol and the [expect]s of its owner's thread. *)
From stdpp Require Import prelude gmap strings pretty.
From Stdlib Require Import ZArith Lia Ascii.
From coqutil Require Import Byte.
From S2P Require Import Prelude Bytes Wire Vsock SandboxObservation BatchCodec GatewayIngest GatewayConnection PolicyPath VsockGateway SandboxAgent SandboxAgentFacts.

Open Scope Z_scope.

Module AgentPanicFacts.
Import Agent AgentFacts Control.

(** ** Reasons of rejections *)

Lemma boundary_le s i : (boundary_before s i ≤ i)%nat.
Proof. induction i as [|i IH]; cbn [boundary_before]; case_match; lia. Qed.
Lemma boundary_ge s i j : (j ≤ i)%nat → is_char_boundary s j = true → (j ≤ boundary_before s i)%nat.
Proof.
  intros Hj Hb. induction i as [|i IH]; cbn [boundary_before]; [by assert (j = 0)%nat as -> by lia; case_match; lia|]. destruct (is_char_boundary s (S i)) eqn:E; [lia|].
  assert (j ≠ S i) by congruence. lia.
Qed.
Lemma substring_length n s : (n ≤ String.length s)%nat → String.length (String.substring 0 n s) = n.
Proof. revert s. induction n as [|n IH]; intros [|a s] Hn; cbn in *; try lia. rewrite IH; lia. Qed.
(** A message that begins with a character of one byte and another after it is cut at a
    boundary that leaves something. *)
Lemma rejected_Some code a b m :
  continuation b = false →
  ∃ r, rejected code (String a (String b m)) = Some (Rejected r) ∧ rj_code r = code ∧
    (1 ≤ String.length (rj_message r) ≤ MAX_SANDBOX_CONTROL_REJECTION_REASON_BYTES)%nat.
Proof.
  intros Hb. unfold rejected, rejection_new. set (s := String a (String b m)).
  destruct (Nat.ltb_spec MAX_SANDBOX_CONTROL_REJECTION_REASON_BYTES (String.length s)) as [Hl|Hl].
  - set (n := boundary_before s MAX_SANDBOX_CONTROL_REJECTION_REASON_BYTES).
    assert (1 ≤ n ≤ MAX_SANDBOX_CONTROL_REJECTION_REASON_BYTES)%nat as Hn.
    { split; [|apply boundary_le]. apply boundary_ge; [unfold MAX_SANDBOX_CONTROL_REJECTION_REASON_BYTES; lia|].
      cbn. by rewrite Hb. }
    pose proof (substring_length n s ltac:(lia)) as Hs. rewrite bool_decide_false.
    + rewrite (proj2 (Nat.ltb_ge _ _)) by lia. eexists. splits; [done|done|cbn [rj_message]; lia..].
    + intros E. rewrite E in Hs. change (0 = n)%nat in Hs. lia.
  - rewrite bool_decide_false by done. rewrite (proj2 (Nat.ltb_ge _ _)) by lia.
    eexists. splits; [done|done|cbn; lia|done].
Qed.
Lemma shutting_down_Some : ∃ r, shutting_down = Some (Rejected r).
Proof. eexists. vm_compute. reflexivity. Qed.
Lemma control_timeout_Some : ∃ r, control_timeout = Some (Rejected r).
Proof. eexists. vm_compute. reflexivity. Qed.
Lemma rejection_Some e : ∃ r, rejection e = Some (Rejected r).
Proof.
  destruct e as [e|e|e|]; unfold rejection.
  1: destruct (rejected_Some ConnectFailed "c" "a" ("nnot connect sandbox VSOCK endpoint: " +:+ io_message e) eq_refl) as (r & H & _).
  2: destruct (rejected_Some HandshakeFailed "s" "a" ("ndbox VSOCK handshake failed: " +:+ io_message e) eq_refl) as (r & H & _).
  3: destruct (rejected_Some ConnectFailed "c" "a" ("nnot establish sandbox I/O baseline: " +:+ io_message e) eq_refl) as (r & H & _).
  1-3: exists r; exact H.
  eexists. vm_compute. reflexivity.
Qed.

(** ** The protocol *)

Section panic.
Context {T : Type} `{!ByteStream T} (config : SandboxAgentConfig).

Lemma next_frame_no_panic d : WireFacts.decoder_ok d → (Stream.next_frame (Code:=SbFrameCode) d).1 ≠ Err Panicked.
Proof.
  unfold WireFacts.decoder_ok, Stream.next_frame. intros Hd. rewrite bool_decide_false by lia.
  repeat (case_bool_decide || case_match || done).
Qed.
Lemma read_frame_no_panic reads d : WireFacts.decoder_ok d → Proto.read_frame reads d ≠ Some (Err Panicked).
Proof.
  revert d. induction reads as [|[c bytes| | |e] reads IH]; intros d Hd; cbn [Proto.read_frame]; [done| |done|done|done].
  destruct (WireFacts.push_refines c bytes d Hd) as [Hd1 _].
  pose proof (next_frame_no_panic _ Hd1) as Hp.
  destruct (Stream.next_frame _) as [[[f|]|[|e]] d2] eqn:E; cbn in *; try done.
  apply IH. by eapply SbConnectionFacts.next_frame_ok.
Qed.
Lemma write_frame_no_panic f (t : T) : (Proto.write_frame f t).1 ≠ Err Panicked.
Proof. unfold Proto.write_frame. destruct (FrameOps.encode f); [|done]. by destruct (write_all _ t) as [[]]. Qed.
Lemma handshake_no_panic reads (t t' : T) : Proto.handshake reads t ≠ Some (Err Panicked, t').
Proof.
  unfold Proto.handshake. destruct (FrameOps.new SbHello []) as [hello|]; [|done].
  pose proof (write_frame_no_panic hello t) as Hw. destruct (Proto.write_frame hello t) as [[|e] t1].
  - pose proof (read_frame_no_panic reads Stream.with_capacity) as Hr.
    destruct (Proto.read_frame reads Stream.with_capacity) as [[welcome|e]|]; [| |done].
    + destruct (negb _); [done|]. by destruct (Vsock.decode_sb_welcome welcome).
    + intros [= -> _]. by apply (Hr ltac:(unfold WireFacts.decoder_ok; cbn; lia)).
  - intros [= -> _]. by apply Hw.
Qed.
Lemma send_batch_no_panic sequence obs (t : T) : (Proto.send_batch sequence obs t).1 ≠ Err Panicked.
Proof.
  unfold Proto.send_batch. destruct (Codec.encode _); [|done]. destruct (FrameOps.new _ _); [|done].
  apply write_frame_no_panic.
Qed.
Lemma send_heartbeat_no_panic (t : T) : (Proto.send_heartbeat t).1 ≠ Err Panicked.
Proof. apply write_frame_no_panic. Qed.

(** The owner's thread never panics: every reason it gives is accepted by the contract of
    rejections, however long the text of the error, and so is everything it is sent. *)
Theorem owner_never_panics workers clients actions (st : AgentState T) :
  run config actions (start workers clients) = Some st → ow_pc (ag_owner st) ≠ OPanicked.
Proof.
  assert (∀ s, ow_pc (ag_owner s) ≠ OPanicked → run config actions s = Some st → ow_pc (ag_owner st) ≠ OPanicked) as Hgen.
  { induction actions as [|action actions IH]; intros s Hs; cbn [run]; [by intros [= <-]|].
    intros (s1 & H & Hr)%bind_Some. apply (IH s1); [|done]. clear IH Hr.
    destruct action as [env|i env|i b]; cbn [step] in H.
    - destruct s as [gate queue wake commands stop base ws cs [pc act rec next pend] acc said sess].
      unfold owner_step in H. cbn [ag_owner ow_pc] in H.
      destruct shutting_down_Some as [r1 E1], control_timeout_Some as [r2 E2].
      pose proof (λ t sq l, send_batch_no_panic sq l t) as Hb. pose proof send_heartbeat_no_panic as Hh.
      destruct pc; try done; unfold_steps H; rewrite ?E1, ?E2 in H; step_cases H; try discriminate.
      all: try (match goal with E : rejection ?e = None |- _ => destruct (rejection_Some e); congruence end).
      all: try (match goal with
                | E : Proto.handshake _ _ = Some (Err Panicked, _) |- _ => by destruct (handshake_no_panic _ _ _ E)
                | E : Proto.send_heartbeat ?t = _ |- _ => by specialize (Hh t); rewrite E in Hh
                | E : Proto.send_batch ?n ?l ?t = _ |- _ => by specialize (Hb t n l); rewrite E in Hb
                end).
      match goal with E : (if ?b then _ else _) = None |- _ => destruct b; congruence end.
    - apply bind_Some in H as ([k pc'] & _ & H). unfold worker_step in H.
      destruct s. destruct pc'; unfold_steps H; step_cases H; exact Hs.
    - apply bind_Some in H as ([k pc' comp resp] & _ & H). unfold client_step in H.
      destruct s. destruct pc'; unfold_steps H; step_cases H; exact Hs. }
  by apply Hgen.
Qed.
End panic.
End AgentPanicFacts.
