(* ===== verification/AgentToSink.v ===== *)
(** From the sandbox agent to the daemon's sink: the bytes on the connection of a session
    of the agent (SandboxAgent.v), the size of its batches, and their way through the
    gateway (VsockGateway.v) and the daemon's connection worker (GatewayConnection.v). *)
From stdpp Require Import prelude gmap strings pretty.
From Stdlib Require Import ZArith Lia Ascii.
From coqutil Require Import Byte.
From S2P Require Import Prelude Bytes Wire Vsock Upstream SandboxObservation BatchCodec GatewayIngest GatewayConnection PolicyPath VsockGateway SandboxAgent SandboxAgentFacts.

Open Scope Z_scope.

Module AgentSinkFacts.
Import Agent AgentFacts.
#[local] Existing Instance SbConnectionFacts.upstream_log.

(** ** The size of a batch *)

Section bounds.
Context {T : Type} `{!ByteStream T} (config : SandboxAgentConfig).

Lemma batch_max_small clock :
  AgentConfig.validate clock config = Ok () → sac_batch_max_observations config ≤ u16_max.
Proof.
  intros (_ & _ & Hv)%validate_Ok. unfold Codec.MAX_ENCODED_OBSERVATION_BYTES, Codec.WORKLOAD_CGROUP_BYTES,
    Codec.OBSERVATION_BATCH_FIXED_BYTES, Vsock.MAX_FRAME_BYTES, HEADER_BYTES, u16_max in *. lia.
Qed.
Lemma batch_fits clock b :
  AgentConfig.validate clock config = Ok () → CodecFacts.batch_ok b →
  Z.of_nat (length (ob_observations b)) ≤ sac_batch_max_observations config →
  WireFacts.frame_fits (ConnectionFacts.sb_frame b).
Proof.
  intros (_ & _ & Hv)%validate_Ok Hb Hl. unfold WireFacts.frame_fits, WireFacts.fits, ConnectionFacts.sb_frame.
  rewrite (CodecFacts.encode_Ok b Hb). cbn [f_payload].
  pose proof (CodecFacts.encode_bound b _ Hb (CodecFacts.encode_Ok b Hb)) as Hn.
  change (MAX_FRAME_BYTES (Code:=SbFrameCode)) with Vsock.MAX_FRAME_BYTES.
  assert (Z.of_nat (length (ob_observations b)) * Codec.MAX_ENCODED_OBSERVATION_BYTES ≤
    sac_batch_max_observations config * Codec.MAX_ENCODED_OBSERVATION_BYTES).
  { apply Z.mul_le_mono_nonneg_r; [done|lia]. }
  lia.
Qed.

(** C16: A configuration that is accepted cannot build a batch that is too large.  Every batch
    of at most the configured number of valid observations is encoded and fits a frame,
    so sending it fails only when the connection does, and what is written is the frame. *)
Theorem accepted_batches_fit clock sequence obs (t : T) :
  AgentConfig.validate clock config = Ok () → in_u64 sequence → Forall CodecFacts.observation_ok obs →
  Z.of_nat (length obs) ≤ sac_batch_max_observations config →
  let bytes := WireFacts.encoded (ConnectionFacts.sb_frame (mkBatch sequence obs)) in
  Z.of_nat (length bytes) ≤ Vsock.MAX_FRAME_BYTES ∧
  Proto.send_batch sequence obs t =
    let '(r, t') := write_all bytes t in (map_err (λ text, Failed (mkIoError OtherKind text)) r, t').
Proof.
  intros Hv Hs Hok Hl. set (b := mkBatch sequence obs).
  assert (CodecFacts.batch_ok b) as Hb.
  { pose proof (batch_max_small _ Hv). unfold CodecFacts.batch_ok. splits; [done|cbn; lia|done]. }
  pose proof (batch_fits _ b Hv Hb Hl) as Hf. cbn zeta. split.
  - rewrite WireFacts.encoded_length by done. destruct Hf as [_ Hf].
    change (MAX_FRAME_BYTES (Code:=SbFrameCode)) with Vsock.MAX_FRAME_BYTES in Hf. lia.
  - unfold Proto.send_batch. fold b. unfold ConnectionFacts.sb_frame in Hf.
    rewrite (CodecFacts.encode_Ok b Hb) in *.
    rewrite (proj2 (WireFacts.new_spec _ _ _) (conj eq_refl Hf)). unfold Proto.write_frame.
    rewrite (WireFacts.encoded_Ok _ Hf). unfold ConnectionFacts.sb_frame. by rewrite (CodecFacts.encode_Ok b Hb).
Qed.
End bounds.

(** ** The bytes of a session's connection *)

(** What was said in the session of generation [g]: heartbeats and batches. *)
Definition says (g : Z) (said : list (Z * option ObservationBatch)) : list (option ObservationBatch) :=
  omap (λ p, if p.1 =? g then Some p.2 else None) said.
Lemma says_app g l k : says g (l ++ k) = says g l ++ says g k.
Proof. apply omap_app. Qed.
Lemma says_snoc g said o : says g (said ++ [(g, o)]) = says g said ++ [o].
Proof. rewrite says_app. cbn. by rewrite Z.eqb_refl. Qed.
Lemma said_batches g said : omap id (says g said) = batches g said.
Proof.
  induction said as [|[h o] said IH]; [done|]. cbn. unfold says, batches in IH. destruct (h =? g); [|exact IH].
  cbn. destruct o; cbn; by rewrite IH.
Qed.
Lemma says_fresh g l : (∀ p, p ∈ l → p.1 ≠ g) → says g l = [].
Proof.
  induction l as [|e l IH]; [done|]. intros H. cbn.
  rewrite (proj2 (Z.eqb_neq _ _)) by (apply H; by left). apply IH. intros x Hx. apply H. by right.
Qed.
#[local] Arguments says : simpl never.
#[local] Arguments published : simpl never.
#[local] Arguments batches : simpl never.

Section wire.
Context {T : Type} `{!ByteStream T} (config : SandboxAgentConfig).
(** The bytes a stream has taken; a write that succeeds has written everything. *)
Context (log : T → list byte).
Hypothesis write_all_logs : ∀ bs (t t' : T), write_all bs t = (Ok (), t') → log t' = log t ++ bs.
Implicit Types (st : AgentState T) (a : ActiveSession T).

Definition hello : list byte := WireFacts.encoded (mkFrame SbHello []).
Definition spoken (l : list (option ObservationBatch)) : list byte :=
  hello ++ concat (WireFacts.encoded <$> (SbConnectionFacts.sb_says <$> l)).

Lemma write_frame_logs f (t t' : T) :
  Proto.write_frame f t = (Ok (), t') → log t' = log t ++ WireFacts.encoded f.
Proof.
  unfold Proto.write_frame, WireFacts.encoded. destruct (FrameOps.encode f) as [bytes|]; [|done].
  destruct (write_all bytes t) as [[[]|e] t1] eqn:E; [|done]. intros [= <-]. by apply write_all_logs.
Qed.
Lemma handshake_logs reads (t t' : T) welcome :
  Proto.handshake reads t = Some (Ok welcome, t') → log t' = log t ++ hello.
Proof.
  unfold Proto.handshake. destruct (FrameOps.new SbHello []) as [f|] eqn:Ef; [|done].
  apply WireFacts.new_spec in Ef as [-> _].
  destruct (Proto.write_frame _ t) as [[[]|e] t1] eqn:E; [|done]. apply write_frame_logs in E.
  destruct (Proto.read_frame _ _) as [[w|e]|]; [|done|done]. by intros [= _ <-].
Qed.
Lemma heartbeat_logs u (t t' : T) :
  Proto.send_heartbeat t = (Ok u, t') → log t' = log t ++ WireFacts.encoded (SbConnectionFacts.sb_says None).
Proof. destruct u. apply write_frame_logs. Qed.
Lemma batch_logs u sequence obs (t t' : T) :
  Proto.send_batch sequence obs t = (Ok u, t') →
  log t' = log t ++ WireFacts.encoded (SbConnectionFacts.sb_says (Some (mkBatch sequence obs))).
Proof.
  destruct u. unfold Proto.send_batch. cbn [SbConnectionFacts.sb_says]. unfold ConnectionFacts.sb_frame.
  destruct (Codec.encode _) as [payload|]; [|done].
  destruct (FrameOps.new _ payload) as [f|] eqn:Ef; [|done]. apply WireFacts.new_spec in Ef as [-> _].
  apply write_frame_logs.
Qed.
Lemma spoken_snoc l o : spoken (l ++ [o]) = spoken l ++ WireFacts.encoded (SbConnectionFacts.sb_says o).
Proof. unfold spoken. rewrite !fmap_app, concat_app, <-app_assoc. cbn. by rewrite app_nil_r. Qed.

(** A stream that was only just opened, or greeted. *)
Definition opened (pc : OwnerPc T) : Prop :=
  match pc with
  | OEnsure0 _ _ (Connected t _) | OEnsure1 _ _ (Connected t _) => log t = []
  | OEnsure0 _ _ (Greeted t _ | Based t _) | OEnsure1 _ _ (Greeted t _ | Based t _)
  | OBaseline _ _ t _ | OBaselined _ _ t _ | OEmpty _ _ t _ => log t = hello
  | _ => True
  end.
Record wire_ok st : Prop := {
  wi_opened : opened (ow_pc (ag_owner st));
  wi_live a : live (ag_owner st) = Some a → log (as_connection a) = spoken (says (as_generation a) (ag_said st));
}.
(** Connections are opened without anything written. *)
Definition fresh (action : AgentAction T) : Prop :=
  match action with Own env => ∀ t reads, oe_connect env = Ok (t, reads) → log t = [] | _ => True end.

Lemma owner_wire env st st' :
  sessions_ok st → flow_ok config st → wire_ok st → ow_next_generation (ag_owner st) < u64_max →
  fresh (Own env) → owner_step config env st = Some st' → wire_ok st'.
Proof.
  intros Hso Hfo Hwi Hb Hfr H. assert (advance (ow_next_generation (ag_owner st)) = ow_next_generation (ag_owner st) + 1) as Hadv.
  { apply advance_small. destruct Hso. lia. }
  assert (says (ow_next_generation (ag_owner st) + 1) (ag_said st) = []) as Hfresh.
  { apply says_fresh. intros p Hp E. apply (so_said _ Hso) in Hp. rewrite E in Hp. apply (so_dom _ Hso) in Hp. lia. }
  pose proof (fo_detached _ _ Hfo) as Hde. clear Hso Hfo. revert Hwi Hadv Hfresh Hde H.
  destruct st as [[gen wgen] queue wake commands stop base workers clients [pc act rec next pend] acc said sess].
  intros [Hop Hli] Hadv Hfresh Hde H. cbn in Hop, Hli, Hadv, Hfresh, Hde, Hfr. unfold live in Hli. cbn [ow_active ow_pc] in Hli.
  unfold owner_step in H. cbn [ag_owner ow_pc] in H.
  destruct pc; cbn in Hop, Hde; try (rewrite (Hde eq_refl) in *; cbn in Hli).
  all: unfold_steps H; rewrite ?Hadv in H; step_cases H; (split; unfold live; cbn; try done; eauto).
  - rewrite (handshake_logs _ _ _ _ Heqo), Hop. done.
  - intros a [= <-]. cbn. rewrite Hfresh, Hop. unfold spoken. cbn. by rewrite app_nil_r.
  - intros x [= <-]. cbn. rewrite says_snoc, spoken_snoc, <-(Hli _ eq_refl).
    by eapply heartbeat_logs.
  - intros x [= <-]. cbn. rewrite says_snoc, spoken_snoc, <-(Hli _ eq_refl).
    by eapply batch_logs.
Qed.

Lemma step_wire action st st' :
  sessions_ok st → flow_ok config st → wire_ok st → ow_next_generation (ag_owner st) < u64_max →
  fresh action → step config action st = Some st' → wire_ok st'.
Proof.
  intros Hso Hfo Hwi Hb Hfr. destruct action as [env|i env|i b]; cbn [step].
  - by apply owner_wire.
  - intros (w & _ & H)%bind_Some.
    assert (ag_owner st' = ag_owner st ∧ ag_said st' = ag_said st) as [E1 E2].
    { clear -H. destruct st. unfold worker_step in H. destruct w as [k pc']. destruct pc'; unfold_steps H; step_cases H; done. }
    destruct Hwi. split; by rewrite ?E1, ?E2.
  - intros (w & _ & H)%bind_Some.
    assert (ag_owner st' = ag_owner st ∧ ag_said st' = ag_said st) as [E1 E2].
    { clear -H. destruct st. unfold client_step in H. destruct w as [k pc' comp resp].
      destruct pc'; unfold_steps H; step_cases H; done. }
    destruct Hwi. split; by rewrite ?E1, ?E2.
Qed.
Lemma run_wire actions st st' n :
  0 < sac_batch_max_observations config → sessions_ok st → flow_ok config st → wire_ok st → Forall fresh actions →
  ow_next_generation (ag_owner st) ≤ n → Z.of_nat (length (ag_said st)) ≤ n →
  n + Z.of_nat (length actions) < u64_max → run config actions st = Some st' → wire_ok st'.
Proof.
  intros Hm. revert st n. induction actions as [|action actions IH]; intros st n Hso Hfo Hwi Hfr Hb Hl Hn; cbn [run].
  { by intros [= <-]. }
  intros (st1 & H1 & H2)%bind_Some. cbn [length] in Hn. apply Forall_cons in Hfr as [Hf1 Hf2].
  assert (ow_next_generation (ag_owner st) < u64_max) as Hb' by lia.
  assert (Z.of_nat (length (ag_said st)) < u64_max - 1) as Hl' by lia.
  pose proof (step_next _ _ _ _ Hb' (so_next _ Hso) H1). pose proof (step_said _ _ _ _ H1).
  apply (IH st1 (n + 1)); [by eapply step_sessions|by eapply step_flow|by eapply step_wire|done|lia..|done].
Qed.

Lemma sent_valid g workload st :
  ag_sessions st !! g = Some workload → flow_ok config st →
  Forall (λ e, CodecFacts.observation_ok (de_observation e)) (ag_accepted st) →
  Forall CodecFacts.observation_ok (sent g (ag_said st)).
Proof.
  intros Hg Hfo Hok. destruct (fo_history _ _ Hfo _ _ Hg) as [k Hk].
  assert (Forall CodecFacts.observation_ok (published g workload (ag_accepted st))) as Hp.
  { unfold published. apply Forall_forall. intros x (e & He & Hx)%list_elem_of_omap.
    destruct (deliverable _ _ _); [|done]. injection Hx as <-. by rewrite Forall_forall in Hok; apply Hok. }
  rewrite Hk in Hp. by apply Forall_app in Hp as [? _].
Qed.
Lemma sent_elem g said b x : b ∈ batches g said → x ∈ ob_observations b → x ∈ sent g said.
Proof.
  intros Hb Hx. unfold sent. apply list_elem_of_join. exists (ob_observations b). split; [done|].
  by apply list_elem_of_fmap_2.
Qed.

Lemma says_valid clock g workload st :
  AgentConfig.validate clock config = Ok () → ag_sessions st !! g = Some workload → flow_ok config st →
  Z.of_nat (length (ag_said st)) < u64_max →
  Forall (λ e, CodecFacts.observation_ok (de_observation e)) (ag_accepted st) →
  Forall SbConnectionFacts.says_ok (says g (ag_said st)).
Proof.
  intros Hv Hg Hfo Hlen Hok. apply Forall_forall. intros [b|] Hin; [|done].
  assert (b ∈ batches g (ag_said st)) as Hb.
  { rewrite <-said_batches. apply list_elem_of_omap. by exists (Some b). }
  pose proof Hb as (i & Hi)%list_elem_of_lookup. destruct (fo_batches _ _ Hfo g i b Hi) as [Hseq Hbl].
  assert (CodecFacts.batch_ok b) as Hbok.
  { pose proof (batch_max_small _ _ Hv). apply lookup_lt_Some in Hi. pose proof (batches_length g (ag_said st)).
    unfold CodecFacts.batch_ok, in_u64. splits; [lia|lia|lia|].
    apply Forall_forall. intros x Hx. pose proof (sent_valid _ _ _ Hg Hfo Hok) as Hs.
    rewrite Forall_forall in Hs. apply Hs. by eapply sent_elem. }
  split; [done|]. eapply batch_fits; [done|done|lia].
Qed.

End wire.

(** ** The concrete agent of SandboxAgentFacts.v, its gateway and its daemon *)

#[local] Instance w_conn : ByteStream (list byte) := {| write_all := λ bs t, (Ok (), t ++ bs) |}.
#[local] Instance w_sink : SandboxObservationSink (list (Z * Z * ObservationBatch)) :=
  {| sink_deliver := λ gid sb b k, (Ok (), k ++ [(gid, sb, b)]) |}.

Lemma w_conn_logs bs (t t' : list byte) : write_all bs t = (Ok (), t') → id t' = id t ++ bs.
Proof. by intros [= <-]. Qed.
Definition w_two : list SandboxObservation := [OomVictim CodecFacts.w_oom; OomVictim CodecFacts.w_oom].

Lemma accepted_batches_fit_witness :
  Z.of_nat (length (WireFacts.encoded (ConnectionFacts.sb_frame (mkBatch 1 w_two)))) ≤ Vsock.MAX_FRAME_BYTES ∧
  (Proto.send_batch 1 w_two ([] : list byte)).1 = Ok ().
Proof.
  destruct (accepted_batches_fit w_agent (λ _, true) 1 w_two ([] : list byte)) as [H1 H2].
  - vm_compute. reflexivity.
  - split; vm_compute; discriminate.
  - pose proof CodecFacts.w_batch_ok as (_ & _ & H). apply Forall_cons in H as [H _].
    constructor; [exact H|]. constructor; [exact H|constructor].
  - vm_compute. discriminate.
  - split; [exact H1|]. rewrite H2. reflexivity.
Defined.

Definition w_live : ActiveSession (list byte) :=
  default (mkActive w_endpoint 0 0 false [] 0) (live (ag_owner w_state)).
Definition w_cut : list (nat * list byte) :=
  [(8%nat, take 20 (as_connection w_live)); (0%nat, drop 20 (as_connection w_live))].

End AgentSinkFacts.
