(* ===== verification/SessionStatus.v ===== *)
(** The status cell of the sandbox agent: crates/core/sandbox_agent_runtime/src/session/status.rs
    and the status types of crates/contracts/sandbox_control.

    Writers take the cell by moving its revision from even to odd and release it by moving
    it on; readers copy the fields one by one and start again when the revision moved.
    Each load, store and exchange is one step of [Status.step]; threads interleave
    arbitrarily and memory is sequentially consistent (the code's relaxed loads between
    two acquire loads of the revision rely on it). *)
From stdpp Require Import prelude gmap strings.
From Stdlib Require Import ZArith Lia.
From S2P Require Import Prelude GatewayIngest VsockGateway SandboxAgent.

Open Scope Z_scope.

(** * The contract *)

Inductive SandboxDaemonState := DaemonReady | DaemonStopping.
Inductive SandboxConnectionState := Disconnected | Connecting | ConnectedState | Reconnecting_.
Record SandboxControlStatus := mkControlStatus {
  scs_daemon : SandboxDaemonState;
  scs_connection : SandboxConnectionState;
  scs_endpoint : option SandboxEndpoint;
  scs_sb_id : Z;
  scs_connection_generation : Z;
  scs_publication_enabled : bool;
}.

(** * The cell *)

Definition DISCONNECTED : Z := 0.
Definition CONNECTING : Z := 1.
Definition CONNECTED : Z := 2.
Definition RECONNECTING : Z := 3.

Record StatusFields := mkFields {
  sf_connection : Z;
  sf_has_endpoint : bool;
  sf_host_cid : Z;
  sf_port : Z;
  sf_sb_id : Z;
  sf_generation : Z;
  sf_publication_enabled : bool;
}.
Record SharedSessionStatus := mkStatusCell {
  ss_revision : Z;
  ss_stopping : bool;
  ss_fields : StatusFields;
}.

(** The public updates, each a sequence of stores. *)
Inductive StatusUpdate :=
| UpConnecting (e : SandboxEndpoint)
| UpConnected (e : SandboxEndpoint) (sb_id generation : Z)
| UpReconnecting (e : SandboxEndpoint)
| UpDisconnected
| UpStopping.
Inductive StatusStore :=
| StHostCid (v : Z) | StPort (v : Z) | StHasEndpoint (b : bool) | StSbId (v : Z) | StGeneration (v : Z)
| StPublication (b : bool) | StConnection (v : Z) | StStopping.

(** Where a writer or a reader stands; [since] is how many updates were complete when the
    reader was called. *)
Inductive StatusPc :=
| SIdle                                                    (* between two calls *)
| SBegin (u : StatusUpdate)                                (* the first load of [begin_update] *)
| STry (u : StatusUpdate) (revision : Z)                   (* the parity test, then the exchange *)
| SStore (u : StatusUpdate) (rest : list StatusStore)
| SFinish (u : StatusUpdate)                               (* [finish_update] *)
| SLoad (since : nat)                                      (* the first load of [snapshot] *)
| SRead (since : nat) (revision : Z) (n : nat) (f : StatusFields) (* [n] fields are copied *)
| SCheck (since : nat) (revision : Z) (f : StatusFields)
| SDaemon (since : nat) (revision : Z) (f : StatusFields)  (* [stopping.load] *)
| SReturned (since : nat) (revision : Z) (s : SandboxControlStatus)
| SPanicked.
Record StatusState := mkStatusState {
  st_cell : SharedSessionStatus;
  st_threads : gmap nat StatusPc;
  st_done : list StatusUpdate;                             (* the completed updates, in order *)
}.
(** What an idle thread calls next. *)
Inductive StatusCall := CallUpdate (u : StatusUpdate) | CallSnapshot.

Module Status.
Definition initial : StatusFields := mkFields DISCONNECTED false 0 0 0 0 false.
Definition ready : SharedSessionStatus := mkStatusCell 0 false initial.

Definition set_endpoint (e : SandboxEndpoint) : list StatusStore :=
  [StHostCid (se_host_cid e); StPort (se_port e); StHasEndpoint true].
Definition stores (u : StatusUpdate) : list StatusStore :=
  match u with
  | UpConnecting e => set_endpoint e ++ [StSbId 0; StPublication false; StConnection CONNECTING]
  | UpConnected e sb_id generation =>
      set_endpoint e ++ [StSbId sb_id; StGeneration generation; StPublication true; StConnection CONNECTED]
  | UpReconnecting e => set_endpoint e ++ [StSbId 0; StPublication false; StConnection RECONNECTING]
  | UpDisconnected => [StHasEndpoint false; StSbId 0; StPublication false; StConnection DISCONNECTED]
  | UpStopping => [StStopping; StPublication false]
  end.
Definition store (s : StatusStore) (c : SharedSessionStatus) : SharedSessionStatus :=
  let f := ss_fields c in
  let set f := mkStatusCell (ss_revision c) (ss_stopping c) f in
  match s with
  | StHostCid v => set (mkFields (sf_connection f) (sf_has_endpoint f) v (sf_port f) (sf_sb_id f) (sf_generation f) (sf_publication_enabled f))
  | StPort v => set (mkFields (sf_connection f) (sf_has_endpoint f) (sf_host_cid f) v (sf_sb_id f) (sf_generation f) (sf_publication_enabled f))
  | StHasEndpoint b => set (mkFields (sf_connection f) b (sf_host_cid f) (sf_port f) (sf_sb_id f) (sf_generation f) (sf_publication_enabled f))
  | StSbId v => set (mkFields (sf_connection f) (sf_has_endpoint f) (sf_host_cid f) (sf_port f) v (sf_generation f) (sf_publication_enabled f))
  | StGeneration v => set (mkFields (sf_connection f) (sf_has_endpoint f) (sf_host_cid f) (sf_port f) (sf_sb_id f) v (sf_publication_enabled f))
  | StPublication b => set (mkFields (sf_connection f) (sf_has_endpoint f) (sf_host_cid f) (sf_port f) (sf_sb_id f) (sf_generation f) b)
  | StConnection v => set (mkFields v (sf_has_endpoint f) (sf_host_cid f) (sf_port f) (sf_sb_id f) (sf_generation f) (sf_publication_enabled f))
  | StStopping => mkStatusCell (ss_revision c) true f
  end.
Definition set_revision (r : Z) (c : SharedSessionStatus) : SharedSessionStatus :=
  mkStatusCell r (ss_stopping c) (ss_fields c).

(** The [n]th load of [snapshot], into the copy [f]. *)
Definition load (n : nat) (c : StatusFields) (f : StatusFields) : StatusFields :=
  mkFields (if Nat.eqb n 0 then sf_connection c else sf_connection f)
    (if Nat.eqb n 1 then sf_has_endpoint c else sf_has_endpoint f)
    (if Nat.eqb n 2 then sf_host_cid c else sf_host_cid f)
    (if Nat.eqb n 3 then sf_port c else sf_port f)
    (if Nat.eqb n 4 then sf_sb_id c else sf_sb_id f)
    (if Nat.eqb n 5 then sf_generation c else sf_generation f)
    (if Nat.eqb n 6 then sf_publication_enabled c else sf_publication_enabled f).

(** The decoding of the copied fields; [None] is the panic of [expect]. *)
Definition connection_state (raw : Z) : SandboxConnectionState :=
  if raw =? CONNECTING then Connecting else if raw =? CONNECTED then ConnectedState
  else if raw =? RECONNECTING then Reconnecting_ else Disconnected.
Definition status_of (stopping : bool) (f : StatusFields) : option SandboxControlStatus :=
  endpoint ← if sf_has_endpoint f
             then match Control.endpoint_new (sf_host_cid f) (sf_port f) with
                  | Ok e => Some (Some e)
                  | Err _ => None
                  end
             else Some None;
  Some (mkControlStatus (if stopping then DaemonStopping else DaemonReady) (connection_state (sf_connection f))
          endpoint (sf_sb_id f) (sf_generation f) (sf_publication_enabled f)).

Definition goto (i : nat) (pc : StatusPc) (st : StatusState) : StatusState :=
  mkStatusState (st_cell st) (<[i := pc]> (st_threads st)) (st_done st).
Definition with_cell (c : SharedSessionStatus) (st : StatusState) : StatusState :=
  mkStatusState c (st_threads st) (st_done st).

(** One step of thread [i]; [spurious] is a weak exchange that fails for no reason. *)
Definition step (i : nat) (call : StatusCall) (spurious : bool) (st : StatusState) : option StatusState :=
  let c := st_cell st in
  pc ← st_threads st !! i;
  match pc with
  | SIdle => Some (goto i (match call with CallUpdate u => SBegin u | CallSnapshot => SLoad (length (st_done st)) end) st)
  | SBegin u => Some (goto i (STry u (ss_revision c)) st)
  | STry u r =>
      if Z.odd r then Some (goto i (SBegin u) st)
      else if negb spurious && (ss_revision c =? r)
      then Some (goto i (SStore u (stores u)) (with_cell (set_revision (wrapping_add_u64 r 1) c) st))
      else Some (goto i (STry u (ss_revision c)) st)
  | SStore u [] => Some (goto i (SFinish u) st)
  | SStore u (s :: rest) => Some (goto i (SStore u rest) (with_cell (store s c) st))
  | SFinish u =>
      let st := goto i SIdle (with_cell (set_revision (wrapping_add_u64 (ss_revision c) 1) c) st) in
      Some (mkStatusState (st_cell st) (st_threads st) (st_done st ++ [u]))
  | SLoad b =>
      Some (goto i (if Z.odd (ss_revision c) then SLoad b else SRead b (ss_revision c) 0 initial) st)
  | SRead b r n f =>
      let f := load n (ss_fields c) f in
      Some (goto i (if Nat.eqb n 6 then SCheck b r f else SRead b r (S n) f) st)
  | SCheck b r f => Some (goto i (if ss_revision c =? r then SDaemon b r f else SLoad b) st)
  | SDaemon b r f =>
      Some (goto i (match status_of (ss_stopping c) f with Some s => SReturned b r s | None => SPanicked end) st)
  | SReturned _ _ _ => Some (goto i SIdle st)
  | SPanicked => None
  end.
Fixpoint run (actions : list (nat * StatusCall * bool)) (st : StatusState) : option StatusState :=
  match actions with
  | [] => Some st
  | (i, call, spurious) :: rest => st' ← step i call spurious st; run rest st'
  end.
Definition start (threads : gset nat) : StatusState :=
  mkStatusState ready (gset_to_gmap SIdle threads) [].

(** What an update means for the fields. *)
Definition effect (f : StatusFields) (u : StatusUpdate) : StatusFields :=
  match u with
  | UpConnecting e => mkFields CONNECTING true (se_host_cid e) (se_port e) 0 (sf_generation f) false
  | UpConnected e sb_id generation => mkFields CONNECTED true (se_host_cid e) (se_port e) sb_id generation true
  | UpReconnecting e => mkFields RECONNECTING true (se_host_cid e) (se_port e) 0 (sf_generation f) false
  | UpDisconnected => mkFields DISCONNECTED false (sf_host_cid f) (sf_port f) 0 (sf_generation f) false
  | UpStopping => mkFields (sf_connection f) (sf_has_endpoint f) (sf_host_cid f) (sf_port f) (sf_sb_id f) (sf_generation f) false
  end.
(** The fields after the first [k] completed updates. *)
Definition after (done : list StatusUpdate) (k : nat) : StatusFields := foldl effect initial (take k done).
End Status.

(** * One value at a time *)

Module StatusFacts.
Import Status.

Definition holds (pc : StatusPc) : bool := match pc with SStore _ _ | SFinish _ => true | _ => false end.
Definition valid_endpoint (e : SandboxEndpoint) : Prop := Control.endpoint_new (se_host_cid e) (se_port e) = Ok e.
Definition valid_update (u : StatusUpdate) : Prop :=
  match u with
  | UpConnecting e | UpConnected e _ _ | UpReconnecting e => valid_endpoint e
  | _ => True
  end.
Definition agrees (n : nat) (f c : StatusFields) : Prop :=
  ((0 < n)%nat → sf_connection f = sf_connection c) ∧ ((1 < n)%nat → sf_has_endpoint f = sf_has_endpoint c) ∧
  ((2 < n)%nat → sf_host_cid f = sf_host_cid c) ∧ ((3 < n)%nat → sf_port f = sf_port c) ∧
  ((4 < n)%nat → sf_sb_id f = sf_sb_id c) ∧ ((5 < n)%nat → sf_generation f = sf_generation c) ∧
  ((6 < n)%nat → sf_publication_enabled f = sf_publication_enabled c).

Definition pc_ok (c : SharedSessionStatus) (d : list StatusUpdate) (pc : StatusPc) : Prop :=
  match pc with
  | SIdle => True
  | SBegin u | STry u _ => valid_update u
  | SStore u rest => valid_update u ∧
      ss_fields (foldl (λ c s, store s c) c rest) = effect (after d (length d)) u
  | SFinish u => valid_update u ∧ ss_fields c = effect (after d (length d)) u
  | SLoad b => (b ≤ length d)%nat
  | SRead b r n f => Z.odd r = false ∧ 2 * Z.of_nat b ≤ r ∧ r ≤ ss_revision c ∧ (n ≤ 6)%nat ∧
      (ss_revision c = r → agrees n f (ss_fields c))
  | SCheck b r f => Z.odd r = false ∧ 2 * Z.of_nat b ≤ r ∧ r ≤ ss_revision c ∧
      (ss_revision c = r → f = ss_fields c)
  | SDaemon b r f => ∃ k, r = 2 * Z.of_nat k ∧ (b ≤ k ≤ length d)%nat ∧ f = after d k
  | SReturned b r s => ∃ k x, r = 2 * Z.of_nat k ∧ (b ≤ k ≤ length d)%nat ∧ status_of x (after d k) = Some s
  | SPanicked => False
  end.
Record status_ok (st : StatusState) : Prop := {
  sk_threads i pc : st_threads st !! i = Some pc → pc_ok (st_cell st) (st_done st) pc;
  sk_one i j p q : st_threads st !! i = Some p → st_threads st !! j = Some q →
    holds p = true → holds q = true → i = j;
  sk_valid : Forall valid_update (st_done st);
  sk_revision :
    (∃ i p, st_threads st !! i = Some p ∧ holds p = true) ∧
      ss_revision (st_cell st) = 2 * Z.of_nat (length (st_done st)) + 1 ∨
    (∀ i p, st_threads st !! i = Some p → holds p = false) ∧
      ss_revision (st_cell st) = 2 * Z.of_nat (length (st_done st)) ∧
      ss_fields (st_cell st) = after (st_done st) (length (st_done st));
}.

Lemma odd_double n : Z.odd (2 * n) = false.
Proof. by rewrite Z.odd_mul. Qed.
Lemma odd_succ_double n : Z.odd (2 * n + 1) = true.
Proof. by rewrite Z.add_comm, Z.odd_add_mul_2. Qed.
Lemma after_prefix d u k : (k ≤ length d)%nat → after (d ++ [u]) k = after d k.
Proof. intros H. unfold after. by rewrite take_app_le. Qed.
Lemma after_snoc d u : after (d ++ [u]) (length (d ++ [u])) = effect (after d (length d)) u.
Proof. unfold after. by rewrite !take_ge, foldl_snoc by (rewrite ?length_app; lia). Qed.

(** All the stores of an update make its effect. *)
Lemma stores_effect u c : ss_fields (foldl (λ c s, store s c) c (stores u)) = effect (ss_fields c) u.
Proof. destruct u; reflexivity. Qed.
Lemma store_revision s c : ss_revision (store s c) = ss_revision c.
Proof. by destruct s. Qed.

Lemma load_agrees n f c : (n ≤ 6)%nat → agrees n f c → agrees (S n) (load n c f) c.
Proof.
  intros Hn (H0 & H1 & H2 & H3 & H4 & H5 & H6). unfold agrees, load.
  do 7 (destruct n as [|n]; [cbn; splits; intros; try done; try lia; auto with lia|]). lia.
Qed.
Lemma agrees_all f c : agrees 7 f c → f = c.
Proof.
  intros (H0 & H1 & H2 & H3 & H4 & H5 & H6). destruct f, c. cbn in *.
  rewrite H0, H1, H2, H3, H4, H5, H6 by lia. done.
Qed.

(** The endpoint of the fields was validated. *)
Lemma after_endpoint d k :
  Forall valid_update d → sf_has_endpoint (after d k) = true →
  valid_endpoint (mkSbEndpoint (sf_host_cid (after d k)) (sf_port (after d k))).
Proof.
  intros Hd. unfold after. assert (Forall valid_update (take k d)) as Hk by by apply Forall_take.
  induction (take k d) as [|u l IH] using rev_ind; [done|]. rewrite foldl_snoc.
  apply Forall_app in Hk as [Hl [Hu _]%Forall_cons].
  destruct u as [[h q]|[h q]|[h q]| |]; cbn; try (intros _; exact Hu); [done|by apply IH].
Qed.
Lemma status_total b d k : Forall valid_update d → is_Some (status_of b (after d k)).
Proof.
  intros Hd. unfold status_of. destruct (sf_has_endpoint (after d k)) eqn:E; [|eexists; done].
  pose proof (after_endpoint d k Hd E) as Hv. unfold valid_endpoint in Hv. cbn in Hv. rewrite Hv. by eexists.
Qed.

(** Threads that do not step keep their claims. *)
Lemma pc_ok_other c d c' d' pc :
  holds pc = false → pc_ok c d pc → ss_revision c ≤ ss_revision c' →
  (ss_revision c' = ss_revision c → Z.odd (ss_revision c) = true ∨ ss_fields c' = ss_fields c) →
  d' = d ∨ (∃ u, d' = d ++ [u]) → pc_ok c' d' pc.
Proof.
  intros Hh Hpc Hle Hsame Hd.
  assert (length d ≤ length d')%nat as Hlen by (destruct Hd as [-> |[u ->]]; rewrite ?length_app; lia).
  assert (∀ k, (k ≤ length d)%nat → after d' k = after d k) as Haf.
  { intros k Hk. destruct Hd as [-> |[u ->]]; [done|by apply after_prefix]. }
  destruct pc; cbn in *; try done.
  - lia.
  - destruct Hpc as (H1 & H2 & H3 & H4 & H5). splits; [done|done|lia|done|]. intros E.
    destruct Hsame as [Ho| ->]; [lia| |apply H5; lia]. assert (ss_revision c = revision) by lia. congruence.
  - destruct Hpc as (H1 & H2 & H3 & H5). splits; [done|done|lia|]. intros E.
    destruct Hsame as [Ho| ->]; [lia| |apply H5; lia]. assert (ss_revision c = revision) by lia. congruence.
  - destruct Hpc as (k & -> & Hk & ->). exists k. splits; [done|lia|lia|]. by rewrite Haf by lia.
  - destruct Hpc as (k & x & -> & Hk & Hs). exists k, x. splits; [done|lia|lia|]. by rewrite Haf by lia.
Qed.

Lemma insert_lookup_other (m : gmap nat StatusPc) i pc j q :
  <[i := pc]> m !! j = Some q → (j = i ∧ q = pc) ∨ (j ≠ i ∧ m !! j = Some q).
Proof. intros [[<- <-]|[? ?]]%lookup_insert_Some; [by left|right; auto]. Qed.

(** A step that leaves the cell alone and does not take or release it. *)
Lemma local_step st i p pc :
  status_ok st → st_threads st !! i = Some p → holds p = false → holds pc = false →
  pc_ok (st_cell st) (st_done st) pc → status_ok (goto i pc st).
Proof.
  intros [H1 H2 H3 H4] Hi Hp Hpc Hok. split; cbn; [| |done|].
  - intros j q [[-> ->]|[_ Hj]]%insert_lookup_other; [done|by eapply H1].
  - intros j k q r [[-> ->]|[_ Hj]]%insert_lookup_other [[-> ->]|[_ Hk]]%insert_lookup_other Hq Hr;
      [congruence|congruence|congruence|by eapply H2].
  - destruct H4 as [[(j & q & Hj & Hq) Hr]|(Hn & Hr & Hf)]; [left|right].
    + split; [|done]. exists j, q. split; [|done]. rewrite lookup_insert_ne; [done|]. intros ->. congruence.
    + splits; [|done|done]. intros j q [[-> ->]|[_ Hj]]%insert_lookup_other; [done|by eapply Hn].
Qed.
(** The holder goes on: it stores, or its stores are done. *)
Lemma holder_step st i p pc c :
  status_ok st → st_threads st !! i = Some p → holds p = true → holds pc = true →
  ss_revision c = ss_revision (st_cell st) → pc_ok c (st_done st) pc → status_ok (goto i pc (with_cell c st)).
Proof.
  intros [H1 H2 H3 H4] Hi Hp Hpc Hrev Hok.
  destruct H4 as [[_ Hr]|(Hn & _ & _)]; [|specialize (Hn _ _ Hi); congruence]. split; cbn; [| |done|].
  - intros j q [[-> ->]|[Hne Hj]]%insert_lookup_other; [done|].
    eapply pc_ok_other; [|by eapply H1|lia| |by left].
    + destruct (holds q) eqn:E; [|done]. by destruct Hne; eapply H2.
    + intros _. left. by rewrite Hr, odd_succ_double.
  - intros j k q r [[-> ->]|[Hj' Hj]]%insert_lookup_other [[-> ->]|[Hk' Hk]]%insert_lookup_other Hq Hr'; [done| | |by eapply H2].
    + by destruct Hk'; eapply H2.
    + by destruct Hj'; eapply H2.
  - left. split; [|lia]. exists i, pc. by rewrite lookup_insert_eq.
Qed.
(** Taking the cell. *)
Lemma acquire_step st i u :
  status_ok st → st_threads st !! i = Some (STry u (ss_revision (st_cell st))) → valid_update u →
  Z.odd (ss_revision (st_cell st)) = false → ss_revision (st_cell st) < u64_max →
  status_ok (goto i (SStore u (stores u))
    (with_cell (set_revision (wrapping_add_u64 (ss_revision (st_cell st)) 1) (st_cell st)) st)).
Proof.
  intros [H1 H2 H3 H4] Hi Hu Hodd Hmax.
  destruct H4 as [[_ Hr]|(Hn & Hr & Hf)]; [by rewrite Hr, odd_succ_double in Hodd|].
  rewrite wrapping_add_u64_small by lia. split; cbn; [| |done|].
  - intros j q [[-> ->]|[_ Hj]]%insert_lookup_other.
    + split; [done|]. rewrite stores_effect. cbn. by rewrite Hf.
    + eapply pc_ok_other; [by eapply Hn|by eapply H1|cbn; lia|cbn; lia|by left].
  - intros j k q r [[-> ->]|[_ Hj]]%insert_lookup_other [[-> ->]|[_ Hk]]%insert_lookup_other Hq Hr'; [done| | |].
    + specialize (Hn _ _ Hk). congruence.
    + specialize (Hn _ _ Hj). congruence.
    + specialize (Hn _ _ Hk). congruence.
  - left. split; [|cbn; lia]. exists i, (SStore u (stores u)). by rewrite lookup_insert_eq.
Qed.
(** Releasing it. *)
Lemma release_step st i u :
  status_ok st → st_threads st !! i = Some (SFinish u) → ss_revision (st_cell st) < u64_max →
  status_ok (mkStatusState (set_revision (wrapping_add_u64 (ss_revision (st_cell st)) 1) (st_cell st))
    (<[i := SIdle]> (st_threads st)) (st_done st ++ [u])).
Proof.
  intros [H1 H2 H3 H4] Hi Hmax. destruct (H1 _ _ Hi) as [Hu Hf].
  destruct H4 as [[_ Hr]|(Hn & _ & _)]; [|specialize (Hn _ _ Hi); done].
  assert (∀ j q, j ≠ i → st_threads st !! j = Some q → holds q = false) as Hother.
  { intros j q Hne Hj. destruct (holds q) eqn:E; [|done]. by destruct Hne; eapply H2. }
  rewrite wrapping_add_u64_small by lia. split; cbn.
  - intros j q [[-> ->]|[Hne Hj]]%insert_lookup_other; [done|].
    eapply pc_ok_other; [by eapply Hother|by eapply H1|cbn; lia|cbn; lia|eauto].
  - intros j k q r [[-> ->]|[Hj' Hj]]%insert_lookup_other [[-> ->]|[Hk' Hk]]%insert_lookup_other Hq Hr'; [done|done|done|].
    specialize (Hother _ _ Hj' Hj). congruence.
  - apply Forall_app. split; [done|]. by constructor.
  - right. splits.
    + intros j q [[-> ->]|[Hne Hj]]%insert_lookup_other; [done|by eapply Hother].
    + rewrite length_app. cbn. lia.
    + rewrite Hf. symmetry. apply after_snoc.
Qed.

Definition valid_call (c : StatusCall) : Prop := match c with CallUpdate u => valid_update u | CallSnapshot => True end.

Lemma status_step i call spurious st st' :
  status_ok st → valid_call call → ss_revision (st_cell st) < u64_max →
  step i call spurious st = Some st' → status_ok st'.
Proof.
  intros Hok Hcall Hmax. unfold step. intros (pc & Hi & H)%bind_Some.
  pose proof (sk_threads _ Hok _ _ Hi) as Hpc.
  assert (2 * Z.of_nat (length (st_done st)) ≤ ss_revision (st_cell st) ≤ 2 * Z.of_nat (length (st_done st)) + 1) as Hlow
    by (destruct (sk_revision _ Hok) as [[_ ->]|(_ & -> & _)]; lia).
  assert (Z.odd (ss_revision (st_cell st)) = false → ss_revision (st_cell st) = 2 * Z.of_nat (length (st_done st)) ∧
    ss_fields (st_cell st) = after (st_done st) (length (st_done st))) as Heven.
  { destruct (sk_revision _ Hok) as [[_ Hr]|(_ & ? & ?)]; [by rewrite Hr, odd_succ_double|done]. }
  destruct pc as [|u|u r|u [|s rest]|u|b|b r n f|b r f|b r f|b r s|]; cbn in Hpc.
  - injection H as <-. destruct call; eapply local_step; try done; cbn; lia.
  - injection H as <-. by eapply local_step.
  - destruct (Z.odd r) eqn:Eo; [injection H as <-; by eapply local_step|].
    destruct (negb spurious && _) eqn:Eb; injection H as <-; [|by eapply local_step].
    apply andb_true_iff in Eb as [_ <-%Z.eqb_eq]. by apply acquire_step.
  - injection H as <-.
    change (status_ok (goto i (SFinish u) (with_cell (st_cell st) st))). by eapply holder_step.
  - injection H as <-. eapply holder_step; [done|done|done|done|apply store_revision|done].
  - injection H as <-. by apply release_step.
  - injection H as <-. destruct (Z.odd (ss_revision (st_cell st))) eqn:Eo; eapply local_step; try done.
    destruct (Heven eq_refl). cbn. splits; [done|lia|done|lia|]. intros _. unfold agrees. splits; lia.
  - injection H as <-. destruct Hpc as (H1 & H2 & H3 & H4 & H5).
    destruct (Nat.eqb_spec n 6) as [->|]; eapply local_step; try done; cbn.
    + splits; [done|done|done|]. intros E. apply agrees_all, (load_agrees 6); auto.
    + splits; [done|done|done|lia|]. intros E. apply load_agrees; auto.
  - injection H as <-. destruct Hpc as (H1 & H2 & H3 & H4).
    destruct (Z.eqb_spec (ss_revision (st_cell st)) r) as [E|]; eapply local_step; try done; cbn; [|lia].
    subst r. destruct (Heven H1) as [Hr Hf]. exists (length (st_done st)). splits; [lia|lia|lia|].
    by rewrite H4, Hf.
  - injection H as <-. destruct Hpc as (k & -> & Hk & ->).
    destruct (status_total (ss_stopping (st_cell st)) (st_done st) k (sk_valid _ Hok)) as [x Hx]. rewrite Hx.
    eapply local_step; try done. cbn. eauto.
  - injection H as <-. by eapply local_step.
  - done.
Qed.
Lemma step_revision i call spurious st st' :
  ss_revision (st_cell st) < u64_max → 0 ≤ ss_revision (st_cell st) → step i call spurious st = Some st' →
  0 ≤ ss_revision (st_cell st') ≤ ss_revision (st_cell st) + 1.
Proof.
  intros Hmax Hpos. unfold step. intros (pc & Hi & H)%bind_Some.
  pose proof (wrapping_add_u64_small (ss_revision (st_cell st)) 1 Hpos ltac:(lia) ltac:(lia)) as Hw.
  destruct pc as [|u|u r|u [|s rest]|u|b|b r n f|b r f|b r f|b r s|]; try (injection H as <-; cbn; lia); [| |done].
  - destruct (Z.odd r); [injection H as <-; cbn; lia|]. destruct (negb spurious && _) eqn:Eb; injection H as <-; cbn; [|lia].
    apply andb_true_iff in Eb as [_ <-%Z.eqb_eq]. lia.
  - injection H as <-. cbn. rewrite store_revision. lia.
Qed.
Lemma run_status actions st st' n :
  status_ok st → Forall (λ a, valid_call a.1.2) actions → 0 ≤ ss_revision (st_cell st) ≤ n →
  n + Z.of_nat (length actions) < u64_max → run actions st = Some st' → status_ok st'.
Proof.
  revert st n. induction actions as [|[[i call] spurious] actions IH]; intros st n Hok Hv Hr Hn; cbn [run]; [by intros [= <-]|].
  intros (st1 & H1 & H2)%bind_Some. apply Forall_cons in Hv as [Hc Hv]. cbn [length] in Hn. cbn in Hc.
  assert (ss_revision (st_cell st) < u64_max) as Hlt by lia.
  pose proof (step_revision _ _ _ _ _ Hlt (proj1 Hr) H1).
  apply (IH st1 (n + 1)); [by eapply status_step|done|lia|lia|done].
Qed.
Lemma start_status threads : status_ok (start threads).
Proof.
  assert (∀ i pc, st_threads (start threads) !! i = Some pc → pc = SIdle) as Hid.
  { intros i pc. cbn. rewrite lookup_gset_to_gmap_Some. by intros [_ ->]. }
  split; cbn.
  - by intros i pc ->%Hid.
  - by intros i j p q ->%Hid _ ?.
  - constructor.
  - right. splits; [by intros i p ->%Hid|done|done].
Qed.


(** A reader that is overtaken by an update and starts again. *)
Definition w_up : StatusUpdate := UpConnected (mkSbEndpoint 2 1024) 7 1.
Definition w_race : list (nat * StatusCall * bool) :=
  replicate 5 (0%nat, CallSnapshot, false) ++ replicate 12 (1%nat, CallUpdate w_up, false)
  ++ replicate 15 (0%nat, CallSnapshot, false).
Definition w_end : StatusState := default (start ∅) (run w_race (start {[0%nat; 1%nat]})).


(** The daemon's state is read after the other fields were found consistent, so a snapshot
    can report a stopping daemon together with fields from before it stopped. *)
Example snapshot_daemon_state_is_newer :
  ∃ r s, st_threads (default (start ∅) (run
      (replicate 12 (1%nat, CallUpdate w_up, false) ++ replicate 10 (0%nat, CallSnapshot, false)
       ++ replicate 4 (1%nat, CallUpdate UpStopping, false) ++ [(0%nat, CallSnapshot, false)])
      (start {[0%nat; 1%nat]}))) !! 0%nat = Some (SReturned 1 r s) ∧
    scs_daemon s = DaemonStopping ∧ scs_publication_enabled s = true.
Proof. eexists _, _. split; [vm_compute; reflexivity|]. split; reflexivity. Qed.
End StatusFacts.
