(* ===== verification/AlertCodec.v ===== *)
(** The wire contract of alert delivery: crates/contracts/alert_delivery (alert.rs,
    error.rs, internal/, and the frame codec of subscriber/).

    A daemon forwards alerts to the alert proxy in ATAP frames; the proxy sends them to
    its subscribers as length-prefixed JSON.  Payloads are written into byte lists and read
    back with a cursor (the record [Cursor] of the batch codec, which has the same two
    fields).  Both stream decoders are the same loop over a different frame format
    ([FrameFormat]).  JSON belongs to a third-party crate: [ExtrasJson], [Serialize] and
    [Deserialize] are its interface.  [usize] is 64 bits wide. *)
From stdpp Require Import prelude gmap strings pretty.
From Stdlib Require Import ZArith Lia.
From coqutil Require Import Byte.
From S2P Require Import Prelude Bytes Wire Utf8 SandboxObservation BatchCodec.

Open Scope Z_scope.

(** * [String::from_utf8] *)

(** [Utf8Error]: where the valid text ends, and how many bytes are wrong ([None]: the
    text ends inside a character). *)
Record Utf8Error := mkUtf8Error { ue_valid_up_to : nat; ue_error_len : option nat }.

Module Text.
(** [run_utf8_validation] of the standard library. *)
Fixpoint validation (i : nat) (bs : list byte) : option Utf8Error :=
  let err n := Some (mkUtf8Error i n) in
  match bs with
  | [] => None
  | b0 :: r0 =>
      if between 0 127 b0 then validation (1 + i) r0
      else if between 194 223 b0 then
        match r0 with
        | [] => err None
        | b1 :: r1 => if cont b1 then validation (2 + i) r1 else err (Some 1%nat)
        end
      else if between 224 239 b0 then
        match r0 with
        | [] => err None
        | b1 :: r1 =>
            if (if between 224 224 b0 then between 160 191 b1
                else if between 237 237 b0 then between 128 159 b1 else cont b1)
            then match r1 with
                 | [] => err None
                 | b2 :: r2 => if cont b2 then validation (3 + i) r2 else err (Some 2%nat)
                 end
            else err (Some 1%nat)
        end
      else if between 240 244 b0 then
        match r0 with
        | [] => err None
        | b1 :: r1 =>
            if (if between 240 240 b0 then between 144 191 b1
                else if between 244 244 b0 then between 128 143 b1 else cont b1)
            then match r1 with
                 | [] => err None
                 | b2 :: r2 =>
                     if cont b2
                     then match r2 with
                          | [] => err None
                          | b3 :: r3 => if cont b3 then validation (4 + i) r3 else err (Some 3%nat)
                          end
                     else err (Some 2%nat)
                 end
            else err (Some 1%nat)
        end
      else err (Some 1%nat)
  end.
Definition display_error (e : Utf8Error) : string :=
  match ue_error_len e with
  | Some n => "invalid utf-8 sequence of " +:+ pretty n +:+ " bytes from index " +:+ pretty (ue_valid_up_to e)
  | None => "incomplete utf-8 byte sequence from index " +:+ pretty (ue_valid_up_to e)
  end.
Definition from_utf8 (bs : list byte) : result Utf8Error string :=
  match validation 0 bs with
  | None => Ok (String.string_of_list_byte bs)
  | Some e => Err e
  end.

(** [{:#04x}] of a byte. *)
Definition hex_digit (n : Z) : Ascii.ascii :=
  Ascii.ascii_of_N (Z.to_N (if n <? 10 then 48 + n else 87 + n)).
Definition fmt_hex_byte (b : Z) : string :=
  "0x" +:+ String (hex_digit (b / 16)) (String (hex_digit (b mod 16)) EmptyString).
End Text.

(** * error.rs, alert.rs, internal/message.rs *)

Record DeliveryCodecError := mkDeliveryError { dce_stage : string; dce_message : string }.

Inductive DeliverySeverity := SevInfo | SevWarning | SevCritical.
#[export] Instance severity_eq_dec : EqDecision DeliverySeverity.
Proof. solve_decision. Defined.

Record SandboxProcessMarker := mkProcessMarker {
  spm_pid : Z;
  spm_start_time_ticks : Z;
  spm_executable_name : list byte;
}.
Record SandboxDeliverySource := mkSandboxSource {
  sds_gateway_id : Z;
  sds_sb_id : Z;
  sds_boot_id : list byte;
  sds_process : option SandboxProcessMarker;
}.
Inductive DeliverySource :=
| SrcTrace (trid : string)
| SrcSandbox (source : SandboxDeliverySource).

(** [J] is [serde_json::Map<String, Value>]. *)
Record ForwardAlert (J : Type) := mkForwardAlert {
  fa_detected_at_ms : Z;
  fa_severity : DeliverySeverity;
  fa_source : DeliverySource;
  fa_category : string;
  fa_description : option string;
  fa_extras : J;
}.
Arguments mkForwardAlert {J}.
Arguments fa_detected_at_ms {J}.
Arguments fa_severity {J}.
Arguments fa_source {J}.
Arguments fa_category {J}.
Arguments fa_description {J}.
Arguments fa_extras {J}.

Inductive AtapMessage (J : Type) :=
| AProducerHello (daemon_pid : Z)
| AProducerWelcome
| AProducerReject (code : string)
| AForwardAlert (alert : ForwardAlert J)
| AHeartbeat (nonce : Z)
| AHeartbeatAck (nonce : Z).
Arguments AProducerHello {J}.
Arguments AProducerWelcome {J}.
Arguments AProducerReject {J}.
Arguments AForwardAlert {J}.
Arguments AHeartbeat {J}.
Arguments AHeartbeatAck {J}.

Module Severity.
Definition code (s : DeliverySeverity) : Z :=
  match s with SevInfo => 1 | SevWarning => 2 | SevCritical => 3 end.
Definition from_code (code : Z) : option DeliverySeverity :=
  if code =? 1 then Some SevInfo else if code =? 2 then Some SevWarning
  else if code =? 3 then Some SevCritical else None.
End Severity.

(** [serde_json::to_vec(&extras)], and [serde_json::from_slice::<Value>], which gives
    [None] when the value is not an object. *)
Class ExtrasJson (J : Type) := {
  extras_to_vec : J → result string (list byte);
  value_from_slice : list byte → result string (option J);
}.

(** * internal/frame.rs *)

Inductive AtapMessageCode := CHello | CWelcome | CReject | CForwardAlert | CHeartbeat | CHeartbeatAck.
Record AtapHeader := mkAtapHeader { ah_code : AtapMessageCode; ah_payload_length : Z }.

Definition ATAP_MAGIC : list byte := string_bytes "ATAP".
Definition ATAP_VERSION : Z := 2.
Definition ATAP_HEADER_BYTES : nat := 12.

Module AtapFrame.
Definition code_u8 (c : AtapMessageCode) : Z :=
  match c with
  | CHello => 1 | CWelcome => 2 | CReject => 3 | CForwardAlert => 16 | CHeartbeat => 32 | CHeartbeatAck => 33
  end.
Definition try_from (value : Z) : result DeliveryCodecError AtapMessageCode :=
  if value =? 1 then Ok CHello
  else if value =? 2 then Ok CWelcome
  else if value =? 3 then Ok CReject
  else if value =? 16 then Ok CForwardAlert
  else if value =? 32 then Ok CHeartbeat
  else if value =? 33 then Ok CHeartbeatAck
  else Err (mkDeliveryError "atap_header" ("unknown message code " +:+ Text.fmt_hex_byte value)).

Definition encode (h : AtapHeader) : list byte :=
  ATAP_MAGIC ++ [byte.of_Z ATAP_VERSION] ++ [byte.of_Z (code_u8 (ah_code h))] ++ [zero_byte; zero_byte]
    ++ u32_be (ah_payload_length h).

(** Of a twelve-byte array. *)
Definition decode (bytes : list byte) : result DeliveryCodecError AtapHeader :=
  if negb (bool_decide (take 4 bytes = ATAP_MAGIC)) then Err (mkDeliveryError "atap_header" "invalid ATAP magic")
  else if negb (byte.unsigned (byte_at bytes 4) =? ATAP_VERSION)
  then Err (mkDeliveryError "atap_header" ("unsupported ATAP version " +:+ fmt_u (byte.unsigned (byte_at bytes 4))))
  else if negb (byte.unsigned (byte_at bytes 6) =? 0) || negb (byte.unsigned (byte_at bytes 7) =? 0)
  then Err (mkDeliveryError "atap_header" "reserved header bytes must be zero")
  else code ← try_from (byte.unsigned (byte_at bytes 5));
       Ok (mkAtapHeader code (from_be_bytes (slice 8 12 bytes))).
End AtapFrame.

(** * internal/payload.rs *)

Module PayloadWriter.
Definition err (message : string) : DeliveryCodecError := mkDeliveryError "atap_encode" message.
Definition checked_length (field : string) (length configured_max protocol_max : Z)
    : result DeliveryCodecError Z :=
  if configured_max <? length
  then Err (err (field +:+ " length " +:+ fmt_u length +:+ " exceeds configured limit " +:+ fmt_u configured_max))
  else if protocol_max <? length
  then Err (err (field +:+ " length " +:+ fmt_u length +:+ " exceeds protocol limit " +:+ fmt_u protocol_max))
  else Ok length.
(** The writers return what they append. *)
Definition write_u16_string (field value : string) (configured_max : Z) : result DeliveryCodecError (list byte) :=
  n ← checked_length field (Z.of_nat (String.length value)) configured_max u16_max;
  Ok (u16_be n ++ string_bytes value).
Definition write_required_u16_string (field value : string) (configured_max : Z)
    : result DeliveryCodecError (list byte) :=
  if bool_decide (value = EmptyString) then Err (err (field +:+ " must not be empty"))
  else write_u16_string field value configured_max.
Definition write_u32_bytes (field : string) (value : list byte) : result DeliveryCodecError (list byte) :=
  if Z.of_nat (length value) <=? u32_max then Ok (u32_be (Z.of_nat (length value)) ++ value)
  else Err (err (field +:+ " length does not fit u32")).
End PayloadWriter.

Module PayloadCursor.
Abbreviation AtapM := (ST Cursor (fault DeliveryCodecError)).

Definition err (message : string) : fault DeliveryCodecError := Failed (mkDeliveryError "atap_decode" message).
Definition fail {A} (message : string) : AtapM A := st_fail (err message).
Definition new (payload : list byte) : Cursor := mkCursor payload 0.

Definition take_ (field : string) (n : nat) : AtapM (list byte) := λ c,
  match checked_add_u64 (Z.of_nat (cur_offset c)) (Z.of_nat n) with
  | None => (Err (err (field +:+ " offset overflow")), c)
  | Some end_ =>
      if Z.of_nat (length (cur_bytes c)) <? end_
      then (Err (err (field +:+ " exceeds payload boundary")), c)
      else (Ok (slice (cur_offset c) (Z.to_nat end_) (cur_bytes c)), mkCursor (cur_bytes c) (Z.to_nat end_))
  end.
(** [try_into] of a slice into an array of [n] bytes, with [expect]. *)
Definition expect_array (n : nat) (bs : list byte) : AtapM (list byte) :=
  if bool_decide (length bs = n) then mret bs else st_fail Panicked.
Definition read_u8 (field : string) : AtapM Z :=
  bs ← take_ field 1;
  match bs with
  | b :: _ => mret (byte.unsigned b)
  | [] => st_fail Panicked
  end.
Definition read_u32 (field : string) : AtapM Z :=
  bs ← take_ field 4; bs ← expect_array 4 bs; mret (from_be_bytes bs).
Definition read_u64 (field : string) : AtapM Z :=
  bs ← take_ field 8; bs ← expect_array 8 bs; mret (from_be_bytes bs).
Definition read_fixed (n : nat) (field : string) : AtapM (list byte) :=
  bs ← take_ field n;
  if bool_decide (length bs = n) then mret bs else fail ("invalid " +:+ field +:+ " size").
Definition read_u16_string (field : string) (configured_max : Z) : AtapM string :=
  bs ← take_ field 2; bs ← expect_array 2 bs;
  let length := from_be_bytes bs in
  if configured_max <? length
  then fail (field +:+ " length " +:+ fmt_u length +:+ " exceeds configured limit " +:+ fmt_u configured_max)
  else
    bytes ← take_ field (Z.to_nat length);
    match Text.from_utf8 bytes with
    | Ok s => mret s
    | Err e => fail (field +:+ " is not UTF-8: " +:+ Text.display_error e)
    end.
Definition read_required_u16_string (field : string) (configured_max : Z) : AtapM string :=
  value ← read_u16_string field configured_max;
  if bool_decide (value = EmptyString) then fail (field +:+ " must not be empty") else mret value.
Definition read_u32_bytes (field : string) (configured_max : Z) : AtapM (list byte) :=
  length ← read_u32 field;
  if configured_max <? length
  then fail (field +:+ " length " +:+ fmt_u length +:+ " exceeds configured limit " +:+ fmt_u configured_max)
  else take_ field (Z.to_nat length).
Definition finish : AtapM () := λ c,
  if bool_decide (cur_offset c = length (cur_bytes c)) then (Ok (), c)
  else (Err (err ("payload contains " +:+ pretty (length (cur_bytes c) - cur_offset c)%nat +:+ " trailing bytes")), c).
End PayloadCursor.

(** * internal/codec.rs *)

Record AtapLimits := mkAtapLimits {
  al_max_frame_bytes : Z;
  al_trace_id_max_bytes : Z;
  al_category_max_bytes : Z;
  al_description_max_bytes : Z;
  al_extras_max_bytes : Z;
}.
Definition MIN_13_DIGIT_TIMESTAMP : Z := 1000000000000.
Definition MAX_13_DIGIT_TIMESTAMP : Z := 9999999999999.
Definition SOURCE_TRACE : Z := 1.
Definition SOURCE_SANDBOX : Z := 2.

Module Limits.
(** The loop of [validate]. *)
Fixpoint check_fields (fields : list (string * Z * Z)) : result DeliveryCodecError () :=
  match fields with
  | [] => Ok ()
  | (name, value, protocol_max) :: rest =>
      if (value =? 0) || (protocol_max <? value)
      then Err (mkDeliveryError "atap_limits" (name +:+ " must be between 1 and " +:+ fmt_u protocol_max))
      else check_fields rest
  end.
Definition validate (l : AtapLimits) : result DeliveryCodecError () :=
  if al_max_frame_bytes l <=? Z.of_nat ATAP_HEADER_BYTES
  then Err (mkDeliveryError "atap_limits" "max frame bytes must exceed the ATAP header size")
  else check_fields [("trace_id_max_bytes", al_trace_id_max_bytes l, u16_max);
                     ("category_max_bytes", al_category_max_bytes l, u16_max);
                     ("description_max_bytes", al_description_max_bytes l, u16_max);
                     ("extras_max_bytes", al_extras_max_bytes l, u32_max)].
Definition new (max_frame trace_id category description extras : Z) : result DeliveryCodecError AtapLimits :=
  let limits := mkAtapLimits max_frame trace_id category description extras in
  _ ← validate limits; Ok limits.
End Limits.

Module Atap.
Import PayloadCursor.

Definition validate_timestamp (value : Z) (stage : string) : result DeliveryCodecError () :=
  if (MIN_13_DIGIT_TIMESTAMP <=? value) && (value <=? MAX_13_DIGIT_TIMESTAMP) then Ok ()
  else Err (mkDeliveryError stage "detected timestamp must contain 13 decimal digits").
Definition validate_sandbox_source (s : SandboxDeliverySource) (stage : string) : result DeliveryCodecError () :=
  if (sds_gateway_id s =? 0) || (sds_sb_id s =? 0)
  then Err (mkDeliveryError stage "sandbox gateway ID and sandbox ID must not be zero")
  else if bool_decide (sds_boot_id s = replicate 16 zero_byte)
  then Err (mkDeliveryError stage "sandbox boot ID must not be zero")
  else if match sds_process s with
          | Some p => (spm_pid p =? 0) || (spm_start_time_ticks p =? 0)
          | None => false
          end
  then Err (mkDeliveryError stage "sandbox process PID and start ticks must not be zero")
  else Ok ().

Section codec.
Context {J : Type} `{!ExtrasJson J} (limits : AtapLimits).

Definition frame_length (header : list byte) : result DeliveryCodecError Z :=
  if negb (bool_decide (length header = ATAP_HEADER_BYTES))
  then Err (mkDeliveryError "atap_header" "ATAP header must contain exactly 12 bytes")
  else
    decoded ← AtapFrame.decode header;
    n ← ok_or (mkDeliveryError "atap_header" "frame length overflow")
          (checked_add_u64 (Z.of_nat ATAP_HEADER_BYTES) (ah_payload_length decoded));
    if al_max_frame_bytes limits <? n
    then Err (mkDeliveryError "atap_header" ("frame length " +:+ fmt_u n +:+ " exceeds configured limit "
                +:+ fmt_u (al_max_frame_bytes limits)))
    else Ok n.

Definition encode_frame (code : AtapMessageCode) (payload : list byte) : result DeliveryCodecError (list byte) :=
  let len := Z.of_nat (length payload) in
  if u32_max <? len then Err (mkDeliveryError "atap_encode" "payload length does not fit u32")
  else
    n ← ok_or (mkDeliveryError "atap_encode" "frame length overflow")
          (checked_add_u64 (Z.of_nat ATAP_HEADER_BYTES) len);
    if al_max_frame_bytes limits <? n
    then Err (mkDeliveryError "atap_encode" ("frame length " +:+ fmt_u n +:+ " exceeds configured limit "
                +:+ fmt_u (al_max_frame_bytes limits)))
    else Ok (AtapFrame.encode (mkAtapHeader code len) ++ payload).

Definition encode_source (source : DeliverySource) : result DeliveryCodecError (list byte) :=
  match source with
  | SrcTrace trid =>
      t ← PayloadWriter.write_required_u16_string "trace ID" trid (al_trace_id_max_bytes limits);
      Ok (u8_be SOURCE_TRACE ++ t)
  | SrcSandbox s =>
      _ ← validate_sandbox_source s "atap_encode";
      Ok (u8_be SOURCE_SANDBOX ++ u32_be (sds_gateway_id s) ++ u32_be (sds_sb_id s) ++ sds_boot_id s
            ++ match sds_process s with
               | Some p => u8_be 1 ++ u32_be (spm_pid p) ++ u64_be (spm_start_time_ticks p) ++ spm_executable_name p
               | None => u8_be 0
               end)
  end.
Definition encode_description (description : option string) : result DeliveryCodecError (list byte) :=
  match description with
  | Some d =>
      t ← PayloadWriter.write_u16_string "description" d (al_description_max_bytes limits);
      Ok (u8_be 1 ++ t)
  | None => Ok (u8_be 0)
  end.
(** The writes of [encode_alert], once the extras are serialized. *)
Definition encode_fields (alert : ForwardAlert J) (extras : list byte) : result DeliveryCodecError (list byte) :=
  source ← encode_source (fa_source alert);
  category ← PayloadWriter.write_required_u16_string "category" (fa_category alert) (al_category_max_bytes limits);
  description ← encode_description (fa_description alert);
  tail ← PayloadWriter.write_u32_bytes "extras" extras;
  Ok (u64_be (fa_detected_at_ms alert) ++ u8_be (Severity.code (fa_severity alert)) ++ source ++ category
        ++ description ++ tail).
Definition encode_alert (alert : ForwardAlert J) : result DeliveryCodecError (list byte) :=
  _ ← validate_timestamp (fa_detected_at_ms alert) "atap_encode";
  extras ← map_err (λ e, mkDeliveryError "atap_encode" ("serialize extras JSON: " +:+ e))
             (extras_to_vec (fa_extras alert));
  if al_extras_max_bytes limits <? Z.of_nat (length extras)
  then Err (mkDeliveryError "atap_encode" "extras exceeds configured byte limit")
  else encode_fields alert extras.

(** [AtapCodec::encode]. *)
Definition encode (message : AtapMessage J) : result DeliveryCodecError (list byte) :=
  '(code, payload) ←
    match message with
    | AProducerHello pid =>
        if pid =? 0 then Err (mkDeliveryError "atap_encode" "daemon PID must not be zero")
        else Ok (CHello, u32_be pid)
    | AProducerWelcome => Ok (CWelcome, [])
    | AProducerReject code =>
        payload ← PayloadWriter.write_required_u16_string "reject code" code u16_max;
        Ok (CReject, payload)
    | AForwardAlert alert => payload ← encode_alert alert; Ok (CForwardAlert, payload)
    | AHeartbeat nonce => Ok (CHeartbeat, u64_be nonce)
    | AHeartbeatAck nonce => Ok (CHeartbeatAck, u64_be nonce)
    end;
  encode_frame code payload.

Definition decode_process : AtapM (option SandboxProcessMarker) :=
  marker ← read_u8 "sandbox process presence";
  if marker =? 0 then mret None
  else if marker =? 1 then
    pid ← read_u32 "sandbox process PID";
    ticks ← read_u64 "sandbox process start ticks";
    name ← read_fixed 16 "sandbox executable name";
    mret (Some (mkProcessMarker pid ticks name))
  else fail ("invalid sandbox process presence marker " +:+ fmt_u marker).
Definition decode_source : AtapM DeliverySource :=
  kind ← read_u8 "source kind";
  if kind =? SOURCE_TRACE then
    trid ← read_required_u16_string "trace ID" (al_trace_id_max_bytes limits); mret (SrcTrace trid)
  else if kind =? SOURCE_SANDBOX then
    gateway_id ← read_u32 "sandbox gateway ID";
    sb_id ← read_u32 "sandbox ID";
    boot_id ← read_fixed 16 "sandbox boot ID";
    process ← decode_process;
    let source := mkSandboxSource gateway_id sb_id boot_id process in
    _ ← st_lift (map_err Failed (validate_sandbox_source source "atap_decode"));
    mret (SrcSandbox source)
  else fail ("unknown alert source kind " +:+ fmt_u kind).
Definition decode_description : AtapM (option string) :=
  marker ← read_u8 "description presence";
  if marker =? 0 then mret None
  else if marker =? 1 then
    d ← read_u16_string "description" (al_description_max_bytes limits); mret (Some d)
  else fail ("invalid description presence marker " +:+ fmt_u marker).
(** After the reads: the JSON of the extras. *)
Definition decode_extras (bytes : list byte) : result (fault DeliveryCodecError) J :=
  value ← map_err (λ e, err ("decode extras JSON: " +:+ e)) (value_from_slice bytes);
  ok_or (err "extras JSON must be an object") value.
Definition decode_alert : AtapM (ForwardAlert J) :=
  at_ms ← read_u64 "detected timestamp";
  _ ← st_lift (map_err Failed (validate_timestamp at_ms "atap_decode"));
  severity_code ← read_u8 "severity";
  severity ← st_lift (ok_or (err ("unknown delivery severity code " +:+ fmt_u severity_code))
                        (Severity.from_code severity_code));
  source ← decode_source;
  category ← read_required_u16_string "category" (al_category_max_bytes limits);
  description ← decode_description;
  extras_bytes ← read_u32_bytes "extras" (al_extras_max_bytes limits);
  _ ← finish;
  extras ← st_lift (decode_extras extras_bytes);
  mret (mkForwardAlert at_ms severity source category description extras).
Definition decode_nonce : AtapM Z := nonce ← read_u64 "heartbeat nonce"; _ ← finish; mret nonce.
Definition require_empty_payload (payload : list byte) (message : string) : result (fault DeliveryCodecError) () :=
  if bool_decide (payload = []) then Ok () else Err (err (message +:+ " payload must be empty")).

Definition run {A} (m : AtapM A) (payload : list byte) : result (fault DeliveryCodecError) A :=
  (m (PayloadCursor.new payload)).1.
Definition decode_payload (code : AtapMessageCode) (payload : list byte)
    : result (fault DeliveryCodecError) (AtapMessage J) :=
  match code with
  | CHello =>
      run (pid ← read_u32 "daemon PID"; _ ← finish;
           if pid =? 0 then fail "daemon PID must not be zero" else mret (AProducerHello pid)) payload
  | CWelcome => _ ← require_empty_payload payload "ProducerWelcome"; Ok AProducerWelcome
  | CReject =>
      run (code ← read_required_u16_string "reject code" u16_max; _ ← finish; mret (AProducerReject code)) payload
  | CForwardAlert => AForwardAlert <$> run decode_alert payload
  | CHeartbeat => AHeartbeat <$> run decode_nonce payload
  | CHeartbeatAck => AHeartbeatAck <$> run decode_nonce payload
  end.

(** [AtapCodec::decode]; the header is decoded twice, and can then not fail. *)
Definition decode (frame : list byte) : result (fault DeliveryCodecError) (AtapMessage J) :=
  if bool_decide (length frame < ATAP_HEADER_BYTES)%nat
  then Err (err "ATAP frame is shorter than its header")
  else
    n ← map_err Failed (frame_length (take ATAP_HEADER_BYTES frame));
    if negb (Z.of_nat (length frame) =? n)
    then Err (err ("ATAP frame length mismatch: expected " +:+ fmt_u n +:+ ", received "
                     +:+ fmt_u (Z.of_nat (length frame))))
    else
      header ← map_err Failed (AtapFrame.decode (take ATAP_HEADER_BYTES frame));
      decode_payload (ah_code header) (drop ATAP_HEADER_BYTES frame).
End codec.
End Atap.

(** * subscriber/codec.rs *)

(** [serde_json::to_vec] and [serde_json::from_slice] at a type. *)
Class Serialize (T : Type) := to_vec : T → result string (list byte).
Class Deserialize (T : Type) := from_slice : list byte → result string T.

Definition JSON_FRAME_HEADER_BYTES : nat := 4.
Record JsonFrameCodec := mkJsonCodec { jc_max_payload_bytes : Z }.

Module JsonFrame.
Definition err (message : string) : DeliveryCodecError := mkDeliveryError "json_frame_decode" message.
Definition too_long (stage : string) (length limit : Z) : DeliveryCodecError :=
  mkDeliveryError stage ("JSON payload length " +:+ fmt_u length +:+ " exceeds configured limit " +:+ fmt_u limit).
Definition new (max_payload_bytes : Z) : result DeliveryCodecError JsonFrameCodec :=
  if (max_payload_bytes =? 0) || (u32_max <? max_payload_bytes)
  then Err (mkDeliveryError "json_frame_limits" ("max payload bytes must be between 1 and " +:+ fmt_u u32_max))
  else Ok (mkJsonCodec max_payload_bytes).
Definition encode `{Serialize T} (c : JsonFrameCodec) (message : T) : result DeliveryCodecError (list byte) :=
  payload ← map_err (λ e, mkDeliveryError "json_frame_encode" ("serialize JSON: " +:+ e)) (to_vec message);
  let len := Z.of_nat (length payload) in
  if jc_max_payload_bytes c <? len then Err (too_long "json_frame_encode" len (jc_max_payload_bytes c))
  else if u32_max <? len then Err (mkDeliveryError "json_frame_encode" "JSON payload length does not fit u32")
  else Ok (u32_be len ++ payload).
Definition decode `{Deserialize T} (c : JsonFrameCodec) (payload : list byte) : result DeliveryCodecError T :=
  if jc_max_payload_bytes c <? Z.of_nat (length payload)
  then Err (too_long "json_frame_decode" (Z.of_nat (length payload)) (jc_max_payload_bytes c))
  else map_err (λ e, err ("decode JSON: " +:+ e)) (from_slice payload).
Definition payload_length (c : JsonFrameCodec) (header : list byte) : result DeliveryCodecError Z :=
  if negb (bool_decide (length header = JSON_FRAME_HEADER_BYTES))
  then Err (err "JSON frame header must contain exactly four bytes")
  else
    let len := from_be_bytes header in
    if jc_max_payload_bytes c <? len then Err (too_long "json_frame_decode" len (jc_max_payload_bytes c))
    else Ok len.
End JsonFrame.

(** * The stream decoders *)

(** A frame format: how long its header is, how long a frame with a header is, and the
    message in a frame. *)
Record FrameFormat (M : Type) := mkFormat {
  ff_header : nat;
  ff_length : list byte → result DeliveryCodecError Z;
  ff_decode : list byte → result (fault DeliveryCodecError) M;
}.
Arguments mkFormat {M}.
Arguments ff_header {M}.
Arguments ff_length {M}.
Arguments ff_decode {M}.

Definition atap_format `{ExtrasJson J} (limits : AtapLimits) : FrameFormat (AtapMessage J) :=
  mkFormat ATAP_HEADER_BYTES (Atap.frame_length limits) (Atap.decode limits).
Definition json_format `{Deserialize T} (c : JsonFrameCodec) : FrameFormat T :=
  mkFormat JSON_FRAME_HEADER_BYTES
    (λ header,
       n ← JsonFrame.payload_length c header;
       ok_or (JsonFrame.err "JSON frame length overflow") (checked_add_u64 (Z.of_nat JSON_FRAME_HEADER_BYTES) n))
    (λ frame, map_err Failed (JsonFrame.decode c (drop JSON_FRAME_HEADER_BYTES frame))).

(** [AtapStreamDecoder] and [JsonFrameDecoder]: the buffer, [push] and
    [compact_if_needed] are those of the sandbox links ([Stream]); [next_message] and
    [next] differ in the format. *)
Module FramedStream.
Section framed.
Context {M : Type} (F : FrameFormat M).

Definition next : ST FrameDecoder (fault DeliveryCodecError) (option M) := λ d,
  if bool_decide (length (fd_buffer d) < fd_read_offset d)%nat then (Err Panicked, d)
  else
    let available := drop (fd_read_offset d) (fd_buffer d) in
    if bool_decide (length available < ff_header F)%nat then (Ok None, d)
    else
      match ff_length F (take (ff_header F) available) with
      | Err e => (Err (Failed e), d)
      | Ok n =>
          if Z.of_nat (length available) <? n then (Ok None, d)
          else
            match ff_decode F (take (Z.to_nat n) available) with
            | Err e => (Err e, d)
            | Ok m => (Ok (Some m), mkDecoder (fd_buffer d) (fd_read_offset d + Z.to_nat n))
            end
      end.
(** The readers' loop: messages until the decoder has none, or the error that stops it. *)
Fixpoint drain_fuel (fuel : nat) (d : FrameDecoder) : list M * option (fault DeliveryCodecError) * FrameDecoder :=
  match fuel with
  | O => ([], None, d)
  | S fuel' =>
      match next d with
      | (Err e, d') => ([], Some e, d')
      | (Ok None, d') => ([], None, d')
      | (Ok (Some m), d') => let '(ms, e, d'') := drain_fuel fuel' d' in (m :: ms, e, d'')
      end
  end.
Definition drain (d : FrameDecoder) := drain_fuel (S (length (fd_buffer d))) d.
(** A conversation: after every read, with the capacity the buffer then has, drain. *)
Fixpoint receive (chunks : list (nat * list byte)) (d : FrameDecoder)
    : list M * option (fault DeliveryCodecError) * FrameDecoder :=
  match chunks with
  | [] => ([], None, d)
  | (capacity, bytes) :: chunks' =>
      match drain (Stream.push capacity bytes d) with
      | (ms, Some e, d') => (ms, Some e, d')
      | (ms, None, d') => let '(ms', e, d'') := receive chunks' d' in (ms ++ ms', e, d'')
      end
  end.
(** [buffered_bytes]. *)
Definition buffered_bytes (d : FrameDecoder) : nat := length (fd_buffer d) - fd_read_offset d.
End framed.
End FramedStream.
