(* ===== verification/AlertCodecFacts.v ===== *)
(** What the alert wire contract guarantees: texts, ATAP frames in both directions, and the
    stream decoders. *)
From stdpp Require Import prelude gmap strings pretty.
From Stdlib Require Import ZArith Lia ZifyBool.
From coqutil Require Import Byte.
From S2P Require Import Prelude Bytes Wire Utf8 SandboxObservation BatchCodec AlertCodec.

Open Scope Z_scope.

(** * Texts *)

Module TextFacts.
Import Text.

Ltac on_range :=
  repeat match goal with
  | |- context [if between ?lo ?hi ?b then _ else _] => destruct (between lo hi b) eqn:?
  | |- context [between ?lo ?hi ?b && _] => destruct (between lo hi b) eqn:?; cbn [andb orb]
  | |- context [cont ?b] => destruct (cont b) eqn:?; cbn [andb orb]
  end.
Ltac range_conflict := exfalso; unfold cont, between in *; lia.

Lemma validation_spec bs i : validation i bs = None ↔ utf8_valid bs = true.
Proof.
  remember (length bs) as n eqn:En. revert bs i En.
  induction n as [n IH] using lt_wf_ind. intros bs i ->.
  assert (∀ r j, (length r < length bs)%nat → validation j r = None ↔ utf8_valid r = true) as Hr
    by (intros r j Hl; by apply (IH (length r))).
  clear IH. destruct bs as [|b0 r0]; [done|]. cbn [validation utf8_valid].
  destruct (between 0 127 b0) eqn:E0; [apply Hr; cbn; lia|].
  destruct r0 as [|b1 r1]; [by on_range|].
  destruct (between 194 223 b0) eqn:E1.
  { destruct (cont b1); [apply Hr; cbn; lia|done]. }
  destruct r1 as [|b2 r2]; [by on_range|].
  destruct (between 224 239 b0) eqn:E2.
  { destruct (between 224 224 b0) eqn:E3.
    { destruct (between 160 191 b1); [|done]. destruct (cont b2); [apply Hr; cbn; lia|done]. }
    destruct (between 237 237 b0) eqn:E4.
    { destruct (between 128 159 b1); [|done]. destruct (cont b2); [apply Hr; cbn; lia|done]. }
    destruct (between 225 239 b0) eqn:E5; [|range_conflict].
    destruct (cont b1); [|done]. destruct (cont b2); [apply Hr; cbn; lia|done]. }
  assert (between 224 224 b0 = false) as -> by (unfold between in *; lia).
  assert (between 237 237 b0 = false) as -> by (unfold between in *; lia).
  assert (between 225 239 b0 = false) as -> by (unfold between in *; lia).
  destruct r2 as [|b3 r3]; [by on_range|].
  destruct (between 240 244 b0) eqn:E6.
  - replace (between 240 240 b0 && between 144 191 b1 || between 241 243 b0 && cont b1
        || between 244 244 b0 && between 128 143 b1)
      with (if between 240 240 b0 then between 144 191 b1
            else if between 244 244 b0 then between 128 143 b1 else cont b1)
      by (destruct (between 240 240 b0) eqn:?; [|destruct (between 244 244 b0) eqn:?]; unfold cont, between in *; lia).
    destruct (if between 240 240 b0 then _ else _); [|done]. destruct (cont b2); [|done].
    destruct (cont b3); [apply Hr; cbn; lia|done].
  - replace (between 240 240 b0 && between 144 191 b1 || between 241 243 b0 && cont b1
        || between 244 244 b0 && between 128 143 b1) with false by (unfold cont, between in *; lia). done.
Qed.

(** Exactly the valid texts are accepted, as they are. *)
Definition text (s : string) : Prop := utf8_valid (string_bytes s) = true.
Lemma string_bytes_length s : length (string_bytes s) = String.length s.
Proof.
  unfold string_bytes, String.list_byte_of_string. rewrite List.length_map.
  induction s as [|a s IH]; [done|]. cbn. by rewrite IH.
Qed.
Lemma from_utf8_text s : text s → from_utf8 (string_bytes s) = Ok s.
Proof.
  intros Hs. unfold from_utf8. rewrite (proj2 (validation_spec _ _) Hs).
  f_equal. apply String.string_of_list_byte_of_string.
Qed.
Lemma from_utf8_Ok bs s : from_utf8 bs = Ok s → text s ∧ bs = string_bytes s.
Proof.
  unfold from_utf8. destruct (validation 0 bs) eqn:E; [done|]. intros [= <-].
  unfold text, string_bytes. rewrite String.list_byte_of_string_of_list_byte. split; [|done].
  by apply (validation_spec bs 0).
Qed.
End TextFacts.

(** * Frames *)

Module AtapFacts.
Import PayloadCursor Atap CodecFacts TextFacts.

Lemma u16_be_read bs : length bs = 2%nat → u16_be (from_be_bytes bs) = bs.
Proof. apply to_from_be_bytes. Qed.
Lemma u32_be_read bs : length bs = 4%nat → u32_be (from_be_bytes bs) = bs.
Proof. apply to_from_be_bytes. Qed.
Lemma u64_be_read bs : length bs = 8%nat → u64_be (from_be_bytes bs) = bs.
Proof. apply to_from_be_bytes. Qed.

Lemma code_spec z c : AtapFrame.try_from z = Ok c ↔ z = AtapFrame.code_u8 c.
Proof.
  unfold AtapFrame.try_from. split; [|intros ->; by destruct c].
  repeat match goal with
  | |- context [z =? ?n] => destruct (Z.eqb_spec z n); [intros [= <-]; done|]
  end. done.
Qed.
Lemma atap_code_range c : in_u8 (AtapFrame.code_u8 c).
Proof. by destruct c. Qed.

Lemma header_bytes_length h : length (AtapFrame.encode h) = ATAP_HEADER_BYTES.
Proof. unfold AtapFrame.encode. rewrite !length_app, length_u32_be. done. Qed.

(** The twelve bytes of a header. *)
Lemma atap_header_parts (v c r1 r2 : byte) (l : list byte) :
  length l = 4%nat →
  let bs := ATAP_MAGIC ++ [v] ++ [c] ++ [r1; r2] ++ l in
  take 4 bs = ATAP_MAGIC ∧ byte_at bs 4 = v ∧ byte_at bs 5 = c ∧ byte_at bs 6 = r1 ∧ byte_at bs 7 = r2 ∧
  slice 8 12 bs = l.
Proof. intros Hl. by destruct l as [|l0 [|l1 [|l2 [|l3 [|]]]]]. Qed.

Lemma atap_header_spec bs h :
  length bs = ATAP_HEADER_BYTES →
  AtapFrame.decode bs = Ok h ↔ bs = AtapFrame.encode h ∧ in_u32 (ah_payload_length h).
Proof.
  intros Hlen. split.
  - unfold AtapFrame.decode. destruct (bool_decide (take 4 bs = ATAP_MAGIC)) eqn:Em; [|done].
    apply bool_decide_eq_true in Em. cbn [negb].
    assert (∃ v c r1 r2 l, bs = ATAP_MAGIC ++ [v] ++ [c] ++ [r1; r2] ++ l ∧ length l = 4%nat)
      as (v & c & r1 & r2 & l & -> & Hl).
    { unfold ATAP_HEADER_BYTES in Hlen. rewrite <-(take_drop 4 bs), Em.
      assert (length (drop 4 bs) = 8%nat) as Hd by (rewrite length_drop; lia).
      destruct (drop 4 bs) as [|v [|c [|r1 [|r2 l]]]]; try done.
      exists v, c, r1, r2, l. split; [done|]. cbn in Hd. lia. }
    destruct (atap_header_parts v c r1 r2 l Hl) as (_ & -> & -> & -> & -> & ->).
    destruct (Z.eqb_spec (byte.unsigned v) ATAP_VERSION) as [Ev|]; [|done].
    destruct (Z.eqb_spec (byte.unsigned r1) 0) as [E1|]; [|done].
    destruct (Z.eqb_spec (byte.unsigned r2) 0) as [E2|]; [|done]. cbn [negb orb].
    munfold. destruct (AtapFrame.try_from _) as [code|] eqn:Ec; [|done]. apply code_spec in Ec.
    intros [= <-]. cbn [ah_payload_length]. split.
    + unfold AtapFrame.encode. cbn [ah_code ah_payload_length]. unfold u32_be.
      rewrite to_from_be_bytes by done.
      by rewrite (WireFacts.byte_of_unsigned v _ Ev), (WireFacts.byte_of_unsigned c _ Ec),
        <-(WireFacts.byte_of_unsigned r1 _ E1), <-(WireFacts.byte_of_unsigned r2 _ E2).
    + pose proof (from_be_bytes_bound l) as Hb. rewrite Hl in Hb. unfold in_u32, u32_max. cbn in Hb. lia.
  - intros [-> Hn]. unfold AtapFrame.decode, AtapFrame.encode. destruct h as [c n]. cbn [ah_code ah_payload_length] in *.
    destruct (atap_header_parts (byte.of_Z ATAP_VERSION) (byte.of_Z (AtapFrame.code_u8 c)) zero_byte zero_byte
      (u32_be n) (length_u32_be n)) as (-> & -> & -> & -> & -> & ->).
    rewrite bool_decide_true by done. cbn [negb]. rewrite !WireFacts.byte_of_Z_small by (apply atap_code_range || done).
    cbn. assert (AtapFrame.try_from (AtapFrame.code_u8 c) = Ok c) as -> by by apply code_spec.
    cbn. by rewrite from_u32_be.
Qed.

Lemma atap_header_inj h h' :
  AtapFrame.encode h = AtapFrame.encode h' → in_u32 (ah_payload_length h) → in_u32 (ah_payload_length h') → h = h'.
Proof.
  intros E Hu Hu'. pose proof (header_bytes_length h) as Hl.
  pose proof (proj2 (atap_header_spec _ h Hl) (conj eq_refl Hu)) as H1.
  pose proof (proj2 (atap_header_spec _ h' Hl) (conj E Hu')) as H2. congruence.
Qed.

Section frames.
Context {J : Type} `{!ExtrasJson J} (limits : AtapLimits).

Definition frame_of (code : AtapMessageCode) (payload : list byte) : list byte :=
  AtapFrame.encode (mkAtapHeader code (Z.of_nat (length payload))) ++ payload.
(** A frame the limits let through. *)
Definition fits (payload : list byte) : Prop :=
  Z.of_nat (length payload) ≤ u32_max ∧
  Z.of_nat ATAP_HEADER_BYTES + Z.of_nat (length payload) ≤ al_max_frame_bytes limits.

Lemma encode_frame_Ok code payload frame :
  encode_frame limits code payload = Ok frame ↔ fits payload ∧ frame = frame_of code payload.
Proof.
  unfold encode_frame, fits. destruct (Z.ltb_spec u32_max (Z.of_nat (length payload))); [split; [done|lia]|].
  unfold checked_add_u64. rewrite decide_True by (unfold u32_max, u64_max, ATAP_HEADER_BYTES in *; lia).
  cbn [ok_or mbind result_bind].
  destruct (Z.ltb_spec (al_max_frame_bytes limits) (Z.of_nat ATAP_HEADER_BYTES + Z.of_nat (length payload))).
  - split; [done|lia].
  - split; [intros [= <-]; splits; [lia|lia|done]|by intros [_ ->]].
Qed.
Lemma frame_length_Ok header n :
  length header = ATAP_HEADER_BYTES →
  frame_length limits header = Ok n ↔
    ∃ h, header = AtapFrame.encode h ∧ in_u32 (ah_payload_length h) ∧
         n = Z.of_nat ATAP_HEADER_BYTES + ah_payload_length h ∧ n ≤ al_max_frame_bytes limits.
Proof.
  intros Hl. unfold frame_length. rewrite bool_decide_true by done. cbn [negb]. munfold.
  destruct (AtapFrame.decode header) as [h|e] eqn:Ed.
  - apply atap_header_spec in Ed as [-> Hu]; [|done]. unfold checked_add_u64.
    rewrite decide_True by (unfold in_u32, u32_max, u64_max, ATAP_HEADER_BYTES in *; lia).
    destruct (Z.ltb_spec (al_max_frame_bytes limits) (Z.of_nat ATAP_HEADER_BYTES + ah_payload_length h)); split.
    + done.
    + intros (h' & E & Hu' & -> & Hle). apply atap_header_inj in E as ->; [lia|done..].
    + intros [= <-]. by exists h.
    + intros (h' & E & Hu' & -> & Hle). by apply atap_header_inj in E as ->.
  - split; [done|]. intros (h & -> & Hu & _).
    by rewrite (proj2 (atap_header_spec _ h Hl)) in Ed.
Qed.

(** ** Reading back what was written *)

(** The well-typed values of a message. *)
Definition process_marker_wf (p : SandboxProcessMarker) : Prop :=
  in_u32 (spm_pid p) ∧ in_u64 (spm_start_time_ticks p) ∧ SandboxObservation.array 16 (spm_executable_name p).
Definition source_wf (s : DeliverySource) : Prop :=
  match s with
  | SrcTrace trid => text trid
  | SrcSandbox s => in_u32 (sds_gateway_id s) ∧ in_u32 (sds_sb_id s) ∧ SandboxObservation.array 16 (sds_boot_id s) ∧
      from_option process_marker_wf True (sds_process s)
  end.
Definition alert_wf (a : ForwardAlert J) : Prop :=
  source_wf (fa_source a) ∧ text (fa_category a) ∧ from_option text True (fa_description a).
Definition message_wf (m : AtapMessage J) : Prop :=
  match m with
  | AProducerHello pid => in_u32 pid
  | AProducerWelcome => True
  | AProducerReject code => text code
  | AForwardAlert a => alert_wf a
  | AHeartbeat nonce | AHeartbeatAck nonce => in_u64 nonce
  end.

Lemma reads_taken field bs : reads (take_ field (length bs)) bs bs.
Proof.
  intros c rest (Ha & Hle & Hs & Hat)%taken. unfold take_. rewrite Ha.
  destruct (Z.ltb_spec (Z.of_nat (length (cur_bytes c))) (Z.of_nat (cur_offset c) + Z.of_nat (length bs))); [lia|].
  rewrite Hs. eauto.
Qed.
Lemma reads_expect n bs : length bs = n → reads (expect_array n bs) [] bs.
Proof. intros Hn. unfold expect_array. rewrite bool_decide_true by done. apply reads_ret. Qed.
Lemma reads_sized {A} field n bs (k : list byte → AtapM A) v w :
  length bs = n → reads (k bs) w v → reads (take_ field n ≫= k) (bs ++ w) v.
Proof. intros <- Hk. eapply reads_bind; [apply reads_taken|done]. Qed.
Lemma reads_read_u8 field z : in_u8 z → reads (read_u8 field) (u8_be z) z.
Proof.
  intros Hz. rewrite <-(app_nil_r (u8_be z)). eapply reads_sized; [apply length_u8_be|].
  assert (u8_be z = [byte.of_Z z]) as -> by done. rewrite WireFacts.byte_of_Z_small by done. apply reads_ret.
Qed.
Lemma reads_number field n z (enc : list byte) :
  length enc = n → from_be_bytes enc = z →
  reads (bs ← take_ field n; bs ← expect_array n bs; mret (from_be_bytes bs)) enc z.
Proof.
  intros Hn <-. rewrite <-(app_nil_r enc) at 1. eapply reads_sized; [done|].
  eapply reads_last; [by apply reads_expect|]. apply reads_ret.
Qed.
Lemma reads_read_u32 field z : in_u32 z → reads (read_u32 field) (u32_be z) z.
Proof. intros. apply reads_number; [apply length_u32_be|by apply from_u32_be]. Qed.
Lemma reads_read_u64 field z : in_u64 z → reads (read_u64 field) (u64_be z) z.
Proof. intros. apply reads_number; [apply length_u64_be|by apply from_u64_be]. Qed.
Lemma reads_read_fixed field n bs : SandboxObservation.array n bs → reads (read_fixed n field) bs bs.
Proof.
  intros Hn. rewrite <-(app_nil_r bs) at 1. eapply reads_sized; [done|].
  rewrite bool_decide_true by done. apply reads_ret.
Qed.
Lemma write_u16_string_Ok field value max bs :
  PayloadWriter.write_u16_string field value max = Ok bs ↔
    Z.of_nat (String.length value) ≤ max ∧ Z.of_nat (String.length value) ≤ u16_max ∧
    bs = u16_be (Z.of_nat (String.length value)) ++ string_bytes value.
Proof.
  unfold PayloadWriter.write_u16_string, PayloadWriter.checked_length.
  destruct (Z.ltb_spec max (Z.of_nat (String.length value))); [split; [done|lia]|].
  destruct (Z.ltb_spec u16_max (Z.of_nat (String.length value))); [split; [done|lia]|].
  cbn. split; [by intros [= <-]|by intros (_ & _ & ->)].
Qed.
Lemma reads_u16_string field field' value max bs :
  text value → PayloadWriter.write_u16_string field' value max = Ok bs → reads (read_u16_string field max) bs value.
Proof.
  intros Ht (Hmax & Hu & ->)%write_u16_string_Ok. eapply reads_sized; [apply length_u16_be|].
  eapply (reads_bind _ _ [] (string_bytes value)); [apply reads_expect, length_u16_be|]. cbv zeta. rewrite from_u16_be by (split; lia).
  destruct (Z.ltb_spec max (Z.of_nat (String.length value))); [lia|].
  rewrite Nat2Z.id. rewrite <-(app_nil_r (string_bytes value)).
  eapply reads_sized; [apply string_bytes_length|]. rewrite from_utf8_text by done. apply reads_ret.
Qed.
Lemma reads_required field field' value max bs :
  text value → PayloadWriter.write_required_u16_string field' value max = Ok bs →
  reads (read_required_u16_string field max) bs value.
Proof.
  unfold PayloadWriter.write_required_u16_string. case_bool_decide as Hne; [done|]. intros Ht Hw.
  eapply reads_last; [by eapply reads_u16_string|]. rewrite bool_decide_false by done. apply reads_ret.
Qed.
#[local] Hint Resolve reads_ret reads_read_u8 reads_read_u32 reads_read_u64 reads_read_fixed reads_u16_string reads_required : reads.
#[local] Opaque u8_be u16_be u32_be u64_be.
Ltac reads_step :=
  first [ eapply reads_bind; [solve [eauto 2 with reads]|]
        | eapply reads_last; [solve [eauto 2 with reads]|] ].

Lemma validate_timestamp_Ok at_ms stage :
  validate_timestamp at_ms stage = Ok () ↔ MIN_13_DIGIT_TIMESTAMP ≤ at_ms ≤ MAX_13_DIGIT_TIMESTAMP.
Proof. unfold validate_timestamp. destruct (_ && _) eqn:E; split; try done; lia. Qed.
Lemma validate_source_stage s stage stage' :
  validate_sandbox_source s stage = Ok () → validate_sandbox_source s stage' = Ok ().
Proof. unfold validate_sandbox_source. by repeat case_match. Qed.

Lemma reads_source s bs : source_wf s → encode_source limits s = Ok bs → reads (decode_source limits) bs s.
Proof.
  intros Hwf. destruct s as [trid|[g sb boot process]]; cbn in Hwf |- *; munfold.
  - destruct (PayloadWriter.write_required_u16_string _ _ _) as [t|] eqn:Et; [|done]. intros [= <-].
    unfold decode_source. eapply reads_bind; [by apply reads_read_u8|]. cbn.
    eapply reads_last; [by eapply reads_required|]. apply reads_ret.
  - destruct Hwf as (Hg & Hs & Hb & Hp).
    destruct (validate_sandbox_source _ _) as [[]|] eqn:Ev; [|done]. intros [= <-].
    unfold decode_source. eapply reads_bind; [by apply reads_read_u8|]. cbn.
    do 3 reads_step. eapply (reads_last _ _ _ process).
    + unfold decode_process. destruct process as [[pid ticks name]|]; cbn in *.
      * destruct Hp as (? & ? & ?). eapply reads_bind; [by apply reads_read_u8|]. cbn. do 3 reads_step. apply reads_ret.
      * eapply reads_last; [by apply reads_read_u8|]. apply reads_ret.
    + eapply reads_lift; [|apply reads_ret]. by rewrite (validate_source_stage _ _ _ Ev).
Qed.
Lemma reads_description d bs :
  from_option text True d → encode_description limits d = Ok bs → reads (decode_description limits) bs d.
Proof.
  intros Ht. unfold encode_description, decode_description. destruct d as [d|].
  - munfold. destruct (PayloadWriter.write_u16_string _ _ _) as [t|] eqn:Et; [|done]. intros [= <-].
    eapply reads_bind; [by apply reads_read_u8|]. cbn.
    eapply reads_last; [by eapply reads_u16_string|]. apply reads_ret.
  - intros [= <-]. eapply reads_last; [by apply reads_read_u8|]. apply reads_ret.
Qed.

(** [m] reads the rest of the payload, all of it. *)
Definition reads_end {A} (m : AtapM A) (bs : list byte) (v : A) : Prop :=
  ∀ c, at_ c bs → ∃ c', m c = (Ok v, c').
Lemma end_bind {A B} (m : AtapM A) (k : A → AtapM B) bs1 bs2 v w :
  reads m bs1 v → reads_end (k v) bs2 w → reads_end (m ≫= k) (bs1 ++ bs2) w.
Proof.
  intros Hm Hk c Hc. destruct (Hm c _ Hc) as (c1 & E1 & H1). destruct (Hk c1 H1) as (c2 & E2).
  exists c2. munfold. by rewrite E1.
Qed.
Lemma end_lift {A B} (r : result (fault DeliveryCodecError) A) (k : A → AtapM B) v bs w :
  r = Ok v → reads_end (k v) bs w → reads_end (st_lift r ≫= k) bs w.
Proof. by intros ->. Qed.
Lemma end_finish {A} (k : () → AtapM A) w :
  (∀ c, ∃ c', k () c = (Ok w, c')) → reads_end (finish ≫= k) [] w.
Proof.
  intros Hk c (Ho & Hd & _). munfold. unfold finish.
  rewrite bool_decide_true; [apply Hk|]. apply (f_equal length) in Hd. rewrite length_drop in Hd. cbn in Hd. lia.
Qed.
Lemma end_last {A B} (m : AtapM A) (k : A → AtapM B) bs v w :
  reads m bs v → reads_end (k v) [] w → reads_end (m ≫= k) bs w.
Proof. intros Hm Hk. rewrite <-(app_nil_r bs). by eapply end_bind. Qed.
Lemma run_end {A} (m : AtapM A) bs v :
  Z.of_nat (length bs) ≤ u64_max → reads_end m bs v → run m bs = Ok v.
Proof.
  intros Hl Hm. unfold run. destruct (Hm (PayloadCursor.new bs)) as [c' ->]; [|done].
  unfold at_. cbn. rewrite drop_0. splits; [lia|done|done].
Qed.

(** The extras of an alert survive JSON. *)
Definition json_keeps (m : AtapMessage J) : Prop :=
  match m with
  | AForwardAlert a => ∀ bs, extras_to_vec (fa_extras a) = Ok bs → value_from_slice bs = Ok (Some (fa_extras a))
  | _ => True
  end.

Lemma write_u32_bytes_Ok field value bs :
  PayloadWriter.write_u32_bytes field value = Ok bs ↔
    Z.of_nat (length value) ≤ u32_max ∧ bs = u32_be (Z.of_nat (length value)) ++ value.
Proof.
  unfold PayloadWriter.write_u32_bytes. destruct (Z.leb_spec (Z.of_nat (length value)) u32_max).
  - split; [by intros [= <-]|by intros [_ ->]].
  - split; [done|lia].
Qed.
Lemma reads_u32_bytes field max value :
  Z.of_nat (length value) ≤ max → Z.of_nat (length value) ≤ u32_max →
  reads (read_u32_bytes field max) (u32_be (Z.of_nat (length value)) ++ value) value.
Proof.
  intros Hm Hu. unfold read_u32_bytes. eapply reads_bind; [apply reads_read_u32; split; lia|].
  destruct (Z.ltb_spec max (Z.of_nat (length value))); [lia|]. rewrite Nat2Z.id. apply reads_taken.
Qed.

Lemma end_alert (a : ForwardAlert J) extras bs :
  alert_wf a → validate_timestamp (fa_detected_at_ms a) "atap_encode" = Ok () →
  Z.of_nat (length extras) ≤ al_extras_max_bytes limits → value_from_slice extras = Ok (Some (fa_extras a)) →
  encode_fields limits a extras = Ok bs → reads_end (decode_alert limits) bs a.
Proof.
  intros (Hsrc & Hcat & Hdesc) Ht%validate_timestamp_Ok Hext Hjson. destruct a as [t sev src cat desc ext].
  cbn in *. unfold encode_fields. cbn.
  intros (bsrc & Es & (bcat & Ec & (bdesc & Ed & (bext & Ex & [= <-])%result_bind_inv)%result_bind_inv)%result_bind_inv)%result_bind_inv.
  unfold decode_alert.
  eapply end_bind.
  { apply reads_read_u64. unfold in_u64, u64_max, MIN_13_DIGIT_TIMESTAMP, MAX_13_DIGIT_TIMESTAMP in *. lia. }
  eapply end_lift; [by rewrite (proj2 (validate_timestamp_Ok t "atap_decode") Ht)|].
  eapply end_bind; [apply reads_read_u8; by destruct sev|].
  eapply (end_lift _ _ sev); [by destruct sev|].
  eapply end_bind; [by apply reads_source|]. eapply end_bind; [by eapply reads_required|].
  eapply end_bind; [by apply reads_description|].
  apply write_u32_bytes_Ok in Ex as [Hu ->].
  eapply end_last; [by apply reads_u32_bytes|].
  apply end_finish. intros c. unfold decode_extras. munfold. rewrite Hjson. by eexists.
Qed.

Lemma decode_frame_of code payload :
  fits payload →
  frame_length limits (take ATAP_HEADER_BYTES (frame_of code payload)) = Ok (Z.of_nat (length (frame_of code payload))) ∧
  decode limits (frame_of code payload) = decode_payload limits code payload.
Proof.
  intros [Hu Hm]. unfold frame_of. set (h := mkAtapHeader code (Z.of_nat (length payload))).
  assert (take ATAP_HEADER_BYTES (AtapFrame.encode h ++ payload) = AtapFrame.encode h) as Et
    by (rewrite <-(header_bytes_length h); apply take_app_length).
  assert (in_u32 (ah_payload_length h)) as Hn by (split; cbn; lia).
  assert (frame_length limits (AtapFrame.encode h) = Ok (Z.of_nat (length (AtapFrame.encode h ++ payload)))) as Hf.
  { apply frame_length_Ok; [apply header_bytes_length|]. exists h. rewrite length_app, header_bytes_length.
    splits; [done|done|cbn [h ah_payload_length]; lia|lia]. }
  rewrite Et. split; [done|]. unfold decode.
  rewrite bool_decide_false by (rewrite length_app, header_bytes_length; lia).
  rewrite Et, Hf. cbn [map_err mbind result_bind]. rewrite Z.eqb_refl. cbn [negb].
  rewrite (proj2 (atap_header_spec _ h (header_bytes_length h))) by done. cbn [map_err mbind result_bind ah_code h].
  by rewrite <-(header_bytes_length h), drop_app_length.
Qed.

Lemma decode_encoded m frame :
  message_wf m → json_keeps m → encode limits m = Ok frame →
  decode limits frame = Ok m ∧
  frame_length limits (take ATAP_HEADER_BYTES frame) = Ok (Z.of_nat (length frame)) ∧
  Z.of_nat (length frame) ≤ al_max_frame_bytes limits ∧ (ATAP_HEADER_BYTES ≤ length frame)%nat.
Proof.
  intros Hwf Hjson ([code payload] & Em & [Hfit ->]%encode_frame_Ok)%result_bind_inv.
  destruct (decode_frame_of code payload Hfit) as [Hlen ->]. pose proof Hfit as [Hu Hmax].
  assert (length (frame_of code payload) = ATAP_HEADER_BYTES + length payload)%nat as Hl
    by (unfold frame_of; by rewrite length_app, header_bytes_length).
  splits; [|done|lia|lia]. clear Hlen Hl Hfit.
  assert (Z.of_nat (length payload) ≤ u64_max) as Hu' by (unfold u32_max, u64_max in *; lia).
  destruct m as [pid| |rc|a|nonce|nonce]; cbn in Hwf, Em.
  - destruct (Z.eqb_spec pid 0) as [|Hp]; [done|]. injection Em as <- <-. cbn [decode_payload].
    apply run_end; [done|]. eapply end_last; [by apply reads_read_u32|]. apply end_finish.
    intros c. rewrite (proj2 (Z.eqb_neq _ _) Hp). by eexists.
  - by injection Em as <- <-.
  - apply result_bind_inv in Em as (t & Et & [= <- <-]). cbn [decode_payload].
    apply run_end; [done|]. eapply end_last; [by eapply reads_required|]. apply end_finish. by eexists.
  - apply result_bind_inv in Em as (t & Et & [= <- <-]). cbn [decode_payload].
    apply result_bind_inv in Et as ([] & Ht & (x & Ex & Ef)%result_bind_inv).
    destruct (extras_to_vec (fa_extras a)) as [x'|] eqn:Eto; [|done]. injection Ex as ->.
    destruct (Z.ltb_spec (al_extras_max_bytes limits) (Z.of_nat (length x))); [done|].
    munfold. rewrite (run_end _ _ a); [done|done|]. eapply end_alert; try done. by apply Hjson.
  - injection Em as <- <-. cbn [decode_payload]. munfold. rewrite (run_end _ _ nonce); [done|done|].
    eapply end_last; [by apply reads_read_u64|]. apply end_finish. by eexists.
  - injection Em as <- <-. cbn [decode_payload]. munfold. rewrite (run_end _ _ nonce); [done|done|].
    eapply end_last; [by apply reads_read_u64|]. apply end_finish. by eexists.
Qed.

(** ** What the decoder accepts *)

(** [m] never panics, and the bytes [bs] it reads for a value [v] satisfy [P v bs]. *)
Definition consumes {A} (m : AtapM A) (P : A → list byte → Prop) : Prop :=
  ∀ c rest, at_ c rest →
    match m c with
    | (Ok v, c') => ∃ bs rest', rest = bs ++ rest' ∧ P v bs ∧ at_ c' rest'
    | (Err e, _) => e ≠ Panicked
    end.
(** The same for what reads the payload to its end. *)
Definition consumes_all {A} (m : AtapM A) (P : A → list byte → Prop) : Prop :=
  ∀ c rest, at_ c rest → match m c with (Ok v, _) => P v rest | (Err e, _) => e ≠ Panicked end.

Lemma consumes_ret {A} (v : A) (P : A → list byte → Prop) : P v [] → consumes (mret v) P.
Proof. intros Hv c rest Hc. by exists [], rest. Qed.
Lemma consumes_fail {A} msg (P : A → list byte → Prop) : consumes (fail msg) P.
Proof. done. Qed.
Lemma consumes_bind {A B} (m : AtapM A) (k : A → AtapM B) P Q :
  consumes m P → (∀ v bs, P v bs → consumes (k v) (λ w bs', Q w (bs ++ bs'))) → consumes (m ≫= k) Q.
Proof.
  intros Hm Hk c rest Hc. specialize (Hm c rest Hc). munfold. destruct (m c) as [[v|e] c1]; [|done].
  destruct Hm as (bs & rest1 & -> & HP & Hc1). specialize (Hk v bs HP c1 rest1 Hc1).
  destruct (k v c1) as [[w|e] c2]; [|done]. destruct Hk as (bs' & rest2 & -> & HQ & Hc2).
  exists (bs ++ bs'), rest2. by rewrite <-app_assoc.
Qed.
Lemma consumes_weaken {A} (m : AtapM A) P Q :
  consumes m P → (∀ v bs, P v bs → Q v bs) → consumes m Q.
Proof.
  intros Hm HPQ c rest Hc. specialize (Hm c rest Hc). destruct (m c) as [[v|e] c1]; [|done].
  destruct Hm as (bs & rest' & ? & HP & ?). exists bs, rest'. auto.
Qed.
Lemma consumes_lift {A B} (r : result (fault DeliveryCodecError) A) (k : A → AtapM B) Q :
  (∀ e, r = Err e → e ≠ Panicked) → (∀ v, r = Ok v → consumes (k v) Q) → consumes (st_lift r ≫= k) Q.
Proof. intros He Hk. destruct r as [v|e]; [by apply Hk|]. intros c rest Hc. by apply He. Qed.
Lemma all_bind {A B} (m : AtapM A) (k : A → AtapM B) P Q :
  consumes m P → (∀ v bs, P v bs → consumes_all (k v) (λ w bs', Q w (bs ++ bs'))) → consumes_all (m ≫= k) Q.
Proof.
  intros Hm Hk c rest Hc. specialize (Hm c rest Hc). munfold. destruct (m c) as [[v|e] c1]; [|done].
  destruct Hm as (bs & rest1 & -> & HP & Hc1). exact (Hk v bs HP c1 rest1 Hc1).
Qed.
Lemma all_lift {A B} (r : result (fault DeliveryCodecError) A) (k : A → AtapM B) Q :
  (∀ e, r = Err e → e ≠ Panicked) → (∀ v, r = Ok v → consumes_all (k v) Q) → consumes_all (st_lift r ≫= k) Q.
Proof. intros He Hk. destruct r as [v|e]; [by apply Hk|]. intros c rest Hc. by apply He. Qed.
Lemma all_finish {A} (k : () → AtapM A) (Q : A → list byte → Prop) :
  (∀ c, match k () c with (Ok v, _) => Q v [] | (Err e, _) => e ≠ Panicked end) → consumes_all (finish ≫= k) Q.
Proof.
  intros Hk c rest (Ho & Hd & _). munfold. unfold finish. case_bool_decide as E; [|done].
  assert (rest = []) as ->; [|apply Hk]. by rewrite <-Hd, E, drop_ge.
Qed.

Lemma consumes_take field n : consumes (take_ field n) (λ v bs, v = bs ∧ length bs = n).
Proof.
  intros c rest (Ho & Hd & Hl). unfold take_. destruct (checked_add_u64 _ _) as [e|] eqn:E; [|done].
  apply checked_add_u64_Some in E as [-> _].
  destruct (Z.ltb_spec (Z.of_nat (length (cur_bytes c))) (Z.of_nat (cur_offset c) + Z.of_nat n)) as [|Hle]; [done|].
  replace (Z.to_nat _) with (cur_offset c + n)%nat by lia. unfold slice. rewrite Hd.
  replace (cur_offset c + n - cur_offset c)%nat with n by lia.
  assert (length rest = length (cur_bytes c) - cur_offset c)%nat as Hr by (by rewrite <-Hd, length_drop).
  exists (take n rest), (drop n rest). splits; [by rewrite take_drop|done|rewrite length_take; lia|].
  unfold at_. cbn. splits; [lia| |done]. by rewrite <-drop_drop, Hd.
Qed.
Lemma consumes_u8 field : consumes (read_u8 field) (λ z bs, in_u8 z ∧ bs = u8_be z).
Proof.
  eapply consumes_bind; [apply consumes_take|]. intros v bs [-> Hl]. destruct bs as [|b [|]]; try done.
  apply consumes_ret. pose proof (byte.unsigned_range b). split; [unfold in_u8, u8_max; lia|].
  rewrite app_nil_r. symmetry. change (u8_be (byte.unsigned b)) with ([byte.of_Z (byte.unsigned b)]).
  by rewrite byte.of_Z_unsigned.
Qed.
Lemma consumes_number field n (enc : Z → list byte) (R : Z → Prop) :
  (∀ z, 0 ≤ z < 2 ^ (Z.of_nat n * 8) → R z) → (∀ bs, length bs = n → enc (from_be_bytes bs) = bs) →
  consumes (bs ← take_ field n; bs ← expect_array n bs; mret (from_be_bytes bs)) (λ z bs, R z ∧ bs = enc z).
Proof.
  intros HR Henc. eapply consumes_bind; [apply consumes_take|]. intros v bs [-> Hl].
  unfold expect_array. rewrite bool_decide_true by done. apply consumes_ret. rewrite app_nil_r.
  split; [|by rewrite Henc]. apply HR. rewrite <-Hl. apply from_be_bytes_bound.
Qed.
Lemma consumes_u32 field : consumes (read_u32 field) (λ z bs, in_u32 z ∧ bs = u32_be z).
Proof.
  apply consumes_number; [intros z; unfold in_u32, u32_max; cbn; lia|apply u32_be_read].
Qed.
Lemma consumes_u64 field : consumes (read_u64 field) (λ z bs, in_u64 z ∧ bs = u64_be z).
Proof.
  apply consumes_number; [intros z; unfold in_u64, u64_max; cbn; lia|apply u64_be_read].
Qed.
Lemma consumes_fixed field n : consumes (read_fixed n field) (λ v bs, SandboxObservation.array n v ∧ bs = v).
Proof.
  eapply consumes_bind; [apply consumes_take|]. intros v bs [-> Hl]. rewrite bool_decide_true by done.
  apply consumes_ret. by rewrite app_nil_r.
Qed.
Lemma consumes_string field field' max :
  consumes (read_u16_string field max) (λ s bs, text s ∧ PayloadWriter.write_u16_string field' s max = Ok bs).
Proof.
  eapply consumes_bind; [apply consumes_take|]. intros v bs [-> Hl].
  eapply (consumes_bind _ _ (λ v b, v = bs ∧ b = [])).
  { unfold expect_array. rewrite bool_decide_true by done. by apply consumes_ret. }
  intros v b [-> ->]. cbv zeta. set (n := from_be_bytes bs).
  assert (in_u16 n ∧ bs = u16_be n) as [Hn Hbs].
  { split; [|symmetry; by apply u16_be_read]. pose proof (from_be_bytes_bound bs) as Hb. rewrite Hl in Hb.
    unfold in_u16, u16_max. cbn in Hb. fold n in Hb. lia. }
  destruct (Z.ltb_spec max n); [apply consumes_fail|].
  eapply consumes_bind; [apply consumes_take|]. intros v b [-> Hb].
  destruct (Text.from_utf8 b) as [s|e] eqn:Eu; [|apply consumes_fail].
  apply from_utf8_Ok in Eu as [Ht ->]. apply consumes_ret. split; [done|]. apply write_u16_string_Ok.
  rewrite string_bytes_length in Hb. assert (Z.of_nat (String.length s) = n) as -> by (unfold in_u16 in Hn; lia).
  splits; [done|apply Hn|]. by rewrite Hbs, app_nil_r.
Qed.
Lemma consumes_required field field' max :
  consumes (read_required_u16_string field max)
    (λ s bs, text s ∧ PayloadWriter.write_required_u16_string field' s max = Ok bs).
Proof.
  eapply consumes_bind; [apply (consumes_string field field')|]. intros s bs [Ht Hw].
  case_bool_decide as Hs; [apply consumes_fail|]. apply consumes_ret. rewrite app_nil_r. split; [done|].
  unfold PayloadWriter.write_required_u16_string. by rewrite bool_decide_false.
Qed.
Lemma consumes_bytes field max :
  consumes (read_u32_bytes field max) (λ v bs, Z.of_nat (length v) ≤ max ∧
    PayloadWriter.write_u32_bytes field v = Ok bs).
Proof.
  eapply consumes_bind; [apply consumes_u32|]. intros n b [Hn ->].
  destruct (Z.ltb_spec max n); [apply consumes_fail|].
  eapply consumes_weaken; [apply consumes_take|]. intros v bs [-> Hl].
  assert (Z.of_nat (length bs) = n) as Hz by (unfold in_u32 in Hn; lia).
  split; [lia|]. apply write_u32_bytes_Ok. rewrite Hz. unfold in_u32 in Hn. split; [lia|done].
Qed.

Lemma map_err_Failed {A} (r : result DeliveryCodecError A) e : map_err Failed r = Err e → e ≠ Panicked.
Proof. destruct r; [done|]. by intros [= <-]. Qed.

Lemma consumes_process :
  consumes decode_process (λ p bs, from_option process_marker_wf True p ∧
    bs = match p with
         | Some p => u8_be 1 ++ u32_be (spm_pid p) ++ u64_be (spm_start_time_ticks p) ++ spm_executable_name p
         | None => u8_be 0
         end).
Proof.
  eapply consumes_bind; [apply consumes_u8|]. intros k b [_ ->].
  destruct (Z.eqb_spec k 0) as [->|]; [apply consumes_ret; by rewrite app_nil_r|].
  destruct (Z.eqb_spec k 1) as [->|]; [|apply consumes_fail].
  eapply consumes_bind; [apply consumes_u32|]. intros pid b [Hp ->].
  eapply consumes_bind; [apply consumes_u64|]. intros t b [Ht ->].
  eapply consumes_bind; [apply consumes_fixed|]. intros name b [Hn ->].
  apply consumes_ret. split; [done|]. by rewrite app_nil_r.
Qed.
Lemma consumes_source : consumes (decode_source limits) (λ s bs, source_wf s ∧ encode_source limits s = Ok bs).
Proof.
  eapply consumes_bind; [apply consumes_u8|]. intros k b [_ ->].
  destruct (Z.eqb_spec k SOURCE_TRACE) as [->|].
  { eapply consumes_bind; [apply (consumes_required _ "trace ID")|]. intros t b [Ht Hw]. apply consumes_ret.
    split; [done|]. cbn. munfold. by rewrite Hw, app_nil_r. }
  destruct (Z.eqb_spec k SOURCE_SANDBOX) as [->|]; [|apply consumes_fail].
  eapply consumes_bind; [apply consumes_u32|]. intros g b [Hg ->].
  eapply consumes_bind; [apply consumes_u32|]. intros sb b [Hsb ->].
  eapply consumes_bind; [apply consumes_fixed|]. intros boot b [Hboot ->].
  eapply consumes_bind; [apply consumes_process|]. intros p b [Hp ->].
  apply consumes_lift; [intros e He; by eapply map_err_Failed|]. intros [] Hv. apply consumes_ret.
  split; [done|]. cbn. munfold.
  destruct (validate_sandbox_source _ "atap_decode") as [[]|] eqn:Ev; [|done].
  by rewrite (validate_source_stage _ _ _ Ev), app_nil_r.
Qed.
Lemma consumes_description :
  consumes (decode_description limits) (λ d bs, from_option text True d ∧ encode_description limits d = Ok bs).
Proof.
  eapply consumes_bind; [apply consumes_u8|]. intros k b [_ ->].
  destruct (Z.eqb_spec k 0) as [->|]; [apply consumes_ret; by rewrite app_nil_r|].
  destruct (Z.eqb_spec k 1) as [->|]; [|apply consumes_fail].
  eapply consumes_bind; [apply (consumes_string _ "description")|]. intros d b [Ht Hw].
  apply consumes_ret. split; [done|]. cbn. munfold. by rewrite Hw, app_nil_r.
Qed.

(** The frame says the message, with extras that are some JSON for the message's. *)
Definition alert_says (a : ForwardAlert J) (payload : list byte) : Prop :=
  ∃ x, validate_timestamp (fa_detected_at_ms a) "atap_encode" = Ok () ∧
    Z.of_nat (length x) ≤ al_extras_max_bytes limits ∧ value_from_slice x = Ok (Some (fa_extras a)) ∧
    encode_fields limits a x = Ok payload.
Definition frame_says (m : AtapMessage J) (frame : list byte) : Prop :=
  match m with
  | AForwardAlert a => ∃ payload, alert_says a payload ∧ encode_frame limits CForwardAlert payload = Ok frame
  | _ => encode limits m = Ok frame
  end.

Lemma severity_of_code k s : Severity.from_code k = Some s → k = Severity.code s.
Proof.
  unfold Severity.from_code. destruct (Z.eqb_spec k 1); [by intros [= <-]|].
  destruct (Z.eqb_spec k 2); [by intros [= <-]|]. destruct (Z.eqb_spec k 3); [by intros [= <-]|done].
Qed.
Lemma decode_extras_spec x :
  match decode_extras x with Ok v => value_from_slice x = Ok (Some v) | Err e => e ≠ Panicked end.
Proof. unfold decode_extras. munfold. by destruct (value_from_slice x) as [[v|]|]. Qed.

Lemma all_alert : consumes_all (decode_alert limits) (λ a bs, alert_wf a ∧ alert_says a bs).
Proof.
  eapply all_bind; [apply consumes_u64|]. intros t b [Ht ->].
  apply all_lift; [intros e He; by eapply map_err_Failed|]. intros [] Hv.
  eapply all_bind; [apply consumes_u8|]. intros k b [_ ->].
  apply all_lift; [intros e; unfold ok_or; case_match; [done|by intros [= <-]]|]. intros sev Hsev.
  assert (k = Severity.code sev) as ->.
  { apply severity_of_code. by destruct (Severity.from_code k); [injection Hsev as ->|]. }
  eapply all_bind; [apply consumes_source|]. intros src bsrc [Hsrc Esrc].
  eapply all_bind; [apply (consumes_required _ "category")|]. intros cat bcat [Hcat Ecat].
  eapply all_bind; [apply consumes_description|]. intros desc bdesc [Hdesc Edesc].
  eapply all_bind; [apply consumes_bytes|]. intros x bx [Hx Ex].
  apply all_finish. intros c. munfold. pose proof (decode_extras_spec x) as Hj.
  destruct (decode_extras x) as [ext|e]; [|done]. split; [done|]. exists x. cbn. splits; [|done|done|].
  - apply validate_timestamp_Ok. apply (validate_timestamp_Ok t "atap_decode").
    by destruct (validate_timestamp t "atap_decode") as [[]|].
  - unfold encode_fields. cbn. munfold. rewrite Esrc, Ecat, Edesc, Ex. by rewrite app_nil_r.
Qed.

Lemma run_all {A} (m : AtapM A) P bs :
  Z.of_nat (length bs) ≤ u64_max → consumes_all m P →
  match run m bs with Ok v => P v bs | Err e => e ≠ Panicked end.
Proof.
  intros Hl Hm. unfold run. specialize (Hm (PayloadCursor.new bs) bs).
  destruct (m (PayloadCursor.new bs)) as [[v|e] c]; apply Hm; unfold at_; cbn; (splits; [lia|done|done]).
Qed.
Lemma run_nonce bs :
  Z.of_nat (length bs) ≤ u64_max →
  match run decode_nonce bs with Ok n => in_u64 n ∧ bs = u64_be n | Err e => e ≠ Panicked end.
Proof.
  intros Hl. apply (run_all _ (λ n bs, in_u64 n ∧ bs = u64_be n)); [done|].
  eapply all_bind; [apply consumes_u64|]. intros n b [Hn ->]. apply all_finish. intros c. by rewrite app_nil_r.
Qed.

(** What a decoder of the goal promises. *)
Ltac run_with P :=
  match goal with
  | Hl : _ ≤ u64_max |- context [run ?m ?bs] =>
      cut (match run m bs with Ok v => P v bs | Err e => e ≠ Panicked end);
      [|apply (run_all m P bs Hl)]; cycle 1
  end.
Lemma decode_payload_spec code payload :
  fits payload →
  match decode_payload limits code payload with
  | Ok m => message_wf m ∧ frame_says m (frame_of code payload)
  | Err e => e ≠ Panicked
  end.
Proof.
  intros Hfit. assert (Z.of_nat (length payload) ≤ u64_max) as Hl by (destruct Hfit; unfold u32_max, u64_max in *; lia).
  assert (∀ c, encode_frame limits c payload = Ok (frame_of c payload)) as Hf
    by (intros c; by apply encode_frame_Ok).
  destruct code; cbn [decode_payload].
  - run_with (λ (m : AtapMessage J) (bs : list byte), ∃ pid, m = AProducerHello pid ∧ in_u32 pid ∧ pid ≠ 0 ∧ bs = u32_be pid).
    + eapply all_bind; [apply consumes_u32|]. intros n b [Hn ->]. apply all_finish. intros c.
      destruct (Z.eqb_spec n 0); [done|]. exists n. by rewrite app_nil_r.
    + intros Ha. destruct (run _ _) as [m|]; [|done]. destruct Ha as (pid & -> & Hp & Hne & Eb). split; [done|]. cbn.
      rewrite (proj2 (Z.eqb_neq _ _) Hne). cbn. rewrite <-Eb. apply Hf.
  - unfold require_empty_payload. case_bool_decide as Ep; [|done]. cbn. split; [done|]. rewrite <-Ep. apply Hf.
  - run_with (λ (m : AtapMessage J) (bs : list byte), ∃ rc, m = AProducerReject rc ∧ text rc ∧
      PayloadWriter.write_required_u16_string "reject code" rc u16_max = Ok bs).
    + eapply all_bind; [apply (consumes_required _ "reject code")|]. intros rc b [Ht Hw]. apply all_finish.
      intros c. exists rc. by rewrite app_nil_r.
    + intros Ha. destruct (run _ _) as [m|]; [|done]. destruct Ha as (rc & -> & Ht & Hw). split; [done|]. cbn.
      munfold. rewrite Hw. apply Hf.
  - pose proof (run_all _ _ payload Hl all_alert) as Ha. munfold. destruct (run _ _) as [a|]; [|done].
    destruct Ha as [Hwf Hsays]. split; [done|]. by exists payload.
  - pose proof (run_nonce payload Hl) as Hn. munfold. destruct (run _ _) as [n|]; [|done]. destruct Hn as [Hn ->].
    split; [done|]. apply Hf.
  - pose proof (run_nonce payload Hl) as Hn. munfold. destruct (run _ _) as [n|]; [|done]. destruct Hn as [Hn ->].
    split; [done|]. apply Hf.
Qed.

Lemma decode_says frame :
  match decode limits frame with Ok m => message_wf m ∧ frame_says m frame | Err e => e ≠ Panicked end.
Proof.
  unfold decode. case_bool_decide as Hshort; [done|].
  assert (length (take ATAP_HEADER_BYTES frame) = ATAP_HEADER_BYTES) as Ht by (rewrite length_take; lia).
  destruct (frame_length limits _) as [n|e] eqn:Ef; [|done]. cbn [map_err mbind result_bind].
  apply frame_length_Ok in Ef as (h & Eh & Hu & -> & Hmax); [|done].
  destruct (Z.eqb_spec (Z.of_nat (length frame)) (Z.of_nat ATAP_HEADER_BYTES + ah_payload_length h)) as [Hlen|]; [|done].
  cbn [negb]. rewrite Eh, (proj2 (atap_header_spec _ h (header_bytes_length h))) by done. cbn [map_err mbind result_bind].
  set (payload := drop ATAP_HEADER_BYTES frame).
  assert (Z.of_nat (length payload) = ah_payload_length h) as Hp by (unfold payload; rewrite length_drop; lia).
  assert (frame = frame_of (ah_code h) payload) as Efr.
  { rewrite <-(take_drop ATAP_HEADER_BYTES frame), Eh. unfold frame_of. rewrite Hp. by destruct h. }
  rewrite Efr. apply decode_payload_spec. unfold fits, in_u32 in *. lia.
Qed.
End frames.
End AtapFacts.
