(* ===== verification/AlertStream.v ===== *)
(** The stream decoders of alert delivery, whatever their frame format: how the bytes are
    cut into reads does not matter. *)
From stdpp Require Import prelude gmap strings pretty.
From Stdlib Require Import ZArith Lia.
From coqutil Require Import Byte.
From S2P Require Import Prelude Bytes Wire Utf8 SandboxObservation BatchCodec AlertCodec AlertCodecFacts.

Open Scope Z_scope.

Module StreamFacts.
Import FramedStream.

Section stream.
Context {M : Type} (F : FrameFormat M).
Implicit Types (d : FrameDecoder) (m : M) (bs : list byte).

(** [bs] is a frame that carries [m]. *)
Definition carries m bs : Prop :=
  (ff_header F ≤ length bs)%nat ∧ ff_length F (take (ff_header F) bs) = Ok (Z.of_nat (length bs)) ∧
  ff_decode F bs = Ok m.
(** [bs] is nothing, or the beginning of a frame. *)
Definition begins bs : Prop := bs = [] ∨ ∃ m q, q ≠ [] ∧ carries m (bs ++ q).

(** The decoder as a queue of bytes. *)
Definition next_of (p : list byte) : result (fault DeliveryCodecError) (option M) * list byte :=
  if bool_decide (length p < ff_header F)%nat then (Ok None, p)
  else
    match ff_length F (take (ff_header F) p) with
    | Err e => (Err (Failed e), p)
    | Ok n =>
        if Z.of_nat (length p) <? n then (Ok None, p)
        else match ff_decode F (take (Z.to_nat n) p) with
             | Err e => (Err e, p)
             | Ok m => (Ok (Some m), drop (Z.to_nat n) p)
             end
    end.
Lemma next_refines d :
  WireFacts.decoder_ok d →
  let '(r, d') := next F d in WireFacts.decoder_ok d' ∧ next_of (WireFacts.pending d) = (r, WireFacts.pending d').
Proof.
  intros Hok. unfold next, next_of, WireFacts.decoder_ok, WireFacts.pending in *.
  rewrite bool_decide_false by lia. set (p := drop (fd_read_offset d) (fd_buffer d)).
  assert (length p = length (fd_buffer d) - fd_read_offset d)%nat as Hp by apply length_drop.
  destruct (bool_decide (length p < ff_header F)%nat); [done|].
  destruct (ff_length F _) as [n|e]; [|done].
  destruct (Z.ltb_spec (Z.of_nat (length p)) n); [done|].
  destruct (ff_decode F _) as [m|e]; [|done]. cbn [fd_buffer fd_read_offset].
  split; [lia|]. subst p. by rewrite drop_drop.
Qed.

Lemma next_of_carried m bs rest : carries m bs → next_of (bs ++ rest) = (Ok (Some m), rest).
Proof.
  intros (Hh & Hl & Hd). unfold next_of. rewrite bool_decide_false by (rewrite length_app; lia).
  rewrite take_app_le by lia. rewrite Hl, length_app.
  destruct (Z.ltb_spec (Z.of_nat (length bs + length rest)) (Z.of_nat (length bs))); [lia|].
  by rewrite Nat2Z.id, take_app_length, Hd, drop_app_length.
Qed.
Context (header_pos : (0 < ff_header F)%nat).

Lemma next_of_begin bs p more : begins bs → p ++ more = bs → next_of p = (Ok None, p).
Proof.
  intros [->|(m & q & Hq & Hh & Hl & _)] E.
  - apply app_nil in E as [-> _]. unfold next_of. by rewrite bool_decide_true by (cbn; lia).
  - subst bs. unfold next_of. case_bool_decide as Hp; [done|].
    rewrite <-app_assoc, take_app_le in Hl by lia. rewrite Hl.
    assert (length q ≠ 0%nat) by (by destruct q).
    destruct (Z.ltb_spec (Z.of_nat (length p)) (Z.of_nat (length (p ++ more ++ q)))); [done|].
    rewrite !length_app in *. lia.
Qed.

(** One call while [more] is still to come: the first message once its frame is complete. *)
Lemma next_cases d ms more rest :
  WireFacts.decoder_ok d → Forall (uncurry carries) ms → begins rest →
  WireFacts.pending d ++ more = concat ms.*2 ++ rest →
  ∃ r d', next F d = (Ok r, d') ∧ WireFacts.decoder_ok d' ∧
    match r with
    | Some m => ∃ bs ms', ms = (m, bs) :: ms' ∧ (length (WireFacts.pending d') < length (WireFacts.pending d))%nat ∧
                          WireFacts.pending d' ++ more = concat ms'.*2 ++ rest
    | None => WireFacts.pending d' = WireFacts.pending d ∧
              next_of (WireFacts.pending d) = (Ok None, WireFacts.pending d)
    end.
Proof.
  intros Hok Hms Hrest E. pose proof (next_refines d Hok) as Hn.
  destruct (next F d) as [r d'] eqn:Ed. destruct Hn as [Hok' Hn].
  assert (next_of (WireFacts.pending d) = (Ok None, WireFacts.pending d) →
    ∃ r0 d0, (r, d') = (Ok r0, d0) ∧ WireFacts.decoder_ok d0 ∧
    match r0 with
    | Some m => ∃ bs ms', ms = (m, bs) :: ms' ∧ (length (WireFacts.pending d0) < length (WireFacts.pending d))%nat ∧
                          WireFacts.pending d0 ++ more = concat ms'.*2 ++ rest
    | None => WireFacts.pending d0 = WireFacts.pending d ∧
              next_of (WireFacts.pending d) = (Ok None, WireFacts.pending d)
    end) as Hwait.
  { intros Hp. rewrite Hp in Hn. injection Hn as <- Ep. exists None, d'. by rewrite Hp, <-Ep. }
  destruct ms as [|[m bs] ms]; [by apply Hwait, (next_of_begin rest _ more)|].
  apply Forall_cons in Hms as [Hm Hms]. cbn [fmap list_fmap concat] in E. rewrite <-app_assoc in E.
  cbn in E, Hm. pose proof Hm as (Hh & _ & _).
  destruct (decide (length bs ≤ length (WireFacts.pending d))%nat) as [Hge|Hlt].
  - assert (∃ p2, WireFacts.pending d = bs ++ p2) as [p2 Ep].
    { exists (drop (length bs) (WireFacts.pending d)).
      rewrite <-(take_drop (length bs) (WireFacts.pending d)) at 1. f_equal.
      apply (f_equal (take (length bs))) in E. rewrite take_app_le in E by lia. by rewrite take_app_length in E. }
    rewrite Ep, <-app_assoc in E. apply app_inv_head in E.
    rewrite Ep, (next_of_carried m bs p2 Hm) in Hn. injection Hn as <- Ep2.
    exists (Some m), d'. splits; [done|done|]. exists bs, ms. rewrite Ep, <-Ep2, length_app. splits; [done|lia|done].
  - apply Hwait, (next_of_begin (WireFacts.pending d) _ []); [|by rewrite app_nil_r].
    right. exists m, (drop (length (WireFacts.pending d)) bs). split.
    + intros Hd%(f_equal length). rewrite length_drop in Hd. cbn in Hd. lia.
    + replace (WireFacts.pending d) with (take (length (WireFacts.pending d)) bs) at 1; [by rewrite take_drop|].
      apply (f_equal (take (length (WireFacts.pending d)))) in E. rewrite take_app_length in E.
      by rewrite take_app_le in E by lia.
Qed.

Lemma drain_exact fuel d ms more rest :
  WireFacts.decoder_ok d → (length (WireFacts.pending d) < fuel)%nat → Forall (uncurry carries) ms → begins rest →
  WireFacts.pending d ++ more = concat ms.*2 ++ rest →
  ∃ ms1 ms2 d', drain_fuel F fuel d = (ms1.*1, None, d') ∧ WireFacts.decoder_ok d' ∧ ms = ms1 ++ ms2 ∧
    WireFacts.pending d' ++ more = concat ms2.*2 ++ rest ∧
    next_of (WireFacts.pending d') = (Ok None, WireFacts.pending d').
Proof.
  revert d ms. induction fuel as [|fuel IH]; intros d ms Hok Hfuel Hms Hrest E; [lia|].
  destruct (next_cases d ms more rest Hok Hms Hrest E) as ([m|] & d' & Ed & Hok' & H); cbn; rewrite Ed.
  - destruct H as (bs & ms' & -> & Hlt & E'). apply Forall_cons in Hms as [_ Hms'].
    destruct (IH d' ms' Hok') as (ms1 & ms2 & d2 & -> & ? & -> & ? & ?); try done; [lia|].
    by exists ((m, bs) :: ms1), ms2, d2.
  - destruct H as [Ep Hn]. exists [], ms, d'. rewrite Ep. by splits.
Qed.
Lemma receive_exact chunks d ms rest :
  WireFacts.decoder_ok d → next_of (WireFacts.pending d) = (Ok None, WireFacts.pending d) →
  Forall (uncurry carries) ms → begins rest → WireFacts.pending d ++ concat chunks.*2 = concat ms.*2 ++ rest →
  ∃ d', receive F chunks d = (ms.*1, None, d') ∧ WireFacts.decoder_ok d' ∧ WireFacts.pending d' = rest.
Proof.
  revert d ms. induction chunks as [|[cap bytes] chunks IH]; intros d ms Hok Hnone Hms Hrest E;
    cbn [receive fmap list_fmap concat snd] in *.
  - rewrite app_nil_r in E. exists d. destruct ms as [|[m bs] ms]; [done|].
    apply Forall_cons in Hms as [Hm _]. cbn [fmap list_fmap concat snd] in E. rewrite <-app_assoc in E.
    by rewrite E, (next_of_carried m bs _ Hm) in Hnone.
  - destruct (WireFacts.push_refines cap bytes d Hok) as [Hok1 Hp1]. rewrite app_assoc, <-Hp1 in E.
    assert (length (WireFacts.pending (Stream.push cap bytes d)) <
            S (length (fd_buffer (Stream.push cap bytes d))))%nat as Hfuel
      by (unfold WireFacts.pending; rewrite length_drop; lia).
    destruct (drain_exact _ _ _ _ _ Hok1 Hfuel Hms Hrest E) as (ms1 & ms2 & d2 & Hd & Hok2 & -> & E2 & Hn2).
    apply Forall_app in Hms as [_ Hms2]. destruct (IH d2 ms2 Hok2 Hn2 Hms2 Hrest E2) as (d3 & Hr & ? & ?).
    exists d3. unfold drain. rewrite Hd, Hr. by rewrite fmap_app.
Qed.
End stream.
End StreamFacts.

(** * Alerts on the wire *)

Module AtapStreamFacts.
Import Atap AtapFacts StreamFacts FramedStream.

Section atap.
Context {J : Type} `{!ExtrasJson J} (limits : AtapLimits).

(** A message and the frame the codec makes of it. *)
Definition sent (p : AtapMessage J * list byte) : Prop :=
  message_wf p.1 ∧ json_keeps p.1 ∧ encode limits p.1 = Ok p.2.
Lemma sent_carries p : sent p → uncurry (carries (atap_format limits)) p.
Proof.
  destruct p as [m bs]. intros (Hwf & Hj & He). destruct (decode_encoded limits m bs Hwf Hj He) as (Hd & Hf & _ & Hl).
  done.
Qed.
Lemma all_sent ms : Forall sent ms → Forall (uncurry (carries (atap_format limits))) ms.
Proof. intros H. eapply Forall_impl; [exact H|]. apply sent_carries. Qed.

(** C14: Alert messages survive the wire, and nothing else gets through.  The frames the codec
    makes of any sequence of messages (with well-formed fields, and extras that JSON keeps),
    cut into reads anyhow and fed to a stream decoder whose buffer has any capacities, come
    out as exactly these messages, in order, without error, panic or left-over bytes.  The
    decoder never panics on any bytes at all, and a frame it accepts is, byte for byte, what
    the codec writes for the well-formed message it returns - up to how JSON spells the
    extras - so no message has two frames and no limit can be exceeded. *)
Theorem atap_roundtrip ms chunks frame :
  Forall sent ms → concat chunks.*2 = concat ms.*2 →
  (∃ d, receive (atap_format limits) chunks Stream.with_capacity = (ms.*1, None, d) ∧ WireFacts.pending d = []) ∧
  match decode limits frame with Ok m => message_wf m ∧ frame_says limits m frame | Err e => e ≠ Panicked end.
Proof.
  intros Hms E. split; [|apply decode_says].
  destruct (receive_exact (atap_format limits) ltac:(unfold atap_format, ATAP_HEADER_BYTES; cbn; lia)
    chunks Stream.with_capacity ms []) as (d & Hr & _ & Hp);
    [unfold WireFacts.decoder_ok; cbn; lia|reflexivity|by apply all_sent|by left|by rewrite app_nil_r|].
  eauto.
Qed.
End atap.

(** Extras that are a text, written as a JSON object with one member. *)
Definition w_open : list byte := string_bytes "{".
#[local] Instance w_json : ExtrasJson (list byte) := {|
  extras_to_vec t := Ok (string_bytes "[" ++ t);
  value_from_slice bs := match bs with [] => Err "EOF while parsing a value" | _ :: t => Ok (Some t) end;
|}.
Definition w_limits : AtapLimits := mkAtapLimits 1024 64 64 128 256.
Definition w_alert : ForwardAlert (list byte) :=
  mkForwardAlert 1700000000000 SevWarning
    (SrcSandbox (mkSandboxSource 3 7 (replicate 16 Byte.x01) (Some (mkProcessMarker 12 99 (replicate 16 Byte.x00)))))
    "policy.deny" (Some "blocked") w_open.
Definition w_messages : list (AtapMessage (list byte)) := [AProducerHello 41; AForwardAlert w_alert; AHeartbeat 1].
Definition w_frame (m : AtapMessage (list byte)) : list byte := match encode w_limits m with Ok bs => bs | Err _ => [] end.
Definition w_sent : list (AtapMessage (list byte) * list byte) := (λ m, (m, w_frame m)) <$> w_messages.
Definition w_chunks : list (nat * list byte) := (λ b, (64%nat, [b])) <$> concat w_sent.*2.

Lemma atap_roundtrip_witness :
  (∃ d, receive (atap_format w_limits) w_chunks Stream.with_capacity = (w_messages, None, d) ∧ WireFacts.pending d = []) ∧
  match decode w_limits (w_frame (AForwardAlert w_alert)) with
  | Ok m => message_wf m ∧ frame_says w_limits m (w_frame (AForwardAlert w_alert)) | Err e => e ≠ Panicked end.
Proof.
  assert (Forall (sent w_limits) w_sent) as Hs.
  { apply Forall_fmap, Forall_forall. intros m Hm. unfold sent, compose. cbn [fst snd]. splits.
    - repeat (apply elem_of_cons in Hm as [->|Hm]; [vm_compute; repeat split; (reflexivity || discriminate)|]). by apply elem_of_nil in Hm.
    - destruct m; try exact I. cbn. intros bs [= <-]. reflexivity.
    - repeat (apply elem_of_cons in Hm as [->|Hm]; [vm_compute; reflexivity|]). by apply elem_of_nil in Hm. }
  exact (atap_roundtrip w_limits w_sent w_chunks (w_frame (AForwardAlert w_alert)) Hs ltac:(vm_compute; reflexivity)).
Defined.
End AtapStreamFacts.
