(* ===== verification/AlertProxy.v ===== *)
(** The alert proxy: crates/apps/alert_proxy (registry.rs, broadcaster.rs, daemon_ingress.rs,
    subscriber/, startup/bootstrap.rs) and the subscriber messages of
    crates/contracts/alert_delivery/src/subscriber/model.rs.

    The proxy takes alerts from one daemon at a time over a Unix socket, queues them for a
    broadcaster thread, and sends them to the subscribers whose subscription matches.  Every
    connection has threads of its own.  Each access to something threads share (a flag, a
    channel, a lock's critical section) and each socket call is one step of [Proxy.step];
    threads interleave arbitrarily, memory is sequentially consistent.  No lock is ever
    poisoned, because no critical section can panic.  What a step meets outside - bytes read,
    whether a write or a spawn fails, the clock, a fresh UUID - comes with the action.
    [serde_json], [subtle] and [uuid] are third-party crates. *)
From stdpp Require Import prelude gmap strings pretty.
From Stdlib Require Import ZArith Lia.
From coqutil Require Import Byte.
From S2P Require Import Prelude Bytes Wire AlertCodec.

Open Scope Z_scope.

(** * subscriber/model.rs *)

Record HandshakeRequest := mkHandshakeRequest {
  hq_version : string;
  hq_token : string;
  hq_client_id : string;
}.
(** [J] is [serde_json::Map<String, Value>], the type of the tags. *)
Record SubscribeRequest (J : Type) := mkSubscribeRequest {
  sq_id : string;
  sq_topics : list string;
  sq_severity : list DeliverySeverity;
  sq_tags : J;
}.
Arguments mkSubscribeRequest {J}.
Arguments sq_id {J}.
Arguments sq_topics {J}.
Arguments sq_severity {J}.
Arguments sq_tags {J}.
Record PongRequest := mkPongRequest { pq_nonce : Z; pq_ts : Z }.
Inductive SubscriberRequest (J : Type) :=
| RqHandshake (h : HandshakeRequest)
| RqSubscribe (s : SubscribeRequest J)
| RqPong (p : PongRequest).
Arguments RqHandshake {J}.
Arguments RqSubscribe {J}.
Arguments RqPong {J}.

Record HandshakeResponse := mkHandshakeResponse { hp_session_id : string; hp_heartbeat_interval : Z }.
Record SubscribeResponse := mkSubscribeResponse { sp_id : string; sp_subscribed_topics : list string }.
Record PingMessage := mkPingMessage { pm_nonce : Z; pm_ts : Z }.
Record SubscriberErrorResponse := mkErrorResponse { ep_id : option string; ep_code : string; ep_message : string }.

Record SandboxProcessSource := mkProcessSource {
  ps_pid : Z;
  ps_start_time_ticks : Z;
  ps_executable_name_hex : string;
}.
Record SandboxAlertSource := mkSandboxAlertSource {
  sas_gateway_id : Z;
  sas_sb_id : Z;
  sas_boot_id : string;
  sas_process : option SandboxProcessSource;
}.
Inductive AlertSource :=
| ASTrace (trid : string)
| ASSandbox (sandbox : SandboxAlertSource).
Record ExternalAlert (J : Type) := mkExternalAlert {
  ea_id : string;
  ea_ts : Z;
  ea_source : AlertSource;
  ea_s : DeliverySeverity;
  ea_cat : string;
  ea_description : option string;
  ea_labels : J;
  ea_extras : J;
}.
Arguments mkExternalAlert {J}.

Module External.
(** [format_hex]. *)
Fixpoint format_hex (bytes : list byte) : string :=
  match bytes with
  | [] => EmptyString
  | b :: bs =>
      String (Text.hex_digit (Z.shiftr (byte.unsigned b) 4))
        (String (Text.hex_digit (Z.land (byte.unsigned b) 15)) (format_hex bs))
  end.
(** [format_boot_id], of sixteen bytes. *)
Definition format_boot_id (bytes : list byte) : string :=
  let hex := format_hex bytes in
  String.substring 0 8 hex +:+ "-" +:+ String.substring 8 4 hex +:+ "-" +:+ String.substring 12 4 hex +:+ "-"
    +:+ String.substring 16 4 hex +:+ "-" +:+ String.substring 20 12 hex.
Definition of_process (p : SandboxProcessMarker) : SandboxProcessSource :=
  mkProcessSource (spm_pid p) (spm_start_time_ticks p) (format_hex (spm_executable_name p)).
Definition of_sandbox (s : SandboxDeliverySource) : SandboxAlertSource :=
  mkSandboxAlertSource (sds_gateway_id s) (sds_sb_id s) (format_boot_id (sds_boot_id s)) (of_process <$> sds_process s).
Definition of_source (s : DeliverySource) : AlertSource :=
  match s with SrcTrace trid => ASTrace trid | SrcSandbox s => ASSandbox (of_sandbox s) end.
End External.

(** The JSON the proxy reads and writes, and [Map::new] and [Map::is_empty]. *)
Class ProxyJson (J : Type) := {
  pj_extras :: ExtrasJson J;
  pj_alert :: Serialize (ExternalAlert J);
  pj_handshake :: Serialize HandshakeResponse;
  pj_subscribed :: Serialize SubscribeResponse;
  pj_ping :: Serialize PingMessage;
  pj_error :: Serialize SubscriberErrorResponse;
  pj_request :: Deserialize (SubscriberRequest J);
  map_new : J;
  map_is_empty : J → bool;
}.
(** [subtle::ConstantTimeEq] on byte slices of one length. *)
Class ConstantTimeEq := {
  ct_eq : list byte → list byte → Z;
  ct_eq_spec a b : length a = length b → ct_eq a b = if decide (a = b) then 1 else 0;
}.

(** * registry.rs: subscriptions *)

Record Subscription := mkSubscription { sb_topics : gset string; sb_severity_mask : Z }.

Module Subs.
Definition severity_bit (s : DeliverySeverity) : Z := Z.shiftl 1 (Severity.code s).
Definition new (topics : list string) (severities : list DeliverySeverity) : Subscription :=
  mkSubscription (list_to_set topics) (foldl (λ mask s, Z.lor mask (severity_bit s)) 0 severities).
(** The loop of [validates_severities]. *)
Fixpoint distinct (mask : Z) (severities : list DeliverySeverity) : bool :=
  match severities with
  | [] => true
  | s :: rest =>
      if negb (Z.land mask (severity_bit s) =? 0) then false else distinct (Z.lor mask (severity_bit s)) rest
  end.
Definition validates_severities (severities : list DeliverySeverity) : bool :=
  if (3 <? length severities)%nat then false else distinct 0 severities.
Definition accepts_severity (s : Subscription) (severity : DeliverySeverity) : bool :=
  (sb_severity_mask s =? 0) || negb (Z.land (sb_severity_mask s) (severity_bit severity) =? 0).
(** The filter of [matching_sender]. *)
Definition matches (s : Subscription) (category : string) (severity : DeliverySeverity) : bool :=
  bool_decide (category ∈ sb_topics s) && accepts_severity s severity.
End Subs.

(** * subscriber/auth.rs *)

Module TokenVerifier.
Section verifier.
Context `{!ConstantTimeEq}.
Definition accepts (tokens : list string) (candidate : string) : bool :=
  foldl (λ accepted token,
    if bool_decide (length (string_bytes token) = length (string_bytes candidate))
    then Z.lor accepted (ct_eq (string_bytes token) (string_bytes candidate)) else accepted) 0 tokens =? 1.
End verifier.
End TokenVerifier.

(** * subscriber/activity.rs *)

(** Instants and durations in nanoseconds; [Instant::checked_add] fails past 2{^63} seconds. *)
Definition millis (ms : Z) : Z := ms * 1000000.
Definition INSTANT_MAX : Z := (2 ^ 63 - 1) * 1000000000 + 999999999.
Definition instant_add (i d : Z) : option Z := if i + d <=? INSTANT_MAX then Some (i + d) else None.
Definition duration_since (now i : Z) : Z := Z.max 0 (now - i).

Record OutstandingPing := mkOutstanding { op_nonce : Z; op_deadline : Z }.
Record ActivityState := mkActivity {
  ac_last_peer_activity : Z;
  ac_last_ping : Z;
  ac_outstanding : option OutstandingPing;
  ac_next_nonce : Z;
}.
Inductive HeartbeatAction := HbNone | HbSend (nonce : Z) | HbClose.

Module Activity.
Definition new (now : Z) : ActivityState := mkActivity now now None 1.
Definition record_request (now : Z) (s : ActivityState) : ActivityState :=
  mkActivity now (ac_last_ping s) (ac_outstanding s) (ac_next_nonce s).
Definition accept_pong (now nonce : Z) : ST ActivityState string () := λ s,
  match ac_outstanding s with
  | None => (Err "pong received without an outstanding ping", s)
  | Some ping =>
      if negb (op_nonce ping =? nonce) then (Err "pong nonce does not match the outstanding ping", s)
      else (Ok (), mkActivity now (ac_last_ping s) None (ac_next_nonce s))
  end.
Definition heartbeat_action (now heartbeat_interval pong_timeout peer_idle_timeout : Z) (s : ActivityState)
    : HeartbeatAction * ActivityState :=
  if peer_idle_timeout <=? duration_since now (ac_last_peer_activity s) then (HbClose, s)
  else if match ac_outstanding s with Some ping => op_deadline ping <=? now | None => false end then (HbClose, s)
  else if bool_decide (ac_outstanding s = None) && (heartbeat_interval <=? duration_since now (ac_last_ping s))
  then
    let nonce := ac_next_nonce s in
    let s := mkActivity (ac_last_peer_activity s) now (ac_outstanding s) (Z.max (wrapping_add_u64 nonce 1) 1) in
    match instant_add now pong_timeout with
    | None => (HbClose, s)
    | Some deadline =>
        (HbSend nonce, mkActivity (ac_last_peer_activity s) now (Some (mkOutstanding nonce deadline)) (ac_next_nonce s))
    end
  else (HbNone, s).
End Activity.

(** * Sockets *)

(** What [read] on a socket with a timeout gives; no bytes is the end of the stream.  The
    capacity is that of the decoder's buffer then. *)
Inductive SocketRead :=
| SockData (capacity : nat) (bytes : list byte)
| SockRetry                                                (* [WouldBlock] or [TimedOut] *)
| SockError (text : string).

Module Sock.
(** [to_string] of a codec error. *)
Definition codec_error (e : fault DeliveryCodecError) : fault string :=
  match e with Panicked => Panicked | Failed e => Failed (dce_stage e +:+ ": " +:+ dce_message e) end.
(** [read_available] and [read_request]: a message that is buffered, or one read from the
    socket; with the bytes that were read. *)
Definition read_message {M} (F : FrameFormat M) (closed failed : string) (read : SocketRead) (d : FrameDecoder)
    : result (fault string) (option M) * list byte * FrameDecoder :=
  match FramedStream.next F d with
  | (Err e, d) => (Err (codec_error e), [], d)
  | (Ok (Some m), d) => (Ok (Some m), [], d)
  | (Ok None, d) =>
      match read with
      | SockData _ [] => (Err (Failed closed), [], d)
      | SockData capacity bytes =>
          let '(r, d) := FramedStream.next F (Stream.push capacity bytes d) in (map_err codec_error r, bytes, d)
      | SockRetry => (Ok None, [], d)
      | SockError text => (Err (Failed (failed +:+ text)), [], d)
      end
  end.
End Sock.

(** * The configuration the threads use *)

Record DaemonIngressConfig := mkIngressConfig {
  di_allowed_uids : list Z;
  di_allowed_gids : list Z;
  di_connection_limit : Z;
  di_max_frame_bytes : Z;
  di_max_trace_id_bytes : Z;
  di_max_category_bytes : Z;
  di_max_description_bytes : Z;
  di_max_extras_bytes : Z;
}.
Record SubscriberConfig := mkSubscriberConfig {
  su_connection_limit : Z;
  su_max_frame_bytes : Z;
  su_max_client_id_bytes : Z;
  su_max_request_id_bytes : Z;
  su_max_topics : Z;
  su_max_topic_bytes : Z;
  su_broadcast_queue_capacity : Z;
  su_queue_capacity : Z;
  su_heartbeat_interval_ms : Z;
  su_pong_timeout_ms : Z;
  su_peer_idle_timeout_ms : Z;
  su_allowed_tokens : list string;
}.
(** A subtraction that wraps. *)
Definition max_json_payload_bytes (c : SubscriberConfig) : Z :=
  (su_max_frame_bytes c - Z.of_nat JSON_FRAME_HEADER_BYTES) mod 2 ^ 64.

(** * The threads *)

Record PeerCredentials := mkPeer { pc_pid : Z; pc_uid : Z; pc_gid : Z }.

(** [DaemonConnection], and where its thread stands. *)
Inductive ProducerPc (J : Type) :=
| PrHello                                                  (* [read_next], one turn *)
| PrReady                                                  (* [ready.load] *)
| PrStopping                                               (* [stop.load] while not ready *)
| PrClaim                                                  (* the exchange on [active_producer] *)
| PrReject (code : string)
| PrWelcome
| PrLoop                                                   (* [stop.load] *)
| PrRead                                                   (* [read_available] *)
| PrHandle (m : AtapMessage J)
| PrDrop (r : result (fault string) ())
| PrDone (r : result (fault string) ()).
Arguments PrHello {J}.
Arguments PrReady {J}.
Arguments PrStopping {J}.
Arguments PrClaim {J}.
Arguments PrReject {J}.
Arguments PrWelcome {J}.
Arguments PrLoop {J}.
Arguments PrRead {J}.
Arguments PrHandle {J}.
Arguments PrDrop {J}.
Arguments PrDone {J}.
Record Producer (J : Type) := mkProducer {
  pr_peer : PeerCredentials;
  pr_limits : AtapLimits;
  pr_decoder : FrameDecoder;
  pr_claimed : bool;
  pr_pc : ProducerPc J;
  pr_input : list byte;                                    (* the bytes read so far *)
  pr_messages : list (AtapMessage J);                      (* the messages in them *)
  pr_output : list (AtapMessage J);                        (* the messages written *)
}.
Arguments mkProducer {J}.
Arguments pr_peer {J}.
Arguments pr_limits {J}.
Arguments pr_decoder {J}.
Arguments pr_claimed {J}.
Arguments pr_pc {J}.
Arguments pr_input {J}.
Arguments pr_messages {J}.
Arguments pr_output {J}.

(** [BroadcastWorker]; sessions are named by their index. *)
Inductive BroadcastPc (J : Type) :=
| BcLoop                                                   (* [stop.load] *)
| BcRecv                                                   (* [receiver.recv_timeout] *)
| BcSnapshot (a : ForwardAlert J)                          (* [registry.snapshot] *)
| BcMatch (a : ForwardAlert J) (todo found : list nat)     (* [closed.load] of the next session *)
| BcLock (a : ForwardAlert J) (s : nat) (todo found : list nat) (* its subscription *)
| BcEncode (a : ForwardAlert J) (found : list nat)
| BcSend (frame : list byte) (todo : list nat)             (* [outbound.try_send] *)
| BcClose (frame : list byte) (s : nat) (todo : list nat)  (* the queue was full or gone *)
| BcDone.
Arguments BcLoop {J}.
Arguments BcRecv {J}.
Arguments BcSnapshot {J}.
Arguments BcMatch {J}.
Arguments BcLock {J}.
Arguments BcEncode {J}.
Arguments BcSend {J}.
Arguments BcClose {J}.
Arguments BcDone {J}.

(** [SubscriberSession::run] and [SessionWriter::run]. *)
Inductive SessionPc (J : Type) :=
| SsHello                                                  (* [read_handshake]: the read *)
| SsHelloWait                                              (* its stop and deadline *)
| SsGreet (h : HandshakeRequest)
| SsRegister (id : string)
| SsSpawn (id : string)
| SsLoop                                                   (* [stop.load] *)
| SsClosed                                                 (* [handle.is_closed] *)
| SsRead                                                   (* [read_request] *)
| SsSubscribe (s : SubscribeRequest J)
| SsAccept (s : Subscription) (confirmation : list byte)
| SsPong (p : PongRequest)
| SsFail (e : SubscriberErrorResponse) (text : string)     (* [write_error], then the error *)
| SsRemove (r : result (fault string) ())
| SsClose (r : result (fault string) ())
| SsJoin (r : result (fault string) ())
| SsDone (r : result (fault string) ()).
Arguments SsHello {J}.
Arguments SsHelloWait {J}.
Arguments SsGreet {J}.
Arguments SsRegister {J}.
Arguments SsSpawn {J}.
Arguments SsLoop {J}.
Arguments SsClosed {J}.
Arguments SsRead {J}.
Arguments SsSubscribe {J}.
Arguments SsAccept {J}.
Arguments SsPong {J}.
Arguments SsFail {J}.
Arguments SsRemove {J}.
Arguments SsClose {J}.
Arguments SsJoin {J}.
Arguments SsDone {J}.
Inductive WriterPc :=
| WrNone                                                   (* not spawned *)
| WrLoop | WrClosed | WrRecv
| WrWrite (frame : list byte)
| WrHeartbeat
| WrPing (frame : list byte)
| WrClose (r : result (fault string) ())
| WrDone (r : result (fault string) ()).
(** What happened to a session that concerns its subscription: it was set, or the [n]th alert
    was held against it. *)
Inductive SessionEvent := EvSubscribed (s : Subscription) | EvOffered (n : nat).
(** A session with its [SubscriberHandle]: [se_id] is the handle's once it is registered. *)
Record Session (J : Type) := mkSession {
  se_pc : SessionPc J;
  se_writer : WriterPc;
  se_decoder : FrameDecoder;
  se_id : option string;
  se_subscription : option Subscription;
  se_outbound : list (list byte);
  se_receiver : bool;                                      (* the writer's end of the queue is there *)
  se_closed : bool;
  se_activity : ActivityState;
  se_hello : option HandshakeRequest;                      (* the handshake that was accepted *)
  se_since : nat;                                          (* how many alerts were taken before it registered *)
  se_events : list SessionEvent;
  se_alerts : list (list byte);                            (* the alert frames queued for it *)
  se_queued : list (list byte);                            (* all frames queued for it *)
  se_sent : list (list byte);                              (* those written *)
}.
Arguments mkSession {J}.
Arguments se_pc {J}.
Arguments se_writer {J}.
Arguments se_decoder {J}.
Arguments se_id {J}.
Arguments se_subscription {J}.
Arguments se_outbound {J}.
Arguments se_receiver {J}.
Arguments se_closed {J}.
Arguments se_activity {J}.
Arguments se_hello {J}.
Arguments se_since {J}.
Arguments se_events {J}.
Arguments se_alerts {J}.
Arguments se_queued {J}.
Arguments se_sent {J}.

(** The two accept owners. *)
Inductive AcceptPc := AcLoop | AcAccept | AcJoin | AcDone.
Record AcceptOwner := mkAcceptOwner { ao_pc : AcceptPc; ao_workers : gset nat }.

Record ProxyFlags := mkFlags {
  fl_ready : bool;
  fl_active_producer : bool;
  fl_ingress_stop : bool;
  fl_broadcast_stop : bool;
  fl_subscriber_stop : bool;
}.
(** [px_published]: the alerts the broadcaster is done matching, with the frame it made. *)
Record ProxyState (J : Type) := mkProxy {
  px_flags : ProxyFlags;
  px_ingress : AcceptOwner;
  px_producers : gmap nat (Producer J);
  px_queue : list (ForwardAlert J);
  px_caster : BroadcastPc J;
  px_published : list (ForwardAlert J * option (list byte));
  px_registry : gmap string nat;
  px_accept : AcceptOwner;
  px_sessions : gmap nat (Session J);
  px_closers : gmap nat (list nat);
}.
Arguments mkProxy {J}.
Arguments px_flags {J}.
Arguments px_ingress {J}.
Arguments px_producers {J}.
Arguments px_queue {J}.
Arguments px_caster {J}.
Arguments px_published {J}.
Arguments px_registry {J}.
Arguments px_accept {J}.
Arguments px_sessions {J}.
Arguments px_closers {J}.

(** What a step meets outside: a read, a system call that fails, a clock, a fresh UUID. *)
Record StepIo := mkStepIo {
  io_read : SocketRead;
  io_fail : option string;
  io_elapsed : bool;
  io_now : Z;
  io_epoch_ms : Z;
  io_uuid : string;
}.
Inductive MainCall := MainReady (b : bool) | MainStopIngress | MainIngressJoined | MainStopBroadcast | MainStopSubscribers.
Inductive ProxyAction :=
| ActProducer (i : nat) (io : StepIo)
| ActIngress (peer : option PeerCredentials) (reaped : gset nat) (spawned : bool)
| ActBroadcast (io : StepIo)
| ActSession (i : nat) (io : StepIo)
| ActWriter (i : nat) (io : StepIo)
| ActAccept (stream : bool) (reaped : gset nat) (spawned : bool)
| ActCloser (t : nat)                                      (* [SubscriberRegistry::close_all] *)
| ActMain (c : MainCall).

(** * Steps *)

Module Proxy.
Section proxy.
Context {J : Type} {json : ProxyJson J} {ct : ConstantTimeEq} (ingress : DaemonIngressConfig) (subscriber : SubscriberConfig).
Implicit Types (st : ProxyState J) (s : Session J) (p : Producer J).

(** ** Parts of the state *)

Definition set_flags f st : ProxyState J :=
  mkProxy f (px_ingress st) (px_producers st) (px_queue st) (px_caster st) (px_published st) (px_registry st)
    (px_accept st) (px_sessions st) (px_closers st).
Definition set_ingress o st : ProxyState J :=
  mkProxy (px_flags st) o (px_producers st) (px_queue st) (px_caster st) (px_published st) (px_registry st)
    (px_accept st) (px_sessions st) (px_closers st).
Definition set_producer i p st : ProxyState J :=
  mkProxy (px_flags st) (px_ingress st) (<[i := p]> (px_producers st)) (px_queue st) (px_caster st) (px_published st)
    (px_registry st) (px_accept st) (px_sessions st) (px_closers st).
Definition set_queue q st : ProxyState J :=
  mkProxy (px_flags st) (px_ingress st) (px_producers st) q (px_caster st) (px_published st) (px_registry st)
    (px_accept st) (px_sessions st) (px_closers st).
Definition set_caster pc st : ProxyState J :=
  mkProxy (px_flags st) (px_ingress st) (px_producers st) (px_queue st) pc (px_published st) (px_registry st)
    (px_accept st) (px_sessions st) (px_closers st).
Definition set_published l st : ProxyState J :=
  mkProxy (px_flags st) (px_ingress st) (px_producers st) (px_queue st) (px_caster st) l (px_registry st)
    (px_accept st) (px_sessions st) (px_closers st).
Definition set_registry r st : ProxyState J :=
  mkProxy (px_flags st) (px_ingress st) (px_producers st) (px_queue st) (px_caster st) (px_published st) r
    (px_accept st) (px_sessions st) (px_closers st).
Definition set_accept o st : ProxyState J :=
  mkProxy (px_flags st) (px_ingress st) (px_producers st) (px_queue st) (px_caster st) (px_published st)
    (px_registry st) o (px_sessions st) (px_closers st).
Definition set_session i s st : ProxyState J :=
  mkProxy (px_flags st) (px_ingress st) (px_producers st) (px_queue st) (px_caster st) (px_published st)
    (px_registry st) (px_accept st) (<[i := s]> (px_sessions st)) (px_closers st).
Definition set_closer t l st : ProxyState J :=
  mkProxy (px_flags st) (px_ingress st) (px_producers st) (px_queue st) (px_caster st) (px_published st)
    (px_registry st) (px_accept st) (px_sessions st) (<[t := l]> (px_closers st)).
Definition set_active b st : ProxyState J :=
  let f := px_flags st in
  set_flags (mkFlags (fl_ready f) b (fl_ingress_stop f) (fl_broadcast_stop f) (fl_subscriber_stop f)) st.

(** ** daemon_ingress.rs *)

Definition validate_peer (peer : PeerCredentials) (daemon_pid : Z) : result string () :=
  if negb (daemon_pid =? pc_pid peer) then Err "ProducerHello PID does not match SO_PEERCRED"
  else if negb (bool_decide (pc_uid peer ∈ di_allowed_uids ingress)) then Err "producer uid is not allowed"
  else if negb (bool_decide (pc_gid peer ∈ di_allowed_gids ingress)) then Err "producer gid is not allowed"
  else Ok ().

Definition at_pc pc p : Producer J :=
  mkProducer (pr_peer p) (pr_limits p) (pr_decoder p) (pr_claimed p) pc (pr_input p) (pr_messages p) (pr_output p).
Definition claimed b p : Producer J :=
  mkProducer (pr_peer p) (pr_limits p) (pr_decoder p) b (pr_pc p) (pr_input p) (pr_messages p) (pr_output p).
(** [write_message]. *)
Definition write_message (m : AtapMessage J) (io : StepIo) p : result (fault string) () * Producer J :=
  match Atap.encode (pr_limits p) m with
  | Err e => (Err (Sock.codec_error (Failed e)), p)
  | Ok _ =>
      match io_fail io with
      | Some text => (Err (Failed ("write producer frame: " +:+ text)), p)
      | None => (Ok (), mkProducer (pr_peer p) (pr_limits p) (pr_decoder p) (pr_claimed p) (pr_pc p) (pr_input p)
                          (pr_messages p) (pr_output p ++ [m]))
      end
  end.
(** [read_available]. *)
Definition read_available (io : StepIo) p : result (fault string) (option (AtapMessage J)) * Producer J :=
  let '(r, bytes, d) := Sock.read_message (atap_format (pr_limits p)) "producer closed the connection"
                          "read producer frame: " (io_read io) (pr_decoder p) in
  (r, mkProducer (pr_peer p) (pr_limits p) d (pr_claimed p) (pr_pc p) (pr_input p ++ bytes)
        (pr_messages p ++ match r with Ok (Some m) => [m] | _ => [] end) (pr_output p)).
(** [AlertBroadcaster::try_publish]. *)
Definition try_publish (a : ForwardAlert J) st : ProxyState J :=
  match px_caster st with
  | BcDone => st
  | _ => if Z.of_nat (length (px_queue st)) <? su_broadcast_queue_capacity subscriber
         then set_queue (px_queue st ++ [a]) st else st
  end.
(** [run_inner] and the drop after it. *)
Definition producer_step (i : nat) (io : StepIo) st : option (ProxyState J) :=
  p ← px_producers st !! i;
  let to pc := Some (set_producer i (at_pc pc p) st) in
  let f := px_flags st in
  match pr_pc p with
  | PrHello =>
      let '(r, p) := read_available io p in
      Some (set_producer i (at_pc
        (match r with
         | Err e => PrDrop (Err e)
         | Ok None => if io_elapsed io then PrDrop (Err (Failed "producer handshake timed out")) else PrHello
         | Ok (Some (AProducerHello pid)) =>
             match validate_peer (pr_peer p) pid with
             | Err e => PrDrop (Err (Failed e))
             | Ok _ => PrReady
             end
         | Ok (Some _) => PrReject "producer_hello_required"
         end) p) st)
  | PrReady => to (if fl_ready f then PrClaim else PrStopping)
  | PrStopping => to (if fl_ingress_stop f then PrReject "proxy_stopping" else PrReady)
  | PrClaim =>
      if fl_active_producer f then to (PrReject "producer_slot_busy")
      else Some (set_active true (set_producer i (claimed true (at_pc PrWelcome p)) st))
  | PrReject code =>
      let '(r, p) := write_message (AProducerReject code) io p in
      Some (set_producer i (at_pc (PrDrop (match r with Err e => Err e | Ok _ => Err (Failed code) end)) p) st)
  | PrWelcome =>
      let '(r, p) := write_message AProducerWelcome io p in
      Some (set_producer i (at_pc (match r with Err e => PrDrop (Err e) | Ok _ => PrLoop end) p) st)
  | PrLoop => to (if fl_ingress_stop f then PrDrop (Ok ()) else PrRead)
  | PrRead =>
      let '(r, p) := read_available io p in
      Some (set_producer i (at_pc
        (match r with
         | Err e => PrDrop (Err e)
         | Ok (Some m) => PrHandle m
         | Ok None => if io_elapsed io then PrDrop (Ok ()) else PrLoop
         end) p) st)
  | PrHandle (AForwardAlert a) => Some (try_publish a (set_producer i (at_pc PrLoop p) st))
  | PrHandle (AHeartbeat nonce) =>
      let '(r, p) := write_message (AHeartbeatAck nonce) io p in
      Some (set_producer i (at_pc (match r with Err e => PrDrop (Err e) | Ok _ => PrLoop end) p) st)
  | PrHandle _ => to (PrDrop (Err (Failed "unexpected ATAP message after ProducerWelcome")))
  | PrDrop r =>
      let st' := set_producer i (claimed false (at_pc (PrDone r) p)) st in
      Some (if pr_claimed p then set_active false st' else st')
  | PrDone _ => None
  end.

(** [DaemonAcceptOwner::run]: [reaped] are finished workers. *)
Definition producer_finished (m : gmap nat (Producer J)) (i : nat) : bool :=
  match m !! i with Some p => match pr_pc p with PrDone _ => true | _ => false end | None => true end.
Definition new_producer (peer : PeerCredentials) (limits : AtapLimits) : Producer J :=
  mkProducer peer limits Stream.with_capacity false PrHello [] [] [].
Definition ingress_limits : result DeliveryCodecError AtapLimits :=
  Limits.new (di_max_frame_bytes ingress) (di_max_trace_id_bytes ingress) (di_max_category_bytes ingress)
    (di_max_description_bytes ingress) (di_max_extras_bytes ingress).
Definition ingress_step (peer : option PeerCredentials) (reaped : gset nat) (spawned : bool) st : option (ProxyState J) :=
  let o := px_ingress st in
  match ao_pc o with
  | AcLoop => Some (set_ingress (mkAcceptOwner (if fl_ingress_stop (px_flags st) then AcJoin else AcAccept) (ao_workers o)) st)
  | AcAccept =>
      if forallb (producer_finished (px_producers st)) (elements reaped) then
        let workers := ao_workers o ∖ reaped in
        let skip := Some (set_ingress (mkAcceptOwner AcLoop workers) st) in
        match peer, ingress_limits with
        | Some peer, Ok limits =>
            if (di_connection_limit ingress <=? Z.of_nat (size workers)) || negb spawned then skip
            else
              let i := fresh (dom (px_producers st)) in
              Some (set_producer i (new_producer peer limits) (set_ingress (mkAcceptOwner AcLoop (workers ∪ {[i]})) st))
        | _, _ => skip
        end
      else None
  | AcJoin =>
      if forallb (producer_finished (px_producers st)) (elements (ao_workers o))
      then Some (set_ingress (mkAcceptOwner AcDone ∅) st) else None
  | AcDone => None
  end.

(** ** broadcaster.rs *)

(** How many alerts the broadcaster has held against the registry. *)
Definition taken st : nat :=
  length (px_published st) + match px_caster st with BcMatch _ _ _ | BcLock _ _ _ _ | BcEncode _ _ => 1 | _ => 0 end.
Definition external (a : ForwardAlert J) (uuid : string) : ExternalAlert J :=
  mkExternalAlert uuid (fa_detected_at_ms a) (External.of_source (fa_source a)) (fa_severity a) (fa_category a)
    (fa_description a) map_new (fa_extras a).
Definition published (a : ForwardAlert J) (frame : option (list byte)) pc st : ProxyState J :=
  set_caster pc (set_published (px_published st ++ [(a, frame)]) st).
Definition codec : JsonFrameCodec := mkJsonCodec (max_json_payload_bytes subscriber).

Definition offered n s : Session J :=
  mkSession (se_pc s) (se_writer s) (se_decoder s) (se_id s) (se_subscription s) (se_outbound s) (se_receiver s)
    (se_closed s) (se_activity s) (se_hello s) (se_since s) (se_events s ++ [EvOffered n]) (se_alerts s)
    (se_queued s) (se_sent s).
Definition close s : Session J :=
  mkSession (se_pc s) (se_writer s) (se_decoder s) (se_id s) (se_subscription s) (se_outbound s) (se_receiver s)
    true (se_activity s) (se_hello s) (se_since s) (se_events s) (se_alerts s) (se_queued s) (se_sent s).
(** [outbound.try_send] has room and someone to receive. *)
Definition accepts_frame s : bool :=
  se_receiver s && (Z.of_nat (length (se_outbound s)) <? su_queue_capacity subscriber).
Definition queue_alert (frame : list byte) s : Session J :=
  mkSession (se_pc s) (se_writer s) (se_decoder s) (se_id s) (se_subscription s) (se_outbound s ++ [frame])
    (se_receiver s) (se_closed s) (se_activity s) (se_hello s) (se_since s) (se_events s) (se_alerts s ++ [frame])
    (se_queued s ++ [frame]) (se_sent s).

Definition broadcast_step (io : StepIo) st : option (ProxyState J) :=
  match px_caster st with
  | BcLoop => Some (set_caster (if fl_broadcast_stop (px_flags st) then BcDone else BcRecv) st)
  | BcRecv =>
      match px_queue st with
      | [] => Some (set_caster BcLoop st)
      | a :: rest => Some (set_caster (BcSnapshot a) (set_queue rest st))
      end
  | BcSnapshot a =>
      match bt_values (px_registry st) with
      | [] => Some (published a None BcLoop st)
      | sessions => Some (set_caster (BcMatch a sessions []) st)
      end
  | BcMatch a [] [] => Some (published a None BcLoop st)
  | BcMatch a [] found => Some (set_caster (BcEncode a found) st)
  | BcMatch a (i :: todo) found =>
      s ← px_sessions st !! i;
      Some (set_caster (if se_closed s then BcMatch a todo found else BcLock a i todo found) st)
  | BcLock a i todo found =>
      s ← px_sessions st !! i;
      let found := match se_subscription s with
                   | Some sub => if Subs.matches sub (fa_category a) (fa_severity a) then found ++ [i] else found
                   | None => found
                   end in
      Some (set_caster (BcMatch a todo found) (set_session i (offered (length (px_published st)) s) st))
  | BcEncode a found =>
      match JsonFrame.encode codec (external a (io_uuid io)) with
      | Err _ => Some (published a None BcLoop st)
      | Ok frame => Some (published a (Some frame) (BcSend frame found) st)
      end
  | BcSend frame [] => Some (set_caster BcLoop st)
  | BcSend frame (i :: todo) =>
      s ← px_sessions st !! i;
      if accepts_frame s then Some (set_caster (BcSend frame todo) (set_session i (queue_alert frame s) st))
      else Some (set_caster (BcClose frame i todo) st)
  | BcClose frame i todo =>
      s ← px_sessions st !! i;
      Some (set_caster (BcSend frame todo) (set_session i (close s) st))
  | BcDone => None
  end.

(** ** subscriber/session.rs *)

Definition session_at pc s : Session J :=
  mkSession pc (se_writer s) (se_decoder s) (se_id s) (se_subscription s) (se_outbound s) (se_receiver s)
    (se_closed s) (se_activity s) (se_hello s) (se_since s) (se_events s) (se_alerts s) (se_queued s) (se_sent s).
Definition writer_at pc s : Session J :=
  mkSession (se_pc s) pc (se_decoder s) (se_id s) (se_subscription s) (se_outbound s) (se_receiver s)
    (se_closed s) (se_activity s) (se_hello s) (se_since s) (se_events s) (se_alerts s) (se_queued s) (se_sent s).
Definition set_activity a s : Session J :=
  mkSession (se_pc s) (se_writer s) (se_decoder s) (se_id s) (se_subscription s) (se_outbound s) (se_receiver s)
    (se_closed s) a (se_hello s) (se_since s) (se_events s) (se_alerts s) (se_queued s) (se_sent s).
Definition set_decoder d s : Session J :=
  mkSession (se_pc s) (se_writer s) d (se_id s) (se_subscription s) (se_outbound s) (se_receiver s)
    (se_closed s) (se_activity s) (se_hello s) (se_since s) (se_events s) (se_alerts s) (se_queued s) (se_sent s).
Definition greeted h s : Session J :=
  mkSession (se_pc s) (se_writer s) (se_decoder s) (se_id s) (se_subscription s) (se_outbound s) (se_receiver s)
    (se_closed s) (se_activity s) (Some h) (se_since s) (se_events s) (se_alerts s) (se_queued s) (se_sent s).
Definition drop_receiver s : Session J :=
  mkSession (se_pc s) (se_writer s) (se_decoder s) (se_id s) (se_subscription s) (se_outbound s) false
    (se_closed s) (se_activity s) (se_hello s) (se_since s) (se_events s) (se_alerts s) (se_queued s) (se_sent s).
(** The handle is made and registered. *)
Definition registered (id : string) (now : Z) (since : nat) s : Session J :=
  mkSession (se_pc s) (se_writer s) (se_decoder s) (Some id) None [] true false (Activity.new now) (se_hello s) since
    [] [] [] [].
(** The critical section of [accept_subscription]. *)
Definition subscribed (sub : Subscription) (confirmation : list byte) s : Session J :=
  mkSession (se_pc s) (se_writer s) (se_decoder s) (se_id s) (Some sub) (se_outbound s ++ [confirmation])
    (se_receiver s) (se_closed s) (se_activity s) (se_hello s) (se_since s) (se_events s ++ [EvSubscribed sub])
    (se_alerts s) (se_queued s ++ [confirmation]) (se_sent s).
Definition received (rest : list (list byte)) s : Session J :=
  mkSession (se_pc s) (se_writer s) (se_decoder s) (se_id s) (se_subscription s) rest (se_receiver s)
    (se_closed s) (se_activity s) (se_hello s) (se_since s) (se_events s) (se_alerts s) (se_queued s) (se_sent s).
Definition wrote (frame : list byte) s : Session J :=
  mkSession (se_pc s) (se_writer s) (se_decoder s) (se_id s) (se_subscription s) (se_outbound s) (se_receiver s)
    (se_closed s) (se_activity s) (se_hello s) (se_since s) (se_events s) (se_alerts s) (se_queued s)
    (se_sent s ++ [frame]).

Definition read_request (io : StepIo) s : result (fault string) (option (SubscriberRequest J)) * Session J :=
  let '(r, _, d) := Sock.read_message (json_format codec) "subscriber closed the connection" "read subscriber frame: "
                      (io_read io) (se_decoder s) in
  (r, set_decoder d s).
(** [write_direct], [write_error] and [SessionWriter::write_frame]: encode, then write. *)
Definition encoded `{Serialize T} (message : T) : result (fault string) (list byte) :=
  map_err (λ e, Sock.codec_error (Failed e)) (JsonFrame.encode codec message).
Definition write_all (io : StepIo) : result (fault string) () :=
  match io_fail io with Some text => Err (Failed ("write subscriber frame: " +:+ text)) | None => Ok () end.

(** The checks [run] makes on the first request. *)
Definition handshake_failure (code message : string) : SessionPc J :=
  SsFail (mkErrorResponse None code message) message.
Definition check_handshake (request : SubscriberRequest J) : SessionPc J :=
  match request with
  | RqHandshake h =>
      if negb (String.eqb (hq_version h) "v1") then handshake_failure "unsupported_version" "protocol version must be v1"
      else if bool_decide (hq_client_id h = EmptyString)
              || (su_max_client_id_bytes subscriber <? Z.of_nat (String.length (hq_client_id h)))
      then handshake_failure "invalid_client_id" "client_id is invalid"
      else if negb (TokenVerifier.accepts (su_allowed_tokens subscriber) (hq_token h))
      then handshake_failure "authentication_failed" "authentication failed"
      else SsGreet h
  | _ => handshake_failure "handshake_required" "first request must be handshake"
  end.
(** [validate_subscription]. *)
Definition topic_char (c : Ascii.ascii) : bool :=
  let n := Z.of_N (Ascii.N_of_ascii c) in
  ((48 <=? n) && (n <=? 57)) || ((65 <=? n) && (n <=? 90)) || ((97 <=? n) && (n <=? 122))
  || (n =? 46) || (n =? 45) || (n =? 95) || (n =? 47).
Definition bad_topic (topic : string) : bool :=
  bool_decide (topic = EmptyString) || (su_max_topic_bytes subscriber <? Z.of_nat (String.length topic))
  || negb (forallb topic_char (String.list_ascii_of_string topic)).
Definition validate_subscription (q : SubscribeRequest J) : result string () :=
  if bool_decide (sq_id q = EmptyString) || (su_max_request_id_bytes subscriber <? Z.of_nat (String.length (sq_id q)))
  then Err "request id is invalid"
  else if su_max_topics subscriber <? Z.of_nat (length (sq_topics q)) then Err "too many topics"
  else if existsb bad_topic (sq_topics q) then Err "subscription topic is invalid"
  else if negb (map_is_empty (sq_tags q)) then Err "filter.tags must be empty in v1"
  else if negb (Subs.validates_severities (sq_severity q))
  then Err "filter.severity must contain at most one of each supported value"
  else Ok ().
(** What [run_reader] does with a request. *)
Definition dispatch (request : SubscriberRequest J) : SessionPc J :=
  match request with
  | RqSubscribe q => SsSubscribe q
  | RqPong p => SsPong p
  | RqHandshake _ =>
      SsFail (mkErrorResponse None "unexpected_handshake" "handshake is only valid as the first request")
        "unexpected handshake"
  end.

(** Before the handle exists an error ends the session; afterwards it is taken down first. *)
Definition ended (r : result (fault string) ()) s : SessionPc J :=
  match se_id s with None => SsDone r | Some _ => SsRemove r end.

Definition session_step (i : nat) (io : StepIo) st : option (ProxyState J) :=
  s ← px_sessions st !! i;
  let to pc := Some (set_session i (session_at pc s) st) in
  let stop := fl_subscriber_stop (px_flags st) in
  match se_pc s with
  | SsHello =>
      let '(r, s) := read_request io s in
      Some (set_session i (session_at
        (match r with
         | Err e => SsDone (Err e)
         | Ok None => SsHelloWait
         | Ok (Some request) => check_handshake request
         end) s) st)
  | SsHelloWait =>
      to (if stop then SsDone (Err (Failed "proxy is stopping"))
          else if io_elapsed io then SsDone (Err (Failed "subscriber handshake timed out")) else SsHello)
  | SsGreet h =>
      let id := "sess_" +:+ io_uuid io in
      match encoded (mkHandshakeResponse id (su_heartbeat_interval_ms subscriber / 1000)) with
      | Err e => to (SsDone (Err e))
      | Ok _ =>
          match write_all io with
          | Err e => to (SsDone (Err e))
          | Ok _ => Some (set_session i (session_at (SsRegister id) (greeted h s)) st)
          end
      end
  | SsRegister id =>
      match io_fail io with
      | Some text => to (SsDone (Err (Failed ("clone subscriber closer: " +:+ text))))
      | None =>
          let s' := registered id (io_now io) (taken st) s in
          let st' := set_registry (<[id := i]> (px_registry st)) st in
          match px_registry st !! id with
          | Some _ => Some (set_session i (session_at (SsDone (Err (Failed "subscriber session id collision")))
                                             (drop_receiver s')) st')
          | None => Some (set_session i (session_at (SsSpawn id) s') st')
          end
      end
  | SsSpawn id =>
      match io_fail io with
      | Some text =>
          Some (set_session i (session_at (SsRemove (Err (Failed ("spawn subscriber writer: " +:+ text))))
                                 (drop_receiver s)) st)
      | None => Some (set_session i (session_at SsLoop (writer_at WrLoop s)) st)
      end
  | SsLoop => to (if stop then SsRemove (Ok ()) else SsClosed)
  | SsClosed => to (if se_closed s then SsRemove (Ok ()) else SsRead)
  | SsRead =>
      let '(r, s) := read_request io s in
      Some (set_session i (session_at
        (match r with Err e => SsRemove (Err e) | Ok None => SsLoop | Ok (Some request) => dispatch request end) s) st)
  | SsSubscribe q =>
      let s := set_activity (Activity.record_request (io_now io) (se_activity s)) s in
      Some (set_session i (session_at
        (match validate_subscription q with
         | Err message => SsFail (mkErrorResponse (Some (sq_id q)) "invalid_subscription" message) "invalid subscription"
         | Ok _ =>
             match encoded (mkSubscribeResponse (sq_id q) (sq_topics q)) with
             | Err e => SsRemove (Err e)
             | Ok confirmation => SsAccept (Subs.new (sq_topics q) (sq_severity q)) confirmation
             end
         end) s) st)
  | SsAccept sub confirmation =>
      if accepts_frame s then Some (set_session i (session_at SsLoop (subscribed sub confirmation s)) st)
      else to (SsRemove (Err (Failed "subscriber outbound queue rejected subscription response")))
  | SsPong q =>
      let '(r, a) := Activity.accept_pong (io_now io) (pq_nonce q) (se_activity s) in
      Some (set_session i (session_at
        (match r with Err e => SsRemove (Err (Failed e)) | Ok _ => SsLoop end) (set_activity a s)) st)
  | SsFail e text =>
      to (ended (_ ← encoded e; _ ← write_all io; Err (Failed text)) s)
  | SsRemove r =>
      let st' := match se_id s with Some id => set_registry (delete id (px_registry st)) st | None => st end in
      Some (set_session i (session_at (SsClose r) s) st')
  | SsClose r => Some (set_session i (session_at (SsJoin r) (close s)) st)
  | SsJoin r =>
      match se_writer s with
      | WrNone => to (SsDone r)
      | WrDone w => to (SsDone (match r with Ok _ => w | Err e => Err e end))
      | _ => None
      end
  | SsDone _ => None
  end.

Definition writer_step (i : nat) (io : StepIo) st : option (ProxyState J) :=
  s ← px_sessions st !! i;
  let to pc := Some (set_session i (writer_at pc s) st) in
  match se_writer s with
  | WrNone => None
  | WrLoop => to (if fl_subscriber_stop (px_flags st) then WrClose (Ok ()) else WrClosed)
  | WrClosed => to (if se_closed s then WrClose (Ok ()) else WrRecv)
  | WrRecv =>
      match se_outbound s with
      | [] => to WrHeartbeat
      | frame :: rest => Some (set_session i (writer_at (WrWrite frame) (received rest s)) st)
      end
  | WrWrite frame =>
      match write_all io with
      | Err e => to (WrClose (Err e))
      | Ok _ => Some (set_session i (writer_at WrHeartbeat (wrote frame s)) st)
      end
  | WrHeartbeat =>
      let '(action, a) := Activity.heartbeat_action (io_now io) (millis (su_heartbeat_interval_ms subscriber))
                            (millis (su_pong_timeout_ms subscriber)) (millis (su_peer_idle_timeout_ms subscriber))
                            (se_activity s) in
      Some (set_session i (writer_at
        (match action with
         | HbNone => WrLoop
         | HbClose => WrClose (Ok ())
         | HbSend nonce =>
             match encoded (mkPingMessage nonce (io_epoch_ms io)) with
             | Err e => WrClose (Err e)
             | Ok frame => WrPing frame
             end
         end) (set_activity a s)) st)
  | WrPing frame => to (match write_all io with Err e => WrClose (Err e) | Ok _ => WrLoop end)
  | WrClose r => Some (set_session i (writer_at (WrDone r) (drop_receiver (close s))) st)
  | WrDone _ => None
  end.

(** [SubscriberAcceptOwner::run], without its [close_all] (see [closer_step]). *)
Definition session_finished (m : gmap nat (Session J)) (i : nat) : bool :=
  match m !! i with Some s => match se_pc s with SsDone _ => true | _ => false end | None => true end.
Definition new_session : Session J :=
  mkSession SsHello WrNone Stream.with_capacity None None [] false false (Activity.new 0) None 0 [] [] [] [].
Definition accept_step (stream : bool) (reaped : gset nat) (spawned : bool) st : option (ProxyState J) :=
  let o := px_accept st in
  match ao_pc o with
  | AcLoop => Some (set_accept (mkAcceptOwner (if fl_subscriber_stop (px_flags st) then AcJoin else AcAccept) (ao_workers o)) st)
  | AcAccept =>
      if forallb (session_finished (px_sessions st)) (elements reaped) then
        let workers := ao_workers o ∖ reaped in
        if negb stream || (su_connection_limit subscriber <=? Z.of_nat (size workers)) || negb spawned
           || negb (is_ok (JsonFrame.new (max_json_payload_bytes subscriber)))
        then Some (set_accept (mkAcceptOwner AcLoop workers) st)
        else
          let i := fresh (dom (px_sessions st)) in
          Some (set_session i new_session (set_accept (mkAcceptOwner AcLoop (workers ∪ {[i]})) st))
      else None
  | AcJoin =>
      if forallb (session_finished (px_sessions st)) (elements (ao_workers o))
      then Some (set_accept (mkAcceptOwner AcDone ∅) st) else None
  | AcDone => None
  end.
(** [close_all], called once the subscribers are told to stop. *)
Definition closer_step (t : nat) st : option (ProxyState J) :=
  match px_closers st !! t with
  | None => if fl_subscriber_stop (px_flags st) then Some (set_closer t (bt_values (px_registry st)) st) else None
  | Some [] => None
  | Some (i :: rest) =>
      s ← px_sessions st !! i;
      Some (set_closer t rest (set_session i (close s) st))
  end.

(** ** startup/bootstrap.rs *)

Definition main_step (c : MainCall) st : option (ProxyState J) :=
  let f := px_flags st in
  match c with
  | MainReady b =>
      Some (set_flags (mkFlags b (fl_active_producer f) (fl_ingress_stop f) (fl_broadcast_stop f) (fl_subscriber_stop f)) st)
  | MainStopIngress =>
      Some (set_flags (mkFlags (fl_ready f) (fl_active_producer f) true (fl_broadcast_stop f) (fl_subscriber_stop f)) st)
  | MainIngressJoined =>
      match ao_pc (px_ingress st) with AcDone => Some (set_active false st) | _ => None end
  | MainStopBroadcast =>
      Some (set_flags (mkFlags (fl_ready f) (fl_active_producer f) (fl_ingress_stop f) true (fl_subscriber_stop f)) st)
  | MainStopSubscribers =>
      Some (set_flags (mkFlags (fl_ready f) (fl_active_producer f) (fl_ingress_stop f) (fl_broadcast_stop f) true) st)
  end.

Definition step (a : ProxyAction) st : option (ProxyState J) :=
  match a with
  | ActProducer i io => producer_step i io st
  | ActIngress peer reaped spawned => ingress_step peer reaped spawned st
  | ActBroadcast io => broadcast_step io st
  | ActSession i io => session_step i io st
  | ActWriter i io => writer_step i io st
  | ActAccept stream reaped spawned => accept_step stream reaped spawned st
  | ActCloser t => closer_step t st
  | ActMain c => main_step c st
  end.
Fixpoint run (actions : list ProxyAction) st : option (ProxyState J) :=
  match actions with
  | [] => Some st
  | a :: rest => st' ← step a st; run rest st'
  end.
(** [AlertProxyBootstrap::start], before it declares the proxy ready. *)
Definition start : ProxyState J :=
  mkProxy (mkFlags false false false false false) (mkAcceptOwner AcLoop ∅) ∅ [] BcLoop [] ∅ (mkAcceptOwner AcLoop ∅) ∅ ∅.
End proxy.
End Proxy.
