(* ===== verification/AlertProxyIngress.v ===== *)
(** Where the alerts of the proxy come from: one daemon at a time, and only daemons that may
    send them. *)
From stdpp Require Import prelude gmap strings pretty.
From Stdlib Require Import ZArith Lia.
From coqutil Require Import Byte.
From S2P Require Import Prelude Bytes Wire SandboxObservation BatchCodec AlertCodec AlertCodecFacts AlertStream AlertProxy.

Open Scope Z_scope.

(** Cases of a step: every [match] of the hypothesis, then the new state. *)
Ltac proxy_cases H :=
  repeat (cbv zeta in H; case_match; try discriminate H); simplify_eq/=.

Module IngressFacts.
Import Proxy.

Section ingress_facts.
Context {J : Type} {json : ProxyJson J} {ct : ConstantTimeEq} (ingress : DaemonIngressConfig) (subscriber : SubscriberConfig).
Implicit Types (st : ProxyState J) (p : Producer J).

(** ** One connection *)

(** The bytes read are the frames of the messages, then what is not decoded yet. *)
Definition decoded p : Prop :=
  WireFacts.decoder_ok (pr_decoder p) ∧
  ∃ frames, pr_input p = concat frames ++ WireFacts.pending (pr_decoder p) ∧
    Forall2 (λ m f, Atap.decode (pr_limits p) f = Ok m) (pr_messages p) frames.
(** The peer is who it says it is, and may send alerts. *)
Definition authorised p (rest : list (AtapMessage J)) : Prop :=
  pr_messages p = AProducerHello (pc_pid (pr_peer p)) :: rest ∧
  pc_uid (pr_peer p) ∈ di_allowed_uids ingress ∧ pc_gid (pr_peer p) ∈ di_allowed_gids ingress.
Definition producer_ok p : Prop :=
  decoded p ∧
  match pr_pc p with
  | PrHello => pr_claimed p = false ∧ pr_messages p = []
  | PrReady | PrStopping | PrClaim => pr_claimed p = false ∧ ∃ rest, authorised p rest
  | PrReject _ => pr_claimed p = false
  | PrWelcome | PrLoop | PrRead => pr_claimed p = true ∧ ∃ rest, authorised p rest
  | PrHandle m => pr_claimed p = true ∧ ∃ rest, authorised p rest ∧ m ∈ rest
  | PrDrop _ => True
  | PrDone _ => pr_claimed p = false
  end.

Lemma next_taken {M} (F : FrameFormat M) d r d' :
  WireFacts.decoder_ok d → FramedStream.next F d = (r, d') →
  WireFacts.decoder_ok d' ∧
  match r with
  | Ok (Some m) => ∃ f, WireFacts.pending d = f ++ WireFacts.pending d' ∧ ff_decode F f = Ok m
  | _ => WireFacts.pending d' = WireFacts.pending d
  end.
Proof.
  intros Hok E. pose proof (StreamFacts.next_refines F d Hok) as Hn. rewrite E in Hn. destruct Hn as [Hok' Hn].
  split; [done|]. unfold StreamFacts.next_of in Hn.
  destruct (bool_decide _); [by simplify_eq|]. destruct (ff_length F _) as [n|e]; [|by simplify_eq].
  destruct (_ <? _); [by simplify_eq|]. destruct (ff_decode F _) as [m|e] eqn:Ed; [|by simplify_eq].
  injection Hn as <- <-. eexists. split; [|done]. by rewrite take_drop.
Qed.
Lemma read_message_taken {M} (F : FrameFormat M) closed failed read d r bytes d' :
  WireFacts.decoder_ok d → Sock.read_message F closed failed read d = (r, bytes, d') →
  WireFacts.decoder_ok d' ∧
  match r with
  | Ok (Some m) => ∃ f, WireFacts.pending d ++ bytes = f ++ WireFacts.pending d' ∧ ff_decode F f = Ok m
  | _ => WireFacts.pending d' = WireFacts.pending d ++ bytes
  end.
Proof.
  intros Hok. unfold Sock.read_message. destruct (FramedStream.next F d) as [r1 d1] eqn:E1.
  destruct (next_taken F d r1 d1 Hok E1) as [Hok1 H1]. destruct r1 as [[m|]|e].
  - intros [= <- <- <-]. by rewrite app_nil_r.
  - destruct read as [cap [|b bs]| |text]; try (intros [= <- <- <-]; by rewrite app_nil_r).
    destruct (FramedStream.next F (Stream.push cap (b :: bs) d1)) as [r2 d2] eqn:E2. intros [= <- <- <-].
    destruct (WireFacts.push_refines cap (b :: bs) d1 Hok1) as [Hok2 Hp2].
    destruct (next_taken F _ _ _ Hok2 E2) as [Hok3 H3]. rewrite Hp2, H1 in H3. split; [done|].
    by destruct r2 as [[m|]|e].
  - intros [= <- <- <-]. by rewrite app_nil_r.
Qed.
Lemma read_available_decoded io p r p' :
  decoded p → read_available io p = (r, p') →
  decoded p' ∧ pr_peer p' = pr_peer p ∧ pr_limits p' = pr_limits p ∧ pr_claimed p' = pr_claimed p ∧ pr_pc p' = pr_pc p ∧
  pr_messages p' = pr_messages p ++ match r with Ok (Some m) => [m] | _ => [] end.
Proof.
  intros (Hok & frames & Ein & Hf). unfold read_available.
  destruct (Sock.read_message _ _ _ _ _) as [[r0 bytes] d] eqn:E. intros [= <- <-].
  destruct (read_message_taken _ _ _ _ _ _ _ _ Hok E) as [Hok' Hr]. splits; try done. split; [done|]. cbn.
  destruct r0 as [[m|]|e].
  - destruct Hr as (f & Ep & Ed). exists (frames ++ [f]). split.
    + rewrite Ein, concat_app, <-!app_assoc. f_equal. cbn. by rewrite app_nil_r.
    + by apply Forall2_app; [|constructor].
  - exists frames. rewrite app_nil_r, Ein, <-app_assoc, Hr. done.
  - exists frames. rewrite app_nil_r, Ein, <-app_assoc, Hr. done.
Qed.
Lemma write_message_same m io p r p' :
  write_message m io p = (r, p') →
  (decoded p → decoded p') ∧ pr_peer p' = pr_peer p ∧ pr_messages p' = pr_messages p ∧ pr_claimed p' = pr_claimed p.
Proof. unfold write_message. repeat case_match; intros [= <- <-]; done. Qed.
Lemma validate_peer_Ok peer pid :
  validate_peer ingress peer pid = Ok () →
  pid = pc_pid peer ∧ pc_uid peer ∈ di_allowed_uids ingress ∧ pc_gid peer ∈ di_allowed_gids ingress.
Proof.
  unfold validate_peer. destruct (Z.eqb_spec pid (pc_pid peer)) as [->|]; [|done]. cbn.
  case_bool_decide; [|done]. cbn. by case_bool_decide.
Qed.

(** ** All connections *)

Definition alerts_in st : list (ForwardAlert J) :=
  px_queue st ++
  match px_caster st with
  | BcSnapshot a | BcMatch a _ _ | BcLock a _ _ _ | BcEncode a _ => [a]
  | _ => []
  end ++ (px_published st).*1.

Definition is_done p : Prop := ∃ r, pr_pc p = PrDone r.
(** The alert was sent by an authorised peer, after its hello. *)
Definition sent_by (m : gmap nat (Producer J)) (a : ForwardAlert J) : Prop :=
  ∃ i p rest, m !! i = Some p ∧ authorised p rest ∧ AForwardAlert a ∈ rest ∧ decoded p.

Record ingress_ok (active : bool) (m : gmap nat (Producer J)) (o : AcceptOwner) (alerts : list (ForwardAlert J)) : Prop := {
  ig_producer i p : m !! i = Some p → producer_ok p;
  ig_slot : active = true ↔ ∃ i p, m !! i = Some p ∧ pr_claimed p = true;
  ig_one i j p q : m !! i = Some p → m !! j = Some q → pr_claimed p = true → pr_claimed q = true → i = j;
  ig_workers i p : m !! i = Some p → is_done p ∨ i ∈ ao_workers o;
  ig_done : ao_pc o = AcDone → ao_workers o = ∅;
  ig_limit : Z.of_nat (size (ao_workers o)) ≤ Z.max 0 (di_connection_limit ingress);
  ig_alerts a : a ∈ alerts → sent_by m a;
}.
Definition ingress_inv st : Prop :=
  ingress_ok (fl_active_producer (px_flags st)) (px_producers st) (px_ingress st) (alerts_in st).

Lemma insert_cases {A} (m : gmap nat A) i x j y :
  <[i := x]> m !! j = Some y → (j = i ∧ y = x) ∨ (j ≠ i ∧ m !! j = Some y).
Proof. intros [[<- <-]|[? ?]]%lookup_insert_Some; [by left|right; auto]. Qed.
Lemma prefix_authorised p p' rest :
  pr_peer p' = pr_peer p → pr_messages p `prefix_of` pr_messages p' → authorised p rest →
  ∃ more, authorised p' (rest ++ more).
Proof. intros Hp [more E] (Em & Hu & Hg). exists more. unfold authorised. rewrite Hp, E, Em. done. Qed.
Lemma sent_by_update m i p p' a :
  m !! i = Some p → pr_peer p' = pr_peer p → pr_messages p `prefix_of` pr_messages p' → decoded p' →
  sent_by m a → sent_by (<[i := p']> m) a.
Proof.
  intros Hi Hpeer Hpre Hdec (j & q & rest & Hj & Hauth & Ha & Hd). destruct (decide (j = i)) as [->|Hne].
  - rewrite Hi in Hj. injection Hj as <-.
    destruct (prefix_authorised _ _ _ Hpeer Hpre Hauth) as [more Hm].
    exists i, p', (rest ++ more). rewrite lookup_insert_eq. splits; [done|done|set_solver|done].
  - exists j, q, rest. by rewrite lookup_insert_ne.
Qed.

(** A connection goes on without touching the slot. *)
Lemma producer_moves active m o alerts i p p' :
  ingress_ok active m o alerts → m !! i = Some p → producer_ok p' → pr_claimed p' = pr_claimed p →
  (is_done p → is_done p') → pr_peer p' = pr_peer p → pr_messages p `prefix_of` pr_messages p' →
  ingress_ok active (<[i := p']> m) o alerts.
Proof.
  intros [H1 H2 H3 H4 H5 H6 H7] Hi Hok Hc Hd Hpeer Hpre. split; [| | | |done|done|].
  - intros j q [[-> ->]|[_ Hj]]%insert_cases; [done|by eapply H1].
  - rewrite H2. split.
    + intros (j & q & Hj & Hq). destruct (decide (j = i)) as [->|Hne].
      * exists i, p'. rewrite lookup_insert_eq. split; [done|congruence].
      * exists j, q. by rewrite lookup_insert_ne.
    + intros (j & q & [[-> ->]|[_ Hj]]%insert_cases & Hq); [exists i, p; split; [done|congruence]|eauto].
  - intros j k q r [[-> ->]|[? Hj]]%insert_cases [[-> ->]|[? Hk]]%insert_cases Hq Hr; [done| | |by eapply H3].
    + eapply (H3 i k p r); congruence.
    + eapply (H3 j i q p); congruence.
  - intros j q [[-> ->]|[_ Hj]]%insert_cases; [|by eapply H4].
    destruct (H4 _ _ Hi) as [?|?]; [left; auto|by right].
  - intros a Ha. eapply sent_by_update; [done|done|done|apply Hok|by apply H7].
Qed.

Lemma alerts_fewer active m o alerts alerts' :
  (∀ a, a ∈ alerts' → a ∈ alerts) → ingress_ok active m o alerts → ingress_ok active m o alerts'.
Proof. intros Hsub [H1 H2 H3 H4 H5 H6 H7]. split; auto. Qed.

(** Taking the slot, and giving it back. *)
Lemma producer_claims m o alerts i p p' :
  ingress_ok false m o alerts → m !! i = Some p → producer_ok p' → pr_claimed p' = true →
  ¬ is_done p → pr_peer p' = pr_peer p → pr_messages p `prefix_of` pr_messages p' →
  ingress_ok true (<[i := p']> m) o alerts.
Proof.
  intros [H1 H2 H3 H4 H5 H6 H7] Hi Hok Hc Hd Hpeer Hpre.
  assert (∀ j q, m !! j = Some q → pr_claimed q = false) as Hfree.
  { intros j q Hj. destruct (pr_claimed q) eqn:E; [|done]. exfalso.
    assert (false = true) as [=]. apply H2. eauto. }
  split; [| | | |done|done|].
  - intros j q [[-> ->]|[_ Hj]]%insert_cases; [done|by eapply H1].
  - split; [|done]. intros _. exists i, p'. by rewrite lookup_insert_eq.
  - intros j k q r [[-> ->]|[? Hj]]%insert_cases [[-> ->]|[? Hk]]%insert_cases Hq Hr; [done| | |].
    + rewrite (Hfree _ _ Hk) in Hr. done.
    + rewrite (Hfree _ _ Hj) in Hq. done.
    + rewrite (Hfree _ _ Hj) in Hq. done.
  - intros j q [[-> ->]|[_ Hj]]%insert_cases; [|by eapply H4]. destruct (H4 _ _ Hi) as [?|?]; [done|by right].
  - intros a Ha. eapply sent_by_update; [done|done|done|apply Hok|by apply H7].
Qed.
Lemma producer_drops active m o alerts i p p' :
  ingress_ok active m o alerts → m !! i = Some p → producer_ok p' → is_done p' →
  pr_peer p' = pr_peer p → pr_messages p' = pr_messages p →
  ingress_ok (if pr_claimed p then false else active) (<[i := p']> m) o alerts.
Proof.
  intros [H1 H2 H3 H4 H5 H6 H7] Hi Hok Hd Hpeer Hm.
  assert (pr_claimed p' = false) as Hc.
  { destruct Hd as [r Hr]. destruct Hok as [_ Hok]. by rewrite Hr in Hok. }
  split; [| | | |done|done|].
  - intros j q [[-> ->]|[_ Hj]]%insert_cases; [done|by eapply H1].
  - split.
    + intros Ha. destruct (pr_claimed p) eqn:Ep; [done|]. apply H2 in Ha as (j & q & Hj & Hq).
      exists j, q. rewrite lookup_insert_ne; [done|]. intros ->. congruence.
    + intros (j & q & [[-> ->]|[Hne Hj]]%insert_cases & Hq); [congruence|].
      destruct (pr_claimed p) eqn:Ep; [by destruct Hne; eapply H3|]. apply H2. eauto.
  - intros j k q r [[-> ->]|[? Hj]]%insert_cases [[-> ->]|[? Hk]]%insert_cases Hq Hr;
      [congruence|congruence|congruence|by eapply H3].
  - intros j q [[-> ->]|[_ Hj]]%insert_cases; [by left|by eapply H4].
  - intros a Ha. eapply sent_by_update; [done|done|by rewrite Hm|apply Hok|by apply H7].
Qed.

Lemma moved_inv st i p p' :
  ingress_inv st → px_producers st !! i = Some p → producer_ok p' → pr_claimed p' = pr_claimed p → ¬ is_done p →
  pr_peer p' = pr_peer p → pr_messages p `prefix_of` pr_messages p' → ingress_inv (set_producer i p' st).
Proof. intros Hinv Hi Hok Hc Hd Hpeer Hm. eapply producer_moves; try done. Qed.

Lemma published_sent active m o alerts a :
  ingress_ok active m o alerts → sent_by m a → ingress_ok active m o (a :: alerts).
Proof. intros [H1 H2 H3 H4 H5 H6 H7] Ha. split; try done. intros b [->|Hb]%elem_of_cons; [done|by apply H7]. Qed.
Lemma try_publish_inv st a :
  ingress_inv st → sent_by (px_producers st) a → ingress_inv (try_publish subscriber a st).
Proof.
  intros Hinv Ha. unfold try_publish. destruct (px_caster st) eqn:Ec; try done;
    (destruct (_ <? _); [|done]); unfold ingress_inv in *; cbn;
    (eapply alerts_fewer; [|eapply published_sent; [exact Hinv|exact Ha]]);
    intros b; unfold alerts_in; cbn; rewrite Ec; set_solver.
Qed.

Lemma not_done_pc p : (∀ r, pr_pc p ≠ PrDone r) → ¬ is_done p.
Proof. by intros Hp [r Hr]; eapply Hp. Qed.

Lemma producer_step_inv i io st st' :
  ingress_inv st → producer_step ingress subscriber i io st = Some st' → ingress_inv st'.
Proof.
  intros Hinv. unfold producer_step. intros (p & Hi & H)%bind_Some.
  pose proof (ig_producer _ _ _ _ Hinv _ _ Hi) as [Hdec Hpc].
  destruct (pr_pc p) as [| | | |code| | | |m|r|r] eqn:Epc; cbv zeta in H.
  - destruct Hpc as [Hcl Hm]. destruct (read_available io p) as [r p'] eqn:Er. injection H as <-.
    destruct (read_available_decoded io p r p' Hdec Er) as (Hdec' & Hpeer & Hlim & Hcl' & Hpc' & Hms).
    eapply moved_inv; try done; [|apply not_done_pc; congruence|cbn; rewrite Hms; by apply prefix_app_r].
    split; [done|]. cbn. destruct r as [[m|]|e]; [|destruct (io_elapsed io); [done|]|done].
    + destruct m as [pid| | | | |]; try (cbn; congruence).
      destruct (validate_peer ingress (pr_peer p') pid) as [[]|e] eqn:Ev; [|done].
      apply validate_peer_Ok in Ev as (-> & Hu & Hg). split; [cbn; congruence|]. exists []. unfold authorised. cbn.
      by rewrite Hms, Hm.
    + cbn. rewrite Hms, Hm. split; [congruence|done].
  - destruct Hpc as [Hcl Hau]. injection H as <-. eapply moved_inv; try done; [|apply not_done_pc; congruence].
    split; [done|]. by destruct (fl_ready _).
  - destruct Hpc as [Hcl Hau]. injection H as <-. eapply moved_inv; try done; [|apply not_done_pc; congruence].
    split; [done|]. by destruct (fl_ingress_stop _).
  - destruct Hpc as [Hcl Hau]. destruct (fl_active_producer (px_flags st)) eqn:Ea; injection H as <-.
    + eapply moved_inv; try done; apply not_done_pc; congruence.
    + unfold ingress_inv in *. cbn. rewrite Ea in Hinv.
      eapply (producer_claims _ _ _ _ p); try done. apply not_done_pc; congruence.
  - destruct (write_message _ io p) as [r p'] eqn:Ew. injection H as <-.
    destruct (write_message_same _ _ _ _ _ Ew) as (Hd' & Hpeer & Hms & Hcl').
    eapply moved_inv; try done; [|apply not_done_pc; congruence|cbn; by rewrite Hms]. split; [by apply Hd'|done].
  - destruct Hpc as [Hcl (rest & Hau)]. destruct (write_message _ io p) as [r p'] eqn:Ew. injection H as <-.
    destruct (write_message_same _ _ _ _ _ Ew) as (Hd' & Hpeer & Hms & Hcl').
    eapply moved_inv; try done; [|apply not_done_pc; congruence|cbn; by rewrite Hms].
    split; [by apply Hd'|]. destruct r as [[]|e]; [|done]. cbn. split; [congruence|]. exists rest.
    unfold authorised in *. cbn. by rewrite Hms, Hpeer.
  - destruct Hpc as [Hcl Hau]. injection H as <-. eapply moved_inv; try done; [|apply not_done_pc; congruence].
    split; [done|]. by destruct (fl_ingress_stop _).
  - destruct Hpc as [Hcl (rest & Hau & Hu & Hg)]. destruct (read_available io p) as [r p'] eqn:Er. injection H as <-.
    destruct (read_available_decoded io p r p' Hdec Er) as (Hdec' & Hpeer & Hlim & Hcl' & Hpc' & Hms).
    eapply moved_inv; try done; [|apply not_done_pc; congruence|cbn; rewrite Hms; by apply prefix_app_r].
    split; [done|]. cbn. destruct r as [[m|]|e]; [|destruct (io_elapsed io); [done|]|done].
    + cbn. split; [congruence|]. exists (rest ++ [m]). unfold authorised. cbn. rewrite Hms, Hau, Hpeer. split; [done|set_solver].
    + cbn. split; [congruence|]. exists rest. unfold authorised. cbn. by rewrite Hms, Hau, Hpeer, app_nil_r.
  - destruct Hpc as [Hcl (rest & Hau & Hin)].
    assert (∀ pc, producer_ok (at_pc pc p) → ingress_inv (set_producer i (at_pc pc p) st)) as Hmv.
    { intros pc Hok. eapply moved_inv; try done. apply not_done_pc; congruence. }
    destruct m as [pid| |rc|a|nonce|nonce]; try (injection H as <-; by apply Hmv).
    + injection H as <-. apply try_publish_inv.
      * apply Hmv. split; [done|]. cbn. eauto.
      * exists i, (at_pc PrLoop p), rest. cbn. by rewrite lookup_insert_eq.
    + destruct (write_message _ io p) as [r p'] eqn:Ew. injection H as <-.
      destruct (write_message_same _ _ _ _ _ Ew) as (Hd' & Hpeer & Hms & Hcl').
      eapply moved_inv; try done; [|apply not_done_pc; congruence|cbn; by rewrite Hms].
      split; [by apply Hd'|]. destruct r as [[]|e]; [|done]. cbn. split; [congruence|]. exists rest.
      unfold authorised in *. cbn. by rewrite Hms, Hpeer.
  - injection H as <-.
    assert (ingress_ok (if pr_claimed p then false else fl_active_producer (px_flags st))
      (<[i := claimed false (at_pc (PrDone r) p)]> (px_producers st)) (px_ingress st) (alerts_in st)) as Hdrop.
    { eapply producer_drops; try done; [by eexists]. }
    unfold ingress_inv. by destruct (pr_claimed p).
  - done.
Qed.

(** The part of the state that concerns producers and alerts; subscribers leave it alone. *)
Definition ingress_view st :=
  (fl_active_producer (px_flags st), px_ingress st, px_producers st, px_queue st, px_caster st, px_published st).
Lemma view_inv st st' : ingress_view st' = ingress_view st → ingress_inv st → ingress_inv st'.
Proof. unfold ingress_view, ingress_inv, alerts_in. intros [= -> -> -> -> -> ->]. done. Qed.
Lemma session_step_view i io st st' : session_step subscriber i io st = Some st' → ingress_view st' = ingress_view st.
Proof. unfold session_step. intros (s & Hi & H)%bind_Some. proxy_cases H; by destruct (se_id s). Qed.
Lemma writer_step_view i io st st' : writer_step subscriber i io st = Some st' → ingress_view st' = ingress_view st.
Proof. unfold writer_step. intros (s & Hi & H)%bind_Some. by proxy_cases H. Qed.
Lemma accept_step_view x y z st st' : accept_step subscriber x y z st = Some st' → ingress_view st' = ingress_view st.
Proof. unfold accept_step. intros H. by proxy_cases H. Qed.
Lemma closer_step_view t st st' : closer_step t st = Some st' → ingress_view st' = ingress_view st.
Proof.
  unfold closer_step. intros H. destruct (px_closers st !! t) as [[|i rest]|]; [done| |].
  - apply bind_Some in H as (s & _ & H). by simplify_eq.
  - case_match; by simplify_eq.
Qed.

Lemma broadcast_step_inv io st st' :
  ingress_inv st → broadcast_step subscriber io st = Some st' → ingress_inv st'.
Proof.
  intros Hinv H.
  assert (fl_active_producer (px_flags st') = fl_active_producer (px_flags st) ∧
    px_producers st' = px_producers st ∧ px_ingress st' = px_ingress st ∧
    ∀ a, a ∈ alerts_in st' → a ∈ alerts_in st) as (E1 & E2 & E3 & Hsub).
  { unfold broadcast_step in H. unfold alerts_in.
    destruct (px_caster st) as [| |a|a [|i todo] [|f found]|a i todo found|a found|fr [|i todo]|fr i todo|] eqn:Ec;
      try (apply bind_Some in H as (s & _ & H)); proxy_cases H; splits; try done; rewrite ?Ec;
      repeat match goal with E : px_queue st = _ |- _ => rewrite E end;
      rewrite ?fmap_app; cbn; set_solver. }
  unfold ingress_inv. rewrite E1, E2, E3. by eapply alerts_fewer.
Qed.

Lemma finished_done m i p : producer_finished m i = true → m !! i = Some p → is_done p.
Proof. unfold producer_finished. intros H Hi. rewrite Hi in H. destruct (pr_pc p) eqn:E; try done. by eexists. Qed.

Lemma new_producer_inv active m o o' alerts peer limits :
  ingress_ok active m o alerts → ao_pc o' = AcLoop →
  (∀ i p, m !! i = Some p → is_done p ∨ i ∈ ao_workers o') → fresh (dom m) ∈ ao_workers o' →
  Z.of_nat (size (ao_workers o')) ≤ Z.max 0 (di_connection_limit ingress) →
  ingress_ok active (<[fresh (dom m) := new_producer peer limits]> m) o' alerts.
Proof.
  intros [H1 H2 H3 H4 H5 H6 H7] Hpc Hw Hf Hl. set (i := fresh (dom m)) in *.
  assert (m !! i = None) as Hi by (apply not_elem_of_dom, is_fresh).
  split; [| | | |by rewrite Hpc|done|].
  - intros j q [[-> ->]|[_ Hj]]%insert_cases; [|by eapply H1].
    split; [|done]. split; [unfold WireFacts.decoder_ok; cbn; lia|]. exists []. by split.
  - rewrite H2. split.
    + intros (j & q & Hj & Hq). exists j, q. rewrite lookup_insert_ne; [done|congruence].
    + intros (j & q & [[-> ->]|[_ Hj]]%insert_cases & Hq); [done|eauto].
  - intros j k q r [[-> ->]|[? Hj]]%insert_cases [[-> ->]|[? Hk]]%insert_cases Hq Hr; [done..|by eapply H3].
  - intros j q [[-> ->]|[_ Hj]]%insert_cases; [by right|by eapply Hw].
  - intros a (j & q & rest & Hj & Hrest)%H7. exists j, q, rest. rewrite lookup_insert_ne; [done|congruence].
Qed.
Lemma ingress_step_inv peer reaped spawned st st' :
  ingress_inv st → ingress_step ingress peer reaped spawned st = Some st' → ingress_inv st'.
Proof.
  intros Hinv H. unfold ingress_step in H. pose proof Hinv as [H1 H2 H3 H4 H5 H6 H7].
  destruct (ao_pc (px_ingress st)) eqn:Eo; cbv zeta in H.
  - injection H as <-. unfold ingress_inv. cbn. split; try done. by destruct (fl_ingress_stop _).
  - destruct (forallb _ (elements reaped)) eqn:Er; [|done].
    assert (∀ i p, px_producers st !! i = Some p → is_done p ∨ i ∈ ao_workers (px_ingress st) ∖ reaped) as Hw.
    { intros i p Hi. destruct (decide (i ∈ reaped)) as [Hin|Hnin].
      - left. rewrite forallb_forall in Er. eapply finished_done; [|done]. apply Er, list_elem_of_In. by apply elem_of_elements.
      - destruct (H4 _ _ Hi) as [?|?]; [by left|right; set_solver]. }
    assert (size (ao_workers (px_ingress st) ∖ reaped) ≤ size (ao_workers (px_ingress st)))%nat as Hsz
      by (apply subseteq_size; set_solver).
    assert (ingress_inv (set_ingress (mkAcceptOwner AcLoop (ao_workers (px_ingress st) ∖ reaped)) st)) as Hskip.
    { unfold ingress_inv. cbn. split; try done. cbn. lia. }
    destruct peer as [peer|]; [|by injection H as <-]. destruct (ingress_limits ingress) as [limits|]; [|by injection H as <-].
    destruct (_ || _) eqn:Eb; injection H as <-; [done|].
    apply orb_false_iff in Eb as [Hlim%Z.leb_gt _]. unfold ingress_inv. cbn.
    eapply new_producer_inv; [exact Hinv|done| |set_solver|].
    + intros i p Hi. destruct (Hw _ _ Hi); [by left|right; set_solver].
    + cbn. rewrite size_union_alt. pose proof (size_singleton (C:=gset nat) (fresh (dom (px_producers st)))).
      assert (size ({[fresh (dom (px_producers st))]} ∖ (ao_workers (px_ingress st) ∖ reaped)) ≤ 1)%nat
        by (rewrite <-H; apply subseteq_size; set_solver). lia.
  - destruct (forallb _ _) eqn:Ef; [|done]. injection H as <-. unfold ingress_inv. cbn.
    split; try done; [|cbn; rewrite size_empty; lia]. intros i p Hi. left.
    destruct (H4 _ _ Hi) as [?|Hin]; [done|]. rewrite forallb_forall in Ef.
    eapply finished_done; [|done]. apply Ef, list_elem_of_In. by apply elem_of_elements.
  - done.
Qed.
Lemma main_step_inv c st st' : ingress_inv st → main_step c st = Some st' → ingress_inv st'.
Proof.
  intros Hinv H. destruct c; cbn in H; try (injection H as <-; exact Hinv).
  destruct (ao_pc (px_ingress st)) eqn:Eo; try done. injection H as <-.
  pose proof Hinv as [H1 H2 H3 H4 H5 H6 H7]. split; try done. cbn. split; [done|].
  intros (i & p & Hi & Hc). destruct (H4 _ _ Hi) as [[r Hr]|Hin].
  - destruct (H1 _ _ Hi) as [_ Hp]. rewrite Hr in Hp. congruence.
  - rewrite (H5 Eo) in Hin. set_solver.
Qed.

Lemma ingress_step_all a st st' : ingress_inv st → step ingress subscriber a st = Some st' → ingress_inv st'.
Proof.
  intros Hinv. destruct a; cbn [step]; intros H.
  - by eapply producer_step_inv.
  - by eapply ingress_step_inv.
  - by eapply broadcast_step_inv.
  - by eapply view_inv; [eapply session_step_view|].
  - by eapply view_inv; [eapply writer_step_view|].
  - by eapply view_inv; [eapply accept_step_view|].
  - by eapply view_inv; [eapply closer_step_view|].
  - by eapply main_step_inv.
Qed.
Lemma ingress_run actions st st' : ingress_inv st → run ingress subscriber actions st = Some st' → ingress_inv st'.
Proof.
  revert st. induction actions as [|a actions IH]; intros st Hinv; cbn [run]; [by intros [= <-]|].
  intros (st1 & H1 & H2)%bind_Some. eapply IH; [|exact H2]. by eapply ingress_step_all.
Qed.
Lemma ingress_start : ingress_inv start.
Proof.
  split; cbn; try done.
  - split; [done|]. by intros (i & p & [=] & _).
  - rewrite size_empty. lia.
  - intros a Ha. set_solver.
Qed.

(** C13: One daemon at a time, and only a daemon that may.  However the threads of the proxy
    interleave, and whatever the sockets bring: at most one connection holds the producer
    slot, the slot's flag says exactly whether one does, and no more connections are served
    than the limit allows.  Every alert that was ever queued or broadcast was decoded from
    the bytes of a connection that began with a hello naming the very process the kernel
    reports, whose user and group are allowed; and the messages of a connection are its
    bytes, frame by frame. *)
Theorem alerts_from_one_daemon actions st :
  run ingress subscriber actions start = Some st →
  (∀ i j p q, px_producers st !! i = Some p → px_producers st !! j = Some q →
     pr_claimed p = true → pr_claimed q = true → i = j) ∧
  (fl_active_producer (px_flags st) = true ↔ ∃ i p, px_producers st !! i = Some p ∧ pr_claimed p = true) ∧
  (∀ X : gset nat, (∀ i, i ∈ X → ∃ p, px_producers st !! i = Some p ∧ ¬ is_done p) →
     Z.of_nat (size X) ≤ Z.max 0 (di_connection_limit ingress)) ∧
  ∀ a, a ∈ alerts_in st → ∃ i p rest frames, px_producers st !! i = Some p ∧ authorised p rest ∧
    AForwardAlert a ∈ rest ∧ pr_input p = concat frames ++ WireFacts.pending (pr_decoder p) ∧
    Forall2 (λ m f, Atap.decode (pr_limits p) f = Ok m) (pr_messages p) frames.
Proof.
  intros Hrun. pose proof (ingress_run _ _ _ ingress_start Hrun) as [H1 H2 H3 H4 H5 H6 H7]. splits.
  - exact H3.
  - exact H2.
  - intros X HX. assert (size X ≤ size (ao_workers (px_ingress st)))%nat; [|lia]. apply subseteq_size.
    intros i Hi. destruct (HX i Hi) as (p & Hp & Hd). by destruct (H4 _ _ Hp).
  - intros a (i & p & rest & Hi & Hau & Hin & _ & frames & E & Hf)%H7. by exists i, p, rest, frames.
Qed.
End ingress_facts.

(** A proxy with one allowed user, and its JSON: texts are written as they are, a request is
    one letter. *)
Definition w_handshake : HandshakeRequest := mkHandshakeRequest "v1" "token" "viewer".
Definition w_subscribe : SubscribeRequest (list byte) := mkSubscribeRequest "r1" ["policy.deny"] [SevWarning] [].
#[local] Instance w_proxy_json : ProxyJson (list byte) := {|
  pj_extras := AtapStreamFacts.w_json;
  pj_alert := λ e, Ok (string_bytes (ea_cat _ e));
  pj_handshake := λ h, Ok (string_bytes (hp_session_id h));
  pj_subscribed := λ r, Ok (string_bytes (sp_id r));
  pj_ping := λ _, Ok (string_bytes "ping");
  pj_error := λ e, Ok (string_bytes (ep_code e));
  pj_request := λ bs,
    if bool_decide (bs = string_bytes "h") then Ok (RqHandshake w_handshake)
    else if bool_decide (bs = string_bytes "s") then Ok (RqSubscribe w_subscribe) else Err "expected value";
  map_new := [];
  map_is_empty := λ m, bool_decide (m = []);
|}.
#[local] Instance w_ct_eq : ConstantTimeEq := {|
  ct_eq a b := if decide (a = b) then 1 else 0;
  ct_eq_spec a b _ := eq_refl;
|}.
Definition w_ingress : DaemonIngressConfig := mkIngressConfig [1000] [1000] 2 1024 64 64 128 256.
Definition w_subscriber : SubscriberConfig := mkSubscriberConfig 4 1024 64 64 8 64 16 2 10000 5000 30000 ["token"].
Definition w_io (read : SocketRead) : StepIo := mkStepIo read None false 0 0 "u1".
Definition w_bytes (m : AtapMessage (list byte)) : list byte := AtapStreamFacts.w_frame m.
(** The daemon with process 41 connects, says hello, and sends an alert; a second one is
    turned away. *)
Definition w_connects (peer : PeerCredentials) : list ProxyAction :=
  [ActIngress None ∅ true; ActIngress (Some peer) ∅ true].
Definition w_sends : list ProxyAction :=
  ActMain (MainReady true) :: w_connects (mkPeer 41 1000 1000) ++ w_connects (mkPeer 42 1000 1000) ++
  [ActProducer 0 (w_io (SockData 64 (w_bytes (AProducerHello 41)))); ActProducer 0 (w_io SockRetry);
   ActProducer 1 (w_io (SockData 64 (w_bytes (AProducerHello 42)))); ActProducer 1 (w_io SockRetry);
   ActProducer 0 (w_io SockRetry); ActProducer 1 (w_io SockRetry); ActProducer 0 (w_io SockRetry);
   ActProducer 0 (w_io SockRetry);
   ActProducer 0 (w_io (SockData 64 (w_bytes (AForwardAlert AtapStreamFacts.w_alert)))); ActProducer 0 (w_io SockRetry)].
Definition w_served : ProxyState (list byte) := default start (run w_ingress w_subscriber w_sends start).

Lemma alerts_from_one_daemon_witness :
  px_queue w_served = [AtapStreamFacts.w_alert] ∧
  (∃ p, px_producers w_served !! 1%nat = Some p ∧ pr_pc p = PrReject "producer_slot_busy") ∧
  ∃ i p rest frames, px_producers w_served !! i = Some p ∧ authorised w_ingress p rest ∧
    AForwardAlert AtapStreamFacts.w_alert ∈ rest ∧ pr_input p = concat frames ++ WireFacts.pending (pr_decoder p) ∧
    Forall2 (λ m f, Atap.decode (pr_limits p) f = Ok m) (pr_messages p) frames.
Proof.
  destruct (alerts_from_one_daemon w_ingress w_subscriber w_sends w_served) as (_ & _ & _ & H).
  - vm_compute. reflexivity.
  - split; [vm_compute; reflexivity|]. split; [eexists; split; vm_compute; reflexivity|].
    apply H. unfold alerts_in. replace (px_queue w_served) with [AtapStreamFacts.w_alert] by (vm_compute; reflexivity).
    apply list_elem_of_here.
Defined.
End IngressFacts.
