(* ===== verification/AlertProxySubscribers.v ===== *)
(** What the subscribers of the proxy get: the alerts their subscription asks for, all of
    them and in order, or their connection is closed. *)
From stdpp Require Import prelude gmap strings pretty sorting.
From Stdlib Require Import ZArith Lia.
From coqutil Require Import Byte.
From S2P Require Import Prelude Bytes Wire SandboxObservation BatchCodec AlertCodec AlertCodecFacts AlertStream AlertProxy AlertProxyIngress.

Open Scope Z_scope.

(** * What a session should have been sent *)

Module Expected.
Section expected.
Context {J : Type}.
Implicit Types (pub : list (ForwardAlert J * option (list byte))) (sub : option Subscription) (es : list SessionEvent).

Definition wants sub (a : ForwardAlert J) : bool :=
  match sub with Some s => Subs.matches s (fa_category a) (fa_severity a) | None => false end.
(** The alerts held against the session. *)
Fixpoint offers es : list nat :=
  match es with
  | [] => []
  | EvOffered n :: es => n :: offers es
  | EvSubscribed _ :: es => offers es
  end.
Fixpoint last_sub sub es : option Subscription :=
  match es with
  | [] => sub
  | EvOffered _ :: es => last_sub sub es
  | EvSubscribed s :: es => last_sub (Some s) es
  end.
(** The subscription in force when the [n]th alert was held against it. *)
Fixpoint sub_at (n : nat) sub es : option (option Subscription) :=
  match es with
  | [] => None
  | EvOffered m :: es => if Nat.eqb m n then Some sub else sub_at n sub es
  | EvSubscribed s :: es => sub_at n (Some s) es
  end.
(** The frames of the alerts it wanted then. *)
Definition due pub sub (n : nat) : list (list byte) :=
  match pub !! n with
  | Some (a, Some f) => if wants sub a then [f] else []
  | _ => []
  end.
Fixpoint expected pub sub es : list (list byte) :=
  match es with
  | [] => []
  | EvOffered n :: es => due pub sub n ++ expected pub sub es
  | EvSubscribed s :: es => expected pub (Some s) es
  end.

Lemma sorted_lt_snoc (l : list nat) k : StronglySorted lt l → Forall (λ n, n < k)%nat l → StronglySorted lt (l ++ [k]).
Proof.
  induction 1 as [|x l Hs IH Hx]; cbn; [by repeat constructor|]. intros [H1 H2]%Forall_cons.
  constructor; [by apply IH|]. apply Forall_app. split; [done|]. by constructor.
Qed.
Lemma offers_app es es' : offers (es ++ es') = offers es ++ offers es'.
Proof. induction es as [|[]]; cbn; congruence. Qed.
Lemma last_sub_app sub es es' : last_sub sub (es ++ es') = last_sub (last_sub sub es) es'.
Proof. revert sub. induction es as [|[] es IH]; intros sub; cbn; auto. Qed.
Lemma expected_app pub sub es es' :
  expected pub sub (es ++ es') = expected pub sub es ++ expected pub (last_sub sub es) es'.
Proof. revert sub. induction es as [|[] es IH]; intros sub; cbn; rewrite ?IH, ?app_assoc; done. Qed.
Lemma sub_at_None n sub es : n ∉ offers es → sub_at n sub es = None.
Proof.
  revert sub. induction es as [|[s|m] es IH]; intros sub; cbn; [done|apply IH|].
  intros [Hne Hn]%not_elem_of_cons. destruct (Nat.eqb_spec m n); [congruence|by apply IH].
Qed.
Lemma sub_at_snoc n sub es :
  n ∉ offers es → sub_at n sub (es ++ [EvOffered n]) = Some (last_sub sub es).
Proof.
  revert sub. induction es as [|[s|m] es IH]; intros sub; cbn; [by rewrite Nat.eqb_refl|apply IH|].
  intros [Hne Hn]%not_elem_of_cons. destruct (Nat.eqb_spec m n); [congruence|by apply IH].
Qed.
Lemma sub_at_app n sub es s : sub_at n sub (es ++ [EvSubscribed s]) = sub_at n sub es.
Proof. revert sub. induction es as [|[s'|m] es IH]; intros sub; cbn; [done|apply IH|]. by case_match. Qed.
Lemma sub_at_offer_ne n m sub es : m ≠ n → sub_at n sub (es ++ [EvOffered m]) = sub_at n sub es.
Proof.
  intros Hne. revert sub. induction es as [|[s'|k] es IH]; intros sub; cbn; [|apply IH|by case_match].
  by destruct (Nat.eqb_spec m n).
Qed.

Lemma expected_none pub sub es : (∀ n, n ∈ offers es → (length pub ≤ n)%nat) → expected pub sub es = [].
Proof.
  revert sub. induction es as [|[s|n] es IH]; intros sub Hn; cbn in *; [done|by apply IH|].
  unfold due. rewrite lookup_ge_None_2 by (apply Hn; set_solver). cbn. apply IH. set_solver.
Qed.
(** One more alert: the session gets its frame if it was held against a subscription that
    wanted it. *)
Lemma expected_publish pub a o sub es :
  StronglySorted lt (offers es) → Forall (λ n, n ≤ length pub)%nat (offers es) →
  expected (pub ++ [(a, o)]) sub es = expected pub sub es ++
    match sub_at (length pub) sub es with
    | Some sub' => match o with Some f => if wants sub' a then [f] else [] | None => [] end
    | None => []
    end.
Proof.
  revert sub. induction es as [|[s|n] es IH]; intros sub Hs Hb; cbn in *; [done|by apply IH|].
  apply StronglySorted_inv in Hs as [Hs Hlt]. apply Forall_cons in Hb as [Hn Hb].
  destruct (Nat.eqb_spec n (length pub)) as [->|Hne].
  - assert (∀ m, m ∈ offers es → (S (length pub) ≤ m)%nat) as Hge.
    { intros m Hm. rewrite Forall_forall in Hlt. by apply Hlt. }
    rewrite !expected_none; [|intros m Hm; specialize (Hge m Hm); rewrite ?length_app; cbn; lia..].
    unfold due. rewrite (lookup_ge_None_2 pub), lookup_app_r, Nat.sub_diag by lia. cbn. by rewrite app_nil_r.
  - rewrite IH by done. rewrite app_assoc. f_equal. unfold due. by rewrite lookup_app_l by lia.
Qed.
End expected.
End Expected.

(** * Sessions and broadcaster *)

Module SubscriberFacts.
Import Proxy Expected.

Section subscriber_facts.
Context {J : Type} {json : ProxyJson J} {ct : ConstantTimeEq} (ingress : DaemonIngressConfig) (subscriber : SubscriberConfig).
Implicit Types (st : ProxyState J) (s : Session J) (pc : BroadcastPc J)
  (reg : gmap string nat) (ss : gmap nat (Session J)) (pub : list (ForwardAlert J * option (list byte))).

(** ** Where the broadcaster stands *)

Definition todo_of pc : list nat :=
  match pc with BcMatch _ todo _ => todo | BcLock _ i todo _ => i :: todo | _ => [] end.
Definition found_of pc : list nat :=
  match pc with BcMatch _ _ found | BcLock _ _ _ found | BcEncode _ found => found | _ => [] end.
Definition lock_of pc : list nat := match pc with BcLock _ i _ _ => [i] | _ => [] end.
Definition send_of pc : list nat :=
  match pc with BcSend _ todo => todo | BcClose _ i todo => i :: todo | _ => [] end.
Definition alert_of pc : option (ForwardAlert J) :=
  match pc with BcMatch a _ _ | BcLock a _ _ _ | BcEncode a _ => Some a | _ => None end.
(** The frame that is still to be queued for a session. *)
Definition pend pc (i : nat) : list (list byte) :=
  match pc with
  | BcSend f _ | BcClose f _ _ => if bool_decide (i ∈ send_of pc) then [f] else []
  | _ => []
  end.
Definition taken_of pc pub : nat := length pub + match alert_of pc with Some _ => 1 | None => 0 end.
Lemma taken_eq st : taken st = taken_of (px_caster st) (px_published st).
Proof. unfold taken, taken_of. by destruct (px_caster st). Qed.
(** How many alerts were held against a registered session. *)
Definition count_of pc pub (i : nat) : nat :=
  if bool_decide (i ∈ todo_of pc) then length pub else taken_of pc pub.

(** ** The invariant *)

Record session_ok reg pc pub (i : nat) s : Prop := {
  so_subscription : se_subscription s = last_sub None (se_events s);
  so_sorted : StronglySorted lt (offers (se_events s));
  so_bound : Forall (λ n, n < taken_of pc pub)%nat (offers (se_events s));
  so_prefix : se_alerts s `prefix_of` expected pub None (se_events s);
  so_exact : se_closed s = false ∨ i ∈ found_of pc ++ lock_of pc ++ send_of pc →
    se_alerts s ++ pend pc i = expected pub None (se_events s);
  so_found a : alert_of pc = Some a →
    i ∈ found_of pc ↔ ∃ sub, sub_at (length pub) None (se_events s) = Some sub ∧ wants sub a = true;
  so_todo : i ∈ todo_of pc → length pub ∉ offers (se_events s);
  so_offers id : se_id s = Some id → reg !! id = Some i → se_closed s = false →
    (se_since s ≤ count_of pc pub i)%nat ∧ offers (se_events s) = seq (se_since s) (count_of pc pub i - se_since s);
  so_new : se_id s = None → se_events s = [] ∧ se_alerts s = [];
}.
Record core_ok reg ss pc pub : Prop := {
  co_session i s : ss !! i = Some s → session_ok reg pc pub i s;
  co_registry id i : reg !! id = Some i → ∃ s, ss !! i = Some s ∧ se_id s = Some id;
  co_distinct : NoDup (todo_of pc ++ found_of pc) ∧ NoDup (send_of pc);
  co_known i : i ∈ todo_of pc ++ found_of pc ++ send_of pc → ∃ s, ss !! i = Some s ∧ is_Some (se_id s);
}.
Definition core_inv st : Prop := core_ok (px_registry st) (px_sessions st) (px_caster st) (px_published st).

(** ** Steps of one session *)

Lemma insert_known ss i s s' j :
  ss !! i = Some s → (is_Some (se_id s) → is_Some (se_id s')) →
  (∃ x, ss !! j = Some x ∧ is_Some (se_id x)) → ∃ x, <[i := s']> ss !! j = Some x ∧ is_Some (se_id x).
Proof.
  intros Hi Hid (x & Hj & Hx). destruct (decide (j = i)) as [->|Hne].
  - exists s'. rewrite lookup_insert_eq. split; [done|]. apply Hid. congruence.
  - exists x. by rewrite lookup_insert_ne.
Qed.
Lemma update_core reg ss pc pub i s s' :
  core_ok reg ss pc pub → ss !! i = Some s → se_id s' = se_id s → session_ok reg pc pub i s' →
  core_ok reg (<[i := s']> ss) pc pub.
Proof.
  intros [H1 H2 H3 H4] Hi Hid Hok. split; [| |done|].
  - intros j x [[-> ->]|[_ Hj]]%IngressFacts.insert_cases; [done|by apply H1].
  - intros id j (x & Hj & Hx)%H2. destruct (decide (j = i)) as [->|Hne].
    + exists s'. rewrite lookup_insert_eq. split; [done|]. congruence.
    + exists x. by rewrite lookup_insert_ne.
  - intros j Hj. eapply insert_known; [done| |by apply H4]. by rewrite Hid.
Qed.
(** What a session shows to the broadcaster, apart from being closed. *)
Definition same s s' : Prop :=
  se_id s' = se_id s ∧ se_subscription s' = se_subscription s ∧ se_since s' = se_since s ∧
  se_events s' = se_events s ∧ se_alerts s' = se_alerts s ∧ (se_closed s = true → se_closed s' = true).
Lemma same_ok reg pc pub i s s' : same s s' → session_ok reg pc pub i s → session_ok reg pc pub i s'.
Proof.
  intros (E1 & E2 & E3 & E4 & E5 & Hc) [H1 H2 H3 H4 H5 H6 H7 H8 H9].
  assert (se_closed s' = false → se_closed s = false) as Hc' by (destruct (se_closed s); [intros E; by rewrite Hc in E|done]).
  split; rewrite ?E1, ?E2, ?E3, ?E4, ?E5; auto.
  - intros [Hcl|Hin]; apply H5; auto.
  - intros id Hid Hreg Hcl. apply (H8 id); auto.
Qed.
Lemma quiet_inv st i s s' :
  core_inv st → px_sessions st !! i = Some s → same s s' → core_inv (set_session i s' st).
Proof.
  intros Hinv Hi Hs. unfold core_inv. cbn. eapply update_core; [exact Hinv|done|apply Hs|].
  eapply same_ok; [done|]. by eapply co_session.
Qed.
(** A new subscription. *)
Lemma subscribed_inv st i s s' sub confirmation :
  core_inv st → px_sessions st !! i = Some s → is_Some (se_id s) → same (subscribed sub confirmation s) s' →
  core_inv (set_session i s' st).
Proof.
  intros Hinv Hi Hid Hs. unfold core_inv. cbn. eapply update_core; [exact Hinv|done|apply Hs|].
  eapply same_ok; [exact Hs|].
  destruct (co_session _ _ _ _ Hinv _ _ Hi) as [H1 H2 H3 H4 H5 H6 H7 H8 H9].
  split; cbn; rewrite ?offers_app, ?last_sub_app, ?expected_app, ?app_nil_r; cbn; rewrite ?app_nil_r; auto.
  - intros a Ha. rewrite sub_at_app. by apply H6.
  - intros E. rewrite E in Hid. by destruct Hid.
Qed.
(** The handle is removed. *)
Lemma remove_inv st id : core_inv st → core_inv (set_registry (delete id (px_registry st)) st).
Proof.
  intros [H1 H2 H3 H4]. split; cbn; [| |done|done].
  - intros i s Hi. destruct (H1 _ _ Hi) as [? ? ? ? ? ? ? H8 ?]. split; try done.
    intros id' Hid [_ Hreg]%lookup_delete_Some. by apply (H8 id').
  - intros id' i [_ Hreg]%lookup_delete_Some. by apply H2.
Qed.
(** The handle is made and registered. *)
Lemma register_inv st i s s' id now :
  core_inv st → px_sessions st !! i = Some s → se_id s = None → same (registered id now (taken st) s) s' →
  core_inv (set_session i s' (set_registry (<[id := i]> (px_registry st)) st)).
Proof.
  intros Hinv Hi Hnone Hs. pose proof Hinv as [H1 H2 H3 H4]. unfold core_inv. cbn.
  assert (i ∉ todo_of (px_caster st) ++ found_of (px_caster st) ++ send_of (px_caster st)) as Hout.
  { intros (x & Hx & [y Hy])%H4. congruence. }
  assert (se_id s' = Some id) as Hid by apply Hs.
  split; [| |done|].
  - intros j x [[-> ->]|[Hne Hj]]%IngressFacts.insert_cases.
    + eapply same_ok; [exact Hs|]. split; cbn; try done; try constructor.
      * intros _. unfold pend. destruct (px_caster st); try done; rewrite bool_decide_false by set_solver; done.
      * intros Hin. set_solver.
      * by intros (sub & [=] & _).
      * intros _. set_solver.
      * rewrite taken_eq. unfold count_of. rewrite bool_decide_false by set_solver. done.
      * rewrite taken_eq. unfold count_of. rewrite bool_decide_false by set_solver. by rewrite Nat.sub_diag.
    + destruct (H1 _ _ Hj) as [? ? ? ? ? ? ? H8 ?]. split; try done.
      intros id' Hid' [[-> ->]|[? Hreg]]%lookup_insert_Some; [done|]. by apply (H8 id').
  - intros id' j [[-> ->]|[Hne Hreg]]%lookup_insert_Some.
    + exists s'. by rewrite lookup_insert_eq.
    + destruct (H2 _ _ Hreg) as (x & Hj & Hx). exists x. rewrite lookup_insert_ne; [done|]. intros ->. congruence.
  - intros j Hj. eapply insert_known; [done| |by apply H4]. rewrite Hnone. by intros [].
Qed.

(** ** Steps of the broadcaster *)

Lemma recast_ok reg pc pc' pub i s :
  session_ok reg pc pub i s → alert_of pc' = alert_of pc → (i ∈ found_of pc' ↔ i ∈ found_of pc) →
  (i ∈ todo_of pc' → i ∈ todo_of pc) → (se_closed s = false → i ∈ todo_of pc → i ∈ todo_of pc') →
  (i ∈ found_of pc' ++ lock_of pc' ++ send_of pc' →
     se_closed s = false ∨ i ∈ found_of pc ++ lock_of pc ++ send_of pc) →
  pend pc' i = pend pc i → session_ok reg pc' pub i s.
Proof.
  intros [H1 H2 H3 H4 H5 H6 H7 H8 H9] Ha Hf Ht Ht' Hh Hp.
  assert (taken_of pc' pub = taken_of pc pub) as Htk by (unfold taken_of; by rewrite Ha).
  split; auto.
  - by rewrite Htk.
  - rewrite Hp. intros [Hc|Hin]; apply H5; auto.
  - intros a. rewrite Ha, Hf. apply H6.
  - intros id Hid Hreg Hc. assert (count_of pc' pub i = count_of pc pub i) as ->; [|by eapply H8].
    unfold count_of. rewrite Htk. by rewrite (bool_decide_ext (i ∈ todo_of pc') (i ∈ todo_of pc)) by (split; auto).
Qed.
Definition idle pc : Prop :=
  todo_of pc = [] ∧ found_of pc = [] ∧ lock_of pc = [] ∧ send_of pc = [] ∧ alert_of pc = None ∧ ∀ i, pend pc i = [].
Lemma idle_core reg ss pc pc' pub : idle pc → idle pc' → core_ok reg ss pc pub → core_ok reg ss pc' pub.
Proof.
  intros (A1 & A2 & A3 & A4 & A5 & A6) (B1 & B2 & B3 & B4 & B5 & B6) [H1 H2 H3 H4].
  split; [|done|by rewrite B1, B2, B4; split; constructor|rewrite B1, B2, B4; intros i; set_solver].
  intros i s Hi. eapply recast_ok; [by apply H1|..]; rewrite ?A1, ?A2, ?A3, ?A4, ?A5, ?A6, ?B1, ?B2, ?B3, ?B4, ?B5, ?B6;
    try done; set_solver.
Qed.

(** The broadcaster is done with an alert, and it may have made a frame. *)
Lemma sub_at_fresh reg pc pub i s :
  session_ok reg pc pub i s → alert_of pc = None → sub_at (length pub) None (se_events s) = None.
Proof.
  intros [_ _ H3 _ _ _ _ _ _] Ha. apply sub_at_None. intros Hin. rewrite Forall_forall in H3.
  specialize (H3 _ Hin). unfold taken_of in H3. rewrite Ha in H3. lia.
Qed.
Lemma bound_le reg pc pub i s :
  session_ok reg pc pub i s → Forall (λ n, n ≤ length pub)%nat (offers (se_events s)).
Proof.
  intros [_ _ H3 _ _ _ _ _ _]. eapply Forall_impl; [exact H3|]. intros n. unfold taken_of. case_match; lia.
Qed.
Lemma publish_ok reg pc pc' pub i s a o :
  session_ok reg pc pub i s → pend pc i = [] → send_of pc = [] → lock_of pc = [] →
  (alert_of pc = Some a ∧ todo_of pc = [] ∨ alert_of pc = None ∧ found_of pc = [] ∧ o = None ∧ (∀ id, reg !! id ≠ Some i)) →
  alert_of pc' = None → todo_of pc' = [] → found_of pc' = [] → lock_of pc' = [] →
  (o = None → pend pc' i = [] ∧ send_of pc' = []) →
  (∀ f, o = Some f → send_of pc' = found_of pc ∧ pend pc' i = if bool_decide (i ∈ found_of pc) then [f] else []) →
  session_ok reg pc' (pub ++ [(a, o)]) i s.
Proof.
  intros Hok Hp Hsend Hlock Hcase Ha' Ht' Hf' Hl' Hnone Hsome. pose proof Hok as [H1 H2 H3 H4 H5 H6 H7 H8 H9].
  assert (expected (pub ++ [(a, o)]) None (se_events s) = expected pub None (se_events s) ++
    match o with Some f => if bool_decide (i ∈ found_of pc) then [f] else [] | None => [] end) as Hexp.
  { rewrite expected_publish; [|done|by eapply bound_le]. f_equal.
    destruct Hcase as [[Ha _]|(Ha & _ & -> & _)]; [|by rewrite (sub_at_fresh _ _ _ _ _ Hok Ha)].
    destruct o as [f|]; [|by destruct (sub_at _ _ _)]. specialize (H6 a Ha). case_bool_decide as Hin.
    - apply H6 in Hin as (sub & -> & ->). done.
    - destruct (sub_at _ _ _) as [sub|]; [|done]. destruct (wants sub a) eqn:Ew; [|done]. destruct Hin. apply H6. eauto. }
  split; auto.
  - unfold taken_of in *. rewrite Ha', length_app. cbn. eapply Forall_impl; [exact H3|].
    intros n. cbn. destruct (alert_of pc); lia.
  - rewrite Hexp. by apply prefix_app_r.
  - rewrite Hexp, Hf', Hl'. cbn. rewrite Hp, Hsend, Hlock, !app_nil_r in H5. destruct o as [f|].
    + destruct (Hsome f eq_refl) as [-> ->]. intros Hc. f_equal. by apply H5.
    + destruct (Hnone eq_refl) as [-> ->]. rewrite !app_nil_r. intros [Hc|Hin]; [apply H5; auto|set_solver].
  - rewrite Ha'. done.
  - rewrite Ht'. set_solver.
  - intros id Hid Hreg Hc. destruct Hcase as [[Ha Ht]|(_ & _ & _ & Hno)]; [|by destruct (Hno id)].
    destruct (H8 id Hid Hreg Hc) as [Hle E]. unfold count_of, taken_of in *. rewrite Ha', Ht' in *. rewrite Ha, Ht in *.
    rewrite length_app. cbn in *. rewrite Nat.add_0_r. done.
Qed.

Lemma registered_distinct reg ss pc pub : core_ok reg ss pc pub → NoDup (bt_values reg).
Proof.
  intros [_ H2 _ _]. unfold bt_values. apply NoDup_fmap_2_strong.
  - intros [id i] [id' i'] Hx Hy. cbn. intros <-.
    apply elem_of_bt_list, H2 in Hx as (x & Hx & Ex). apply elem_of_bt_list, H2 in Hy as (y & Hy & Ey). congruence.
  - rewrite bt_list_perm. apply NoDup_map_to_list.
Qed.

(** The snapshot: every registered session is to be looked at. *)
Lemma snapshot_core reg ss pc pub a :
  idle pc → core_ok reg ss pc pub → core_ok reg ss (BcMatch a (bt_values reg) []) pub.
Proof.
  intros (A1 & A2 & A3 & A4 & A5 & A6) Hcore. pose proof Hcore as [H1 H2 H3 H4]. split; [|done| |].
  - intros i s Hi. pose proof (H1 _ _ Hi) as Hok. pose proof (sub_at_fresh _ _ _ _ _ Hok A5) as Hsub.
    destruct Hok as [B1 B2 B3 B4 B5 B6 B7 B8 B9]. split; cbn; auto.
    + unfold taken_of in *. rewrite A5 in B3. cbn. eapply Forall_impl; [exact B3|]. cbn. lia.
    + intros [Hc|Hin]; [|set_solver]. rewrite A6 in B5. apply B5. by left.
    + intros a' _. rewrite Hsub. split; [set_solver|]. by intros (sub & [=] & _).
    + intros _ Hin. rewrite Forall_forall in B3. specialize (B3 _ Hin). unfold taken_of in B3. rewrite A5 in B3. lia.
    + intros id Hid Hreg Hc. destruct (B8 id Hid Hreg Hc) as [Hle E]. unfold count_of, taken_of in *. cbn.
      rewrite bool_decide_true by (apply elem_of_bt_values; eauto).
      rewrite A1, A5 in *. rewrite bool_decide_false in Hle, E by set_solver. by rewrite Nat.add_0_r in Hle, E.
  - cbn. split; [|constructor]. rewrite app_nil_r. by eapply registered_distinct.
  - cbn. intros i. rewrite !app_nil_r. intros [id Hid]%elem_of_bt_values.
    destruct (H2 _ _ Hid) as (s & Hs & E). exists s. by rewrite E.
Qed.
(** A session is looked at. *)
Lemma lock_core reg ss pub a i s todo found :
  core_ok reg ss (BcLock a i todo found) pub → ss !! i = Some s →
  core_ok reg (<[i := offered (length pub) s]> ss)
    (BcMatch a todo (if wants (se_subscription s) a then found ++ [i] else found)) pub.
Proof.
  intros [H1 H2 [H3 _] H4] Hi. cbn in H3. apply NoDup_cons in H3 as [Hni H3].
  assert ((i ∉ todo) ∧ (i ∉ found)) as [Hit Hif] by set_solver.
  assert (∀ j, j ≠ i → j ∈ (if wants (se_subscription s) a then found ++ [i] else found) ↔ j ∈ found) as Hfound
    by (intros j Hne; destruct (wants _ _); set_solver).
  split.
  - intros j x [[-> ->]|[Hne Hj]]%IngressFacts.insert_cases.
    + destruct (H1 _ _ Hi) as [B1 B2 B3 B4 B5 B6 B7 B8 B9]. cbn in B5, B6, B7.
      specialize (B7 ltac:(set_solver)).
      assert (Forall (λ n, n < length pub)%nat (offers (se_events s))) as Hlt.
      { rewrite Forall_forall in B3 |- *. intros n Hn. specialize (B3 n Hn). unfold taken_of in B3. cbn in B3.
        assert (n ≠ length pub) by congruence. lia. }
      assert (expected pub None (se_events s ++ [EvOffered (length pub)]) = expected pub None (se_events s)) as Hexp.
      { rewrite expected_app. cbn. unfold due. by rewrite lookup_ge_None_2, !app_nil_r by lia. }
      split; cbn [offered se_subscription se_events se_alerts se_closed se_id se_since]; rewrite ?Hexp, ?offers_app, ?last_sub_app;
        cbn [offers last_sub]; auto.
      * by apply sorted_lt_snoc.
      * unfold taken_of in *. cbn in *. apply Forall_app. split; [done|]. constructor; [lia|done].
      * intros _. unfold pend. rewrite <-B5 by (right; set_solver). done.
      * intros a' [= <-]. rewrite sub_at_snoc by done. rewrite <-B1. split.
        -- destruct (wants (se_subscription s) a) eqn:Ew; [eauto|done].
        -- intros (sub & [= <-] & ->). set_solver.
      * intros id Hid Hreg Hc. destruct (B8 id Hid Hreg Hc) as [Hle E]. unfold count_of, taken_of in *. cbn in *.
        rewrite bool_decide_true in Hle, E by set_solver. rewrite bool_decide_false by done. split; [lia|].
        replace (length pub + 1 - se_since s)%nat with (length pub - se_since s + 1)%nat by lia.
        rewrite seq_app, <-E. cbn. repeat f_equal. lia.
      * intros Hid. destruct (H4 i) as (x & Hx & [y Hy]); [cbn; set_solver|]. congruence.
    + eapply (recast_ok _ (BcLock a i todo found)); [by apply H1|done|cbn; by rewrite Hfound|cbn; set_solver|cbn; set_solver| |done].
      cbn. rewrite !app_nil_r. rewrite Hfound by done. set_solver.
  - intros id j (x & Hj & Hx)%H2. destruct (decide (j = i)) as [->|Hne].
    + exists (offered (length pub) s). rewrite lookup_insert_eq. split; [done|]. cbn. congruence.
    + exists x. by rewrite lookup_insert_ne.
  - cbn. split; [|constructor]. destruct (wants _ _); [|done]. rewrite app_assoc.
    apply NoDup_app. splits; [done| |apply NoDup_singleton]. intros x Hx ->%list_elem_of_singleton. set_solver.
  - cbn. intros j Hj. eapply insert_known; [done|done|]. apply H4. cbn. rewrite app_nil_r in *.
    destruct (wants _ _); set_solver.
Qed.


Lemma registry_update reg ss i s s' :
  ss !! i = Some s → se_id s' = se_id s →
  (∀ id j, reg !! id = Some j → ∃ x, ss !! j = Some x ∧ se_id x = Some id) →
  ∀ id j, reg !! id = Some j → ∃ x, <[i := s']> ss !! j = Some x ∧ se_id x = Some id.
Proof.
  intros Hi Hid H2 id j (x & Hj & Hx)%H2. destruct (decide (j = i)) as [->|Hne].
  - exists s'. rewrite lookup_insert_eq. split; [done|]. congruence.
  - exists x. by rewrite lookup_insert_ne.
Qed.
(** The frame is queued for the next session, or that session is closed. *)
Lemma pend_tail f i todo j : j ≠ i → pend (BcSend f todo) j = pend (BcSend f (i :: todo)) j.
Proof. intros Hne. cbn. by rewrite (bool_decide_ext (j ∈ todo) (j ∈ i :: todo)) by set_solver. Qed.
Lemma send_core reg ss pub f i s s' todo :
  core_ok reg ss (BcSend f (i :: todo)) pub → ss !! i = Some s →
  s' = queue_alert f s ∨ s' = close s → core_ok reg (<[i := s']> ss) (BcSend f todo) pub.
Proof.
  intros [H1 H2 [_ H3] H4] Hi Hs. cbn in H3. apply NoDup_cons in H3 as [Hni H3].
  assert (se_id s' = se_id s) as Hid by (destruct Hs; by subst).
  split; [|by eapply registry_update| |].
  - intros j x [[-> ->]|[Hne Hj]]%IngressFacts.insert_cases.
    + destruct (H1 _ _ Hi) as [B1 B2 B3 B4 B5 B6 B7 B8 B9]. cbn in B5.
      rewrite bool_decide_true in B5 by set_solver. specialize (B5 ltac:(right; set_solver)).
      assert (pend (BcSend f todo) i = []) as Hp by (cbn; by rewrite bool_decide_false).
      destruct Hs as [-> | ->]; split; cbn [queue_alert close se_subscription se_events se_alerts se_closed se_id se_since];
        rewrite ?Hp, ?app_nil_r; auto.
      * rewrite <-B5. reflexivity.
      * intros E. destruct (H4 i) as (x & Hx & [y Hy]); [cbn; set_solver|]. congruence.
      * cbn. intros [|]; [done|set_solver].
      * done.
    + eapply (recast_ok _ (BcSend f (i :: todo))); [by apply H1|done|done|done|done| |by apply pend_tail].
      cbn. set_solver.
  - cbn. split; [constructor|done].
  - cbn. intros j Hj. eapply insert_known; [done| |apply H4; cbn; set_solver]. by rewrite Hid.
Qed.

Lemma idle_pcs : idle BcLoop ∧ idle BcRecv ∧ idle BcDone ∧ (∀ a, idle (BcSnapshot a)) ∧ ∀ f, idle (BcSend f []).
Proof. splits; intros; repeat split. Qed.

Lemma publish_core reg ss pc pub a o pc' :
  core_ok reg ss pc pub → (∀ i, pend pc i = []) → send_of pc = [] → lock_of pc = [] →
  (alert_of pc = Some a ∧ todo_of pc = [] ∨ alert_of pc = None ∧ found_of pc = [] ∧ o = None ∧ bt_values reg = []) →
  (o = None → pc' = BcLoop) → (∀ f, o = Some f → pc' = BcSend f (found_of pc)) →
  core_ok reg ss pc' (pub ++ [(a, o)]).
Proof.
  intros [H1 H2 [H3 H3'] H4] Hp Hs Hl Hcase Hn Hf.
  assert (alert_of pc' = None ∧ todo_of pc' = [] ∧ found_of pc' = [] ∧ lock_of pc' = []) as (B1 & B2 & B3 & B4)
    by (destruct o as [f|]; [by rewrite (Hf f)|by rewrite Hn]).
  assert (send_of pc' = match o with Some _ => found_of pc | None => [] end) as B5
    by (destruct o as [f|]; [by rewrite (Hf f)|by rewrite Hn]).
  split; [|done| |].
  - intros i s Hi. eapply publish_ok; [by apply H1|done..| |done|done|done|done| |].
    + destruct Hcase as [?|(?&?&?&Hreg)]; [by left|right]. splits; [done|done|done|]. intros id Hid.
      assert (i ∈ bt_values reg) as Hin by (apply elem_of_bt_values; eauto). rewrite Hreg in Hin. set_solver.
    + intros ->. by rewrite Hn.
    + intros f ->. by rewrite (Hf f).
  - rewrite B2, B3, B5. split; [constructor|]. destruct o; [|constructor]. by apply NoDup_app in H3 as (_ & _ & ?).
  - rewrite B2, B3, B5. cbn. intros i Hi. apply H4. destruct o; set_solver.
Qed.

Lemma broadcast_core io st st' : core_inv st → broadcast_step subscriber io st = Some st' → core_inv st'.
Proof.
  intros Hinv H. unfold broadcast_step in H. unfold core_inv in *. destruct idle_pcs as (I1 & I2 & I3 & I4 & I5).
  destruct (px_caster st) as [| |a|a [|i todo] found|a i todo found|a found|f [|i todo]|f i todo|] eqn:Ec.
  - injection H as <-. cbn. destruct (fl_broadcast_stop _); (eapply idle_core; [| |exact Hinv]; auto).
  - destruct (px_queue st) as [|a rest]; injection H as <-; cbn; (eapply idle_core; [| |exact Hinv]; auto).
  - destruct (bt_values (px_registry st)) as [|x l] eqn:Er; injection H as <-; cbn.
    + eapply publish_core; try done. right. splits; done.
    + rewrite <-Er. eapply snapshot_core; [|exact Hinv]. auto.
  - assert (core_ok (px_registry st) (px_sessions st) (BcEncode a found) (px_published st)) as Henc.
    { destruct Hinv as [H1 H2 H3 H4]. split; try done. intros i s Hi. eapply recast_ok; [by apply H1|done|done|done|done|by right|done]. }
    destruct found as [|x found]; injection H as <-; cbn; [|done]. eapply publish_core; try done. by left.
  - apply bind_Some in H as (s & Hi & H). injection H as <-. cbn.
    pose proof Hinv as [H1 H2 [H3 _] H4]. cbn in H3. apply NoDup_cons in H3 as [Hni H3].
    destruct (se_closed s) eqn:Ecl.
    + split; [|done|cbn; split; [done|constructor]|intros j Hj; apply H4; cbn in *; set_solver].
      intros j x Hj. eapply (recast_ok _ (BcMatch a (i :: todo) found)); [by apply H1|done|done| | |by right|done].
      * cbn. set_solver.
      * cbn. intros Hc [->|?]%elem_of_cons; [|done]. congruence.
    + split; [|done| |done]; [|cbn; split; [by constructor|constructor]].
      intros j x Hj. eapply (recast_ok _ (BcMatch a (i :: todo) found)); [by apply H1|done|done|done|done| |done].
      cbn. rewrite !elem_of_app. intros [?|Hin]; [by right; left|].
      apply list_elem_of_singleton in Hin as ->. left. congruence.
  - apply bind_Some in H as (s & Hi & H). injection H as <-. cbn.
    pose proof (lock_core _ _ _ _ _ _ _ _ Hinv Hi) as Hl. unfold wants in Hl.
    by destruct (se_subscription s) as [sub|].
  - destruct (JsonFrame.encode _ _) as [f|e]; injection H as <-; cbn; (eapply publish_core; try done); [by left| |by left].
    by intros f' [= <-].
  - injection H as <-. cbn. eapply idle_core; [| |exact Hinv]; auto.
  - apply bind_Some in H as (s & Hi & H). destruct (accepts_frame subscriber s); injection H as <-; cbn.
    + eapply send_core; [done|done|by left].
    + destruct Hinv as [H1 H2 H3 H4]. split; try done. intros j x Hj. eapply recast_ok; [by apply H1|done|done|done|done|by right|done].
  - apply bind_Some in H as (s & Hi & H). injection H as <-. cbn. eapply send_core; [|done|by right].
    destruct Hinv as [H1 H2 H3 H4]. split; try done. intros j x Hj. eapply recast_ok; [by apply H1|done|done|done|done|by right|done].
  - done.
Qed.

(** ** What holds for each session alone *)

Definition accepted (h : HandshakeRequest) : Prop :=
  hq_version h = "v1" ∧ hq_client_id h ≠ EmptyString ∧
  Z.of_nat (String.length (hq_client_id h)) ≤ su_max_client_id_bytes subscriber ∧
  hq_token h ∈ su_allowed_tokens subscriber.
Lemma string_bytes_inj a b : string_bytes a = string_bytes b → a = b.
Proof. intros E%(f_equal String.string_of_list_byte). by rewrite !String.string_of_list_byte_of_string in E. Qed.
Lemma accepts_token tokens candidate : TokenVerifier.accepts tokens candidate = true ↔ candidate ∈ tokens.
Proof.
  unfold TokenVerifier.accepts. rewrite Z.eqb_eq.
  assert (∀ acc, acc = 0 ∨ acc = 1 →
    foldl (λ accepted token,
      if bool_decide (length (string_bytes token) = length (string_bytes candidate))
      then Z.lor accepted (ct_eq (string_bytes token) (string_bytes candidate)) else accepted) acc tokens
    = if bool_decide (acc = 1 ∨ candidate ∈ tokens) then 1 else 0) as Hfold.
  { induction tokens as [|t tokens IH]; intros acc Hacc; cbn.
    - destruct Hacc as [-> | ->]; [rewrite bool_decide_false by set_solver|rewrite bool_decide_true by auto]; done.
    - assert (string_bytes t = string_bytes candidate ↔ candidate = t) as Ht
        by (split; [intros E; symmetry; by apply string_bytes_inj|by intros ->]).
      destruct (decide (candidate = t)) as [->|Hne].
      + rewrite (bool_decide_true (length _ = length _)) by done. rewrite ct_eq_spec, decide_True by done.
        rewrite IH by (destruct Hacc as [-> | ->]; auto).
        rewrite !bool_decide_true; [done|set_solver|destruct Hacc as [-> | ->]; auto].
      + assert ((if bool_decide (length (string_bytes t) = length (string_bytes candidate))
          then Z.lor acc (ct_eq (string_bytes t) (string_bytes candidate)) else acc) = acc) as ->.
        { case_bool_decide as Hl; [|done]. rewrite ct_eq_spec, decide_False by (done || by rewrite Ht). by rewrite Z.lor_0_r. }
        rewrite IH by done. rewrite (bool_decide_ext (acc = 1 ∨ candidate ∈ tokens) (acc = 1 ∨ candidate ∈ t :: tokens)); [done|].
        rewrite elem_of_cons. naive_solver. }
  rewrite Hfold by auto. case_bool_decide as Hb; [|split; [done|]; intros Hin; destruct Hb; auto].
  split; [|done]. intros _. by destruct Hb.
Qed.

(** Where a session can stand. *)
Definition place_ok s (place : SessionPc J) : Prop :=
  match place with
  | SsHello | SsHelloWait => se_id s = None
  | SsGreet h => se_id s = None ∧ accepted h
  | SsRegister _ => se_id s = None ∧ ∃ h, se_hello s = Some h ∧ accepted h
  | SsSpawn _ => is_Some (se_id s) ∧ se_writer s = WrNone
  | SsFail _ _ | SsDone _ => True
  | _ => is_Some (se_id s)
  end.
Definition local_ok s : Prop :=
  (∃ lost, se_queued s = se_sent s ++ lost ++ se_outbound s ∧
     match se_writer s with
     | WrWrite f => lost = [f]
     | WrClose _ | WrDone _ => (length lost ≤ 1)%nat
     | _ => lost = []
     end) ∧
  se_alerts s `sublist_of` se_queued s ∧
  (is_Some (se_id s) → ∃ h, se_hello s = Some h ∧ accepted h) ∧
  (se_id s = None → se_writer s = WrNone) ∧
  place_ok s (se_pc s).

(** A session thread goes on: only its place, its decoder and the activity change. *)
Lemma check_handshake_cases r :
  match check_handshake (J:=J) subscriber r with SsGreet h => accepted h | SsFail _ _ => True | _ => False end.
Proof.
  destruct r as [h|q|q]; cbn; try done. destruct (String.eqb_spec (hq_version h) "v1") as [Ev|]; cbn; [|done].
  destruct (bool_decide (hq_client_id h = EmptyString)) eqn:Ee; cbn; [done|]. apply bool_decide_eq_false in Ee.
  destruct (Z.ltb_spec (su_max_client_id_bytes subscriber) (Z.of_nat (String.length (hq_client_id h)))); [done|].
  destruct (TokenVerifier.accepts _ _) eqn:Et; cbn; [|done]. apply accepts_token in Et. by splits.
Qed.
Lemma dispatch_cases (r : SubscriberRequest J) :
  match dispatch r with SsSubscribe _ | SsPong _ | SsFail _ _ => True | _ => False end.
Proof. by destruct r. Qed.

Definition subs_inv st : Prop := core_inv st ∧ ∀ i s, px_sessions st !! i = Some s → local_ok s.
Lemma local_insert st i s' :
  (∀ j s, px_sessions st !! j = Some s → local_ok s) → local_ok s' →
  ∀ j s, px_sessions (set_session i s' st) !! j = Some s → local_ok s.
Proof. intros H Hs' j s [[-> ->]|[_ Hj]]%IngressFacts.insert_cases; [done|by eapply H]. Qed.
Lemma quiet_both st i s s' :
  subs_inv st → px_sessions st !! i = Some s → same s s' → local_ok s' → subs_inv (set_session i s' st).
Proof. intros [Hc Hl] Hi Hs Hl'. split; [by eapply quiet_inv|by apply local_insert]. Qed.

Lemma read_request_decoder io s r s' : read_request subscriber io s = (r, s') → ∃ d, s' = set_decoder d s.
Proof.
  unfold read_request. destruct (Sock.read_message _ _ _ _ _) as [[? ?] d]. intros [= _ <-]. by exists d.
Qed.
Lemma session_subs i io st st' : subs_inv st → session_step subscriber i io st = Some st' → subs_inv st'.
Proof.
  intros Hinv. pose proof Hinv as [Hcore Hlocal]. unfold session_step. intros (s & Hi & H)%bind_Some.
  pose proof (Hlocal _ _ Hi) as (Hfifo & Hsub & Hhello & Hnone & Hpc).
  assert (∀ place, place_ok s place → subs_inv (set_session i (session_at place s) st)) as Hto.
  { intros place Hp. eapply quiet_both; [done|done|by repeat split|]. by repeat split. }
  assert (∀ d place, place_ok s place → subs_inv (set_session i (session_at place (set_decoder d s)) st)) as Hto'.
  { intros d place Hp. eapply quiet_both; [done|done|by repeat split|]. by repeat split. }
  assert (∀ a place, place_ok s place → subs_inv (set_session i (session_at place (set_activity a s)) st)) as Hact.
  { intros d place Hp. eapply quiet_both; [done|done|by repeat split|]. by repeat split. }
  destruct (se_pc s) as [| |h|id|id| | | |q|sub conf|q|e text|r|r|r|r] eqn:Epc; cbv zeta in H; cbn in Hpc.
  - destruct (read_request subscriber io s) as [r s'] eqn:Er. destruct (read_request_decoder _ _ _ _ Er) as [d ->]. injection H as <-.
    apply Hto'. destruct r as [[m|]|e]; [|done|done]. pose proof (check_handshake_cases m) as Hch.
    by destruct (check_handshake subscriber m).
  - injection H as <-. apply Hto. destruct (fl_subscriber_stop _); [done|]. by destruct (io_elapsed io).
  - destruct Hpc as [Hid Hh]. destruct (encoded _ _) as [bs|]; [|injection H as <-; by apply Hto].
    destruct (write_all io) as [[]|]; injection H as <-; [|by apply Hto].
    eapply quiet_both; [done|done|by repeat split|]. split; [exact Hfifo|]. split; [done|]. split; [eauto|]. split; [done|].
    cbn. split; [done|]. eauto.
  - destruct Hpc as [Hid Hh]. destruct (io_fail io) as [text|]; [injection H as <-; by apply Hto|].
    assert (∀ s', same (registered id (io_now io) (taken st) s) s' → local_ok s' →
      subs_inv (set_session i s' (set_registry (<[id := i]> (px_registry st)) st))) as Hreg.
    { intros s' Hsame Hl'. split; [by eapply register_inv|]. by apply (local_insert (set_registry _ st)). }
    destruct (px_registry st !! id); injection H as <-; apply Hreg; try (by repeat split);
      (split; [exists []; split; [done|cbn; by rewrite Hnone]|]); (split; [constructor|]); (split; [by intros _|]); (split; [done|]); cbn; eauto.
  - destruct (io_fail io) as [text|]; injection H as <-; (eapply quiet_both; [done|done|by repeat split|]).
    + destruct Hpc. by split.
    + destruct Hpc as [Hid Hw].
      split; [cbn; by rewrite Hw in Hfifo|]. split; [done|]. split; [done|]. split; [|done].
      intros E. cbn in E. rewrite E in Hid. by destruct Hid.
  - injection H as <-. apply Hto. by destruct (fl_subscriber_stop _).
  - injection H as <-. apply Hto. by destruct (se_closed s).
  - destruct (read_request subscriber io s) as [r s'] eqn:Er. destruct (read_request_decoder _ _ _ _ Er) as [d ->]. injection H as <-.
    apply Hto'. destruct r as [[m|]|e]; [|done|done]. pose proof (dispatch_cases m) as Hch. by destruct (dispatch m).
  - injection H as <-. apply Hact. destruct (validate_subscription _ _) as [[]|]; [|done]. by destruct (encoded _ _).
  - destruct (accepts_frame subscriber s); injection H as <-; [|by apply Hto].
    split.
    + eapply subscribed_inv; [done|done|done|by repeat split].
    + apply local_insert; [done|]. split; [|split; [by apply sublist_inserts_r|by split]].
      destruct Hfifo as (lost & Hq & Hw). exists lost. split; [|done]. cbn. by rewrite Hq, <-!app_assoc.
  - destruct (Activity.accept_pong _ _ _) as [r a]. injection H as <-. apply Hact. by destruct r.
  - injection H as <-. apply Hto. unfold ended. destruct (se_id s) eqn:E; [|done]. cbn. by rewrite E.
  - injection H as <-. destruct (se_id s) as [id|] eqn:Eid; [|by destruct Hpc].
    assert (subs_inv (set_registry (delete id (px_registry st)) st)) as Hrm by (split; [by apply remove_inv|done]).
    eapply (quiet_both (set_registry _ st)); [done|done|by repeat split|]. split; [done|]. split; [done|]. cbn. by rewrite Eid.
  - injection H as <-. eapply quiet_both; [done|done|by repeat split|]. by repeat split.
  - destruct (se_writer s); try done; injection H as <-; by apply Hto.
  - done.
Qed.

Lemma writer_subs i io st st' : subs_inv st → writer_step subscriber i io st = Some st' → subs_inv st'.
Proof.
  intros Hinv. pose proof Hinv as [Hcore Hlocal]. unfold writer_step. intros (s & Hi & H)%bind_Some.
  pose proof (Hlocal _ _ Hi) as (Hfifo & Hsub & Hhello & Hnone & Hpc).
  assert (∀ s', same s s' → se_pc s' = se_pc s → se_hello s' = se_hello s → se_queued s' = se_queued s →
    se_writer s ≠ WrNone →
    (∃ lost, se_queued s' = se_sent s' ++ lost ++ se_outbound s' ∧
     match se_writer s' with
     | WrWrite f => lost = [f]
     | WrClose _ | WrDone _ => (length lost ≤ 1)%nat
     | _ => lost = []
     end) → subs_inv (set_session i s' st)) as Hto.
  { intros s' Hs Ep Eh Eq Hw Hf. eapply quiet_both; [done|done|done|]. destruct Hs as (Ei & _ & _ & _ & Ea & _).
    split; [done|]. split; [by rewrite Ea, Eq|]. rewrite Ei, Eh, Ep. split; [done|]. split; [intros E; by destruct Hw; apply Hnone|].
    destruct (se_pc s); cbn in Hpc |- *; rewrite ?Ei, ?Eh; try done. by destruct Hpc. }
  destruct Hfifo as (lost & Hq & Hw).
  destruct (se_writer s) as [| | | |f| |f|r|r] eqn:Ew; try done; cbv zeta in H.
  - injection H as <-. apply Hto; [by repeat split|done|done|done|done|]. exists lost. split; [done|]. subst lost.
    destruct (fl_subscriber_stop _); cbn; [lia|done].
  - injection H as <-. apply Hto; [by repeat split|done|done|done|done|]. exists lost. split; [done|]. subst lost.
    destruct (se_closed s); cbn; [lia|done].
  - destruct (se_outbound s) as [|f rest] eqn:Eo; injection H as <-; (apply Hto; [by repeat split|done|done|done|done|]); cbn.
    + exists lost. by rewrite Eo.
    + exists [f]. subst lost. done.
  - destruct (write_all io) as [[]|e]; injection H as <-; (apply Hto; [by repeat split|done|done|done|done|]); cbn; subst lost.
    + exists []. split; [|done]. by rewrite Hq, <-!app_assoc.
    + exists [f]. split; [done|]. cbn. lia.
  - destruct (Activity.heartbeat_action _ _ _ _ _) as [act a]. injection H as <-.
    apply Hto; [by repeat split|done|done|done|done|]. exists lost. split; [done|]. subst lost. destruct act; cbn; [done| |lia].
    destruct (encoded _ _); cbn; [done|lia].
  - injection H as <-. apply Hto; [by repeat split|done|done|done|done|]. exists lost. split; [done|]. subst lost.
    destruct (write_all io); cbn; [done|lia].
  - injection H as <-. apply Hto; [by repeat split|done|done|done|done|]. exists lost. by split.
Qed.

Lemma closer_subs t st st' : subs_inv st → closer_step t st = Some st' → subs_inv st'.
Proof.
  intros Hinv H. unfold closer_step in H. destruct (px_closers st !! t) as [[|i rest]|]; [done| |].
  - apply bind_Some in H as (s & Hi & H). injection H as <-.
    assert (subs_inv (set_session i (close s) st)) as Hc; [|exact Hc].
    eapply quiet_both; [done|done|by repeat split|]. destruct Hinv as [_ Hl]. exact (Hl _ _ Hi).
  - destruct (fl_subscriber_stop _); [|done]. by injection H as <-.
Qed.

Lemma new_session_ok reg pc pub i :
  i ∉ todo_of pc ++ found_of pc ++ send_of pc → session_ok reg pc pub i new_session.
Proof.
  intros Hout. split; cbn; try done; try constructor.
  - intros _. unfold pend. destruct pc; try done; rewrite bool_decide_false by set_solver; done.
  - intros Hin. set_solver.
  - by intros (sub & [=] & _).
  - intros _. set_solver.
Qed.
Lemma accept_subs x y z st st' : subs_inv st → accept_step subscriber x y z st = Some st' → subs_inv st'.
Proof.
  intros Hinv H. unfold accept_step in H. destruct (ao_pc (px_accept st)); cbv zeta in H; try done.
  - by injection H as <-.
  - destruct (forallb _ _); [|done]. destruct (_ || _); injection H as <-; [done|].
    set (i := fresh (dom (px_sessions st))). assert (px_sessions st !! i = None) as Hi by (apply not_elem_of_dom, is_fresh).
    destruct Hinv as [[H1 H2 H3 H4] Hl]. split.
    + split; cbn; [| |done|].
      * intros j s [[-> ->]|[_ Hj]]%IngressFacts.insert_cases; [|by apply H1].
        apply new_session_ok. intros (s & Hs & _)%H4. congruence.
      * intros id j (s & Hs & E)%H2. exists s. rewrite lookup_insert_ne; [done|congruence].
      * intros j (s & Hs & E)%H4. exists s. rewrite lookup_insert_ne; [done|congruence].
    + intros j s [[-> ->]|[_ Hj]]%IngressFacts.insert_cases; [|by eapply Hl].
      split; [by exists []|]. split; [constructor|]. split; [by intros []|]. done.
  - destruct (forallb _ _); [|done]. by injection H as <-.
Qed.
(** The producers' side leaves sessions, registry and broadcaster alone. *)
Definition subs_view st := (px_registry st, px_sessions st, px_caster st, px_published st).
Lemma subs_view_inv st st' : subs_view st' = subs_view st → subs_inv st → subs_inv st'.
Proof. unfold subs_view, subs_inv, core_inv. by intros [= -> -> -> ->]. Qed.
Lemma producer_view i io st st' : producer_step ingress subscriber i io st = Some st' → subs_view st' = subs_view st.
Proof.
  unfold producer_step, try_publish. intros (p & Hi & H)%bind_Some. proxy_cases H; try done; by destruct (pr_claimed p).
Qed.
Lemma ingress_view_subs x y z st st' : ingress_step ingress x y z st = Some st' → subs_view st' = subs_view st.
Proof. unfold ingress_step. intros H. by proxy_cases H. Qed.
Lemma main_view c st st' : main_step c st = Some st' → subs_view st' = subs_view st.
Proof. destruct c; cbn; try (by intros [= <-]). by destruct (ao_pc _); intros [= <-]. Qed.

Lemma broadcast_subs io st st' : subs_inv st → broadcast_step subscriber io st = Some st' → subs_inv st'.
Proof.
  intros [Hc Hl] H. split; [by eapply broadcast_core|]. unfold broadcast_step in H. intros j x Hj.
  destruct (px_caster st) as [| |a|a [|i todo] [|f found]|a i todo found|a found|fr [|i todo]|fr i todo|] eqn:Ec;
    try (apply bind_Some in H as (s & Hi & H)); proxy_cases H; try (by eapply Hl);
    apply IngressFacts.insert_cases in Hj as [[-> ->]|[_ Hj]]; try (by eapply Hl); pose proof (Hl _ _ Hi) as (Hf & Hsub & Hh & Hn & Hp).
  all: try (split; [exact Hf|]; by split).
  split; [|split; [by apply sublist_app|by split]].
  destruct Hf as (lost & Hq & Hw). exists lost. split; [|done]. cbn. by rewrite Hq, <-!app_assoc.
Qed.

Lemma step_subs a st st' : subs_inv st → step ingress subscriber a st = Some st' → subs_inv st'.
Proof.
  intros Hinv. destruct a; cbn [step]; intros H.
  - by eapply subs_view_inv; [eapply producer_view|].
  - by eapply subs_view_inv; [eapply ingress_view_subs|].
  - by eapply broadcast_subs.
  - by eapply session_subs.
  - by eapply writer_subs.
  - by eapply accept_subs.
  - by eapply closer_subs.
  - by eapply subs_view_inv; [eapply main_view|].
Qed.
Lemma run_subs actions st st' : subs_inv st → run ingress subscriber actions st = Some st' → subs_inv st'.
Proof.
  revert st. induction actions as [|a actions IH]; intros st Hinv; cbn [run]; [by intros [= <-]|].
  intros (st1 & H1 & H2)%bind_Some. eapply IH; [|exact H2]. by eapply step_subs.
Qed.
Lemma start_subs : subs_inv start.
Proof. split; [|done]. split; try done; cbn; try (split; constructor). intros i Hi. set_solver. Qed.

(** What a subscription asks for. *)
Lemma severity_bits severities (v : DeliverySeverity) acc :
  Z.testbit (foldl (λ mask (x : DeliverySeverity), Z.lor mask (Subs.severity_bit x)) acc severities) (Severity.code v) = true ↔
  Z.testbit acc (Severity.code v) = true ∨ v ∈ severities.
Proof.
  revert acc. induction severities as [|x l IH]; intros acc; cbn; [set_solver|].
  rewrite IH, Z.lor_spec, orb_true_iff, elem_of_cons.
  assert (Z.testbit (Subs.severity_bit x) (Severity.code v) = true ↔ v = x) as ->; [|tauto].
  by destruct v, x.
Qed.
Lemma matches_new topics severities a :
  wants (J:=J) (Some (Subs.new topics severities)) a = true ↔
  fa_category a ∈ topics ∧ (severities = [] ∨ fa_severity a ∈ severities).
Proof.
  unfold wants, Subs.matches, Subs.accepts_severity, Subs.new. cbn [sb_topics sb_severity_mask].
  rewrite andb_true_iff, bool_decide_eq_true, elem_of_list_to_set, orb_true_iff.
  set (mask := foldl _ 0 severities).
  assert (negb (Z.land mask (Subs.severity_bit (fa_severity a)) =? 0) = true ↔ fa_severity a ∈ severities) as ->.
  { unfold Subs.severity_bit. rewrite land_bit by (by destruct (fa_severity a)). rewrite negb_involutive.
    unfold mask. rewrite severity_bits. rewrite Z.testbit_0_l. naive_solver. }
  assert ((mask =? 0) = true ↔ severities = []) as ->; [|done]. rewrite Z.eqb_eq. unfold mask. split; [|by intros ->].
  destruct severities as [|x l]; [done|]. intros E. exfalso.
  assert (Z.testbit 0 (Severity.code x) = true) as Hb; [|by rewrite Z.testbit_0_l in Hb].
  rewrite <-E at 1. apply severity_bits. right. apply list_elem_of_here.
Qed.

(** C12: Subscribers miss nothing they asked for, and get nothing else.  However the threads
    of the proxy interleave: the alert frames queued for a session are a prefix, in order, of
    the frames of those alerts that its subscription wanted when the broadcaster held them
    against it - a subscription wants an alert exactly when it names the category and either
    no severities or this one.  While the session is registered and not closed, and whenever
    the broadcaster is between two alerts, every alert since it registered was held against
    it, and all the frames it wanted are queued: a frame that cannot be queued closes the
    session instead.  Only sessions that showed an allowed token are registered, and what is
    queued is written in that order, at most one frame being lost when a write fails. *)
Theorem subscribers_miss_nothing actions st i s :
  run ingress subscriber actions start = Some st → px_sessions st !! i = Some s →
  se_alerts s `prefix_of` expected (px_published st) None (se_events s) ∧
  (∀ topics severities a, wants (J:=J) (Some (Subs.new topics severities)) a = true ↔
     fa_category a ∈ topics ∧ (severities = [] ∨ fa_severity a ∈ severities)) ∧
  (∀ id, se_id s = Some id → px_registry st !! id = Some i →
     (∃ h, se_hello s = Some h ∧ accepted h) ∧
     (se_closed s = false → idle (px_caster st) →
        offers (se_events s) = seq (se_since s) (length (px_published st) - se_since s) ∧
        se_alerts s = expected (px_published st) None (se_events s))) ∧
  se_alerts s `sublist_of` se_queued s ∧
  ∃ lost, se_queued s = se_sent s ++ lost ++ se_outbound s ∧
    match se_writer s with
    | WrWrite f => lost = [f]
    | WrClose _ | WrDone _ => (length lost ≤ 1)%nat
    | _ => lost = []
    end.
Proof.
  intros Hrun Hi. destruct (run_subs _ _ _ start_subs Hrun) as [[H1 _ _ _] Hl].
  destruct (H1 _ _ Hi) as [B1 B2 B3 B4 B5 B6 B7 B8 B9]. destruct (Hl _ _ Hi) as (Hf & Hsub & Hh & _).
  splits; [done|apply matches_new| |done|done]. intros id Hid Hreg. split; [apply Hh; by rewrite Hid|].
  intros Hc (A1 & A2 & A3 & A4 & A5 & A6). destruct (B8 id Hid Hreg Hc) as [_ E].
  unfold count_of, taken_of in E. rewrite A1, A5 in E. rewrite bool_decide_false in E by apply not_elem_of_nil.
  rewrite Nat.add_0_r in E. split; [done|]. rewrite <-B5 by auto. by rewrite A6, app_nil_r.
Qed.
End subscriber_facts.

#[local] Existing Instances IngressFacts.w_proxy_json IngressFacts.w_ct_eq.
(** A viewer connects and subscribes, then the daemon sends a matching alert. *)
Definition w_request (letter : string) : SocketRead := SockData 64 (u32_be 1 ++ string_bytes letter).
Definition w_views : list ProxyAction :=
  [ActAccept false ∅ true; ActAccept true ∅ true; ActSession 0 (IngressFacts.w_io (w_request "h"))]
  ++ replicate 5 (ActSession 0 (IngressFacts.w_io SockRetry))
  ++ [ActSession 0 (IngressFacts.w_io (w_request "s"))] ++ replicate 2 (ActSession 0 (IngressFacts.w_io SockRetry)).
Definition w_broadcasts : list ProxyAction := replicate 10 (ActBroadcast (IngressFacts.w_io SockRetry)).
Definition w_run : list ProxyAction := w_views ++ IngressFacts.w_sends ++ w_broadcasts.
Definition w_after : ProxyState (list byte) :=
  default start (run IngressFacts.w_ingress IngressFacts.w_subscriber w_run start).
Definition w_viewer : Session (list byte) := default new_session (px_sessions w_after !! 0%nat).

Lemma subscribers_miss_nothing_witness :
  se_alerts w_viewer = [u32_be 11 ++ string_bytes "policy.deny"] ∧
  offers (se_events w_viewer) = seq (se_since w_viewer) (length (px_published w_after) - se_since w_viewer) ∧
  se_alerts w_viewer = expected (px_published w_after) None (se_events w_viewer).
Proof.
  destruct (subscribers_miss_nothing IngressFacts.w_ingress IngressFacts.w_subscriber w_run w_after 0 w_viewer)
    as (_ & _ & H & _ & _).
  - vm_compute. reflexivity.
  - vm_compute. reflexivity.
  - split; [vm_compute; reflexivity|]. apply (H "sess_u1").
    + vm_compute. reflexivity.
    + vm_compute. reflexivity.
    + vm_compute. reflexivity.
    + assert (px_caster w_after = BcLoop ∨ px_caster w_after = BcRecv) as Hc by (vm_compute; auto).
      destruct Hc as [-> | ->]; repeat split.
Defined.

(** [register] replaces the handle of an earlier session before it reports that the id is
    taken: that session goes on, open, but is no longer offered any alert. *)
Example collision_unregisters :
  let st := default start (run IngressFacts.w_ingress IngressFacts.w_subscriber
    (w_views ++ [ActAccept false ∅ true; ActAccept true ∅ true; ActSession 1 (IngressFacts.w_io (w_request "h"))]
     ++ replicate 2 (ActSession 1 (IngressFacts.w_io SockRetry))) start) in
  px_registry st = {["sess_u1" := 1%nat]} ∧
  (∃ s, px_sessions st !! 0%nat = Some s ∧ se_pc s = SsLoop ∧ se_closed s = false ∧ se_id s = Some "sess_u1") ∧
  ∃ s, px_sessions st !! 1%nat = Some s ∧ se_pc s = SsDone (Err (Failed "subscriber session id collision")).
Proof.
  cbv zeta. splits; [vm_compute; reflexivity| |].
  - eexists. split; [vm_compute; reflexivity|]. by splits.
  - eexists. split; [vm_compute; reflexivity|]. done.
Qed.
End SubscriberFacts.
