(* ===== verification/AlertForwarding.v ===== *)
(** How the daemon hands alerts to the alert proxy: crates/plugins/alert_forwarding (the
    routing plugin: configuration, category filter, connection generations) and
    crates/apps/daemon/src/services/alert_forwarding (the service that connects to the proxy,
    and the link's reader and writer).

    The threads are those of the code: publishers in [try_publish], control threads that
    change the configuration, connect or shut down, and for every connection a reader and a
    writer.  One step is one access to something shared: an atomic, a swapped pointer, a
    channel, the socket, one store under the connection lock.  They interleave arbitrarily,
    memory is sequentially consistent.  Starting the proxy process is an outcome of the
    connection attempt. *)
From stdpp Require Import prelude gmap strings.
From Stdlib Require Import ZArith Lia.
From coqutil Require Import Byte.
From S2P Require Import Prelude Bytes Wire BatchCodec AlertCodec AlertProxy.

Open Scope Z_scope.

(** * config.rs, filter.rs *)

Record AlertForwardingConfig := mkForwardingConfig {
  afc_enabled : bool;
  afc_all_categories : bool;
  afc_categories : list string;
}.
Inductive AlertForwardingConfigError :=
| InvalidJson (message : string)
| CategoriesWithAllCategories
| TooManyCategories (count : Z)
| InvalidCategory (category : string)
| DuplicateCategory (category : string).

(** [serde_json] on the configuration. *)
Class ConfigJson := {
  config_from_str : string → result string AlertForwardingConfig;
  config_to_string : AlertForwardingConfig → result string string;
}.

Module ForwardingConfig.
Definition disabled : AlertForwardingConfig := mkForwardingConfig false false [].
Definition alphanumeric (c : Ascii.ascii) : bool :=
  let n := Z.of_N (Ascii.N_of_ascii c) in
  ((48 <=? n) && (n <=? 57)) || ((65 <=? n) && (n <=? 90)) || ((97 <=? n) && (n <=? 122)).
Definition valid_category (category : string) : bool :=
  match String.list_ascii_of_string category with
  | [] => false
  | first :: rest =>
      alphanumeric first &&
      forallb (λ c, let n := Z.of_N (Ascii.N_of_ascii c) in
                    alphanumeric c || (n =? 46) || (n =? 95) || (n =? 47) || (n =? 45)) rest
  end.
Fixpoint check_categories (unique : gset string) (categories : list string)
    : result AlertForwardingConfigError () :=
  match categories with
  | [] => Ok ()
  | category :: rest =>
      if (128 <? Z.of_nat (String.length category)) || negb (valid_category category)
      then Err (InvalidCategory category)
      else if bool_decide (category ∈ unique) then Err (DuplicateCategory category)
      else check_categories (unique ∪ {[category]}) rest
  end.
Definition validate (c : AlertForwardingConfig) : result AlertForwardingConfigError () :=
  if afc_all_categories c && negb (bool_decide (afc_categories c = [])) then Err CategoriesWithAllCategories
  else if 256 <? Z.of_nat (length (afc_categories c)) then Err (TooManyCategories (Z.of_nat (length (afc_categories c))))
  else check_categories ∅ (afc_categories c).
Definition with_enabled (enabled : bool) (c : AlertForwardingConfig) : AlertForwardingConfig :=
  mkForwardingConfig enabled (afc_all_categories c) (afc_categories c).
Section json.
Context `{!ConfigJson}.
Definition from_json (raw : string) : result AlertForwardingConfigError AlertForwardingConfig :=
  c ← map_err InvalidJson (config_from_str raw);
  _ ← validate c;
  mret c.
Definition to_json (c : AlertForwardingConfig) : result AlertForwardingConfigError string :=
  map_err InvalidJson (config_to_string c).
End json.
End ForwardingConfig.

Record CategoryFilter := mkFilter { cf_all_categories : bool; cf_categories : gset string }.
Module Filter.
Definition from_config (c : AlertForwardingConfig) : CategoryFilter :=
  mkFilter (afc_all_categories c) (list_to_set (afc_categories c)).
Definition accepts (f : CategoryFilter) (category : string) : bool :=
  cf_all_categories f || bool_decide (category ∈ cf_categories f).
End Filter.

(** * config_owner.rs *)

Inductive ConfigOwnerError :=
| OwnerConfig (e : AlertForwardingConfigError)
| OwnerIo (operation : string) (not_found : bool) (text : string).
(** What the file system does while a configuration is replaced: everything works, a step up
    to the rename fails, or the directory cannot be synced after it. *)
Inductive PersistIo := PersistDone | PersistFailed (operation text : string) | PersistUnsynced (text : string).

Module Owner.
Section owner.
Context `{!ConfigJson}.
Definition is_not_found (e : ConfigOwnerError) : bool :=
  match e with OwnerIo _ b _ => b | _ => false end.
(** [load]: [read] is what reading the file gives when there is one. *)
Definition load (read : result string ()) (file : option string) : result ConfigOwnerError AlertForwardingConfig :=
  match file, read with
  | None, _ => Err (OwnerIo "read" true "not found")
  | Some _, Err text => Err (OwnerIo "read" false text)
  | Some raw, Ok _ => map_err OwnerConfig (ForwardingConfig.from_json raw)
  end.
Definition persist (c : AlertForwardingConfig) (io : PersistIo) (file : option string)
    : result ConfigOwnerError () * option string :=
  match ForwardingConfig.validate c with
  | Err e => (Err (OwnerConfig e), file)
  | Ok _ =>
      match ForwardingConfig.to_json c with
      | Err e => (Err (OwnerConfig e), file)
      | Ok raw =>
          match io with
          | PersistDone => (Ok (), Some raw)
          | PersistFailed operation text => (Err (OwnerIo operation false text), file)
          | PersistUnsynced text => (Err (OwnerIo "sync parent" false text), Some raw)
          end
      end
  end.
End owner.
End Owner.

(** * runtime.rs *)

Definition NO_CONNECTION_GENERATION : Z := 0.

Inductive AlertForwardingPluginError :=
| PluginConfig (e : AlertForwardingConfigError)
| PluginConfigOwner (e : ConfigOwnerError)
| ProxyDisconnected
| GenerationExhausted.
Inductive AlertForwardingSubmitOutcome := SubmitAccepted | SubmitDisabled | SubmitFiltered | SubmitQueueFull | SubmitDisconnected.

Record PluginCounters := mkCounters { ct_accepted : Z; ct_filtered : Z; ct_dropped : Z; ct_persistence_failures : Z }.
(** [AlertForwardingPluginInner], with the file of its owner; the active connection is named
    by its generation.  [pg_filters] is the history of the filter, oldest first. *)
Record Plugin := mkPlugin {
  pg_file : option string;
  pg_config : AlertForwardingConfig;
  pg_filter : CategoryFilter;
  pg_active : option Z;
  pg_update : bool;                                        (* [connection_update] is held *)
  pg_requested_enabled : bool;
  pg_effective_enabled : bool;
  pg_latest_generation : Z;
  pg_active_generation : Z;
  pg_counters : PluginCounters;
  pg_filters : list CategoryFilter;
}.

(** What is called with [connection_update] held, and its accesses in order. *)
Inductive UpdateCall :=
| CallActivate (generation : Z)
| CallDisableIf (generation : Z)
| CallDisable
| CallDeactivate
| CallUpdateConfig (raw : string).
Inductive UpdateOp :=
| OpIfLatest (generation : Z)                              (* or return false *)
| OpIfActive (generation : Z)                              (* or return false *)
| OpIfConnected                                            (* or return [ProxyDisconnected] *)
| OpPersist (c : AlertForwardingConfig)                    (* or return the error *)
| OpStoreActive (o : option Z)
| OpStoreGeneration (generation : Z)
| OpStoreEffective (b : bool)
| OpEffectiveRequested                                     (* what was requested *)
| OpEffectiveConnected                                     (* what was requested, if connected *)
| OpStoreFilter (f : CategoryFilter)
| OpStoreRequested (b : bool)
| OpStoreConfig (c : AlertForwardingConfig)
| OpConfigDisabled                                         (* [with_enabled(false)] of itself *)
| OpPersistRequested.                                      (* a failure is counted *)
Inductive UpdateResult := UpdateOk | UpdateRefused | UpdateErr (e : AlertForwardingPluginError).
Inductive UpdatePc :=
| UpWait (call : UpdateCall)                               (* for the lock *)
| UpRun (r : UpdateResult) (ops : list UpdateOp)
| UpDone (r : UpdateResult).

Module PluginOps.
Section plugin.
Context `{!ConfigJson}.
Implicit Types p : Plugin.

Definition new (c : AlertForwardingConfig) (file : option string) : result AlertForwardingPluginError Plugin :=
  _ ← map_err PluginConfig (ForwardingConfig.validate c);
  mret (mkPlugin file c (Filter.from_config c) None false (afc_enabled c) false NO_CONNECTION_GENERATION
          NO_CONNECTION_GENERATION (mkCounters 0 0 0 0) [Filter.from_config c]).
Definition load (read : result string ()) (io : PersistIo) (file : option string)
    : result AlertForwardingPluginError Plugin * option string :=
  match Owner.load read file with
  | Ok c => (new c file, file)
  | Err e =>
      if Owner.is_not_found e then
        let c := ForwardingConfig.disabled in
        let '(r, file) := Owner.persist c io file in
        (_ ← map_err PluginConfigOwner r; new c file, file)
      else (Err (PluginConfigOwner e), file)
  end.

Definition set_file f p := mkPlugin f (pg_config p) (pg_filter p) (pg_active p) (pg_update p) (pg_requested_enabled p)
  (pg_effective_enabled p) (pg_latest_generation p) (pg_active_generation p) (pg_counters p) (pg_filters p).
Definition set_config c p := mkPlugin (pg_file p) c (pg_filter p) (pg_active p) (pg_update p) (pg_requested_enabled p)
  (pg_effective_enabled p) (pg_latest_generation p) (pg_active_generation p) (pg_counters p) (pg_filters p).
Definition set_filter f p := mkPlugin (pg_file p) (pg_config p) f (pg_active p) (pg_update p) (pg_requested_enabled p)
  (pg_effective_enabled p) (pg_latest_generation p) (pg_active_generation p) (pg_counters p) (pg_filters p ++ [f]).
Definition set_active a p := mkPlugin (pg_file p) (pg_config p) (pg_filter p) a (pg_update p) (pg_requested_enabled p)
  (pg_effective_enabled p) (pg_latest_generation p) (pg_active_generation p) (pg_counters p) (pg_filters p).
Definition set_update b p := mkPlugin (pg_file p) (pg_config p) (pg_filter p) (pg_active p) b (pg_requested_enabled p)
  (pg_effective_enabled p) (pg_latest_generation p) (pg_active_generation p) (pg_counters p) (pg_filters p).
Definition set_requested b p := mkPlugin (pg_file p) (pg_config p) (pg_filter p) (pg_active p) (pg_update p) b
  (pg_effective_enabled p) (pg_latest_generation p) (pg_active_generation p) (pg_counters p) (pg_filters p).
Definition set_effective b p := mkPlugin (pg_file p) (pg_config p) (pg_filter p) (pg_active p) (pg_update p)
  (pg_requested_enabled p) b (pg_latest_generation p) (pg_active_generation p) (pg_counters p) (pg_filters p).
Definition set_latest g p := mkPlugin (pg_file p) (pg_config p) (pg_filter p) (pg_active p) (pg_update p)
  (pg_requested_enabled p) (pg_effective_enabled p) g (pg_active_generation p) (pg_counters p) (pg_filters p).
Definition set_generation g p := mkPlugin (pg_file p) (pg_config p) (pg_filter p) (pg_active p) (pg_update p)
  (pg_requested_enabled p) (pg_effective_enabled p) (pg_latest_generation p) g (pg_counters p) (pg_filters p).
Definition set_counters c p := mkPlugin (pg_file p) (pg_config p) (pg_filter p) (pg_active p) (pg_update p)
  (pg_requested_enabled p) (pg_effective_enabled p) (pg_latest_generation p) (pg_active_generation p) c (pg_filters p).

(** The relaxed [fetch_add]s. *)
Definition count_accepted p : Plugin :=
  let c := pg_counters p in
  set_counters (mkCounters (wrapping_add_u64 (ct_accepted c) 1) (ct_filtered c) (ct_dropped c) (ct_persistence_failures c)) p.
Definition count_filtered p : Plugin :=
  let c := pg_counters p in
  set_counters (mkCounters (ct_accepted c) (wrapping_add_u64 (ct_filtered c) 1) (ct_dropped c) (ct_persistence_failures c)) p.
Definition count_dropped p : Plugin :=
  let c := pg_counters p in
  set_counters (mkCounters (ct_accepted c) (ct_filtered c) (wrapping_add_u64 (ct_dropped c) 1) (ct_persistence_failures c)) p.
Definition count_failure p : Plugin :=
  let c := pg_counters p in
  set_counters (mkCounters (ct_accepted c) (ct_filtered c) (ct_dropped c) (wrapping_add_u64 (ct_persistence_failures c) 1)) p.

(** [next_generation]: the [fetch_update] and what is made of its result. *)
Definition next_generation p : result AlertForwardingPluginError Z * Plugin :=
  match checked_add_u64 (pg_latest_generation p) 1 with
  | Some g => (Ok g, set_latest g p)
  | None => (Err GenerationExhausted, p)
  end.
Definition is_active_generation (generation : Z) p : bool := pg_active_generation p =? generation.

(** The bodies of [deactivate], [disable], [disable_if_generation], [activate] and
    [update_config]; the configuration is validated first. *)
Definition deactivate_ops : list UpdateOp :=
  [OpStoreEffective false; OpStoreGeneration NO_CONNECTION_GENERATION; OpStoreActive None].
Definition disable_requested_config : list UpdateOp := [OpStoreRequested false; OpConfigDisabled; OpPersistRequested].
Definition update_ops (c : AlertForwardingConfig) : list UpdateOp :=
  (if afc_enabled c then [OpIfConnected] else []) ++ [OpPersist c] ++
  (if afc_enabled c then [] else [OpStoreEffective false]) ++
  [OpStoreFilter (Filter.from_config c); OpStoreRequested (afc_enabled c); OpStoreConfig c; OpEffectiveConnected].
Definition body (call : UpdateCall) : UpdateResult * list UpdateOp :=
  match call with
  | CallActivate g =>
      (UpdateOk, [OpIfLatest g; OpStoreActive (Some g); OpStoreGeneration g; OpEffectiveRequested])
  | CallDisableIf g => (UpdateOk, OpIfActive g :: deactivate_ops ++ disable_requested_config)
  | CallDisable => (UpdateOk, deactivate_ops ++ disable_requested_config)
  | CallDeactivate => (UpdateOk, deactivate_ops)
  | CallUpdateConfig raw =>
      match ForwardingConfig.from_json raw with
      | Err e => (UpdateErr (PluginConfig e), [])
      | Ok c => (UpdateOk, update_ops c)
      end
  end.
(** One access; [Some r] is an early return. *)
Definition exec (op : UpdateOp) (io : PersistIo) p : option UpdateResult * Plugin :=
  match op with
  | OpIfLatest g => (if pg_latest_generation p =? g then None else Some UpdateRefused, p)
  | OpIfActive g => (if bool_decide (pg_active p = Some g) then None else Some UpdateRefused, p)
  | OpIfConnected => (match pg_active p with Some _ => None | None => Some (UpdateErr ProxyDisconnected) end, p)
  | OpPersist c =>
      let '(r, file) := Owner.persist c io (pg_file p) in
      (match r with Ok _ => None | Err e => Some (UpdateErr (PluginConfigOwner e)) end, set_file file p)
  | OpStoreActive o => (None, set_active o p)
  | OpStoreGeneration g => (None, set_generation g p)
  | OpStoreEffective b => (None, set_effective b p)
  | OpEffectiveRequested => (None, set_effective (pg_requested_enabled p) p)
  | OpEffectiveConnected => (None, set_effective (bool_decide (is_Some (pg_active p)) && pg_requested_enabled p) p)
  | OpStoreFilter f => (None, set_filter f p)
  | OpStoreRequested b => (None, set_requested b p)
  | OpStoreConfig c => (None, set_config c p)
  | OpConfigDisabled => (None, set_config (ForwardingConfig.with_enabled false (pg_config p)) p)
  | OpPersistRequested =>
      let '(r, file) := Owner.persist (pg_config p) io (pg_file p) in
      (None, match r with Ok _ => set_file file p | Err _ => count_failure (set_file file p) end)
  end.
(** Take the lock, run the body, give the lock back. *)
Definition update_step (u : UpdatePc) (io : PersistIo) p : option (UpdatePc * Plugin) :=
  match u with
  | UpWait call =>
      if pg_update p then None else let '(r, ops) := body call in Some (UpRun r ops, set_update true p)
  | UpRun r [] => Some (UpDone r, set_update false p)
  | UpRun r (op :: ops) =>
      match exec op io p with
      | (None, p) => Some (UpRun r ops, p)
      | (Some r', p) => Some (UpRun r' [], p)
      end
  | UpDone _ => None
  end.
End plugin.
End PluginOps.

(** * The threads *)

Record ForwardingItem (J : Type) := mkItem { fi_generation : Z; fi_alert : ForwardAlert J }.
Arguments mkItem {J}.
Arguments fi_generation {J}.
Arguments fi_alert {J}.

(** A caller of [accepts_category] and then [try_publish].  [since] is the place in the
    filter's history when it began, [n] the filter that accepted the category. *)
Inductive PublisherPc (J : Type) :=
| PbAsk (since : nat) (a : ForwardAlert J)                 (* [accepts_category]: the flag *)
| PbAskFilter (since : nat) (a : ForwardAlert J)           (* and the filter *)
| PbEnabled (since : nat) (a : ForwardAlert J)             (* [try_publish]: the flag *)
| PbFilter (since : nat) (a : ForwardAlert J)
| PbFiltered                                               (* count it *)
| PbActive (since n : nat) (a : ForwardAlert J)            (* [active.load_full] *)
| PbLost                                                   (* no connection: clear the flag *)
| PbDrop (o : AlertForwardingSubmitOutcome)                (* count it *)
| PbSend (since n : nat) (generation : Z) (a : ForwardAlert J) (* [sender.try_send] *)
| PbAccepted                                               (* count it *)
| PbGone (generation : Z)                                  (* the receiver is gone: count it *)
| PbStale (generation : Z)                                 (* [is_active_generation] *)
| PbOff                                                    (* clear the flag *)
| PbDone (o : AlertForwardingSubmitOutcome).
Arguments PbAsk {J}.
Arguments PbAskFilter {J}.
Arguments PbEnabled {J}.
Arguments PbFilter {J}.
Arguments PbFiltered {J}.
Arguments PbActive {J}.
Arguments PbLost {J}.
Arguments PbDrop {J}.
Arguments PbSend {J}.
Arguments PbAccepted {J}.
Arguments PbGone {J}.
Arguments PbStale {J}.
Arguments PbOff {J}.
Arguments PbDone {J}.

(** [AlertProxyReader::run]; why it stopped. *)
Inductive ReaderEnd := EndInactive | EndClosed | EndIo | EndProtocol.
Inductive ReaderPc :=
| RdNone                                                   (* not spawned *)
| RdActive                                                 (* [is_active_generation] *)
| RdRead
| RdConsume                                                (* [next_message] *)
| RdAck (nonce : Z)                                        (* the exchange on [outstanding_nonce] *)
| RdUpdate (why : ReaderEnd) (u : UpdatePc)                (* [disable_if_generation] *)
| RdDone (why : ReaderEnd).
(** [AlertProxyWriter::run] and its local variables. *)
Inductive LinkWriterPc (J : Type) :=
| WtNone
| WtStart
| WtActive                                                 (* [is_active_generation] *)
| WtClock                                                  (* [Instant::now], and the cases on it *)
| WtOutstanding (now deadline : Z)                         (* [outstanding_nonce.load] *)
| WtStore                                                  (* [outstanding_nonce.store] *)
| WtBeat (nonce : Z)                                       (* the heartbeat is written *)
| WtDeadline                                               (* the deadline of its answer *)
| WtRecv                                                   (* [receiver.recv_timeout] *)
| WtSend (item : ForwardingItem J)
| WtDrop                                                   (* [record_delivery_drop] *)
| WtUpdate (u : UpdatePc)
| WtDone.
Arguments WtNone {J}.
Arguments WtStart {J}.
Arguments WtActive {J}.
Arguments WtClock {J}.
Arguments WtOutstanding {J}.
Arguments WtStore {J}.
Arguments WtBeat {J}.
Arguments WtDeadline {J}.
Arguments WtRecv {J}.
Arguments WtSend {J}.
Arguments WtDrop {J}.
Arguments WtUpdate {J}.
Arguments WtDone {J}.
Record WriterLocals := mkLocals { wl_next_heartbeat : Z; wl_deadline : option Z; wl_next_nonce : Z }.

(** A connection to the proxy: its queue, its socket, its threads.  [lk_output] are the
    messages written in full, [lk_wire] the bytes that left, [lk_accepted] the alerts that
    were ever queued with the place of the filter that let them through. *)
Record Link (J : Type) := mkLink {
  lk_queue : list (ForwardingItem J);
  lk_receiver : bool;
  lk_outstanding : Z;
  lk_reader : ReaderPc;
  lk_decoder : FrameDecoder;
  lk_writer : LinkWriterPc J;
  lk_locals : WriterLocals;
  lk_input : list byte;                                    (* the bytes read *)
  lk_messages : list (AtapMessage J);                      (* the messages in them *)
  lk_output : list (AtapMessage J);
  lk_wire : list byte;
  lk_accepted : list (ForwardAlert J * nat * nat);
}.
Arguments mkLink {J}.
Arguments lk_queue {J}.
Arguments lk_receiver {J}.
Arguments lk_outstanding {J}.
Arguments lk_reader {J}.
Arguments lk_decoder {J}.
Arguments lk_writer {J}.
Arguments lk_locals {J}.
Arguments lk_input {J}.
Arguments lk_messages {J}.
Arguments lk_output {J}.
Arguments lk_wire {J}.
Arguments lk_accepted {J}.

(** A control thread: [raw] is the configuration it will apply once connected; without one
    it is the start of the service. *)
Inductive ControlCall := CtlStart | CtlUpdate (raw : string) | CtlShutdown | CtlDisable.
Inductive ControlPc :=
| CtStatus (raw : string)                                  (* [status().active_generation] *)
| CtRequested                                              (* [status().requested_enabled] *)
| CtLifecycle (raw : option string)                        (* the lock on [lifecycle] *)
| CtEnsure (raw : option string)                           (* [status] again, with the lock *)
| CtConnect (raw : option string)
| CtGeneration (raw : option string)
| CtHello (raw : option string) (g : Z)
| CtWelcome (raw : option string) (g : Z) (d : FrameDecoder)
| CtTimeout (raw : option string) (g : Z)                  (* [set_read_timeout] *)
| CtActivate (raw : option string) (g : Z) (u : UpdatePc)
| CtReader (raw : option string) (g : Z)
| CtWriter (raw : option string) (g : Z)
| CtAbandon (g : Z) (e : string) (u : UpdatePc)            (* [disable_if_generation] *)
| CtUpdate (u : UpdatePc)
| CtDone (r : result string ()).

Record ForwarderState (J : Type) := mkForwarder {
  fs_plugin : Plugin;
  fs_publishers : gmap nat (PublisherPc J);
  fs_links : gmap Z (Link J);
  fs_lifecycle : bool;
  fs_controls : gmap nat ControlPc;
}.
Arguments mkForwarder {J}.
Arguments fs_plugin {J}.
Arguments fs_publishers {J}.
Arguments fs_links {J}.
Arguments fs_lifecycle {J}.
Arguments fs_controls {J}.

Record ForwardingConfigLimits := mkForwardingLimits {
  fc_queue_capacity : Z;
  fc_heartbeat_interval_ms : Z;
  fc_heartbeat_ack_timeout_ms : Z;
  fc_process_id : Z;
}.
(** What a step meets outside: a read, a system call that fails, how much of a frame a
    failed write put on the wire, the clock, the file system. *)
Record LinkIo := mkLinkIo {
  li_read : SocketRead;
  li_fail : option string;
  li_torn : nat;
  li_now : Z;
  li_persist : PersistIo;
}.
Inductive ForwarderAction (J : Type) :=
| FwPublish (i : nat) (a : ForwardAlert J)                 (* a call begins *)
| FwPublisher (i : nat)
| FwReader (g : Z) (io : LinkIo)
| FwWriter (g : Z) (io : LinkIo)
| FwControl (t : nat) (call : ControlCall)                 (* a call begins *)
| FwController (t : nat) (io : LinkIo).
Arguments FwPublish {J}.
Arguments FwPublisher {J}.
Arguments FwReader {J}.
Arguments FwWriter {J}.
Arguments FwControl {J}.
Arguments FwController {J}.

(** * Steps *)

Module Forwarder.
Section forwarder.
Context {J : Type} {json : ExtrasJson J} {cj : ConfigJson} (config : ForwardingConfigLimits) (limits : AtapLimits).
Implicit Types (st : ForwarderState J) (l : Link J) (p : Plugin).

(** ** Parts of the state *)

Definition set_plugin p st : ForwarderState J :=
  mkForwarder p (fs_publishers st) (fs_links st) (fs_lifecycle st) (fs_controls st).
Definition set_publisher i pc st : ForwarderState J :=
  mkForwarder (fs_plugin st) (<[i := pc]> (fs_publishers st)) (fs_links st) (fs_lifecycle st) (fs_controls st).
Definition set_link g l st : ForwarderState J :=
  mkForwarder (fs_plugin st) (fs_publishers st) (<[g := l]> (fs_links st)) (fs_lifecycle st) (fs_controls st).
Definition set_lifecycle b st : ForwarderState J :=
  mkForwarder (fs_plugin st) (fs_publishers st) (fs_links st) b (fs_controls st).
Definition set_control t pc st : ForwarderState J :=
  mkForwarder (fs_plugin st) (fs_publishers st) (fs_links st) (fs_lifecycle st) (<[t := pc]> (fs_controls st)).

Definition set_queue q l : Link J := mkLink q (lk_receiver l) (lk_outstanding l) (lk_reader l) (lk_decoder l) (lk_writer l)
  (lk_locals l) (lk_input l) (lk_messages l) (lk_output l) (lk_wire l) (lk_accepted l).
Definition drop_receiver l : Link J := mkLink (lk_queue l) false (lk_outstanding l) (lk_reader l) (lk_decoder l) (lk_writer l)
  (lk_locals l) (lk_input l) (lk_messages l) (lk_output l) (lk_wire l) (lk_accepted l).
Definition set_outstanding z l : Link J := mkLink (lk_queue l) (lk_receiver l) z (lk_reader l) (lk_decoder l) (lk_writer l)
  (lk_locals l) (lk_input l) (lk_messages l) (lk_output l) (lk_wire l) (lk_accepted l).
Definition reader_at pc l : Link J := mkLink (lk_queue l) (lk_receiver l) (lk_outstanding l) pc (lk_decoder l) (lk_writer l)
  (lk_locals l) (lk_input l) (lk_messages l) (lk_output l) (lk_wire l) (lk_accepted l).
Definition set_decoder d l : Link J := mkLink (lk_queue l) (lk_receiver l) (lk_outstanding l) (lk_reader l) d (lk_writer l)
  (lk_locals l) (lk_input l) (lk_messages l) (lk_output l) (lk_wire l) (lk_accepted l).
Definition writer_at pc l : Link J := mkLink (lk_queue l) (lk_receiver l) (lk_outstanding l) (lk_reader l) (lk_decoder l) pc
  (lk_locals l) (lk_input l) (lk_messages l) (lk_output l) (lk_wire l) (lk_accepted l).
Definition set_locals w l : Link J := mkLink (lk_queue l) (lk_receiver l) (lk_outstanding l) (lk_reader l) (lk_decoder l)
  (lk_writer l) w (lk_input l) (lk_messages l) (lk_output l) (lk_wire l) (lk_accepted l).
Definition got bytes ms l : Link J := mkLink (lk_queue l) (lk_receiver l) (lk_outstanding l) (lk_reader l) (lk_decoder l)
  (lk_writer l) (lk_locals l) (lk_input l ++ bytes) (lk_messages l ++ ms) (lk_output l) (lk_wire l) (lk_accepted l).
Definition wrote ms bytes l : Link J := mkLink (lk_queue l) (lk_receiver l) (lk_outstanding l) (lk_reader l) (lk_decoder l)
  (lk_writer l) (lk_locals l) (lk_input l) (lk_messages l) (lk_output l ++ ms) (lk_wire l ++ bytes) (lk_accepted l).
Definition enqueue (item : ForwardingItem J) (since n : nat) l : Link J :=
  mkLink (lk_queue l ++ [item]) (lk_receiver l) (lk_outstanding l) (lk_reader l) (lk_decoder l) (lk_writer l) (lk_locals l)
    (lk_input l) (lk_messages l) (lk_output l) (lk_wire l) (lk_accepted l ++ [(fi_alert item, since, n)]).
Definition new_link : Link J :=
  mkLink [] true 0 RdNone Stream.with_capacity WtNone (mkLocals 0 None 1) [] [] [] [] [].

(** ** runtime.rs: [accepts_category] and [try_publish] *)

Definition publish_step (i : nat) (a : ForwardAlert J) st : option (ForwarderState J) :=
  match fs_publishers st !! i with
  | None | Some (PbDone _) => Some (set_publisher i (PbAsk (length (pg_filters (fs_plugin st)) - 1) a) st)
  | _ => None
  end.
Definition publisher_step (i : nat) st : option (ForwarderState J) :=
  pc ← fs_publishers st !! i;
  let p := fs_plugin st in
  let to pc := Some (set_publisher i pc st) in
  let and_to p pc := Some (set_publisher i pc (set_plugin p st)) in
  match pc with
  | PbAsk since a => to (if pg_effective_enabled p then PbAskFilter since a else PbDone SubmitDisabled)
  | PbAskFilter since a =>
      to (if Filter.accepts (pg_filter p) (fa_category a) then PbEnabled since a else PbDone SubmitFiltered)
  | PbEnabled since a => to (if pg_effective_enabled p then PbFilter since a else PbDone SubmitDisabled)
  | PbFilter since a =>
      to (if Filter.accepts (pg_filter p) (fa_category a) then PbActive since (length (pg_filters p) - 1) a else PbFiltered)
  | PbFiltered => and_to (PluginOps.count_filtered p) (PbDone SubmitFiltered)
  | PbActive since n a => to (match pg_active p with None => PbLost | Some g => PbSend since n g a end)
  | PbLost => and_to (PluginOps.set_effective false p) (PbDrop SubmitDisconnected)
  | PbDrop o => and_to (PluginOps.count_dropped p) (PbDone o)
  | PbSend since n g a =>
      l ← fs_links st !! g;
      if negb (lk_receiver l) then to (PbGone g)
      else if Z.of_nat (length (lk_queue l)) <? fc_queue_capacity config
      then Some (set_publisher i PbAccepted (set_link g (enqueue (mkItem g a) since n l) st))
      else to (PbDrop SubmitQueueFull)
  | PbAccepted => and_to (PluginOps.count_accepted p) (PbDone SubmitAccepted)
  | PbGone g => and_to (PluginOps.count_dropped p) (PbStale g)
  | PbStale g => to (if PluginOps.is_active_generation g p then PbOff else PbDone SubmitDisconnected)
  | PbOff => and_to (PluginOps.set_effective false p) (PbDone SubmitDisconnected)
  | PbDone _ => None
  end.

(** ** link.rs *)

(** [codec.encode] and [write_all]. *)
Definition write_message (m : AtapMessage J) (io : LinkIo) l : bool * Link J :=
  match Atap.encode limits m with
  | Err _ => (false, l)
  | Ok frame =>
      match li_fail io with
      | Some _ => (false, wrote [] (take (Nat.min (li_torn io) (length frame - 1)) frame) l)
      | None => (true, wrote [m] frame l)
      end
  end.
(** A call that ends the thread: [disable_if_generation]. *)
Definition disabling (g : Z) : UpdatePc := UpWait (CallDisableIf g).

Definition reader_step (g : Z) (io : LinkIo) st : option (ForwarderState J) :=
  l ← fs_links st !! g;
  let p := fs_plugin st in
  let to pc := Some (set_link g (reader_at pc l) st) in
  let stop why := RdUpdate why (disabling g) in
  match lk_reader l with
  | RdNone => None
  | RdActive => to (if PluginOps.is_active_generation g p then RdRead else stop EndInactive)
  | RdRead =>
      match li_read io with
      | SockData _ [] => to (stop EndClosed)
      | SockData capacity bytes =>
          Some (set_link g (reader_at RdConsume (got bytes [] (set_decoder (Stream.push capacity bytes (lk_decoder l)) l))) st)
      | SockRetry => to RdActive
      | SockError _ => to (stop EndIo)
      end
  | RdConsume =>
      let '(r, d) := FramedStream.next (atap_format limits) (lk_decoder l) in
      let l := set_decoder d l in
      match r with
      | Ok (Some m) =>
          let pc := match m with AHeartbeatAck nonce => RdAck nonce | _ => stop EndProtocol end in
          Some (set_link g (reader_at pc (got [] [m] l)) st)
      | Ok None => Some (set_link g (reader_at RdActive l) st)
      | Err _ => Some (set_link g (reader_at (stop EndProtocol) l) st)
      end
  | RdAck nonce =>
      if lk_outstanding l =? nonce then Some (set_link g (reader_at RdConsume (set_outstanding 0 l)) st)
      else to (stop EndProtocol)
  | RdUpdate why (UpDone _) => to (RdDone why)
  | RdUpdate why u =>
      '(u, p) ← PluginOps.update_step u (li_persist io) p;
      Some (set_link g (reader_at (RdUpdate why u) l) (set_plugin p st))
  | RdDone _ => None
  end.

(** Somebody still has the sending end: the plugin, or a publisher about to use it. *)
Definition sends_to (g : Z) (pc : PublisherPc J) : bool :=
  match pc with PbSend _ _ g' _ => g' =? g | _ => false end.
Definition has_sender (g : Z) st : bool :=
  bool_decide (pg_active (fs_plugin st) = Some g) || existsb (λ x, sends_to g x.2) (map_to_list (fs_publishers st)).

Definition writer_step (g : Z) (io : LinkIo) st : option (ForwarderState J) :=
  l ← fs_links st !! g;
  let p := fs_plugin st in
  let w := lk_locals l in
  let to pc := Some (set_link g (writer_at pc l) st) in
  let stop := WtUpdate (disabling g) in
  match lk_writer l with
  | WtNone => None
  | WtStart =>
      match instant_add (li_now io) (millis (fc_heartbeat_interval_ms config)) with
      | None => to stop
      | Some next => Some (set_link g (writer_at WtActive (set_locals (mkLocals next None 1) l)) st)
      end
  | WtActive => to (if PluginOps.is_active_generation g p then WtClock else stop)
  | WtClock =>
      to (match wl_deadline w with
          | Some deadline => WtOutstanding (li_now io) deadline
          | None => if wl_next_heartbeat w <=? li_now io then WtStore else WtRecv
          end)
  | WtOutstanding now deadline =>
      if lk_outstanding l =? 0 then
        match instant_add now (millis (fc_heartbeat_interval_ms config)) with
        | None => to stop
        | Some next => Some (set_link g (writer_at WtRecv (set_locals (mkLocals next None (wl_next_nonce w)) l)) st)
        end
      else to (if deadline <=? now then stop else WtRecv)
  | WtStore =>
      let nonce := wl_next_nonce w in
      let w := mkLocals (wl_next_heartbeat w) (wl_deadline w) (Z.max (wrapping_add_u64 nonce 1) 1) in
      Some (set_link g (writer_at (WtBeat nonce) (set_outstanding nonce (set_locals w l))) st)
  | WtBeat nonce =>
      let '(ok, l) := write_message (AHeartbeat nonce) io l in
      Some (set_link g (writer_at (if ok then WtDeadline else stop) l) st)
  | WtDeadline =>
      match instant_add (li_now io) (millis (fc_heartbeat_ack_timeout_ms config)) with
      | None => to stop
      | Some deadline =>
          Some (set_link g (writer_at WtActive (set_locals (mkLocals (wl_next_heartbeat w) (Some deadline) (wl_next_nonce w)) l)) st)
      end
  | WtRecv =>
      match lk_queue l with
      | item :: rest =>
          Some (set_link g (writer_at (if fi_generation item =? g then WtSend item else WtActive) (set_queue rest l)) st)
      | [] => if has_sender g st || bool_decide (li_fail io = None) then to WtActive else to stop
      end
  | WtSend item =>
      match Atap.encode limits (AForwardAlert (fi_alert item)) with
      | Err _ => to WtDrop
      | Ok _ =>
          let '(ok, l) := write_message (AForwardAlert (fi_alert item)) io l in
          Some (set_link g (writer_at (if ok then WtActive else stop) l) st)
      end
  | WtDrop => Some (set_link g (writer_at WtActive l) (set_plugin (PluginOps.count_dropped p) st))
  | WtUpdate (UpDone _) => Some (set_link g (writer_at WtDone (drop_receiver l)) st)
  | WtUpdate u =>
      '(u, p) ← PluginOps.update_step u (li_persist io) p;
      Some (set_link g (writer_at (WtUpdate u) l) (set_plugin p st))
  | WtDone => None
  end.

(** ** service.rs *)

Definition control_step (t : nat) (call : ControlCall) st : option (ForwarderState J) :=
  match fs_controls st !! t with
  | None | Some (CtDone _) =>
      Some (set_control t
        (match call with
         | CtlStart => CtRequested
         | CtlUpdate raw =>
             match ForwardingConfig.from_json raw with
             | Err _ => CtDone (Err "alert_forwarding")
             | Ok c => if afc_enabled c then CtStatus raw else CtUpdate (UpWait (CallUpdateConfig raw))
             end
         | CtlShutdown => CtUpdate (UpWait CallDeactivate)
         | CtlDisable => CtUpdate (UpWait CallDisable)
         end) st)
  | _ => None
  end.
(** [ensure_connected] returns: the lifecycle lock is given back. *)
Definition ensured (t : nat) (raw : option string) st : ForwarderState J :=
  set_control t (match raw with Some raw => CtUpdate (UpWait (CallUpdateConfig raw)) | None => CtDone (Ok ()) end)
    (set_lifecycle false st).
Definition not_ensured (t : nat) (e : string) st : ForwarderState J :=
  set_control t (CtDone (Err e)) (set_lifecycle false st).
Definition would_block : string := "Resource temporarily unavailable (os error 11)".
(** [read_one_message], one turn. *)
Definition read_welcome (t : nat) (raw : option string) (g : Z) (d : FrameDecoder) (io : LinkIo) l st : ForwarderState J :=
  let fail e st := not_ensured t e st in
  match li_read io with
  | SockError text => fail ("read producer handshake: " +:+ text) (set_link g (drop_receiver l) st)
  | SockRetry => fail ("read producer handshake: " +:+ would_block) (set_link g (drop_receiver l) st)
  | SockData _ [] => fail "alert proxy closed during producer handshake" (set_link g (drop_receiver l) st)
  | SockData capacity bytes =>
      let '(r, d) := FramedStream.next (atap_format limits) (Stream.push capacity bytes d) in
      let l := got bytes (match r with Ok (Some m) => [m] | _ => [] end) l in
      match r with
      | Err _ => fail "alert_proxy_handshake" (set_link g (drop_receiver l) st)
      | Ok None => set_control t (CtWelcome raw g d) (set_link g l st)
      | Ok (Some AProducerWelcome) => set_control t (CtTimeout raw g) (set_link g l st)
      | Ok (Some (AProducerReject code)) =>
          fail ("alert proxy rejected producer: " +:+ code) (set_link g (drop_receiver l) st)
      | Ok (Some _) =>
          fail "alert proxy returned an invalid producer handshake response" (set_link g (drop_receiver l) st)
      end
  end.

Definition controller_step (t : nat) (io : LinkIo) st : option (ForwarderState J) :=
  pc ← fs_controls st !! t;
  let p := fs_plugin st in
  let to pc := Some (set_control t pc st) in
  match pc with
  | CtRequested => to (if pg_requested_enabled p then CtLifecycle None else CtDone (Ok ()))
  | CtStatus raw =>
      to (if pg_active_generation p =? NO_CONNECTION_GENERATION then CtLifecycle (Some raw)
          else CtUpdate (UpWait (CallUpdateConfig raw)))
  | CtLifecycle raw => if fs_lifecycle st then None else Some (set_control t (CtEnsure raw) (set_lifecycle true st))
  | CtEnsure raw =>
      if pg_active_generation p =? NO_CONNECTION_GENERATION then to (CtConnect raw) else Some (ensured t raw st)
  | CtConnect raw =>
      match li_fail io with
      | Some e => Some (not_ensured t e st)
      | None => to (CtGeneration raw)
      end
  | CtGeneration raw =>
      match PluginOps.next_generation p with
      | (Err _, p) => Some (not_ensured t "alert_forwarding" (set_plugin p st))
      | (Ok g, p) => Some (set_control t (CtHello raw g) (set_link g new_link (set_plugin p st)))
      end
  | CtHello raw g =>
      l ← fs_links st !! g;
      let '(ok, l) := write_message (AProducerHello (fc_process_id config)) io l in
      if ok then Some (set_control t (CtWelcome raw g Stream.with_capacity) (set_link g l st))
      else Some (not_ensured t "alert_proxy_handshake" (set_link g (drop_receiver l) st))
  | CtWelcome raw g d => l ← fs_links st !! g; Some (read_welcome t raw g d io l st)
  | CtTimeout raw g =>
      l ← fs_links st !! g;
      match li_fail io with
      | Some e => Some (not_ensured t ("set alert proxy read timeout: " +:+ e) (set_link g (drop_receiver l) st))
      | None => to (CtActivate raw g (UpWait (CallActivate g)))
      end
  | CtActivate raw g (UpDone UpdateOk) => to (CtReader raw g)
  | CtActivate raw g (UpDone _) =>
      l ← fs_links st !! g;
      Some (not_ensured t "alert proxy connection generation was superseded" (set_link g (drop_receiver l) st))
  | CtActivate raw g u =>
      '(u, p) ← PluginOps.update_step u (li_persist io) p;
      Some (set_control t (CtActivate raw g u) (set_plugin p st))
  | CtReader raw g =>
      l ← fs_links st !! g;
      match li_fail io with
      | Some e => Some (set_control t (CtAbandon g e (disabling g)) (set_link g (drop_receiver l) st))
      | None => Some (set_control t (CtWriter raw g) (set_link g (reader_at RdActive l) st))
      end
  | CtWriter raw g =>
      l ← fs_links st !! g;
      match li_fail io with
      | Some e => Some (set_control t (CtAbandon g e (disabling g)) (set_link g (drop_receiver l) st))
      | None => Some (ensured t raw (set_link g (writer_at WtStart l) st))
      end
  | CtAbandon g e (UpDone _) => Some (not_ensured t e st)
  | CtAbandon g e u =>
      '(u, p) ← PluginOps.update_step u (li_persist io) p;
      Some (set_control t (CtAbandon g e u) (set_plugin p st))
  | CtUpdate (UpDone r) => to (CtDone (match r with UpdateErr _ => Err "alert_forwarding" | _ => Ok () end))
  | CtUpdate u =>
      '(u, p) ← PluginOps.update_step u (li_persist io) p;
      Some (set_control t (CtUpdate u) (set_plugin p st))
  | CtDone _ => None
  end.

Definition step (a : ForwarderAction J) st : option (ForwarderState J) :=
  match a with
  | FwPublish i a => publish_step i a st
  | FwPublisher i => publisher_step i st
  | FwReader g io => reader_step g io st
  | FwWriter g io => writer_step g io st
  | FwControl t call => control_step t call st
  | FwController t io => controller_step t io st
  end.
Fixpoint run (actions : list (ForwarderAction J)) st : option (ForwarderState J) :=
  match actions with
  | [] => Some st
  | a :: rest => st' ← step a st; run rest st'
  end.
Definition start (p : Plugin) : ForwarderState J := mkForwarder p ∅ ∅ false ∅.
End forwarder.
End Forwarder.
