(* ===== verification/AlertForwardingFacts.v ===== *)
(** What the daemon's side of alert delivery guarantees, for every interleaving of its
    threads: the routing plugin's flags agree whenever no update is under way, and every
    connection writes the alerts that were accepted for it, in order, each let through by a
    filter that was in force. *)
From stdpp Require Import prelude gmap strings.
From Stdlib Require Import ZArith Lia.
From coqutil Require Import Byte.
From S2P Require Import Prelude Bytes Wire BatchCodec AlertCodec AlertCodecFacts AlertStream AlertProxy AlertForwarding.

Open Scope Z_scope.

(** * Updates of the plugin *)

Module PluginFacts.
Import PluginOps.
Section plugin.
Context {cj : ConfigJson}.
Implicit Types p : Plugin.

(** The flags agree. *)
Record consistent p : Prop := {
  ok_generation : pg_active_generation p = default NO_CONNECTION_GENERATION (pg_active p);
  ok_effective : pg_effective_enabled p = true → is_Some (pg_active p) ∧ pg_requested_enabled p = true;
  ok_requested : pg_requested_enabled p = afc_enabled (pg_config p);
  ok_filter : pg_filter p = Filter.from_config (pg_config p);
  ok_valid : ForwardingConfig.validate (pg_config p) = Ok ();
}.
(** They will agree once [ops] are done, whatever the file system does, and whatever
    happens to the latest generation meanwhile. *)
Fixpoint settles (ops : list UpdateOp) p : Prop :=
  match ops with
  | [] => consistent p
  | OpIfLatest _ :: ops => consistent p ∧ settles ops p
  | op :: ops =>
      ∀ io, match exec op io p with (None, p') => settles ops p' | (Some _, p') => consistent p' end
  end.

(** What threads without the lock may do to the plugin. *)
Record meddled p p' : Prop := {
  md_file : pg_file p' = pg_file p;
  md_config : pg_config p' = pg_config p;
  md_filter : pg_filter p' = pg_filter p;
  md_active : pg_active p' = pg_active p;
  md_requested : pg_requested_enabled p' = pg_requested_enabled p;
  md_effective : pg_effective_enabled p' = true → pg_effective_enabled p = true;
  md_generation : pg_active_generation p' = pg_active_generation p;
}.
Definition outside p p' : Prop := meddled p p' ∧ pg_update p' = pg_update p ∧ pg_filters p' = pg_filters p.
Lemma meddled_consistent p p' : meddled p p' → consistent p → consistent p'.
Proof.
  intros [? Hc Hf Ha Hr He Hg] [? H2 ? ? ?]. split; rewrite ?Hc, ?Hf, ?Ha, ?Hr, ?Hg; auto.
Qed.
Lemma meddled_exec op io p p' :
  meddled p p' → (∀ g, op ≠ OpIfLatest g) →
  (exec op io p').1 = (exec op io p).1 ∧ meddled (exec op io p).2 (exec op io p').2.
Proof.
  intros [Hfi Hc Hf Ha Hr He Hg] Hop. destruct op; cbn; rewrite ?Hfi, ?Hc, ?Ha, ?Hr.
  all: try (by exfalso; eapply Hop).
  all: try (destruct (Owner.persist _ io _) as [[] file]; cbn).
  all: split; [done|split; cbn; auto; congruence].
Qed.
Lemma meddled_settles ops p p' : meddled p p' → settles ops p → settles ops p'.
Proof.
  revert p p'. induction ops as [|op ops IH]; intros p p' Hm; [by apply meddled_consistent|].
  assert ((∀ g, op ≠ OpIfLatest g) → settles (op :: ops) p → settles (op :: ops) p') as Hop.
  { intros Hop Hs. assert (∀ io, match exec op io p with (None, q) => settles ops q | (Some _, q) => consistent q end) as Hp
      by (intros io; destruct op; try apply (Hs io); by exfalso; eapply Hop).
    assert (∀ io, match exec op io p' with (None, q) => settles ops q | (Some _, q) => consistent q end) as Hp'.
    { intros io. specialize (Hp io). destruct (meddled_exec op io p p' Hm Hop) as [E1 E2].
      destruct (exec op io p) as [o q], (exec op io p') as [o' q']. cbn in E1, E2. subst o'.
      destruct o; [by eapply meddled_consistent|by eapply IH]. }
    destruct op; try exact Hp'. by exfalso; eapply Hop. }
  destruct op; try (apply Hop; done). intros [H1 H2]. split; [by eapply meddled_consistent|by eapply IH].
Qed.

Lemma with_enabled_valid b c : ForwardingConfig.validate (ForwardingConfig.with_enabled b c) = ForwardingConfig.validate c.
Proof. done. Qed.
Lemma from_json_valid raw c : ForwardingConfig.from_json raw = Ok c → ForwardingConfig.validate c = Ok ().
Proof.
  unfold ForwardingConfig.from_json. destruct (map_err _ _) as [c'|]; [|done]. cbn.
  destruct (ForwardingConfig.validate c') as [[]|] eqn:E; [|done]. cbn. by intros [= <-].
Qed.

(** Every body settles what it changes. *)
#[local] Ltac settle := cbn; repeat (intros ?; cbn).
Lemma body_settles call p : consistent p → settles (body call).2 p.
Proof.
  intros [H1 H2 H3 H4 H5]. pose proof (Build_consistent p H1 H2 H3 H4 H5) as Hp. destruct call as [g|g| | |raw].
  - split; [done|]. settle. by split; cbn; eauto.
  - settle. case_bool_decide; [|done]. settle.
    destruct (Owner.persist _ _ _) as [[] file]; split; cbn; try done.
  - settle. destruct (Owner.persist _ _ _) as [[] file]; split; cbn; done.
  - settle. split; cbn; done.
  - cbn. destruct (ForwardingConfig.from_json raw) as [c|e] eqn:E; [|done]. apply from_json_valid in E.
    cbn [snd]. unfold update_ops. destruct (afc_enabled c) eqn:Ec; settle.
    + destruct (pg_active p) as [g|] eqn:Ea; [|done]. settle.
      destruct (Owner.persist _ _ _) as [[] file]; [settle|]; split; cbn; rewrite ?Ea; eauto.
    + destruct (Owner.persist _ _ _) as [[] file]; [settle|]; split; cbn; try done. by rewrite andb_false_r.
Qed.

Lemma settles_exec op ops io p :
  settles (op :: ops) p → match exec op io p with (None, q) => settles ops q | (Some _, q) => consistent q end.
Proof.
  destruct op as [g|g| | | | | | | | | | | |]; cbn [settles]; intros Hs; try exact (Hs io).
  destruct Hs. cbn. by destruct (_ =? _).
Qed.
Lemma exec_update op io p : pg_update (exec op io p).2 = pg_update p.
Proof. destruct op; try done; cbn; by destruct (Owner.persist _ _ _) as [[] ?]. Qed.

(** The filter's history ends with the filter, and only grows. *)
Definition filters_ok p : Prop := last (pg_filters p) = Some (pg_filter p).
Lemma exec_filters op io p :
  pg_filters p `prefix_of` pg_filters (exec op io p).2 ∧ (filters_ok p → filters_ok (exec op io p).2).
Proof.
  destruct op; cbn; try (split; [done|done]).
  - by destruct (Owner.persist _ _ _) as [[] ?].
  - split; [by eexists|]. intros _. unfold filters_ok. cbn. by rewrite last_snoc.
  - by destruct (Owner.persist _ _ _) as [[] ?].
Qed.
End plugin.
End PluginFacts.

(** * The threads *)

Module ForwarderFacts.
Import PluginOps PluginFacts Forwarder.
(** Where an update of the plugin runs. *)
Inductive Updater := InReader (g : Z) | InWriter (g : Z) | InControl (t : nat).
#[export] Instance updater_eq_dec : EqDecision Updater.
Proof. solve_decision. Defined.
Section forwarder.
Context {J : Type} {json : ExtrasJson J} {cj : ConfigJson} (config : ForwardingConfigLimits) (limits : AtapLimits).
(** What is known of the alerts that are published. *)
Context (known : ForwardAlert J → Prop).
Implicit Types (st : ForwarderState J) (l : Link J) (p : Plugin).

Lemma outside_refl p : outside p p.
Proof. by split; [split|]. Qed.
#[local] Hint Resolve outside_refl : core.

(** ** The connection lock *)

Definition reader_update (pc : ReaderPc) : option UpdatePc := match pc with RdUpdate _ u => Some u | _ => None end.
Definition writer_update (pc : LinkWriterPc J) : option UpdatePc := match pc with WtUpdate u => Some u | _ => None end.
Definition control_update (pc : ControlPc) : option UpdatePc :=
  match pc with CtActivate _ _ u | CtAbandon _ _ u | CtUpdate u => Some u | _ => None end.
Definition update_at st (x : Updater) : option UpdatePc :=
  match x with
  | InReader g => l ← fs_links st !! g; reader_update (lk_reader l)
  | InWriter g => l ← fs_links st !! g; writer_update (lk_writer l)
  | InControl t => pc ← fs_controls st !! t; control_update pc
  end.
Definition holds st (x : Updater) (ops : list UpdateOp) : Prop := ∃ r, update_at st x = Some (UpRun r ops).
Record lock_ok st : Prop := {
  lk_held x ops : holds st x ops → pg_update (fs_plugin st) = true ∧ settles ops (fs_plugin st);
  lk_one x y ops ops' : holds st x ops → holds st y ops' → x = y;
  lk_free : pg_update (fs_plugin st) = false → consistent (fs_plugin st);
}.
(** A step that holds no lock. *)
Definition fewer st st' : Prop := ∀ x ops, holds st' x ops → holds st x ops.
Definition runs (o : option UpdatePc) : option (UpdateResult * list UpdateOp) :=
  match o with Some (UpRun r ops) => Some (r, ops) | _ => None end.
Lemma runs_Some o r ops : runs o = Some (r, ops) ↔ o = Some (UpRun r ops).
Proof. destruct o as [[]|]; cbn; split; intros; by simplify_eq. Qed.
Lemma fewer_same st st' : fs_links st' = fs_links st → fs_controls st' = fs_controls st → fewer st st'.
Proof. intros E1 E2 x ops [r E]. exists r. destruct x; cbn in *; by rewrite ?E1, ?E2 in E. Qed.
Lemma fewer_trans st1 st2 st3 : fewer st1 st2 → fewer st2 st3 → fewer st1 st3.
Proof. intros H1 H2 x ops H%H2. by apply H1. Qed.
Lemma fewer_link g l l' st :
  fs_links st !! g = Some l →
  runs (reader_update (lk_reader l')) = None ∨ lk_reader l' = lk_reader l →
  runs (writer_update (lk_writer l')) = None ∨ lk_writer l' = lk_writer l → fewer st (set_link g l' st).
Proof.
  intros Hg Hr Hw x ops [r E]. exists r. destruct x as [k|k|t]; cbn in *; [| |done].
  all: destruct (decide (k = g)) as [->|Hne]; [|by rewrite lookup_insert_ne in E].
  all: rewrite lookup_insert_eq in E; cbn in E; rewrite Hg; cbn.
  - destruct Hr as [Hr|<-]; [|done]. by rewrite E in Hr.
  - destruct Hw as [Hw|<-]; [|done]. by rewrite E in Hw.
Qed.
Lemma fewer_control t pc' st : runs (control_update pc') = None → fewer st (set_control t pc' st).
Proof.
  intros Hc x ops [r E]. exists r. destruct x as [k|k|u]; cbn in *; [done..|].
  destruct (decide (u = t)) as [->|Hne]; [|by rewrite lookup_insert_ne in E]. rewrite lookup_insert_eq in E. cbn in E. by rewrite E in Hc.
Qed.
Lemma lock_meddled st st' : lock_ok st → fewer st st' → outside (fs_plugin st) (fs_plugin st') → lock_ok st'.
Proof.
  intros [H1 H2 H3] Hf (Hm & Hu' & _). split.
  - intros x ops [Hu Hs]%Hf%H1. rewrite Hu'. split; [done|by eapply meddled_settles].
  - intros x y ops ops' Hx%Hf Hy%Hf. by eapply H2.
  - rewrite Hu'. intros Hc%H3. by eapply meddled_consistent.
Qed.
(** A step of an update. *)
Lemma lock_updated st st' x u u' io :
  lock_ok st → update_at st x = Some u → update_step u io (fs_plugin st) = Some (u', fs_plugin st') →
  update_at st' x = Some u' → (∀ y, y ≠ x → update_at st' y = update_at st y) → lock_ok st'.
Proof.
  intros [H1 H2 H3] Hx Hu Hx' Hy.
  assert (∀ y ops, y ≠ x → holds st' y ops → holds st y ops) as Hother
    by (intros y ops Hne [r E]; exists r; by rewrite <-Hy).
  destruct u as [call|r [|op ops]|r]; cbn in Hu; [| | |done].
  - destruct (pg_update (fs_plugin st)) eqn:Eu; [done|]. pose proof (body_settles call _ (H3 eq_refl)) as Hs.
    destruct (body call) as [r ops] eqn:Eb. injection Hu as <- Ep.
    assert (∀ y ops, y ≠ x → ¬ holds st' y ops) as Hno
      by (intros y ops' Hne Hh; apply (Hother _ _ Hne), H1 in Hh as [? _]; congruence).
    split.
    + intros y ops' Hh. destruct (decide (y = x)) as [->|Hne]; [|by destruct (Hno y ops')].
      destruct Hh as [r' E]. rewrite Hx' in E. injection E as <- <-. rewrite <-Ep. split; [done|].
      eapply meddled_settles; [|exact Hs]. by split.
    + intros y z o o' Hh Hh'. destruct (decide (y = x)) as [->|Hne]; [|by destruct (Hno y o)].
      destruct (decide (z = x)) as [->|Hne]; [done|by destruct (Hno z o')].
    + by rewrite <-Ep.
  - injection Hu as <- Ep. destruct (H1 x []) as [_ Hc]; [by eexists|]. cbn in Hc.
    assert (∀ y ops, ¬ holds st' y ops) as Hno.
    { intros y ops Hh. destruct (decide (y = x)) as [->|Hne]; [destruct Hh as [? E]; by rewrite Hx' in E|].
      apply Hne. eapply H2; [by apply Hother|by eexists]. }
    split; [by intros y ops Hh; destruct (Hno y ops)|by intros y z o o' Hh; destruct (Hno y o)|].
    intros _. rewrite <-Ep. destruct Hc as [? ? ? ? ?]. by split.
  - destruct (H1 x (op :: ops)) as [Hl Hs]; [by eexists|]. apply (settles_exec op ops io) in Hs.
    pose proof (exec_update op io (fs_plugin st)) as Hl'. rewrite Hl in Hl'.
    assert (∃ r' ops', u' = UpRun r' ops' ∧ settles ops' (fs_plugin st') ∧ pg_update (fs_plugin st') = true)
      as (r' & ops' & -> & Hs' & Hlock).
    { destruct (exec op io (fs_plugin st)) as [[r'|] q]; injection Hu as <- <-; eauto 10. }
    assert (∀ y o, holds st' y o → y = x) as Hone.
    { intros y o Hh. destruct (decide (y = x)) as [->|Hne]; [done|]. eapply H2; [by apply Hother|by eexists]. }
    split.
    + intros y o Hh. pose proof (Hone y o Hh) as ->. destruct Hh as [? E]. rewrite Hx' in E. injection E as <- <-. done.
    + intros y z o o' Hh Hh'. by rewrite (Hone y o Hh), (Hone z o' Hh').
    + congruence.
Qed.
(** ** Publishers, connections and the threads that set them up *)

Definition encodable (a : ForwardAlert J) : Prop := is_ok (Atap.encode limits (AForwardAlert a)) = true.
#[export] Instance encodable_dec a : Decision (encodable a).
Proof. unfold encodable. apply _. Defined.
Definition frame (m : AtapMessage J) : list byte := match Atap.encode limits m with Ok bs => bs | Err _ => [] end.
Definition alerts_of (ms : list (AtapMessage J)) : list (ForwardAlert J) :=
  omap (λ m, match m with AForwardAlert a => Some a | _ => None end) ms.
Lemma forwarded_app ms ms' : alerts_of (ms ++ ms') = alerts_of ms ++ alerts_of ms'.
Proof. apply omap_app. Qed.

(** A filter in the history, no older than the call, let the alert through. *)
Definition passed (filters : list CategoryFilter) (x : ForwardAlert J * nat * nat) : Prop :=
  (x.1.2 ≤ x.2)%nat ∧ ∃ f, filters !! x.2 = Some f ∧ Filter.accepts f (fa_category x.1.1) = true.
Definition pub_ok (filters : list CategoryFilter) (pc : PublisherPc J) : Prop :=
  match pc with
  | PbAsk since a | PbAskFilter since a | PbEnabled since a | PbFilter since a => known a ∧ (since < length filters)%nat
  | PbActive since n a | PbSend since n _ a => known a ∧ passed filters (a, since, n)
  | _ => True
  end.

Definition in_hand (pc : LinkWriterPc J) : list (ForwardAlert J) := match pc with WtSend item => [fi_alert item] | _ => [] end.
(** The writer will write no more, or never began. *)
Definition quiet (pc : LinkWriterPc J) : bool := match pc with WtNone | WtUpdate _ | WtDone => true | _ => false end.
Definition stopped (pc : LinkWriterPc J) : bool := match pc with WtUpdate _ | WtDone => true | _ => false end.
Lemma stopped_quiet pc : stopped pc = true → quiet pc = true.
Proof. by destruct pc. Qed.
Definition nonce_ok (n : Z) : Prop := 1 ≤ n ≤ u64_max.
(** What a daemon writes after its hello. *)
Definition said (m : AtapMessage J) : Prop :=
  match m with AForwardAlert a => known a | AHeartbeat n => nonce_ok n | _ => False end.
Definition hello : AtapMessage J := AProducerHello (fc_process_id config).
Definition shaped (l : Link J) : Prop :=
  match lk_output l with
  | [] => lk_writer l = WtNone
  | m :: rest => m = hello ∧ Forall said rest ∧ Forall (λ m, is_ok (Atap.encode limits m) = true) (lk_output l)
  end.
Definition torn_ok (l : Link J) (torn : list byte) : Prop :=
  torn = [] ∨ quiet (lk_writer l) = true ∧ ∃ m q, (m = hello ∧ lk_output l = [] ∨ said m) ∧ q ≠ [] ∧ Atap.encode limits m = Ok (torn ++ q).
Record link_ok (filters : list CategoryFilter) (g : Z) (l : Link J) : Prop := {
  lo_items : Forall (λ item, fi_generation item = g ∧ known (fi_alert item)) (lk_queue l);
  lo_accepted : Forall (λ x, known x.1.1 ∧ passed filters x) (lk_accepted l);
  lo_flow : ∃ lost, alerts_of (lk_output l) ++
      filter encodable (lost ++ in_hand (lk_writer l) ++ (fi_alert <$> lk_queue l)) = filter encodable (lk_accepted l).*1.*1 ∧
      (length lost ≤ 1)%nat ∧ (lost = [] ∨ stopped (lk_writer l) = true);
  lo_wire : ∃ torn, lk_wire l = concat (frame <$> lk_output l) ++ torn ∧ torn_ok l torn;
  lo_shape : shaped l;
  lo_nonce : nonce_ok (wl_next_nonce (lk_locals l));
  lo_pc : match lk_writer l with
          | WtSend item => known (fi_alert item)
          | WtBeat n => nonce_ok n
          | _ => True
          end;
}.

(** A connection that is being set up. *)
Definition fresh_link (l : Link J) : Prop :=
  lk_writer l = WtNone ∧ lk_outstanding l = 0 ∧ lk_locals l = mkLocals 0 None 1.
Definition greeted (l : Link J) : Prop := lk_output l = [hello] ∧ lk_wire l = frame hello.
Definition unread (l : Link J) : Prop := lk_reader l = RdNone ∧ lk_decoder l = Stream.with_capacity.
Definition control_gen (pc : ControlPc) : option Z :=
  match pc with
  | CtHello _ g | CtWelcome _ g _ | CtTimeout _ g | CtActivate _ g _ | CtReader _ g | CtWriter _ g => Some g
  | _ => None
  end.
Definition phase (pc : ControlPc) (l : Link J) : Prop :=
  fresh_link l ∧
  match pc with
  | CtHello _ _ => unread l ∧ lk_output l = [] ∧ lk_wire l = [] ∧ lk_input l = [] ∧ lk_messages l = []
  | CtWelcome _ _ d => unread l ∧ greeted l ∧ WireFacts.decoder_ok d ∧ lk_input l = WireFacts.pending d ∧ lk_messages l = []
  | CtTimeout _ _ | CtActivate _ _ _ | CtReader _ _ => unread l ∧ greeted l ∧ lk_messages l = [AProducerWelcome]
  | CtWriter _ _ => greeted l
  | _ => True
  end.

Record rest_ok (filters : list CategoryFilter) (latest : Z) (pubs : gmap nat (PublisherPc J)) (links : gmap Z (Link J))
    (controls : gmap nat ControlPc) : Prop := {
  ro_pub i pc : pubs !! i = Some pc → pub_ok filters pc;
  ro_link g l : links !! g = Some l → link_ok filters g l ∧ g ≤ latest;
  ro_phase t pc g : controls !! t = Some pc → control_gen pc = Some g → ∃ l, links !! g = Some l ∧ phase pc l;
  ro_owner t t' pc pc' g : controls !! t = Some pc → controls !! t' = Some pc' →
    control_gen pc = Some g → control_gen pc' = Some g → t = t';
}.
Definition inv st : Prop :=
  lock_ok st ∧ filters_ok (fs_plugin st) ∧
  rest_ok (pg_filters (fs_plugin st)) (pg_latest_generation (fs_plugin st)) (fs_publishers st) (fs_links st) (fs_controls st).

Lemma passed_mono filters filters' x : filters `prefix_of` filters' → passed filters x → passed filters' x.
Proof. intros Hp (H1 & f & H2 & H3). split; [done|]. exists f. split; [by eapply prefix_lookup_Some|done]. Qed.
Lemma link_ok_mono filters filters' g l : filters `prefix_of` filters' → link_ok filters g l → link_ok filters' g l.
Proof.
  intros Hp [H1 H2 H3 H4 H5 H6 H7]. split; try done.
  eapply Forall_impl; [exact H2|]. intros x [? ?]. split; [done|by eapply passed_mono].
Qed.
Lemma rest_mono filters filters' latest latest' pubs links controls :
  filters `prefix_of` filters' → latest ≤ latest' →
  rest_ok filters latest pubs links controls → rest_ok filters' latest' pubs links controls.
Proof.
  intros Hp Hl [H1 H2 H3 H4]. split; try done.
  - intros i pc Hi%H1. pose proof (prefix_length _ _ Hp). destruct pc; try done; destruct Hi; split; try lia;
      try done; by eapply passed_mono.
  - intros g l [Hg ?]%H2. split; [by eapply link_ok_mono|lia].
Qed.
Lemma rest_publisher filters latest pubs links controls i pc :
  rest_ok filters latest pubs links controls → pub_ok filters pc →
  rest_ok filters latest (<[i := pc]> pubs) links controls.
Proof. intros [H1 H2 H3 H4] Hpc. split; try done. intros j pc' [[<- <-]|[? ?]]%lookup_insert_Some; eauto. Qed.
Lemma rest_link filters latest pubs links controls g l l' :
  rest_ok filters latest pubs links controls → links !! g = Some l → link_ok filters g l' →
  (∀ t pc, controls !! t = Some pc → control_gen pc = Some g → phase pc l → phase pc l') →
  rest_ok filters latest pubs (<[g := l']> links) controls.
Proof.
  intros [H1 H2 H3 H4] Hg Hl' Hph. split; try done.
  - intros k m [[<- <-]|[? ?]]%lookup_insert_Some; [|eauto]. split; [done|]. by eapply H2.
  - intros t pc k Ht Hk. destruct (H3 t pc k Ht Hk) as (m & Hm & Hp). destruct (decide (k = g)) as [->|Hne].
    + rewrite lookup_insert_eq. eexists. split; [done|]. simplify_eq. by eapply Hph.
    + rewrite lookup_insert_ne by done. eauto.
Qed.
(** A control thread moves on, and with it perhaps the connection it sets up. *)
Lemma rest_control filters latest pubs links controls t pc pc' :
  rest_ok filters latest pubs links controls → controls !! t = Some pc →
  (∀ g, control_gen pc' = Some g → control_gen pc = Some g ∧ ∃ l, links !! g = Some l ∧ phase pc' l) →
  rest_ok filters latest pubs links (<[t := pc']> controls).
Proof.
  intros [H1 H2 H3 H4] Ht Hpc. split; try done.
  - intros u pcu k [[<- <-]|[? ?]]%lookup_insert_Some Hk; [by apply Hpc|eauto].
  - intros u u' pcu pcu' k Hu Hu' Hk Hk'.
    apply lookup_insert_Some in Hu as [[<- <-]|[? Hu]], Hu' as [[<- <-]|[? Hu']]; try done.
    + apply Hpc in Hk as [Hk _]. by eapply H4.
    + apply Hpc in Hk' as [Hk' _]. by eapply H4.
    + by eapply H4.
Qed.
Lemma rest_control_none filters latest pubs links controls t pc' :
  rest_ok filters latest pubs links controls → control_gen pc' = None →
  rest_ok filters latest pubs links (<[t := pc']> controls).
Proof.
  intros [H1 H2 H3 H4] Hn. split; try done.
  - intros u pcu k [[<- <-]|[? ?]]%lookup_insert_Some Hk; [by simplify_eq|eauto].
  - intros u u' pcu pcu' k Hu Hu' Hk Hk'.
    apply lookup_insert_Some in Hu as [[<- <-]|[? Hu]], Hu' as [[<- <-]|[? Hu']]; simplify_eq; by eapply H4.
Qed.
Lemma rest_setup filters latest pubs links controls t pc pc' g l' :
  rest_ok filters latest pubs links controls → controls !! t = Some pc → control_gen pc = Some g → link_ok filters g l' →
  (control_gen pc' = None ∨ control_gen pc' = Some g ∧ phase pc' l') →
  rest_ok filters latest pubs (<[g := l']> links) (<[t := pc']> controls).
Proof.
  intros [H1 H2 H3 H4] Ht Hg Hl' Hpc. split; try done.
  - intros k m [[<- <-]|[? ?]]%lookup_insert_Some; [|eauto]. split; [done|].
    destruct (H3 t pc g Ht Hg) as (m & Hm & _). by eapply H2.
  - intros u pcu k [[<- <-]|[? Hu]]%lookup_insert_Some Hk.
    + destruct Hpc as [Hpc|[Hpc Hph]]; simplify_eq. rewrite lookup_insert_eq. eauto.
    + rewrite lookup_insert_ne; [by eapply H3|]. intros ->. by destruct (H4 t u pc pcu k Ht Hu Hg Hk).
  - intros u u' pcu pcu' k Hu Hu' Hk Hk'.
    apply lookup_insert_Some in Hu as [[<- <-]|[? Hu]], Hu' as [[<- <-]|[? Hu']]; try done.
    + destruct Hpc as [Hpc|[Hpc _]]; simplify_eq. by eapply H4.
    + destruct Hpc as [Hpc|[Hpc _]]; simplify_eq. by eapply H4.
    + by eapply H4.
Qed.
Lemma new_link_ok filters g : link_ok filters g new_link.
Proof.
  split; cbn; try done.
  - exists []. split; [done|]. split; [cbn; lia|by left].
  - exists []. split; [done|by left].
Qed.
Lemma rest_new filters latest pubs links controls t raw g :
  rest_ok filters latest pubs links controls → latest < g →
  rest_ok filters g pubs (<[g := new_link]> links) (<[t := CtHello raw g]> controls).
Proof.
  intros [H1 H2 H3 H4] Hlt.
  assert (∀ u pcu, controls !! u = Some pcu → control_gen pcu = Some g → False) as Hno.
  { intros u pcu Hu Hg. destruct (H3 u pcu g Hu Hg) as (m & Hm & _). apply H2 in Hm as [_ ?]. lia. }
  split; try done.
  - intros k m [[<- <-]|[? Hm]]%lookup_insert_Some; [split; [apply new_link_ok|lia]|].
    apply H2 in Hm as [? ?]. split; [done|lia].
  - intros u pcu k [[<- <-]|[? Hu]]%lookup_insert_Some Hk.
    + injection Hk as <-. rewrite lookup_insert_eq. by eexists.
    + rewrite lookup_insert_ne; [by eapply H3|]. intros ->. by eapply Hno.
  - intros u u' pcu pcu' k Hu Hu' Hk Hk'.
    apply lookup_insert_Some in Hu as [[<- <-]|[? Hu]], Hu' as [[<- <-]|[? Hu']]; try done.
    + injection Hk as <-. by destruct (Hno u' pcu').
    + injection Hk' as <-. by destruct (Hno u pcu).
    + by eapply H4.
Qed.

(** ** Changes that leave a connection's books alone *)

Definition books (l : Link J) := (lk_queue l, lk_writer l, lk_locals l, lk_output l, lk_wire l, lk_accepted l).
Lemma books_ok filters g l l' : books l' = books l → link_ok filters g l → link_ok filters g l'.
Proof.
  unfold books. intros [= E1 E2 E3 E4 E5 E6] [H1 H2 H3 H4 H5 H6 H7].
  split; unfold shaped, torn_ok in *; rewrite ?E1, ?E2, ?E3, ?E4, ?E5, ?E6; done.
Qed.

(** ** Publishers *)

Lemma last_lookup_pred {A} (l : list A) x : last l = Some x → l !! (length l - 1)%nat = Some x ∧ (length l - 1 < length l)%nat.
Proof. rewrite last_lookup. replace (Nat.pred (length l)) with (length l - 1)%nat by lia. intros H. split; [done|by eapply lookup_lt_Some]. Qed.

Lemma enqueue_ok filters g l a since n :
  link_ok filters g l → known a → passed filters (a, since, n) → link_ok filters g (enqueue (mkItem g a) since n l).
Proof.
  intros [H1 H2 (lost & Hf & Hlen & Hq) H4 H5 H6 H7] Ha Hp. split; try done.
  - apply Forall_app. split; [done|]. by apply Forall_singleton.
  - apply Forall_app. split; [done|]. by apply Forall_singleton.
  - exists lost. split; [|done]. cbn [enqueue lk_queue lk_writer lk_output lk_accepted].
    rewrite !fmap_app, (filter_app encodable (lk_accepted l).*1.*1), <-Hf, !filter_app. by rewrite !app_assoc.
Qed.
Lemma enqueue_phase pc item since n l : phase pc l → phase pc (enqueue item since n l).
Proof. done. Qed.

Lemma publish_call_inv i a st st' : inv st → known a → publish_step i a st = Some st' → inv st'.
Proof.
  intros (Hl & Hf & Hr) Ha H. unfold publish_step in H.
  assert (st' = set_publisher i (PbAsk (length (pg_filters (fs_plugin st)) - 1) a) st) as ->
    by (destruct (fs_publishers st !! i) as [[]|]; by simplify_eq).
  split; [by eapply lock_meddled; [done|apply fewer_same|]|]. split; [done|]. apply rest_publisher; [done|]. split; [done|].
  by eapply last_lookup_pred.
Qed.
Lemma publisher_inv i st st' : inv st → publisher_step config i st = Some st' → inv st'.
Proof.
  intros (Hl & Hf & Hr) (pc & Hi & H)%bind_Some. pose proof (ro_pub _ _ _ _ _ Hr _ _ Hi) as Hpc.
  pose proof (last_lookup_pred _ _ Hf) as [Hlast Hlt].
  assert (∀ p' pc', outside (fs_plugin st) p' → pg_latest_generation p' = pg_latest_generation (fs_plugin st) →
    pub_ok (pg_filters (fs_plugin st)) pc' → inv (set_publisher i pc' (set_plugin p' st))) as Hto.
  { intros p' pc' Ho El Hpc'. split; [by eapply lock_meddled; [done|apply fewer_same|]|]. destruct Ho as (Hm & _ & Efs).
    split; [unfold filters_ok; cbn; by rewrite Efs, (md_filter _ _ Hm)|]. cbn. rewrite Efs, El. by apply rest_publisher. }
  assert (∀ pc', pub_ok (pg_filters (fs_plugin st)) pc' → inv (set_publisher i pc' st)) as Hto'.
  { intros pc' Hpc'. specialize (Hto (fs_plugin st) pc' (outside_refl _) eq_refl Hpc'). by destruct st. }
  destruct pc; cbn in H, Hpc; try done.
  1-3: by simplify_eq; apply Hto'; case_match.
  - simplify_eq. apply Hto'. destruct (Filter.accepts _ _) eqn:Ea; [|done]. split; [apply Hpc|]. split; cbn; [destruct Hpc; lia|eauto].
  - simplify_eq. apply Hto; [|done..]. by split; [split|].
  - simplify_eq. apply Hto'. by destruct (pg_active (fs_plugin st)).
  - simplify_eq. apply Hto; [|done..]. by split; [split|].
  - simplify_eq. apply Hto; [|done..]. by split; [split|].
  - apply bind_Some in H as (l & Hg & H). destruct (negb (lk_receiver l)); [by simplify_eq; apply Hto'|].
    destruct (_ <? _); [|by simplify_eq; apply Hto'].
    simplify_eq. destruct Hpc as [Ha Hp]. split; [|split; [done|]].
    + eapply lock_meddled; [done| |done].
      eapply fewer_trans; [apply (fewer_link generation l (enqueue (mkItem generation a) since n l) st Hg); by right|by apply fewer_same].
    + apply rest_publisher; [|done]. eapply rest_link; [done|done| |by intros; apply enqueue_phase].
      apply enqueue_ok; try done. by eapply ro_link.
  - simplify_eq. apply Hto; [|done..]. by split; [split|].
  - simplify_eq. apply Hto; [|done..]. by split; [split|].
  - simplify_eq. apply Hto'. by case_match.
  - simplify_eq. apply Hto; [|done..]. by split; [split|].
Qed.
(** ** Readers *)

Lemma update_step_plugin u io p u' p' :
  update_step u io p = Some (u', p') →
  pg_filters p `prefix_of` pg_filters p' ∧ (filters_ok p → filters_ok p') ∧ pg_latest_generation p' = pg_latest_generation p.
Proof.
  intros H. destruct u as [call|r [|op ops]|r]; cbn in H; [| | |done].
  - destruct (pg_update p); [done|]. destruct (body call). by simplify_eq.
  - by simplify_eq.
  - pose proof (exec_filters op io p) as [H1 H2].
    assert (pg_latest_generation (exec op io p).2 = pg_latest_generation p) as H3
      by (destruct op; try done; cbn; by destruct (Owner.persist _ _ _) as [[] ?]).
    destruct (exec op io p) as [[r'|] q]; by simplify_eq.
Qed.
(** A thread runs an update: [f] is where it keeps its place. *)
Lemma plugin_updated_inv st st' x u u' io p' :
  inv st → update_at st x = Some u → update_step u io (fs_plugin st) = Some (u', p') →
  fs_plugin st' = p' → update_at st' x = Some u' → (∀ y, y ≠ x → update_at st' y = update_at st y) →
  (∀ filters latest, rest_ok filters latest (fs_publishers st) (fs_links st) (fs_controls st) →
     rest_ok filters latest (fs_publishers st') (fs_links st') (fs_controls st')) → inv st'.
Proof.
  intros (Hl & Hf & Hr) Hx Hu <- Hx' Hy Hrest. destruct (update_step_plugin _ _ _ _ _ Hu) as (Hpre & Hf' & El).
  split; [by eapply lock_updated|]. split; [by apply Hf'|]. apply Hrest. rewrite El. by eapply rest_mono.
Qed.
Lemma outstanding_phase pc g l l' :
  control_gen pc = Some g → lk_reader l ≠ RdNone → books l' = books l →
  lk_outstanding l' = lk_outstanding l ∨ lk_outstanding l' = 0 → phase pc l → phase pc l'.
Proof.
  unfold books. intros Hg Hr [= E1 E2 E3 E4 E5 E6] Ho [[H1 [H2 H3]] Hpc]. split.
  - unfold fresh_link. rewrite E2, E3. split; [done|]. split; [|done]. destruct Ho as [->|]; done.
  - destruct pc; try done; try (by destruct Hpc as [[? _] _]). unfold greeted. by rewrite E4, E5.
Qed.
(** The reader, or whoever else, changes a connection but not its books. *)
Lemma books_inv st g l l' :
  inv st → fs_links st !! g = Some l → lk_reader l ≠ RdNone → books l' = books l →
  lk_outstanding l' = lk_outstanding l ∨ lk_outstanding l' = 0 →
  runs (reader_update (lk_reader l')) = None → inv (set_link g l' st).
Proof.
  intros (Hl & Hf & Hr) Hg Hrd Hb Ho Hru. split; [|split; [done|]].
  - eapply lock_meddled; [done| |done]. eapply fewer_link; [done|by left|]. right. by injection Hb.
  - eapply rest_link; [done|done|eapply books_ok; [done|by eapply ro_link]|].
    intros t pc _ Hc. by eapply outstanding_phase.
Qed.
Lemma reader_updates filters latest pubs links controls g l l' :
  rest_ok filters latest pubs links controls → links !! g = Some l → lk_reader l ≠ RdNone → books l' = books l →
  lk_outstanding l' = lk_outstanding l → rest_ok filters latest pubs (<[g := l']> links) controls.
Proof.
  intros Hr Hg Hrd Hb Ho. eapply rest_link; [done|done|eapply books_ok; [done|by eapply ro_link]|].
  intros t pc _ Hc. eapply outstanding_phase; [done..|by left].
Qed.
Lemma reader_updating st g l why u io u' p' :
  inv st → fs_links st !! g = Some l → lk_reader l = RdUpdate why u → update_step u io (fs_plugin st) = Some (u', p') →
  inv (set_link g (reader_at (RdUpdate why u') l) (set_plugin p' st)).
Proof.
  intros Hinv Hg Er Hu. eapply (plugin_updated_inv _ _ (InReader g)); [done| |exact Hu|done| | |].
  - cbn. rewrite Hg. cbn. by rewrite Er.
  - cbn. by rewrite lookup_insert_eq.
  - intros [k|k|t] Hne; cbn; [| |done];
      (destruct (decide (k = g)) as [->|Hk]; [|by rewrite lookup_insert_ne]); [done|]. by rewrite lookup_insert_eq, Hg.
  - intros filters latest Hr. eapply reader_updates; try done. by rewrite Er.
Qed.
Lemma reader_inv g io st st' : inv st → reader_step limits g io st = Some st' → inv st'.
Proof.
  intros Hinv (l & Hg & H)%bind_Some. destruct (lk_reader l) as [| | | |nonce|why u|why] eqn:Er; cbv beta zeta in H; try done.
  - simplify_eq. eapply books_inv; try done; [by rewrite Er|by left|by case_match].
  - destruct (li_read io) as [cap [|b bytes]| |text]; simplify_eq; (eapply books_inv; try done; [by rewrite Er|by left]).
  - destruct (FramedStream.next _ _) as [[[m|]|e] d]; simplify_eq; (eapply books_inv; try done; [by rewrite Er|by left|by destruct m..]).
  - destruct (lk_outstanding l =? nonce); simplify_eq.
    + eapply books_inv; try done; [by rewrite Er|by right].
    + eapply books_inv; try done; [by rewrite Er|by left].
  - destruct u as [call|r ops|r].
    1,2: apply bind_Some in H as ([u' p'] & Hu & H); simplify_eq; by eapply reader_updating.
    simplify_eq. eapply books_inv; try done; [by rewrite Er|by left].
Qed.
(** ** Writers *)

(** While the writer runs nothing is lost or torn. *)
Lemma running filters g l :
  link_ok filters g l → quiet (lk_writer l) = false →
  alerts_of (lk_output l) ++ filter encodable (in_hand (lk_writer l) ++ (fi_alert <$> lk_queue l)) =
    filter encodable (lk_accepted l).*1.*1 ∧
  lk_wire l = concat (frame <$> lk_output l) ∧
  ∃ rest, lk_output l = hello :: rest ∧ Forall said rest ∧ Forall (λ m, is_ok (Atap.encode limits m) = true) (lk_output l).
Proof.
  intros [H1 H2 (lost & Hf & _ & [->|Hq%stopped_quiet]) (torn & Hw & [->|[Hq2 _]]) H5 H6 H7] Hn; try congruence.
  split; [done|]. split; [by rewrite app_nil_r in Hw|]. unfold shaped in H5.
  destruct (lk_output l) as [|m rest]; [by rewrite H5 in Hn|]. destruct H5 as (-> & H5 & H8). eauto.
Qed.
Lemma link_moved filters g l l' :
  link_ok filters g l → quiet (lk_writer l) = false →
  lk_output l' = lk_output l → lk_wire l' = lk_wire l → lk_accepted l' = lk_accepted l →
  filter encodable (in_hand (lk_writer l') ++ (fi_alert <$> lk_queue l')) =
    filter encodable (in_hand (lk_writer l) ++ (fi_alert <$> lk_queue l)) →
  Forall (λ item, fi_generation item = g ∧ known (fi_alert item)) (lk_queue l') →
  nonce_ok (wl_next_nonce (lk_locals l')) →
  match lk_writer l' with WtSend item => known (fi_alert item) | WtBeat n => nonce_ok n | _ => True end →
  link_ok filters g l'.
Proof.
  intros Hl Hn Eo Ew Ea Ef Hq Hnonce Hpc. destruct (running _ _ _ Hl Hn) as (Hf & Hw & rest & Hr & Hs & He).
  split; try done.
  - rewrite Ea. apply Hl.
  - exists []. rewrite Eo, Ea. cbn [app]. rewrite Ef. split; [done|]. split; [cbn; lia|by left].
  - exists []. rewrite Eo, Ew, app_nil_r. split; [done|by left].
  - unfold shaped. rewrite Eo, Hr in *. done.
Qed.
Lemma link_wrote filters g l l' m :
  link_ok filters g l → quiet (lk_writer l) = false → said m → is_ok (Atap.encode limits m) = true →
  lk_output l' = lk_output l ++ [m] → lk_wire l' = lk_wire l ++ frame m → lk_accepted l' = lk_accepted l →
  alerts_of [m] = in_hand (lk_writer l) → in_hand (lk_writer l') = [] → lk_queue l' = lk_queue l → lk_locals l' = lk_locals l →
  match lk_writer l' with WtSend item => known (fi_alert item) | WtBeat n => nonce_ok n | _ => True end →
  link_ok filters g l'.
Proof.
  intros Hl Hn Hsaid Henc Eo Ew Ea Em Eh Eq El Hpc. destruct (running _ _ _ Hl Hn) as (Hf & Hw & rest & Hr & Hs & He).
  split; try done.
  - rewrite Eq. apply Hl.
  - rewrite Ea. apply Hl.
  - exists []. rewrite Eo, Ea, Eh, Eq. cbn [app]. split; [|split; [cbn; lia|by left]].
    rewrite <-Hf, forwarded_app, Em, filter_app, <-!app_assoc. f_equal. f_equal.
    destruct m; try (by cbn in Em; rewrite <-Em). cbn in Em. rewrite <-Em. rewrite filter_cons_True by done. done.
  - exists []. rewrite Eo, Ew, Hw, fmap_app, concat_app, app_nil_r. cbn. rewrite app_nil_r. split; [done|by left].
  - unfold shaped. rewrite Hr in He. rewrite Eo, Hr. cbn [app]. split; [done|].
    split; [by apply Forall_app_2; [|apply Forall_singleton]|].
    apply (Forall_app_2 _ (hello :: rest)); [done|by apply Forall_singleton].
  - rewrite El. apply Hl.
Qed.
Lemma link_torn filters g l l' m bs k :
  link_ok filters g l → quiet (lk_writer l) = false → said m → Atap.encode limits m = Ok bs → (k < length bs)%nat →
  lk_output l' = lk_output l → lk_wire l' = lk_wire l ++ take k bs → lk_accepted l' = lk_accepted l →
  stopped (lk_writer l') = true → in_hand (lk_writer l') = [] → lk_queue l' = lk_queue l → lk_locals l' = lk_locals l →
  match lk_writer l' with WtSend item => known (fi_alert item) | WtBeat n => nonce_ok n | _ => True end →
  link_ok filters g l'.
Proof.
  intros Hl Hn Hsaid Henc Hk Eo Ew Ea Hq Eh Eq El Hpc. destruct (running _ _ _ Hl Hn) as (Hf & Hw & rest & Hr & Hs & He).
  split; try done.
  - rewrite Eq. apply Hl.
  - rewrite Ea. apply Hl.
  - exists (in_hand (lk_writer l)). rewrite Eo, Ea, Eh, Eq. split; [done|]. split; [destruct (lk_writer l); cbn; lia|by right].
  - exists (take k bs). rewrite Eo, Ew, Hw. split; [done|]. right. split; [by apply stopped_quiet|]. exists m, (drop k bs).
    rewrite take_drop. split; [by right|]. split; [|done]. intros Hd%(f_equal length). rewrite length_drop in Hd. cbn in Hd. lia.
  - unfold shaped. rewrite Eo, Hr in *. done.
  - rewrite El. apply Hl.
Qed.
Lemma writer_to st g l l' :
  inv st → fs_links st !! g = Some l → lk_writer l ≠ WtNone → link_ok (pg_filters (fs_plugin st)) g l' →
  lk_reader l' = lk_reader l → runs (writer_update (lk_writer l')) = None → inv (set_link g l' st).
Proof.
  intros (Hl & Hf & Hr) Hg Hw Hok Er Hru. split; [|split; [done|]].
  - eapply lock_meddled; [done| |done]. eapply fewer_link; [done|by right|by left].
  - eapply rest_link; [done..|]. intros t pc _ _ [[? _] _]. done.
Qed.
Lemma next_nonce_ok n : nonce_ok (Z.max (wrapping_add_u64 n 1) 1).
Proof. unfold nonce_ok, wrapping_add_u64, u64_max. pose proof (Z.mod_pos_bound (n + 1) (2 ^ 64)). lia. Qed.
Lemma encoded_frame m : is_ok (Atap.encode limits m) = true → Atap.encode limits m = Ok (frame m).
Proof. unfold frame. by destruct (Atap.encode limits m). Qed.
(** A message is written, or the write fails and the thread stops. *)
Lemma writer_writes filters g l m io l1 ok pc :
  link_ok filters g l → quiet (lk_writer l) = false → said m → is_ok (Atap.encode limits m) = true →
  alerts_of [m] = in_hand (lk_writer l) → write_message limits m io l = (ok, l1) → pc = WtDeadline ∨ pc = WtActive →
  link_ok filters g (writer_at (if ok then pc else WtUpdate (disabling g)) l1) ∧ lk_reader l1 = lk_reader l.
Proof.
  intros Hl Hn Hs He Hh Hw Hpc. apply encoded_frame in He as Ef. unfold write_message in Hw. rewrite Ef in Hw.
  assert (0 < length (frame m))%nat as Hpos.
  { apply result_bind_inv in Ef as ([code payload] & _ & [_ ->]%AtapFacts.encode_frame_Ok). unfold AtapFacts.frame_of.
    rewrite length_app, AtapFacts.header_bytes_length. unfold ATAP_HEADER_BYTES. lia. }
  destruct (li_fail io); simplify_eq; (split; [|done]).
  - eapply (link_torn _ _ l _ m (frame m) (Nat.min (li_torn io) (length (frame m) - 1))); try done; [lia|apply app_nil_r].
  - eapply (link_wrote _ _ l _ m); try done; by destruct Hpc as [->| ->].
Qed.
(** Once the writer is about to end it stays so. *)
Lemma quiet_moved filters g l l' :
  link_ok filters g l → stopped (lk_writer l) = true → stopped (lk_writer l') = true →
  lk_queue l' = lk_queue l → lk_locals l' = lk_locals l → lk_output l' = lk_output l → lk_wire l' = lk_wire l →
  lk_accepted l' = lk_accepted l → link_ok filters g l'.
Proof.
  intros [H1 H2 (lost & Hf & Hlen & _) (torn & Hw & Ht) H5 H6 H7] Hq Hq' Eq El Eo Ew Ea.
  assert (in_hand (lk_writer l') = in_hand (lk_writer l)) as Eh by (by destruct (lk_writer l), (lk_writer l')).
  unfold shaped in H5. destruct (lk_output l) as [|m rest] eqn:Eout; [by rewrite H5 in Hq|].
  split; unfold shaped, torn_ok; rewrite ?Eq, ?El, ?Eo, ?Ew, ?Ea, ?Eh; try done.
  - exists lost. split; [done|]. split; [done|by right].
  - exists torn. split; [done|]. destruct Ht as [->|[_ (m' & q & Hm & Hq2 & He)]]; [by left|].
    rewrite Eout in Hm. right. split; [by apply stopped_quiet|]. eauto.
  - by destruct (lk_writer l').
Qed.
Lemma writer_updating st g l u io u' p' :
  inv st → fs_links st !! g = Some l → lk_writer l = WtUpdate u → update_step u io (fs_plugin st) = Some (u', p') →
  inv (set_link g (writer_at (WtUpdate u') l) (set_plugin p' st)).
Proof.
  intros Hinv Hg Ew Hu. eapply (plugin_updated_inv _ _ (InWriter g)); [done| |exact Hu|done| | |].
  - cbn. rewrite Hg. cbn. by rewrite Ew.
  - cbn. by rewrite lookup_insert_eq.
  - intros [k|k|t] Hne; cbn; [| |done];
      (destruct (decide (k = g)) as [->|Hk]; [|by rewrite lookup_insert_ne]); [|done]. by rewrite lookup_insert_eq, Hg.
  - intros filters latest Hr. eapply rest_link; [done|done| |].
    + pose proof (proj1 (ro_link _ _ _ _ _ Hr _ _ Hg)). eapply (quiet_moved _ _ l); try done; by rewrite Ew.
    + intros t pc _ _ [[Hw _] _]. by rewrite Ew in Hw.
Qed.
Lemma writer_inv g io st st' : inv st → writer_step config limits g io st = Some st' → inv st'.
Proof.
  intros Hinv (l & Hg & H)%bind_Some. pose proof Hinv as (_ & _ & Hr). pose proof (proj1 (ro_link _ _ _ _ _ Hr _ _ Hg)) as Hl.
  pose proof (lo_nonce _ _ _ Hl) as Hnonce. pose proof (lo_pc _ _ _ Hl) as Hpc.
  assert (∀ pc w z, quiet (lk_writer l) = false → filter encodable (in_hand pc) = filter encodable (in_hand (lk_writer l)) →
    nonce_ok (wl_next_nonce w) → match pc with WtSend item => known (fi_alert item) | WtBeat n => nonce_ok n | _ => True end →
    runs (writer_update pc) = None → inv (set_link g (writer_at pc (set_outstanding z (set_locals w l))) st)) as Hto.
  { intros pc w z Hn Hh Hw Hpc' Hru. eapply writer_to; try done; [by intros E; rewrite E in Hn|].
    eapply (link_moved _ _ l); try done; [|apply Hl]. cbn [writer_at set_outstanding set_locals lk_writer lk_queue]. by rewrite !filter_app, Hh. }
  assert (∀ pc w, writer_at pc (set_locals w l) = writer_at pc (set_outstanding (lk_outstanding l) (set_locals w l))) as E1 by done.
  assert (∀ pc, writer_at pc l = writer_at pc (set_outstanding (lk_outstanding l) (set_locals (lk_locals l) l))) as E2
    by (by destruct l as [????????????]).
  destruct (lk_writer l) as [| | | |now deadline| |nonce| | |item| |u|] eqn:Ew; cbv beta zeta in H; try done.
  - destruct (instant_add _ _); simplify_eq; rewrite ?E1, ?E2; apply Hto; done.
  - simplify_eq. rewrite E2. by destruct (is_active_generation _ _); apply Hto.
  - simplify_eq. rewrite E2. destruct (wl_deadline _); [by apply Hto|]. by destruct (_ <=? _); apply Hto.
  - destruct (lk_outstanding l =? 0); [destruct (instant_add _ _)|]; simplify_eq; rewrite ?E1, ?E2; [by apply Hto..|].
    by destruct (_ <=? _); apply Hto.
  - simplify_eq. apply Hto; try done. apply next_nonce_ok.
  - destruct (write_message limits (AHeartbeat nonce) io l) as [ok l1] eqn:Ewr. simplify_eq.
    destruct (Atap.encode limits (AHeartbeat nonce)) as [bs|e] eqn:Ee.
    + eapply (writer_writes _ g l _ io l1 ok WtDeadline) in Ewr as [Hok Erd]; try (by rewrite ?Ew); [|by rewrite Ee|by left].
      eapply writer_to; try done; [by rewrite Ew|by destruct ok].
    + unfold write_message in Ewr. rewrite Ee in Ewr. simplify_eq. rewrite E2. by apply Hto.
  - destruct (instant_add _ _); simplify_eq; rewrite ?E1, ?E2; apply Hto; done.
  - destruct (lk_queue l) as [|item rest] eqn:Eq.
    + destruct (_ || _); simplify_eq; rewrite E2; by apply Hto.
    + pose proof (lo_items _ _ _ Hl) as Hit. rewrite Eq in Hit. apply Forall_cons in Hit as [[Eg Hk] Hit].
      rewrite Eg, Z.eqb_refl in H. simplify_eq. eapply writer_to; try done; [by rewrite Ew|].
      eapply (link_moved _ _ l); try done; [by rewrite Ew|]. cbn. rewrite Ew, Eq. done.
  - destruct (Atap.encode limits (AForwardAlert (fi_alert item))) as [bs|e] eqn:Ee.
    + destruct (write_message _ _ io l) as [ok l1] eqn:Ewr. simplify_eq.
      eapply (writer_writes _ g l _ io l1 ok WtActive) in Ewr as [Hok Erd]; try (by rewrite ?Ew); [|by rewrite Ee|by right].
      eapply writer_to; try done; [by rewrite Ew|by destruct ok].
    + simplify_eq. rewrite E2. apply Hto; try done. cbn [in_hand]. rewrite filter_cons_False; [done|]. unfold encodable. by rewrite Ee.
  - simplify_eq. assert (inv (set_plugin (count_dropped (fs_plugin st)) st)) as Hinv'.
    { destruct Hinv as (H1 & H2 & H3). split; [|done]. eapply lock_meddled; [done|by apply fewer_same|]. by split; [split|]. }
    eapply writer_to; try done; [by rewrite Ew|]. eapply (link_moved _ _ l); try done; [by rewrite Ew| |apply Hl].
    cbn. by rewrite Ew.
  - destruct u as [call|r ops|r].
    1,2: apply bind_Some in H as ([u' p'] & Hu & H); simplify_eq; by eapply writer_updating.
    simplify_eq. eapply writer_to; try done; [by rewrite Ew|]. eapply (quiet_moved _ _ l); try done; by rewrite Ew.
Qed.
(** ** Control threads *)

Lemma lifecycle_inv b st : inv st → inv (set_lifecycle b st).
Proof. intros (Hl & Hf & Hr). split; [by eapply lock_meddled; [done|apply fewer_same|]|done]. Qed.
Lemma control_to t pc' st : inv st → runs (control_update pc') = None → control_gen pc' = None → inv (set_control t pc' st).
Proof.
  intros (Hl & Hf & Hr) Hru Hg. split; [eapply lock_meddled; [done|by apply fewer_control|done]|].
  split; [done|]. by apply rest_control_none.
Qed.
Lemma control_next t pc pc' g st :
  inv st → fs_controls st !! t = Some pc → control_gen pc = Some g → control_gen pc' = Some g →
  runs (control_update pc') = None → (∀ l, phase pc l → phase pc' l) → inv (set_control t pc' st).
Proof.
  intros (Hl & Hf & Hr) Ht Hg Hg' Hru Hph. split; [eapply lock_meddled; [done|by apply fewer_control|done]|].
  split; [done|]. eapply rest_control; [done..|]. intros k Hk. assert (k = g) as -> by congruence. split; [done|].
  destruct (ro_phase _ _ _ _ _ Hr _ _ _ Ht Hg) as (l & ? & ?). eauto.
Qed.
Lemma control_setup t pc pc' g l' st :
  inv st → fs_controls st !! t = Some pc → control_gen pc = Some g → link_ok (pg_filters (fs_plugin st)) g l' →
  runs (reader_update (lk_reader l')) = None ∨ (∀ l, fs_links st !! g = Some l → lk_reader l' = lk_reader l) →
  runs (writer_update (lk_writer l')) = None →
  runs (control_update pc') = None → (control_gen pc' = None ∨ control_gen pc' = Some g ∧ phase pc' l') →
  inv (set_control t pc' (set_link g l' st)).
Proof.
  intros (Hl & Hf & Hr) Ht Hg Hok H1 H2 H3 Hpc. split; [|split; [done|by eapply rest_setup]].
  eapply lock_meddled; [done| |done]. eapply fewer_trans; [|by apply fewer_control].
  destruct (ro_phase _ _ _ _ _ Hr _ _ _ Ht Hg) as (l & Hl' & _).
  eapply fewer_link; [done| |by left]. destruct H1 as [?|H1]; [by left|right; by apply H1].
Qed.
Lemma control_updating t pc u io u' p' f st :
  inv st → fs_controls st !! t = Some pc → pc = f u → (∀ u, control_update (f u) = Some u) →
  (∀ u u', control_gen (f u) = control_gen (f u') ∧ ∀ l, phase (f u) l → phase (f u') l) →
  update_step u io (fs_plugin st) = Some (u', p') → inv (set_control t (f u') (set_plugin p' st)).
Proof.
  intros Hinv Ht -> Hf Hg Hu. eapply (plugin_updated_inv _ _ (InControl t)); [done| |exact Hu|done| | |].
  - cbn. rewrite Ht. apply Hf.
  - cbn. rewrite lookup_insert_eq. apply Hf.
  - intros [k|k|k] Hne; cbn; [done..|]. rewrite lookup_insert_ne; [done|]. congruence.
  - intros filters latest Hr. eapply rest_control; [done..|]. intros g E. destruct (Hg u u') as [Eg Hph].
    rewrite Eg. split; [done|]. rewrite <-Eg in E. destruct (ro_phase _ _ _ _ _ Hr _ _ _ Ht E) as (l & ? & ?). eauto.
Qed.
Lemma control_inv t call st st' : inv st → control_step t call st = Some st' → inv st'.
Proof.
  intros Hinv H. unfold control_step in H.
  assert (∃ pc', st' = set_control t pc' st ∧ runs (control_update pc') = None ∧ control_gen pc' = None) as (pc' & -> & ? & ?).
  { repeat case_match; simplify_eq; eauto. }
  by apply control_to.
Qed.
Lemma ensured_inv t raw st : inv st → inv (ensured t raw st).
Proof. intros H. apply control_to; [by apply lifecycle_inv|by destruct raw..]. Qed.
Lemma not_ensured_inv t e st : inv st → inv (not_ensured t e st).
Proof. intros H. by apply control_to; [apply lifecycle_inv|..]. Qed.
(** The connection is given up before it is used. *)
Lemma given_up t pc g e l l' st :
  inv st → fs_controls st !! t = Some pc → control_gen pc = Some g → fs_links st !! g = Some l →
  runs (reader_update (lk_reader l')) = None → link_ok (pg_filters (fs_plugin st)) g l' → lk_writer l' = WtNone →
  inv (not_ensured t e (set_link g (drop_receiver l') st)).
Proof.
  intros Hinv Ht Hg Hl Hr Hok Hw. change (inv (set_lifecycle false (set_control t (CtDone (Err e)) (set_link g (drop_receiver l') st)))).
  apply lifecycle_inv. eapply control_setup; try done; [by apply (books_ok _ _ l')|by left|by cbn; rewrite Hw|by left].
Qed.
Lemma next_none d d' :
  WireFacts.decoder_ok d → FramedStream.next (atap_format (J:=J) limits) d = (Ok None, d') →
  WireFacts.decoder_ok d' ∧ WireFacts.pending d' = WireFacts.pending d.
Proof.
  intros Hd Hn. pose proof (StreamFacts.next_refines (atap_format (J:=J) limits) d Hd) as Hnr. rewrite Hn in Hnr.
  destruct Hnr as [Hd' E]. split; [done|]. unfold StreamFacts.next_of in E. repeat (case_match; simplify_eq); done.
Qed.
(** The hello is the first thing on the wire. *)
Lemma hello_written filters g l io ok l1 :
  link_ok filters g l → lk_writer l = WtNone → lk_output l = [] → lk_wire l = [] →
  write_message limits hello io l = (ok, l1) →
  link_ok filters g l1 ∧ lk_writer l1 = WtNone ∧ lk_reader l1 = lk_reader l ∧
  (ok = true → lk_output l1 = [hello] ∧ lk_wire l1 = frame hello ∧ lk_outstanding l1 = lk_outstanding l ∧
     lk_locals l1 = lk_locals l ∧ lk_decoder l1 = lk_decoder l ∧ lk_input l1 = lk_input l ∧ lk_messages l1 = lk_messages l).
Proof.
  intros Hl Hw Ho Hwire. pose proof Hl as [H1 H2 (lost & Hf & Hlen & Hq) H4 H5 H6 H7]. unfold write_message.
  destruct (Atap.encode limits hello) as [bs|e] eqn:Ee; [|by intros [= <- <-]; split; [|split; [|split]]].
  assert (0 < length bs)%nat as Hpos.
  { apply result_bind_inv in Ee as ([code payload] & _ & [_ ->]%AtapFacts.encode_frame_Ok). unfold AtapFacts.frame_of.
    rewrite length_app, AtapFacts.header_bytes_length. unfold ATAP_HEADER_BYTES. lia. }
  assert (frame hello = bs) as Ef by (unfold frame; by rewrite Ee).
  destruct (li_fail io) as [text|]; intros [= <- <-]; (split; [|split; [|split]]); try done.
  - split; try done; cbn [wrote lk_output lk_wire lk_writer lk_queue lk_accepted]; rewrite ?app_nil_r.
    + exists lost. done.
    + exists (take (Nat.min (li_torn io) (length bs - 1)) bs). rewrite Ho, Hwire. split; [done|]. right.
      cbn [wrote lk_writer lk_output]. rewrite Hw, Ho. split; [done|].
      exists hello, (drop (Nat.min (li_torn io) (length bs - 1)) bs). rewrite take_drop. split; [by left|]. split; [|done].
      intros Hd%(f_equal length). rewrite length_drop in Hd. cbn in Hd. lia.
    + unfold shaped. cbn. by rewrite Ho.
  - split; try done; cbn [wrote lk_output lk_wire lk_writer lk_queue lk_accepted].
    + exists lost. rewrite forwarded_app. cbn. rewrite app_nil_r. done.
    + exists []. rewrite Ho, Hwire, app_nil_r. cbn. rewrite Ef, app_nil_r. split; [done|by left].
    + unfold shaped. cbn [wrote lk_output lk_writer]. rewrite Ho. cbn. split; [done|]. split; [done|].
      apply Forall_singleton. by rewrite Ee.
  - intros _. cbn. rewrite Ho, Hwire. done.
Qed.

Lemma controller_inv t io st st' : inv st → controller_step config limits t io st = Some st' → inv st'.
Proof.
  intros Hinv (pc & Ht & H)%bind_Some. pose proof Hinv as (_ & _ & Hr).
  assert (∀ g l, control_gen pc = Some g → fs_links st !! g = Some l → phase pc l ∧ link_ok (pg_filters (fs_plugin st)) g l) as Hph.
  { intros g l Hg Hl. destruct (ro_phase _ _ _ _ _ Hr _ _ _ Ht Hg) as (l2 & ? & ?). simplify_eq. split; [done|]. by eapply ro_link. }
  destruct pc as [raw| |raw|raw|raw|raw|raw g|raw g d|raw g|raw g u|raw g|raw g|g e u|u|r]; cbv beta zeta in H; try done.
  - simplify_eq. by case_match; apply control_to.
  - simplify_eq. by case_match; apply control_to.
  - destruct (fs_lifecycle st); simplify_eq. by apply control_to; [apply lifecycle_inv|..].
  - destruct (_ =? _); simplify_eq; [by apply control_to|by apply ensured_inv].
  - destruct (li_fail io); simplify_eq; [by apply not_ensured_inv|by apply control_to].
  - unfold next_generation in H. destruct (checked_add_u64 _ 1) as [g|] eqn:Eg; simplify_eq.
    + apply checked_add_u64_Some in Eg as [-> _]. destruct Hinv as (H1 & H2 & H3). split; [|split; [done|]].
      * eapply (lock_meddled st); [done| |by split; [split|]]. eapply fewer_trans; [|by apply fewer_control].
        set (g := pg_latest_generation _ + 1). intros x ops [r E]. exists r. destruct x as [k|k|k]; cbn in E |- *; [..|done];
          (destruct (decide (k = g)) as [->|Hne]; [by rewrite lookup_insert_eq in E|by rewrite lookup_insert_ne in E by done]).
      * cbn. eapply rest_new; [done|lia].
    + apply not_ensured_inv. by destruct st.
  - apply bind_Some in H as (l & Hl & H). destruct (Hph g l eq_refl Hl) as [[[Hw [Ho Hloc]] [[Hrd Hd] (Hout & Hwi & Hin & Hms)]] Hok].
    destruct (write_message limits _ io l) as [ok l1] eqn:Ewr.
    eapply hello_written in Ewr as (Hok1 & Hw1 & Hr1 & Hrest); [|done..].
    destruct ok; simplify_eq.
    + destruct (Hrest eq_refl) as (E1 & E2 & E3 & E4 & E5 & E6 & E7).
      eapply control_setup; try done; [left; by rewrite Hr1, Hrd|by rewrite Hw1|]. right. split; [done|].
      split; [unfold fresh_link; splits; congruence|]. split; [unfold unread; split; congruence|]. split; [done|].
      split; [unfold WireFacts.decoder_ok; cbn; lia|]. by rewrite E6, Hin, E7.
    + eapply given_up; try done. by rewrite Hr1, Hrd.
  - apply bind_Some in H as (l & Hl & H). simplify_eq.
    destruct (Hph g l eq_refl Hl) as [[[Hw [Ho Hloc]] [[Hrd Hd] (Hgr & Hdo & Hin & Hms)]] Hok]. unfold read_welcome.
    assert (∀ bytes ms, link_ok (pg_filters (fs_plugin st)) g (got bytes ms l)) as Hok' by (intros; by apply (books_ok _ _ l)).
    destruct (li_read io) as [cap [|b bytes]| |text]; try (eapply given_up; try done; by rewrite Hrd).
    destruct (WireFacts.push_refines cap (b :: bytes) d Hdo) as [Hdo1 Hp1]. cbv zeta.
    destruct (FramedStream.next _ _) as [r d2] eqn:En.
    destruct r as [[m|]|e]; [destruct m| |]; cbn [got lk_writer]; try (eapply given_up; try done; cbn; by rewrite Hrd).
    + eapply control_setup; try done; [left; by cbn; rewrite Hrd|by cbn; rewrite Hw|]. right. split; [done|].
      split; [done|]. split; [done|]. split; [done|]. cbn. by rewrite Hms.
    + eapply control_setup; try done; [left; by cbn; rewrite Hrd|by cbn; rewrite Hw|]. right. split; [done|].
      split; [done|]. split; [done|]. split; [done|].
      destruct (next_none _ _ Hdo1 En) as [Hd2 Hp2]. split; [done|]. cbn. rewrite Hp2, Hp1, Hin. by rewrite app_nil_r.
  - apply bind_Some in H as (l & Hl & H). destruct (Hph g l eq_refl Hl) as [[[Hw _] [[Hrd _] _]] Hok].
    destruct (li_fail io); simplify_eq.
    + eapply given_up; try done. by rewrite Hrd.
    + by eapply control_next.
  - destruct u as [call|r ops|[| |e]].
    1,2: apply bind_Some in H as ([u' p'] & Hu & H); simplify_eq;
      by eapply (control_updating t _ _ _ _ _ (CtActivate raw g)).
    { simplify_eq. by eapply control_next. }
    all: apply bind_Some in H as (l & Hl & H); destruct (Hph g l eq_refl Hl) as [[[Hw _] [[Hrd _] _]] Hok]; simplify_eq;
      eapply given_up; try done; by rewrite Hrd.
  - apply bind_Some in H as (l & Hl & H). destruct (Hph g l eq_refl Hl) as [[[Hw Hfr] [[Hrd Hd] (Hgr & Hms)]] Hok].
    assert (∀ l', books l' = books l → link_ok (pg_filters (fs_plugin st)) g l') as Hb by (intros; by apply (books_ok _ _ l)).
    destruct (li_fail io); simplify_eq; eapply control_setup; try done; try (by apply Hb);
      try (by left; cbn; rewrite ?Hrd); try (by cbn; rewrite Hw).
    by right.
  - apply bind_Some in H as (l & Hl & H). destruct (Hph g l eq_refl Hl) as [[[Hw Hfr] [Hout Hwire]] Hok].
    destruct (li_fail io); simplify_eq.
    + eapply control_setup; try done; [by apply (books_ok _ _ l)|right; by intros; simplify_eq|by cbn; rewrite Hw|by left].
    + apply (lifecycle_inv false (set_control t (match raw with Some raw => CtUpdate (UpWait (CallUpdateConfig raw)) | None => CtDone (Ok ()) end)
        (set_link g (writer_at WtStart l) st))).
      eapply control_setup; try done; [|right; by intros; simplify_eq|by destruct raw|left; by destruct raw].
      destruct Hok as [H1 H2 (lost & Hf & Hlen & [->|Hq]) (torn & Hwi & Htorn) H5 H6 H7]; [|by rewrite Hw in Hq].
      rewrite Hw in *. split; try done.
      * exists []. split; [done|]. split; [done|by left].
      * exists []. cbn. rewrite Hout, Hwire. cbn. rewrite !app_nil_r. split; [done|by left].
      * unfold shaped in *. cbn. by rewrite Hout in *.
  - destruct u as [call|r ops|r].
    1,2: apply bind_Some in H as ([u' p'] & Hu & H); simplify_eq;
      by eapply (control_updating t _ _ _ _ _ (CtAbandon g e)).
    simplify_eq. by apply not_ensured_inv.
  - destruct u as [call|r ops|r].
    1,2: apply bind_Some in H as ([u' p'] & Hu & H); simplify_eq; by eapply (control_updating t _ _ _ _ _ CtUpdate).
    simplify_eq. by apply control_to.
Qed.

(** ** Every run *)

Lemma forwarder_step_inv a st st' :
  inv st → (∀ i alert, a = FwPublish i alert → known alert) → step config limits a st = Some st' → inv st'.
Proof.
  intros Hinv Ha. destruct a; cbn [step].
  - apply publish_call_inv; [done|by eapply Ha].
  - by apply publisher_inv.
  - by apply reader_inv.
  - by apply writer_inv.
  - by apply control_inv.
  - by apply controller_inv.
Qed.
Lemma run_inv actions st st' :
  inv st → (∀ i alert, FwPublish i alert ∈ actions → known alert) → run config limits actions st = Some st' → inv st'.
Proof.
  revert st. induction actions as [|a actions IH]; intros st Hinv Ha; cbn [run]; [by intros [= <-]|].
  intros (st1 & H1 & H2)%bind_Some. eapply IH; [|by intros i b Hb; eapply Ha; right|done].
  eapply forwarder_step_inv; [done| |done]. intros i b ->. eapply Ha. left.
Qed.
Lemma start_inv c file p : PluginOps.new c file = Ok p → inv (start p).
Proof.
  unfold PluginOps.new. destruct (ForwardingConfig.validate c) as [[]|] eqn:Ev; [|done]. intros [= <-].
  split; [|split; [done|by split]].
  split.
  - intros [] ops [r E]; done.
  - intros [] y ops ops' [r E]; done.
  - intros _. by split.
Qed.
End forwarder.

Section guarantee.
Context {J : Type} {json : ExtrasJson J} {cj : ConfigJson} (config : ForwardingConfigLimits) (limits : AtapLimits).

(** C11: The daemon forwards what it accepted, in order, and only what a filter let through.
    However publishers, control threads and the threads of the connections interleave, and
    whatever sockets and the file system do: whenever no update of the plugin is under way,
    its flags agree - forwarding is on only while a connection is active and it was asked
    for, and the filter and the request are those of the configuration in force, which is
    valid.  On every connection the alerts written so far, followed by those the writer still
    holds and those queued, are exactly the alerts accepted for this connection, in the order
    of acceptance, less those whose frame would exceed the limits; only when the connection
    breaks is one alert lost besides the queue.  Every accepted alert was published, and its
    category passed a filter that was in force at some moment of its call.  What is written
    is the hello, then alerts and heartbeats. *)
Theorem forwards_in_order c file p actions st :
  PluginOps.new c file = Ok p → run config limits actions (start p) = Some st →
  (pg_update (fs_plugin st) = false → consistent (fs_plugin st)) ∧
  ∀ g l, fs_links st !! g = Some l →
    (∃ lost, alerts_of (lk_output l) ++
       filter (encodable limits) (lost ++ in_hand (lk_writer l) ++ (fi_alert <$> lk_queue l)) =
         filter (encodable limits) (lk_accepted l).*1.*1 ∧
       (length lost ≤ 1)%nat ∧ (lost = [] ∨ stopped (lk_writer l) = true)) ∧
    Forall (λ x, (∃ i, FwPublish i x.1.1 ∈ actions) ∧ passed (pg_filters (fs_plugin st)) x) (lk_accepted l) ∧
    (lk_output l = [] ∨
     ∃ rest, lk_output l = hello config :: rest ∧
       Forall (λ m, match m with AForwardAlert _ | AHeartbeat _ => True | _ => False end) rest).
Proof.
  intros Hnew Hrun.
  destruct (run_inv config limits (λ a, ∃ i, FwPublish i a ∈ actions) actions (start p) st) as (Hl & _ & Hr);
    [by eapply start_inv|eauto|done|].
  split; [apply Hl|]. intros g l Hg. destruct (ro_link _ _ _ _ _ _ _ _ Hr g l Hg) as [[_ H2 H3 _ H5 _ _] _].
  split; [done|]. split; [done|]. unfold shaped in H5. destruct (lk_output l) as [|m rest]; [by left|right].
  destruct H5 as (-> & Hs & _). exists rest. split; [done|]. eapply Forall_impl; [exact Hs|]. by intros [].
Qed.
End guarantee.

(** ** Runs *)

#[local] Existing Instance AtapStreamFacts.w_json.
(** A configuration is written as one word. *)
#[local] Instance w_config_json : ConfigJson := {|
  config_from_str raw := Ok (if String.eqb raw "on" then mkForwardingConfig true true [] else ForwardingConfig.disabled);
  config_to_string c := Ok (if afc_enabled c then "on" else "off");
|}.
Definition w_config : ForwardingConfigLimits := mkForwardingLimits 2 10000 5000 41.
Definition w_limits : AtapLimits := AtapStreamFacts.w_limits.
Definition w_plugin : Plugin :=
  mkPlugin None ForwardingConfig.disabled (Filter.from_config ForwardingConfig.disabled) None false false false 0 0
    (mkCounters 0 0 0 0) [Filter.from_config ForwardingConfig.disabled].
Definition w_io (read : SocketRead) : LinkIo := mkLinkIo read None 0 0 PersistDone.
Definition w_welcome : SocketRead := SockData 64 (AtapStreamFacts.w_frame AProducerWelcome).
(** The configuration is switched on, for which the daemon connects. *)
Definition w_connects : list (ForwarderAction (list byte)) :=
  FwControl 0 (CtlUpdate "on") :: replicate 26 (FwController 0 (w_io w_welcome)).
Definition w_publishes : list (ForwarderAction (list byte)) :=
  FwPublish 0 AtapStreamFacts.w_alert :: replicate 7 (FwPublisher 0) ++ replicate 5 (FwWriter 1 (w_io SockRetry)).
Definition w_after (actions : list (ForwarderAction (list byte))) : ForwarderState (list byte) :=
  default (start w_plugin) (run w_config w_limits actions (start w_plugin)).

Lemma forwards_in_order_witness :
  PluginOps.new ForwardingConfig.disabled None = Ok w_plugin ∧
  (∃ l, fs_links (w_after (w_connects ++ w_publishes)) !! 1 = Some l ∧
     lk_output l = [AProducerHello 41; AForwardAlert AtapStreamFacts.w_alert]) ∧
  consistent (fs_plugin (w_after (w_connects ++ w_publishes))) ∧
  pg_effective_enabled (fs_plugin (w_after (w_connects ++ w_publishes))) = true.
Proof.
  split; [reflexivity|]. split; [eexists; split; vm_compute; reflexivity|].
  split; [|vm_compute; reflexivity].
  exact (proj1 (forwards_in_order w_config w_limits ForwardingConfig.disabled None w_plugin (w_connects ++ w_publishes)
    (w_after (w_connects ++ w_publishes)) ltac:(reflexivity) ltac:(vm_compute; reflexivity)) ltac:(vm_compute; reflexivity)).
Defined.

(** A publisher that found no connection clears the flag late, when the next connection is
    up: forwarding stays off although it was asked for and a connection is active. *)
Definition w_late : list (ForwarderAction (list byte)) :=
  w_connects ++ FwPublish 0 AtapStreamFacts.w_alert :: replicate 4 (FwPublisher 0) ++
  replicate 12 (FwReader 1 (w_io (SockData 0 []))) ++ [FwPublisher 0] ++ w_connects ++ replicate 2 (FwPublisher 0).
Example stale_publisher_disables :
  let p := fs_plugin (w_after w_late) in
  fs_publishers (w_after w_late) !! 0%nat = Some (PbDone SubmitDisconnected) ∧
  fs_controls (w_after w_late) !! 0%nat = Some (CtDone (Ok ())) ∧ pg_update p = false ∧
  pg_requested_enabled p = true ∧ pg_active p = Some 2 ∧ pg_effective_enabled p = false.
Proof. vm_compute. repeat split. Qed.
(** When the directory cannot be synced the update fails, but the file has been replaced:
    after a restart the daemon is configured otherwise than it was. *)
Example failed_update_replaces_file :
  let st := w_after (w_connects ++ FwControl 0 (CtlUpdate "off") ::
              replicate 4 (FwController 0 (mkLinkIo SockRetry None 0 0 (PersistUnsynced "EIO")))) in
  fs_controls st !! 0%nat = Some (CtDone (Err "alert_forwarding")) ∧
  pg_effective_enabled (fs_plugin st) = true ∧ afc_enabled (pg_config (fs_plugin st)) = true ∧
  pg_file (fs_plugin st) = Some "off".
Proof. vm_compute. repeat split. Qed.
End ForwarderFacts.
