(* ===== verification/AlertToProxy.v ===== *)
(** The daemon and the alert proxy on the two ends of one connection: the proxy receives the
    alerts the daemon accepted, and the heartbeats never make the link fail. *)
From stdpp Require Import prelude gmap strings.
From Stdlib Require Import ZArith Lia.
From coqutil Require Import Byte.
From S2P Require Import Prelude Bytes Wire BatchCodec AlertCodec AlertCodecFacts AlertStream AlertProxy AlertProxyIngress AlertForwarding AlertForwardingFacts.

Open Scope Z_scope.

Module ToProxy.
Import ForwarderFacts.

Section to_proxy.
Context {J : Type} {json : ProxyJson J} {ct : ConstantTimeEq} {cj : ConfigJson}.
Context (config : ForwardingConfigLimits) (limits : AtapLimits) (ingress : DaemonIngressConfig) (subscriber : SubscriberConfig).
Implicit Types (l : Link J) (p : Producer J) (D : ForwarderState J) (P : ProxyState J) (m : AtapMessage J).

Abbreviation F := (atap_format (J:=J) limits).
Abbreviation carries := (StreamFacts.carries F).
Abbreviation begins := (StreamFacts.begins F).
Abbreviation pending := WireFacts.pending.
Definition decodes m (f : list byte) : Prop := Atap.decode limits f = Ok m.

(** ** Frames on a wire *)

Lemma header_pos : (0 < ff_header F)%nat.
Proof. cbn. unfold ATAP_HEADER_BYTES. lia. Qed.
Lemma decoded_carries m f : decodes m f → carries m f.
Proof.
  unfold decodes. intros Hd. pose proof Hd as Hd'. unfold Atap.decode in Hd'.
  case_bool_decide as Hshort; [done|]. split; [cbn; lia|].
  destruct (Atap.frame_length limits (take ATAP_HEADER_BYTES f)) as [n|e] eqn:Ef; [|done]. cbn in Hd'.
  destruct (Z.eqb_spec (Z.of_nat (length f)) n) as [<-|]; [|done]. split; [exact Ef|exact Hd].
Qed.
Lemma begins_none b : begins b → StreamFacts.next_of F b = (Ok None, b).
Proof. intros Hb. apply (StreamFacts.next_of_begin F header_pos b b []); [done|by rewrite app_nil_r]. Qed.
(** Frames read from a wire are, one by one, the frames written to it. *)
Lemma frames_agree ms frames pend msgs rest :
  Forall2 decodes ms frames → Forall (λ m, carries m (frame limits m)) msgs → begins rest →
  (concat frames ++ pend) `prefix_of` (concat (frame limits <$> msgs) ++ rest) →
  ∃ msgs', msgs = ms ++ msgs' ∧ pend `prefix_of` (concat (frame limits <$> msgs') ++ rest).
Proof.
  intros Hms. revert msgs. induction Hms as [|m f ms frames Hm Hms IH]; intros msgs Hc Hb Hp; [by exists msgs|].
  apply decoded_carries in Hm. destruct Hp as [more E]. cbn [concat] in E. rewrite <-!app_assoc in E.
  destruct msgs as [|m0 msgs].
  - cbn in E. pose proof (begins_none rest Hb) as Hn. rewrite E in Hn. by rewrite (StreamFacts.next_of_carried F m f _ Hm) in Hn.
  - apply Forall_cons in Hc as [H0 Hc]. cbn in E. rewrite <-!app_assoc in E.
    pose proof (StreamFacts.next_of_carried F m0 _ (concat (frame limits <$> msgs) ++ rest) H0) as E0.
    cbn in E0. rewrite E in E0. rewrite (StreamFacts.next_of_carried F m f _ Hm) in E0. injection E0 as -> E0.
    destruct (IH msgs Hc Hb) as (msgs' & -> & Hpend); [exists more; by rewrite <-E0, <-app_assoc|]. by exists msgs'.
Qed.
(** A decoder whose bytes came from such a wire never fails. *)
Lemma next_fine d msgs rest :
  WireFacts.decoder_ok d → Forall (λ m, carries m (frame limits m)) msgs → begins rest →
  pending d `prefix_of` (concat (frame limits <$> msgs) ++ rest) → ∃ o d', FramedStream.next F d = (Ok o, d').
Proof.
  intros Hd Hc Hb [more E].
  destruct (StreamFacts.next_cases F header_pos d ((λ m, (m, frame limits m)) <$> msgs) more rest) as (o & d' & Hn & _);
    [done| |done| |eauto].
  - by apply Forall_fmap.
  - rewrite <-list_fmap_compose. symmetry. exact E.
Qed.

(** ** What the proxy answers *)

Definition beats (ms : list (AtapMessage J)) : list Z := omap (λ m, match m with AHeartbeat n => Some n | _ => None end) ms.
Definition acks (ns : list Z) : list (AtapMessage J) := AHeartbeatAck <$> ns.
#[local] Arguments beats : simpl never.
#[local] Arguments acks : simpl never.
Lemma beats_app ms ms' : beats (ms ++ ms') = beats ms ++ beats ms'.
Proof. apply omap_app. Qed.
Lemma beats_prefix ms ms' : ms `prefix_of` ms' → beats ms `prefix_of` beats ms'.
Proof. intros [k ->]. rewrite beats_app. by eexists. Qed.
Definition answers p : Prop :=
  Forall (λ m, is_ok (Atap.encode limits m) = true) (pr_output p) ∧
  match pr_pc p with
  | PrHello | PrReady | PrStopping | PrClaim | PrWelcome => beats (pr_messages p) = [] ∧ pr_output p = []
  | PrReject code => TextFacts.text code ∧ pr_output p = []
  | PrLoop | PrRead => pr_output p = AProducerWelcome :: acks (beats (pr_messages p))
  | PrHandle m => ∃ ms, pr_messages p = ms ++ [m] ∧ pr_output p = AProducerWelcome :: acks (beats ms)
  | PrDrop _ | PrDone _ =>
      pr_output p = [] ∨ (∃ code, TextFacts.text code ∧ pr_output p = [AProducerReject code]) ∨
      ∃ ms, ms `prefix_of` pr_messages p ∧ pr_output p = AProducerWelcome :: acks (beats ms)
  end.
Definition producer_fine p : Prop := pr_limits p = limits ∧ answers p.
Lemma write_message_output m io p r p' :
  pr_limits p = limits → Proxy.write_message m io p = (r, p') →
  pr_limits p' = limits ∧ pr_messages p' = pr_messages p ∧
  (r = Ok () ∧ pr_output p' = pr_output p ++ [m] ∧ is_ok (Atap.encode limits m) = true ∨
   (∃ e, r = Err e) ∧ pr_output p' = pr_output p).
Proof.
  intros Hl. unfold Proxy.write_message. rewrite Hl. destruct (Atap.encode limits m) eqn:E; [|intros [= <- <-]; eauto 6].
  destruct (io_fail io); intros [= <- <-]; eauto 6.
Qed.
Lemma read_available_output io p r p' :
  Proxy.read_available io p = (r, p') →
  pr_limits p' = pr_limits p ∧ pr_output p' = pr_output p ∧
  pr_messages p' = pr_messages p ++ match r with Ok (Some m) => [m] | _ => [] end.
Proof. unfold Proxy.read_available. destruct (Sock.read_message _ _ _ _ _) as [[r0 b] d]. by intros [= <- <-]. Qed.

Definition all_fine P : Prop := ∀ i p, px_producers P !! i = Some p → producer_fine p.
Lemma set_fine i p P : all_fine P → producer_fine p → all_fine (Proxy.set_producer i p P).
Proof. intros H Hp j q Hj. cbn in Hj. apply lookup_insert_Some in Hj as [[<- <-]|[_ Hq]]; [done|by eapply H]. Qed.
Lemma published_fine a P : all_fine P → all_fine (Proxy.try_publish subscriber a P).
Proof. intros H. unfold Proxy.try_publish. by repeat case_match. Qed.
Lemma producer_step_fine i io P P' : all_fine P → Proxy.producer_step ingress subscriber i io P = Some P' → all_fine P'.
Proof.
  intros HP (p & Hi & H)%bind_Some. destruct (HP i p Hi) as [Hl [He Ha]].
  destruct (pr_pc p) as [| | | |code| | | |m|r|r] eqn:Epc; cbv beta zeta in H.
  - destruct (Proxy.read_available io p) as [r p'] eqn:Er. destruct (read_available_output _ _ _ _ Er) as (El & Eo & Em).
    injection H as <-. destruct Ha as [Hb Ho]. apply set_fine; [done|]. split; [cbn; congruence|].
    split; [cbn; by rewrite Eo|]. cbn. rewrite Eo, Ho.
    destruct r as [[m|]|e]; [|destruct (io_elapsed io)|]; cbn; try (by left).
    + destruct m; cbn; try (split; [vm_compute; reflexivity|done]).
      destruct (Proxy.validate_peer _ _ _); cbn; [|by left]. by rewrite Em, beats_app, Hb.
    + by rewrite Em, beats_app, Hb.
  - injection H as <-. apply set_fine; [done|]. split; [done|]. split; [done|]. by destruct (fl_ready _).
  - injection H as <-. apply set_fine; [done|]. split; [done|]. split; [done|].
    destruct (fl_ingress_stop _); cbn; [|done]. split; [vm_compute; reflexivity|apply Ha].
  - destruct (fl_active_producer _); injection H as <-.
    + apply set_fine; [done|]. split; [done|]. split; [done|]. cbn. split; [vm_compute; reflexivity|apply Ha].
    + apply (set_fine i (Proxy.claimed true (Proxy.at_pc PrWelcome p)) P HP). by split.
  - destruct (Proxy.write_message _ io p) as [r p'] eqn:Ew. destruct (write_message_output _ _ _ _ _ Hl Ew) as (El & Em & Hr).
    injection H as <-. destruct Ha as [Ht Ho]. apply set_fine; [done|]. split; [done|].
    destruct Hr as [(-> & Eo & Hm)|[[e ->] Eo]]; rewrite Ho in Eo; cbn in Eo; (split; cbn; rewrite Eo).
    + by apply Forall_singleton.
    + right. left. eauto.
    + done.
    + by left.
  - destruct (Proxy.write_message _ io p) as [r p'] eqn:Ew. destruct (write_message_output _ _ _ _ _ Hl Ew) as (El & Em & Hr).
    injection H as <-. destruct Ha as [Hb Ho]. apply set_fine; [done|]. split; [done|].
    destruct Hr as [(-> & Eo & Hm)|[[e ->] Eo]]; rewrite Ho in Eo; cbn in Eo; (split; cbn; rewrite Eo).
    + by apply Forall_singleton.
    + by rewrite Em, Hb.
    + done.
    + by left.
  - injection H as <-. apply set_fine; [done|]. split; [done|]. split; [done|].
    destruct (fl_ingress_stop _); cbn; [|done]. right. right. by exists (pr_messages p).
  - destruct (Proxy.read_available io p) as [r p'] eqn:Er. destruct (read_available_output _ _ _ _ Er) as (El & Eo & Em).
    injection H as <-. apply set_fine; [done|]. split; [cbn; congruence|]. split; [cbn; by rewrite Eo|]. cbn. rewrite Eo.
    destruct r as [[m|]|e]; [|destruct (io_elapsed io)|]; cbn; rewrite Em.
    + eauto.
    + right. right. exists (pr_messages p). split; [by apply prefix_app_r|done].
    + by rewrite app_nil_r.
    + right. right. exists (pr_messages p). split; [by apply prefix_app_r|done].
  - destruct Ha as (ms & Em & Eo).
    assert (∀ r, producer_fine (Proxy.at_pc (PrDrop r) p)) as Hdrop.
    { intros r. split; [done|]. split; [done|]. cbn. right. right. exists ms. rewrite Em. split; [by apply prefix_app_r|done]. }
    destruct m as [pid| |code|a|nonce|nonce]; try (injection H as <-; by apply set_fine).
    + injection H as <-. apply published_fine, set_fine; [done|]. split; [done|]. split; [done|]. cbn.
      by rewrite Eo, Em, beats_app, app_nil_r.
    + destruct (Proxy.write_message _ io p) as [r p'] eqn:Ew. destruct (write_message_output _ _ _ _ _ Hl Ew) as (El & Em' & Hr).
      injection H as <-. apply set_fine; [done|]. split; [done|].
      destruct Hr as [(-> & Eo' & Hm)|[[e ->] Eo']]; (split; cbn; rewrite Eo'); [apply Forall_app_2; [done|by apply Forall_singleton]| |done|].
      * rewrite Eo, Em', Em, beats_app. unfold acks. by rewrite fmap_app.
      * right. right. exists ms. rewrite Em', Em. split; [by apply prefix_app_r|done].
  - injection H as <-.
    assert (producer_fine (Proxy.claimed false (Proxy.at_pc (PrDone r) p))) as Hp by (by split).
    pose proof (set_fine i _ P HP Hp) as Hset. by destruct (pr_claimed p).
  - done.
Qed.

Context (same_limits : Proxy.ingress_limits ingress = Ok limits).
Lemma same_producers P P' : px_producers P' = px_producers P → all_fine P → all_fine P'.
Proof. intros E H i p Hi. rewrite E in Hi. by eapply H. Qed.
Lemma ingress_step_fine peer reaped spawned P P' :
  all_fine P → Proxy.ingress_step ingress peer reaped spawned P = Some P' → all_fine P'.
Proof.
  intros HP H. unfold Proxy.ingress_step in H. rewrite same_limits in H. cbv beta zeta in H.
  destruct (ao_pc (px_ingress P)); [by simplify_eq| | |done].
  - destruct (forallb _ _); [|done]. destruct peer as [peer|]; [|by simplify_eq].
    destruct (_ || _); simplify_eq; [done|].
    match goal with |- all_fine (Proxy.set_producer ?i ?p ?Q) => apply (set_fine i p P HP) end. by split.
  - destruct (forallb _ _); by simplify_eq.
Qed.
Lemma broadcast_step_producers io P P' :
  Proxy.broadcast_step subscriber io P = Some P' → px_producers P' = px_producers P.
Proof.
  unfold Proxy.broadcast_step. intros H.
  repeat (cbv zeta in H; case_match; try discriminate H; try (apply bind_Some in H as (? & _ & H))); by simplify_eq/=.
Qed.
Lemma proxy_step_fine a P P' : all_fine P → Proxy.step ingress subscriber a P = Some P' → all_fine P'.
Proof.
  intros HP. destruct a as [i io|peer reaped spawned|io|i io|i io|stream reaped spawned|t|c]; cbn [Proxy.step]; intros H.
  - by eapply producer_step_fine.
  - by eapply ingress_step_fine.
  - eapply same_producers; [by eapply broadcast_step_producers|done].
  - apply IngressFacts.session_step_view in H. injection H as _ _ E _ _ _. by eapply same_producers.
  - apply IngressFacts.writer_step_view in H. injection H as _ _ E _ _ _. by eapply same_producers.
  - apply IngressFacts.accept_step_view in H. injection H as _ _ E _ _ _. by eapply same_producers.
  - apply IngressFacts.closer_step_view in H. injection H as _ _ E _ _ _. by eapply same_producers.
  - destruct c; cbn in H; try (by simplify_eq). destruct (ao_pc _); by simplify_eq.
Qed.

(** ** The two ends of a connection *)

(** The alert has well-typed fields, and JSON keeps its extras. *)
Definition alert_ok (a : ForwardAlert J) : Prop :=
  AtapFacts.message_wf (AForwardAlert a) ∧ AtapFacts.json_keeps (AForwardAlert a).
(** What a write of the proxy that failed left on the wire: the beginning of its answer. *)
Definition torn_answer p (rest : list byte) : Prop :=
  rest = [] ∨ ∃ m q, q ≠ [] ∧ carries m (rest ++ q) ∧
    match m with AHeartbeatAck n => AHeartbeat n ∈ pr_messages p ∧ pr_output p ≠ [] | _ => pr_output p = [] end.
(** Connection [g] of the daemon is producer [i] of the proxy: each has read a part of what
    the other has written. *)
Definition wired (g : Z) (i : nat) D P : Prop :=
  match fs_links D !! g, px_producers P !! i with
  | Some l, Some p =>
      pr_input p `prefix_of` lk_wire l ∧
      ∃ rest, torn_answer p rest ∧ lk_input l `prefix_of` (concat (frame limits <$> pr_output p) ++ rest)
  | Some l, None => lk_input l = []
  | None, Some p => pr_input p = []
  | None, None => True
  end.
(** The states the two can reach together. *)
Inductive joint (g : Z) (i : nat) : ForwarderState J → ProxyState J → Prop :=
| joint_start c file plugin :
    PluginOps.new c file = Ok plugin → joint g i (Forwarder.start plugin) Proxy.start
| joint_daemon D P a D' :
    joint g i D P → (∀ k alert, a = FwPublish k alert → alert_ok alert) → Forwarder.step config limits a D = Some D' →
    wired g i D' P → joint g i D' P
| joint_proxy D P a P' :
    joint g i D P → Proxy.step ingress subscriber a P = Some P' → wired g i D P' → joint g i D P'.

Context (pid_ok : in_u32 (fc_process_id config)).
Lemma sent_frame m : AtapFacts.message_wf m → AtapFacts.json_keeps m → is_ok (Atap.encode limits m) = true → carries m (frame limits m).
Proof.
  intros Hw Hj He. apply (AtapStreamFacts.sent_carries limits (m, frame limits m)). split; [done|]. split; [done|].
  by apply encoded_frame.
Qed.
Lemma said_wf m : said alert_ok m ∨ m = hello config → AtapFacts.message_wf m ∧ AtapFacts.json_keeps m.
Proof.
  intros [Hs| ->]; [|done]. destruct m; try done. cbn in *. unfold nonce_ok in Hs. unfold in_u64. split; [lia|done].
Qed.
(** What is on the daemon's wire. *)
Lemma wire_frames filters g l :
  link_ok config limits alert_ok filters g l →
  Forall (λ m, carries m (frame limits m)) (lk_output l) ∧
  ∃ torn, lk_wire l = concat (frame limits <$> lk_output l) ++ torn ∧ begins torn.
Proof.
  intros [_ _ _ (torn & Hw & Ht) Hs _ _]. split.
  - unfold shaped in Hs. destruct (lk_output l) as [|m rest]; [done|]. destruct Hs as (-> & Hs & He).
    apply Forall_forall. intros m Hm. pose proof (proj1 (Forall_forall _ _) He m Hm) as Hem.
    assert (said alert_ok m ∨ m = hello config) as [Hwf Hj]%said_wf
      by (apply elem_of_cons in Hm as [->|Hm]; [by right|left; by eapply Forall_forall in Hs]).
    by apply sent_frame.
  - exists torn. split; [done|]. destruct Ht as [->|[_ (m & q & Hm & Hq & He)]]; [by left|right].
    exists m, q. split; [done|]. assert (said alert_ok m ∨ m = hello config) as [Hwf Hj]%said_wf by (destruct Hm as [[? _]|?]; [by right|by left]).
    exact (AtapStreamFacts.sent_carries limits (m, torn ++ q) (conj Hwf (conj Hj He))).
Qed.
(** The proxy has received a part of what the daemon wrote. *)
Lemma received_prefix g i D P l p filters :
  wired g i D P → fs_links D !! g = Some l → px_producers P !! i = Some p →
  link_ok config limits alert_ok filters g l → IngressFacts.decoded p → pr_limits p = limits →
  ∃ more torn, lk_output l = pr_messages p ++ more ∧ begins torn ∧
    Forall (λ m, carries m (frame limits m)) more ∧
    pending (pr_decoder p) `prefix_of` (concat (frame limits <$> more) ++ torn).
Proof.
  intros Hw Hg Hi Hl (_ & frames & Hin & Hf) Hlim. unfold wired in Hw. rewrite Hg, Hi in Hw. destruct Hw as [Hw _].
  destruct (wire_frames _ _ _ Hl) as (Hc & torn & Ewire & Hb). rewrite Ewire, Hin in Hw. rewrite Hlim in Hf.
  destruct (frames_agree _ _ _ _ _ Hf Hc Hb Hw) as (more & E & Hp). exists more, torn. split; [done|]. split; [done|].
  rewrite E in Hc. apply Forall_app in Hc as [_ Hc]. done.
Qed.

(** ** What the daemon hears *)

Lemma decoded_wf ms frames : Forall2 decodes ms frames → Forall AtapFacts.message_wf ms.
Proof.
  induction 1 as [|m f ms frames Hm _ IH]; constructor; [|done].
  pose proof (AtapFacts.decode_says limits f) as H. unfold decodes in Hm. rewrite Hm in H. apply H.
Qed.
Lemma beats_wf ms n : Forall AtapFacts.message_wf ms → n ∈ beats ms → in_u64 n.
Proof.
  intros Hms (m & Hm & E)%list_elem_of_omap. apply (proj1 (Forall_forall _ _) Hms) in Hm. destruct m; simplify_eq. done.
Qed.
Lemma answers_cases p :
  producer_fine p →
  pr_output p = [] ∨ (∃ code, TextFacts.text code ∧ pr_output p = [AProducerReject code]) ∨
  ∃ ms, ms `prefix_of` pr_messages p ∧ pr_output p = AProducerWelcome :: acks (beats ms).
Proof.
  intros [_ [_ Ha]]. destruct (pr_pc p) as [| | | |code| | | |m|r|r]; try (left; by apply Ha); try done.
  - right. right. by exists (pr_messages p).
  - right. right. by exists (pr_messages p).
  - destruct Ha as (ms & -> & ->). right. right. exists ms. split; [by apply prefix_app_r|done].
Qed.
Lemma answers_frames p :
  producer_fine p → IngressFacts.decoded p → Forall (λ m, carries m (frame limits m)) (pr_output p).
Proof.
  intros Hp (_ & frames & _ & Hf). pose proof Hp as [Hl [He _]]. rewrite Hl in Hf. apply decoded_wf in Hf.
  apply Forall_forall. intros m Hm. pose proof (proj1 (Forall_forall _ _) He m Hm) as Hem.
  assert (AtapFacts.message_wf m ∧ AtapFacts.json_keeps m) as [Hw Hj]; [|by apply sent_frame].
  destruct (answers_cases p Hp) as [E|[(code & Ht & E)|(ms & Hms & E)]]; rewrite E in Hm.
  - by apply elem_of_nil in Hm.
  - apply list_elem_of_singleton in Hm as ->. done.
  - apply elem_of_cons in Hm as [->|Hm]; [done|]. apply list_elem_of_fmap in Hm as (n & -> & Hn). split; [|done].
    cbn. eapply beats_wf; [|exact Hn]. destruct Hms as [k Hk]. rewrite Hk in Hf. by apply Forall_app in Hf as [? _].
Qed.
Lemma torn_begins p rest : torn_answer p rest → begins rest.
Proof. intros [->|(m & q & Hq & Hc & _)]; [by left|right; eauto]. Qed.

Definition decoded_link l : Prop :=
  WireFacts.decoder_ok (lk_decoder l) ∧
  ∃ frames, lk_input l = concat frames ++ pending (lk_decoder l) ∧ Forall2 decodes (lk_messages l) frames.
(** After the welcome the daemon hears answers to its heartbeats, in order, and nothing that
    its decoder would refuse. *)
Lemma heard g i D P l filters :
  wired g i D P → fs_links D !! g = Some l → link_ok config limits alert_ok filters g l → decoded_link l →
  (∀ p, px_producers P !! i = Some p → producer_fine p ∧ IngressFacts.decoded p) →
  head (lk_messages l) = Some AProducerWelcome →
  (∃ ns, lk_messages l = AProducerWelcome :: acks ns ∧ ns `prefix_of` beats (lk_output l)) ∧
  ∃ o d, FramedStream.next F (lk_decoder l) = (Ok o, d).
Proof.
  intros Hw Hg Hl (Hd & frames & Hin & Hf) HP Hhead. pose proof Hw as Hw'. unfold wired in Hw'. rewrite Hg in Hw'.
  destruct (px_producers P !! i) as [p|] eqn:Hi.
  2:{ rewrite Hw' in Hin. symmetry in Hin. apply app_nil in Hin as [Hin _].
      destruct Hf as [|m f ms frames Hm Hf]; [done|]. apply decoded_carries in Hm as [Hlen _].
      apply (f_equal length) in Hin. cbn in Hin. rewrite length_app in Hin. pose proof header_pos. lia. }
  destruct (HP p eq_refl) as [Hp Hdp]. destruct Hw' as (_ & rest & Ht & Hpre). rewrite Hin in Hpre.
  pose proof (answers_frames p Hp Hdp) as Hc. pose proof (torn_begins p rest Ht) as Hb.
  destruct (frames_agree _ _ _ _ _ Hf Hc Hb Hpre) as (more & E & Hmore).
  assert (Forall (λ m, carries m (frame limits m)) more) as Hcm by (rewrite E in Hc; by apply Forall_app in Hc as [_ ?]).
  split; [|by eapply next_fine].
  destruct (received_prefix g i D P l p filters Hw Hg Hi Hl Hdp (proj1 Hp)) as (todo & torn & Eout & _).
  destruct (lk_messages l) as [|m ms] eqn:Em; [done|]. cbn in Hhead. injection Hhead as ->.
  destruct (answers_cases p Hp) as [Eo|[(code & _ & Eo)|(hs & Hhs & Eo)]]; rewrite Eo in E; try done.
  injection E as E. unfold acks in E. apply fmap_app_inv in E as (ns & ns' & -> & _ & E).
  exists ns. split; [done|]. transitivity (beats hs); [by exists ns'|].
  apply beats_prefix. etrans; [exact Hhs|]. rewrite Eout. by apply prefix_app_r.
Qed.
(** The first message, and nothing after it, has been read when the welcome arrives. *)
Lemma welcome_alone g i D P l filters f pend :
  wired g i D P → fs_links D !! g = Some l → link_ok config limits alert_ok filters g l →
  (∀ p, px_producers P !! i = Some p → producer_fine p ∧ IngressFacts.decoded p) →
  lk_output l = [hello config] → lk_input l = f ++ pend → decodes AProducerWelcome f → pend = [].
Proof.
  intros Hw Hg Hl HP Hout Hin Hf. pose proof Hw as Hw'. unfold wired in Hw'. rewrite Hg in Hw'.
  assert (Forall2 decodes [AProducerWelcome] [f]) as Hf2 by (constructor; [done|constructor]).
  destruct (px_producers P !! i) as [p|] eqn:Hi.
  2:{ rewrite Hw' in Hin. symmetry in Hin. by apply app_nil in Hin as [_ ?]. }
  destruct (HP p eq_refl) as [Hp Hdp]. destruct Hw' as (_ & rest & Ht & Hpre).
  assert (concat [f] ++ pend = lk_input l) as Hcat by (cbn; by rewrite app_nil_r). rewrite <-Hcat in Hpre.
  destruct (frames_agree _ _ _ _ _ Hf2 (answers_frames p Hp Hdp) (torn_begins p rest Ht) Hpre) as (more & E & Hmore).
  destruct (received_prefix g i D P l p filters Hw Hg Hi Hl Hdp (proj1 Hp)) as (todo & torn & Eout & _).
  rewrite Hout in Eout.
  assert (∀ ms, ms `prefix_of` pr_messages p → beats ms = []) as Hnb.
  { intros ms [k Hk]. rewrite Hk in Eout. destruct ms as [|m ms]; [done|]. injection Eout as <- Eout.
    symmetry in Eout. apply app_nil in Eout as [Eout _]. apply app_nil in Eout as [-> _]. done. }
  destruct (answers_cases p Hp) as [Eo|[(code & _ & Eo)|(hs & Hhs & Eo)]]; rewrite Eo in E; try done.
  rewrite (Hnb hs Hhs) in E. destruct more; [|done].
  assert (rest = []) as ->.
  { destruct Ht as [->|(m & q & _ & _ & Hm)]; [done|]. rewrite Eo in Hm. destruct m as [| | | | |n]; try done. destruct Hm as [Hm _].
    pose proof (Hnb (pr_messages p) (reflexivity _)) as Hb. exfalso.
    assert (n ∈ beats (pr_messages p)) as Hn by (apply list_elem_of_omap; eauto). rewrite Hb in Hn. by apply elem_of_nil in Hn. }
  cbn in Hmore. by apply prefix_nil_inv in Hmore.
Qed.

(** ** Heartbeats *)

Definition reader_end (pc : ReaderPc) : option ReaderEnd :=
  match pc with RdUpdate why _ | RdDone why => Some why | _ => None end.
(** How many answers were matched with the heartbeat they are for. *)
Definition acked l : nat := length (lk_messages l) - 1 - match lk_reader l with RdAck _ => 1 | _ => 0 end.
(** The writer is where, without a deadline, it owes no heartbeat's answer. *)
Definition expecting (pc : LinkWriterPc J) : bool :=
  match pc with WtOutstanding _ _ | WtDeadline | WtUpdate _ | WtDone => false | _ => true end.
Record in_step l : Prop := {
  is_end : reader_end (lk_reader l) ≠ Some EndProtocol;
  is_count : acked l = length (beats (lk_output l)) ∨
             (S (acked l) = length (beats (lk_output l)) ∧ last (beats (lk_output l)) = Some (lk_outstanding l));
  is_idle : wl_deadline (lk_locals l) = None → expecting (lk_writer l) = true → acked l = length (beats (lk_output l));
  is_writer : match lk_writer l with
              | WtBeat n => lk_outstanding l = n ∧ wl_deadline (lk_locals l) = None
              | WtStore | WtStart | WtNone => wl_deadline (lk_locals l) = None
              | WtOutstanding _ _ => wl_deadline (lk_locals l) ≠ None
              | _ => True
              end;
  is_ack n : lk_reader l = RdAck n → last (lk_messages l) = Some (AHeartbeatAck n);
}.
(** The part of a connection this is about. *)
Definition seen l := (lk_outstanding l, lk_reader l, lk_decoder l, lk_writer l, lk_locals l, lk_input l, lk_messages l, lk_output l).
Lemma seen_in_step l l' : seen l' = seen l → in_step l → in_step l'.
Proof.
  unfold seen. intros [= E1 E2 E3 E4 E5 E6 E7 E8] [H1 H2 H3 H4 H5].
  assert (acked l' = acked l) as Ea by (unfold acked; by rewrite E2, E7).
  split; rewrite ?Ea, ?E1, ?E2, ?E4, ?E5, ?E7, ?E8; done.
Qed.
Lemma seen_decoded l l' : seen l' = seen l → decoded_link l → decoded_link l'.
Proof. unfold seen, decoded_link. by intros [= E1 E2 -> E4 E5 -> -> E8]. Qed.

Definition late (g : Z) (pc : ControlPc) : bool :=
  match pc with CtTimeout _ k | CtActivate _ k _ | CtReader _ k | CtWriter _ k => k =? g | _ => false end.
Definition setting_up (g : Z) D : Prop := ∃ t pc, fs_controls D !! t = Some pc ∧ late g pc = true.
Definition listening (g : Z) D : Prop :=
  ∀ l, fs_links D !! g = Some l →
    (lk_reader l ≠ RdNone ∨ setting_up g D → decoded_link l ∧ head (lk_messages l) = Some AProducerWelcome) ∧
    (lk_reader l ≠ RdNone → in_step l).
Lemma listening_same g D D' :
  (∀ l', fs_links D' !! g = Some l' → ∃ l, fs_links D !! g = Some l ∧ seen l' = seen l) →
  (setting_up g D' → setting_up g D) → listening g D → listening g D'.
Proof.
  intros Hl Hc H l' Hl'. destruct (Hl l' Hl') as (l & Hg & Hs). destruct (H l Hg) as [H1 H2].
  assert (lk_reader l' = lk_reader l) as Er by (by injection Hs). assert (lk_messages l' = lk_messages l) as Em by (by injection Hs).
  rewrite Er, Em. split.
  - intros Hp. destruct H1 as [Hd Hh]; [by destruct Hp as [?|?]; [left|right; apply Hc]|]. split; [by eapply seen_decoded|done].
  - intros Hr%H2. by eapply seen_in_step.
Qed.
Lemma listening_link g k l l' D :
  fs_links D !! k = Some l → seen l' = seen l → listening g D → listening g (Forwarder.set_link k l' D).
Proof.
  intros Hk Hs. apply listening_same; [|done]. intros m Hm. cbn in Hm.
  apply lookup_insert_Some in Hm as [[<- <-]|[_ Hm]]; eauto.
Qed.
Lemma other_link g k l' D : k ≠ g → listening g D → listening g (Forwarder.set_link k l' D).
Proof.
  intros Hne. apply listening_same; [|done]. intros m Hm. cbn in Hm. rewrite lookup_insert_ne in Hm by done. eauto.
Qed.
(** A control thread moves without beginning a connection's set-up. *)
Lemma control_same g t pc' D :
  (late g pc' = true → setting_up g D) → listening g D → listening g (Forwarder.set_control t pc' D).
Proof.
  intros Hpc. apply listening_same; [intros l Hl; eauto|]. intros (u & pc & Hu & Hlate). cbn in Hu.
  apply lookup_insert_Some in Hu as [[<- <-]|[_ Hu]]; [by apply Hpc|]. by exists u, pc.
Qed.
Lemma rest_same g D D' :
  fs_links D' = fs_links D → fs_controls D' = fs_controls D → listening g D → listening g D'.
Proof.
  intros E1 E2. apply listening_same; [rewrite E1; eauto|]. unfold setting_up. by rewrite E2.
Qed.

Lemma publisher_listening g i D D' : listening g D → Forwarder.publisher_step config i D = Some D' → listening g D'.
Proof.
  intros HD (pc & Hi & H)%bind_Some. destruct pc; cbv beta zeta in H; try (by simplify_eq; apply (rest_same g D)).
  apply bind_Some in H as (l & Hl & H). destruct (negb _); [by simplify_eq; apply (rest_same g D)|].
  destruct (_ <? _); simplify_eq; [|by apply (rest_same g D)].
  apply (rest_same g (Forwarder.set_link generation (Forwarder.enqueue (mkItem generation a) since n l) D)); [done..|].
  by apply (listening_link g generation l).
Qed.
(** The connection itself changes. *)
Lemma listening_to g l l' D :
  fs_links D !! g = Some l → listening g D → lk_reader l ≠ RdNone →
  (decoded_link l → head (lk_messages l) = Some AProducerWelcome → in_step l →
     decoded_link l' ∧ head (lk_messages l') = Some AProducerWelcome ∧ in_step l') →
  listening g (Forwarder.set_link g l' D).
Proof.
  intros Hg HD Hr Hl m Hm. cbn in Hm. rewrite lookup_insert_eq in Hm. injection Hm as <-.
  destruct (HD l Hg) as [H1 H2]. destruct (H1 (or_introl Hr)) as [Hd Hh]. destruct (Hl Hd Hh (H2 Hr)) as (? & ? & ?). done.
Qed.

(** ** The threads of the connection *)

Definition proxy_fine (i : nat) P : Prop := ∀ p, px_producers P !! i = Some p → producer_fine p ∧ IngressFacts.decoded p.
Lemma reader_links k io D D' :
  Forwarder.reader_step limits k io D = Some D' →
  ∃ l l', fs_links D !! k = Some l ∧ fs_links D' = <[k := l']> (fs_links D) ∧ fs_controls D' = fs_controls D ∧ books l' = books l.
Proof.
  intros (l & Hl & H)%bind_Some. cbv zeta in H. exists l.
  destruct (lk_reader l) as [| | | |nonce|why [call|r ops|r]|why]; try done; try (simplify_eq; by eexists).
  - destruct (li_read io) as [cap [|b bytes]| |text]; simplify_eq; by eexists.
  - destruct (FramedStream.next _ _) as [[[m|]|e] d]; simplify_eq; by eexists.
  - destruct (_ =? _); simplify_eq; by eexists.
  - apply bind_Some in H as ([u' p'] & Hu & H). simplify_eq. by eexists.
  - apply bind_Some in H as ([u' p'] & Hu & H). simplify_eq. by eexists.
Qed.
Definition at_ack (pc : ReaderPc) : bool := match pc with RdAck _ => true | _ => false end.
Definition rest_of l := (lk_outstanding l, lk_writer l, lk_locals l, lk_output l).
Lemma reader_moves l l' :
  at_ack (lk_reader l) = false → at_ack (lk_reader l') = false → reader_end (lk_reader l') ≠ Some EndProtocol →
  length (lk_messages l') = length (lk_messages l) → rest_of l' = rest_of l → in_step l → in_step l'.
Proof.
  unfold rest_of. intros Ha Ha' He Hm [= E1 E2 E3 E4] [H1 H2 H3 H4 H5].
  assert (acked l' = acked l) as Eq by (unfold acked; rewrite Hm; by destruct (lk_reader l), (lk_reader l')).
  split; rewrite ?Eq, ?E1, ?E2, ?E3, ?E4; try done. intros n E. by rewrite E in Ha'.
Qed.
#[local] Ltac link_simpl :=
  cbn [Forwarder.reader_at Forwarder.writer_at Forwarder.got Forwarder.set_decoder Forwarder.set_outstanding Forwarder.set_locals
       Forwarder.wrote Forwarder.set_queue Forwarder.drop_receiver
       lk_outstanding lk_reader lk_decoder lk_writer lk_locals lk_input lk_messages lk_output].
Lemma decoded_push cap bytes l pc :
  decoded_link l →
  decoded_link (Forwarder.reader_at pc (Forwarder.got bytes [] (Forwarder.set_decoder (Stream.push cap bytes (lk_decoder l)) l))).
Proof.
  intros (Hd & frames & Hin & Hf). destruct (WireFacts.push_refines cap bytes (lk_decoder l) Hd) as [Hd' Hp].
  split; [done|]. exists frames. link_simpl. rewrite Hp, Hin, app_nil_r, <-app_assoc. done.
Qed.
Lemma decoded_next m d l pc :
  decoded_link l → FramedStream.next F (lk_decoder l) = (Ok (Some m), d) →
  decoded_link (Forwarder.reader_at pc (Forwarder.got [] [m] (Forwarder.set_decoder d l))).
Proof.
  intros (Hd & frames & Hin & Hf) Hn. destruct (IngressFacts.next_taken F _ _ _ Hd Hn) as (Hd' & f & Hp & Hm).
  split; [done|]. exists (frames ++ [f]). link_simpl. rewrite app_nil_r, Hin, Hp, concat_app. cbn [concat].
  rewrite app_nil_r, <-app_assoc.
  split; [done|]. apply Forall2_app; [done|]. by constructor.
Qed.
(** The answer the reader holds is the one that is awaited. *)
Lemma awaited l ns n :
  in_step l → lk_reader l = RdAck n → lk_messages l = AProducerWelcome :: acks ns → ns `prefix_of` beats (lk_output l) →
  lk_outstanding l = n ∧ S (acked l) = length (beats (lk_output l)) ∧ length (lk_messages l) = S (S (acked l)).
Proof.
  intros [_ H2 _ _ H5] Hr Hm [more Hmore]. specialize (H5 n Hr).
  assert (last ns = Some n) as Hn.
  { rewrite Hm in H5. unfold acks in H5. destruct ns as [|x ns]; [done|].
    change (last (AHeartbeatAck <$> x :: ns) = Some (AHeartbeatAck (J:=J) n)) in H5. rewrite fmap_last in H5.
    destruct (last (x :: ns)); by simplify_eq/=. }
  assert (0 < length ns)%nat as Hpos by (destruct ns; cbn in *; [done|lia]).
  assert (S (acked l) = length ns) as Ha by (unfold acked; rewrite Hr, Hm; cbn [length]; unfold acks; rewrite length_fmap; lia).
  rewrite Hmore, length_app in H2. destruct H2 as [H2|[H2 Hlast]]; [lia|].
  assert (more = []) as -> by (destruct more; [done|cbn in *; lia]). rewrite app_nil_r in *. rewrite Hmore.
  rewrite Hn in Hlast. injection Hlast as ->. split; [done|]. split; [done|].
  rewrite Hm. cbn [length]. unfold acks. rewrite length_fmap. lia.
Qed.
Lemma reader_listening g i k io D D' P :
  inv config limits alert_ok D → inv config limits alert_ok D' → proxy_fine i P → wired g i D P → wired g i D' P → listening g D →
  Forwarder.reader_step limits k io D = Some D' → listening g D'.
Proof.
  intros Hinv Hinv' HP Hw Hw' HD H. destruct (reader_links k io D D' H) as (l & l' & Hl & El & Ec & Hb).
  destruct (decide (k = g)) as [->|Hne].
  2:{ eapply listening_same; [|unfold setting_up; by rewrite Ec|done]. intros m Hm. rewrite El, lookup_insert_ne in Hm by done. eauto. }
  apply (rest_same g (Forwarder.set_link g l' D)); [done|done|].
  assert (fs_links D' !! g = Some l') as Hl' by (rewrite El; apply lookup_insert_eq).
  destruct Hinv as (_ & _ & Hr). destruct (ro_link _ _ _ _ _ _ _ _ Hr g l Hl) as [Hok _].
  destruct Hinv' as (_ & _ & Hr'). destruct (ro_link _ _ _ _ _ _ _ _ Hr' g l' Hl') as [Hok' _]. clear Hr Hr'.
  assert (lk_reader l ≠ RdNone) as Hnone by (intros E; unfold Forwarder.reader_step in H; rewrite Hl in H; cbn in H; by rewrite E in H).
  eapply listening_to; [done|done|done|]. intros Hd Hh Hs.
  destruct (heard g i D P l _ Hw Hl Hok Hd HP Hh) as ((ns & Hms & Hns) & o & d & Hn).
  assert (∀ l2, fs_links D' = <[g := l2]> (fs_links D) → l' = l2) as Hl2.
  { intros l2 E. rewrite E in Hl'. rewrite lookup_insert_eq in Hl'. by injection Hl'. }
  apply bind_Some in H as (l0 & Hl0 & H). rewrite Hl in Hl0. injection Hl0 as <-. cbv zeta in H.
  destruct (lk_reader l) as [| | | |nonce|why u|why] eqn:Er; try done.
  - simplify_eq. rewrite (Hl2 _ eq_refl). split; [done|]. split; [done|].
    by apply (reader_moves l); [rewrite Er|link_simpl; case_match..| | |].
  - assert (∀ l2, rest_of l2 = rest_of l → length (lk_messages l2) = length (lk_messages l) → at_ack (lk_reader l2) = false →
      reader_end (lk_reader l2) ≠ Some EndProtocol → in_step l2) as Hmv by (intros; by apply (reader_moves l); [rewrite Er|..]).
    destruct (li_read io) as [cap [|b bytes]| |text]; simplify_eq; rewrite (Hl2 _ eq_refl).
    1,3,4: by split; [|split; [|apply Hmv]].
    split; [by apply decoded_push|]. split; [cbn; by rewrite app_nil_r|]. apply Hmv; try done. cbn. by rewrite app_nil_r.
  - rewrite Hn in H. destruct o as [m|].
    + assert (decoded_link l') as Hd'.
      { simplify_eq. rewrite (Hl2 _ eq_refl). by apply decoded_next. }
      assert (lk_messages l' = lk_messages l ++ [m]) as Em by (simplify_eq; by rewrite (Hl2 _ eq_refl)).
      assert (head (lk_messages l') = Some AProducerWelcome) as Hh' by (rewrite Em, Hms; done).
      destruct (heard g i D' P l' _ Hw' Hl' Hok' Hd' HP Hh') as ((ns' & Hms' & Hns') & _).
      split; [done|]. split; [done|]. rewrite Em, Hms in Hms'. injection Hms' as Hms'.
      assert (∃ n, m = AHeartbeatAck n) as (n & ->).
      { symmetry in Hms'. apply fmap_app_inv in Hms' as (x & [|y z] & _ & E & _); [done|]. injection E as -> E. eauto. }
      simplify_eq. rewrite (Hl2 _ eq_refl). destruct Hs as [Hs1 Hs2 Hs3 Hs4 Hs5].
      match goal with |- in_step ?l2 => assert (acked l2 = acked l) as Ea by
        (unfold acked; rewrite Er; link_simpl; rewrite length_app, Hms; cbn; lia) end.
      split; rewrite ?Ea; link_simpl; try done. intros k [= <-]. by rewrite last_snoc.
    + simplify_eq. rewrite (Hl2 _ eq_refl). destruct Hd as (Hdo & frames & Hin & Hf).
      destruct (IngressFacts.next_taken F _ _ _ Hdo Hn) as [Hdo' Hp].
      split; [|split; [done|by apply (reader_moves l); [rewrite Er|..]]]. split; [done|]. exists frames. link_simpl. by rewrite Hp.
  - destruct (awaited l ns nonce Hs Er Hms Hns) as (Eo & Ea & Elen). rewrite Eo, Z.eqb_refl in H. simplify_eq. rewrite (Hl2 _ eq_refl).
    split; [done|]. split; [done|]. destruct Hs as [Hs1 Hs2 Hs3 Hs4 Hs5].
    match goal with |- in_step ?l2 => assert (acked l2 = S (acked l)) as Ea2 by
      (unfold acked in Elen |- *; link_simpl; lia) end.
    split; rewrite ?Ea2; link_simpl; try done; [by left|].
    destruct (lk_writer l) eqn:Ew; try done. destruct Hs4 as [_ Hs4]. rewrite Hs3 in Ea; [lia|done|done].
  - destruct u as [call|r ops|r].
    1,2: apply bind_Some in H as ([u' p'] & Hu & H).
    all: simplify_eq; rewrite (Hl2 _ eq_refl); split; [done|]; split; [done|];
      apply (reader_moves l); try done; [by rewrite Er|]; destruct Hs as [Hs1 _ _ _ _]; by rewrite Er in Hs1.
Qed.

Definition ears l := (lk_reader l, lk_decoder l, lk_input l, lk_messages l).
Lemma write_message_ears m io l ok l1 :
  Forwarder.write_message limits m io l = (ok, l1) →
  ears l1 = ears l ∧ lk_outstanding l1 = lk_outstanding l ∧ lk_locals l1 = lk_locals l ∧
  lk_output l1 = lk_output l ++ (if ok then [m] else []).
Proof.
  unfold Forwarder.write_message. destruct (Atap.encode limits m); [destruct (li_fail io)|]; intros [= <- <-]; try done;
    unfold ears; link_simpl; by rewrite ?app_nil_r.
Qed.
Lemma beats_said filters g l n : link_ok config limits alert_ok filters g l → n ∈ beats (lk_output l) → 1 ≤ n.
Proof.
  intros [_ _ _ _ Hs _ _] (m & Hm & E)%list_elem_of_omap. unfold shaped in Hs. destruct (lk_output l) as [|m0 rest].
  - by apply elem_of_nil in Hm.
  - destruct Hs as (-> & Hs & _). apply elem_of_cons in Hm as [->|Hm]; [done|].
    apply (proj1 (Forall_forall _ _) Hs) in Hm. destruct m; simplify_eq/=. apply Hm.
Qed.
(** Nothing outstanding means every heartbeat was answered. *)
Lemma none_outstanding filters g l :
  link_ok config limits alert_ok filters g l → in_step l → lk_outstanding l = 0 → acked l = length (beats (lk_output l)).
Proof.
  intros Hok [_ [H|[_ Hlast]] _ _ _] Hz; [done|]. rewrite Hz in Hlast. exfalso.
  assert (0 ∈ beats (lk_output l)) as Hin by (apply last_Some_elem_of in Hlast; done).
  apply (beats_said _ _ _ _ Hok) in Hin. lia.
Qed.
Lemma ears_acked l l' : ears l' = ears l → acked l' = acked l.
Proof. unfold ears, acked. by intros [= -> E2 E3 ->]. Qed.
(** The writer goes on without writing. *)
Lemma writer_moves l l' :
  ears l' = ears l → lk_output l' = lk_output l → lk_outstanding l' = lk_outstanding l →
  (wl_deadline (lk_locals l') = None → expecting (lk_writer l') = true → acked l = length (beats (lk_output l))) →
  match lk_writer l' with
  | WtBeat n => lk_outstanding l' = n ∧ wl_deadline (lk_locals l') = None
  | WtStore | WtStart | WtNone => wl_deadline (lk_locals l') = None
  | WtOutstanding _ _ => wl_deadline (lk_locals l') ≠ None
  | _ => True
  end → in_step l → in_step l'.
Proof.
  intros He Eo Ez Hidle Hpc [H1 H2 H3 H4 H5]. pose proof (ears_acked _ _ He) as Ea. unfold ears in He. injection He as Er Ed Ei Em.
  split; rewrite ?Ea, ?Eo, ?Er, ?Em, ?Ez; try done.
  destruct (lk_writer l'); rewrite ?Ez in Hpc; done.
Qed.
Lemma writer_link g io l D D' filters :
  fs_links D !! g = Some l → link_ok config limits alert_ok filters g l → Forwarder.writer_step config limits g io D = Some D' →
  ∃ l', fs_links D' = <[g := l']> (fs_links D) ∧ fs_controls D' = fs_controls D ∧ ears l' = ears l ∧ (in_step l → in_step l').
Proof.
  intros Hl Hok H. apply bind_Some in H as (l0 & Hl0 & H). rewrite Hl in Hl0. injection Hl0 as <-. cbv beta zeta in H.
  assert (∀ l', ears l' = ears l → (in_step l → in_step l') → ∃ l2, <[g := l']> (fs_links D) = <[g := l2]> (fs_links D) ∧
    fs_controls D = fs_controls D ∧ ears l2 = ears l ∧ (in_step l → in_step l2)) as Hex by (intros; eauto).
  destruct (lk_writer l) as [| | | |now deadline| |nonce| | |item| |u|] eqn:Ew; try done.
  - destruct (instant_add _ _); simplify_eq; (apply Hex; [done|]); intros Hs; pose proof Hs as [_ _ H3 H4 _]; rewrite Ew in H3, H4;
      by eapply (writer_moves l); try done; intros; apply H3.
  - simplify_eq. apply Hex; [done|]. intros Hs. pose proof Hs as [_ _ H3 H4 _]. rewrite Ew in H3, H4.
    by destruct (PluginOps.is_active_generation _ _); eapply (writer_moves l); try done; intros; apply H3.
  - simplify_eq. apply Hex; [done|]. intros Hs. pose proof Hs as [_ _ H3 H4 _]. rewrite Ew in H3, H4.
    destruct (wl_deadline (lk_locals l)) eqn:Ed; [|destruct (_ <=? _)]; eapply (writer_moves l); try done; link_simpl;
      by rewrite ?Ed; intros; try apply H3.
  - destruct (Z.eqb_spec (lk_outstanding l) 0) as [Hz|Hz].
    + destruct (instant_add _ _); simplify_eq; apply Hex; try done; intros Hs;
        (eapply (writer_moves l); try done); intros _ _; by eapply none_outstanding.
    + simplify_eq. apply Hex; [done|]. intros Hs. pose proof Hs as [_ _ H3 H4 _]. rewrite Ew in H3, H4.
      eapply (writer_moves l); try done; link_simpl; destruct (_ <=? _); done.
  - simplify_eq. apply Hex; [done|]. intros [H1 H2 H3 H4 H5]. rewrite Ew in *.
    match goal with |- in_step ?l2 => assert (acked l2 = acked l) as Ea by done end.
    split; rewrite ?Ea; link_simpl; try done. left. by apply H3.
  - destruct (Forwarder.write_message _ _ io l) as [ok l1] eqn:Ewr.
    destruct (write_message_ears _ _ _ _ _ Ewr) as (He & Ez & El & Eo). injection H as <-. apply Hex; [exact He|].
    intros [H1 H2 H3 H4 H5]. rewrite Ew in *. destruct H4 as [H4 Hdl].
    match goal with |- in_step ?l2 => assert (acked l2 = acked l) as Ea by (by apply ears_acked) end.
    unfold ears in He. injection He as Er Ed Ei Em. specialize (H3 Hdl eq_refl).
    split; rewrite ?Ea; link_simpl; rewrite ?Er, ?Em, ?Ez, ?Eo, ?beats_app; try done.
    + destruct ok; [right|left; by rewrite app_nil_r]. change (beats [AHeartbeat nonce]) with [nonce].
      rewrite length_app, last_snoc. cbn. split; [lia|by f_equal].
    + by destruct ok.
    + by destruct ok.
  - destruct (instant_add _ _); simplify_eq; apply Hex; try done; intros Hs; eapply (writer_moves l); done.
  - assert (∀ q pc, match pc with WtActive | WtSend _ => True | _ => False end →
      in_step l → in_step (Forwarder.writer_at pc (Forwarder.set_queue q l))) as Hmv.
    { intros q pc Hpc Hs. pose proof Hs as [_ _ H3 H4 _]. rewrite Ew in H3, H4.
      eapply (writer_moves l); try done; link_simpl; [intros Hdl _; by apply H3|by destruct pc]. }
    destruct (lk_queue l) as [|item rest] eqn:Eq.
    + destruct (_ || _); simplify_eq; apply Hex; try done; intros Hs.
      * eapply seen_in_step; [|by apply (Hmv [] WtActive)]. done.
      * by eapply (writer_moves l).
    + destruct (_ =? _); simplify_eq; (apply Hex; [done|]); by apply Hmv.
  - assert (∀ pc, match pc with WtActive | WtDrop => True | _ => False end → in_step l → in_step (Forwarder.writer_at pc l)) as Hmv.
    { intros pc Hpc Hs. pose proof Hs as [_ _ H3 H4 _]. rewrite Ew in H3, H4.
      eapply (writer_moves l); try done; link_simpl; [intros Hdl _; by apply H3|by destruct pc]. }
    destruct (Atap.encode _ _) as [bs|e] eqn:Ee; [|simplify_eq; apply Hex; [done|by apply Hmv]].
    destruct (Forwarder.write_message _ _ io l) as [ok l1] eqn:Ewr.
    destruct (write_message_ears _ _ _ _ _ Ewr) as (He & Ez & El & Eo). injection H as <-. apply Hex; [exact He|].
    intros [H1 H2 H3 H4 H5]. rewrite Ew in *.
    match goal with |- in_step ?l2 => assert (acked l2 = acked l) as Ea by (by apply ears_acked) end.
    assert (beats (lk_output l1) = beats (lk_output l)) as Eb by (rewrite Eo, beats_app; destruct ok; by rewrite app_nil_r).
    unfold ears in He. injection He as Er Ed Ei Em.
    split; rewrite ?Ea; link_simpl; rewrite ?Er, ?Em, ?Ez, ?El, ?Eb; try done; [intros Hdl _; by apply H3|by destruct ok].
  - simplify_eq. apply Hex; [done|]. intros Hs. pose proof Hs as [_ _ H3 H4 _]. rewrite Ew in H3, H4.
    by eapply (writer_moves l).
  - destruct u as [call|r ops|r].
    1,2: apply bind_Some in H as ([u' p'] & Hu & H).
    all: simplify_eq; apply Hex; [done|]; intros Hs; by eapply (writer_moves l).
Qed.
Lemma writer_listening g k io D D' :
  inv config limits alert_ok D → listening g D → Forwarder.writer_step config limits k io D = Some D' → listening g D'.
Proof.
  intros (_ & _ & Hr) HD H. pose proof H as (l & Hl & _)%bind_Some.
  destruct (ro_link _ _ _ _ _ _ _ _ Hr k l Hl) as [Hok _].
  destruct (writer_link k io l D D' _ Hl Hok H) as (l' & El & Ec & He & Hs).
  apply (rest_same g (Forwarder.set_link k l' D)); [done|done|].
  destruct (decide (k = g)) as [->|Hne]; [|by apply other_link].
  intros m Hm. cbn in Hm. rewrite lookup_insert_eq in Hm. injection Hm as <-. destruct (HD l Hl) as [H1 H2].
  unfold ears in He. injection He as Er Ed Ei Em. unfold decoded_link. rewrite Er, Ed, Ei, Em. split; [exact H1|].
  intros Hne. by apply Hs, H2.
Qed.

(** ** The thread that sets the connection up *)

Lemma late_gen g pc : late g pc = true → control_gen pc = Some g.
Proof. destruct pc; cbn; try done; by intros ->%Z.eqb_eq. Qed.
(** Another connection is set up. *)
Lemma setup_other g t k l' pc' D D' :
  k ≠ g → fs_links D' = <[k := l']> (fs_links D) → fs_controls D' = <[t := pc']> (fs_controls D) →
  control_gen pc' = None ∨ control_gen pc' = Some k → listening g D → listening g D'.
Proof.
  intros Hne El Ec Hpc. apply listening_same.
  - intros m Hm. rewrite El, lookup_insert_ne in Hm by done. eauto.
  - intros (u & pc & Hu & Hlate). rewrite Ec in Hu. apply lookup_insert_Some in Hu as [[<- <-]|[_ Hu]]; [|by exists u, pc].
    apply late_gen in Hlate. destruct Hpc; congruence.
Qed.
(** The connection is not read yet, and its set-up has not come far. *)
Lemma unheard g t pc pc' l' D D' :
  inv config limits alert_ok D → fs_controls D !! t = Some pc → control_gen pc = Some g →
  fs_links D' = <[g := l']> (fs_links D) → fs_controls D' = <[t := pc']> (fs_controls D) → late g pc' = false →
  lk_reader l' = RdNone → listening g D'.
Proof.
  intros (_ & _ & Hr) Ht Hg El Ec Hlate Hn m Hm. rewrite El, lookup_insert_eq in Hm. injection Hm as <-. rewrite Hn. split; [|done].
  intros [?|(u & pcu & Hu & Hlu)]; [done|]. rewrite Ec in Hu. apply lookup_insert_Some in Hu as [[<- <-]|[Hne Hu]]; [congruence|].
  apply late_gen in Hlu. by destruct (ro_owner _ _ _ _ _ _ _ _ Hr u t pcu pc g Hu Ht Hlu Hg).
Qed.
Lemma fresh_in_step l :
  lk_reader l = RdActive → fresh_link l → greeted config limits l → lk_messages l = [AProducerWelcome] → in_step l.
Proof.
  intros Hr (Hw & Ho & Hloc) [Hout _] Hm. assert (acked l = 0%nat) as Ea by (unfold acked; by rewrite Hr, Hm).
  split; rewrite ?Ea, ?Hr, ?Hw, ?Hout, ?Hm, ?Hloc; try done. by left.
Qed.
Lemma controller_listening g i t io D D' P :
  inv config limits alert_ok D → inv config limits alert_ok D' → proxy_fine i P → wired g i D' P → listening g D →
  Forwarder.controller_step config limits t io D = Some D' → listening g D'.
Proof.
  intros Hinv Hinv' HP Hw' HD (pc & Ht & H)%bind_Some. pose proof Hinv as (_ & _ & Hr).
  assert (∀ k l, control_gen pc = Some k → fs_links D !! k = Some l → phase config limits pc l) as Hph.
  { intros k l Hg Hl. destruct (ro_phase _ _ _ _ _ _ _ _ Hr _ _ _ Ht Hg) as (l2 & ? & ?). by simplify_eq. }
  assert (∀ pc' D2, fs_links D2 = fs_links D → fs_controls D2 = <[t := pc']> (fs_controls D) → (late g pc' = true → late g pc = true) →
    listening g D2) as Hto.
  { intros pc' D2 E1 E2 Hlate. apply (rest_same g (Forwarder.set_control t pc' D)); [done|done|].
    apply control_same; [|done]. intros Hl%Hlate. by exists t, pc. }
  destruct pc as [raw| |raw|raw|raw|raw|raw k|raw k d|raw k|raw k u|raw k|raw k|k e u|u|r]; cbv beta zeta in H; try done.
  - simplify_eq. eapply Hto; [done|done|]. by case_match.
  - simplify_eq. eapply Hto; [done|done|]. by case_match.
  - destruct (fs_lifecycle D); simplify_eq. by eapply Hto.
  - destruct (_ =? _); simplify_eq; [by eapply Hto|]. eapply Hto; [done|done|]. by destruct raw.
  - destruct (li_fail io); simplify_eq; by eapply Hto.
  - unfold PluginOps.next_generation in H. destruct (checked_add_u64 _ 1) as [k|] eqn:Ek; simplify_eq; [|by eapply Hto].
    apply checked_add_u64_Some in Ek as [-> _]. set (k := pg_latest_generation (fs_plugin D) + 1).
    destruct (decide (k = g)) as [<-|Hne]; [|eapply setup_other; [done|done|done|by right|done]].
    intros m Hm. cbn in Hm. rewrite lookup_insert_eq in Hm. injection Hm as <-. split; [|done].
    intros [?|(u & pcu & Hu & Hlu)]; [done|]. cbn in Hu. apply lookup_insert_Some in Hu as [[<- <-]|[Hne Hu]]; [done|].
    apply late_gen in Hlu. destruct (ro_phase _ _ _ _ _ _ _ _ Hr _ _ _ Hu Hlu) as (l2 & Hl2 & _).
    apply (ro_link _ _ _ _ _ _ _ _ Hr) in Hl2 as [_ Hle]. unfold k in Hle. lia.
  - apply bind_Some in H as (l & Hl & H). destruct (Hph k l eq_refl Hl) as [_ [[Hrd _] _]].
    destruct (Forwarder.write_message _ _ io l) as [ok l1] eqn:Ewr. destruct (write_message_ears _ _ _ _ _ Ewr) as (He & _).
    assert (lk_reader l1 = RdNone) as Hrd1 by (unfold ears in He; injection He as -> _ _ _; done).
    destruct (decide (k = g)) as [->|Hne].
    + destruct ok; simplify_eq; (eapply unheard; [exact Hinv|exact Ht|done|done|done|done|exact Hrd1]).
    + destruct ok; simplify_eq; (eapply setup_other; [done|done|done| |done]); [by right|by left].
  - apply bind_Some in H as (l & Hl & H). destruct (Hph k l eq_refl Hl) as [Hfr [[Hrd Hdec] (Hgr & Hdo & Hin & Hms)]].
    injection H as <-. unfold Forwarder.read_welcome in *.
    assert (∀ D2 l2 pc', fs_links D2 = <[k := l2]> (fs_links D) → fs_controls D2 = <[t := pc']> (fs_controls D) →
      control_gen pc' = None ∨ control_gen pc' = Some k → late g pc' = false → lk_reader l2 = RdNone → listening g D2) as Hset.
    { intros D2 l2 pc' El Ec Hg Hlate Hr2. destruct (decide (k = g)) as [->|Hne]; [eapply unheard; [exact Hinv|exact Ht|done|exact El|exact Ec|done|done]|by eapply setup_other]. }
    destruct (li_read io) as [cap [|b bytes]| |text];
      try (eapply Hset; [done|done|by left|done|done]).
    destruct (WireFacts.push_refines cap (b :: bytes) d Hdo) as [Hdo1 Hp1]. cbv zeta in *.
    destruct (FramedStream.next _ _) as [r d2] eqn:En.
    destruct r as [[m|]|e].
    + destruct m as [pid| |code|a|n|n]; try (eapply Hset; [done|done|by left|done|done]).
      destruct (decide (k = g)) as [->|Hne]; [|eapply setup_other; [done|done|done|by right|done]].
      intros m Hm. cbn in Hm. rewrite lookup_insert_eq in Hm. injection Hm as <-. split; [|intros Hnn; cbn in Hnn; by rewrite Hrd in Hnn]. intros _. cbn [lk_messages Forwarder.got].
      rewrite Hms. split; [|done].
      destruct (IngressFacts.next_taken F _ _ _ Hdo1 En) as (Hdo2 & f & Hp2 & Hf).
      destruct Hinv' as (_ & _ & Hr'). 
      match type of Hr' with rest_ok _ _ _ _ _ _ (fs_links ?D2) _ =>
        assert (fs_links D2 !! g = Some (Forwarder.got (b :: bytes) [AProducerWelcome] l)) as Hl2 by (cbn; apply lookup_insert_eq) end.
      destruct (ro_link _ _ _ _ _ _ _ _ Hr' _ _ Hl2) as [Hok2 _].
      assert (lk_input l ++ b :: bytes = f ++ pending d2) as Hsplit by (rewrite Hin, <-Hp1; done).
      pose proof (welcome_alone g i _ P _ _ f (pending d2) Hw' Hl2 Hok2 HP (proj1 Hgr) Hsplit Hf) as Hnil.
      split; [cbn; rewrite Hdec; unfold WireFacts.decoder_ok; cbn; lia|]. exists [f]. cbn. rewrite Hdec, Hsplit, Hnil, Hms. cbn.
      rewrite !app_nil_r. split; [done|]. by constructor.
    + eapply Hset; [done|done|by right|done|done].
    + eapply Hset; [done|done|by left|done|done].
  - apply bind_Some in H as (l & Hl & H). destruct (li_fail io); simplify_eq; [|by eapply Hto].
    destruct (Hph k l eq_refl Hl) as [_ [[Hrd _] _]].
    destruct (decide (k = g)) as [->|Hne]; [eapply unheard; [exact Hinv|exact Ht|done|done|done|done|done]|eapply setup_other; [done|done|done|by left|done]].
  - destruct u as [call|r ops|[| |e]].
    1,2: apply bind_Some in H as ([u' p'] & Hu & H); simplify_eq; by eapply Hto.
    { simplify_eq. by eapply Hto. }
    all: apply bind_Some in H as (l & Hl & H); simplify_eq; destruct (Hph k l eq_refl Hl) as [_ [[Hrd _] _]];
      (destruct (decide (k = g)) as [->|Hne]; [eapply unheard; [exact Hinv|exact Ht|done|done|done|done|done]|eapply setup_other; [done|done|done|by left|done]]).
  - apply bind_Some in H as (l & Hl & H). destruct (Hph k l eq_refl Hl) as [Hfr [[Hrd Hdec] (Hgr & Hms)]].
    destruct (li_fail io); simplify_eq.
    + destruct (decide (k = g)) as [->|Hne]; [eapply unheard; [exact Hinv|exact Ht|done|done|done|done|done]|eapply setup_other; [done|done|done|by left|done]].
    + destruct (decide (k = g)) as [->|Hne]; [|eapply setup_other; [done|done|done|by right|done]].
      intros m Hm. cbn in Hm. rewrite lookup_insert_eq in Hm. injection Hm as <-. destruct (HD l Hl) as [H1 _].
      destruct H1 as [Hd Hh]; [right; exists t, (CtReader raw g); split; [done|cbn; apply Z.eqb_refl]|].
      split; [done|]. intros _. by apply fresh_in_step.
  - apply bind_Some in H as (l & Hl & H). destruct (Hph k l eq_refl Hl) as [(Hw & Ho & Hloc) Hgr].
    assert (∀ D2 l2 pc', fs_links D2 = <[k := l2]> (fs_links D) → fs_controls D2 = <[t := pc']> (fs_controls D) →
      control_gen pc' = None → ears l2 = ears l → (in_step l → in_step l2) → listening g D2) as Hset.
    { intros D2 l2 pc' El Ec Hgen He Hs. destruct (decide (k = g)) as [->|Hne]; [|eapply setup_other; [done|done|done|by left|done]].
      intros m Hm. rewrite El, lookup_insert_eq in Hm. injection Hm as <-. destruct (HD l Hl) as [H1 H2].
      assert (setting_up g D) as Hsu by (exists t, (CtWriter raw g); split; [done|cbn; apply Z.eqb_refl]).
      unfold ears in He. injection He as Er Ed Ei Em. unfold decoded_link. rewrite Er, Ed, Ei, Em.
      split; [intros _; by apply H1; right|]. intros Hn. by apply Hs, H2. }
    destruct (li_fail io); simplify_eq.
    + eapply Hset; [done|done|done|done|by apply seen_in_step].
    + eapply Hset; [done|done|by destruct raw|done|].
      intros Hs. pose proof Hs as [_ _ H3 H4 _]. rewrite Hw in H3, H4. by eapply (writer_moves l).
  - destruct u as [call|r ops|r].
    1,2: apply bind_Some in H as ([u' p'] & Hu & H); simplify_eq; by eapply Hto.
    simplify_eq. by eapply Hto.
  - destruct u as [call|r ops|r].
    1,2: apply bind_Some in H as ([u' p'] & Hu & H); simplify_eq; by eapply Hto.
    simplify_eq. by eapply Hto.
Qed.
Lemma control_listening g t call D D' : listening g D → Forwarder.control_step t call D = Some D' → listening g D'.
Proof.
  unfold Forwarder.control_step. intros HD H.
  destruct (fs_controls D !! t) as [[]|]; try done; simplify_eq; (apply control_same; [|done]); by repeat case_match.
Qed.
Lemma publish_listening g i a D D' : listening g D → Forwarder.publish_step i a D = Some D' → listening g D'.
Proof.
  unfold Forwarder.publish_step. intros HD H. destruct (fs_publishers D !! i) as [[]|]; simplify_eq; by apply (rest_same g D).
Qed.
Lemma daemon_listening g i a D D' P :
  inv config limits alert_ok D → inv config limits alert_ok D' → proxy_fine i P → wired g i D P → wired g i D' P →
  listening g D → Forwarder.step config limits a D = Some D' → listening g D'.
Proof.
  intros Hinv Hinv' HP Hw Hw' HD H. destruct a; cbn [Forwarder.step] in H.
  - by eapply publish_listening.
  - by eapply publisher_listening.
  - eapply (reader_listening g i _ _ D D' P); done.
  - eapply (writer_listening g _ _ D D'); done.
  - eapply (control_listening g _ _ D D'); done.
  - eapply (controller_listening g i _ _ D D' P); done.
Qed.

(** ** All that holds of the two together *)

Record joint_ok (g : Z) (i : nat) D P : Prop := {
  jo_daemon : inv config limits alert_ok D;
  jo_ingress : IngressFacts.ingress_inv ingress P;
  jo_answers : all_fine P;
  jo_wired : wired g i D P;
  jo_listening : listening g D;
}.
Lemma joint_proxy_fine g i D P : joint_ok g i D P → proxy_fine i P.
Proof.
  intros [_ Hi Hf _ _] p Hp. split; [by eapply Hf|]. by destruct (IngressFacts.ig_producer _ _ _ _ _ Hi _ _ Hp).
Qed.
Lemma joint_reaches g i D P : joint g i D P → joint_ok g i D P.
Proof.
  induction 1 as [c file plugin Hnew|D P a D' _ IH Ha Hs Hw|D P a P' _ IH Hs Hw].
  - split; [by eapply start_inv|apply IngressFacts.ingress_start|by intros j p Hp|done|by intros l Hl].
  - assert (inv config limits alert_ok D') as Hinv by (eapply forwarder_step_inv; [apply IH|exact Ha|exact Hs]).
    split; [done|apply IH|apply IH|done|]. pose proof (joint_proxy_fine _ _ _ _ IH) as HP. destruct IH. by apply (daemon_listening g i a D D' P).
  - destruct IH as [H1 H2 H3 H4 H5].
    split; [done|by eapply IngressFacts.ingress_step_all|by eapply proxy_step_fine|done|done].
Qed.
Lemma joint_received g i D P l p :
  joint_ok g i D P → fs_links D !! g = Some l → px_producers P !! i = Some p →
  link_ok config limits alert_ok (pg_filters (fs_plugin D)) g l ∧
  ∃ more torn, lk_output l = pr_messages p ++ more ∧ begins torn ∧ Forall (λ m, carries m (frame limits m)) more ∧
    pending (pr_decoder p) `prefix_of` (concat (frame limits <$> more) ++ torn).
Proof.
  intros HJ Hg Hi. destruct (joint_proxy_fine _ _ _ _ HJ p Hi) as [[Hlim _] Hdec]. destruct HJ as [(_ & _ & Hr) _ _ Hw _].
  destruct (ro_link _ _ _ _ _ _ _ _ Hr g l Hg) as [Hok _]. split; [done|]. by eapply received_prefix.
Qed.
(** The message the proxy handles is one a daemon sends after its hello. *)
Lemma handled_said g l p m more filters :
  link_ok config limits alert_ok filters g l → lk_output l = pr_messages p ++ more →
  IngressFacts.producer_ok ingress p → pr_pc p = PrHandle m → said alert_ok m.
Proof.
  intros [_ _ _ _ Hs _ _] E [_ Hpc] Em. rewrite Em in Hpc. destruct Hpc as (_ & rest & (Hm & _) & Hin).
  unfold shaped in Hs. rewrite E, Hm in Hs. cbn in Hs. destruct Hs as (_ & Hs & _). apply Forall_app in Hs as [Hs _].
  by eapply (proj1 (Forall_forall _ _) Hs).
Qed.
Lemma ends_well g D l : listening g D → fs_links D !! g = Some l → reader_end (lk_reader l) ≠ Some EndProtocol.
Proof. intros HD Hg. destruct (HD l Hg) as [_ Hs]. destruct (lk_reader l) eqn:Er; try done; rewrite <-Er; by apply Hs. Qed.

(** C10: The daemon and the alert proxy understand each other.  Both run, with all their
    threads, connected by one stream socket on which each reads a part of what the other has
    written; both were configured with the same limits.  Then at every moment the messages
    the proxy has received are a prefix of those the daemon has written; the alerts among
    them are a prefix of the alerts the daemon accepted for this connection, less those too
    large for a frame, so none is lost in between, repeated or out of order; the proxy's
    decoder never refuses what it was sent, and after the hello the proxy only has alerts and
    heartbeats to handle.  The daemon never ends the connection for a violation of the
    protocol: every message it reads after the welcome is the answer to the one heartbeat it
    waits for. *)
Theorem daemon_to_proxy g i D P l :
  joint g i D P → fs_links D !! g = Some l →
  reader_end (lk_reader l) ≠ Some EndProtocol ∧
  ∀ p, px_producers P !! i = Some p →
    pr_messages p `prefix_of` lk_output l ∧
    alerts_of (pr_messages p) `prefix_of` filter (encodable limits) (lk_accepted l).*1.*1 ∧
    (∃ o d, FramedStream.next F (pr_decoder p) = (Ok o, d)) ∧
    (∀ m, pr_pc p = PrHandle m → match m with AForwardAlert _ | AHeartbeat _ => True | _ => False end).
Proof.
  intros HJ%joint_reaches Hg. split; [by eapply ends_well; [apply HJ|]|]. intros p Hi.
  destruct (joint_received g i D P l p HJ Hg Hi) as (Hok & more & torn & Eout & Hb & Hc & Hpre).
  destruct (joint_proxy_fine _ _ _ _ HJ p Hi) as [_ [Hdec _]].
  split; [rewrite Eout; by apply prefix_app_r|]. split.
  { destruct Hok as [_ _ (lost & Hf & _) _ _ _ _]. rewrite <-Hf, Eout, forwarded_app, <-app_assoc. by apply prefix_app_r. }
  split; [by eapply next_fine|]. intros m Em.
  pose proof (handled_said g l p m more _ Hok Eout (IngressFacts.ig_producer _ _ _ _ _ (jo_ingress _ _ _ _ HJ) _ _ Hi) Em) as Hs.
  by destruct m.
Qed.

(** ** Joint runs *)

(** The two take the given steps, and no byte is read before it was written. *)
Definition linked (g : Z) (i : nat) D P : bool :=
  match fs_links D !! g, px_producers P !! i with
  | Some l, Some p =>
      bool_decide (pr_input p `prefix_of` lk_wire l) && bool_decide (lk_input l `prefix_of` concat (frame limits <$> pr_output p))
  | Some l, None => bool_decide (lk_input l = [])
  | None, Some p => bool_decide (pr_input p = [])
  | None, None => true
  end.
Lemma linked_wired g i D P : linked g i D P = true → wired g i D P.
Proof.
  unfold linked, wired. destruct (fs_links D !! g), (px_producers P !! i); intros H; try done.
  - apply andb_true_iff in H as [H1%bool_decide_eq_true_1 H2%bool_decide_eq_true_1].
    split; [done|]. exists []. split; [by left|]. by rewrite app_nil_r.
  - by apply bool_decide_eq_true_1 in H.
  - by apply bool_decide_eq_true_1 in H.
Qed.
Fixpoint together (g : Z) (i : nat) (xs : list (ForwarderAction J + ProxyAction)) D P : option (ForwarderState J * ProxyState J) :=
  match xs with
  | [] => Some (D, P)
  | x :: rest =>
      '(D', P') ← match x with
                  | inl a => D' ← Forwarder.step config limits a D; Some (D', P)
                  | inr a => P' ← Proxy.step ingress subscriber a P; Some (D, P')
                  end;
      if linked g i D' P' then together g i rest D' P' else None
  end.
Lemma together_joint g i xs D P D' P' :
  (∀ k alert, inl (FwPublish k alert) ∈ xs → alert_ok alert) → joint g i D P →
  together g i xs D P = Some (D', P') → joint g i D' P'.
Proof.
  revert D P. induction xs as [|x xs IH]; cbn [together]; intros D P Ha HJ H; [by simplify_eq|].
  apply bind_Some in H as ([D1 P1] & Hs & H). destruct (linked g i D1 P1) eqn:El; [|done]. apply linked_wired in El.
  eapply (IH D1 P1); [intros k b Hb; eapply (Ha k); by right| |exact H].
  destruct x as [a|a]; apply bind_Some in Hs as (X & Hs & E); injection E as -> ->.
  - eapply joint_daemon; [exact HJ| |exact Hs|exact El]. intros k b ->. eapply (Ha k). left.
  - by eapply joint_proxy.
Qed.
End to_proxy.

#[local] Existing Instances IngressFacts.w_proxy_json IngressFacts.w_ct_eq ForwarderFacts.w_config_json.
Definition reads (bytes : list byte) : SocketRead := SockData 64 bytes.
Definition proxy (bytes : list byte) : ForwarderAction (list byte) + ProxyAction := inr (ActProducer 0 (IngressFacts.w_io (reads bytes))).
Definition controls (n : nat) : list (ForwarderAction (list byte) + ProxyAction) :=
  replicate n (inl (FwController 0 (ForwarderFacts.w_io ForwarderFacts.w_welcome))).
(** The proxy starts; the daemon connects, and an alert goes over the connection. *)
Definition w_together : list (ForwarderAction (list byte) + ProxyAction) :=
  inr (ActMain (MainReady true)) :: (inr <$> IngressFacts.w_connects (mkPeer 41 1000 1000)) ++
  inl (FwControl 0 (CtlUpdate "on")) :: controls 6 ++
  proxy (AtapStreamFacts.w_frame (AProducerHello 41)) :: replicate 3 (proxy []) ++ controls 20 ++
  (inl <$> ForwarderFacts.w_publishes) ++
  [proxy []; proxy (AtapStreamFacts.w_frame (AForwardAlert AtapStreamFacts.w_alert))].
Definition w_both := together ForwarderFacts.w_config ForwarderFacts.w_limits IngressFacts.w_ingress IngressFacts.w_subscriber 1 0
  w_together (Forwarder.start ForwarderFacts.w_plugin) Proxy.start.

Lemma daemon_to_proxy_witness :
  match w_both with
  | Some (D, P) =>
      ∃ l p, fs_links D !! 1 = Some l ∧ px_producers P !! 0%nat = Some p ∧
        alerts_of (pr_messages p) = [AtapStreamFacts.w_alert] ∧
        reader_end (lk_reader l) ≠ Some EndProtocol ∧ pr_messages p `prefix_of` lk_output l
  | None => False
  end.
Proof.
  assert (∀ k alert, inl (FwPublish k alert) ∈ w_together → alert_ok alert) as Ha.
  { intros k alert H. assert (alert = AtapStreamFacts.w_alert) as ->.
    { unfold w_together, controls, proxy in H. set_unfold. naive_solver. }
    split; [vm_compute; repeat split; (reflexivity || discriminate)|]. cbn. intros bs [= <-]. reflexivity. }
  destruct w_both as [[D P]|] eqn:E; [|vm_compute in E; discriminate].
  destruct (fs_links D !! 1) as [l|] eqn:Hl; [|vm_compute in E; injection E as <- <-; vm_compute in Hl; discriminate].
  destruct (px_producers P !! 0%nat) as [p|] eqn:Hp; [|vm_compute in E; injection E as <- <-; vm_compute in Hp; discriminate].
  exists l, p. split; [done|]. split; [done|]. split.
  { vm_compute in E. injection E as <- <-. vm_compute in Hp. injection Hp as <-. vm_compute. reflexivity. }
  destruct (daemon_to_proxy ForwarderFacts.w_config ForwarderFacts.w_limits IngressFacts.w_ingress IngressFacts.w_subscriber
    ltac:(vm_compute; reflexivity) ltac:(vm_compute; split; discriminate) 1 0 D P l) as [H1 H2]; [|done|].
  { eapply (together_joint _ _ _ _ _ _ _ _ _ _ _ Ha); [|exact E]. by eapply (joint_start _ _ _ _ _ _ ForwardingConfig.disabled None). }
  split; [done|]. by apply H2.
Defined.
End ToProxy.
