(* ===== verification/CommandText.v ===== *)
(** The text operations of [std] the command policy uses: Unicode whitespace
    ([trim], [split_whitespace], [char::is_whitespace]), splitting at a pattern,
    [lines], suffixes, and [i32] parsing.  A [str] is its UTF-8 bytes. *)
From stdpp Require Import prelude strings pretty.
From Stdlib Require Import ZArith Lia Ascii.
From S2P Require Import Prelude PolicyPath.

Open Scope Z_scope.

(** * Whitespace *)

Definition byte_val (a : ascii) : Z := Z.of_N (N_of_ascii a).

(** The code points of [char::is_whitespace], as one, two or three UTF-8 bytes. *)
Definition white1 (a : Z) : bool := ((9 <=? a) && (a <=? 13)) || (a =? 32).
Definition white2 (a b : Z) : bool := (a =? 0xC2) && ((b =? 0x85) || (b =? 0xA0)).
Definition white3 (a b c : Z) : bool :=
  ((a =? 0xE1) && (b =? 0x9A) && (c =? 0x80))
  || ((a =? 0xE2) && (b =? 0x80) &&
        (((0x80 <=? c) && (c <=? 0x8A)) || (c =? 0xA8) || (c =? 0xA9) || (c =? 0xAF)))
  || ((a =? 0xE2) && (b =? 0x81) && (c =? 0x9F))
  || ((a =? 0xE3) && (b =? 0x80) && (c =? 0x80)).

(** The whitespace character at the front of a text, if there is one. *)
Definition leading_white (s : string) : option string :=
  match s with
  | EmptyString => None
  | String a s1 =>
      if white1 (byte_val a) then Some (String a "")
      else match s1 with
           | EmptyString => None
           | String b s2 =>
               if white2 (byte_val a) (byte_val b) then Some (String a (String b ""))
               else match s2 with
                    | EmptyString => None
                    | String c _ =>
                        if white3 (byte_val a) (byte_val b) (byte_val c)
                        then Some (String a (String b (String c ""))) else None
                    end
           end
  end.

(** A text cut into whitespace characters ([inr]) and other bytes ([inl]). *)
Fixpoint chunks (skip : nat) (s : string) : list (ascii + string) :=
  match s with
  | EmptyString => []
  | String a s' =>
      match skip with
      | S k => chunks k s'
      | O => match leading_white s with
             | Some w => inr w :: chunks (String.length w - 1) s'
             | None => inl a :: chunks 0 s'
             end
      end
  end.
Definition is_white (c : ascii + string) : bool := match c with inr _ => true | inl _ => false end.
Definition unchunk (cs : list (ascii + string)) : string :=
  foldr (λ c acc, match c with inl a => String a acc | inr w => w +:+ acc end) EmptyString cs.

(** [s.trim()], [s.trim().is_empty()], [s.chars().any(char::is_whitespace)]. *)
Fixpoint drop_white (cs : list (ascii + string)) : list (ascii + string) :=
  match cs with
  | c :: cs' => if is_white c then drop_white cs' else cs
  | [] => []
  end.
Definition trim (s : string) : string :=
  unchunk (reverse (drop_white (reverse (drop_white (chunks 0 s))))).
Definition trim_is_empty (s : string) : bool := bool_decide (trim s = "").
Definition has_whitespace (s : string) : bool := existsb is_white (chunks 0 s).

(** [s.split_whitespace()]. *)
Fixpoint words (cs : list (ascii + string)) : string * list string :=
  match cs with
  | [] => (EmptyString, [])
  | inl a :: cs' => let '(w, ws) := words cs' in (String a w, ws)
  | inr _ :: cs' =>
      let '(w, ws) := words cs' in
      (EmptyString, if bool_decide (w = "") then ws else w :: ws)
  end.
Definition split_whitespace (s : string) : list string :=
  let '(w, ws) := words (chunks 0 s) in if bool_decide (w = "") then ws else w :: ws.

(** * Patterns *)

(** [s.strip_prefix(p)] and [s.strip_suffix(p)]. *)
Fixpoint strip_prefix (p s : string) : option string :=
  match p, s with
  | EmptyString, _ => Some s
  | String a p', String b s' => if bool_decide (a = b) then strip_prefix p' s' else None
  | String _ _, EmptyString => None
  end.
Fixpoint strip_suffix (p s : string) : option string :=
  if bool_decide (s = p) then Some EmptyString
  else match s with
       | EmptyString => None
       | String a s' => String a <$> strip_suffix p s'
       end.

(** [s.split_once(p)] at the first and [s.rsplit_once(p)] at the last occurrence. *)
Fixpoint split_once (p s : string) : option (string * string) :=
  match strip_prefix p s with
  | Some rest => Some (EmptyString, rest)
  | None => match s with
            | EmptyString => None
            | String a s' => '(l, r) ← split_once p s'; Some (String a l, r)
            end
  end.
Fixpoint rsplit_once (p s : string) : option (string * string) :=
  match s with
  | EmptyString => rest ← strip_prefix p s; Some (EmptyString, rest)
  | String a s' =>
      match rsplit_once p s' with
      | Some (l, r) => Some (String a l, r)
      | None => rest ← strip_prefix p s; Some (EmptyString, rest)
      end
  end.

(** [s.lines()]. *)
Definition newline : ascii := "010"%char.
Definition strip_cr (s : string) : string := default s (strip_suffix (String "013"%char "") s).
Definition lines (s : string) : list string :=
  match reverse (split_on newline s) with
  | [] => []
  | last :: terminated =>
      (strip_cr <$> reverse terminated) ++ (if bool_decide (last = "") then [] else [last])
  end.

(** * Numbers *)

(** [s.parse::<i32>()]: digits are accumulated towards the sign. *)
Definition i32_min : Z := - 2 ^ 31.
Definition i32_max : Z := 2 ^ 31 - 1.
Fixpoint parse_i32_digits (negative : bool) (acc : Z) (s : string) : result string Z :=
  match s with
  | EmptyString => Ok acc
  | String a s' =>
      match digit a with
      | None => Err "invalid digit found in string"
      | Some d =>
          let v := if negative then acc * 10 - d else acc * 10 + d in
          if v <? i32_min then Err "number too small to fit in target type"
          else if i32_max <? v then Err "number too large to fit in target type"
          else parse_i32_digits negative v s'
      end
  end.
Definition parse_i32 (s : string) : result string Z :=
  match s with
  | EmptyString => Err "cannot parse integer from empty string"
  | String "+" EmptyString | String "-" EmptyString => Err "invalid digit found in string"
  | String "+" s' => parse_i32_digits false 0 s'
  | String "-" s' => parse_i32_digits true 0 s'
  | _ => parse_i32_digits false 0 s
  end.

(** [n as u32] of a length or index. *)
Definition as_u32 (n : nat) : Z := Z.of_nat n mod 2 ^ 32.

(** [fs::read_to_string] of the rules file. *)
Inductive FileContents := Contents (raw : string) | FileNotFound | FileError (text : string).

(** A text that starts with a visible byte is not blank. *)
Lemma unchunk_visible a cs : inl a ∈ cs → unchunk cs ≠ "".
Proof.
  induction cs as [|c cs IH]; [by intros ?%elem_of_nil|]. intros [<-|H]%elem_of_cons; [done|].
  destruct c as [b|w]; [done|]. cbn. intros E. apply (IH H). destruct w; [done|discriminate].
Qed.
Lemma drop_white_visible a cs : inl a ∈ cs → inl a ∈ drop_white cs.
Proof.
  induction cs as [|c cs IH]; [done|]. intros H. cbn. destruct c as [b|w]; cbn; [done|].
  apply elem_of_cons in H as [?|H]; [done|auto].
Qed.
Lemma trim_visible a s : leading_white (String a s) = None → trim_is_empty (String a s) = false.
Proof.
  intros H. unfold trim_is_empty. apply bool_decide_eq_false. unfold trim. apply (unchunk_visible a).
  assert (inl a ∈ chunks 0 (String a s)) as Hin by (cbn [chunks]; rewrite H; left).
  apply elem_of_reverse, drop_white_visible, elem_of_reverse, drop_white_visible, Hin.
Qed.

(** * Checks on concrete texts *)

Lemma strip_suffix_Some p s b : strip_suffix p s = Some b → s = b +:+ p.
Proof.
  revert b. induction s as [|a s IH]; intros b; simpl; case_bool_decide as E;
    try (by intros [= <-]); try done.
  intros (b' & Hb & ->)%fmap_Some. by rewrite (IH b' Hb).
Qed.

Example trim_example : trim "  a b	" = "a b".
Proof. vm_compute. reflexivity. Qed.
Example words_example : split_whitespace " r1  deny exec /bin/sh " = ["r1"; "deny"; "exec"; "/bin/sh"].
Proof. vm_compute. reflexivity. Qed.
Example rsplit_example :
  rsplit_once " priority " "x priority 1 priority 2" = Some ("x priority 1", "2").
Proof. vm_compute. reflexivity. Qed.
Example i32_example :
  (parse_i32 "-2147483648", parse_i32 "2147483648", parse_i32 "-") =
  (Ok (-2147483648), Err "number too large to fit in target type",
   Err "invalid digit found in string").
Proof. vm_compute. reflexivity. Qed.
