(* ===== verification/FileScope.v ===== *)
(** Path scopes and stored rules of the file policy:
    crates/access_control/src/policy/file/{types,scope,model,validation,parser}.rs with
    the file-policy contract types of crates/core/plugin_system/src/control.rs.

    A Rust path is a text that compares by its components.  A path as it was written
    stays a [string]; a normalised or bound one is the list of its names, and both are
    paths through [AsPath].  The directory tree below a path is a parameter. *)
From stdpp Require Import prelude gmap strings pretty.
From Stdlib Require Import ZArith Lia Ascii.
From S2P Require Import Prelude Wire PolicyPath CommandText.

Open Scope Z_scope.

(** * Contract types (control.rs) *)

Inductive FilePolicyDecision := FileDefault | FileAllow | FileDeny | FileGray.
#[export] Instance file_decision_eq_dec : EqDecision FilePolicyDecision.
Proof. solve_decision. Defined.

Inductive FilePolicyOperation := OpAny | OpOpen | OpMkdir | OpRmdir.
#[export] Instance file_operation_eq_dec : EqDecision FilePolicyOperation.
Proof. solve_decision. Defined.

Inductive FilePolicyPatchOp := FileUpsert | FileDelete | FileEnable | FileDisable.
#[export] Instance file_patch_eq_dec : EqDecision FilePolicyPatchOp.
Proof. solve_decision. Defined.
Inductive FilePolicyApplyMode := Partial | Aon.
#[export] Instance file_mode_eq_dec : EqDecision FilePolicyApplyMode.
Proof. solve_decision. Defined.
Inductive FilePolicyApplyStatus := FileAccepted | FileRejected.

Record FilePolicyRuleDraft := mkFileDraft {
  fd_rule_id : option string;
  fd_decision : FilePolicyDecision;
  fd_operation : FilePolicyOperation;
  fd_path : string;
  fd_gray_target : option Z;              (* u64 *)
  fd_priority : Z;                        (* i32 *)
}.

Record FilePolicyPatchItem := mkFileItem {
  fi_op : FilePolicyPatchOp;
  fi_rule_id : option string;
  fi_rule : option FilePolicyRuleDraft;
}.

(** [FilePolicyApplyPrecondition]; only these two fields are ever read. *)
Record FilePolicyApplyPrecondition := mkFilePrecondition {
  pre_base_revision : Z;                  (* u64 *)
  pre_apply_mode : FilePolicyApplyMode;
}.
Record FilePolicyApplyRequest := mkFileRequest {
  frq_items : list FilePolicyPatchItem;
  frq_precondition : FilePolicyApplyPrecondition;
}.

Record FilePolicyApplyError := mkFileError {
  fe_item_index : Z;                      (* u32 *)
  fe_code : string;
  fe_message : string;
}.
Record FilePolicyApplyResult := mkFileResult {
  fr_status : FilePolicyApplyStatus;
  fr_new_revision : Z;
  fr_applied_count : Z;
  fr_rejected_count : Z;
  fr_errors : list FilePolicyApplyError;
}.

Record FilePolicyRuleView := mkFileView {
  fv_rule_id : string;
  fv_owner_instance_id : string;
  fv_decision : FilePolicyDecision;
  fv_operation : FilePolicyOperation;
  fv_path : string;
  fv_gray_target : option Z;
  fv_priority : Z;
  fv_enabled : bool;
  fv_updated_sequence : Z;
}.
Record FilePolicyListFilter := mkFileFilter {
  ff_decision : option FilePolicyDecision;
  ff_path_prefix : option string;
  ff_operation : option FilePolicyOperation;
}.
Record FilePolicyListResult := mkFileList {
  fl_rules : list FilePolicyRuleView;
  fl_next_cursor : option string;
  fl_source_revision : Z;
}.
Record FilePolicyMatchDryRunRequest := mkFileDryRun {
  fdr_path : string;
  fdr_operation : FilePolicyOperation;
}.
Record FilePolicyMatchDryRunResult := mkFileDryRunResult {
  fdres_matched : bool;
  fdres_decision : FilePolicyDecision;
  fdres_rule_id : option string;
  fdres_operation : FilePolicyOperation;
  fdres_canonical_path : string;
  fdres_source_revision : Z;
}.
Record FilePolicyRulesApplyGrant := mkFileGrant {
  fg_decision : FilePolicyDecision;
  fg_path_scope : string;
}.

Module FileNames.
Definition decision_as_str (d : FilePolicyDecision) : string :=
  match d with
  | FileDefault => "default" | FileAllow => "allow" | FileDeny => "deny" | FileGray => "gray"
  end.
Definition operation_as_str (o : FilePolicyOperation) : string :=
  match o with OpAny => "any" | OpOpen => "open" | OpMkdir => "mkdir" | OpRmdir => "rmdir" end.
Definition operation_from_wire (value : string) : result string FilePolicyOperation :=
  match str_match [("any", OpAny); ("open", OpOpen); ("mkdir", OpMkdir); ("rmdir", OpRmdir)] value with
  | Some o => Ok o
  | None => Err ("unsupported file policy operation " +:+ value
                   +:+ "; expected any, open, mkdir, or rmdir")
  end.
(** [FilePolicyOperation::matches]. *)
Definition op_matches (o actual : FilePolicyOperation) : bool :=
  bool_decide (o = OpAny) || bool_decide (o = actual).
End FileNames.

(** * types.rs *)

Inductive EnforcementDecision := EnforceAllow | EnforceDeny.
#[export] Instance enforcement_eq_dec : EqDecision EnforcementDecision.
Proof. solve_decision. Defined.

Inductive RuleDecision :=
| LocalDecision (d : EnforcementDecision)
| SyncPlugin (instance_id : string) (timeout_ms concurrency_limit : Z) (fallback : EnforcementDecision).
#[export] Instance rule_decision_eq_dec : EqDecision RuleDecision.
Proof. solve_decision. Defined.

Definition BUILTIN_POLICY_OWNER : string := "actrail.builtin".
Definition FILE_STATIC_OWNER : string := "actrail.static".
Definition HOST_RULE_ID_PREFIX : string := "fp".
Definition DEFAULT_GRAY_TIMEOUT_MS : Z := 30000.
Definition DEFAULT_GRAY_CONCURRENCY_LIMIT : Z := 32.
Definition DEFAULT_GRAY_FALLBACK : EnforcementDecision := EnforceDeny.

Definition parse_enforcement (value : string) : result string EnforcementDecision :=
  match str_match [("allow", EnforceAllow); ("deny", EnforceDeny)] value with
  | Some d => Ok d
  | None => Err ("expected allow or deny, got " +:+ value)
  end.

(** [RuleDecision::from_policy]. *)
Definition from_policy (decision : FilePolicyDecision) (gray_target : option Z)
    : result string RuleDecision :=
  match decision with
  | FileAllow => Ok (LocalDecision EnforceAllow)
  | FileDeny => Ok (LocalDecision EnforceDeny)
  | FileGray =>
      match gray_target with
      | None => Err "gray rule requires gray_target"
      | Some target =>
          Ok (SyncPlugin (fmt_u target) DEFAULT_GRAY_TIMEOUT_MS DEFAULT_GRAY_CONCURRENCY_LIMIT
                DEFAULT_GRAY_FALLBACK)
      end
  | FileDefault => Err "file policy rule decision cannot be default"
  end.

(** * scope.rs *)

(** What [Path] methods see of a path. *)
Class AsPath (P : Type) : Type := {
  path_components : P → list component;
  path_display : P → string;
}.
#[export] Instance raw_path : AsPath string :=
  {| path_components := Paths.components; path_display := λ s, s |}.
#[export] Instance resolved_path : AsPath (list string) :=
  {| path_components := λ p, RootDir :: (Normal <$> p); path_display := Paths.display |}.

(** [Path::eq] and [Path::starts_with] compare components. *)
Definition path_eq {P Q} `{!AsPath P, !AsPath Q} (p : P) (q : Q) : bool :=
  bool_decide (path_components p = path_components q).
Definition path_starts_with {P Q} `{!AsPath P, !AsPath Q} (p : P) (base : Q) : bool :=
  bool_decide (take (length (path_components base)) (path_components p) = path_components base).

Inductive PathScope (P : Type) := Exact (path : P) | RecursiveScope (base : P).
Arguments Exact {P} path.
Arguments RecursiveScope {P} base.
#[export] Instance path_scope_eq_dec `{EqDecision P} : EqDecision (PathScope P).
Proof. solve_decision. Defined.
#[export] Instance path_scope_fmap : FMap PathScope := λ A B f s,
  match s with Exact p => Exact (f p) | RecursiveScope p => RecursiveScope (f p) end.

(** The directory tree below a path, as [read_dir] and [file_type] report it. *)
Inductive DirListing :=
| ReadDirError (text : string)
| Listing (entries : list DirEntry)
with DirEntry :=
| EntryError (text : string)
| EntryTypeError (name text : string)
| EntryOther (name : string)
| EntryDirectory (name : string) (below : DirListing).

Class Directories : Type := {
  is_dir_metadata : PathBuf → result string bool;   (* [fs::metadata(p)?.is_dir()] *)
  listing : PathBuf → DirListing;
}.

Module FScope.
Definition display_base {P} (s : PathScope P) : P :=
  match s with Exact p | RecursiveScope p => p end.
Definition is_recursive {P} (s : PathScope P) : bool :=
  match s with Exact _ => false | RecursiveScope _ => true end.
Definition display_path {P} `{!AsPath P} (s : PathScope P) : string :=
  match s with
  | Exact p => path_display p
  | RecursiveScope p => path_display p +:+ "/**"
  end.

(** [bind]. *)
Definition bind `{!FileSystem} (env : EnvVar) (s : PathScope string)
    : result string (PathScope PathBuf) :=
  p ← policy_bind env (display_base s);
  Ok (match s with Exact _ => Exact p | RecursiveScope _ => RecursiveScope p end).

Definition matches_path {P Q} `{!AsPath P, !AsPath Q} (s : PathScope P) (path : Q) : bool :=
  match s with
  | Exact p => path_eq p path
  | RecursiveScope base => path_starts_with path base
  end.

Definition contains_scope {P Q} `{!AsPath P, !AsPath Q} (s : PathScope P) (o : PathScope Q) : bool :=
  match s, o with
  | Exact p, Exact q => path_eq p q
  | Exact _, RecursiveScope _ => false
  | RecursiveScope base, (Exact q | RecursiveScope q) => path_starts_with q base
  end.

(** [absolute_path], [normalized_absolute_path] and the two scope parsers. *)
Definition absolute_path (path : string) : result string string :=
  if Paths.is_absolute path then Ok path
  else Err ("path " +:+ path +:+ " must be absolute").
Definition normalized_absolute_path (path : string) : result string PathBuf :=
  if Paths.is_absolute path
  then Ok (foldl ExecutablePath.normalize_step [] (Paths.components path))
  else Err ("path " +:+ path +:+ " must be absolute").
Definition parse_scope {P} (parse : string → result string P) (path : string)
    : result string (PathScope P) :=
  match strip_suffix "/**" path with
  | Some base =>
      if bool_decide (base = "") then Err "recursive path scope base must not be empty"
      else RecursiveScope <$> parse base
  | None => Exact <$> parse path
  end.
Definition absolute_scope : string → result string (PathScope string) := parse_scope absolute_path.
Definition normalized_scope : string → result string (PathScope PathBuf) :=
  parse_scope normalized_absolute_path.

(** [collect_existing_directories]. *)
Fixpoint collect_existing (root : PathBuf) (l : DirListing) (acc : gset PathBuf)
    : result string (gset PathBuf) :=
  let acc := {[root]} ∪ acc in
  match l with
  | ReadDirError text =>
      Err ("fanotify recursive open coverage requires existing directory "
             +:+ Paths.display root +:+ ": " +:+ text)
  | Listing entries =>
      (fix go (entries : list DirEntry) (acc : gset PathBuf) : result string (gset PathBuf) :=
         match entries with
         | [] => Ok acc
         | EntryError text :: _ => Err ("read_dir " +:+ Paths.display root +:+ ": " +:+ text)
         | EntryTypeError name text :: _ =>
             Err ("read directory type " +:+ Paths.display (Paths.push root name) +:+ ": " +:+ text)
         | EntryOther _ :: rest => go rest acc
         | EntryDirectory name below :: rest =>
             match collect_existing (Paths.push root name) below acc with
             | Ok acc' => go rest acc'
             | Err e => Err e
             end
         end) entries acc
  end.

(** [PathScope::collect_mark_directories]; the parent of a bound path. *)
Definition collect_mark_directories `{!Directories} (s : PathScope PathBuf)
    : result string (gset PathBuf) :=
  match s with
  | Exact path =>
      if bool_decide (path = [])
      then Err ("enforcement rule " +:+ Paths.display path +:+ " has no parent path")
      else
        let parent := Paths.pop path in
        match is_dir_metadata parent with
        | Err e =>
            Err ("fanotify open coverage requires existing parent directory "
                   +:+ Paths.display parent +:+ " for " +:+ Paths.display path +:+ ": " +:+ e)
        | Ok false =>
            Err ("fanotify open coverage parent " +:+ Paths.display parent +:+ " for "
                   +:+ Paths.display path +:+ " is not a directory")
        | Ok true => Ok {[parent]}
        end
  | RecursiveScope base => collect_existing base (listing base) ∅
  end.
End FScope.

(** * model.rs *)

Record EnforcementRule := mkEnforcement {
  er_owner_instance_id : string;
  er_rule_id : string;
  er_decision : RuleDecision;
  er_operation : string;
  er_path : string;
}.
#[export] Instance enforcement_rule_eq_dec : EqDecision EnforcementRule.
Proof. solve_decision. Defined.

Inductive RuleTier := TierPlugin | TierStatic | TierBuiltin.
#[export] Instance tier_eq_dec : EqDecision RuleTier.
Proof. solve_decision. Defined.
Inductive RuleIdentityKind := HostAuto | ExplicitId | StaticId | BuiltinId.
#[export] Instance identity_kind_eq_dec : EqDecision RuleIdentityKind.
Proof. solve_decision. Defined.

Record StoredPolicyRule := mkFileRule {
  sr_owner_instance_id : string;
  sr_rule_id : string;
  sr_tier : RuleTier;
  sr_identity : RuleIdentityKind;
  sr_decision : FilePolicyDecision;
  sr_operation : FilePolicyOperation;
  sr_scope : PathScope string;
  sr_execution_scope : PathScope PathBuf;
  sr_mark_directories : gset PathBuf;
  sr_gray_target : option Z;
  sr_priority : Z;
  sr_enabled : bool;
  sr_updated_revision : Z;
  sr_updated_sequence : Z;
  sr_rule : EnforcementRule;
}.
#[export] Instance stored_rule_eq_dec : EqDecision StoredPolicyRule.
Proof. solve_decision. Defined.

Module FRule.
Definition tier_rank (t : RuleTier) : Z :=
  match t with TierStatic | TierPlugin => 0 | TierBuiltin => 1 end.

(** The text of a normalised scope, which is how it is kept. *)
Definition scope_text : PathScope PathBuf → PathScope string := fmap Paths.display.

(** [StoredPolicyRule::new]. *)
Definition new `{!FileSystem} (env : EnvVar) (owner rule_id : string) (tier : RuleTier)
    (identity : RuleIdentityKind) (decision : FilePolicyDecision) (operation : FilePolicyOperation)
    (scope : PathScope string) (gray_target : option Z) (priority : Z) (enabled : bool)
    (updated_revision updated_sequence : Z) : result string StoredPolicyRule :=
  if bool_decide (decision = FileDefault) then Err "file policy rule decision cannot be default"
  else
    execution_scope ← FScope.bind env scope;
    normalized ← FScope.normalized_scope (FScope.display_path scope);
    rule_decision ← from_policy decision gray_target;
    Ok (mkFileRule owner rule_id tier identity decision operation (scope_text normalized)
          execution_scope ∅ gray_target priority enabled updated_revision updated_sequence
          (mkEnforcement owner rule_id rule_decision (FileNames.operation_as_str operation)
             (Paths.display (FScope.display_base execution_scope)))).

(** [from_draft]. *)
Definition draft_rule_id (item_rule_id draft_id : option string) (next_rule_id : Z) : string :=
  match item_rule_id with
  | Some id => id
  | None => match draft_id with
            | Some id => id
            | None => HOST_RULE_ID_PREFIX +:+ "-" +:+ fmt_u next_rule_id
            end
  end.
Definition from_draft `{!FileSystem} (env : EnvVar) (owner : string) (draft : FilePolicyRuleDraft)
    (item_rule_id : option string) (updated_revision updated_sequence next_rule_id : Z)
    : result string StoredPolicyRule :=
  let rule_id := draft_rule_id item_rule_id (fd_rule_id draft) next_rule_id in
  if trim_is_empty rule_id then Err "rule_id must not be empty"
  else
    let identity := match item_rule_id, fd_rule_id draft with None, None => HostAuto | _, _ => ExplicitId end in
    scope ← FScope.absolute_scope (fd_path draft);
    new env owner rule_id TierPlugin identity (fd_decision draft) (fd_operation draft) scope
      (fd_gray_target draft) (fd_priority draft) true updated_revision updated_sequence.

Definition matches_path (r : StoredPolicyRule) (operation : FilePolicyOperation) (path : string) : bool :=
  FileNames.op_matches (sr_operation r) operation && FScope.matches_path (sr_execution_scope r) path.
Definition is_host_auto (r : StoredPolicyRule) : bool := bool_decide (sr_identity r = HostAuto).
Definition scope_eq (s o : PathScope string) : bool :=
  match s, o with
  | Exact p, Exact q | RecursiveScope p, RecursiveScope q => path_eq p q
  | _, _ => false
  end.
Definition has_same_logical_scope (r o : StoredPolicyRule) : bool :=
  bool_decide (sr_owner_instance_id r = sr_owner_instance_id o) &&
  bool_decide (sr_operation r = sr_operation o) && scope_eq (sr_scope r) (sr_scope o).
Definition is_builtin_allow (r : StoredPolicyRule) : bool :=
  bool_decide (sr_tier r = TierBuiltin) && bool_decide (sr_decision r = FileAllow) &&
  bool_decide (sr_operation r = OpOpen).
Definition contributes_mark_directories (r : StoredPolicyRule) : bool :=
  negb (bool_decide (sr_tier r = TierBuiltin)) && FileNames.op_matches (sr_operation r) OpOpen.

(** [collect_mark_directories] and [prepare_mark_directories]. *)
Definition collect_mark_directories `{!Directories} (r : StoredPolicyRule)
    : result string (gset PathBuf) :=
  if contributes_mark_directories r
  then map_err (λ e, "operation " +:+ FileNames.operation_as_str (sr_operation r)
                       +:+ " requires fanotify open coverage: " +:+ e)
         (FScope.collect_mark_directories (sr_execution_scope r))
  else Ok ∅.
Definition with_marks (m : gset PathBuf) (r : StoredPolicyRule) : StoredPolicyRule :=
  mkFileRule (sr_owner_instance_id r) (sr_rule_id r) (sr_tier r) (sr_identity r) (sr_decision r)
    (sr_operation r) (sr_scope r) (sr_execution_scope r) m (sr_gray_target r) (sr_priority r)
    (sr_enabled r) (sr_updated_revision r) (sr_updated_sequence r) (sr_rule r).
Definition prepare_mark_directories `{!Directories} (r : StoredPolicyRule)
    : result string StoredPolicyRule :=
  m ← collect_mark_directories r; Ok (with_marks m r).

(** The assignments of enabling and disabling. *)
Definition with_enabled (enabled : bool) (updated_revision updated_sequence : Z)
    (r : StoredPolicyRule) : StoredPolicyRule :=
  mkFileRule (sr_owner_instance_id r) (sr_rule_id r) (sr_tier r) (sr_identity r) (sr_decision r)
    (sr_operation r) (sr_scope r) (sr_execution_scope r) (sr_mark_directories r) (sr_gray_target r)
    (sr_priority r) enabled updated_revision updated_sequence (sr_rule r).

Definition matches_filter (f : FilePolicyListFilter) (r : StoredPolicyRule) : bool :=
  match ff_decision f with None => true | Some d => bool_decide (d = sr_decision r) end &&
  match ff_operation f with None => true | Some o => bool_decide (o = sr_operation r) end &&
  match ff_path_prefix f with
  | None => true
  | Some prefix => String.prefix prefix (FScope.display_path (sr_scope r))
  end.
Definition view (r : StoredPolicyRule) : FilePolicyRuleView :=
  mkFileView (sr_rule_id r) (sr_owner_instance_id r) (sr_decision r) (sr_operation r)
    (FScope.display_path (sr_scope r)) (sr_gray_target r) (sr_priority r) (sr_enabled r)
    (sr_updated_sequence r).
Definition execution_view (r : StoredPolicyRule) : FilePolicyRuleView :=
  mkFileView (sr_rule_id r) (sr_owner_instance_id r) (sr_decision r) (sr_operation r)
    (FScope.display_path (sr_execution_scope r)) (sr_gray_target r) (sr_priority r) (sr_enabled r)
    (sr_updated_sequence r).
End FRule.

(** * validation.rs *)

Module FValidation.
(** The loop of [validate_bound_grant]: a grant that does not parse ends it. *)
Fixpoint validate_bound_grant `{!FileSystem} (env : EnvVar)
    (grants : list FilePolicyRulesApplyGrant) (r : StoredPolicyRule) : result string () :=
  match grants with
  | [] => Err ("missing file-policy.rules.apply grant for bound target "
                 +:+ FScope.display_path (sr_execution_scope r))
  | g :: rest =>
      if bool_decide (fg_decision g = sr_decision r) then
        scope ← FScope.normalized_scope (fg_path_scope g);
        if FScope.contains_scope scope (sr_scope r) &&
           is_ok_and (λ bound, FScope.contains_scope bound (sr_execution_scope r))
             (raw ← FScope.absolute_scope (fg_path_scope g); FScope.bind env raw)
        then Ok ()
        else validate_bound_grant env rest r
      else validate_bound_grant env rest r
  end.

Definition validate_rule_grant {P} `{!AsPath P} (grants : list FilePolicyRulesApplyGrant)
    (decision : FilePolicyDecision) (scope : PathScope P) : result string () :=
  if existsb (λ g, bool_decide (fg_decision g = decision) &&
       is_ok_and (λ grant_scope, FScope.contains_scope grant_scope scope)
         (FScope.normalized_scope (fg_path_scope g))) grants
  then Ok ()
  else Err ("missing file-policy.rules.apply grant for "
              +:+ FileNames.decision_as_str decision +:+ " " +:+ FScope.display_path scope).

Definition validate_draft_grant (grants : list FilePolicyRulesApplyGrant)
    (draft : FilePolicyRuleDraft) : result string () :=
  scope ← FScope.normalized_scope (fd_path draft);
  validate_rule_grant grants (fd_decision draft) scope.

Definition apply_result_from_errors (revision applied_count : Z) (errors : list FilePolicyApplyError)
    : FilePolicyApplyResult :=
  mkFileResult (match errors with [] => FileAccepted | _ => FileRejected end) revision applied_count
    (as_u32 (length errors)) errors.
End FValidation.

(** * parser.rs *)

(** [str::parse::<u32>]. *)
Fixpoint parse_u32_digits (acc : Z) (s : string) : result string Z :=
  match s with
  | EmptyString => Ok acc
  | String a s' =>
      match digit a with
      | None => Err "invalid digit found in string"
      | Some d =>
          let v := acc * 10 + d in
          if v <=? u32_max then parse_u32_digits v s'
          else Err "number too large to fit in target type"
      end
  end.
Definition parse_u32 (s : string) : result string Z :=
  match s with
  | EmptyString => Err "cannot parse integer from empty string"
  | String "+" EmptyString => Err "invalid digit found in string"
  | String "+" s' => parse_u32_digits 0 s'
  | _ => parse_u32_digits 0 s
  end.

Module FParser.
Definition usage : string :=
  "expected: <rule_id> <allow|deny> <any|open|mkdir|rmdir> <absolute-path> or <rule_id> gray sync-plugin <instance> timeout-ms <positive-ms> concurrency <positive-limit> fallback <allow|deny> <any|open|mkdir|rmdir> <absolute-path>".

Definition parse_positive (parse : string → result string Z) (name raw : string) : result string Z :=
  value ← map_err (λ e, name +:+ " must be a positive integer: " +:+ e) (parse raw);
  if value =? 0 then Err (name +:+ " must be greater than zero") else Ok value.
Definition parse_positive_u64 : string → string → result string Z := parse_positive parse_usize.
Definition parse_positive_u32 : string → string → result string Z := parse_positive parse_u32.

Definition parse_local_rule (rule_id decision operation path : string)
    : result string EnforcementRule :=
  op ← FileNames.operation_from_wire operation;
  d ← parse_enforcement decision;
  p ← FScope.absolute_path path;
  Ok (mkEnforcement FILE_STATIC_OWNER rule_id (LocalDecision d) (FileNames.operation_as_str op) p).

Definition parse_sync_plugin_rule (rule_id instance_id timeout_ms concurrency_limit fallback
    operation path : string) : result string EnforcementRule :=
  op ← FileNames.operation_from_wire operation;
  if trim_is_empty instance_id then Err "sync-plugin instance id must not be empty"
  else
    timeout ← parse_positive_u64 "timeout-ms" timeout_ms;
    limit ← parse_positive_u32 "concurrency" concurrency_limit;
    d ← parse_enforcement fallback;
    p ← FScope.absolute_path path;
    Ok (mkEnforcement FILE_STATIC_OWNER rule_id (SyncPlugin instance_id timeout limit d)
          (FileNames.operation_as_str op) p).

(** [parse_rule]. *)
Definition parse_rule (raw : string) : result string EnforcementRule :=
  match split_whitespace raw with
  | [rule_id; decision; operation; path] => parse_local_rule rule_id decision operation path
  | [rule_id; gray; sync; instance_id; k1; timeout_ms; k2; limit; k3; fallback; operation; path] =>
      if bool_decide ((gray, sync, k1, k2, k3) =
                      ("gray", "sync-plugin", "timeout-ms", "concurrency", "fallback"))
      then parse_sync_plugin_rule rule_id instance_id timeout_ms limit fallback operation path
      else Err usage
  | _ => Err usage
  end.
End FParser.
