(* ===== verification/FilePolicy.v ===== *)
(** The file-access policy store: crates/access_control/src/policy/file/store.rs and
    store/query.rs, on the scopes and rules of [FileScope].

    The store keeps the rules of each owner; [effective_rules], the enabled rules in
    decision order, and [mark_directories], the directories to watch, are rebuilt when
    the revision changes.  An error in the middle of an update returns with the rules
    already changed, as the code does. *)
From stdpp Require Import prelude gmap strings pretty sorting.
From Stdlib Require Import ZArith Lia Ascii.
From S2P Require Import Prelude Wire PolicyPath CommandText FileScope.

Open Scope Z_scope.

Inductive FileRuleCoverage := Fanotify | Lsm.
#[export] Instance coverage_eq_dec : EqDecision FileRuleCoverage.
Proof. solve_decision. Defined.

Abbreviation OwnerRules := (gmap string StoredPolicyRule) (only parsing).

Record EnforcementRules := mkRules {
  coverage : FileRuleCoverage;
  revision : Z;                          (* u64 *)
  next_rule_id : Z;
  next_sequence : Z;
  by_owner : gmap string (gmap string StoredPolicyRule);
  effective_rules : list StoredPolicyRule;
  mark_directories : gset PathBuf;
}.

Record BuiltinIgnoreMark := mkIgnoreMark { im_path : PathBuf; im_recursive : bool }.

Definition saturating_add_u64 (a b : Z) : Z := Z.min u64_max (a + b).
Definition saturating_add_u32 (a b : Z) : Z := Z.min u32_max (a + b).

Module FStore.
(** [empty_with_coverage]. *)
Definition empty_with_coverage (c : FileRuleCoverage) : EnforcementRules :=
  mkRules c 0 1 1 ∅ [] ∅.

Definition set_owners (o : gmap string (gmap string StoredPolicyRule)) (s : EnforcementRules)
    : EnforcementRules :=
  mkRules (coverage s) (revision s) (next_rule_id s) (next_sequence s) o (effective_rules s)
    (mark_directories s).
Definition set_rule_id (v : Z) (s : EnforcementRules) : EnforcementRules :=
  mkRules (coverage s) (revision s) v (next_sequence s) (by_owner s) (effective_rules s)
    (mark_directories s).
Definition set_revision (v : Z) (s : EnforcementRules) : EnforcementRules :=
  mkRules (coverage s) v (next_rule_id s) (next_sequence s) (by_owner s) (effective_rules s)
    (mark_directories s).

(** [next_sequence]: the number to use, and the store after taking it. *)
Definition take_sequence (s : EnforcementRules) : Z * EnforcementRules :=
  (next_sequence s,
   mkRules (coverage s) (revision s) (next_rule_id s) (saturating_add_u64 (next_sequence s) 1)
     (by_owner s) (effective_rules s) (mark_directories s)).

(** ** The effective rules *)

Definition all_rules (owners : gmap string (gmap string StoredPolicyRule)) : list StoredPolicyRule :=
  bt_flat owners.

(** The comparison of [rebuild_effective]: builtin first, then higher priority, then
    the later update. *)
Definition rank (r : StoredPolicyRule) : Z * (Z * Z) :=
  (- FRule.tier_rank (sr_tier r), (- sr_priority r, - sr_updated_sequence r)).
Definition rule_le : relation StoredPolicyRule := λ a b, bo_le (rank a) (rank b).
#[global] Instance rule_le_dec : RelDecision rule_le.
Proof. intros a b. unfold rule_le. apply _. Defined.

Definition effective_of (owners : gmap string (gmap string StoredPolicyRule)) : list StoredPolicyRule :=
  merge_sort rule_le (List.filter sr_enabled (all_rules owners)).
Definition marks_of (c : FileRuleCoverage) (effective : list StoredPolicyRule) : gset PathBuf :=
  if bool_decide (c = Fanotify)
  then ⋃ (sr_mark_directories <$> List.filter FRule.contributes_mark_directories effective)
  else ∅.
Definition rebuild_effective (s : EnforcementRules) : EnforcementRules :=
  let effective := effective_of (by_owner s) in
  mkRules (coverage s) (revision s) (next_rule_id s) (next_sequence s) (by_owner s) effective
    (marks_of (coverage s) effective).
Definition bump_revision (s : EnforcementRules) : EnforcementRules :=
  rebuild_effective (set_revision (saturating_add_u64 (revision s) 1) s).

(** [mark_directories.iter().cloned().collect()]. *)
Definition mark_list (s : EnforcementRules) : list PathBuf := bs_list (mark_directories s).

(** ** Queries (query.rs) *)

Definition find_path (s : EnforcementRules) (operation : FilePolicyOperation) (path : string)
    : option EnforcementRule :=
  sr_rule <$> List.find (λ r, FRule.matches_path r operation path) (effective_rules s).
Definition has_operation_rules (s : EnforcementRules) (operation : FilePolicyOperation) : bool :=
  existsb (λ r, FileNames.op_matches (sr_operation r) operation) (effective_rules s).
Definition find_builtin_allow (s : EnforcementRules) (path : string) : option EnforcementRule :=
  sr_rule <$> List.find (λ r, FRule.is_builtin_allow r && FRule.matches_path r OpOpen path)
                (effective_rules s).
Definition builtin_ignore_marks (s : EnforcementRules) : list BuiltinIgnoreMark :=
  (λ r, mkIgnoreMark (FScope.display_base (sr_execution_scope r))
          (FScope.is_recursive (sr_execution_scope r)))
    <$> List.filter FRule.is_builtin_allow (effective_rules s).
Definition effective_rule_views (s : EnforcementRules) : list FilePolicyRuleView :=
  FRule.execution_view <$> effective_rules s.

Definition view_le : relation FilePolicyRuleView := λ a b, bo_le (fv_rule_id a) (fv_rule_id b).
#[global] Instance file_view_le_dec : RelDecision view_le.
Proof. intros a b. unfold view_le. apply _. Defined.
(** [list]; a cursor that is not a number counts as none. *)
Definition list_rules (s : EnforcementRules) (f : FilePolicyListFilter) (cursor : option string)
    (limit : Z) : FilePolicyListResult :=
  let start := match cursor with
               | Some raw => match parse_usize raw with Ok v => v | Err _ => 0 end
               | None => 0
               end in
  let limit := Z.max limit 1 in
  let views := merge_sort view_le
                 (FRule.view <$> List.filter (FRule.matches_filter f) (all_rules (by_owner s))) in
  let rules := take (Z.to_nat limit) (drop (Z.to_nat start) views) in
  let next := saturating_add_u64 start (Z.of_nat (length rules)) in
  mkFileList rules (if next <? Z.of_nat (length views) then Some (fmt_u next) else None) (revision s).

Definition match_dry_run `{!FileSystem} (env : EnvVar) (s : EnforcementRules)
    (request : FilePolicyMatchDryRunRequest) (default_decision : FilePolicyDecision)
    : result string FilePolicyMatchDryRunResult :=
  raw ← FScope.absolute_scope (fdr_path request);
  path ← FScope.bind env raw;
  let matched := List.find (λ r, FileNames.op_matches (sr_operation r) (fdr_operation request) &&
                                 FScope.contains_scope (sr_execution_scope r) path)
                   (effective_rules s) in
  Ok (mkFileDryRunResult (bool_decide (is_Some matched))
        (default default_decision (sr_decision <$> matched)) (sr_rule_id <$> matched)
        (fdr_operation request) (FScope.display_path path) (revision s)).

Section world.
(** One call sees one file system, environment and directory tree. *)
Context {fs : FileSystem} {dirs : Directories} (env : EnvVar).

(** ** Validation of a request *)

Definition validate_not_stale_rule (base_revision : Z) (existing : StoredPolicyRule) : result string () :=
  if base_revision <? sr_updated_revision existing
  then Err ("stale file policy request for rule " +:+ sr_rule_id existing +:+ ": base_revision "
              +:+ fmt_u base_revision +:+ " is older than rule revision "
              +:+ fmt_u (sr_updated_revision existing))
  else Ok ().

(** The loop over the owner's rules, in key order. *)
Fixpoint check_same_scope (base_revision : Z) (draft_rule : StoredPolicyRule)
    (rules : list StoredPolicyRule) : result string () :=
  match rules with
  | [] => Ok ()
  | existing :: rest =>
      _ ← (if FRule.has_same_logical_scope existing draft_rule
           then validate_not_stale_rule base_revision existing else Ok ());
      check_same_scope base_revision draft_rule rest
  end.
Definition validate_not_stale_upsert (s : EnforcementRules) (owner : string) (base_revision : Z)
    (draft_rule : StoredPolicyRule) : result string () :=
  match by_owner s !! owner with
  | None => Ok ()
  | Some owner_rules =>
      _ ← match owner_rules !! sr_rule_id draft_rule with
          | Some existing => validate_not_stale_rule base_revision existing
          | None => Ok ()
          end;
      check_same_scope base_revision draft_rule (bt_values owner_rules)
  end.

(** [prepare_mark_directories], where the coverage asks for it. *)
Definition prepare (c : FileRuleCoverage) (r : StoredPolicyRule) : result string StoredPolicyRule :=
  if bool_decide (c = Fanotify) then FRule.prepare_mark_directories r else Ok r.

Definition validate_item (s : EnforcementRules) (owner : string)
    (grants : list FilePolicyRulesApplyGrant) (base_revision : Z) (item : FilePolicyPatchItem)
    : result string () :=
  match fi_op item with
  | FileUpsert =>
      draft ← ok_or "upsert requires rule" (fi_rule item);
      _ ← FValidation.validate_draft_grant grants draft;
      draft_rule ← FRule.from_draft env owner draft (fi_rule_id item) (revision s) 1 (next_rule_id s);
      _ ← FValidation.validate_bound_grant env grants draft_rule;
      draft_rule ← prepare (coverage s) draft_rule;
      validate_not_stale_upsert s owner base_revision draft_rule
  | FileDelete | FileEnable | FileDisable =>
      rule_id ← ok_or "rule_id is required" (fi_rule_id item);
      existing ← ok_or ("rule " +:+ rule_id +:+ " not found for owner")
                   (by_owner s !! owner ≫= λ rules, rules !! rule_id);
      _ ← validate_not_stale_rule base_revision existing;
      _ ← FValidation.validate_rule_grant grants (sr_decision existing) (sr_scope existing);
      if bool_decide (fi_op item = FileEnable) && bool_decide (coverage s = Fanotify)
      then _ ← FRule.collect_mark_directories existing; Ok ()
      else Ok ()
  end.

(** [validate_apply_items]. *)
Fixpoint validate_items_from (s : EnforcementRules) (owner : string)
    (grants : list FilePolicyRulesApplyGrant) (base_revision : Z) (index : nat)
    (items : list FilePolicyPatchItem) : list FilePolicyApplyError :=
  match items with
  | [] => []
  | item :: rest =>
      let errors := validate_items_from s owner grants base_revision (S index) rest in
      match validate_item s owner grants base_revision item with
      | Ok _ => errors
      | Err message => mkFileError (as_u32 index) "invalid-rule" message :: errors
      end
  end.
Definition validate_apply_items (s : EnforcementRules) (owner : string)
    (grants : list FilePolicyRulesApplyGrant) (base_revision : Z) (items : list FilePolicyPatchItem)
    : list FilePolicyApplyError :=
  validate_items_from s owner grants base_revision 0 items.

Definition reject_invalid_precondition (s : EnforcementRules) (pre : FilePolicyApplyPrecondition)
    : option FilePolicyApplyResult :=
  if bool_decide (pre_apply_mode pre = Aon)
  then Some (FValidation.apply_result_from_errors (revision s) 0
         [mkFileError 0 "unsupported-apply-mode" "file policy apply_mode aon is temporarily disabled"])
  else if revision s <? pre_base_revision pre
  then Some (FValidation.apply_result_from_errors (revision s) 0
         [mkFileError 0 "invalid-precondition"
            ("base_revision " +:+ fmt_u (pre_base_revision pre) +:+ " is newer than current revision "
               +:+ fmt_u (revision s))])
  else None.

Definition validate_apply (s : EnforcementRules) (owner : string)
    (grants : list FilePolicyRulesApplyGrant) (request : FilePolicyApplyRequest)
    : FilePolicyApplyResult :=
  match reject_invalid_precondition s (frq_precondition request) with
  | Some result => result
  | None =>
      FValidation.apply_result_from_errors (revision s) 0
        (validate_apply_items s owner grants (pre_base_revision (frq_precondition request))
           (frq_items request))
  end.

(** ** Applying a request *)

(** [next_available_host_rule_number]: the search, with fuel. *)
Fixpoint next_number (fuel : nat) (rules : gmap string StoredPolicyRule) (next : Z) : Z :=
  match fuel with
  | O => next
  | S fuel' =>
      match rules !! (HOST_RULE_ID_PREFIX +:+ "-" +:+ fmt_u next) with
      | Some _ => next_number fuel' rules (saturating_add_u64 next 1)
      | None => next
      end
  end.
Definition next_available_host_rule_number (s : EnforcementRules) (owner : string) : Z :=
  match by_owner s !! owner with
  | Some rules => next_number (S (size rules)) rules (next_rule_id s)
  | None => next_rule_id s
  end.

(** The owner's rules without those an automatic rule supersedes. *)
Definition superseded (stored existing : StoredPolicyRule) : bool :=
  FRule.is_host_auto existing && FRule.has_same_logical_scope existing stored &&
  negb (bool_decide (sr_rule_id existing = sr_rule_id stored)).
Definition drop_superseded (stored : StoredPolicyRule) (rules : gmap string StoredPolicyRule)
    : gmap string StoredPolicyRule :=
  if FRule.is_host_auto stored
  then filter (λ p, superseded stored p.2 = false) rules else rules.

Definition upsert_item (owner : string) (grants : list FilePolicyRulesApplyGrant)
    (item : FilePolicyPatchItem) (mutation_revision : Z) : ST EnforcementRules string () := λ s,
  match fi_rule item with
  | None => (Err "upsert requires rule", s)
  | Some draft =>
      let '(sequence, s1) := take_sequence s in
      let number := next_available_host_rule_number s1 owner in
      match (stored ← FRule.from_draft env owner draft (fi_rule_id item) mutation_revision sequence
                        number;
             _ ← FValidation.validate_bound_grant env grants stored;
             prepare (coverage s1) stored) with
      | Err e => (Err e, s1)
      | Ok stored =>
          let s2 := if FRule.is_host_auto stored
                    then set_rule_id (saturating_add_u64 number 1) s1 else s1 in
          let owner_rules := default ∅ (by_owner s2 !! owner) in
          (Ok (), set_owners (<[owner := <[sr_rule_id stored := stored]>
                                           (drop_superseded stored owner_rules)]> (by_owner s2)) s2)
      end
  end.

Definition delete_item (owner : string) (item : FilePolicyPatchItem)
    : ST EnforcementRules string () := λ s,
  match fi_rule_id item with
  | None => (Err "rule_id is required", s)
  | Some rule_id => (Ok (), set_owners (alter (delete rule_id) owner (by_owner s)) s)
  end.

Definition switch_item (owner : string) (item : FilePolicyPatchItem) (mutation_revision : Z)
    : ST EnforcementRules string () := λ s,
  match fi_rule_id item with
  | None => (Err "rule_id is required", s)
  | Some rule_id =>
      let '(sequence, s1) := take_sequence s in
      match by_owner s1 !! owner ≫= λ rules, rules !! rule_id with
      | None => (Err ("rule " +:+ rule_id +:+ " not found for owner"), s1)
      | Some rule =>
          let enabled := bool_decide (fi_op item = FileEnable) in
          match (if enabled then prepare (coverage s1) rule else Ok rule) with
          | Err e => (Err e, s1)
          | Ok rule' =>
              (Ok (), set_owners
                 (alter (λ rules, <[rule_id :=
                    FRule.with_enabled enabled mutation_revision sequence rule']> rules)
                    owner (by_owner s1)) s1)
          end
      end
  end.

Definition apply_item (owner : string) (grants : list FilePolicyRulesApplyGrant)
    (item : FilePolicyPatchItem) (mutation_revision : Z) : ST EnforcementRules string () :=
  match fi_op item with
  | FileUpsert => upsert_item owner grants item mutation_revision
  | FileDelete => delete_item owner item
  | FileEnable | FileDisable => switch_item owner item mutation_revision
  end.

(** The loop of [apply]: items that failed validation are skipped, an error ends it. *)
Fixpoint apply_loop (owner : string) (grants : list FilePolicyRulesApplyGrant) (invalid : gset Z)
    (index : nat) (applied : Z) (items : list FilePolicyPatchItem) : ST EnforcementRules string Z := λ s,
  match items with
  | [] => (Ok applied, s)
  | item :: rest =>
      if decide (as_u32 index ∈ invalid)
      then apply_loop owner grants invalid (S index) applied rest s
      else
        match apply_item owner grants item (saturating_add_u64 (revision s) 1) s with
        | (Err e, s') => (Err e, s')
        | (Ok _, s') =>
            apply_loop owner grants invalid (S index) (saturating_add_u32 applied 1) rest s'
        end
  end.

Definition apply (owner : string) (grants : list FilePolicyRulesApplyGrant)
    (request : FilePolicyApplyRequest)
    : ST EnforcementRules string (FilePolicyApplyResult * list PathBuf) := λ s,
  match reject_invalid_precondition s (frq_precondition request) with
  | Some result => (Ok (result, []), s)
  | None =>
      let errors := validate_apply_items s owner grants
                      (pre_base_revision (frq_precondition request)) (frq_items request) in
      let invalid : gset Z := list_to_set (fe_item_index <$> errors) in
      match apply_loop owner grants invalid 0 0 (frq_items request) s with
      | (Err e, s') => (Err e, s')
      | (Ok applied, s') =>
          let s'' := if 0 <? applied then bump_revision s' else s' in
          let status := if bool_decide (length errors = 0%nat) || (0 <? applied)
                        then FileAccepted else FileRejected in
          (Ok (mkFileResult status (revision s'') applied (as_u32 (length errors)) errors,
               mark_list s''), s'')
      end
  end.

(** [remove_owner]. *)
Definition remove_owner (owner : string) (s : EnforcementRules) : list PathBuf * EnforcementRules :=
  match by_owner s !! owner with
  | None => ([], s)
  | Some _ =>
      let s' := bump_revision (set_owners (delete owner (by_owner s)) s) in
      (mark_list s', s')
  end.

(** ** Static and builtin rules *)

Definition insert_static_rule (rule : EnforcementRule) : ST EnforcementRules string () := λ s,
  let decision := match er_decision rule with
                  | LocalDecision EnforceAllow => FileAllow
                  | LocalDecision EnforceDeny => FileDeny
                  | SyncPlugin _ _ _ _ => FileGray
                  end in
  match (raw ← FScope.absolute_scope (er_path rule);
         execution_scope ← FScope.bind env raw;
         scope ← FScope.normalized_scope (FScope.display_path raw);
         operation ← FileNames.operation_from_wire (er_operation rule);
         Ok (execution_scope, FRule.scope_text scope, operation)) with
  | Err e => (Err e, s)
  | Ok (execution_scope, scope, operation) =>
      let '(sequence, s1) := take_sequence s in
      let rule' := mkEnforcement (er_owner_instance_id rule) (er_rule_id rule) (er_decision rule)
                     (er_operation rule) (Paths.display (FScope.display_base execution_scope)) in
      match prepare (coverage s1)
              (mkFileRule FILE_STATIC_OWNER (er_rule_id rule) TierStatic StaticId decision operation
                 scope execution_scope ∅ None 0 true (revision s1) sequence rule') with
      | Err e => (Err e, s1)
      | Ok stored =>
          let rules := default ∅ (by_owner s1 !! FILE_STATIC_OWNER) in
          (Ok (), set_owners (<[FILE_STATIC_OWNER := <[sr_rule_id stored := stored]> rules]>
                                (by_owner s1)) s1)
      end
  end.

Definition insert_builtin_allow_rule (rule_id path : string) : ST EnforcementRules string () := λ s,
  if trim_is_empty rule_id then (Err "builtin file policy rule_id must not be empty", s)
  else if bool_decide (is_Some (by_owner s !! BUILTIN_POLICY_OWNER ≫= λ rules, rules !! rule_id))
  then (Err ("duplicate builtin file policy rule id " +:+ rule_id), s)
  else
    match (scope ← FScope.absolute_scope path;
           execution_scope ← FScope.bind env scope; Ok (scope, execution_scope)) with
    | Err e => (Err e, s)
    | Ok (scope, execution_scope) =>
        let '(sequence, s1) := take_sequence s in
        let stored := mkFileRule BUILTIN_POLICY_OWNER rule_id TierBuiltin BuiltinId FileAllow OpOpen
                        scope execution_scope ∅ None i32_max true (revision s1) sequence
                        (mkEnforcement BUILTIN_POLICY_OWNER rule_id (LocalDecision EnforceAllow)
                           (FileNames.operation_as_str OpOpen)
                           (Paths.display (FScope.display_base execution_scope))) in
        let rules := default ∅ (by_owner s1 !! BUILTIN_POLICY_OWNER) in
        (Ok (), set_owners (<[BUILTIN_POLICY_OWNER := <[rule_id := stored]> rules]> (by_owner s1)) s1)
    end.

(** [install_builtin_allow_rules]. *)
Fixpoint insert_builtins (rules : list (string * string)) : ST EnforcementRules string () := λ s,
  match rules with
  | [] => (Ok (), s)
  | (rule_id, path) :: rest =>
      match insert_builtin_allow_rule rule_id path s with
      | (Err e, s') => (Err e, s')
      | (Ok _, s') => insert_builtins rest s'
      end
  end.
Definition install_builtin_allow_rules (rules : list (string * string))
    : ST EnforcementRules string () := λ s,
  match insert_builtins rules s with
  | (Err e, s') => (Err e, s')
  | (Ok _, s') => (Ok (), rebuild_effective s')
  end.

(** [parse] and [load_with_coverage]. *)
Fixpoint parse_lines (index : nat) (raw_lines : list string) (ids : gset string)
    : ST EnforcementRules string () := λ s,
  match raw_lines with
  | [] => (Ok (), s)
  | line :: rest =>
      let trimmed := trim line in
      if bool_decide (trimmed = "") || String.prefix "#" trimmed
      then parse_lines (S index) rest ids s
      else
        let at_line := "enforcement rule line " +:+ pretty (index + 1)%nat in
        match FParser.parse_rule trimmed with
        | Err e => (Err (at_line +:+ ": " +:+ e), s)
        | Ok rule =>
            if decide (er_rule_id rule ∈ ids)
            then (Err (at_line +:+ " duplicates rule id " +:+ er_rule_id rule), s)
            else match insert_static_rule rule s with
                 | (Err e, s') => (Err e, s')
                 | (Ok _, s') => parse_lines (S index) rest ({[er_rule_id rule]} ∪ ids) s'
                 end
        end
  end.
Definition parse (raw : string) (c : FileRuleCoverage) : result string EnforcementRules :=
  match parse_lines 0 (lines raw) ∅ (empty_with_coverage c) with
  | (Err e, _) => Err e
  | (Ok _, s) => Ok (rebuild_effective s)
  end.
Definition load_with_coverage (path : string) (file : FileContents) (c : FileRuleCoverage)
    : result string EnforcementRules :=
  match file with
  | Contents raw => parse raw c
  | FileNotFound => Ok (empty_with_coverage c)
  | FileError text => Err ("read enforcement rules " +:+ path +:+ ": " +:+ text)
  end.
End world.
End FStore.

(** * The order of decisions *)

Module FStoreFacts.
Import FStore.

#[local] Instance file_rule_le_refl : Reflexive rule_le.
Proof. intros r. unfold rule_le. reflexivity. Qed.
#[local] Instance file_rule_le_trans : Transitive rule_le.
Proof. intros a b c ??. unfold rule_le in *. by trans (rank b). Qed.
#[local] Instance file_rule_le_total : Total rule_le.
Proof. intros a b. apply (total bo_le). Qed.

(** The rule an owner has under an id. *)
Definition rule_at (s : EnforcementRules) (o id : string) : option StoredPolicyRule :=
  by_owner s !! o ≫= λ rules, rules !! id.

(** What the daemon promises about precedence: builtin rules first, then the higher
    priority, then the later update. *)
Inductive outranks (r r' : StoredPolicyRule) : Prop :=
| outranks_tier :
    sr_tier r = TierBuiltin → sr_tier r' ≠ TierBuiltin → outranks r r'
| outranks_priority :
    (sr_tier r = TierBuiltin ↔ sr_tier r' = TierBuiltin) → sr_priority r' < sr_priority r →
    outranks r r'
| outranks_sequence :
    (sr_tier r = TierBuiltin ↔ sr_tier r' = TierBuiltin) → sr_priority r' = sr_priority r →
    sr_updated_sequence r' < sr_updated_sequence r → outranks r r'.

Lemma rule_le_outranks r r' :
  rule_le r r' → sr_updated_sequence r ≠ sr_updated_sequence r' → outranks r r'.
Proof.
  unfold rule_le, rank. cbn. unfold lex_le. cbn. intros H Hs.
  assert (∀ t t', FRule.tier_rank t = FRule.tier_rank t' → (t = TierBuiltin ↔ t' = TierBuiltin)) as Ht
    by (by intros [] []).
  destruct H as [[H1 H2]|[E [[H1 H2]|[E' H2]]]]; cbn in *.
  - apply outranks_tier; destruct (sr_tier r), (sr_tier r'); simpl in *; try done; lia.
  - apply outranks_priority; [apply Ht; lia|]. lia.
  - apply outranks_sequence; [apply Ht; lia|lia|lia].
Qed.

Lemma outranks_asym r r' : outranks r r' → outranks r' r → False.
Proof. intros [] []; try tauto; lia. Qed.

(** A rule that decides about a call. *)
Definition decides (s : EnforcementRules) (op : FilePolicyOperation) (path : string)
    (r : StoredPolicyRule) : Prop :=
  (∃ o id, rule_at s o id = Some r) ∧ sr_enabled r = true ∧ FRule.matches_path r op path = true.

(** The invariant: keys agree with the rules, sequence numbers identify rules while the
    counter is below its maximum, and rules that need a watched directory have it. *)
Definition marked (r : StoredPolicyRule) : Prop :=
  match sr_execution_scope r with
  | Exact p => Paths.pop p ∈ sr_mark_directories r
  | RecursiveScope base => base ∈ sr_mark_directories r
  end.
Record wf (s : EnforcementRules) : Prop := {
  wf_bound : next_sequence s ≤ u64_max;
  wf_keys : ∀ o id r, rule_at s o id = Some r → sr_owner_instance_id r = o ∧ sr_rule_id r = id;
  wf_sequence : next_sequence s < u64_max → ∀ o id r, rule_at s o id = Some r →
    sr_updated_sequence r < next_sequence s;
  wf_distinct : next_sequence s < u64_max → ∀ o id r o' id' r',
    rule_at s o id = Some r → rule_at s o' id' = Some r' →
    sr_updated_sequence r = sr_updated_sequence r' → o = o' ∧ id = id';
  wf_marks : coverage s = Fanotify → ∀ o id r, rule_at s o id = Some r → sr_enabled r = true →
    FRule.contributes_mark_directories r = true → marked r;
}.
(** The derived data is up to date. *)
Definition fresh (s : EnforcementRules) : Prop :=
  effective_rules s = effective_of (by_owner s) ∧
  mark_directories s = marks_of (coverage s) (effective_rules s).

Lemma elem_of_effective owners r :
  r ∈ effective_of owners ↔ sr_enabled r = true ∧ ∃ o rs id, owners !! o = Some rs ∧ rs !! id = Some r.
Proof.
  unfold effective_of, all_rules. rewrite merge_sort_Permutation, list_elem_of_In, filter_In, <-list_elem_of_In.
  rewrite elem_of_bt_flat. tauto.
Qed.

Lemma rule_at_Some s o id r :
  rule_at s o id = Some r ↔ ∃ rs, by_owner s !! o = Some rs ∧ rs !! id = Some r.
Proof. apply bind_Some. Qed.

Lemma find_effective s op path :
  fresh s →
  match List.find (λ r, FRule.matches_path r op path) (effective_rules s) with
  | Some r => decides s op path r ∧ ∀ r', decides s op path r' → rule_le r r'
  | None => ∀ r, ¬ decides s op path r
  end.
Proof.
  intros [Hf _]. rewrite Hf.
  assert (∀ r, r ∈ effective_of (by_owner s) ↔ sr_enabled r = true ∧ ∃ o id, rule_at s o id = Some r)
    as Hin.
  { intros r. rewrite elem_of_effective. setoid_rewrite rule_at_Some. naive_solver. }
  destruct (List.find _ _) as [r|] eqn:E.
  - apply (find_sorted rule_le) in E as (Hr & Hm & Hmin); [|apply StronglySorted_merge_sort; apply _].
    apply Hin in Hr as [He Hr]. split; [done|]. intros r' (Hr' & He' & Hm').
    apply Hmin; [by apply Hin|done].
  - intros r (Hr & He & Hm). apply (proj1 (find_None _ _)) with (r:=r) in E; [congruence|].
    by apply Hin.
Qed.

(** ** Updates keep the invariant *)

Lemma wf_shrink s s' :
  wf s → coverage s' = coverage s → next_sequence s ≤ next_sequence s' ≤ u64_max →
  (∀ o id r, rule_at s' o id = Some r → rule_at s o id = Some r) → wf s'.
Proof.
  intros [H0 H1 H2 H3 H4] Ec Hn Hr. split.
  - lia.
  - eauto.
  - intros Hlt o id r E. specialize (H2 ltac:(lia) o id r (Hr _ _ _ E)). lia.
  - intros Hlt o id r o' id' r' E E'. apply (H3 ltac:(lia) _ _ r _ _ r'); auto.
  - intros Hc o id r E. apply (H4 ltac:(congruence) o id); auto.
Qed.

Lemma wf_put s s' r :
  wf s → coverage s' = coverage s → next_sequence s' = saturating_add_u64 (next_sequence s) 1 →
  sr_updated_sequence r = next_sequence s →
  (coverage s = Fanotify → sr_enabled r = true → FRule.contributes_mark_directories r = true → marked r) →
  (∀ o id r', rule_at s' o id = Some r' →
     (o = sr_owner_instance_id r ∧ id = sr_rule_id r ∧ r' = r) ∨ rule_at s o id = Some r') →
  wf s'.
Proof.
  intros [H0 H1 H2 H3 H4] Ec En Es Hm Hr. unfold saturating_add_u64 in En. split.
  - lia.
  - intros o id r' [(-> & -> & ->)|E]%Hr; [done|auto].
  - intros Hlt o id r' [(_ & _ & ->)|E]%Hr; [lia|]. specialize (H2 ltac:(lia) o id r' E). lia.
  - intros Hlt o id r1 o' id' r2 [(-> & -> & ->)|E1]%Hr [(-> & -> & ->)|E2]%Hr Eq; [done|..].
    + specialize (H2 ltac:(lia) _ _ _ E2). lia.
    + specialize (H2 ltac:(lia) _ _ _ E1). lia.
    + apply (H3 ltac:(lia) _ _ r1 _ _ r2); auto.
  - intros Hc o id r' [(_ & _ & ->)|E]%Hr; [apply Hm; congruence|]. apply (H4 ltac:(congruence) _ _ _ E).
Qed.

Lemma collect_existing_mono l :
  ∀ root acc m, FScope.collect_existing root l acc = Ok m → {[root]} ∪ acc ⊆ m.
Proof.
  revert l. fix IH 1. intros [text|entries] root acc m; [done|].
  cbn [FScope.collect_existing]. generalize ({[root]} ∪ acc). clear acc.
  induction entries as [|e entries IHe]; intros acc; [by intros [= ->]|].
  destruct e as [text|name text|name|name below]; [done|done|apply IHe|].
  pose proof (IH below (Paths.push root name) acc) as IHb.
  destruct (FScope.collect_existing (Paths.push root name) below acc) as [acc'|]; [|done].
  intros H%IHe. specialize (IHb acc' eq_refl). set_solver.
Qed.

Section world.
Context {fs : FileSystem} {dirs : Directories} (env : EnvVar).

Lemma prepare_Ok c r r' :
  prepare c r = Ok r' →
  ∃ m, r' = FRule.with_marks m r ∧
    (c = Fanotify → FRule.contributes_mark_directories r = true → marked r').
Proof.
  unfold prepare. case_bool_decide as Hc; cycle 1.
  { intros [= <-]. exists (sr_mark_directories r). split; [by destruct r|done]. }
  unfold FRule.prepare_mark_directories. intros (m & Hm & [= <-])%result_bind_inv.
  exists m. split; [done|]. intros _ Hk. unfold FRule.collect_mark_directories in Hm. rewrite Hk in Hm.
  unfold marked. cbn. destruct (sr_execution_scope r) as [p|base]; cbn [FScope.collect_mark_directories] in Hm.
  - case_bool_decide; [done|]. destruct (is_dir_metadata (Paths.pop p)) as [[]|]; try done.
    injection Hm as <-. set_solver.
  - destruct (FScope.collect_existing base (listing base) ∅) as [m'|] eqn:E; [|done].
    injection Hm as <-. apply collect_existing_mono in E. set_solver.
Qed.

(** The rules of one owner replaced. *)
Lemma rule_at_insert s owner rules o id r :
  rule_at (set_owners (<[owner := rules]> (by_owner s)) s) o id = Some r →
  (o = owner ∧ rules !! id = Some r) ∨ (o ≠ owner ∧ rule_at s o id = Some r).
Proof.
  unfold rule_at. cbn. destruct (decide (o = owner)) as [->|Hne].
  - rewrite lookup_insert_eq. by left.
  - rewrite lookup_insert_ne by done. by right.
Qed.

Lemma file_from_draft_Ok owner draft item_id rev seq n r :
  FRule.from_draft env owner draft item_id rev seq n = Ok r →
  sr_owner_instance_id r = owner ∧ sr_rule_id r = FRule.draft_rule_id item_id (fd_rule_id draft) n ∧
  sr_updated_sequence r = seq ∧ sr_tier r = TierPlugin ∧ sr_decision r = fd_decision draft ∧
  sr_enabled r = true ∧ sr_updated_revision r = rev.
Proof.
  unfold FRule.from_draft, FRule.new. destruct (trim_is_empty _); [done|].
  intros (raw & _ & H)%result_bind_inv. revert H. case_bool_decide; [done|].
  intros (exec & _ & H2)%result_bind_inv. apply result_bind_inv in H2 as (n' & _ & H2).
  apply result_bind_inv in H2 as (d & _ & [= <-]). by splits.
Qed.

Lemma take_sequence_wf s : wf s → wf (take_sequence s).2.
Proof.
  intros Hwf. pose proof (wf_bound s Hwf). apply (wf_shrink s); try done.
  cbn. unfold saturating_add_u64. lia.
Qed.

(** Dropping superseded rules only drops rules. *)
Lemma drop_superseded_Some stored rules id r :
  drop_superseded stored rules !! id = Some r → rules !! id = Some r.
Proof.
  unfold drop_superseded. destruct (FRule.is_host_auto stored); [|done].
  by intros [? _]%map_lookup_filter_Some.
Qed.

Lemma rule_at_default s owner id r :
  default ∅ (by_owner s !! owner) !! id = Some r → rule_at s owner id = Some r.
Proof. unfold rule_at. by destruct (by_owner s !! owner). Qed.

(** What an upsert does when it succeeds. *)
Lemma file_upsert_item_Ok owner grants item rev s s' :
  upsert_item env owner grants item rev s = (Ok (), s') →
  ∃ draft number stored0 m stored,
    fi_rule item = Some draft ∧
    FRule.from_draft env owner draft (fi_rule_id item) rev (next_sequence s) number = Ok stored0 ∧
    FValidation.validate_bound_grant env grants stored0 = Ok () ∧
    stored = FRule.with_marks m stored0 ∧
    (coverage s = Fanotify → FRule.contributes_mark_directories stored = true → marked stored) ∧
    coverage s' = coverage s ∧ revision s' = revision s ∧
    next_sequence s' = saturating_add_u64 (next_sequence s) 1 ∧
    by_owner s' = <[owner := <[sr_rule_id stored := stored]>
      (drop_superseded stored (default ∅ (by_owner s !! owner)))]> (by_owner s).
Proof.
  unfold upsert_item. destruct (fi_rule item) as [draft|]; [|done]. cbn [take_sequence].
  set (number := next_available_host_rule_number _ _).
  destruct (_ ≫= _) as [stored|] eqn:E; [|done]. intros [= <-].
  apply result_bind_inv in E as (stored0 & E1 & E). apply result_bind_inv in E as ([] & E2 & E3).
  apply prepare_Ok in E3 as (m & -> & Hm).
  exists draft, number, stored0, m, (FRule.with_marks m stored0).
  splits; try done; by destruct (FRule.is_host_auto _).
Qed.

Lemma upsert_item_Err owner grants item rev s e s' :
  upsert_item env owner grants item rev s = (Err e, s') → s' = s ∨ s' = (take_sequence s).2.
Proof.
  unfold upsert_item. destruct (fi_rule item) as [draft|]; [|intros [= _ <-]; by left].
  cbn [take_sequence]. destruct (_ ≫= _); [done|]. intros [= _ <-]. by right.
Qed.

Lemma switch_item_Ok owner item rev s s' :
  switch_item owner item rev s = (Ok (), s') →
  ∃ id rules rule m, fi_rule_id item = Some id ∧ by_owner s !! owner = Some rules ∧
    rules !! id = Some rule ∧
    let rule' := FRule.with_enabled (bool_decide (fi_op item = FileEnable)) rev (next_sequence s)
                   (FRule.with_marks m rule) in
    (coverage s = Fanotify → sr_enabled rule' = true →
       FRule.contributes_mark_directories rule' = true → marked rule') ∧
    coverage s' = coverage s ∧ revision s' = revision s ∧
    next_sequence s' = saturating_add_u64 (next_sequence s) 1 ∧
    by_owner s' = <[owner := <[id := rule']> rules]> (by_owner s).
Proof.
  unfold switch_item. destruct (fi_rule_id item) as [id|]; [|done]. cbn [take_sequence].
  cbn [by_owner]. destruct (by_owner s !! owner) as [rules|] eqn:Eo; [|done].
  cbn [mbind option_bind]. destruct (rules !! id) as [rule|] eqn:Er; [|done].
  assert (∀ rule', alter (λ rs : gmap string StoredPolicyRule, <[id:=rule']> rs) owner (by_owner s) =
    <[owner := <[id := rule']> rules]> (by_owner s)) as Halter.
  { intros rule'. apply map_eq. intros o. destruct (decide (o = owner)) as [->|].
    - by rewrite lookup_alter_eq, lookup_insert_eq, Eo.
    - by rewrite lookup_alter_ne, lookup_insert_ne. }
  case_bool_decide as Hop.
  - destruct (prepare _ rule) as [rule'|] eqn:E; [|done]. intros [= <-].
    apply prepare_Ok in E as (m & -> & Hm). exists id, rules, rule, m. splits; try done.
    + intros Hc _. by apply Hm.
    + cbn. apply Halter.
  - intros [= <-]. exists id, rules, rule, (sr_mark_directories rule).
    replace (FRule.with_marks (sr_mark_directories rule) rule) with rule by (by destruct rule).
    splits; try done. cbn. apply Halter.
Qed.

Lemma switch_item_Err owner item rev s e s' :
  switch_item owner item rev s = (Err e, s') → s' = s ∨ s' = (take_sequence s).2.
Proof.
  unfold switch_item. destruct (fi_rule_id item); [|intros [= _ <-]; by left]. cbn [take_sequence].
  intros H. right. repeat case_match; simplify_eq; done.
Qed.

(** Items keep the invariant, whether they succeed or fail, and never touch the derived
    data or another owner. *)
Definition frame (owner : string) (s s' : EnforcementRules) : Prop :=
  coverage s' = coverage s ∧ revision s' = revision s ∧
  ∀ o, o ≠ owner → by_owner s' !! o = by_owner s !! o.

Lemma put_wf s s' owner rules stored :
  wf s → by_owner s' = <[owner := <[sr_rule_id stored := stored]> rules]> (by_owner s) →
  coverage s' = coverage s → revision s' = revision s →
  next_sequence s' = saturating_add_u64 (next_sequence s) 1 →
  (∀ id r, rules !! id = Some r → rule_at s owner id = Some r) →
  sr_owner_instance_id stored = owner → sr_updated_sequence stored = next_sequence s →
  (coverage s = Fanotify → sr_enabled stored = true →
     FRule.contributes_mark_directories stored = true → marked stored) →
  wf s' ∧ frame owner s s'.
Proof.
  intros Hwf Eo Ec Er En Hrules Ho Hq Hm. split.
  - apply (wf_put s s' stored); try done. intros o id' r'. unfold rule_at. rewrite Eo.
    destruct (decide (o = owner)) as [->|Hne].
    + rewrite lookup_insert_eq. cbn. intros [[<- <-]|[_ Hr']]%lookup_insert_Some; [by left|].
      right. by apply Hrules.
    + rewrite lookup_insert_ne by done. by right.
  - split; [done|]. split; [done|]. intros o Hne. by rewrite Eo, lookup_insert_ne.
Qed.

Lemma switch_item_wf owner item rev s r s' :
  wf s → switch_item owner item rev s = (r, s') → wf s' ∧ frame owner s s'.
Proof.
  intros Hwf E. destruct r as [[]|e].
  - apply switch_item_Ok in E as (id & rules & rule & m & _ & Eo & Er & Hm & Ec & Ev & En & Eb).
    assert (rule_at s owner id = Some rule) as Hat by (unfold rule_at; by rewrite Eo).
    destruct (wf_keys s Hwf _ _ _ Hat) as [Ho Hi].
    set (rule' := FRule.with_enabled _ _ _ _) in *.
    apply (put_wf s s' owner rules rule'); [done|by rewrite <-Hi in Eb|done|done|done| |done|done|done].
    intros id' r' Hr'. unfold rule_at. by rewrite Eo.
  - apply switch_item_Err in E as [->| ->]; [done|]. split; [by apply take_sequence_wf|done].
Qed.

Lemma upsert_item_wf owner grants item rev s r s' :
  wf s → upsert_item env owner grants item rev s = (r, s') → wf s' ∧ frame owner s s'.
Proof.
  intros Hwf E. destruct r as [[]|e].
  - apply file_upsert_item_Ok in E as (draft & n & st0 & m & st & _ & Hd & _ & -> & Hm & Ec & Er & En & Eo).
    apply file_from_draft_Ok in Hd as (Ho & _ & Hq & _).
    eapply (put_wf s s' owner _ (FRule.with_marks m st0)); [done|exact Eo|done|done|done| |done|done|auto].
    intros id' r' Hr'. apply drop_superseded_Some in Hr'. by apply rule_at_default.
  - apply upsert_item_Err in E as [->| ->]; [done|]. split; [by apply take_sequence_wf|done].
Qed.

Lemma delete_item_wf owner item s r s' :
  wf s → delete_item owner item s = (r, s') → wf s' ∧ frame owner s s'.
Proof.
  intros Hwf. unfold delete_item. destruct (fi_rule_id item) as [id|]; intros [= <- <-]; [|done]. split.
  - pose proof (wf_bound s Hwf). apply (wf_shrink s); try done. intros o id' r'. unfold rule_at. cbn.
    destruct (decide (o = owner)) as [->|Hne].
    + rewrite lookup_alter_eq. destruct (by_owner s !! owner); [|done]. cbn.
      by intros [_ ?]%lookup_delete_Some.
    + by rewrite lookup_alter_ne.
  - split; [done|]. split; [done|]. intros o Hne. cbn. by rewrite lookup_alter_ne.
Qed.

Lemma apply_item_wf owner grants item rev s r s' :
  wf s → apply_item env owner grants item rev s = (r, s') → wf s' ∧ frame owner s s'.
Proof.
  intros Hwf. unfold apply_item. destruct (fi_op item).
  - by apply upsert_item_wf.
  - by apply delete_item_wf.
  - by apply switch_item_wf.
  - by apply switch_item_wf.
Qed.

Lemma apply_loop_wf owner grants invalid index applied items s r s' :
  wf s → apply_loop env owner grants invalid index applied items s = (r, s') → wf s' ∧ frame owner s s'.
Proof.
  revert index applied s. induction items as [|item items IH]; intros index applied s Hwf; simpl.
  { by intros [= <- <-]. }
  destruct (decide _); [by apply IH|].
  destruct (apply_item _ _ _ _ _ _) as [[[]|e] s1] eqn:E; apply apply_item_wf in E as [Hwf1 F1]; try done.
  - intros H. apply IH in H as [Hwf2 F2]; [|done]. split; [done|].
    destruct F1 as (? & ? & F1), F2 as (? & ? & F2). split; [congruence|]. split; [congruence|].
    intros o Hne. by rewrite F2, F1.
  - by intros [= <- <-].
Qed.

Lemma rebuild_fresh s : fresh (rebuild_effective s).
Proof. done. Qed.
Lemma rebuild_wf s : wf s → wf (rebuild_effective s).
Proof. intros Hwf. pose proof (wf_bound s Hwf). by apply (wf_shrink s). Qed.
Lemma bump_wf s : wf s → wf (bump_revision s).
Proof. intros Hwf. pose proof (wf_bound s Hwf). by apply (wf_shrink s). Qed.

Lemma apply_loop_none owner grants invalid index applied items s n s' :
  0 ≤ applied → apply_loop env owner grants invalid index applied items s = (Ok n, s') →
  0 ≤ n ∧ (n = 0 → applied = 0 ∧ s' = s).
Proof.
  revert index applied s. induction items as [|item items IH]; intros index applied s Ha; simpl.
  { by intros [= <- <-]. }
  destruct (decide _); [by apply IH|].
  destruct (apply_item _ _ _ _ _ _) as [[[]|e] s1]; [|done].
  intros H. apply IH in H as [Hn H0]; [|unfold saturating_add_u32, u32_max; lia].
  split; [done|]. intros Hz. destruct (H0 Hz) as [Hs _]. unfold saturating_add_u32, u32_max in Hs. lia.
Qed.

(** A successful application: well-formed, up to date, other owners untouched. *)
Lemma apply_Ok owner grants request s result s' :
  wf s → fresh s → apply env owner grants request s = (Ok result, s') →
  wf s' ∧ fresh s' ∧ ∀ o, o ≠ owner → by_owner s' !! o = by_owner s !! o.
Proof.
  intros Hwf Hf. unfold apply. destruct (reject_invalid_precondition _ _); [by intros [= _ <-]|].
  set (errors := validate_apply_items _ _ _ _ _ _).
  destruct (apply_loop _ _ _ _ _ _ _ _) as [[applied|e] s1] eqn:E; [|done].
  pose proof (apply_loop_none _ _ _ _ _ _ _ _ _ ltac:(done) E) as [Hn Hz].
  apply apply_loop_wf in E as [Hwf1 (Ec & Er & Ho)]; [|done].
  intros [= _ <-]. destruct (Z.ltb_spec 0 applied); [by splits; [apply bump_wf| |]|].
  destruct Hz as [_ ->]; [lia|]. by splits.
Qed.

Lemma remove_owner_Ok owner s :
  wf s → fresh s → wf (remove_owner owner s).2 ∧ fresh (remove_owner owner s).2.
Proof.
  intros Hwf Hf. unfold remove_owner. destruct (by_owner s !! owner); [|done]. split; [|done].
  pose proof (wf_bound s Hwf). apply (wf_shrink s); try done.
  intros o id r. unfold rule_at. cbn. destruct (decide (o = owner)) as [->|];
    [by rewrite lookup_delete_eq|by rewrite lookup_delete_ne].
Qed.

Lemma insert_static_wf rule s r s' :
  wf s → insert_static_rule env rule s = (r, s') → wf s'.
Proof.
  intros Hwf. unfold insert_static_rule. destruct (_ ≫= _) as [[[exec scope] op]|]; [|by intros [= _ <-]].
  cbn [take_sequence]. set (s1 := mkRules _ _ _ _ _ _ _).
  assert (wf s1) as Hwf1 by (by apply (take_sequence_wf s)).
  destruct (prepare _ _) as [stored|] eqn:E; [|by intros [= _ <-]].
  apply prepare_Ok in E as (m & E & Hm). intros [= _ <-].
  apply (put_wf s _ FILE_STATIC_OWNER (default ∅ (by_owner s !! FILE_STATIC_OWNER)) stored);
    [done|done|done|done|done| |by rewrite E|by rewrite E|rewrite E in *; auto].
  intros id r'. apply (rule_at_default s1).
Qed.

Lemma insert_builtin_wf id path s r s' :
  wf s → insert_builtin_allow_rule env id path s = (r, s') → wf s'.
Proof.
  intros Hwf. unfold insert_builtin_allow_rule. destruct (trim_is_empty id); [by intros [= _ <-]|].
  case_bool_decide; [by intros [= _ <-]|].
  destruct (FScope.absolute_scope path ≫= _) as [[scope exec]|]; [|by intros [= _ <-]].
  cbn [take_sequence]. set (s1 := mkRules _ _ _ _ _ _ _). intros [= _ <-].
  set (stored := mkFileRule _ _ _ _ _ _ _ _ _ _ _ _ _ _ _).
  apply (put_wf s _ BUILTIN_POLICY_OWNER (default ∅ (by_owner s !! BUILTIN_POLICY_OWNER)) stored);
    [done|done|done|done|done| |done|done|done].
  intros id' r'. apply (rule_at_default s1).
Qed.

Lemma install_builtin_Ok rules s s' :
  wf s → install_builtin_allow_rules env rules s = (Ok (), s') → wf s' ∧ fresh s'.
Proof.
  intros Hwf. unfold install_builtin_allow_rules.
  destruct (insert_builtins env rules s) as [[[]|e] s1] eqn:E; [|done]. intros [= <-].
  split; [|done]. apply rebuild_wf. revert s Hwf E.
  induction rules as [|[id path] rules IH]; intros s Hwf; simpl; [by intros [= <-]|].
  destruct (insert_builtin_allow_rule env id path s) as [[[]|e] s2] eqn:E; [|done].
  apply insert_builtin_wf in E; [|done]. by apply IH.
Qed.

Lemma file_empty_wf c : wf (empty_with_coverage c) ∧ fresh (empty_with_coverage c).
Proof.
  split; [|by destruct c]. assert (∀ o id, rule_at (empty_with_coverage c) o id = None) as H.
  { intros o id. unfold rule_at. cbn. by rewrite lookup_empty. }
  split; [done|..]; intros; rewrite H in *; done.
Qed.

Lemma load_Ok path file c s :
  load_with_coverage env path file c = Ok s → wf s ∧ fresh s.
Proof.
  unfold load_with_coverage, parse. destruct file as [raw| |text]; [|intros [= <-]; apply file_empty_wf|done].
  destruct (parse_lines _ _ _ _ _) as [[[]|e] s1] eqn:E; [|done]. intros [= <-]. split; [|done].
  apply rebuild_wf. pose proof (proj1 (file_empty_wf c)) as Hwf. revert Hwf E.
  generalize (empty_with_coverage c), 0%nat, (∅ : gset string).
  induction (lines raw) as [|line rest IH]; intros s index ids Hwf; simpl; [by intros [= <-]|].
  destruct (_ || _); [by apply IH|]. destruct (FParser.parse_rule _) as [rule|]; [|done].
  destruct (decide _); [done|]. destruct (insert_static_rule env rule s) as [[[]|e] s2] eqn:E2; [|done].
  apply insert_static_wf in E2; [|done]. by apply IH.
Qed.

(** ** The search for a free automatic id *)

Definition host_id (n : Z) : string := HOST_RULE_ID_PREFIX +:+ "-" +:+ fmt_u n.

Lemma host_id_inj n n' : host_id n = host_id n' → n = n'.
Proof. unfold host_id. cbn. intros [= E]. by apply (inj pretty). Qed.

Lemma next_number_cases fuel (rules : gmap string StoredPolicyRule) next :
  0 ≤ next → next + Z.of_nat fuel ≤ u64_max →
  rules !! host_id (next_number fuel rules next) = None ∨
  ∀ k, (k < fuel)%nat → is_Some (rules !! host_id (next + Z.of_nat k)).
Proof.
  revert next. induction fuel as [|fuel IH]; intros next H0 Hb; [right; lia|]. cbn [next_number].
  fold (host_id next). destruct (rules !! host_id next) as [r|] eqn:E; [|by left].
  unfold saturating_add_u64. rewrite Z.min_r by lia.
  destruct (IH (next + 1)) as [?|H]; [lia|lia|by left|]. right. intros [|k] Hk.
  - rewrite Z.add_0_r. eauto.
  - replace (next + Z.of_nat (S k)) with (next + 1 + Z.of_nat k) by lia. apply H. lia.
Qed.

(** The loop ends, at an id the owner does not use. *)
Lemma host_number_free s owner rules :
  by_owner s !! owner = Some rules →
  0 ≤ next_rule_id s → next_rule_id s + Z.of_nat (S (size rules)) ≤ u64_max →
  rules !! host_id (next_available_host_rule_number s owner) = None.
Proof.
  intros Eo H0 Hb. unfold next_available_host_rule_number. rewrite Eo.
  destruct (next_number_cases (S (size rules)) rules (next_rule_id s)) as [H|H]; [done|lia|done|].
  exfalso. set (ids := (λ k, host_id (next_rule_id s + Z.of_nat k)) <$> seq 0 (S (size rules))).
  assert (NoDup ids) as Hnd.
  { apply NoDup_fmap_2_strong; [|apply NoDup_seq]. intros j k _ _ E%host_id_inj. lia. }
  assert ((list_to_set ids : gset string) ⊆ dom rules) as Hsub.
  { intros x (k & -> & Hk%elem_of_seq)%elem_of_list_to_set%list_elem_of_fmap.
    apply elem_of_dom, H. lia. }
  apply subseteq_size in Hsub. rewrite size_list_to_set in Hsub by done.
  rewrite size_dom in Hsub. subst ids. rewrite length_fmap, length_seq in Hsub. lia.
Qed.

(** ** What a grant covers *)

(** The grant's scope covers the rule as it is written ... *)
Definition covers_lexical (grants : list FilePolicyRulesApplyGrant) (r : StoredPolicyRule) : Prop :=
  ∃ g scope, g ∈ grants ∧ fg_decision g = sr_decision r ∧
    FScope.normalized_scope (fg_path_scope g) = Ok scope ∧ FScope.contains_scope scope (sr_scope r) = true.
(** ... and, with symbolic links resolved, every path the rule decides about. *)
Definition covers_bound (grants : list FilePolicyRulesApplyGrant) (r : StoredPolicyRule) : Prop :=
  ∃ g raw bound, g ∈ grants ∧ fg_decision g = sr_decision r ∧
    FScope.absolute_scope (fg_path_scope g) = Ok raw ∧ FScope.bind env raw = Ok bound ∧
    ∀ path : string, FScope.matches_path (sr_execution_scope r) path = true →
                     FScope.matches_path bound path = true.

Lemma contains_scope_sound {P Q} `{!AsPath P, !AsPath Q} (s : PathScope P) (o : PathScope Q)
    (path : string) :
  FScope.contains_scope s o = true → FScope.matches_path o path = true →
  FScope.matches_path s path = true.
Proof.
  destruct s as [p|base], o as [q|q]; cbn; try done; unfold path_eq, path_starts_with;
    rewrite !bool_decide_eq_true; [congruence|congruence|].
  intros Hb Hq. rewrite <-Hq in Hb. rewrite take_take in Hb.
  pose proof (f_equal length Hb) as Hl. rewrite length_take in Hl.
  by rewrite Nat.min_l in Hb by lia.
Qed.

Lemma validate_bound_grant_Ok grants r :
  FValidation.validate_bound_grant env grants r = Ok () → covers_lexical grants r ∧ covers_bound grants r.
Proof.
  induction grants as [|g grants IH]; cbn; [done|].
  assert (FValidation.validate_bound_grant env grants r = Ok () →
    covers_lexical (g :: grants) r ∧ covers_bound (g :: grants) r) as Hrest.
  { intros [(g1 & sc & ? & ?) (g2 & raw & bd & ? & ?)]%IH. split.
    - exists g1, sc. split; [by right|done].
    - exists g2, raw, bd. split; [by right|done]. }
  case_bool_decide as Hd; [|done]. intros (scope & Hs & H)%result_bind_inv.
  destruct (FScope.contains_scope scope (sr_scope r)) eqn:Hc; [|auto]. cbn [andb] in H.
  destruct (FScope.absolute_scope (fg_path_scope g)) as [raw|] eqn:Hr; [|auto].
  cbn [mbind result_bind] in H. destruct (FScope.bind env raw) as [bound|] eqn:Hb; [|auto].
  cbn [is_ok_and] in H. destruct (FScope.contains_scope bound (sr_execution_scope r)) eqn:Hcb; [|auto].
  split.
  - exists g, scope. by splits; [left|..].
  - exists g, raw, bound. splits; [by left|done..|]. intros path. by apply contains_scope_sound.
Qed.

Lemma validate_rule_grant_Ok grants r :
  FValidation.validate_rule_grant grants (sr_decision r) (sr_scope r) = Ok () → covers_lexical grants r.
Proof.
  unfold FValidation.validate_rule_grant. destruct (existsb _ _) eqn:E; [|done]. intros _.
  apply existsb_exists in E as (g & Hg%list_elem_of_In & [Hd Hc]%andb_true_iff).
  apply bool_decide_eq_true in Hd. destruct (FScope.normalized_scope _) as [scope|] eqn:Hs; [|done].
  by exists g, scope.
Qed.

(** The part of a rule that switching it does not change. *)
Definition same_rule (r0 r : StoredPolicyRule) : Prop :=
  sr_owner_instance_id r = sr_owner_instance_id r0 ∧ sr_rule_id r = sr_rule_id r0 ∧
  sr_tier r = sr_tier r0 ∧ sr_decision r = sr_decision r0 ∧ sr_operation r = sr_operation r0 ∧
  sr_scope r = sr_scope r0 ∧ sr_execution_scope r = sr_execution_scope r0 ∧
  sr_priority r = sr_priority r0 ∧ sr_rule r = sr_rule r0.

(** A rule the caller was entitled to leave under [id], given the rules before. *)
Definition authorised (grants : list FilePolicyRulesApplyGrant) (before : option StoredPolicyRule)
    (r : StoredPolicyRule) : Prop :=
  covers_lexical grants r ∧ (covers_bound grants r ∨ ∃ r0, before = Some r0 ∧ same_rule r0 r).

Lemma authorised_switch grants before r m enabled rev seq :
  authorised grants before r → authorised grants before (FRule.with_enabled enabled rev seq (FRule.with_marks m r)).
Proof.
  intros [Hl [Hb|(r0 & E & Hs)]]; split; try exact Hl; [left; exact Hb|right]. exists r0. by split.
Qed.

(** Items that are not listed as invalid are valid. *)
Lemma validate_items_listed s owner grants base index items k item :
  items !! k = Some item →
  as_u32 (index + k) ∉ (list_to_set (fe_item_index <$>
    validate_items_from env s owner grants base index items) : gset Z) →
  validate_item env s owner grants base item = Ok ().
Proof.
  revert index k. induction items as [|a items IH]; intros index k; [done|].
  cbn [validate_items_from]. destruct k as [|k]; cbn.
  - intros [= ->]. rewrite Nat.add_0_r. destruct (validate_item env s owner grants base item) as [[]|e];
      [done|]. cbn. set_solver.
  - intros Hk Hn. apply (IH (S index) k Hk). replace (S index + k)%nat with (index + S k)%nat by lia.
    destruct (validate_item _ _ _ _ _ a); [done|]. cbn in Hn. set_solver.
Qed.

Lemma validate_switch s owner grants base item :
  fi_op item ≠ FileUpsert → validate_item env s owner grants base item = Ok () →
  ∃ id r0, fi_rule_id item = Some id ∧ rule_at s owner id = Some r0 ∧
    sr_updated_revision r0 ≤ base ∧ covers_lexical grants r0.
Proof.
  intros Hop H. unfold validate_item in H. destruct (fi_op item) eqn:Eo; [done|..];
    apply result_bind_inv in H as (id & Hid & H); apply result_bind_inv in H as (r0 & Hr & H);
    apply result_bind_inv in H as ([] & Hst & H); apply result_bind_inv in H as ([] & Hg & _);
    (destruct (fi_rule_id item) as [id'|]; [|done]); injection Hid as ->;
    unfold validate_not_stale_rule in Hst;
    (destruct (Z.ltb_spec base (sr_updated_revision r0)); [done|]);
    (destruct (by_owner s !! owner ≫= _) as [r1|] eqn:Er; [|done]); injection Hr as ->;
    exists id, r0; (splits; [done|done|lia|by apply validate_rule_grant_Ok]).
Qed.

Lemma switch_authorised owner grants item rev s0 s s' base :
  validate_item env s0 owner grants base item = Ok () → fi_op item ≠ FileUpsert →
  (∀ id r, rule_at s owner id = Some r →
     rule_at s0 owner id = Some r ∨ authorised grants (rule_at s0 owner id) r) →
  switch_item owner item rev s = (Ok (), s') →
  ∀ id r, rule_at s' owner id = Some r →
    rule_at s0 owner id = Some r ∨ authorised grants (rule_at s0 owner id) r.
Proof.
  intros Hv Hop Hinv E id r.
  destruct (validate_switch _ _ _ _ _ Hop Hv) as (id' & r0 & Hid & Hr0 & _ & Hl).
  apply switch_item_Ok in E as (id1 & rules & rule & m & Hid1 & Eo & Er & _ & _ & _ & _ & Eb).
  rewrite Hid in Hid1. injection Hid1 as <-.
  unfold rule_at at 1. rewrite Eb, lookup_insert_eq. cbn.
  intros [[<- <-]|[_ Hr]]%lookup_insert_Some; [right; apply authorised_switch|].
  - destruct (Hinv id' rule) as [H0|H0]; [unfold rule_at; by rewrite Eo| |done].
    assert (rule = r0) as -> by congruence. split; [done|]. right. by exists r0.
  - apply Hinv. unfold rule_at. by rewrite Eo.
Qed.

Lemma apply_item_authorised owner grants item rev s0 s s' base :
  (fi_op item ≠ FileUpsert → validate_item env s0 owner grants base item = Ok ()) →
  (∀ id r, rule_at s owner id = Some r →
     rule_at s0 owner id = Some r ∨ authorised grants (rule_at s0 owner id) r) →
  apply_item env owner grants item rev s = (Ok (), s') →
  ∀ id r, rule_at s' owner id = Some r →
    rule_at s0 owner id = Some r ∨ authorised grants (rule_at s0 owner id) r.
Proof.
  intros Hv Hinv. unfold apply_item. destruct (fi_op item) eqn:Eo.
  - intros E id r. apply file_upsert_item_Ok in E
      as (draft & n & st0 & m & st & _ & Hd & Hg & -> & _ & _ & _ & _ & Eb).
    unfold rule_at. rewrite Eb, lookup_insert_eq. cbn.
    intros [[<- <-]|[_ Hr]]%lookup_insert_Some.
    + right. apply validate_bound_grant_Ok in Hg as [Hl Hb]. split; [exact Hl|left; exact Hb].
    + apply drop_superseded_Some, rule_at_default in Hr. by apply Hinv.
  - unfold delete_item. destruct (fi_rule_id item) as [id'|]; [|done]. intros [= <-] id r.
    unfold rule_at. cbn. rewrite lookup_alter_eq.
    destruct (by_owner s !! owner) as [rules|] eqn:Er; [|done]. cbn.
    intros [_ Hr]%lookup_delete_Some. apply Hinv. unfold rule_at. by rewrite Er.
  - intros E. apply (switch_authorised owner grants item rev s0 s s' base); auto; congruence.
  - intros E. apply (switch_authorised owner grants item rev s0 s s' base); auto; congruence.
Qed.

Lemma apply_item_Err owner grants item rev s e s' :
  apply_item env owner grants item rev s = (Err e, s') → s' = s ∨ s' = (take_sequence s).2.
Proof.
  unfold apply_item. destruct (fi_op item); [apply upsert_item_Err| |apply switch_item_Err..].
  unfold delete_item. destruct (fi_rule_id item); intros [= _ <-]. by left.
Qed.

Lemma apply_loop_authorised owner grants invalid index applied items s0 s r s' base :
  (∀ k item, items !! k = Some item → as_u32 (index + k) ∉ invalid →
     validate_item env s0 owner grants base item = Ok ()) →
  (∀ id r, rule_at s owner id = Some r →
     rule_at s0 owner id = Some r ∨ authorised grants (rule_at s0 owner id) r) →
  apply_loop env owner grants invalid index applied items s = (r, s') →
  ∀ id r, rule_at s' owner id = Some r →
    rule_at s0 owner id = Some r ∨ authorised grants (rule_at s0 owner id) r.
Proof.
  revert index applied s. induction items as [|item items IH]; intros index applied s Hv Hinv; simpl.
  { by intros [= <- <-]. }
  assert (∀ k item', items !! k = Some item' → as_u32 (S index + k) ∉ invalid →
    validate_item env s0 owner grants base item' = Ok ()) as Hv'.
  { intros k item' Hk. replace (S index + k)%nat with (index + S k)%nat by lia. by apply Hv. }
  destruct (decide (as_u32 index ∈ invalid)) as [|Hi]; [by apply IH|].
  destruct (apply_item _ _ _ _ _ _) as [[[]|e] s1] eqn:E.
  - intros H. eapply IH; [done| |exact H]. eapply apply_item_authorised; [|done|exact E].
    intros _. apply (Hv 0%nat); [done|]. by rewrite Nat.add_0_r.
  - intros [= <- <-]. apply apply_item_Err in E as [->| ->]; [done|]. exact Hinv.
Qed.

(** ** Updates and deletions never fail half-way *)

(** Whether a draft can be stored does not depend on the numbers it is given. *)
Lemma from_draft_renumber owner draft item_id rev seq n r rev' seq' n' :
  FRule.from_draft env owner draft item_id rev seq n = Ok r →
  trim_is_empty (FRule.draft_rule_id item_id (fd_rule_id draft) n') = false →
  ∃ r', FRule.from_draft env owner draft item_id rev' seq' n' = Ok r' ∧
    sr_decision r' = sr_decision r ∧ sr_scope r' = sr_scope r ∧ sr_operation r' = sr_operation r ∧
    sr_execution_scope r' = sr_execution_scope r ∧ sr_tier r' = sr_tier r.
Proof.
  unfold FRule.from_draft. destruct (trim_is_empty _); [done|]. intros H ->. revert H.
  intros (raw & -> & H)%result_bind_inv. cbn [mbind result_bind]. unfold FRule.new in *.
  case_bool_decide; [done|]. apply result_bind_inv in H as (exec & -> & H).
  apply result_bind_inv in H as (nrm & Hn & H). apply result_bind_inv in H as (d & Hd & [= <-]).
  cbn [mbind result_bind]. rewrite Hn. cbn [mbind result_bind]. rewrite Hd. cbn [mbind result_bind].
  eexists. by split.
Qed.

Lemma host_id_visible n : trim_is_empty (HOST_RULE_ID_PREFIX +:+ "-" +:+ n) = false.
Proof. by apply trim_visible. Qed.

Lemma draft_id_visible owner draft item_id rev seq n r n' :
  FRule.from_draft env owner draft item_id rev seq n = Ok r →
  trim_is_empty (FRule.draft_rule_id item_id (fd_rule_id draft) n') = false.
Proof.
  unfold FRule.from_draft. destruct (trim_is_empty _) eqn:E; [done|]. intros _. revert E.
  unfold FRule.draft_rule_id. destruct item_id; [done|]. destruct (fd_rule_id draft); [done|].
  intros _. apply host_id_visible.
Qed.

Lemma validate_bound_grant_same grants r r' :
  sr_decision r' = sr_decision r → sr_scope r' = sr_scope r →
  sr_execution_scope r' = sr_execution_scope r →
  FValidation.validate_bound_grant env grants r' = FValidation.validate_bound_grant env grants r.
Proof.
  intros E1 E2 E3. induction grants as [|g grants IH]; cbn; rewrite ?E1, ?E2, ?E3; [done|]. by rewrite IH.
Qed.

Lemma prepare_same c r r' p :
  sr_operation r' = sr_operation r → sr_execution_scope r' = sr_execution_scope r →
  sr_tier r' = sr_tier r → prepare c r = Ok p → ∃ p', prepare c r' = Ok p'.
Proof.
  intros E1 E2 E3. unfold prepare. case_bool_decide; [|eauto].
  unfold FRule.prepare_mark_directories, FRule.collect_mark_directories,
    FRule.contributes_mark_directories. rewrite E1, E2, E3.
  intros (m & -> & _)%result_bind_inv. cbn. eauto.
Qed.

(** A valid upsert or deletion succeeds later in the same request. *)
Lemma valid_item_applies s0 s owner grants base rev item :
  coverage s = coverage s0 → fi_op item = FileUpsert ∨ fi_op item = FileDelete →
  validate_item env s0 owner grants base item = Ok () →
  ∃ s', apply_item env owner grants item rev s = (Ok (), s').
Proof.
  intros Ec [Hop|Hop] Hv; unfold apply_item; rewrite Hop.
  - unfold validate_item in Hv. rewrite Hop in Hv. apply result_bind_inv in Hv as (draft & Hd & Hv).
    destruct (fi_rule item) as [draft'|] eqn:Er; [|done]. injection Hd as ->.
    apply result_bind_inv in Hv as ([] & _ & Hv). apply result_bind_inv in Hv as (r & Hr & Hv).
    apply result_bind_inv in Hv as ([] & Hg & Hv). apply result_bind_inv in Hv as (p & Hp & _).
    unfold upsert_item. rewrite Er. cbn [take_sequence]. set (number := next_available_host_rule_number _ _).
    destruct (from_draft_renumber _ _ _ _ _ _ _ rev (next_sequence s) number Hr
      (draft_id_visible _ _ _ _ _ _ _ number Hr)) as (r' & -> & E1 & E2 & E3 & E4 & E5).
    cbn [mbind result_bind]. rewrite (validate_bound_grant_same _ r r'), Hg by done.
    cbn [mbind result_bind coverage]. rewrite Ec.
    destruct (prepare_same (coverage s0) r r' p) as [p' ->]; [done..|]. eauto.
  - destruct (validate_switch s0 owner grants base item) as (id & r0 & Hid & _); [by rewrite Hop|done|].
    unfold delete_item. rewrite Hid. eauto.
Qed.

Lemma apply_loop_total owner grants invalid index applied items s0 s base :
  coverage s = coverage s0 → wf s →
  Forall (λ item, fi_op item = FileUpsert ∨ fi_op item = FileDelete) items →
  (∀ k item, items !! k = Some item → as_u32 (index + k) ∉ invalid →
     validate_item env s0 owner grants base item = Ok ()) →
  ∃ n s', apply_loop env owner grants invalid index applied items s = (Ok n, s').
Proof.
  intros Ec Hwf Hops. revert index applied s Ec Hwf.
  induction Hops as [|item items Hop Hops IH]; intros index applied s Ec Hwf Hv; simpl; [by eauto|].
  assert (∀ k item', items !! k = Some item' → as_u32 (S index + k) ∉ invalid →
    validate_item env s0 owner grants base item' = Ok ()) as Hv'.
  { intros k item' Hk. replace (S index + k)%nat with (index + S k)%nat by lia. by apply Hv. }
  destruct (decide (as_u32 index ∈ invalid)) as [|Hi]; [by apply IH|].
  destruct (valid_item_applies s0 s owner grants base (saturating_add_u64 (revision s) 1) item)
    as [s1 E]; [done|done|apply (Hv 0%nat); [done|by rewrite Nat.add_0_r]|].
  rewrite E. apply apply_item_wf in E as [Hwf1 (Ec1 & _)]; [|done]. apply IH; [congruence|done|done].
Qed.
End world.

(** * Theorems *)

(** Any sequence of calls that returned without an error, each in its own world. *)
Inductive fstep (s s' : EnforcementRules) : Prop :=
| fstep_apply (fs : FileSystem) (dirs : Directories) env owner grants request result :
    apply env owner grants request s = (Ok result, s') → fstep s s'
| fstep_remove owner : s' = (remove_owner owner s).2 → fstep s s'
| fstep_builtin (fs : FileSystem) env rules :
    install_builtin_allow_rules env rules s = (Ok (), s') → fstep s s'.
Inductive loaded : EnforcementRules → Prop :=
| loaded_file (fs : FileSystem) (dirs : Directories) env path file c s :
    load_with_coverage env path file c = Ok s → loaded s.
Definition reachable (s : EnforcementRules) : Prop := ∃ s0, loaded s0 ∧ rtc fstep s0 s.

Lemma reachable_ok s : reachable s → wf s ∧ fresh s.
Proof.
  intros (s0 & [fs dirs env path file c s1 Hl] & Hs). apply load_Ok in Hl.
  induction Hs as [|s1 s2 s3 Hst _ IH]; [done|]. apply IH. destruct Hl as [Hwf Hf].
  destruct Hst as [fs' dirs' env' owner grants request result E|owner ->|fs' env' rules E].
  - by destruct (apply_Ok _ _ _ _ _ _ _ Hwf Hf E) as (? & ? & _).
  - by apply remove_owner_Ok.
  - by eapply install_builtin_Ok.
Qed.


(** C20: Plugins stay within their grants.  Whatever [apply] returns, it leaves the
    rules of every other owner alone, and each rule the caller has afterwards is one it
    had before or one its grants entitle it to: a grant of the same decision covers the
    rule as written, and either a grant of that decision, with symbolic links resolved,
    covers every path the rule decides about, or the rule is one of the caller's own
    that was only switched on or off. *)
Theorem file_apply_within_grants (fs : FileSystem) (dirs : Directories) (env : EnvVar)
    (owner : string) (grants : list FilePolicyRulesApplyGrant) (request : FilePolicyApplyRequest)
    (s : EnforcementRules) result s' :
  wf s → apply env owner grants request s = (result, s') →
  (∀ o, o ≠ owner → by_owner s' !! o = by_owner s !! o) ∧
  ∀ id r, rule_at s' owner id = Some r →
    rule_at s owner id = Some r ∨
    covers_lexical grants r ∧
      (covers_bound env grants r ∨ ∃ r0, rule_at s owner id = Some r0 ∧ same_rule r0 r).
Proof.
  intros Hwf. unfold apply. destruct (reject_invalid_precondition _ _); [intros [= _ <-]; auto|].
  set (base := pre_base_revision _). set (errors := validate_apply_items _ _ _ _ _ _).
  destruct (apply_loop _ _ _ _ _ _ _ _) as [r1 s1] eqn:E.
  assert (∀ id r, rule_at s1 owner id = Some r →
    rule_at s owner id = Some r ∨ authorised env grants (rule_at s owner id) r) as Ha.
  { eapply (apply_loop_authorised env owner grants _ _ _ _ s s _ _ base); [|auto|exact E].
    intros k item Hk Hn. by apply (validate_items_listed env s owner grants base 0 (frq_items request) k). }
  apply apply_loop_wf in E as [_ (_ & _ & Ho)]; [|done].
  destruct r1 as [applied|e]; [destruct (0 <? applied)|]; intros [= _ <-]; (split; [exact Ho|exact Ha]).
Qed.

(** Updates and deletions never fail half-way.  A request made of upserts and
    deletions always returns: items that fail validation are reported, all others are
    applied, and the store is up to date afterwards. *)
Theorem file_apply_total (fs : FileSystem) (dirs : Directories) (env : EnvVar)
    (owner : string) (grants : list FilePolicyRulesApplyGrant) (request : FilePolicyApplyRequest)
    (s : EnforcementRules) :
  wf s → fresh s →
  Forall (λ item, fi_op item = FileUpsert ∨ fi_op item = FileDelete) (frq_items request) →
  ∃ result s', apply env owner grants request s = (Ok result, s') ∧ wf s' ∧ fresh s'.
Proof.
  intros Hwf Hf Hops.
  assert (∃ result s', apply env owner grants request s = (Ok result, s')) as (result & s' & E).
  { unfold apply. destruct (reject_invalid_precondition _ _); [eauto|].
    set (base := pre_base_revision _). set (errors := validate_apply_items _ _ _ _ _ _).
    destruct (apply_loop_total env owner grants (list_to_set (fe_item_index <$> errors)) 0 0
      (frq_items request) s s base) as (n & s' & ->); [done|done|done| |eauto].
    intros k item Hk Hn. by apply (validate_items_listed env s owner grants base 0 (frq_items request) k). }
  exists result, s'. split; [done|]. by destruct (apply_Ok env _ _ _ _ _ _ Hwf Hf E) as (? & ? & _).
Qed.

(** Watched directories are complete.  In a store that uses fanotify, every
    enabled rule that can decide an open has the directory it needs marked: the parent
    of an exact path, the base of a recursive one. *)
Theorem marks_cover_rules (s : EnforcementRules) o id r :
  reachable s → coverage s = Fanotify →
  rule_at s o id = Some r → sr_enabled r = true → FRule.contributes_mark_directories r = true →
  match sr_execution_scope r with
  | Exact p => Paths.pop p ∈ mark_directories s
  | RecursiveScope base => base ∈ mark_directories s
  end.
Proof.
  intros [Hwf [He Hm]]%reachable_ok Hc Hr Hen Hk. pose proof (wf_marks s Hwf Hc _ _ _ Hr Hen Hk) as Hmk.
  assert (sr_mark_directories r ⊆ mark_directories s) as Hsub.
  { rewrite Hm. unfold marks_of. rewrite bool_decide_true by done.
    intros d Hd. apply elem_of_union_list. exists (sr_mark_directories r). split; [|done].
    apply list_elem_of_fmap. exists r. split; [done|]. rewrite list_elem_of_In, filter_In, <-list_elem_of_In.
    split; [|done]. rewrite He. apply elem_of_effective. split; [done|].
    apply rule_at_Some in Hr as (rs & ? & ?). eauto. }
  unfold marked in Hmk. destruct (sr_execution_scope r); set_solver.
Qed.

(** * A concrete store *)

(** No symbolic links; every directory exists and is empty. *)
#[local] Instance w_fs : FileSystem :=
  {| symlink_metadata := λ _, NotSymlink; read_link := λ _, Err "" |}.
#[local] Instance w_dirs : Directories :=
  {| is_dir_metadata := λ _, Ok true; listing := λ _, Listing [] |}.
Definition w_file : FileContents := Contents "s1 deny open /etc/shadow".
Definition w_loaded : EnforcementRules :=
  match load_with_coverage EnvNotPresent "rules" w_file Fanotify with
  | Ok s => s | Err _ => empty_with_coverage Fanotify end.
Definition w_grants : list FilePolicyRulesApplyGrant := [mkFileGrant FileAllow "/tmp/**"].
Definition w_upsert (id : string) : FilePolicyPatchItem :=
  mkFileItem FileUpsert (Some id) (Some (mkFileDraft None FileAllow OpOpen "/tmp/x/../a" None 5)).
Definition w_request (items : list FilePolicyPatchItem) (base : Z) : FilePolicyApplyRequest :=
  mkFileRequest items (mkFilePrecondition base Partial).
Definition w_applied : EnforcementRules :=
  (apply EnvNotPresent "p" w_grants (w_request [w_upsert "r"] 0) w_loaded).2.

Lemma w_loaded_ok : loaded w_loaded.
Proof.
  apply (loaded_file w_fs w_dirs EnvNotPresent "rules" w_file Fanotify). vm_compute. reflexivity.
Qed.
Lemma w_applied_reachable : reachable w_applied.
Proof.
  exists w_loaded. split; [apply w_loaded_ok|]. apply rtc_once.
  destruct (apply EnvNotPresent "p" w_grants (w_request [w_upsert "r"] 0) w_loaded) as [[result|e] s'] eqn:E.
  - replace w_applied with s' by (unfold w_applied; by rewrite E).
    exact (fstep_apply _ _ _ _ _ _ _ _ _ E).
  - exfalso. vm_compute in E. discriminate.
Qed.

(** The index goes stale when an item fails after another was applied: a rule that was
    deleted still decides, and the deletion is not reported. *)
Theorem failed_apply_leaves_stale_index :
  reachable w_applied ∧
  ∃ e s', apply EnvNotPresent "p" w_grants
      (w_request [mkFileItem FileDelete (Some "r") None; mkFileItem FileEnable (Some "r") None] 1)
      w_applied = (Err e, s') ∧
    rule_at s' "p" "r" = None ∧ revision s' = revision w_applied ∧
    find_path s' OpOpen "/tmp/a" = find_path w_applied OpOpen "/tmp/a" ∧
    is_Some (find_path s' OpOpen "/tmp/a").
Proof.
  split; [apply w_applied_reachable|]. do 2 eexists. split; [vm_compute; reflexivity|].
  splits; [vm_compute; reflexivity..|]. vm_compute. eauto.
Qed.


Lemma file_apply_within_grants_witness :
  ∃ r, rule_at w_applied "p" "r" = Some r ∧ covers_lexical w_grants r.
Proof.
  destruct (rule_at w_applied "p" "r") as [r|] eqn:Er; [|vm_compute in Er; discriminate].
  exists r. split; [reflexivity|].
  destruct (apply EnvNotPresent "p" w_grants (w_request [w_upsert "r"] 0) w_loaded) as [res s'] eqn:E.
  destruct (file_apply_within_grants w_fs w_dirs EnvNotPresent "p" w_grants (w_request [w_upsert "r"] 0)
    w_loaded res s') as [_ H].
  - apply reachable_ok. exists w_loaded. split; [apply w_loaded_ok|constructor].
  - exact E.
  - destruct (H "r" r) as [H1|[H1 _]].
    + replace s' with w_applied by (unfold w_applied; by rewrite E). exact Er.
    + exfalso. vm_compute in H1. discriminate.
    + exact H1.
Defined.

Lemma file_apply_total_witness :
  ∃ result s', apply EnvNotPresent "p" w_grants (w_request [w_upsert "r"] 0) w_loaded = (Ok result, s').
Proof.
  destruct (reachable_ok w_loaded) as [Hwf Hf].
  { exists w_loaded. split; [apply w_loaded_ok|constructor]. }
  destruct (file_apply_total w_fs w_dirs EnvNotPresent "p" w_grants (w_request [w_upsert "r"] 0) w_loaded)
    as (result & s' & E & _).
  - exact Hwf.
  - exact Hf.
  - repeat constructor.
  - exists result, s'. exact E.
Defined.

Lemma marks_cover_rules_witness : ["tmp"] ∈ mark_directories w_applied.
Proof.
  destruct (rule_at w_applied "p" "r") as [r|] eqn:Er; [|vm_compute in Er; discriminate].
  pose proof (marks_cover_rules w_applied "p" "r" r w_applied_reachable) as H.
  vm_compute in Er. injection Er as <-. apply H; vm_compute; reflexivity.
Defined.
End FStoreFacts.
