(* ===== verification/CommandPolicy.v ===== *)
(** The command-execution policy: crates/access_control/src/policy/command/
    (args.rs, rule.rs, validation.rs, parser.rs, store.rs) with the contract types of
    crates/core/plugin_system/src/command_policy/model.rs and grants/model.rs.

    The store keeps the rules of each owner and an index by bound executable that is
    rebuilt after every change.  JSON (serde_json) is a parameter, and so is the file
    system: every call of the store may see another one. *)
From stdpp Require Import prelude gmap strings pretty sorting.
From Stdlib Require Import ZArith Lia Ascii.
From S2P Require Import Prelude Wire PolicyPath CommandText.

Open Scope Z_scope.

(** * Contract types *)

Inductive CommandPolicyDecision := DecisionDefault | DecisionAllow | DecisionDeny | DecisionGray.
#[export] Instance decision_eq_dec : EqDecision CommandPolicyDecision.
Proof. solve_decision. Defined.

Inductive CommandPolicyPatchOp := Upsert | Delete.
Inductive CommandPolicyApplyStatus := Accepted | Rejected.
#[export] Instance status_eq_dec : EqDecision CommandPolicyApplyStatus.
Proof. solve_decision. Defined.

Record CommandPolicyRuleDraft := mkDraft {
  d_rule_id : option string;
  d_decision : CommandPolicyDecision;
  d_executable : string;
  d_args : option (list string);
  d_gray_target : option string;
  d_priority : Z;                         (* i32 *)
}.

Record CommandPolicyPatchItem := mkItem {
  it_op : CommandPolicyPatchOp;
  it_rule_id : option string;
  it_rule : option CommandPolicyRuleDraft;
}.

Record CommandPolicyApplyRequest := mkApplyRequest {
  rq_base_revision : Z;                   (* u64 *)
  rq_mutation_id : string;
  rq_reason : option string;
  rq_items : list CommandPolicyPatchItem;
}.

Record CommandPolicyApplyError := mkApplyError {
  ae_item_index : Z;                      (* u32 *)
  ae_code : string;
  ae_message : string;
}.

Record CommandPolicyApplyResult := mkApplyResult {
  ar_status : CommandPolicyApplyStatus;
  ar_new_revision : Z;
  ar_applied_count : Z;
  ar_rejected_count : Z;
  ar_errors : list CommandPolicyApplyError;
}.

Record CommandPolicyRuleView := mkView {
  v_rule_id : string;
  v_owner_instance_id : string;
  v_decision : CommandPolicyDecision;
  v_executable : string;
  v_args : option (list string);
  v_gray_target : option string;
  v_priority : Z;
  v_rule_revision : Z;
  v_updated_sequence : Z;
}.

Record CommandPolicyListFilter := mkFilter {
  lf_decision : option CommandPolicyDecision;
  lf_executable_prefix : option string;
}.

Record CommandPolicyListResult := mkListResult {
  lr_rules : list CommandPolicyRuleView;
  lr_next_cursor : option string;
  lr_source_revision : Z;
}.

Record CommandPolicyMatchDryRunRequest := mkDryRun {
  dr_executable : string;
  dr_args : list string;
}.

Record CommandPolicyMatchDryRunResult := mkDryRunResult {
  dres_matched : bool;
  dres_decision : CommandPolicyDecision;
  dres_rule_id : option string;
  dres_owner_instance_id : option string;
  dres_resolved_executable : string;
  dres_rule_revision : option Z;
  dres_source_revision : Z;
}.

Record CommandPolicyRulesApplyGrant := mkGrant {
  g_decision : CommandPolicyDecision;
  g_path_scope : string;
}.

Module Decision.
Definition as_str (d : CommandPolicyDecision) : string :=
  match d with
  | DecisionDefault => "default" | DecisionAllow => "allow"
  | DecisionDeny => "deny" | DecisionGray => "gray"
  end.
Definition from_wire (value : string) : result string CommandPolicyDecision :=
  match str_match [("default", DecisionDefault); ("allow", DecisionAllow);
                   ("deny", DecisionDeny); ("gray", DecisionGray)] value with
  | Some d => Ok d
  | None => Err ("unsupported command policy decision " +:+ value
                   +:+ "; expected default, allow, deny, or gray")
  end.
End Decision.

(** serde_json on string arrays. *)
Class JsonStrings : Type := {
  json_to_string : list string → string;
  json_from_str : string → result string (list string);
}.

(** * args.rs *)

Inductive CommandArgsPattern :=
| ArgsAny
| ArgsExact (args : list string)
| ArgsPrefix (prefix : list string).
#[export] Instance pattern_eq_dec : EqDecision CommandArgsPattern.
Proof. solve_decision. Defined.

Inductive CommandArgsScope :=
| ScopeAny
| ScopeExact (args : list string)
| ScopePrefix (prefix : list string).
#[export] Instance scope_eq_dec : EqDecision CommandArgsScope.
Proof. solve_decision. Defined.
#[export] Instance scope_countable : Countable CommandArgsScope.
Proof.
  apply (inj_countable'
    (λ s, match s with ScopeAny => inl (inl ()) | ScopeExact l => inl (inr l) | ScopePrefix l => inr l end)
    (λ e, match e with inl (inl _) => ScopeAny | inl (inr l) => ScopeExact l | inr l => ScopePrefix l end)).
  by intros [].
Defined.

Module Args.
(** The validation loop of [parse]. *)
Fixpoint check (index count : nat) (args : list string) : result string () :=
  match args with
  | [] => Ok ()
  | arg :: rest =>
      if str_contains nul arg
      then Err ("command rule args[" +:+ pretty index +:+ "] contains NUL")
      else if bool_decide (arg = "*") && negb (bool_decide (index + 1 = count)%nat)
      then Err "command rule args wildcard * is only allowed as the final item"
      else check (S index) count rest
  end.

Definition parse (args : option (list string)) : result string CommandArgsPattern :=
  match args with
  | None => Ok ArgsAny
  | Some args =>
      _ ← check 0 (length args) args;
      Ok (if bool_decide (last args = Some "*")
          then ArgsPrefix (take (length args - 1) args) else ArgsExact args)
  end.

Definition matches (p : CommandArgsPattern) (args : list string) : bool :=
  match p with
  | ArgsAny => true
  | ArgsExact expected => bool_decide (expected = args)
  | ArgsPrefix prefix => bool_decide (take (length prefix) args = prefix)
  end.

Definition requires_snapshot (p : CommandArgsPattern) : bool :=
  match p with
  | ArgsAny => false
  | ArgsPrefix prefix => negb (bool_decide (prefix = []))
  | ArgsExact _ => true
  end.

Definition view (p : CommandArgsPattern) : option (list string) :=
  match p with
  | ArgsAny => None
  | ArgsExact args => Some args
  | ArgsPrefix prefix => Some (prefix ++ ["*"])
  end.

Definition logical_scope (p : CommandArgsPattern) : CommandArgsScope :=
  match p with
  | ArgsAny => ScopeAny
  | ArgsPrefix [] => ScopeAny
  | ArgsExact args => ScopeExact args
  | ArgsPrefix prefix => ScopePrefix prefix
  end.

Definition describe `{!JsonStrings} (p : CommandArgsPattern) : string :=
  match view p with None => "<any>" | Some args => json_to_string args end.
End Args.

(** * The stored rule (rule.rs) *)

Record StoredCommandRule := mkRule {
  r_owner_instance_id : string;
  r_rule_id : string;
  r_decision : CommandPolicyDecision;
  r_executable : PathBuf;
  r_execution_executable : PathBuf;
  r_args : CommandArgsPattern;
  r_gray_target : option string;
  r_priority : Z;
  r_rule_revision : Z;
  r_updated_sequence : Z;
}.
#[export] Instance rule_eq_dec : EqDecision StoredCommandRule.
Proof. solve_decision. Defined.

Definition STATIC_POLICY_OWNER : string := "actrail.static".
Definition GENERATED_RULE_ID_PREFIX : string := "command-rule".

(** * validation.rs *)

Inductive CommandGrantScope := GrantExact (path : PathBuf) | GrantRecursive (base : PathBuf).

Module GrantScope.
Definition parse (raw : string) : result string CommandGrantScope :=
  let recursive_base := strip_suffix "/**" raw in
  let check := default raw recursive_base in
  if str_contains "*" check
  then Err ("command policy grant " +:+ raw +:+ " may only use /** as its final suffix")
  else
    match recursive_base with
    | Some EmptyString => Err "command policy recursive grant base must not be empty"
    | Some base => GrantRecursive <$> ExecutablePath.normalize_absolute base
    | None => GrantExact <$> ExecutablePath.normalize_absolute raw
    end.

Definition contains (scope : CommandGrantScope) (executable : PathBuf) : bool :=
  match scope with
  | GrantExact path => bool_decide (path = executable)
  | GrantRecursive base => Paths.starts_with executable base
  end.
End GrantScope.

(** A call of the store sees one file system and one environment. *)
Section bind_now.
Context {fs : FileSystem} (env : EnvVar).

(** [CommandGrantScope::bound_contains]; the [expect] cannot fail on a scope that
    was parsed from [raw_scope] as recursive. *)
Definition bound_contains (scope : CommandGrantScope) (raw_scope : string)
    (executable : PathBuf) : result string bool :=
  match scope with
  | GrantExact _ => p ← policy_bind env raw_scope; Ok (bool_decide (p = executable))
  | GrantRecursive _ =>
      p ← policy_bind env (default raw_scope (strip_suffix "/**" raw_scope));
      Ok (Paths.starts_with executable p)
  end.
End bind_now.

Module Validator.
Definition validate_id (rule_id : string) : result string () :=
  if trim_is_empty rule_id then Err "command rule id must not be empty"
  else if has_whitespace rule_id
  then Err ("command rule id " +:+ rule_id +:+ " must not contain whitespace")
  else Ok ().

Definition validate_shape (draft : CommandPolicyRuleDraft) : result string () :=
  match d_decision draft, d_gray_target draft with
  | DecisionDefault, _ => Err "command rule decision cannot be default"
  | DecisionGray, None => Err "gray command rule requires gray_target"
  | DecisionGray, Some target =>
      if trim_is_empty target then Err "gray command rule target must not be empty" else Ok ()
  | DecisionAllow, Some _ | DecisionDeny, Some _ =>
      Err "allow/deny command rule must not include gray_target"
  | DecisionAllow, None | DecisionDeny, None => Ok ()
  end.

Definition apply_error (item_index : Z) (code message : string) : CommandPolicyApplyError :=
  mkApplyError item_index code message.

Definition accepted_result (revision applied_count : Z) : CommandPolicyApplyResult :=
  mkApplyResult Accepted revision applied_count 0 [].
Definition rejected_result (revision : Z) (errors : list CommandPolicyApplyError)
    : CommandPolicyApplyResult :=
  mkApplyResult Rejected revision 0 (as_u32 (length errors)) errors.

(** [validate_request]: every complaint about the request as a whole. *)
Definition validate_request (revision : Z) (owner : string)
    (request : CommandPolicyApplyRequest) : list CommandPolicyApplyError :=
  (if trim_is_empty owner || bool_decide (owner = STATIC_POLICY_OWNER)
   then [apply_error 0 "invalid-owner"
           "command policy owner must be a non-static plugin instance id"] else []) ++
  (if bool_decide (rq_base_revision request = revision) then []
   else [apply_error 0 "revision-conflict"
           ("command policy base revision " +:+ fmt_u (rq_base_revision request)
              +:+ " does not match current revision " +:+ fmt_u revision)]) ++
  (if trim_is_empty (rq_mutation_id request)
   then [apply_error 0 "invalid-mutation-id"
           "command policy mutation_id must not be empty"] else []) ++
  (if bool_decide (length (rq_items request) = 0%nat)
   then [apply_error 0 "empty-mutation"
           "command policy apply requires at least one item"] else []).

(** [validate_draft_grant]. *)
Definition validate_draft_grant (grants : list CommandPolicyRulesApplyGrant)
    (draft : CommandPolicyRuleDraft) : result string () :=
  executable ← ExecutablePath.normalize_absolute (d_executable draft);
  if existsb (λ grant,
       bool_decide (g_decision grant = d_decision draft) &&
       is_ok_and (λ scope, GrantScope.contains scope executable)
         (GrantScope.parse (g_path_scope grant))) grants
  then Ok ()
  else Err ("missing command-policy.rules.apply grant for "
              +:+ Decision.as_str (d_decision draft) +:+ " " +:+ Paths.display executable).

(** [validate_bound_grant]: both the lexical and the bound path are covered. *)
Definition validate_bound_grant `{!FileSystem} (env : EnvVar)
    (grants : list CommandPolicyRulesApplyGrant) (rule : StoredCommandRule)
    : result string () :=
  if existsb (λ grant,
       bool_decide (g_decision grant = r_decision rule) &&
       is_ok_and (λ scope,
         GrantScope.contains scope (r_executable rule) &&
         is_ok_and id (bound_contains env scope (g_path_scope grant)
                         (r_execution_executable rule)))
         (GrantScope.parse (g_path_scope grant))) grants
  then Ok ()
  else Err ("missing command-policy.rules.apply grant for bound target "
              +:+ Paths.display (r_execution_executable rule) +:+ " of "
              +:+ Paths.display (r_executable rule)).

(** The loop of [validate_owner_rules], over the bindings in key order. *)
Fixpoint check_scopes `{!JsonStrings} (owner : string)
    (rules : list (string * StoredCommandRule)) (scopes : gset (PathBuf * CommandArgsScope))
    : result string () :=
  match rules with
  | [] => Ok ()
  | (key, rule) :: rest =>
      let scope := (r_executable rule, Args.logical_scope (r_args rule)) in
      if negb (bool_decide (key = r_rule_id rule))
      then Err ("command policy owner " +:+ owner +:+ " has inconsistent rule id " +:+ key)
      else if decide (scope ∈ scopes)
      then Err ("command policy owner " +:+ owner +:+ " has duplicate executable "
                  +:+ Paths.display (r_executable rule) +:+ " args "
                  +:+ Args.describe (r_args rule))
      else check_scopes owner rest ({[scope]} ∪ scopes)
  end.
Definition validate_owner_rules `{!JsonStrings} (owner : string)
    (rules : gmap string StoredCommandRule) : result string () :=
  check_scopes owner (bt_list rules) ∅.
End Validator.

(** * rule.rs *)

Module Rule.
(** [from_draft]. *)
Definition from_draft `{!FileSystem} (env : EnvVar) (owner : string)
    (item_rule_id : option string) (draft : CommandPolicyRuleDraft)
    (rule_revision updated_sequence generated_rule_id : Z)
    : result string StoredCommandRule :=
  let rule_id :=
    match item_rule_id with
    | Some id => id
    | None => match d_rule_id draft with
              | Some id => id
              | None => GENERATED_RULE_ID_PREFIX +:+ "-" +:+ fmt_u generated_rule_id
              end
    end in
  _ ← Validator.validate_id rule_id;
  _ ← Validator.validate_shape draft;
  executable ← ExecutablePath.normalize_absolute (d_executable draft);
  execution_executable ← policy_bind env (d_executable draft);
  args ← Args.parse (d_args draft);
  Ok (mkRule owner rule_id (d_decision draft) executable execution_executable args
        (d_gray_target draft) (d_priority draft) rule_revision updated_sequence).

(** [view] and [matches_filter]. *)
Definition view (r : StoredCommandRule) : CommandPolicyRuleView :=
  mkView (r_rule_id r) (r_owner_instance_id r) (r_decision r)
    (Paths.display (r_executable r)) (Args.view (r_args r)) (r_gray_target r)
    (r_priority r) (r_rule_revision r) (r_updated_sequence r).
Definition matches_filter (filter : CommandPolicyListFilter) (r : StoredCommandRule) : bool :=
  match lf_decision filter with
  | None => true | Some d => bool_decide (d = r_decision r) end &&
  match lf_executable_prefix filter with
  | None => true | Some prefix => String.prefix prefix (Paths.display (r_executable r)) end.

(** [rule.rule_revision = revision]. *)
Definition with_revision (revision : Z) (r : StoredCommandRule) : StoredCommandRule :=
  mkRule (r_owner_instance_id r) (r_rule_id r) (r_decision r) (r_executable r)
    (r_execution_executable r) (r_args r) (r_gray_target r) (r_priority r)
    revision (r_updated_sequence r).
End Rule.

(** * parser.rs *)

Module StaticParser.
Definition usage : string :=
  "expected: <id> <allow|deny> exec <absolute-path> [args-json <json-string-array>] priority <i32> or <id> gray sync-plugin <instance-id> exec <absolute-path> [args-json <json-string-array>] priority <i32>".

(** The fields before the arguments: id, decision, executable and gray target. *)
Definition head_fields (fields : list string)
    : result string (string * string * string * option string) :=
  match fields with
  | [rule_id; decision; exec; executable] =>
      if (bool_decide (decision = "allow") || bool_decide (decision = "deny"))
           && bool_decide (exec = "exec")
      then Ok (rule_id, decision, executable, None) else Err usage
  | [rule_id; gray; sync; target; exec; executable] =>
      if bool_decide (gray = "gray") && bool_decide (sync = "sync-plugin")
           && bool_decide (exec = "exec")
      then Ok (rule_id, "gray", executable, Some target) else Err usage
  | _ => Err usage
  end.

Definition parse `{!FileSystem, !JsonStrings} (env : EnvVar) (line : string) (sequence : Z)
    : result string StoredCommandRule :=
  '(scope, priority) ← ok_or usage (rsplit_once " priority " line);
  '(head, args) ←
    match split_once " args-json " scope with
    | Some (head, raw) =>
        args ← map_err (λ e, "args-json must be a JSON string array: " +:+ e)
                 (json_from_str raw);
        Ok (head, Some args)
    | None => Ok (scope, None)
    end;
  '(rule_id, decision, executable, gray_target) ← head_fields (split_whitespace head);
  _ ← Validator.validate_id rule_id;
  decision ← Decision.from_wire decision;
  priority ← map_err (λ e, "priority must be an i32: " +:+ e) (parse_i32 priority);
  Rule.from_draft env STATIC_POLICY_OWNER (Some rule_id)
    (mkDraft (Some rule_id) decision executable args gray_target priority) 0 sequence 0.
End StaticParser.

(** * store.rs *)

Abbreviation Rules := (gmap string StoredCommandRule) (only parsing).

Record CommandPolicyStore := mkStore {
  revision : Z;
  next_rule_id : Z;
  next_sequence : Z;
  by_owner : gmap string (gmap string StoredCommandRule);
  effective_by_executable : gmap PathBuf (list StoredCommandRule);
}.

Module Store.
Definition empty : CommandPolicyStore := mkStore 0 1 0 ∅ ∅.

(** ** The effective index *)

(** [self.by_owner.values().flat_map(|rules| rules.values())]. *)
Definition all_rules (owners : gmap string (gmap string StoredCommandRule))
    : list StoredCommandRule := bt_flat owners.

(** The comparison of [rebuild_effective]: higher priority first, then the later
    update, then owner and id. *)
Definition rank (r : StoredCommandRule) : Z * (Z * (string * string)) :=
  (- r_priority r, (- r_updated_sequence r, (r_owner_instance_id r, r_rule_id r))).
Definition rule_le : relation StoredCommandRule := λ a b, bo_le (rank a) (rank b).
#[global] Instance rule_le_dec : RelDecision rule_le.
Proof. intros a b. unfold rule_le. apply _. Defined.

(** [entry(rule.execution_executable).or_default().push(rule)]. *)
Definition push_effective (m : gmap PathBuf (list StoredCommandRule)) (r : StoredCommandRule)
    : gmap PathBuf (list StoredCommandRule) :=
  <[r_execution_executable r := default [] (m !! r_execution_executable r) ++ [r]]> m.
Definition effective_of (owners : gmap string (gmap string StoredCommandRule))
    : gmap PathBuf (list StoredCommandRule) :=
  merge_sort rule_le <$> foldl push_effective ∅ (all_rules owners).
Definition rebuild_effective (s : CommandPolicyStore) : CommandPolicyStore :=
  mkStore (revision s) (next_rule_id s) (next_sequence s) (by_owner s)
    (effective_of (by_owner s)).

(** ** Queries *)

Definition effective_rule_views (s : CommandPolicyStore) : list CommandPolicyRuleView :=
  (λ r, let v := Rule.view r in
        mkView (v_rule_id v) (v_owner_instance_id v) (v_decision v)
          (Paths.display (r_execution_executable r)) (v_args v) (v_gray_target v)
          (v_priority v) (v_rule_revision v) (v_updated_sequence v))
    <$> mjoin (bt_values (effective_by_executable s)).

Definition find (s : CommandPolicyStore) (executable : PathBuf) (args : list string)
    : option StoredCommandRule :=
  rules ← effective_by_executable s !! executable;
  List.find (λ r, Args.matches (r_args r) args) rules.

Definition requires_args (s : CommandPolicyStore) (executable : PathBuf) : bool :=
  match effective_by_executable s !! executable with
  | Some rules => existsb (λ r, Args.requires_snapshot (r_args r)) rules
  | None => false
  end.

Definition is_rule_current (s : CommandPolicyStore) (r : StoredCommandRule) : bool :=
  match by_owner s !! r_owner_instance_id r ≫= λ rules, rules !! r_rule_id r with
  | Some current => bool_decide (r_rule_revision current = r_rule_revision r)
  | None => false
  end.

Definition view_le : relation CommandPolicyRuleView := λ a b,
  bo_le (v_owner_instance_id a, v_rule_id a) (v_owner_instance_id b, v_rule_id b).
#[global] Instance view_le_dec : RelDecision view_le.
Proof. intros a b. unfold view_le. apply _. Defined.

(** [list]; [saturating_add] on [usize]. *)
Definition list_rules (s : CommandPolicyStore) (filter : CommandPolicyListFilter)
    (cursor : option string) (limit : Z) : result string CommandPolicyListResult :=
  if limit =? 0 then Err "command policy list limit must be positive"
  else
    start ← match cursor with
            | None => Ok 0
            | Some raw => map_err (λ e, "invalid command policy cursor " +:+ raw +:+ ": " +:+ e)
                            (parse_usize raw)
            end;
    let views := merge_sort view_le
                   (Rule.view <$> List.filter (Rule.matches_filter filter) (all_rules (by_owner s))) in
    let rules := take (Z.to_nat limit) (drop (Z.to_nat start) views) in
    let next := Z.min u64_max (start + Z.of_nat (length rules)) in
    Ok (mkListResult rules
          (if next <? Z.of_nat (length views) then Some (fmt_u next) else None)
          (revision s)).

Definition match_dry_run `{!FileSystem} (env : EnvVar) (s : CommandPolicyStore)
    (request : CommandPolicyMatchDryRunRequest) (default_decision : CommandPolicyDecision)
    : result string CommandPolicyMatchDryRunResult :=
  _ ← ExecutablePath.normalize_absolute (dr_executable request);
  executable ← policy_bind env (dr_executable request);
  let matched := find s executable (dr_args request) in
  Ok (mkDryRunResult (bool_decide (is_Some matched))
        (default default_decision (r_decision <$> matched)) (r_rule_id <$> matched)
        (r_owner_instance_id <$> matched) (Paths.display executable)
        (r_rule_revision <$> matched) (revision s)).

(** ** Updates *)

Definition set_sequence (v : Z) (s : CommandPolicyStore) : CommandPolicyStore :=
  mkStore (revision s) (next_rule_id s) v (by_owner s) (effective_by_executable s).
Definition set_rule_id (v : Z) (s : CommandPolicyStore) : CommandPolicyStore :=
  mkStore (revision s) v (next_sequence s) (by_owner s) (effective_by_executable s).
Definition set_owners (o : gmap string (gmap string StoredCommandRule)) (s : CommandPolicyStore)
    : CommandPolicyStore :=
  mkStore (revision s) (next_rule_id s) (next_sequence s) o (effective_by_executable s).
Definition set_revision (v : Z) (s : CommandPolicyStore) : CommandPolicyStore :=
  mkStore v (next_rule_id s) (next_sequence s) (by_owner s) (effective_by_executable s).

(** [bump_revision]. *)
Definition bump_revision : ST CommandPolicyStore string () := λ s,
  match checked_add_u64 (revision s) 1 with
  | Some v => (Ok (), set_revision v s)
  | None => (Err "command policy revision overflow", s)
  end.

(** [remove_owner]: the rules are gone even when the revision cannot be bumped. *)
Definition remove_owner (owner : string) : ST CommandPolicyStore string bool := λ s,
  if bool_decide (owner = STATIC_POLICY_OWNER)
  then (Err "static command policy owner cannot be removed", s)
  else match by_owner s !! owner with
       | None => (Ok false, s)
       | Some _ =>
           match bump_revision (set_owners (delete owner (by_owner s)) s) with
           | (Ok _, s') => (Ok true, rebuild_effective s')
           | (Err e, s') => (Err e, s')
           end
       end.

Section apply.
Context {fs : FileSystem} {json : JsonStrings} (env : EnvVar).

(** The state [apply_item] works on: the candidate and the owner's rules. *)
Abbreviation ItemM := (ST (CommandPolicyStore * gmap string StoredCommandRule) string).

Definition bump_sequence : ItemM Z := λ '(s, rules),
  match checked_add_u64 (next_sequence s) 1 with
  | Some v => (Ok v, (set_sequence v s, rules))
  | None => (Err "command policy sequence overflow", (s, rules))
  end.
Definition bump_rule_id : ItemM () := λ '(s, rules),
  match checked_add_u64 (next_rule_id s) 1 with
  | Some v => (Ok (), (set_rule_id v s, rules))
  | None => (Err "command policy generated rule id overflow", (s, rules))
  end.

Definition check_ids (item : CommandPolicyPatchItem) (draft : CommandPolicyRuleDraft)
    : result string () :=
  match it_rule_id item, d_rule_id draft with
  | Some item_id, Some draft_id =>
      if bool_decide (item_id = draft_id) then Ok ()
      else Err ("item rule_id " +:+ item_id +:+ " does not match draft rule_id " +:+ draft_id)
  | _, _ => Ok ()
  end.
Definition check_gray (owner : string) (draft : CommandPolicyRuleDraft) : result string () :=
  if bool_decide (d_decision draft = DecisionGray)
  then target ← ok_or "gray command rule requires gray_target" (d_gray_target draft);
       if bool_decide (target = owner)
       then Err "gray command rule cannot target its policy owner" else Ok ()
  else Ok ().

(** [apply_item], the two operations. *)
Definition delete_item (item : CommandPolicyPatchItem) : ItemM () := λ '(s, rules),
  match it_rule item, it_rule_id item with
  | Some _, _ => (Err "delete item must not include rule", (s, rules))
  | None, None => (Err "delete item requires rule_id", (s, rules))
  | None, Some rule_id =>
      match rules !! rule_id with
      | None => (Err ("command rule " +:+ rule_id +:+ " not found for owner"), (s, rules))
      | Some _ => (Ok (), (s, delete rule_id rules))
      end
  end.
Definition upsert_item (owner : string) (item : CommandPolicyPatchItem) (next_revision : Z)
    (grants : list CommandPolicyRulesApplyGrant) : ItemM () :=
  draft ← st_lift (ok_or "upsert item requires rule" (it_rule item));
  _ ← st_lift (check_ids item draft);
  _ ← st_lift (Validator.validate_draft_grant grants draft);
  _ ← st_lift (check_gray owner draft);
  sequence ← bump_sequence;
  '(s, _) ← st_get;
  rule ← st_lift (Rule.from_draft env owner (it_rule_id item) draft next_revision sequence
                    (next_rule_id s));
  _ ← st_lift (Validator.validate_bound_grant env grants rule);
  _ ← (match it_rule_id item, d_rule_id draft with
       | None, None => bump_rule_id
       | _, _ => mret ()
       end);
  '(s', rules) ← st_get;
  st_put (s', <[r_rule_id rule := rule]> rules).
Definition apply_item (owner : string) (item : CommandPolicyPatchItem) (next_revision : Z)
    (grants : list CommandPolicyRulesApplyGrant) : ItemM () :=
  match it_op item with
  | Delete => delete_item item
  | Upsert => upsert_item owner item next_revision grants
  end.

(** The loop over the items: a failing item is reported and the loop goes on. *)
Fixpoint apply_items (owner : string) (next_revision : Z)
    (grants : list CommandPolicyRulesApplyGrant) (index : nat)
    (items : list CommandPolicyPatchItem)
    (st : CommandPolicyStore * gmap string StoredCommandRule)
    : list CommandPolicyApplyError * (CommandPolicyStore * gmap string StoredCommandRule) :=
  match items with
  | [] => ([], st)
  | item :: rest =>
      let '(r, st1) := apply_item owner item next_revision grants st in
      let '(errors, st2) := apply_items owner next_revision grants (S index) rest st1 in
      (match r with
       | Ok _ => errors
       | Err message => Validator.apply_error (as_u32 index) "invalid-rule" message :: errors
       end, st2)
  end.

(** [candidate_after]. *)
Definition candidate_after (owner : string) (grants : list CommandPolicyRulesApplyGrant)
    (request : CommandPolicyApplyRequest) (s : CommandPolicyStore)
    : result (list CommandPolicyApplyError) CommandPolicyStore :=
  match Validator.validate_request (revision s) owner request with
  | e :: es => Err (e :: es)
  | [] =>
      match checked_add_u64 (revision s) 1 with
      | None => Err [Validator.apply_error 0 "revision-overflow"
                       "command policy revision overflow"]
      | Some next_revision =>
          let owner_rules := default ∅ (by_owner s !! owner) in
          match apply_items owner next_revision grants 0 (rq_items request)
                  (set_owners (delete owner (by_owner s)) s, owner_rules) with
          | (e :: es, _) => Err (e :: es)
          | ([], (candidate, owner_rules')) =>
              match Validator.validate_owner_rules owner owner_rules' with
              | Err message => Err [Validator.apply_error 0 "duplicate-scope" message]
              | Ok _ =>
                  let owners :=
                    if decide (owner_rules' = ∅) then delete owner (by_owner candidate)
                    else <[owner := owner_rules']> (by_owner candidate) in
                  Ok (rebuild_effective (set_revision next_revision
                                           (set_owners owners candidate)))
              end
          end
      end
  end.

(** [validate_apply] and [apply]. *)
Definition validate_apply (owner : string) (grants : list CommandPolicyRulesApplyGrant)
    (request : CommandPolicyApplyRequest) (s : CommandPolicyStore)
    : CommandPolicyApplyResult :=
  match candidate_after owner grants request s with
  | Ok _ => Validator.accepted_result (revision s) (as_u32 (length (rq_items request)))
  | Err errors => Validator.rejected_result (revision s) errors
  end.
Definition apply (owner : string) (grants : list CommandPolicyRulesApplyGrant)
    (request : CommandPolicyApplyRequest) (s : CommandPolicyStore)
    : CommandPolicyApplyResult * CommandPolicyStore :=
  match candidate_after owner grants request s with
  | Ok candidate =>
      (Validator.accepted_result (revision candidate) (as_u32 (length (rq_items request))),
       candidate)
  | Err errors => (Validator.rejected_result (revision s) errors, s)
  end.

(** ** Loading the static rules *)

Fixpoint load_lines (path : string) (index : nat) (raw_lines : list string) (sequence : Z)
    (rules : gmap string StoredCommandRule)
    : result string (Z * gmap string StoredCommandRule) :=
  match raw_lines with
  | [] => Ok (sequence, rules)
  | raw_line :: rest =>
      let line := trim raw_line in
      if bool_decide (line = "") || String.prefix "#" line
      then load_lines path (S index) rest sequence rules
      else
        let at_line := path +:+ ":" +:+ pretty (index + 1)%nat +:+ ": " in
        sequence ← ok_or "command policy sequence overflow" (checked_add_u64 sequence 1);
        rule ← map_err (λ e, at_line +:+ e) (StaticParser.parse env line sequence);
        match rules !! r_rule_id rule with
        | Some _ => Err (at_line +:+ "duplicate command rule id")
        | None => load_lines path (S index) rest sequence (<[r_rule_id rule := rule]> rules)
        end
  end.

Definition load (path : string) (file : FileContents) : result string CommandPolicyStore :=
  raw ← match file with
        | Contents raw => Ok raw
        | FileNotFound => Ok ""
        | FileError text => Err ("read command control rules " +:+ path +:+ " failed: " +:+ text)
        end;
  '(sequence, static_rules) ← load_lines path 0 (lines raw) 0 ∅;
  _ ← Validator.validate_owner_rules STATIC_POLICY_OWNER static_rules;
  let store := set_sequence sequence empty in
  if decide (static_rules = ∅) then Ok store
  else
    Ok (rebuild_effective
          (set_owners {[STATIC_POLICY_OWNER := Rule.with_revision 1 <$> static_rules]}
             (set_revision 1 store))).
End apply.
End Store.

(** * The effective index *)

Module StoreFacts.
Import Store.

#[local] Instance rule_le_refl : Reflexive rule_le.
Proof. intros r. unfold rule_le. reflexivity. Qed.
#[local] Instance rule_le_trans : Transitive rule_le.
Proof. intros a b c ??. unfold rule_le in *. by trans (rank b). Qed.
#[local] Instance rule_le_total : Total rule_le.
Proof. intros a b. apply (total bo_le). Qed.

(** A rule some owner has in the store. *)
Definition stored (s : CommandPolicyStore) (r : StoredCommandRule) : Prop :=
  ∃ o rs id, by_owner s !! o = Some rs ∧ rs !! id = Some r.

Lemma elem_of_all_rules owners r :
  r ∈ all_rules owners ↔ ∃ o rs id, owners !! o = Some rs ∧ rs !! id = Some r.
Proof. apply elem_of_bt_flat. Qed.

(** The rules bound to one executable, in the order they are pushed. *)
Definition bound_to (p : PathBuf) (rs : list StoredCommandRule) : list StoredCommandRule :=
  filter (λ r, r_execution_executable r = p) rs.

Lemma foldl_push m rs p :
  foldl push_effective m rs !! p =
    match bound_to p rs with [] => m !! p | l => Some (default [] (m !! p) ++ l) end.
Proof.
  unfold bound_to. revert m. induction rs as [|r rs IH]; intros m; [done|].
  simpl. rewrite IH, filter_cons. unfold push_effective.
  destruct (decide (r_execution_executable r = p)) as [->|Hne].
  - rewrite lookup_insert_eq. simpl. destruct (filter _ rs); [done|].
    by rewrite <-app_assoc.
  - by rewrite lookup_insert_ne.
Qed.

Lemma effective_lookup owners p :
  effective_of owners !! p =
    match bound_to p (all_rules owners) with
    | [] => None | l => Some (merge_sort rule_le l) end.
Proof.
  unfold effective_of. rewrite lookup_fmap, foldl_push, lookup_empty.
  by destruct (bound_to _ _).
Qed.

Lemma elem_of_bound_to p rs r :
  r ∈ bound_to p rs ↔ r_execution_executable r = p ∧ r ∈ rs.
Proof. unfold bound_to. by rewrite list_elem_of_filter. Qed.

(** Keys agree with the rules stored under them, and the index is up to date. *)
Record inv (s : CommandPolicyStore) : Prop := {
  inv_keys : ∀ o rs id r, by_owner s !! o = Some rs → rs !! id = Some r →
    r_owner_instance_id r = o ∧ r_rule_id r = id;
  inv_index : effective_by_executable s = effective_of (by_owner s);
}.

Lemma stored_rank_inj s r r' :
  inv s → stored s r → stored s r' → rank r = rank r' → r = r'.
Proof.
  intros [Hk _] (o & rs & id & Ho & Hid) (o' & rs' & id' & Ho' & Hid').
  destruct (Hk _ _ _ _ Ho Hid) as [<- <-], (Hk _ _ _ _ Ho' Hid') as [<- <-].
  unfold rank. intros [= _ _ E1 E2]. rewrite <-E1 in Ho'. rewrite <-E2 in Hid'. congruence.
Qed.

(** The matching rules of the store for a call. *)
Definition matching (s : CommandPolicyStore) (p : PathBuf) (args : list string)
    (r : StoredCommandRule) : Prop :=
  stored s r ∧ r_execution_executable r = p ∧ Args.matches (r_args r) args = true.

Lemma find_cases s p args :
  inv s →
  match find s p args with
  | Some r => matching s p args r ∧ ∀ r', matching s p args r' → rule_le r r'
  | None => ∀ r, ¬ matching s p args r
  end.
Proof.
  intros Hinv. unfold find. rewrite (inv_index s Hinv), effective_lookup.
  assert (∀ r, stored s r ∧ r_execution_executable r = p ↔ r ∈ bound_to p (all_rules (by_owner s)))
    as Hin by (intros r; rewrite elem_of_bound_to, elem_of_all_rules; unfold stored; tauto).
  unfold matching. destruct (bound_to p _) as [|a l] eqn:El; cbn [mbind option_bind].
  { intros r (H1 & H2 & _). by apply (not_elem_of_nil r), Hin. }
  rewrite <-El in *.
  assert (∀ r, r ∈ merge_sort rule_le (bound_to p (all_rules (by_owner s))) ↔
               stored s r ∧ r_execution_executable r = p) as Hm
    by (intros r; rewrite merge_sort_Permutation; symmetry; apply Hin).
  destruct (List.find _ _) as [r|] eqn:Ef.
  - apply (find_sorted rule_le) in Ef as (Hr & Hp & Hmin); [|apply StronglySorted_merge_sort; apply _].
    apply Hm in Hr as [Hs He]. split; [done|].
    intros r' (Hs' & He' & Hp'). apply Hmin; [by apply Hm|done].
  - intros r (Hs & He & Hp). apply (proj1 (find_None _ _)) with (r:=r) in Ef; [|by apply Hm].
    congruence.
Qed.

Lemma find_iff s p args r :
  inv s →
  find s p args = Some r ↔
    matching s p args r ∧ ∀ r', matching s p args r' → rule_le r r'.
Proof.
  intros Hinv. pose proof (find_cases s p args Hinv) as H.
  destruct (find s p args) as [r0|].
  - split; [intros [= <-]; done|]. intros [Hm Hmin]. f_equal. destruct H as [Hm0 Hmin0].
    apply (stored_rank_inj s); [done|apply Hm0|apply Hm|].
    apply (anti_symm bo_le); [by apply Hmin0|by apply Hmin].
  - split; [done|]. intros [Hm _]. by destruct (H r).
Qed.

Lemma no_snapshot_matches p args :
  Args.requires_snapshot p = false → Args.matches p args = true.
Proof.
  destruct p as [|l|l]; simpl; [done..|]. case_bool_decide as E; [|done]. intros _.
  by rewrite E.
Qed.

Lemma requires_args_sound s p args args' :
  requires_args s p = false → find s p args = find s p args'.
Proof.
  unfold requires_args, find. destruct (effective_by_executable s !! p) as [l|]; [|done].
  simpl. induction l as [|a l IH]; [done|]. simpl.
  intros [Ha Hl]%orb_false_iff. by rewrite !no_snapshot_matches.
Qed.
End StoreFacts.

(** * Updates *)

Module UpdateFacts.
Import Store StoreFacts.

Section grants.
Context {fs : FileSystem} (env : EnvVar).
Implicit Types grants : list CommandPolicyRulesApplyGrant.

#[local] Hint Resolve strip_suffix_Some starts_with_prefix : actrail.

#[local] Hint Resolve policy_bind_Ok : actrail.

(** A grant covers a rule: same decision, and either the scope is exactly the
    rule's executable, lexically and bound, or it is "base/**" with the rule's
    lexical path under the normalised base and its bound path under the bound
    base. *)
Definition covers (g : CommandPolicyRulesApplyGrant) (r : StoredCommandRule) : Prop :=
  g_decision g = r_decision r ∧
  ((ExecutablePath.normalize_absolute (g_path_scope g) = Ok (r_executable r) ∧
    Bind.bind env (g_path_scope g) = Some (Ok (r_execution_executable r))) ∨
   ∃ base lexical bound,
     g_path_scope g = base +:+ "/**" ∧
     ExecutablePath.normalize_absolute base = Ok lexical ∧
     Bind.bind env base = Some (Ok bound) ∧
     lexical `prefix_of` r_executable r ∧ bound `prefix_of` r_execution_executable r).

Lemma scope_covers raw scope lex exec :
  GrantScope.parse raw = Ok scope → GrantScope.contains scope lex = true →
  bound_contains env scope raw exec = Ok true →
  (ExecutablePath.normalize_absolute raw = Ok lex ∧ Bind.bind env raw = Some (Ok exec)) ∨
  ∃ base lexical bound,
    raw = base +:+ "/**" ∧ ExecutablePath.normalize_absolute base = Ok lexical ∧
    Bind.bind env base = Some (Ok bound) ∧ lexical `prefix_of` lex ∧ bound `prefix_of` exec.
Proof.
  unfold GrantScope.parse. destruct (str_contains _ _); [done|].
  destruct (strip_suffix "/**" raw) as [base|] eqn:Es.
  - assert (GrantRecursive <$> ExecutablePath.normalize_absolute base = Ok scope →
      GrantScope.contains scope lex = true → bound_contains env scope raw exec = Ok true →
      ∃ base lexical bound,
        raw = base +:+ "/**" ∧ ExecutablePath.normalize_absolute base = Ok lexical ∧
        Bind.bind env base = Some (Ok bound) ∧ lexical `prefix_of` lex ∧
        bound `prefix_of` exec) as H.
    { destruct (ExecutablePath.normalize_absolute base) as [l|] eqn:En; [|done].
      cbn. intros [= <-]. cbn. intros Hc. rewrite Es. cbn.
      intros (b & Hb & [= Hs])%result_bind_inv.
      exists base, l, b. splits; eauto with actrail. }
    destruct base; [done|]. intros H1 H2 H3. right. by apply H.
  - destruct (ExecutablePath.normalize_absolute raw) as [l|] eqn:En; [|done].
    cbn. intros [= <-]. cbn. intros ->%bool_decide_eq_true (b & Hb & [= Hs])%result_bind_inv.
    apply bool_decide_eq_true in Hs as ->. left. eauto with actrail.
Qed.

Lemma validate_bound_grant_covers grants r :
  Validator.validate_bound_grant env grants r = Ok () → ∃ g, g ∈ grants ∧ covers g r.
Proof.
  unfold Validator.validate_bound_grant. destruct (existsb _ _) eqn:Ee; [|done]. intros _.
  apply existsb_exists in Ee as (g & Hg & [Hd%bool_decide_eq_true Hs]%andb_true_iff).
  exists g. split; [by apply list_elem_of_In|]. split; [done|].
  destruct (GrantScope.parse _) as [scope|] eqn:Ep; [|done]. simpl in Hs.
  apply andb_true_iff in Hs as [Hc Hb].
  destruct (bound_contains _ _ _ _) as [[]|] eqn:Eb; try done.
  by apply (scope_covers _ scope).
Qed.

(** What a rule written by an accepted update satisfies. *)
Record written (owner : string) (grants : list CommandPolicyRulesApplyGrant)
    (rev : Z) (id : string) (r : StoredCommandRule) : Prop := {
  wr_id : r_rule_id r = id;
  wr_owner : r_owner_instance_id r = owner;
  wr_revision : r_rule_revision r = rev;
  wr_bound : ∃ raw, ExecutablePath.normalize_absolute raw = Ok (r_executable r) ∧
                    Bind.bind env raw = Some (Ok (r_execution_executable r));
  wr_decision : r_decision r ≠ DecisionDefault;
  wr_target : r_decision r = DecisionGray ↔ is_Some (r_gray_target r);
  wr_not_self : r_gray_target r ≠ Some owner;
  wr_granted : ∃ g, g ∈ grants ∧ covers g r;
}.

Lemma from_draft_Ok owner item_id draft rev seq gen r :
  Rule.from_draft env owner item_id draft rev seq gen = Ok r →
  r_owner_instance_id r = owner ∧ r_rule_revision r = rev ∧ r_updated_sequence r = seq ∧
  r_decision r = d_decision draft ∧ r_gray_target r = d_gray_target draft ∧
  (ExecutablePath.normalize_absolute (d_executable draft) = Ok (r_executable r) ∧
   Bind.bind env (d_executable draft) = Some (Ok (r_execution_executable r))) ∧
  d_decision draft ≠ DecisionDefault ∧
  (d_decision draft = DecisionGray ↔ is_Some (d_gray_target draft)).
Proof.
  unfold Rule.from_draft. intros ([] & _ & H)%result_bind_inv. revert H.
  intros ([] & Hshape & H)%result_bind_inv. revert H.
  intros (exe & Hexe & H)%result_bind_inv. revert H.
  intros (exec & Hexec%policy_bind_Ok & H)%result_bind_inv. revert H.
  intros (args & _ & [= <-])%result_bind_inv. simpl.
  splits; try done; revert Hshape; unfold Validator.validate_shape;
    destruct (d_decision draft), (d_gray_target draft); try done; naive_solver.
Qed.
End grants.

(** The parts of the candidate an item never touches. *)
Definition same_rules (s s' : CommandPolicyStore) : Prop :=
  revision s' = revision s ∧ by_owner s' = by_owner s.

Section items.
Context {fs : FileSystem} {json : JsonStrings} (env : EnvVar).
Context (owner : string) (grants : list CommandPolicyRulesApplyGrant) (rev : Z).

Lemma bump_sequence_spec st r st' :
  bump_sequence st = (r, st') → same_rules st.1 st'.1 ∧ st'.2 = st.2.
Proof.
  unfold bump_sequence, same_rules. destruct st as [s rules].
  destruct (checked_add_u64 _ _); intros [= <- <-]; done.
Qed.

Lemma bump_rule_id_spec st r st' :
  bump_rule_id st = (r, st') → same_rules st.1 st'.1 ∧ st'.2 = st.2.
Proof.
  unfold bump_rule_id, same_rules. destruct st as [s rules].
  destruct (checked_add_u64 _ _); intros [= <- <-]; done.
Qed.

Lemma check_gray_Ok draft :
  check_gray owner draft = Ok () →
  (d_decision draft = DecisionGray ↔ is_Some (d_gray_target draft)) →
  d_gray_target draft ≠ Some owner.
Proof.
  unfold check_gray. intros Hc Hg E.
  rewrite bool_decide_true in Hc by (apply Hg; eauto). rewrite E in Hc. simpl in Hc.
  by rewrite bool_decide_true in Hc.
Qed.

(** An item that succeeds changes one binding of the owner's rules. *)
Definition item_effect (rules rules' : gmap string StoredCommandRule) : Prop :=
  (∃ id, rules' = delete id rules) ∨
  (∃ id r, written env owner grants rev id r ∧ rules' = <[id := r]> rules).

Lemma st_lift_inv {S E A} (m : result E A) (s s' : S) r :
  st_lift m s = (r, s') → m = r ∧ s' = s.
Proof. unfold st_lift. by intros [= -> ->]. Qed.

Lemma upsert_item_Ok item st st' :
  upsert_item env owner item rev grants st = (Ok (), st') →
  same_rules st.1 st'.1 ∧ item_effect st.2 st'.2.
Proof.
  unfold upsert_item.
  intros [(draft & ? & [Hdraft ->]%st_lift_inv & H)|(? & _ & [=])]%st_bind_inv.
  apply st_bind_inv in H as [([] & ? & [_ ->]%st_lift_inv & H)|(? & _ & [=])].
  apply st_bind_inv in H as [([] & ? & [_ ->]%st_lift_inv & H)|(? & _ & [=])].
  apply st_bind_inv in H as [([] & ? & [Hgray ->]%st_lift_inv & H)|(? & _ & [=])].
  apply st_bind_inv in H as [(seq & st1 & [Hs1 Hr1]%bump_sequence_spec & H)|(? & _ & [=])].
  apply st_bind_inv in H as [([s1 rules1] & st2 & Hget & H)|(? & _ & [=])].
  injection Hget as Est1 Est2. subst st1 st2.
  apply st_bind_inv in H as [(rule & ? & [Hrule ->]%st_lift_inv & H)|(? & _ & [=])].
  apply st_bind_inv in H as [([] & ? & [Hbound ->]%st_lift_inv & H)|(? & _ & [=])].
  apply st_bind_inv in H as [([] & st3 & Hid & H)|(? & _ & [=])].
  assert (same_rules s1 st3.1 ∧ st3.2 = rules1) as [Hs3 Hr3].
  { destruct (it_rule_id item), (d_rule_id draft);
      try (injection Hid as <-; by split); by apply bump_rule_id_spec in Hid. }
  apply st_bind_inv in H as [([s3 rules3] & ? & Hget & H)|(? & _ & [=])].
  injection Hget as E3 <-. subst st3. injection H as <-. simpl in *. subst rules1 rules3.
  destruct Hs1 as [E1 E2], Hs3 as [E3 E4]. split; [split; congruence|].
  right. exists (r_rule_id rule), rule. split; [|done].
  apply from_draft_Ok in Hrule as (? & ? & _ & Hd & Ht & ? & Hnd & Hg).
  split; try done; [by eauto|by rewrite Hd|by rewrite Hd, Ht| |].
  - rewrite Ht. by apply check_gray_Ok.
  - by apply validate_bound_grant_covers.
Qed.

Lemma apply_item_Ok item st st' :
  apply_item env owner item rev grants st = (Ok (), st') →
  same_rules st.1 st'.1 ∧ item_effect st.2 st'.2.
Proof.
  unfold apply_item. destruct (it_op item); [apply upsert_item_Ok|].
  unfold delete_item. destruct st as [s rules].
  destruct (it_rule item), (it_rule_id item) as [id|]; try done.
  destruct (rules !! id); [|done]. intros [= <-]. simpl. split; [done|]. left. eauto.
Qed.

(** Every rule of the owner after the items is an old one or a written one. *)
Definition only_written (rules rules' : gmap string StoredCommandRule) : Prop :=
  ∀ id r, rules' !! id = Some r →
    rules !! id = Some r ∨ written env owner grants rev id r.

Lemma item_effect_only_written rules rules1 rules2 :
  item_effect rules rules1 → only_written rules1 rules2 → only_written rules rules2.
Proof.
  intros He Hw id r [Hr|]%Hw; [|by right].
  destruct He as [[id' ->]|(id' & r' & Hwr & ->)].
  - left. by apply lookup_delete_Some in Hr as [_ ?].
  - apply lookup_insert_Some in Hr as [[<- <-]|[_ ?]]; [by right|by left].
Qed.

Lemma apply_items_Ok index items st st' :
  apply_items env owner rev grants index items st = ([], st') →
  same_rules st.1 st'.1 ∧ only_written st.2 st'.2.
Proof.
  revert index st. induction items as [|item items IH]; intros index st; simpl.
  { intros [= <-]. split; [done|]. by left. }
  destruct (apply_item _ _ _ _ _ _) as [r st1] eqn:Ei.
  destruct (apply_items _ _ _ _ _ _ _) as [errors st2] eqn:Es.
  destruct r as [[]|]; [|done]. intros [= -> <-].
  apply apply_item_Ok in Ei as [[E1 E2] He].
  destruct (IH _ _ Es) as [[E3 E4] Hw].
  split; [split; congruence|]. by apply (item_effect_only_written _ st1.2).
Qed.
End items.

(** No two rules of an owner have the same executable and argument scope. *)
Definition rule_scope (r : StoredCommandRule) : PathBuf * CommandArgsScope :=
  (r_executable r, Args.logical_scope (r_args r)).
Definition scopes_distinct (rules : gmap string StoredCommandRule) : Prop :=
  ∀ id1 id2 r1 r2, rules !! id1 = Some r1 → rules !! id2 = Some r2 →
    rule_scope r1 = rule_scope r2 → id1 = id2.

Lemma NoDup_fmap_eq {A B} (f : A → B) (l : list A) x y :
  NoDup (f <$> l) → x ∈ l → y ∈ l → f x = f y → x = y.
Proof.
  induction l as [|a l IH]; simpl; [by intros _ ?%not_elem_of_nil|].
  intros [Ha Hnd]%NoDup_cons [->|Hx]%elem_of_cons [->|Hy]%elem_of_cons Hf; auto;
    destruct Ha; apply list_elem_of_fmap; eauto.
Qed.

Lemma check_scopes_Ok `{!JsonStrings} owner l scopes :
  Validator.check_scopes owner l scopes = Ok () →
  NoDup ((λ p, rule_scope p.2) <$> l) ∧ ∀ p, p ∈ l → rule_scope p.2 ∉ scopes.
Proof.
  revert scopes. induction l as [|[key r] l IH]; intros scopes; simpl.
  { intros _. split; [constructor|]. by intros p ?%not_elem_of_nil. }
  case_bool_decide; [|done]. fold (rule_scope r). simpl. destruct (decide _) as [|Hni]; [done|].
  intros [Hnd Hall]%IH. split.
  - constructor; [|done]. intros (p & E & Hp)%list_elem_of_fmap.
    apply (Hall p Hp). rewrite <-E. set_solver.
  - intros p [->|Hp]%elem_of_cons; [done|]. specialize (Hall p Hp). set_solver.
Qed.

Lemma validate_owner_rules_Ok `{!JsonStrings} owner rules :
  Validator.validate_owner_rules owner rules = Ok () → scopes_distinct rules.
Proof.
  intros [Hnd _]%check_scopes_Ok id1 id2 r1 r2 H1 H2 E.
  apply elem_of_bt_list in H1, H2.
  by apply (NoDup_fmap_eq _ _ _ _ Hnd H1) in H2 as [= -> _].
Qed.

Lemma validate_request_nil rev owner request :
  Validator.validate_request rev owner request = [] →
  owner ≠ STATIC_POLICY_OWNER ∧ rq_base_revision request = rev.
Proof.
  unfold Validator.validate_request. intros [H1 [H2 _]%app_nil]%app_nil. revert H1 H2.
  case_bool_decide; [by rewrite orb_true_r|]. by case_bool_decide.
Qed.

Section apply.
Context {fs : FileSystem} {json : JsonStrings} (env : EnvVar).

(** What an accepted update does to the store. *)
Record updated (owner : string) (grants : list CommandPolicyRulesApplyGrant)
    (s c : CommandPolicyStore) : Prop := {
  up_owner : owner ≠ STATIC_POLICY_OWNER;
  up_revision : revision c = revision s + 1;
  up_bound : revision c ≤ u64_max;
  up_others : ∀ o, o ≠ owner → by_owner c !! o = by_owner s !! o;
  up_written : only_written env owner grants (revision c)
                 (default ∅ (by_owner s !! owner)) (default ∅ (by_owner c !! owner));
  up_distinct : scopes_distinct (default ∅ (by_owner c !! owner));
  up_index : effective_by_executable c = effective_of (by_owner c);
}.

Lemma candidate_after_Ok owner grants request s c :
  candidate_after env owner grants request s = Ok c →
  rq_base_revision request = revision s ∧ updated owner grants s c.
Proof.
  unfold candidate_after.
  destruct (Validator.validate_request _ _ _) eqn:Er; [|done].
  apply validate_request_nil in Er as [Hown Hbase].
  destruct (checked_add_u64 (revision s) 1) as [rev|] eqn:Erev; [|done].
  apply checked_add_u64_Some in Erev as [-> Hrev].
  destruct (apply_items _ _ _ _ _ _ _) as [[|] [cand rules']] eqn:Ei; [|done].
  apply apply_items_Ok in Ei as [[_ Ho] Hw]. simpl in Ho, Hw.
  destruct (Validator.validate_owner_rules _ _) as [[]|] eqn:Ev; [|done].
  apply validate_owner_rules_Ok in Ev. intros [= <-]. split; [done|].
  assert (default ∅ ((if decide (rules' = ∅) then delete owner (by_owner cand)
    else <[owner:=rules']> (by_owner cand)) !! owner) = rules') as Edef.
  { destruct (decide (rules' = ∅)) as [->|].
    - by rewrite lookup_delete_eq. - by rewrite lookup_insert_eq. }
  split; cbn [revision by_owner effective_by_executable rebuild_effective set_revision set_owners];
    try done; rewrite ?Edef; try done.
  intros o Hne. case_decide.
  - by rewrite lookup_delete_ne, Ho, lookup_delete_ne.
  - by rewrite lookup_insert_ne, Ho, lookup_delete_ne.
Qed.

Lemma candidate_after_Err owner grants request s es :
  candidate_after env owner grants request s = Err es → es ≠ [].
Proof.
  unfold candidate_after.
  destruct (Validator.validate_request _ _ _); [|by intros [= <-]].
  destruct (checked_add_u64 _ _); [|by intros [= <-]].
  destruct (apply_items _ _ _ _ _ _ _) as [[|] [cand rules']]; [|by intros [= <-]].
  destruct (Validator.validate_owner_rules _ _); by intros [= <-].
Qed.

Lemma updated_inv owner grants s c : inv s → updated owner grants s c → inv c.
Proof.
  intros Hinv Hup. split; [|apply Hup]. intros o rs id r Ho Hid.
  destruct (decide (o = owner)) as [->|Hne].
  - destruct (up_written _ _ _ _ Hup id r) as [Hr|Hwr]; [by rewrite Ho| |].
    + destruct (by_owner s !! owner) as [rs0|] eqn:E0; simpl in Hr;
        [|by rewrite lookup_empty in Hr].
      by apply (inv_keys s Hinv owner rs0).
    + by split; [apply Hwr|apply Hwr].
  - rewrite (up_others _ _ _ _ Hup) in Ho by done. by apply (inv_keys s Hinv o rs).
Qed.
End apply.

(** ** Loading *)

Definition static_keys (rules : gmap string StoredCommandRule) : Prop :=
  ∀ id r, rules !! id = Some r → r_owner_instance_id r = STATIC_POLICY_OWNER ∧ r_rule_id r = id.

Lemma parse_owner `{fs : !FileSystem, json : !JsonStrings} env line seq r :
  StaticParser.parse env line seq = Ok r → r_owner_instance_id r = STATIC_POLICY_OWNER.
Proof.
  unfold StaticParser.parse. intros ([scope prio] & _ & H)%result_bind_inv.
  apply result_bind_inv in H as ([head args] & _ & H).
  apply result_bind_inv in H as ([[[id d] exe] target] & _ & H).
  apply result_bind_inv in H as ([] & _ & H).
  apply result_bind_inv in H as (dec & _ & H).
  apply result_bind_inv in H as (p & _ & H).
  by apply from_draft_Ok in H as [? _].
Qed.

Lemma load_lines_keys `{fs : !FileSystem, json : !JsonStrings} env path index ls seq rules seq' rules' :
  static_keys rules → load_lines env path index ls seq rules = Ok (seq', rules') →
  static_keys rules'.
Proof.
  revert index seq rules. induction ls as [|l ls IH]; intros index seq rules Hk; cbn [load_lines].
  { by intros [= _ <-]. }
  destruct (bool_decide _ || _); [by apply IH|].
  intros (seq1 & _ & H)%result_bind_inv. apply result_bind_inv in H as (r & Hr & H).
  destruct (rules !! r_rule_id r); [done|]. revert H. apply IH.
  intros id r' [[<- <-]|[_ ?]]%lookup_insert_Some; [|by apply Hk]. split; [|done].
  destruct (StaticParser.parse env (trim l) seq1) as [r''|] eqn:Ep; [|done].
  injection Hr as ->. by apply parse_owner in Ep.
Qed.

Lemma load_inv `{fs : !FileSystem, json : !JsonStrings} env path file s :
  load env path file = Ok s → inv s ∧ 0 ≤ revision s.
Proof.
  unfold load. intros (raw & _ & H)%result_bind_inv.
  apply result_bind_inv in H as ([seq rules] & Hl & H).
  apply result_bind_inv in H as ([] & _ & H).
  apply load_lines_keys in Hl; [|by intros ??; rewrite lookup_empty].
  destruct (decide (rules = ∅)); injection H as <-; (split; [split|done]); try done.
  intros o rs id r; simpl. intros [<- <-]%lookup_singleton_Some.
  rewrite lookup_fmap. intros (r0 & Hr0 & ->)%fmap_Some. by apply Hl in Hr0.
Qed.
End UpdateFacts.

(** * The policy store over its lifetime *)

Module PolicyFacts.
Import Store StoreFacts UpdateFacts.

(** The calls that change a store; each sees its own file system and environment. *)
Inductive store_step : CommandPolicyStore → CommandPolicyStore → Prop :=
| step_apply (fs : FileSystem) (json : JsonStrings) env owner grants request s :
    store_step s (apply env owner grants request s).2
| step_remove_owner owner s :
    store_step s (remove_owner owner s).2.

(** A store at some point after it was loaded. *)
Definition reachable (s : CommandPolicyStore) : Prop :=
  ∃ (fs : FileSystem) (json : JsonStrings) env path file s0,
    load env path file = Ok s0 ∧ rtc store_step s0 s.

Lemma remove_owner_cases owner s r s' :
  remove_owner owner s = (r, s') →
  s' = s ∨
  (owner ≠ STATIC_POLICY_OWNER ∧ by_owner s' = delete owner (by_owner s) ∧
   (revision s' = revision s + 1 ∧ effective_by_executable s' = effective_of (by_owner s') ∨
    revision s' = revision s ∧ u64_max ≤ revision s)).
Proof.
  unfold remove_owner. case_bool_decide; [intros [= _ <-]; by left|].
  destruct (by_owner s !! owner); [|intros [= _ <-]; by left].
  unfold bump_revision, checked_add_u64. cbn [revision set_owners].
  destruct (decide (revision s + 1 ≤ u64_max)); intros [= _ <-]; right; splits; simpl; auto.
  right. split; [done|lia].
Qed.

Lemma apply_cases `{fs : !FileSystem, json : !JsonStrings} env owner grants request s res s' :
  apply env owner grants request s = (res, s') →
  (ar_status res = Rejected ∧ ar_new_revision res = revision s ∧ ar_errors res ≠ [] ∧ s' = s) ∨
  (ar_status res = Accepted ∧ ar_new_revision res = revision s' ∧
   rq_base_revision request = revision s ∧ updated env owner grants s s').
Proof.
  unfold apply. destruct (candidate_after _ _ _ _ _) as [c|es] eqn:Ec; intros [= <- <-].
  - right. apply candidate_after_Ok in Ec as [??]. done.
  - left. apply candidate_after_Err in Ec. done.
Qed.

Lemma step_inv s s' :
  store_step s s' → 0 ≤ revision s → (revision s < u64_max → inv s) →
  revision s ≤ revision s' ∧ (revision s' < u64_max → inv s').
Proof.
  intros Hstep H0 Hinv. destruct Hstep as [fs json env owner grants request s|owner s].
  - destruct (apply _ _ _ _ _) as [res s'] eqn:Ea. simpl.
    apply apply_cases in Ea as [(_ & _ & _ & ->)|(_ & _ & _ & Hup)]; [done|].
    pose proof (up_revision _ _ _ _ _ Hup). split; [lia|]. intros Hlt.
    apply (updated_inv env owner grants s); [apply Hinv; lia|done].
  - destruct (remove_owner _ _) as [r s'] eqn:Er. simpl.
    apply remove_owner_cases in Er as [->|(_ & Eo & [[Erev Ei]|[Erev Hmax]])]; [done| |].
    + split; [lia|]. intros Hlt. split; [|done]. intros o rs id r'. rewrite Eo.
      intros [_ Ho]%lookup_delete_Some. apply (inv_keys s); [|done]. apply Hinv. lia.
    + split; [lia|]. lia.
Qed.

Lemma steps_inv s s' :
  rtc store_step s s' → 0 ≤ revision s → (revision s < u64_max → inv s) →
  revision s' < u64_max → inv s'.
Proof.
  induction 1 as [s|s s1 s2 Hstep _ IH]; [auto|]. intros H0 Hinv.
  destruct (step_inv s s1 Hstep H0 Hinv) as [? ?]. apply IH; [lia|done].
Qed.

Lemma store_reachable_inv s : reachable s → revision s < u64_max → inv s.
Proof.
  intros (fs & json & env & path & file & s0 & [Hinv H0]%load_inv & Hsteps).
  by apply (steps_inv s0).
Qed.

(** C3: Which rule decides a command: after any sequence of updates and removals on
    a loaded store (whose revision counter has not run out), [find] returns a rule
    exactly when it is stored, bound to that executable, matches the arguments and
    comes first among all such rules by higher priority, then later update, then
    owner and id; it returns nothing exactly when no stored rule matches.  Where
    [requires_args] answers no, the arguments make no difference, so enforcement may
    skip reading them. *)
Theorem find_decides (s : CommandPolicyStore) (p : PathBuf) (args : list string) :
  reachable s → revision s < u64_max →
  (∀ r, find s p args = Some r ↔
     matching s p args r ∧ ∀ r', matching s p args r' → rule_le r r') ∧
  (find s p args = None ↔ ∀ r, ¬ matching s p args r) ∧
  (requires_args s p = false → ∀ args', find s p args' = find s p args).
Proof.
  intros Hr Hlt. pose proof (store_reachable_inv s Hr Hlt) as Hinv. splits.
  - intros r. by apply find_iff.
  - pose proof (find_cases s p args Hinv) as Hc. destruct (find s p args) as [r|]; [|done].
    split; [done|]. intros Hn. destruct Hc as [Hm _]. by apply Hn in Hm.
  - intros Hq args'. by apply requires_args_sound.
Qed.

(** Updates are atomic and isolated.  A rejected [apply] reports at least one
    error and leaves the store as it was; an accepted one was made against the
    current revision, raises it by exactly one, changes no other owner's rules (so
    never the static ones), leaves the owner with no two rules of the same scope,
    and publishes an index rebuilt from the new rules.  The dry run
    [validate_apply] reports acceptance exactly when [apply] accepts. *)
Theorem apply_atomic (fs : FileSystem) (json : JsonStrings) env owner grants request s res s' :
  apply env owner grants request s = (res, s') →
  (ar_status res = Rejected → ar_errors res ≠ [] ∧ s' = s) ∧
  (ar_status res = Accepted →
     owner ≠ STATIC_POLICY_OWNER ∧ rq_base_revision request = revision s ∧
     revision s' = revision s + 1 ∧ ar_new_revision res = revision s' ∧
     (∀ o, o ≠ owner → by_owner s' !! o = by_owner s !! o) ∧
     scopes_distinct (default ∅ (by_owner s' !! owner)) ∧
     effective_by_executable s' = effective_of (by_owner s')) ∧
  ar_status (validate_apply env owner grants request s) = ar_status res.
Proof.
  intros Ha. splits.
  - apply apply_cases in Ha as [(_ & _ & ? & ?)|(-> & _)]; done.
  - apply apply_cases in Ha as [(-> & _)|(_ & ? & ? & Hup)]; [done|]. intros _.
    splits; try done; apply Hup.
  - revert Ha. unfold apply, validate_apply.
    destruct (candidate_after _ _ _ _ _); by intros [= <- _].
Qed.

(** C19: No privilege escalation: after an accepted [apply] each rule of the owner
    either was there before, unchanged, or was written by this update under its own
    id and owner with the new revision; then its paths are the normalised and the
    bound form of one text, its decision is not the default, it has a gray target
    exactly when it is gray and never the owner itself, and one of the caller's
    grants covers its decision together with both the lexical and the bound path. *)
Theorem apply_within_grants (fs : FileSystem) (json : JsonStrings) env owner grants request
    s res s' id r :
  apply env owner grants request s = (res, s') → ar_status res = Accepted →
  default ∅ (by_owner s' !! owner) !! id = Some r →
  default ∅ (by_owner s !! owner) !! id = Some r ∨
  written env owner grants (revision s') id r.
Proof.
  intros [(-> & _)|(_ & _ & _ & Hup)]%apply_cases; [done|]. intros _. apply Hup.
Qed.

(** The static rules are fixed: whatever plugins apply or remove, the rules
    loaded from the rules file stay exactly as they were loaded. *)
Theorem static_rules_stable s s' :
  rtc store_step s s' → by_owner s' !! STATIC_POLICY_OWNER = by_owner s !! STATIC_POLICY_OWNER.
Proof.
  induction 1 as [s|s s1 s2 Hstep _ IH]; [done|]. rewrite IH. clear IH s2.
  destruct Hstep as [fs json env owner grants request s|owner s].
  - destruct (apply _ _ _ _ _) as [res s'] eqn:Ea. simpl.
    apply apply_cases in Ea as [(_ & _ & _ & ->)|(_ & _ & _ & Hup)]; [done|].
    apply (up_others _ _ _ _ _ Hup). apply not_eq_sym, Hup.
  - destruct (remove_owner _ _) as [r s'] eqn:Er. simpl.
    apply remove_owner_cases in Er as [->|(Hne & -> & _)]; [done|]. by rewrite lookup_delete_ne.
Qed.

(** ** A concrete run *)

#[local] Instance w_json : JsonStrings :=
  {| json_to_string := λ _, ""; json_from_str := λ _, Err "expected value" |}.
#[local] Instance w_fs : FileSystem := BindFacts.w_fs.

(** The rules file denies "/bin/sh", a link into "/usr". *)
Definition w_loaded : result string CommandPolicyStore :=
  load EnvNotPresent "rules" (Contents "deny-sh deny exec /bin/sh priority 5").
Definition w_store : CommandPolicyStore :=
  match w_loaded with Ok s => s | Err _ => empty end.

(** A plugin overrides it for one argument list. *)
Definition w_grants : list CommandPolicyRulesApplyGrant := [mkGrant DecisionAllow "/bin/**"].
Definition w_request : CommandPolicyApplyRequest :=
  mkApplyRequest 1 "m1" None
    [mkItem Upsert None (Some (mkDraft None DecisionAllow "/bin/sh" (Some ["-c"; "*"]) None 9))].
Definition w_applied : CommandPolicyApplyResult * CommandPolicyStore :=
  apply EnvNotPresent "plugin-a" w_grants w_request w_store.
Definition w_rule : StoredCommandRule :=
  mkRule "plugin-a" "command-rule-1" DecisionAllow ["bin"; "sh"] ["usr"; "bin"; "sh"]
    (ArgsPrefix ["-c"]) None 9 2 2.

Lemma find_decides_witness :
  find w_applied.2 ["usr"; "bin"; "sh"] ["-c"; "id"] = Some w_rule ∧
  matching w_applied.2 ["usr"; "bin"; "sh"] ["-c"; "id"] w_rule.
Proof.
  assert (find w_applied.2 ["usr"; "bin"; "sh"] ["-c"; "id"] = Some w_rule) as Hf
    by (vm_compute; reflexivity).
  split; [exact Hf|].
  refine (proj1 (proj1 (proj1 (find_decides w_applied.2 _ _ _ _) w_rule) Hf)).
  - exists w_fs, w_json, EnvNotPresent, "rules",
      (Contents "deny-sh deny exec /bin/sh priority 5"), w_store.
    split; [vm_compute; reflexivity|].
    eapply rtc_l; [apply (step_apply w_fs w_json EnvNotPresent "plugin-a" w_grants w_request)|].
    apply rtc_refl.
  - vm_compute. reflexivity.
Defined.

Lemma apply_atomic_witness :
  revision w_applied.2 = revision w_store + 1 ∧ ar_status w_applied.1 = Accepted.
Proof.
  split; [|vm_compute; reflexivity].
  apply (apply_atomic w_fs w_json EnvNotPresent "plugin-a" w_grants w_request w_store
           w_applied.1 w_applied.2); vm_compute; reflexivity.
Defined.

Lemma apply_within_grants_witness :
  default ∅ (by_owner w_store !! "plugin-a") !! "command-rule-1" = Some w_rule ∨
  written (fs:=w_fs) EnvNotPresent "plugin-a" w_grants (revision w_applied.2)
    "command-rule-1" w_rule.
Proof.
  apply (apply_within_grants w_fs w_json EnvNotPresent "plugin-a" w_grants w_request w_store
           w_applied.1 w_applied.2); vm_compute; reflexivity.
Defined.

Lemma static_rules_stable_witness :
  by_owner w_applied.2 !! STATIC_POLICY_OWNER = by_owner w_store !! STATIC_POLICY_OWNER.
Proof.
  apply static_rules_stable. eapply rtc_l; [|apply rtc_refl].
  apply (step_apply w_fs w_json EnvNotPresent "plugin-a" w_grants w_request).
Defined.

(** Outside the grant the same update is refused. *)
Example ungranted_rejected :
  ar_errors (apply EnvNotPresent "plugin-a" [mkGrant DecisionAllow "/opt/**"] w_request w_store).1 =
    [mkApplyError 0 "invalid-rule"
       "missing command-policy.rules.apply grant for allow /bin/sh"].
Proof. vm_compute. reflexivity. Qed.

(** When the revision counter has run out, [remove_owner] reports an error although
    the owner's rules are gone, and the index still answers with them. *)
Theorem remove_owner_overflow_keeps_index :
  ∃ s owner s' r,
    inv s ∧ remove_owner owner s = (Err "command policy revision overflow", s') ∧
    by_owner s' !! owner = None ∧
    find s' (r_execution_executable r) [] = Some r ∧ r_owner_instance_id r = owner.
Proof.
  set (r := mkRule "p" "x" DecisionDeny ["a"] ["a"] ArgsAny None 0 1 1).
  exists (rebuild_effective (mkStore u64_max 1 1 {["p" := {["x" := r]}]} ∅)), "p".
  eexists _, r. splits; [split; [|done]|vm_compute; reflexivity..].
  intros o rs id r'. simpl. intros [<- <-]%lookup_singleton_Some.
  by intros [<- <-]%lookup_singleton_Some.
Qed.
End PolicyFacts.
