(* ===== verification/NetAddr.v ===== *)
(** Numeric network addresses: [IpAddr] and [SocketAddr] of [std::net] with their parser
    and [Display], as the network policy uses them for selectors.  A parser returns the
    value and the rest of the text, or nothing and leaves the text alone. *)
From stdpp Require Import prelude strings gmap.
From Stdlib Require Import ZArith Lia Ascii.
From S2P Require Import Prelude PolicyPath CommandText.

Open Scope Z_scope.

Record Ipv4Addr := mkIpv4 { v4_a : Z; v4_b : Z; v4_c : Z; v4_d : Z }.
(** The eight 16-bit segments. *)
Definition Ipv6Addr : Type := list Z.
Inductive IpAddr := IpV4 (ip : Ipv4Addr) | IpV6 (ip : Ipv6Addr).
Inductive SocketAddr :=
| SocketV4 (ip : Ipv4Addr) (port : Z)
| SocketV6 (ip : Ipv6Addr) (port flowinfo scope_id : Z).
Definition socket_ip (a : SocketAddr) : IpAddr :=
  match a with SocketV4 ip _ => IpV4 ip | SocketV6 ip _ _ _ => IpV6 ip end.

#[export] Instance ipv4_eq_dec : EqDecision Ipv4Addr.
Proof. solve_decision. Defined.
#[export] Instance ip_eq_dec : EqDecision IpAddr.
Proof. solve_decision. Defined.
#[export] Instance socket_eq_dec : EqDecision SocketAddr.
Proof. solve_decision. Defined.

(** The derived order, as a key: IPv4 before IPv6, then octets or segments, then port,
    flow and scope. *)
Definition ip_key (ip : IpAddr) : list Z :=
  match ip with IpV4 (mkIpv4 a b c d) => [0; a; b; c; d] | IpV6 l => 1 :: l end.
Definition socket_key (a : SocketAddr) : list Z :=
  ip_key (socket_ip a) ++ match a with SocketV4 _ p => [p] | SocketV6 _ p f s => [p; f; s] end.
#[export] Instance ip_key_inj : Inj (=) (=) ip_key.
Proof. intros [[]|l] [[]|l']; cbn; intros; simplify_eq; done. Qed.
#[export] Instance socket_key_inj : Inj (=) (=) socket_key.
Proof.
  intros [[] p|l p f s] [[] p'|l' p' f' s']; cbn; intros H; simplify_eq; [done|].
  apply (app_inj_2 _ _ [p; f; s] [p'; f'; s']) in H as [-> H]; [by simplify_eq|done].
Qed.
#[export] Instance ip_bord : BOrd IpAddr := via_bord ip_key.
#[export] Instance socket_bord : BOrd SocketAddr := via_bord socket_key.

#[export] Instance ipv4_countable : Countable Ipv4Addr.
Proof.
  apply (inj_countable' (λ i, (v4_a i, v4_b i, v4_c i, v4_d i)) (λ '(a, b, c, d), mkIpv4 a b c d)). by intros [].
Defined.
#[export] Instance ip_countable : Countable IpAddr.
Proof.
  apply (inj_countable' (λ i, match i with IpV4 a => inl a | IpV6 l => inr l end)
           (λ s, match s with inl a => IpV4 a | inr l => IpV6 l end)). by intros [].
Defined.
#[export] Instance socket_countable : Countable SocketAddr.
Proof.
  apply (inj_countable' (λ a, match a with SocketV4 i p => inl (i, p) | SocketV6 i p f s => inr (i, p, f, s) end)
           (λ s, match s with inl (i, p) => SocketV4 i p | inr (i, p, f, s) => SocketV6 i p f s end)). by intros [].
Defined.

Module Net.

(** * Parsing *)

(** [char::to_digit]. *)
Definition digit_value (a : ascii) : Z :=
  let n := Z.of_N (N_of_ascii a) in
  if (48 <=? n) && (n <=? 57) then n - 48
  else if (97 <=? n) && (n <=? 122) then n - 87
  else if (65 <=? n) && (n <=? 90) then n - 55 else 36.
Definition to_digit (radix : Z) (a : ascii) : option Z :=
  if digit_value a <? radix then Some (digit_value a) else None.
Definition read_given_char (c : ascii) (s : string) : option string :=
  match s with String a s' => if bool_decide (a = c) then Some s' else None | EmptyString => None end.

(** The digits at the front: value, their number, the rest.  With a limit of digits one
    more is a failure; without, a value above [max]. *)
Fixpoint read_digits (radix max : Z) (limit : option nat) (acc : Z) (count : nat) (s : string)
    : option (Z * nat * string) :=
  match s with
  | EmptyString => Some (acc, count, s)
  | String a s' =>
      match to_digit radix a with
      | None => Some (acc, count, s)
      | Some d =>
          let acc := acc * radix + d in
          if match limit with Some m => (m <? S count)%nat | None => max <? acc end then None
          else read_digits radix max limit acc (S count) s'
      end
  end.
Definition starts_with_zero (s : string) : bool :=
  match s with String a _ => bool_decide (a = "0"%char) | EmptyString => false end.
Definition read_number (radix max : Z) (limit : option nat) (allow_zero_prefix : bool) (s : string)
    : option (Z * string) :=
  '(v, count, s') ← read_digits radix max limit 0 0 s;
  if (count =? 0)%nat then None
  else if negb allow_zero_prefix && starts_with_zero s && (1 <? count)%nat then None
  else if v <=? max then Some (v, s') else None.

Definition read_octet (s : string) : option (Z * string) := read_number 10 u8_max (Some 3%nat) false s.
Definition read_dot_octet (s : string) : option (Z * string) := s' ← read_given_char "." s; read_octet s'.
Definition read_ipv4_addr (s : string) : option (Ipv4Addr * string) :=
  '(a, s) ← read_octet s; '(b, s) ← read_dot_octet s; '(c, s) ← read_dot_octet s; '(d, s) ← read_dot_octet s;
  Some (mkIpv4 a b c d, s).

(** [read_separator(':', i, ..)]: the separator comes before every element but the first. *)
Definition separated {A} (first : bool) (p : string → option (A * string)) (s : string) : option (A * string) :=
  if first then p s else s' ← read_given_char ":" s; p s'.
Definition read_group (s : string) : option (Z * string) := read_number 16 u16_max (Some 4%nat) true s.
(** [read_groups]: up to [slots] groups; the flag: an IPv4 address ended them. *)
Fixpoint read_groups (slots : nat) (first : bool) (s : string) : list Z * bool * string :=
  match slots with
  | O => ([], false, s)
  | S slots' =>
      match (if (1 <=? slots')%nat then separated first read_ipv4_addr s else None) with
      | Some (ip, s') => ([v4_a ip * 256 + v4_b ip; v4_c ip * 256 + v4_d ip], true, s')
      | None =>
          match separated first read_group s with
          | Some (g, s') => let '(gs, v4, s'') := read_groups slots' false s' in (g :: gs, v4, s'')
          | None => ([], false, s)
          end
      end
  end.
Definition read_ipv6_addr (s : string) : option (Ipv6Addr * string) :=
  let '(head, head_ipv4, s) := read_groups 8 true s in
  if (length head =? 8)%nat then Some (head, s)
  else if head_ipv4 then None
  else
    s ← read_given_char ":" s; s ← read_given_char ":" s;
    let '(tail, _, s) := read_groups (8 - (length head + 1)) true s in
    Some (head ++ replicate (8 - length head - length tail) 0 ++ tail, s).
Definition read_ip_addr (s : string) : option (IpAddr * string) :=
  match read_ipv4_addr s with
  | Some (ip, s') => Some (IpV4 ip, s')
  | None => '(ip, s') ← read_ipv6_addr s; Some (IpV6 ip, s')
  end.
Definition read_port (s : string) : option (Z * string) :=
  s' ← read_given_char ":" s; read_number 10 u16_max None true s'.
Definition read_scope_id (s : string) : option (Z * string) :=
  s' ← read_given_char "%" s; read_number 10 u32_max None true s'.
Definition read_socket_addr_v4 (s : string) : option (SocketAddr * string) :=
  '(ip, s) ← read_ipv4_addr s; '(port, s) ← read_port s; Some (SocketV4 ip port, s).
Definition read_socket_addr_v6 (s : string) : option (SocketAddr * string) :=
  s ← read_given_char "[" s; '(ip, s) ← read_ipv6_addr s;
  let '(scope_id, s) := default (0, s) (read_scope_id s) in
  s ← read_given_char "]" s; '(port, s) ← read_port s; Some (SocketV6 ip port 0 scope_id, s).
Definition read_socket_addr (s : string) : option (SocketAddr * string) :=
  match read_socket_addr_v4 s with Some r => Some r | None => read_socket_addr_v6 s end.

(** [parse_with]: the whole text; the error is the text of [AddrParseError]. *)
Definition parse_with {A} (p : string → option (A * string)) (error s : string) : result string A :=
  match p s with Some (a, EmptyString) => Ok a | _ => Err error end.
Definition parse_ip : string → result string IpAddr := parse_with read_ip_addr "invalid IP address syntax".
Definition parse_socket : string → result string SocketAddr :=
  parse_with read_socket_addr "invalid socket address syntax".

(** * Printing *)

Definition digit_char (d : Z) : ascii := ascii_of_N (Z.to_N (if d <? 10 then 48 + d else 87 + d)).
(** The digits of a number; [fuel] bounds their number. *)
Fixpoint show_radix (fuel : nat) (radix n : Z) : string :=
  match fuel with
  | O => EmptyString
  | S fuel' =>
      if n <? radix then String (digit_char n) EmptyString
      else show_radix fuel' radix (n / radix) +:+ String (digit_char (n mod radix)) EmptyString
  end.
Definition show_u8 : Z → string := show_radix 3 10.
Definition show_u16 : Z → string := show_radix 5 10.
Definition show_u32 : Z → string := show_radix 10 10.
Definition show_hex : Z → string := show_radix 4 16.

Definition display_v4 (ip : Ipv4Addr) : string :=
  show_u8 (v4_a ip) +:+ "." +:+ show_u8 (v4_b ip) +:+ "." +:+ show_u8 (v4_c ip) +:+ "." +:+ show_u8 (v4_d ip).

(** The longest run of zero segments. *)
Record Span := mkSpan { span_start : nat; span_len : nat }.
Fixpoint longest_zeroes (i : nat) (longest current : Span) (segments : list Z) : Span :=
  match segments with
  | [] => longest
  | g :: rest =>
      if g =? 0 then
        let current := mkSpan (if (span_len current =? 0)%nat then i else span_start current) (S (span_len current)) in
        longest_zeroes (S i) (if (span_len longest <? span_len current)%nat then current else longest) current rest
      else longest_zeroes (S i) longest (mkSpan 0 0) rest
  end.
Definition zeroes (segments : list Z) : Span := longest_zeroes 0 (mkSpan 0 0) (mkSpan 0 0) segments.
(** [fmt_subslice]. *)
Fixpoint show_tail (gs : list Z) : string :=
  match gs with [] => EmptyString | g :: gs' => ":" +:+ show_hex g +:+ show_tail gs' end.
Definition show_groups (gs : list Z) : string :=
  match gs with [] => EmptyString | g :: gs' => show_hex g +:+ show_tail gs' end.
Definition to_ipv4_mapped (segments : Ipv6Addr) : option Ipv4Addr :=
  match segments with
  | [a; b; c; d; e; f; x; y] =>
      if bool_decide ([a; b; c; d; e; f] = [0; 0; 0; 0; 0; 65535])
      then Some (mkIpv4 (x / 256) (x mod 256) (y / 256) (y mod 256)) else None
  | _ => None
  end.
Definition display_v6 (segments : Ipv6Addr) : string :=
  match to_ipv4_mapped segments with
  | Some ip => "::ffff:" +:+ display_v4 ip
  | None =>
      let z := zeroes segments in
      if (1 <? span_len z)%nat
      then show_groups (take (span_start z) segments) +:+ "::"
             +:+ show_groups (drop (span_start z + span_len z) segments)
      else show_groups segments
  end.
Definition display_socket (a : SocketAddr) : string :=
  match a with
  | SocketV4 ip port => display_v4 ip +:+ ":" +:+ show_u16 port
  | SocketV6 ip port _ scope_id =>
      "[" +:+ display_v6 ip +:+ (if scope_id =? 0 then EmptyString else "%" +:+ show_u32 scope_id)
        +:+ "]:" +:+ show_u16 port
  end.
End Net.

(** * Round trips *)

Module NetFacts.
Import Net.

Lemma str_app_cons x (a b : string) : String x a +:+ b = String x (a +:+ b).
Proof. done. Qed.
Lemma str_app_empty (b : string) : EmptyString +:+ b = b.
Proof. done. Qed.
Lemma str_app_assoc (a b c : string) : (a +:+ b) +:+ c = a +:+ b +:+ c.
Proof. induction a as [|x a IH]; [done|]. rewrite !str_app_cons. cbn. by rewrite IH. Qed.
Lemma str_app_nil (a : string) : a +:+ EmptyString = a.
Proof. induction a as [|x a IH]; [done|]. rewrite !str_app_cons. cbn. by rewrite IH. Qed.
Lemma str_length_app (a b : string) : String.length (a +:+ b) = (String.length a + String.length b)%nat.
Proof. induction a as [|x a IH]; [done|]. rewrite !str_app_cons. cbn. by rewrite IH. Qed.

(** ** Numbers *)

Lemma digit_value_char d : 0 ≤ d < 16 → digit_value (digit_char d) = d.
Proof.
  intros H. assert (Forall (λ d, digit_value (digit_char d) = d) (seqZ 0 16)) as Hall
    by (apply (bool_decide_unpack _); vm_compute; exact I).
  rewrite Forall_forall in Hall. apply Hall, elem_of_seqZ. lia.
Qed.
Lemma to_digit_char radix d : radix ≤ 16 → 0 ≤ d < radix → to_digit radix (digit_char d) = Some d.
Proof. intros ??. unfold to_digit. rewrite digit_value_char by lia. by rewrite (proj2 (Z.ltb_lt _ _)) by lia. Qed.

Lemma show_length fuel radix n : (String.length (show_radix fuel radix n) ≤ fuel)%nat.
Proof.
  revert n. induction fuel as [|fuel IH]; intros n; cbn; [lia|].
  destruct (n <? radix); cbn; [lia|]. rewrite str_length_app. cbn. specialize (IH (n / radix)). lia.
Qed.
Definition fits (max : Z) (limit : option nat) (value : Z) (count : nat) : Prop :=
  match limit with Some m => (count ≤ m)%nat | None => value ≤ max end.
Lemma read_show radix max limit fuel n acc count rest :
  2 ≤ radix ≤ 16 → 0 ≤ acc → 0 ≤ n < radix ^ Z.of_nat fuel →
  let len := String.length (show_radix fuel radix n) in
  fits max limit (acc * radix ^ Z.of_nat len + n) (count + len) →
  read_digits radix max limit acc count (show_radix fuel radix n +:+ rest) =
    read_digits radix max limit (acc * radix ^ Z.of_nat len + n) (count + len) rest.
Proof.
  intros Hr Ha Hn. revert n rest Hn. induction fuel as [|fuel IH]; intros n rest Hn len Hf.
  { subst len. rewrite Z.pow_0_r in Hn. cbn [show_radix String.length]. rewrite Z.pow_0_r, str_app_empty. f_equal; lia. }
  subst len. cbn [show_radix] in *. destruct (Z.ltb_spec n radix) as [Hlt|Hge].
  - rewrite str_app_cons, str_app_empty. cbn [String.length read_digits] in *. rewrite to_digit_char by lia. rewrite Z.pow_1_r in *.
    replace (count + 1)%nat with (S count) in * by lia. destruct limit as [m|]; cbn in Hf.
    + by rewrite (proj2 (Nat.ltb_ge _ _)) by lia.
    + by rewrite (proj2 (Z.ltb_ge _ _)) by lia.
  - assert (0 ≤ n / radix < radix ^ Z.of_nat fuel) as Hd.
    { split; [apply Z.div_pos; lia|]. apply Z.div_lt_upper_bound; [lia|]. rewrite <-Z.pow_succ_r by lia.
      rewrite <-Nat2Z.inj_succ. lia. }
    assert (radix * (n / radix) + n mod radix = n) as Edm by (symmetry; apply Z.div_mod; lia).
    assert (0 ≤ n mod radix < radix) as Hm by (apply Z.mod_pos_bound; lia).
    rewrite str_length_app in *. cbn [String.length] in *.
    set (len := String.length (show_radix fuel radix (n / radix))) in *.
    assert (acc * radix ^ Z.of_nat (len + 1) + n = (acc * radix ^ Z.of_nat len + n / radix) * radix + n mod radix) as Ev.
    { rewrite Nat2Z.inj_add, Z.pow_add_r by lia. rewrite Z.pow_1_r. lia. }
    rewrite Ev in *. replace (count + (len + 1))%nat with (S (count + len)) in * by lia.
    assert (0 ≤ acc * radix ^ Z.of_nat len) by (apply Z.mul_nonneg_nonneg; [lia|apply Z.pow_nonneg; lia]).
    rewrite str_app_assoc, IH.
    + fold len. rewrite str_app_cons, str_app_empty. cbn [read_digits]. rewrite to_digit_char by lia. destruct limit as [m|]; cbn in Hf.
      * by rewrite (proj2 (Nat.ltb_ge _ _)) by lia.
      * by rewrite (proj2 (Z.ltb_ge _ _)) by lia.
    + done.
    + fold len. destruct limit as [m|]; cbn in *; [lia|]. nia.
Qed.

(** A text at which the digits of a number end. *)
Definition stops (radix : Z) (s : string) : Prop :=
  match s with String a _ => to_digit radix a = None | EmptyString => True end.
Lemma read_stops radix max limit acc count s :
  stops radix s → read_digits radix max limit acc count s = Some (acc, count, s).
Proof. destruct s as [|a s]; [done|]. cbn. by intros ->. Qed.

Lemma show_nonempty fuel radix n : (0 < fuel)%nat → (0 < String.length (show_radix fuel radix n))%nat.
Proof. destruct fuel; [lia|]. intros _. cbn. destruct (n <? radix); cbn; [lia|]. rewrite str_length_app. cbn. lia. Qed.
Lemma show_leading fuel radix n rest :
  2 ≤ radix ≤ 16 → 0 < n < radix ^ Z.of_nat fuel → starts_with_zero (show_radix fuel radix n +:+ rest) = false.
Proof.
  intros Hr. revert n rest. induction fuel as [|fuel IH]; intros n rest Hn; [cbn in Hn; lia|].
  cbn [show_radix]. destruct (Z.ltb_spec n radix).
  - rewrite str_app_cons. cbn. apply bool_decide_eq_false. intros E. assert (digit_value (digit_char n) = digit_value "0") as E'
      by (by rewrite E). rewrite digit_value_char in E' by lia. change (digit_value "0") with 0 in E'. lia.
  - rewrite str_app_assoc. apply IH. split; [apply Z.div_str_pos; lia|]. apply Z.div_lt_upper_bound; [lia|].
    rewrite <-Z.pow_succ_r by lia. rewrite <-Nat2Z.inj_succ. lia.
Qed.
Lemma show_short fuel radix : 2 ≤ radix → (0 < fuel)%nat → String.length (show_radix fuel radix 0) = 1%nat.
Proof. destruct fuel; [lia|]. intros ? _. cbn. by rewrite (proj2 (Z.ltb_lt _ _)) by lia. Qed.

Lemma read_number_show radix max limit zero fuel n rest :
  2 ≤ radix ≤ 16 → (0 < fuel)%nat → 0 ≤ n < radix ^ Z.of_nat fuel → n ≤ max →
  (∀ m, limit = Some m → (fuel ≤ m)%nat) → stops radix rest →
  read_number radix max limit zero (show_radix fuel radix n +:+ rest) = Some (n, rest).
Proof.
  intros Hr Hfu Hn Hm Hl Hs. unfold read_number. rewrite read_show; [|done|lia|done|].
  2: { cbn. destruct limit as [m|]; cbn; [|lia]. pose proof (show_length fuel radix n). specialize (Hl m eq_refl). lia. }
  rewrite read_stops by done. cbn [mbind option_bind]. rewrite Z.mul_0_l, Z.add_0_l, Nat.add_0_l.
  pose proof (show_nonempty fuel radix n Hfu) as Hne. rewrite (proj2 (Nat.eqb_neq _ _)) by lia.
  rewrite (proj2 (Z.leb_le _ _)) by lia.
  destruct (decide (n = 0)) as [->|Hnz].
  - rewrite show_short by lia. by rewrite andb_false_r.
  - rewrite show_leading by lia. by rewrite andb_false_r.
Qed.

(** ** IPv4 *)

Record v4_ok (ip : Ipv4Addr) : Prop := {
  ok_a : in_u8 (v4_a ip); ok_b : in_u8 (v4_b ip); ok_c : in_u8 (v4_c ip); ok_d : in_u8 (v4_d ip);
}.
Lemma read_octet_show n rest : in_u8 n → stops 10 rest → read_octet (show_u8 n +:+ rest) = Some (n, rest).
Proof.
  intros [H1 H2] Hs. apply read_number_show; [lia|lia| |done|by intros m [= <-]|done].
  change u8_max with 255 in H2. change (10 ^ Z.of_nat 3) with 1000. lia.
Qed.
Lemma read_dot_show n rest :
  in_u8 n → stops 10 rest → read_dot_octet ("." +:+ show_u8 n +:+ rest) = Some (n, rest).
Proof. intros. unfold read_dot_octet. rewrite str_app_cons, str_app_empty. by apply read_octet_show. Qed.
Lemma read_v4_display ip rest :
  v4_ok ip → stops 10 rest → read_ipv4_addr (display_v4 ip +:+ rest) = Some (ip, rest).
Proof.
  intros [Ha Hb Hc Hd] Hs. unfold display_v4, read_ipv4_addr. rewrite !str_app_assoc.
  rewrite read_octet_show by done. cbn [mbind option_bind].
  do 3 (rewrite read_dot_show by done; cbn [mbind option_bind]). by destruct ip.
Qed.

(** ** Texts without a dot *)

Lemma str_contains_app c a b : str_contains c (a +:+ b) = str_contains c a || str_contains c b.
Proof. induction a as [|x a IH]; [done|]. rewrite str_app_cons. cbn. by rewrite IH, orb_assoc. Qed.
Lemma digits_rest c radix max limit acc count s v k s' :
  read_digits radix max limit acc count s = Some (v, k, s') → str_contains c s = false → str_contains c s' = false.
Proof.
  revert acc count. induction s as [|a s IH]; intros acc count; cbn [read_digits]; [by intros [= <- <- <-]|].
  destruct (to_digit radix a); [|by intros [= <- <- <-]]. match goal with |- context [if ?b then None else _] => destruct b end; [done|].
  intros E [_ Hs]%orb_false_iff. by eapply IH.
Qed.
Lemma number_rest c radix max limit zero s v s' :
  read_number radix max limit zero s = Some (v, s') → str_contains c s = false → str_contains c s' = false.
Proof.
  unfold read_number. destruct (read_digits radix max limit 0 0 s) as [[[v' k] s'']|] eqn:E; [|done]. cbn [mbind option_bind].
  destruct (k =? 0)%nat; [done|]. destruct (_ && _); [done|]. destruct (v' <=? max); [|done]. intros [= <- <-].
  by eapply digits_rest.
Qed.
Lemma given_rest c d s s' :
  read_given_char d s = Some s' → str_contains c s = false → str_contains c s' = false.
Proof. destruct s as [|a s]; [done|]. cbn. destruct (bool_decide (a = d)); [|done]. by intros [= <-] [_ Hs]%orb_false_iff. Qed.
Lemma given_absent d s : str_contains d s = false → read_given_char d s = None.
Proof. destruct s as [|a s]; [done|]. cbn. by intros [-> _]%orb_false_iff. Qed.
Lemma no_dot_v4 s : str_contains "." s = false → read_ipv4_addr s = None.
Proof.
  intros H. unfold read_ipv4_addr, read_octet. destruct (read_number _ _ _ _ s) as [[a s']|] eqn:E; [|done].
  cbn [mbind option_bind]. unfold read_dot_octet. by rewrite given_absent by (by eapply number_rest).
Qed.
Lemma no_dot_separated first s : str_contains "." s = false → separated first read_ipv4_addr s = None.
Proof.
  intros H. unfold separated. destruct first; [by apply no_dot_v4|].
  destruct (read_given_char ":" s) as [s'|] eqn:E; [|done]. cbn. by eapply no_dot_v4, given_rest.
Qed.
Lemma digit_char_dot d : 0 ≤ d < 16 → digit_char d ≠ "."%char.
Proof.
  intros H E. assert (digit_value (digit_char d) = digit_value ".") as E' by (by rewrite E).
  rewrite digit_value_char in E' by done. change (digit_value ".") with 36 in E'. lia.
Qed.
Lemma show_no_dot fuel radix n : 0 < radix ≤ 16 → 0 ≤ n → str_contains "." (show_radix fuel radix n) = false.
Proof.
  intros Hr. revert n. induction fuel as [|fuel IH]; intros n Hn; [done|]. cbn [show_radix].
  destruct (Z.ltb_spec n radix).
  - cbn. by rewrite bool_decide_false by (apply digit_char_dot; lia).
  - rewrite str_contains_app, IH by (apply Z.div_pos; lia). cbn.
    by rewrite bool_decide_false by (apply digit_char_dot; pose proof (Z.mod_pos_bound n radix); lia).
Qed.
Lemma tail_no_dot gs : Forall in_u16 gs → str_contains "." (show_tail gs) = false.
Proof.
  induction 1 as [|g gs [Hg _] _ IH]; [done|]. cbn [show_tail]. rewrite !str_contains_app, IH.
  rewrite orb_false_r. by apply show_no_dot.
Qed.
Lemma groups_no_dot gs : Forall in_u16 gs → str_contains "." (show_groups gs) = false.
Proof.
  destruct 1 as [|g gs [Hg _] H]; [done|]. cbn [show_groups]. rewrite str_contains_app, tail_no_dot by done.
  rewrite orb_false_r. by apply show_no_dot.
Qed.

(** ** IPv6 *)

Definition v6_ok (ip : Ipv6Addr) : Prop := length ip = 8%nat ∧ Forall in_u16 ip.
Lemma read_group_show g rest : in_u16 g → stops 16 rest → read_group (show_hex g +:+ rest) = Some (g, rest).
Proof.
  intros [H1 H2] Hs. apply read_number_show; [lia|lia| |done|by intros m [= <-]|done].
  change u16_max with 65535 in H2. change (16 ^ Z.of_nat 4) with 65536. lia.
Qed.
Lemma group_stops s : stops 16 s → read_group s = None.
Proof. intros H. unfold read_group, read_number. by rewrite read_stops. Qed.
Definition show_more (first : bool) (gs : list Z) : string := if first then show_groups gs else show_tail gs.
Lemma separated_show first g gs rest :
  in_u16 g → stops 16 (show_tail gs +:+ rest) →
  separated first read_group (show_more first (g :: gs) +:+ rest) = Some (g, show_tail gs +:+ rest).
Proof.
  intros. unfold separated, show_more. destruct first; cbn [show_groups show_tail]; rewrite !str_app_assoc.
  - by apply read_group_show.
  - rewrite str_app_cons, str_app_empty. cbn [read_given_char]. rewrite bool_decide_true by done. cbn [mbind option_bind].
    by apply read_group_show.
Qed.

(** Plain groups are read up to a text that does not go on with one. *)
Lemma read_groups_show slots first gs rest :
  Forall in_u16 gs → (length gs ≤ slots)%nat → str_contains "." rest = false → stops 16 rest →
  (length gs = slots ∨ separated (first && bool_decide (gs = [])) read_group rest = None) →
  read_groups slots first (show_more first gs +:+ rest) = (gs, false, rest).
Proof.
  intros Hgs Hl Hd Hs. revert slots first Hl. induction Hgs as [|g gs Hg Hgs IH]; intros slots first Hl He.
  - replace (show_more first [] +:+ rest) with rest by (by destruct first). rewrite bool_decide_true, andb_true_r in He by done.
    destruct slots as [|slots]; [done|]. destruct He as [He|He]; [done|]. cbn [read_groups].
    rewrite no_dot_separated by done. rewrite He. by destruct (_ <=? _)%nat.
  - destruct slots as [|slots]; [cbn in Hl; lia|]. cbn [read_groups].
    assert (str_contains "." (show_more first (g :: gs) +:+ rest) = false) as Hnd.
    { rewrite str_contains_app, Hd, orb_false_r. destruct first;
        [apply groups_no_dot|apply tail_no_dot]; by constructor. }
    rewrite no_dot_separated by done.
    rewrite separated_show; [|done|by destruct gs].
    rewrite bool_decide_false, andb_false_r in He by done.
    replace (show_tail gs +:+ rest) with (show_more false gs +:+ rest) by done. rewrite IH.
    + by destruct (_ <=? _)%nat.
    + cbn in Hl. lia.
    + destruct He as [He|He]; [left; cbn in He; lia|]. by right.
Qed.

(** What follows an IPv6 address: nothing, a scope or the closing bracket. *)
Definition ends (s : string) : Prop :=
  str_contains "." s = false ∧
  match s with EmptyString => True | String a _ => a = "]"%char ∨ a = "%"%char end.
Lemma ends_stops radix s : radix ≤ 16 → ends s → stops radix s.
Proof.
  intros Hr [_ H]. destruct s as [|a s]; [done|]. cbn. unfold to_digit.
  assert (digit_value a = 36) as -> by (by destruct H as [-> | ->]). by rewrite (proj2 (Z.ltb_ge _ _)) by lia.
Qed.
Lemma ends_separated first s : ends s → separated first read_group s = None.
Proof.
  intros H. unfold separated. destruct first; [by apply group_stops, ends_stops|].
  destruct H as [_ H]. destruct s as [|a s]; [done|]. by destruct H as [-> | ->].
Qed.

(** The run of zeroes is one. *)
Definition span_ok (p : list Z) (z : Span) : Prop :=
  (span_start z + span_len z ≤ length p)%nat ∧ take (span_len z) (drop (span_start z) p) = replicate (span_len z) 0.
Definition span_ends (p : list Z) (z : Span) : Prop :=
  span_len z = 0%nat ∨
  (span_start z + span_len z = length p)%nat ∧ drop (span_start z) p = replicate (span_len z) 0.
Lemma span_ok_app p x z : span_ok p z → span_ok (p ++ x) z.
Proof.
  intros [H1 H2]. split; [rewrite length_app; lia|]. rewrite drop_app_le by lia.
  rewrite take_app_le by (rewrite length_drop; lia). done.
Qed.
Lemma span_ends_ok p z : span_ends p z → span_len z ≠ 0%nat → span_ok p z.
Proof.
  intros [H|[H1 H2]] Hn; [done|]. split; [lia|]. rewrite H2. rewrite take_ge; [done|]. by rewrite length_replicate.
Qed.
Lemma longest_ok rest p longest current :
  span_ok p longest → span_ends p current →
  span_ok (p ++ rest) (longest_zeroes (length p) longest current rest).
Proof.
  revert p longest current. induction rest as [|g rest IH]; intros p longest current Hl Hc; cbn [longest_zeroes].
  - by rewrite app_nil_r.
  - replace (p ++ g :: rest) with ((p ++ [g]) ++ rest) by (by rewrite <-app_assoc).
    replace (S (length p)) with (length (p ++ [g])) by (rewrite length_app; cbn; lia).
    destruct (Z.eqb_spec g 0) as [-> |Hg].
    + set (c := mkSpan _ _). assert (span_ends (p ++ [0]) c) as Hc'.
      { right. subst c. cbn. destruct (Nat.eqb_spec (span_len current) 0) as [E|E].
        - rewrite E, length_app. cbn. split; [lia|]. by rewrite drop_app_length.
        - destruct Hc as [?|[H1 H2]]; [done|]. rewrite length_app. cbn. split; [lia|].
          rewrite drop_app_le by lia. rewrite H2. change (0 :: replicate (span_len current) 0) with (replicate (S (span_len current)) 0).
          by rewrite replicate_S_end. }
      apply IH; [|done]. destruct (_ <? _)%nat; [|by apply span_ok_app]. by apply span_ends_ok.
    + apply IH; [by apply span_ok_app|by left].
Qed.
Lemma zeroes_split segments :
  let z := zeroes segments in
  (span_start z + span_len z ≤ length segments)%nat ∧
  segments = take (span_start z) segments ++ replicate (span_len z) 0 ++ drop (span_start z + span_len z) segments.
Proof.
  intros z. assert (span_ok segments z) as [H1 H2] by (apply (longest_ok segments []); [done|by left]).
  split; [done|]. rewrite <-H2, <-drop_drop, take_drop. by rewrite take_drop.
Qed.

Lemma read_v6_groups ip rest :
  v6_ok ip → ends rest → read_ipv6_addr (show_groups ip +:+ rest) = Some (ip, rest).
Proof.
  intros [Hl Hg] He. unfold read_ipv6_addr. change (show_groups ip) with (show_more true ip).
  rewrite (read_groups_show 8 true ip rest); try done.
  - by rewrite Hl.
  - lia.
  - apply He.
  - by apply ends_stops.
  - by left.
Qed.
Lemma read_v6_run pre post n rest :
  Forall in_u16 pre → Forall in_u16 post → (length pre + n + length post = 8)%nat → (0 < n)%nat → ends rest →
  read_ipv6_addr ((show_groups pre +:+ "::" +:+ show_groups post) +:+ rest) = Some (pre ++ replicate n 0 ++ post, rest).
Proof.
  intros Hpre Hpost Hl Hn He. unfold read_ipv6_addr. rewrite !str_app_assoc.
  change (show_groups pre) with (show_more true pre). change (show_groups post) with (show_more true post).
  rewrite (read_groups_show 8 true pre ("::" +:+ show_more true post +:+ rest)); try done; [|lia| |].
  - rewrite (proj2 (Nat.eqb_neq _ _)) by lia. rewrite !str_app_cons, str_app_empty. cbn [read_given_char].
    rewrite !bool_decide_true by done. cbn [mbind option_bind read_given_char]. rewrite bool_decide_true by done. cbn [mbind option_bind].
    rewrite (read_groups_show (8 - (length pre + 1)) true post rest); try done.
    + by replace (8 - length pre - length post)%nat with n by lia.
    + lia.
    + apply He.
    + by apply ends_stops.
    + right. by apply ends_separated.
  - rewrite !str_contains_app, groups_no_dot by done. cbn. apply He.
  - right. by destruct (bool_decide _).
Qed.
Lemma read_v6_mapped ip rest :
  v4_ok ip → ends rest →
  read_ipv6_addr (("::ffff:" +:+ display_v4 ip) +:+ rest) =
    Some ([0; 0; 0; 0; 0; 65535; v4_a ip * 256 + v4_b ip; v4_c ip * 256 + v4_d ip], rest).
Proof.
  intros Hip He. rewrite str_app_assoc. unfold read_ipv6_addr.
  assert (read_groups 8 true ("::ffff:" +:+ display_v4 ip +:+ rest) = ([], false, "::ffff:" +:+ display_v4 ip +:+ rest)) as -> by done.
  cbn [length Nat.eqb]. rewrite !str_app_cons. cbn [read_given_char]. rewrite !bool_decide_true by done.
  cbn [mbind option_bind read_given_char]. rewrite bool_decide_true by done. cbn [mbind option_bind length Nat.add Nat.sub].
  assert (read_groups 7 true (String "f" (String "f" (String "f" (String "f" (String ":" ("" +:+ display_v4 ip +:+ rest)))))) =
    ([65535; v4_a ip * 256 + v4_b ip; v4_c ip * 256 + v4_d ip], true, rest)) as Hr.
  { change (String "f" (String "f" (String "f" (String "f" (String ":" ("" +:+ display_v4 ip +:+ rest))))))
      with (show_hex 65535 +:+ ":" +:+ display_v4 ip +:+ rest).
    change (read_groups 7 true ?s) with
      (match separated true read_group s with
       | Some (g, s') => let '(gs, v4, s'') := read_groups 6 false s' in (g :: gs, v4, s'')
       | None => ([], false, s) end).
    unfold separated at 1. rewrite read_group_show by done. cbn [read_groups Nat.leb].
    unfold separated at 1. rewrite str_app_cons, str_app_empty. cbn [read_given_char]. rewrite bool_decide_true by done.
    cbn [mbind option_bind]. by rewrite read_v4_display by (done || by apply ends_stops). }
  by rewrite Hr.
Qed.

Lemma read_v6_display ip rest : v6_ok ip → ends rest → read_ipv6_addr (display_v6 ip +:+ rest) = Some (ip, rest).
Proof.
  intros Hip He. unfold display_v6. destruct (to_ipv4_mapped ip) as [v4|] eqn:Em.
  - unfold to_ipv4_mapped in Em. do 9 (destruct ip as [|? ip]; try discriminate Em).
    case_bool_decide as E; [|done]. injection E as -> -> -> -> -> ->. injection Em as <-.
    destruct Hip as [_ Hf]. do 6 apply Forall_cons in Hf as [_ Hf].
    apply Forall_cons in Hf as [Hx Hf]. apply Forall_cons in Hf as [Hy _].
    assert (∀ x, in_u16 x → in_u8 (x / 256) ∧ in_u8 (x mod 256)) as Hb.
    { intros x [H1 H2]. change u16_max with 65535 in H2. unfold in_u8. change u8_max with 255.
      pose proof (Z.mod_pos_bound x 256). pose proof (Z.div_mod x 256). lia. }
    destruct (Hb _ Hx), (Hb _ Hy). rewrite read_v6_mapped by (done || by split). cbn [v4_a v4_b v4_c v4_d].
    assert (∀ x, x / 256 * 256 + x mod 256 = x) as Hdm by (intros x; rewrite Z.mul_comm; symmetry; by apply Z.div_mod).
    by rewrite !Hdm.
  - destruct Hip as [Hl Hg]. destruct (Nat.ltb_spec 1 (span_len (zeroes ip))) as [Hz|_]; [|by apply read_v6_groups].
    pose proof (zeroes_split ip) as [H1 H2]. cbn zeta in *. rewrite Hl in H1.
    rewrite (read_v6_run _ _ (span_len (zeroes ip))); [by rewrite <-H2|by apply Forall_take|by apply Forall_drop| |lia|done].
    rewrite length_take, length_drop. lia.
Qed.

(** ** Whole addresses *)

Definition ip_ok (ip : IpAddr) : Prop := match ip with IpV4 a => v4_ok a | IpV6 l => v6_ok l end.
(** What a parsed endpoint is like: the text has no flow information. *)
Definition socket_ok (a : SocketAddr) : Prop :=
  match a with
  | SocketV4 ip port => v4_ok ip ∧ in_u16 port
  | SocketV6 ip port flowinfo scope_id => v6_ok ip ∧ in_u16 port ∧ flowinfo = 0 ∧ in_u32 scope_id
  end.
Definition display_ip (ip : IpAddr) : string := match ip with IpV4 a => display_v4 a | IpV6 l => display_v6 l end.

Lemma v6_not_v4 ip rest : v6_ok ip → str_contains "." rest = false → read_ipv4_addr (display_v6 ip +:+ rest) = None.
Proof.
  intros [_ Hf] Hr. unfold display_v6. destruct (to_ipv4_mapped ip); [done|]. apply no_dot_v4.
  rewrite str_contains_app, Hr, orb_false_r. destruct (_ <? _)%nat; [|by apply groups_no_dot].
  rewrite !str_contains_app, !groups_no_dot; [done|by apply Forall_drop|by apply Forall_take].
Qed.
Lemma parse_ip_display ip : ip_ok ip → parse_ip (display_ip ip) = Ok ip.
Proof.
  intros H. unfold parse_ip, parse_with, read_ip_addr. rewrite <-(str_app_nil (display_ip ip)).
  destruct ip as [ip|ip]; cbn [display_ip ip_ok] in *.
  - by rewrite read_v4_display.
  - rewrite v6_not_v4 by done. by rewrite read_v6_display.
Qed.

Lemma read_u16_show n rest : in_u16 n → stops 10 rest → read_number 10 u16_max None true (show_u16 n +:+ rest) = Some (n, rest).
Proof.
  intros [H1 H2] Hs. apply read_number_show; [lia|lia| |done|done|done].
  change u16_max with 65535 in H2. change (10 ^ Z.of_nat 5) with 100000. lia.
Qed.
Lemma read_u32_show n rest : in_u32 n → stops 10 rest → read_number 10 u32_max None true (show_u32 n +:+ rest) = Some (n, rest).
Proof.
  intros [H1 H2] Hs. apply read_number_show; [lia|lia| |done|done|done].
  change u32_max with 4294967295 in H2. change (10 ^ Z.of_nat 10) with 10000000000. lia.
Qed.
Lemma read_port_show n : in_u16 n → read_port (":" +:+ show_u16 n) = Some (n, EmptyString).
Proof.
  intros H. unfold read_port. rewrite str_app_cons, str_app_empty. cbn [read_given_char]. rewrite bool_decide_true by done.
  cbn [mbind option_bind]. rewrite <-(str_app_nil (show_u16 n)). by apply read_u16_show.
Qed.
Lemma scope_show scope rest :
  in_u32 scope →
  default (0, (if scope =? 0 then EmptyString else "%" +:+ show_u32 scope) +:+ "]" +:+ rest)
    (read_scope_id ((if scope =? 0 then EmptyString else "%" +:+ show_u32 scope) +:+ "]" +:+ rest)) = (scope, "]" +:+ rest).
Proof.
  intros H. destruct (Z.eqb_spec scope 0) as [-> |_]; [done|]. rewrite !str_app_assoc, (str_app_cons "%"), str_app_empty.
  unfold read_scope_id. cbn [read_given_char]. rewrite bool_decide_true by done. cbn [mbind option_bind].
  by rewrite read_u32_show.
Qed.
Lemma port_no_dot n : in_u16 n → str_contains "." (show_u16 n) = false.
Proof. intros [H _]. by apply show_no_dot. Qed.
Lemma scope_no_dot n : in_u32 n → str_contains "." (show_u32 n) = false.
Proof. intros [H _]. by apply show_no_dot. Qed.
Lemma parse_socket_display a : socket_ok a → parse_socket (display_socket a) = Ok a.
Proof.
  unfold parse_socket, parse_with, read_socket_addr. destruct a as [ip port|ip port flow scope]; cbn [socket_ok display_socket].
  - intros [Hip Hp]. unfold read_socket_addr_v4. rewrite read_v4_display by done. cbn [mbind option_bind].
    by rewrite read_port_show.
  - intros (Hip & Hp & -> & Hs). set (post := (if scope =? 0 then _ else _) +:+ _).
    assert (read_socket_addr_v4 ("[" +:+ display_v6 ip +:+ post) = None) as -> by done.
    unfold read_socket_addr_v6. rewrite str_app_cons, str_app_empty. cbn [read_given_char]. rewrite bool_decide_true by done.
    cbn [mbind option_bind]. rewrite read_v6_display; [|done|].
    + cbn [mbind option_bind]. subst post. change ("]:" +:+ show_u16 port) with ("]" +:+ ":" +:+ show_u16 port).
      rewrite scope_show by done. rewrite (str_app_cons "]"), str_app_empty. cbn [read_given_char].
      rewrite bool_decide_true by done. cbn [mbind option_bind]. by rewrite read_port_show.
    + subst post. split.
      * rewrite !str_contains_app, port_no_dot by done. rewrite !orb_false_r. destruct (scope =? 0); [done|].
        rewrite str_contains_app, scope_no_dot; done.
      * destruct (scope =? 0); [by left|by right].
Qed.

(** What the parsers accept is an address. *)
Lemma digits_nonneg radix max limit acc count s v k s' :
  0 ≤ radix → 0 ≤ acc → read_digits radix max limit acc count s = Some (v, k, s') → 0 ≤ v.
Proof.
  intros Hr. revert acc count. induction s as [|a s IH]; intros acc count Ha; cbn [read_digits]; [by intros [= <- <- <-]|].
  unfold to_digit. destruct (_ <? radix); [|by intros [= <- <- <-]].
  match goal with |- context [if ?b then None else _] => destruct b end; [done|]. apply IH.
  assert (0 ≤ digit_value a); [|nia].
  unfold digit_value. repeat case_match; rewrite ?andb_true_iff, ?Z.leb_le in *; lia.
Qed.
Lemma number_ok radix max limit zero s v s' :
  0 ≤ radix → read_number radix max limit zero s = Some (v, s') → 0 ≤ v ≤ max.
Proof.
  intros Hr. unfold read_number. destruct (read_digits radix max limit 0 0 s) as [[[v' k] s'']|] eqn:E; [|done]. cbn [mbind option_bind].
  destruct (k =? 0)%nat; [done|]. destruct (_ && _); [done|]. destruct (Z.leb_spec v' max); [|done]. intros [= <- <-].
  apply digits_nonneg in E; lia.
Qed.
Lemma octet_ok s v s' : read_octet s = Some (v, s') → in_u8 v.
Proof. by apply number_ok. Qed.
Lemma dot_octet_ok s v s' : read_dot_octet s = Some (v, s') → in_u8 v.
Proof. unfold read_dot_octet. destruct (read_given_char _ _); [|done]. apply octet_ok. Qed.
Lemma read_v4_ok s ip s' : read_ipv4_addr s = Some (ip, s') → v4_ok ip.
Proof.
  unfold read_ipv4_addr. destruct (read_octet s) as [[a s1]|] eqn:E1; [|done]. cbn [mbind option_bind].
  destruct (read_dot_octet s1) as [[b s2]|] eqn:E2; [|done]. cbn [mbind option_bind].
  destruct (read_dot_octet s2) as [[c s3]|] eqn:E3; [|done]. cbn [mbind option_bind].
  destruct (read_dot_octet s3) as [[d s4]|] eqn:E4; [|done]. cbn [mbind option_bind]. intros [= <- <-].
  split; cbn; [by eapply octet_ok|by eapply dot_octet_ok..].
Qed.
Lemma separated_ok {A} (P : A → Prop) first p s a s' :
  (∀ s a s', p s = Some (a, s') → P a) → separated first p s = Some (a, s') → P a.
Proof. intros H. unfold separated. destruct first; [apply H|]. destruct (read_given_char _ _); [apply H|done]. Qed.
Lemma read_groups_ok slots first s gs v4 s' :
  read_groups slots first s = (gs, v4, s') → Forall in_u16 gs ∧ (length gs ≤ slots)%nat.
Proof.
  revert first s gs v4 s'. induction slots as [|slots IH]; intros first s gs v4 s'; cbn [read_groups].
  { intros [= <- <- <-]. split; [constructor|done]. }
  destruct (1 <=? slots)%nat eqn:El; [destruct (separated first read_ipv4_addr s) as [[ip s1]|] eqn:E4|].
  { apply (separated_ok v4_ok) in E4 as [[??] [??] [??] [??]]; [|apply read_v4_ok]. intros [= <- <- <-].
    apply Nat.leb_le in El. split; [|cbn; lia]. change u8_max with 255 in *.
    repeat constructor; change u16_max with 65535; lia. }
  all: destruct (separated first read_group s) as [[g s1]|] eqn:Eg;
    [|intros [= <- <- <-]; split; [constructor|cbn; lia]].
  all: destruct (read_groups slots false s1) as [[gs1 v1] s2] eqn:Er; intros [= <- <- <-].
  all: apply IH in Er as [Hf Hl]; split; [|cbn; lia]; constructor; [|done].
  all: eapply separated_ok in Eg; [exact Eg|]; intros ???; by apply number_ok.
Qed.
Lemma read_v6_ok s ip s' : read_ipv6_addr s = Some (ip, s') → v6_ok ip.
Proof.
  unfold read_ipv6_addr. destruct (read_groups 8 true s) as [[hd v4] s1] eqn:Eh. apply read_groups_ok in Eh as [Hf Hl].
  destruct (Nat.eqb_spec (length hd) 8) as [E|E]; [by intros [= <- <-]|]. destruct v4; [done|].
  destruct (read_given_char ":" s1) as [s2|]; [|done]. cbn [mbind option_bind].
  destruct (read_given_char ":" s2) as [s3|]; [|done]. cbn [mbind option_bind].
  destruct (read_groups (8 - (length hd + 1)) true s3) as [[tl v4] s4] eqn:Et. apply read_groups_ok in Et as [Hft Hlt].
  intros [= <- <-]. split; [rewrite !length_app, length_replicate; lia|].
  apply Forall_app. split; [done|]. apply Forall_app. split; [|done]. by apply Forall_replicate.
Qed.
Lemma parse_with_Some {A} (p : string → option (A * string)) e s a : parse_with p e s = Ok a → p s = Some (a, EmptyString).
Proof. unfold parse_with. destruct (p s) as [[a' [|]]|]; [|done..]. by intros [= ->]. Qed.
Lemma parse_ip_ok s ip : parse_ip s = Ok ip → ip_ok ip.
Proof.
  intros H%parse_with_Some. revert H. unfold read_ip_addr. destruct (read_ipv4_addr s) as [[a s']|] eqn:E.
  - intros [= <- ->]. by eapply read_v4_ok.
  - destruct (read_ipv6_addr s) as [[l s']|] eqn:E6; [|done]. intros [= <- ->]. by eapply read_v6_ok.
Qed.
Lemma port_ok s v s' : read_port s = Some (v, s') → in_u16 v.
Proof. unfold read_port. destruct (read_given_char _ _); [|done]. by apply number_ok. Qed.
Lemma parse_socket_ok s a : parse_socket s = Ok a → socket_ok a.
Proof.
  intros H%parse_with_Some. revert H. unfold read_socket_addr, read_socket_addr_v4.
  destruct (read_ipv4_addr s) as [[ip s1]|] eqn:E4; cbn [mbind option_bind];
    [destruct (read_port s1) as [[port s2]|] eqn:Ep; cbn [mbind option_bind]|].
  { intros [= <- ->]. split; [by eapply read_v4_ok|by eapply port_ok]. }
  all: unfold read_socket_addr_v6; destruct (read_given_char "[" s) as [t1|]; [|done]; cbn [mbind option_bind];
    destruct (read_ipv6_addr t1) as [[l t2]|] eqn:E6; [|done]; cbn [mbind option_bind];
    destruct (default (0, t2) (read_scope_id t2)) as [scope t3] eqn:Es;
    destruct (read_given_char "]" t3) as [t4|]; [|done]; cbn [mbind option_bind];
    destruct (read_port t4) as [[port' t5]|] eqn:Ep'; [|done]; cbn [mbind option_bind]; intros [= <- ->].
  all: split; [by eapply read_v6_ok|]; split; [by eapply port_ok|]; split; [done|].
  all: destruct (read_scope_id t2) as [[v t]|] eqn:Er; cbn in Es; injection Es as <- <-; [|done].
  all: unfold read_scope_id in Er; destruct (read_given_char _ t2); [|done]; cbn [mbind option_bind] in Er;
    apply number_ok in Er; [exact Er|done].
Qed.
End NetFacts.

(** ** Concrete addresses *)

Module NetExamples.
Import Net.
Example socket_v4 : parse_socket "127.0.0.1:8080" = Ok (SocketV4 (mkIpv4 127 0 0 1) 8080).
Proof. vm_compute. reflexivity. Qed.
Example socket_v6 : parse_socket "[fe80::1%2]:443" = Ok (SocketV6 [0xfe80; 0; 0; 0; 0; 0; 0; 1] 443 0 2).
Proof. vm_compute. reflexivity. Qed.
Example octal_refused : parse_ip "127.0.0.01" = Err "invalid IP address syntax".
Proof. vm_compute. reflexivity. Qed.
Example embedded_v4 : parse_ip "1::2:10.0.0.1" = Ok (IpV6 [1; 0; 0; 0; 0; 2; 2560; 1]).
Proof. vm_compute. reflexivity. Qed.
Example v4_before_run : parse_ip "10.0.0.1::" = Err "invalid IP address syntax".
Proof. vm_compute. reflexivity. Qed.
Example shortest_form : display_v6 [0x2001; 0xdb8; 0; 0; 1; 0; 0; 1] = "2001:db8::1:0:0:1".
Proof. vm_compute. reflexivity. Qed.
Example mapped_form : display_v6 [0; 0; 0; 0; 0; 65535; 2560; 1] = "::ffff:10.0.0.1".
Proof. vm_compute. reflexivity. Qed.
Example unspecified : (display_v6 [0; 0; 0; 0; 0; 0; 0; 0], display_v6 [0; 0; 0; 0; 0; 0; 0; 1]) = ("::", "::1").
Proof. vm_compute. reflexivity. Qed.
End NetExamples.
