(* ===== verification/NetworkPolicy.v ===== *)
(** The network policy: which connections a plugin or the rules file allows, denies or
    hands to a plugin.
    crates/core/plugin_system/src/network_policy.rs (contract types and selectors) and
    crates/access_control/src/policy/network/ (rule.rs, validation.rs, store.rs). *)
From stdpp Require Import prelude strings gmap pretty sorting.
From Stdlib Require Import ZArith Lia Ascii.
From S2P Require Import Prelude PolicyPath CommandText Wire FileScope NetAddr.

Open Scope Z_scope.

(** * network_policy.rs *)

Inductive NetworkPolicyDecision := NetDefault | NetAllow | NetDeny | NetGray.
#[export] Instance net_decision_eq_dec : EqDecision NetworkPolicyDecision.
Proof. solve_decision. Defined.
Inductive ControlVerdict := VerdictAllow | VerdictDeny.
Inductive NetworkPolicyRemoteSelector := Endpoint (a : SocketAddr) | AnyPort (ip : IpAddr).
#[export] Instance selector_eq_dec : EqDecision NetworkPolicyRemoteSelector.
Proof. solve_decision. Defined.
Inductive NetworkPolicyRemoteGrantScope := AllRemotes | SelectorScope (s : NetworkPolicyRemoteSelector).
Inductive NetworkPolicyPatchOp := NetUpsert | NetDelete.
Inductive NetworkPolicyApplyStatus := NetAccepted | NetRejected.
Record NetworkPolicyRuleDraft := mkNetDraft {
  nd_rule_id : option string;
  nd_decision : NetworkPolicyDecision;
  nd_remote : string;
  nd_gray_target : option string;
  nd_timeout_ms : option Z;
  nd_concurrency_limit : option Z;
  nd_fallback : option ControlVerdict;
}.
Record NetworkPolicyPatchItem := mkNetItem {
  ni_op : NetworkPolicyPatchOp;
  ni_rule_id : option string;
  ni_rule : option NetworkPolicyRuleDraft;
}.
Record NetworkPolicyApplyRequest := mkNetRequest {
  nq_base_revision : Z;
  nq_mutation_id : string;
  nq_reason : option string;
  nq_items : list NetworkPolicyPatchItem;
}.
Record NetworkPolicyApplyError := mkNetError { ne_item_index : Z; ne_code : string; ne_message : string }.
Record NetworkPolicyApplyResult := mkNetResult {
  nr_status : NetworkPolicyApplyStatus;
  nr_new_revision : Z;
  nr_applied_count : Z;
  nr_rejected_count : Z;
  nr_errors : list NetworkPolicyApplyError;
}.
Record NetworkPolicyRuleView := mkNetView {
  nv_rule_id : string;
  nv_owner_instance_id : string;
  nv_decision : NetworkPolicyDecision;
  nv_remote : string;
  nv_gray_target : option string;
  nv_timeout_ms : option Z;
  nv_concurrency_limit : option Z;
  nv_fallback : option ControlVerdict;
  nv_rule_revision : Z;
  nv_updated_sequence : Z;
}.
Record NetworkPolicyListFilter := mkNetFilter { nf_decision : option NetworkPolicyDecision; nf_remote : option string }.
Record NetworkPolicyListResult := mkNetList {
  nl_rules : list NetworkPolicyRuleView;
  nl_next_cursor : option string;
  nl_source_revision : Z;
}.
Record NetworkPolicyMatchDryRunResult := mkNetDryRun {
  nm_matched : bool;
  nm_decision : NetworkPolicyDecision;
  nm_rule_id : option string;
  nm_owner_instance_id : option string;
  nm_resolved_remote : string;
  nm_rule_revision : option Z;
  nm_source_revision : Z;
}.
Record NetworkPolicyRulesApplyGrant := mkNetGrant {
  ng_decision : NetworkPolicyDecision;
  ng_remote_scope : NetworkPolicyRemoteGrantScope;
}.

Module NetDecision.
Definition as_str (d : NetworkPolicyDecision) : string :=
  match d with NetDefault => "default" | NetAllow => "allow" | NetDeny => "deny" | NetGray => "gray" end.
Definition from_wire (value : string) : result string NetworkPolicyDecision :=
  match str_match [("default", NetDefault); ("allow", NetAllow); ("deny", NetDeny); ("gray", NetGray)] value with
  | Some d => Ok d
  | None => Err ("unsupported network policy decision " +:+ value
                   +:+ "; expected default, allow, deny, or gray")
  end.
End NetDecision.

Module Selector.
Definition ip_of (s : NetworkPolicyRemoteSelector) : IpAddr :=
  match s with Endpoint a => socket_ip a | AnyPort ip => ip end.
(** [NetworkPolicyRemoteSelector::parse]. *)
Definition parse (raw : string) : result string NetworkPolicyRemoteSelector :=
  match strip_suffix ":*" raw with
  | Some raw_ip =>
      let '(raw_ip, bracketed) :=
        match strip_prefix "[" raw_ip ≫= strip_suffix "]" with
        | Some value => (value, true)
        | None => (raw_ip, false)
        end in
      ip ← map_err (λ e, "network remote " +:+ raw +:+ " must contain a numeric IP before :*: " +:+ e)
             (Net.parse_ip raw_ip);
      match ip, bracketed with
      | IpV4 _, true => Err ("network remote " +:+ raw +:+ " must not bracket an IPv4 address")
      | IpV6 _, false => Err ("network remote " +:+ raw +:+ " must bracket an IPv6 address as [ip]:*")
      | _, _ => Ok (AnyPort ip)
      end
  | None =>
      map_err (λ e, "network remote " +:+ raw
                      +:+ " must be a numeric IP endpoint or IP any-port selector: " +:+ e)
        (Endpoint <$> Net.parse_socket raw)
  end.
(** [Display]. *)
Definition display (s : NetworkPolicyRemoteSelector) : string :=
  match s with
  | Endpoint a => Net.display_socket a
  | AnyPort (IpV4 ip) => Net.display_v4 ip +:+ ":*"
  | AnyPort (IpV6 ip) => "[" +:+ Net.display_v6 ip +:+ "]:*"
  end.
End Selector.

Module RemoteScope.
Definition parse (raw : string) : result string NetworkPolicyRemoteGrantScope :=
  if bool_decide (raw = "*") then Ok AllRemotes else SelectorScope <$> Selector.parse raw.
Definition covers (g : NetworkPolicyRemoteGrantScope) (s : NetworkPolicyRemoteSelector) : bool :=
  match g with
  | AllRemotes => true
  | SelectorScope (AnyPort ip) => bool_decide (ip = Selector.ip_of s)
  | SelectorScope (Endpoint a) => bool_decide (s = Endpoint a)
  end.
Definition display (g : NetworkPolicyRemoteGrantScope) : string :=
  match g with AllRemotes => "*" | SelectorScope s => Selector.display s end.
End RemoteScope.

(** * rule.rs *)

Definition NET_STATIC_OWNER : string := "actrail.static".
Definition NET_GENERATED_RULE_ID_PREFIX : string := "network-rule".
Record StoredNetworkRule := mkNetRule {
  nrl_owner_instance_id : string;
  nrl_rule_id : string;
  nrl_decision : NetworkPolicyDecision;
  nrl_remote : NetworkPolicyRemoteSelector;
  nrl_gray_target : option string;
  nrl_timeout_ms : option Z;
  nrl_concurrency_limit : option Z;
  nrl_fallback : option EnforcementDecision;
  nrl_rule_revision : Z;
  nrl_updated_sequence : Z;
}.

(** * validation.rs, the checks on one rule *)

Module NetValidator.
Definition rule_id (id : string) : result string () :=
  if trim_is_empty id || has_whitespace id
  then Err "network rule id must be non-empty and contain no whitespace" else Ok ().
Definition endpoint (remote : string) : result string SocketAddr :=
  map_err (λ e, "network remote must be a numeric IP endpoint: " +:+ e) (Net.parse_socket remote).
Definition selector (remote : string) : result string NetworkPolicyRemoteSelector := Selector.parse remote.
Definition none_or_zero (o : option Z) : bool := match o with Some v => v =? 0 | None => true end.
Definition shape (draft : NetworkPolicyRuleDraft) : result string NetworkPolicyRemoteSelector :=
  let has_gray_fields := bool_decide (is_Some (nd_gray_target draft)) || bool_decide (is_Some (nd_timeout_ms draft))
    || bool_decide (is_Some (nd_concurrency_limit draft)) || bool_decide (is_Some (nd_fallback draft)) in
  let gray := bool_decide (nd_decision draft = NetGray) in
  if bool_decide (nd_decision draft = NetDefault) then Err "network rule decision cannot be default"
  else if negb gray && has_gray_fields then Err "allow and deny network rules cannot include gray settings"
  else if gray && match nd_gray_target draft with Some t => trim_is_empty t | None => true end
  then Err "gray network rule requires gray_target"
  else if gray && none_or_zero (nd_timeout_ms draft) then Err "gray network rule timeout_ms must be positive"
  else if gray && none_or_zero (nd_concurrency_limit draft)
  then Err "gray network rule concurrency_limit must be positive"
  else if gray && bool_decide (nd_fallback draft = None) then Err "gray network rule requires fallback"
  else selector (nd_remote draft).
Definition apply_error (index : Z) (code message : string) : NetworkPolicyApplyError := mkNetError index code message.
Definition request (revision : Z) (owner : string) (q : NetworkPolicyApplyRequest) : list NetworkPolicyApplyError :=
  (if trim_is_empty owner || bool_decide (owner = NET_STATIC_OWNER)
   then [apply_error 0 "invalid-owner" "network policy owner must be a non-static plugin instance id"] else []) ++
  (if negb (nq_base_revision q =? revision)
   then [apply_error 0 "revision-conflict"
           ("network policy base revision " +:+ fmt_u (nq_base_revision q)
              +:+ " does not match current revision " +:+ fmt_u revision)] else []) ++
  (if trim_is_empty (nq_mutation_id q)
   then [apply_error 0 "invalid-mutation-id" "network policy mutation_id must not be empty"] else []) ++
  (if bool_decide (nq_items q = [])
   then [apply_error 0 "empty-mutation" "network policy apply requires at least one item"] else []).
Definition draft_grant (grants : list NetworkPolicyRulesApplyGrant) (draft : NetworkPolicyRuleDraft)
    (s : NetworkPolicyRemoteSelector) : result string () :=
  if existsb (λ g, bool_decide (ng_decision g = nd_decision draft) && RemoteScope.covers (ng_remote_scope g) s) grants
  then Ok ()
  else Err ("missing network-policy.rules.apply grant for " +:+ NetDecision.as_str (nd_decision draft)
              +:+ " " +:+ Selector.display s).
End NetValidator.

Module NetRule.
Definition verdict_decision (v : ControlVerdict) : EnforcementDecision :=
  match v with VerdictAllow => EnforceAllow | VerdictDeny => EnforceDeny end.
Definition enforcement_verdict (d : EnforcementDecision) : ControlVerdict :=
  match d with EnforceAllow => VerdictAllow | EnforceDeny => VerdictDeny end.
Definition from_draft (owner : string) (item_rule_id : option string) (draft : NetworkPolicyRuleDraft)
    (remote : NetworkPolicyRemoteSelector) (rule_revision updated_sequence generated_rule_id : Z)
    : result string StoredNetworkRule :=
  let id := match item_rule_id with
            | Some id => id
            | None => default (NET_GENERATED_RULE_ID_PREFIX +:+ "-" +:+ fmt_u generated_rule_id) (nd_rule_id draft)
            end in
  _ ← NetValidator.rule_id id;
  Ok (mkNetRule owner id (nd_decision draft) remote (nd_gray_target draft) (nd_timeout_ms draft)
        (nd_concurrency_limit draft) (verdict_decision <$> nd_fallback draft) rule_revision updated_sequence).
Definition view (r : StoredNetworkRule) : NetworkPolicyRuleView :=
  mkNetView (nrl_rule_id r) (nrl_owner_instance_id r) (nrl_decision r) (Selector.display (nrl_remote r))
    (nrl_gray_target r) (nrl_timeout_ms r) (nrl_concurrency_limit r) (enforcement_verdict <$> nrl_fallback r)
    (nrl_rule_revision r) (nrl_updated_sequence r).
Definition matches_filter (decision : option NetworkPolicyDecision) (remote : option NetworkPolicyRemoteSelector)
    (r : StoredNetworkRule) : bool :=
  match decision with Some d => bool_decide (d = nrl_decision r) | None => true end
  && match remote with Some s => bool_decide (s = nrl_remote r) | None => true end.
(** [rule.rule_revision = store.revision] of [load]. *)
Definition with_revision (v : Z) (r : StoredNetworkRule) : StoredNetworkRule :=
  mkNetRule (nrl_owner_instance_id r) (nrl_rule_id r) (nrl_decision r) (nrl_remote r) (nrl_gray_target r)
    (nrl_timeout_ms r) (nrl_concurrency_limit r) (nrl_fallback r) v (nrl_updated_sequence r).
End NetRule.

(** * validation.rs, the checks on sets of rules *)

Record NetworkRemoteOwners := mkOwners {
  no_by_endpoint : gmap SocketAddr string;
  no_endpoint_by_ip : gmap IpAddr (gmap string SocketAddr);
  no_by_ip : gmap IpAddr string;
}.
Module RemoteOwners.
Definition empty : NetworkRemoteOwners := mkOwners ∅ ∅ ∅.
Definition insert (remote : NetworkPolicyRemoteSelector) (owner : string) (o : NetworkRemoteOwners)
    : result string NetworkRemoteOwners :=
  let text := Selector.display remote in
  match remote with
  | Endpoint a =>
      match no_by_endpoint o !! a with
      | Some existing => Err ("network remote " +:+ text +:+ " is already owned by " +:+ existing)
      | None =>
          match no_by_ip o !! socket_ip a with
          | Some existing =>
              if bool_decide (existing = owner) then Ok tt
              else Err ("network remote " +:+ text +:+ " overlaps "
                          +:+ Selector.display (AnyPort (socket_ip a)) +:+ " owned by " +:+ existing)
          | None => Ok tt
          end ≫= λ _,
          let owners := default ∅ (no_endpoint_by_ip o !! socket_ip a) in
          Ok (mkOwners (<[a := owner]> (no_by_endpoint o))
                (<[socket_ip a := match owners !! owner with Some _ => owners | None => <[owner := a]> owners end]>
                   (no_endpoint_by_ip o))
                (no_by_ip o))
      end
  | AnyPort ip =>
      match no_by_ip o !! ip with
      | Some existing => Err ("network remote " +:+ text +:+ " is already owned by " +:+ existing)
      | None =>
          match List.find (λ p, negb (bool_decide (p.1 = owner))) (bt_list (default ∅ (no_endpoint_by_ip o !! ip))) with
          | Some (existing, a) => Err ("network remote " +:+ text +:+ " overlaps " +:+ Net.display_socket a
                                         +:+ " owned by " +:+ existing)
          | None => Ok (mkOwners (no_by_endpoint o) (no_endpoint_by_ip o) (<[ip := owner]> (no_by_ip o)))
          end
      end
  end.
(** The remotes of a sequence of rules, each with its owner. *)
Fixpoint insert_all (rules : list (string * NetworkPolicyRemoteSelector)) (o : NetworkRemoteOwners)
    : result string NetworkRemoteOwners :=
  match rules with
  | [] => Ok o
  | (owner, remote) :: rest => o ← insert remote owner o; insert_all rest o
  end.
End RemoteOwners.

Module NetRules.
(** [owner_rules]: keys and ids agree and no two remotes of the owner collide. *)
Fixpoint check_owner (owner : string) (rules : list (string * StoredNetworkRule)) (o : NetworkRemoteOwners)
    : result string () :=
  match rules with
  | [] => Ok tt
  | (key, rule) :: rest =>
      if negb (bool_decide (key = nrl_rule_id rule))
      then Err ("network policy owner " +:+ owner +:+ " has inconsistent rule id " +:+ key)
      else o ← RemoteOwners.insert (nrl_remote rule) owner o; check_owner owner rest o
  end.
Definition owner_rules (owner : string) (rules : gmap string StoredNetworkRule) : result string () :=
  check_owner owner (bt_list rules) RemoteOwners.empty.
(** [unique_remotes], over the owners in order. *)
Definition owned_remotes (owners : list (string * gmap string StoredNetworkRule))
    : list (string * NetworkPolicyRemoteSelector) :=
  mjoin ((λ p, (λ r, (p.1, nrl_remote r)) <$> bt_values p.2) <$> owners).
Definition unique_remotes (owners : list (string * gmap string StoredNetworkRule)) : result string () :=
  _ ← RemoteOwners.insert_all (owned_remotes owners) RemoteOwners.empty; Ok tt.
End NetRules.

Module NetParser.
Definition usage : string :=
  "expected: <rule-id> <allow|deny> connect <ip:port|ip:*>, or <rule-id> sync-plugin <instance> timeout-ms <positive-ms> concurrency <positive-limit> fallback <allow|deny> connect <ip:port|ip:*>".
Definition enforcement (value : string) : result string EnforcementDecision :=
  match str_match [("allow", EnforceAllow); ("deny", EnforceDeny)] value with
  | Some d => Ok d
  | None => Err "fallback must be allow or deny"
  end.
Definition positive (parse : string → result string Z) (label value : string) : result string Z :=
  parsed ← map_err (λ e, label +:+ " must be a positive integer: " +:+ e) (parse value);
  if parsed =? 0 then Err (label +:+ " must be greater than zero") else Ok parsed.
Definition positive_u64 : string → string → result string Z := positive parse_usize.
Definition positive_u32 : string → string → result string Z := positive parse_u32.
Definition parse (line : string) (sequence : Z) : result string StoredNetworkRule :=
  match split_whitespace line with
  | [id; decision; connect; remote] =>
      if (bool_decide (decision = "allow") || bool_decide (decision = "deny")) && bool_decide (connect = "connect")
      then
        _ ← NetValidator.rule_id id;
        decision ← NetDecision.from_wire decision;
        remote ← NetValidator.selector remote;
        Ok (mkNetRule NET_STATIC_OWNER id decision remote None None None None 0 sequence)
      else Err usage
  | [id; sync; instance; k1; timeout_ms; k2; concurrency_limit; k3; fallback; connect; remote] =>
      if bool_decide ([sync; k1; k2; k3; connect] = ["sync-plugin"; "timeout-ms"; "concurrency"; "fallback"; "connect"])
      then
        _ ← NetValidator.rule_id id;
        remote ← NetValidator.selector remote;
        timeout_ms ← positive_u64 "timeout-ms" timeout_ms;
        concurrency_limit ← positive_u32 "concurrency" concurrency_limit;
        fallback ← enforcement fallback;
        Ok (mkNetRule NET_STATIC_OWNER id NetGray remote (Some instance) (Some timeout_ms) (Some concurrency_limit)
              (Some fallback) 0 sequence)
      else Err usage
  | _ => Err usage
  end.
End NetParser.

(** * store.rs *)

Record NetworkPolicyStore := mkNetStore {
  ns_revision : Z;
  ns_next_rule_id : Z;
  ns_next_sequence : Z;
  ns_by_owner : gmap string (gmap string StoredNetworkRule);
  ns_effective_by_endpoint : gmap SocketAddr StoredNetworkRule;
  ns_effective_by_ip : gmap IpAddr StoredNetworkRule;
}.

Module NStore.
Definition empty : NetworkPolicyStore := mkNetStore 0 1 0 ∅ ∅ ∅.

(** ** The effective index *)

Definition all_rules (s : NetworkPolicyStore) : list StoredNetworkRule := bt_flat (ns_by_owner s).
Definition both_own (r existing : StoredNetworkRule) : string :=
  "network remote " +:+ Selector.display (nrl_remote r) +:+ " is owned by both "
    +:+ nrl_owner_instance_id existing +:+ " and " +:+ nrl_owner_instance_id r.
(** The first loop: any-port rules by address. *)
Fixpoint index_ips (rules : list StoredNetworkRule) (m : gmap IpAddr StoredNetworkRule)
    : result string (gmap IpAddr StoredNetworkRule) :=
  match rules with
  | [] => Ok m
  | r :: rest =>
      match nrl_remote r with
      | Endpoint _ => index_ips rest m
      | AnyPort ip =>
          match m !! ip with
          | Some existing => Err (both_own r existing)
          | None => index_ips rest (<[ip := r]> m)
          end
      end
  end.
(** The second: endpoint rules, none under an address of another owner. *)
Fixpoint index_endpoints (by_ip : gmap IpAddr StoredNetworkRule) (rules : list StoredNetworkRule)
    (m : gmap SocketAddr StoredNetworkRule) : result string (gmap SocketAddr StoredNetworkRule) :=
  match rules with
  | [] => Ok m
  | r :: rest =>
      match nrl_remote r with
      | AnyPort _ => index_endpoints by_ip rest m
      | Endpoint a =>
          let overlap := existing ← by_ip !! socket_ip a;
            if bool_decide (nrl_owner_instance_id existing = nrl_owner_instance_id r) then None else Some existing in
          match overlap with
          | Some existing =>
              Err ("network remote " +:+ Selector.display (nrl_remote r) +:+ " overlaps "
                     +:+ Selector.display (nrl_remote existing) +:+ " owned by " +:+ nrl_owner_instance_id existing)
          | None =>
              match m !! a with
              | Some existing => Err (both_own r existing)
              | None => index_endpoints by_ip rest (<[a := r]> m)
              end
          end
      end
  end.
Definition rebuild_effective (s : NetworkPolicyStore) : result string () * NetworkPolicyStore :=
  match index_ips (all_rules s) ∅ with
  | Err e => (Err e, s)
  | Ok by_ip =>
      match index_endpoints by_ip (all_rules s) ∅ with
      | Err e => (Err e, s)
      | Ok by_endpoint =>
          (Ok tt, mkNetStore (ns_revision s) (ns_next_rule_id s) (ns_next_sequence s) (ns_by_owner s) by_endpoint by_ip)
      end
  end.

(** ** Queries *)

Definition effective_rule_views (s : NetworkPolicyStore) : list NetworkPolicyRuleView :=
  NetRule.view <$> (bt_values (ns_effective_by_endpoint s) ++ bt_values (ns_effective_by_ip s)).
Definition find (a : SocketAddr) (s : NetworkPolicyStore) : option StoredNetworkRule :=
  match ns_effective_by_endpoint s !! a with
  | Some r => Some r
  | None => ns_effective_by_ip s !! socket_ip a
  end.
Definition is_rule_current (r : StoredNetworkRule) (s : NetworkPolicyStore) : bool :=
  match ns_by_owner s !! nrl_owner_instance_id r ≫= λ rules, rules !! nrl_rule_id r with
  | Some current => nrl_rule_revision current =? nrl_rule_revision r
  | None => false
  end.
Definition view_le : relation NetworkPolicyRuleView := λ a b,
  bo_le (nv_owner_instance_id a, nv_rule_id a) (nv_owner_instance_id b, nv_rule_id b).
#[global] Instance net_view_le_dec : RelDecision view_le.
Proof. intros a b. unfold view_le. apply _. Defined.
Definition list_rules (filter : NetworkPolicyListFilter) (cursor : option string) (limit : Z) (s : NetworkPolicyStore)
    : result string NetworkPolicyListResult :=
  if limit =? 0 then Err "network policy list limit must be positive"
  else
    start ← match cursor with
            | None => Ok 0
            | Some raw => map_err (λ e, "invalid network policy cursor " +:+ raw +:+ ": " +:+ e) (parse_usize raw)
            end;
    remote ← match nf_remote filter with
             | None => Ok None
             | Some raw => Some <$> NetValidator.selector raw
             end;
    let views := merge_sort view_le
                   (NetRule.view <$> List.filter (NetRule.matches_filter (nf_decision filter) remote) (all_rules s)) in
    let rules := take (Z.to_nat limit) (drop (Z.to_nat start) views) in
    let next := Z.min u64_max (start + Z.of_nat (length rules)) in
    Ok (mkNetList rules (if next <? Z.of_nat (length views) then Some (fmt_u next) else None) (ns_revision s)).
Definition match_dry_run (remote : string) (default_decision : NetworkPolicyDecision) (s : NetworkPolicyStore)
    : result string NetworkPolicyMatchDryRunResult :=
  a ← NetValidator.endpoint remote;
  let matched := find a s in
  Ok (mkNetDryRun (bool_decide (is_Some matched)) (default default_decision (nrl_decision <$> matched))
        (nrl_rule_id <$> matched) (nrl_owner_instance_id <$> matched) (Net.display_socket a)
        (nrl_rule_revision <$> matched) (ns_revision s)).

(** ** Updates *)

Definition set_revision (v : Z) (s : NetworkPolicyStore) : NetworkPolicyStore :=
  mkNetStore v (ns_next_rule_id s) (ns_next_sequence s) (ns_by_owner s) (ns_effective_by_endpoint s) (ns_effective_by_ip s).
Definition set_sequence (v : Z) (s : NetworkPolicyStore) : NetworkPolicyStore :=
  mkNetStore (ns_revision s) (ns_next_rule_id s) v (ns_by_owner s) (ns_effective_by_endpoint s) (ns_effective_by_ip s).
Definition set_rule_id (v : Z) (s : NetworkPolicyStore) : NetworkPolicyStore :=
  mkNetStore (ns_revision s) v (ns_next_sequence s) (ns_by_owner s) (ns_effective_by_endpoint s) (ns_effective_by_ip s).
Definition set_owners (o : gmap string (gmap string StoredNetworkRule)) (s : NetworkPolicyStore) : NetworkPolicyStore :=
  mkNetStore (ns_revision s) (ns_next_rule_id s) (ns_next_sequence s) o (ns_effective_by_endpoint s) (ns_effective_by_ip s).

Definition bump_revision : ST NetworkPolicyStore string () := λ s,
  match checked_add_u64 (ns_revision s) 1 with
  | Some v => (Ok tt, set_revision v s)
  | None => (Err "network policy revision overflow", s)
  end.
(** [remove_owner]: the rules are gone even when the revision cannot be bumped. *)
Definition remove_owner (owner : string) : ST NetworkPolicyStore string bool := λ s,
  if bool_decide (owner = NET_STATIC_OWNER) then (Err "static network policy owner cannot be removed", s)
  else match ns_by_owner s !! owner with
       | None => (Ok false, s)
       | Some _ => (_ ← bump_revision; _ ← rebuild_effective; mret true) (set_owners (delete owner (ns_by_owner s)) s)
       end.

(** [apply_item] works on the candidate and the owner's rules. *)
Definition ItemM : Type → Type := ST (NetworkPolicyStore * gmap string StoredNetworkRule) string.
Definition bump_sequence : ItemM Z := λ '(s, rules),
  match checked_add_u64 (ns_next_sequence s) 1 with
  | Some v => (Ok v, (set_sequence v s, rules))
  | None => (Err "network policy sequence overflow", (s, rules))
  end.
Definition bump_rule_id : ItemM () := λ '(s, rules),
  match checked_add_u64 (ns_next_rule_id s) 1 with
  | Some v => (Ok tt, (set_rule_id v s, rules))
  | None => (Err "network policy generated rule id overflow", (s, rules))
  end.
Definition delete_item (item : NetworkPolicyPatchItem) : ItemM () := λ '(s, rules),
  match ni_rule item, ni_rule_id item with
  | Some _, _ => (Err "delete item must not include rule", (s, rules))
  | None, None => (Err "delete item requires rule_id", (s, rules))
  | None, Some id =>
      match rules !! id with
      | None => (Err ("network rule " +:+ id +:+ " not found for owner"), (s, rules))
      | Some _ => (Ok tt, (s, delete id rules))
      end
  end.
Definition check_ids (item : NetworkPolicyPatchItem) (draft : NetworkPolicyRuleDraft) : result string () :=
  match ni_rule_id item, nd_rule_id draft with
  | Some item_id, Some draft_id =>
      if bool_decide (item_id = draft_id) then Ok tt
      else Err ("item rule_id " +:+ item_id +:+ " does not match draft rule_id " +:+ draft_id)
  | _, _ => Ok tt
  end.
Definition check_gray (owner : string) (draft : NetworkPolicyRuleDraft) : result string () :=
  if bool_decide (nd_decision draft = NetGray)
  then target ← ok_or "gray network rule requires gray_target" (nd_gray_target draft);
       if bool_decide (target = owner) then Err "gray network rule cannot target its policy owner" else Ok tt
  else Ok tt.
Definition upsert_item (owner : string) (item : NetworkPolicyPatchItem) (next_revision : Z)
    (grants : list NetworkPolicyRulesApplyGrant) : ItemM () :=
  draft ← st_lift (ok_or "upsert item requires rule" (ni_rule item));
  _ ← st_lift (check_ids item draft);
  remote ← st_lift (NetValidator.shape draft);
  _ ← st_lift (NetValidator.draft_grant grants draft remote);
  _ ← st_lift (check_gray owner draft);
  sequence ← bump_sequence;
  '(s, _) ← st_get;
  rule ← st_lift (NetRule.from_draft owner (ni_rule_id item) draft remote next_revision sequence (ns_next_rule_id s));
  _ ← (match ni_rule_id item, nd_rule_id draft with None, None => bump_rule_id | _, _ => mret tt end);
  '(s', rules) ← st_get;
  st_put (s', <[nrl_rule_id rule := rule]> rules).
Definition apply_item (owner : string) (item : NetworkPolicyPatchItem) (next_revision : Z)
    (grants : list NetworkPolicyRulesApplyGrant) : ItemM () :=
  match ni_op item with NetDelete => delete_item item | NetUpsert => upsert_item owner item next_revision grants end.
(** The loop over the items: a failing item is reported and the loop goes on. *)
Fixpoint apply_items (owner : string) (next_revision : Z) (grants : list NetworkPolicyRulesApplyGrant) (index : nat)
    (items : list NetworkPolicyPatchItem) (st : NetworkPolicyStore * gmap string StoredNetworkRule)
    : list NetworkPolicyApplyError * (NetworkPolicyStore * gmap string StoredNetworkRule) :=
  match items with
  | [] => ([], st)
  | item :: rest =>
      let '(r, st1) := apply_item owner item next_revision grants st in
      let '(errors, st2) := apply_items owner next_revision grants (S index) rest st1 in
      (match r with
       | Ok _ => errors
       | Err message => NetValidator.apply_error (as_u32 index) "invalid-rule" message :: errors
       end, st2)
  end.
Definition candidate_after (owner : string) (grants : list NetworkPolicyRulesApplyGrant)
    (request : NetworkPolicyApplyRequest) (s : NetworkPolicyStore)
    : result (list NetworkPolicyApplyError) NetworkPolicyStore :=
  match NetValidator.request (ns_revision s) owner request with
  | e :: es => Err (e :: es)
  | [] =>
      match checked_add_u64 (ns_revision s) 1 with
      | None => Err [NetValidator.apply_error 0 "revision-overflow" "network policy revision overflow"]
      | Some next_revision =>
          match apply_items owner next_revision grants 0 (nq_items request)
                  (set_owners (delete owner (ns_by_owner s)) s, default ∅ (ns_by_owner s !! owner)) with
          | (e :: es, _) => Err (e :: es)
          | ([], (candidate, rules)) =>
              match NetRules.owner_rules owner rules with
              | Err message => Err [NetValidator.apply_error 0 "duplicate-scope" message]
              | Ok _ =>
                  let owners := if decide (rules = ∅) then ns_by_owner candidate
                                else <[owner := rules]> (ns_by_owner candidate) in
                  match NetRules.unique_remotes (bt_list owners) with
                  | Err message => Err [NetValidator.apply_error 0 "endpoint-conflict" message]
                  | Ok _ =>
                      match rebuild_effective (set_revision next_revision (set_owners owners candidate)) with
                      | (Err message, _) => Err [NetValidator.apply_error 0 "endpoint-conflict" message]
                      | (Ok _, c) => Ok c
                      end
                  end
              end
          end
      end
  end.
Definition accepted_result (revision applied_count : Z) : NetworkPolicyApplyResult :=
  mkNetResult NetAccepted revision applied_count 0 [].
Definition rejected_result (revision : Z) (errors : list NetworkPolicyApplyError) : NetworkPolicyApplyResult :=
  mkNetResult NetRejected revision 0 (as_u32 (length errors)) errors.
Definition validate_apply (owner : string) (grants : list NetworkPolicyRulesApplyGrant)
    (request : NetworkPolicyApplyRequest) (s : NetworkPolicyStore) : NetworkPolicyApplyResult :=
  match candidate_after owner grants request s with
  | Ok _ => accepted_result (ns_revision s) (as_u32 (length (nq_items request)))
  | Err errors => rejected_result (ns_revision s) errors
  end.
Definition apply (owner : string) (grants : list NetworkPolicyRulesApplyGrant)
    (request : NetworkPolicyApplyRequest) (s : NetworkPolicyStore) : NetworkPolicyApplyResult * NetworkPolicyStore :=
  match candidate_after owner grants request s with
  | Ok candidate => (accepted_result (ns_revision candidate) (as_u32 (length (nq_items request))), candidate)
  | Err errors => (rejected_result (ns_revision s) errors, s)
  end.

(** ** Loading the rules file *)

Fixpoint load_lines (path : string) (index : nat) (raw_lines : list string) (sequence : Z)
    (rules : gmap string StoredNetworkRule) : result string (Z * gmap string StoredNetworkRule) :=
  match raw_lines with
  | [] => Ok (sequence, rules)
  | raw_line :: rest =>
      let line := trim raw_line in
      if bool_decide (line = "") || String.prefix "#" line then load_lines path (S index) rest sequence rules
      else
        let at_line := path +:+ ":" +:+ pretty (index + 1)%nat +:+ ": " in
        sequence ← ok_or "network policy sequence overflow" (checked_add_u64 sequence 1);
        rule ← map_err (λ e, at_line +:+ e) (NetParser.parse line sequence);
        match rules !! nrl_rule_id rule with
        | Some _ => Err (at_line +:+ "duplicate network rule id")
        | None => load_lines path (S index) rest sequence (<[nrl_rule_id rule := rule]> rules)
        end
  end.
Definition load (path : string) (file : FileContents) : result string NetworkPolicyStore :=
  raw ← match file with
        | Contents raw => Ok raw
        | FileNotFound => Ok ""
        | FileError text => Err ("read network control rules " +:+ path +:+ " failed: " +:+ text)
        end;
  '(sequence, static_rules) ← load_lines path 0 (lines raw) 0 ∅;
  _ ← NetRules.owner_rules NET_STATIC_OWNER static_rules;
  _ ← NetRules.unique_remotes [(NET_STATIC_OWNER, static_rules)];
  let store := set_sequence sequence empty in
  if decide (static_rules = ∅) then Ok store
  else
    let '(r, store) := rebuild_effective
          (set_owners {[NET_STATIC_OWNER := NetRule.with_revision 1 <$> static_rules]} (set_revision 1 store)) in
    _ ← r; Ok store.
End NStore.

(** * Selectors *)

Module SelectorFacts.
Import Net NetFacts.

Definition selector_ok (s : NetworkPolicyRemoteSelector) : Prop :=
  match s with Endpoint a => socket_ok a | AnyPort ip => ip_ok ip end.

Lemma strip_suffix_app p s : p ≠ EmptyString → strip_suffix p (s +:+ p) = Some s.
Proof.
  intros Hp. induction s as [|a s IH].
  - rewrite str_app_empty. destruct p; [done|]. cbn. by rewrite bool_decide_true.
  - rewrite str_app_cons. cbn [strip_suffix]. rewrite IH. rewrite bool_decide_false; [done|].
    intros E. apply (f_equal String.length) in E. cbn in E. rewrite str_length_app in E. lia.
Qed.
(** A text that ends in another character does not have the suffix. *)
Fixpoint last_char (s : string) : option ascii :=
  match s with EmptyString => None | String a EmptyString => Some a | String _ s' => last_char s' end.
Lemma last_char_tail s t : t ≠ EmptyString → last_char (s +:+ t) = last_char t.
Proof.
  intros Ht. induction s as [|b s IH]; [done|]. rewrite str_app_cons. cbn. destruct (s +:+ t) eqn:E; [|done].
  destruct s; [by rewrite str_app_empty in E|done].
Qed.
Lemma strip_suffix_last s : last_char s ≠ Some "*"%char → strip_suffix ":*" s = None.
Proof.
  intros H. destruct (strip_suffix ":*" s) as [b|] eqn:E; [|done]. apply strip_suffix_Some in E as ->.
  destruct H. by rewrite last_char_tail.
Qed.
Lemma show_last fuel radix n : 0 < radix ≤ 16 → 0 ≤ n → last_char (show_radix fuel radix n) ≠ Some "*"%char.
Proof.
  intros Hr Hn. assert (∀ d, 0 ≤ d < 16 → Some (digit_char d) ≠ Some "*"%char) as Hd.
  { intros d Hd [= E]. assert (digit_value (digit_char d) = digit_value "*") as E' by (by rewrite E).
    rewrite digit_value_char in E' by done. change (digit_value "*") with 36 in E'. lia. }
  destruct fuel as [|fuel]; [done|]. cbn [show_radix]. destruct (Z.ltb_spec n radix); [apply Hd; lia|].
  rewrite last_char_tail by done. apply Hd. pose proof (Z.mod_pos_bound n radix). lia.
Qed.
Lemma port_last n : in_u16 n → last_char (show_u16 n) ≠ Some "*"%char ∧ show_u16 n ≠ EmptyString.
Proof.
  intros [H _]. split; [by apply show_last|]. intros E. pose proof (show_nonempty 5 10 n) as Hn.
  change (show_radix 5 10 n) with (show_u16 n) in Hn. rewrite E in Hn. cbn in Hn. lia.
Qed.
Lemma socket_no_star a : socket_ok a → strip_suffix ":*" (display_socket a) = None.
Proof.
  intros H. apply strip_suffix_last.
  destruct a as [ip port|ip port flow scope]; cbn [display_socket socket_ok] in *.
  - destruct H as [_ Hp]. destruct (port_last _ Hp). rewrite <-str_app_assoc, last_char_tail; done.
  - destruct H as (_ & Hp & _). destruct (port_last _ Hp). rewrite <-!str_app_assoc, last_char_tail; done.
Qed.
Lemma v4_first ip : v4_ok ip → strip_prefix "[" (display_v4 ip) = None.
Proof.
  intros H. destruct (strip_prefix "[" (display_v4 ip)) as [s|] eqn:E; [|done].
  pose proof (read_v4_display ip EmptyString H I) as Hr. rewrite str_app_nil in Hr.
  destruct (display_v4 ip) as [|a t]; [done|]. cbn in E. case_bool_decide as Ea; [|done]. subst a. done.
Qed.

Lemma selector_display s : selector_ok s → Selector.parse (Selector.display s) = Ok s.
Proof.
  unfold Selector.parse. destruct s as [a|[ip|ip]]; cbn [Selector.display selector_ok ip_ok]; intros H.
  - rewrite socket_no_star by done. by rewrite parse_socket_display.
  - rewrite strip_suffix_app by done. rewrite v4_first by done. cbn [mbind option_bind].
    change (display_v4 ip) with (display_ip (IpV4 ip)). by rewrite (parse_ip_display (IpV4 ip)).
  - change ("[" +:+ display_v6 ip +:+ "]:*") with ("[" +:+ display_v6 ip +:+ "]" +:+ ":*").
    rewrite <-(str_app_assoc (display_v6 ip)), <-(str_app_assoc "["), strip_suffix_app by done.
    rewrite (str_app_cons "["), str_app_empty. cbn [strip_prefix]. rewrite bool_decide_true by done.
    cbn [mbind option_bind]. rewrite strip_suffix_app by done.
    change (display_v6 ip) with (display_ip (IpV6 ip)). by rewrite (parse_ip_display (IpV6 ip)).
Qed.
Lemma selector_parsed raw s : Selector.parse raw = Ok s → selector_ok s.
Proof.
  unfold Selector.parse. destruct (strip_suffix ":*" raw) as [t|].
  - destruct (strip_prefix "[" t ≫= strip_suffix "]") as [u|].
    + destruct (parse_ip u) as [ip|] eqn:E; [|done]. cbn [map_err mbind result_bind]. apply parse_ip_ok in E.
      destruct ip; by intros [= <-].
    + destruct (parse_ip t) as [ip|] eqn:E; [|done]. cbn [map_err mbind result_bind]. apply parse_ip_ok in E.
      destruct ip; by intros [= <-].
  - destruct (parse_socket raw) as [a|] eqn:E; [|done]. intros [= <-]. by apply parse_socket_ok in E.
Qed.

(** A selector survives being shown.  Whatever text of an endpoint or an any-port
    address is accepted, in any of the spellings of an IPv6 address, the text shown for
    the selector is accepted again and means the same one. *)
Theorem selector_roundtrip raw s :
  Selector.parse raw = Ok s → Selector.parse (Selector.display s) = Ok s.
Proof. intros H. by eapply selector_display, selector_parsed. Qed.

Lemma selector_roundtrip_witness :
  Selector.display (Endpoint (SocketV6 [0; 0; 0; 0; 0; 65535; 2560; 1] 443 0 7)) = "[::ffff:10.0.0.1%7]:443" ∧
  Selector.parse "[::ffff:10.0.0.1%7]:443" = Ok (Endpoint (SocketV6 [0; 0; 0; 0; 0; 65535; 2560; 1] 443 0 7)).
Proof.
  split; [vm_compute; reflexivity|].
  apply (selector_roundtrip "[0:0::0:FFFF:a00:1%007]:0443" (Endpoint (SocketV6 [0; 0; 0; 0; 0; 65535; 2560; 1] 443 0 7))).
  vm_compute. reflexivity.
Defined.
End SelectorFacts.

(** * The effective index *)

Module NetStoreFacts.
Import NStore.

(** A rule some owner has in the store. *)
Definition net_stored (s : NetworkPolicyStore) (r : StoredNetworkRule) : Prop :=
  ∃ o rs id, ns_by_owner s !! o = Some rs ∧ rs !! id = Some r.
(** Two rules claim the same connections: the same remote, or an endpoint of one owner
    under an address of another. *)
Definition clash (r r' : StoredNetworkRule) : Prop :=
  nrl_remote r = nrl_remote r' ∨
  (Selector.ip_of (nrl_remote r) = Selector.ip_of (nrl_remote r') ∧
   (∃ ip, nrl_remote r = AnyPort ip ∨ nrl_remote r' = AnyPort ip) ∧
   nrl_owner_instance_id r ≠ nrl_owner_instance_id r').

Section index.
Implicit Types (rules : list StoredNetworkRule) (r : StoredNetworkRule).

Lemma index_ips_lookup rules m m' :
  index_ips rules m = Ok m' →
  ∀ ip r, m' !! ip = Some r ↔ m !! ip = Some r ∨ r ∈ rules ∧ nrl_remote r = AnyPort ip.
Proof.
  revert m. induction rules as [|x rules IH]; intros m; cbn [index_ips].
  { intros [= <-] ip r. split; [by left|]. by intros [?|[?%not_elem_of_nil _]]. }
  destruct (nrl_remote x) as [a|ip0] eqn:Ex.
  - intros E ip r. rewrite (IH _ E), elem_of_cons. split; [naive_solver|].
    intros [?|[[-> |?] ?]]; [by left|congruence|by right].
  - destruct (m !! ip0) eqn:Em; [done|]. intros E ip r. rewrite (IH _ E), elem_of_cons, lookup_insert_Some. split.
    + intros [[[<- <-]|[? ?]]|[? ?]]; [right|left|right]; auto.
    + intros [Hz|[[-> |Hy] Hz]]; [left; right; split; [congruence|done]|left; left; split; [congruence|done]|by right].
Qed.
Lemma index_endpoints_lookup by_ip rules m m' :
  index_endpoints by_ip rules m = Ok m' →
  (∀ a r, m' !! a = Some r ↔ m !! a = Some r ∨ r ∈ rules ∧ nrl_remote r = Endpoint a) ∧
  (∀ a r e, r ∈ rules → nrl_remote r = Endpoint a → by_ip !! socket_ip a = Some e →
     nrl_owner_instance_id e = nrl_owner_instance_id r).
Proof.
  revert m. induction rules as [|x rules IH]; intros m; cbn [index_endpoints].
  { intros [= <-]. split; [|by intros ??? ?%not_elem_of_nil]. intros a r. split; [by left|]. by intros [?|[?%not_elem_of_nil _]]. }
  destruct (nrl_remote x) as [a0|ip0] eqn:Ex.
  - set (overlap := existing ← _; _). destruct overlap as [e|] eqn:Eo; [done|]. subst overlap.
    destruct (m !! a0) eqn:Em; [done|]. intros [H1 H2]%IH. split.
    + intros a r. rewrite H1, elem_of_cons, lookup_insert_Some. split.
      * intros [[[<- <-]|[? ?]]|[? ?]]; [right|left|right]; auto.
      * intros [Hz|[[-> |Hy] Hz]]; [left; right; split; [congruence|done]|left; left; split; [congruence|done]|by right].
    + intros a r e [-> |Hr]%elem_of_cons Hra He; [|by eapply H2]. rewrite Ex in Hra. injection Hra as ->.
      rewrite He in Eo. cbn in Eo. destruct (bool_decide_reflect (nrl_owner_instance_id e = nrl_owner_instance_id x)); done.
  - intros [H1 H2]%IH. split.
    + intros a r. rewrite H1, elem_of_cons. split; [naive_solver|].
      intros [?|[[-> |?] ?]]; [by left|congruence|by right].
    + intros a r e [-> |Hr]%elem_of_cons Hra He; [congruence|by eapply H2].
Qed.

(** The index can be built exactly when no two rules clash. *)
Lemma clash_sym r r' : clash r r' → clash r' r.
Proof.
  intros [E|(E1 & [ip E2] & E3)]; [by left|right]. splits; [done|exists ip; tauto|congruence].
Qed.
Fixpoint distinct rules : Prop :=
  match rules with [] => True | r :: rest => (∀ r', r' ∈ rest → ¬ clash r r') ∧ distinct rest end.
Lemma distinct_perm rules rules' : rules ≡ₚ rules' → distinct rules → distinct rules'.
Proof.
  induction 1 as [|x l l' Hp IH|x y l|l1 l2 l3 H1 IH1 H2 IH2]; cbn; [done| | |auto].
  - intros [Hx Hd]. split; [|auto]. intros r. rewrite <-Hp. auto.
  - intros (Hy & Hx & Hd). splits; [|intros r Hr; apply Hy; by right|done].
    intros r [-> |Hr]%elem_of_cons; [|by apply Hx]. intros Hc%clash_sym. eapply Hy; [by left|done].
Qed.
Lemma distinct_app_r l l' : distinct (l ++ l') → distinct l'.
Proof. induction l as [|r l IH]; [done|]. cbn. intros [_ H]. auto. Qed.
Lemma distinct_elem rules r r' : distinct rules → r ∈ rules → r' ∈ rules → clash r r' → r = r'.
Proof.
  induction rules as [|x rules IH]; cbn; [by intros _ ?%not_elem_of_nil|].
  intros [Hx Hd] [-> |Hr]%elem_of_cons [-> |Hr']%elem_of_cons Hc; [done| | |by apply IH].
  - by destruct (Hx r').
  - apply clash_sym in Hc. by destruct (Hx r).
Qed.

Lemma index_ips_fresh rules m m' r ip :
  index_ips rules m = Ok m' → r ∈ rules → nrl_remote r = AnyPort ip → m !! ip = None.
Proof.
  revert m. induction rules as [|x rules IH]; intros m; cbn [index_ips]; [by intros _ ?%not_elem_of_nil|].
  intros E [-> |Hin]%elem_of_cons Hr.
  - rewrite Hr in E. by destruct (m !! ip).
  - destruct (nrl_remote x) as [a|ip0]; [by apply (IH m)|]. destruct (m !! ip0) eqn:Em; [done|].
    pose proof (IH _ E Hin Hr) as Hn. by apply lookup_insert_None in Hn as [? _].
Qed.
Lemma index_endpoints_fresh by_ip rules m m' r a :
  index_endpoints by_ip rules m = Ok m' → r ∈ rules → nrl_remote r = Endpoint a → m !! a = None.
Proof.
  revert m. induction rules as [|x rules IH]; intros m; cbn [index_endpoints]; [by intros _ ?%not_elem_of_nil|].
  intros E [-> |Hin]%elem_of_cons Hr.
  - rewrite Hr in E. destruct (by_ip !! socket_ip a ≫= _); [done|]. by destruct (m !! a).
  - destruct (nrl_remote x) as [a0|ip0]; [|by apply (IH m)]. destruct (by_ip !! socket_ip a0 ≫= _); [done|].
    destruct (m !! a0) eqn:Em; [done|].
    pose proof (IH _ E Hin Hr) as Hn. by apply lookup_insert_None in Hn as [? _].
Qed.

Lemma index_distinct by_ip rules m1 m1' m2 m2' :
  (∀ r ip, r ∈ rules → nrl_remote r = AnyPort ip → by_ip !! ip = Some r) →
  index_ips rules m1 = Ok m1' → index_endpoints by_ip rules m2 = Ok m2' → distinct rules.
Proof.
  revert m1 m2. induction rules as [|x rules IH]; intros m1 m2 Hb E1 E2; [done|].
  pose proof (proj2 (index_endpoints_lookup _ _ _ _ E2)) as Hown.
  assert (∀ r r' ip a, r ∈ x :: rules → r' ∈ x :: rules → nrl_remote r = AnyPort ip → nrl_remote r' = Endpoint a →
    socket_ip a = ip → nrl_owner_instance_id r = nrl_owner_instance_id r') as Hov.
  { intros r r' ip a Hr Hr' Er Er' <-. apply (Hown a r' r); [done|done|]. by apply Hb. }
  cbn. split.
  - intros r' Hr' [E|(E & [ip Hip] & Hne)].
    + cbn [index_ips index_endpoints] in E1, E2. destruct (nrl_remote x) as [a|ip] eqn:Ex.
      * destruct (by_ip !! socket_ip a ≫= _); [done|]. destruct (m2 !! a); [done|].
        pose proof (index_endpoints_fresh _ _ _ _ r' a E2 Hr' (eq_sym E)) as Hn. by rewrite lookup_insert_eq in Hn.
      * destruct (m1 !! ip); [done|].
        pose proof (index_ips_fresh _ _ _ r' ip E1 Hr' (eq_sym E)) as Hn. by rewrite lookup_insert_eq in Hn.
    + destruct (nrl_remote x) as [a|ip1] eqn:Ex, (nrl_remote r') as [a'|ip2] eqn:Er; cbn in E.
      * by destruct Hip.
      * destruct Hne. symmetry. apply (Hov r' x ip2 a); [by right|by left|done|done|done].
      * destruct Hne. apply (Hov x r' ip1 a'); [by left|by right|done|done|done].
      * subst ip2. cbn [index_ips] in E1. rewrite Ex in E1. destruct (m1 !! ip1); [done|].
        pose proof (index_ips_fresh _ _ _ r' ip1 E1 Hr' Er) as Hn. by rewrite lookup_insert_eq in Hn.
  - cbn [index_ips index_endpoints] in E1, E2.
    assert (∀ r ip, r ∈ rules → nrl_remote r = AnyPort ip → by_ip !! ip = Some r) as Hb' by (intros; apply Hb; [by right|done]).
    destruct (nrl_remote x) as [a|ip].
    + destruct (by_ip !! socket_ip a ≫= _); [done|]. destruct (m2 !! a); [done|]. by apply (IH _ _ Hb' E1 E2).
    + destruct (m1 !! ip); [done|]. by apply (IH _ _ Hb' E1 E2).
Qed.
Lemma distinct_ips rules m :
  distinct rules → (∀ r ip, r ∈ rules → nrl_remote r = AnyPort ip → m !! ip = None) → ∃ m', index_ips rules m = Ok m'.
Proof.
  revert m. induction rules as [|x rules IH]; intros m; cbn [index_ips distinct]; [by eexists|].
  intros [Hx Hd] Hm. destruct (nrl_remote x) as [a|ip] eqn:Ex.
  - apply IH; [done|]. intros r ip Hr. apply Hm. by right.
  - rewrite (Hm x ip) by (done || by left). apply IH; [done|]. intros r ip' Hr Er. apply lookup_insert_None.
    split; [apply (Hm r); [by right|done]|]. intros ->. apply (Hx r Hr). left. congruence.
Qed.
Lemma distinct_endpoints by_ip rules m :
  distinct rules → (∀ r a, r ∈ rules → nrl_remote r = Endpoint a → m !! a = None) →
  (∀ r a e, r ∈ rules → nrl_remote r = Endpoint a → by_ip !! socket_ip a = Some e →
     nrl_owner_instance_id e = nrl_owner_instance_id r) →
  ∃ m', index_endpoints by_ip rules m = Ok m'.
Proof.
  revert m. induction rules as [|x rules IH]; intros m; cbn [index_endpoints distinct]; [by eexists|].
  intros [Hx Hd] Hm Ho. assert (∀ r a e, r ∈ rules → nrl_remote r = Endpoint a → by_ip !! socket_ip a = Some e →
     nrl_owner_instance_id e = nrl_owner_instance_id r) as Ho' by (intros r a e Hr; apply Ho; by right).
  destruct (nrl_remote x) as [a|ip] eqn:Ex.
  - assert ((existing ← by_ip !! socket_ip a;
       if bool_decide (nrl_owner_instance_id existing = nrl_owner_instance_id x) then None else Some existing) = None) as ->.
    { destruct (by_ip !! socket_ip a) as [e|] eqn:Ee; [|done]. cbn.
      by rewrite bool_decide_true by (apply (Ho x a); [by left|done|done]). }
    rewrite (Hm x a) by (done || by left). apply IH; [done| |done]. intros r a' Hr Er. apply lookup_insert_None.
    split; [apply (Hm r); [by right|done]|]. intros ->. apply (Hx r Hr). left. congruence.
  - apply IH; [done| |done]. intros r a Hr. apply Hm. by right.
Qed.
End index.

Record net_inv (s : NetworkPolicyStore) : Prop := {
  ninv_keys : ∀ o rs id r, ns_by_owner s !! o = Some rs → rs !! id = Some r →
    nrl_owner_instance_id r = o ∧ nrl_rule_id r = id;
  ninv_ips : index_ips (all_rules s) ∅ = Ok (ns_effective_by_ip s);
  ninv_endpoints : index_endpoints (ns_effective_by_ip s) (all_rules s) ∅ = Ok (ns_effective_by_endpoint s);
}.
Lemma net_stored_all s r : net_stored s r ↔ r ∈ all_rules s.
Proof. unfold all_rules. by rewrite elem_of_bt_flat. Qed.
Lemma net_by_ip s ip r : net_inv s → ns_effective_by_ip s !! ip = Some r ↔ net_stored s r ∧ nrl_remote r = AnyPort ip.
Proof.
  intros H. rewrite (index_ips_lookup _ _ _ (ninv_ips s H)), lookup_empty, net_stored_all.
  split; [by intros [?|?]|by right].
Qed.
Lemma net_by_endpoint s a r :
  net_inv s → ns_effective_by_endpoint s !! a = Some r ↔ net_stored s r ∧ nrl_remote r = Endpoint a.
Proof.
  intros H. rewrite (proj1 (index_endpoints_lookup _ _ _ _ (ninv_endpoints s H))), lookup_empty, net_stored_all.
  split; [by intros [?|?]|by right].
Qed.
Lemma net_inv_distinct s : net_inv s → distinct (all_rules s).
Proof.
  intros H. eapply index_distinct; [|apply (ninv_ips s H)|apply (ninv_endpoints s H)].
  intros r ip Hr Er. apply net_by_ip; [done|]. by rewrite net_stored_all.
Qed.

(** Which rule of the store decides about a connection. *)
Definition decides (s : NetworkPolicyStore) (a : SocketAddr) (r : StoredNetworkRule) : Prop :=
  net_stored s r ∧
  (nrl_remote r = Endpoint a ∨
   nrl_remote r = AnyPort (socket_ip a) ∧ ∀ r', net_stored s r' → nrl_remote r' ≠ Endpoint a).
Lemma net_find_iff s a r : net_inv s → NStore.find a s = Some r ↔ decides s a r.
Proof.
  intros H. unfold NStore.find, decides. destruct (ns_effective_by_endpoint s !! a) as [x|] eqn:Ex.
  - apply net_by_endpoint in Ex as [Hx Ea]; [|done]. split; [intros [= <-]; by split; [|left]|].
    intros [Hs [Er|[_ Hn]]]; [|by destruct (Hn x)]. f_equal. apply net_stored_all in Hx, Hs.
    apply (distinct_elem (all_rules s)); [by apply net_inv_distinct|done|done|]. left. congruence.
  - assert (∀ r', net_stored s r' → nrl_remote r' ≠ Endpoint a) as Hn.
    { intros r' Hr' Er'. assert (ns_effective_by_endpoint s !! a = Some r') by (by apply net_by_endpoint). congruence. }
    rewrite net_by_ip by done. split; [intros [? ?]; split; [done|by right]|].
    intros [Hs [Er|[Er _]]]; [by destruct (Hn r)|done].
Qed.

(** ** Rebuilding *)

Lemma rebuild_Ok s s' :
  rebuild_effective s = (Ok tt, s') →
  ns_by_owner s' = ns_by_owner s ∧ ns_revision s' = ns_revision s ∧
  index_ips (all_rules s') ∅ = Ok (ns_effective_by_ip s') ∧
  index_endpoints (ns_effective_by_ip s') (all_rules s') ∅ = Ok (ns_effective_by_endpoint s').
Proof.
  unfold rebuild_effective. destruct (index_ips _ _) as [m1|] eqn:E1; [|done].
  destruct (index_endpoints _ _ _) as [m2|] eqn:E2; [|done]. by intros [= <-].
Qed.
Lemma rebuild_distinct s : distinct (all_rules s) → ∃ s', rebuild_effective s = (Ok tt, s').
Proof.
  intros Hd. unfold rebuild_effective. destruct (distinct_ips (all_rules s) ∅ Hd) as [m1 E1]; [done|]. rewrite E1.
  destruct (distinct_endpoints m1 (all_rules s) ∅ Hd) as [m2 E2]; [done| |rewrite E2; by eexists].
  intros r a e Hr Er He. apply (index_ips_lookup _ _ _ E1) in He as [?|[He Ee]]; [done|].
  destruct (decide (nrl_owner_instance_id e = nrl_owner_instance_id r)) as [|Hne]; [done|].
  assert (e = r) as ->; [|done]. apply (distinct_elem (all_rules s)); [done|done|done|].
  right. rewrite Er, Ee. cbn. splits; [done|by eexists; left|done].
Qed.
Lemma bt_flat_delete (m : gmap string (gmap string StoredNetworkRule)) o rs :
  m !! o = Some rs → bt_flat m ≡ₚ bt_values rs ++ bt_flat (delete o m).
Proof.
  intros Ho. unfold bt_flat. change (bt_values rs ++ mjoin (bt_values <$> bt_values (delete o m)))
    with (mjoin (bt_values <$> (rs :: bt_values (delete o m)))).
  assert (bt_values m ≡ₚ rs :: bt_values (delete o m)) as Hp.
  { unfold bt_values. trans (map_to_list m).*2; [apply fmap_Permutation, bt_list_perm|].
    trans ((o, rs) :: map_to_list (delete o m)).*2; [apply fmap_Permutation; symmetry; by apply map_to_list_delete|].
    apply perm_skip, fmap_Permutation. symmetry. apply bt_list_perm. }
  by rewrite Hp.
Qed.
Lemma remove_keeps_inv owner s :
  net_inv s → owner ≠ NET_STATIC_OWNER → is_Some (ns_by_owner s !! owner) → ns_revision s < u64_max →
  ∃ s', remove_owner owner s = (Ok true, s') ∧ net_inv s' ∧ ns_revision s' = ns_revision s + 1 ∧
    ns_by_owner s' = delete owner (ns_by_owner s).
Proof.
  intros Hi Hne [rs Hrs] Hrev. unfold remove_owner. rewrite bool_decide_false by done. rewrite Hrs.
  unfold mbind, st_bind. unfold bump_revision at 1, checked_add_u64. cbn [ns_revision set_owners]. rewrite decide_True by lia.
  set (s1 := set_revision _ _). assert (distinct (all_rules s1)) as Hd.
  { apply (distinct_app_r (bt_values rs)). eapply distinct_perm; [|by apply (net_inv_distinct s)]. by apply bt_flat_delete. }
  destruct (rebuild_distinct s1 Hd) as [s' E]. rewrite E. exists s'. split; [done|].
  apply rebuild_Ok in E as (E1 & E2 & E3 & E4). splits; [|done|done]. split; [|done|done].
  intros o rs' id r. rewrite E1. cbn. intros [_ Ho]%lookup_delete_Some. by apply (ninv_keys s Hi).
Qed.
End NetStoreFacts.

(** * Updates *)

Module NetUpdateFacts.
Import NStore NetStoreFacts.

(** A grant covers a rule: the decision is the same and every connection the rule is
    about lies in the granted scope. *)
Definition in_selector (s : NetworkPolicyRemoteSelector) (a : SocketAddr) : Prop :=
  match s with Endpoint b => a = b | AnyPort ip => socket_ip a = ip end.
Definition net_covers (g : NetworkPolicyRulesApplyGrant) (r : StoredNetworkRule) : Prop :=
  ng_decision g = nrl_decision r ∧
  match ng_remote_scope g with
  | AllRemotes => True
  | SelectorScope scope => ∀ a, in_selector (nrl_remote r) a → in_selector scope a
  end.
(** What a rule written by an accepted update satisfies. *)
Record net_written (owner : string) (grants : list NetworkPolicyRulesApplyGrant) (rev : Z) (id : string)
    (r : StoredNetworkRule) : Prop := {
  nw_id : nrl_rule_id r = id;
  nw_owner : nrl_owner_instance_id r = owner;
  nw_revision : nrl_rule_revision r = rev;
  nw_decision : nrl_decision r ≠ NetDefault;
  nw_gray : nrl_decision r = NetGray →
    is_Some (nrl_gray_target r) ∧ is_Some (nrl_timeout_ms r) ∧ is_Some (nrl_concurrency_limit r) ∧ is_Some (nrl_fallback r);
  nw_plain : nrl_decision r ≠ NetGray →
    nrl_gray_target r = None ∧ nrl_timeout_ms r = None ∧ nrl_concurrency_limit r = None ∧ nrl_fallback r = None;
  nw_not_self : nrl_gray_target r ≠ Some owner;
  nw_granted : ∃ g, g ∈ grants ∧ net_covers g r;
}.

Lemma covers_spec g s : RemoteScope.covers (SelectorScope g) s = true → ∀ a, in_selector s a → in_selector g a.
Proof.
  destruct g as [b|ip]; cbn; intros ->%bool_decide_eq_true a; [done|]. destruct s; cbn; [by intros ->|done].
Qed.
Lemma draft_grant_Ok grants draft s :
  NetValidator.draft_grant grants draft s = Ok () →
  ∃ g, g ∈ grants ∧ ng_decision g = nd_decision draft ∧ RemoteScope.covers (ng_remote_scope g) s = true.
Proof.
  unfold NetValidator.draft_grant. destruct (existsb _ _) eqn:E; [|done]. intros _.
  apply existsb_exists in E as (g & Hg & [Hd%bool_decide_eq_true Hc]%andb_true_iff).
  exists g. split; [by apply list_elem_of_In|done].
Qed.
Lemma shape_Ok draft s :
  NetValidator.shape draft = Ok s →
  nd_decision draft ≠ NetDefault ∧
  (nd_decision draft = NetGray → is_Some (nd_gray_target draft) ∧ is_Some (nd_timeout_ms draft) ∧
     is_Some (nd_concurrency_limit draft) ∧ is_Some (nd_fallback draft)) ∧
  (nd_decision draft ≠ NetGray → nd_gray_target draft = None ∧ nd_timeout_ms draft = None ∧
     nd_concurrency_limit draft = None ∧ nd_fallback draft = None).
Proof.
  unfold NetValidator.shape. case_bool_decide as Hd; [done|]. case_bool_decide as Hg; cbn [negb andb].
  - destruct (nd_gray_target draft); [destruct (trim_is_empty _); [done|]|done].
    destruct (nd_timeout_ms draft); [|done]. destruct (NetValidator.none_or_zero _); [done|].
    destruct (nd_concurrency_limit draft); [|done]. destruct (NetValidator.none_or_zero _); [done|].
    destruct (nd_fallback draft); [|done]. intros _. splits; [done|intros _; by splits|done].
  - destruct (nd_gray_target draft), (nd_timeout_ms draft), (nd_concurrency_limit draft), (nd_fallback draft);
      try done.
Qed.
Lemma check_gray_net owner draft :
  check_gray owner draft = Ok () → nd_decision draft = NetGray → nd_gray_target draft ≠ Some owner.
Proof.
  unfold check_gray. intros Hc Hg E. rewrite bool_decide_true in Hc by done. rewrite E in Hc. cbn in Hc.
  by rewrite bool_decide_true in Hc.
Qed.

Section items.
Context (owner : string) (grants : list NetworkPolicyRulesApplyGrant) (rev : Z).

Definition net_same (s s' : NetworkPolicyStore) : Prop :=
  ns_revision s' = ns_revision s ∧ ns_by_owner s' = ns_by_owner s.
Definition net_effect (rules rules' : gmap string StoredNetworkRule) : Prop :=
  (∃ id, rules' = delete id rules) ∨ (∃ id r, net_written owner grants rev id r ∧ rules' = <[id := r]> rules).

Lemma net_bump_sequence st r st' : bump_sequence st = (r, st') → net_same st.1 st'.1 ∧ st'.2 = st.2.
Proof. unfold bump_sequence. destruct st as [s rules]. destruct (checked_add_u64 _ _); by intros [= <- <-]. Qed.
Lemma net_bump_rule_id st r st' : bump_rule_id st = (r, st') → net_same st.1 st'.1 ∧ st'.2 = st.2.
Proof. unfold bump_rule_id. destruct st as [s rules]. destruct (checked_add_u64 _ _); by intros [= <- <-]. Qed.
Lemma net_lift_inv {S E A} (m : result E A) (s s' : S) r : st_lift m s = (r, s') → m = r ∧ s' = s.
Proof. unfold st_lift. by intros [= -> ->]. Qed.

Lemma from_draft_net draft item_id remote seq gen r :
  NetRule.from_draft owner item_id draft remote rev seq gen = Ok r →
  NetValidator.shape draft = Ok remote → NetValidator.draft_grant grants draft remote = Ok () →
  check_gray owner draft = Ok () → net_written owner grants rev (nrl_rule_id r) r.
Proof.
  unfold NetRule.from_draft. intros ([] & _ & [= <-])%result_bind_inv (Hd & Hg & Hp)%shape_Ok Hgr Hcg.
  split; cbn [nrl_rule_id nrl_owner_instance_id nrl_rule_revision nrl_decision nrl_gray_target nrl_timeout_ms
                nrl_concurrency_limit nrl_fallback nrl_remote]; try done.
  - intros E. destruct (Hg E) as (? & ? & ? & [v ->]). splits; try done; by eexists.
  - intros E. by destruct (Hp E) as (? & ? & ? & ->).
  - destruct (decide (nd_decision draft = NetGray)) as [E|E]; [by apply check_gray_net|].
    destruct (Hp E) as (-> & _). done.
  - apply draft_grant_Ok in Hgr as (g & Hin & Hde & Hc). exists g. split; [done|]. split; [done|].
    destruct (ng_remote_scope g); [done|]. by apply covers_spec.
Qed.
Lemma net_upsert_Ok item st st' :
  upsert_item owner item rev grants st = (Ok (), st') → net_same st.1 st'.1 ∧ net_effect st.2 st'.2.
Proof.
  unfold upsert_item.
  intros [(draft & ? & [Hdraft ->]%net_lift_inv & H)|(? & _ & [=])]%st_bind_inv.
  apply st_bind_inv in H as [([] & ? & [_ ->]%net_lift_inv & H)|(? & _ & [=])].
  apply st_bind_inv in H as [(remote & ? & [Hshape ->]%net_lift_inv & H)|(? & _ & [=])].
  apply st_bind_inv in H as [([] & ? & [Hgrant ->]%net_lift_inv & H)|(? & _ & [=])].
  apply st_bind_inv in H as [([] & ? & [Hgray ->]%net_lift_inv & H)|(? & _ & [=])].
  apply st_bind_inv in H as [(seq & st1 & [Hs1 Hr1]%net_bump_sequence & H)|(? & _ & [=])].
  apply st_bind_inv in H as [([s1 rules1] & st2 & Hget & H)|(? & _ & [=])].
  injection Hget as Est1 Est2. subst st1 st2.
  apply st_bind_inv in H as [(rule & ? & [Hrule ->]%net_lift_inv & H)|(? & _ & [=])].
  apply st_bind_inv in H as [([] & st3 & Hid & H)|(? & _ & [=])].
  assert (net_same s1 st3.1 ∧ st3.2 = rules1) as [Hs3 Hr3].
  { destruct (ni_rule_id item), (nd_rule_id draft); try (injection Hid as <-; by split); by apply net_bump_rule_id in Hid. }
  apply st_bind_inv in H as [([s3 rules3] & ? & Hget & H)|(? & _ & [=])].
  injection Hget as E3 <-. subst st3. injection H as <-. cbn [fst snd] in *. subst rules1 rules3.
  destruct Hs1 as [E1 E2], Hs3 as [E3 E4]. split; [split; congruence|].
  right. exists (nrl_rule_id rule), rule. split; [|done]. by eapply from_draft_net.
Qed.
Lemma net_apply_item_Ok item st st' :
  apply_item owner item rev grants st = (Ok (), st') → net_same st.1 st'.1 ∧ net_effect st.2 st'.2.
Proof.
  unfold apply_item. destruct (ni_op item); [apply net_upsert_Ok|].
  unfold delete_item. destruct st as [s rules]. destruct (ni_rule item), (ni_rule_id item) as [id|]; try done.
  destruct (rules !! id); [|done]. intros [= <-]. split; [done|]. left. by exists id.
Qed.
Definition net_only_written (rules rules' : gmap string StoredNetworkRule) : Prop :=
  ∀ id r, rules' !! id = Some r → rules !! id = Some r ∨ net_written owner grants rev id r.
Lemma net_apply_items_Ok index items st st' :
  apply_items owner rev grants index items st = ([], st') → net_same st.1 st'.1 ∧ net_only_written st.2 st'.2.
Proof.
  revert index st. induction items as [|item items IH]; intros index st; cbn [apply_items].
  { intros [= <-]. split; [done|]. by left. }
  destruct (apply_item _ _ _ _ _) as [r st1] eqn:Ei. destruct (apply_items _ _ _ _ _ _) as [errors st2] eqn:Es.
  destruct r as [[]|]; [|done]. intros [= -> <-]. apply net_apply_item_Ok in Ei as [[E1 E2] He].
  destruct (IH _ _ Es) as [[E3 E4] Hw]. split; [split; congruence|].
  intros id r [Hr|Hr]%Hw; [|by right]. destruct He as [[id' E]|(id' & r' & Hwr & E)]; rewrite E in Hr.
  - left. by apply lookup_delete_Some in Hr as [_ ?].
  - apply lookup_insert_Some in Hr as [[<- <-]|[_ ?]]; [by right|by left].
Qed.
End items.

(** What an accepted update leaves. *)
Record net_updated (owner : string) (grants : list NetworkPolicyRulesApplyGrant) (s c : NetworkPolicyStore) : Prop := {
  nu_owner : owner ≠ NET_STATIC_OWNER;
  nu_revision : ns_revision c = ns_revision s + 1;
  nu_bound : ns_revision c ≤ u64_max;
  nu_others : ∀ o, o ≠ owner → ns_by_owner c !! o = ns_by_owner s !! o;
  nu_written : net_only_written owner grants (ns_revision c) (default ∅ (ns_by_owner s !! owner)) (default ∅ (ns_by_owner c !! owner));
  nu_ips : index_ips (all_rules c) ∅ = Ok (ns_effective_by_ip c);
  nu_endpoints : index_endpoints (ns_effective_by_ip c) (all_rules c) ∅ = Ok (ns_effective_by_endpoint c);
}.
Lemma net_candidate_Ok owner grants request s c :
  candidate_after owner grants request s = Ok c →
  nq_base_revision request = ns_revision s ∧ net_updated owner grants s c.
Proof.
  unfold candidate_after. destruct (NetValidator.request _ _ _) eqn:Ev; [|done].
  destruct (checked_add_u64 _ _) as [v|] eqn:Erev; [|done]. apply checked_add_u64_Some in Erev as [-> Hmax].
  destruct (apply_items _ _ _ _ _ _) as [[|] [cand rules']] eqn:Ei; [|done].
  destruct (NetRules.owner_rules owner rules'); [|done]. set (owners := if decide (rules' = ∅) then _ else _).
  destruct (NetRules.unique_remotes _); [|done].
  destruct (rebuild_effective _) as [[[]|] c'] eqn:Er; [|done]. intros [= ->].
  apply net_apply_items_Ok in Ei as [[E1 E2] Hw]. cbn [fst snd ns_revision set_owners ns_by_owner] in *.
  apply rebuild_Ok in Er as (R1 & R2 & R3 & R4). cbn in R1, R2.
  unfold NetValidator.request in Ev. apply app_eq_nil in Ev as [V1 Ev]. apply app_eq_nil in Ev as [V2 _].
  assert (owner ≠ NET_STATIC_OWNER) as Hown.
  { intros ->. rewrite bool_decide_true, orb_true_r in V1 by done. done. }
  split.
  { destruct (Z.eqb_spec (nq_base_revision request) (ns_revision s)); [done|]. cbn in V2. done. }
  assert (∀ o, o ≠ owner → owners !! o = ns_by_owner s !! o) as Hoth.
  { intros o Ho. subst owners. rewrite E2. case_decide; [by rewrite lookup_delete_ne|].
    by rewrite lookup_insert_ne, lookup_delete_ne. }
  assert (default ∅ (owners !! owner) = rules') as Hrules.
  { subst owners. rewrite E2. case_decide as Hemp; [by rewrite lookup_delete_eq, Hemp|]. by rewrite lookup_insert_eq. }
  split; [done|lia|lia| | |done|done].
  - intros o Ho. by rewrite R1, Hoth.
  - by rewrite R1, R2, Hrules.
Qed.
Lemma net_candidate_Err owner grants request s es : candidate_after owner grants request s = Err es → es ≠ [].
Proof.
  unfold candidate_after. destruct (NetValidator.request _ _ _); [|by intros [= <-]].
  destruct (checked_add_u64 _ _); [|by intros [= <-]].
  destruct (apply_items _ _ _ _ _ _) as [[|] [cand rules']]; [|by intros [= <-]].
  destruct (NetRules.owner_rules _ _); [|by intros [= <-]].
  destruct (NetRules.unique_remotes _); [|by intros [= <-]].
  destruct (rebuild_effective _) as [[]]; by intros [= <-].
Qed.
Lemma net_updated_inv owner grants s c : net_inv s → net_updated owner grants s c → net_inv c.
Proof.
  intros Hi Hu. split; [|apply Hu|apply Hu]. intros o rs id r Ho Hid. destruct (decide (o = owner)) as [-> |Hne].
  - destruct (nu_written _ _ _ _ Hu id r) as [Hr|Hw]; [by rewrite Ho| |by split; apply Hw].
    destruct (ns_by_owner s !! owner) as [rs0|] eqn:E0; cbn in Hr; [|by rewrite lookup_empty in Hr].
    by apply (ninv_keys s Hi owner rs0).
  - rewrite (nu_others _ _ _ _ Hu) in Ho by done. by apply (ninv_keys s Hi o rs).
Qed.
End NetUpdateFacts.

(** * The store over its lifetime *)

Module NetPolicyFacts.
Import NStore NetStoreFacts NetUpdateFacts.

Definition net_static_keys (rules : gmap string StoredNetworkRule) : Prop :=
  ∀ id r, rules !! id = Some r → nrl_owner_instance_id r = NET_STATIC_OWNER ∧ nrl_rule_id r = id.
Lemma net_parse_owner line seq r : NetParser.parse line seq = Ok r → nrl_owner_instance_id r = NET_STATIC_OWNER.
Proof.
  unfold NetParser.parse. repeat case_match; try done.
  all: intros ([] & _ & H')%result_bind_inv; apply result_bind_inv in H' as (? & _ & H');
    apply result_bind_inv in H' as (? & _ & H').
  - by injection H' as <-.
  - apply result_bind_inv in H' as (? & _ & H'). apply result_bind_inv in H' as (? & _ & H'). by injection H' as <-.
Qed.
Lemma net_load_lines_keys path index ls seq rules seq' rules' :
  net_static_keys rules → load_lines path index ls seq rules = Ok (seq', rules') → net_static_keys rules'.
Proof.
  revert index seq rules. induction ls as [|l ls IH]; intros index seq rules Hk; cbn [load_lines].
  { by intros [= _ <-]. }
  destruct (bool_decide _ || _); [by apply IH|].
  intros (seq1 & _ & H)%result_bind_inv. apply result_bind_inv in H as (r & Hr & H).
  destruct (rules !! nrl_rule_id r); [done|]. revert H. apply IH.
  intros id r' [[<- <-]|[_ ?]]%lookup_insert_Some; [|by apply Hk]. split; [|done].
  destruct (NetParser.parse (trim l) seq1) as [r''|] eqn:Ep; [|done]. injection Hr as ->. by apply net_parse_owner in Ep.
Qed.
Lemma net_empty_inv seq : net_inv (set_sequence seq empty).
Proof. split; [intros o rs id r; cbn; by rewrite lookup_empty|done|done]. Qed.
Lemma net_load_inv path file s : load path file = Ok s → net_inv s ∧ 0 ≤ ns_revision s.
Proof.
  unfold load. intros (raw & _ & H)%result_bind_inv. apply result_bind_inv in H as ([seq rules] & Hl & H).
  apply result_bind_inv in H as ([] & _ & H). apply result_bind_inv in H as ([] & _ & H).
  apply net_load_lines_keys in Hl; [|by intros ??; rewrite lookup_empty].
  destruct (decide (rules = ∅)); [injection H as <-; split; [apply net_empty_inv|done]|].
  destruct (rebuild_effective _) as [[[]|e] s'] eqn:Er; [|done]. injection H as <-.
  apply rebuild_Ok in Er as (E1 & E2 & E3 & E4). cbn in E1, E2. split; [|by rewrite E2]. split; [|done|done].
  intros o rs id r. rewrite E1. intros [<- <-]%lookup_singleton_Some. rewrite lookup_fmap.
  intros (r0 & Hr0 & ->)%fmap_Some. by apply Hl in Hr0.
Qed.

(** The calls that change a store. *)
Inductive net_step : NetworkPolicyStore → NetworkPolicyStore → Prop :=
| net_step_apply owner grants request s : net_step s (apply owner grants request s).2
| net_step_remove owner s : net_step s (remove_owner owner s).2.
Definition net_reachable (s : NetworkPolicyStore) : Prop :=
  ∃ path file s0, load path file = Ok s0 ∧ rtc net_step s0 s.

Lemma net_apply_cases owner grants request s res s' :
  apply owner grants request s = (res, s') →
  (nr_status res = NetRejected ∧ nr_errors res ≠ [] ∧ s' = s) ∨
  (nr_status res = NetAccepted ∧ nr_new_revision res = ns_revision s' ∧
   nq_base_revision request = ns_revision s ∧ net_updated owner grants s s').
Proof.
  unfold apply. destruct (candidate_after _ _ _ _) as [c|es] eqn:Ec; intros [= <- <-].
  - right. apply net_candidate_Ok in Ec as [??]. done.
  - left. apply net_candidate_Err in Ec. done.
Qed.
Lemma net_remove_revision owner s : ns_revision s ≤ ns_revision (remove_owner owner s).2.
Proof.
  unfold remove_owner. case_bool_decide; [done|]. destruct (ns_by_owner s !! owner); [|done].
  unfold mbind, st_bind. unfold bump_revision at 1, checked_add_u64. cbn [ns_revision set_owners].
  destruct (decide _); [|done]. set (s1 := set_revision _ _).
  destruct (rebuild_effective s1) as [[[]|] s2] eqn:Er; cbn [snd].
  - apply rebuild_Ok in Er as (_ & E & _). subst s1. cbn in *. rewrite E. lia.
  - unfold rebuild_effective in Er. repeat case_match; simplify_eq; cbn; lia.
Qed.
Lemma net_step_inv s s' :
  net_step s s' → (ns_revision s < u64_max → net_inv s) →
  ns_revision s ≤ ns_revision s' ∧ (ns_revision s' < u64_max → net_inv s').
Proof.
  intros Hstep Hi. destruct Hstep as [owner grants request s|owner s].
  - destruct (apply _ _ _ _) as [res s'] eqn:Ea. cbn [snd].
    apply net_apply_cases in Ea as [(_ & _ & ->)|(_ & _ & _ & Hu)]; [done|].
    pose proof (nu_revision _ _ _ _ Hu). split; [lia|]. intros Hlt. apply (net_updated_inv owner grants s); [apply Hi; lia|done].
  - pose proof (net_remove_revision owner s) as Hr. split; [done|]. intros Hlt.
    assert (net_inv s) as Hs by (apply Hi; lia).
    destruct (decide (owner = NET_STATIC_OWNER)) as [-> |Hne]; [unfold remove_owner; by rewrite bool_decide_true|].
    destruct (ns_by_owner s !! owner) as [rs|] eqn:Eo.
    + destruct (remove_keeps_inv owner s Hs Hne) as (s' & -> & H' & _); [by eexists|lia|done].
    + unfold remove_owner. rewrite bool_decide_false by done. by rewrite Eo.
Qed.
Lemma net_reachable_inv s : net_reachable s → ns_revision s < u64_max → net_inv s.
Proof.
  intros (path & file & s0 & [Hi _]%net_load_inv & Hsteps). assert (ns_revision s0 < u64_max → net_inv s0) as H0 by done.
  clear Hi. revert H0. induction Hsteps as [s|s1 s2 s3 Hstep _ IH]; [done|]. intros H0. apply IH.
  by apply (net_step_inv s1 s2).
Qed.

(** C5: Which rule decides about a connection.  After any updates and removals on a
    loaded store (whose revision counter has not run out), [find] answers with a rule
    exactly when it is stored for that endpoint, or for any port of its address while
    none is stored for the endpoint; rules that apply to the same connection belong to one
    owner, no remote has two rules, and removing a plugin succeeds, raises the revision and
    leaves exactly the other owners' rules to decide. *)
Theorem net_find_decides s a :
  net_reachable s → ns_revision s < u64_max →
  (∀ r, NStore.find a s = Some r ↔ decides s a r) ∧
  (∀ r r', net_stored s r → net_stored s r' → in_selector (nrl_remote r) a → in_selector (nrl_remote r') a →
     nrl_owner_instance_id r = nrl_owner_instance_id r' ∧ (nrl_remote r = nrl_remote r' → r = r')) ∧
  (∀ owner, owner ≠ NET_STATIC_OWNER → is_Some (ns_by_owner s !! owner) →
     ∃ s', remove_owner owner s = (Ok true, s') ∧ ns_revision s' = ns_revision s + 1 ∧
       ∀ r, net_stored s' r ↔ net_stored s r ∧ nrl_owner_instance_id r ≠ owner).
Proof.
  intros Hr Hlt. pose proof (net_reachable_inv s Hr Hlt) as Hi. splits.
  - intros r. by apply net_find_iff.
  - intros r r' Hs Hs' Ha Ha'.
    assert (clash r r' → r = r') as Hc by (apply (distinct_elem (all_rules s)); [by apply net_inv_distinct|by apply net_stored_all..]).
    split; [|intros E; apply Hc; by left].
    destruct (decide (nrl_owner_instance_id r = nrl_owner_instance_id r')) as [|Hne]; [done|].
    rewrite Hc; [done|]. destruct (nrl_remote r) as [b|ip] eqn:E1, (nrl_remote r') as [b'|ip'] eqn:E2; cbn in Ha, Ha'.
    + left. congruence.
    + right. rewrite E1, E2. cbn. splits; [congruence|by exists ip'; right|done].
    + right. rewrite E1, E2. cbn. splits; [congruence|by exists ip; left|done].
    + left. congruence.
  - intros owner Hne Ho. destruct (remove_keeps_inv owner s Hi Hne Ho Hlt) as (s' & E & _ & Hrev & Hown).
    exists s'. splits; [done|done|]. intros r. unfold net_stored. rewrite Hown. split.
    + intros (o & rs & id & [Hno Hl]%lookup_delete_Some & Hid). split; [by exists o, rs, id|].
      by destruct (ninv_keys s Hi o rs id r Hl Hid) as [-> _].
    + intros [(o & rs & id & Hl & Hid) Hno]. destruct (ninv_keys s Hi o rs id r Hl Hid) as [Eo _].
      exists o, rs, id. split; [|done]. rewrite lookup_delete_ne by congruence. done.
Qed.

(** C21: Updates stay within the caller's grants and are atomic.  A rejected [apply]
    names an error and changes nothing; an accepted one was made against the current
    revision, raises it by one, leaves all other owners (so the rules file) as they were,
    and each rule of the owner was there before or was written with a decision of its own,
    complete gray settings exactly when gray, never targeting the owner, under a grant
    that has the same decision and admits every connection the rule is about.  The dry run
    answers as [apply] does. *)
Theorem net_apply_within_grants owner grants request s res s' :
  apply owner grants request s = (res, s') →
  (nr_status res = NetRejected → nr_errors res ≠ [] ∧ s' = s) ∧
  (nr_status res = NetAccepted →
     owner ≠ NET_STATIC_OWNER ∧ nq_base_revision request = ns_revision s ∧ ns_revision s' = ns_revision s + 1 ∧
     (∀ o, o ≠ owner → ns_by_owner s' !! o = ns_by_owner s !! o) ∧
     (∀ id r, default ∅ (ns_by_owner s' !! owner) !! id = Some r →
        default ∅ (ns_by_owner s !! owner) !! id = Some r ∨ net_written owner grants (ns_revision s') id r)) ∧
  nr_status (validate_apply owner grants request s) = nr_status res.
Proof.
  intros Ha. splits.
  - apply net_apply_cases in Ha as [(_ & ? & ?)|(-> & _)]; done.
  - apply net_apply_cases in Ha as [(-> & _)|(_ & _ & ? & Hu)]; [done|]. intros _. splits; try done; apply Hu.
  - revert Ha. unfold apply, validate_apply. destruct (candidate_after _ _ _ _); by intros [= <- _].
Qed.

(** ** A concrete run *)

Definition net_file : FileContents :=
  Contents ("# rules" +:+ String newline "deny-meta deny connect 169.254.169.254:*" +:+ String newline "").
Definition net_loaded : NetworkPolicyStore := match load "rules" net_file with Ok s => s | Err _ => empty end.
Definition net_grants : list NetworkPolicyRulesApplyGrant :=
  match Selector.parse "[2001:db8::1]:*" with Ok s => [mkNetGrant NetAllow (SelectorScope s)] | Err _ => [] end.
Definition net_request : NetworkPolicyApplyRequest :=
  mkNetRequest 1 "m1" None [mkNetItem NetUpsert None (Some (mkNetDraft None NetAllow "[2001:DB8:0::1]:443" None None None None))].
Definition net_applied : NetworkPolicyApplyResult * NetworkPolicyStore := apply "plugin-a" net_grants net_request net_loaded.
Definition net_rule : StoredNetworkRule :=
  mkNetRule "plugin-a" "network-rule-1" NetAllow (Endpoint (SocketV6 [8193; 3512; 0; 0; 0; 0; 0; 1] 443 0 0))
    None None None None 2 2.
Example net_applied_finds :
  (NStore.find (SocketV6 [8193; 3512; 0; 0; 0; 0; 0; 1] 443 0 0) net_applied.2,
   nrl_rule_id <$> NStore.find (SocketV4 (mkIpv4 169 254 169 254) 80) net_applied.2,
   NStore.find (SocketV6 [8193; 3512; 0; 0; 0; 0; 0; 1] 80 0 0) net_applied.2) = (Some net_rule, Some "deny-meta", None).
Proof. vm_compute. reflexivity. Qed.

Lemma net_reachable_applied : net_reachable net_applied.2.
Proof.
  exists "rules", net_file, net_loaded. split; [vm_compute; reflexivity|].
  apply rtc_once. apply (net_step_apply "plugin-a" net_grants net_request).
Qed.
Lemma net_find_decides_witness :
  decides net_applied.2 (SocketV6 [8193; 3512; 0; 0; 0; 0; 0; 1] 443 0 0) net_rule ∧
  ∃ s', remove_owner "plugin-a" net_applied.2 = (Ok true, s') ∧ ns_revision s' = ns_revision net_applied.2 + 1 ∧
    ∀ r, net_stored s' r ↔ net_stored net_applied.2 r ∧ nrl_owner_instance_id r ≠ "plugin-a".
Proof.
  destruct (net_find_decides net_applied.2 (SocketV6 [8193; 3512; 0; 0; 0; 0; 0; 1] 443 0 0)) as (H1 & _ & H3).
  - apply net_reachable_applied.
  - vm_compute. reflexivity.
  - split; [apply H1; vm_compute; reflexivity|]. apply H3; [done|]. vm_compute. by eexists.
Defined.
Lemma net_apply_within_grants_witness :
  default ∅ (ns_by_owner net_loaded !! "plugin-a") !! "network-rule-1" = Some net_rule ∨
  net_written "plugin-a" net_grants (ns_revision net_applied.2) "network-rule-1" net_rule.
Proof.
  destruct (net_apply_within_grants "plugin-a" net_grants net_request net_loaded net_applied.1 net_applied.2) as (_ & H & _);
    [vm_compute; reflexivity|].
  destruct H as (_ & _ & _ & _ & H); [vm_compute; reflexivity|]. apply H. vm_compute. reflexivity.
Defined.
(** A second plugin cannot put an endpoint under an address another one owns. *)
Example net_overlap_refused :
  nr_errors (apply "plugin-b" [mkNetGrant NetAllow AllRemotes]
    (mkNetRequest 1 "m" None [mkNetItem NetUpsert None (Some (mkNetDraft None NetAllow "169.254.169.254:80" None None None None))])
    net_loaded).1 =
  [mkNetError 0 "endpoint-conflict" "network remote 169.254.169.254:80 overlaps 169.254.169.254:* owned by actrail.static"].
Proof. vm_compute. reflexivity. Qed.
(** With the revision counter at its maximum the rules are gone and still decide. *)
Example net_remove_owner_overflow :
  let r := mkNetRule "p" "x" NetDeny (AnyPort (IpV4 (mkIpv4 1 2 3 4))) None None None None 1 1 in
  let s := (rebuild_effective (mkNetStore u64_max 1 1 {["p" := {["x" := r]}]} ∅ ∅)).2 in
  let s' := (remove_owner "p" s).2 in
  (remove_owner "p" s).1 = Err "network policy revision overflow" ∧ ns_by_owner s' !! "p" = None ∧
  NStore.find (SocketV4 (mkIpv4 1 2 3 4) 80) s' = Some r.
Proof. vm_compute. done. Qed.
End NetPolicyFacts.
