(* ===== verification/Idle.v ===== *)
(** Detection of stalled agents: the lifecycle events of
    crates/contracts/agent_lifecycle/src/model.rs, the execution states of
    crates/adapters/agent_host/src/execution.rs and the detector of
    crates/core/idle_detector/src.

    The two clocks of the host are an argument of every call.  A [HashMap] is a [gmap];
    its iteration order is unspecified, so the theorems speak of which alerts a scan
    raises, not of their order. *)
From stdpp Require Import prelude gmap strings pretty.
From Stdlib Require Import ZArith Lia.
From S2P Require Import Prelude Wire PolicyPath CommandText.

Open Scope Z_scope.

(** [Instant::now()] and [SystemTime::now()], in nanoseconds; [SystemTime] from the
    Unix epoch. *)
Record Clock := mkClock { ck_instant : Z; ck_system : Z }.

(** [Instant::checked_add] and [SystemTime::checked_add]: seconds are an [i64]. *)
Definition clock_max : Z := 2 ^ 63 * 1000000000 - 1.
Definition checked_add_time (t d : Z) : option Z :=
  if t + d <=? clock_max then Some (t + d) else None.
(** [Instant::saturating_duration_since]. *)
Definition saturating_since (now earlier : Z) : Z := Z.max 0 (now - earlier).

(** * The lifecycle contract *)

Inductive TurnLifecycleKind := TurnStarted | TurnCompleted.
Inductive UserInteractionState := Requested | Resolved.
Inductive WorkKind := WorkModel | WorkTool.
Inductive WorkState := WorkStarted | WorkCompleted.
#[export] Instance turn_kind_eq_dec : EqDecision TurnLifecycleKind.
Proof. solve_decision. Defined.
#[export] Instance interaction_eq_dec : EqDecision UserInteractionState.
Proof. solve_decision. Defined.
#[export] Instance work_kind_eq_dec : EqDecision WorkKind.
Proof. solve_decision. Defined.
#[export] Instance work_state_eq_dec : EqDecision WorkState.
Proof. solve_decision. Defined.

Record TurnLifecycleEvent := mkTurn {
  tu_trace_id : Z; tu_session_id : string; tu_task_id : string;
  tu_kind : TurnLifecycleKind; tu_observed_at : Z }.
Record UserInteractionEvent := mkInteraction {
  in_trace_id : Z; in_session_id : string; in_task_id : string; in_interaction_id : string;
  in_state : UserInteractionState; in_observed_at : Z }.
Record SessionClosedEvent := mkSessionClosed {
  sc_trace_id : Z; sc_session_id : string; sc_observed_at : Z }.
Record WorkLifecycleEvent := mkWork {
  wo_trace_id : Z; wo_session_id : string; wo_task_id : string;
  wo_kind : WorkKind; wo_state : WorkState; wo_observed_at : Z }.
Inductive UserLifecycleEvent :=
| Turn (e : TurnLifecycleEvent)
| Work (e : WorkLifecycleEvent)
| Interaction (e : UserInteractionEvent)
| SessionClosed (e : SessionClosedEvent).

Module AgentEvents.
(** The names the events travel under. *)
Definition turn_as_str (k : TurnLifecycleKind) : string :=
  match k with TurnStarted => "started" | TurnCompleted => "completed" end.
Definition turn_parse (value : string) : option TurnLifecycleKind :=
  str_match [("started", TurnStarted); ("completed", TurnCompleted)] value.
Definition interaction_as_str (s : UserInteractionState) : string :=
  match s with Requested => "requested" | Resolved => "resolved" end.
Definition interaction_parse (value : string) : option UserInteractionState :=
  str_match [("requested", Requested); ("resolved", Resolved)] value.
Definition work_kind_as_str (k : WorkKind) : string :=
  match k with WorkModel => "model" | WorkTool => "tool" end.
Definition work_kind_parse (value : string) : option WorkKind :=
  str_match [("model", WorkModel); ("tool", WorkTool)] value.
Definition work_state_as_str (s : WorkState) : string :=
  match s with WorkStarted => "started" | WorkCompleted => "completed" end.
Definition work_state_parse (value : string) : option WorkState :=
  str_match [("started", WorkStarted); ("completed", WorkCompleted)] value.

(** The checks the events share. *)
Definition check_text (name value : string) : result string () :=
  if trim_is_empty value then Err (name +:+ " must not be empty") else Ok ().
Definition check_time (observed_at : Z) : result string () :=
  if observed_at <? 0 then Err "observed_at must not precede the unix epoch" else Ok ().

Definition validate_turn (e : TurnLifecycleEvent) : result string () :=
  _ ← check_text "session_id" (tu_session_id e);
  _ ← check_text "task_id" (tu_task_id e);
  check_time (tu_observed_at e).
Definition validate_interaction (e : UserInteractionEvent) : result string () :=
  _ ← check_text "session_id" (in_session_id e);
  _ ← check_text "task_id" (in_task_id e);
  _ ← check_text "interaction_id" (in_interaction_id e);
  check_time (in_observed_at e).
Definition validate_closed (e : SessionClosedEvent) : result string () :=
  _ ← check_text "session_id" (sc_session_id e);
  check_time (sc_observed_at e).
Definition validate_work (e : WorkLifecycleEvent) : result string () :=
  _ ← check_text "session_id" (wo_session_id e);
  _ ← check_text "task_id" (wo_task_id e);
  check_time (wo_observed_at e).
Definition validate (e : UserLifecycleEvent) : result string () :=
  match e with
  | Turn e => validate_turn e
  | Work e => validate_work e
  | Interaction e => validate_interaction e
  | SessionClosed e => validate_closed e
  end.

Definition trace_id (e : UserLifecycleEvent) : Z :=
  match e with
  | Turn e => tu_trace_id e | Work e => wo_trace_id e
  | Interaction e => in_trace_id e | SessionClosed e => sc_trace_id e
  end.
Definition session_id (e : UserLifecycleEvent) : string :=
  match e with
  | Turn e => tu_session_id e | Work e => wo_session_id e
  | Interaction e => in_session_id e | SessionClosed e => sc_session_id e
  end.
Definition observed_at (e : UserLifecycleEvent) : Z :=
  match e with
  | Turn e => tu_observed_at e | Work e => wo_observed_at e
  | Interaction e => in_observed_at e | SessionClosed e => sc_observed_at e
  end.
End AgentEvents.

(** * Execution states (execution.rs) *)

Record ExecutionKey := mkKey { ek_trace_id : Z; ek_session_id : string; ek_task_id : string }.
#[export] Instance execution_key_eq_dec : EqDecision ExecutionKey.
Proof. solve_decision. Defined.
#[export] Instance execution_key_countable : Countable ExecutionKey.
Proof.
  apply (inj_countable' (λ k, (ek_trace_id k, ek_session_id k, ek_task_id k))
    (λ p, mkKey p.1.1 p.1.2 p.2)). by intros [].
Defined.

Record ExecutionState := mkExecution {
  ex_models : Z;                         (* u32 *)
  ex_tools : Z;
  ex_users : Z;
  ex_unknown : bool;
  ex_candidate_since : option (Z * Z);   (* Instant, SystemTime *)
}.
Record ExecutionStates := mkExecutions {
  es_enabled : bool;
  es_executions : gmap ExecutionKey ExecutionState;
}.

Module Execution.
Definition now_pair (c : Clock) : Z * Z := (ck_instant c, ck_system c).
(** [ExecutionState::new]. *)
Definition new_state (c : Clock) : ExecutionState := mkExecution 0 0 0 false (Some (now_pair c)).

(** [checked_add(1)] and [checked_sub(1)] on [u32]. *)
Definition count (counter : Z) (started : bool) : option Z :=
  if started then (if counter + 1 <=? u32_max then Some (counter + 1) else None)
  else (if 1 <=? counter then Some (counter - 1) else None).

(** [ExecutionState::update]. *)
Definition inconsistent : string :=
  "agent execution counter is inconsistent; monitoring suspended for this task".
Definition update (c : Clock) (kind : option WorkKind) (started : bool) (st : ExecutionState)
    : result string () * ExecutionState :=
  if ex_unknown st then (Ok (), st)
  else
    let counter := match kind with
                   | Some WorkModel => ex_models st
                   | Some WorkTool => ex_tools st
                   | None => ex_users st
                   end in
    match count counter started with
    | None => (Err inconsistent, mkExecution (ex_models st) (ex_tools st) (ex_users st) true None)
    | Some next =>
        let models := match kind with Some WorkModel => next | _ => ex_models st end in
        let tools := match kind with Some WorkTool => next | _ => ex_tools st end in
        let users := match kind with None => next | _ => ex_users st end in
        (Ok (), mkExecution models tools users (ex_unknown st)
                  (if (models =? 0) && (tools =? 0) && (users =? 0)
                   then Some (now_pair c) else None))
    end.

Definition new (enabled : bool) : ExecutionStates := mkExecutions enabled ∅.
Definition set_executions (s : ExecutionStates) (m : gmap ExecutionKey ExecutionState)
    : ExecutionStates := mkExecutions (es_enabled s) m.

Definition update_at (c : Clock) (key : ExecutionKey) (kind : option WorkKind) (started : bool)
    : ST ExecutionStates string () := λ s,
  match es_executions s !! key with
  | None => (Ok (), s)
  | Some st =>
      let '(r, st') := update c kind started st in
      (r, set_executions s (<[key := st']> (es_executions s)))
  end.

(** [observe]. *)
Definition observe (c : Clock) (event : UserLifecycleEvent) : ST ExecutionStates string () := λ s,
  if negb (es_enabled s) then (Ok (), s)
  else
    match AgentEvents.validate event with
    | Err e => (Err e, s)
    | Ok _ =>
        match event with
        | Turn e =>
            let key := mkKey (tu_trace_id e) (tu_session_id e) (tu_task_id e) in
            match tu_kind e with
            | TurnStarted =>
                match es_executions s !! key with
                | Some _ => (Ok (), s)
                | None => (Ok (), set_executions s (<[key := new_state c]> (es_executions s)))
                end
            | TurnCompleted => (Ok (), set_executions s (delete key (es_executions s)))
            end
        | Work e =>
            update_at c (mkKey (wo_trace_id e) (wo_session_id e) (wo_task_id e)) (Some (wo_kind e))
              (bool_decide (wo_state e = WorkStarted)) s
        | Interaction e =>
            update_at c (mkKey (in_trace_id e) (in_session_id e) (in_task_id e)) None
              (bool_decide (in_state e = Requested)) s
        | SessionClosed e =>
            (Ok (), set_executions s
               (filter (λ p, ek_trace_id p.1 ≠ sc_trace_id e ∨ ek_session_id p.1 ≠ sc_session_id e)
                  (es_executions s)))
        end
    end.

Definition finish_trace (trace_id : Z) (s : ExecutionStates) : ExecutionStates :=
  if es_enabled s
  then set_executions s (filter (λ p, ek_trace_id p.1 ≠ trace_id) (es_executions s)) else s.
End Execution.

(** * The detector (runtime.rs, config.rs) *)

Record IdleDetectionConfig := mkIdleConfig {
  ic_enabled : bool;
  ic_threshold : Z;
  ic_poll_interval : Z;
}.
Record Episode := mkEpisode { ep_since : Z; ep_started_at : Z }.
Record IdleDetector := mkDetector {
  id_config : IdleDetectionConfig;
  id_next_poll : Z;
  id_active : gmap ExecutionKey Episode;
}.
(** An alert before it is rendered as JSON. *)
Record IdleAlert := mkIdleAlert {
  ia_key : ExecutionKey;
  ia_started : Z;
  ia_observed : Z;
  ia_threshold : Z;
  ia_recovered : bool;
}.
#[export] Instance idle_alert_eq_dec : EqDecision IdleAlert.
Proof. solve_decision. Defined.

Module Detector.
(** [IdleDetectionConfig::default] and [validate]. *)
Definition default_config : IdleDetectionConfig := mkIdleConfig false (30 * 10 ^ 9) (2 * 10 ^ 9).
Definition check_duration (c : Clock) (d : Z) : result string () :=
  if d =? 0 then Err "idle detection threshold and poll interval must be nonzero"
  else match checked_add_time (ck_instant c) d, checked_add_time (ck_system c) d with
       | Some _, Some _ => Ok ()
       | _, _ => Err "idle detection duration exceeds clock range"
       end.
Definition validate (c : Clock) (config : IdleDetectionConfig) : result string () :=
  _ ← check_duration c (ic_threshold config); check_duration c (ic_poll_interval config).

Definition new (c : Clock) (config : IdleDetectionConfig) : result string IdleDetector :=
  _ ← validate c config;
  next_poll ← ok_or "idle detection clock overflow"
                (checked_add_time (ck_instant c) (ic_poll_interval config));
  Ok (mkDetector config next_poll ∅).

Definition poll_timeout (c : Clock) (d : IdleDetector) : option Z :=
  if ic_enabled (id_config d) then Some (saturating_since (id_next_poll d) (ck_instant c)) else None.

(** The test of the [retain] closure. *)
Definition continuing (executions : ExecutionStates) (key : ExecutionKey) (e : Episode) : bool :=
  match es_executions executions !! key with
  | Some st => ex_unknown st ||
      match ex_candidate_since st with
      | Some (since, _) => since =? ep_since e
      | None => false
      end
  | None => false
  end.

(** The loop over the executions: alerts and active episodes. *)
Definition scan_one (now : Z) (observed threshold : Z)
    (acc : list IdleAlert * gmap ExecutionKey Episode) (p : ExecutionKey * ExecutionState)
    : list IdleAlert * gmap ExecutionKey Episode :=
  let '(alerts, active) := acc in
  let '(key, st) := p in
  match ex_candidate_since st with
  | None => acc
  | Some (since, started_at) =>
      if (saturating_since now since <? threshold) || bool_decide (is_Some (active !! key)) then acc
      else (alerts ++ [mkIdleAlert key started_at observed threshold false],
            <[key := mkEpisode since started_at]> active)
  end.

(** [poll]. *)
Definition poll (c : Clock) (executions : ExecutionStates) (d : IdleDetector)
    : list IdleAlert * IdleDetector :=
  let config := id_config d in
  if negb (ic_enabled config) then ([], d)
  else if ck_instant c <? id_next_poll d then ([], d)
  else
    match checked_add_time (ck_instant c) (ic_poll_interval config) with
    | None =>
        ([], mkDetector (mkIdleConfig false (ic_threshold config) (ic_poll_interval config))
               (id_next_poll d) (id_active d))
    | Some next_poll =>
        let gone := map_to_list (filter (λ p, continuing executions p.1 p.2 = false) (id_active d)) in
        let kept := filter (λ p, continuing executions p.1 p.2 = true) (id_active d) in
        let recovered := (λ p, mkIdleAlert p.1 (ep_started_at p.2) (ck_system c)
                                 (ic_threshold config) true) <$> gone in
        let '(alerts, active) :=
          foldl (scan_one (ck_instant c) (ck_system c) (ic_threshold config)) (recovered, kept)
            (map_to_list (es_executions executions)) in
        (alerts, mkDetector config next_poll active)
    end.

Definition finish_trace (trace_id : Z) (d : IdleDetector) : IdleDetector :=
  mkDetector (id_config d) (id_next_poll d) (filter (λ p, ek_trace_id p.1 ≠ trace_id) (id_active d)).
End Detector.

(** * The system *)

(** What happens to the two components, in order, with the clocks read at that time. *)
Inductive Input :=
| Observed (e : UserLifecycleEvent)
| Finished (trace_id : Z)
| Polled.

Record Monitor := mkMonitor {
  mo_states : ExecutionStates;
  mo_detector : IdleDetector;
  mo_alerts : list IdleAlert;            (* everything raised so far *)
}.

Definition monitor_step (m : Monitor) (i : Clock * Input) : Monitor :=
  match i.2 with
  | Observed e =>
      mkMonitor (Execution.observe i.1 e (mo_states m)).2 (mo_detector m) (mo_alerts m)
  | Finished t =>
      mkMonitor (Execution.finish_trace t (mo_states m)) (Detector.finish_trace t (mo_detector m))
        (mo_alerts m)
  | Polled =>
      let '(alerts, d) := Detector.poll i.1 (mo_states m) (mo_detector m) in
      mkMonitor (mo_states m) d (mo_alerts m ++ alerts)
  end.
Definition monitor (m : Monitor) (h : list (Clock * Input)) : Monitor := foldl monitor_step m h.

(** * What the states mean *)

Module IdleFacts.
Import Execution Detector.

(** ** The history of one task *)

Inductive TaskEvent :=
| Opened
| Closed
| Worked (kind : option WorkKind) (started : bool).

(** What an input says about task [k]; invalid events say nothing. *)
Definition about (k : ExecutionKey) (i : Input) : option TaskEvent :=
  match i with
  | Polled => None
  | Finished t => if bool_decide (ek_trace_id k = t) then Some Closed else None
  | Observed ev =>
      if is_ok (AgentEvents.validate ev) then
        match ev with
        | Turn e =>
            if bool_decide (k = mkKey (tu_trace_id e) (tu_session_id e) (tu_task_id e))
            then Some (match tu_kind e with TurnStarted => Opened | TurnCompleted => Closed end)
            else None
        | Work e =>
            if bool_decide (k = mkKey (wo_trace_id e) (wo_session_id e) (wo_task_id e))
            then Some (Worked (Some (wo_kind e)) (bool_decide (wo_state e = WorkStarted))) else None
        | Interaction e =>
            if bool_decide (k = mkKey (in_trace_id e) (in_session_id e) (in_task_id e))
            then Some (Worked None (bool_decide (in_state e = Requested))) else None
        | SessionClosed e =>
            if bool_decide (ek_trace_id k = sc_trace_id e ∧ ek_session_id k = sc_session_id e)
            then Some Closed else None
        end
      else None
  end.

(** Work reported for the task: when, which kind, begun or ended. *)
Abbreviation Body := (list (Clock * (option WorkKind * bool))) (only parsing).

(** The open turn of a task after a history: when it was opened, and its work since. *)
Definition turn_step (k : ExecutionKey) (o : option (Clock * Body)) (i : Clock * Input)
    : option (Clock * Body) :=
  match about k i.2 with
  | None => o
  | Some Closed => None
  | Some Opened => Some (default (i.1, []) o)
  | Some (Worked kind started) => (λ p, (p.1, p.2 ++ [(i.1, (kind, started))])) <$> o
  end.
Definition open_turn (k : ExecutionKey) (h : list (Clock * Input)) : option (Clock * Body) :=
  foldl (turn_step k) None h.

(** Work of a kind begun and not ended. *)
Definition outstanding (kind : option WorkKind) (body : Body) : Z :=
  Z.of_nat (length (filter (λ x, x.2 = (kind, true)) body)) -
  Z.of_nat (length (filter (λ x, x.2 = (kind, false)) body)).
(** The reports make sense: never more ended than begun, and within a [u32]. *)
Definition consistent (body : Body) : Prop :=
  ∀ n kind, 0 ≤ outstanding kind (take n body) ≤ u32_max.
Definition nothing_outstanding (body : Body) : Prop := ∀ kind, outstanding kind body = 0.
(** The last time the turn showed a sign of life. *)
Definition last_report (opened : Clock) (body : Body) : Clock := default opened (fst <$> last body).

Lemma outstanding_snoc kind body c k s :
  outstanding kind (body ++ [(c, (k, s))]) =
    outstanding kind body + (if decide (k = kind) then (if s : bool then 1 else -1) else 0).
Proof.
  unfold outstanding. rewrite !filter_app, !length_app, !filter_cons, !filter_nil. cbn.
  destruct (decide (k = kind)) as [->|Hne].
  - destruct s; repeat case_decide; simplify_eq; cbn; lia.
  - repeat case_decide; simplify_eq; cbn; lia.
Qed.

Lemma consistent_snoc body x :
  consistent (body ++ [x]) ↔ consistent body ∧ ∀ kind, 0 ≤ outstanding kind (body ++ [x]) ≤ u32_max.
Proof.
  split.
  - intros H. split.
    + intros n kind. destruct (decide (n ≤ length body)%nat).
      * specialize (H n kind). by rewrite take_app_le in H.
      * rewrite take_ge by lia. specialize (H (length body) kind).
        by rewrite take_app_le, take_ge in H.
    + intros kind. specialize (H (S (length body)) kind).
      by rewrite take_ge in H by (rewrite length_app; simpl; lia).
  - intros [H1 H2] n kind. destruct (decide (n ≤ length body)%nat).
    + rewrite take_app_le by done. apply H1.
    + rewrite take_ge by (rewrite length_app; simpl; lia). apply H2.
Qed.

Lemma consistent_now body kind : consistent body → 0 ≤ outstanding kind body ≤ u32_max.
Proof. intros H. specialize (H (length body) kind). by rewrite take_ge in H. Qed.

Lemma nothing_iff body :
  nothing_outstanding body ↔ outstanding (Some WorkModel) body = 0 ∧
    outstanding (Some WorkTool) body = 0 ∧ outstanding None body = 0.
Proof. split; [intros H; by rewrite !H|]. intros (? & ? & ?) [[]|]; done. Qed.

#[local] Instance nothing_dec body : Decision (nothing_outstanding body).
Proof.
  refine (cast_if (decide (outstanding (Some WorkModel) body = 0 ∧
    outstanding (Some WorkTool) body = 0 ∧ outstanding None body = 0))); by rewrite nothing_iff.
Defined.

(** What the state of a task says about its turn. *)
Definition agrees (turn : Clock * Body) (st : ExecutionState) : Prop :=
  if ex_unknown st then ¬ consistent turn.2 ∧ ex_candidate_since st = None
  else consistent turn.2 ∧ ex_models st = outstanding (Some WorkModel) turn.2 ∧
    ex_tools st = outstanding (Some WorkTool) turn.2 ∧ ex_users st = outstanding None turn.2 ∧
    ex_candidate_since st =
      if decide (nothing_outstanding turn.2) then Some (now_pair (last_report turn.1 turn.2)) else None.

Lemma new_agrees c : agrees (c, []) (new_state c).
Proof.
  unfold agrees. cbn. splits; try done. intros n kind. rewrite take_nil. done.
Qed.

Lemma count_Some counter started next :
  0 ≤ counter ≤ u32_max →
  count counter started = Some next ↔
    next = counter + (if started then 1 else -1) ∧ 0 ≤ next ≤ u32_max.
Proof.
  intros Hc. unfold count. destruct started.
  - destruct (Z.leb_spec (counter + 1) u32_max); split; intros; simplify_eq; try lia. f_equal. lia.
  - destruct (Z.leb_spec 1 counter); split; intros; simplify_eq; try lia. f_equal. lia.
Qed.

(** One report of work. *)
Lemma update_agrees c0 body st c kind started :
  agrees (c0, body) st →
  agrees (c0, body ++ [(c, (kind, started))]) (update c kind started st).2.
Proof.
  intros H. unfold update. unfold agrees in H. destruct (ex_unknown st) eqn:Eu; cbn [fst snd] in H.
  { cbn. unfold agrees. rewrite Eu. cbn [fst snd]. destruct H as [Hc Hn]. split; [|done].
    rewrite consistent_snoc. tauto. }
  destruct H as (Hc & Hm & Ht & Hu & _).
  set (body' := body ++ [(c, (kind, started))]).
  set (counter := match kind with Some WorkModel => ex_models st | Some WorkTool => ex_tools st
                             | None => ex_users st end).
  assert (counter = outstanding kind body) as Ek by (by destruct kind as [[]|]).
  pose proof (consistent_now body kind Hc) as Hr. rewrite <-Ek in Hr.
  assert (∀ k, outstanding k body' =
    outstanding k body + (if decide (kind = k) then (if started then 1 else -1) else 0)) as Hs
    by (intros k; apply outstanding_snoc).
  assert (consistent body' ↔ consistent body ∧ ∀ k, 0 ≤ outstanding k body' ≤ u32_max) as Hcs
    by apply consistent_snoc.
  destruct (count counter started) as [next|] eqn:Ec; unfold agrees; cbn [snd fst].
  - apply count_Some in Ec as [En Hn]; [|done]. cbn [ex_unknown ex_models ex_tools ex_users ex_candidate_since].
    rewrite ?Eu, Hcs.
    assert (∀ k, outstanding k body' = if decide (kind = k) then next else outstanding k body) as Ho.
    { intros k. rewrite Hs. destruct (decide (kind = k)) as [<-|]; lia. }
    splits.
    + done.
    + intros k. rewrite Ho. destruct (decide (kind = k)); [done|]. by apply consistent_now.
    + rewrite Ho. by destruct kind as [[]|].
    + rewrite Ho. by destruct kind as [[]|].
    + rewrite Ho. by destruct kind as [[]|].
    + assert (last body' = Some (c, (kind, started))) as El by (subst body'; apply last_snoc).
      unfold last_report. rewrite El. cbn.
      match goal with |- context [if ?b then _ else _] => destruct b eqn:Eb end.
      * rewrite decide_True; [done|]. apply nothing_iff. rewrite !Ho.
        apply andb_true_iff in Eb as [[E1%Z.eqb_eq E2%Z.eqb_eq]%andb_true_iff E3%Z.eqb_eq].
        destruct kind as [[]|]; repeat case_decide; simplify_eq; cbn in *; lia.
      * rewrite decide_False; [done|]. rewrite nothing_iff. rewrite !Ho. intros (E1 & E2 & E3).
        apply andb_false_iff in Eb. rewrite andb_false_iff, !Z.eqb_neq in Eb.
        destruct kind as [[]|]; repeat case_decide; simplify_eq; cbn in *; lia.
  - cbn [ex_unknown ex_candidate_since]. split; [|done]. rewrite Hcs. intros [_ H2].
    specialize (H2 kind). rewrite Hs, decide_True in H2 by done.
    assert (count counter started = Some (counter + (if started then 1 else -1))) as Eq.
    { apply count_Some; [done|]. rewrite Ek. done. }
    congruence.
Qed.

(** What an input does to the state of one task. *)
Definition effect (c : Clock) (e : option TaskEvent) (o : option ExecutionState)
    : option ExecutionState :=
  match e with
  | None => o
  | Some Closed => None
  | Some Opened => Some (default (new_state c) o)
  | Some (Worked kind started) => (λ st, (update c kind started st).2) <$> o
  end.

Lemma update_at_lookup c key kind started s k :
  es_executions (update_at c key kind started s).2 !! k =
    if decide (k = key) then (λ st, (update c kind started st).2) <$> (es_executions s !! k)
    else es_executions s !! k.
Proof.
  unfold update_at. destruct (es_executions s !! key) as [st|] eqn:E.
  - destruct (update c kind started st) as [r st'] eqn:Eu. cbn. destruct (decide (k = key)) as [->|Hne].
    + rewrite lookup_insert_eq, E. cbn. by rewrite Eu.
    + by rewrite lookup_insert_ne.
  - cbn. destruct (decide (k = key)) as [->|]; [|done]. by rewrite E.
Qed.

Lemma filter_key_lookup {V} (P : ExecutionKey * V → Prop) `{!∀ x, Decision (P x)} (Q : Prop)
    `{!Decision Q} (m : gmap ExecutionKey V) k :
  (∀ v, P (k, v) ↔ Q) → filter P m !! k = if decide Q then m !! k else None.
Proof.
  intros HP. apply option_eq. intros v. rewrite map_lookup_filter_Some, HP.
  destruct (decide Q); naive_solver.
Qed.

Lemma observe_lookup c ev s k :
  es_enabled s = true →
  es_executions (observe c ev s).2 !! k = effect c (about k (Observed ev)) (es_executions s !! k).
Proof.
  intros He. unfold observe, about. rewrite He. cbn [negb].
  destruct (AgentEvents.validate ev) as [[]|e]; [|done]. cbn [is_ok].
  destruct ev as [e|e|e|e].
  - set (key := mkKey _ _ _). destruct (tu_kind e).
    + destruct (es_executions s !! key) as [st|] eqn:E.
      * case_bool_decide as Hk; [subst k|done]. cbn. by rewrite E.
      * cbn. case_bool_decide as Hk; [subst k|].
        -- by rewrite lookup_insert_eq, E.
        -- by rewrite lookup_insert_ne.
    + cbn. case_bool_decide as Hk; [subst k|].
      * by rewrite lookup_delete_eq.
      * by rewrite lookup_delete_ne.
  - rewrite update_at_lookup. set (key := mkKey _ _ _).
    by destruct (decide (k = key)); [rewrite (bool_decide_true (k = key))|rewrite (bool_decide_false (k = key))].
  - rewrite update_at_lookup. set (key := mkKey _ _ _).
    by destruct (decide (k = key)); [rewrite (bool_decide_true (k = key))|rewrite (bool_decide_false (k = key))].
  - cbn [snd set_executions es_executions].
    rewrite (filter_key_lookup _ (ek_trace_id k ≠ sc_trace_id e ∨ ek_session_id k ≠ sc_session_id e))
      by done.
    case_bool_decide as Hk.
    + rewrite decide_False; [done|]. destruct Hk. tauto.
    + rewrite decide_True; [done|]. destruct (decide (ek_trace_id k = sc_trace_id e)); tauto.
Qed.

Lemma observe_enabled c ev s : es_enabled (observe c ev s).2 = es_enabled s.
Proof.
  unfold observe, update_at. destruct (es_enabled s) eqn:E; [|done]. cbn [negb].
  repeat case_match; done.
Qed.

Definition tracks (o : option ExecutionState) (t : option (Clock * Body)) : Prop :=
  match o, t with
  | Some st, Some turn => agrees turn st
  | None, None => True
  | _, _ => False
  end.

Lemma effect_tracks c e o t k i :
  about k i = e → tracks o t → tracks (effect c e o) (turn_step k t (c, i)).
Proof.
  intros He H. unfold turn_step. cbn [fst snd]. rewrite He.
  destruct e as [[| |kind started]|]; cbn [effect]; try done.
  - destruct o as [st|], t as [turn|]; try done. apply new_agrees.
  - destruct o as [st|], t as [[c0 body]|]; try done. cbn. by apply update_agrees.
Qed.

Lemma monitor_enabled m h : es_enabled (mo_states (monitor m h)) = es_enabled (mo_states m).
Proof.
  unfold monitor. revert m. induction h as [|[c i] h IH]; intros m; [done|]. cbn [foldl]. rewrite IH.
  unfold monitor_step. cbn. destruct i as [e|t|].
  - apply observe_enabled.
  - cbn. unfold Execution.finish_trace. by destruct (es_enabled (mo_states m)) eqn:E; cbn; rewrite ?E.
  - by destruct (poll _ _ _).
Qed.

Lemma monitor_tracks m h k :
  es_enabled (mo_states m) = true → es_executions (mo_states m) = ∅ →
  tracks (es_executions (mo_states (monitor m h)) !! k) (open_turn k h).
Proof.
  intros He H0. induction h as [|[c i] h IH] using rev_ind.
  { cbn. rewrite H0, lookup_empty. done. }
  pose proof (monitor_enabled m h) as Hen. rewrite He in Hen.
  unfold open_turn, monitor in *. rewrite !foldl_snoc. cbn [foldl].
  set (m' := foldl monitor_step m h) in *. set (t := foldl (turn_step k) None h) in *.
  destruct i as [ev|tr|].
  - unfold monitor_step. cbn [fst snd mo_states]. rewrite observe_lookup by done. by apply effect_tracks.
  - unfold monitor_step. cbn [fst snd mo_states]. unfold Execution.finish_trace. rewrite Hen.
    cbn [set_executions es_executions]. rewrite (filter_key_lookup _ (ek_trace_id k ≠ tr)) by done.
    pose proof (effect_tracks c _ _ _ k (Finished tr) eq_refl IH) as Ht. cbn [about effect] in Ht.
    case_bool_decide; [rewrite decide_False by tauto|rewrite decide_True by done]; exact Ht.
  - unfold monitor_step. cbn [fst snd]. destruct (poll _ _ _). cbn.
    exact (effect_tracks c None _ _ k Polled eq_refl IH).
Qed.

(** ** One scan *)

(** A state whose quiet period has lasted long enough. *)
Definition ripe (now threshold : Z) (st : ExecutionState) : option (Z * Z) :=
  p ← ex_candidate_since st;
  if saturating_since now p.1 <? threshold then None else Some p.

(** The alerts about one task. *)
Definition alerts_of (k : ExecutionKey) (l : list IdleAlert) : list IdleAlert :=
  filter (λ a, ia_key a = k) l.
#[local] Arguments alerts_of : simpl never.

Lemma alerts_of_app k l l' : alerts_of k (l ++ l') = alerts_of k l ++ alerts_of k l'.
Proof. apply filter_app. Qed.

Lemma elem_of_option_list {A} (x : A) o : x ∈ option_list o ↔ o = Some x.
Proof. destruct o; cbn; [rewrite list_elem_of_singleton|rewrite elem_of_nil]; naive_solver. Qed.

Lemma alerts_of_map {V} (m : gmap ExecutionKey V) (f : ExecutionKey * V → IdleAlert) k :
  (∀ p, ia_key (f p) = p.1) →
  alerts_of k (f <$> map_to_list m) = option_list ((λ v, f (k, v)) <$> m !! k).
Proof.
  intros Hf. rewrite <-(list_to_map_to_list m) at 2.
  pose proof (NoDup_fst_map_to_list m) as Hn. revert Hn. generalize (map_to_list m).
  unfold alerts_of. induction l as [|[k' v] l IH]; intros Hn; [done|].
  apply NoDup_cons in Hn as [Hk Hn]. rewrite fmap_cons, filter_cons, Hf, IH by done.
  cbn [fst list_to_map foldr]. destruct (decide (k' = k)) as [->|Hne].
  - rewrite lookup_insert_eq, (not_elem_of_list_to_map_1 l k) by done. done.
  - by rewrite lookup_insert_ne.
Qed.

Lemma scan_about now observed threshold k l acc :
  NoDup l.*1 →
  let r := foldl (scan_one now observed threshold) acc l in
  let found := match acc.2 !! k with
               | Some _ => None
               | None => st ← (list_to_map l : gmap ExecutionKey ExecutionState) !! k; ripe now threshold st
               end in
  alerts_of k r.1 = alerts_of k acc.1 ++
    option_list ((λ p, mkIdleAlert k p.2 observed threshold false) <$> found) ∧
  r.2 !! k = match acc.2 !! k with
             | Some e => Some e
             | None => (λ p, mkEpisode p.1 p.2) <$> found
             end.
Proof.
  revert acc. induction l as [|[k' st] l IH]; intros [alerts active] Hn.
  { cbn. destruct (active !! k); cbn; by rewrite app_nil_r. }
  cbn in Hn. apply NoDup_cons in Hn as [Hk Hn]. cbn [foldl].
  specialize (IH (scan_one now observed threshold (alerts, active) (k', st)) Hn).
  cbn zeta in *. destruct IH as [IH1 IH2]. rewrite IH1, IH2. clear IH1 IH2. cbn.
  unfold ripe. destruct (decide (k' = k)) as [->|Hne].
  - rewrite lookup_insert_eq. rewrite (not_elem_of_list_to_map_1 l k) by done. cbn.
    destruct (ex_candidate_since st) as [[since started]|]; cbn.
    + destruct (saturating_since now since <? threshold); cbn.
      * destruct (active !! k); cbn; done.
      * destruct (active !! k) as [e|] eqn:Ea.
        -- rewrite bool_decide_true by eauto. cbn. by rewrite Ea.
        -- rewrite bool_decide_false by (by intros []). cbn [fst snd].
           rewrite lookup_insert_eq, alerts_of_app, app_nil_r. unfold alerts_of at 2.
           rewrite filter_cons, filter_nil. cbn. by rewrite decide_True.
    + destruct (active !! k); cbn; done.
  - rewrite lookup_insert_ne by done.
    destruct (ex_candidate_since st) as [[since started]|]; cbn; [|done].
    destruct (_ || _); cbn; [done|].
    rewrite lookup_insert_ne, alerts_of_app by done. unfold alerts_of at 2.
    rewrite filter_cons, filter_nil. cbn [ia_key]. rewrite decide_False by done. by rewrite app_nil_r.
Qed.

(** What a due poll does about task [k]. *)
Definition went_on (states : ExecutionStates) (d : IdleDetector) (k : ExecutionKey) : option Episode :=
  e ← id_active d !! k; if continuing states k e then Some e else None.
Definition ended (states : ExecutionStates) (d : IdleDetector) (k : ExecutionKey) : option Episode :=
  e ← id_active d !! k; if continuing states k e then None else Some e.
Definition began (c : Clock) (states : ExecutionStates) (d : IdleDetector) (k : ExecutionKey)
    : option (Z * Z) :=
  match went_on states d k with
  | Some _ => None
  | None => st ← es_executions states !! k; ripe (ck_instant c) (ic_threshold (id_config d)) st
  end.

Lemma poll_about c states d k next :
  ic_enabled (id_config d) = true → id_next_poll d ≤ ck_instant c →
  checked_add_time (ck_instant c) (ic_poll_interval (id_config d)) = Some next →
  let '(alerts, d') := poll c states d in
  alerts_of k alerts =
    option_list ((λ e, mkIdleAlert k (ep_started_at e) (ck_system c) (ic_threshold (id_config d)) true)
                   <$> ended states d k) ++
    option_list ((λ p, mkIdleAlert k p.2 (ck_system c) (ic_threshold (id_config d)) false)
                   <$> began c states d k) ∧
  id_active d' !! k = match went_on states d k with
                      | Some e => Some e
                      | None => (λ p, mkEpisode p.1 p.2) <$> began c states d k
                      end ∧
  id_config d' = id_config d ∧ id_next_poll d' = next.
Proof.
  intros He Hd Hn. unfold poll. rewrite He. cbn [negb].
  destruct (Z.ltb_spec (ck_instant c) (id_next_poll d)); [lia|]. rewrite Hn.
  match goal with |- context [foldl ?f (?rec, ?kept) ?l] =>
    pose proof (scan_about (ck_instant c) (ck_system c) (ic_threshold (id_config d)) k l (rec, kept)
      (NoDup_fst_map_to_list _)) as Hs; destruct (foldl f (rec, kept) l) as [alerts active] end.
  cbn zeta in Hs. cbn [fst snd] in Hs. destruct Hs as [H1 H2].
  rewrite list_to_map_to_list, alerts_of_map in * by done.
  assert (∀ b, filter (λ p, continuing states p.1 p.2 = b) (id_active d) !! k =
    (e ← id_active d !! k; if decide (continuing states k e = b) then Some e else None)) as Hf.
  { intros b. rewrite map_lookup_filter. destruct (id_active d !! k) as [e|]; [|done]. cbn.
    case_guard; repeat case_decide; done. }
  rewrite !Hf in *. unfold began, went_on, ended. cbn [id_active id_config id_next_poll].
  destruct (id_active d !! k) as [e|]; cbn in *; [|done].
  destruct (continuing states k e); cbn in *; done.
Qed.

(** ** The system as a whole *)

(** Task [k] has an open turn with nothing going on, [since] its last report. *)
Definition quiet (k : ExecutionKey) (h : list (Clock * Input)) (since : Clock) : Prop :=
  ∃ opened body, open_turn k h = Some (opened, body) ∧ consistent body ∧
    nothing_outstanding body ∧ since = last_report opened body.
(** The reports about the open turn of [k] contradict each other. *)
Definition suspect (k : ExecutionKey) (h : list (Clock * Input)) : Prop :=
  ∃ opened body, open_turn k h = Some (opened, body) ∧ ¬ consistent body.

Lemma quiet_unique k h c c' : quiet k h c → quiet k h c' → c = c'.
Proof. intros (o & b & E & _ & _ & ->) (o' & b' & E' & _ & _ & ->). congruence. Qed.
Lemma quiet_not_suspect k h c : quiet k h c → ¬ suspect k h.
Proof. intros (o & b & E & Hc & _) (o' & b' & E' & Hn). naive_solver. Qed.

Section Tracked.
Context (m : Monitor) (Hen : es_enabled (mo_states m) = true)
  (H0 : es_executions (mo_states m) = ∅).

Lemma candidate_quiet h k p :
  (∃ st, es_executions (mo_states (monitor m h)) !! k = Some st ∧ ex_candidate_since st = Some p) ↔
  ∃ since, quiet k h since ∧ now_pair since = p.
Proof using Hen H0.
  pose proof (monitor_tracks m h k Hen H0) as Ht. unfold quiet.
  destruct (es_executions _ !! k) as [st|], (open_turn k h) as [[o b]|]; cbn in Ht; [|naive_solver..].
  unfold agrees in Ht. cbn [fst snd] in Ht. destruct (ex_unknown st).
  - destruct Ht as [Hn Hc]. split; [naive_solver|]. intros (c & (o' & b' & ? & ? & _) & _). naive_solver.
  - destruct Ht as (Hc & _ & _ & _ & Hs). destruct (decide (nothing_outstanding b)); naive_solver.
Qed.

Lemma unknown_suspect h k :
  (∃ st, es_executions (mo_states (monitor m h)) !! k = Some st ∧ ex_unknown st = true) ↔ suspect k h.
Proof using Hen H0.
  pose proof (monitor_tracks m h k Hen H0) as Ht. unfold suspect.
  destruct (es_executions _ !! k) as [st|], (open_turn k h) as [[o b]|]; cbn in Ht; [|naive_solver..].
  unfold agrees in Ht. cbn [fst snd] in Ht. destruct (ex_unknown st) eqn:E; split.
  - intros _. naive_solver.
  - naive_solver.
  - intros (st' & [= <-] & ?). congruence.
  - intros (o' & b' & [= <- <-] & ?). naive_solver.
Qed.

Lemma continuing_iff h k e :
  continuing (mo_states (monitor m h)) k e = true ↔
  suspect k h ∨ ∃ since, quiet k h since ∧ ck_instant since = ep_since e.
Proof using Hen H0.
  rewrite <-unknown_suspect. unfold continuing.
  assert ((∃ since, quiet k h since ∧ ck_instant since = ep_since e) ↔
    ∃ st t, es_executions (mo_states (monitor m h)) !! k = Some st ∧
            ex_candidate_since st = Some (ep_since e, t)) as ->.
  { split.
    - intros (c & Hq & Hi). destruct (proj2 (candidate_quiet h k (now_pair c))) as (st & Hl & Hc); [by eauto|].
      exists st, (ck_system c). split; [done|]. by rewrite Hc, <-Hi.
    - intros (st & t & Hl & Hc). destruct (proj1 (candidate_quiet h k (ep_since e, t))) as (c & Hq & Hp);
        [by eauto|]. exists c. split; [done|]. by injection Hp. }
  destruct (es_executions _ !! k) as [st|]; [|naive_solver]. rewrite orb_true_iff. split.
  - intros [Hu|Hs]; [left; eauto|right]. destruct (ex_candidate_since st) as [[t u]|] eqn:E; [|done].
    apply Z.eqb_eq in Hs as ->. eauto.
  - intros [(st' & [= <-] & Hu)|(st' & t & [= <-] & ->)]; [by left|right]. by apply Z.eqb_eq.
Qed.

Lemma began_iff h k c p :
  began c (mo_states (monitor m h)) (mo_detector (monitor m h)) k = Some p ↔
  ∃ since, quiet k h since ∧ now_pair since = p ∧
    ic_threshold (id_config (mo_detector (monitor m h))) ≤ saturating_since (ck_instant c) (ck_instant since) ∧
    ∀ e, id_active (mo_detector (monitor m h)) !! k = Some e → ep_since e ≠ ck_instant since.
Proof using Hen H0.
  unfold began, went_on. set (states := mo_states (monitor m h)). set (d := mo_detector (monitor m h)).
  assert ((st ← es_executions states !! k; ripe (ck_instant c) (ic_threshold (id_config d)) st) = Some p ↔
    ∃ since, quiet k h since ∧ now_pair since = p ∧
      ic_threshold (id_config d) ≤ saturating_since (ck_instant c) (ck_instant since)) as Hr.
  { rewrite bind_Some. unfold ripe. setoid_rewrite bind_Some. split.
    - intros (st & Hl & q & Hc & Hif). destruct (proj1 (candidate_quiet h k q)) as (s & Hq & <-); [by eauto|].
      destruct (Z.ltb_spec (saturating_since (ck_instant c) (ck_instant s)) (ic_threshold (id_config d)));
        cbn [fst now_pair] in Hif; [by rewrite (proj2 (Z.ltb_lt _ _)) in Hif by done|].
      rewrite (proj2 (Z.ltb_ge _ _)) in Hif by done. naive_solver.
    - intros (s & Hq & <- & Hth). destruct (proj2 (candidate_quiet h k (now_pair s))) as (st & Hl & Hc); [by eauto|].
      exists st. split; [done|]. exists (now_pair s). split; [done|]. cbn [fst now_pair].
      by rewrite (proj2 (Z.ltb_ge _ _)). }
  destruct (id_active d !! k) as [e|]; cbn [mbind option_bind]; [|rewrite Hr; naive_solver].
  pose proof (continuing_iff h k e) as Hc. destruct (continuing states k e) eqn:Ec.
  - subst states. rewrite Ec in Hc. split; [done|]. intros (s & Hq & _ & _ & Hne).
    destruct (proj1 Hc eq_refl) as [Hs|(s' & Hq' & E)]; [by destruct (quiet_not_suspect _ _ _ Hq)|].
    rewrite (quiet_unique _ _ _ _ Hq' Hq) in E. by destruct (Hne e eq_refl).
  - rewrite Hr. split; [|naive_solver]. intros (s & Hq & Hp & Hth). exists s. splits; try done.
    intros e' [= <-] E. subst states. rewrite Ec in Hc. discriminate (proj2 Hc). right. eauto.
Qed.

Lemma ended_iff h k e :
  ended (mo_states (monitor m h)) (mo_detector (monitor m h)) k = Some e ↔
  id_active (mo_detector (monitor m h)) !! k = Some e ∧ ¬ suspect k h ∧
    ∀ since, quiet k h since → ck_instant since ≠ ep_since e.
Proof using Hen H0.
  unfold ended. pose proof (continuing_iff h k) as Hc.
  destruct (id_active _ !! k) as [e'|]; cbn [mbind option_bind]; [|naive_solver].
  specialize (Hc e'). destruct (continuing _ k e'); naive_solver.
Qed.
End Tracked.

(** ** Detection and recovery *)

(** Polls that are not due, and disabled detectors, change no episode. *)
Lemma poll_cases c states d :
  (∃ d', poll c states d = ([], d') ∧ id_active d' = id_active d) ∨
  (ic_enabled (id_config d) = true ∧ id_next_poll d ≤ ck_instant c ∧
   ∃ next, checked_add_time (ck_instant c) (ic_poll_interval (id_config d)) = Some next).
Proof.
  destruct (ic_enabled (id_config d)) eqn:Ee; [|left; exists d; unfold poll; by rewrite Ee].
  destruct (Z.ltb_spec (ck_instant c) (id_next_poll d)) as [Hl|Hl].
  { left. exists d. unfold poll. by rewrite Ee, (proj2 (Z.ltb_lt _ _) Hl). }
  destruct (checked_add_time _ _) as [next|] eqn:En; [right; eauto|].
  left. unfold poll. rewrite Ee, (proj2 (Z.ltb_ge _ _) Hl), En. eauto.
Qed.

(** Alerts about one task come in pairs: a detection, then the recovery that carries
    the same starting time.  [Some o] is a well-paired list that leaves [o] open. *)
Fixpoint paired (o : option Z) (l : list IdleAlert) : option (option Z) :=
  match l with
  | [] => Some o
  | a :: l =>
      match o, ia_recovered a with
      | None, false => paired (Some (ia_started a)) l
      | Some t, true => if t =? ia_started a then paired None l else None
      | _, _ => None
      end
  end.

Lemma paired_app o l l' : paired o (l ++ l') = o' ← paired o l; paired o' l'.
Proof.
  revert o. induction l as [|a l IH]; intros o; [done|]. cbn.
  destruct o as [t|], (ia_recovered a); cbn; try done. destruct (t =? ia_started a); [apply IH|done].
Qed.

Lemma step_paired m k c i :
  paired None (alerts_of k (mo_alerts m)) = Some (ep_started_at <$> id_active (mo_detector m) !! k) →
  i ≠ Finished (ek_trace_id k) →
  paired None (alerts_of k (mo_alerts (monitor_step m (c, i)))) =
    Some (ep_started_at <$> id_active (mo_detector (monitor_step m (c, i))) !! k).
Proof.
  intros H Hi. unfold monitor_step. cbn [fst snd]. destruct i as [e|t|]; [done| |].
  - cbn [mo_alerts mo_detector finish_trace id_active].
    rewrite (filter_key_lookup _ (ek_trace_id k ≠ t)) by done. rewrite decide_True by congruence. done.
  - destruct (poll_cases c (mo_states m) (mo_detector m)) as [(d' & -> & Ha)|(He & Hd & next & Hn)].
    { cbn [mo_alerts mo_detector]. by rewrite app_nil_r, Ha. }
    pose proof (poll_about c (mo_states m) (mo_detector m) k next He Hd Hn) as Hp.
    destruct (poll _ _ _) as [alerts d']. destruct Hp as (Hal & Hac & _). cbn [mo_alerts mo_detector].
    rewrite alerts_of_app, paired_app, H, Hal, Hac. cbn [mbind option_bind]. unfold began, ended, went_on.
    destruct (id_active (mo_detector m) !! k) as [e|]; cbn.
    + destruct (continuing (mo_states m) k e); cbn; [done|]. rewrite Z.eqb_refl.
      destruct (_ ≫= _); done.
    + destruct (_ ≫= _); done.
Qed.

(** The incremental counters equal a replay of the history.  After any history
    of lifecycle events, ended traces and polls, a task has a state exactly when it has
    an open turn; its counters are the work begun and not ended in that turn, it is
    marked unknown exactly when the reports contradict each other (more ended than
    begun, or more than a [u32] of them outstanding at some moment), and it is a
    candidate since the last report exactly when nothing is outstanding. *)
Theorem execution_replay m h k :
  es_enabled (mo_states m) = true → es_executions (mo_states m) = ∅ →
  match es_executions (mo_states (monitor m h)) !! k, open_turn k h with
  | None, None => True
  | Some st, Some (opened, body) =>
      (ex_unknown st = true ↔ ¬ consistent body) ∧
      (consistent body →
        ex_models st = outstanding (Some WorkModel) body ∧
        ex_tools st = outstanding (Some WorkTool) body ∧ ex_users st = outstanding None body) ∧
      (∀ p, ex_candidate_since st = Some p ↔
        consistent body ∧ nothing_outstanding body ∧ p = now_pair (last_report opened body))
  | _, _ => False
  end.
Proof.
  intros He H0. pose proof (monitor_tracks m h k He H0) as Ht.
  destruct (es_executions _ !! k) as [st|], (open_turn k h) as [[opened body]|]; try done.
  cbn in Ht. unfold agrees in Ht. cbn [fst snd] in Ht. destruct (ex_unknown st).
  - destruct Ht as [Hn Hc]. rewrite Hc. splits; [done|done|]. naive_solver.
  - destruct Ht as (Hc & Hm & Ht & Hu & Hs). splits; [naive_solver|done|]. intros p. rewrite Hs.
    destruct (decide (nothing_outstanding body)); naive_solver.
Qed.


(** Detections and recoveries of a task alternate.  As long as its trace is not
    ended, whatever events and polls arrive in whatever order, the alerts about a task
    are detection, recovery, detection, …; each recovery carries the starting time of
    the detection it answers, and an alert is unanswered exactly while the detector
    holds an episode for the task. *)
Theorem alerts_alternate m h k :
  mo_alerts m = [] → id_active (mo_detector m) = ∅ →
  Forall (λ i, i.2 ≠ Finished (ek_trace_id k)) h →
  paired None (alerts_of k (mo_alerts (monitor m h))) =
    Some (ep_started_at <$> id_active (mo_detector (monitor m h)) !! k).
Proof.
  intros Ha Hd. induction h as [|[c i] h IH] using rev_ind; intros Hh.
  { cbn. by rewrite Ha, Hd, lookup_empty. }
  apply Forall_app in Hh as [Hh Hi]. apply Forall_cons in Hi as [Hi _].
  unfold monitor in *. rewrite foldl_snoc. apply step_paired; auto.
Qed.

(** ** Examples *)

Definition key0 : ExecutionKey := mkKey 1 "s" "t".
Definition monitor0 : Monitor :=
  mkMonitor (Execution.new true) (mkDetector (mkIdleConfig true 100 10) 0 ∅) [].
Definition at_ (n : Z) : Clock := mkClock n (1000 + n).
Definition turn0 (k : TurnLifecycleKind) : Input := Observed (Turn (mkTurn 1 "s" "t" k 5)).
Definition work0 (st : WorkState) : Input := Observed (Work (mkWork 1 "s" "t" WorkModel st 5)).
(** A turn with one model call, then silence. *)
Definition history0 : list (Clock * Input) :=
  [(at_ 0, turn0 TurnStarted); (at_ 10, work0 WorkStarted); (at_ 15, Polled);
   (at_ 20, work0 WorkCompleted)].

(** The silence is reported at 130, once; the next model call is the recovery. *)
Example silence_reported :
  mo_alerts (monitor monitor0
    (history0 ++ [(at_ 60, Polled); (at_ 130, Polled); (at_ 150, Polled);
                  (at_ 160, work0 WorkStarted); (at_ 170, Polled)])) =
  [mkIdleAlert key0 1020 1130 100 false; mkIdleAlert key0 1020 1170 100 true].
Proof. vm_compute. reflexivity. Qed.

Lemma execution_replay_witness :
  ∃ st, es_executions (mo_states (monitor monitor0 history0)) !! key0 = Some st ∧
    ex_candidate_since st = Some (20, 1020).
Proof.
  pose proof (execution_replay monitor0 history0 key0 eq_refl eq_refl) as H.
  destruct (es_executions _ !! key0) as [st|] eqn:E; [|vm_compute in E; discriminate E].
  exists st. split; [done|]. vm_compute in E. injection E as <-. reflexivity.
Defined.


Lemma alerts_alternate_witness :
  paired None (alerts_of key0 (mo_alerts (monitor monitor0 (history0 ++ [(at_ 130, Polled)])))) =
    Some (Some 1020).
Proof.
  rewrite (alerts_alternate monitor0 (history0 ++ [(at_ 130, Polled)]) key0 eq_refl eq_refl).
  - vm_compute. reflexivity.
  - repeat constructor; discriminate.
Defined.
End IdleFacts.
