(* ===== verification/Scan.v ===== *)
(** Searching a growing byte buffer for the first occurrence of a pattern, resuming
    where the last search stopped: shared by the framers of captured payloads
    (crates/core/semantic_action_runtime/src/llm_pipeline). *)
From stdpp Require Import prelude strings.
From Stdlib Require Import Lia.
From coqutil Require Import Byte.
From S2P Require Import Prelude Bytes.

Open Scope nat_scope.

(** [slice.starts_with(needle)]. *)
Fixpoint bytes_start_with (needle l : list byte) : bool :=
  match needle, l with
  | [], _ => true
  | a :: needle', b :: l' => bool_decide (a = b) && bytes_start_with needle' l'
  | _ :: _, [] => false
  end.

(** The first position, counted from [pos], at which [f] accepts the rest. *)
Fixpoint first_at {A} (f : list byte → option A) (pos : nat) (l : list byte) : option (nat * A) :=
  match f l with
  | Some a => Some (pos, a)
  | None => match l with [] => None | _ :: l' => first_at f (S pos) l' end
  end.
Definition first_from {A} (f : list byte → option A) (bytes : list byte) (from : nat)
    : option (nat * A) := first_at f from (drop from bytes).

(** [find_bytes]: [windows(needle.len()).position(..)]. *)
Definition at_needle (needle l : list byte) : option () :=
  if bytes_start_with needle l then Some () else None.
Definition find_bytes (haystack needle : list byte) : option nat :=
  fst <$> first_at (at_needle needle) 0 haystack.

Lemma starts_with_app needle l : bytes_start_with needle l = true ↔ ∃ rest, l = needle ++ rest.
Proof.
  revert l. induction needle as [|a needle IH]; intros l; [by split; eauto|].
  destruct l as [|b l]; cbn; [split; [done|by intros [? [=]]]|].
  rewrite andb_true_iff, bool_decide_eq_true, IH. naive_solver.
Qed.

(** A pattern that can be searched for incrementally: [k] bytes decide it. *)
Class Pattern {A} (f : list byte → option A) (k : nat) : Prop := {
  pat_nil : f [] = None;
  pat_more l x a : f l = Some a → f (l ++ x) = Some a;
  pat_stable l x : (k ≤ length l) → f (l ++ x) = f l;
  (* a match further on leaves nothing open *)
  pat_commit l x p a : f l = None → f (drop p l) = Some a → f (l ++ x) = None;
}.

#[export] Instance needle_pattern a needle :
  Pattern (at_needle (a :: needle)) (S (length needle)).
Proof.
  assert (∀ l x, S (length needle) ≤ length l →
    at_needle (a :: needle) (l ++ x) = at_needle (a :: needle) l) as Hs.
  { intros l x Hl. unfold at_needle. destruct (bytes_start_with (a :: needle) l) eqn:E.
    - apply starts_with_app in E as [r ->]. rewrite (proj2 (starts_with_app _ _)); [done|].
      rewrite <-app_assoc. eauto.
    - destruct (bytes_start_with (a :: needle) (l ++ x)) eqn:E'; [|done].
      apply starts_with_app in E' as [r Hr].
      enough (bytes_start_with (a :: needle) l = true) by congruence. apply starts_with_app.
      exists (drop (S (length needle)) l).
      rewrite <-(take_drop (S (length needle)) l) at 1. f_equal.
      apply (f_equal (take (S (length needle)))) in Hr.
      by rewrite take_app_le, (take_app_length' (a :: needle) r) in Hr by (cbn; done || lia). }
  assert (∀ l, at_needle (a :: needle) l = Some () → S (length needle) ≤ length l) as Hlen.
  { intros l. unfold at_needle. destruct (bytes_start_with _ _) eqn:E; [|done]. intros _.
    apply starts_with_app in E as [r ->]. rewrite length_app. cbn. lia. }
  split.
  - done.
  - intros l x [] H. rewrite Hs; auto.
  - intros l x. apply Hs.
  - intros l x p [] H Hp. apply Hlen in Hp. rewrite length_drop in Hp. rewrite Hs; [done|lia].
Qed.

Section search.
Context {A : Type} {f : list byte → option A} {k : nat} {pat : Pattern f k}.

Lemma first_at_Some pos l p a :
  first_at f pos l = Some (p, a) ↔
  ∃ i, p = (pos + i) ∧ f (drop i l) = Some a ∧ ∀ j, (j < i) → f (drop j l) = None.
Proof using pat.
  revert pos. induction l as [|b l IH]; intros pos; cbn [first_at].
  - rewrite pat_nil. split; [done|]. intros (i & _ & H & _). by rewrite drop_nil, pat_nil in H.
  - destruct (f (b :: l)) as [a'|] eqn:E.
    + split.
      * intros [= -> ->]. exists 0. split; [lia|]. split; [done|]. lia.
      * intros ([|i] & -> & H & Hn); [cbn in H; rewrite E in H; f_equal; f_equal; [lia|congruence]|].
        specialize (Hn 0 ltac:(lia)). cbn in Hn. congruence.
    + rewrite IH. split.
      * intros (i & -> & H & Hn). exists (S i). split; [lia|]. split; [done|].
        intros [|j] Hj; [done|]. apply Hn. lia.
      * intros ([|i] & -> & H & Hn); [cbn in H; congruence|]. exists i. split; [lia|]. split; [done|].
        intros j Hj. apply (Hn (S j)). lia.
Qed.

Lemma first_at_None pos l : first_at f pos l = None ↔ ∀ i, f (drop i l) = None.
Proof using pat.
  revert pos. induction l as [|b l IH]; intros pos; cbn [first_at].
  - rewrite pat_nil. split; [|done]. intros _ i. rewrite drop_nil. apply pat_nil.
  - destruct (f (b :: l)) as [a'|] eqn:E.
    + split; [done|]. intros H. specialize (H 0). cbn in H. congruence.
    + rewrite IH. split; [|intros H i; exact (H (S i))]. intros H [|i]; [done|apply H].
Qed.

Lemma first_from_Some b from p a :
  first_from f b from = Some (p, a) ↔
  (from ≤ p) ∧ f (drop p b) = Some a ∧ ∀ q, (from ≤ q < p) → f (drop q b) = None.
Proof using pat.
  unfold first_from. rewrite first_at_Some. setoid_rewrite drop_drop. split.
  - intros (i & -> & H & Hn). split; [lia|]. split; [done|]. intros q Hq.
    specialize (Hn (q - from) ltac:(lia)). by replace (from + (q - from)) with q in Hn by lia.
  - intros (Hl & H & Hn). exists (p - from). replace (from + (p - from)) with p by lia.
    split; [done|]. split; [done|]. intros j Hj. apply Hn. lia.
Qed.

Lemma first_from_None b from :
  first_from f b from = None ↔ ∀ q, (from ≤ q) → f (drop q b) = None.
Proof using pat.
  unfold first_from. rewrite first_at_None. setoid_rewrite drop_drop. split.
  - intros H q Hq. specialize (H (q - from)). by replace (from + (q - from)) with q in H by lia.
  - intros H i. apply H. lia.
Qed.

(** A match lies within the buffer. *)
Lemma first_from_bound b from p a : first_from f b from = Some (p, a) → (p < length b).
Proof using pat.
  intros (_ & H & _)%first_from_Some. destruct (decide (p < length b)); [done|].
  rewrite drop_ge, pat_nil in H by lia. done.
Qed.

(** Positions already searched can be skipped. *)
Lemma first_from_skip b from from' :
  (from ≤ from') → (∀ q, (from ≤ q < from') → f (drop q b) = None) →
  first_from f b from = first_from f b from'.
Proof using pat.
  intros Hle Hn. destruct (first_from f b from') as [[p a]|] eqn:E.
  - apply first_from_Some in E as (Hp & H & Hq). apply first_from_Some. split; [lia|]. split; [done|].
    intros q Hlt. destruct (decide (q < from')); [apply Hn; lia|apply Hq; lia].
  - apply first_from_None. intros q Hq. pose proof (proj1 (first_from_None b from') E) as H.
    destruct (decide (q < from')); [apply Hn; lia|apply H; lia].
Qed.

(** More bytes do not change a match that was found… *)
Lemma first_from_app b x from r : first_from f b from = Some r → first_from f (b ++ x) from = Some r.
Proof using pat.
  destruct r as [p a]. intros E. pose proof (first_from_bound _ _ _ _ E) as Hb.
  apply first_from_Some in E as (Hp & H & Hn). apply first_from_Some. split; [done|].
  split; [rewrite drop_app_le by lia; by apply pat_more|].
  intros q Hq. rewrite drop_app_le by lia. apply (pat_commit _ _ (p - q) a); [by apply Hn|].
  rewrite drop_drop. by replace (q + (p - q)) with p by lia.
Qed.

(** …and a search that found nothing need only look again at the last [k - 1] bytes. *)
Lemma first_from_open b x from q :
  first_from f b from = None → (from ≤ q) → (q + k ≤ length b) → f (drop q (b ++ x)) = None.
Proof using pat.
  intros E Hf Hq. rewrite drop_app_le by lia. rewrite pat_stable by (rewrite length_drop; lia).
  by apply (proj1 (first_from_None b from) E).
Qed.
End search.

(** * Streams of encoded items *)

Section encodings.
Context {A : Type} (enc : A → list byte).

(** The beginning of an encoding, without its end. *)
Definition begins (x : A) (b : list byte) : Prop := ∃ rest, enc x = b ++ rest ∧ rest ≠ [].

(** Where a prefix of a stream ends: after some items, inside the next. *)
Lemma prefix_splits xs last_ tail p q :
  begins last_ tail → p ++ q = mjoin (enc <$> xs) ++ tail →
  ∃ js ks b, xs = js ++ ks ∧ p = mjoin (enc <$> js) ++ b ∧ begins (default last_ (head ks)) b ∧
    b ++ q = mjoin (enc <$> ks) ++ tail.
Proof.
  intros Hl. revert p. induction xs as [|i xs IH]; intros p E.
  - exists [], [], p. cbn in E |- *. splits; try done. destruct Hl as (r & Er & Hr). exists (q ++ r).
    rewrite Er, <-E, <-app_assoc. split; [done|]. by destruct q.
  - rewrite fmap_cons, mjoin_cons, <-app_assoc in E. destruct (app_eq_inv _ _ _ _ E) as [(k & -> & E2)|(k & E1 & E2)].
    + destruct (IH k) as (js & ks & b & -> & Eb & Hb & Eq); [by rewrite E2|].
      exists (i :: js), ks, b. rewrite fmap_cons, mjoin_cons, <-app_assoc, <-Eb. done.
    + destruct k as [|x k].
      * rewrite app_nil_r in E1. destruct (IH [] ltac:(by rewrite E2)) as (js & ks & b & -> & Eb & Hb & Eq).
        exists (i :: js), ks, b. rewrite fmap_cons, mjoin_cons, <-app_assoc, <-Eb, app_nil_r. splits; done.
      * exists [], (i :: xs), p. splits; [done|done| |].
        -- exists (x :: k). by split.
        -- by rewrite E2, fmap_cons, mjoin_cons, E1, <-!app_assoc.
Qed.
End encodings.
