(* ===== verification/Sse.v ===== *)
(** The incremental framer of server-sent events:
    crates/core/semantic_action_runtime/src/llm_pipeline/stream/sse_framer/framer.rs.

    A body is the bytes received so far; every call passes the whole of it.  Offsets are
    [usize] positions in that body and are naturals here. *)
From stdpp Require Import prelude strings.
From Stdlib Require Import Lia Ascii.
From coqutil Require Import Byte.
From S2P Require Import Prelude Bytes Utf8 PolicyPath CommandText Scan.

Open Scope nat_scope.

Record CompleteSseEvent := mkSseEvent {
  sse_index : nat;
  sse_end_offset : nat;
  sse_event_type : option string;
  sse_id : option string;
  sse_data : string;
}.
Inductive SseFramingError := BodyShrank | InvalidUtf8.
Record IncrementalSseFramer := mkFramer {
  event_start : nat;
  scan_offset : nat;
  observed_body_len : nat;
  next_event_index : nat;
}.
#[export] Instance sse_event_eq_dec : EqDecision CompleteSseEvent.
Proof. solve_decision. Defined.

Module Framer.
Definition default_ : IncrementalSseFramer := mkFramer 0 0 0 0.
Definition set_start (v : nat) (f : IncrementalSseFramer) : IncrementalSseFramer :=
  mkFramer v (scan_offset f) (observed_body_len f) (next_event_index f).
Definition set_scan (v : nat) (f : IncrementalSseFramer) : IncrementalSseFramer :=
  mkFramer (event_start f) v (observed_body_len f) (next_event_index f).
Definition set_observed (v : nat) (f : IncrementalSseFramer) : IncrementalSseFramer :=
  mkFramer (event_start f) (scan_offset f) v (next_event_index f).
Definition set_index (v : nat) (f : IncrementalSseFramer) : IncrementalSseFramer :=
  mkFramer (event_start f) (scan_offset f) (observed_body_len f) v.

(** [next_event_delimiter]: the delimiter at the front of the rest, and the search. *)
Definition CRLFCRLF : list byte := [Byte.x0d; Byte.x0a; Byte.x0d; Byte.x0a].
Definition LFLF : list byte := [Byte.x0a; Byte.x0a].
Definition delimiter (remaining : list byte) : option nat :=
  if bytes_start_with CRLFCRLF remaining then Some 4
  else if bytes_start_with LFLF remaining then Some 2 else None.
Definition next_event_delimiter (bytes : list byte) (from : nat) : option (nat * nat) :=
  first_from delimiter bytes from.

(** [parse_event].  The fields of a block: data lines, event type, id. *)
Definition trim_end_cr (s : string) : string :=
  String.string_of_list_ascii
    (reverse ((fix go (l : list ascii) := match l with
                                          | c :: l' => if bool_decide (c = "013"%char) then go l' else l
                                          | [] => [] end)
                (reverse (String.list_ascii_of_string s)))).
Record Fields := mkFields { fd_data : list string; fd_type : option string; fd_id : option string }.
Definition parse_line (acc : Fields) (line : string) : Fields :=
  let line := trim_end_cr line in
  let '(name, value) := default (line, EmptyString) (split_once ":" line) in
  let value := default value (strip_prefix " " value) in
  if bool_decide (name = "data") then mkFields (fd_data acc ++ [value]) (fd_type acc) (fd_id acc)
  else if bool_decide (name = "event") then mkFields (fd_data acc) (Some value) (fd_id acc)
  else if bool_decide (name = "id") then mkFields (fd_data acc) (fd_type acc) (Some value)
  else acc.
Definition parse_lines (ls : list string) : Fields := foldl parse_line (mkFields [] None None) ls.
Definition parse_event (block : list byte) (end_offset : nat)
    : ST IncrementalSseFramer SseFramingError (option CompleteSseEvent) := λ f,
  if utf8_valid block then
    let fields := parse_lines (lines (String.string_of_list_byte block)) in
    match fd_data fields with
    | [] => (Ok None, f)
    | data_lines =>
        (Ok (Some (mkSseEvent (next_event_index f) end_offset (fd_type fields) (fd_id fields)
                     (String.concat (String newline EmptyString) data_lines))),
         set_index (S (next_event_index f)) f)
    end
  else (Err InvalidUtf8, f).

(** [body.get(start..end)]. *)
Definition get_range (body : list byte) (start stop : nat) : option (list byte) :=
  if bool_decide (start ≤ stop ≤ length body) then Some (take (stop - start) (drop start body)) else None.

(** [advance]: the loop over the delimiters, with fuel; [None] is exhausted fuel. *)
Fixpoint frame_loop (fuel : nat) (body : list byte) (cursor : nat) (events : list CompleteSseEvent)
    (f : IncrementalSseFramer)
    : option (result SseFramingError (list CompleteSseEvent) * IncrementalSseFramer) :=
  match fuel with
  | O => None
  | S fuel' =>
      match next_event_delimiter body cursor with
      | None => Some (Ok events, f)
      | Some (delimiter_start, delimiter_len) =>
          match get_range body (event_start f) delimiter_start with
          | None => Some (Err BodyShrank, f)
          | Some block =>
              let event_end := delimiter_start + delimiter_len in
              match parse_event block event_end f with
              | (Err e, f') => Some (Err e, f')
              | (Ok event, f') =>
                  frame_loop fuel' body event_end (events ++ option_list event) (set_start event_end f')
              end
          end
      end
  end.
Definition advance (body : list byte) (f : IncrementalSseFramer)
    : option (result SseFramingError (list CompleteSseEvent) * IncrementalSseFramer) :=
  if length body <? observed_body_len f then Some (Err BodyShrank, f)
  else
    let f := set_observed (length body) f in
    match frame_loop (S (length body)) body (scan_offset f `max` event_start f) [] f with
    | Some (Ok events, f') => Some (Ok events, set_scan ((length body - 3) `max` event_start f') f')
    | r => r
    end.
End Framer.

(** A body that arrives in pieces: the framer is called after each, until it fails. *)
Fixpoint feed (received : list byte) (pieces : list (list byte)) (f : IncrementalSseFramer)
    : option (list CompleteSseEvent * result SseFramingError IncrementalSseFramer) :=
  match pieces with
  | [] => Some ([], Ok f)
  | piece :: rest =>
      match Framer.advance (received ++ piece) f with
      | None => None
      | Some (Err e, _) => Some ([], Err e)
      | Some (Ok events, f') =>
          '(later, r) ← feed (received ++ piece) rest f';
          Some (events ++ later, r)
      end
  end.

Module FramerFacts.
Import Framer PathFacts.

#[export] Instance delimiter_pattern : Pattern delimiter 4.
Proof.
  assert (∀ n l x, length n ≤ length l → bytes_start_with n (l ++ x) = bytes_start_with n l) as Hs.
  { induction n as [|a n IH]; intros [|b l] x Hl; cbn in *; try done; try lia. rewrite IH by lia. done. }
  split.
  - done.
  - intros l x a. unfold delimiter. destruct (bytes_start_with CRLFCRLF l) eqn:E1.
    + apply starts_with_app in E1 as [r ->]. by intros [= <-].
    + destruct (bytes_start_with LFLF l) eqn:E2; [|done]. apply starts_with_app in E2 as [r ->].
      by intros [= <-].
  - intros l x Hl. unfold delimiter. rewrite !Hs by (cbn; lia). done.
  - intros l x p a H Hp.
    destruct p as [|p]; [rewrite drop_0 in Hp; congruence|].
    assert (2 ≤ length (drop (S p) l)) as Hlen.
    { unfold delimiter in Hp. destruct (bytes_start_with CRLFCRLF _) eqn:E1.
      - apply starts_with_app in E1 as [r ->]. rewrite length_app. cbn. lia.
      - destruct (bytes_start_with LFLF _) eqn:E2; [|done]. apply starts_with_app in E2 as [r ->].
        rewrite length_app. cbn. lia. }
    rewrite length_drop in Hlen.
    destruct l as [|a0 [|a1 [|a2 l]]]; cbn in Hlen; try lia.
    destruct l as [|a3 l].
    + destruct p as [|p]; [|cbn in Hlen; lia]. cbn in *. revert H Hp. unfold delimiter. cbn.
      repeat case_bool_decide; cbn; try done; simplify_eq.
    + unfold delimiter in *. rewrite !Hs by (cbn; lia). done.
Qed.

Lemma delimiter_len l n : delimiter l = Some n → 2 ≤ n ≤ length l.
Proof.
  unfold delimiter. destruct (bytes_start_with CRLFCRLF l) eqn:E1.
  - apply starts_with_app in E1 as [r ->]. intros [= <-]. rewrite length_app. cbn. lia.
  - destruct (bytes_start_with LFLF l) eqn:E2; [|done]. apply starts_with_app in E2 as [r ->].
    intros [= <-]. rewrite length_app. cbn. lia.
Qed.

Lemma next_bounds b s p n :
  next_event_delimiter b s = Some (p, n) → s ≤ p ∧ p + 2 ≤ p + n ≤ length b.
Proof.
  unfold next_event_delimiter. intros E. pose proof (first_from_bound _ _ _ _ E).
  apply first_from_Some in E as (Hp & Hd & _). apply delimiter_len in Hd.
  rewrite length_drop in Hd. lia.
Qed.

(** ** The events of a body, without cursors *)

Definition event_of (block : list byte) (index end_offset : nat) : option CompleteSseEvent :=
  let fields := parse_lines (lines (String.string_of_list_byte block)) in
  match fd_data fields with
  | [] => None
  | data_lines => Some (mkSseEvent index end_offset (fd_type fields) (fd_id fields)
                          (String.concat (String newline EmptyString) data_lines))
  end.
Definition block_at (b : list byte) (start stop : nat) : list byte := take (stop - start) (drop start b).
Definition prepend (es : list CompleteSseEvent) (r : result SseFramingError (list CompleteSseEvent))
    : result SseFramingError (list CompleteSseEvent) :=
  match r with Ok l => Ok (es ++ l) | Err e => Err e end.

(** Framing the part of [b] behind [start], with the next index: what comes out, and
    where framing stands afterwards. *)
Inductive framed (b : list byte) :
    nat → nat → result SseFramingError (list CompleteSseEvent) → nat → nat → Prop :=
| framed_rest s i : next_event_delimiter b s = None → framed b s i (Ok []) s i
| framed_invalid s i p n :
    next_event_delimiter b s = Some (p, n) → utf8_valid (block_at b s p) = false →
    framed b s i (Err InvalidUtf8) s i
| framed_block s i p n r s' i' :
    next_event_delimiter b s = Some (p, n) → utf8_valid (block_at b s p) = true →
    let e := event_of (block_at b s p) i (p + n) in
    framed b (p + n) (i + length (option_list e)) r s' i' →
    framed b s i (prepend (option_list e) r) s' i'.

Lemma prepend_app a c r : prepend a (prepend c r) = prepend (a ++ c) r.
Proof. destruct r; cbn; by rewrite ?app_assoc. Qed.
Lemma prepend_nil r : prepend [] r = r.
Proof. by destruct r. Qed.

Lemma framed_det b s i r1 s1 i1 r2 s2 i2 :
  framed b s i r1 s1 i1 → framed b s i r2 s2 i2 → r1 = r2 ∧ s1 = s2 ∧ i1 = i2.
Proof.
  intros H. revert r2 s2 i2. induction H as [s i H|s i p n H Hu|s i p n r s' i' H Hu e _ IH];
    intros r2 s2 i2 H2; inversion H2 as [? ? H'|? ? ? ? H' ?|? ? p' n' r' ? ? H' ? ? F]; subst;
    try congruence; try done.
  rewrite H in H'. injection H' as <- <-. by destruct (IH _ _ _ F) as (-> & -> & ->).
Qed.

Lemma framed_end b s i r s' i' : s ≤ length b → framed b s i r s' i' → s ≤ s' ≤ length b.
Proof.
  intros Hs. induction 1 as [s i H|s i p n H Hu|s i p n r s' i' H Hu e _ IH]; [lia|lia|].
  apply next_bounds in H. lia.
Qed.

Lemma framed_done b s i es s' i' : framed b s i (Ok es) s' i' → next_event_delimiter b s' = None.
Proof.
  remember (Ok es) as r eqn:Er. intros H. revert es Er.
  induction H as [s i H|s i p n H Hu|s i p n r s' i' H Hu e _ IH]; intros es Er; [done|done|].
  destruct r; [|done]. by eapply IH.
Qed.

Lemma block_at_app b x s p : p ≤ length b → block_at (b ++ x) s p = block_at b s p.
Proof.
  intros Hp. unfold block_at. destruct (decide (s ≤ p)).
  - rewrite drop_app_le by lia. rewrite take_app_le; [done|]. rewrite length_drop. lia.
  - by replace (p - s) with 0 by lia.
Qed.

(** Bytes that arrive later continue where framing stood. *)
Lemma framed_app b x s i es s1 i1 r s2 i2 :
  framed b s i (Ok es) s1 i1 → framed (b ++ x) s1 i1 r s2 i2 → framed (b ++ x) s i (prepend es r) s2 i2.
Proof.
  remember (Ok es) as o eqn:Eo. intros H. revert es Eo.
  induction H as [s i H|s i p n H Hu|s i p n r' s' i' H Hu e _ IH]; intros es Eo H2; [|done|].
  - injection Eo as <-. by rewrite prepend_nil.
  - destruct r' as [es'|]; [|done]. injection Eo as <-. rewrite <-prepend_app.
    pose proof (next_bounds _ _ _ _ H) as Hb.
    apply (first_from_app _ x) in H. subst e. rewrite <-(block_at_app b x) by lia.
    apply (framed_block _ _ _ p n); [done|by rewrite block_at_app by lia|].
    rewrite block_at_app by lia. by apply IH.
Qed.
Lemma framed_app_Err b x s i err s1 i1 :
  framed b s i (Err err) s1 i1 → framed (b ++ x) s i (Err err) s1 i1.
Proof.
  remember (Err err) as o eqn:Eo. intros H. revert err Eo.
  induction H as [s i H|s i p n H Hu|s i p n r' s' i' H Hu e _ IH]; intros err Eo; [done| |].
  - pose proof (next_bounds _ _ _ _ H) as Hb. apply (first_from_app _ x) in H. injection Eo as <-.
    apply (framed_invalid _ _ _ p n); [done|]. rewrite block_at_app by lia. done.
  - destruct r' as [|err']; [done|]. injection Eo as ->. cbn.
    pose proof (next_bounds _ _ _ _ H) as Hb. apply (first_from_app _ x) in H.
    change (Err err) with (prepend (option_list e) (Err err)).
    subst e. rewrite <-(block_at_app b x) by lia.
    apply (framed_block _ _ _ p n); [done|by rewrite block_at_app by lia|].
    rewrite block_at_app by lia. by apply (IH err).
Qed.

(** ** The loop *)

Lemma set_index_same f : set_index (next_event_index f + 0) f = f.
Proof. destruct f. unfold set_index. cbn. by rewrite Nat.add_0_r. Qed.

Lemma parse_event_eq block off f :
  utf8_valid block = true →
  parse_event block off f =
    (Ok (event_of block (next_event_index f) off),
     set_index (next_event_index f + length (option_list (event_of block (next_event_index f) off))) f).
Proof.
  intros Hu. unfold parse_event, event_of. rewrite Hu. destruct (fd_data _); cbn.
  - by rewrite set_index_same.
  - by rewrite Nat.add_1_r.
Qed.

Lemma frame_loop_framed fuel b c es f r f' :
  event_start f ≤ c → event_start f ≤ length b →
  (∀ q, event_start f ≤ q < c → delimiter (drop q b) = None) →
  frame_loop fuel b c es f = Some (r, f') →
  ∃ r', framed b (event_start f) (next_event_index f) r' (event_start f') (next_event_index f') ∧
    r = prepend es r' ∧ scan_offset f' = scan_offset f ∧ observed_body_len f' = observed_body_len f.
Proof.
  revert c es f. induction fuel as [|fuel IH]; intros c es f Hc Hb Hskip; [done|].
  cbn [frame_loop]. rewrite <-(first_from_skip b (event_start f) c Hc Hskip : _ = next_event_delimiter b c).
  fold (next_event_delimiter b (event_start f)).
  destruct (next_event_delimiter b (event_start f)) as [[p n]|] eqn:E.
  - pose proof (next_bounds _ _ _ _ E) as Hp. unfold get_range. rewrite bool_decide_true by lia.
    fold (block_at b (event_start f) p).
    destruct (utf8_valid (block_at b (event_start f) p)) eqn:Eu.
    + rewrite parse_event_eq by done. intros H.
      apply IH in H as (r' & Hf & -> & Hs & Ho); cbn in *; [|lia..].
      eexists. split; [by eapply framed_block|]. by rewrite prepend_app.
    + unfold parse_event. rewrite Eu. intros [= <- <-]. exists (Err InvalidUtf8).
      split; [by eapply framed_invalid|done].
  - intros [= <- <-]. exists (Ok []). split; [by apply framed_rest|]. cbn. by rewrite app_nil_r.
Qed.

(** The fuel suffices: every delimiter lies behind the last. *)
Lemma frame_loop_total fuel b c es f :
  length b - c < fuel → is_Some (frame_loop fuel b c es f).
Proof.
  revert c es f. induction fuel as [|fuel IH]; intros c es f Hf; [lia|]. cbn [frame_loop].
  destruct (next_event_delimiter b c) as [[p n]|] eqn:E; [|by eauto].
  apply next_bounds in E. destruct (get_range _ _ _); [|by eauto].
  destruct (parse_event _ _ _) as [[e|e] f']; [|by eauto]. apply IH. lia.
Qed.

Lemma advance_total b f : is_Some (advance b f).
Proof.
  unfold advance. destruct (_ <? _); [by eauto|].
  destruct (frame_loop_total (S (length b)) b
    (scan_offset (set_observed (length b) f) `max` event_start (set_observed (length b) f)) []
    (set_observed (length b) f)) as [[[es|e] f'] ->]; [lia|..]; by eauto.
Qed.

(** What a framer remembers of the body it has seen. *)
Record seen (b : list byte) (f : IncrementalSseFramer) : Prop := {
  seen_start : event_start f ≤ length b;
  seen_observed : observed_body_len f = length b;
  seen_none : next_event_delimiter b (event_start f) = None;
  seen_scan : scan_offset f = (length b - 3) `max` event_start f;
}.

Lemma seen_default : seen [] default_.
Proof. by split. Qed.

(** One call on a body that has grown. *)
Lemma advance_framed b x f r f' :
  seen b f → advance (b ++ x) f = Some (r, f') →
  framed (b ++ x) (event_start f) (next_event_index f) r (event_start f') (next_event_index f') ∧
  (is_ok r = true → seen (b ++ x) f').
Proof.
  intros [Hs Ho Hn Hsc]. unfold advance.
  destruct (Nat.ltb_spec (length (b ++ x)) (observed_body_len f)) as [Hl|_];
    [rewrite length_app in Hl; lia|].
  set (f0 := set_observed (length (b ++ x)) f).
  destruct (frame_loop_total (S (length (b ++ x))) (b ++ x) (scan_offset f0 `max` event_start f0) [] f0)
    as [[r1 f1] E]; [lia|]. rewrite E.
  apply frame_loop_framed in E as (r' & Hf & -> & Hsc' & Ho'); cbn in *.
  - rewrite prepend_nil in *. destruct r' as [es|e]; intros [= <- <-]; cbn; [|done].
    split; [done|]. intros _.
    assert (event_start f ≤ event_start f1 ≤ length (b ++ x)) as He.
    { eapply framed_end, Hf. rewrite length_app. lia. }
    split; cbn; [lia|done|by eapply framed_done|done].
  - lia.
  - rewrite length_app. lia.
  - intros q Hq. apply (first_from_open b x (event_start f)); [exact Hn|lia|lia].
Qed.

(** Pieces that follow [received]. *)
Lemma feed_framed received pieces f :
  seen received f →
  ∃ es out, feed received pieces f = Some (es, out) ∧
    match out with
    | Ok f' =>
        framed (received ++ concat pieces) (event_start f) (next_event_index f) (Ok es)
          (event_start f') (next_event_index f') ∧ seen (received ++ concat pieces) f'
    | Err e =>
        ∃ s i, framed (received ++ concat pieces) (event_start f) (next_event_index f) (Err e) s i
    end.
Proof.
  revert received f. induction pieces as [|x pieces IH]; intros received f Hseen; cbn [feed concat].
  { exists [], (Ok f). rewrite app_nil_r. split; [done|]. split; [|done]. apply framed_rest, Hseen. }
  destruct (advance_total (received ++ x) f) as [[r f1] E]. rewrite E.
  destruct (advance_framed received x f r f1 Hseen E) as [Hf Hs].
  destruct r as [es|e].
  - destruct (IH (received ++ x) f1 (Hs eq_refl)) as (es' & out & -> & Hout).
    exists (es ++ es'), out. split; [done|]. rewrite app_assoc. destruct out as [f'|e].
    + destruct Hout as [Hf' Hs']. split; [|done]. by apply (framed_app _ _ _ _ es _ _ (Ok es')) with (1 := Hf).
    + destruct Hout as (s & i & Hf'). exists s, i.
      by apply (framed_app _ _ _ _ es _ _ (Err e)) with (1 := Hf).
  - exists [], (Err e). split; [done|]. rewrite app_assoc.
    exists (event_start f1), (next_event_index f1). by apply framed_app_Err.
Qed.

Lemma seen_eq b f f' :
  seen b f → seen b f' → event_start f = event_start f' → next_event_index f = next_event_index f' →
  f = f'.
Proof.
  intros [_ Ho _ Hs] [_ Ho' _ Hs'] Es Ei. destruct f, f'. cbn in *. congruence.
Qed.


(** ** Printed events are framed back *)

(** An event as a server prints it: optional type and id, then one or more data lines. *)
Record Printed := mkPrinted {
  pr_type : option string; pr_id : option string; pr_first : string; pr_more : list string }.
Definition field_lines (e : Printed) : list string :=
  (option_list ((λ v, "event: " +:+ v) <$> pr_type e)) ++
  (option_list ((λ v, "id: " +:+ v) <$> pr_id e)) ++
  ((λ v, "data: " +:+ v) <$> (pr_first e :: pr_more e)).
Definition LF : byte := Byte.x0a.
Definition print (e : Printed) : list byte :=
  mjoin ((λ l, string_bytes l ++ [LF]) <$> field_lines e) ++ [LF].
(** A field value is text on one line. *)
Definition one_line (v : string) : Prop :=
  utf8_valid (string_bytes v) = true ∧ (Byte.x0a ∉ string_bytes v) ∧ (Byte.x0d ∉ string_bytes v).
Definition printable (e : Printed) : Prop :=
  (∀ v, pr_type e = Some v → one_line v) ∧ (∀ v, pr_id e = Some v → one_line v) ∧
  Forall one_line (pr_first e :: pr_more e).
(** The events of a printed stream, [at_] bytes and [i] events into it. *)
Fixpoint printed_events (at_ i : nat) (es : list Printed) : list CompleteSseEvent :=
  match es with
  | [] => []
  | e :: es' =>
      mkSseEvent i (at_ + length (print e)) (pr_type e) (pr_id e)
        (String.concat (String newline EmptyString) (pr_first e :: pr_more e))
      :: printed_events (at_ + length (print e)) (S i) es'
  end.

Lemma string_bytes_app a b : string_bytes (a +:+ b) = string_bytes a ++ string_bytes b.
Proof.
  unfold string_bytes, String.list_byte_of_string.
  induction a as [|c a IH]; [done|]. change (String c a +:+ b) with (String c (a +:+ b)).
  cbn in *. by rewrite IH.
Qed.

Lemma plain_delimiter b l : b ≠ Byte.x0a → b ≠ Byte.x0d → delimiter (b :: l) = None.
Proof. intros Ha Hd. unfold delimiter. cbn [bytes_start_with CRLFCRLF LFLF].
  by rewrite (bool_decide_false (Byte.x0d = b)), (bool_decide_false (Byte.x0a = b)) by congruence.
Qed.
Lemma line_end_delimiter b l : b ≠ Byte.x0a → delimiter (LF :: b :: l) = None.
Proof. intros Hb. unfold delimiter, LF. cbn [bytes_start_with CRLFCRLF LFLF].
  by rewrite (bool_decide_false (Byte.x0a = b)) by congruence.
Qed.

Lemma first_at_line pos l rest :
  Byte.x0a ∉ l → Byte.x0d ∉ l → first_at delimiter pos (l ++ rest) = first_at delimiter (pos + length l) rest.
Proof.
  revert pos. induction l as [|b l IH]; intros pos Ha Hd; [by rewrite Nat.add_0_r|].
  apply not_elem_of_cons in Ha as [Ha Ha'], Hd as [Hd Hd'].
  cbn [app first_at length]. rewrite plain_delimiter by done. rewrite IH by done. f_equal. lia.
Qed.

(** Lines, none of them empty, then an empty line: the delimiter is where they end. *)
Lemma first_at_lines ls pos rest :
  Forall (λ l, l ≠ [] ∧ (Byte.x0a ∉ l) ∧ (Byte.x0d ∉ l)) ls → ls ≠ [] →
  first_at delimiter pos (mjoin ((λ l, l ++ [LF]) <$> ls) ++ LF :: rest) =
    Some (pos + length (mjoin ((λ l, l ++ [LF]) <$> ls)) - 1, 2).
Proof.
  intros Hls. revert pos. induction Hls as [|l ls (Hne & Ha & Hd) Hls IH]; intros pos Hn; [done|].
  rewrite fmap_cons, mjoin_cons, <-!app_assoc, first_at_line, length_app, length_app by done.
  destruct ls as [|l' ls].
  - cbn. f_equal. f_equal. lia.
  - specialize (IH (pos + length l + 1) ltac:(done)).
    assert (∃ b m, mjoin ((λ l, l ++ [LF]) <$> l' :: ls) = b :: m ∧ b ≠ Byte.x0a) as (b & m & E & Hb).
    { apply Forall_cons in Hls as [(Hne' & Ha' & _) _]. destruct l' as [|b l']; [done|].
      apply not_elem_of_cons in Ha' as [Hb _]. rewrite fmap_cons, mjoin_cons. cbn [app]. eauto. }
    rewrite E in *. cbn [app first_at length] in *. rewrite line_end_delimiter by done.
    replace (S (pos + length l)) with (pos + length l + 1) by lia.
    rewrite IH. f_equal. f_equal. cbn. lia.
Qed.

Lemma contains_bytes c s : str_contains c s = false ↔ byte_of_ascii c ∉ string_bytes s.
Proof.
  unfold string_bytes, String.list_byte_of_string. induction s as [|a s IH]; cbn.
  - split; [|done]. intros _. apply not_elem_of_nil.
  - rewrite orb_false_iff, bool_decide_eq_false, not_elem_of_cons, IH. split; intros [H1 H2]; split; try done.
    + intros E. apply H1. apply (f_equal ascii_of_byte) in E. by rewrite !ascii_of_byte_of_ascii in E.
    + congruence.
Qed.

Lemma strip_cr_id s : Byte.x0d ∉ string_bytes s → strip_cr s = s.
Proof.
  intros H. unfold strip_cr. destruct (strip_suffix _ s) as [b|] eqn:E; [|done].
  apply strip_suffix_Some in E as ->. rewrite string_bytes_app in H. exfalso. apply H.
  apply elem_of_app. right. by left.
Qed.

Lemma trim_end_cr_id s : Byte.x0d ∉ string_bytes s → trim_end_cr s = s.
Proof.
  intros H. unfold trim_end_cr.
  assert (∀ a, a ∈ reverse (String.list_ascii_of_string s) → a ≠ "013"%char) as Hn.
  { intros a Ha ->. rewrite elem_of_reverse in Ha. apply H. unfold string_bytes, String.list_byte_of_string.
    apply (list_elem_of_fmap_2 byte_of_ascii) in Ha. exact Ha. }
  destruct (reverse (String.list_ascii_of_string s)) as [|a l] eqn:E.
  - apply (f_equal reverse) in E. rewrite reverse_involutive in E. cbn in E.
    destruct s; [done|discriminate].
  - rewrite bool_decide_false by (apply Hn; by left).
    rewrite <-E, reverse_involutive. apply String.string_of_list_ascii_of_string.
Qed.

Lemma split_on_none c s : str_contains c s = false → split_on c s = [s].
Proof.
  intros H. pose proof (split_on_app c s "" "" [] H eq_refl) as E. by rewrite !string_app_nil_r in E.
Qed.
Lemma split_on_sep c s rest : str_contains c s = false → split_on c (s +:+ String c rest) = s :: split_on c rest.
Proof.
  intros H. destruct (split_on_cons c c rest) as (p & ps & E & E'). rewrite bool_decide_true in E' by done.
  by rewrite (split_on_app c s _ _ _ H E'), string_app_nil_r, E.
Qed.

Lemma concat_cons sep a b l : String.concat sep (a :: b :: l) = a +:+ (sep +:+ String.concat sep (b :: l)).
Proof. done. Qed.

Lemma split_concat c ls :
  ls ≠ [] → Forall (λ l, str_contains c l = false) ls →
  split_on c (String.concat (String c EmptyString) ls) = ls.
Proof.
  intros Hne H. induction H as [|l ls Hl Hls IH]; [done|]. destruct ls as [|l' ls].
  - by apply split_on_none.
  - rewrite concat_cons. change (String c "" +:+ ?x) with (String c x). rewrite split_on_sep by done.
    by rewrite IH.
Qed.

Definition line_ok (l : string) : Prop :=
  l ≠ "" ∧ utf8_valid (string_bytes l) = true ∧ (Byte.x0a ∉ string_bytes l) ∧ (Byte.x0d ∉ string_bytes l).

Lemma lines_concat ls :
  ls ≠ [] → Forall line_ok ls → lines (String.concat (String newline EmptyString) ls) = ls.
Proof.
  intros Hne H. unfold lines. rewrite split_concat; [|done|].
  - destruct ls as [|z init _] using rev_ind; [done|]. rewrite reverse_snoc. cbn [app].
    apply Forall_app in H as [Hi Hz]. apply Forall_cons in Hz as [(Hz & _) _].
    rewrite reverse_involutive, (bool_decide_false (z = "")) by done. f_equal.
    clear Hne. induction Hi as [|l init (_ & _ & _ & Hl) _ IH]; [done|].
    rewrite fmap_cons, IH. by rewrite strip_cr_id.
  - eapply Forall_impl; [exact H|]. intros l (_ & _ & Hl & _). by apply contains_bytes.
Qed.

Lemma concat_bytes ls :
  ls ≠ [] →
  mjoin ((λ l, string_bytes l ++ [LF]) <$> ls) =
    string_bytes (String.concat (String newline EmptyString) ls) ++ [LF].
Proof.
  induction ls as [|l ls IH]; [done|]. intros _. rewrite fmap_cons, mjoin_cons.
  destruct ls as [|l' ls]; [by rewrite app_nil_r|].
  rewrite IH by done. rewrite concat_cons, !string_bytes_app, <-!app_assoc. done.
Qed.

Lemma concat_utf8 ls :
  Forall line_ok ls → utf8_valid (string_bytes (String.concat (String newline EmptyString) ls)) = true.
Proof.
  induction 1 as [|l ls (_ & Hu & _) _ IH]; [done|]. destruct ls as [|l' ls]; [done|].
  rewrite concat_cons, !string_bytes_app. apply utf8_valid_app; [done|]. by apply utf8_valid_app.
Qed.

Lemma field_ok name v :
  name ≠ "" → utf8_valid (string_bytes name) = true → (Byte.x0a ∉ string_bytes name) →
  (Byte.x0d ∉ string_bytes name) → one_line v → line_ok (name +:+ v).
Proof.
  intros Hn Hu Ha Hd (Hvu & Hva & Hvd). split; [by destruct name|].
  rewrite string_bytes_app. split; [by apply utf8_valid_app|]. rewrite !not_elem_of_app. done.
Qed.

Lemma field_lines_ok e : printable e → Forall line_ok (field_lines e) ∧ field_lines e ≠ [].
Proof.
  intros (Ht & Hi & Hd). split.
  - unfold field_lines. rewrite !Forall_app. splits.
    + destruct (pr_type e) as [v|]; cbn; [|done]. apply Forall_singleton, field_ok; auto; set_solver.
    + destruct (pr_id e) as [v|]; cbn; [|done]. apply Forall_singleton, field_ok; auto; set_solver.
    + apply Forall_fmap. eapply Forall_impl; [exact Hd|]. intros v Hv. apply field_ok; auto; set_solver.
  - unfold field_lines. destruct (pr_type e), (pr_id e); done.
Qed.

Lemma parse_data acc v :
  line_ok ("data: " +:+ v) →
  parse_line acc ("data: " +:+ v) = mkFields (fd_data acc ++ [v]) (fd_type acc) (fd_id acc).
Proof. intros (_ & _ & _ & Hd). unfold parse_line. by rewrite trim_end_cr_id. Qed.
Lemma parse_type acc v :
  line_ok ("event: " +:+ v) →
  parse_line acc ("event: " +:+ v) = mkFields (fd_data acc) (Some v) (fd_id acc).
Proof. intros (_ & _ & _ & Hd). unfold parse_line. by rewrite trim_end_cr_id. Qed.
Lemma parse_id acc v :
  line_ok ("id: " +:+ v) → parse_line acc ("id: " +:+ v) = mkFields (fd_data acc) (fd_type acc) (Some v).
Proof. intros (_ & _ & _ & Hd). unfold parse_line. by rewrite trim_end_cr_id. Qed.

Lemma parse_datas acc vs :
  Forall line_ok ((λ v, "data: " +:+ v) <$> vs) →
  foldl parse_line acc ((λ v, "data: " +:+ v) <$> vs) =
    mkFields (fd_data acc ++ vs) (fd_type acc) (fd_id acc).
Proof.
  revert acc. induction vs as [|v vs IH]; intros acc H.
  - rewrite app_nil_r. by destruct acc.
  - rewrite fmap_cons in *. apply Forall_cons in H as [Hv Hvs]. cbn [foldl].
    rewrite parse_data, IH by done. cbn. by rewrite <-app_assoc.
Qed.

Lemma parse_printed e :
  Forall line_ok (field_lines e) →
  parse_lines (field_lines e) = mkFields (pr_first e :: pr_more e) (pr_type e) (pr_id e).
Proof.
  unfold parse_lines, field_lines. rewrite !Forall_app. intros (Ht & Hi & Hd). rewrite !foldl_app.
  destruct (pr_type e) as [t|], (pr_id e) as [i|]; cbn [option_list option_rect fmap option_fmap option_map foldl] in *;
    rewrite ?Forall_singleton in *; rewrite ?parse_type by done; rewrite ?parse_id by done;
    by rewrite parse_datas.
Qed.

(** One printed event in front of anything. *)
Lemma framed_print b e rest i r s' i' :
  printable e →
  framed (b ++ print e ++ rest) (length b + length (print e)) (S i) r s' i' →
  framed (b ++ print e ++ rest) (length b) i
    (prepend [mkSseEvent i (length b + length (print e)) (pr_type e) (pr_id e)
                (String.concat (String newline EmptyString) (pr_first e :: pr_more e))] r) s' i'.
Proof.
  intros Hp Hr. destruct (field_lines_ok e Hp) as [Hok Hne].
  set (text := string_bytes (String.concat (String newline EmptyString) (field_lines e))).
  assert (print e = text ++ [LF; LF]) as Ep.
  { unfold print. rewrite concat_bytes by done. subst text. by rewrite <-app_assoc. }
  assert (length (print e) = length text + 2) as Elen by (rewrite Ep, length_app; cbn; lia).
  assert (next_event_delimiter (b ++ print e ++ rest) (length b) = Some (length b + length text, 2)) as Hd.
  { unfold next_event_delimiter, first_from. rewrite drop_app_length.
    assert ((λ l, string_bytes l ++ [LF]) <$> field_lines e =
      (λ l, l ++ [LF]) <$> (string_bytes <$> field_lines e)) as El by (by rewrite <-list_fmap_compose).
    unfold print. rewrite <-app_assoc, El. cbn [app]. rewrite first_at_lines.
    - f_equal. f_equal. rewrite <-El, concat_bytes by done. fold text. rewrite length_app. cbn. lia.
    - apply Forall_fmap. eapply Forall_impl; [exact Hok|]. intros l (Hl & _ & Ha & Hd). splits; try done.
      cbn. by destruct l.
    - by destruct (field_lines e). }
  assert (block_at (b ++ print e ++ rest) (length b) (length b + length text) = text) as Hb.
  { unfold block_at. rewrite drop_app_length, Ep, <-app_assoc.
    replace (length b + length text - length b) with (length text) by lia. by rewrite take_app_length. }
  assert (event_of text i (length b + length text + 2) =
    Some (mkSseEvent i (length b + length (print e)) (pr_type e) (pr_id e)
                (String.concat (String newline EmptyString) (pr_first e :: pr_more e)))) as He.
  { assert (lines (String.string_of_list_byte text) = field_lines e) as El.
    { subst text. unfold string_bytes. rewrite String.string_of_list_byte_of_string. by apply lines_concat. }
    unfold event_of. rewrite El, parse_printed by done. cbn [fd_data fd_type fd_id].
    by rewrite Elen, Nat.add_assoc. }
  pose proof (framed_block (b ++ print e ++ rest) (length b) i (length b + length text) 2 r s' i' Hd) as H.
  rewrite Hb in H. cbn zeta in H. rewrite He in H. cbn [option_list option_rect] in H. apply H.
  - by apply concat_utf8.
  - cbn [length option_list option_rect]. by rewrite Nat.add_1_r, <-Nat.add_assoc, <-Elen.
Qed.

Lemma framed_printed es b i :
  Forall printable es →
  ∃ s', framed (b ++ mjoin (print <$> es)) (length b) i (Ok (printed_events (length b) i es)) s'
          (i + length es).
Proof.
  intros H. revert b i. induction H as [|e es He _ IH]; intros b i.
  - exists (length b). cbn. rewrite app_nil_r, Nat.add_0_r. apply framed_rest.
    unfold next_event_delimiter, first_from. by rewrite drop_all.
  - rewrite fmap_cons, mjoin_cons. destruct (IH (b ++ print e) (S i)) as (s' & Hf).
    rewrite <-app_assoc, length_app in Hf. exists s'. cbn [printed_events].
    apply (framed_print b e _ i _ s' _) in Hf; [|done]. cbn [prepend app] in Hf.
    cbn [length]. by replace (i + S (length es)) with (S i + length es) by lia.
Qed.

(** C26: Printed events come back.  A stream of events printed one per block, each
    with an optional type and id and one or more one-line data fields, cut into pieces in
    any way, is framed into exactly those events, in order, with consecutive indices,
    each ending where its block ends. *)
Theorem sse_roundtrip es pieces :
  Forall printable es → concat pieces = mjoin (print <$> es) →
  ∃ f, feed [] pieces default_ = Some (printed_events 0 0 es, Ok f) ∧ next_event_index f = length es.
Proof.
  intros Hes Hp. destruct (feed_framed [] pieces default_ seen_default) as (evs & out & Hfeed & Hout).
  rewrite Hp in Hout. cbn [app] in Hout. destruct (framed_printed es [] 0 Hes) as (s' & Hf). cbn in Hf, Hout.
  destruct out as [f|e].
  - destruct Hout as [Hf' _]. destruct (framed_det _ _ _ _ _ _ _ _ _ Hf Hf') as ([= <-] & _ & Hi).
    by exists f.
  - destruct Hout as (? & ? & Hf'). by destruct (framed_det _ _ _ _ _ _ _ _ _ Hf Hf') as ([=] & _ & _).
Qed.

Definition printed0 : list Printed :=
  [mkPrinted (Some "delta") None "a" ["b"]; mkPrinted None (Some "7") "[DONE]" []].
Lemma sse_roundtrip_witness :
  ∃ f, feed [] ((λ b, [b]) <$> mjoin (print <$> printed0)) default_ =
         Some ([mkSseEvent 0 30 (Some "delta") None ("a" +:+ String newline "b");
                mkSseEvent 1 50 None (Some "7") "[DONE]"], Ok f) ∧ next_event_index f = 2.
Proof.
  apply (sse_roundtrip printed0 ((λ b, [b]) <$> mjoin (print <$> printed0))).
  - repeat constructor; cbn; try (intros ? [= <-]); repeat constructor; cbn; try done; set_solver.
  - vm_compute. reflexivity.
Defined.

(** An invalid block costs the events in front of it in the same call, which are
    delivered when they arrive in a call of their own. *)
Definition bad_block : list byte := [Byte.xff; LF; LF].
Example invalid_block_drops_events :
  let good := print (mkPrinted None None "a" []) in
  (∃ f, advance (good ++ bad_block) default_ = Some (Err InvalidUtf8, f)) ∧
  feed [] [good; bad_block] default_ = Some ([mkSseEvent 0 9 None None "a"], Err InvalidUtf8).
Proof. split; [eexists|]; vm_compute; reflexivity. Qed.
End FramerFacts.
