(* ===== verification/Http1.v ===== *)
(** The stateful HTTP/1 wire decoder of captured payloads:
    crates/core/semantic_action_runtime/src/llm_pipeline/transport/http1/decoder.rs and
    its content decoders (content_decoder/).

    The caller passes the whole wire received so far, which only grows between resets;
    offsets into it are naturals, sizes read from the wire are [usize] values in [Z].
    The decompressors (gzip, brotli, zstd crates) are a type class; the identity coding
    is the code's own. *)
From stdpp Require Import prelude strings.
From Stdlib Require Import ZArith Lia Ascii.
From coqutil Require Import Byte.
From S2P Require Import Prelude Bytes Utf8 PolicyPath CommandText Scan.

Open Scope nat_scope.

Inductive Http1Direction := DirRequest | DirResponse.
Inductive Http1DecodeFailure :=
| BufferCapacity | InvalidContentLength | InvalidContentEncoding | InvalidHead | InvalidChunkSize
| InvalidChunkTerminator.
#[export] Instance direction_eq_dec : EqDecision Http1Direction.
Proof. solve_decision. Defined.
#[export] Instance http1_failure_eq_dec : EqDecision Http1DecodeFailure.
Proof. solve_decision. Defined.

(** * Content decoders *)

Inductive ContentCoding := Brotli | Gzip | Zstd.
(** [io::ErrorKind], as far as [DecoderHandle::failure] looks at it. *)
Inductive IoErrorKind := OutOfMemory | OtherKind.

(** The decompressors: created with the limit of the body they write to. *)
Class Decompressors : Type := {
  Coder : Type;
  coder_new : ContentCoding → Z → result IoErrorKind Coder;
  coder_append : list byte → Coder → result IoErrorKind Coder;
  coder_finish : Coder → result IoErrorKind Coder;
  coder_snapshot : Coder → list byte;
}.
(** What is relied on: a decompressor reads a stream, wherever it is cut. *)
Class Streaming (D : Decompressors) : Prop := {
  coder_append_nil c : coder_append [] c = Ok c;
  coder_append_app a b c : coder_append (a ++ b) c = (c' ← coder_append a c; coder_append b c');
}.

Module H1.
Section decoder.
Context {D : Decompressors}.

(** [BoundedBody] under the identity coding, or a decompressor. *)
Inductive DecoderHandle :=
| HIdentity (bytes : list byte) (max_bytes : Z)
| HStateful (c : Coder).

(** [DecoderHandle::failure]. *)
Definition failure (e : IoErrorKind) : Http1DecodeFailure :=
  match e with OutOfMemory => BufferCapacity | OtherKind => InvalidContentEncoding end.
Definition is_identity (h : DecoderHandle) : bool :=
  match h with HIdentity _ _ => true | HStateful _ => false end.
(** [BoundedBody::write] through [write_all]. *)
Definition bounded_write (bytes body : list byte) (max_bytes : Z) : result IoErrorKind (list byte) :=
  match bytes with
  | [] => Ok body
  | _ => if (max_bytes <? Z.of_nat (length body) + Z.of_nat (length bytes))%Z
         then Err OutOfMemory else Ok (body ++ bytes)
  end.
Definition handle_append (bytes : list byte) (h : DecoderHandle) : result Http1DecodeFailure DecoderHandle :=
  map_err failure
    match h with
    | HIdentity body max => (λ b, HIdentity b max) <$> bounded_write bytes body max
    | HStateful c => HStateful <$> coder_append bytes c
    end.
Definition handle_finish (h : DecoderHandle) : result Http1DecodeFailure DecoderHandle :=
  map_err failure
    match h with HIdentity _ _ => Ok h | HStateful c => HStateful <$> coder_finish c end.
Definition handle_snapshot (h : DecoderHandle) : list byte :=
  match h with HIdentity body _ => body | HStateful c => coder_snapshot c end.
Definition clear_identity (h : DecoderHandle) : DecoderHandle :=
  match h with HIdentity _ max => HIdentity [] max | HStateful _ => h end.

(** * Header text *)

(** [eq_ignore_ascii_case]. *)
Definition ascii_lower (a : ascii) : ascii :=
  let n := N_of_ascii a in if ((65 <=? n) && (n <=? 90))%N then ascii_of_N (n + 32) else a.
Fixpoint to_ascii_lowercase (s : string) : string :=
  match s with EmptyString => EmptyString | String a s' => String (ascii_lower a) (to_ascii_lowercase s') end.
Definition eq_ignore_ascii_case (a b : string) : bool :=
  bool_decide (to_ascii_lowercase a = to_ascii_lowercase b).

(** [s.split(p)] for a non-empty [p]: at most one piece more than there are bytes. *)
Fixpoint split_fuel (fuel : nat) (p s : string) : list string :=
  match fuel with
  | O => [s]
  | S fuel' => match split_once p s with
               | Some (l, r) => l :: split_fuel fuel' p r
               | None => [s]
               end
  end.
Definition split_str (p s : string) : list string := split_fuel (String.length s) p s.
Definition crlf : string := String "013"%char (String "010"%char EmptyString).

Definition header_values (headers_text name : string) : list string :=
  omap (λ line,
    match split_once ":" line with
    | Some (key, value) => if eq_ignore_ascii_case key name then Some (trim value) else None
    | None => None
    end) (split_str crlf headers_text).

(** [content_length]: all values of all headers must agree. *)
Fixpoint agree_lengths (parsed : option Z) (values : list string) : result Http1DecodeFailure (option Z) :=
  match values with
  | [] => Ok parsed
  | value :: rest =>
      length ← map_err (λ _, InvalidContentLength) (parse_usize (trim value));
      match parsed with
      | Some previous => if (previous =? length)%Z then agree_lengths (Some length) rest
                         else Err InvalidContentLength
      | None => agree_lengths (Some length) rest
      end
  end.
Definition content_length (headers_text : string) : result Http1DecodeFailure (option Z) :=
  agree_lengths None (mjoin (split_str "," <$> header_values headers_text "content-length")).

(** [DecoderFactory::create]. *)
Definition create (headers : string) (max_bytes : Z) : result Http1DecodeFailure DecoderHandle :=
  match header_values headers "content-encoding" with
  | _ :: _ :: _ => Err InvalidContentEncoding
  | codings =>
      let coding := default "identity" (head codings) in
      if eq_ignore_ascii_case coding "identity" then Ok (HIdentity [] max_bytes)
      else if eq_ignore_ascii_case coding "br"
      then map_err failure (HStateful <$> coder_new Brotli max_bytes)
      else if eq_ignore_ascii_case coding "gzip"
      then map_err failure (HStateful <$> coder_new Gzip max_bytes)
      else if eq_ignore_ascii_case coding "zstd"
      then map_err failure (HStateful <$> coder_new Zstd max_bytes)
      else Err InvalidContentEncoding
  end.

(** * Message heads *)

Inductive BodyFraming := NoBody | Fixed (length : Z) | Chunked | UntilEof.
#[export] Instance framing_eq_dec : EqDecision BodyFraming.
Proof. solve_decision. Defined.
Record ParsedHead := mkHead {
  ph_protocol : string;
  ph_method : option string;
  ph_authority : option string;
  ph_path : option string;
  ph_status_code : option string;
  ph_reason : option string;
  ph_framing : BodyFraming;
}.

Definition length_framing (length : Z) : BodyFraming := if (length =? 0)%Z then NoBody else Fixed length.
Definition request_framing (chunked : bool) (content_length : option Z) : BodyFraming :=
  if chunked then Chunked else match content_length with Some l => length_framing l | None => NoBody end.
Definition response_framing (chunked : bool) (content_length : option Z) (no_body : bool) : BodyFraming :=
  if no_body then NoBody
  else if chunked then Chunked
  else match content_length with Some l => length_framing l | None => UntilEof end.

Definition transfer_chunked (headers_text : string) : bool :=
  match last (header_values headers_text "transfer-encoding") with
  | Some value => match last (split_str "," value) with
                  | Some coding => eq_ignore_ascii_case (trim coding) "chunked"
                  | None => false
                  end
  | None => false
  end.

Definition status_ok (status : string) : bool :=
  bool_decide (String.length status = 3) &&
  forallb (λ a, bool_decide (is_Some (digit a))) (String.list_ascii_of_string status).

Definition parse_request (headers_text first_line : string) (framing : BodyFraming)
    : result Http1DecodeFailure ParsedHead :=
  match split_whitespace first_line with
  | method :: path :: version :: _ =>
      if String.prefix "HTTP/" version
      then Ok (mkHead "http/1.1" (Some method) (head (header_values headers_text "host")) (Some path)
                 None None framing)
      else Err InvalidHead
  | _ => Err InvalidHead
  end.
(** [splitn(3, ' ')]. *)
Definition splitn3 (s : string) : string * option string * option string :=
  match split_once " " s with
  | None => (s, None, None)
  | Some (a, r) => match split_once " " r with
                   | None => (a, Some r, None)
                   | Some (b, c) => (a, Some b, Some c)
                   end
  end.
Definition parse_response (first_line : string) (chunked : bool) (length : option Z)
    : result Http1DecodeFailure ParsedHead :=
  let '(version, status, reason) := splitn3 first_line in
  if String.prefix "HTTP/" version then
    match status with
    | Some status =>
        if status_ok status then
          let no_body := String.prefix "1" status || bool_decide (status = "204")
                         || bool_decide (status = "304") in
          Ok (mkHead "http/1.1" None None None (Some status) reason
                (response_framing chunked length no_body))
        else Err InvalidHead
    | None => Err InvalidHead
    end
  else Err InvalidHead.
Definition parse_head (direction : Http1Direction) (headers_text : string)
    : result Http1DecodeFailure ParsedHead :=
  let first_line := default EmptyString (head (split_str crlf headers_text)) in
  let chunked := transfer_chunked headers_text in
  length ← content_length headers_text;
  match direction with
  | DirRequest => parse_request headers_text first_line (request_framing chunked length)
  | DirResponse => parse_response first_line chunked length
  end.

(** * Decoder state *)

Inductive ChunkState :=
| SizeLine (scan : nat)
| Data (remaining : Z)
| DataCrlf (matched : nat)
| Trailers (scan : nat)
| ChunksComplete.
Record ActiveMessage := mkActive {
  am_head : ParsedHead;                 (* protocol, method, authority, path, status, reason *)
  am_headers_text : string;
  am_body : option DecoderHandle;
  am_content_failure : option Http1DecodeFailure;
  am_max_decoded_bytes : Z;
  am_body_start : nat;
  am_wire_cursor : nat;
  am_framing : BodyFraming;
  am_chunk : ChunkState;
  am_complete : bool;
}.
Inductive DecodeState :=
| ReadingHead (scan : nat)
| ReadingBody (active : ActiveMessage)
| DecodeFailed (failure : Http1DecodeFailure).
Record Http1Decoder := mkDecoder {
  hd_direction : Http1Direction;
  hd_max_buffer_bytes : Z;
  hd_max_decoded_bytes : Z;
  hd_state : DecodeState;
}.
Inductive DecodedHttp1Body := Shared (bytes : list byte) | WireRange (start stop : nat).
Record DecodedHttp1Message := mkDecoded {
  dm_framing_failure : option Http1DecodeFailure;
  dm_content_failure : option Http1DecodeFailure;
  dm_head : ParsedHead;
  dm_headers_text : string;
  dm_body : DecodedHttp1Body;
  dm_declared_body_len : option Z;
  dm_encoded_len : nat;
  dm_complete : bool;
  dm_body_boundary_known : bool;
}.

Definition set_body (b : option DecoderHandle) (f : option Http1DecodeFailure) (a : ActiveMessage) : ActiveMessage :=
  mkActive (am_head a) (am_headers_text a) b f (am_max_decoded_bytes a) (am_body_start a)
    (am_wire_cursor a) (am_framing a) (am_chunk a) (am_complete a).
Definition set_cursor (c : nat) (a : ActiveMessage) : ActiveMessage :=
  mkActive (am_head a) (am_headers_text a) (am_body a) (am_content_failure a) (am_max_decoded_bytes a)
    (am_body_start a) c (am_framing a) (am_chunk a) (am_complete a).
Definition set_framing (f : BodyFraming) (a : ActiveMessage) : ActiveMessage :=
  mkActive (am_head a) (am_headers_text a) (am_body a) (am_content_failure a) (am_max_decoded_bytes a)
    (am_body_start a) (am_wire_cursor a) f (am_chunk a) (am_complete a).
Definition set_chunk (c : ChunkState) (a : ActiveMessage) : ActiveMessage :=
  mkActive (am_head a) (am_headers_text a) (am_body a) (am_content_failure a) (am_max_decoded_bytes a)
    (am_body_start a) (am_wire_cursor a) (am_framing a) c (am_complete a).
Definition set_complete (c : bool) (a : ActiveMessage) : ActiveMessage :=
  mkActive (am_head a) (am_headers_text a) (am_body a) (am_content_failure a) (am_max_decoded_bytes a)
    (am_body_start a) (am_wire_cursor a) (am_framing a) (am_chunk a) c.
Definition set_state (s : DecodeState) (d : Http1Decoder) : Http1Decoder :=
  mkDecoder (hd_direction d) (hd_max_buffer_bytes d) (hd_max_decoded_bytes d) s.

(** [Http1Decoder::new], [with_decoded_limit], [reset]. *)
Definition new (direction : Http1Direction) (max_buffer_bytes : Z) : Http1Decoder :=
  mkDecoder direction max_buffer_bytes max_buffer_bytes (ReadingHead 0).
Definition with_decoded_limit (max_bytes : Z) (d : Http1Decoder) : Http1Decoder :=
  mkDecoder (hd_direction d) (hd_max_buffer_bytes d) max_bytes (hd_state d).
Definition reset (d : Http1Decoder) : Http1Decoder := set_state (ReadingHead 0) d.

(** [ActiveMessage::snapshot]. *)
Definition snapshot (a : ActiveMessage) : DecodedHttp1Message :=
  mkDecoded None (am_content_failure a) (am_head a) (am_headers_text a)
    match am_body a with
    | Some body => Shared (handle_snapshot body)
    | None => if bool_decide (is_Some (am_content_failure a)) then WireRange 0 0
              else WireRange (am_body_start a) (am_wire_cursor a)
    end
    match am_framing a with
    | NoBody => Some 0%Z
    | Fixed length => Some length
    | Chunked | UntilEof => None
    end
    (am_wire_cursor a) (am_complete a) (negb (bool_decide (am_framing a = UntilEof))).
Definition with_framing_failure (f : Http1DecodeFailure) (m : DecodedHttp1Message) : DecodedHttp1Message :=
  mkDecoded (Some f) (dm_content_failure m) (dm_head m) (dm_headers_text m) (dm_body m)
    (dm_declared_body_len m) (dm_encoded_len m) (dm_complete m) (dm_body_boundary_known m).
(** [DecodedHttp1Body::bytes]. *)
Definition body_bytes (wire : list byte) (b : DecodedHttp1Body) : option (list byte) :=
  match b with
  | Shared bytes => Some bytes
  | WireRange start stop =>
      if bool_decide (start ≤ stop ≤ length wire) then Some (take (stop - start) (drop start wire)) else None
  end.

(** [copy_wire_delta]; it never fails. *)
Definition copy_wire_delta (wire : list byte) (stop : nat) (a : ActiveMessage) : ActiveMessage :=
  if stop <=? am_wire_cursor a then a
  else
    let a1 :=
      if bool_decide (am_body a = None) && bool_decide (am_content_failure a = None)
         && (am_max_decoded_bytes a <? Z.of_nat (stop - am_body_start a))%Z
      then set_body None (Some BufferCapacity) a else a in
    let a2 :=
      match am_body a1 with
      | Some body =>
          match handle_append (take (stop - am_wire_cursor a1) (drop (am_wire_cursor a1) wire)) body with
          | Ok body' => set_body (Some body') (am_content_failure a1) a1
          | Err failure => set_body None (Some failure) a1
          end
      | None => a1
      end in
    set_cursor stop a2.

(** * Chunked bodies *)

Definition LINE_END : list byte := [Byte.x0d; Byte.x0a].
Definition HEADER_END : list byte := [Byte.x0d; Byte.x0a; Byte.x0d; Byte.x0a].

(** [find_bytes(&wire[start..], needle)], as a position of [wire]. *)
Definition find_from (wire needle : list byte) (start : nat) : option nat :=
  fst <$> first_from (at_needle needle) wire start.

(** [usize::from_str_radix(_, 16)]. *)
Definition hex_digit (a : ascii) : option Z :=
  let n := Z.of_N (N_of_ascii a) in
  (if (48 <=? n) && (n <=? 57) then Some (n - 48)
   else if (97 <=? n) && (n <=? 102) then Some (n - 87)
   else if (65 <=? n) && (n <=? 70) then Some (n - 55) else None)%Z.
Fixpoint parse_hex_digits (acc : Z) (s : string) : option Z :=
  match s with
  | EmptyString => Some acc
  | String a s' =>
      d ← hex_digit a;
      let v := (acc * 16 + d)%Z in
      if (v <=? u64_max)%Z then parse_hex_digits v s' else None
  end.
Definition parse_hex (s : string) : option Z :=
  match s with
  | EmptyString | String "+" EmptyString => None
  | String "+" s' => parse_hex_digits 0 s'
  | _ => parse_hex_digits 0 s
  end.
(** The size a chunk line announces; outer [None]: not UTF-8. *)
Definition chunk_size (line : list byte) : option (option Z) :=
  if utf8_valid line
  then Some (parse_hex (trim (default EmptyString (head (split_str ";" (String.string_of_list_byte line))))))
  else None.

(** [sse_field_line]. *)
Definition is_ascii_whitespace (b : byte) : bool :=
  existsb (λ w, bool_decide (b = w)) [Byte.x20; Byte.x09; Byte.x0a; Byte.x0c; Byte.x0d].
Fixpoint skip_whitespace (l : list byte) : list byte :=
  match l with b :: l' => if is_ascii_whitespace b then skip_whitespace l' else l | [] => [] end.
Definition sse_field_line (line : list byte) : bool :=
  existsb (λ name, bytes_start_with (string_bytes name) (skip_whitespace line))
    ["data:"; "event:"; "id:"; "retry:"; ":"].

(** One turn of the loop of [advance_chunked]. *)
Inductive Turn :=
| Again (a : ActiveMessage)
| Return (r : result Http1DecodeFailure ()) (a : ActiveMessage).

Definition size_line (wire : list byte) (scan : nat) (a : ActiveMessage) : Turn :=
  match find_from wire LINE_END ((scan - 1) `max` am_wire_cursor a) with
  | None => Return (Ok ()) (set_chunk (SizeLine (length wire)) a)
  | Some line_end =>
      let line := take (line_end - am_wire_cursor a) (drop (am_wire_cursor a) wire) in
      match chunk_size line with
      | None => Return (Err InvalidChunkSize) a
      | Some None =>
          if match am_body a with Some b => is_identity b | None => true end && sse_field_line line
          then
            let a1 := set_cursor (am_body_start a) (set_framing UntilEof a) in
            let a2 := set_body (clear_identity <$> am_body a1) (am_content_failure a1) a1 in
            Return (Ok ()) (copy_wire_delta wire (length wire) a2)
          else Return (Err InvalidChunkSize) a
      | Some (Some size) =>
          let a1 := set_cursor (line_end + 2) a in
          Again (set_chunk (if (size =? 0)%Z then Trailers (am_wire_cursor a1) else Data size) a1)
      end
  end.

Definition data (wire : list byte) (remaining : Z) (a : ActiveMessage) : Turn :=
  let available := length wire - am_wire_cursor a in
  let copied := Z.to_nat (Z.of_nat available `min` remaining)%Z in
  let a1 := copy_wire_delta wire (am_wire_cursor a + copied) a in
  let remaining := (remaining - Z.of_nat copied)%Z in
  if (remaining =? 0)%Z then Again (set_chunk (DataCrlf 0) a1)
  else Return (Ok ()) (set_chunk (Data remaining) a1).

(** The inner loop over the two bytes of a line end; [None]: a byte that differs. *)
Fixpoint match_crlf (fuel : nat) (wire : list byte) (matched : nat) (a : ActiveMessage)
    : option nat * ActiveMessage :=
  match fuel with
  | O => (Some matched, a)
  | S fuel' =>
      if (matched <? 2) && (am_wire_cursor a <? length wire) then
        if bool_decide (wire !! am_wire_cursor a = LINE_END !! matched)
        then match_crlf fuel' wire (S matched) (set_cursor (S (am_wire_cursor a)) a)
        else (None, a)
      else (Some matched, a)
  end.
Definition data_crlf (wire : list byte) (matched : nat) (a : ActiveMessage) : Turn :=
  match match_crlf 2 wire matched a with
  | (None, a1) => Return (Err InvalidChunkTerminator) a1
  | (Some m, a1) =>
      if m =? 2 then Again (set_chunk (SizeLine (am_wire_cursor a1)) a1)
      else Return (Ok ()) (set_chunk (DataCrlf m) a1)
  end.

Definition trailers (wire : list byte) (scan : nat) (a : ActiveMessage) : Turn :=
  if bytes_start_with LINE_END (drop (am_wire_cursor a) wire)
  then Return (Ok ()) (set_complete true (set_chunk ChunksComplete
                         (set_cursor (am_wire_cursor a + 2) a)))
  else
    match find_from wire LINE_END ((scan - 1) `max` am_wire_cursor a) with
    | None => Return (Ok ()) (set_chunk (Trailers (length wire)) a)
    | Some line_end =>
        let a1 := set_cursor (line_end + 2) a in Again (set_chunk (Trailers (am_wire_cursor a1)) a1)
    end.

Definition chunk_turn (wire : list byte) (a : ActiveMessage) : Turn :=
  match am_chunk a with
  | SizeLine scan => size_line wire scan a
  | Data remaining => data wire remaining a
  | DataCrlf matched => data_crlf wire matched a
  | Trailers scan => trailers wire scan a
  | ChunksComplete => Return (Ok ()) a
  end.
(** [advance_chunked], with fuel. *)
Fixpoint advance_chunked (fuel : nat) (wire : list byte) (a : ActiveMessage)
    : option (result Http1DecodeFailure () * ActiveMessage) :=
  match fuel with
  | O => None
  | S fuel' => match chunk_turn wire a with
               | Again a' => advance_chunked fuel' wire a'
               | Return r a' => Some (r, a')
               end
  end.

(** * Bodies and messages *)

Definition finish_body (a : ActiveMessage) : ActiveMessage :=
  if am_complete a then
    match am_body a with
    | Some body => match handle_finish body with
                   | Ok body' => set_body (Some body') (am_content_failure a) a
                   | Err failure => set_body None (Some failure) a
                   end
    | None => a
    end
  else a.
(** [advance_body]; [None] is exhausted fuel of the chunk loop. *)
Definition advance_body (wire : list byte) (end_of_stream : bool) (a : ActiveMessage)
    : option (result Http1DecodeFailure () * ActiveMessage) :=
  if am_complete a then Some (Ok (), a)
  else
    match am_framing a with
    | NoBody => Some (Ok (), finish_body (set_complete true a))
    | Fixed expected =>
        let expected_end := (Z.of_nat (am_body_start a) + expected)%Z in
        if (u64_max <? expected_end)%Z then Some (Err BufferCapacity, a)
        else
          let available_end := Z.to_nat (Z.of_nat (length wire) `min` expected_end)%Z in
          let a1 := copy_wire_delta wire available_end a in
          Some (Ok (), finish_body (set_complete (bool_decide (Z.of_nat (am_wire_cursor a1) = expected_end)) a1))
    | UntilEof =>
        Some (Ok (), finish_body (set_complete end_of_stream (copy_wire_delta wire (length wire) a)))
    | Chunked =>
        match advance_chunked (S (length wire)) wire a with
        | Some (Ok _, a1) => Some (Ok (), finish_body a1)
        | r => r
        end
    end.

(** [advance_head]: the new state, or the failure that leaves the state as it was. *)
Definition advance_head (wire : list byte) (scan : nat) (d : Http1Decoder)
    : result Http1DecodeFailure DecodeState :=
  match find_from wire HEADER_END (scan - 3) with
  | None => Ok (ReadingHead (length wire))
  | Some header_end =>
      let body_start := header_end + 4 in
      if utf8_valid (take header_end wire) then
        let headers_text := String.string_of_list_byte (take header_end wire) in
        parsed ← parse_head (hd_direction d) headers_text;
        let content := create (if bool_decide (ph_framing parsed = NoBody) then EmptyString else headers_text)
                         (hd_max_decoded_bytes d) in
        let content_failure := match content with Err e => Some e | Ok _ => None end in
        let content := match content with Ok c => Some c | Err _ => None end in
        let in_place := bool_decide (hd_direction d = DirRequest)
          && match ph_framing parsed with Fixed _ => true | _ => false end
          && match content with Some c => is_identity c | None => false end in
        Ok (ReadingBody (mkActive parsed headers_text (if in_place then None else content) content_failure
              (hd_max_decoded_bytes d) body_start body_start (ph_framing parsed) (SizeLine body_start)
              (bool_decide (ph_framing parsed = NoBody))))
      else Err InvalidHead
  end.

(** [head]. *)
Definition read_head (wire : list byte) (d : Http1Decoder)
    : result Http1DecodeFailure (option DecodedHttp1Message) * Http1Decoder :=
  if (hd_max_buffer_bytes d <? Z.of_nat (length wire))%Z then (Err BufferCapacity, d)
  else
    let r := match hd_state d with
             | ReadingHead scan => (λ s, set_state s d) <$> advance_head wire scan d
             | _ => Ok d
             end in
    match r with
    | Err e => (Err e, d)
    | Ok d' =>
        (match hd_state d' with
         | ReadingBody active => Ok (Some (snapshot active))
         | ReadingHead _ => Ok None
         | DecodeFailed failure => Err failure
         end, d')
    end.

(** [apply_request_method]. *)
Definition parse_u16 (s : string) : option Z :=
  match parse_usize s with Ok v => if (v <=? 65535)%Z then Some v else None | Err _ => None end.
Definition apply_request_method (method : string) (d : Http1Decoder) : bool * Http1Decoder :=
  match hd_state d with
  | ReadingBody a =>
      let status := ph_status_code (am_head a) ≫= parse_u16 in
      let tunnel := bool_decide (status = Some 101%Z)
        || (bool_decide (method = "CONNECT")
            && match status with Some s => ((200 <=? s) && (s <? 300))%Z | None => false end) in
      if bool_decide (method = "HEAD") || tunnel
      then (tunnel, set_state (ReadingBody (set_body (am_body a) None
                                  (set_complete true (set_framing NoBody a)))) d)
      else (tunnel, d)
  | _ => (false, d)
  end.

(** [advance]; [None] is exhausted fuel. *)
Definition advance (wire : list byte) (end_of_stream : bool) (d : Http1Decoder)
    : option (result Http1DecodeFailure (option DecodedHttp1Message) * Http1Decoder) :=
  let d := if (hd_max_buffer_bytes d <? Z.of_nat (length wire))%Z
           then set_state (DecodeFailed BufferCapacity) d else d in
  match hd_state d with
  | DecodeFailed failure => Some (Err failure, d)
  | _ =>
      let r := match hd_state d with
               | ReadingHead scan => (λ s, set_state s d) <$> advance_head wire scan d
               | _ => Ok d
               end in
      match r with
      | Err e => Some (Err e, d)
      | Ok d' =>
          match hd_state d' with
          | ReadingBody active =>
              match advance_body wire end_of_stream active with
              | None => None
              | Some (Err failure, active') =>
                  Some (Ok (Some (with_framing_failure failure (snapshot active'))),
                        set_state (DecodeFailed failure) d')
              | Some (Ok _, active') =>
                  Some (Ok (Some (snapshot active')), set_state (ReadingBody active') d')
              end
          | _ => Some (Ok None, d')
          end
      end
  end.
End decoder.
#[global] Arguments DecoderHandle D : clear implicits.
#[global] Arguments ActiveMessage D : clear implicits.
#[global] Arguments DecodeState D : clear implicits.
#[global] Arguments Http1Decoder D : clear implicits.
#[global] Arguments Turn D : clear implicits.
End H1.
