(* ===== verification/Http1Facts.v ===== *)
(** Properties of the HTTP/1 decoder of Http1.v: a wire may arrive in any pieces, and an
    encoded message decodes to its body. *)
From stdpp Require Import prelude strings.
From Stdlib Require Import ZArith Lia Ascii.
From coqutil Require Import Byte.
From S2P Require Import Prelude Bytes Utf8 PolicyPath CommandText Scan Http1.

Open Scope nat_scope.

(** * Decoding a growing wire *)

Module H1Facts.
Import H1.

(** A wire that arrives in pieces: the decoder is called after each. *)
Fixpoint feed {D : Decompressors} (received : list byte) (pieces : list (list byte)) (d : Http1Decoder D)
    : option (list (result Http1DecodeFailure (option DecodedHttp1Message)) * Http1Decoder D) :=
  match pieces with
  | [] => Some ([], d)
  | piece :: rest =>
      '(r, d1) ← advance (received ++ piece) false d;
      '(rs, d2) ← feed (received ++ piece) rest d1;
      Some (r :: rs, d2)
  end.

Section facts.
Context {D : Decompressors} {str : Streaming D}.
Implicit Types (a b : ActiveMessage D) (w x : list byte) (h : DecoderHandle D).

(** ** Content *)

Lemma handle_append_nil h : handle_append [] h = Ok h.
Proof using str. destruct h; unfold handle_append; [done|]. by rewrite coder_append_nil. Qed.

Lemma bounded_write_app u v body max :
  bounded_write (u ++ v) body max = (b ← bounded_write u body max; bounded_write v b max).
Proof.
  destruct u as [|u0 u]; [done|]. destruct v as [|v0 v].
  { rewrite app_nil_r. cbn. by destruct (_ <? _)%Z. }
  unfold bounded_write. cbn [app length]. rewrite length_app. cbn [length].
  destruct (Z.ltb_spec max (Z.of_nat (length body) + Z.of_nat (S (length u)))%Z).
  - rewrite (proj2 (Z.ltb_lt _ _)) by lia. done.
  - cbn [mbind result_bind]. rewrite length_app. cbn [length].
    destruct (Z.ltb_spec max (Z.of_nat (length body) + Z.of_nat (S (length u + S (length v))))%Z).
    + by rewrite (proj2 (Z.ltb_lt _ _)) by lia.
    + rewrite (proj2 (Z.ltb_ge _ _)) by lia. by rewrite <-app_assoc.
Qed.

Lemma handle_append_app u v h :
  handle_append (u ++ v) h = (h' ← handle_append u h; handle_append v h').
Proof using str.
  destruct h as [body max|c]; unfold handle_append.
  - rewrite bounded_write_app. destruct (bounded_write u body max); done.
  - rewrite coder_append_app. destruct (coder_append u c); done.
Qed.

(** ** Copying from the wire *)

Lemma copy_done w e a : e ≤ am_wire_cursor a → copy_wire_delta w e a = a.
Proof. intros H. unfold copy_wire_delta. by rewrite (proj2 (Nat.leb_le _ _) H). Qed.

Lemma copy_prefix w x e a : e ≤ length w → copy_wire_delta (w ++ x) e a = copy_wire_delta w e a.
Proof.
  intros He. unfold copy_wire_delta. destruct (Nat.leb_spec e (am_wire_cursor a)); [done|].
  match goal with |- context [take (e - am_wire_cursor ?a1) (drop _ (w ++ x))] =>
    assert (am_wire_cursor a1 = am_wire_cursor a) as Ec by (by destruct (_ && _));
    rewrite Ec; rewrite drop_app_le by lia; rewrite take_app_le by (rewrite length_drop; lia) end.
  done.
Qed.

Lemma copy_cursor w e a : am_wire_cursor (copy_wire_delta w e a) = am_wire_cursor a `max` e.
Proof.
  unfold copy_wire_delta. destruct (Nat.leb_spec e (am_wire_cursor a)); [lia|]. cbn. lia.
Qed.

(** What copying leaves alone. *)
Definition frame_eq a b : Prop :=
  am_head a = am_head b ∧ am_headers_text a = am_headers_text b ∧
  am_max_decoded_bytes a = am_max_decoded_bytes b ∧ am_body_start a = am_body_start b ∧
  am_framing a = am_framing b ∧ am_chunk a = am_chunk b ∧ am_complete a = am_complete b.
Lemma copy_frame w e a : frame_eq (copy_wire_delta w e a) a.
Proof.
  unfold copy_wire_delta. destruct (e <=? am_wire_cursor a); [done|].
  destruct (_ && _); cbn; repeat case_match; done.
Qed.

Lemma active_eq a b :
  frame_eq a b → am_body a = am_body b → am_content_failure a = am_content_failure b →
  am_wire_cursor a = am_wire_cursor b → a = b.
Proof. intros (? & ? & ? & ? & ? & ? & ?) ? ? ?. destruct a, b. cbn in *. by subst. Qed.

Definition slice w (from to : nat) : list byte := take (to - from) (drop from w).
Lemma slice_app w x from mid to :
  from ≤ mid ≤ to → mid ≤ length w → slice (w ++ x) from to = slice w from mid ++ slice (w ++ x) mid to.
Proof.
  intros H Hm. unfold slice. replace (to - from) with ((mid - from) + (to - mid)) by lia.
  rewrite <-take_take_drop, drop_drop. replace (from + (mid - from)) with mid by lia. f_equal.
  rewrite drop_app_le by lia. by rewrite take_app_le by (rewrite length_drop; lia).
Qed.

Lemma copy_content w e a :
  am_wire_cursor a < e →
  am_body (copy_wire_delta w e a) =
    match am_body a with
    | Some h => match handle_append (slice w (am_wire_cursor a) e) h with Ok h' => Some h' | Err _ => None end
    | None => None
    end ∧
  am_content_failure (copy_wire_delta w e a) =
    match am_body a with
    | Some h => match handle_append (slice w (am_wire_cursor a) e) h with
                | Ok _ => am_content_failure a | Err f => Some f end
    | None => match am_content_failure a with
              | Some f => Some f
              | None => if (am_max_decoded_bytes a <? Z.of_nat (e - am_body_start a))%Z
                        then Some BufferCapacity else None
              end
    end.
Proof.
  intros H. unfold copy_wire_delta, slice. rewrite (proj2 (Nat.leb_gt _ _) H).
  destruct (am_body a) as [h|] eqn:Eb.
  - rewrite (bool_decide_false (Some h = None)) by done. cbn [andb]. rewrite Eb.
    destruct (handle_append _ h); done.
  - rewrite (bool_decide_true (None = None)) by done. cbn [andb].
    destruct (am_content_failure a) as [f|] eqn:Ef.
    + rewrite (bool_decide_false (Some f = None)) by done. cbn [andb]. by rewrite Eb.
    + rewrite (bool_decide_true (None = None)) by done. cbn [andb].
      destruct (_ <? _)%Z; cbn; [done|]. by rewrite Eb.
Qed.

Lemma copy_append w x e1 e2 a :
  am_wire_cursor a ≤ e1 ≤ e2 → e1 ≤ length w → am_body_start a ≤ am_wire_cursor a →
  copy_wire_delta (w ++ x) e2 (copy_wire_delta w e1 a) = copy_wire_delta (w ++ x) e2 a.
Proof using str.
  intros He Hw Hs. destruct (decide (e1 = am_wire_cursor a)) as [->|Hne]; [by rewrite (copy_done w) by lia|].
  pose proof (copy_cursor w e1 a) as Hc. rewrite Nat.max_r in Hc by lia.
  destruct (decide (e2 = e1)) as [->|Hne2].
  { rewrite (copy_done (w ++ x)) by lia. by rewrite copy_prefix. }
  pose proof (copy_frame w e1 a) as Hf.
  destruct (copy_content w e1 a) as [Hb1 Hf1]; [lia|].
  destruct (copy_content (w ++ x) e2 (copy_wire_delta w e1 a)) as [Hb2 Hf2]; [lia|].
  destruct (copy_content (w ++ x) e2 a) as [Hb Hcf]; [lia|].
  destruct Hf as (_ & _ & Hmax & Hstart & _).
  rewrite (slice_app w x _ e1 e2) in Hb, Hcf by lia.
  rewrite Hb1, Hf1, Hc, Hmax, Hstart in *. clear Hb1 Hf1.
  apply active_eq.
  - pose proof (copy_frame (w ++ x) e2 (copy_wire_delta w e1 a)) as F1.
    pose proof (copy_frame w e1 a) as F2. pose proof (copy_frame (w ++ x) e2 a) as F3.
    unfold frame_eq in *. intuition congruence.
  - rewrite Hb2, Hb. destruct (am_body a) as [h|]; [|done]. rewrite handle_append_app.
    by destruct (handle_append _ h) as [h'|f].
  - rewrite Hf2, Hcf. destruct (am_body a) as [h|].
    + rewrite handle_append_app. by destruct (handle_append _ h) as [h'|f].
    + destruct (am_content_failure a); [done|].
      destruct (Z.ltb_spec (am_max_decoded_bytes a) (Z.of_nat (e1 - am_body_start a))); [|done].
      by rewrite (proj2 (Z.ltb_lt _ _)) by lia.
  - rewrite !copy_cursor. lia.
Qed.

(** ** Searching on *)

#[local] Instance line_pattern : Pattern (at_needle LINE_END) 2 := needle_pattern _ _.
#[local] Instance header_pattern : Pattern (at_needle HEADER_END) 4 := needle_pattern _ _.

Lemma find_from_Some {n k} `{!Pattern (at_needle n) k} w x from p :
  find_from w n from = Some p → find_from (w ++ x) n from = Some p.
Proof.
  unfold find_from. destruct (first_from (at_needle n) w from) as [[q []]|] eqn:E; [|done].
  cbn. intros [= <-]. by rewrite (first_from_app _ _ _ _ E).
Qed.
Lemma find_from_bounds n w from p :
  find_from w n from = Some p → n ≠ [] → from ≤ p ∧ p + length n ≤ length w.
Proof.
  unfold find_from. intros H Hn. destruct n as [|n0 n]; [done|].
  destruct (first_from _ w from) as [[q []]|] eqn:E; [|done]. injection H as <-.
  apply first_from_Some in E as (Hq & Ha & _). split; [done|].
  unfold at_needle in Ha. destruct (bytes_start_with _ _) eqn:Es; [|done].
  apply starts_with_app in Es as [r Hr]. apply (f_equal length) in Hr.
  rewrite length_drop, length_app in Hr. cbn in *. lia.
Qed.

(** Nothing of the pattern lies before [scan], from [from] on. *)
Definition scanned (n w : list byte) (from scan : nat) : Prop :=
  scan ≤ length w ∧ ∀ q, from ≤ q → q + length n ≤ scan → at_needle n (drop q w) = None.

Lemma scanned_app n k `{!Pattern (at_needle n) k} w x from scan :
  k = length n → scanned n w from scan → scanned n (w ++ x) from scan.
Proof.
  intros -> [Hl H]. split; [rewrite length_app; lia|]. intros q Hq Hs. rewrite drop_app_le by lia.
  rewrite pat_stable by (rewrite length_drop; lia). by apply H.
Qed.
Lemma scanned_all n k `{!Pattern (at_needle n) k} w from :
  find_from w n from = None → scanned n w from (length w).
Proof.
  unfold find_from. destruct (first_from _ w from) as [[]|] eqn:E; [done|]. intros _. split; [done|].
  intros q Hq _. by apply (proj1 (first_from_None w from) E).
Qed.
Lemma scanned_find n k `{!Pattern (at_needle n) k} w from scan :
  k = length n → n ≠ [] → scanned n w from scan →
  find_from w n ((scan - (length n - 1)) `max` from) = find_from w n from.
Proof.
  intros -> Hn [Hl H]. unfold find_from. f_equal. symmetry. apply first_from_skip; [lia|].
  intros q Hq. apply H; [lia|]. assert (length n ≠ 0) by (by destruct n). lia.
Qed.

(** ** Turns of the chunk loop *)

(** What a message knows about the wire it has seen. *)
Definition chunk_seen w a : Prop :=
  match am_chunk a with
  | SizeLine scan | Trailers scan => scanned LINE_END w (am_wire_cursor a) scan
  | Data remaining => (0 < remaining)%Z
  | DataCrlf matched => matched < 2
  | ChunksComplete => am_complete a = true
  end.
Record seen w a : Prop := {
  seen_start : am_body_start a ≤ am_wire_cursor a;
  seen_cursor : am_wire_cursor a ≤ length w;
  seen_fixed : ∀ n, am_framing a = Fixed n → (Z.of_nat (am_wire_cursor a) ≤ Z.of_nat (am_body_start a) + n)%Z;
  seen_chunk : am_framing a = Chunked → chunk_seen w a;
}.

Lemma seen_app w x a : seen w a → seen (w ++ x) a.
Proof.
  intros [Hs Hc Hf Hk]. split; [done|rewrite length_app; lia|done|]. intros Hfr. specialize (Hk Hfr).
  unfold chunk_seen in *. destruct (am_chunk a); try done; by apply (scanned_app LINE_END 2).
Qed.

(** Equal up to the chunk position of a message that is not chunked (any more). *)
Definition erase a : ActiveMessage D := set_chunk ChunksComplete a.
Definition sim a b : Prop := erase a = erase b ∧ (am_framing a = Chunked → am_chunk a = am_chunk b).

Lemma sim_refl a : sim a a.
Proof. done. Qed.
Lemma sim_framing a b : sim a b → am_framing a = am_framing b.
Proof. intros [H _]. exact (f_equal am_framing H). Qed.
Lemma sim_eq a b : sim a b → am_framing a = Chunked → a = b.
Proof.
  intros [H1 H2] Hf. specialize (H2 Hf). destruct a, b. unfold erase, set_chunk in H1. cbn in *.
  injection H1. intros. by subst.
Qed.
Lemma sim_trans a b c : sim a b → sim b c → sim a c.
Proof.
  intros H1 H2. pose proof (sim_framing _ _ H1) as Ef. destruct H1 as [H1 H1'], H2 as [H2 H2'].
  split; [congruence|]. intros Hf. rewrite H1' by done. apply H2'. congruence.
Qed.

(** Turns that agree. *)
Definition turn_sim (t u : Turn D) : Prop :=
  match t, u with
  | Again a, Again b => a = b
  | Return (Ok _) a, Return (Ok _) b => sim a b
  | Return (Err e) a, Return (Err f) b => e = f ∧ erase a = erase b
  | _, _ => False
  end.

Lemma turn_sim_refl t : turn_sim t t.
Proof. destruct t as [|[]]; done. Qed.

(** Searches of a seen message start at its cursor. *)
Lemma size_line_norm w scan a :
  scanned LINE_END w (am_wire_cursor a) scan → size_line w scan a = size_line w 0 a.
Proof.
  intros H. unfold size_line. pose proof (scanned_find LINE_END 2 w _ _ eq_refl ltac:(done) H) as E.
  cbn [length LINE_END] in E. change (2 - 1) with 1 in E. by rewrite E.
Qed.
Lemma trailers_norm w scan a :
  scanned LINE_END w (am_wire_cursor a) scan → trailers w scan a = trailers w 0 a.
Proof.
  intros H. unfold trailers. pose proof (scanned_find LINE_END 2 w _ _ eq_refl ltac:(done) H) as E.
  cbn [length LINE_END] in E. change (2 - 1) with 1 in E. by rewrite E.
Qed.

Lemma copy_set_chunk w e k a : copy_wire_delta w e (set_chunk k a) = set_chunk k (copy_wire_delta w e a).
Proof.
  unfold copy_wire_delta. cbn [am_wire_cursor am_body am_content_failure am_max_decoded_bytes am_body_start set_chunk].
  destruct (e <=? am_wire_cursor a); [done|]. destruct (_ && _); cbn; repeat case_match; done.
Qed.

Lemma slice_prefix w x from to : to ≤ length w → slice (w ++ x) from to = slice w from to.
Proof.
  intros H. unfold slice. destruct (decide (from ≤ to)).
  - rewrite drop_app_le by lia. by rewrite take_app_le by (rewrite length_drop; lia).
  - by replace (to - from) with 0 by lia.
Qed.

(** A de-chunked body: the switch to reading until the end. *)
Definition switched w a : ActiveMessage D :=
  let a1 := set_cursor (am_body_start a) (set_framing UntilEof a) in
  copy_wire_delta w (length w) (set_body (clear_identity <$> am_body a1) (am_content_failure a1) a1).

Lemma switched_app w x a :
  am_body_start a ≤ length w →
  switched (w ++ x) a = copy_wire_delta (w ++ x) (length (w ++ x)) (switched w a).
Proof using str.
  intros H. unfold switched. symmetry. apply copy_append; cbn; [rewrite length_app; lia|lia|lia].
Qed.

Lemma size_line_app w x a :
  am_body_start a ≤ am_wire_cursor a ≤ length w →
  match size_line w 0 a with
  | Again b => size_line (w ++ x) 0 a = Again b
  | Return (Err e) b => size_line (w ++ x) 0 a = Return (Err e) b
  | Return (Ok _) b =>
      (b = set_chunk (SizeLine (length w)) a ∧ scanned LINE_END w (am_wire_cursor a) (length w)) ∨
      (b = switched w a ∧ size_line (w ++ x) 0 a = Return (Ok ()) (switched (w ++ x) a))
  end.
Proof.
  intros H. unfold size_line. cbn [Nat.sub Nat.max].
  destruct (find_from w LINE_END (am_wire_cursor a)) as [p|] eqn:E.
  - rewrite (find_from_Some w x _ _ E). apply find_from_bounds in E as [E1 E2]; [|done]. cbn in E2.
    fold (slice w (am_wire_cursor a) p). fold (slice (w ++ x) (am_wire_cursor a) p).
    rewrite slice_prefix by lia.
    destruct (chunk_size _) as [[size|]|]; [done| |done].
    destruct (_ && _); [|done]. right. done.
  - left. split; [done|]. by apply (scanned_all LINE_END 2).
Qed.

Lemma size_line_chunk w k a : turn_sim (size_line w 0 (set_chunk k a)) (size_line w 0 a).
Proof.
  unfold size_line. cbn [Nat.sub Nat.max am_wire_cursor am_body set_chunk].
  destruct (find_from _ _ _) as [p|]; [|done].
  destruct (chunk_size _) as [[size|]|]; [done| |done].
  destruct (_ && _); [|done]. cbn [turn_sim]. split.
  - match goal with |- erase (copy_wire_delta w ?e ?u) = erase (copy_wire_delta w ?e ?v) =>
      change u with (set_chunk k v) end.
    by rewrite copy_set_chunk.
  - intros Hf. exfalso.
    match type of Hf with am_framing (copy_wire_delta w ?e ?u) = _ =>
      destruct (copy_frame w e u) as (_ & _ & _ & _ & E & _); rewrite E in Hf; discriminate Hf end.
Qed.

Lemma trailers_app w x a :
  am_wire_cursor a ≤ length w →
  match trailers w 0 a with
  | Again b => trailers (w ++ x) 0 a = Again b
  | Return (Err _) _ => False
  | Return (Ok _) b =>
      (b = set_chunk (Trailers (length w)) a ∧ scanned LINE_END w (am_wire_cursor a) (length w)) ∨
      (am_complete b = true ∧ trailers (w ++ x) 0 a = Return (Ok ()) b)
  end.
Proof.
  intros H. unfold trailers. cbn [Nat.sub Nat.max].
  destruct (bytes_start_with LINE_END (drop (am_wire_cursor a) w)) eqn:Es.
  - right. split; [done|]. assert (at_needle LINE_END (drop (am_wire_cursor a) (w ++ x)) = Some ()) as Ea.
    { rewrite drop_app_le by done. apply pat_more. unfold at_needle. by rewrite Es. }
    unfold at_needle in Ea.
    by destruct (bytes_start_with LINE_END (drop (am_wire_cursor a) (w ++ x))).
  - destruct (find_from w LINE_END (am_wire_cursor a)) as [p|] eqn:E.
    + rewrite (find_from_Some w x _ _ E).
      assert (at_needle LINE_END (drop (am_wire_cursor a) (w ++ x)) = None) as Ea.
      { apply find_from_bounds in E as [E1 E2]; [|done]. cbn in E2. rewrite drop_app_le by done.
        rewrite pat_stable by (rewrite length_drop; lia). unfold at_needle. by rewrite Es. }
      unfold at_needle in Ea.
    by destruct (bytes_start_with LINE_END (drop (am_wire_cursor a) (w ++ x))).
    + left. split; [done|]. by apply (scanned_all LINE_END 2).
Qed.
Lemma trailers_chunk w k a : turn_sim (trailers w 0 (set_chunk k a)) (trailers w 0 a).
Proof.
  unfold trailers. cbn [Nat.sub Nat.max am_wire_cursor set_chunk].
  destruct (bytes_start_with _ _); [done|]. by destruct (find_from _ _ _).
Qed.

Lemma data_app w x r a :
  (0 < r)%Z → am_body_start a ≤ am_wire_cursor a ≤ length w →
  match data w r a with
  | Again b => data (w ++ x) r a = Again b ∧ am_wire_cursor b = am_wire_cursor a + Z.to_nat r ∧
      am_wire_cursor b ≤ length w
  | Return (Err _) _ => False
  | Return (Ok _) b => ∃ r', (0 < r')%Z ∧ b = set_chunk (Data r') (copy_wire_delta w (length w) a) ∧
      data (w ++ x) r' b = data (w ++ x) r a
  end.
Proof using str.
  intros Hr H. set (c := am_wire_cursor a). unfold data. fold c.
  destruct (Z.leb_spec r (Z.of_nat (length w - c))) as [Hle|Hgt].
  - rewrite Z.min_r by done. rewrite (Z.min_r (Z.of_nat (length (w ++ x) - c)))
      by (rewrite length_app; lia).
    rewrite Z2Nat.id, Z.sub_diag by lia. cbn [Z.eqb]. rewrite copy_prefix by lia.
    split; [done|]. cbn. rewrite copy_cursor. lia.
  - rewrite Z.min_l by lia. rewrite Nat2Z.id. replace (c + (length w - c)) with (length w) by lia.
    destruct (Z.eqb_spec (r - Z.of_nat (length w - c)) 0) as [|_]; [lia|].
    exists (r - Z.of_nat (length w - c))%Z. split; [lia|]. split; [done|].
    cbn [am_wire_cursor set_chunk]. rewrite copy_cursor, Nat.max_r by lia. rewrite !length_app.
    replace (length w + length x - length w) with (length x) by lia.
    set (n := Z.to_nat (Z.of_nat (length x) `min` (r - Z.of_nat (length w - c)))%Z).
    assert (Z.to_nat (Z.of_nat (length w + length x - c) `min` r)%Z = (length w - c) + n) as -> by lia.
    replace (c + (length w - c + n)) with (length w + n) by lia.
    rewrite copy_set_chunk, copy_append by lia.
    replace (r - Z.of_nat (length w - c) - Z.of_nat n)%Z with (r - Z.of_nat (length w - c + n))%Z by lia.
    destruct (_ =? 0)%Z; done.
Qed.

Lemma match_crlf_chunk n w m k a :
  match_crlf n w m (set_chunk k a) = (λ p, (p.1, set_chunk k p.2)) (match_crlf n w m a).
Proof.
  revert m a. induction n as [|n IH]; intros m a; [done|]. cbn [match_crlf]. cbn [am_wire_cursor set_chunk].
  destruct (_ && _); [|done]. case_bool_decide; [|done]. apply (IH (S m) (set_cursor (S (am_wire_cursor a)) a)).
Qed.
Lemma match_crlf_fuel n w m a : 2 ≤ m + n → match_crlf (S n) w m a = match_crlf n w m a.
Proof.
  revert m a. induction n as [|n IH]; intros m a H.
  - cbn [match_crlf]. by rewrite (proj2 (Nat.ltb_ge m 2)) by lia.
  - change (match_crlf (S (S n)) w m a) with
      (if (m <? 2) && (am_wire_cursor a <? length w) then
         if bool_decide (w !! am_wire_cursor a = LINE_END !! m)
         then match_crlf (S n) w (S m) (set_cursor (S (am_wire_cursor a)) a) else (None, a)
       else (Some m, a)).
    rewrite IH by lia. done.
Qed.
Lemma match_crlf_spec n w m a m' b :
  match_crlf n w m a = (Some m', b) → am_wire_cursor a ≤ length w →
  m ≤ m' ≤ m `max` 2 ∧ b = set_cursor (am_wire_cursor a + (m' - m)) a ∧ am_wire_cursor b ≤ length w.
Proof.
  assert (∀ a : ActiveMessage D, set_cursor (am_wire_cursor a + 0) a = a) as Hid
    by (intros []; unfold set_cursor; cbn; by rewrite Nat.add_0_r).
  revert m a. induction n as [|n IH]; intros m a; cbn [match_crlf].
  { intros [= -> ->] Hc. split; [lia|]. by rewrite Nat.sub_diag, Hid. }
  destruct (Nat.ltb_spec m 2) as [Hm|Hm]; cbn [andb].
  2: { intros [= -> ->] Hc. split; [lia|]. by rewrite Nat.sub_diag, Hid. }
  destruct (Nat.ltb_spec (am_wire_cursor a) (length w)) as [Hc|Hc].
  2: { intros [= -> ->] Hc'. split; [lia|]. by rewrite Nat.sub_diag, Hid. }
  case_bool_decide; [|done]. intros E _. apply IH in E as (H1 & -> & H2); [|cbn; lia]. cbn in H1, H2.
  split; [lia|]. cbn. split; [|lia]. unfold set_cursor. cbn. f_equal. lia.
Qed.
Lemma match_crlf_app n w x m a :
  2 ≤ m + n → am_wire_cursor a ≤ length w →
  match match_crlf n w m a with
  | (None, b) => match_crlf n (w ++ x) m a = (None, b)
  | (Some m', b) => match_crlf n (w ++ x) m a = match_crlf n (w ++ x) m' b
  end.
Proof.
  revert m a. induction n as [|n IH]; intros m a H Hw; [done|]. cbn [match_crlf].
  destruct (Nat.ltb_spec m 2) as [Hm|Hm]; cbn [andb]; [|by rewrite (proj2 (Nat.ltb_ge m 2))].
  destruct (Nat.ltb_spec (am_wire_cursor a) (length w)) as [Hc|Hc];
    [|by rewrite (proj2 (Nat.ltb_lt m 2))].
  assert ((am_wire_cursor a <? length (w ++ x)) = true) as -> by (apply Nat.ltb_lt; rewrite length_app; lia).
  rewrite lookup_app_l by done. case_bool_decide; [|done].
  specialize (IH (S m) (set_cursor (S (am_wire_cursor a)) a) ltac:(lia) ltac:(cbn; lia)).
  destruct (match_crlf n w (S m) _) as [[m'|] b] eqn:E; [|done].
  rewrite IH. symmetry. apply (match_crlf_fuel n).
  apply match_crlf_spec in E as [? _]; [lia|cbn; lia].
Qed.

Lemma data_crlf_app w x m a :
  m < 2 → am_wire_cursor a ≤ length w →
  match data_crlf w m a with
  | Again b => data_crlf (w ++ x) m a = Again b ∧ am_wire_cursor a < am_wire_cursor b ≤ length w
  | Return (Err e) b => data_crlf (w ++ x) m a = Return (Err e) b
  | Return (Ok _) b => ∃ m' c, m' < 2 ∧ b = set_chunk (DataCrlf m') (set_cursor c a) ∧
      am_wire_cursor a ≤ c ≤ length w ∧ turn_sim (data_crlf (w ++ x) m' b) (data_crlf (w ++ x) m a)
  end.
Proof.
  intros Hm Hc. unfold data_crlf. pose proof (match_crlf_app 2 w x m a ltac:(lia) Hc) as Ha.
  destruct (match_crlf 2 w m a) as [[m'|] b] eqn:E; [|by rewrite Ha].
  apply match_crlf_spec in E as (H1 & -> & H2); [|done]. cbn in H2.
  destruct (Nat.eqb_spec m' 2) as [->|Hne].
  - rewrite Ha. cbn. split; [done|]. lia.
  - exists m', (am_wire_cursor a + (m' - m)). split; [lia|]. split; [done|]. split; [lia|].
    rewrite Ha, match_crlf_chunk. destruct (match_crlf 2 (w ++ x) m' _) as [[m''|] b]; cbn; [|done].
    by destruct (m'' =? 2).
Qed.

(** How a turn on [w] relates to the same turn when more bytes follow. *)
Definition turn_extends w x a : Prop :=
  match chunk_turn w a with
  | Again b => chunk_turn (w ++ x) a = Again b ∧ seen w b ∧ am_framing b = Chunked ∧
      am_complete b = false ∧ am_wire_cursor a < am_wire_cursor b
  | Return (Err e) b => chunk_turn (w ++ x) a = Return (Err e) b
  | Return (Ok _) b => seen w b ∧
      ((am_framing b = Chunked ∧ am_complete b = false ∧
        turn_sim (chunk_turn (w ++ x) b) (chunk_turn (w ++ x) a)) ∨
       (am_complete b = true ∧ chunk_turn (w ++ x) a = Return (Ok ()) b) ∨
       (am_framing b = UntilEof ∧ am_complete b = false ∧
        chunk_turn (w ++ x) a = Return (Ok ()) (copy_wire_delta (w ++ x) (length (w ++ x)) b)))
  end.

Lemma parse_hex_nonneg acc t v : (0 ≤ acc)%Z → parse_hex_digits acc t = Some v → (0 ≤ v)%Z.
Proof.
  revert acc. induction t as [|c t IH]; intros acc Ha; cbn [parse_hex_digits]; [by intros [= <-]|].
  intros (d & Hd & H)%bind_Some. destruct (_ <=? _)%Z; [|done]. apply IH in H; [done|].
  unfold hex_digit in Hd.
  repeat match type of Hd with (if ?c then _ else _) = _ => destruct c eqn:? end; simplify_eq; lia.
Qed.
Lemma chunk_size_nonneg line size : chunk_size line = Some (Some size) → (0 ≤ size)%Z.
Proof.
  unfold chunk_size. destruct (utf8_valid line); [|done]. intros [= H]. unfold parse_hex in H.
  destruct (trim _) as [|c t]; [done|].
  repeat match type of H with match ?c with _ => _ end = _ => destruct c; try done end;
    eapply parse_hex_nonneg; (done || exact H).
Qed.

Lemma scanned_nil w c : c ≤ length w → scanned LINE_END w c c.
Proof. intros H. split; [done|]. cbn. lia. Qed.

Lemma switched_frame w a :
  am_framing (switched w a) = UntilEof ∧ am_body_start (switched w a) = am_body_start a ∧
  am_complete (switched w a) = am_complete a ∧
  am_wire_cursor (switched w a) = am_body_start a `max` length w.
Proof.
  unfold switched. rewrite copy_cursor.
  match goal with |- context [copy_wire_delta w ?e ?u] =>
    destruct (copy_frame w e u) as (_ & _ & _ & F1 & F2 & _ & F3); rewrite F1, F2, F3 end.
  done.
Qed.

Lemma size_line_extends w x scan a :
  am_chunk a = SizeLine scan → seen w a → am_framing a = Chunked → am_complete a = false →
  turn_extends w x a.
Proof using str.
  intros Ek [Hs Hc Hf Hk] Hfr Hco. specialize (Hk Hfr). unfold chunk_seen in Hk. rewrite Ek in Hk.
  pose proof (size_line_app w x a ltac:(lia)) as H.
  assert (chunk_turn w a = size_line w 0 a) as E1
    by (unfold chunk_turn; rewrite Ek; by apply size_line_norm).
  assert (chunk_turn (w ++ x) a = size_line (w ++ x) 0 a) as E2
    by (unfold chunk_turn; rewrite Ek; by apply size_line_norm, (scanned_app LINE_END 2)).
  unfold turn_extends. rewrite E1, E2. destruct (size_line w 0 a) as [b|[[]|e] b] eqn:Et; [|..].
  - rewrite H. unfold size_line in Et. cbn [Nat.sub Nat.max] in Et.
    destruct (find_from w LINE_END (am_wire_cursor a)) as [p|] eqn:E; [|done].
    apply find_from_bounds in E as [F1 F2]; [|done]. cbn in F2.
    destruct (chunk_size _) as [[size|]|] eqn:Ez; [|by destruct (_ && _)|done]. injection Et as <-.
    apply chunk_size_nonneg in Ez.
    splits; try done; [|cbn; lia]. split; cbn; [lia|lia| |]; [rewrite Hfr; done|]. intros _.
    unfold chunk_seen. cbn. destruct (Z.eqb_spec size 0).
    + apply scanned_nil. lia.
    + lia.
  - destruct H as [[-> Hsc]|[-> H]].
    + split; [|left].
      * split; cbn; [lia|lia|by rewrite Hfr|]. intros _. exact Hsc.
      * splits; try done. unfold chunk_turn at 1. cbn [am_chunk set_chunk].
        rewrite size_line_norm by (by apply (scanned_app LINE_END 2)). apply size_line_chunk.
    + destruct (switched_frame w a) as (F1 & F2 & F3 & F4). rewrite Nat.max_r in F4 by lia. split; [|right; right].
      * split; rewrite ?F1, ?F2, ?F3, ?F4; [lia|done..].
      * splits; [done|congruence|]. by rewrite H, <-switched_app by lia.
  - by rewrite H.
Qed.

Lemma trailers_extends w x scan a :
  am_chunk a = Trailers scan → seen w a → am_framing a = Chunked → am_complete a = false →
  turn_extends w x a.
Proof.
  intros Ek [Hs Hc Hf Hk] Hfr Hco. specialize (Hk Hfr). unfold chunk_seen in Hk. rewrite Ek in Hk.
  pose proof (trailers_app w x a Hc) as H.
  assert (chunk_turn w a = trailers w 0 a) as E1
    by (unfold chunk_turn; rewrite Ek; by apply trailers_norm).
  assert (chunk_turn (w ++ x) a = trailers (w ++ x) 0 a) as E2
    by (unfold chunk_turn; rewrite Ek; by apply trailers_norm, (scanned_app LINE_END 2)).
  unfold turn_extends. rewrite E1, E2. destruct (trailers w 0 a) as [b|[[]|e] b] eqn:Et; [| |done].
  - rewrite H. unfold trailers in Et. cbn [Nat.sub Nat.max] in Et.
    destruct (bytes_start_with _ _); [done|].
    destruct (find_from w LINE_END (am_wire_cursor a)) as [p|] eqn:E; [|done].
    apply find_from_bounds in E as [F1 F2]; [|done]. cbn in F2. injection Et as <-.
    splits; try done; [|cbn; lia]. split; cbn; [lia|lia|by rewrite Hfr|]. intros _.
    apply scanned_nil. cbn. lia.
  - destruct H as [[-> Hsc]|[Hb H]].
    + split; [|left].
      * split; cbn; [lia|lia|by rewrite Hfr|]. intros _. exact Hsc.
      * splits; try done. unfold chunk_turn at 1. cbn [am_chunk set_chunk].
        rewrite trailers_norm by (by apply (scanned_app LINE_END 2)). apply trailers_chunk.
    + split; [|right; left; done]. unfold trailers in Et. cbn [Nat.sub Nat.max] in Et.
      destruct (bytes_start_with _ _) eqn:Es.
      * injection Et as <-. apply starts_with_app in Es as [r Hr]. apply (f_equal length) in Hr.
        rewrite length_drop, length_app in Hr. cbn in Hr.
        split; cbn; [lia|lia|by rewrite Hfr|done].
      * destruct (find_from _ _ _); [done|]. injection Et as <-. cbn in Hb. congruence.
Qed.

Lemma data_extends w x r a :
  am_chunk a = Data r → seen w a → am_framing a = Chunked → am_complete a = false → turn_extends w x a.
Proof using str.
  intros Ek [Hs Hc Hf Hk] Hfr Hco. specialize (Hk Hfr). unfold chunk_seen in Hk. rewrite Ek in Hk.
  pose proof (data_app w x r a Hk ltac:(lia)) as H.
  assert (∀ v, chunk_turn v a = data v r a) as E by (intros v; unfold chunk_turn; by rewrite Ek).
  unfold turn_extends. rewrite !E.
  destruct (data w r a) as [b|[[]|e] b] eqn:Et; [| |done].
  - destruct H as (H & Hcb & Hle). rewrite H.
    unfold data in Et. destruct (_ =? 0)%Z; [|done]. injection Et as <-. cbn [am_wire_cursor set_chunk] in *.
    match goal with |- context [copy_wire_delta w ?e a] =>
      destruct (copy_frame w e a) as (_ & _ & _ & F1 & F2 & _ & F3) end.
    splits; cbn; [done| |congruence|congruence|lia].
    split; cbn; rewrite ?F1, ?F2; [lia|lia|by rewrite Hfr|]. intros _. unfold chunk_seen. cbn. lia.
  - destruct H as (r' & Hr' & -> & H). destruct (copy_frame w (length w) a) as (_ & _ & _ & F1 & F2 & _ & F3).
    split; [|left; splits].
    + split; cbn; rewrite ?F1, ?F2, ?copy_cursor; [lia|lia|by rewrite Hfr|]. intros _. exact Hr'.
    + cbn. congruence.
    + cbn. congruence.
    + unfold chunk_turn. cbn [am_chunk set_chunk]. rewrite H. apply turn_sim_refl.
Qed.

Lemma data_crlf_extends w x m a :
  am_chunk a = DataCrlf m → seen w a → am_framing a = Chunked → am_complete a = false → turn_extends w x a.
Proof.
  intros Ek [Hs Hc Hf Hk] Hfr Hco. specialize (Hk Hfr). unfold chunk_seen in Hk. rewrite Ek in Hk.
  pose proof (data_crlf_app w x m a Hk Hc) as H.
  assert (∀ v, chunk_turn v a = data_crlf v m a) as E by (intros v; unfold chunk_turn; by rewrite Ek).
  unfold turn_extends. rewrite !E. destruct (data_crlf w m a) as [b|[[]|e] b] eqn:Et; [| |done].
  - destruct H as (H & Hcb & Hle). rewrite H. unfold data_crlf in Et.
    destruct (match_crlf 2 w m a) as [[m'|] b'] eqn:Em; [|done].
    apply match_crlf_spec in Em as (_ & -> & _); [|done]. destruct (m' =? 2); [|done]. injection Et as <-.
    splits; try done. split; cbn in *; [lia|lia|by rewrite Hfr|]. intros _.
    apply scanned_nil. cbn. lia.
  - destruct H as (m' & c & Hm' & -> & Hcc & Hsim). split; [|left; splits; try done].
    split; cbn; [lia|lia|by rewrite Hfr|]. intros _. exact Hm'.
Qed.

Lemma chunk_turn_extends w x a :
  seen w a → am_framing a = Chunked → am_complete a = false → turn_extends w x a.
Proof using str.
  intros Hs Hf Hc. destruct (am_chunk a) as [scan|r|m|scan|] eqn:Ek.
  - by eapply size_line_extends.
  - by eapply data_extends.
  - by eapply data_crlf_extends.
  - by eapply trailers_extends.
  - pose proof (seen_chunk _ _ Hs Hf) as Hk. unfold chunk_seen in Hk. rewrite Ek in Hk. congruence.
Qed.

(** ** The chunk loop *)

Inductive chunk_run w : ActiveMessage D → result Http1DecodeFailure () → ActiveMessage D → Prop :=
| run_return a r b : chunk_turn w a = Return r b → chunk_run w a r b
| run_again a b r c : chunk_turn w a = Again b → chunk_run w b r c → chunk_run w a r c.

Lemma loop_run fuel w a r b : advance_chunked fuel w a = Some (r, b) → chunk_run w a r b.
Proof.
  revert a. induction fuel as [|fuel IH]; intros a; [done|]. cbn.
  destruct (chunk_turn w a) as [c|r' c] eqn:E; [|intros [= <- <-]; by apply run_return].
  intros H. eapply run_again; eauto.
Qed.
Lemma run_det w a r b r' b' : chunk_run w a r b → chunk_run w a r' b' → r = r' ∧ b = b'.
Proof.
  induction 1 as [a r b E|a c r b E _ IH]; inversion 1 as [? ? ? E'|? ? ? ? E' Hr]; subst;
    rewrite E in E'; simplify_eq; auto.
Qed.

(** Every turn that goes on has consumed bytes, so the fuel suffices. *)
Lemma loop_total fuel w a :
  seen w a → am_framing a = Chunked → am_complete a = false → length w - am_wire_cursor a < fuel →
  is_Some (advance_chunked fuel w a).
Proof using str.
  revert a. induction fuel as [|fuel IH]; intros a Hs Hf Hc Hl; [lia|]. cbn.
  pose proof (chunk_turn_extends w [] a Hs Hf Hc) as He. unfold turn_extends in He.
  destruct (chunk_turn w a) as [b|r b]; [|by eauto].
  destruct He as (_ & Hsb & Hfb & Hcb & Hlt). apply IH; try done. pose proof (seen_cursor _ _ Hsb). lia.
Qed.

Definition outcome_sim (r : result Http1DecodeFailure ()) b c : Prop :=
  match r with Ok _ => sim b c | Err _ => erase b = erase c end.

Lemma run_sim w a b r c :
  turn_sim (chunk_turn w b) (chunk_turn w a) → chunk_run w b r c →
  ∃ c', chunk_run w a r c' ∧ outcome_sim r c c'.
Proof.
  intros Hs Hr. inversion Hr as [? ? ? E|? d ? ? E Hd]; subst; rewrite E in Hs.
  - destruct (chunk_turn w a) as [d|r' d] eqn:Ea; [by destruct r|].
    exists d. destruct r as [[]|e], r' as [[]|e']; cbn in Hs; try done.
    + split; [by apply run_return|done].
    + destruct Hs as [-> Hs]. split; [by apply run_return|done].
  - destruct (chunk_turn w a) as [d'|r' d'] eqn:Ea; cbn in Hs; [subst d'|done].
    exists c. split; [by eapply run_again|]. by destruct r.
Qed.

Lemma run_extends w x a r b :
  seen w a → am_framing a = Chunked → am_complete a = false → chunk_run w a r b →
  match r with
  | Err e => chunk_run (w ++ x) a (Err e) b
  | Ok _ => seen w b ∧
      ((am_framing b = Chunked ∧ am_complete b = false ∧
        ∀ r' c, chunk_run (w ++ x) b r' c → ∃ c', chunk_run (w ++ x) a r' c' ∧ outcome_sim r' c c') ∨
       (am_complete b = true ∧ chunk_run (w ++ x) a (Ok ()) b) ∨
       (am_framing b = UntilEof ∧ am_complete b = false ∧
        chunk_run (w ++ x) a (Ok ()) (copy_wire_delta (w ++ x) (length (w ++ x)) b)))
  end.
Proof using str.
  intros Hs Hf Hc H. induction H as [a r b E|a b r c E _ IH];
    pose proof (chunk_turn_extends w x a Hs Hf Hc) as He; unfold turn_extends in He; rewrite E in He.
  - destruct r as [[]|e]; [|by apply run_return].
    destruct He as [Hsb [(Hfb & Hcb & Hsim)|[[Hcb Ht]|(Hfb & Hcb & Ht)]]]; split; try done.
    + left. splits; try done. intros r' c Hr. by eapply run_sim.
    + right. left. split; [done|]. by apply run_return.
    + right. right. splits; try done. by apply run_return.
  - destruct He as (He & Hsb & Hfb & Hcb & _). specialize (IH Hsb Hfb Hcb).
    destruct r as [[]|e]; [|by eapply run_again].
    destruct IH as [Hsc [(Hfc & Hcc & Hrun)|[[Hcc Hrun]|(Hfc & Hcc & Hrun)]]]; split; try done.
    + left. splits; try done. intros r' d Hr. destruct (Hrun r' d Hr) as (d' & Hd & Hsim).
      exists d'. split; [by eapply run_again|done].
    + right. left. split; [done|]. by eapply run_again.
    + right. right. splits; try done. by eapply run_again.
Qed.

(** ** Bodies *)

Lemma set_complete_same c a : am_complete a = c → set_complete c a = a.
Proof. intros <-. by destruct a. Qed.

Lemma finish_frame a :
  frame_eq (finish_body a) a ∧ am_wire_cursor (finish_body a) = am_wire_cursor a.
Proof. unfold finish_body. repeat case_match; done. Qed.
Lemma finish_incomplete a : am_complete a = false → finish_body a = a.
Proof. intros H. unfold finish_body. by rewrite H. Qed.

Lemma erase_finish a : erase (finish_body a) = finish_body (erase a).
Proof.
  unfold finish_body. cbn [am_complete am_body erase set_chunk]. destruct (am_complete a); [|done].
  destruct (am_body a); [|done]. by destruct (handle_finish _).
Qed.
Lemma finish_sim a b : sim a b → sim (finish_body a) (finish_body b).
Proof.
  intros [He Hk]. split; [by rewrite !erase_finish, He|].
  destruct (finish_frame a) as [(_ & _ & _ & _ & Ef & Ec & _) _].
  destruct (finish_frame b) as [(_ & _ & _ & _ & _ & Ec' & _) _]. rewrite Ef, Ec, Ec'. done.
Qed.
Lemma finish_seen w a : seen w a → seen w (finish_body a).
Proof.
  intros [H1 H2 H3 H4]. destruct (finish_frame a) as [(_ & _ & _ & F1 & F2 & F3 & F4) F5].
  split; rewrite ?F1, ?F2, ?F5; try done. unfold chunk_seen in *. rewrite F3, F4, F5. done.
Qed.

Lemma copy_incomplete w e a : am_complete a = false → set_complete false (copy_wire_delta w e a) = copy_wire_delta w e a.
Proof. intros H. apply set_complete_same. destruct (copy_frame w e a) as (_ & _ & _ & _ & _ & _ & E). congruence. Qed.

Lemma complete_body w eos a : am_complete a = true → advance_body w eos a = Some (Ok (), a).
Proof. intros H. unfold advance_body. by rewrite H. Qed.

Lemma finish_complete a : am_complete (finish_body a) = am_complete a.
Proof. destruct (finish_frame a) as [(_ & _ & _ & _ & _ & _ & E) _]. done. Qed.

(** What a body read from [w] does when more bytes follow. *)
Definition body_extends w x a : Prop :=
  ∃ r b, advance_body w false a = Some (r, b) ∧
  match r with
  | Err e => advance_body (w ++ x) false a = Some (Err e, b)
  | Ok _ => seen w b ∧
      ∀ r' c, advance_body (w ++ x) false b = Some (r', c) →
        ∃ c', advance_body (w ++ x) false a = Some (r', c') ∧ outcome_sim r' c c'
  end.

Lemma fixed_extends w x n a :
  am_framing a = Fixed n → seen w a → am_complete a = false → body_extends w x a.
Proof using str.
  intros Hf [Hs Hc Hfx Hk] Hco. specialize (Hfx n Hf). unfold body_extends.
  set (e := (Z.of_nat (am_body_start a) + n)%Z) in *.
  assert (∀ v, advance_body v false a =
    if (u64_max <? e)%Z then Some (Err BufferCapacity, a)
    else let a1 := copy_wire_delta v (Z.to_nat (Z.of_nat (length v) `min` e)%Z) a in
      Some (Ok (), finish_body (set_complete (bool_decide (Z.of_nat (am_wire_cursor a1) = e)) a1))) as E.
  { intros v. unfold advance_body. rewrite Hco, Hf. done. }
  rewrite !E. destruct (Z.ltb_spec u64_max e) as [|Hle]; [by eexists _, _|]. cbn zeta.
  do 2 eexists. split; [done|]. rewrite copy_cursor.
  destruct (copy_frame w (Z.to_nat (Z.of_nat (length w) `min` e)%Z) a) as (_ & _ & _ & F1 & F2 & F3 & F4).
  destruct (Z.leb_spec e (Z.of_nat (length w))) as [Hin|Hout].
  - rewrite Z.min_r in * by done. rewrite bool_decide_true by lia. split.
    + apply finish_seen. split; cbn; rewrite ?copy_cursor, ?F1, ?F2; [lia|lia| |by rewrite Hf].
      intros m [= <-]%(eq_trans (eq_sym Hf)). lia.
    + intros r' c. rewrite complete_body by (by rewrite finish_complete). intros [= <- <-].
      eexists. split; [|apply sim_refl]. rewrite (Z.min_r (Z.of_nat (length (w ++ x)))) by (rewrite length_app; lia).
      rewrite copy_prefix, copy_cursor by lia. by rewrite bool_decide_true by lia.
  - rewrite Z.min_l in * by lia. rewrite bool_decide_false by lia. rewrite Nat2Z.id in *.
    rewrite copy_incomplete by done. rewrite finish_incomplete by congruence. split.
    + split; cbn; rewrite ?copy_cursor, ?F1, ?F2; [lia|lia| |by rewrite Hf].
      intros m [= <-]%(eq_trans (eq_sym Hf)). lia.
    + intros r' c. unfold advance_body. rewrite F4, Hco, F2, Hf, F1. fold e.
      rewrite (proj2 (Z.ltb_ge _ _) Hle). cbn zeta.
      rewrite copy_append by (rewrite ?length_app; lia). intros [= <- <-].
      eexists. split; [done|apply sim_refl].
Qed.

Lemma eof_extends w x a :
  am_framing a = UntilEof → seen w a → am_complete a = false → body_extends w x a.
Proof using str.
  intros Hf [Hs Hc Hfx Hk] Hco. unfold body_extends.
  assert (∀ v, advance_body v false a = Some (Ok (), copy_wire_delta v (length v) a)) as E.
  { intros v. unfold advance_body. rewrite Hco, Hf, copy_incomplete by done. rewrite finish_incomplete; [done|].
    destruct (copy_frame v (length v) a) as (_ & _ & _ & _ & _ & _ & F). congruence. }
  rewrite !E. do 2 eexists. split; [done|].
  destruct (copy_frame w (length w) a) as (_ & _ & _ & F1 & F2 & F3 & F4). split.
  - split; rewrite ?copy_cursor, ?F1, ?F2; [lia|lia|by rewrite Hf..].
  - intros r' c. unfold advance_body. rewrite F4, Hco, F2, Hf.
    rewrite copy_append by (rewrite ?length_app; lia). rewrite copy_incomplete by done.
    rewrite finish_incomplete; [intros [= <- <-]; eexists; split; [done|apply sim_refl]|].
    destruct (copy_frame (w ++ x) (length (w ++ x)) a) as (_ & _ & _ & _ & _ & _ & F). congruence.
Qed.

Lemma chunked_body w eos a r b :
  am_framing a = Chunked → am_complete a = false → seen w a →
  chunk_run w a r b →
  advance_body w eos a = Some (r, match r with Ok _ => finish_body b | Err _ => b end).
Proof using str.
  intros Hf Hc Hs Hr. unfold advance_body. rewrite Hc, Hf.
  destruct (loop_total (S (length w)) w a Hs Hf Hc) as [[r' b'] E]; [lia|]. rewrite E.
  apply loop_run in E. destruct (run_det _ _ _ _ _ _ E Hr) as [-> ->]. by destruct r as [[]|].
Qed.

Lemma chunked_extends w x a :
  am_framing a = Chunked → seen w a → am_complete a = false → body_extends w x a.
Proof using str.
  intros Hf Hs Hc. unfold body_extends.
  destruct (loop_total (S (length w)) w a Hs Hf Hc) as [[r b] E]; [lia|]. apply loop_run in E.
  pose proof (run_extends w x a r b Hs Hf Hc E) as He. apply (chunked_body w false) in E; try done.
  do 2 eexists. split; [exact E|]. pose proof (seen_app w x a Hs) as Hsx.
  destruct r as [[]|e]; [|by rewrite (chunked_body (w ++ x) false a _ _ Hf Hc Hsx He)].
  destruct He as [Hsb He]. split; [by apply finish_seen|]. intros r' c Hc'.
  destruct He as [(Hfb & Hcb & Hrun)|[[Hcb Hrun]|(Hfb & Hcb & Hrun)]].
  - rewrite finish_incomplete in Hc' by done.
    destruct (loop_total (S (length (w ++ x))) (w ++ x) b) as [[r2 b2] E2]; [by apply seen_app|done|done|lia|].
    apply loop_run in E2. rewrite (chunked_body (w ++ x) false b r2 b2) in Hc'; [|done|done|by apply seen_app|done].
    injection Hc' as <- <-. destruct (Hrun r2 b2 E2) as (c' & Hr & Hsim).
    rewrite (chunked_body (w ++ x) false a r2 c') by done. eexists. split; [done|].
    destruct r2 as [[]|e]; [by apply finish_sim|done].
  - rewrite complete_body in Hc' by (by rewrite finish_complete). injection Hc' as <- <-.
    rewrite (chunked_body (w ++ x) false a _ _ Hf Hc Hsx Hrun). eexists. split; [done|apply sim_refl].
  - rewrite finish_incomplete in Hc' by done. unfold advance_body in Hc'. rewrite Hcb, Hfb in Hc'.
    rewrite copy_incomplete in Hc' by done. injection Hc' as <- <-.
    rewrite (chunked_body (w ++ x) false a _ _ Hf Hc Hsx Hrun). eexists. split; [done|apply sim_refl].
Qed.

Lemma advance_body_extends w x a : seen w a → body_extends w x a.
Proof using str.
  intros Hs. destruct (am_complete a) eqn:Hc.
  { unfold body_extends. do 2 eexists. split; [by apply complete_body|]. split; [done|]. intros r' c.
    rewrite !complete_body by done. intros [= <- <-]. eexists. split; [done|apply sim_refl]. }
  destruct (am_framing a) as [|n| |] eqn:Hf.
  - unfold body_extends. assert (∀ v, advance_body v false a = Some (Ok (), finish_body (set_complete true a))) as E.
    { intros v. unfold advance_body. by rewrite Hc, Hf. }
    rewrite !E. do 2 eexists. split; [done|]. split.
    + apply finish_seen. destruct Hs as [H1 H2 H3 H4]. split; cbn; try done. by rewrite Hf.
    + intros r' c. rewrite complete_body by (by rewrite finish_complete). intros [= <- <-].
      eexists. split; [done|apply sim_refl].
  - by eapply fixed_extends.
  - by apply chunked_extends.
  - by apply eof_extends.
Qed.

(** ** The decoder *)

Definition state_sim w (s t : DecodeState D) : Prop :=
  match s, t with
  | ReadingHead n, ReadingHead m => n = m ∨ (scanned HEADER_END w 0 n ∧ scanned HEADER_END w 0 m)
  | ReadingBody a, ReadingBody b => sim a b
  | DecodeFailed e, DecodeFailed f => e = f
  | _, _ => False
  end.
(** Decoders that have seen [w] and differ only in where a search resumes. *)
Definition decoder_sim w (d e : Http1Decoder D) : Prop :=
  hd_direction d = hd_direction e ∧ hd_max_buffer_bytes d = hd_max_buffer_bytes e ∧
  hd_max_decoded_bytes d = hd_max_decoded_bytes e ∧ state_sim w (hd_state d) (hd_state e).

#[export] Instance decoder_sim_equiv w : Equivalence (decoder_sim w).
Proof.
  split.
  - intros d. unfold decoder_sim. splits; try done. destruct (hd_state d); cbn; auto using sim_refl.
  - intros d e (? & ? & ? & H). unfold decoder_sim. splits; try done. unfold state_sim in *.
    destruct (hd_state d), (hd_state e); try done; [naive_solver|]. destruct H as [He Hk].
    pose proof (f_equal am_framing He) as Ef. cbn in Ef. split; [done|]. intros Hf. symmetry. apply Hk. congruence.
  - intros d e f (? & ? & ? & Hde) (? & ? & ? & Hef). unfold decoder_sim. splits; try congruence.
    unfold state_sim in *. destruct (hd_state d), (hd_state e), (hd_state f); try done;
      [naive_solver|by eapply sim_trans|congruence].
Qed.

Definition decoder_seen w (d : Http1Decoder D) : Prop :=
  match hd_state d with
  | ReadingHead scan => scanned HEADER_END w 0 scan
  | ReadingBody a => seen w a
  | DecodeFailed _ => True
  end.

Lemma parse_usize_nonneg t v : parse_usize t = Ok v → (0 ≤ v)%Z.
Proof.
  assert (∀ u acc, (0 ≤ acc)%Z → parse_digits acc u = Ok v → (0 ≤ v)%Z) as Hd.
  { induction u as [|c u IH]; intros acc Ha; cbn [parse_digits]; [by intros [= <-]|].
    unfold digit. destruct (_ && _) eqn:E; [|done]. cbn zeta.
    destruct (acc * 10 + _ <=? u64_max)%Z; [|done]. apply IH. apply andb_true_iff in E as [E1%Z.leb_le _]. lia. }
  unfold parse_usize. intros H. destruct t as [|c t]; [done|].
  repeat match type of H with match ?c with _ => _ end = _ => destruct c; try done end;
    eapply Hd; (done || exact H).
Qed.

Lemma agree_lengths_nonneg o vs v :
  (∀ u, o = Some u → (0 ≤ u)%Z) → agree_lengths o vs = Ok (Some v) → (0 ≤ v)%Z.
Proof.
  revert o. induction vs as [|t vs IH]; intros o Ho; cbn [agree_lengths]; [intros [= ->]; auto|].
  destruct (parse_usize (trim t)) as [l|] eqn:E; [|done]. apply parse_usize_nonneg in E. cbn [map_err mbind result_bind].
  destruct o as [u|]; [destruct (u =? l)%Z; [|done]|]; apply IH; naive_solver.
Qed.

Lemma parse_head_fixed dir t ph n : parse_head dir t = Ok ph → ph_framing ph = Fixed n → (0 ≤ n)%Z.
Proof.
  unfold parse_head. destruct (content_length t) as [o|] eqn:E; [|done]. cbn [mbind result_bind].
  assert (∀ l, o = Some l → (0 ≤ l)%Z) as Ho.
  { intros l ->. unfold content_length in E. by eapply agree_lengths_nonneg in E. }
  assert (∀ l, o = Some l → length_framing l = Fixed n → (0 ≤ n)%Z) as Hl.
  { intros l Hl. unfold length_framing. destruct (l =? 0)%Z; [done|]. intros [= <-]. auto. }
  destruct dir.
  - unfold parse_request. destruct (split_whitespace _) as [|? [|? [|? ?]]]; try done.
    destruct (String.prefix _ _); [|done]. intros [= <-]. cbn. unfold request_framing.
    destruct (transfer_chunked t); [done|]. destruct o as [len|]; [|done]. by apply Hl.
  - unfold parse_response. destruct (splitn3 _) as [[? [st|]] ?]; destruct (String.prefix _ _); try done.
    destruct (status_ok st); [|done]. intros [= <-]. cbn. unfold response_framing.
    destruct (_ || _); [done|]. destruct (transfer_chunked t); [done|]. destruct o as [len|]; [|done]. by apply Hl.
Qed.

Lemma head_seen w d scan s :
  scanned HEADER_END w 0 scan → advance_head w scan d = Ok s → decoder_seen w (set_state s d).
Proof.
  intros Hsc. unfold advance_head.
  destruct (find_from w HEADER_END (scan - 3)) as [p|] eqn:E.
  - apply find_from_bounds in E as [_ Hp]; [|done]. cbn in Hp.
    destruct (utf8_valid _); [|done]. destruct (parse_head _ _) as [h|] eqn:Eh; [|done]. cbn [mbind result_bind].
    intros [= <-]. unfold decoder_seen. cbn [hd_state set_state]. split; cbn.
    + lia.
    + lia.
    + intros n Hf. apply (parse_head_fixed _ _ _ n) in Eh; [lia|done].
    + intros _. unfold chunk_seen. cbn. apply scanned_nil. lia.
  - intros [= <-]. unfold decoder_seen. cbn [hd_state set_state].
    pose proof (scanned_find HEADER_END 4 w 0 scan eq_refl ltac:(done) Hsc) as Ef.
    change (length HEADER_END - 1) with 3 in Ef. rewrite Nat.max_0_r, E in Ef.
    by apply (scanned_all HEADER_END 4).
Qed.

Lemma advance_head_app w x d scan :
  scanned HEADER_END w 0 scan →
  match advance_head w scan d with
  | Ok (ReadingHead n) => n = length w ∧ scanned HEADER_END w 0 n ∧
      advance_head (w ++ x) n d = advance_head (w ++ x) scan d
  | r => advance_head (w ++ x) scan d = r
  end.
Proof.
  intros Hsc. pose proof (scanned_app HEADER_END 4 w x 0 scan eq_refl Hsc) as Hscx.
  assert (∀ v n, scanned HEADER_END v 0 n → find_from v HEADER_END (n - 3) = find_from v HEADER_END 0) as Hn.
  { intros v n Hv. pose proof (scanned_find HEADER_END 4 v 0 n eq_refl ltac:(done) Hv) as Ef.
    change (length HEADER_END - 1) with 3 in Ef. by rewrite Nat.max_0_r in Ef. }
  unfold advance_head. rewrite (Hn w), (Hn (w ++ x) scan) by done.
  destruct (find_from w HEADER_END 0) as [p|] eqn:E.
  - rewrite (find_from_Some w x _ _ E). apply find_from_bounds in E as [_ Hp]; [|done]. cbn in Hp.
    rewrite take_app_le by lia. destruct (utf8_valid _); [|done]. by destruct (parse_head _ _).
  - pose proof (scanned_all HEADER_END 4 w 0 E) as Hall. split; [done|]. split; [done|].
    rewrite (Hn (w ++ x) (length w)); [done|]. by apply (scanned_app HEADER_END 4).
Qed.

Lemma decoder_seen_app w x d : decoder_seen w d → decoder_seen (w ++ x) d.
Proof.
  unfold decoder_seen. destruct (hd_state d); [|apply seen_app|done].
  intros H. by apply (scanned_app HEADER_END 4).
Qed.

(** The end of [advance], once a head is known. *)
Definition deliver (d : Http1Decoder D) (r : result Http1DecodeFailure ()) a
    : result Http1DecodeFailure (option DecodedHttp1Message) * Http1Decoder D :=
  match r with
  | Err f => (Ok (Some (with_framing_failure f (snapshot a))), set_state (DecodeFailed f) d)
  | Ok _ => (Ok (Some (snapshot a)), set_state (ReadingBody a) d)
  end.

Lemma advance_in_body w eos d a r b :
  (Z.of_nat (length w) ≤ hd_max_buffer_bytes d)%Z → hd_state d = ReadingBody a →
  advance_body w eos a = Some (r, b) → advance w eos d = Some (deliver d r b).
Proof.
  intros Hl Hs Hb. unfold advance. rewrite (proj2 (Z.ltb_ge _ _) Hl), Hs. cbn [result_bind].
  rewrite Hs, Hb. by destruct r as [[]|].
Qed.
Lemma advance_in_head w eos d scan :
  (Z.of_nat (length w) ≤ hd_max_buffer_bytes d)%Z → hd_state d = ReadingHead scan →
  advance w eos d =
    match advance_head w scan d with
    | Err e => Some (Err e, d)
    | Ok (ReadingBody a) => advance w eos (set_state (ReadingBody a) d)
    | Ok s => Some (Ok None, set_state s d)
    end.
Proof.
  intros Hl Hs. unfold advance. rewrite (proj2 (Z.ltb_ge _ _) Hl), Hs.
  destruct (advance_head w scan d) as [[n|a|f]|e]; try done. cbn.
  by rewrite (proj2 (Z.ltb_ge _ _) Hl).
Qed.
Lemma advance_failed w eos d e :
  (Z.of_nat (length w) ≤ hd_max_buffer_bytes d)%Z → hd_state d = DecodeFailed e →
  advance w eos d = Some (Err e, d).
Proof. intros Hl Hs. unfold advance. by rewrite (proj2 (Z.ltb_ge _ _) Hl), Hs. Qed.

Lemma deliver_sim d r a b :
  outcome_sim r a b → (deliver d r a).1 = (deliver d r b).1 ∧ ∀ w, decoder_sim w (deliver d r a).2 (deliver d r b).2.
Proof.
  intros H.
  assert (∀ a b, erase a = erase b → snapshot a = snapshot b) as Hsnap.
  { intros a' b' E. change (snapshot (erase a') = snapshot (erase b')). by rewrite E. }
  destruct r as [[]|e]; cbn in *.
  - rewrite (Hsnap a b) by apply H. done.
  - by rewrite (Hsnap a b).
Qed.

(** One more call: where it leaves the decoder, and what it would have been in one. *)
Definition call_extends w x d : Prop :=
  ∃ r d1, advance w false d = Some (r, d1) ∧ decoder_seen w d1 ∧
    hd_max_buffer_bytes d1 = hd_max_buffer_bytes d ∧
    ∀ r2 d2, advance (w ++ x) false d1 = Some (r2, d2) →
      ∃ r3 d3, advance (w ++ x) false d = Some (r3, d3) ∧ decoder_sim (w ++ x) d2 d3 ∧
        match hd_state d1 with
        | DecodeFailed e => r2 = Err e ∧ r3 = r ∧ hd_state d2 = DecodeFailed e
        | _ => r2 = r3
        end.

Lemma body_call_extends w x d a :
  (Z.of_nat (length (w ++ x)) ≤ hd_max_buffer_bytes d)%Z → hd_state d = ReadingBody a → seen w a →
  call_extends w x d.
Proof using str.
  intros Hl Hst Hs. destruct (advance_body_extends w x a Hs) as (r & b & E & He).
  assert (Z.of_nat (length w) ≤ hd_max_buffer_bytes d)%Z as Hlw by (rewrite length_app in Hl; lia).
  exists (deliver d r b).1, (deliver d r b).2.
  split; [rewrite (advance_in_body w false d a r b) by done; by destruct (deliver d r b)|].
  destruct r as [[]|e]; cbn [deliver fst snd].
  - destruct He as [Hsb He]. split; [exact Hsb|]. split; [done|]. intros r2 d2 H2.
    destruct (advance_body_extends (w ++ x) [] b (seen_app _ _ _ Hsb)) as (r' & c & E2 & _).
    rewrite (advance_in_body (w ++ x) false _ b r' c) in H2 by done.
    destruct (He r' c E2) as (c' & E3 & Hsim). rewrite (advance_in_body (w ++ x) false d a r' c') by done.
    destruct (deliver_sim d r' c c' Hsim) as [H1 H1'].
    assert (deliver (set_state (ReadingBody b) d) r' c = deliver d r' c) as Ed by (by destruct r').
    rewrite Ed in H2. destruct (deliver d r' c) as [r2' d2'] eqn:E2'. injection H2 as <- <-.
    destruct (deliver d r' c') as [r3 d3]. exists r3, d3. cbn in *. done.
  - split; [done|]. split; [done|]. intros r2 d2 H2. rewrite (advance_failed _ _ _ e) in H2 by done.
    injection H2 as <- <-. rewrite (advance_in_body (w ++ x) false d a _ _ Hl Hst He).
    do 2 eexists. split; [done|]. done.
Qed.

Lemma advance_extends w x d :
  (Z.of_nat (length (w ++ x)) ≤ hd_max_buffer_bytes d)%Z → decoder_seen w d → call_extends w x d.
Proof using str.
  intros Hl Hs. assert (Z.of_nat (length w) ≤ hd_max_buffer_bytes d)%Z as Hlw by (rewrite length_app in Hl; lia).
  pose proof Hs as Hs'. unfold decoder_seen in Hs'. destruct (hd_state d) as [scan|a|e] eqn:Est.
  - pose proof (advance_head_app w x d scan Hs') as Hh.
    pose proof (λ s, head_seen w d scan s Hs') as Hseen.
    pose proof (advance_in_head w false d scan Hlw Est) as Ew.
    pose proof (advance_in_head (w ++ x) false d scan Hl Est) as Ewx.
    destruct (advance_head w scan d) as [[n|a|f]|f] eqn:Eh; [| | |].
    + destruct Hh as (-> & Hsc & Hh). do 2 eexists. split; [exact Ew|]. split; [exact Hsc|]. split; [done|].
      intros r2 d2. rewrite (advance_in_head (w ++ x) false (set_state (ReadingHead (length w)) d) (length w)) by done.
      change (advance_head (w ++ x) (length w) (set_state (ReadingHead (length w)) d))
        with (advance_head (w ++ x) (length w) d). rewrite Hh, Ewx.
      change (hd_state (set_state (ReadingHead (length w)) d)) with (ReadingHead (length w)).
      destruct (advance_head (w ++ x) scan d) as [[m|b|g]|g] eqn:Ehx; intros H2; try (by do 2 eexists; split; [exact H2|]).
      injection H2 as <- <-. do 2 eexists. split; [done|]. split; [|done]. unfold decoder_sim. splits; try done.
      cbn. rewrite Est. right. split; by apply (scanned_app HEADER_END 4).
    + rewrite Hh in Ewx. destruct (body_call_extends w x (set_state (ReadingBody a) d) a Hl eq_refl)
        as (r & d1 & E & Hd1); [by apply (Hseen _ eq_refl)|].
      exists r, d1. rewrite Ew, Ewx. done.
    + rewrite Hh in Ewx. do 2 eexists. split; [exact Ew|]. split; [done|]. split; [done|]. intros r2 d2.
      rewrite (advance_failed _ _ _ f) by done. intros [= <- <-]. rewrite Ewx. do 2 eexists. done.
    + do 2 eexists. split; [exact Ew|]. split; [done|]. split; [done|]. rewrite Est. intros r2 d2 H2.
      rewrite H2. by exists r2, d2.
  - by eapply body_call_extends.
  - do 2 eexists. split; [by apply (advance_failed _ _ _ e)|]. split; [done|]. split; [done|].
    intros r2 d2. rewrite (advance_failed (w ++ x) false d e) by done. intros [= <- <-].
    rewrite Est. by do 2 eexists.
Qed.

(** ** Decoders that look alike answer alike *)

Lemma body_total w eos a : seen w a → is_Some (advance_body w eos a).
Proof using str.
  intros Hs. unfold advance_body. destruct (am_complete a) eqn:Hc; [by eauto|].
  destruct (am_framing a) eqn:Hf; [by eauto| | |by eauto].
  - destruct (_ <? _)%Z; by eauto.
  - destruct (loop_total (S (length w)) w a Hs Hf Hc) as [[[[]|e] b] ->]; [lia|..]; by eauto.
Qed.

Lemma finish_set_chunk k a : finish_body (set_chunk k a) = set_chunk k (finish_body a).
Proof.
  unfold finish_body. cbn [am_complete am_body set_chunk]. destruct (am_complete a); [|done].
  destruct (am_body a); [|done]. by destruct (handle_finish _).
Qed.

Lemma unchunked_body w eos k a :
  am_framing a ≠ Chunked →
  advance_body w eos (set_chunk k a) = (λ p, (p.1, set_chunk k p.2)) <$> advance_body w eos a.
Proof.
  intros Hf. unfold advance_body. cbn [am_complete am_framing am_body_start set_chunk].
  destruct (am_complete a); [done|]. destruct (am_framing a) as [|n| |]; [| |done|].
  - cbn. f_equal. f_equal. apply (finish_set_chunk k (set_complete true a)).
  - destruct (_ <? _)%Z; [done|]. cbn zeta. rewrite !copy_set_chunk. cbn [fmap option_fmap option_map fst snd].
    f_equal. f_equal. match goal with |- _ = set_chunk k (finish_body ?u) => apply (finish_set_chunk k u) end.
  - rewrite !copy_set_chunk. cbn [fmap option_fmap option_map fst snd]. f_equal. f_equal.
    match goal with |- _ = set_chunk k (finish_body ?u) => apply (finish_set_chunk k u) end.
Qed.

Lemma sim_set_chunk a b : sim a b → b = set_chunk (am_chunk b) a.
Proof.
  intros [H _]. destruct a, b. unfold erase, set_chunk in *. cbn in *. injection H. intros. by subst.
Qed.

Lemma body_sim w eos a b :
  sim a b → seen w a →
  ∃ r a1 b1, advance_body w eos a = Some (r, a1) ∧ advance_body w eos b = Some (r, b1) ∧ outcome_sim r a1 b1.
Proof using str.
  intros Hsim Hs. destruct (body_total w eos a Hs) as [[r a1] E]. exists r, a1.
  destruct (decide (am_framing a = Chunked)) as [Hf|Hf].
  - rewrite <-(sim_eq _ _ Hsim Hf). exists a1. splits; [done|done|]. by destruct r; [apply sim_refl|].
  - exists (set_chunk (am_chunk b) a1). split; [done|].
    rewrite (sim_set_chunk _ _ Hsim) at 1. rewrite unchunked_body, E by done. split; [done|].
    destruct r as [[]|e]; [|done]. split; [done|]. intros Hf1. exfalso. apply Hf. revert E Hf1.
    unfold advance_body. destruct (am_complete a); [by intros [= <-]|].
    destruct (am_framing a) as [|n| |] eqn:Ef; [| |done|].
    + intros [= <-]. destruct (finish_frame (set_complete true a)) as [(_ & _ & _ & _ & F & _) _].
      rewrite F. cbn. congruence.
    + destruct (_ <? _)%Z; [done|]. intros [= <-]. cbn zeta.
      match goal with |- am_framing (finish_body ?u) = _ → _ =>
        destruct (finish_frame u) as [(_ & _ & _ & _ & F & _) _]; rewrite F end. cbn.
      match goal with |- am_framing (copy_wire_delta ?v ?e a) = _ → _ =>
        destruct (copy_frame v e a) as (_ & _ & _ & _ & F' & _); rewrite F' end. congruence.
    + intros [= <-].
      match goal with |- am_framing (finish_body ?u) = _ → _ =>
        destruct (finish_frame u) as [(_ & _ & _ & _ & F & _) _]; rewrite F end. cbn.
      match goal with |- am_framing (copy_wire_delta ?v ?e a) = _ → _ =>
        destruct (copy_frame v e a) as (_ & _ & _ & _ & F' & _); rewrite F' end. congruence.
Qed.

Lemma deliver_other d e w r a b :
  decoder_sim w d e → outcome_sim r a b →
  (deliver d r a).1 = (deliver e r b).1 ∧ decoder_sim w (deliver d r a).2 (deliver e r b).2.
Proof.
  intros (H1 & H2 & H3 & _) Ho. destruct (deliver_sim d r a b Ho) as [E1 E2].
  split; [rewrite E1; by destruct r|]. etrans; [apply (E2 w)|].
  destruct r; (unfold decoder_sim; splits; [done|done|done|]); cbn; auto using sim_refl.
Qed.

Lemma body_calls_sim w eos d e a b :
  (Z.of_nat (length w) ≤ hd_max_buffer_bytes d)%Z → decoder_sim w d e →
  hd_state d = ReadingBody a → hd_state e = ReadingBody b → sim a b → seen w a →
  ∃ r d1 e1, advance w eos d = Some (r, d1) ∧ advance w eos e = Some (r, e1) ∧ decoder_sim w d1 e1.
Proof using str.
  intros Hl Hde Hd He Hs Hseen. destruct (body_sim w eos a b Hs Hseen) as (r & a1 & b1 & Ea & Eb & Ho).
  destruct (deliver_other d e w r a1 b1 Hde Ho) as [E1 E2].
  rewrite (advance_in_body w eos d a r a1), (advance_in_body w eos e b r b1) by (done || by destruct Hde as (_ & <- & _)).
  exists (deliver d r a1).1, (deliver d r a1).2, (deliver e r b1).2.
  rewrite E1 at 2. by destruct (deliver d r a1), (deliver e r b1).
Qed.

Lemma advance_sim w x eos d e :
  decoder_sim w d e → decoder_seen w d → decoder_seen w e →
  ∃ r d1 e1, advance (w ++ x) eos d = Some (r, d1) ∧ advance (w ++ x) eos e = Some (r, e1) ∧
    decoder_sim (w ++ x) d1 e1.
Proof using str.
  intros (H1 & H2 & H3 & Hst) Hd He.
  destruct (Z.leb_spec (Z.of_nat (length (w ++ x))) (hd_max_buffer_bytes d)) as [Hl|Hl].
  2: { unfold advance. rewrite <-H2, (proj2 (Z.ltb_lt _ _) Hl). cbn.
       do 3 eexists. splits; [done|done|]. unfold decoder_sim. cbn. done. }
  assert (Z.of_nat (length (w ++ x)) ≤ hd_max_buffer_bytes e)%Z as Hle by lia.
  unfold decoder_seen in *. destruct (hd_state d) as [n|a|f] eqn:Ed, (hd_state e) as [m|b|g] eqn:Ee;
    cbn in Hst; try done.
  - rewrite (advance_in_head (w ++ x) eos d n), (advance_in_head (w ++ x) eos e m) by done.
    pose proof (scanned_app HEADER_END 4 w x 0 n eq_refl Hd) as Hn.
    pose proof (scanned_app HEADER_END 4 w x 0 m eq_refl He) as Hm.
    assert (advance_head (w ++ x) n d = advance_head (w ++ x) m e) as E.
    { unfold advance_head. rewrite H1, H3.
      pose proof (scanned_find HEADER_END 4 _ 0 n eq_refl ltac:(done) Hn) as E1.
      pose proof (scanned_find HEADER_END 4 _ 0 m eq_refl ltac:(done) Hm) as E2.
      change (length HEADER_END - 1) with 3 in E1, E2. rewrite Nat.max_0_r in E1, E2. by rewrite E1, E2. }
    pose proof (λ s, head_seen (w ++ x) d n s Hn) as Hseen.
    rewrite E in *. destruct (advance_head (w ++ x) m e) as [[k|c|f]|f] eqn:Eh.
    + do 3 eexists. splits; [done|done|]. unfold decoder_sim. cbn. auto.
    + apply (body_calls_sim (w ++ x) eos _ _ c c); [exact Hl| |done|done|apply sim_refl|apply (Hseen _ eq_refl)].
      unfold decoder_sim. cbn. splits; [done|done|done|apply sim_refl].
    + do 3 eexists. splits; [done|done|]. unfold decoder_sim. cbn. auto.
    + do 3 eexists. splits; [done|done|]. unfold decoder_sim. rewrite Ed, Ee. cbn. auto 10.
  - apply (body_calls_sim (w ++ x) eos d e a b); [done| |done|done|done|by apply seen_app].
    unfold decoder_sim. rewrite Ed, Ee. done.
  - rewrite (advance_failed (w ++ x) eos d f), (advance_failed (w ++ x) eos e g) by done. subst g.
    do 3 eexists. splits; [done|done|]. unfold decoder_sim. rewrite Ed, Ee. done.
Qed.

(** ** A wire in pieces *)

Lemma feed_extends received pieces d :
  pieces ≠ [] → decoder_seen received d →
  (Z.of_nat (length (received ++ concat pieces)) ≤ hd_max_buffer_bytes d)%Z →
  ∃ rs dn r d', feed received pieces d = Some (rs, dn) ∧
    advance (received ++ concat pieces) false d = Some (r, d') ∧
    decoder_seen (received ++ concat pieces) dn ∧
    decoder_sim (received ++ concat pieces) dn d' ∧
    match hd_state dn with DecodeFailed _ => r ∈ rs | _ => last rs = Some r end.
Proof using str.
  revert received d. induction pieces as [|x pieces IH]; intros received d Hne Hs Hl; [done|].
  change (concat (x :: pieces)) with (x ++ concat pieces) in *. destruct pieces as [|y pieces].
  - destruct (advance_extends (received ++ x) [] d) as (r & d1 & E & Hs1 & _).
    { rewrite app_nil_r. cbn [concat] in Hl. by rewrite app_nil_r in Hl. }
    { by apply decoder_seen_app. }
    cbn [feed concat] in *. rewrite app_nil_r, E. cbn. do 4 eexists. splits; try done.
    destruct (hd_state d1); [done|done|]. by left.
  - clear Hne. rewrite app_assoc in Hl |- *. set (rest := concat (y :: pieces)) in *.
    destruct (advance_extends (received ++ x) rest d Hl) as (r & d1 & E & Hs1 & Hm & Hext).
    { by apply decoder_seen_app. }
    change (feed received (x :: y :: pieces) d) with
      ('(r, d1) ← advance (received ++ x) false d;
       '(rs, d2) ← feed (received ++ x) (y :: pieces) d1; Some (r :: rs, d2)).
    rewrite E. cbn [mbind option_bind].
    destruct (IH (received ++ x) d1) as (rs & dn & r2 & d2 & Ef & E2 & Hsn & Hsim & Hlast); [done|done|by rewrite Hm|].
    rewrite Ef. cbn [mbind option_bind]. fold rest in E2, Hsim, Hsn.
    destruct (Hext r2 d2 E2) as (r3 & d3 & E3 & Hsim3 & Hr).
    exists (r :: rs), dn, r3, d3. splits; try done.
    { by etrans. }
    destruct (hd_state d1) as [n|a|e] eqn:Ed1.
    1, 2: subst r3; destruct (hd_state dn); [| |by right]; rewrite last_cons, Hlast; done.
    destruct Hr as (_ & -> & Ed2). destruct Hsim as (_ & _ & _ & Hst). rewrite Ed2 in Hst.
    destruct (hd_state dn); try done. by left.
Qed.

Lemma new_seen dir max_buffer max_decoded :
  decoder_seen [] (with_decoded_limit max_decoded (new dir max_buffer) : Http1Decoder D).
Proof. split; [done|]. cbn. lia. Qed.
End facts.

(** ** Encoded messages *)

(** A chunk: its size line, extensions included, and its data. *)
Record Chunk := mkChunk { ck_line : list byte; ck_data : list byte }.
(** A line, without a line end inside. *)
Definition line_of (l : list byte) : Prop := find_from (l ++ LINE_END) LINE_END 0 = Some (length l).
Definition chunk_ok (c : Chunk) : Prop :=
  line_of (ck_line c) ∧ ck_data c ≠ [] ∧
  chunk_size (ck_line c) = Some (Some (Z.of_nat (length (ck_data c)))).
Definition encode_chunk (c : Chunk) : list byte := ck_line c ++ LINE_END ++ ck_data c ++ LINE_END.
Definition encode_trailers (ts : list (list byte)) : list byte := mjoin ((λ t, t ++ LINE_END) <$> ts) ++ LINE_END.

(** The wire form of a body under a framing. *)
Inductive encodes : BodyFraming → list byte → list byte → Prop :=
| enc_none : encodes NoBody [] []
| enc_fixed body : body ≠ [] → encodes (Fixed (Z.of_nat (length body))) body body
| enc_chunked chunks last_line ts :
    Forall chunk_ok chunks → line_of last_line → chunk_size last_line = Some (Some 0%Z) →
    Forall (λ t, line_of t ∧ t ≠ []) ts →
    encodes Chunked (mjoin (encode_chunk <$> chunks) ++ last_line ++ LINE_END ++ encode_trailers ts)
      (mjoin (ck_data <$> chunks)).

Section encoded.
Context {D : Decompressors} {str : Streaming D}.
Context (ph : ParsedHead) (text : string) (max_bytes max_decoded : Z) (start : nat).

(** A chunked message of identity coding, in the middle of its body. *)
Definition at_chunk (body : list byte) (cursor : nat) (k : ChunkState) : ActiveMessage D :=
  mkActive ph text (Some (HIdentity body max_bytes)) None max_decoded start cursor Chunked k false.

Lemma first_at_shift {A} (f : list byte → option A) pos l :
  first_at f pos l = (λ p, (pos + p.1, p.2)) <$> first_at f 0 l.
Proof.
  revert pos. induction l as [|b l IH]; intros pos; cbn [first_at].
  - destruct (f []); cbn; [by rewrite Nat.add_0_r|done].
  - destruct (f (b :: l)); cbn; [by rewrite Nat.add_0_r|]. rewrite (IH (S pos)), (IH 1).
    destruct (first_at f 0 l) as [[p a]|]; cbn; [|done]. f_equal. f_equal. lia.
Qed.
Lemma find_line pre l post :
  line_of l → find_from (pre ++ l ++ LINE_END ++ post) LINE_END (length pre) = Some (length pre + length l).
Proof.
  intros H. unfold find_from, first_from. rewrite drop_app_length, first_at_shift.
  apply (find_from_Some (k:=2) _ post) in H. rewrite <-app_assoc in H.
  unfold find_from, first_from in H. rewrite drop_0 in H.
  destruct (first_at _ 0 _) as [[p a]|]; cbn in *; [|done]. by injection H as ->.
Qed.

Lemma slice_middle (pre l post : list byte) : slice (pre ++ l ++ post) (length pre) (length pre + length l) = l.
Proof.
  unfold slice. rewrite drop_app_length. replace (length pre + length l - length pre) with (length l) by lia.
  by rewrite take_app_length.
Qed.

Lemma size_turn pre l post body size :
  line_of l → chunk_size l = Some (Some size) →
  chunk_turn (pre ++ l ++ LINE_END ++ post) (at_chunk body (length pre) (SizeLine (length pre))) =
    Again (at_chunk body (length pre + length l + 2)
             (if (size =? 0)%Z then Trailers (length pre + length l + 2) else Data size)).
Proof.
  intros Hl Hs. unfold chunk_turn, at_chunk. cbn [am_chunk]. unfold size_line. cbn [am_wire_cursor].
  rewrite Nat.max_r by lia. rewrite find_line by done.
  fold (slice (pre ++ l ++ LINE_END ++ post) (length pre) (length pre + length l)).
  rewrite slice_middle, Hs. cbn. by destruct (size =? 0)%Z.
Qed.

Lemma bounded_write_fits bytes body max :
  (Z.of_nat (length body) + Z.of_nat (length bytes) ≤ max)%Z →
  bounded_write bytes body max = Ok (body ++ bytes).
Proof.
  intros H. unfold bounded_write. destruct bytes; [by rewrite app_nil_r|].
  by rewrite (proj2 (Z.ltb_ge _ _)).
Qed.

Lemma copy_identity w stop body cursor k :
  cursor < stop ≤ length w → (Z.of_nat (length body) + Z.of_nat (stop - cursor) ≤ max_bytes)%Z →
  copy_wire_delta w stop (at_chunk body cursor k) = at_chunk (body ++ slice w cursor stop) stop k.
Proof.
  intros Hc Hm. assert (length (slice w cursor stop) = stop - cursor) as Hlen.
  { unfold slice. rewrite length_take, length_drop. lia. }
  apply active_eq.
  - pose proof (copy_frame w stop (at_chunk body cursor k)) as F. unfold frame_eq in *. cbn in *. intuition.
  - destruct (copy_content w stop (at_chunk body cursor k)) as [-> _]; [cbn; lia|].
    cbn [am_body am_wire_cursor am_content_failure at_chunk]. unfold handle_append. by rewrite bounded_write_fits by lia.
  - destruct (copy_content w stop (at_chunk body cursor k)) as [_ ->]; [cbn; lia|].
    cbn [am_body am_wire_cursor am_content_failure at_chunk]. unfold handle_append. by rewrite bounded_write_fits by lia.
  - rewrite copy_cursor. cbn. lia.
Qed.

Lemma data_turn pre l post body :
  l ≠ [] → (Z.of_nat (length body) + Z.of_nat (length l) ≤ max_bytes)%Z →
  chunk_turn (pre ++ l ++ post) (at_chunk body (length pre) (Data (Z.of_nat (length l)))) =
    Again (at_chunk (body ++ l) (length pre + length l) (DataCrlf 0)).
Proof.
  intros Hl Hm. assert (0 < length l) by (destruct l; cbn; [done|lia]).
  unfold chunk_turn. cbn [am_chunk at_chunk]. unfold data.
  replace (am_wire_cursor _) with (length pre) by done.
  rewrite Z.min_r by (rewrite !length_app; lia). rewrite Nat2Z.id, Z.sub_diag. cbn [Z.eqb].
  change (mkActive _ _ _ _ _ _ _ _ _ _) with (at_chunk body (length pre) (Data (Z.of_nat (length l)))).
  rewrite copy_identity by (rewrite ?length_app; lia).
  by rewrite slice_middle.
Qed.

Lemma crlf_turn pre post body :
  chunk_turn (pre ++ LINE_END ++ post) (at_chunk body (length pre) (DataCrlf 0)) =
    Again (at_chunk body (length pre + 2) (SizeLine (length pre + 2))).
Proof.
  unfold chunk_turn. cbn [am_chunk at_chunk]. unfold data_crlf.
  assert (∀ i, (pre ++ LINE_END ++ post) !! (length pre + i) = (LINE_END ++ post) !! i) as Hlk.
  { intros i. rewrite lookup_app_r by lia. f_equal. lia. }
  pose proof (Hlk 0) as H0. pose proof (Hlk 1) as H1. rewrite Nat.add_0_r in H0. rewrite Nat.add_1_r in H1.
  assert (match_crlf 2 (pre ++ LINE_END ++ post) 0
    (at_chunk body (length pre) (DataCrlf 0)) = (Some 2, at_chunk body (length pre + 2) (DataCrlf 0))) as E.
  { unfold at_chunk. cbn [match_crlf am_wire_cursor set_cursor am_head am_headers_text am_body am_content_failure
      am_max_decoded_bytes am_body_start am_framing am_chunk am_complete].
    change (0 <? 2) with true. change (1 <? 2) with true. cbn [andb].
    rewrite !(proj2 (Nat.ltb_lt _ _)) by (rewrite !length_app; cbn; lia).
    rewrite H0, H1. cbn. replace (length pre + 2) with (S (S (length pre))) by lia. done. }
  by rewrite E.
Qed.

Lemma run_chunk pre c post body r b w :
  w = pre ++ encode_chunk c ++ post → chunk_ok c →
  (Z.of_nat (length body) + Z.of_nat (length (ck_data c)) ≤ max_bytes)%Z →
  chunk_run w (at_chunk (body ++ ck_data c) (length (pre ++ encode_chunk c))
                 (SizeLine (length (pre ++ encode_chunk c)))) r b →
  chunk_run w (at_chunk body (length pre) (SizeLine (length pre))) r b.
Proof.
  intros -> (Hl & Hd & Hz) Hm Hr. destruct c as [l d]. cbn [ck_line ck_data] in *. unfold encode_chunk in *.
  cbn [ck_line ck_data] in *.
  assert (length d ≠ 0) by (by destruct d).
  eapply run_again.
  { rewrite <-!app_assoc. apply size_turn; done. }
  rewrite (proj2 (Z.eqb_neq _ _)) by lia.
  eapply run_again.
  { replace (pre ++ (l ++ LINE_END ++ d ++ LINE_END) ++ post)
      with ((pre ++ l ++ LINE_END) ++ d ++ (LINE_END ++ post)) by (by rewrite <-!app_assoc).
    replace (length pre + length l + 2) with (length (pre ++ l ++ LINE_END)) by (rewrite !length_app; cbn; lia).
    by apply data_turn. }
  eapply run_again.
  { replace (pre ++ (l ++ LINE_END ++ d ++ LINE_END) ++ post)
      with ((pre ++ l ++ LINE_END ++ d) ++ LINE_END ++ post) by (by rewrite <-!app_assoc).
    replace (length (pre ++ l ++ LINE_END) + length d) with (length (pre ++ l ++ LINE_END ++ d))
      by (rewrite !length_app; cbn; lia).
    apply crlf_turn. }
  replace (length (pre ++ l ++ LINE_END ++ d) + 2) with (length (pre ++ l ++ LINE_END ++ d ++ LINE_END))
    by (rewrite !length_app; cbn; lia).
  exact Hr.
Qed.

Lemma run_chunks chunks pre post body r b :
  Forall chunk_ok chunks →
  (Z.of_nat (length body) + Z.of_nat (length (mjoin (ck_data <$> chunks))) ≤ max_bytes)%Z →
  let w := pre ++ mjoin (encode_chunk <$> chunks) ++ post in
  let stop := length (pre ++ mjoin (encode_chunk <$> chunks)) in
  chunk_run w (at_chunk (body ++ mjoin (ck_data <$> chunks)) stop (SizeLine stop)) r b →
  chunk_run w (at_chunk body (length pre) (SizeLine (length pre))) r b.
Proof.
  intros Hc. revert pre body. induction Hc as [|c chunks Hc _ IH]; intros pre body Hm w stop Hr.
  { subst w stop. cbn in *. by rewrite !app_nil_r in Hr. }
  subst w stop. rewrite !fmap_cons, !mjoin_cons in *. rewrite length_app in Hm.
  rewrite <-!app_assoc in *. eapply (run_chunk pre c); [done|done|lia|].
  rewrite !(app_assoc pre (encode_chunk c)) in Hr |- *. rewrite (app_assoc body) in Hr.
  apply IH; [rewrite length_app; lia|].
  by rewrite (app_assoc pre (encode_chunk c) (mjoin (encode_chunk <$> chunks))) in Hr.
Qed.

Lemma line_not_end t post : line_of t → t ≠ [] → bytes_start_with LINE_END (t ++ LINE_END ++ post) = false.
Proof.
  intros H Hne. unfold line_of, find_from in H.
  destruct (first_from _ _ 0) as [[p []]|] eqn:E; [|done]. injection H as ->.
  apply (first_from_Some (k:=2)) in E as (_ & _ & Hn). specialize (Hn 0). rewrite drop_0 in Hn.
  assert (at_needle LINE_END (t ++ LINE_END ++ post) = None) as Ha.
  { rewrite app_assoc. rewrite (pat_stable (k:=2)); [apply Hn; destruct t; cbn; [done|lia]|].
    rewrite length_app. cbn. lia. }
  unfold at_needle in Ha. by destruct (bytes_start_with _ _).
Qed.

Lemma run_trailers ts pre post body :
  Forall (λ t, line_of t ∧ t ≠ []) ts →
  chunk_run (pre ++ encode_trailers ts ++ post) (at_chunk body (length pre) (Trailers (length pre))) (Ok ())
    (set_complete true (at_chunk body (length (pre ++ encode_trailers ts)) ChunksComplete)).
Proof.
  intros Hts. revert pre. induction Hts as [|t ts [Ht Hne] _ IH]; intros pre.
  - apply run_return. unfold chunk_turn, at_chunk, encode_trailers. cbn [am_chunk fmap list_fmap mjoin list_join app].
    unfold trailers. cbn [am_wire_cursor]. rewrite drop_app_length. cbn [bytes_start_with app LINE_END].
    rewrite !bool_decide_true by done. cbn. rewrite length_app. done.
  - unfold encode_trailers in *. rewrite fmap_cons, mjoin_cons, <-!app_assoc in *.
    eapply run_again.
    + unfold chunk_turn, at_chunk. cbn [am_chunk]. unfold trailers. cbn [am_wire_cursor].
      rewrite Nat.max_r by lia. rewrite find_line by done. rewrite drop_app_length.
      by rewrite line_not_end.
    + specialize (IH (pre ++ t ++ LINE_END)).
      replace (length (pre ++ t ++ LINE_END)) with (length pre + length t + 2) in IH
        by (rewrite !length_app; cbn; lia).
      rewrite <-!app_assoc in IH. exact IH.
Qed.

Lemma run_chunked chunks last_line ts pre post :
  Forall chunk_ok chunks → line_of last_line → chunk_size last_line = Some (Some 0%Z) →
  Forall (λ t, line_of t ∧ t ≠ []) ts →
  (Z.of_nat (length (mjoin (ck_data <$> chunks))) ≤ max_bytes)%Z →
  let wire_body := mjoin (encode_chunk <$> chunks) ++ last_line ++ LINE_END ++ encode_trailers ts in
  chunk_run (pre ++ wire_body ++ post) (at_chunk [] (length pre) (SizeLine (length pre))) (Ok ())
    (set_complete true (at_chunk (mjoin (ck_data <$> chunks)) (length (pre ++ wire_body)) ChunksComplete)).
Proof.
  intros Hc Hl Hz Ht Hm wb. subst wb. rewrite <-!app_assoc. apply run_chunks; [done|cbn; lia|]. cbn [app].
  set (p1 := pre ++ mjoin (encode_chunk <$> chunks)). rewrite !(app_assoc pre). fold p1.
  eapply run_again; [by apply size_turn|]. cbn [Z.eqb].
  replace (length p1 + length last_line + 2) with (length (p1 ++ last_line ++ LINE_END))
    by (rewrite !length_app; cbn; lia).
  replace (p1 ++ last_line ++ LINE_END ++ encode_trailers ts ++ post)
    with ((p1 ++ last_line ++ LINE_END) ++ encode_trailers ts ++ post) by (by rewrite <-!app_assoc).
  replace (p1 ++ last_line ++ LINE_END ++ encode_trailers ts)
    with ((p1 ++ last_line ++ LINE_END) ++ encode_trailers ts) by (by rewrite <-!app_assoc).
  by apply run_trailers.
Qed.
End encoded.

(** ** A whole message *)

(** The message a decoder starts with after a head of identity coding. *)
Definition started {D : Decompressors} (dir : Http1Direction) ph text max_decoded start : ActiveMessage D :=
  mkActive ph text
    (if bool_decide (dir = DirRequest) && match ph_framing ph with Fixed _ => true | _ => false end
     then None else Some (HIdentity [] max_decoded)) None max_decoded start start (ph_framing ph)
    (SizeLine start) (bool_decide (ph_framing ph = NoBody)).

(** What a message is once its body is read. *)
Record finished {D : Decompressors} (w : list byte) (a : ActiveMessage D) ph text data (stop : nat) : Prop := {
  fin_head : am_head a = ph;
  fin_text : am_headers_text a = text;
  fin_failure : am_content_failure a = None;
  fin_complete : am_complete a = true;
  fin_cursor : am_wire_cursor a = stop;
  fin_framing : am_framing a = ph_framing ph;
  fin_body : body_bytes w (dm_body (snapshot a)) = Some data;
}.

Lemma set_body_same {D : Decompressors} b f (a : ActiveMessage D) :
  am_body a = b → am_content_failure a = f → set_body b f a = a.
Proof. destruct a. cbn. by intros -> ->. Qed.

Lemma fixed_reads {D : Decompressors} dir ph text max pre data post w :
  ph_framing ph = Fixed (Z.of_nat (length data)) → data ≠ [] → w = pre ++ data ++ post →
  (Z.of_nat (length data) ≤ max)%Z → (Z.of_nat (length w) ≤ u64_max)%Z →
  ∃ a : ActiveMessage D, advance_body w false (started dir ph text max (length pre)) = Some (Ok (), a) ∧
    finished w a ph text data (length (pre ++ data)).
Proof.
  intros Hf Hne -> Hm Hu. assert (length data ≠ 0) by (by destruct data).
  unfold advance_body, started. cbn [am_complete am_framing am_body_start].
  rewrite bool_decide_false by (rewrite Hf; done). rewrite Hf.
  rewrite !length_app in Hu.
  rewrite (proj2 (Z.ltb_ge _ _)) by lia.
  rewrite Z.min_r by (rewrite !length_app; lia).
  replace (Z.to_nat (Z.of_nat (length pre) + Z.of_nat (length data))) with (length pre + length data) by lia.
  set (w := pre ++ data ++ post). cbv zeta. set (b := if _ && _ then None else _).
  set (a0 := mkActive _ _ _ _ _ _ _ _ _ _). set (stop := length pre + length data).
  assert (am_wire_cursor (copy_wire_delta w stop a0) = stop) as Hc by (rewrite copy_cursor; cbn; lia).
  rewrite bool_decide_true by (rewrite Hc; lia).
  destruct (copy_frame w stop a0) as (F1 & F2 & _ & F4 & F5 & _).
  destruct (copy_content w stop a0) as [B1 B2]; [cbn; lia|]. cbn [am_body am_content_failure am_wire_cursor
    am_max_decoded_bytes am_body_start a0] in B1, B2.
  assert (slice w (length pre) stop = data) as Hs by apply slice_middle. rewrite Hs in B1, B2.
  eexists. split; [done|].
  assert (am_content_failure (copy_wire_delta w stop a0) = None ∧
    body_bytes w (dm_body (snapshot (copy_wire_delta w stop a0))) = Some data ∧
    finish_body (set_complete true (copy_wire_delta w stop a0)) = set_complete true (copy_wire_delta w stop a0))
    as (G1 & G2 & G3).
  { unfold snapshot, finish_body. cbn [dm_body am_complete am_body set_complete]. rewrite B1, B2, Hc, F4.
    subst b. destruct (_ && _).
    - rewrite (proj2 (Z.ltb_ge _ _)) by lia. splits; [done| |done].
      rewrite bool_decide_false by (by intros [? ?]). cbn [body_bytes am_body_start a0].
      rewrite bool_decide_true by (unfold w, stop; rewrite !length_app; lia). f_equal. exact Hs.
    - unfold handle_append in B1, B2 |- *. rewrite bounded_write_fits in B1, B2 |- * by (cbn; lia).
      cbn in B1, B2 |- *. splits; [done|done|]. by apply set_body_same. }
  rewrite G3. split; cbn [am_head am_headers_text am_content_failure am_complete am_wire_cursor am_framing set_complete].
  all: try done.
  - rewrite Hc. unfold stop. by rewrite length_app.
  - rewrite F5. cbn. done.
Qed.
Lemma body_reads {D : Decompressors} (str : Streaming D) dir ph text max pre wire_body data post w :
  encodes (ph_framing ph) wire_body data → w = pre ++ wire_body ++ post →
  (Z.of_nat (length data) ≤ max)%Z → (Z.of_nat (length w) ≤ u64_max)%Z →
  ∃ a : ActiveMessage D, advance_body w false (started dir ph text max (length pre)) = Some (Ok (), a) ∧
    finished w a ph text data (length (pre ++ wire_body)).
Proof.
  intros He -> Hm Hu. inversion He as [Hf|? Hne Hf Hw|chunks last_line ts Hc Hl Hz Ht Hf Hw]; subst.
  - eexists. split; [apply complete_body; cbn; by rewrite <-Hf|].
    unfold started. rewrite <-Hf, andb_false_r. split; try done. cbn. by rewrite app_nil_r.
  - by eapply fixed_reads.
  - set (wb := mjoin (encode_chunk <$> chunks) ++ last_line ++ LINE_END ++ encode_trailers ts) in *.
    unfold started. rewrite <-Hf, andb_false_r. rewrite bool_decide_false by done.
    eexists. split.
    + apply chunked_body with (r := Ok ()); [done|done| |].
      * split; cbn; [lia|rewrite length_app; lia|done|]. intros _. apply scanned_nil. rewrite length_app. lia.
      * by apply (run_chunked ph text max max (length pre) chunks last_line ts pre post).
    + split; done.
Qed.

Lemma head_reads {D : Decompressors} dir max_buffer max_decoded h ph post :
  let text := String.string_of_list_byte h in
  find_from (h ++ HEADER_END) HEADER_END 0 = Some (length h) → utf8_valid h = true →
  parse_head dir text = Ok ph →
  create (if bool_decide (ph_framing ph = NoBody) then EmptyString else text) max_decoded
    = Ok (HIdentity [] max_decoded) →
  let d := with_decoded_limit max_decoded (new dir max_buffer) : Http1Decoder D in
  advance_head ((h ++ HEADER_END) ++ post) 0 d =
    Ok (ReadingBody (started dir ph text max_decoded (length (h ++ HEADER_END)))).
Proof.
  intros text Hf Hu Hp Hc d. unfold advance_head. cbn [Nat.sub].
  rewrite (find_from_Some (k:=4) _ post _ _ Hf). rewrite <-app_assoc, take_app_length, Hu.
  cbn [hd_direction d new with_decoded_limit hd_max_decoded_bytes]. fold text. rewrite Hp.
  cbn [mbind result_bind]. rewrite Hc. cbn [is_identity]. rewrite andb_true_r.
  unfold started. rewrite length_app. done.
Qed.

(** C24: Messages survive the wire.  A head without a header end inside, of identity coding,
    followed by its body in the framing the head announces (none, a fixed length, or chunks
    with extensions and trailers) decodes, in whatever pieces it arrives and whatever
    follows it, to a complete message with exactly the body's bytes, that ends where the
    encoding ends, without any failure. *)
Theorem http1_roundtrip {D : Decompressors} (str : Streaming D) dir max_buffer max_decoded h ph wire_body data
    rest pieces :
  let text := String.string_of_list_byte h in
  let message := h ++ HEADER_END ++ wire_body in
  find_from (h ++ HEADER_END) HEADER_END 0 = Some (length h) → utf8_valid h = true →
  parse_head dir text = Ok ph →
  create (if bool_decide (ph_framing ph = NoBody) then EmptyString else text) max_decoded
    = Ok (HIdentity [] max_decoded : DecoderHandle D) →
  encodes (ph_framing ph) wire_body data → (Z.of_nat (length data) ≤ max_decoded)%Z →
  pieces ≠ [] → concat pieces = message ++ rest →
  (Z.of_nat (length (message ++ rest)) ≤ max_buffer ≤ u64_max)%Z →
  ∃ rs dn m, feed [] pieces (with_decoded_limit max_decoded (new dir max_buffer) : Http1Decoder D) = Some (rs, dn) ∧
    last rs = Some (Ok (Some m)) ∧
    dm_head m = ph ∧ dm_headers_text m = text ∧ body_bytes (message ++ rest) (dm_body m) = Some data ∧
    dm_complete m = true ∧ dm_encoded_len m = length message ∧
    dm_framing_failure m = None ∧ dm_content_failure m = None ∧ dm_body_boundary_known m = true.
Proof.
  intros text message Hf Hu Hp Hc He Hd Hne Hcat Hl.
  set (d := with_decoded_limit _ _ : Http1Decoder D). set (w := message ++ rest) in *.
  destruct (feed_extends [] pieces d Hne (new_seen dir max_buffer max_decoded)) as
    (rs & dn & r & d' & Ef & E & _ & Hsim & Hlast); [cbn [app]; rewrite Hcat; cbn; lia|].
  cbn [app] in *. rewrite Hcat in *.
  assert (w = (h ++ HEADER_END) ++ wire_body ++ rest) as Hw by (unfold w, message; by rewrite <-!app_assoc).
  destruct (body_reads str dir ph text max_decoded (h ++ HEADER_END) wire_body data rest w He Hw Hd ltac:(lia))
    as (a & Ea & Hfin).
  assert (advance w false d = Some (Ok (Some (snapshot a)), set_state (ReadingBody a) d)) as Ea'.
  { rewrite (advance_in_head w false d 0) by (cbn; try done; lia).
    pose proof (head_reads dir max_buffer max_decoded h ph (wire_body ++ rest) Hf Hu Hp Hc) as Eh.
    cbv zeta in Eh. fold d text in Eh. rewrite <-Hw in Eh. rewrite Eh.
    erewrite advance_in_body; [|cbn; lia|done|exact Ea]. done. }
  rewrite E in Ea'. injection Ea' as -> ->.
  exists rs, dn, (snapshot a). split; [done|]. split.
  { destruct Hsim as (_ & _ & _ & Hst). by destruct (hd_state dn). }
  destruct Hfin as [F1 F2 F3 F4 F5 F6 F7]. splits; try done; cbn.
  - rewrite F5. unfold message. by rewrite app_assoc.
  - rewrite F6. rewrite bool_decide_false; [done|]. intros Hx. rewrite Hx in He. inversion He.
Qed.

(** ** Examples *)

(** No decompressor at all. *)
Instance no_decompressors : Decompressors := {|
  Coder := Empty_set;
  coder_new _ _ := Err OtherKind;
  coder_append _ c := Ok c;
  coder_finish c := Ok c;
  coder_snapshot c := match c with end;
|}.
Definition txt (l : list string) : list byte := mjoin ((λ s, string_bytes s ++ LINE_END) <$> l).
Definition wire0 : list byte :=
  txt ["HTTP/1.1 200 OK"; "Transfer-Encoding: chunked"; ""; "5;x=y"; "hello"; "1"; "!"; "0"; "t: 1"; ""].
Instance no_streaming : Streaming no_decompressors.
Proof. split; [by intros []|done]. Qed.
Example chunked_example :
  match advance wire0 false (new DirResponse 1000) with
  | Some (Ok (Some m), _) => (dm_body m, dm_complete m, dm_encoded_len m) = (Shared (string_bytes "hello!"), true, length wire0)
  | _ => False
  end.
Proof. vm_compute. reflexivity. Qed.
Example chunked_bytewise :
  match feed [] ((λ b, [b]) <$> wire0) (new DirResponse 1000) with
  | Some (rs, d) => Some (Ok (Some (match hd_state d with ReadingBody a => snapshot a | _ => snapshot (mkActive (mkHead "" None None None None None NoBody) "" None None 0 0 0 NoBody ChunksComplete true) end)), d) = advance wire0 false (new DirResponse 1000)
  | None => False
  end.
Proof. vm_compute. reflexivity. Qed.


(** C83: two chunks, a trailer and the beginning of the next message, in three pieces. *)
Definition head0 : list byte := string_bytes "HTTP/1.1 200 OK" ++ LINE_END ++ string_bytes "Transfer-Encoding: chunked".
Definition chunks0 : list Chunk :=
  [mkChunk (string_bytes "5;x=y") (string_bytes "hello"); mkChunk (string_bytes "1") (string_bytes "!")].
Definition wire_body0 : list byte :=
  mjoin (encode_chunk <$> chunks0) ++ string_bytes "0" ++ LINE_END ++ encode_trailers [string_bytes "t: 1"].
Lemma http1_roundtrip_witness :
  let rest := string_bytes "HTTP/1" in
  let message := head0 ++ HEADER_END ++ wire_body0 in
  let pieces := [take 40 message; drop 40 message; rest] in
  ∃ rs dn m, feed [] pieces (with_decoded_limit 100 (new DirResponse 1000) : Http1Decoder no_decompressors)
      = Some (rs, dn) ∧
    last rs = Some (Ok (Some m)) ∧
    dm_head m = mkHead "http/1.1" None None None (Some "200") (Some "OK") Chunked ∧
    dm_headers_text m = String.string_of_list_byte head0 ∧
    body_bytes (message ++ rest) (dm_body m) = Some (string_bytes "hello!") ∧
    dm_complete m = true ∧ dm_encoded_len m = length message ∧
    dm_framing_failure m = None ∧ dm_content_failure m = None ∧ dm_body_boundary_known m = true.
Proof.
  apply (http1_roundtrip no_streaming DirResponse 1000 100 head0 _ wire_body0 (string_bytes "hello!")
    (string_bytes "HTTP/1")); [vm_compute; reflexivity|vm_compute; reflexivity|vm_compute; reflexivity
    |vm_compute; reflexivity| |vm_compute; intros; discriminate|done|vm_compute; reflexivity
    |vm_compute; split; intros; discriminate].
  apply (enc_chunked chunks0 (string_bytes "0") [string_bytes "t: 1"]);
    [|vm_compute; reflexivity|vm_compute; reflexivity|].
  - repeat constructor; done.
  - repeat constructor; done.
Defined.
End H1Facts.
