(* ===== verification/Payload.v ===== *)
(** Captured payload segments (crates/core/model/src/payload/segment.rs), the protocol
    observations made of them (crates/core/semantic_action_runtime/src/http_observation.rs)
    and the transport's byte buffer (llm_pipeline/transport/buffer/cursor.rs). *)
From stdpp Require Import prelude strings gmap.
From Stdlib Require Import ZArith Lia.
From coqutil Require Import Byte.
From S2P Require Import Prelude Bytes ProcessIdentity Model.

Open Scope Z_scope.

(** * Payload segments *)

Inductive PayloadSourceBoundary := TlsUserSpace | Syscall | Stdio.
Inductive PayloadContentState := Plaintext | Ciphertext.
Inductive PayloadDirection := Outbound | Inbound.
Inductive PayloadRedactionState := NotRequired | Redacted | Unredacted.
Inductive PayloadTruncationState := TruncComplete | TruncPolicyLimited | Truncated.
Inductive PayloadCaptureState := CapComplete | CapPolicyLimited | CapIncomplete.
Inductive PayloadOperationCompletionState := OpUnknown | OpSuccess | OpPartial | OpFailed.
#[export] Instance boundary_eq_dec : EqDecision PayloadSourceBoundary.
Proof. solve_decision. Defined.
#[export] Instance payload_direction_eq_dec : EqDecision PayloadDirection.
Proof. solve_decision. Defined.
#[export] Instance content_state_eq_dec : EqDecision PayloadContentState.
Proof. solve_decision. Defined.
#[export] Instance redaction_eq_dec : EqDecision PayloadRedactionState.
Proof. solve_decision. Defined.
#[export] Instance truncation_eq_dec : EqDecision PayloadTruncationState.
Proof. solve_decision. Defined.
#[export] Instance capture_eq_dec : EqDecision PayloadCaptureState.
Proof. solve_decision. Defined.
#[export] Instance completion_eq_dec : EqDecision PayloadOperationCompletionState.
Proof. solve_decision. Defined.

(** Sizes and offsets within an operation are [u64]. *)
Record PayloadSegment := mkSegment {
  sg_segment_id : Z;
  sg_trace_id : TraceId;
  sg_observed_at : SystemTime;
  sg_process : ProcessIdentity;
  sg_source_boundary : PayloadSourceBoundary;
  sg_content_state : PayloadContentState;
  sg_direction : PayloadDirection;
  sg_stream_key : string;
  sg_sequence : Z;
  sg_original_size : Z;
  sg_captured_size : Z;
  sg_operation_id : Z;
  sg_operation_offset : Z;
  sg_operation_original_size : Z;
  sg_operation_captured_size : Z;
  sg_operation_completion_state : PayloadOperationCompletionState;
  sg_truncation : PayloadTruncationState;
  sg_redaction : PayloadRedactionState;
  sg_library : string;
  sg_symbol : string;
  sg_protocol_hint : option string;
  sg_bytes : list byte;
}.

(** [u64::saturating_add]. *)
Definition saturating_add_u64 (a b : Z) : Z := (a + b) `min` u64_max.

Module Segment.
Definition operation_capture_ended (s : PayloadSegment) : bool :=
  sg_operation_captured_size s <=? saturating_add_u64 (sg_operation_offset s) (sg_captured_size s).
Definition capture_state (s : PayloadSegment) : PayloadCaptureState :=
  if bool_decide (sg_truncation s = TruncPolicyLimited)
     && bool_decide (sg_operation_completion_state s = OpSuccess)
     && (sg_operation_captured_size s <? sg_operation_original_size s) then CapPolicyLimited
  else if bool_decide (sg_truncation s = TruncComplete)
     && bool_decide (sg_operation_completion_state s = OpSuccess)
     && (sg_operation_original_size s =? sg_operation_captured_size s) then CapComplete
  else CapIncomplete.
Definition operation_capture_state (s : PayloadSegment) : option PayloadCaptureState :=
  if operation_capture_ended s then Some (capture_state s) else None.
(** [EvidenceTracker::segment_metadata]: the segment without its bytes. *)
Definition with_bytes (bytes : list byte) (s : PayloadSegment) : PayloadSegment :=
  mkSegment (sg_segment_id s) (sg_trace_id s) (sg_observed_at s) (sg_process s) (sg_source_boundary s)
    (sg_content_state s) (sg_direction s) (sg_stream_key s) (sg_sequence s) (sg_original_size s)
    (sg_captured_size s) (sg_operation_id s) (sg_operation_offset s) (sg_operation_original_size s)
    (sg_operation_captured_size s) (sg_operation_completion_state s) (sg_truncation s)
    (sg_redaction s) (sg_library s) (sg_symbol s) (sg_protocol_hint s) bytes.
Definition segment_metadata (s : PayloadSegment) : PayloadSegment := with_bytes [] s.
End Segment.

Record PayloadStreamIdentity := mkStreamIdentity {
  si_trace_id : TraceId;
  si_process : ProcessIdentity;
  si_source_boundary : PayloadSourceBoundary;
  si_stream_key : string;
}.
#[export] Instance stream_identity_eq_dec : EqDecision PayloadStreamIdentity.
Proof. solve_decision. Defined.
(** [PayloadStreamIdentity::from_segment]. *)
Definition from_segment (s : PayloadSegment) : PayloadStreamIdentity :=
  mkStreamIdentity (sg_trace_id s) (sg_process s) (sg_source_boundary s) (sg_stream_key s).

#[export] Instance boundary_countable : Countable PayloadSourceBoundary.
Proof.
  refine (inj_countable' (λ b, match b with TlsUserSpace => 0 | Syscall => 1 | Stdio => 2 end)
            (λ z, if z =? 0 then TlsUserSpace else if z =? 1 then Syscall else Stdio) _).
  by intros [].
Defined.
#[export] Instance stream_identity_countable : Countable PayloadStreamIdentity.
Proof.
  refine (inj_countable' (λ i, (si_trace_id i, si_process i, si_source_boundary i, si_stream_key i))
            (λ '(t, p, b, k), mkStreamIdentity t p b k) _).
  by intros [].
Defined.

(** * Observations *)

Record Http1MessageSource := mkSource {
  ms_trace_id : TraceId;
  ms_process : ProcessIdentity;
  ms_source_boundary : PayloadSourceBoundary;
  ms_stream_key : string;
  ms_direction : PayloadDirection;
  ms_observed_at : SystemTime;
  ms_segment_id : Z;
  ms_payload_sequence : Z;
}.
(** The source coordinates of a message: those of its first segment. *)
Definition source_of (first : PayloadSegment) : Http1MessageSource :=
  mkSource (sg_trace_id first) (sg_process first) (sg_source_boundary first) (sg_stream_key first)
    (sg_direction first) (sg_observed_at first) (sg_segment_id first) (sg_sequence first).
Record Http1MessageHead := mkMessageHead {
  mh_message_id : string;
  mh_source : Http1MessageSource;
  mh_protocol : string;
  mh_method : option string;
  mh_authority : option string;
  mh_path : option string;
  mh_status_code : option string;
  mh_reason : option string;
  mh_headers_text : string;
  mh_declared_body_len : option Z;
}.
Inductive Http1AbortReason :=
| AbCaptureGap | AbCaptureIncomplete | AbCapturePolicyLimited | AbDecodeFailure | AbCapacityExceeded
| AbPeerClosed | AbHttp2StreamReset | AbTraceClosed.
Inductive Http1MessageEvent :=
| EvHead (head : Http1MessageHead)
| EvBody (message_id : string) (bytes : list byte)
| EvEnd (message_id : string) (observed_at : SystemTime)
| EvAbort (message_id : string) (reason : Http1AbortReason) (observed_at : SystemTime).

(** * The cursor buffer *)

Open Scope nat_scope.

Record CursorBuffer := mkBuffer { cb_storage : list byte; cb_head : nat }.
Module Buffer.
Definition default_ : CursorBuffer := mkBuffer [] 0.
(** [Deref]: the unreleased bytes. *)
Definition bytes (b : CursorBuffer) : list byte := drop (cb_head b) (cb_storage b).
Definition extend_from_slice (l : list byte) (b : CursorBuffer) : CursorBuffer :=
  mkBuffer (cb_storage b ++ l) (cb_head b).
(** [release]: [false] when more is released than there is. *)
Definition release (consumed : nat) (b : CursorBuffer) : bool * CursorBuffer :=
  if length (bytes b) <? consumed then (false, b)
  else
    let head := cb_head b + consumed in
    if head =? length (cb_storage b) then (true, mkBuffer [] 0)
    else
      let remaining := length (cb_storage b) - head in
      if remaining <=? head then (true, mkBuffer (take remaining (drop head (cb_storage b))) 0)
      else (true, mkBuffer (cb_storage b) head).

(** The head stays within the storage. *)
Definition wf (b : CursorBuffer) : Prop := cb_head b ≤ length (cb_storage b).

Lemma default_wf : wf default_.
Proof. unfold wf. cbn. lia. Qed.
Lemma extend_wf l b : wf b → wf (extend_from_slice l b).
Proof. unfold wf. cbn. rewrite length_app. lia. Qed.
Lemma extend_bytes l b : wf b → bytes (extend_from_slice l b) = bytes b ++ l.
Proof. intros H. unfold bytes. cbn. by rewrite drop_app_le. Qed.
Lemma release_spec n b :
  wf b → n ≤ length (bytes b) →
  ∃ b', release n b = (true, b') ∧ wf b' ∧ bytes b' = drop n (bytes b).
Proof.
  intros Hw Hn. unfold release. rewrite (proj2 (Nat.ltb_ge _ _) Hn).
  assert (length (bytes b) = length (cb_storage b) - cb_head b) as Hl by apply length_drop.
  unfold wf in Hw. unfold bytes. rewrite drop_drop.
  destruct (Nat.eqb_spec (cb_head b + n) (length (cb_storage b))) as [E|E].
  - eexists. split; [done|]. split; [unfold wf; cbn; lia|]. cbn. by rewrite drop_ge by lia.
  - destruct (_ <=? _); (eexists; split; [done|]); unfold wf; cbn; (split; [lia|done || idtac]).
    rewrite drop_0. rewrite take_ge; [done|]. rewrite length_drop. lia.
Qed.
Lemma release_all b : wf b → ∃ b', release (length (bytes b)) b = (true, b') ∧ wf b' ∧ bytes b' = [].
Proof.
  intros Hw. destruct (release_spec (length (bytes b)) b Hw) as (b' & E & Hb & Hd); [done|].
  exists b'. by rewrite Hd, drop_ge.
Qed.
End Buffer.
