(* ===== verification/Evidence.v ===== *)
(** Body offsets and the payload segments behind them:
    crates/core/semantic_action_runtime/src/llm_pipeline/transport/evidence/tracker.rs.

    Global offsets are [usize] positions in a stream and are naturals here; range ids are
    [u64] values that saturate. *)
From stdpp Require Import prelude strings gmap.
From Stdlib Require Import ZArith Lia.
From coqutil Require Import Byte.
From S2P Require Import Prelude Bytes ProcessIdentity Model Payload.

Open Scope nat_scope.

Record EvidenceRange := mkRange {
  er_id : Z;
  er_start : nat;
  er_end : nat;
  er_segment : PayloadSegment;
}.
Record EvidenceTracker := mkTracker {
  et_ranges : list EvidenceRange;
  et_next_range_id : Z;
}.
Record OperationEvidenceState := mkOperation {
  oe_expected_offset : Z;
  oe_captured_size : Z;
  oe_original_size : Z;
  oe_contiguous : bool;
}.
Record EvidenceSnapshot := mkSnapshot {
  es_first : option PayloadSegment;
  es_last : option PayloadSegment;
  es_segment_count : Z;
  es_operation_ids : gset Z;
  es_any_operation_failed : bool;
  es_all_capture_complete : bool;
  es_any_capture_policy_limited : bool;
  es_any_capture_abnormal : bool;
  es_seen_segment_ids : gset Z;
  es_operation_states : gmap Z OperationEvidenceState;
}.
Record EvidenceCursor := mkCursor {
  ec_message_start : nat;
  ec_next_range_id : Z;
  ec_snapshot : EvidenceSnapshot;
}.

Module Snapshot.
Definition default_ : EvidenceSnapshot := mkSnapshot None None 0 ∅ false false false false ∅ ∅.
(** The snapshot [EvidenceCursor::new] starts with. *)
Definition initial : EvidenceSnapshot := mkSnapshot None None 0 ∅ false true false false ∅ ∅.
Definition operation_segments_are_complete (s : EvidenceSnapshot) : bool :=
  bool_decide (is_Some (es_first s)) && bool_decide (es_operation_states s ≠ ∅)
  && forallb (λ p, oe_contiguous p.2 && (oe_expected_offset p.2 =? oe_captured_size p.2)%Z
                   && (oe_captured_size p.2 =? oe_original_size p.2)%Z)
       (map_to_list (es_operation_states s)).
Definition capture_is_policy_limited (s : EvidenceSnapshot) : bool :=
  negb (es_all_capture_complete s) && es_any_capture_policy_limited s && negb (es_any_capture_abnormal s).

(** The state of the segment's operation after it. *)
Definition observe_operation (segment : PayloadSegment) (o : option OperationEvidenceState)
    : OperationEvidenceState :=
  let op := default (mkOperation 0 (sg_operation_captured_size segment)
                       (sg_operation_original_size segment) true) o in
  mkOperation (saturating_add_u64 (oe_expected_offset op) (sg_captured_size segment))
    (oe_captured_size op) (oe_original_size op)
    (oe_contiguous op && (sg_operation_offset segment =? oe_expected_offset op)%Z
     && (sg_operation_captured_size segment =? oe_captured_size op)%Z
     && (sg_operation_original_size segment =? oe_original_size op)%Z).
Definition observe (segment : PayloadSegment) (s : EvidenceSnapshot) : EvidenceSnapshot :=
  if bool_decide (sg_segment_id segment ∈ es_seen_segment_ids s) then s
  else
    let metadata := Segment.segment_metadata segment in
    let state := Segment.capture_state segment in
    mkSnapshot
      match es_first s with None => Some metadata | f => f end
      (Some metadata)
      (saturating_add_u64 (es_segment_count s) 1)
      ({[sg_operation_id segment]} ∪ es_operation_ids s)
      (es_any_operation_failed s || bool_decide (sg_operation_completion_state segment = OpFailed))
      (es_all_capture_complete s && bool_decide (state = CapComplete))
      (es_any_capture_policy_limited s || bool_decide (state = CapPolicyLimited))
      (es_any_capture_abnormal s || bool_decide (state = CapIncomplete))
      ({[sg_segment_id segment]} ∪ es_seen_segment_ids s)
      (<[sg_operation_id segment :=
           observe_operation segment (es_operation_states s !! sg_operation_id segment)]>
         (es_operation_states s)).
End Snapshot.

Module Tracker.
Definition default_ : EvidenceTracker := mkTracker [] 0.

(** [VecDeque::partition_point] on a sequence that is partitioned by the predicate. *)
Fixpoint partition_point (p : EvidenceRange → bool) (l : list EvidenceRange) : nat :=
  match l with [] => 0 | r :: l' => if p r then S (partition_point p l') else 0 end.
Fixpoint take_while (p : EvidenceRange → bool) (l : list EvidenceRange) : list EvidenceRange :=
  match l with [] => [] | r :: l' => if p r then r :: take_while p l' else [] end.

Definition capture_tail_complete (t : EvidenceTracker) : bool :=
  match last (et_ranges t) with
  | None => true
  | Some range =>
      (sg_operation_captured_size (er_segment range) <=?
       saturating_add_u64 (sg_operation_offset (er_segment range)) (sg_captured_size (er_segment range)))%Z
  end.
Definition cursor (message_start : nat) (t : EvidenceTracker) : EvidenceCursor :=
  let next := match List.find (λ r, message_start <? er_end r) (et_ranges t) with
              | Some range => er_id range
              | None => et_next_range_id t
              end in
  mkCursor message_start next Snapshot.initial.
Definition append (start stop : nat) (segment : PayloadSegment) (t : EvidenceTracker) : EvidenceTracker :=
  mkTracker (et_ranges t ++ [mkRange (et_next_range_id t) start stop (Segment.segment_metadata segment)])
    (saturating_add_u64 (et_next_range_id t) 1).

(** The loop of [advance_cursor]. *)
Fixpoint advance_ranges (stop : nat) (l : list EvidenceRange) (c : EvidenceCursor) : EvidenceCursor :=
  match l with
  | [] => c
  | range :: l' =>
      if stop <=? er_start range then c
      else
        let snapshot := if ec_message_start c <? er_end range
                        then Snapshot.observe (er_segment range) (ec_snapshot c) else ec_snapshot c in
        advance_ranges stop l'
          (mkCursor (ec_message_start c) (saturating_add_u64 (er_id range) 1) snapshot)
  end.
Definition advance_cursor (stop : nat) (t : EvidenceTracker) (c : EvidenceCursor) : bool * EvidenceCursor :=
  if stop <? ec_message_start c then (false, c)
  else if match et_ranges t with front :: _ => (ec_next_range_id c <? er_id front)%Z | [] => false end
  then (false, c)
  else
    let first := partition_point (λ r, (er_id r <? ec_next_range_id c)%Z) (et_ranges t) in
    (true, advance_ranges stop (drop first (et_ranges t)) c).

Definition for_range (start stop : nat) (t : EvidenceTracker) : list PayloadSegment :=
  let first := partition_point (λ r, er_end r <=? start) (et_ranges t) in
  er_segment <$> take_while (λ r, er_start r <? stop) (drop first (et_ranges t)).

(** [slice_payloads]: the parts of the ranges in a suffix of the stream. *)
Definition slice_payload (start : nat) (bytes : list byte) (range : EvidenceRange) : option PayloadSegment :=
  let left := er_start range `max` start in
  let right := er_end range `min` (start + length bytes) in
  if right <=? left then None
  else
    let s := er_segment range in
    let part := take (right - left) (drop (left - start) bytes) in
    Some (mkSegment (sg_segment_id s) (sg_trace_id s) (sg_observed_at s) (sg_process s)
            (sg_source_boundary s) (sg_content_state s) (sg_direction s) (sg_stream_key s)
            (sg_sequence s) (sg_original_size s) (Z.of_nat (length part)) (sg_operation_id s)
            (saturating_add_u64 (sg_operation_offset s) (Z.of_nat (left - er_start range)))
            (sg_operation_original_size s) (sg_operation_captured_size s)
            (sg_operation_completion_state s) (sg_truncation s) (sg_redaction s) (sg_library s)
            (sg_symbol s) (sg_protocol_hint s) part).
Definition slice_payloads (start : nat) (bytes : list byte) (t : EvidenceTracker) : list PayloadSegment :=
  omap (slice_payload start bytes) (et_ranges t).

Fixpoint evict_ranges (offset : nat) (l : list EvidenceRange) : list EvidenceRange :=
  match l with
  | [] => []
  | r :: l' =>
      if er_end r <=? offset then evict_ranges offset l'
      else (if er_start r <? offset then mkRange (er_id r) offset (er_end r) (er_segment r) else r) :: l'
  end.
Definition evict_before (global_offset : nat) (t : EvidenceTracker) : EvidenceTracker :=
  mkTracker (evict_ranges global_offset (et_ranges t)) (et_next_range_id t).
Definition len (t : EvidenceTracker) : nat := length (et_ranges t).
Definition reset (t : EvidenceTracker) : EvidenceTracker := mkTracker [] (et_next_range_id t).
End Tracker.

(** * What the tracker knows *)

Module TrackerFacts.
Import Tracker.

(** Consecutive ranges tile an interval of the stream. *)
Fixpoint tiles (lo : nat) (l : list EvidenceRange) (hi : nat) : Prop :=
  match l with
  | [] => lo = hi
  | r :: l' => er_start r = lo ∧ lo ≤ er_end r ∧ tiles (er_end r) l' hi
  end.
(** A range that reaches into [[start, stop)]. *)
Definition overlaps (start stop : nat) (r : EvidenceRange) : Prop := start < er_end r ∧ er_start r < stop.
#[export] Instance overlaps_dec start stop r : Decision (overlaps start stop r).
Proof. unfold overlaps. apply _. Defined.

Lemma filter_none {A} (P : A → Prop) `{∀ x, Decision (P x)} l : (∀ x, x ∈ l → ¬ P x) → filter P l = [].
Proof.
  induction l as [|x l IH]; [done|]. intros H'. rewrite filter_cons_False by (apply H', list_elem_of_here).
  apply IH. intros y Hy. apply H'. by right.
Qed.
Lemma tiles_le lo l hi : tiles lo l hi → lo ≤ hi.
Proof. revert lo. induction l as [|r l IH]; intros lo; cbn; [lia|]. intros (_ & ? & ?%IH). lia. Qed.
Lemma tiles_app lo l mid k hi : tiles lo l mid → tiles mid k hi → tiles lo (l ++ k) hi.
Proof.
  revert lo. induction l as [|r l IH]; intros lo; cbn; [by intros ->|].
  intros (? & ? & ?) ?. auto.
Qed.
Lemma tiles_bounds lo l hi r : tiles lo l hi → r ∈ l → lo ≤ er_start r ≤ er_end r ∧ er_end r ≤ hi.
Proof.
  revert lo. induction l as [|x l IH]; intros lo; cbn; [intros _; by rewrite elem_of_nil|].
  intros (Hs & Hle & Ht) [-> | Hr]%elem_of_cons.
  - apply tiles_le in Ht. lia.
  - specialize (IH _ Ht Hr). lia.
Qed.

(** Segments behind an interval: those of the ranges that overlap it. *)
Definition segments_in (start stop : nat) (l : list EvidenceRange) : list PayloadSegment :=
  er_segment <$> filter (overlaps start stop) l.

Lemma take_while_tiles lo l hi start stop :
  tiles lo l hi → start < lo →
  take_while (λ r, er_start r <? stop) l = filter (overlaps start stop) l.
Proof.
  revert lo. induction l as [|r l IH]; intros lo; cbn [take_while]; [done|]. intros (Hs & Hle & Ht) Hlo.
  destruct (Nat.ltb_spec (er_start r) stop) as [H|H].
  - rewrite filter_cons_True by (unfold overlaps; lia). f_equal. eapply IH; [done|lia].
  - rewrite filter_cons_False by (unfold overlaps; lia). symmetry. apply filter_none.
    intros x Hx. apply (tiles_bounds _ _ _ _ Ht) in Hx. unfold overlaps. lia.
Qed.

Lemma for_range_tiles lo t hi start stop :
  tiles lo (et_ranges t) hi → for_range start stop t = segments_in start stop (et_ranges t).
Proof.
  unfold for_range, segments_in. intros H. f_equal. revert lo H.
  induction (et_ranges t) as [|r l IH]; intros lo; cbn [partition_point tiles]; [done|].
  intros (Hs & Hle & Ht). destruct (Nat.leb_spec (er_end r) start) as [H|H].
  - cbn [drop]. rewrite (IH _ Ht). symmetry. apply filter_cons_False. unfold overlaps. lia.
  - cbn [drop take_while]. destruct (Nat.ltb_spec (er_start r) stop) as [H'|H'].
    + rewrite filter_cons_True by (unfold overlaps; lia). f_equal. by eapply take_while_tiles.
    + rewrite filter_cons_False by (unfold overlaps; lia). symmetry. apply filter_none.
      intros x Hx. apply (tiles_bounds _ _ _ _ Ht) in Hx. unfold overlaps. lia.
Qed.

(** Evicting keeps the tiling of what is left, and the segments of every later interval. *)
Lemma evict_tiles lo l hi offset :
  tiles lo l hi → lo ≤ offset ≤ hi → tiles offset (evict_ranges offset l) hi.
Proof.
  revert lo. induction l as [|r l IH]; intros lo; cbn [evict_ranges tiles]; [lia|].
  intros (Hs & Hle & Ht) Ho. destruct (Nat.leb_spec (er_end r) offset) as [H|H].
  - apply (IH _ Ht). lia.
  - destruct (Nat.ltb_spec (er_start r) offset) as [H'|H']; cbn [tiles er_start er_end].
    + splits; [done|lia|done].
    + splits; [lia|lia|done].
Qed.
Lemma evict_segments lo l hi offset start stop :
  tiles lo l hi → lo ≤ offset → offset ≤ start → start < stop →
  segments_in start stop (evict_ranges offset l) = segments_in start stop l.
Proof.
  unfold segments_in. revert lo. induction l as [|r l IH]; intros lo; cbn [evict_ranges tiles]; [done|].
  intros (Hs & Hle & Ht) Hlo Hst Hss. destruct (Nat.leb_spec (er_end r) offset) as [H|H].
  - rewrite filter_cons_False by (unfold overlaps; lia). destruct (decide (offset ≤ er_end r)).
    + eapply (IH (er_end r)); [done|lia|done|done].
    + eapply (IH (er_end r)); [done|lia|done|done].
  - destruct (Nat.ltb_spec (er_start r) offset) as [H'|H']; [|done].
    destruct (decide (start < er_end r)) as [Hin|Hout].
    + by rewrite !filter_cons_True by (unfold overlaps; cbn; lia).
    + by rewrite !filter_cons_False by (unfold overlaps; cbn; lia).
Qed.
Lemma evict_all lo l hi : tiles lo l hi → evict_ranges hi l = [].
Proof.
  revert lo. induction l as [|r l IH]; intros lo; cbn [evict_ranges tiles]; [done|].
  intros (Hs & Hle & Ht). pose proof (tiles_le _ _ _ Ht). rewrite (proj2 (Nat.leb_le _ _)) by lia. eauto.
Qed.

(** The ranges of all segments of a stream, from its beginning. *)
Fixpoint spans (id : Z) (offset : nat) (ss : list PayloadSegment) : list EvidenceRange :=
  match ss with
  | [] => []
  | s :: ss' =>
      let stop := offset + length (sg_bytes s) in
      mkRange id offset stop (Segment.segment_metadata s) :: spans (saturating_add_u64 id 1) stop ss'
  end.
Definition stream_bytes (ss : list PayloadSegment) : list byte := mjoin (sg_bytes <$> ss).

Lemma stream_bytes_app ss ss' : stream_bytes (ss ++ ss') = stream_bytes ss ++ stream_bytes ss'.
Proof. unfold stream_bytes. by rewrite fmap_app, mjoin_app. Qed.

Lemma stream_bytes_snoc ss s : stream_bytes (ss ++ [s]) = stream_bytes ss ++ sg_bytes s.
Proof. rewrite stream_bytes_app. unfold stream_bytes at 2. cbn. by rewrite app_nil_r. Qed.

Lemma spans_tiles id offset ss : tiles offset (spans id offset ss) (offset + length (stream_bytes ss)).
Proof.
  revert id offset. induction ss as [|s ss IH]; intros id offset; cbn [spans tiles]; [cbn; lia|].
  cbn [er_start er_end]. splits; [done|lia|]. unfold stream_bytes. rewrite fmap_cons, mjoin_cons, length_app.
  rewrite Nat.add_assoc. apply IH.
Qed.
(** The id after those of a list of segments. *)
Definition next_id (id : Z) (ss : list PayloadSegment) : Z := foldl (λ i _, saturating_add_u64 i 1) id ss.
Lemma spans_snoc id offset ss s :
  spans id offset (ss ++ [s]) = spans id offset ss ++ spans (next_id id ss) (offset + length (stream_bytes ss)) [s].
Proof.
  revert id offset. induction ss as [|x ss IH]; intros id offset.
  { cbn. by rewrite Nat.add_0_r. }
  cbn [app spans]. rewrite IH. unfold stream_bytes. rewrite fmap_cons, mjoin_cons, length_app, Nat.add_assoc. done.
Qed.

(** A tracker that follows a stream whose bytes before [base] are released: it tiles what
    is left, and knows the segments of every interval of it. *)
Record follows (ss : list PayloadSegment) (base : nat) (t : EvidenceTracker) : Prop := {
  fo_tiles : tiles base (et_ranges t) (length (stream_bytes ss));
  fo_segments start stop : base ≤ start → start < stop →
    segments_in start stop (et_ranges t) = segments_in start stop (spans 0 0 ss);
}.

Lemma follows_default : follows [] 0 default_.
Proof. split; done. Qed.

Lemma segments_in_app start stop l k :
  segments_in start stop (l ++ k) = segments_in start stop l ++ segments_in start stop k.
Proof. unfold segments_in. by rewrite filter_app, fmap_app. Qed.

Lemma segments_in_one id1 id2 start stop a b s :
  segments_in start stop [mkRange id1 a b s] = segments_in start stop [mkRange id2 a b s].
Proof.
  unfold segments_in. destruct (decide (overlaps start stop (mkRange id1 a b s))) as [H|H].
  - by rewrite !filter_cons_True by (exact H).
  - by rewrite !filter_cons_False by (exact H).
Qed.

Lemma follows_append ss base t s :
  follows ss base t →
  follows (ss ++ [s]) base
    (append (length (stream_bytes ss)) (length (stream_bytes ss) + length (sg_bytes s)) s t).
Proof.
  intros [Ht Hs]. split.
  - cbn [append et_ranges]. eapply tiles_app; [exact Ht|]. cbn [tiles er_start er_end].
    rewrite stream_bytes_snoc, length_app. splits; [done|lia|done].
  - intros start stop H1 H2. cbn [append et_ranges]. rewrite spans_snoc, !segments_in_app. f_equal; [by apply Hs|].
    cbn [spans]. apply segments_in_one.
Qed.
Lemma follows_evict ss base t offset :
  follows ss base t → base ≤ offset ≤ length (stream_bytes ss) → follows ss offset (evict_before offset t).
Proof.
  intros [Ht Hs] Ho. split.
  - eapply evict_tiles; [done|lia].
  - intros start stop H1 H2. cbn [evict_before et_ranges].
    rewrite (evict_segments _ _ _ _ _ _ Ht) by lia. apply Hs; lia.
Qed.
Lemma follows_reset ss base t :
  follows ss base t → base = length (stream_bytes ss) → follows ss base (reset t).
Proof.
  intros [Ht Hs] Hb. split; [by cbn|]. intros start stop H1 H2. cbn [reset et_ranges].
  rewrite <-Hs by done. unfold segments_in. rewrite (filter_none _ (et_ranges t)); [done|]. intros r Hr.
  apply (tiles_bounds _ _ _ _ Ht) in Hr. unfold overlaps. lia.
Qed.
Lemma follows_for_range ss base t start stop :
  follows ss base t → base ≤ start → start < stop →
  for_range start stop t = segments_in start stop (spans 0 0 ss).
Proof. intros [Ht Hs] H1 H2. rewrite (for_range_tiles _ _ _ _ _ Ht). by apply Hs. Qed.

(** Later segments do not change what lies behind an interval of the past. *)
Lemma segments_in_later ss s start stop :
  stop ≤ length (stream_bytes ss) →
  segments_in start stop (spans 0 0 (ss ++ [s])) = segments_in start stop (spans 0 0 ss).
Proof.
  intros H. rewrite spans_snoc, segments_in_app. unfold segments_in at 2. rewrite filter_none; [by rewrite app_nil_r|].
  cbn. intros r [-> |Hr]%elem_of_cons; [|by apply not_elem_of_nil in Hr]. unfold overlaps. cbn. lia.
Qed.
(** A non-empty interval of the stream has a segment behind it. *)
Lemma tiles_overlap lo l hi start stop :
  tiles lo l hi → lo ≤ start → start < stop → stop ≤ hi → segments_in start stop l ≠ [].
Proof.
  unfold segments_in. revert lo. induction l as [|r l IH]; intros lo; cbn [tiles]; [lia|].
  intros (Hs & Hle & Ht) H1 H2 H3. destruct (decide (start < er_end r)) as [H|H].
  - by rewrite filter_cons_True by (unfold overlaps; lia).
  - rewrite filter_cons_False by (unfold overlaps; lia). eapply IH; [done|lia|done|done].
Qed.

(** ** Cursors *)

(** Range ids count up from the front's to the next one. *)
Fixpoint counted (id : Z) (l : list EvidenceRange) (next : Z) : Prop :=
  match l with [] => id = next | r :: l' => er_id r = id ∧ counted (id + 1) l' next end.
Record wf (lo hi : nat) (t : EvidenceTracker) : Prop := {
  wf_tiles : tiles lo (et_ranges t) hi;
  wf_counted : ∃ id, (0 ≤ id)%Z ∧ counted id (et_ranges t) (et_next_range_id t);
  wf_next : (et_next_range_id t ≤ u64_max)%Z;
}.
(** A snapshot of some segments, from the first to the last. *)
Definition observe_all (ss : list PayloadSegment) : EvidenceSnapshot :=
  foldl (λ s g, Snapshot.observe g s) Snapshot.initial ss.

Lemma counted_length id l next : counted id l next → next = (id + Z.of_nat (length l))%Z.
Proof.
  revert id. induction l as [|r l IH]; intros id; cbn [counted length]; [lia|]. intros [_ H%IH]. lia.
Qed.
Lemma counted_app id l k next next' :
  counted id l next → counted next k next' → counted id (l ++ k) next'.
Proof.
  revert id. induction l as [|r l IH]; intros id; cbn; [by intros ->|]. intros [? ?] ?. auto.
Qed.
Lemma counted_partition id l next k :
  counted id l next → k ≤ length l → partition_point (λ r, (er_id r <? id + Z.of_nat k)%Z) l = k.
Proof.
  revert id k. induction l as [|r l IH]; intros id k; cbn [counted length partition_point].
  - intros _ ?. lia.
  - intros [Hr Hl] Hk. destruct k as [|k].
    + rewrite (proj2 (Z.ltb_ge _ _)) by lia. done.
    + rewrite (proj2 (Z.ltb_lt _ _)) by lia. f_equal.
      replace (id + Z.of_nat (S k))%Z with (id + 1 + Z.of_nat k)%Z by lia. apply IH; [done|lia].
Qed.

(** A cursor that has read the first [k] ranges. *)
Definition read_to (m k : nat) (t : EvidenceTracker) (c : EvidenceCursor) : Prop :=
  ec_message_start c = m ∧ k ≤ length (et_ranges t) ∧
  (∃ id, (0 ≤ id)%Z ∧ counted id (et_ranges t) (et_next_range_id t) ∧ ec_next_range_id c = (id + Z.of_nat k)%Z) ∧
  ec_snapshot c = observe_all (er_segment <$> filter (λ r, m < er_end r) (take k (et_ranges t))).

Lemma observe_all_snoc ss s : observe_all (ss ++ [s]) = Snapshot.observe s (observe_all ss).
Proof. unfold observe_all. by rewrite foldl_app. Qed.

Lemma advance_reads stop m k t c :
  (et_next_range_id t ≤ u64_max)%Z → read_to m k t c →
  read_to m (k + length (take_while (λ r, er_start r <? stop) (drop k (et_ranges t)))) t
    (advance_ranges stop (drop k (et_ranges t)) c).
Proof.
  intros Hn. remember (drop k (et_ranges t)) as l eqn:El. revert k c El.
  induction l as [|r l IH]; intros k c El Hr; cbn [take_while advance_ranges].
  { cbn. by rewrite Nat.add_0_r. }
  destruct (Nat.ltb_spec (er_start r) stop) as [H|H].
  2: { rewrite (proj2 (Nat.leb_le _ _)) by lia. cbn. by rewrite Nat.add_0_r. }
  rewrite (proj2 (Nat.leb_gt _ _)) by lia. cbn [length]. rewrite Nat.add_succ_r, <-Nat.add_succ_l.
  assert (et_ranges t !! k = Some r) as Hk by (by rewrite <-(Nat.add_0_r k), <-lookup_drop, <-El).
  assert (l = drop (S k) (et_ranges t)) as El' by (by rewrite <-(Nat.add_1_r k), <-drop_drop, <-El).
  destruct Hr as (Hm & Hle & (id & Hid & Hc & He) & Hs). apply IH; [done|].
  pose proof (lookup_lt_Some _ _ _ Hk) as Hlt. pose proof (counted_length _ _ _ Hc) as Hl.
  assert (er_id r = id + Z.of_nat k)%Z as Hid'.
  { clear -Hc Hk. revert id k Hc Hk. induction (et_ranges t) as [|x l IH]; intros id k Hc Hk; [done|].
    destruct Hc as [Hx Hc]. destruct k as [|k]; cbn in Hk; [injection Hk as <-; lia|].
    rewrite (IH (id + 1)%Z k) by done. lia. }
  unfold read_to. cbn [ec_message_start ec_next_range_id ec_snapshot]. splits; [done|lia| |].
  - exists id. splits; [done|done|]. unfold saturating_add_u64. rewrite Hid', Z.min_l by lia. lia.
  - rewrite (take_S_r _ _ r) by done. rewrite filter_app, fmap_app. rewrite Hm.
    destruct (Nat.ltb_spec m (er_end r)) as [H1|H1].
    + rewrite filter_cons_True by lia. cbn. by rewrite observe_all_snoc, Hs.
    + rewrite filter_cons_False by lia. cbn. by rewrite app_nil_r.
Qed.

Lemma read_overlaps lo l hi m stop k :
  tiles lo l hi → Forall (λ r, er_start r < stop ∨ er_end r ≤ m) (take k l) →
  let n := k + length (take_while (λ r, er_start r <? stop) (drop k l)) in
  filter (λ r, m < er_end r) (take n l) = filter (overlaps m stop) l ∧
  Forall (λ r, er_start r < stop ∨ er_end r ≤ m) (take n l).
Proof.
  revert lo k. induction l as [|r l IH]; intros lo k; cbn [tiles].
  { intros _ _. by rewrite !take_nil. }
  intros (Hs & Hle & Ht) Hk. destruct k as [|k].
  - cbn [drop take_while]. destruct (Nat.ltb_spec (er_start r) stop) as [H|H].
    + destruct (IH _ 0 Ht) as [E F]; [constructor|]. cbn [Nat.add length take drop] in E, F |- *. split.
      * destruct (decide (m < er_end r)).
        -- rewrite !filter_cons_True by (unfold overlaps; lia). by f_equal.
        -- by rewrite !filter_cons_False by (unfold overlaps; lia).
      * constructor; [lia|done].
    + cbn [length Nat.add take]. split; [|constructor]. symmetry. apply filter_none. intros x [-> |Hx]%elem_of_cons.
      * unfold overlaps. lia.
      * apply (tiles_bounds _ _ _ _ Ht) in Hx. unfold overlaps. lia.
  - cbn [take] in Hk. apply Forall_cons in Hk as [Hr Hk]. destruct (IH _ k Ht Hk) as [E F].
    cbn [drop Nat.add take]. split; [|by constructor].
    destruct (decide (m < er_end r)).
    + rewrite !filter_cons_True by (unfold overlaps; lia). by f_equal.
    + by rewrite !filter_cons_False by (unfold overlaps; lia).
Qed.

Lemma cursor_reads lo hi m t :
  wf lo hi t →
  ∃ k, read_to m k t (cursor m t) ∧ Forall (λ r, er_end r ≤ m) (take k (et_ranges t)).
Proof.
  intros [Ht (id & Hid & Hc) Hn]. unfold read_to, cursor. cbn [ec_message_start ec_next_range_id ec_snapshot].
  assert (∃ k, k ≤ length (et_ranges t) ∧ Forall (λ r, er_end r ≤ m) (take k (et_ranges t)) ∧
    (match List.find (λ r, (m <? er_end r)%nat) (et_ranges t) with Some r => er_id r | None => et_next_range_id t end
     = id + Z.of_nat k)%Z) as (k & Hk & Hf & He).
  { clear -Hc. revert id Hc. induction (et_ranges t) as [|r l IH]; intros id; cbn [counted List.find].
    - intros ->. exists 0. cbn. splits; [done|constructor|lia].
    - intros [Hr Hc]. destruct (Nat.ltb_spec m (er_end r)).
      + exists 0. cbn. splits; [lia|constructor|lia].
      + destruct (IH _ Hc) as (k & Hk & Hf & He). exists (S k). cbn [length take]. splits; [lia|by constructor|lia]. }
  exists k. splits; [done|done|by exists id| |done]. rewrite filter_none; [done|]. intros r Hr.
  apply (proj1 (Forall_forall _ _) Hf) in Hr. lia.
Qed.

(** A cursor at the beginning of a message, while the stream grows behind it and the
    message is read up to increasing offsets. *)
Inductive tracking (m : nat) : nat → EvidenceTracker → EvidenceCursor → nat → Prop :=
| tr_start lo hi t : wf lo hi t → lo ≤ m ≤ hi → tracking m hi t (cursor m t) m
| tr_append hi t c h s : tracking m hi t c h → (et_next_range_id t < u64_max)%Z →
    tracking m (hi + length (sg_bytes s)) (append hi (hi + length (sg_bytes s)) s t) c h
| tr_advance hi t c h stop : tracking m hi t c h → h ≤ stop →
    tracking m hi t (advance_cursor stop t c).2 stop.

Lemma read_advance lo hi m h stop k t c :
  wf lo hi t → m ≤ h ≤ stop → read_to m k t c → Forall (λ r, er_start r < h ∨ er_end r ≤ m) (take k (et_ranges t)) →
  ∃ k', (advance_cursor stop t c).1 = true ∧ read_to m k' t (advance_cursor stop t c).2 ∧
    ec_snapshot (advance_cursor stop t c).2 = observe_all (segments_in m stop (et_ranges t)) ∧
    Forall (λ r, er_start r < stop ∨ er_end r ≤ m) (take k' (et_ranges t)).
Proof.
  intros [Ht _ Hn] Hh Hr Hk. pose proof (advance_reads stop m k t c Hn Hr) as Ha.
  assert (advance_cursor stop t c = (true, advance_ranges stop (drop k (et_ranges t)) c)) as E.
  { destruct Hr as (Hm & Hle & (id & Hid & Hc & He) & _). unfold advance_cursor.
    rewrite Hm, (proj2 (Nat.ltb_ge _ _)) by lia. rewrite He, (counted_partition _ _ _ _ Hc Hle).
    destruct (et_ranges t) as [|front l]; [done|]. destruct Hc as [-> _].
    by rewrite (proj2 (Z.ltb_ge _ _)) by lia. }
  rewrite E. cbn [fst snd]. eexists. splits; [done|exact Ha| |].
  - destruct Ha as (_ & _ & _ & ->). unfold segments_in. f_equal. f_equal.
    eapply read_overlaps; [done|]. eapply Forall_impl; [exact Hk|]. cbn. lia.
  - eapply read_overlaps; [done|]. eapply Forall_impl; [exact Hk|]. cbn. lia.
Qed.

Lemma wf_append lo hi t s :
  wf lo hi t → (et_next_range_id t < u64_max)%Z →
  wf lo (hi + length (sg_bytes s)) (append hi (hi + length (sg_bytes s)) s t).
Proof.
  intros [Ht (id & Hid & Hc) _] Hlt. pose proof (counted_length _ _ _ Hc). unfold append. split; cbn [et_ranges et_next_range_id].
  - eapply tiles_app; [done|]. cbn. splits; [done|lia|done].
  - exists id. split; [done|]. eapply counted_app; [done|]. cbn. unfold saturating_add_u64. lia.
  - unfold saturating_add_u64. lia.
Qed.

Lemma tracking_reads m hi t c h :
  tracking m hi t c h →
  ∃ lo k, wf lo hi t ∧ m ≤ h ∧ read_to m k t c ∧ Forall (λ r, er_start r < h ∨ er_end r ≤ m) (take k (et_ranges t)).
Proof.
  induction 1 as [lo hi t Hw Hm|hi t c h s Htr (lo & k & Hw & Hh & Hr & Hk) Hlt|hi t c h stop Htr (lo & k & Hw & Hh & Hr & Hk) Hs].
  - destruct (cursor_reads lo hi m t Hw) as (k & Hr & Hk). exists lo, k. splits; [done|done|done|].
    eapply Forall_impl; [exact Hk|]. cbn. lia.
  - exists lo, k. splits; [by apply wf_append|done| |].
    + destruct Hr as (Hm & Hle & (id & Hid & Hc & He) & Hsn). unfold read_to, append.
      pose proof (counted_length _ _ _ Hc).
      cbn [et_ranges et_next_range_id]. splits; [done|rewrite length_app; lia| |].
      * exists id. splits; [done| |done]. eapply counted_app; [done|]. cbn. unfold saturating_add_u64. lia.
      * by rewrite take_app_le.
    + destruct Hr as (_ & Hle & _). cbn [append et_ranges]. by rewrite take_app_le.
  - destruct (read_advance lo hi m h stop k t c Hw) as (k' & _ & Hr' & _ & Hk'); [lia|done|done|].
    exists lo, k'. splits; [done|lia|done|done].
Qed.
(** The suffix handed over by [slice_payloads] keeps every byte, in order. *)
Lemma slice_payloads_bytes lo t hi start bytes :
  tiles lo (et_ranges t) hi → lo ≤ start → hi = start + length bytes →
  stream_bytes (slice_payloads start bytes t) = bytes.
Proof.
  unfold slice_payloads, stream_bytes. intros Ht Hlo Hhi.
  assert (∀ l lo, tiles lo l hi →
    mjoin (sg_bytes <$> omap (slice_payload start bytes) l) = drop (lo - start) bytes) as H.
  { clear -Hhi. induction l as [|r l IH]; intros lo; cbn [tiles].
    - intros ->. cbn. by rewrite drop_ge by lia.
    - intros (Hs & Hle & Ht). pose proof (tiles_le _ _ _ Ht) as Hh. specialize (IH _ Ht). cbn [omap list_omap].
      unfold slice_payload at 1. rewrite Hs. rewrite Nat.min_l by lia.
      destruct (Nat.leb_spec (er_end r) (lo `max` start)) as [H|H].
      + rewrite IH. destruct (decide (er_end r ≤ start)).
        * f_equal. lia.
        * f_equal. lia.
      + rewrite fmap_cons, mjoin_cons, IH. cbn [sg_bytes].
        replace (lo `max` start - start) with (lo - start) by lia.
        rewrite <-(take_drop (er_end r - lo `max` start) (drop (lo - start) bytes)) at 2.
        rewrite drop_drop. f_equal. f_equal. lia. }
  rewrite (H _ _ Ht). replace (lo - start) with 0 by lia. by rewrite drop_0.
Qed.

(** C27: A message's evidence is collected incrementally without loss.  However often the
    cursor of a message is advanced while its segments arrive, an advance succeeds and the
    snapshot then is the one of all segments with bytes of the message up to that offset,
    read once and in order. *)
Theorem evidence_incremental m hi t c h stop :
  tracking m hi t c h → h ≤ stop →
  ∃ c', advance_cursor stop t c = (true, c') ∧
    ec_snapshot c' = observe_all (segments_in m stop (et_ranges t)).
Proof.
  intros Htr Hs. destruct (tracking_reads m hi t c h Htr) as (lo & k & Hw & Hh & Hr & Hk).
  destruct (read_advance lo hi m h stop k t c Hw) as (k' & E & _ & Hsn & _); [lia|done|done|].
  destruct (advance_cursor stop t c) as [b c']. cbn in *. subst b. by exists c'.
Qed.

(** ** Examples *)

Definition segment0 (id : Z) (bytes : list byte) : PayloadSegment :=
  mkSegment id 1 100 7 TlsUserSpace Plaintext Inbound "s" id (Z.of_nat (length bytes)) (Z.of_nat (length bytes))
    id 0 (Z.of_nat (length bytes)) (Z.of_nat (length bytes)) OpSuccess TruncComplete NotRequired "ssl" "SSL_read"
    None bytes.
Definition two_ranges : EvidenceTracker :=
  append 3 5 (segment0 2 [Byte.x64; Byte.x65]) (append 0 3 (segment0 1 [Byte.x61; Byte.x62; Byte.x63]) default_).

(** a message from offset 1, read to 3, then grown by a segment, then read to 6. *)
Lemma evidence_incremental_witness :
  let c1 := (advance_cursor 3 two_ranges (cursor 1 two_ranges)).2 in
  let t := append 5 8 (segment0 3 [Byte.x66; Byte.x67; Byte.x68]) two_ranges in
  ∃ c', advance_cursor 6 t c1 = (true, c') ∧
    ec_snapshot c' = observe_all (segments_in 1 6 (et_ranges t)).
Proof.
  apply (evidence_incremental 1 (5 + 3) _ _ 3 6); [|lia].
  apply (tr_append 1 5 two_ranges _ 3 (segment0 3 [Byte.x66; Byte.x67; Byte.x68])); [|done].
  apply (tr_advance 1 5 _ _ 1 3); [|lia]. apply (tr_start 1 0 5); [|lia].
  split; [cbn; lia|exists 0%Z; by vm_compute|cbn; done].
Defined.

(** [evict_before] moves the start of a straddling range without moving the operation
    offset of its segment, so a suffix handed over afterwards claims to begin at the
    operation's beginning: here bytes 2 and 3 of an operation of 3 bytes come out with
    operation offset 0. *)
Example evicted_slice_loses_offset :
  let t := append 0 3 (segment0 1 [Byte.x61; Byte.x62; Byte.x63]) default_ in
  (sg_operation_offset <$> slice_payloads 1 [Byte.x62; Byte.x63] t) = [1]%Z ∧
  (sg_operation_offset <$> slice_payloads 1 [Byte.x62; Byte.x63] (evict_before 1 t)) = [0]%Z ∧
  (Segment.operation_capture_state <$> slice_payloads 1 [Byte.x62; Byte.x63] t) = [Some CapComplete] ∧
  (Segment.operation_capture_state <$> slice_payloads 1 [Byte.x62; Byte.x63] (evict_before 1 t)) = [None].
Proof. by vm_compute. Qed.
End TrackerFacts.
