(* ===== verification/Http2.v ===== *)
(** HTTP/2 frame boundaries and the incremental framer:
    crates/core/semantic_action_runtime/src/llm_pipeline/transport/http2/framing.rs and
    decoder.rs.

    A direction of a connection is a sequence of payload segments; the decoder appends a
    segment and then takes all complete frames out of its buffer.  HPACK and streams are
    handled by its callers. *)
From stdpp Require Import prelude strings gmap pretty.
From Stdlib Require Import ZArith Lia.
From coqutil Require Import Byte Word.LittleEndianList.
From S2P Require Import Prelude Bytes ProcessIdentity Model Payload Evidence Scan.

Open Scope nat_scope.

Definition HTTP2_CONNECTION_PREFACE : list byte :=
  string_bytes "PRI * HTTP/2.0" ++ [Byte.x0d; Byte.x0a; Byte.x0d; Byte.x0a] ++ string_bytes "SM"
    ++ [Byte.x0d; Byte.x0a; Byte.x0d; Byte.x0a].
Definition HTTP2_FLAG_PADDED : Z := 8.
Definition HTTP2_FRAME_HEADER_BYTES : nat := 9.

Record Http2Frame := mkHttp2Frame {
  h2_frame_type : Z;
  h2_flags : Z;
  h2_stream_id : Z;
  h2_payload : list byte;
  h2_encoded_len : nat;
}.
Inductive Http2FrameDecode :=
| NeedMore
| InvalidFrame (encoded_len : nat) (stream_id : Z)
| FrameDecoded (frame : Http2Frame).
Record Http2FrameObservation := mkObservation {
  ho_source : Http1MessageSource;
  ho_observed_at : SystemTime;
  ho_payload_segment_ids : list Z;
  ho_frame_id : string;
  ho_message_id : option string;
  ho_frame_type : Z;
  ho_flags : Z;
  ho_stream_id : Z;
  ho_payload : list byte;
  ho_connection_preface : bool;
}.
Inductive Http2Event :=
| H2FrameEvent (observation : Http2FrameObservation) (evidence : list PayloadSegment)
| H2StreamFailure (stream_id : Z) (observed_at : SystemTime)
| H2ConnectionFailure.
Record Http2Decoder := mkHttp2Decoder {
  hd2_identity_prefix : string;
  hd2_buffer : CursorBuffer;
  hd2_base_offset : nat;
  hd2_evidence : EvidenceTracker;
}.

Module H2.
(** [u8] at a position that is in range. *)
Definition byte_at (bytes : list byte) (i : nat) : Z := byte.unsigned (default zero_byte (bytes !! i)).

Definition stream_id_is_valid (frame_type stream_id : Z) : bool :=
  if bool_decide (frame_type ∈ [0; 1; 2; 3; 5; 9]%Z) then negb (stream_id =? 0)%Z
  else if bool_decide (frame_type ∈ [4; 6; 7]%Z) then (stream_id =? 0)%Z
  else true.
Definition frame_length (bytes : list byte) : Z :=
  Z.lor (Z.lor (Z.shiftl (byte_at bytes 0) 16) (Z.shiftl (byte_at bytes 1) 8)) (byte_at bytes 2).
Definition frame_stream_id (bytes : list byte) : Z :=
  Z.lor (Z.lor (Z.lor (Z.shiftl (Z.land (byte_at bytes 5) 127) 24) (Z.shiftl (byte_at bytes 6) 16))
           (Z.shiftl (byte_at bytes 7) 8)) (byte_at bytes 8).
Definition decode_http2_frame_state (bytes : list byte) : Http2FrameDecode :=
  if length bytes <? HTTP2_FRAME_HEADER_BYTES then NeedMore
  else
    let encoded_len := HTTP2_FRAME_HEADER_BYTES + Z.to_nat (frame_length bytes) in
    if length bytes <? encoded_len then NeedMore
    else
      let frame_type := byte_at bytes 3 in
      let stream_id := frame_stream_id bytes in
      if stream_id_is_valid frame_type stream_id
      then FrameDecoded (mkHttp2Frame frame_type (byte_at bytes 4) stream_id
                           (take (encoded_len - HTTP2_FRAME_HEADER_BYTES) (drop HTTP2_FRAME_HEADER_BYTES bytes))
                           encoded_len)
      else InvalidFrame encoded_len stream_id.

(** [strip_padding] and [data_payload]. *)
Definition strip_padding (flags : Z) (payload : list byte) (prefix_without_padding : nat) : option (list byte) :=
  '(start, stop) ←
    (if (Z.land flags HTTP2_FLAG_PADDED =? 0)%Z then Some (0, length payload)
     else
       first ← head payload;
       let padding := Z.to_nat (byte.unsigned first) in
       if length payload - 1 <? padding then None else Some (1, length payload - padding));
  let start := start + prefix_without_padding in
  if start <=? stop then Some (take (stop - start) (drop start payload)) else None.
Definition data_payload (flags : Z) (payload : list byte) : option (list byte) := strip_padding flags payload 0.

(** * The decoder *)

Definition new (identity_prefix : string) : Http2Decoder :=
  mkHttp2Decoder identity_prefix Buffer.default_ 0 Tracker.default_.
Definition buffered_bytes (d : Http2Decoder) : nat := length (Buffer.bytes (hd2_buffer d)).
Definition evidence_ranges (d : Http2Decoder) : nat := Tracker.len (hd2_evidence d).
Definition append (segment : PayloadSegment) (d : Http2Decoder) : Http2Decoder :=
  let start := hd2_base_offset d + length (Buffer.bytes (hd2_buffer d)) in
  mkHttp2Decoder (hd2_identity_prefix d) (Buffer.extend_from_slice (sg_bytes segment) (hd2_buffer d))
    (hd2_base_offset d) (Tracker.append start (start + length (sg_bytes segment)) segment (hd2_evidence d)).
Definition frame_id (prefix : string) (start : nat) : string := prefix +:+ ":frame:" +:+ pretty start.
Definition observation (start stop : nat) (frame_type flags stream_id : Z) (payload : list byte) (preface : bool)
    (d : Http2Decoder) : option Http2FrameObservation :=
  let evidence := Tracker.for_range start stop (hd2_evidence d) in
  first ← head evidence;
  last ← last evidence;
  Some (mkObservation (source_of first) (sg_observed_at last) (sg_segment_id <$> evidence)
          (frame_id (hd2_identity_prefix d) start) None frame_type flags stream_id payload preface).

(** The loop of [advance]: the events and the final cursor. *)
Fixpoint frame_loop (fuel : nat) (max_frame_bytes : Z) (d : Http2Decoder) (cursor : nat)
    (events : list Http2Event) : option (list Http2Event * nat) :=
  match fuel with
  | O => None
  | S fuel' =>
      let bytes := drop cursor (Buffer.bytes (hd2_buffer d)) in
      if (9 <=? length bytes) && (max_frame_bytes <? frame_length bytes)%Z
      then Some (events ++ [H2ConnectionFailure], length (Buffer.bytes (hd2_buffer d)))
      else
        let start := hd2_base_offset d + cursor in
        match decode_http2_frame_state bytes with
        | NeedMore => Some (events, cursor)
        | InvalidFrame encoded_len stream_id =>
            let failure :=
              match last (Tracker.for_range start (start + encoded_len) (hd2_evidence d)) with
              | Some source => [if (stream_id =? 0)%Z then H2ConnectionFailure
                                else H2StreamFailure stream_id (sg_observed_at source)]
              | None => []
              end in
            frame_loop fuel' max_frame_bytes d (cursor + encoded_len) (events ++ failure)
        | FrameDecoded frame =>
            let stop := start + h2_encoded_len frame in
            let event :=
              match observation start stop (h2_frame_type frame) (h2_flags frame) (h2_stream_id frame)
                      (h2_payload frame) false d with
              | Some o => [H2FrameEvent o (if (h2_frame_type frame =? 0)%Z
                                           then Tracker.for_range start stop (hd2_evidence d) else [])]
              | None => []
              end in
            frame_loop fuel' max_frame_bytes d (cursor + h2_encoded_len frame) (events ++ event)
        end
  end.

(** [advance]; [None] is exhausted fuel. *)
Definition advance (max_frame_bytes : Z) (d : Http2Decoder) : option (list Http2Event * Http2Decoder) :=
  let buffer := Buffer.bytes (hd2_buffer d) in
  if (hd2_base_offset d =? 0) && bytes_start_with buffer HTTP2_CONNECTION_PREFACE
     && (length buffer <? length HTTP2_CONNECTION_PREFACE)
  then Some ([], d)
  else
    let '(cursor, events) :=
      if bytes_start_with HTTP2_CONNECTION_PREFACE buffer then
        let cursor := length HTTP2_CONNECTION_PREFACE in
        (cursor,
         match observation (hd2_base_offset d) (hd2_base_offset d + cursor) 0 0 0 HTTP2_CONNECTION_PREFACE true d with
         | Some o => [H2FrameEvent o []]
         | None => []
         end)
      else (0, []) in
    '(events, cursor) ← frame_loop (S (length buffer)) max_frame_bytes d cursor events;
    let '(_, buffer') := Buffer.release cursor (hd2_buffer d) in
    let base := hd2_base_offset d + cursor in
    let evidence := Tracker.evict_before base (hd2_evidence d) in
    Some (events, mkHttp2Decoder (hd2_identity_prefix d) buffer' base
                    (if bool_decide (Buffer.bytes buffer' = []) then Tracker.reset evidence else evidence)).
End H2.

(** * Frames survive the wire *)

Module H2Facts.
Import H2 TrackerFacts.

(** A frame to send and its nine-byte header. *)
Record WireFrame := mkWireFrame { wf_type : Z; wf_flags : Z; wf_stream_id : Z; wf_payload : list byte }.
Definition encode_frame (f : WireFrame) : list byte :=
  to_be_bytes 3 (Z.of_nat (length (wf_payload f))) ++ to_be_bytes 1 (wf_type f) ++ to_be_bytes 1 (wf_flags f)
    ++ u32_be (wf_stream_id f) ++ wf_payload f.
Record frame_ok (max : Z) (f : WireFrame) : Prop := {
  ok_type : in_u8 (wf_type f);
  ok_flags : in_u8 (wf_flags f);
  ok_stream_id : (0 ≤ wf_stream_id f < 2 ^ 31)%Z;
  ok_length : (Z.of_nat (length (wf_payload f)) ≤ max)%Z;
}.
(** Below it no frame looks like the connection preface, whose first three bytes read as
    this length. *)
Definition preface_length : Z := 5263945.

Lemma combine3 b0 b1 b2 :
  Z.lor (Z.lor (Z.shiftl (byte.unsigned b0) 16) (Z.shiftl (byte.unsigned b1) 8)) (byte.unsigned b2)
  = from_be_bytes [b0; b1; b2].
Proof.
  cbv [from_be_bytes reverse rev_append le_combine].
  rewrite Z.shiftl_0_l, Z.lor_0_r, Z.shiftl_lor, Z.shiftl_shiftl by lia.
  rewrite (Z.lor_comm (byte.unsigned b2)), (Z.lor_comm (Z.shiftl (byte.unsigned b1) 8)). done.
Qed.
Lemma combine4 b0 b1 b2 b3 :
  Z.lor (Z.lor (Z.lor (Z.shiftl (byte.unsigned b0) 24) (Z.shiftl (byte.unsigned b1) 16))
           (Z.shiftl (byte.unsigned b2) 8)) (byte.unsigned b3)
  = from_be_bytes [b0; b1; b2; b3].
Proof.
  cbv [from_be_bytes reverse rev_append le_combine].
  rewrite Z.shiftl_0_l, Z.lor_0_r, !Z.shiftl_lor, !Z.shiftl_shiftl by lia. cbn [Z.add Pos.add].
  apply Z.bits_inj'. intros n Hn. rewrite !Z.lor_spec. change (8 + 8 + 8)%Z with 24%Z. change (8 + 8)%Z with 16%Z.
  destruct (Z.testbit _ n), (Z.testbit _ n), (Z.testbit _ n), (Z.testbit _ n); done.
Qed.

Lemma list_of_length3 {A} (l : list A) : length l = 3 → ∃ a b c, l = [a; b; c].
Proof. destruct l as [|a [|b [|c [|]]]]; try done. eauto. Qed.
Lemma list_of_length4 {A} (l : list A) : length l = 4 → ∃ a b c d, l = [a; b; c; d].
Proof. destruct l as [|a [|b [|c [|d [|]]]]]; try done. eauto. Qed.
Lemma list_of_length1 {A} (l : list A) : length l = 1 → ∃ a, l = [a].
Proof. destruct l as [|a [|]]; try done. eauto. Qed.

Lemma top_byte sid b0 b1 b2 b3 :
  (0 ≤ sid < 2 ^ 31)%Z → u32_be sid = [b0; b1; b2; b3] → Z.land (byte.unsigned b0) 127 = byte.unsigned b0.
Proof.
  intros Hs E. cbv [u32_be to_be_bytes le_split reverse rev_append] in E.
  injection E as <- _ _ _. rewrite byte.unsigned_of_Z. unfold byte.wrap. rewrite !Z.shiftr_div_pow2 by lia.
  change (Z.land _ 127) with (Z.land (sid / 2 ^ 8 / 2 ^ 8 / 2 ^ 8 mod 2 ^ 8) (Z.ones 7)).
  rewrite Z.land_ones by lia. apply Z.mod_small.
  change (2 ^ 8)%Z with 256%Z. change (2 ^ 7)%Z with 128%Z. change (2 ^ 31)%Z with 2147483648%Z in Hs.
  Z.div_mod_to_equations. lia.
Qed.

(** The header of an encoded frame, whatever follows it. *)
Lemma header_of max f rest :
  frame_ok max f → (max < 2 ^ 24)%Z →
  let bytes := encode_frame f ++ rest in
  frame_length bytes = Z.of_nat (length (wf_payload f)) ∧ byte_at bytes 3 = wf_type f ∧
  byte_at bytes 4 = wf_flags f ∧ frame_stream_id bytes = wf_stream_id f ∧
  drop 9 bytes = wf_payload f ++ rest.
Proof.
  intros [Ht Hf Hs Hl] Hm bytes. subst bytes. unfold encode_frame.
  pose proof (from_to_be_bytes 3 (Z.of_nat (length (wf_payload f)))) as E3.
  pose proof (from_to_be_bytes 1 (wf_type f)) as Et. pose proof (from_to_be_bytes 1 (wf_flags f)) as Ef.
  pose proof (from_u32_be (wf_stream_id f)) as Es. unfold in_u8, in_u32, u8_max, u32_max in *.
  destruct (list_of_length3 _ (length_to_be_bytes 3 (Z.of_nat (length (wf_payload f))))) as (b0 & b1 & b2 & L3).
  destruct (list_of_length1 _ (length_to_be_bytes 1 (wf_type f))) as (b3 & Lt).
  destruct (list_of_length1 _ (length_to_be_bytes 1 (wf_flags f))) as (b4 & Lf).
  destruct (list_of_length4 _ (length_u32_be (wf_stream_id f))) as (b5 & b6 & b7 & b8 & Ls).
  pose proof (top_byte _ _ _ _ _ Hs Ls) as Htop.
  rewrite L3, Lt, Lf, Ls in *. unfold frame_length, frame_stream_id, byte_at. cbn [app lookup list_lookup default from_option id drop].
  rewrite Htop, combine3, combine4. splits.
  - apply E3. change (2 ^ (Z.of_nat 3 * 8))%Z with (2 ^ 24)%Z. lia.
  - rewrite <-Et by (change (2 ^ (Z.of_nat 1 * 8))%Z with 256%Z; lia). cbv [from_be_bytes reverse rev_append le_combine].
    by rewrite Z.shiftl_0_l, Z.lor_0_r.
  - rewrite <-Ef by (change (2 ^ (Z.of_nat 1 * 8))%Z with 256%Z; lia). cbv [from_be_bytes reverse rev_append le_combine].
    by rewrite Z.shiftl_0_l, Z.lor_0_r.
  - apply Es. change (2 ^ 31)%Z with 2147483648%Z in Hs. change (2 ^ 32)%Z with 4294967296%Z. lia.
  - done.
Qed.
Lemma length_encode_frame f : length (encode_frame f) = 9 + length (wf_payload f).
Proof. unfold encode_frame. rewrite !length_app, !length_to_be_bytes, length_u32_be. lia. Qed.

Lemma decode_frame max f rest :
  frame_ok max f → (max < 2 ^ 24)%Z →
  decode_http2_frame_state (encode_frame f ++ rest) =
    (if stream_id_is_valid (wf_type f) (wf_stream_id f)
     then FrameDecoded (mkHttp2Frame (wf_type f) (wf_flags f) (wf_stream_id f) (wf_payload f)
                          (length (encode_frame f)))
     else InvalidFrame (length (encode_frame f)) (wf_stream_id f)).
Proof.
  intros Hok Hm. destruct (header_of max f rest Hok Hm) as (El & Et & Ef & Es & Ed).
  unfold decode_http2_frame_state. rewrite El, Et, Ef, Es, Nat2Z.id. unfold HTTP2_FRAME_HEADER_BYTES. rewrite Ed.
  rewrite length_app, length_encode_frame. rewrite !(proj2 (Nat.ltb_ge _ _)) by lia.
  destruct (stream_id_is_valid _ _); [|done]. do 2 f_equal. by rewrite Nat.add_comm, Nat.add_sub, take_app_length.
Qed.

(** What a direction carries: the preface, then frames. *)
Inductive Item := IPreface | IFrame (f : WireFrame).
Definition encode_item (i : Item) : list byte :=
  match i with IPreface => HTTP2_CONNECTION_PREFACE | IFrame f => encode_frame f end.
Definition encode_items (xs : list Item) : list byte := mjoin (encode_item <$> xs).
Definition frame_item (max : Z) (i : Item) : Prop :=
  match i with IPreface => False | IFrame f => frame_ok max f end.
Definition items_ok (max : Z) (xs : list Item) : Prop :=
  match xs with IPreface :: fs => Forall (frame_item max) fs | fs => Forall (frame_item max) fs end.
Fixpoint placed (offset : nat) (xs : list Item) : list (nat * Item) :=
  match xs with [] => [] | i :: xs' => (offset, i) :: placed (offset + length (encode_item i)) xs' end.

(** The event that reports an item at an offset of a stream. *)
Definition reports (ss : list PayloadSegment) (prefix : string) (p : nat * Item) (e : Http2Event) : Prop :=
  let '(start, i) := p in
  let behind := segments_in start (start + length (encode_item i)) (spans 0 0 ss) in
  ∃ first last_, head behind = Some first ∧ last behind = Some last_ ∧
    e = match i with
        | IPreface =>
            H2FrameEvent (mkObservation (source_of first) (sg_observed_at last_) (sg_segment_id <$> behind)
                            (frame_id prefix start) None 0 0 0 HTTP2_CONNECTION_PREFACE true) []
        | IFrame f =>
            if stream_id_is_valid (wf_type f) (wf_stream_id f) then
              H2FrameEvent (mkObservation (source_of first) (sg_observed_at last_) (sg_segment_id <$> behind)
                              (frame_id prefix start) None (wf_type f) (wf_flags f) (wf_stream_id f)
                              (wf_payload f) false)
                (if (wf_type f =? 0)%Z then behind else [])
            else if (wf_stream_id f =? 0)%Z then H2ConnectionFailure
            else H2StreamFailure (wf_stream_id f) (sg_observed_at last_)
        end.

Lemma encode_items_app xs js : encode_items (xs ++ js) = encode_items xs ++ encode_items js.
Proof. unfold encode_items. by rewrite fmap_app, mjoin_app. Qed.
Lemma encode_items_cons i xs : encode_items (i :: xs) = encode_item i ++ encode_items xs.
Proof. done. Qed.
Lemma placed_app offset xs js :
  placed offset (xs ++ js) = placed offset xs ++ placed (offset + length (encode_items xs)) js.
Proof.
  revert offset. induction xs as [|i xs IH]; intros offset; cbn [app placed].
  - unfold encode_items. cbn. by rewrite Nat.add_0_r.
  - rewrite IH, encode_items_cons, length_app, Nat.add_assoc. done.
Qed.
Lemma item_length i : 0 < length (encode_item i).
Proof. destruct i as [|f]; cbn [encode_item]; [vm_compute; lia|]. rewrite length_encode_frame. lia. Qed.

Lemma reports_later ss s prefix p e :
  p.1 + length (encode_item p.2) ≤ length (stream_bytes ss) →
  reports ss prefix p e → reports (ss ++ [s]) prefix p e.
Proof. destruct p as [start i]. cbn. intros H. by rewrite segments_in_later. Qed.

Lemma behind_ends ss start stop :
  start < stop → stop ≤ length (stream_bytes ss) →
  ∃ first last_, head (segments_in start stop (spans 0 0 ss)) = Some first ∧
    last (segments_in start stop (spans 0 0 ss)) = Some last_.
Proof.
  intros H1 H2. pose proof (tiles_overlap _ _ _ start stop (spans_tiles 0 0 ss) (Nat.le_0_l _) H1 H2) as H.
  destruct (segments_in _ _ _) as [|x l]; [done|]. destruct (last (x :: l)) eqn:E; [eauto|]. by apply last_None in E.
Qed.

(** A partial frame is waited for. *)
Lemma begins_prefix max f b :
  begins encode_item (IFrame f) b → frame_ok max f → (max < 2 ^ 24)%Z → 9 ≤ length b →
  frame_length b = Z.of_nat (length (wf_payload f)) ∧ length b < 9 + length (wf_payload f).
Proof.
  intros (rest & E & Hne) Hok Hm Hb. destruct (header_of max f [] Hok Hm) as (El & _).
  cbn [encode_item] in E. rewrite app_nil_r, E in El. split.
  - rewrite <-El. unfold frame_length, byte_at. by rewrite !lookup_app_l by lia.
  - apply (f_equal length) in E. rewrite length_encode_frame, length_app in E.
    destruct rest; [done|]. cbn in E. lia.
Qed.
Lemma begins_waits max f b :
  begins encode_item (IFrame f) b → frame_ok max f → (max < 2 ^ 24)%Z →
  (9 <=? length b) && (max <? frame_length b)%Z = false ∧ decode_http2_frame_state b = NeedMore.
Proof.
  intros Hb Hok Hm. unfold decode_http2_frame_state, HTTP2_FRAME_HEADER_BYTES.
  destruct (Nat.leb_spec 9 (length b)) as [H|H].
  - destruct (begins_prefix max f b Hb Hok Hm H) as [-> Hl]. destruct Hok as [_ _ _ Hp]. cbn [andb]. split.
    + apply Z.ltb_ge. lia.
    + rewrite (proj2 (Nat.ltb_ge _ _)) by lia. by rewrite Nat2Z.id, (proj2 (Nat.ltb_lt _ _)) by lia.
  - split; [done|]. by rewrite (proj2 (Nat.ltb_lt _ _)) by lia.
Qed.

Section loop.
Context (max : Z) (Hmax : (max < 2 ^ 24)%Z) (ss : list PayloadSegment) (d : Http2Decoder).
Context (Hev : follows ss (hd2_base_offset d) (hd2_evidence d)).
Context (Hlen : hd2_base_offset d + length (Buffer.bytes (hd2_buffer d)) = length (stream_bytes ss)).

Lemma observation_reports start stop ty fl sid payload preface :
  hd2_base_offset d ≤ start → start < stop → stop ≤ length (stream_bytes ss) →
  ∃ first last_, let behind := segments_in start stop (spans 0 0 ss) in
    head behind = Some first ∧ last behind = Some last_ ∧
    Tracker.for_range start stop (hd2_evidence d) = behind ∧
    observation start stop ty fl sid payload preface d =
      Some (mkObservation (source_of first) (sg_observed_at last_) (sg_segment_id <$> behind)
              (frame_id (hd2_identity_prefix d) start) None ty fl sid payload preface).
Proof using Hev.
  intros H0 H1 H2. destruct (behind_ends ss start stop H1 H2) as (first & last_ & Hf & Hl).
  exists first, last_. cbv zeta. splits; [done|done|by eapply follows_for_range|].
  unfold observation. rewrite (follows_for_range _ _ _ _ _ Hev) by done. rewrite Hf, Hl. done.
Qed.

Lemma frame_step pre f rest fuel events :
  Buffer.bytes (hd2_buffer d) = pre ++ encode_frame f ++ rest → frame_ok max f →
  ∃ e, reports ss (hd2_identity_prefix d) (hd2_base_offset d + length pre, IFrame f) e ∧
    frame_loop (S fuel) max d (length pre) events =
    frame_loop fuel max d (length (pre ++ encode_frame f)) (events ++ [e]).
Proof using Hmax Hev Hlen.
  intros Eb Hok. set (start := hd2_base_offset d + length pre). set (stop := start + length (encode_frame f)).
  assert (0 < length (encode_frame f)) by (rewrite length_encode_frame; lia).
  destruct (observation_reports start stop (wf_type f) (wf_flags f) (wf_stream_id f) (wf_payload f) false)
    as (first & last_ & Hf & Hl & Hr & Ho); [subst start; lia|subst stop; lia| |].
  { subst start stop. rewrite <-Hlen, Eb, !length_app. lia. }
  cbn [frame_loop]. rewrite Eb, drop_app_length. rewrite (decode_frame max f rest Hok Hmax).
  destruct (header_of max f rest Hok Hmax) as (El & _). rewrite El.
  rewrite (proj2 (Z.ltb_ge _ _)) by (apply Hok). rewrite andb_false_r.
  fold start. cbn [reports]. cbn [encode_item]. fold stop. rewrite length_app.
  destruct (stream_id_is_valid _ _) eqn:Ev; cbn [h2_encoded_len h2_frame_type h2_flags h2_stream_id h2_payload].
  - fold stop. rewrite Ho, Hr. eexists. split; [|done]. by exists first, last_.
  - fold stop. rewrite Hr, Hl. eexists. split; [|done]. by exists first, last_.
Qed.

Lemma loop_reports fs pre b f0 fuel events :
  Buffer.bytes (hd2_buffer d) = pre ++ encode_items (IFrame <$> fs) ++ b → Forall (frame_ok max) fs →
  begins encode_item (IFrame f0) b → frame_ok max f0 → length fs < fuel →
  ∃ es, frame_loop fuel max d (length pre) events =
      Some (events ++ es, length (pre ++ encode_items (IFrame <$> fs))) ∧
    Forall2 (reports ss (hd2_identity_prefix d)) (placed (hd2_base_offset d + length pre) (IFrame <$> fs)) es.
Proof using Hmax Hev Hlen.
  intros Eb Hfs Hb H0. revert pre fuel events Eb. induction Hfs as [|f fs Hf _ IH]; intros pre fuel events Eb Hfuel.
  - destruct fuel as [|fuel]; [lia|]. exists []. split; [|constructor]. rewrite app_nil_r. cbn [frame_loop].
    change (encode_items (IFrame <$> [])) with (@nil byte) in *. rewrite app_nil_r. rewrite Eb. cbn [app].
    rewrite drop_app_length. destruct (begins_waits max f0 b Hb H0 Hmax) as [-> ->]. done.
  - destruct fuel as [|fuel]; [cbn in Hfuel; lia|]. rewrite fmap_cons, encode_items_cons in *. cbn [encode_item] in *.
    rewrite <-app_assoc in Eb. destruct (frame_step pre f _ fuel events Eb Hf) as (e & He & El).
    rewrite app_assoc in Eb. destruct (IH _ fuel (events ++ [e]) Eb) as (es & Es & Hes); [cbn in Hfuel; lia|].
    exists (e :: es). rewrite El, Es. rewrite <-!app_assoc. split; [done|]. cbn [placed encode_item].
    constructor; [done|]. by rewrite length_app, Nat.add_assoc in Hes.
Qed.
End loop.

(** Segments one after the other: append, then take out what is complete. *)
Fixpoint feed (max : Z) (ss : list PayloadSegment) (d : Http2Decoder) : option (list Http2Event * Http2Decoder) :=
  match ss with
  | [] => Some ([], d)
  | s :: ss' =>
      '(es, d1) ← advance max (append s d);
      '(es', d2) ← feed max ss' d1;
      Some (es ++ es', d2)
  end.

(** A decoder that has taken [base] bytes out of a stream and holds the rest. *)
Record holds (prefix : string) (ss : list PayloadSegment) (base : nat) (b : list byte) (d : Http2Decoder) : Prop := {
  ho_prefix : hd2_identity_prefix d = prefix;
  ho_wf : Buffer.wf (hd2_buffer d);
  ho_bytes : Buffer.bytes (hd2_buffer d) = b;
  ho_base : hd2_base_offset d = base;
  ho_follows : follows ss base (hd2_evidence d);
  ho_length : base + length b = length (stream_bytes ss);
}.

Lemma holds_append prefix ss base b d s :
  holds prefix ss base b d → holds prefix (ss ++ [s]) base (b ++ sg_bytes s) (append s d).
Proof.
  intros [Hp Hw Hb Ho Hf Hl]. unfold append. split; cbn [hd2_identity_prefix hd2_buffer hd2_base_offset hd2_evidence].
  - done.
  - by apply Buffer.extend_wf.
  - rewrite Buffer.extend_bytes by done. by rewrite Hb.
  - done.
  - rewrite Ho, Hb, Hl. by apply follows_append.
  - rewrite stream_bytes_snoc, !length_app. lia.
Qed.

(** The end of [advance]. *)
Definition released (cursor : nat) (d : Http2Decoder) : Http2Decoder :=
  let buffer := (Buffer.release cursor (hd2_buffer d)).2 in
  let base := hd2_base_offset d + cursor in
  let evidence := Tracker.evict_before base (hd2_evidence d) in
  mkHttp2Decoder (hd2_identity_prefix d) buffer base
    (if bool_decide (Buffer.bytes buffer = []) then Tracker.reset evidence else evidence).

Lemma holds_released prefix ss base taken b d :
  holds prefix ss base (taken ++ b) d → holds prefix ss (base + length taken) b (released (length taken) d).
Proof.
  intros [Hp Hw Hb Ho Hf Hl]. rewrite length_app in Hl.
  destruct (Buffer.release_spec (length taken) (hd2_buffer d) Hw) as (buf & E & Hw' & Hb').
  { rewrite Hb, length_app. lia. }
  rewrite Hb, drop_app_length in Hb'. unfold released. rewrite E, Ho. cbn [snd].
  pose proof (follows_evict _ _ _ (base + length taken) Hf ltac:(lia)) as Hf'.
  split; cbn [hd2_identity_prefix hd2_buffer hd2_base_offset hd2_evidence]; try done; [|lia].
  rewrite Hb'. case_bool_decide as Hnil; [|done]. apply follows_reset; [done|]. rewrite Hnil in Hl. cbn in Hl. lia.
Qed.

Lemma items_length xs : length xs ≤ length (encode_items xs).
Proof.
  induction xs as [|i xs IH]; [cbn; lia|]. rewrite encode_items_cons, length_app. pose proof (item_length i). cbn. lia.
Qed.

Lemma starts_with_iff needle l : bytes_start_with needle l = true ↔ ∃ r, l = needle ++ r.
Proof.
  split; [apply starts_with_app|]. intros [r ->]. induction needle as [|x n IH]; [done|]. cbn.
  by rewrite bool_decide_true.
Qed.

(** What begins with encoded frames does not look like the preface. *)
Lemma first_length max fs f0 b rest :
  Forall (frame_ok max) fs → frame_ok max f0 → begins encode_item (IFrame f0) b → (max < 2 ^ 24)%Z →
  9 ≤ length (encode_items (IFrame <$> fs) ++ b) →
  (frame_length ((encode_items (IFrame <$> fs) ++ b) ++ rest) ≤ max)%Z.
Proof.
  intros Hfs H0 Hb Hm Hl. assert (∀ l, 9 ≤ length l → frame_length (l ++ rest) = frame_length l) as Happ.
  { intros l H. unfold frame_length, byte_at. by rewrite !lookup_app_l by lia. }
  rewrite Happ by done. destruct Hfs as [|f fs Hf _].
  - change (encode_items (IFrame <$> [])) with (@nil byte) in *. cbn [app] in *.
    destruct (begins_prefix max f0 b Hb H0 Hm Hl) as [-> _]. apply H0.
  - rewrite fmap_cons, encode_items_cons, <-app_assoc. cbn [encode_item].
    destruct (header_of max f (encode_items (IFrame <$> fs) ++ b) Hf Hm) as (-> & _). apply Hf.
Qed.
Lemma preface_first l : frame_length (HTTP2_CONNECTION_PREFACE ++ l) = preface_length.
Proof. reflexivity. Qed.
Lemma not_preface max fs f0 b :
  Forall (frame_ok max) fs → frame_ok max f0 → begins encode_item (IFrame f0) b → (max < preface_length)%Z →
  bytes_start_with HTTP2_CONNECTION_PREFACE (encode_items (IFrame <$> fs) ++ b) = false ∧
  (bytes_start_with (encode_items (IFrame <$> fs) ++ b) HTTP2_CONNECTION_PREFACE = true → fs = []).
Proof.
  intros Hfs H0 Hb Hm. assert (max < 2 ^ 24)%Z by (unfold preface_length in Hm; lia). split.
  - destruct (bytes_start_with _ _) eqn:E; [|done]. apply starts_with_iff in E as [r E].
    pose proof (first_length max fs f0 b [] Hfs H0 Hb) as Hl. rewrite app_nil_r, E, preface_first in Hl.
    rewrite length_app in Hl. change (length HTTP2_CONNECTION_PREFACE) with 24 in Hl. lia.
  - intros [r E]%starts_with_iff. destruct Hfs as [|f fs Hf Hfs]; [done|].
    pose proof (first_length max (f :: fs) f0 b r ltac:(by constructor) H0 Hb) as Hl.
    rewrite <-E in Hl. replace (frame_length HTTP2_CONNECTION_PREFACE) with preface_length in Hl by reflexivity.
    rewrite fmap_cons, encode_items_cons, !length_app in Hl. cbn [encode_item] in Hl. rewrite length_encode_frame in Hl.
    lia.
Qed.

Section steps.
Context (max : Z) (Hmax : (max < preface_length)%Z) (prefix : string) (ss : list PayloadSegment).
Let Hmax24 : (max < 2 ^ 24)%Z.
Proof. unfold preface_length in Hmax. lia. Qed.

(** Frames only. *)
Lemma advance_frames base fs f0 b d :
  holds prefix ss base (encode_items (IFrame <$> fs) ++ b) d → Forall (frame_ok max) fs →
  frame_ok max f0 → begins encode_item (IFrame f0) b →
  ∃ es d', advance max d = Some (es, d') ∧ holds prefix ss (base + length (encode_items (IFrame <$> fs))) b d' ∧
    Forall2 (reports ss prefix) (placed base (IFrame <$> fs)) es.
Proof using Hmax Hmax24.
  intros Hd Hfs H0 Hb. destruct (not_preface max fs f0 b Hfs H0 Hb Hmax) as [E1 E2].
  unfold advance. rewrite (ho_bytes _ _ _ _ _ Hd). destruct (_ && _ && _) eqn:Ec.
  - rewrite !andb_true_iff in Ec. destruct Ec as [[_ Ec] _]. rewrite (E2 Ec) in *.
    change (encode_items (IFrame <$> [])) with (@nil byte) in *. exists [], d. rewrite Nat.add_0_r. splits; [done|done|].
    constructor.
  - rewrite E1. pose proof Hd as [Hp Hw Hbt Ho Hf Hl].
    destruct (loop_reports max Hmax24 ss d ltac:(by rewrite Ho) ltac:(by rewrite Ho, Hbt) fs [] b f0
      (S (length (encode_items (IFrame <$> fs) ++ b))) []) as (es & El & Hes); [done|done|done|done| |].
    { rewrite length_app. pose proof (items_length (IFrame <$> fs)) as Hi. rewrite length_fmap in Hi. lia. }
    cbn [length] in El. rewrite El. cbn [mbind option_bind app].
    rewrite (surjective_pairing (Buffer.release _ (hd2_buffer d))).
    eexists es, _. split; [done|]. split; [exact (holds_released _ _ _ _ _ _ Hd)|].
    by rewrite Nat.add_0_r, Ho, Hp in Hes.
Qed.

(** The preface arrives. *)
Lemma advance_preface fs f0 b d :
  holds prefix ss 0 (encode_items (IPreface :: (IFrame <$> fs)) ++ b) d → Forall (frame_ok max) fs →
  frame_ok max f0 → begins encode_item (IFrame f0) b →
  let xs := IPreface :: (IFrame <$> fs) in
  ∃ es d', advance max d = Some (es, d') ∧ holds prefix ss (length (encode_items xs)) b d' ∧
    Forall2 (reports ss prefix) (placed 0 xs) es.
Proof using Hmax24.
  intros Hd Hfs H0 Hb xs. pose proof Hd as [Hp Hw Hbt Ho Hf Hl].
  unfold advance. rewrite Hbt. fold xs. fold xs in Hbt, Hl, Hd.
  assert (encode_items xs ++ b = HTTP2_CONNECTION_PREFACE ++ encode_items (IFrame <$> fs) ++ b) as E
    by (unfold xs; by rewrite encode_items_cons, <-app_assoc).
  assert (24 ≤ length (encode_items xs ++ b)) as H24.
  { rewrite E, length_app. change (length HTTP2_CONNECTION_PREFACE) with 24. lia. }
  rewrite (proj2 (Nat.ltb_ge _ _)) by (exact H24). rewrite andb_false_r.
  rewrite (proj2 (starts_with_iff HTTP2_CONNECTION_PREFACE _)) by (by eexists).
  destruct (observation_reports ss d ltac:(by rewrite Ho) 0 24 0 0 0 HTTP2_CONNECTION_PREFACE true)
    as (first & last_ & Hf' & Hl' & _ & Eo); [lia|lia|lia|].
  rewrite Ho. change (0 + length HTTP2_CONNECTION_PREFACE) with 24. rewrite Eo.
  destruct (loop_reports max Hmax24 ss d ltac:(by rewrite Ho) ltac:(by rewrite Ho, Hbt) fs HTTP2_CONNECTION_PREFACE b f0
    (S (length (encode_items xs ++ b)))
    [H2FrameEvent (mkObservation (source_of first) (sg_observed_at last_)
       (sg_segment_id <$> segments_in 0 24 (spans 0 0 ss)) (frame_id (hd2_identity_prefix d) 0) None 0 0 0
       HTTP2_CONNECTION_PREFACE true) []]) as (es & El & Hes); [by rewrite Hbt, E|done|done|done| |].
  { rewrite E, !length_app. pose proof (items_length (IFrame <$> fs)) as Hi. rewrite length_fmap in Hi. lia. }
  rewrite El. cbn [mbind option_bind].
  rewrite (surjective_pairing (Buffer.release _ (hd2_buffer d))).
  eexists _, _. split; [done|]. rewrite <-Ho. split; [exact (holds_released _ _ _ _ _ _ Hd)|].
  unfold xs. cbn [placed app]. constructor.
  - exists first, last_. by rewrite Ho, Hp in *.
  - rewrite Ho, Hp in *. exact Hes.
Qed.

(** The preface has not arrived in full. *)
Lemma advance_waits b d :
  holds prefix ss 0 b d → begins encode_item IPreface b → advance max d = Some ([], d).
Proof.
  intros Hd (r & E & Hr). unfold advance. rewrite (ho_base _ _ _ _ _ Hd), (ho_bytes _ _ _ _ _ Hd).
  cbn [encode_item] in E. rewrite (proj2 (starts_with_iff b _)) by (by eexists).
  rewrite (proj2 (Nat.ltb_lt _ _)); [done|]. rewrite E, length_app. destruct r; [done|]. cbn. lia.
Qed.
End steps.

Lemma reports_more ss ss' prefix p e :
  p.1 + length (encode_item p.2) ≤ length (stream_bytes ss) →
  reports ss prefix p e → reports (ss ++ ss') prefix p e.
Proof.
  intros H Hr. induction ss' as [|s ss' IH] using rev_ind; [by rewrite app_nil_r|].
  rewrite app_assoc. apply reports_later; [|done]. rewrite stream_bytes_app, length_app. lia.
Qed.
Lemma placed_bounds offset xs p :
  p ∈ placed offset xs → p.1 + length (encode_item p.2) ≤ offset + length (encode_items xs).
Proof.
  revert offset. induction xs as [|i xs IH]; intros offset; cbn [placed].
  { intros H. by apply not_elem_of_nil in H. }
  rewrite encode_items_cons, length_app. intros [-> |H%IH]%elem_of_cons; cbn [fst snd]; lia.
Qed.
Lemma all_reports_more ss ss' prefix offset xs es :
  offset + length (encode_items xs) ≤ length (stream_bytes ss) →
  Forall2 (reports ss prefix) (placed offset xs) es → Forall2 (reports (ss ++ ss') prefix) (placed offset xs) es.
Proof.
  intros Hl H. pose proof (placed_bounds offset xs) as Hb. revert Hb. induction H as [|p e ps es Hp _ IH]; intros Hb.
  - constructor.
  - constructor.
    + apply reports_more; [|done]. specialize (Hb p ltac:(by left)). lia.
    + apply IH. intros q Hq. apply Hb. by right.
Qed.

Lemma frame_items max l : Forall (frame_item max) l → ∃ fs, l = IFrame <$> fs ∧ Forall (frame_ok max) fs.
Proof.
  induction 1 as [|[|f] l Hf _ (fs & -> & Hfs)]; [by exists []|done|]. exists (f :: fs). split; [done|]. by constructor.
Qed.
Lemma items_rest max i its xs : items_ok max ((i :: its) ++ xs) → Forall (frame_item max) xs.
Proof.
  unfold items_ok. cbn [app]. destruct i; [intros H|intros [_ H]%Forall_cons]; by apply Forall_app in H as [_ H].
Qed.

(** One segment, whatever the stream is at. *)
Lemma advance_reports max prefix ss its js ks f0 b d :
  (max < preface_length)%Z → frame_ok max f0 → items_ok max (its ++ js ++ ks) →
  begins encode_item (default (IFrame f0) (head ks)) b →
  holds prefix ss (length (encode_items its)) (encode_items js ++ b) d →
  ∃ es d', advance max d = Some (es, d') ∧ holds prefix ss (length (encode_items (its ++ js))) b d' ∧
    Forall2 (reports ss prefix) (placed (length (encode_items its)) js) es.
Proof.
  intros Hm H0 Hok Hb Hd.
  assert (Forall (frame_item max) js → Forall (frame_item max) ks →
    ∃ es d', advance max d = Some (es, d') ∧ holds prefix ss (length (encode_items (its ++ js))) b d' ∧
      Forall2 (reports ss prefix) (placed (length (encode_items its)) js) es) as Hframes.
  { intros (fs & -> & Hfs)%frame_items (gs & -> & Hgs)%frame_items. rewrite encode_items_app, length_app.
    destruct gs as [|g gs]; cbn [fmap list_fmap head default from_option id] in Hb.
    - by eapply advance_frames.
    - apply Forall_cons in Hgs as [Hg _]. by eapply (advance_frames max Hm prefix ss _ fs g). }
  destruct its as [|i its].
  - cbn [app] in *. change (length (encode_items [])) with 0 in *. destruct js as [|[|f] js].
    + change (encode_items []) with (@nil byte) in *. cbn [app] in *. destruct ks as [|[|g] ks]; [by apply Hframes; constructor| |].
      * exists [], d. split; [by eapply advance_waits|]. split; [done|]. constructor.
      * by apply Hframes; [constructor|].
    + cbn in Hok. apply Forall_app in Hok as [(fs & -> & Hfs)%frame_items (gs & -> & Hgs)%frame_items].
      destruct gs as [|g gs]; cbn [fmap list_fmap head default from_option id] in Hb.
      * by eapply (advance_preface max Hm prefix ss fs f0).
      * apply Forall_cons in Hgs as [Hg _]. by eapply (advance_preface max Hm prefix ss fs g).
    + cbn [app items_ok] in Hok. change (IFrame f :: js ++ ks) with ((IFrame f :: js) ++ ks) in Hok.
      apply Forall_app in Hok as [H1 H2]. by apply Hframes.
  - apply items_rest in Hok. apply Forall_app in Hok as [H1 H2]. by apply Hframes.
Qed.

Lemma feed_reports max prefix ss2 ss1 its todo f0 tail b d :
  (max < preface_length)%Z → frame_ok max f0 → begins encode_item (IFrame f0) tail →
  items_ok max (its ++ todo) → begins encode_item (default (IFrame f0) (head todo)) b →
  holds prefix ss1 (length (encode_items its)) b d →
  b ++ stream_bytes ss2 = encode_items todo ++ tail →
  ∃ es d', feed max ss2 d = Some (es, d') ∧
    holds prefix (ss1 ++ ss2) (length (encode_items (its ++ todo))) tail d' ∧
    Forall2 (reports (ss1 ++ ss2) prefix) (placed (length (encode_items its)) todo) es.
Proof.
  intros Hm H0 Ht. revert ss1 its todo b d. induction ss2 as [|s ss2 IH]; intros ss1 its todo b d Hok Hb Hd E.
  - change (stream_bytes []) with (@nil byte) in E. rewrite app_nil_r in E. exists [], d. rewrite app_nil_r.
    destruct todo as [|i todo].
    + rewrite app_nil_r. change (encode_items []) with (@nil byte) in E. cbn [app] in E. subst b.
      splits; [done|done|constructor].
    + exfalso. destruct Hb as (r & Er & Hr). cbn [head default from_option id] in Er. subst b.
      rewrite encode_items_cons in Er. apply (f_equal length) in Er. rewrite !length_app in Er.
      destruct r; [done|]. cbn in Er. lia.
  - change (stream_bytes (s :: ss2)) with (sg_bytes s ++ stream_bytes ss2) in E. rewrite app_assoc in E.
    destruct (prefix_splits encode_item todo (IFrame f0) tail _ _ Ht E) as (js & ks & b' & -> & Eb & Hb' & E').
    apply holds_append with (s := s) in Hd. rewrite Eb in Hd.
    destruct (advance_reports max prefix _ its js ks f0 b' _ Hm H0 Hok Hb' Hd) as (es & d1 & Ea & Hd1 & Hes).
    rewrite app_assoc in Hok. destruct (IH _ _ _ _ _ Hok Hb' Hd1 E') as (es' & d2 & Ef & Hd2 & Hes').
    exists (es ++ es'), d2. cbn [feed]. rewrite Ea. cbn [mbind option_bind]. rewrite Ef. cbn [mbind option_bind].
    rewrite <-!app_assoc in Hd2. rewrite <-app_assoc in Hes'. splits; [done|done|].
    rewrite placed_app. apply Forall2_app.
    + replace (ss1 ++ s :: ss2) with ((ss1 ++ [s]) ++ ss2) by (by rewrite <-app_assoc).
      apply all_reports_more; [|done]. pose proof (ho_length _ _ _ _ _ Hd1) as Hl.
      rewrite encode_items_app, length_app in Hl. lia.
    + by rewrite encode_items_app, length_app in Hes'.
Qed.


(** ** Padding *)

(** The payload of a padded DATA frame. *)
Definition pad_data (data padding : list byte) : list byte :=
  to_be_bytes 1 (Z.of_nat (length padding)) ++ data ++ padding.
Lemma data_payload_padded flags data padding :
  Z.testbit flags 3 = true → length padding ≤ 255 →
  data_payload flags (pad_data data padding) = Some data.
Proof.
  intros Hf Hp. unfold data_payload, strip_padding, pad_data, HTTP2_FLAG_PADDED.
  pose proof (land_bit flags 3 ltac:(lia)) as Eb. change (Z.shiftl 1 3) with 8%Z in Eb. rewrite Eb, Hf. cbn [negb].
  destruct (list_of_length1 _ (length_to_be_bytes 1 (Z.of_nat (length padding)))) as [b L].
  pose proof (from_to_be_bytes 1 (Z.of_nat (length padding))) as E. rewrite L in E |- *.
  assert (byte.unsigned b = Z.of_nat (length padding)) as Ebyte.
  { rewrite <-E by (change (2 ^ (Z.of_nat 1 * 8))%Z with 256%Z; lia). cbv [from_be_bytes reverse rev_append le_combine].
    by rewrite Z.shiftl_0_l, Z.lor_0_r. }
  cbn [app head mbind option_bind]. rewrite Ebyte, Nat2Z.id. cbn [length]. rewrite length_app.
  rewrite (proj2 (Nat.ltb_ge _ _)) by lia. cbn [mbind option_bind]. rewrite (proj2 (Nat.leb_le _ _)) by lia.
  replace (S (length data + length padding) - length padding - (1 + 0)) with (length data) by lia.
  change (drop (1 + 0) (b :: data ++ padding)) with (data ++ padding). by rewrite take_app_length.
Qed.
Lemma data_payload_plain flags data : Z.testbit flags 3 = false → data_payload flags data = Some data.
Proof.
  intros Hf. unfold data_payload, strip_padding, HTTP2_FLAG_PADDED.
  pose proof (land_bit flags 3 ltac:(lia)) as Eb. change (Z.shiftl 1 3) with 8%Z in Eb. rewrite Eb, Hf.
  cbn [negb mbind option_bind Nat.add]. rewrite (proj2 (Nat.leb_le _ _)) by lia.
  by rewrite drop_0, Nat.sub_0_r, take_ge by lia.
Qed.

(** ** Example *)

Definition items0 : list Item :=
  [IPreface; IFrame (mkWireFrame 4 0 0 []); IFrame (mkWireFrame 0 1 3 (string_bytes "hi")); IFrame (mkWireFrame 0 0 0 [])].
Definition tail0 : list byte := [Byte.x00; Byte.x00].
Definition segments0 : list PayloadSegment :=
  let bytes := encode_items items0 ++ tail0 in
  [segment0 1 (take 10 bytes); segment0 2 []; segment0 3 (take 36 (drop 10 bytes)); segment0 4 (drop 46 bytes)].

End H2Facts.
