(* ===== verification/WebSocket.v ===== *)
(** One direction of a WebSocket connection: frames assembled into messages.
    crates/core/semantic_action_runtime/src/llm_pipeline/transport/websocket/framing.rs,
    deflate.rs and model.rs; evidence kinds from crates/contracts/semantic_action.

    Buffer positions are naturals; lengths read from the wire and configured limits are
    [usize] values in [Z].  The inflate engine (flate2) is a type class. *)
From stdpp Require Import prelude strings gmap pretty.
From Stdlib Require Import ZArith Lia.
From coqutil Require Import Byte.
From S2P Require Import Prelude Bytes ProcessIdentity Model Utf8 Payload Evidence.

Open Scope nat_scope.

Inductive SemanticEvidenceKind := EvidenceEvent | EvidencePayloadAggregate | EvidencePayloadSegment.
Record SemanticEvidence := mkSemanticEvidence { se_kind : SemanticEvidenceKind; se_id : Z; se_role : string }.

Record WebSocketMessageHead := mkWsHead {
  wh_message_id : string;
  wh_connection_id : string;
  wh_path : string;
  wh_identity : PayloadStreamIdentity;
  wh_direction : PayloadDirection;
  wh_opcode : Z;
  wh_start_at : SystemTime;
  wh_evidence : list SemanticEvidence;
}.
Inductive WebSocketAbortReason :=
| WsCaptureGap | WsCaptureIncomplete | WsCapturePolicyLimited | WsDecodeFailure | WsCapacityExceeded
| WsPeerClosed | WsTraceClosed.
Inductive WebSocketMessageEvent :=
| WsStart (head : WebSocketMessageHead)
| WsComplete (head : WebSocketMessageHead) (bytes : list byte) (evidence : list SemanticEvidence)
    (observed_at : SystemTime)
| WsAbort (head : WebSocketMessageHead) (evidence : list SemanticEvidence) (observed_at : SystemTime)
    (reason : WebSocketAbortReason).

(** * Per-message deflate *)

Inductive InflateStatus := InflateOk | InflateBufError | InflateStreamEnd.
(** [Decompress]: a call reads a part of the input and fills a part of a chunk. *)
Class Inflate : Type := {
  Inflater : Type;
  inflater_new : Inflater;
  inflater_reset : Inflater → Inflater;
  decompress : Inflater → list byte → nat → result () (InflateStatus * nat * list byte) * Inflater;
}.
(** What its documentation promises of the counters. *)
Class InflateBounds (I : Inflate) : Prop := {
  decompress_bounds i input size status consumed produced i' :
    decompress i input size = (Ok (status, consumed, produced), i') →
    consumed ≤ length input ∧ length produced ≤ size;
}.

Record DeflateDecoder `{I : Inflate} := mkDeflate {
  dd_enabled : bool;
  dd_no_context_takeover : bool;
  dd_decoder : Inflater;
  dd_max_bytes : Z;
}.

Module Deflate.
Section deflate.
Context {I : Inflate}.

Definition new (enabled no_context_takeover : bool) (max_bytes : Z) : DeflateDecoder :=
  mkDeflate I enabled no_context_takeover inflater_new max_bytes.
Definition chunk_size : nat := 4096.
(** The loop of [decode]; the outer [None] is exhausted fuel. *)
Fixpoint decode_loop (fuel : nat) (max_bytes : Z) (input : list byte) (cursor : nat) (output : list byte)
    (i : Inflater) : option (result () (list byte) * Inflater) :=
  match fuel with
  | O => None
  | S fuel' =>
      match decompress i (drop cursor input) chunk_size with
      | (Err _, i') => Some (Err (), i')
      | (Ok (status, consumed, produced), i') =>
          let cursor := cursor + consumed in
          if (max_bytes <? Z.of_nat (length output + length produced))%Z then Some (Err (), i')
          else
            let output := output ++ produced in
            if (cursor =? length input) && (length produced <? chunk_size) then Some (Ok output, i')
            else if (consumed =? 0) && (length produced =? 0) then
              if (cursor =? length input) && match status with InflateBufError => true | _ => false end
              then Some (Ok output, i') else Some (Err (), i')
            else decode_loop fuel' max_bytes input cursor output i'
      end
  end.
Definition decode (input : list byte) (d : DeflateDecoder) : option (result () (list byte) * DeflateDecoder) :=
  if dd_enabled d then
    let input := input ++ [Byte.x00; Byte.x00; Byte.xff; Byte.xff] in
    match decode_loop (S (length input + Z.to_nat (dd_max_bytes d))) (dd_max_bytes d) input 0 [] (dd_decoder d) with
    | None => None
    | Some (r, i) =>
        let i' := if match r with Ok _ => dd_no_context_takeover d | Err _ => false end
                  then inflater_reset i else i in
        Some (r, mkDeflate I (dd_enabled d) (dd_no_context_takeover d) i' (dd_max_bytes d))
    end
  else Some (Err (), d).

(** The loop ends, whatever the engine answers within its bounds. *)
Lemma decode_loop_total `{!InflateBounds I} fuel max input cursor output i :
  cursor ≤ length input → (0 ≤ max)%Z → (Z.of_nat (length output) ≤ max)%Z →
  (length input - cursor) + (Z.to_nat max - length output) < fuel →
  is_Some (decode_loop fuel max input cursor output i).
Proof.
  revert cursor output i. induction fuel as [|fuel IH]; intros cursor output i Hc Hm Ho Hf; [lia|]. cbn [decode_loop].
  destruct (decompress _ _ _) as [[[[status consumed] produced]|] i'] eqn:E; [|by eexists].
  destruct (decompress_bounds _ _ _ _ _ _ _ E) as [Hcon Hpro]. rewrite length_drop in Hcon.
  destruct (Z.ltb_spec max (Z.of_nat (length output + length produced))); [by eexists|].
  destruct ((cursor + consumed =? length input) && (length produced <? chunk_size)); [by eexists|].
  destruct ((consumed =? 0) && (length produced =? 0)) eqn:E0.
  { repeat case_match; by eexists. }
  apply IH; rewrite ?length_app; [lia|lia|lia|]. rewrite andb_false_iff, !Nat.eqb_neq in E0. lia.
Qed.
Lemma decode_total `{!InflateBounds I} input d : (0 ≤ dd_max_bytes d)%Z → is_Some (decode input d).
Proof.
  intros H. unfold decode. destruct (dd_enabled d); [|by eexists].
  destruct (decode_loop_total (S (length (input ++ [Byte.x00; Byte.x00; Byte.xff; Byte.xff]) + Z.to_nat (dd_max_bytes d)))
    (dd_max_bytes d) (input ++ [Byte.x00; Byte.x00; Byte.xff; Byte.xff]) 0 [] (dd_decoder d)) as [[r i] ->];
    [lia|lia|cbn; lia|cbn [length]; lia|]. by eexists.
Qed.
(** A decoded message is within the limit. *)
Lemma decode_loop_bound fuel max input cursor output i bytes i' :
  (Z.of_nat (length output) ≤ max)%Z →
  decode_loop fuel max input cursor output i = Some (Ok bytes, i') → (Z.of_nat (length bytes) ≤ max)%Z.
Proof.
  revert cursor output i. induction fuel as [|fuel IH]; intros cursor output i Ho; cbn [decode_loop]; [done|].
  destruct (decompress _ _ _) as [[[[status consumed] produced]|] i1]; [|done].
  destruct (Z.ltb_spec max (Z.of_nat (length output + length produced))); [done|].
  destruct ((cursor + consumed =? length input) && (length produced <? chunk_size)).
  { intros [= <- _]. rewrite length_app. lia. }
  destruct ((consumed =? 0) && (length produced =? 0)).
  { destruct (_ && _); [|done]. intros [= <- _]. rewrite length_app. lia. }
  apply IH. rewrite length_app. lia.
Qed.
End deflate.
End Deflate.

(** * Frames *)

Record FrameHead := mkFrameHead {
  fh_fin : bool;
  fh_compressed : bool;
  fh_opcode : Z;
  fh_header_len : nat;
  fh_payload_len : Z;
  fh_mask : option (list byte);
}.

Module WsFrame.
Definition byte_at (bytes : list byte) (i : nat) : Z := byte.unsigned (default zero_byte (bytes !! i)).
Definition bit (z mask : Z) : bool := negb (Z.land z mask =? 0)%Z.
(** The extended payload length: header length and payload length. *)
Definition payload_length (bytes : list byte) : result () (option (nat * Z)) :=
  let short := Z.land (byte_at bytes 1) 127 in
  if (short =? 126)%Z then
    if length bytes <? 4 then Ok None
    else
      let payload_len := from_be_bytes (take 2 (drop 2 bytes)) in
      if (payload_len <? 126)%Z then Err () else Ok (Some (4, payload_len))
  else if (short =? 127)%Z then
    if length bytes <? 10 then Ok None
    else
      let encoded := from_be_bytes (take 8 (drop 2 bytes)) in
      if bit encoded (Z.shiftl 1 63) || (encoded <? 65536)%Z then Err () else Ok (Some (10, encoded))
  else Ok (Some (2, short)).
(** [FrameHead::parse]. *)
Definition parse (bytes : list byte) (masked_expected : bool) : result () (option FrameHead) :=
  if length bytes <? 2 then Ok None
  else
    let b0 := byte_at bytes 0 in
    let opcode := Z.land b0 15 in
    let fin := bit b0 128 in
    let compressed := bit b0 64 in
    let masked := bit (byte_at bytes 1) 128 in
    if negb (bool_decide (opcode ∈ [0; 1; 2; 8; 9; 10]%Z)) || bit b0 48
       || negb (Bool.eqb masked masked_expected)
       || ((8 <=? opcode)%Z && (negb fin || compressed))
    then Err ()
    else
      l ← payload_length bytes;
      match l with
      | None => Ok None
      | Some (header_len, payload_len) =>
          if (8 <=? opcode)%Z && (125 <? payload_len)%Z then Err ()
          else if masked then
            if length bytes <? header_len + 4 then Ok None
            else Ok (Some (mkFrameHead fin compressed opcode (header_len + 4) payload_len
                             (Some (take 4 (drop header_len bytes)))))
          else Ok (Some (mkFrameHead fin compressed opcode header_len payload_len None))
      end.
End WsFrame.

Record Message := mkMessage {
  wm_head : WebSocketMessageHead;
  wm_compressed : bool;
  wm_bytes : list byte;
  wm_evidence : list SemanticEvidence;
  wm_seen : gset Z;
  wm_last_at : SystemTime;
}.
(** The limits of [SemanticRetentionConfig::l2_websocket]. *)
Record WsLimits := mkWsLimits {
  wl_max_decoded_message_bytes : Z;
  wl_max_frame_buffer_bytes : Z;
  wl_max_message_bytes : Z;
  wl_max_evidence_ranges : Z;
  wl_compact_threshold_bytes : Z;
  wl_max_active_connections : Z;
}.
Record DirectionAssembler `{I : Inflate} := mkAssembler {
  da_buffer : list byte;
  da_cursor : nat;
  da_base : nat;
  da_evidence : EvidenceTracker;
  da_frame : option FrameHead;
  da_message : option Message;
  da_next_message : Z;
  da_prefix : string;
  da_connection_id : string;
  da_path : string;
  da_expected_masked : bool;
  da_deflate : DeflateDecoder;
  da_max_frame : Z;
  da_max_message : Z;
  da_max_ranges : Z;
  da_compact : Z;
}.
Record DirectionObservation := mkDirectionObservation {
  do_events : list WebSocketMessageEvent;
  do_closed : bool;
  do_failed : bool;
}.
(** Why [advance] stops: a reason to abort, or exhausted fuel of the inflate loop. *)
Inductive WsStop := WsReason (reason : WebSocketAbortReason) | WsExhausted.

Module Ws.
Section assembler.
Context {I : Inflate}.
Implicit Types a : DirectionAssembler.

Definition set_wire (buffer : list byte) (cursor base : nat) (ev : EvidenceTracker) (f : option FrameHead) a :=
  mkAssembler I buffer cursor base ev f (da_message a) (da_next_message a) (da_prefix a) (da_connection_id a)
    (da_path a) (da_expected_masked a) (da_deflate a) (da_max_frame a) (da_max_message a) (da_max_ranges a)
    (da_compact a).
Definition set_frame (f : option FrameHead) a := set_wire (da_buffer a) (da_cursor a) (da_base a) (da_evidence a) f a.
Definition set_message (m : option Message) (next : Z) (d : DeflateDecoder) a :=
  mkAssembler I (da_buffer a) (da_cursor a) (da_base a) (da_evidence a) (da_frame a) m next (da_prefix a)
    (da_connection_id a) (da_path a) (da_expected_masked a) d (da_max_frame a) (da_max_message a)
    (da_max_ranges a) (da_compact a).
Definition with_message (m : option Message) a := set_message m (da_next_message a) (da_deflate a) a.

Definition new (connection_id path : string) (masked deflate no_context : bool) (limits : WsLimits)
    : DirectionAssembler :=
  mkAssembler I [] 0 0 Tracker.default_ None None 0
    (connection_id +:+ ":" +:+ (if masked then "outbound" else "inbound")) connection_id path masked
    (Deflate.new deflate no_context (wl_max_decoded_message_bytes limits))
    (wl_max_frame_buffer_bytes limits) (wl_max_message_bytes limits) (wl_max_evidence_ranges limits)
    (wl_compact_threshold_bytes limits).

Definition payload_evidence (id : Z) : SemanticEvidence :=
  mkSemanticEvidence EvidencePayloadSegment id "websocket.message.payload".
(** The loop of [capture_evidence] over the segments of a range. *)
Fixpoint capture_sources (max_ranges : Z) (sources : list PayloadSegment) (m : Message)
    : result WebSocketAbortReason () * Message :=
  match sources with
  | [] => (Ok (), m)
  | source :: rest =>
      let m := mkMessage (wm_head m) (wm_compressed m) (wm_bytes m) (wm_evidence m) (wm_seen m)
                 (sg_observed_at source) in
      if bool_decide (sg_segment_id source ∈ wm_seen m) then capture_sources max_ranges rest m
      else if (max_ranges <=? Z.of_nat (size (wm_seen m)))%Z then (Err WsCapacityExceeded, m)
      else capture_sources max_ranges rest
             (mkMessage (wm_head m) (wm_compressed m) (wm_bytes m)
                (wm_evidence m ++ [payload_evidence (sg_segment_id source)])
                ({[sg_segment_id source]} ∪ wm_seen m) (wm_last_at m))
  end.
Definition capture_evidence (start stop : nat) a : result WebSocketAbortReason () * DirectionAssembler :=
  match da_message a with
  | None => (Ok (), a)
  | Some m =>
      let '(r, m') := capture_sources (da_max_ranges a) (Tracker.for_range start stop (da_evidence a)) m in
      (r, with_message (Some m') a)
  end.

Definition abort (reason : WebSocketAbortReason) a : option WebSocketMessageEvent * DirectionAssembler :=
  let a1 := (capture_evidence (da_base a + da_cursor a) (da_base a + length (da_buffer a)) a).2 in
  ((λ m, WsAbort (wm_head m) (wm_evidence m) (wm_last_at m) reason) <$> da_message a1,
   with_message None (set_wire [] 0 0 (Tracker.reset (da_evidence a1)) None a1)).

(** A data frame's header was read: the message it starts. *)
Definition message_head (segment : PayloadSegment) (frame : FrameHead) (number : Z) a : WebSocketMessageHead :=
  let at_ := da_base a + da_cursor a in
  let first := default segment (head (Tracker.for_range at_ (at_ + fh_header_len frame) (da_evidence a))) in
  mkWsHead (da_prefix a +:+ ":" +:+ pretty number) (da_connection_id a) (da_path a) (from_segment first)
    (sg_direction first) (fh_opcode frame) (sg_observed_at first) [payload_evidence (sg_segment_id first)].
Definition start_message (head : WebSocketMessageHead) (frame : FrameHead) : Message :=
  mkMessage head (fh_compressed frame) [] [] ∅ (wh_start_at head).

(** [advance], first part: the header of the frame at the cursor. *)
Definition open_frame (segment : PayloadSegment) (frame : FrameHead) a
    : result WebSocketAbortReason () * list WebSocketMessageEvent * DirectionAssembler :=
  let bounded out a :=
    if (da_max_frame a <? saturating_add_u64 (Z.of_nat (fh_header_len frame)) (fh_payload_len frame))%Z
    then (Err WsCapacityExceeded, out, a) else (Ok (), out, set_frame (Some frame) a) in
  if (fh_opcode frame =? 1)%Z || (fh_opcode frame =? 2)%Z then
    match da_message a with
    | Some _ => (Err WsDecodeFailure, [], a)
    | None =>
        match checked_add_u64 (da_next_message a) 1 with
        | None => (Err WsCapacityExceeded, [], a)
        | Some number =>
            let head := message_head segment frame number a in
            bounded [WsStart head]
              (set_message (Some (start_message head frame)) number (da_deflate a) a)
        end
    end
  else if (fh_opcode frame =? 0)%Z && (bool_decide (da_message a = None) || fh_compressed frame)
  then (Err WsDecodeFailure, [], a)
  else bounded [] a.

Definition unmask (mask : option (list byte)) (payload : list byte) : list byte :=
  match mask with
  | None => payload
  | Some key => imap (λ i b, byte.of_Z (Z.lxor (byte.unsigned b) (WsFrame.byte_at key (i mod 4)))) payload
  end.
(** The payload of a data frame joins its message. *)
Definition append_payload (frame : FrameHead) (size : nat) a
    : result WebSocketAbortReason () * DirectionAssembler :=
  let '(r, a1) := capture_evidence (da_base a + da_cursor a) (da_base a + da_cursor a + size) a in
  match r with
  | Err e => (Err e, a1)
  | Ok _ =>
      match da_message a1 with
      | None => (Err WsDecodeFailure, a1)
      | Some m =>
          if (da_max_message a1 <? saturating_add_u64 (Z.of_nat (length (wm_bytes m))) (fh_payload_len frame))%Z
          then (Err WsCapacityExceeded, a1)
          else
            let payload := take (size - fh_header_len frame)
                             (drop (da_cursor a1 + fh_header_len frame) (da_buffer a1)) in
            (Ok (), with_message
              (Some (mkMessage (wm_head m) (wm_compressed m) (wm_bytes m ++ unmask (fh_mask frame) payload)
                       (wm_evidence m) (wm_seen m) (wm_last_at m))) a1)
      end
  end.
(** The final frame of a message arrived. *)
Definition finish_message a : result WsStop () * list WebSocketMessageEvent * DirectionAssembler :=
  match da_message a with
  | None => (Err (WsReason WsDecodeFailure), [], a)
  | Some m =>
      let aborted a := (Err (WsReason WsDecodeFailure),
        [WsAbort (wm_head m) (wm_evidence m) (wm_last_at m) WsDecodeFailure], a) in
      let deliver bytes a :=
        if (wh_opcode (wm_head m) =? 1)%Z && negb (utf8_valid bytes) then aborted a
        else (Ok (), [WsComplete (wm_head m) bytes (wm_evidence m) (wm_last_at m)], a) in
      let a1 := with_message None a in
      if wm_compressed m then
        match Deflate.decode (wm_bytes m) (da_deflate a) with
        | None => (Err WsExhausted, [], a1)
        | Some (r, d) =>
            let a2 := set_message None (da_next_message a) d a in
            match r with Ok bytes => deliver bytes a2 | Err _ => aborted a2 end
        end
      else deliver (wm_bytes m) a1
  end.
(** [advance], second part: the frame, once all of it is there. *)
Definition take_frame (frame : FrameHead) a
    : result WsStop (option bool) * list WebSocketMessageEvent * DirectionAssembler :=
  let size := (Z.of_nat (fh_header_len frame) + fh_payload_len frame)%Z in
  if (Z.of_nat (length (da_buffer a) - da_cursor a) <? size)%Z then (Ok None, [], a)
  else
    let size := Z.to_nat size in
    let '(r, a1) := if (fh_opcode frame <? 8)%Z then append_payload frame size a else (Ok (), a) in
    match r with
    | Err e => (Err (WsReason e), [], a1)
    | Ok _ =>
        let cursor := da_cursor a1 + size in
        let a2 := set_wire (da_buffer a1) cursor (da_base a1)
                    (Tracker.evict_before (da_base a1 + cursor) (da_evidence a1)) None a1 in
        let '(r, out, a3) := if (fh_opcode frame <? 8)%Z && fh_fin frame then finish_message a2 else (Ok (), [], a2) in
        ((λ _, Some (fh_opcode frame =? 8)%Z) <$> r, out, a3)
    end.
Definition advance (segment : PayloadSegment) a
    : result WsStop (option bool) * list WebSocketMessageEvent * DirectionAssembler :=
  match da_frame a with
  | Some frame => take_frame frame a
  | None =>
      match WsFrame.parse (drop (da_cursor a) (da_buffer a)) (da_expected_masked a) with
      | Err _ => (Err (WsReason WsDecodeFailure), [], a)
      | Ok None => (Ok None, [], a)
      | Ok (Some frame) =>
          match open_frame segment frame a with
          | (Err e, out, a1) => (Err (WsReason e), out, a1)
          | (Ok _, out, a1) => let '(r, out', a2) := take_frame frame a1 in (r, out ++ out', a2)
          end
      end
  end.

Definition compact a : DirectionAssembler :=
  if da_cursor a =? length (da_buffer a)
  then set_wire [] 0 (da_base a + da_cursor a) (da_evidence a) (da_frame a) a
  else if (da_compact a <=? Z.of_nat (da_cursor a))%Z && (length (da_buffer a) / 2 <=? da_cursor a)
  then set_wire (drop (da_cursor a) (da_buffer a)) 0 (da_base a + da_cursor a) (da_evidence a) (da_frame a) a
  else a.

(** The loop of [push]; [None] is exhausted fuel. *)
Fixpoint push_loop (fuel : nat) (segment : PayloadSegment) (out : list WebSocketMessageEvent) a
    : option (DirectionObservation * DirectionAssembler) :=
  match fuel with
  | O => None
  | S fuel' =>
      let '(r, events, a1) := advance segment a in
      let out := out ++ events in
      match r with
      | Ok (Some false) => push_loop fuel' segment out a1
      | Ok (Some true) =>
          let '(e, a2) := abort WsPeerClosed a1 in
          Some (mkDirectionObservation (out ++ option_list e) true false, a2)
      | Ok None => Some (mkDirectionObservation out false false, a1)
      | Err (WsReason reason) =>
          let '(e, a2) := abort reason a1 in
          Some (mkDirectionObservation (out ++ option_list e) false true, a2)
      | Err WsExhausted => None
      end
  end.
Definition push (segment : PayloadSegment) a : option (DirectionObservation * DirectionAssembler) :=
  if (da_max_frame a <? saturating_add_u64 (Z.of_nat (length (da_buffer a) - da_cursor a))
                          (Z.of_nat (length (sg_bytes segment))))%Z
     || (da_max_ranges a <=? Z.of_nat (Tracker.len (da_evidence a)))%Z
  then
    let '(e, a1) := abort WsCapacityExceeded a in
    Some (mkDirectionObservation (option_list e) false true, a1)
  else
    let start := da_base a + length (da_buffer a) in
    let a1 := set_wire (da_buffer a ++ sg_bytes segment) (da_cursor a) (da_base a)
                (Tracker.append start (start + length (sg_bytes segment)) segment (da_evidence a)) (da_frame a) a in
    '(o, a2) ← push_loop (S (length (da_buffer a1))) segment [] a1;
    Some (o, compact a2).
End assembler.
End Ws.

(** * The life of messages *)

Module WsFacts.
Import Ws.

(** Messages one after the other: started, then completed or aborted. *)
Inductive lifecycle : option WebSocketMessageHead → list WebSocketMessageEvent → option WebSocketMessageHead → Prop :=
| lc_nil o : lifecycle o [] o
| lc_start h es o : lifecycle (Some h) es o → lifecycle None (WsStart h :: es) o
| lc_complete h bytes ev at_ es o : lifecycle None es o → lifecycle (Some h) (WsComplete h bytes ev at_ :: es) o
| lc_abort h ev at_ reason es o : lifecycle None es o → lifecycle (Some h) (WsAbort h ev at_ reason :: es) o.
#[local] Hint Constructors lifecycle : core.
(** The ids of the messages started. *)
Definition started (es : list WebSocketMessageEvent) : list string :=
  omap (λ e, match e with WsStart h => Some (wh_message_id h) | _ => None end) es.
Definition numbered (prefix : string) (lo hi : Z) : list string :=
  (λ n : Z, prefix +:+ ":" +:+ pretty n) <$> seqZ (lo + 1) (hi - lo).

Lemma lifecycle_app o es p es' q : lifecycle o es p → lifecycle p es' q → lifecycle o (es ++ es') q.
Proof. induction 1; cbn; auto. Qed.
Lemma started_app es es' : started (es ++ es') = started es ++ started es'.
Proof. unfold started. by rewrite omap_app. Qed.
Lemma numbered_app prefix lo mid hi :
  (lo ≤ mid ≤ hi)%Z → numbered prefix lo mid ++ numbered prefix mid hi = numbered prefix lo hi.
Proof.
  intros H. unfold numbered. rewrite <-fmap_app. f_equal.
  replace (hi - lo)%Z with ((mid - lo) + (hi - mid))%Z by lia. rewrite seqZ_app by lia. do 2 f_equal. lia.
Qed.
Lemma numbered_same prefix lo : numbered prefix lo lo = [].
Proof. unfold numbered. by rewrite Z.sub_diag. Qed.
Lemma append_inj_l p a b : p +:+ a = p +:+ b → a = b.
Proof. induction p as [|c p IH]; [done|]. cbn. intros [= H]. auto. Qed.
Lemma numbered_NoDup prefix lo hi : NoDup (numbered prefix lo hi).
Proof.
  unfold numbered. apply NoDup_fmap_2_strong; [|apply NoDup_seqZ].
  intros x y _ _ H. by apply append_inj_l, append_inj_l, (inj pretty) in H.
Qed.

Section life.
Context {I : Inflate}.
Implicit Types a b : DirectionAssembler.

Definition open_head a : option WebSocketMessageHead := wm_head <$> da_message a.
(** Events that a change of state accounts for. *)
Record accounts a (es : list WebSocketMessageEvent) b : Prop := {
  ac_life : lifecycle (open_head a) es (open_head b);
  ac_prefix : da_prefix b = da_prefix a;
  ac_next : (da_next_message a ≤ da_next_message b)%Z;
  ac_started : started es = numbered (da_prefix a) (da_next_message a) (da_next_message b);
}.
Lemma accounts_trans a es b es' c : accounts a es b → accounts b es' c → accounts a (es ++ es') c.
Proof.
  intros [L1 P1 N1 S1] [L2 P2 N2 S2]. split.
  - by eapply lifecycle_app.
  - congruence.
  - lia.
  - rewrite started_app, S1, S2, P1. apply numbered_app. lia.
Qed.
Lemma accounts_silent a b :
  open_head b = open_head a → da_prefix b = da_prefix a → da_next_message b = da_next_message a → accounts a [] b.
Proof. intros H1 H2 H3. split; [rewrite H1; constructor|done|lia|by rewrite H3, numbered_same]. Qed.
Lemma accounts_end a b e h :
  open_head a = Some h → open_head b = None → da_prefix b = da_prefix a → da_next_message b = da_next_message a →
  (∃ bytes ev at_, e = WsComplete h bytes ev at_) ∨ (∃ ev at_ reason, e = WsAbort h ev at_ reason) →
  accounts a [e] b.
Proof.
  intros H1 H2 H3 H4 He. split; [|done|lia|].
  - rewrite H1, H2. destruct He as [(? & ? & ? & ->)|(? & ? & ? & ->)]; eauto.
  - rewrite H4, numbered_same. by destruct He as [(? & ? & ? & ->)|(? & ? & ? & ->)].
Qed.

Lemma capture_head max sources m : wm_head (capture_sources max sources m).2 = wm_head m.
Proof.
  revert m. induction sources as [|s sources IH]; intros m; [done|]. cbn [capture_sources].
  destruct (bool_decide _); [by rewrite IH|]. destruct (_ <=? _)%Z; [done|]. by rewrite IH.
Qed.
(** The wire side of an assembler, which decides whether there is progress. *)
Definition wire_of a := (da_buffer a, da_cursor a, da_base a, da_evidence a, da_frame a, da_deflate a, da_max_message a).
Lemma capture_account start stop a :
  accounts a [] (capture_evidence start stop a).2 ∧
  wire_of (capture_evidence start stop a).2 = wire_of a ∧ da_max_ranges (capture_evidence start stop a).2 = da_max_ranges a.
Proof.
  unfold capture_evidence. destruct (da_message a) as [m|] eqn:E; [|by split; [apply accounts_silent|]].
  destruct (capture_sources _ _ m) as [r m'] eqn:Ec. cbn [snd]. split; [|done].
  apply accounts_silent; [|done|done]. unfold open_head. rewrite E. cbn.
  by rewrite <-(capture_head (da_max_ranges a) (Tracker.for_range start stop (da_evidence a)) m), Ec.
Qed.
Lemma abort_account reason a :
  accounts a (option_list (abort reason a).1) (abort reason a).2 ∧ open_head (abort reason a).2 = None.
Proof.
  split; [|done]. unfold abort. set (a1 := (capture_evidence _ _ a).2).
  destruct (capture_account (da_base a + da_cursor a) (da_base a + length (da_buffer a)) a) as [Ha _]. fold a1 in Ha.
  rewrite <-(app_nil_l (option_list _)). eapply accounts_trans; [exact Ha|]. cbn [fst snd].
  destruct (da_message a1) as [m|] eqn:E; cbn.
  - eapply accounts_end; [unfold open_head; by rewrite E|done|done|done|]. right. by do 3 eexists.
  - apply accounts_silent; [unfold open_head; by rewrite E|done|done].
Qed.

Lemma open_account segment frame a r out b :
  open_frame segment frame a = (r, out, b) →
  accounts a out b ∧ da_buffer b = da_buffer a ∧ da_cursor b = da_cursor a ∧ da_base b = da_base a ∧
  da_evidence b = da_evidence a ∧ da_deflate b = da_deflate a ∧
  (da_frame b = Some frame ∨ da_frame b = da_frame a).
Proof.
  unfold open_frame. destruct (_ || _).
  - destruct (da_message a) as [m|] eqn:Em; [intros [= <- <- <-]; by splits; auto using accounts_silent|].
    destruct (checked_add_u64 _ _) as [n|] eqn:En; [|intros [= <- <- <-]; by splits; auto using accounts_silent].
    apply checked_add_u64_Some in En as [-> _].
    assert (∀ c, open_head c = Some (message_head segment frame (da_next_message a + 1) a) → da_prefix c = da_prefix a →
      da_next_message c = (da_next_message a + 1)%Z →
      accounts a [WsStart (message_head segment frame (da_next_message a + 1) a)] c) as Hacc.
    { intros c H1 H2 H3. split; [|done|lia|].
      - unfold open_head at 1. rewrite Em, H1. repeat constructor.
      - rewrite H3. unfold numbered. replace (da_next_message a + 1 - da_next_message a)%Z with 1%Z by lia. done. }
    destruct (_ <? _)%Z; intros [= <- <- <-]; (split; [by apply Hacc|]); splits; auto.
  - destruct (_ && _); [intros [= <- <- <-]; by splits; auto using accounts_silent|].
    destruct (_ <? _)%Z; intros [= <- <- <-]; splits; auto using accounts_silent.
Qed.

Lemma append_account frame size a r b :
  append_payload frame size a = (r, b) →
  accounts a [] b ∧ wire_of b = wire_of a ∧ (r = Ok () → is_Some (da_message b)).
Proof.
  unfold append_payload.
  destruct (capture_account (da_base a + da_cursor a) (da_base a + da_cursor a + size) a) as (Ha & Hw & _).
  destruct (capture_evidence _ _ a) as [[[]|e] a1]; cbn [snd] in *; [|by intros [= <- <-]].
  destruct (da_message a1) as [m|] eqn:Em; [|by intros [= <- <-]].
  destruct (_ <? _)%Z; intros [= <- <-]; [by splits|]. splits; [|done|by eexists].
  change (@nil WebSocketMessageEvent) with (@nil WebSocketMessageEvent ++ []). eapply accounts_trans; [done|].
  apply accounts_silent; [|done|done]. unfold open_head. by rewrite Em.
Qed.

Lemma finish_account a r out b :
  finish_message a = (r, out, b) → r ≠ Err WsExhausted →
  accounts a out b ∧ da_buffer b = da_buffer a ∧ da_cursor b = da_cursor a ∧ da_base b = da_base a ∧
  da_evidence b = da_evidence a ∧ da_frame b = da_frame a ∧
  dd_max_bytes (da_deflate b) = dd_max_bytes (da_deflate a).
Proof.
  unfold finish_message. destruct (da_message a) as [m|] eqn:Em; [|intros [= <- <- <-] _; by splits; auto using accounts_silent].
  assert (open_head a = Some (wm_head m)) as Ho by (unfold open_head; by rewrite Em).
  assert (∀ e c, (∃ bytes ev at_, e = WsComplete (wm_head m) bytes ev at_) ∨
      (∃ ev at_ reason, e = WsAbort (wm_head m) ev at_ reason) →
    open_head c = None → da_prefix c = da_prefix a → da_next_message c = da_next_message a → accounts a [e] c) as Hacc.
  { intros. by eapply accounts_end. }
  destruct (wm_compressed m).
  - destruct (Deflate.decode _ _) as [[r' d]|] eqn:Ed; [|by intros [= <- <- <-]].
    assert (dd_max_bytes d = dd_max_bytes (da_deflate a)) as Hd.
    { revert Ed. unfold Deflate.decode. destruct (dd_enabled _); [|by intros [= _ <-]].
      destruct (Deflate.decode_loop _ _ _ _ _ _) as [[? ?]|]; [|done]. by intros [= _ <-]. }
    destruct r' as [bytes|]; [destruct (_ && _)|]; intros [= <- <- <-] _;
      (split; [apply Hacc; [|done|done|done]|by splits]); [right|left|right]; by do 3 eexists.
  - destruct (_ && _); intros [= <- <- <-] _; (split; [apply Hacc; [|done|done|done]|by splits]); [right|left];
      by do 3 eexists.
Qed.

(** What holds between calls. *)
Record sound a : Prop := {
  so_cursor : da_cursor a ≤ length (da_buffer a);
  so_deflate : (0 ≤ dd_max_bytes (da_deflate a))%Z;
  so_frame f : da_frame a = Some f → 2 ≤ fh_header_len f ∧ (0 ≤ fh_payload_len f)%Z;
}.
Lemma byte_at_range bytes i : (0 ≤ WsFrame.byte_at bytes i < 256)%Z.
Proof. apply byte.unsigned_range. Qed.
Lemma parse_bounds bytes masked f :
  WsFrame.parse bytes masked = Ok (Some f) →
  2 ≤ fh_header_len f ∧ (0 ≤ fh_payload_len f)%Z ∧ fh_header_len f ≤ length bytes.
Proof.
  unfold WsFrame.parse. destruct (Nat.ltb_spec (length bytes) 2); [done|]. destruct (_ || _); [done|].
  destruct (WsFrame.payload_length bytes) as [[[h n]|]|] eqn:E; [|done|done]. cbn [mbind result_bind].
  assert (2 ≤ h ∧ (0 ≤ n)%Z ∧ h ≤ length bytes) as (Hh & Hn & Hl).
  { revert E. unfold WsFrame.payload_length. pose proof (byte_at_range bytes 1).
    destruct (_ =? 126)%Z.
    - destruct (Nat.ltb_spec (length bytes) 4); [done|]. destruct (_ <? _)%Z; [done|]. intros [= <- <-].
      splits; [lia|apply from_be_bytes_bound|lia].
    - destruct (_ =? 127)%Z.
      + destruct (Nat.ltb_spec (length bytes) 10); [done|]. destruct (_ || _); [done|]. intros [= <- <-].
        splits; [lia|apply from_be_bytes_bound|lia].
      + intros [= <- <-]. splits; [lia| |lia]. apply Z.land_nonneg. lia. }
  destruct (_ && _); [done|]. destruct (WsFrame.bit _ _).
  - destruct (Nat.ltb_spec (length bytes) (h + 4)); [done|]. intros [= <-]. cbn. lia.
  - intros [= <-]. cbn. lia.
Qed.

Lemma take_account frame a r out b :
  take_frame frame a = (r, out, b) → r ≠ Err WsExhausted → sound a →
  2 ≤ fh_header_len frame → (0 ≤ fh_payload_len frame)%Z →
  accounts a out b ∧ da_buffer b = da_buffer a ∧ da_cursor a ≤ da_cursor b ∧ (0 ≤ dd_max_bytes (da_deflate b))%Z ∧
  match r with
  | Ok None => b = a
  | Ok (Some _) => da_cursor a + 2 ≤ da_cursor b ∧ sound b
  | Err _ => da_cursor b ≤ length (da_buffer b)
  end.
Proof.
  intros E Hr [Hc Hd Hf] Hh Hp. revert E Hr. unfold take_frame.
  destruct (Z.ltb_spec (Z.of_nat (length (da_buffer a) - da_cursor a)) (Z.of_nat (fh_header_len frame) + fh_payload_len frame)).
  { intros [= <- <- <-] _. by splits; auto using accounts_silent. }
  set (size := Z.to_nat _).
  assert (∃ a1 r1, (if (fh_opcode frame <? 8)%Z then append_payload frame size a else (Ok (), a)) = (r1, a1) ∧
    accounts a [] a1 ∧ wire_of a1 = wire_of a) as (a1 & r1 & -> & Ha1 & Hw).
  { destruct (_ <? _)%Z; [|do 2 eexists; splits; [done|by apply accounts_silent|done]].
    destruct (append_payload frame size a) as [r1 a1] eqn:Ea. apply append_account in Ea as (? & ? & _).
    by exists a1, r1. }
  unfold wire_of in Hw. injection Hw as Hb1 Hc1 Hba1 He1 Hf1 Hde1 Hm1.
  destruct r1 as [[]|e].
  2: { intros [= <- <- <-] _. splits; [done|done|lia|congruence|congruence]. }
  set (a2 := set_wire _ _ _ _ _ a1).
  assert (accounts a [] a2) as Ha2.
  { change (@nil WebSocketMessageEvent) with (@nil WebSocketMessageEvent ++ []). eapply accounts_trans; [exact Ha1|].
    by apply accounts_silent. }
  destruct (_ && _).
  - destruct (finish_message a2) as [[r2 out2] a3] eqn:Ef. cbn. intros [= <- <- <-] Hr.
    apply finish_account in Ef as (Hac & E1 & E2 & E3 & E4 & E5 & E6); [|by destruct r2 as [|[]]].
    assert (dd_max_bytes (da_deflate a2) = dd_max_bytes (da_deflate a)) as E7 by (cbn; congruence).
    change (da_buffer a2) with (da_buffer a1) in E1. change (da_cursor a2) with (da_cursor a1 + size) in E2.
    splits.
    + change out2 with ([] ++ out2). by eapply accounts_trans.
    + congruence.
    + lia.
    + lia.
    + destruct r2 as [[]|]; cbn.
      * split; [lia|]. split; [rewrite E1, E2, Hb1; lia|lia|]. intros f Hff. rewrite E5 in Hff. discriminate Hff.
      * rewrite E1, E2, Hb1. lia.
  - intros [= <- <- <-] _. splits; [done|done|cbn; lia|cbn; congruence|cbn; lia|].
    split; cbn; [rewrite Hb1; lia|congruence|done].
Qed.

Lemma take_total `{!InflateBounds I} frame a r out b :
  take_frame frame a = (r, out, b) → (0 ≤ dd_max_bytes (da_deflate a))%Z → r ≠ Err WsExhausted.
Proof.
  unfold take_frame. intros E Hd ->. revert E. destruct (_ <? _)%Z; [done|]. set (size := Z.to_nat _).
  assert (∃ a1 r1, (if (fh_opcode frame <? 8)%Z then append_payload frame size a else (Ok (), a)) = (r1, a1) ∧
    wire_of a1 = wire_of a) as (a1 & r1 & -> & Hw).
  { destruct (_ <? _)%Z; [|by do 2 eexists]. destruct (append_payload frame size a) as [r1 a1] eqn:Ea.
    apply append_account in Ea as (_ & ? & _). by exists a1, r1. }
  unfold wire_of in Hw. injection Hw as Hb1 Hc1 Hba1 He1 Hf1 Hde1 Hm1.
  destruct r1 as [[]|e]; [|by intros [= <- <-]]. destruct (_ && _); [|done].
  unfold finish_message. destruct (da_message _) as [m|]; [|done]. destruct (wm_compressed m).
  - destruct (Deflate.decode_total (wm_bytes m) (da_deflate a1) ltac:(by rewrite Hde1)) as [[r' d] Ed].
    cbn [da_deflate set_wire]. rewrite Ed. destruct r'; [destruct (_ && _)|]; done.
  - by destruct (_ && _).
Qed.

Lemma advance_account `{!InflateBounds I} segment a r out b :
  advance segment a = (r, out, b) → sound a →
  r ≠ Err WsExhausted ∧ accounts a out b ∧ da_buffer b = da_buffer a ∧ (0 ≤ dd_max_bytes (da_deflate b))%Z ∧
  match r with
  | Ok None => sound b
  | Ok (Some _) => da_cursor a + 2 ≤ da_cursor b ∧ sound b
  | Err _ => da_cursor b ≤ length (da_buffer b)
  end.
Proof.
  intros E Hs. pose proof Hs as [Hc Hd Hf]. revert E. unfold advance. destruct (da_frame a) as [f|] eqn:Ef.
  - intros E. destruct (Hf f eq_refl) as [Hh Hp]. pose proof (take_total _ _ _ _ _ E Hd) as Hr.
    destruct (take_account _ _ _ _ _ E Hr Hs Hh Hp) as (Ha & Hb & Hc' & Hd' & Hm). splits; try done.
    by destruct r as [[?|]|]; [|subst b|].
  - destruct (WsFrame.parse _ _) as [[f|]|] eqn:Ep.
    + destruct (parse_bounds _ _ _ Ep) as (Hh & Hp & _).
      destruct (open_frame segment f a) as [[r1 out1] a1] eqn:Eo.
      apply open_account in Eo as (Ha1 & Hb1 & Hc1 & Hba1 & He1 & Hd1 & Hf1).
      destruct r1 as [[]|e]; [|intros [= <- <- <-]; splits; [done|done|done|congruence|congruence]].
      assert (sound a1) as Hs1.
      { split; [congruence|congruence|]. intros g Hg. destruct Hf1 as [Hf1|Hf1]; [|congruence].
        by assert (g = f) as -> by congruence. }
      destruct (take_frame f a1) as [[r2 out2] a2] eqn:Et. intros [= <- <- <-].
      pose proof (take_total _ _ _ _ _ Et (so_deflate _ Hs1)) as Hr.
      destruct (take_account _ _ _ _ _ Et Hr Hs1 Hh Hp) as (Ha & Hb & Hc' & Hd' & Hm). splits; try done.
      * by eapply accounts_trans.
      * congruence.
      * destruct r2 as [[?|]|]; [|by subst|done]. by rewrite Hc1 in Hm.
    + intros [= <- <- <-]. splits; [done|by apply accounts_silent|done|done|done].
    + intros [= <- <- <-]. splits; [done|by apply accounts_silent|done|done|done].
Qed.

Lemma abort_sound reason a : (0 ≤ dd_max_bytes (da_deflate a))%Z → sound (abort reason a).2.
Proof.
  intros H. destruct (capture_account (da_base a + da_cursor a) (da_base a + length (da_buffer a)) a) as (_ & Hw & _).
  unfold abort. cbn [snd]. unfold wire_of in Hw. injection Hw as Hb1 Hc1 Hba1 He1 Hf1 Hde1 Hm1.
  split; cbn; [lia|congruence|done].
Qed.

(** A call: its events are accounted for, and a failed or closed direction has no message. *)
Definition call_ok a (o : DirectionObservation) b : Prop :=
  accounts a (do_events o) b ∧ sound b ∧ (do_failed o || do_closed o = true → open_head b = None).

Lemma push_loop_account `{!InflateBounds I} fuel segment out a0 a :
  sound a → accounts a0 out a → length (da_buffer a) - da_cursor a < fuel →
  ∃ o b, push_loop fuel segment out a = Some (o, b) ∧ call_ok a0 o b.
Proof.
  revert out a. induction fuel as [|fuel IH]; intros out a Hs Ha Hl; [lia|]. cbn [push_loop].
  destruct (advance segment a) as [[r events] a1] eqn:E.
  destruct (advance_account _ _ _ _ _ E Hs) as (Hr & Ha1 & Hb & Hd & Hm).
  pose proof (accounts_trans _ _ _ _ _ Ha Ha1) as Ha'.
  assert (∀ reason, accounts a0 ((out ++ events) ++ option_list (abort reason a1).1) (abort reason a1).2 ∧
    sound (abort reason a1).2 ∧ open_head (abort reason a1).2 = None) as Hab.
  { intros reason. destruct (abort_account reason a1) as [H1 H2]. splits; [by eapply accounts_trans|by apply abort_sound|done]. }
  destruct r as [[[]|]|[reason|]].
  - specialize (Hab WsPeerClosed) as (H1 & H2 & H3). destruct (abort WsPeerClosed a1) as [e a2]. cbn [fst snd] in *.
    do 2 eexists. split; [done|]. by splits.
  - destruct Hm as [Hc Hs1]. apply IH; [done|done|]. rewrite Hb. pose proof (so_cursor _ Hs1) as Hcur.
    rewrite Hb in Hcur. lia.
  - do 2 eexists. split; [done|]. by splits.
  - specialize (Hab reason) as (H1 & H2 & H3). destruct (abort reason a1) as [e a2]. cbn [fst snd] in *.
    do 2 eexists. split; [done|]. by splits.
  - done.
Qed.

Lemma compact_account a : sound a → accounts a [] (compact a) ∧ sound (compact a) ∧ open_head (compact a) = open_head a.
Proof.
  intros [Hc Hd Hf]. unfold compact. destruct (_ =? _); [by splits; [apply accounts_silent|split; cbn|]|].
  destruct (_ && _); (splits; [by apply accounts_silent|split; cbn; [|done|done]|done]); lia.
Qed.

Lemma push_account `{!InflateBounds I} segment a :
  sound a → ∃ o b, push segment a = Some (o, b) ∧ call_ok a o b.
Proof.
  intros Hs. unfold push. destruct (_ || _).
  - destruct (abort_account WsCapacityExceeded a) as [H1 H2]. pose proof (abort_sound WsCapacityExceeded a (so_deflate _ Hs)) as H3.
    destruct (abort _ a) as [e a1]. do 2 eexists. split; [done|]. by splits.
  - cbv zeta. set (a1 := set_wire _ _ _ _ _ a).
    assert (sound a1) as Hs1.
    { destruct Hs as [Hc Hd Hf]. split; [|done|done]. subst a1. cbn. rewrite length_app. lia. }
    destruct (push_loop_account (S (length (da_buffer a1))) segment [] a a1 Hs1) as (o & b & -> & Ha & Hb & Ho).
    { by apply accounts_silent. } { lia. }
    cbn [mbind option_bind]. do 2 eexists. split; [done|].
    destruct (compact_account b Hb) as (H1 & H2 & H3). split; [|split; [done|by rewrite H3]].
    rewrite <-(app_nil_r (do_events o)). by eapply accounts_trans.
Qed.

(** Segments pushed one after the other. *)
Fixpoint pushes (ss : list PayloadSegment) a : option (list DirectionObservation * DirectionAssembler) :=
  match ss with
  | [] => Some ([], a)
  | s :: ss' => '(o, a1) ← push s a; '(os, a2) ← pushes ss' a1; Some (o :: os, a2)
  end.

Lemma pushes_account `{!InflateBounds I} ss a :
  sound a → ∃ os b, pushes ss a = Some (os, b) ∧ accounts a (mjoin (do_events <$> os)) b ∧
    ∀ o, last os = Some o → do_failed o || do_closed o = true → open_head b = None.
Proof.
  revert a. induction ss as [|s ss IH]; intros a Hs.
  { exists [], a. splits; [done|by apply accounts_silent|done]. }
  destruct (push_account s a Hs) as (o & a1 & E & Ha & Hs1 & Ho). destruct (IH a1 Hs1) as (os & b & Es & Hb & Hl).
  exists (o :: os), b. cbn [pushes]. rewrite E. cbn [mbind option_bind]. rewrite Es. cbn [mbind option_bind].
  splits; [done|rewrite fmap_cons, mjoin_cons; by eapply accounts_trans|].
  intros o' Ho' Hend. destruct os as [|o1 os]; [|by apply (Hl o')].
  cbn in Ho'. injection Ho' as <-. destruct ss; cbn in Es; [injection Es as <-; auto|].
  destruct (push _ a1) as [[? ?]|]; [|done]. cbn in Es. by destruct (pushes _ _) as [[? ?]|].
Qed.
End life.

(** C31: Messages have a life.  Whatever bytes a direction carries, however they are cut
    into segments and whatever the inflate engine answers, every segment is processed to
    an end, and the events are messages one after the other, each started and then
    completed or aborted exactly once under the head it was started with; the messages are
    numbered from one without gaps, so their ids are distinct; and after a segment that
    fails or closes the direction no message is open. *)
Theorem websocket_lifecycle {I : Inflate} {IB : InflateBounds I} id path masked deflate no_context limits ss :
  (0 ≤ wl_max_decoded_message_bytes limits)%Z →
  ∃ os a, pushes ss (new id path masked deflate no_context limits) = Some (os, a) ∧
    let es := mjoin (do_events <$> os) in
    lifecycle None es (open_head a) ∧
    started es = numbered (da_prefix a) 0 (da_next_message a) ∧ NoDup (started es) ∧
    ∀ o, last os = Some o → do_failed o || do_closed o = true → lifecycle None es None.
Proof.
  intros Hd. destruct (pushes_account ss (new id path masked deflate no_context limits)) as (os & a & E & Ha & Hl).
  { split; cbn; [lia|done|done]. }
  exists os, a. destruct Ha as [Ha Hp Hn Hst]. rewrite <-Hp in Hst. split; [done|].
  cbv zeta. splits; [exact Ha|exact Hst|rewrite Hst; apply numbered_NoDup|].
  intros o Ho Hend. specialize (Hl o Ho Hend). rewrite Hl in Ha. exact Ha.
Qed.
End WsFacts.
