(* ===== verification/WsRoundtrip.v ===== *)
(** Messages sent over a WebSocket come out of the assembler of WebSocket.v: frame
    encoding, fragmentation, masking and interleaved control frames, in any segments. *)
From stdpp Require Import prelude strings gmap pretty.
From Stdlib Require Import ZArith Lia.
From coqutil Require Import Byte.
From S2P Require Import Prelude Bytes ProcessIdentity Model Utf8 Scan Payload Evidence WebSocket.

Open Scope nat_scope.

(** * Frames on the wire *)

Module WsWireFacts.
Import Ws.

(** A frame to send; its payload is masked with the key, if there is one. *)
Record WireFrame := mkWsWire {
  ww_fin : bool;
  ww_opcode : Z;
  ww_mask : option (list byte);
  ww_payload : list byte;
}.
Definition length_code (n : nat) : Z := if n <? 126 then Z.of_nat n else if (Z.of_nat n <? 65536)%Z then 126%Z else 127%Z.
Definition extended_length (n : nat) : list byte :=
  if n <? 126 then [] else if (Z.of_nat n <? 65536)%Z then u16_be (Z.of_nat n) else u64_be (Z.of_nat n).
Definition masked (f : WireFrame) : bool := bool_decide (is_Some (ww_mask f)).
Definition header (f : WireFrame) : list byte :=
  [byte.of_Z (ww_opcode f + (if ww_fin f then 128 else 0));
   byte.of_Z (length_code (length (ww_payload f)) + (if masked f then 128 else 0))]
  ++ extended_length (length (ww_payload f)) ++ default [] (ww_mask f).
Definition encode (f : WireFrame) : list byte := header f ++ unmask (ww_mask f) (ww_payload f).
(** What the decoder makes of the header. *)
Definition head_of (f : WireFrame) : FrameHead :=
  mkFrameHead (ww_fin f) false (ww_opcode f) (length (header f)) (Z.of_nat (length (ww_payload f))) (ww_mask f).
(** A frame that may be sent at all. *)
Record frame_ok (mask : bool) (f : WireFrame) : Prop := {
  ok_opcode : ww_opcode f ∈ [0; 1; 2; 9; 10]%Z;
  ok_control : (8 ≤ ww_opcode f)%Z → ww_fin f = true ∧ length (ww_payload f) ≤ 125;
  ok_mask : match ww_mask f with Some key => mask = true ∧ length key = 4 | None => mask = false end;
  ok_length : (Z.of_nat (length (ww_payload f)) < 2 ^ 63)%Z;
}.

Lemma lxor_byte x k : (0 ≤ x < 256)%Z → (0 ≤ k < 256)%Z → (0 ≤ Z.lxor x k < 256)%Z.
Proof.
  intros Hx Hk. assert (Z.lxor x k = Z.lxor x k mod 2 ^ 8)%Z as ->.
  { rewrite <-Z.land_ones by lia. apply Z.bits_inj'. intros n Hn. rewrite Z.land_spec, Z.lxor_spec, Z.testbit_ones_nonneg by lia.
    destruct (Z.ltb_spec n 8); [by rewrite andb_true_r|]. rewrite andb_false_r.
    rewrite !(Z.bits_above_log2 _ n); [done| | | |]; try lia.
    - destruct (decide (k = 0)%Z) as [->|]; [cbn; lia|]. apply Z.log2_lt_pow2; [lia|].
      apply Z.lt_le_trans with (2 ^ 8)%Z; [lia|]. apply Z.pow_le_mono_r; lia.
    - destruct (decide (x = 0)%Z) as [->|]; [cbn; lia|]. apply Z.log2_lt_pow2; [lia|].
      apply Z.lt_le_trans with (2 ^ 8)%Z; [lia|]. apply Z.pow_le_mono_r; lia. }
  apply Z.mod_pos_bound. lia.
Qed.
Lemma unmask_length mask l : length (unmask mask l) = length l.
Proof. destruct mask; [|done]. cbn. by rewrite length_imap. Qed.
(** Masking twice is the identity. *)
Lemma unmask_involutive mask l : unmask mask (unmask mask l) = l.
Proof.
  destruct mask as [key|]; [|done]. cbn. apply list_eq. intros i. rewrite !list_lookup_imap.
  destruct (l !! i) as [b|]; [|done]. cbn. f_equal. set (k := WsFrame.byte_at key (i mod 4)).
  assert (0 ≤ k < 256)%Z as Hk by apply byte.unsigned_range. pose proof (byte.unsigned_range b) as Hb.
  rewrite byte.unsigned_of_Z. unfold byte.wrap. rewrite Z.mod_small by (by apply lxor_byte).
  rewrite Z.lxor_assoc, Z.lxor_nilpotent, Z.lxor_0_r. apply byte.of_Z_unsigned.
Qed.

(** The two bytes every header begins with. *)
Lemma second_byte c (m : bool) :
  (0 ≤ c < 128)%Z →
  let b := byte.unsigned (byte.of_Z (c + (if m then 128 else 0))) in
  Z.land b 127 = c ∧ WsFrame.bit b 128 = m.
Proof.
  intros Hc. assert (forallb (λ c, forallb (λ m : bool,
    let b := byte.unsigned (byte.of_Z (c + (if m then 128 else 0))) in
    (Z.land b 127 =? c)%Z && Bool.eqb (WsFrame.bit b 128) m) [true; false]) (seqZ 0 128) = true) as H by (vm_compute; reflexivity).
  rewrite forallb_forall in H. specialize (H c). rewrite <-list_elem_of_In, elem_of_seqZ in H.
  specialize (H ltac:(lia)). rewrite forallb_forall in H. specialize (H m ltac:(destruct m; cbn; auto)).
  apply andb_true_iff in H as [H1%Z.eqb_eq H2%eqb_prop]. done.
Qed.
Lemma first_byte op (fin : bool) :
  op ∈ [0; 1; 2; 9; 10]%Z →
  let b := byte.unsigned (byte.of_Z (op + (if fin then 128 else 0))) in
  Z.land b 15 = op ∧ WsFrame.bit b 128 = fin ∧ WsFrame.bit b 64 = false ∧ WsFrame.bit b 48 = false.
Proof.
  intros H. repeat (apply elem_of_cons in H as [-> |H]; [by destruct fin|]). by apply not_elem_of_nil in H.
Qed.

Lemma length_code_range n : (0 ≤ length_code n < 128)%Z.
Proof. unfold length_code. destruct (Nat.ltb_spec n 126); [lia|]. destruct (_ <? _)%Z; lia. Qed.
Lemma length_header f :
  frame_ok (masked f) f →
  length (header f) = 2 + length (extended_length (length (ww_payload f))) + (if masked f then 4 else 0).
Proof.
  intros [_ _ Hm _]. unfold header. rewrite !length_app. cbn [length]. unfold masked in *.
  destruct (ww_mask f) as [key|]; cbn [default from_option id]; [|cbn; lia].
  destruct Hm as [_ ->]. rewrite bool_decide_true by (by eexists). lia.
Qed.

Lemma byte_at_prefix p l i : i < length p → WsFrame.byte_at (p ++ l) i = WsFrame.byte_at p i.
Proof. intros H. unfold WsFrame.byte_at. by rewrite lookup_app_l. Qed.

Lemma middle_prefix (a l r p q : list byte) :
  a ++ l ++ r = p ++ q → length a + length l ≤ length p → take (length l) (drop (length a) p) = l.
Proof.
  intros E H. assert (take (length l) (drop (length a) (p ++ q)) = l) as Hl
    by (by rewrite <-E, drop_app_length, take_app_length).
  rewrite drop_app_le in Hl by lia. rewrite take_app_le in Hl; [done|]. rewrite length_drop. lia.
Qed.
Lemma payload_length_prefix f r p q :
  encode f ++ r = p ++ q → 2 ≤ length p → (Z.of_nat (length (ww_payload f)) < 2 ^ 63)%Z →
  WsFrame.payload_length p =
    (let h := 2 + length (extended_length (length (ww_payload f))) in
     if length p <? h then Ok None else Ok (Some (h, Z.of_nat (length (ww_payload f))))).
Proof.
  intros E H2 Hl. set (n := length (ww_payload f)) in *.
  assert (Z.land (WsFrame.byte_at p 1) 127 = length_code n) as Es.
  { rewrite <-(byte_at_prefix p q) by lia. rewrite <-E. apply (second_byte (length_code n) (masked f) (length_code_range _)). }
  assert (∀ k, length (extended_length n) = k → 2 + k ≤ length p → take k (drop 2 p) = extended_length n) as Hext.
  { intros k Hk Hp. rewrite <-Hk in *. revert E. unfold encode, header. rewrite <-!app_assoc. fold n. intros E.
    by apply (middle_prefix [_; _] _ _ _ _ E). }
  unfold WsFrame.payload_length. rewrite Es. unfold length_code, extended_length in *.
  destruct (Nat.ltb_spec n 126) as [Hn|Hn].
  - rewrite (proj2 (Z.eqb_neq _ 126)), (proj2 (Z.eqb_neq _ 127)) by lia. cbn [length Nat.add]. cbv zeta.
    by rewrite (proj2 (Nat.ltb_ge _ _)) by lia.
  - destruct (Z.ltb_spec (Z.of_nat n) 65536) as [Hn2|Hn2].
    + cbn [Z.eqb Pos.eqb]. rewrite length_u16_be. cbn [Nat.add]. destruct (Nat.ltb_spec (length p) 4); [done|].
      rewrite Hext by (rewrite ?length_u16_be; lia). rewrite from_u16_be by (unfold in_u16, u16_max; lia).
      by rewrite (proj2 (Z.ltb_ge _ _)) by lia.
    + cbn [Z.eqb Pos.eqb]. rewrite length_u64_be. cbn [Nat.add]. destruct (Nat.ltb_spec (length p) 10); [done|].
      rewrite Hext by (rewrite ?length_u64_be; lia). rewrite from_u64_be by (unfold in_u64, u64_max; lia).
      unfold WsFrame.bit. rewrite land_bit by lia.
      assert (Z.testbit (Z.of_nat n) 63 = false) as ->.
      { apply Z.bits_above_log2; [lia|]. apply Z.log2_lt_pow2; lia. }
      cbn [negb orb]. by rewrite (proj2 (Z.ltb_ge _ _)) by lia.
Qed.

(** The header is read from any prefix of the frame that has all of it, and waited for on
    a shorter one. *)
Lemma parse_prefix mask f r p q :
  frame_ok mask f → encode f ++ r = p ++ q →
  WsFrame.parse p mask = (if length p <? length (header f) then Ok None else Ok (Some (head_of f))).
Proof.
  intros Hok E. assert (masked f = mask) as Hmask.
  { destruct Hok as [_ _ Hm _]. unfold masked. destruct (ww_mask f); [destruct Hm as [-> _]; by rewrite bool_decide_true by (by eexists)|].
    subst mask. apply bool_decide_false. by intros [? ?]. }
  rewrite <-Hmask in *. pose proof (length_header f Hok) as Hlen. destruct Hok as [Hop Hctl Hm Hl].
  unfold WsFrame.parse. destruct (Nat.ltb_spec (length p) 2) as [H2|H2].
  { by rewrite (proj2 (Nat.ltb_lt _ _)) by lia. }
  assert (∀ i, i < length p → WsFrame.byte_at p i = WsFrame.byte_at (encode f ++ r) i) as Hat.
  { intros i Hi. by rewrite E, byte_at_prefix. }
  rewrite !Hat by lia.
  assert (WsFrame.byte_at (encode f ++ r) 0 = byte.unsigned (byte.of_Z (ww_opcode f + (if ww_fin f then 128 else 0)))) as -> by done.
  destruct (first_byte (ww_opcode f) (ww_fin f) Hop) as (E1 & E2 & E3 & E4). rewrite E1, E2, E3, E4.
  assert (WsFrame.byte_at (encode f ++ r) 1 = byte.unsigned (byte.of_Z
    (length_code (length (ww_payload f)) + (if masked f then 128 else 0)))) as Eb1 by done.
  destruct (second_byte (length_code (length (ww_payload f))) (masked f) (length_code_range _)) as [F1 F2].
  rewrite Eb1, F2. rewrite bool_decide_true by (clear -Hop; set_solver). rewrite eqb_reflx. cbn [negb orb].
  assert ((8 <=? ww_opcode f)%Z && (negb (ww_fin f) || false) = false) as ->.
  { destruct (Z.leb_spec 8 (ww_opcode f)); [|done]. destruct Hctl as [-> _]; [done|]. done. }
  rewrite (payload_length_prefix f r p q E H2 Hl). cbv zeta. cbn [orb].
  set (h := 2 + length (extended_length (length (ww_payload f)))) in *.
  destruct (Nat.ltb_spec (length p) h) as [Hh|Hh]; cbn [mbind result_bind].
  { by rewrite (proj2 (Nat.ltb_lt _ _)) by lia. }
  assert ((8 <=? ww_opcode f)%Z && (125 <? Z.of_nat (length (ww_payload f)))%Z = false) as ->.
  { destruct (Z.leb_spec 8 (ww_opcode f)); [|done]. destruct Hctl as [_ Hc]; [done|]. apply Z.ltb_ge. lia. }
  unfold head_of. destruct (masked f) eqn:Emask.
  - rewrite Hlen. destruct (Nat.ltb_spec (length p) (h + 4)) as [H4|H4]; [done|]. do 3 f_equal.
    unfold masked in Emask. destruct (ww_mask f) as [key|] eqn:Ek; [|by rewrite bool_decide_false in Emask by (by intros [? ?])].
    destruct Hm as [_ Hkey]. f_equal. revert E. unfold encode, header. rewrite Ek. cbn [default from_option id].
    intros E. rewrite <-Hkey.
    replace h with (length ([byte.of_Z (ww_opcode f + (if ww_fin f then 128 else 0));
      byte.of_Z (length_code (length (ww_payload f)) + (if masked f then 128 else 0))]
      ++ extended_length (length (ww_payload f)))) by (rewrite length_app; done).
    rewrite <-!app_assoc in E. eapply middle_prefix; [rewrite <-!app_assoc; exact E|]. rewrite length_app, Hkey. cbn [length]. lia.
  - rewrite Hlen, Nat.add_0_r. rewrite (proj2 (Nat.ltb_ge _ _)) by lia. do 3 f_equal.
    unfold masked in Emask. destruct (ww_mask f); [|done]. by rewrite bool_decide_true in Emask by (by eexists).
Qed.
Lemma length_encode f : length (encode f) = length (header f) + length (ww_payload f).
Proof. unfold encode. by rewrite length_app, unmask_length. Qed.
Lemma header_nonempty f : 2 ≤ length (header f).
Proof. unfold header. rewrite length_app. cbn. lia. Qed.
End WsWireFacts.

(** * What arrives *)

Module WsRoundtrip.
Import Ws WsWireFacts TrackerFacts.

(** Messages as their receiver sees them: opcode, payload, ids of the segments behind. *)
Inductive Delivery :=
| DStart (opcode : Z)
| DComplete (opcode : Z) (bytes : list byte) (segments : list Z)
| DAbort.
Definition delivery (e : WebSocketMessageEvent) : Delivery :=
  match e with
  | WsStart h => DStart (wh_opcode h)
  | WsComplete h bytes evidence _ => DComplete (wh_opcode h) bytes (se_id <$> evidence)
  | WsAbort _ _ _ _ => DAbort
  end.

(** Ids in the order of their first occurrence. *)
Definition collect (acc ids : list Z) : list Z :=
  foldl (λ acc id, if bool_decide (id ∈ acc) then acc else acc ++ [id]) acc ids.
(** The message being sent: opcode, bytes and segment ids so far. *)
Definition Sending : Type := option (Z * list byte * list Z).
Definition starts (f : WireFrame) : bool := (ww_opcode f =? 1)%Z || (ww_opcode f =? 2)%Z.
Definition opened (f : WireFrame) (st : Sending) : Sending := if starts f then Some (ww_opcode f, [], []) else st.
Definition opening (f : WireFrame) : list Delivery := if starts f then [DStart (ww_opcode f)] else [].
Definition ids_behind (ss : list PayloadSegment) (start stop : nat) : list Z :=
  sg_segment_id <$> segments_in start stop (spans 0 0 ss).
(** After a frame at an offset of the stream: the message still open, and what is delivered. *)
Definition after (ss : list PayloadSegment) (o : nat) (f : WireFrame) (st : Sending) : Sending * list Delivery :=
  if (8 <=? ww_opcode f)%Z then (st, [])
  else
    match opened f st with
    | Some (op, bytes, ids) =>
        let bytes := bytes ++ ww_payload f in
        let ids := collect ids (ids_behind ss o (o + length (encode f))) in
        if ww_fin f then (None, [DComplete op bytes ids]) else (Some (op, bytes, ids), [])
    | None => (None, [])
    end.
Fixpoint deliveries (ss : list PayloadSegment) (o : nat) (st : Sending) (fs : list WireFrame) : list Delivery :=
  match fs with
  | [] => []
  | f :: fs' =>
      let '(st', ds) := after ss o f st in
      opening f ++ ds ++ deliveries ss (o + length (encode f)) st' fs'
  end.
Fixpoint sending (ss : list PayloadSegment) (o : nat) (st : Sending) (fs : list WireFrame) : Sending :=
  match fs with [] => st | f :: fs' => sending ss (o + length (encode f)) (after ss o f st).1 fs' end.
Definition encode_all (fs : list WireFrame) : list byte := mjoin (encode <$> fs).

(** A frame that fits the conversation and the limits. *)
Record fits (mask : bool) (max_frame max_message : Z) (st : Sending) (f : WireFrame) : Prop := {
  fi_ok : frame_ok mask f;
  fi_frame : (Z.of_nat (length (encode f)) ≤ max_frame)%Z;
  fi_start : starts f = true → st = None;
  fi_open : (ww_opcode f < 8)%Z → is_Some (opened f st);
  fi_size op bytes ids : opened f st = Some (op, bytes, ids) → (ww_opcode f < 8)%Z →
    (Z.of_nat (length (bytes ++ ww_payload f)) ≤ max_message)%Z;
  fi_text bytes ids : opened f st = Some (1%Z, bytes, ids) → ww_fin f = true → (ww_opcode f < 8)%Z →
    utf8_valid (bytes ++ ww_payload f) = true;
}.

Lemma collect_spec acc ids :
  NoDup acc → NoDup (collect acc ids) ∧ (∀ x, x ∈ collect acc ids ↔ x ∈ acc ∨ x ∈ ids).
Proof.
  revert acc. induction ids as [|i ids IH]; intros acc Hn.
  { cbn. split; [done|]. set_solver. }
  change (collect acc (i :: ids)) with (collect (if bool_decide (i ∈ acc) then acc else acc ++ [i]) ids).
  case_bool_decide as Hi.
  - destruct (IH acc Hn) as [H1 H2]. split; [done|]. set_solver.
  - destruct (IH (acc ++ [i])) as [H1 H2].
    { apply NoDup_app. splits; [done| |apply NoDup_singleton]. intros x Hx ->%list_elem_of_singleton. done. }
    split; [done|]. set_solver.
Qed.
Lemma collect_app acc a b : collect acc (a ++ b) = collect (collect acc a) b.
Proof. unfold collect. by rewrite foldl_app. Qed.

Lemma capture_collects max sources m acc :
  wm_evidence m = payload_evidence <$> acc → wm_seen m = list_to_set acc → NoDup acc →
  (Z.of_nat (length (collect acc (sg_segment_id <$> sources))) ≤ max)%Z →
  ∃ m', capture_sources max sources m = (Ok (), m') ∧ wm_head m' = wm_head m ∧ wm_compressed m' = wm_compressed m ∧
    wm_bytes m' = wm_bytes m ∧ wm_evidence m' = payload_evidence <$> collect acc (sg_segment_id <$> sources) ∧
    wm_seen m' = list_to_set (collect acc (sg_segment_id <$> sources)).
Proof.
  revert m acc. induction sources as [|s sources IH]; intros m acc He Hs Hn Hl.
  { cbn. exists m. by splits. }
  rewrite fmap_cons in *.
  change (collect acc (sg_segment_id s :: (sg_segment_id <$> sources))) with
    (collect (if bool_decide (sg_segment_id s ∈ acc) then acc else acc ++ [sg_segment_id s]) (sg_segment_id <$> sources)) in *.
  cbn [capture_sources wm_seen]. rewrite Hs.
  assert (bool_decide (sg_segment_id s ∈ (list_to_set acc : gset Z)) = bool_decide (sg_segment_id s ∈ acc)) as ->.
  { apply bool_decide_ext. by rewrite elem_of_list_to_set. }
  destruct (bool_decide (sg_segment_id s ∈ acc)) eqn:E.
  - destruct (IH (mkMessage (wm_head m) (wm_compressed m) (wm_bytes m) (wm_evidence m) (wm_seen m) (sg_observed_at s)) acc)
      as (m' & E' & H); [done|done|done|done|]. rewrite <-Hs. by exists m'.
  - apply bool_decide_eq_false in E. rewrite size_list_to_set by done.
    assert (NoDup (acc ++ [sg_segment_id s])) as Hn'.
    { apply NoDup_app. splits; [done| |apply NoDup_singleton]. intros x Hx ->%list_elem_of_singleton. done. }
    assert (length acc < length (collect (acc ++ [sg_segment_id s]) (sg_segment_id <$> sources))) as Hlt.
    { destruct (collect_spec (acc ++ [sg_segment_id s]) (sg_segment_id <$> sources) Hn') as [H1 H2].
      apply Nat.lt_le_trans with (length (acc ++ [sg_segment_id s])); [rewrite length_app; cbn; lia|].
      apply submseteq_length, NoDup_submseteq; [done|]. intros x Hx. apply H2. by left. }
    rewrite (proj2 (Z.leb_gt _ _)) by lia.
    match goal with |- context [capture_sources max sources ?m1] =>
      destruct (IH m1 (acc ++ [sg_segment_id s])) as (m' & E' & H) end; cbn [wm_evidence wm_seen]; [| |done|done|].
    + by rewrite He, fmap_app.
    + rewrite list_to_set_app_L, list_to_set_singleton_L. apply (comm_L _).
    + by exists m'.
Qed.

Section assembler.
Context {I : Inflate} (mask : bool) (max_frame max_message max_ranges : Z).
Implicit Types a : DirectionAssembler.

Definition speaks (st : Sending) (m : option Message) : Prop :=
  match st, m with
  | None, None => True
  | Some (op, bytes, ids), Some m =>
      wh_opcode (wm_head m) = op ∧ wm_compressed m = false ∧ wm_bytes m = bytes ∧
      wm_evidence m = payload_evidence <$> ids ∧ wm_seen m = list_to_set ids ∧ NoDup ids
  | _, _ => False
  end.
(** The ids of a message are ids of segments of the stream. *)
Definition known (ss : list PayloadSegment) (st : Sending) : Prop :=
  match st with Some (_, _, ids) => ∀ x, x ∈ ids → x ∈ (sg_segment_id <$> ss) | None => True end.
(** An assembler at offset [o] of a stream, with the bytes [b] after it: inside the frame
    [cur] if its header was read.  [n] messages may still be numbered. *)
Record holds (n : nat) (ss : list PayloadSegment) (o : nat) (b : list byte) (cur : option WireFrame) (st : Sending) a
    : Prop := {
  h_cursor : da_cursor a ≤ length (da_buffer a);
  h_bytes : drop (da_cursor a) (da_buffer a) = b;
  h_offset : da_base a + da_cursor a = o;
  h_end : da_base a + length (da_buffer a) = length (stream_bytes ss);
  h_follows : follows ss o (da_evidence a);
  h_len : Tracker.len (da_evidence a) ≤ length ss;
  h_frame : da_frame a = head_of <$> cur;
  h_message : speaks (match cur with Some f => opened f st | None => st end) (da_message a);
  h_known : known ss st;
  h_next : (da_next_message a + Z.of_nat n ≤ u64_max)%Z;
  h_limits : da_expected_masked a = mask ∧ da_max_frame a = max_frame ∧ da_max_message a = max_message ∧
    da_max_ranges a = max_ranges;
}.

Lemma evict_len o l : length (Tracker.evict_ranges o l) ≤ length l.
Proof.
  induction l as [|r l IH]; [done|]. cbn [Tracker.evict_ranges]. destruct (_ <=? _); [cbn; lia|]. by destruct (_ <? _).
Qed.
Lemma ids_behind_known ss start stop x : x ∈ ids_behind ss start stop → x ∈ (sg_segment_id <$> ss).
Proof.
  unfold ids_behind, segments_in. intros (s & -> & (r & -> & [_ Hr]%list_elem_of_filter)%list_elem_of_fmap)%list_elem_of_fmap.
  assert (∀ id off, r ∈ spans id off ss → sg_segment_id (er_segment r) ∈ (sg_segment_id <$> ss)) as H; [|by apply (H _ _ Hr)].
  clear Hr. induction ss as [|s ss IH]; intros id off; cbn [spans]; [intros Hx; by apply not_elem_of_nil in Hx|].
  rewrite fmap_cons. intros [-> |Hx]%elem_of_cons; [by left|]. right. by eapply IH.
Qed.
Lemma known_length ss ids :
  NoDup ids → (∀ x, x ∈ ids → x ∈ (sg_segment_id <$> ss)) → length ids ≤ length ss.
Proof.
  intros Hn H. rewrite <-(length_fmap sg_segment_id ss). apply submseteq_length, NoDup_submseteq; [done|]. done.
Qed.

Lemma open_step n segment ss o b f st a :
  holds (S n) ss o b None st a → fits mask max_frame max_message st f →
  ∃ out a', open_frame segment (head_of f) a = (Ok (), out, a') ∧ delivery <$> out = opening f ∧
    holds n ss o b (Some f) st a'.
Proof.
  intros [H1 H2 H3 H4 H5 H6 H7 H8 H9 H10 (L1 & L2 & L3 & L4)] [Fok Ff Fs Fo Fz Ft]. unfold open_frame.
  cbn [head_of fh_opcode fh_header_len fh_payload_len fh_compressed].
  assert ((da_max_frame a <? saturating_add_u64 (Z.of_nat (length (header f))) (Z.of_nat (length (ww_payload f))))%Z = false) as Hb.
  { apply Z.ltb_ge. rewrite length_encode in Ff. unfold saturating_add_u64. lia. }
  unfold opening. fold (starts f). destruct (starts f) eqn:Es.
  - specialize (Fs eq_refl) as ->. destruct (da_message a); [done|].
    rewrite (proj2 (checked_add_u64_Some _ _ (da_next_message a + 1)%Z)) by lia.
    set (h := message_head _ _ _ _). cbn [da_max_frame set_message]. rewrite Hb. do 2 eexists. split; [done|]. split; [done|].
    split; cbn; try done; [|lia]. unfold opened. rewrite Es. cbn [speaks]. splits; try done. constructor.
  - assert ((ww_opcode f =? 0)%Z && (bool_decide (da_message a = None) || false) = false) as ->.
    { destruct (Z.eqb_spec (ww_opcode f) 0) as [E0|]; [|done]. destruct (Fo ltac:(lia)) as [[[op bytes] ids] Hst].
      unfold opened in Hst. rewrite Es in Hst. subst st. destruct (da_message a); [|done]. by rewrite bool_decide_false. }
    rewrite Hb. do 2 eexists. split; [done|]. split; [done|].
    split; cbn; try done; [|lia]. unfold opened. by rewrite Es.
Qed.

Lemma take_wait n ss o b f st a :
  holds n ss o b (Some f) st a → length b < length (encode f) → take_frame (head_of f) a = (Ok None, [], a).
Proof.
  intros Hh Hl. unfold take_frame. cbn [head_of fh_header_len fh_payload_len]. rewrite length_encode in Hl.
  rewrite (proj2 (Z.ltb_lt _ _)); [done|]. rewrite <-length_drop, (h_bytes _ _ _ _ _ _ _ Hh). lia.
Qed.

(** The payload of a data frame joins the message. *)
Lemma append_step n ss o f rest st a op bytes ids :
  (Z.of_nat (length ss) ≤ max_ranges)%Z →
  holds n ss o (encode f ++ rest) (Some f) st a → fits mask max_frame max_message st f → (ww_opcode f < 8)%Z →
  opened f st = Some (op, bytes, ids) →
  let ids' := collect ids (ids_behind ss o (o + length (encode f))) in
  ∃ m, append_payload (head_of f) (length (encode f)) a = (Ok (), with_message (Some m) a) ∧
    speaks (Some (op, bytes ++ ww_payload f, ids')) (Some m) ∧ known ss (Some (op, bytes ++ ww_payload f, ids')).
Proof.
  intros Hr [H1 H2 H3 H4 H5 H6 H7 H8 H9 H10 (L1 & L2 & L3 & L4)] [Fok Ff Fs Fo Fz Ft] Hop Hst ids'.
  rewrite Hst in H8. destruct (da_message a) as [m0|] eqn:Em; [|done]. destruct H8 as (M1 & M2 & M3 & M4 & M5 & M6).
  assert (∀ x, x ∈ ids → x ∈ (sg_segment_id <$> ss)) as Hk0.
  { revert Hst. unfold opened. destruct (starts f); [intros [= _ _ <-] x Hx; by apply not_elem_of_nil in Hx|]. intros ->. done. }
  destruct (collect_spec ids (ids_behind ss o (o + length (encode f))) M6) as [Hnd Hel]. fold ids' in Hnd, Hel.
  assert (∀ x, x ∈ ids' → x ∈ (sg_segment_id <$> ss)) as Hk.
  { intros x [Hx|Hx]%Hel; [auto|]. by eapply ids_behind_known. }
  pose proof (known_length ss ids' Hnd Hk) as Hlen.
  assert (length (encode f) ≠ 0) as Hnz by (rewrite length_encode; pose proof (header_nonempty f); lia).
  assert (Tracker.for_range (da_base a + da_cursor a) (da_base a + da_cursor a + length (encode f)) (da_evidence a)
    = segments_in o (o + length (encode f)) (spans 0 0 ss)) as Efr.
  { rewrite H3. apply (follows_for_range _ _ _ _ _ H5); lia. }
  unfold append_payload, capture_evidence. rewrite Em, Efr.
  destruct (capture_collects (da_max_ranges a) (segments_in o (o + length (encode f)) (spans 0 0 ss)) m0 ids M4 M5 M6)
    as (m1 & -> & N1 & N2 & N3 & N4 & N5); [fold (ids_behind ss o (o + length (encode f))); fold ids'; lia|].
  cbn [da_message with_message set_message]. rewrite N3, M3. cbn [head_of fh_payload_len fh_header_len fh_mask].
  specialize (Fz op bytes ids Hst Hop). rewrite length_app in Fz.
  replace (da_max_message _) with max_message by done.
  rewrite (proj2 (Z.ltb_ge _ _)) by (unfold saturating_add_u64; lia).
  eexists. split; [reflexivity|]. split; [|done]. cbn [speaks wm_head wm_compressed wm_bytes wm_evidence wm_seen].
  splits; [congruence|congruence| |done|done|done]. f_equal.
  change (da_cursor _) with (da_cursor a). change (da_buffer _) with (da_buffer a).
  rewrite <-drop_drop, H2. unfold encode. rewrite <-app_assoc, drop_app_length.
  rewrite length_app, unmask_length. rewrite Nat.add_comm, Nat.add_sub.
  rewrite <-(unmask_length (ww_mask f) (ww_payload f)), take_app_length. apply unmask_involutive.
Qed.

(** The state of the wire after a frame. *)
Definition past (size : nat) a : DirectionAssembler :=
  set_wire (da_buffer a) (da_cursor a + size) (da_base a)
    (Tracker.evict_before (da_base a + (da_cursor a + size)) (da_evidence a)) None a.
Lemma past_holds n ss o f rest cur st st' m a :
  holds n ss o (encode f ++ rest) cur st a → speaks st' m → known ss st' →
  holds n ss (o + length (encode f)) rest None st' (with_message m (past (length (encode f)) a)).
Proof.
  intros [H1 H2 H3 H4 H5 H6 H7 H8 H9 H10 H11] Hs Hk.
  assert (da_cursor a + length (encode f) ≤ length (da_buffer a)) as Hc.
  { apply (f_equal length) in H2. rewrite length_drop, length_app in H2. pose proof (header_nonempty f).
    rewrite length_encode in *. lia. }
  split; cbn [da_buffer da_cursor da_base da_evidence da_frame da_message da_next_message da_expected_masked
    da_max_frame da_max_message da_max_ranges past with_message set_message set_wire]; try done; try lia.
  - by rewrite <-drop_drop, H2, drop_app_length.
  - replace (da_base a + (da_cursor a + length (encode f))) with (o + length (encode f)) by lia.
    eapply follows_evict; [done|lia].
  - unfold Tracker.len in *. cbn. etrans; [apply evict_len|done].
Qed.

Lemma take_step n ss o f rest st a :
  (Z.of_nat (length ss) ≤ max_ranges)%Z →
  holds n ss o (encode f ++ rest) (Some f) st a → fits mask max_frame max_message st f →
  ∃ out a', take_frame (head_of f) a = (Ok (Some false), out, a') ∧ delivery <$> out = (after ss o f st).2 ∧
    holds n ss (o + length (encode f)) rest None (after ss o f st).1 a'.
Proof.
  intros Hr Hh Hfit. pose proof Hh as [H1 H2 H3 H4 H5 H6 H7 H8 H9 H10 H11].
  assert (Z.of_nat (length (header f)) + Z.of_nat (length (ww_payload f)) = Z.of_nat (length (encode f)))%Z as Esz
    by (rewrite length_encode; lia).
  unfold take_frame. cbn [head_of fh_header_len fh_payload_len fh_opcode fh_fin]. rewrite Esz, Nat2Z.id.
  rewrite (proj2 (Z.ltb_ge _ _)) by (rewrite <-length_drop, H2, length_app; lia).
  assert ((ww_opcode f =? 8)%Z = false) as E8.
  { apply Z.eqb_neq. destruct Hfit as [[Hop _ _ _] _ _ _ _ _]. intros E. rewrite E in Hop. set_solver. }
  unfold after. destruct (Z.ltb_spec (ww_opcode f) 8) as [Hop|Hop].
  - rewrite (proj2 (Z.leb_gt _ _)) by done. destruct (fi_open _ _ _ _ _ Hfit Hop) as [[[op bytes] ids] Hst].
    rewrite Hst. destruct (append_step n ss o f rest st a op bytes ids Hr Hh Hfit Hop Hst) as (m & Ea & Hm & Hk).
    change (mkFrameHead (ww_fin f) false (ww_opcode f) (length (header f)) (Z.of_nat (length (ww_payload f))) (ww_mask f))
      with (head_of f). rewrite Ea. cbn [andb].
    match goal with |- context [finish_message ?x] => change x with (with_message (Some m) (past (length (encode f)) a)) end.
    destruct (ww_fin f) eqn:Efin.
    + unfold finish_message. cbn [da_message with_message set_message].
      destruct Hm as (M1 & M2 & M3 & M4 & M5 & M6). rewrite M2, M1, M3.
      assert ((op =? 1)%Z && negb (utf8_valid (bytes ++ ww_payload f)) = false) as ->.
      { destruct (Z.eqb_spec op 1) as [->|]; [|done]. by rewrite (fi_text _ _ _ _ _ Hfit bytes ids Hst Efin Hop). }
      cbn. rewrite E8. do 2 eexists. split; [done|]. split.
      * cbn. rewrite M1, M4. rewrite <-list_fmap_compose. do 3 f_equal. by apply list_fmap_id.
      * by apply (past_holds n ss o f rest (Some f) st None None a).
    + cbn [fmap result_fmap]. rewrite E8. do 2 eexists. split; [done|]. split; [done|].
      cbn [fst]. by apply (past_holds n ss o f rest (Some f) st _ (Some m) a).
  - rewrite (proj2 (Z.leb_le _ _)) by lia. cbn [andb fmap result_fmap]. rewrite E8. do 2 eexists. split; [done|]. split; [done|].
    cbn [fst]. assert (opened f st = st) as Eo.
    { unfold opened, starts. by rewrite (proj2 (Z.eqb_neq _ 1)), (proj2 (Z.eqb_neq _ 2)) by lia. }
    rewrite Eo in H8. pose proof (past_holds n ss o f rest (Some f) st st (da_message a) a Hh H8 H9) as Hp. exact Hp.
Qed.

(** The header of the frame at the cursor was not read yet. *)
Definition fresh (cur : option WireFrame) (n : nat) : nat := match cur with Some _ => n | None => S n end.
Definition pending (cur : option WireFrame) (f : WireFrame) : list Delivery :=
  match cur with Some _ => [] | None => opening f end.
Lemma advance_step n segment ss o f rest st cur a :
  (Z.of_nat (length ss) ≤ max_ranges)%Z → cur = None ∨ cur = Some f →
  holds (fresh cur n) ss o (encode f ++ rest) cur st a → fits mask max_frame max_message st f →
  ∃ out a', advance segment a = (Ok (Some false), out, a') ∧
    delivery <$> out = pending cur f ++ (after ss o f st).2 ∧
    holds n ss (o + length (encode f)) rest None (after ss o f st).1 a'.
Proof.
  intros Hr Hcur Hh Hfit. unfold advance. rewrite (h_frame _ _ _ _ _ _ _ Hh). destruct Hcur as [-> | ->]; cbn [fmap option_fmap option_map].
  - rewrite (h_bytes _ _ _ _ _ _ _ Hh). destruct (h_limits _ _ _ _ _ _ _ Hh) as (-> & _).
    assert (WsFrame.parse (encode f ++ rest) mask = Ok (Some (head_of f))) as ->.
    { rewrite (parse_prefix mask f rest _ [] (fi_ok _ _ _ _ _ Hfit)) by (by rewrite app_nil_r).
      by rewrite (proj2 (Nat.ltb_ge _ _)) by (rewrite length_app, length_encode; lia). }
    destruct (open_step n segment ss o _ f st a Hh Hfit) as (out & a1 & -> & Eo & Hh1).
    destruct (take_step n ss o f rest st a1 Hr Hh1 Hfit) as (out2 & a2 & -> & Eo2 & Hh2).
    do 2 eexists. split; [done|]. split; [|done]. by rewrite fmap_app, Eo, Eo2.
  - destruct (take_step n ss o f rest st a Hr Hh Hfit) as (out2 & a2 & -> & Eo2 & Hh2).
    do 2 eexists. split; [done|]. by split.
Qed.

(** The frame whose header was read, given the bytes of the next frame. *)
Definition reading (f : WireFrame) (b : list byte) : option WireFrame :=
  if length (header f) <=? length b then Some f else None.

Lemma advance_wait n segment ss o f b st cur a :
  begins encode f b → cur = None ∨ cur = Some f ∧ length (header f) ≤ length b →
  holds (fresh cur n) ss o b cur st a → fits mask max_frame max_message st f →
  ∃ out a', advance segment a = (Ok None, out, a') ∧
    (delivery <$> out) ++ pending (reading f b) f = pending cur f ∧
    holds (fresh (reading f b) n) ss o b (reading f b) st a'.
Proof.
  intros (q & E & Hq) Hcur Hh Hfit.
  assert (length b < length (encode f)) as Hlt by (rewrite E, length_app; destruct q; [done|cbn; lia]).
  unfold advance, reading. rewrite (h_frame _ _ _ _ _ _ _ Hh).
  destruct Hcur as [-> | [-> Hhead]]; cbn [fmap option_fmap option_map].
  - rewrite (h_bytes _ _ _ _ _ _ _ Hh). destruct (h_limits _ _ _ _ _ _ _ Hh) as (-> & _).
    rewrite (parse_prefix mask f [] b q (fi_ok _ _ _ _ _ Hfit)) by (by rewrite app_nil_r).
    destruct (Nat.ltb_spec (length b) (length (header f))) as [H|H].
    + rewrite (proj2 (Nat.leb_gt _ _)) by lia. do 2 eexists. splits; [done|done|done].
    + rewrite (proj2 (Nat.leb_le _ _)) by lia.
      destruct (open_step n segment ss o _ f st a Hh Hfit) as (out & a1 & -> & Eo & Hh1).
      rewrite (take_wait n ss o b f st a1 Hh1 Hlt). do 2 eexists. splits; [done| |done].
      cbn [pending]. by rewrite !app_nil_r.
  - rewrite (proj2 (Nat.leb_le _ _)) by lia. rewrite (take_wait n ss o b f st a Hh Hlt). do 2 eexists.
    splits; [done|done|done].
Qed.

(** Later segments do not matter for frames that are there. *)
Lemma ids_behind_more ss more start stop :
  stop ≤ length (stream_bytes ss) → ids_behind (ss ++ more) start stop = ids_behind ss start stop.
Proof.
  intros H. unfold ids_behind. f_equal. induction more as [|s more IH] using rev_ind; [by rewrite app_nil_r|].
  rewrite app_assoc, segments_in_later; [done|]. rewrite stream_bytes_app, length_app. lia.
Qed.
Lemma after_more ss more o f st :
  o + length (encode f) ≤ length (stream_bytes ss) → after (ss ++ more) o f st = after ss o f st.
Proof. intros H. unfold after. by rewrite ids_behind_more. Qed.

(** A sequence of frames that fits, from an offset on. *)
Fixpoint conversation (all : list PayloadSegment) (o : nat) (st : Sending) (fs : list WireFrame) : Prop :=
  match fs with
  | [] => True
  | f :: fs' =>
      fits mask max_frame max_message st f ∧
      conversation all (o + length (encode f)) (after all o f st).1 fs'
  end.
Lemma encode_all_cons f fs : encode_all (f :: fs) = encode f ++ encode_all fs.
Proof. done. Qed.

Lemma loop_delivers fuel n segment ss more js f0 b o st cur a out :
  (Z.of_nat (length ss) ≤ max_ranges)%Z → begins encode f0 b →
  (cur = None ∨ ∃ f, head (js ++ [f0]) = Some f ∧ cur = Some f ∧ length (header f) ≤ length (encode_all js ++ b)) →
  holds (fresh cur (n + length js)) ss o (encode_all js ++ b) cur st a →
  conversation (ss ++ more) o st (js ++ [f0]) → length js < fuel →
  ∃ es a', push_loop fuel segment out a = Some (mkDirectionObservation (out ++ es) false false, a') ∧
    (match cur, head (js ++ [f0]) with Some _, Some f => opening f | _, _ => [] end) ++ (delivery <$> es)
      ++ pending (reading f0 b) f0 = deliveries (ss ++ more) o st js ++ opening f0 ∧
    holds (fresh (reading f0 b) n) ss (o + length (encode_all js)) b (reading f0 b) (sending (ss ++ more) o st js) a'.
Proof.
  intros Hr Hb. revert o st cur a out fuel. induction js as [|f js IH]; intros o st cur a out fuel Hcur Hh Hcon Hfuel.
  - cbn [app] in *. change (encode_all []) with (@nil byte) in *. cbn [app length] in *. rewrite Nat.add_0_r in *.
    destruct fuel as [|fuel]; [lia|]. cbn [push_loop].
    destruct (advance_wait n segment ss o f0 b st cur a Hb) as (es & a1 & -> & Ed & Hh1); [|done|apply Hcon|].
    { destruct Hcur as [-> |(f & [= <-] & -> & H)]; [by left|by right]. }
    exists es, a1. splits; [done| |done]. rewrite Ed. cbn [head deliveries app].
    destruct Hcur as [-> |(f & [= <-] & -> & H)]; [done|]. cbn. by rewrite app_nil_r.
  - destruct fuel as [|fuel]; [cbn in Hfuel; lia|]. cbn [app] in *. rewrite encode_all_cons, <-app_assoc in *.
    destruct Hcon as [Hfit Hcon]. cbn [length] in *. rewrite Nat.add_succ_r in Hh.
    assert (o + length (encode f) ≤ length (stream_bytes ss)) as Hin.
    { rewrite <-(h_end _ _ _ _ _ _ _ Hh), <-(h_offset _ _ _ _ _ _ _ Hh).
      pose proof (f_equal length (h_bytes _ _ _ _ _ _ _ Hh)) as Hl. rewrite length_drop, !length_app in Hl.
      pose proof (h_cursor _ _ _ _ _ _ _ Hh). lia. }
    destruct (advance_step (S (n + length js)) segment ss o f (encode_all js ++ b) st cur a Hr) as (es & a1 & Ea & Ed & Hh1); [|done|done|].
    { destruct Hcur as [-> |(f' & [= <-] & -> & H)]; auto. }
    rewrite <-(after_more ss more o f st Hin) in Ed, Hh1.
    cbn [push_loop]. rewrite Ea.
    destruct (IH (o + length (encode f)) (after (ss ++ more) o f st).1 None a1 (out ++ es) fuel) as (es2 & a2 & E2 & Ed2 & Hh2);
      [by left|done|done|cbn in Hfuel; lia|].
    exists (es ++ es2), a2. rewrite E2, app_assoc, length_app, Nat.add_assoc. splits; [done| |done].
    cbn [head deliveries]. rewrite (surjective_pairing (after (ss ++ more) o f st)). cbn [app] in Ed2.
    rewrite fmap_app, Ed, <-!app_assoc, Ed2.
    destruct Hcur as [-> |(f' & [= <-] & -> & H)]; cbn [pending app]; done.
Qed.

(** The start of a frame's message, once its header was read. *)
Definition announced (f : WireFrame) (b : list byte) : list Delivery :=
  match reading f b with Some _ => opening f | None => [] end.
Lemma announced_pending f b : opening f = announced f b ++ pending (reading f b) f.
Proof. unfold announced, reading. destruct (_ <=? _); cbn; [by rewrite app_nil_r|done]. Qed.

Lemma known_more ss s st : known ss st → known (ss ++ [s]) st.
Proof.
  destruct st as [[[op bytes] ids]|]; [|done]. cbn. intros H x Hx. rewrite fmap_app, elem_of_app. left. auto.
Qed.
Lemma append_holds n s ss o b cur st a :
  holds n ss o b cur st a →
  holds n (ss ++ [s]) o (b ++ sg_bytes s) cur st
    (set_wire (da_buffer a ++ sg_bytes s) (da_cursor a) (da_base a)
       (Tracker.append (da_base a + length (da_buffer a)) (da_base a + length (da_buffer a) + length (sg_bytes s)) s
          (da_evidence a)) (da_frame a) a).
Proof.
  intros [H1 H2 H3 H4 H5 H6 H7 H8 H9 H10 H11].
  split; cbn [da_buffer da_cursor da_base da_evidence da_frame da_message da_next_message da_expected_masked
    da_max_frame da_max_message da_max_ranges set_wire]; try done.
  - rewrite length_app. lia.
  - by rewrite drop_app_le, H2.
  - rewrite stream_bytes_snoc, !length_app. lia.
  - rewrite H4. by apply follows_append.
  - unfold Tracker.len in *. cbn. rewrite !length_app. cbn. lia.
  - by apply known_more.
Qed.
Lemma compact_holds n ss o b cur st a : holds n ss o b cur st a → holds n ss o b cur st (compact a).
Proof.
  intros [H1 H2 H3 H4 H5 H6 H7 H8 H9 H10 H11]. unfold compact.
  destruct (Nat.eqb_spec (da_cursor a) (length (da_buffer a))) as [E|E].
  - split; cbn; try done; try lia. by rewrite <-H2, E, drop_ge.
  - destruct (_ && _); [|by split]. split; cbn; try done; try lia. by rewrite length_drop; lia.
Qed.
Lemma frames_length fs : length fs ≤ length (encode_all fs).
Proof.
  induction fs as [|f fs IH]; [done|]. rewrite encode_all_cons, length_app, length_encode. pose proof (header_nonempty f).
  cbn. lia.
Qed.

Lemma push_delivers n s ss more js f0 f b b' o st a :
  (Z.of_nat (length (ss ++ [s])) ≤ max_ranges)%Z → begins encode f0 b' →
  b ++ sg_bytes s = encode_all js ++ b' → head (js ++ [f0]) = Some f →
  (Z.of_nat (length b + length (sg_bytes s)) ≤ max_frame)%Z →
  holds (fresh (reading f b) (n + length js)) ss o b (reading f b) st a →
  conversation ((ss ++ [s]) ++ more) o st (js ++ [f0]) →
  ∃ es a', push s a = Some (mkDirectionObservation es false false, a') ∧
    announced f b ++ (delivery <$> es) = deliveries ((ss ++ [s]) ++ more) o st js ++ announced f0 b' ∧
    holds (fresh (reading f0 b') n) (ss ++ [s]) (o + length (encode_all js)) b' (reading f0 b')
      (sending ((ss ++ [s]) ++ more) o st js) a'.
Proof.
  intros Hr Hb E Hf Hcap Hh Hcon. unfold push.
  destruct (h_limits _ _ _ _ _ _ _ Hh) as (_ & -> & _ & ->).
  rewrite <-length_drop, (h_bytes _ _ _ _ _ _ _ Hh).
  rewrite (proj2 (Z.ltb_ge _ _)) by (unfold saturating_add_u64; lia).
  pose proof (h_len _ _ _ _ _ _ _ Hh) as Hlen. rewrite length_app in Hr. cbn in Hr.
  rewrite (proj2 (Z.leb_gt _ _)) by lia. cbn [orb]. cbv zeta.
  apply append_holds with (s := s) in Hh. rewrite E in Hh.
  match type of Hh with holds _ _ _ _ _ _ ?x => set (a1 := x) in * end.
  destruct (loop_delivers (S (length (da_buffer a1))) n s (ss ++ [s]) more js f0 b' o st (reading f b) a1 [])
    as (es & a2 & El & Ed & Hh2); [rewrite length_app; cbn; lia|done| |done|done| |].
  { unfold reading. destruct (Nat.leb_spec (length (header f)) (length b)) as [Hle|Hle]; [|by left].
    right. exists f. splits; [done|done|]. rewrite <-E, length_app. lia. }
  { pose proof (frames_length js) as Hjs. pose proof (f_equal length (h_bytes _ _ _ _ _ _ _ Hh)) as Hl.
    rewrite length_drop, length_app in Hl. lia. }
  rewrite El. cbn [mbind option_bind app]. exists es, (compact a2). splits; [done| |by apply compact_holds].
  rewrite Hf, (announced_pending f0 b') in Ed. rewrite !app_assoc in Ed. apply app_inv_tail in Ed. exact Ed.
Qed.

Lemma conversation_app all fs gs o st :
  conversation all o st (fs ++ gs) →
  conversation all o st fs ∧ conversation all (o + length (encode_all fs)) (sending all o st fs) gs.
Proof.
  revert o st. induction fs as [|g fs IH]; intros o st; cbn [app conversation sending].
  - change (encode_all []) with (@nil byte). cbn. by rewrite Nat.add_0_r.
  - intros [H1 H2]. destruct (IH _ _ H2) as [H3 H4]. rewrite encode_all_cons, length_app, Nat.add_assoc. auto.
Qed.
Lemma deliveries_app all fs gs o st :
  deliveries all o st (fs ++ gs) =
  deliveries all o st fs ++ deliveries all (o + length (encode_all fs)) (sending all o st fs) gs.
Proof.
  revert o st. induction fs as [|g fs IH]; intros o st; cbn [app deliveries sending].
  - change (encode_all []) with (@nil byte). cbn. by rewrite Nat.add_0_r.
  - rewrite (surjective_pairing (after _ o g st)). rewrite IH, encode_all_cons, length_app, Nat.add_assoc, <-!app_assoc. done.
Qed.

Lemma pushes_deliver ss2 n ss1 todo last_ tail f b o st a :
  begins encode last_ tail → head (todo ++ [last_]) = Some f → begins encode f b →
  b ++ stream_bytes ss2 = encode_all todo ++ tail → conversation (ss1 ++ ss2) o st (todo ++ [last_]) →
  (Z.of_nat (length (ss1 ++ ss2)) ≤ max_ranges)%Z →
  (∀ g s, g ∈ todo ++ [last_] → s ∈ ss2 → (Z.of_nat (length (encode g) + length (sg_bytes s)) ≤ max_frame)%Z) →
  holds (fresh (reading f b) (n + length todo)) ss1 o b (reading f b) st a →
  ∃ os a', WsFacts.pushes ss2 a = Some (os, a') ∧
    Forall (λ x, do_failed x = false ∧ do_closed x = false) os ∧
    announced f b ++ (delivery <$> mjoin (do_events <$> os)) =
      deliveries (ss1 ++ ss2) o st todo ++ announced last_ tail.
Proof.
  intros Hl. revert n ss1 todo f b o st a. induction ss2 as [|s ss2 IH]; intros n ss1 todo f b o st a Hf Hb E Hcon Hr Hcap Hh.
  - change (stream_bytes []) with (@nil byte) in E. rewrite app_nil_r in E. exists [], a. splits; [done|constructor|].
    destruct todo as [|g todo].
    + cbn in Hf. injection Hf as <-. cbn [app] in E. change (encode_all []) with (@nil byte) in E. cbn in E. subst b.
      cbn. by rewrite app_nil_r.
    + exfalso. cbn in Hf. injection Hf as <-. destruct Hb as (r & Er & Hr'). rewrite encode_all_cons in E. subst b.
      apply (f_equal length) in Er. rewrite !length_app in Er. destruct r; [done|]. cbn in Er. lia.
  - change (stream_bytes (s :: ss2)) with (sg_bytes s ++ stream_bytes ss2) in E. rewrite app_assoc in E.
    destruct (prefix_splits encode todo last_ tail _ _ Hl E) as (js & ks & b' & -> & Eb & Hb' & E').
    set (f0 := default last_ (head ks)) in *.
    assert (head (ks ++ [last_]) = Some f0) as Hf0 by (by destruct ks).
    assert (∃ rest, (js ++ ks) ++ [last_] = (js ++ [f0]) ++ rest) as [rest Hrest].
    { destruct ks as [|k ks]; [exists []; by rewrite !app_nil_r|]. exists (ks ++ [last_]). cbn. by rewrite <-!app_assoc. }
    assert (head (js ++ [f0]) = Some f) as Hf1.
    { rewrite Hrest in Hf. by destruct js. }
    assert (ss1 ++ s :: ss2 = (ss1 ++ [s]) ++ ss2) as Ess by (by rewrite <-app_assoc).
    assert (f ∈ (js ++ ks) ++ [last_]) as Hfin.
    { destruct (js ++ ks) as [|x l]; cbn in Hf; injection Hf as ->; by left. }
    destruct (push_delivers (n + length ks) s ss1 ss2 js f0 f b b' o st a) as (es & a1 & Ep & Ed & Hh1); try done.
    { rewrite Ess, length_app in Hr. lia. }
    { specialize (Hcap f s Hfin ltac:(by left)). destruct Hb as (r & Er & _). rewrite Er, length_app in Hcap. lia. }
    { rewrite length_app in Hh. replace (n + length ks + length js) with (n + (length js + length ks)) by lia. done. }
    { rewrite <-Ess. apply (conversation_app _ (js ++ [f0]) rest). by rewrite <-Hrest. }
    rewrite <-Ess in Hh1, Ed.
    destruct (IH n (ss1 ++ [s]) ks f0 b' (o + length (encode_all js)) (sending (ss1 ++ s :: ss2) o st js) a1 Hf0 Hb' E') as (os & a2 & Eps & Hos & Edd).
    { rewrite <-Ess. rewrite <-app_assoc in Hcon. apply (conversation_app _ js (ks ++ [last_])). exact Hcon. }
    { by rewrite <-Ess. }
    { intros g s' Hg Hs'. apply Hcap; [|by right]. rewrite <-app_assoc. apply elem_of_app. by right. }
    { exact Hh1. }
    exists (mkDirectionObservation es false false :: os), a2. cbn [WsFacts.pushes]. rewrite Ep. cbn [mbind option_bind].
    rewrite Eps. cbn [mbind option_bind]. splits; [done|by constructor|].
    rewrite fmap_cons, mjoin_cons, fmap_app, app_assoc. cbn [do_events]. rewrite Ed. rewrite <-app_assoc, Edd, <-Ess.
    by rewrite deliveries_app, <-app_assoc.
Qed.
End assembler.


(** ** Example *)

#[local] Instance no_inflate : Inflate := {|
  Inflater := unit;
  inflater_new := tt;
  inflater_reset i := i;
  decompress i _ _ := (Err (), i);
|}.
#[local] Instance no_inflate_bounds : InflateBounds no_inflate.
Proof. split. done. Qed.
Definition limits0 : WsLimits := mkWsLimits 1000 1000 1000 10 16 4.
Definition key0 : option (list byte) := Some [Byte.x01; Byte.x02; Byte.x03; Byte.x04].
Definition frames0 : list WireFrame :=
  [mkWsWire false 1 key0 (string_bytes "he"); mkWsWire true 9 key0 (string_bytes "ping");
   mkWsWire true 0 key0 (string_bytes "llo")].
Definition last0 : WireFrame := mkWsWire true 2 key0 (string_bytes "rest").
Definition segments0 : list PayloadSegment :=
  let bytes := encode_all frames0 ++ take 6 (encode last0) in
  [segment0 1 (take 7 bytes); segment0 2 (take 13 (drop 7 bytes)); segment0 3 (drop 20 bytes)].

Example deliveries0 :
  deliveries segments0 0 None frames0 ++ announced last0 (take 6 (encode last0)) =
  [DStart 1; DComplete 1 (string_bytes "hello") [1; 2; 3]%Z; DStart 2].
Proof. vm_compute. reflexivity. Qed.

(** the frames above, then a reserved opcode. *)
Lemma websocket_lifecycle_witness :
  let ss := segments0 ++ [segment0 4 (string_bytes "restXXXXXXX")] in
  ∃ os a, WsFacts.pushes ss (new "c" "/p" true true false limits0) = Some (os, a) ∧
    let es := mjoin (do_events <$> os) in
    WsFacts.lifecycle None es (WsFacts.open_head a) ∧
    WsFacts.started es = WsFacts.numbered (da_prefix a) 0 (da_next_message a) ∧ NoDup (WsFacts.started es) ∧
    ∀ o, last os = Some o → do_failed o || do_closed o = true → WsFacts.lifecycle None es None.
Proof. apply WsFacts.websocket_lifecycle. vm_compute. discriminate. Defined.

Ltac decide_by_computation := apply (bool_decide_unpack _); vm_compute; exact I.
Ltac fits_by_computation :=
  split; [split; [decide_by_computation|decide_by_computation|vm_compute; done|decide_by_computation]
    |decide_by_computation|vm_compute; done|decide_by_computation
    |intros ? ? ?; vm_compute; intros [= <- <- <-] _; discriminate
    |intros ? ?; vm_compute; intros [= <- <-]; done].

End WsRoundtrip.
