(* ===== verification/WsTransport.v ===== *)
(** WebSocket connections of captured streams: negotiation, the two directions, and the
    table of connections.
    crates/core/semantic_action_runtime/src/llm_pipeline/transport/websocket/handshake.rs,
    connection.rs and adapter.rs.

    SHA-1 and base64 (third-party crates) are a type class. *)
From stdpp Require Import prelude strings gmap pretty.
From Stdlib Require Import ZArith Lia.
From coqutil Require Import Byte.
From S2P Require Import Prelude Bytes ProcessIdentity Model PolicyPath CommandText Utf8 Scan Http1 Payload Evidence WebSocket.

Open Scope nat_scope.

(** [STANDARD.encode(Sha1::digest(bytes))]. *)
Class AcceptDigest : Type := { accept_digest : list byte → string }.

Record NegotiatedExtensions := mkExtensions {
  ne_permessage_deflate : bool;
  ne_client_no_context_takeover : bool;
  ne_server_no_context_takeover : bool;
}.

Module WsHandshake.
Definition WEBSOCKET_ACCEPT_GUID : string := "258EAFA5-E914-47DA-95CA-C5AB0DC85B11".
(** [haystack.contains(needle)]. *)
Definition str_contains (needle haystack : string) : bool := bool_decide (is_Some (split_once needle haystack)).
Definition starts_with (prefix s : string) : bool := bool_decide (is_Some (strip_prefix prefix s)).

(** The loop of [has_upgrade_headers]: the flags after a line. *)
Definition upgrade_line (flags : bool * bool) (line : string) : bool * bool :=
  match split_once ":" line with
  | None => flags
  | Some (name, value) =>
      (flags.1 || (H1.eq_ignore_ascii_case (trim name) "upgrade" && H1.eq_ignore_ascii_case (trim value) "websocket"),
       flags.2 || (H1.eq_ignore_ascii_case (trim name) "connection"
                   && existsb (λ token, H1.eq_ignore_ascii_case (trim token) "upgrade") (H1.split_str "," value)))
  end.
Definition has_upgrade_headers (ls : list string) : bool :=
  let '(upgrade, connection) := foldl upgrade_line (false, false) ls in upgrade && connection.
Fixpoint header_value (ls : list string) (expected : string) : option string :=
  match ls with
  | [] => None
  | line :: ls' =>
      match split_once ":" line with
      | Some (name, value) =>
          if H1.eq_ignore_ascii_case (trim name) expected then Some (trim value) else header_value ls' expected
      | None => header_value ls' expected
      end
  end.

Definition request `{AcceptDigest} (head : Http1MessageHead) : option (string * string) :=
  if negb (bool_decide (mh_method head = Some "GET")) || negb (has_upgrade_headers (lines (mh_headers_text head)))
  then None
  else
    key ← header_value (lines (mh_headers_text head)) "sec-websocket-key";
    path ← mh_path head;
    Some (path, accept_digest (string_bytes (key +:+ WEBSOCKET_ACCEPT_GUID))).
Definition accepted (head : Http1MessageHead) : option (string * NegotiatedExtensions) :=
  if negb (bool_decide (mh_status_code head = Some "101")) || negb (has_upgrade_headers (lines (mh_headers_text head)))
  then None
  else
    value ← header_value (lines (mh_headers_text head)) "sec-websocket-accept";
    let lower := H1.to_ascii_lowercase
                   (default EmptyString (header_value (lines (mh_headers_text head)) "sec-websocket-extensions")) in
    Some (value, mkExtensions
      (existsb (λ v, starts_with "permessage-deflate" (trim v)) (H1.split_str "," lower))
      (str_contains "client_no_context_takeover" lower)
      (str_contains "server_no_context_takeover" lower)).
End WsHandshake.

(** * The two directions *)

Record WebSocketConnection `{I : Inflate} := mkConnection {
  wc_outbound : DirectionAssembler;
  wc_inbound : DirectionAssembler;
}.

Module WsConnection.
Section connection.
Context {I : Inflate}.

Definition new (id path : string) (ext : NegotiatedExtensions) (limits : WsLimits) : WebSocketConnection :=
  mkConnection I
    (Ws.new id path true (ne_permessage_deflate ext) (ne_client_no_context_takeover ext) limits)
    (Ws.new id path false (ne_permessage_deflate ext) (ne_server_no_context_takeover ext) limits).
Definition observe (segment : PayloadSegment) (c : WebSocketConnection)
    : option (DirectionObservation * WebSocketConnection) :=
  match sg_direction segment with
  | Outbound => '(o, a) ← Ws.push segment (wc_outbound c); Some (o, mkConnection I a (wc_inbound c))
  | Inbound => '(o, a) ← Ws.push segment (wc_inbound c); Some (o, mkConnection I (wc_outbound c) a)
  end.
Definition abort (reason : WebSocketAbortReason) (c : WebSocketConnection)
    : list WebSocketMessageEvent * WebSocketConnection :=
  let '(e1, a1) := Ws.abort reason (wc_outbound c) in
  let '(e2, a2) := Ws.abort reason (wc_inbound c) in
  (option_list e1 ++ option_list e2, mkConnection I a1 a2).
End connection.
End WsConnection.

(** * The table of connections *)

Record Offer := mkOffer { of_request_id : string; of_path : string; of_expected_accept : string }.
Inductive ConnectionState `{I : Inflate} :=
| Offered (offer : Offer)
| Open (connection : WebSocketConnection).
Record WebSocketObservation := mkWsObservation {
  wo_events : list WebSocketMessageEvent;
  wo_stopped : option WebSocketAbortReason;
}.
(** [WebSocketConnectionKey] wraps a stream identity; its order. *)
Definition boundary_u8 (b : PayloadSourceBoundary) : Z := match b with TlsUserSpace => 0 | Syscall => 1 | Stdio => 2 end.
Definition key_tuple (k : PayloadStreamIdentity) : Z * (Z * (Z * string)) :=
  (si_trace_id k, (si_process k, (boundary_u8 (si_source_boundary k), si_stream_key k))).
#[export] Instance key_tuple_inj : Inj (=) (=) key_tuple.
Proof. intros [t p b s] [t' p' b' s']. unfold key_tuple. cbn. intros [= -> -> Hb ->]. by destruct b, b'. Qed.
#[export] Instance key_bord : BOrd PayloadStreamIdentity := via_bord key_tuple.

Record WebSocketTransport `{I : Inflate} := mkTransport {
  wt_connections : gmap PayloadStreamIdentity ConnectionState;
  wt_max_connections : Z;
}.

Module WsTransport.
Section transport.
Context {I : Inflate} {AD : AcceptDigest}.
Implicit Types t : WebSocketTransport.

Definition new (limits : WsLimits) : WebSocketTransport := mkTransport I ∅ (wl_max_active_connections limits).
Definition set_connections (m : gmap PayloadStreamIdentity ConnectionState) t : WebSocketTransport :=
  mkTransport I m (wt_max_connections t).
Definition identity (head : Http1MessageHead) : PayloadStreamIdentity :=
  mkStreamIdentity (ms_trace_id (mh_source head)) (ms_process (mh_source head))
    (ms_source_boundary (mh_source head)) (ms_stream_key (mh_source head)).

Definition observe_head (head : Http1MessageHead) t : WebSocketTransport :=
  match ms_direction (mh_source head) with
  | Inbound => t
  | Outbound =>
      match WsHandshake.request head with
      | None => t
      | Some (path, expected_accept) =>
          let key := identity head in
          if bool_decide (is_Some (wt_connections t !! key)) then t
          else if (wt_max_connections t <=? Z.of_nat (size (wt_connections t)))%Z then t
          else set_connections (<[key := Offered (mkOffer (mh_message_id head) path expected_accept)]>
                                  (wt_connections t)) t
      end
  end.
Definition upgrade (head : Http1MessageHead) (request_id : option string) (limits : WsLimits) t
    : bool * WebSocketTransport :=
  let key := identity head in
  let removed := set_connections (delete key (wt_connections t)) t in
  match wt_connections t !! key with
  | Some (Offered offer) =>
      match WsHandshake.accepted head with
      | None => (false, removed)
      | Some (accept, ext) =>
          if negb (bool_decide (request_id = Some (of_request_id offer)))
             || negb (bool_decide (accept = of_expected_accept offer))
          then (false, removed)
          else (true, set_connections
                  (<[key := Open (WsConnection.new (of_request_id offer +:+ ":websocket") (of_path offer) ext limits)]>
                     (delete key (wt_connections t))) t)
      end
  | _ => (false, removed)
  end.
Definition observe_response (head : Http1MessageHead) (request_id : option string) t : WebSocketTransport :=
  match mh_status_code head ≫= H1.parse_u16 with
  | None => t
  | Some status =>
      if (status <? 200)%Z then t
      else
        let key := identity head in
        match wt_connections t !! key with
        | Some (Offered offer) =>
            if bool_decide (request_id = Some (of_request_id offer))
            then set_connections (delete key (wt_connections t)) t else t
        | _ => t
        end
  end.
Definition abort_identity (key : PayloadStreamIdentity) (reason : WebSocketAbortReason) t
    : list WebSocketMessageEvent * WebSocketTransport :=
  (match wt_connections t !! key with
   | Some (Open connection) => (WsConnection.abort reason connection).1
   | _ => []
   end, set_connections (delete key (wt_connections t)) t).

(** The last abort reported, or a decode failure. *)
Definition failure_reason (events : list WebSocketMessageEvent) : WebSocketAbortReason :=
  default WsDecodeFailure
    (head (omap (λ e, match e with WsAbort _ _ _ reason => Some reason | _ => None end) (reverse events))).
Definition stop_reason (segment : PayloadSegment) (o : DirectionObservation) : option WebSocketAbortReason :=
  match Segment.operation_capture_state segment with
  | Some CapIncomplete => Some WsCaptureIncomplete
  | Some CapPolicyLimited => Some WsCapturePolicyLimited
  | _ =>
      if do_failed o then Some (failure_reason (do_events o))
      else if do_closed o then Some WsPeerClosed else None
  end.
(** [observe]; [None] is exhausted fuel. *)
Definition observe (segment : PayloadSegment) t : option (WebSocketObservation * WebSocketTransport) :=
  let key := from_segment segment in
  match wt_connections t !! key with
  | Some (Open connection) =>
      '(o, connection) ← WsConnection.observe segment connection;
      let t1 := set_connections (<[key := Open connection]> (wt_connections t)) t in
      match stop_reason segment o with
      | Some reason =>
          let '(events, t2) := abort_identity key reason t1 in
          Some (mkWsObservation (do_events o ++ events) (Some reason), t2)
      | None => Some (mkWsObservation (do_events o) None, t1)
      end
  | _ => Some (mkWsObservation [] None, t)
  end.

Definition identities (trace_id : TraceId) t : list PayloadStreamIdentity :=
  filter (λ k, si_trace_id k = trace_id) (bt_keys (wt_connections t)).
Definition forget_identity (key : PayloadStreamIdentity) t : WebSocketTransport :=
  set_connections (delete key (wt_connections t)) t.
Definition forget_trace (trace_id : TraceId) t : WebSocketTransport :=
  set_connections (filter (λ p, si_trace_id p.1 ≠ trace_id) (wt_connections t)) t.
End transport.
End WsTransport.

(** * Directions of heads *)

Module WsTransportFacts.
Import WsFacts.

Definition event_head (e : WebSocketMessageEvent) : WebSocketMessageHead :=
  match e with WsStart h | WsComplete h _ _ _ | WsAbort h _ _ _ => h end.
Definition towards (d : PayloadDirection) (e : WebSocketMessageEvent) : Prop := wh_direction (event_head e) = d.
#[export] Instance towards_dec d e : Decision (towards d e).
Proof. unfold towards. apply _. Defined.
Definition starts_towards (d : PayloadDirection) (e : WebSocketMessageEvent) : Prop :=
  match e with WsStart h => wh_direction h = d | _ => True end.

(** Only started heads come back. *)
Lemma lifecycle_towards d o es p :
  lifecycle o es p → (∀ h, o = Some h → wh_direction h = d) → Forall (starts_towards d) es →
  Forall (towards d) es ∧ (∀ h, p = Some h → wh_direction h = d).
Proof.
  induction 1 as [o|h es o Hl IH|h bytes ev at_ es o Hl IH|h ev at_ reason es o Hl IH]; intros Ho Hs.
  - split; [constructor|done].
  - apply Forall_cons in Hs as [Hh Hs]. destruct IH as [H1 H2]; [by intros ? [= <-]|done|]. split; [by constructor|done].
  - apply Forall_cons in Hs as [_ Hs]. destruct IH as [H1 H2]; [done|done|]. split; [|done]. constructor; [|done]. by apply Ho.
  - apply Forall_cons in Hs as [_ Hs]. destruct IH as [H1 H2]; [done|done|]. split; [|done]. constructor; [|done]. by apply Ho.
Qed.

Section directions.
Context {I : Inflate} (d : PayloadDirection).
Implicit Types a b : DirectionAssembler.

Definition ranges_towards (t : EvidenceTracker) : Prop := Forall (λ r, sg_direction (er_segment r) = d) (et_ranges t).
Record directed a : Prop := {
  di_ranges : ranges_towards (da_evidence a);
  di_open h : open_head a = Some h → wh_direction h = d;
}.

Lemma evict_towards o t : ranges_towards t → ranges_towards (Tracker.evict_before o t).
Proof.
  unfold ranges_towards. cbn. induction 1 as [|r l Hr Hl IH]; [constructor|]. cbn [Tracker.evict_ranges].
  destruct (_ <=? _); [done|]. by constructor; [destruct (_ <? _)|].
Qed.
Lemma for_range_towards start stop t s : ranges_towards t → s ∈ Tracker.for_range start stop t → sg_direction s = d.
Proof.
  unfold ranges_towards, Tracker.for_range. intros Ht (r & -> & Hr)%list_elem_of_fmap.
  apply (proj1 (Forall_forall _ _) Ht).
  assert (∀ p l, r ∈ Tracker.take_while p l → r ∈ l) as Htw.
  { intros p l. induction l as [|x l IH]; cbn; [done|]. destruct (p x); [|intros H; by apply not_elem_of_nil in H].
    intros [-> |H%IH]%elem_of_cons; [by left|by right]. }
  apply Htw in Hr. apply list_elem_of_lookup in Hr as [i Hi]. rewrite lookup_drop in Hi. by eapply list_elem_of_lookup_2.
Qed.

Lemma open_towards segment frame a r out b :
  Ws.open_frame segment frame a = (r, out, b) → ranges_towards (da_evidence a) → sg_direction segment = d →
  Forall (starts_towards d) out.
Proof.
  intros E Ht Hs.
  assert (∀ n, wh_direction (Ws.message_head segment frame n a) = d) as Hh.
  { intros n. cbn. destruct (head _) as [s|] eqn:Eh; [|done]. cbn.
    destruct (Tracker.for_range _ _ _) as [|x l] eqn:Ef; [done|]. injection Eh as ->.
    eapply for_range_towards; [done|]. rewrite Ef. by left. }
  revert E. unfold Ws.open_frame. repeat case_match; intros [= <- <- <-]; repeat constructor; apply Hh.
Qed.
Lemma finish_towards a r out b : Ws.finish_message a = (r, out, b) → Forall (starts_towards d) out.
Proof. unfold Ws.finish_message. repeat case_match; intros [= <- <- <-]; repeat constructor. Qed.
Lemma take_towards frame a r out b :
  Ws.take_frame frame a = (r, out, b) → r ≠ Err WsExhausted → ranges_towards (da_evidence a) →
  Forall (starts_towards d) out ∧ ranges_towards (da_evidence b).
Proof.
  unfold Ws.take_frame. intros E Hr Ht. revert E Hr. destruct (_ <? _)%Z; [by intros [= <- <- <-]|].
  set (size := Z.to_nat _).
  assert (∃ a1 r1, (if (fh_opcode frame <? 8)%Z then Ws.append_payload frame size a else (Ok (), a)) = (r1, a1) ∧
    da_evidence a1 = da_evidence a) as (a1 & r1 & -> & Hw).
  { destruct (_ <? _)%Z; [|by do 2 eexists]. destruct (Ws.append_payload frame size a) as [r1 a1] eqn:Ea.
    apply append_account in Ea as (_ & Hw & _). exists a1, r1. split; [done|]. unfold wire_of in Hw. by injection Hw. }
  destruct r1 as [[]|e]; [|intros [= <- <- <-] _; by rewrite Hw].
  destruct (_ && _).
  - destruct (Ws.finish_message _) as [[r2 out2] a3] eqn:Ef. cbn. intros [= <- <- <-] Hr.
    split; [by eapply finish_towards|]. apply finish_account in Ef as (_ & _ & _ & _ & -> & _); [|by destruct r2 as [|[]]].
    cbn. rewrite Hw. by apply evict_towards.
  - intros [= <- <- <-] _. split; [constructor|]. cbn. rewrite Hw. by apply evict_towards.
Qed.
Lemma advance_towards segment a r out b :
  Ws.advance segment a = (r, out, b) → r ≠ Err WsExhausted → ranges_towards (da_evidence a) →
  sg_direction segment = d → Forall (starts_towards d) out ∧ ranges_towards (da_evidence b).
Proof.
  unfold Ws.advance. intros E Hr Ht Hs. revert E Hr. destruct (da_frame a) as [f|]; [intros; by eapply take_towards|].
  destruct (WsFrame.parse _ _) as [[f|]|]; [|by intros [= <- <- <-]|by intros [= <- <- <-]].
  destruct (Ws.open_frame segment f a) as [[r1 out1] a1] eqn:Eo.
  pose proof (open_towards _ _ _ _ _ _ Eo Ht Hs) as Ho. apply open_account in Eo as (_ & _ & _ & _ & He & _).
  destruct r1 as [[]|e]; [|intros [= <- <- <-] _; split; [done|by rewrite He]].
  destruct (Ws.take_frame f a1) as [[r2 out2] a2] eqn:Et. intros [= <- <- <-] Hr.
  apply take_towards in Et as [H1 H2]; [|done|by rewrite He]. split; [by apply Forall_app|done].
Qed.
Lemma abort_towards reason a : Forall (starts_towards d) (option_list (Ws.abort reason a).1) ∧ ranges_towards (da_evidence (Ws.abort reason a).2).
Proof.
  unfold Ws.abort. cbn [fst snd]. split; [|constructor]. destruct (da_message _); repeat constructor.
Qed.
Lemma push_loop_towards fuel segment out a o b :
  Ws.push_loop fuel segment out a = Some (o, b) → ranges_towards (da_evidence a) → sg_direction segment = d →
  Forall (starts_towards d) out → Forall (starts_towards d) (do_events o) ∧ ranges_towards (da_evidence b).
Proof.
  revert out a. induction fuel as [|fuel IH]; intros out a E Ht Hs Ho; [done|]. revert E. cbn [Ws.push_loop].
  destruct (Ws.advance segment a) as [[r events] a1] eqn:Ea.
  assert (r = Err WsExhausted ∨ r ≠ Err WsExhausted) as [->|Hr] by (destruct r as [|[]]; auto; by right); [done|].
  destruct (advance_towards _ _ _ _ _ Ea Hr Ht Hs) as [H1 H2].
  assert (Forall (starts_towards d) (out ++ events)) as Ho' by (by apply Forall_app).
  destruct r as [[[]|]|[reason|]]; [| |by intros [= <- <-]| |done].
  - destruct (abort_towards WsPeerClosed a1) as [H3 H4]. destruct (Ws.abort _ a1) as [e a2]. intros [= <- <-].
    split; [by apply Forall_app|done].
  - intros E. by eapply IH.
  - destruct (abort_towards reason a1) as [H3 H4]. destruct (Ws.abort _ a1) as [e a2]. intros [= <- <-].
    split; [by apply Forall_app|done].
Qed.
Lemma push_towards segment a o b :
  Ws.push segment a = Some (o, b) → directed a → sg_direction segment = d → accounts a (do_events o) b →
  directed b ∧ Forall (towards d) (do_events o).
Proof.
  intros E [Hr Ho] Hs Hacc.
  assert (Forall (starts_towards d) (do_events o) ∧ ranges_towards (da_evidence b)) as [Hst Hb].
  { revert E. unfold Ws.push. destruct (_ || _).
    - destruct (abort_towards WsCapacityExceeded a) as [H3 H4]. destruct (Ws.abort _ a) as [e a1]. by intros [= <- <-].
    - cbv zeta. destruct (Ws.push_loop _ _ _ _) as [[o1 a2]|] eqn:El; [|done]. cbn. intros [= <- <-].
      apply push_loop_towards in El as [H1 H2]; [| |done|constructor].
      + split; [done|]. unfold Ws.compact. by repeat case_match.
      + cbn. apply Forall_app. split; [done|]. repeat constructor. done. }
  destruct (lifecycle_towards d _ _ _ (ac_life _ _ _ Hacc) Ho Hst) as [H1 H2]. split; [|done]. by split.
Qed.
End directions.

(** * The life of a connection *)

Section transport.
Context {I : Inflate} {IB : InflateBounds I} {AD : AcceptDigest}.
Implicit Types (t : WebSocketTransport) (c : WebSocketConnection) (k : PayloadStreamIdentity).

Definition side (d : PayloadDirection) c : DirectionAssembler :=
  match d with Outbound => wc_outbound c | Inbound => wc_inbound c end.
Record connection_ok c : Prop := {
  co_sound d : sound (side d c);
  co_directed d : directed d (side d c);
}.
Lemma new_connection_ok id path ext limits :
  (0 ≤ wl_max_decoded_message_bytes limits)%Z → connection_ok (WsConnection.new id path ext limits).
Proof. intros H. split; intros []; split; cbn; try done; try lia; constructor. Qed.

Lemma filter_all {A} (P : A → Prop) `{∀ x, Decision (P x)} l : Forall P l → filter P l = l.
Proof. induction 1; [done|]. rewrite filter_cons_True by done. by f_equal. Qed.
Lemma filter_other d d' es : d ≠ d' → Forall (towards d) es → filter (towards d') es = [].
Proof.
  intros Hd. induction 1 as [|e es He _ IH]; [done|]. rewrite filter_cons_False; [done|]. unfold towards in *. congruence.
Qed.

(** A segment changes its own direction. *)
Lemma observe_connection segment c :
  connection_ok c →
  ∃ o c', WsConnection.observe segment c = Some (o, c') ∧ connection_ok c' ∧
    ∀ d, lifecycle (open_head (side d c)) (filter (towards d) (do_events o)) (open_head (side d c')).
Proof using IB.
  intros [Hs Hd]. destruct (push_account segment (side (sg_direction segment) c) (Hs _)) as (o & b & E & Ha & Hb & _).
  destruct (push_towards _ _ _ _ _ E (Hd _) eq_refl Ha) as [Hdb Hev]. unfold WsConnection.observe.
  destruct (sg_direction segment) eqn:Edir; cbn [side] in *; rewrite E; cbn [mbind option_bind]; do 2 eexists; (split; [done|]).
  - split; [split; intros []; cbn; first [done|apply (Hs Inbound)|apply (Hd Inbound)]|]. intros []; cbn.
    + rewrite filter_all by done. apply Ha.
    + rewrite (filter_other Outbound Inbound) by done. constructor.
  - split; [split; intros []; cbn; first [done|apply (Hs Outbound)|apply (Hd Outbound)]|]. intros []; cbn.
    + rewrite (filter_other Inbound Outbound) by done. constructor.
    + rewrite filter_all by done. apply Ha.
Qed.
Lemma abort_connection reason c d :
  connection_ok c → lifecycle (open_head (side d c)) (filter (towards d) (WsConnection.abort reason c).1) None.
Proof.
  intros [Hs Hd]. unfold WsConnection.abort.
  destruct (abort_account reason (wc_outbound c)) as [Ho1 Ho2]. destruct (abort_account reason (wc_inbound c)) as [Hi1 Hi2].
  destruct (lifecycle_towards Outbound _ _ _ (ac_life _ _ _ Ho1) (di_open _ _ (Hd Outbound))) as [Ho _]; [apply abort_towards|].
  destruct (lifecycle_towards Inbound _ _ _ (ac_life _ _ _ Hi1) (di_open _ _ (Hd Inbound))) as [Hi _]; [apply abort_towards|].
  destruct (Ws.abort reason (wc_outbound c)) as [e1 a1], (Ws.abort reason (wc_inbound c)) as [e2 a2]. cbn [fst snd] in *.
  rewrite filter_app. destruct d; cbn [side].
  - rewrite (filter_all (towards Outbound)), (filter_other Inbound Outbound), app_nil_r by done.
    rewrite <-Ho2. apply Ho1.
  - rewrite (filter_other Outbound Inbound), (filter_all (towards Inbound)) by done.
    rewrite <-Hi2. apply Hi1.
Qed.

(** The table: every connection in order, and not too many. *)
Record table_ok t : Prop := {
  ta_open k c : wt_connections t !! k = Some (Open c) → connection_ok c;
  ta_size : (Z.of_nat (size (wt_connections t)) ≤ wt_max_connections t)%Z;
}.
Definition is_open k t : Prop := ∃ c, wt_connections t !! k = Some (Open c).
(** The message open in a direction of a stream. *)
Definition open_in k (d : PayloadDirection) t : option WebSocketMessageHead :=
  match wt_connections t !! k with Some (Open c) => open_head (side d c) | _ => None end.

(** What happens to the table: calls, the stream they are about and the events they report. *)
Inductive step : WebSocketTransport → PayloadStreamIdentity → list WebSocketMessageEvent → WebSocketTransport → Prop :=
| st_head h t : step t (WsTransport.identity h) [] (WsTransport.observe_head h t)
| st_upgrade h request limits t : ¬ is_open (WsTransport.identity h) t → (0 ≤ wl_max_decoded_message_bytes limits)%Z →
    step t (WsTransport.identity h) [] (WsTransport.upgrade h request limits t).2
| st_response h request t : step t (WsTransport.identity h) [] (WsTransport.observe_response h request t)
| st_observe s o t t' : WsTransport.observe s t = Some (o, t') → step t (from_segment s) (wo_events o) t'
| st_abort k reason t : step t k (WsTransport.abort_identity k reason t).1 (WsTransport.abort_identity k reason t).2.

Lemma delete_size k t : (Z.of_nat (size (wt_connections t)) ≤ wt_max_connections t)%Z →
  (Z.of_nat (size (delete k (wt_connections t))) ≤ wt_max_connections t)%Z.
Proof. intros H. rewrite map_size_delete. destruct (_ !! k); unfold id; lia. Qed.
Lemma delete_ok k t : table_ok t → table_ok (WsTransport.set_connections (delete k (wt_connections t)) t).
Proof.
  intros [Ho Hs]. split; cbn; [|by apply delete_size]. intros k' c Hc. destruct (decide (k' = k)) as [->|Hne].
  - by rewrite lookup_delete_eq in Hc.
  - rewrite lookup_delete_ne in Hc by done. by eapply Ho.
Qed.
Lemma delete_open k t k' d :
  ¬ is_open k t → open_in k' d (WsTransport.set_connections (delete k (wt_connections t)) t) = open_in k' d t.
Proof.
  intros Hn. unfold open_in. cbn. destruct (decide (k' = k)) as [->|Hne]; [|by rewrite lookup_delete_ne].
  rewrite lookup_delete_eq. unfold is_open in Hn. destruct (_ !! k) as [[o|c]|]; [done| |done]. exfalso. eauto.
Qed.

(** The new entry of one stream, in a table of the old size or smaller. *)
Lemma insert_ok k st t :
  table_ok t → is_Some (wt_connections t !! k) ∨ (Z.of_nat (size (wt_connections t)) < wt_max_connections t)%Z →
  (∀ c, st = Open c → connection_ok c) → table_ok (WsTransport.set_connections (<[k := st]> (wt_connections t)) t).
Proof.
  intros [Ho Hs] Hk Hc. split; cbn.
  - intros k' c. destruct (decide (k' = k)) as [->|Hne]; [rewrite lookup_insert_eq; intros [= ->]; by apply Hc|].
    rewrite lookup_insert_ne by done. apply Ho.
  - rewrite map_size_insert. destruct (wt_connections t !! k); [done|]. destruct Hk as [[? ?]|Hk]; [done|]. lia.
Qed.
Lemma open_in_insert k st t d :
  open_in k d (WsTransport.set_connections (<[k := st]> (wt_connections t)) t)
  = match st with Open c => open_head (side d c) | Offered _ => None end.
Proof. unfold open_in. cbn. by rewrite lookup_insert_eq. Qed.

(** One call: the table stays in order, other streams are untouched, and the events of its
    own stream continue the messages that were open. *)
Definition step_ok t k es t' : Prop :=
  table_ok t' ∧ wt_max_connections t' = wt_max_connections t ∧
  (∀ k', k' ≠ k → wt_connections t' !! k' = wt_connections t !! k') ∧
  ∀ d, lifecycle (open_in k d t) (filter (towards d) es) (open_in k d t').

Lemma silent_ok t k t' :
  table_ok t' → wt_max_connections t' = wt_max_connections t →
  (∀ k', k' ≠ k → wt_connections t' !! k' = wt_connections t !! k') → (∀ d, open_in k d t' = open_in k d t) →
  step_ok t k [] t'.
Proof. intros H1 H2 H3 H4. unfold step_ok. splits; [done|done|done|]. intros d. rewrite H4. constructor. Qed.
Lemma unchanged_ok t k : table_ok t → step_ok t k [] t.
Proof. intros H. by apply silent_ok. Qed.
Lemma removed_ok t k : table_ok t → ¬ is_open k t → step_ok t k [] (WsTransport.set_connections (delete k (wt_connections t)) t).
Proof.
  intros H Hn. apply silent_ok; [by apply delete_ok|done| |].
  - intros k' Hk. cbn. by rewrite lookup_delete_ne.
  - intros d. by apply delete_open.
Qed.
Lemma abort_identity_ok t k reason :
  table_ok t → step_ok t k (WsTransport.abort_identity k reason t).1 (WsTransport.abort_identity k reason t).2.
Proof.
  intros H. unfold step_ok, WsTransport.abort_identity. cbn [fst snd]. splits; [by apply delete_ok|done| |].
  - intros k' Hk. cbn. by rewrite lookup_delete_ne.
  - intros d. unfold open_in. cbn. rewrite lookup_delete_eq. destruct (wt_connections t !! k) as [[o|c]|] eqn:E; [constructor| |constructor].
    apply abort_connection. by eapply ta_open.
Qed.

Lemma observe_ok s t : table_ok t → ∃ o t', WsTransport.observe s t = Some (o, t') ∧ step_ok t (from_segment s) (wo_events o) t' ∧
  (wo_stopped o ≠ None → wt_connections t' !! from_segment s = None).
Proof using IB.
  intros H. unfold WsTransport.observe. set (k := from_segment s).
  destruct (wt_connections t !! k) as [[o|c]|] eqn:E; [by do 2 eexists; split; [done|]; split; [apply unchanged_ok|]| |
    by do 2 eexists; split; [done|]; split; [apply unchanged_ok|]].
  destruct (observe_connection s c (ta_open _ H _ _ E)) as (o & c' & -> & Hc & Hl). cbn [mbind option_bind].
  set (t1 := WsTransport.set_connections _ t).
  assert (table_ok t1) as H1 by (apply insert_ok; [done|left; by eexists|by intros ? [= <-]]).
  assert (∀ d, open_in k d t = open_head (side d c) ∧ open_in k d t1 = open_head (side d c')) as Hopen.
  { intros d. split; [unfold open_in; by rewrite E|apply open_in_insert]. }
  assert (∀ k', k' ≠ k → wt_connections t1 !! k' = wt_connections t !! k') as Hother.
  { intros k' Hk. cbn. by rewrite lookup_insert_ne. }
  destruct (WsTransport.stop_reason s o) as [reason|].
  - destruct (abort_identity_ok t1 k reason H1) as (H2 & H3 & H4 & H5).
    assert (wt_connections (WsTransport.abort_identity k reason t1).2 !! k = None) as Hgone by (cbn; apply lookup_delete_eq).
    destruct (WsTransport.abort_identity k reason t1) as [es t2]. cbn [fst snd] in *.
    do 2 eexists. split; [done|]. split; [|done]. unfold step_ok. splits; [done|done|intros k' Hk; by rewrite H4, Hother|].
    intros d. cbn. rewrite filter_app. eapply lifecycle_app; [|apply H5]. destruct (Hopen d) as [-> ->]. apply Hl.
  - do 2 eexists. split; [done|]. split; [|done]. unfold step_ok. splits; [done|done|done|]. intros d. destruct (Hopen d) as [-> ->]. apply Hl.
Qed.

Lemma step_is_ok t k es t' : step t k es t' → table_ok t → step_ok t k es t'.
Proof using IB.
  intros [h t0|h request limits t0 Hn Hl|h request t0|s o t0 t1 E|k0 reason t0] H.
  - unfold WsTransport.observe_head. destruct (ms_direction _); [|by apply unchanged_ok].
    destruct (WsHandshake.request h) as [[path accept]|]; [|by apply unchanged_ok].
    case_bool_decide as Hk; [by apply unchanged_ok|]. destruct (Z.leb_spec (wt_max_connections t0) (Z.of_nat (size (wt_connections t0)))); [by apply unchanged_ok|].
    apply silent_ok; [by apply insert_ok; [done|right|]|done| |].
    + intros k' Hne. cbn. by rewrite lookup_insert_ne.
    + intros d. rewrite open_in_insert. unfold open_in. destruct (_ !! _) eqn:E; [|done]. exfalso. apply Hk. by eexists.
  - unfold WsTransport.upgrade. destruct (wt_connections t0 !! WsTransport.identity h) as [[o|c]|] eqn:E;
      [|exfalso; apply Hn; by eexists|by apply removed_ok].
    destruct (WsHandshake.accepted h) as [[accept ext]|]; [|by apply removed_ok].
    destruct (_ || _); [by apply removed_ok|]. cbn [snd]. rewrite insert_delete_eq.
    apply silent_ok; [|done| |].
    + apply insert_ok; [done|left; by eexists|]. intros c [= <-]. by apply new_connection_ok.
    + intros k' Hne. cbn. by rewrite lookup_insert_ne.
    + intros d. rewrite open_in_insert. unfold open_in. rewrite E. by destruct d.
  - unfold WsTransport.observe_response. destruct (_ ≫= _) as [status|]; [|by apply unchanged_ok].
    destruct (_ <? _)%Z; [by apply unchanged_ok|]. destruct (wt_connections t0 !! _) as [[o|c]|] eqn:E; [|by apply unchanged_ok..].
    case_bool_decide; [|by apply unchanged_ok]. apply removed_ok; [done|]. intros [c Hc]. congruence.
  - destruct (observe_ok s t0 H) as (o' & t1' & E' & Hok & _). rewrite E in E'. injection E' as <- <-. exact Hok.
  - by apply abort_identity_ok.
Qed.

(** Calls one after the other, with the stream and the events of each. *)
Inductive calls : WebSocketTransport → list (PayloadStreamIdentity * list WebSocketMessageEvent) → WebSocketTransport → Prop :=
| ca_nil t : calls t [] t
| ca_cons t k es t1 l t2 : step t k es t1 → calls t1 l t2 → calls t ((k, es) :: l) t2.
Definition events_of k (l : list (PayloadStreamIdentity * list WebSocketMessageEvent)) : list WebSocketMessageEvent :=
  mjoin (snd <$> filter (λ p, p.1 = k) l).

Lemma calls_ok t l t' :
  calls t l t' → table_ok t →
  table_ok t' ∧ wt_max_connections t' = wt_max_connections t ∧
  ∀ k d, lifecycle (open_in k d t) (filter (towards d) (events_of k l)) (open_in k d t').
Proof using IB.
  induction 1 as [t|t k es t1 l t2 Hst _ IH]; intros Ht; [splits; [done|done|constructor]|].
  destruct (step_is_ok _ _ _ _ Hst Ht) as (H1 & H2 & H3 & H4). destruct (IH H1) as (H5 & H6 & H7).
  splits; [done|congruence|]. intros k' d. unfold events_of. destruct (decide (k = k')) as [->|Hne].
  - rewrite filter_cons_True by done. cbn [fmap list_fmap snd]. rewrite mjoin_cons, filter_app.
    by eapply lifecycle_app.
  - rewrite filter_cons_False by done. replace (open_in k' d t) with (open_in k' d t1); [apply H7|].
    unfold open_in. by rewrite H3 by congruence.
Qed.
End transport.

(** A connection opens exactly when the response answers the stream's offer. *)
Lemma upgrade_iff {I : Inflate} h request limits t :
  (WsTransport.upgrade h request limits t).1 = true ↔
  ∃ offer ext, wt_connections t !! WsTransport.identity h = Some (Offered offer) ∧
    WsHandshake.accepted h = Some (of_expected_accept offer, ext) ∧ request = Some (of_request_id offer).
Proof.
  unfold WsTransport.upgrade. destruct (wt_connections t !! _) as [[o|c]|]; cbn [fst].
  - destruct (WsHandshake.accepted h) as [[accept ext]|]; cbn [fst].
    + destruct (bool_decide (request = Some (of_request_id o))) eqn:E1, (bool_decide (accept = of_expected_accept o)) eqn:E2;
        cbn [negb orb fst]; rewrite ?bool_decide_eq_true, ?bool_decide_eq_false in *; split; try done.
      * intros _. subst. eauto.
      * by intros (offer & ext' & [= <-] & [= -> _] & _).
      * by intros (offer & ext' & [= <-] & _ & ?).
      * by intros (offer & ext' & [= <-] & _ & ?).
    + split; [done|]. by intros (offer & ext & _ & ? & _).
  - split; [done|]. by intros (offer & ext & ? & _).
  - split; [done|]. by intros (offer & ext & ? & _).
Qed.

(** Connections keep their promises.  However heads, responses, upgrades, captured
    segments and aborts of any streams are interleaved, there are never more connections
    than configured; in each direction of each stream the reported events are messages one
    after the other, each started once and ended once, across all connections the stream
    has had; every segment is processed to an end, and when that stops the connection it
    is gone and all its messages have ended. *)
Theorem websocket_transport_safety {I : Inflate} {IB : InflateBounds I} {AD : AcceptDigest} limits l t :
  (0 ≤ wl_max_active_connections limits)%Z → calls (WsTransport.new limits) l t →
  (Z.of_nat (size (wt_connections t)) ≤ wl_max_active_connections limits)%Z ∧
  (∀ k d, lifecycle None (filter (towards d) (events_of k l)) (open_in k d t)) ∧
  ∀ s, ∃ o t', WsTransport.observe s t = Some (o, t') ∧
    (wo_stopped o ≠ None → let k := from_segment s in
       wt_connections t' !! k = None ∧
       ∀ d, lifecycle None (filter (towards d) (events_of k (l ++ [(k, wo_events o)]))) None).
Proof.
  intros Hm Hc. assert (table_ok (WsTransport.new limits)) as H0 by (split; cbn; [done|by rewrite map_size_empty]).
  destruct (calls_ok _ _ _ Hc H0) as (Ht & Hmax & Hl). splits.
  - change (wl_max_active_connections limits) with (wt_max_connections (WsTransport.new limits)). rewrite <-Hmax. apply Ht.
  - exact Hl.
  - intros s. destruct (observe_ok s t Ht) as (o & t' & E & (_ & _ & _ & Hs) & Hgone). exists o, t'. split; [done|].
    intros Hstop k. specialize (Hgone Hstop). split; [done|]. intros d. unfold events_of.
    rewrite filter_app, filter_cons_True, fmap_app, mjoin_app, filter_app by done.
    eapply lifecycle_app; [apply Hl|]. cbn. rewrite app_nil_r.
    specialize (Hs d). unfold open_in at 2 in Hs. fold k in Hgone, Hs. by rewrite Hgone in Hs.
Qed.

(** ** Example *)

#[local] Instance no_inflate : Inflate := {|
  Inflater := unit;
  inflater_new := tt;
  inflater_reset i := i;
  decompress i _ _ := (Err (), i);
|}.
#[local] Instance no_inflate_bounds : InflateBounds no_inflate.
Proof. split. done. Qed.
#[local] Instance digest0 : AcceptDigest := {| accept_digest _ := "acc" |}.

Definition crlf_text (ls : list string) : string := foldr (λ l s, l +:+ H1.crlf +:+ s) EmptyString ls.
Definition source0 (d : PayloadDirection) : Http1MessageSource := mkSource 1 7 TlsUserSpace "s" d 100 1 1.
Definition request0 : Http1MessageHead :=
  mkMessageHead "m1" (source0 Outbound) "http/1.1" (Some "GET") None (Some "/chat") None None
    (crlf_text ["GET /chat HTTP/1.1"; "Upgrade: websocket"; "Connection: keep-alive, Upgrade"; "Sec-WebSocket-Key: x"]) None.
Definition response0 : Http1MessageHead :=
  mkMessageHead "m2" (source0 Inbound) "http/1.1" None None None (Some "101") None
    (crlf_text ["HTTP/1.1 101 Switching"; "Upgrade: WebSocket"; "Connection: Upgrade"; "Sec-WebSocket-Accept: acc"]) None.
Definition limits0 : WsLimits := mkWsLimits 1000 1000 1000 10 16 4.
(** An unmasked text frame that is not finished. *)
Definition segment1 : PayloadSegment := TrackerFacts.segment0 5 [Byte.x01; Byte.x02; Byte.x68; Byte.x69].
Definition opened0 : WebSocketTransport :=
  (WsTransport.upgrade response0 (Some "m1") limits0 (WsTransport.observe_head request0 (WsTransport.new limits0))).2.
Definition after0 : WebSocketObservation * WebSocketTransport :=
  default (mkWsObservation [] None, opened0) (WsTransport.observe segment1 opened0).
Example opened0_starts : length (wo_events after0.1) = 1 ∧ open_in (from_segment segment1) Inbound after0.2 ≠ None.
Proof. vm_compute. done. Qed.

(** an offer, its acceptance and the first fragment of a message. *)
Lemma websocket_transport_safety_witness :
  let k := from_segment segment1 in
  let l := [(WsTransport.identity request0, []); (WsTransport.identity response0, []); (k, wo_events after0.1)] in
  (Z.of_nat (size (wt_connections after0.2)) ≤ wl_max_active_connections limits0)%Z ∧
  (∀ k d, lifecycle None (filter (towards d) (events_of k l)) (open_in k d after0.2)) ∧
  ∀ s, ∃ o t', WsTransport.observe s after0.2 = Some (o, t') ∧
    (wo_stopped o ≠ None → let k := from_segment s in
       wt_connections t' !! k = None ∧
       ∀ d, lifecycle None (filter (towards d) (events_of k (l ++ [(k, wo_events o)]))) None).
Proof.
  apply websocket_transport_safety; [vm_compute; discriminate|].
  eapply ca_cons; [apply st_head|]. eapply ca_cons.
  { apply (st_upgrade response0 (Some "m1") limits0); [|vm_compute; discriminate].
    intros [c Hc]. vm_compute in Hc. discriminate. }
  eapply ca_cons; [|apply ca_nil]. apply st_observe. vm_compute. reflexivity.
Defined.
End WsTransportFacts.
