(* ===== verification/HttpSession.v ===== *)
(** One direction of an HTTP/1 connection: the decoder of Http1.v, the evidence of its
    bytes and the events of its messages.
    crates/core/semantic_action_runtime/src/llm_pipeline/transport/http1/session.rs.

    The caller's closure is a consumer with a state of its own; the serial number of the
    last message is shared between sessions and passed through.  [None] results stand for
    exhausted fuel and for the panics of [expect] and of slicing; none of them happens
    (session_lifecycle). *)
From stdpp Require Import prelude strings gmap pretty.
From Stdlib Require Import ZArith Lia.
From coqutil Require Import Byte.
From S2P Require Import Prelude Bytes ProcessIdentity Model Utf8 Scan Http1 Payload Evidence.

Open Scope nat_scope.

(** What the closure is shown. *)
Inductive Http1Update :=
| UpHead (head : Http1MessageHead)
| UpContent (head : Http1MessageHead) (message : H1.DecodedHttp1Message) (wire : list byte)
    (segments : list PayloadSegment) (evidence : EvidenceSnapshot) (message_start : nat) (force_terminal : bool).
Class Consumer : Type := {
  Consumed : Type;
  consume : Http1Update → Consumed → option string * Consumed;
}.
Record Http1Upgrade := mkUpgrade {
  up_request_message_id : option string;
  up_head : Http1MessageHead;
  up_tails : list PayloadSegment;
}.
Record Http1Session `{D : Decompressors} := mkSession {
  hs_decoder : H1.Http1Decoder D;
  hs_wire : CursorBuffer;
  hs_base_offset : nat;
  hs_evidence : EvidenceTracker;
  hs_cursor : option EvidenceCursor;
  hs_head : option Http1MessageHead;
  hs_published_body_len : nat;
  hs_max_bytes : Z;
  hs_max_ranges : Z;
  hs_upgraded : bool;
  hs_awaiting_request : bool;
  hs_observed_at : option SystemTime;
  hs_upgrade : option (Http1MessageHead * PayloadSegment);
}.

Module Session.
Section session.
Context {D : Decompressors} {K : Consumer}.
Implicit Types s : Http1Session.

(** The parts that change together. *)
Definition set_wire (d : H1.Http1Decoder D) (w : CursorBuffer) (base : nat) (ev : EvidenceTracker)
    (c : option EvidenceCursor) (published : nat) s : Http1Session :=
  mkSession D d w base ev c (hs_head s) published (hs_max_bytes s) (hs_max_ranges s) (hs_upgraded s)
    (hs_awaiting_request s) (hs_observed_at s) (hs_upgrade s).
Definition set_head (h : option Http1MessageHead) s : Http1Session :=
  mkSession D (hs_decoder s) (hs_wire s) (hs_base_offset s) (hs_evidence s) (hs_cursor s) h
    (hs_published_body_len s) (hs_max_bytes s) (hs_max_ranges s) (hs_upgraded s) (hs_awaiting_request s)
    (hs_observed_at s) (hs_upgrade s).
Definition set_flags (upgraded awaiting : bool) (at_ : option SystemTime)
    (u : option (Http1MessageHead * PayloadSegment)) s : Http1Session :=
  mkSession D (hs_decoder s) (hs_wire s) (hs_base_offset s) (hs_evidence s) (hs_cursor s) (hs_head s)
    (hs_published_body_len s) (hs_max_bytes s) (hs_max_ranges s) upgraded awaiting at_ u.
Definition set_decoder (d : H1.Http1Decoder D) s : Http1Session :=
  set_wire d (hs_wire s) (hs_base_offset s) (hs_evidence s) (hs_cursor s) (hs_published_body_len s) s.
Definition set_cursor (c : option EvidenceCursor) s : Http1Session :=
  set_wire (hs_decoder s) (hs_wire s) (hs_base_offset s) (hs_evidence s) c (hs_published_body_len s) s.
Definition set_published (n : nat) s : Http1Session :=
  set_wire (hs_decoder s) (hs_wire s) (hs_base_offset s) (hs_evidence s) (hs_cursor s) n s.
Definition wire_of s : list byte := Buffer.bytes (hs_wire s).

Definition active_message_id s : option string := mh_message_id <$> hs_head s.
Definition has_unclassified_tail s : bool :=
  hs_awaiting_request s || (bool_decide (hs_head s = None) && negb (bool_decide (wire_of s = []))).
Definition new (direction : PayloadDirection) (max_bytes max_ranges max_decoded_bytes : Z) : Http1Session :=
  mkSession D
    (H1.with_decoded_limit max_decoded_bytes
       (H1.new (match direction with Outbound => DirRequest | Inbound => DirResponse end) max_bytes))
    Buffer.default_ 0 Tracker.default_ None None 0 max_bytes max_ranges false false None None.

Definition abort (reason : Http1AbortReason) s : list Http1MessageEvent * Http1Session :=
  (match hs_head s with
   | Some head => [EvAbort (mh_message_id head) reason (default (ms_observed_at (mh_source head)) (hs_observed_at s))]
   | None => []
   end,
   set_flags (hs_upgraded s) false (hs_observed_at s) (hs_upgrade s)
     (set_head None
        (set_wire (H1.reset (hs_decoder s)) Buffer.default_ (hs_base_offset s + length (wire_of s))
           (Tracker.reset (hs_evidence s)) None 0 s))).
Definition failure_reason (f : Http1DecodeFailure) : Http1AbortReason :=
  match f with BufferCapacity => AbCapacityExceeded | _ => AbDecodeFailure end.

(** The head of the message at the front of the wire. *)
Definition message_head (m : H1.DecodedHttp1Message) (first : PayloadSegment) (serial : Z) : Http1MessageHead :=
  let p := H1.dm_head m in
  mkMessageHead ("trace:" +:+ pretty (sg_trace_id first) +:+ ":http.message:" +:+ pretty serial) (source_of first)
    (H1.ph_protocol p) (H1.ph_method p) (H1.ph_authority p) (H1.ph_path p) (H1.ph_status_code p) (H1.ph_reason p)
    (H1.dm_headers_text m) (H1.dm_declared_body_len m).

(** What a part of the loop of [process] does next. *)
Inductive Next := Continue | Break | Panic.
(** State of the loop: the session, the serial number, the consumer, the output. *)
Definition Loop : Type := Http1Session * Z * Consumed * list Http1MessageEvent.

(** First part: a head, unless one is confirmed. *)
Definition read_head (l : Loop) : Next * Loop :=
  let '(s, next_message, c, out) := l in
  match hs_head s with
  | Some _ => (Continue, l)
  | None =>
      let '(r, d) := H1.read_head (wire_of s) (hs_decoder s) in
      let s := set_decoder d s in
      match r with
      | Ok None => (Break, (s, next_message, c, out))
      | Err _ => let '(es, s) := abort AbDecodeFailure s in (Break, (s, next_message, c, out ++ es))
      | Ok (Some message) =>
          match checked_add_u64 next_message 1 with
          | None => let '(es, s) := abort AbCapacityExceeded s in (Break, (s, next_message, c, out ++ es))
          | Some serial =>
              match head (Tracker.for_range (hs_base_offset s) (hs_base_offset s + H1.dm_encoded_len message) (hs_evidence s)) with
              | None => (Break, (s, serial, c, out))
              | Some first =>
                  let h := message_head message first serial in
                  let '(method, c) := consume (UpHead h) c in
                  let s :=
                    match method with
                    | Some method =>
                        let '(upgraded, d) := H1.apply_request_method method (hs_decoder s) in
                        set_flags upgraded (hs_awaiting_request s) (hs_observed_at s) (hs_upgrade s) (set_decoder d s)
                    | None =>
                        if bool_decide (is_Some (mh_status_code h))
                        then set_flags (hs_upgraded s) true (hs_observed_at s) (hs_upgrade s) s else s
                    end in
                  (Continue, (set_cursor (Some (Tracker.cursor (hs_base_offset s) (hs_evidence s))) (set_head (Some h) s),
                              serial, c, out ++ [EvHead h]))
              end
          end
      end
  end.

(** The new bytes of the body are published. *)
Definition publish (h : Http1MessageHead) (message : H1.DecodedHttp1Message) s : list Http1MessageEvent * Http1Session :=
  match H1.body_bytes (wire_of s) (H1.dm_body message) with
  | None => ([], s)
  | Some body =>
      (if hs_published_body_len s <? length body
       then [EvBody (mh_message_id h) (drop (hs_published_body_len s) body)] else [],
       set_published (length body) s)
  end.
(** The message is complete: its bytes are released. *)
Definition finish (h : Http1MessageHead) (snapshot : EvidenceSnapshot) (encoded_len : nat) s : Http1Session :=
  let upgrade := if hs_upgraded s then match es_last snapshot with Some source => Some (h, source) | None => hs_upgrade s end
                 else hs_upgrade s in
  let base := hs_base_offset s + encoded_len in
  set_flags (hs_upgraded s) (hs_awaiting_request s) (hs_observed_at s) upgrade
    (set_head None
       (set_wire (H1.reset (hs_decoder s)) (Buffer.release encoded_len (hs_wire s)).2 base
          (Tracker.evict_before base (hs_evidence s)) None 0 s)).
(** Second part: the body of the confirmed head. *)
Definition read_body (eof_at : option SystemTime) (force_terminal : bool) (l : Loop) : Next * Loop :=
  let '(s, next_message, c, out) := l in
  if hs_awaiting_request s then (Break, l)
  else
    match H1.advance (wire_of s) (bool_decide (is_Some eof_at)) (hs_decoder s) with
    | None => (Panic, l)
    | Some (r, d) =>
        let s := set_decoder d s in
        match r with
        | Ok None => (Break, (s, next_message, c, out))
        | Err failure => let '(es, s) := abort (failure_reason failure) s in (Break, (s, next_message, c, out ++ es))
        | Ok (Some message) =>
            match hs_head s, hs_cursor s with
            | Some h, Some cursor =>
                let encoded_len := H1.dm_encoded_len message in
                if length (wire_of s) <? encoded_len then (Panic, l)
                else
                  let '(bodies, s) := publish h message s in
                  let stop := hs_base_offset s + encoded_len in
                  let segments := if bool_decide (is_Some (mh_method h)) && (H1.dm_complete message || force_terminal)
                                  then Tracker.for_range (hs_base_offset s) stop (hs_evidence s) else [] in
                  let '(_, cursor) := Tracker.advance_cursor stop (hs_evidence s) cursor in
                  let s := set_cursor (Some cursor) s in
                  let failed := bool_decide (is_Some (H1.dm_framing_failure message)) in
                  let '(_, c) := consume (UpContent h message (take encoded_len (wire_of s)) segments
                                            (ec_snapshot cursor) (hs_base_offset s) (force_terminal || failed)) c in
                  let out := out ++ bodies in
                  match H1.dm_framing_failure message with
                  | Some failure =>
                      let '(es, s) := abort (failure_reason failure) s in (Break, (s, next_message, c, out ++ es))
                  | None =>
                      if negb (H1.dm_complete message) then (Break, (s, next_message, c, out))
                      else
                        let eof_end_at := if H1.dm_body_boundary_known message then None else eof_at in
                        let ended := match eof_end_at with Some t => t
                                     | None => default (ms_observed_at (mh_source h)) (hs_observed_at s) end in
                        let s := finish h (ec_snapshot cursor) encoded_len s in
                        let out := out ++ [EvEnd (mh_message_id h) ended] in
                        (if hs_upgraded s || bool_decide (wire_of s = []) then Break else Continue,
                         (s, next_message, c, out))
                  end
            | _, _ => (Panic, l)
            end
        end
    end.
Fixpoint process_loop (fuel : nat) (eof_at : option SystemTime) (force_terminal : bool) (l : Loop) : option Loop :=
  match fuel with
  | O => None
  | S fuel' =>
      match read_head l with
      | (Panic, _) => None
      | (Break, l1) => Some l1
      | (Continue, l1) =>
          match read_body eof_at force_terminal l1 with
          | (Panic, _) => None
          | (Break, l2) => Some l2
          | (Continue, l2) => process_loop fuel' eof_at force_terminal l2
          end
      end
  end.
Definition process (eof_at : option SystemTime) (force_terminal : bool) (l : Loop) : option Loop :=
  process_loop (S (length (wire_of l.1.1.1))) eof_at force_terminal l.

Definition finalize (l : Loop) : option Loop := process None true l.
Definition resume (eof_at : option SystemTime) (l : Loop) : option Loop :=
  if bool_decide (is_Some eof_at) && negb (Tracker.capture_tail_complete (hs_evidence l.1.1.1)) then
    '(s, n, c, out) ← process None true l;
    let '(es, s) := abort AbCaptureIncomplete s in Some (s, n, c, out ++ es)
  else process eof_at (bool_decide (is_Some eof_at)) l.
Definition advance (segment : PayloadSegment) (l : Loop) : option Loop :=
  let '(s, n, c, out) := l in
  if hs_upgraded s then Some l
  else if (hs_max_bytes s <? saturating_add_u64 (Z.of_nat (length (wire_of s))) (Z.of_nat (length (sg_bytes segment))))%Z
          || (hs_max_ranges s <=? Z.of_nat (Tracker.len (hs_evidence s)))%Z
  then
    '(s, n, c, out) ← finalize l;
    let '(es, s) := abort AbCapacityExceeded s in Some (s, n, c, out ++ es)
  else
    let start := hs_base_offset s + length (wire_of s) in
    let s := set_wire (hs_decoder s) (Buffer.extend_from_slice (sg_bytes segment) (hs_wire s)) (hs_base_offset s)
               (Tracker.append start (start + length (sg_bytes segment)) segment (hs_evidence s)) (hs_cursor s)
               (hs_published_body_len s) s in
    resume None (set_flags (hs_upgraded s) (hs_awaiting_request s) (Some (sg_observed_at segment)) (hs_upgrade s) s, n, c, out).

Definition take_upgrade s : option Http1Upgrade * Http1Session :=
  match hs_upgrade s with
  | None => (None, s)
  | Some (head, _) =>
      let tails := Tracker.slice_payloads (hs_base_offset s) (wire_of s) (hs_evidence s) in
      (Some (mkUpgrade None head tails),
       set_flags (hs_upgraded s) (hs_awaiting_request s) (hs_observed_at s) None
         (set_wire (hs_decoder s) Buffer.default_ (hs_base_offset s) (hs_evidence s) (hs_cursor s)
            (hs_published_body_len s) s))
  end.
Definition bind_request (response_id method : string) s : bool * Http1Session :=
  match hs_head s with
  | Some h =>
      if bool_decide (mh_message_id h = response_id) then
        let '(upgraded, d) := H1.apply_request_method method (hs_decoder s) in
        (true, set_flags upgraded false (hs_observed_at s) (hs_upgrade s) (set_decoder d s))
      else (false, s)
  | None => (false, s)
  end.
End session.
End Session.
