(* ===== verification/HttpSessionFacts.v ===== *)
(** Properties of the HTTP/1 session of HttpSession.v: every call ends, and its events are
    messages with a head, body bytes and one end. *)
From stdpp Require Import prelude strings gmap pretty.
From Stdlib Require Import ZArith Lia Sorted.
From coqutil Require Import Byte.
From S2P Require Import Prelude Bytes ProcessIdentity Model Utf8 Scan Http1 Http1Facts Payload Evidence HttpSession.

Open Scope nat_scope.

(** * What a call of the decoder leaves *)

Module SessionFacts.
Import H1 H1Facts TrackerFacts.

Section decoder.
Context {D : Decompressors} {str : Streaming D}.
Implicit Types (w : list byte) (a b : ActiveMessage D) (d : Http1Decoder D).

Lemma copy_start w e a : am_body_start (copy_wire_delta w e a) = am_body_start a.
Proof. by destruct (copy_frame w e a) as (_ & _ & _ & F & _). Qed.
Lemma finish_start a : am_body_start (finish_body a) = am_body_start a.
Proof. by destruct (finish_frame a) as [(_ & _ & _ & F & _) _]. Qed.
Lemma match_crlf_start n w m a : am_body_start (match_crlf n w m a).2 = am_body_start a.
Proof.
  revert m a. induction n as [|n IH]; intros m a; cbn [match_crlf]; [done|].
  destruct (_ && _); [|done]. destruct (bool_decide _); [|done]. by rewrite IH.
Qed.
Lemma match_crlf_post n w m a :
  am_wire_cursor a ≤ length w → am_wire_cursor a ≤ am_wire_cursor (match_crlf n w m a).2 ≤ length w.
Proof.
  revert m a. induction n as [|n IH]; intros m a H; cbn [match_crlf]; [cbn; lia|].
  destruct (Nat.ltb_spec m 2); cbn [andb]; [|cbn; lia].
  destruct (Nat.ltb_spec (am_wire_cursor a) (length w)); [|cbn; lia].
  destruct (bool_decide _); [|cbn; lia].
  pose proof (IH (S m) (H1.set_cursor (S (am_wire_cursor a)) a)) as H3. cbn in H3. lia.
Qed.
(** A turn does not move the body's start, and a failing one leaves the cursor inside. *)
Lemma turn_start w a :
  match chunk_turn w a with Again b | Return _ b => am_body_start b = am_body_start a end.
Proof.
  unfold chunk_turn, size_line, data, data_crlf, trailers.
  destruct (am_chunk a); repeat case_match; subst; cbn; rewrite ?copy_start; try done.
  all: simplify_eq; cbn; rewrite ?copy_start; try done.
  all: match goal with E : match_crlf ?n ?w ?m ?a = _ |- _ =>
    pose proof (match_crlf_start n w m a) as F; by rewrite E in F end.
Qed.
Lemma turn_error w a b e :
  chunk_turn w a = Return (Err e) b → seen w a → am_wire_cursor a ≤ am_wire_cursor b ≤ length w.
Proof.
  intros E [Hs Hc _ _]. revert E. unfold chunk_turn, size_line, data, data_crlf, trailers.
  destruct (am_chunk a); repeat case_match; intros [= <- <-]; try lia.
  match goal with E : match_crlf ?n ?w ?m ?a = _ |- _ => pose proof (match_crlf_post n w m a Hc) as F; rewrite E in F end.
  cbn in F. lia.
Qed.
Lemma run_post w a r b :
  chunk_run w a r b → seen w a → am_framing a = Chunked → am_complete a = false →
  am_body_start b = am_body_start a ∧ (∀ e, r = Err e → am_body_start b ≤ am_wire_cursor b ≤ length w).
Proof using str.
  induction 1 as [a r b E|a b r c E Hrun IH]; intros Hs Hf Hc.
  - assert (am_body_start b = am_body_start a) as Hst by (pose proof (turn_start w a) as T; by rewrite E in T). split; [done|].
    intros e ->. pose proof (turn_error _ _ _ _ E Hs). pose proof (seen_start _ _ Hs). lia.
  - assert (am_body_start b = am_body_start a) as Hst by (pose proof (turn_start w a) as T; by rewrite E in T).
    pose proof (chunk_turn_extends w [] a Hs Hf Hc) as Hx. unfold turn_extends in Hx. rewrite E in Hx.
    destruct Hx as (_ & Hs' & Hf' & Hc' & _). destruct (IH Hs' Hf' Hc') as [H1 H2]. split; [congruence|done].
Qed.

(** The body after a call. *)
Lemma body_post w eos a r b :
  advance_body w eos a = Some (r, b) → seen w a →
  am_body_start b = am_body_start a ∧ am_body_start b ≤ am_wire_cursor b ≤ length w ∧ (r = Ok () → seen w b).
Proof using str.
  intros E Hs. pose proof Hs as [Hst Hcu Hfx Hk].
  destruct (am_complete a) eqn:Hc; [unfold advance_body in E; rewrite Hc in E; injection E as <- <-; by splits|].
  assert (am_body_start b = am_body_start a ∧ (∀ e, r = Err e → am_body_start b ≤ am_wire_cursor b ≤ length w)) as [H1 H2].
  { revert E. unfold advance_body. rewrite Hc. destruct (am_framing a) as [|n| |] eqn:Hf.
    - intros [= <- <-]. by rewrite finish_start.
    - destruct (_ <? _)%Z; intros [= <- <-]; [split; [done|lia]|]. rewrite finish_start. cbn. by rewrite copy_start.
    - destruct (advance_chunked _ w a) as [[[[]|e] b']|] eqn:El; [| |done]; intros [= <- <-]; apply loop_run in El;
        apply run_post in El as [H1 H2]; try done. by rewrite finish_start.
    - intros [= <- <-]. rewrite finish_start. cbn. by rewrite copy_start. }
  assert (r = Ok () → seen w b) as H3.
  { intros ->. destruct (decide (am_framing a = UntilEof)) as [Hf|Hf].
    - revert E. unfold advance_body. rewrite Hc, Hf. intros [= <-]. apply finish_seen.
      destruct (copy_frame w (length w) a) as (_ & _ & _ & F1 & F2 & F3 & F4).
      split; cbn; rewrite ?copy_cursor, ?F1, ?F2, ?Hf; [lia|lia|done|done].
    - assert (advance_body w false a = Some (Ok (), b)) as E'.
      { revert E. unfold advance_body. rewrite Hc. destruct (am_framing a); done. }
      destruct (advance_body_extends w [] a Hs) as (r' & b' & E'' & Hx). rewrite E' in E''. injection E'' as <- <-. apply Hx. }
  assert (am_body_start b ≤ am_wire_cursor b ≤ length w); [|done].
  destruct r as [[]|e]; [destruct (H3 eq_refl); lia|by apply (H2 e)].
Qed.

(** What the session's decoder is like between the calls. *)
Record decoder_inv w d : Prop := {
  di_seen : decoder_seen w d;
  di_start : ∀ a, hd_state d = ReadingBody a → 0 < am_body_start a;
}.
Lemma decoder_inv_app w x d : decoder_inv w d → decoder_inv (w ++ x) d.
Proof. intros [H1 H2]. split; [by apply decoder_seen_app|done]. Qed.
Lemma decoder_inv_reset w d : decoder_inv w (reset d).
Proof. split; [|done]. split; [cbn; lia|]. cbn. lia. Qed.
Lemma advance_head_start w scan d a : advance_head w scan d = Ok (ReadingBody a) → 0 < am_body_start a.
Proof.
  unfold advance_head. destruct (find_from _ _ _); [|done]. destruct (utf8_valid _); [|done].
  destruct (parse_head _ _); [|done]. cbn [mbind result_bind]. intros [= <-]. cbn. lia.
Qed.
Lemma advance_head_inv w scan d st :
  scanned HEADER_END w 0 scan → advance_head w scan d = Ok st → decoder_inv w (set_state st d).
Proof.
  intros Hs E. split; [by eapply head_seen|]. cbn. intros a ->. by apply advance_head_start in E.
Qed.
Lemma read_head_inv w d : decoder_inv w d → decoder_inv w (H1.read_head w d).2.
Proof.
  intros H. unfold H1.read_head. destruct (_ <? _)%Z; [done|].
  destruct (hd_state d) as [scan| |] eqn:E; [|done..].
  destruct (advance_head w scan d) as [st|] eqn:Eh; [|done]. cbn.
  apply (advance_head_inv _ scan); [|done]. destruct H as [H _]. unfold decoder_seen in H. by rewrite E in H.
Qed.
Lemma method_inv w m d : decoder_inv w d → decoder_inv w (apply_request_method m d).2.
Proof.
  intros Hd. pose proof Hd as [Hs Hb]. unfold apply_request_method. unfold decoder_seen in Hs.
  destruct (hd_state d) as [|a|]; [done| |done]. destruct (_ || _); [|done].
  destruct Hs as [H1 H2 H3 H4]. split; [by split|]. cbn. intros b [= <-]. by apply (Hb a).
Qed.

(** A call returns; a message it returns lies within the wire. *)
Lemma advance_inv w eos d :
  decoder_inv w d →
  ∃ r d', H1.advance w eos d = Some (r, d') ∧ decoder_inv w d' ∧
    match r with Ok (Some m) => 0 < dm_encoded_len m ≤ length w | _ => True end.
Proof using str.
  intros Hd. destruct (Z.leb_spec (Z.of_nat (length w)) (hd_max_buffer_bytes d)) as [Hl|Hl].
  2: { unfold H1.advance. rewrite (proj2 (Z.ltb_lt _ _) Hl). cbn. do 2 eexists. split; [done|]. split; [by split|done]. }
  assert (∀ d a, (Z.of_nat (length w) ≤ hd_max_buffer_bytes d)%Z → hd_state d = ReadingBody a → decoder_inv w d →
    ∃ r d', H1.advance w eos d = Some (r, d') ∧ decoder_inv w d' ∧
      match r with Ok (Some m) => 0 < dm_encoded_len m ≤ length w | _ => True end) as Hbody.
  { clear d Hd Hl. intros d a Hl Ea [Hs Hb]. specialize (Hb a Ea). unfold decoder_seen in Hs. rewrite Ea in Hs.
    destruct (body_total w eos a Hs) as [[r b] Eb]. pose proof (body_post _ _ _ _ _ Eb Hs) as (P1 & P2 & P3).
    exists (deliver d r b).1, (deliver d r b).2. split; [rewrite <-surjective_pairing; by eapply advance_in_body|]. destruct r as [[]|e]; cbn; (split; [split|lia]); try done.
    - by apply P3.
    - cbn. intros c [= <-]. lia. }
  destruct (hd_state d) as [scan|a|e] eqn:Es.
  - rewrite (advance_in_head _ _ _ scan) by done.
    assert (scanned HEADER_END w 0 scan) as Hsc by (destruct Hd as [H _]; unfold decoder_seen in H; by rewrite Es in H).
    destruct (advance_head w scan d) as [st|f] eqn:Eh; [|by do 2 eexists].
    pose proof (advance_head_inv _ _ _ _ Hsc Eh) as Hi. destruct st as [n|a|e]; [by do 2 eexists| |by do 2 eexists].
    by apply (Hbody _ a).
  - by apply (Hbody _ a).
  - rewrite (advance_failed _ _ _ e) by done. by do 2 eexists.
Qed.
End decoder.

(** * The events of a session *)

(** The message that is open after an event; [None]: an event out of place. *)
Definition open_after (o : option string) (e : Http1MessageEvent) : option (option string) :=
  match o, e with
  | None, EvHead h => Some (Some (mh_message_id h))
  | Some id, EvBody id' _ => if bool_decide (id = id') then Some (Some id) else None
  | Some id, EvEnd id' _ | Some id, EvAbort id' _ _ => if bool_decide (id = id') then Some None else None
  | _, _ => None
  end.
Fixpoint open_run (o : option string) (es : list Http1MessageEvent) : option (option string) :=
  match es with [] => Some o | e :: es' => o' ← open_after o e; open_run o' es' end.
Definition head_ids (es : list Http1MessageEvent) : list string :=
  omap (λ e, match e with EvHead h => Some (mh_message_id h) | _ => None end) es.
Definition http_id (trace serial : Z) : string := "trace:" +:+ pretty trace +:+ ":http.message:" +:+ pretty serial.

Lemma open_run_app o es fs : open_run o (es ++ fs) = (o' ← open_run o es; open_run o' fs).
Proof.
  revert o. induction es as [|e es IH]; intros o; cbn; [done|]. destruct (open_after o e); cbn; [apply IH|done].
Qed.
Lemma head_ids_app es fs : head_ids (es ++ fs) = head_ids es ++ head_ids fs.
Proof. apply omap_app. Qed.

(** The heads so far carry increasing serial numbers, none past the counter. *)
Definition numbered (n : Z) (out : list Http1MessageEvent) : Prop :=
  ∃ ids : list (Z * Z), head_ids out = (λ p, http_id p.1 p.2) <$> ids ∧
    StronglySorted Z.lt ids.*2 ∧ Forall (λ k, k ≤ n)%Z ids.*2.

Lemma numbered_le n n' out : (n ≤ n')%Z → numbered n out → numbered n' out.
Proof. intros H (ids & H1 & H2 & H3). exists ids. splits; [done|done|]. eapply Forall_impl; [done|]. cbn. lia. Qed.
Lemma numbered_silent n out es : head_ids es = [] → numbered n out → numbered n (out ++ es).
Proof. intros H (ids & H1 & H2 & H3). exists ids. rewrite head_ids_app, H, app_nil_r. done. Qed.
Lemma sorted_snoc (l : list Z) k : StronglySorted Z.lt l → Forall (λ x, x < k)%Z l → StronglySorted Z.lt (l ++ [k]).
Proof.
  induction 1 as [|x l Hs IH Hx]; cbn; [by repeat constructor|]. intros [H1 H2]%Forall_cons. constructor; [by apply IH|].
  apply Forall_app. split; [done|]. by constructor.
Qed.
Lemma numbered_head n n' t h out :
  (n < n')%Z → mh_message_id h = http_id t n' → numbered n out → numbered n' (out ++ [EvHead h]).
Proof.
  intros Hn Hh (ids & H1 & H2 & H3). exists (ids ++ [(t, n')]). rewrite head_ids_app, H1, !fmap_app. cbn. rewrite Hh.
  splits; [done| |].
  - apply sorted_snoc; [done|]. eapply Forall_impl; [done|]. cbn. lia.
  - apply Forall_app. split; [eapply Forall_impl; [done|]; cbn; lia|]. by repeat constructor.
Qed.

(** * The invariant of a session *)

Section session.
Context {D : Decompressors} {str : Streaming D} {K : Consumer}.
Import Session.
Implicit Types (s : Http1Session) (l : Loop).

Record session_inv s : Prop := {
  si_decoder : decoder_inv (wire_of s) (hs_decoder s);
  si_wire : Buffer.wf (hs_wire s);
  si_cursor : is_Some (hs_head s) → is_Some (hs_cursor s);
}.
Record loop_inv l : Prop := {
  li_session : session_inv l.1.1.1;
  li_open : open_run None l.2 = Some (active_message_id l.1.1.1);
  li_serials : numbered l.1.1.2 l.2;
}.

Lemma abort_inv r s : session_inv s → session_inv (abort r s).2.
Proof. intros _. split; [apply decoder_inv_reset|apply Buffer.default_wf|by intros []]. Qed.
Lemma abort_loop r s n c out :
  loop_inv (s, n, c, out) → loop_inv ((abort r s).2, n, c, out ++ (abort r s).1).
Proof.
  intros [H1 H2 H3]. cbn in *. split; cbn [fst snd]; [by apply (abort_inv r)| |].
  - rewrite open_run_app, H2. cbn. unfold active_message_id. destruct (hs_head s); cbn; [|done]. by rewrite bool_decide_true.
  - apply numbered_silent; [|done]. cbn. by destruct (hs_head s).
Qed.
Lemma decoder_loop d s n c out :
  decoder_inv (wire_of s) d → loop_inv (s, n, c, out) → loop_inv (set_decoder d s, n, c, out).
Proof. intros Hd [[H1 H2 H3] H4 H5]. by split; [split|..]. Qed.
Lemma serial_loop n n' s c out : (n ≤ n')%Z → loop_inv (s, n, c, out) → loop_inv (s, n', c, out).
Proof. intros Hn [H1 H2 H3]. split; [done..|]. by apply (numbered_le n). Qed.

(** The first part of a turn. *)
Lemma read_head_post l :
  loop_inv l →
  match Session.read_head l with
  | (Panic, _) => False
  | (Break, l1) => loop_inv l1
  | (Continue, l1) => loop_inv l1 ∧ is_Some (hs_head l1.1.1.1) ∧ wire_of l1.1.1.1 = wire_of l.1.1.1
  end.
Proof.
  destruct l as [[[s n] c] out]. intros Hl. unfold Session.read_head.
  destruct (hs_head s) as [h|] eqn:Eh; [by cbn; rewrite Eh|].
  pose proof (read_head_inv (wire_of s) (hs_decoder s) (si_decoder _ (li_session _ Hl))) as Hd.
  destruct (H1.read_head _ _) as [r d]. cbn [snd] in Hd.
  pose proof (decoder_loop d s n c out Hd Hl) as Hs. destruct r as [[m|]|e]; [|done|by apply (abort_loop AbDecodeFailure) in Hs].
  unfold checked_add_u64. destruct (decide _) as [Hn|Hn]; [|by apply (abort_loop AbCapacityExceeded) in Hs].
  destruct (head _) as [first|]; [|apply (serial_loop n); [lia|done]].
  destruct (consume _ c) as [method c']. destruct Hs as [[Hs1 Hs2 Hs3] Hs4 Hs5]. cbn [fst snd] in Hs4, Hs5.
  assert (∀ s', decoder_inv (wire_of s) (hs_decoder s') → hs_wire s' = hs_wire s →
    loop_inv (set_cursor (Some (Tracker.cursor (hs_base_offset s') (hs_evidence s')))
                (set_head (Some (message_head m first (n + 1))) s'), (n + 1)%Z, c',
              out ++ [EvHead (message_head m first (n + 1))])) as Hgo.
  { intros s' Hd' Hw. split; [split|..]; cbn [fst snd].
    - unfold wire_of. cbn. by rewrite Hw.
    - cbn. by rewrite Hw.
    - by eexists.
    - rewrite open_run_app, Hs4. cbn. unfold active_message_id. cbn. by rewrite Eh.
    - eapply numbered_head; [|done|done]. lia. }
  destruct method as [method|].
  - pose proof (method_inv _ method _ Hd) as Hm. cbn [hs_decoder set_decoder set_wire].
    destruct (apply_request_method method d) as [up d']. by split; [apply Hgo|].
  - destruct (bool_decide _); by split; [apply Hgo|].
Qed.

(** A finished message is released and the next one starts behind it. *)
Lemma session_finish_inv h sn len s :
  len ≤ length (wire_of s) → session_inv s →
  session_inv (finish h sn len s) ∧ wire_of (finish h sn len s) = drop len (wire_of s).
Proof.
  intros Hl [_ Hw _]. destruct (Buffer.release_spec len (hs_wire s) Hw Hl) as (b & E & Hb & Hd).
  split; [split; [apply decoder_inv_reset| |by intros []]|]; unfold finish, wire_of; cbn; by rewrite E.
Qed.
Lemma publish_inv h m s : session_inv s → session_inv (publish h m s).2.
Proof. intros [H1 H2 H3]. unfold publish. by destruct (body_bytes _ _); split. Qed.
Lemma publish_events h m s :
  head_ids (publish h m s).1 = [] ∧
  open_run (Some (mh_message_id h)) (publish h m s).1 = Some (Some (mh_message_id h)).
Proof.
  unfold publish. destruct (body_bytes _ _) as [b|]; [|done]. cbn [fst]. destruct (hs_published_body_len s <? length b); [|done].
  cbn. by rewrite bool_decide_true.
Qed.
Lemma publish_same h m s :
  hs_wire (publish h m s).2 = hs_wire s ∧ hs_head (publish h m s).2 = hs_head s.
Proof. unfold publish. by destruct (body_bytes _ _). Qed.

(** The second part. *)
Lemma read_body_post eof ft l :
  loop_inv l → is_Some (hs_head l.1.1.1) →
  match read_body eof ft l with
  | (Panic, _) => False
  | (Break, l1) => loop_inv l1
  | (Continue, l1) => loop_inv l1 ∧ length (wire_of l1.1.1.1) < length (wire_of l.1.1.1)
  end.
Proof using str.
  destruct l as [[[s n] c] out]. cbn [fst snd]. intros Hl [h Eh]. unfold read_body. destruct (hs_awaiting_request s); [done|].
  destruct (advance_inv (wire_of s) (bool_decide (is_Some eof)) (hs_decoder s)) as (r & d & E & Hd & Hm);
    [apply Hl|]. rewrite E.
  pose proof (decoder_loop d s n c out Hd Hl) as Hs. destruct r as [[m|]|e]; [|done|by apply (abort_loop (failure_reason e)) in Hs].
  clear E Hd Hl. change (wire_of s) with (wire_of (set_decoder d s)) in *. change (hs_head s) with (hs_head (set_decoder d s)) in Eh.
  set (s1 := set_decoder d s) in *. clearbody s1. destruct Hs as [Hs1 Hs2 Hs3]. cbn [fst snd] in *.
  rewrite Eh. destruct (si_cursor _ Hs1) as [cur ->]; [by eexists|].
  rewrite (proj2 (Nat.ltb_ge _ _)) by lia.
  pose proof (publish_inv h m s1 Hs1) as Hp. pose proof (publish_events h m s1) as [He1 He2].
  pose proof (publish_same h m s1) as [Hw Hh]. destruct (publish h m s1) as [bodies s2]. cbn [fst snd] in *.
  destruct (Tracker.advance_cursor _ _ cur) as [? cur'].
  destruct (consume _ c) as [? c'].
  assert (loop_inv (set_cursor (Some cur') s2, n, c', out ++ bodies)) as Hs'.
  { destruct Hp as [P1 P2 P3]. split; [split; [done|done|by eexists]|..]; cbn [fst snd].
    - rewrite open_run_app, Hs2. unfold active_message_id in *. cbn. by rewrite Hh, Eh.
    - by apply numbered_silent. }
  destruct (dm_framing_failure m) as [f|]; [by apply (abort_loop (failure_reason f)) in Hs'|].
  destruct (negb _); [done|]. destruct Hs' as [F1 F2 F3]. cbn [fst snd] in *.
  assert (wire_of (set_cursor (Some cur') s2) = wire_of s1) as Ew by (unfold wire_of; cbn; by rewrite Hw).
  destruct (session_finish_inv h (ec_snapshot cur') (dm_encoded_len m) (set_cursor (Some cur') s2)) as [G1 G2];
    [rewrite Ew; lia|done|].
  set (ended := match (if dm_body_boundary_known m then None else eof) with Some t => t | None => _ end).
  assert (loop_inv (finish h (ec_snapshot cur') (dm_encoded_len m) (set_cursor (Some cur') s2), n, c',
      (out ++ bodies) ++ [EvEnd (mh_message_id h) ended])) as Hf.
  { split; [done|..]; cbn [fst snd].
    - rewrite open_run_app, F2. unfold active_message_id. cbn. rewrite Hh, Eh. cbn. by rewrite bool_decide_true.
    - by apply numbered_silent. }
  destruct (_ || _); [done|]. split; [done|]. cbn [fst snd]. rewrite G2, Ew, length_drop. lia.
Qed.

Lemma process_loop_total fuel eof ft l :
  loop_inv l → length (wire_of l.1.1.1) < fuel →
  ∃ l', process_loop fuel eof ft l = Some l' ∧ loop_inv l'.
Proof using str.
  revert l. induction fuel as [|fuel IH]; intros l Hl Hf; [lia|]. cbn [process_loop].
  pose proof (read_head_post l Hl) as Hr. destruct (Session.read_head l) as [[] l1]; [|by eexists|done].
  destruct Hr as (H1 & H2 & H3). pose proof (read_body_post eof ft l1 H1 H2) as Hb.
  destruct (read_body eof ft l1) as [[] l2]; [|by eexists|done].
  destruct Hb as [H4 H5]. apply IH; [done|]. rewrite H3 in H5. lia.
Qed.
Lemma process_total eof ft l : loop_inv l → ∃ l', process eof ft l = Some l' ∧ loop_inv l'.
Proof using str. intros Hl. apply process_loop_total; [done|lia]. Qed.
Lemma resume_total eof l : loop_inv l → ∃ l', resume eof l = Some l' ∧ loop_inv l'.
Proof using str.
  intros Hl. unfold resume. destruct (_ && _); [|by apply process_total].
  destruct (process_total None true l Hl) as ([[[s n] c] out] & -> & H). cbn [mbind option_bind].
  eexists. split; [done|]. by apply (abort_loop AbCaptureIncomplete) in H.
Qed.
Lemma session_advance_total segment l : loop_inv l → ∃ l', Session.advance segment l = Some l' ∧ loop_inv l'.
Proof using str.
  destruct l as [[[s n] c] out]. intros Hl. unfold Session.advance. destruct (hs_upgraded s); [by eexists|].
  destruct (_ || _).
  - unfold finalize. destruct (process_total None true _ Hl) as ([[[s' n'] c'] out'] & -> & H). cbn [mbind option_bind].
    eexists. split; [done|]. by apply (abort_loop AbCapacityExceeded) in H.
  - apply resume_total. destruct Hl as [[H1 H2 H3] H4 H5]. split; [split|done|done]; cbn [fst snd] in *.
    + change (decoder_inv (Buffer.bytes (Buffer.extend_from_slice (sg_bytes segment) (hs_wire s))) (hs_decoder s)).
      rewrite Buffer.extend_bytes by done. by apply decoder_inv_app.
    + by apply Buffer.extend_wf.
    + done.
Qed.

Lemma bind_inv id m s n c out :
  loop_inv (s, n, c, out) → loop_inv ((bind_request id m s).2, n, c, out).
Proof.
  intros Hl. unfold bind_request. destruct (hs_head s) as [h|] eqn:Eh; [|done]. destruct (bool_decide _); [|done].
  pose proof (method_inv _ m _ (si_decoder _ (li_session _ Hl))) as Hm. cbn [fst] in Hm.
  destruct (apply_request_method m (hs_decoder s)) as [up d].
  apply (decoder_loop d) in Hl; [|done]. destruct Hl as [[H1 H2 H3] H4 H5]. by split; [split|..].
Qed.
(** A message has just ended: the connection is handed over before the decoder looks at
    the bytes behind it. *)
Definition between_messages s : Prop :=
  hs_head s = None ∧ hd_state (hs_decoder s) = ReadingHead 0.
Lemma take_inv s n c out :
  hs_upgrade s = None ∨ between_messages s → loop_inv (s, n, c, out) → loop_inv ((take_upgrade s).2, n, c, out).
Proof.
  intros Hb Hl. unfold take_upgrade. destruct (hs_upgrade s) as [[h p]|]; [|done].
  destruct Hb as [|[Hh Hd]]; [done|]. destruct Hl as [[H1 H2 H3] H4 H5].
  split; [split; [|apply Buffer.default_wf|done]|done|done]. split; cbn.
  - unfold decoder_seen. cbn. rewrite Hd. split; [cbn; lia|]. cbn. lia.
  - intros a. by rewrite Hd.
Qed.

(** The calls a session receives, in any order; other sessions draw numbers from the same
    counter in between. *)
Inductive call : Loop → Loop → Prop :=
| call_advance segment l l' : Session.advance segment l = Some l' → call l l'
| call_resume eof_at l l' : resume eof_at l = Some l' → call l l'
| call_finalize l l' : finalize l = Some l' → call l l'
| call_abort r s n c out : call (s, n, c, out) ((abort r s).2, n, c, out ++ (abort r s).1)
| call_bind id method s n c out : call (s, n, c, out) ((bind_request id method s).2, n, c, out)
| call_take s n c out :
    hs_upgrade s = None ∨ between_messages s → call (s, n, c, out) ((take_upgrade s).2, n, c, out)
| call_other s n n' c out : (n ≤ n')%Z → call (s, n, c, out) (s, n', c, out).

Lemma call_inv l l' : call l l' → loop_inv l → loop_inv l'.
Proof using str.
  intros H Hl. destruct H as [seg l l' E|eof l l' E|l l' E|r s n c out|id m s n c out|s n c out H|s n n' c out H].
  - destruct (session_advance_total seg l Hl) as (l1 & E1 & H1). congruence.
  - destruct (resume_total eof l Hl) as (l1 & E1 & H1). congruence.
  - destruct (process_total None true l Hl) as (l1 & E1 & H1). unfold finalize in E. congruence.
  - by apply (abort_loop r).
  - by apply (bind_inv id m).
  - by apply take_inv.
  - by apply (serial_loop n).
Qed.
Lemma calls_inv l l' : rtc call l l' → loop_inv l → loop_inv l'.
Proof using str. induction 1 as [|l1 l2 l3 H _ IH]; intros Hl; [done|]. by apply IH, (call_inv l1). Qed.
Lemma new_inv dir mb mr md n c : loop_inv (Session.new dir mb mr md, n, c, []).
Proof.
  split; [split; [split; [apply new_seen|done]|apply Buffer.default_wf|by intros []]|done|].
  exists []. splits; constructor.
Qed.
End session.


(** ** Examples *)

(** A consumer that answers every response head with the method of its request. *)
Instance get_consumer : Consumer := {|
  Consumed := nat;
  consume u c := match u with UpHead _ => (Some "GET", c) | _ => (None, S c) end;
|}.
Definition session0 : Http1Session := Session.new (D:=no_decompressors) Inbound 1000 10 100.
Definition start0 : Session.Loop (D:=no_decompressors) (K:=get_consumer) := (session0, 0%Z, 0, []).
Definition feed0 (pieces : list (list byte)) : option Session.Loop :=
  foldl (λ l p, match l with Some l => Session.advance (segment0 1 p) l | None => None end)
    (Some start0) pieces.
Definition show (e : Http1MessageEvent) : string * list byte :=
  match e with
  | EvHead _ => ("head", [])
  | EvBody _ b => ("body", b)
  | EvEnd _ _ => ("end", [])
  | EvAbort _ _ _ => ("abort", [])
  end.
Definition shown (l : option Session.Loop) : option (list (string * list byte)) :=
  match l with Some (_, out) => Some (map show out) | None => None end.
Example session_two_responses :
  shown (feed0 [take 60 (wire0 ++ wire0); drop 60 (wire0 ++ wire0)]) =
  Some [("head", []); ("body", string_bytes "hello"); ("body", string_bytes "!"); ("end", []);
        ("head", []); ("body", string_bytes "hello!"); ("end", [])].
Proof. vm_compute. reflexivity. Qed.

End SessionFacts.
